(* ===== verification/_CoqProject ===== *)
-Q . S2P
Prelude.v
JsMap.v
TaskTypes.v
Dag.v
TaskBoard.v
TaskBoardGraph.v
TaskBoardInv.v
TaskBoardSpec.v
Lifecycle.v
Bfs.v
Registry.v
AgentTree.v
Cascade.v
ReconcileQueue.v
WorkQueue.v
Runner.v
RunnerInv.v
RunnerSpec.v
Semaphore.v
Text.v
PathNorm.v
Glob.v
Permissions.v
SessionRepair.v
PairBoundaries.v
Compaction.v
Replacement.v
Budget.v
Heap.v
Scheduler.v
SchedulerSpec.v
Canonical.v
Delegation.v
DelegationSpec.v
Revocation.v
VectorClock.v
SyncEngine.v
SyncBatch.v
SyncEngineInv.v
SyncEngineSpec.v
SyncLive.v
Raft.v
RaftSpec.v
FederationMiddleware.v
ZoneRegistry.v
RestartIntensity.v
Supervision.v
ValidateSupervision.v
SupervisionInv.v
SupervisionSpec.v
SupervisionTrack.v
SupervisionHeal.v
RollingWindow.v
Governance.v
GovernanceSpec.v
Health.v
Sweeper.v
ConcurrencyGuard.v
ToolArgs.v
ConsumeStream.v
TurnMachine.v
TurnRunner.v
TurnCalls.v
TurnInv.v
TurnSpec.v
EditDistance.v
EditMatch.v
CircuitBreaker.v
SequenceTracker.v
Retry.v
Fallback.v
BreakerMiddleware.v
