(* ===== verification/Prelude.v ===== *)
(** * Koi: a verification of its coordination core

    Koi is a framework for running groups of language-model agents, written in
    TypeScript; the sources are under [src/packages].  This library models the
    parts that decide what may happen in such a group, and proves what they
    promise: the turns of an agent, with its model and its tools; the shared task
    board; the control plane that keeps track of agents, supervises them and
    drives them to their desired state; the permission engine in front of every
    tool and the delegation of permissions between agents; the repair and the
    compaction of message histories; the task scheduler; the governance of
    budgets; the federation of several installations; the choice of a model
    provider; the order of a client's messages; and the edits of files.  Paths
    below are relative to [src/packages].

    ** Parts and files

    Shared.  [Prelude]: results, JavaScript values and errors as the code has
    them, walks through relations, induction rules for loops.  [JsMap]:
    JavaScript maps and sets as association lists in insertion order, which is
    the order in which the code iterates.

    Task board ([kernel/core/src/task-board.ts], [lib/task-board/src]).  An
    immutable board of tasks with dependencies; agents claim tasks, complete,
    fail, retry or kill them.
    - [TaskTypes]: tasks, events, snapshots, the table of status changes.
    - [Dag]: [dag.ts]; cycle detection and topological sort, both proved correct
      against paths in the graph.
    - [TaskBoard]: [board.ts] and [helpers.ts]; one function per mutation
      ([Module TB]) from a board to an error or a new board with its events.
    - [TaskBoardGraph], [TaskBoardInv], [TaskBoardSpec]: the graph searches, the
      invariant of every reachable board, and the theorems: the unreachable
      query is exact, a board that is not finished has a task that can move,
      terminal tasks are final, limits on owners and retries hold, snapshots
      round-trip, and the board refines an abstract machine over statuses.

    Agent control plane ([kernel/engine/src/lifecycle.ts],
    [kernel/engine-reconcile/src]).
    - [Lifecycle]: the engine's lifecycle machine ([Module Fsm]) and the
      transition table of the registry are the same machine.
    - [Registry]: the store of agents ([Module Reg]), its compare-and-swap
      transitions and the events it emits.  [AgentTree]: its listeners, the
      process accounter and the process tree.  A generation of an agent has one
      winner; the accounter's count and the tree agree with the registry;
      ancestry queries terminate and are exact.
    - [Bfs], [Cascade]: the breadth-first skeleton, and the termination of the
      descendants of a dead agent while others act on the registry between its
      awaits.
    - [ReconcileQueue]: the deduplicating work queue, an array with tombstones
      and head pointer, refines a queue of keys.  [WorkQueue]: that contract as
      a type class, with the array queue as its instance.
    - [Runner], [RunnerInv], [RunnerSpec]: the reconcile runner as a state
      machine over any work queue: resource accounting, exclusion of overlapping
      passes, failed controllers are run again, disposal is final; and runs that
      show where the runner falls short.
    - [Semaphore], [ConcurrencyGuard]: the counting semaphore and the middleware
      that limits concurrent calls with it: never more calls inside than slots,
      and a waiter that compaction can lose.
    - [RestartIntensity], [Supervision], [ValidateSupervision]: restart budgets,
      the supervision controller as computations over registry, process tree and
      its own state, and the validation of declarations.  [SupervisionInv],
      [SupervisionSpec], [SupervisionTrack], [SupervisionHeal]: the strategies
      restart exactly the children they owe, a pass settles, agents exempt from
      the cascade are tracked, escalation is final.
    - [RollingWindow], [Governance], [GovernanceSpec]: the governance controller,
      the guard around turns and calls, and its reconciler: spend caps hold
      whatever adapters report, and the error rate over circular buffers is the
      one over the history.
    - [Health]: heartbeats in two tiers, the health, timeout and tool reconcilers
      and the eviction policies.  [Sweeper]: removal of terminated agents, with
      leases on promised removals and jittered back-off.

    Permissions ([security/permissions/src], [kernel/core/src/permission-backend.ts]).
    - [Text], [PathNorm]: string operations and resource normalisation;
      normal forms are canonical and escape no directory.
    - [Glob]: the regular expressions compiled from globs accept what the glob
      means, segment by segment.
    - [Permissions]: rules, sources, modes and the backend: precedence is
      respected, a query is allowed exactly by an allow rule that matches first or
      in bypass mode (in plan mode the actions documented as allowed automatically
      need the rule too), the default credential rules win; and resources that slip past them.

    Session repair ([mm/session-repair/src], [kernel/core/src/message.ts]).
    - [SessionRepair]: the four passes and the fast-path check, for every
      content hash: the check is exact, repair restores the pairing of calls and
      results under stated conditions, keeps the user's turns, and two kinds of
      history it does not repair.

    Context management ([lib/context-manager/src]).
    - [PairBoundaries], [Compaction], [Replacement], [Budget]: which messages may
      be cut without tearing a call from its result, the compaction policy with
      its overflow recovery, the replacement of large results by previews, and
      the budgets; compaction keeps pairs, the cuts it makes or announces fit the
      window whenever a valid one does, and recovery terminates.

    Task scheduler ([sched/scheduler/src]).
    - [Heap]: the binary heap refines a priority queue.  [Scheduler],
      [SchedulerSpec]: the scheduler as a state machine over timers and
      dispatches: no task is lost or run beyond the limits.

    Delegation ([security/governance-delegation/src]).
    - [Canonical]: the canonical text of what is signed.  [Delegation],
      [DelegationSpec], [Revocation]: tokens that pass permissions on: what
      verification checks, that no chain amplifies permissions, that the
      signature binds every field, and the registry of revocations.

    Turns of an agent ([lib/query-engine/src], [kernel/core/src/engine.ts]).
    - [ToolArgs]: coercion and validation of the arguments of a call: accepted
      are exactly those that conform to the schema of the tool, as far as the
      validator supports it.
    - [ConsumeStream]: the stream of a model's answer, folded into events and a
      verdict: one verdict, last, and completed only for a complete answer.
    - [TurnMachine]: the phases of a turn and the detection of repeated calls.
      [TurnRunner]: [runTurn], function by function, over an environment that
      answers by time ([Env]): the model, the tools, the stop gate and aborts.
      [TurnCalls], [TurnInv], [TurnSpec]: a run with a turn limit ends, its
      events are bracketed into turns, only permitted calls reach a tool, and
      every call has one result in every transcript sent to the model.

    Model providers ([lib/errors/src], [lib/model-router/src],
    [lib/middleware-circuit-breaker/src]).
    - [CircuitBreaker]: the ring buffer of failures refines their history.
      [Retry]: retries with back-off, and the bounds of the delay.  [Fallback]:
      the choice of a target past open breakers, and the order of the targets.
      [BreakerMiddleware]: breakers around model calls and streams, shared by
      what is in flight: the map of breakers is bounded and forgets no unhealthy
      one a session relies on; and a probe that is lost blocks its key.

    Gateway ([net/gateway/src]).
    - [SequenceTracker]: the frames of a client in the order it numbered them.

    Edits ([lib/edit-match/src]).
    - [EditDistance]: the distance program computes the least number of edits.
      [EditMatch]: four strategies that find the text to replace, and what the
      text they find is.

    Federation ([lib/federation/src]).
    - [VectorClock], [SyncEngine], [SyncBatch], [SyncEngineInv],
      [SyncEngineSpec], [SyncLive]: the synchronisation of zones by cursors over
      event logs.  [Raft], [RaftSpec]: the in-memory cluster.
      [FederationMiddleware], [ZoneRegistry]: routing of calls to other zones.

    ** How the model follows the code

    A function of the code is a function of the same name; mutable state of a
    closure is a record that is passed through; early returns and thrown errors
    are values of [Result] or [option].  Operations that emit events return
    them in order, and a synchronous listener is a fold over that list.  Where
    the code awaits, other activity may happen: [Cascade] takes it as a script
    of registry operations per await, [Runner] and [Semaphore] as arbitrary
    sequences of steps, [Fallback] as a function on the shared breakers.  The clock, random numbers, answers of controllers,
    the verdict of schema validation, [JSON.parse] and the reading and printing
    of numbers in tool calls, content hashes and signatures are parameters, and
    the theorems hold for all of them.  Supervision is written in a state monad over an oracle ([env]) that says what others do at each await,
    which agents are spawned and what the clock shows; variables that others
    contribute to governance answer through such an oracle too ([probe]).
    Numbers that the code only counts with are [Z] or [nat]: none of them comes
    near the limit of exact integers.

    ** Fuel

    Loops that are not structural take fuel, and each is called with an amount
    proved sufficient: the graph searches of [Dag] and [TaskBoard] get one more
    than the number of tasks, since every nested call marks a new task;
    topological sort one step per task; [bfs] the length of its queue plus the
    number of edges; ancestor chains two more than the number of entries of
    their map; [dequeue] and [release] one more than the cells after the head;
    [siftUp] and [siftDown] the length of the heap; [poll] the tasks that are
    queued; overflow recovery the retries that are left; [verifyChain] the tokens
    of the store and two more; the cascade of a revocation and its
    ancestor walks the registered tokens; [settle_all] the spawns that
    are in flight; [confirm_loop] the three attempts the code makes; the [while]
    of a run one more than its turn limit; [flush_loop] the buffered frames.
    The theorems about these functions state that they return.

    ** What is not modelled

    Registries behind a network, whose operations return promises, except for
    the awaits of the cascade; log output; freezing of objects; characters
    above 255 in paths, globs and edited files; Zod schemas; a consumer that
    throws into the generator of a run or returns from it; the rounding of
    floating-point similarities, weights and delays.  The other packages are
    listed with reasons in the manifest: most are adapters to services, user
    interfaces and storage. *)

From stdpp Require Export base tactics list strings relations sorting gmap pretty.

Declare Scope koi_scope.
Delimit Scope koi_scope with koi.

(** ** Results, as the code's [Result<T, E>] discriminated union *)

Inductive Result (T E : Type) : Type :=
  | Ok (value : T)
  | Err (error : E).
Arguments Ok {T E} value.
Arguments Err {T E} error.

Definition result_bind {T U E : Type} (r : Result T E) (k : T -> Result U E) : Result U E :=
  match r with
  | Ok v => k v
  | Err e => Err e
  end.

Notation "'let?' x ':=' r 'in' k" := (result_bind r (fun x => k))
  (at level 10, x binder, r at level 100, k at level 200) : koi_scope.

Definition is_ok {T E : Type} (r : Result T E) : bool :=
  match r with Ok _ => true | Err _ => false end.

(** Text between double quotes. *)
Definition quoted (s : string) : string :=
  let q := String (Ascii.ascii_of_nat 34) EmptyString in q +:+ s +:+ q.

(** ** JavaScript values, as far as the modelled code inspects them *)

(** Numbers are integers or "not a finite number"; the code modelled here does
    no arithmetic on fractions of a metadata value. *)
Inductive jsval : Type :=
  | JUndefined
  | JNull
  | JBool (b : bool)
  | JNum (n : Z)
  | JNonFinite
  | JStr (s : string)
  | JArr (l : list jsval)
  | JObj (fields : list (string * jsval)).

(** ** [KoiError] of [kernel/core/src/errors.ts] *)

Inductive KoiErrorCode : Type :=
  | VALIDATION | NOT_FOUND | PERMISSION | CONFLICT | RATE_LIMIT | TIMEOUT
  | EXTERNAL | INTERNAL | STALE_REF | AUTH_REQUIRED | RESOURCE_EXHAUSTED
  | UNAVAILABLE | HEARTBEAT_TIMEOUT | INVALID_BODY | INVALID_CONFIG | ALREADY_RUNNING.

#[export] Instance KoiErrorCode_eq_dec : EqDecision KoiErrorCode.
Proof. solve_decision. Defined.

Record KoiError : Type := mkKoiError {
  err_code : KoiErrorCode;
  err_message : string;
  err_retryable : bool;
  err_context : option (list (string * jsval));
  err_retryAfterMs : option Z
}.

(** Shorthand for the object literals the code writes ([context] and
    [retryAfterMs] omitted). *)
Definition koiError (code : KoiErrorCode) (message : string) (retryable : bool) : KoiError :=
  mkKoiError code message retryable None None.

(** ** Fuel: how much of a finite universe a traversal has not visited yet *)

Section Remaining.
Context {K : Type} `{EqDecision K}.

Definition remaining (univ visited : list K) : nat :=
  length (filter (fun k => k ∉ visited) univ).

Lemma remaining_le (univ visited : list K) : remaining univ visited <= length univ.
Proof. apply length_filter. Qed.

Lemma remaining_mono (univ v1 v2 : list K) :
  v1 ⊆ v2 -> remaining univ v2 <= remaining univ v1.
Proof.
  intros Hsub. unfold remaining. induction univ as [|k univ IH]; [done|].
  rewrite !filter_cons. repeat case_decide; simpl; try lia. set_solver.
Qed.

Lemma remaining_lt (univ v1 v2 : list K) (k : K) :
  v1 ⊆ v2 -> k ∈ univ -> k ∉ v1 -> k ∈ v2 -> remaining univ v2 < remaining univ v1.
Proof.
  intros Hsub Hk Hn Hin. apply list_elem_of_split in Hk as (l1 & l2 & ->).
  unfold remaining. rewrite !filter_app, !length_app, !filter_cons.
  pose proof (remaining_mono l1 _ _ Hsub) as H1.
  pose proof (remaining_mono l2 _ _ Hsub) as H2. unfold remaining in *.
  repeat case_decide; simpl; try lia; done.
Qed.
End Remaining.

(** ** Walks through a relation, with the nodes visited *)

Inductive walk {A : Type} (R : relation A) : A -> A -> list A -> Prop :=
  | walk_one a : walk R a a [a]
  | walk_step a b c p : R a b -> walk R b c p -> walk R a c (a :: p).

Lemma walk_rtc {A : Type} (R : relation A) a b p : walk R a b p -> rtc R a b.
Proof. induction 1; eauto using rtc_refl, rtc_l. Qed.

Lemma walk_last {A : Type} (R : relation A) a b p : walk R a b p -> last p = Some b.
Proof. induction 1 as [|a b c p HR Hw IH]; [done|]. destruct p; [by inversion Hw|done]. Qed.

(** A set that is closed under a relation contains what is reachable from it. *)
Lemma rtc_closed {A : Type} (R : relation A) (P : A -> Prop) a b :
  (forall x y, P x -> R x y -> P y) -> rtc R a b -> P a -> P b.
Proof. intros Hcl Hr. induction Hr; eauto. Qed.

Lemma tc_closed {A : Type} (R : relation A) (P : A -> Prop) a b :
  (forall x y, P x -> R x y -> P y) -> tc R a b -> P a -> P b.
Proof. intros Hcl Hr. by apply (rtc_closed R), tc_rtc. Qed.

Lemma rtc_tc_case {A : Type} (R : relation A) a b : rtc R a b <-> a = b \/ tc R a b.
Proof.
  split; [|intros [->|?]; [done|by apply tc_rtc]].
  destruct 1 as [|a c b HR Hr]; [by left|right]. eapply tc_rtc_r; [by apply tc_once|done].
Qed.

(** Invariant rule for a [foldl] whose body may run out of fuel. *)
Lemma foldl_option_ind {A S : Type} (Inv : list A -> S -> Prop) (body : option S -> A -> option S)
    (xs : list A) (st : S) :
  Inv [] st ->
  (forall seen x rest s, xs = seen ++ x :: rest -> Inv seen s ->
    exists s', body (Some s) x = Some s' /\ Inv (seen ++ [x]) s') ->
  exists s', foldl body (Some st) xs = Some s' /\ Inv xs s'.
Proof.
  intros H0 Hstep. cut (forall seen rest s, xs = seen ++ rest -> Inv seen s ->
    exists s', foldl body (Some s) rest = Some s' /\ Inv xs s').
  { intros Hc. by apply (Hc []). }
  intros seen rest. revert seen. induction rest as [|x rest IH]; intros seen s -> Hinv; simpl.
  - exists s. by rewrite app_nil_r.
  - destruct (Hstep seen x rest s eq_refl Hinv) as (s' & -> & Hr).
    apply (IH (seen ++ [x])); [by rewrite <-app_assoc|done].
Qed.

(** Invariant rule for a plain [foldl]. *)
Lemma foldl_ind {A S : Type} (Inv : list A -> S -> Prop) (body : S -> A -> S) (xs : list A) (st : S) :
  Inv [] st ->
  (forall seen x rest s, xs = seen ++ x :: rest -> Inv seen s -> Inv (seen ++ [x]) (body s x)) ->
  Inv xs (foldl body st xs).
Proof.
  intros H0 Hstep. cut (forall seen rest s, xs = seen ++ rest -> Inv seen s ->
    Inv xs (foldl body s rest)).
  { intros Hc. by apply (Hc []). }
  intros seen rest. revert seen. induction rest as [|x rest IH]; intros seen s -> Hinv; simpl.
  - by rewrite app_nil_r.
  - apply (IH (seen ++ [x])); [by rewrite <-app_assoc|]. by apply (Hstep _ _ rest).
Qed.

(** ** Sorted lists *)

Lemma StronglySorted_filter {A} (R : relation A) (P : A -> Prop) `{!forall x, Decision (P x)} l :
  StronglySorted R l -> StronglySorted R (filter P l).
Proof.
  induction 1 as [|x l Hl IH Hx]; [constructor|]. rewrite filter_cons. case_decide; [|done].
  constructor; [done|]. rewrite Forall_forall in *. intros y [_ Hy]%list_elem_of_filter. by apply Hx.
Qed.

Lemma StronglySorted_snoc {A} (R : relation A) l x :
  StronglySorted R l -> (forall y, y ∈ l -> R y x) -> StronglySorted R (l ++ [x]).
Proof.
  induction 1 as [|y l Hl IH Hy]; intros Hx; simpl; [repeat constructor|].
  constructor; [apply IH; intros; apply Hx; set_solver|].
  apply Forall_app_2; [done|]. constructor; [apply Hx; set_solver|constructor].
Qed.

Lemma filter_all {A} (P : A -> Prop) `{!forall x, Decision (P x)} (l : list A) :
  (forall x, x ∈ l -> P x) -> filter P l = l.
Proof.
  induction l as [|x l IH]; intros Hl; [done|]. rewrite filter_cons, decide_True by (apply Hl; set_solver).
  f_equal. apply IH. intros y Hy. apply Hl. set_solver.
Qed.


(** ** Tactics *)

(** Case analysis on every [match] and [decide] in sight, cleaning up. *)
Ltac split_cases :=
  repeat (case_match || case_decide || case_bool_decide); simplify_eq/=.

(** Case analysis on the matches of a hypothesis until it is trivial. *)
Ltac split_in H :=
  repeat match type of H with
  | context [match ?x with _ => _ end] => let E := fresh "E" in destruct x eqn:E; simplify_eq/=
  end.

Create HintDb koi discriminated.

Lemma Forall_removelast {A} (P : A -> Prop) l : Forall P l -> Forall P (removelast l).
Proof.
  induction l as [|x l _] using rev_ind; [done|]. rewrite removelast_last.
  by intros [? _]%Forall_app.
Qed.
