(* ===== verification/JsMap.v ===== *)
(** * Insertion-ordered maps and sets

    The code keeps its state in JavaScript [Map]s and [Set]s, and iterates over
    them: the order of iteration is the order in which keys were first
    inserted, and it is observable (event order, queue order, listings).  A map
    is modelled as an association list in that order, a set as the list of its
    elements in that order.  [m_set] updates in place and appends a new key at
    the end, as [Map.prototype.set] does; [m_delete] forgets the position. *)

From S2P Require Import Prelude.

Section JsMap.
Context {K V : Type} `{EqDecision K}.

Fixpoint m_get (k : K) (m : list (K * V)) : option V :=
  match m with
  | [] => None
  | (k', v) :: m' => if decide (k = k') then Some v else m_get k m'
  end.

Definition m_has (k : K) (m : list (K * V)) : bool :=
  match m_get k m with Some _ => true | None => false end.

Fixpoint m_set (k : K) (v : V) (m : list (K * V)) : list (K * V) :=
  match m with
  | [] => [(k, v)]
  | (k', v') :: m' => if decide (k = k') then (k, v) :: m' else (k', v') :: m_set k v m'
  end.

Definition m_delete (k : K) (m : list (K * V)) : list (K * V) :=
  filter (fun p => p.1 ≠ k) m.

Definition m_keys (m : list (K * V)) : list K := m.*1.
Definition m_values (m : list (K * V)) : list V := m.*2.
Definition m_size (m : list (K * V)) : nat := length m.

Implicit Types m : list (K * V).

Lemma m_get_set_eq m k v : m_get k (m_set k v m) = Some v.
Proof. induction m as [|[k' v'] m IH]; simpl; repeat (case_decide; simpl); congruence. Qed.

Lemma m_get_set_ne m k k' v : k ≠ k' -> m_get k' (m_set k v m) = m_get k' m.
Proof.
  intros Hne. induction m as [|[k2 v2] m IH]; simpl; repeat (case_decide; simpl); congruence.
Qed.

Lemma m_get_set m k k' v :
  m_get k' (m_set k v m) = if decide (k = k') then Some v else m_get k' m.
Proof. case_decide; subst; auto using m_get_set_eq, m_get_set_ne. Qed.

Lemma m_has_spec m k : m_has k m = true <-> is_Some (m_get k m).
Proof. unfold m_has. rewrite <-not_eq_None_Some. case_match; split; congruence. Qed.

Lemma m_has_false m k : m_has k m = false <-> m_get k m = None.
Proof. unfold m_has. case_match; split; congruence. Qed.

Lemma m_get_elem m k v : m_get k m = Some v -> (k, v) ∈ m.
Proof.
  induction m as [|[k' v'] m IH]; simpl; [done|]. case_decide; intros; simplify_eq; set_solver.
Qed.

Lemma elem_m_get m k v : NoDup (m_keys m) -> (k, v) ∈ m -> m_get k m = Some v.
Proof.
  unfold m_keys. induction m as [|[k' v'] m IH]; simpl; intros Hnd Hin; [set_solver|].
  apply NoDup_cons in Hnd as [Hk Hnd]. apply elem_of_cons in Hin as [Heq|Hin].
  - simplify_eq. by rewrite decide_True.
  - case_decide as Hc; [subst; contradict Hk; apply list_elem_of_fmap; by exists (k', v)|auto].
Qed.

Lemma elem_of_m_keys m k : k ∈ m_keys m <-> is_Some (m_get k m).
Proof.
  unfold m_keys. induction m as [|[k' v'] m IH]; simpl.
  - split; [set_solver|intros [? ?]; done].
  - rewrite elem_of_cons. case_decide; subst; [split; eauto|].
    rewrite IH. naive_solver.
Qed.

Lemma not_elem_of_m_keys m k : k ∉ m_keys m <-> m_get k m = None.
Proof. rewrite elem_of_m_keys, eq_None_not_Some. done. Qed.

Lemma m_keys_set_present m k v : is_Some (m_get k m) -> m_keys (m_set k v m) = m_keys m.
Proof.
  unfold m_keys. induction m as [|[k' v'] m IH]; simpl; [intros [? ?]; done|].
  intros Hs. case_decide; subst; simpl; [done|]. f_equal. auto.
Qed.

Lemma m_set_absent m k v : m_get k m = None -> m_set k v m = m ++ [(k, v)].
Proof.
  induction m as [|[k' v'] m IH]; simpl; [done|]. case_decide; [done|]. intros. f_equal. auto.
Qed.

Lemma m_keys_set_absent m k v : m_get k m = None -> m_keys (m_set k v m) = m_keys m ++ [k].
Proof. intros. rewrite m_set_absent by done. unfold m_keys. by rewrite fmap_app. Qed.

Lemma elem_of_m_set m k v p : p ∈ m_set k v m -> p = (k, v) \/ p ∈ m.
Proof.
  induction m as [|[k' v'] m IH]; simpl; [by intros ->%list_elem_of_singleton; left|].
  case_decide; rewrite !elem_of_cons; naive_solver.
Qed.

Lemma NoDup_m_set m k v : NoDup (m_keys m) -> NoDup (m_keys (m_set k v m)).
Proof.
  intros Hnd. destruct (m_get k m) eqn:E.
  - rewrite m_keys_set_present; eauto.
  - rewrite m_keys_set_absent by done. apply not_elem_of_m_keys in E.
    apply NoDup_app. split; [done|]. split; [set_solver|]. apply NoDup_singleton.
Qed.

Lemma m_size_set_absent m k v : m_get k m = None -> m_size (m_set k v m) = S (m_size m).
Proof. intros. unfold m_size. rewrite m_set_absent by done. rewrite length_app. simpl. lia. Qed.

Lemma m_get_app m1 m2 k :
  m_get k (m1 ++ m2) = match m_get k m1 with Some v => Some v | None => m_get k m2 end.
Proof. induction m1 as [|[k' v'] m1 IH]; simpl; [done|]. by case_decide. Qed.

Lemma m_get_delete_eq m k : m_get k (m_delete k m) = None.
Proof.
  induction m as [|[k' v'] m IH]; [done|]. unfold m_delete in *. rewrite filter_cons. simpl.
  case_decide as Hd; simpl in *; [rewrite decide_False by congruence|]; done.
Qed.

Lemma m_get_delete_ne m k k' : k ≠ k' -> m_get k' (m_delete k m) = m_get k' m.
Proof.
  intros Hne. induction m as [|[k2 v2] m IH]; [done|]. unfold m_delete in *.
  rewrite filter_cons. simpl. case_decide as Hd; simpl in *; rewrite IH; [done|].
  by rewrite decide_False by (intros ->; congruence).
Qed.

Lemma m_get_delete m k k' :
  m_get k' (m_delete k m) = if decide (k = k') then None else m_get k' m.
Proof. case_decide; subst; [apply m_get_delete_eq|by apply m_get_delete_ne]. Qed.

Lemma elem_of_m_delete m k p : p ∈ m_delete k m <-> p.1 ≠ k /\ p ∈ m.
Proof. unfold m_delete. by rewrite list_elem_of_filter. Qed.

Lemma m_keys_delete m k : m_keys (m_delete k m) = filter (fun k' => k' ≠ k) (m_keys m).
Proof.
  unfold m_keys, m_delete. induction m as [|[k' v'] m IH]; [done|].
  rewrite filter_cons, fmap_cons, filter_cons, <-IH. simpl.
  by repeat case_decide.
Qed.

Lemma NoDup_m_delete m k : NoDup (m_keys m) -> NoDup (m_keys (m_delete k m)).
Proof. rewrite m_keys_delete. apply NoDup_filter. Qed.

Lemma m_delete_absent m k : m_get k m = None -> m_delete k m = m.
Proof.
  intros Hn. apply not_elem_of_m_keys in Hn. unfold m_delete, m_keys in *.
  induction m as [|[k' v'] m IH]; [done|]. rewrite filter_cons. simpl in *.
  rewrite decide_True by set_solver. f_equal. apply IH. set_solver.
Qed.

Lemma m_get_Some_has m k v : m_get k m = Some v -> m_has k m = true.
Proof. unfold m_has. by intros ->. Qed.
(** A present key sits at one place, where setting it replaces and deleting it cuts. *)
Lemma m_split m k v0 :
  NoDup (m_keys m) -> m_get k m = Some v0 ->
  exists l1 l2, m = l1 ++ (k, v0) :: l2 /\ (forall v, m_set k v m = l1 ++ (k, v) :: l2) /\
    m_delete k m = l1 ++ l2.
Proof.
  unfold m_keys. induction m as [|[k' v'] m IH]; simpl; [done|]. intros Hnd Hg.
  apply NoDup_cons in Hnd as [Hk Hnd]. unfold m_delete. rewrite filter_cons. simpl.
  case_decide as Hc; simplify_eq.
  - exists [], m. split_and!; [done|done|]. rewrite decide_False by (intros Hx; by apply Hx). simpl.
    apply m_delete_absent. by apply not_elem_of_m_keys.
  - destruct (IH Hnd Hg) as (l1 & l2 & -> & Hs & Hd). exists ((k', v') :: l1), l2.
    split_and!; [done|intros v; by rewrite Hs|]. rewrite decide_True by congruence.
    unfold m_delete in Hd. by rewrite Hd.
Qed.
End JsMap.

#[export] Hint Resolve NoDup_m_set NoDup_m_delete : koi.
#[export] Hint Rewrite @m_get_set_eq @m_get_delete_eq : koi.

(** JavaScript [Set]s, in insertion order. *)
Section JsSet.
Context {K : Type} `{EqDecision K}.

Definition s_has (k : K) (s : list K) : bool := bool_decide (k ∈ s).
Definition s_add (k : K) (s : list K) : list K := if decide (k ∈ s) then s else s ++ [k].
Definition s_delete (k : K) (s : list K) : list K := filter (fun k' => k' ≠ k) s.
Definition s_addAll (ks s : list K) : list K := foldl (fun acc k => s_add k acc) s ks.

Implicit Types s : list K.

Lemma elem_of_s_add s k k' : k' ∈ s_add k s <-> k' = k \/ k' ∈ s.
Proof. unfold s_add. case_decide; set_solver. Qed.

Lemma elem_of_s_delete s k k' : k' ∈ s_delete k s <-> k' ≠ k /\ k' ∈ s.
Proof. unfold s_delete. by rewrite list_elem_of_filter. Qed.

Lemma NoDup_s_add s k : NoDup s -> NoDup (s_add k s).
Proof.
  unfold s_add. intros. case_decide; [done|]. apply NoDup_app.
  split; [done|]. split; [set_solver|]. apply NoDup_singleton.
Qed.

Lemma NoDup_s_delete s k : NoDup s -> NoDup (s_delete k s).
Proof. apply NoDup_filter. Qed.

Lemma elem_of_s_addAll ks s k : k ∈ s_addAll ks s <-> k ∈ ks \/ k ∈ s.
Proof.
  unfold s_addAll. revert s. induction ks as [|k' ks IH]; intros s; simpl; [set_solver|].
  rewrite IH, elem_of_s_add. set_solver.
Qed.

Lemma NoDup_s_addAll ks s : NoDup s -> NoDup (s_addAll ks s).
Proof.
  unfold s_addAll. revert s. induction ks as [|k' ks IH]; intros s; simpl; [done|].
  intros. apply IH. by apply NoDup_s_add.
Qed.

Lemma s_has_true s k : s_has k s = true <-> k ∈ s.
Proof. apply bool_decide_eq_true. Qed.

Lemma s_has_false s k : s_has k s = false <-> k ∉ s.
Proof. apply bool_decide_eq_false. Qed.
End JsSet.

#[export] Hint Resolve NoDup_s_add NoDup_s_delete NoDup_s_addAll : koi.
