(* ===== verification/TaskTypes.v ===== *)
(** * The task board contract: [packages/kernel/core/src/task-board.ts]

    The data the board keeps: tasks, inputs, results, patches, events, the
    snapshot and the configuration, and the table of allowed status changes. *)

From S2P Require Import Prelude JsMap.

Abbreviation TaskItemId := string (only parsing).
Abbreviation AgentId := string (only parsing).
Abbreviation Metadata := (list (string * jsval)) (only parsing).

Inductive TaskStatus : Type := pending | in_progress | completed | failed | killed.

#[export] Instance TaskStatus_eq_dec : EqDecision TaskStatus.
Proof. solve_decision. Defined.

Definition VALID_TASK_TRANSITIONS (from : TaskStatus) : list TaskStatus :=
  match from with
  | pending => [in_progress; killed]
  | in_progress => [completed; failed; killed]
  | completed => []
  | failed => []
  | killed => []
  end.

Definition isTerminalTaskStatus (status : TaskStatus) : bool :=
  bool_decide (status = completed) || bool_decide (status = failed) || bool_decide (status = killed).

Definition isValidTransition (from to : TaskStatus) : bool :=
  s_has to (VALID_TASK_TRANSITIONS from).

(** The literal each status is written as in messages. *)
Definition status_string (s : TaskStatus) : string :=
  match s with
  | pending => "pending"
  | in_progress => "in_progress"
  | completed => "completed"
  | failed => "failed"
  | killed => "killed"
  end.

Record TaskInput : Type := mkTaskInput {
  in_id : TaskItemId;
  in_subject : option string;
  in_description : string;
  in_dependencies : option (list TaskItemId);
  in_metadata : option Metadata;
  in_activeForm : option string;
  in_createdBy : option AgentId
}.

Record Task : Type := mkTask {
  t_id : TaskItemId;
  t_subject : string;
  t_description : string;
  t_dependencies : list TaskItemId;
  t_status : TaskStatus;
  t_createdBy : option AgentId;
  t_assignedTo : option AgentId;
  t_lastAssignedTo : option AgentId;
  t_activeForm : option string;
  t_retries : Z;
  t_version : Z;
  t_error : option KoiError;
  t_metadata : option Metadata;
  t_createdAt : Z;
  t_updatedAt : Z;
  t_startedAt : option Z
}.

Record ArtifactRef : Type := mkArtifactRef { art_kind : string; art_uri : string }.

Record TaskResult : Type := mkTaskResult {
  r_taskId : TaskItemId;
  r_output : string;
  r_durationMs : Z;
  r_results : option jsval;
  r_artifacts : option (list ArtifactRef);
  r_decisions : option jsval;
  r_warnings : option (list string);
  r_delegation : option jsval;
  r_workerId : option AgentId;
  r_metadata : option Metadata
}.

(** [activeForm] is three-valued in a patch: absent, present and [undefined]
    (clear it), or present with a text. *)
Record TaskPatch : Type := mkTaskPatch {
  p_subject : option string;
  p_description : option string;
  p_metadata : option Metadata;
  p_activeForm : option (option string)
}.

Inductive TaskBoardEvent : Type :=
  | task_added (task : Task)
  | task_assigned (taskId : TaskItemId) (agentId : AgentId)
  | task_unassigned (taskId : TaskItemId)
  | task_completed (taskId : TaskItemId) (result : TaskResult)
  | task_failed (taskId : TaskItemId) (error : KoiError)
  | task_retried (taskId : TaskItemId) (retries : Z)
  | task_killed (taskId : TaskItemId) (previousStatus : TaskStatus)
  | task_unreachable (taskId : TaskItemId) (blockedBy : TaskItemId)
  | task_updated (taskId : TaskItemId) (patch : TaskPatch).

(** The event callbacks of the configuration are not part of the record: the
    board wraps them in [try]/[catch], so the only thing they can observe is
    the sequence of events, which every mutation returns. *)
Record TaskBoardConfig : Type := mkTaskBoardConfig {
  cfg_maxRetries : option Z;
  cfg_maxInProgressPerOwner : option Z
}.

Definition DEFAULT_TASK_BOARD_CONFIG : TaskBoardConfig := mkTaskBoardConfig (Some 3%Z) None.

(** A task as a persisted snapshot may hold it: fields introduced by later
    versions are optional, and [version] is whatever JSON value was stored. *)
Record SnapshotTask : Type := mkSnapshotTask {
  sn_id : TaskItemId;
  sn_subject : option string;
  sn_description : string;
  sn_dependencies : list TaskItemId;
  sn_status : TaskStatus;
  sn_createdBy : option AgentId;
  sn_assignedTo : option AgentId;
  sn_lastAssignedTo : option AgentId;
  sn_activeForm : option string;
  sn_retries : option Z;
  sn_version : jsval;
  sn_error : option KoiError;
  sn_metadata : option Metadata;
  sn_createdAt : option Z;
  sn_updatedAt : option Z;
  sn_startedAt : option Z
}.

Record TaskBoardSnapshot : Type := mkTaskBoardSnapshot {
  snap_items : list SnapshotTask;
  snap_results : list TaskResult
}.

(** ** The transition table as a state machine *)

Lemma isTerminalTaskStatus_spec s :
  isTerminalTaskStatus s = true <-> s = completed \/ s = failed \/ s = killed.
Proof. destruct s; vm_compute; naive_solver. Qed.

Lemma isTerminalTaskStatus_sink s :
  isTerminalTaskStatus s = true <-> VALID_TASK_TRANSITIONS s = [].
Proof. destruct s; vm_compute; naive_solver. Qed.

Lemma isValidTransition_spec from to :
  isValidTransition from to = true <-> to ∈ VALID_TASK_TRANSITIONS from.
Proof. apply s_has_true. Qed.

Lemma isValidTransition_source from to :
  isValidTransition from to = true -> from = pending \/ from = in_progress.
Proof. rewrite isValidTransition_spec. destruct from; set_solver. Qed.

#[export] Hint Resolve isValidTransition_source : koi.
