(* ===== verification/Dag.v ===== *)
(** * The task graph: [packages/lib/task-board/src/dag.ts]

    Cycle detection by depth-first search, Kahn's topological sort and the
    acyclicity test built on it, over the board's map of tasks. *)

From S2P Require Import Prelude JsMap TaskTypes.

(** ** [detectCycle] *)

(** One [for (const x of xs)] loop whose body may return early: the body takes
    and returns the mutable state, [None] stands for exhausted fuel, and
    [Some (Some r, _)] for a [return r] inside the loop. *)
Fixpoint for_return {A S R : Type} (body : S -> A -> option (option R * S)) (st : S) (xs : list A)
    : option (option R * S) :=
  match xs with
  | [] => Some (None, st)
  | x :: xs' =>
      match body st x with
      | None => None
      | Some (Some r, st') => Some (Some r, st')
      | Some (None, st') => for_return body st' xs'
      end
  end.

(** The inner function [dfs].  [visited] is the mutable set shared by all the
    calls; [path] is pushed on entry and popped on exit, so it is passed down. *)
Fixpoint dfs (fuel : nat) (items : list (TaskItemId * Task)) (newId : TaskItemId)
    (path visited : list TaskItemId) (current : TaskItemId)
    : option (option (list TaskItemId) * list TaskItemId) :=
  match fuel with
  | O => None
  | S fuel' =>
      if decide (current = newId) then Some (Some (path ++ [current]), visited)
      else if decide (current ∈ visited) then Some (None, visited)
      else
        let visited' := s_add current visited in
        let path' := path ++ [current] in
        match m_get current items with
        | None => Some (None, visited')
        | Some item =>
            for_return (dfs fuel' items newId path') visited' (t_dependencies item)
        end
  end.

(** [detectCycle] with explicit fuel: [visited] and [path] are cleared before
    each dependency of the new node. *)
Fixpoint detectCycle_fuel (fuel : nat) (items : list (TaskItemId * Task))
    (newDeps : list TaskItemId) (newId : TaskItemId) : option (option (list TaskItemId)) :=
  match newDeps with
  | [] => Some None
  | dep :: rest =>
      if decide (dep = newId) then Some (Some [newId; newId])
      else
        match dfs fuel items newId [] [] dep with
        | None => None
        | Some (Some cycle, _) => Some (Some (newId :: cycle))
        | Some (None, _) => detectCycle_fuel fuel items rest newId
        end
  end.

(** Each nested call of [dfs] adds a task of the board to [visited]. *)
Definition detectCycle (items : list (TaskItemId * Task)) (newDeps : list TaskItemId)
    (newId : TaskItemId) : option (list TaskItemId) :=
  default None (detectCycle_fuel (S (m_size items)) items newDeps newId).

(** ** [topologicalSort] *)

(** The loop over one item's dependencies: count those that are on the board
    and record the item as their dependent. *)
Definition count_dep (items : list (TaskItemId * Task)) (id : TaskItemId)
    (st : list (TaskItemId * list TaskItemId) * Z) (dep : TaskItemId)
    : list (TaskItemId * list TaskItemId) * Z :=
  if m_has dep items then
    (match m_get dep st.1 with
     | Some depList => m_set dep (depList ++ [id]) st.1
     | None => st.1
     end, (st.2 + 1)%Z)
  else st.

Definition count_item (items : list (TaskItemId * Task))
    (st : list (TaskItemId * list TaskItemId) * list (TaskItemId * Z)) (entry : TaskItemId * Task)
    : list (TaskItemId * list TaskItemId) * list (TaskItemId * Z) :=
  let '(dependents, count) :=
    foldl (count_dep items entry.1) (st.1, 0%Z) (t_dependencies entry.2) in
  (dependents, m_set entry.1 count st.2).

(** [dependents] with an empty list per task. *)
Definition empty_dependents (items : list (TaskItemId * Task)) : list (TaskItemId * list TaskItemId) :=
  foldl (fun m entry => m_set entry.1 [] m) [] items.

Definition build_degrees (items : list (TaskItemId * Task))
    : list (TaskItemId * list TaskItemId) * list (TaskItemId * Z) :=
  foldl (count_item items) (empty_dependents items, []) items.

(** The nodes of degree zero, in map order. *)
Definition zero_degree (inDegree : list (TaskItemId * Z)) : list TaskItemId :=
  m_keys (filter (fun entry => entry.2 = 0%Z) inDegree).

(** Decrease the degree of one dependent, queueing it when it reaches zero. *)
Definition relax (st : list (TaskItemId * Z) * list TaskItemId) (dep : TaskItemId)
    : list (TaskItemId * Z) * list TaskItemId :=
  let newDegree := (default 0 (m_get dep st.1) - 1)%Z in
  (m_set dep newDegree st.1,
   if decide (newDegree = 0)%Z then st.2 ++ [dep] else st.2).

(** The index loop over the growing queue: [rest] is [queue.slice(i)]. *)
Fixpoint kahn (fuel : nat) (dependents : list (TaskItemId * list TaskItemId))
    (inDegree : list (TaskItemId * Z)) (rest result : list TaskItemId) : option (list TaskItemId) :=
  match rest with
  | [] => Some result
  | current :: rest' =>
      match fuel with
      | O => None
      | S fuel' =>
          let '(inDegree', rest'') :=
            foldl relax (inDegree, rest') (default [] (m_get current dependents)) in
          kahn fuel' dependents inDegree' rest'' (result ++ [current])
      end
  end.

(** Every task enters the queue at most once. *)
Definition topologicalSort (items : list (TaskItemId * Task)) : list TaskItemId :=
  let '(dependents, inDegree) := build_degrees items in
  default [] (kahn (m_size items) dependents inDegree (zero_degree inDegree) []).

Definition isAcyclic (items : list (TaskItemId * Task)) : bool :=
  bool_decide (length (topologicalSort items) = m_size items).

(** ** The graph *)

(** [a] depends directly on [b]. *)
Definition dep_edge (items : list (TaskItemId * Task)) (a b : TaskItemId) : Prop :=
  exists t, m_get a items = Some t /\ b ∈ t_dependencies t.

(** No task depends on itself, directly or not. *)
Definition acyclic (items : list (TaskItemId * Task)) : Prop :=
  forall a, ~ tc (dep_edge items) a a.

(** ** Correctness of the depth-first search *)

(** Invariant rule for [for_return]. *)
Lemma for_return_ind {A S R : Type} (Inv : list A -> S -> Prop) (Q : R -> S -> Prop)
    (body : S -> A -> option (option R * S)) (xs : list A) (st : S) :
  Inv [] st ->
  (forall seen x rest s, xs = seen ++ x :: rest -> Inv seen s ->
    exists r s', body s x = Some (r, s') /\
      match r with None => Inv (seen ++ [x]) s' | Some v => Q v s' end) ->
  exists r s', for_return body st xs = Some (r, s') /\
    match r with None => Inv xs s' | Some v => Q v s' end.
Proof.
  intros H0 Hstep. cut (forall seen rest s, xs = seen ++ rest -> Inv seen s ->
    exists r s', for_return body s rest = Some (r, s') /\
      match r with None => Inv xs s' | Some v => Q v s' end).
  { intros Hc. by apply (Hc []). }
  intros seen rest. revert seen. induction rest as [|x rest IH]; intros seen s -> Hinv; simpl.
  - exists None, s. by rewrite app_nil_r.
  - destruct (Hstep seen x rest s eq_refl Hinv) as (r & s' & -> & Hr).
    destruct r as [v|]; [by exists (Some v), s'|].
    apply (IH (seen ++ [x])); [by rewrite <-app_assoc|done].
Qed.

Section DetectCycle.
Context (items : list (TaskItemId * Task)) (newId : TaskItemId).

(** What a finished call of [dfs] guarantees. *)
Definition dfs_post (path visited : list TaskItemId) (current : TaskItemId)
    (r : option (list TaskItemId)) (visited' : list TaskItemId) : Prop :=
  visited ⊆ visited' /\
  match r with
  | Some c => exists p, c = path ++ p /\ walk (dep_edge items) current newId p
  | None => current ≠ newId /\ current ∈ visited' /\
      forall v w, v ∈ visited' -> v ∉ visited -> dep_edge items v w -> w ∈ visited' /\ w ≠ newId
  end.

Lemma dfs_spec fuel path visited current :
  remaining (m_keys items) visited < fuel ->
  exists r visited', dfs fuel items newId path visited current = Some (r, visited') /\
    dfs_post path visited current r visited'.
Proof.
  revert path visited current. induction fuel as [|fuel IH]; intros path visited current Hf; [lia|].
  simpl. case_decide as Hc1.
  { eexists _, _. split; [done|]. split; [done|]. exists [current].
    split; [done|]. subst. constructor. }
  case_decide as Hc2.
  { eexists _, _. split; [done|]. repeat split; try done; naive_solver. }
  assert (Hsub : visited ⊆ s_add current visited).
  { intros x. rewrite elem_of_s_add. auto. }
  destruct (m_get current items) as [item|] eqn:Hget.
  2:{ eexists _, _. split; [done|]. split; [done|]. split; [done|].
      split; [rewrite elem_of_s_add; auto|]. intros v w Hv Hn [t [Ht _]].
      apply elem_of_s_add in Hv as [->|Hv]; congruence. }
  assert (Hlt : remaining (m_keys items) (s_add current visited) < fuel).
  { enough (remaining (m_keys items) (s_add current visited) < remaining (m_keys items) visited) by lia.
    apply (remaining_lt _ _ _ current); try done.
    - rewrite elem_of_m_keys. eauto.
    - rewrite elem_of_s_add. auto. }
  set (Inv := fun (seen vis : list TaskItemId) =>
    s_add current visited ⊆ vis /\
    (forall w, w ∈ seen -> w ∈ vis /\ w ≠ newId) /\
    (forall v w, v ∈ vis -> v ∉ s_add current visited -> dep_edge items v w -> w ∈ vis /\ w ≠ newId)).
  set (Q := fun (c vis : list TaskItemId) =>
    visited ⊆ vis /\ exists p, c = path ++ p /\ walk (dep_edge items) current newId p).
  destruct (for_return_ind Inv Q (dfs fuel items newId (path ++ [current]))
    (t_dependencies item) (s_add current visited)) as (r & vis & Heq & Hr).
  - split; [done|]. split; set_solver.
  - intros seen x rest vis Hxs (Hi1 & Hi2 & Hi3).
    assert (Hx : dep_edge items current x).
    { exists item. split; [done|]. rewrite Hxs. set_solver. }
    destruct (IH (path ++ [current]) vis x) as (r & vis' & Hd & Hsub' & Hpost).
    { pose proof (remaining_mono (m_keys items) _ _ Hi1). lia. }
    exists r, vis'. split; [done|]. destruct r as [c|].
    + destruct Hpost as (p & -> & Hw). split; [set_solver|].
      exists (current :: p). rewrite <-app_assoc. split; [done|]. by eapply walk_step.
    + destruct Hpost as (Hne & Hin & Hcl). split; [set_solver|]. split.
      * intros w. rewrite elem_of_app, elem_of_cons. intros [Hw|[->|Hw]]; [|done|set_solver].
        destruct (Hi2 w Hw). split; [by apply Hsub'|done].
      * intros v w Hv Hnv He. destruct (decide (v ∈ vis)) as [Hvis|Hvis]; [|by eapply Hcl].
        destruct (Hi3 v w Hvis Hnv He). split; [by apply Hsub'|done].
  - exists r, vis. split; [done|]. destruct r as [c|]; [by destruct Hr|].
    destruct Hr as (Hi1 & Hi2 & Hi3). split; [set_solver|]. split; [done|].
    split; [apply Hi1; rewrite elem_of_s_add; auto|]. intros v w Hv Hnv He.
    destruct (decide (v = current)) as [->|Hvc].
    + destruct He as (t & Ht & Hw). simplify_eq. by apply Hi2.
    + apply (Hi3 v w Hv); [|done]. rewrite elem_of_s_add. naive_solver.
Qed.

(** A search that finds nothing proves that [newId] is out of reach. *)
Lemma dfs_none_unreachable path current visited' :
  dfs_post path [] current None visited' -> ~ rtc (dep_edge items) current newId.
Proof.
  intros (_ & Hne & Hin & Hcl) Hr.
  assert (newId ∈ visited' /\ newId ≠ newId) as [_ ?]; [|done].
  apply (rtc_closed (dep_edge items) (fun x => x ∈ visited' /\ x ≠ newId) current newId); auto.
  intros x y [Hx _] He. apply (Hcl x); set_solver.
Qed.
End DetectCycle.

(** Edges of the graph with the new node in it. *)
Definition edge_with (items : list (TaskItemId * Task)) (newDeps : list TaskItemId)
    (newId a b : TaskItemId) : Prop :=
  dep_edge items a b \/ (a = newId /\ b ∈ newDeps).

Lemma walk_mono {A : Type} (R R' : relation A) a b p :
  (forall x y, R x y -> R' x y) -> walk R a b p -> walk R' a b p.
Proof. induction 2; econstructor; eauto. Qed.

Lemma detectCycle_fuel_spec fuel items newDeps newId :
  m_size items < fuel ->
  exists r, detectCycle_fuel fuel items newDeps newId = Some r /\
    match r with
    | Some c => exists d p, d ∈ newDeps /\ c = newId :: p /\ walk (dep_edge items) d newId p
    | None => forall d, d ∈ newDeps -> ~ rtc (dep_edge items) d newId
    end.
Proof.
  intros Hf. induction newDeps as [|dep rest IH]; simpl.
  { exists None. split; [done|]. set_solver. }
  case_decide as Hd.
  { eexists. split; [done|]. exists dep, [newId]. subst. split; [set_solver|]. split; [done|constructor]. }
  destruct (dfs_spec items newId fuel [] [] dep) as (r & vis & -> & Hpost).
  { pose proof (remaining_le (m_keys items) []). unfold m_keys, m_size in *.
    rewrite length_fmap in *. lia. }
  destruct r as [c|].
  - destruct Hpost as (_ & p & -> & Hw). eexists. split; [done|].
    exists dep, p. split; [set_solver|]. done.
  - apply dfs_none_unreachable in Hpost. destruct IH as (r & -> & Hr). exists r. split; [done|].
    destruct r as [c|].
    + destruct Hr as (d & p & Hd' & -> & Hw). exists d, p. split; [set_solver|]. done.
    + intros d. rewrite elem_of_cons. intros [->|?]; auto.
Qed.

Lemma detectCycle_cases items newDeps newId :
  match detectCycle items newDeps newId with
  | Some c => exists d p, d ∈ newDeps /\ c = newId :: p /\ walk (dep_edge items) d newId p
  | None => forall d, d ∈ newDeps -> ~ rtc (dep_edge items) d newId
  end.
Proof.
  unfold detectCycle.
  destruct (detectCycle_fuel_spec (S (m_size items)) items newDeps newId) as (r & -> & Hr); [lia|].
  done.
Qed.

(** ** Kahn's algorithm: the degree tables *)

(** How often [x] occurs in [l]. *)
Definition occs (x : TaskItemId) (l : list TaskItemId) : nat := length (filter (fun y => y = x) l).

Lemma occs_cons x y l : occs x (y :: l) = (if decide (y = x) then 1 else 0) + occs x l.
Proof. unfold occs. rewrite filter_cons. by case_decide. Qed.

Lemma occs_app x l1 l2 : occs x (l1 ++ l2) = occs x l1 + occs x l2.
Proof. unfold occs. by rewrite filter_app, length_app. Qed.

Lemma occs_replicate x y n : occs x (replicate n y) = if decide (y = x) then n else 0.
Proof.
  induction n as [|n IH]; [by case_decide|]. simpl. rewrite occs_cons, IH. by case_decide.
Qed.

Lemma occs_pos x l : 0 < occs x l <-> x ∈ l.
Proof.
  induction l as [|y l IH]; [split; [unfold occs; simpl; lia|set_solver]|].
  rewrite occs_cons, elem_of_cons. case_decide; subst; [split; [by left|lia]|].
  simpl. rewrite IH. naive_solver.
Qed.

(** The dependents of [d], one entry per edge, in the order the code builds. *)
Definition dependents_list (es : list (TaskItemId * Task)) (d : TaskItemId) : list TaskItemId :=
  es ≫= fun e => replicate (occs d (t_dependencies e.2)) e.1.

Lemma occs_dependents es d id :
  NoDup (m_keys es) ->
  occs id (dependents_list es d) =
    match m_get id es with Some t => occs d (t_dependencies t) | None => 0 end.
Proof.
  unfold dependents_list, m_keys. induction es as [|[id' t] es IH]; intros Hnd; [done|].
  apply NoDup_cons in Hnd as [Hn Hnd]. rewrite bind_cons, occs_app, occs_replicate, IH by done. simpl.
  repeat case_decide; subst; try congruence; [|done].
  apply (not_elem_of_m_keys es) in Hn. simpl in Hn. rewrite Hn. lia.
Qed.

Lemma elem_of_dependents es d id :
  NoDup (m_keys es) -> id ∈ dependents_list es d <-> dep_edge es id d.
Proof.
  intros Hnd. rewrite <-occs_pos, occs_dependents by done. unfold dep_edge. split.
  - destruct (m_get id es) as [t|]; [|lia]. rewrite occs_pos. eauto.
  - intros (t & -> & Hin). by apply occs_pos.
Qed.

Section Degrees.
Context (items : list (TaskItemId * Task)).

Definition covers (D : list (TaskItemId * list TaskItemId)) : Prop :=
  forall d, is_Some (m_get d D) <-> m_has d items = true.

(** The dependencies that are on the board and not yet in [P]. *)
Definition open_deps (P deps : list TaskItemId) : list TaskItemId :=
  filter (fun d => m_has d items = true /\ d ∉ P) deps.

Lemma count_deps_spec id deps D c :
  covers D ->
  exists D', foldl (count_dep items id) (D, c) deps =
      (D', (c + Z.of_nat (length (open_deps [] deps)))%Z) /\ covers D' /\
    forall d l, m_get d D = Some l -> m_get d D' = Some (l ++ replicate (occs d deps) id).
Proof.
  revert D c. induction deps as [|x deps IH]; intros D c Hcov; simpl.
  { exists D. split; [by rewrite Z.add_0_r|]. split; [done|]. intros d l ->. by rewrite app_nil_r. }
  unfold count_dep at 2. simpl. destruct (m_has x items) eqn:Hx; simpl.
  2:{ destruct (IH D c Hcov) as (D' & -> & Hc' & HD). exists D'. split.
      { unfold open_deps. rewrite filter_cons, decide_False by (intros [? _]; congruence). done. }
      split; [done|]. intros d l Hd. rewrite occs_cons.
      rewrite decide_False; [by apply HD|]. intros ->.
      enough (m_has d items = true) by congruence. apply Hcov. eauto. }
  destruct (proj2 (Hcov x) Hx) as [lx Hlx]. rewrite Hlx.
  destruct (IH (m_set x (lx ++ [id]) D) (c + 1)%Z) as (D' & -> & Hc' & HD).
  { intros d. rewrite m_get_set. case_decide; subst; [|apply Hcov]. split; eauto. }
  exists D'. split.
  { unfold open_deps. rewrite filter_cons, decide_True by set_solver. simpl. f_equal. lia. }
  split; [done|]. intros d l Hd. rewrite occs_cons. case_decide as Hxd; subst.
  - simplify_eq. rewrite (HD _ _ (m_get_set_eq _ _ _)). by rewrite <-app_assoc.
  - apply HD. by rewrite m_get_set_ne.
Qed.

Lemma count_items_spec es D I :
  covers D -> NoDup (m_keys es) ->
  exists D' I', foldl (count_item items) (D, I) es = (D', I') /\ covers D' /\
    (forall d l, m_get d D = Some l -> m_get d D' = Some (l ++ dependents_list es d)) /\
    (forall id t, m_get id es = Some t ->
       m_get id I' = Some (Z.of_nat (length (open_deps [] (t_dependencies t))))) /\
    (forall id, m_get id es = None -> m_get id I' = m_get id I) /\
    (NoDup (m_keys I) -> NoDup (m_keys I')).
Proof.
  revert D I. induction es as [|[id t] es IH]; intros D I Hcov Hnd; simpl.
  { exists D, I. split; [done|]. split; [done|]. split; [|done].
    intros d l ->. by rewrite app_nil_r. }
  apply NoDup_cons in Hnd as [Hn Hnd]. unfold count_item at 2. simpl.
  destruct (count_deps_spec id (t_dependencies t) D 0 Hcov) as (D1 & -> & Hc1 & HD1).
  destruct (IH D1 (m_set id (0 + Z.of_nat (length (open_deps [] (t_dependencies t))))%Z I) Hc1 Hnd)
    as (D' & I' & -> & Hc' & HD & HI & HI2 & Hnd').
  apply (not_elem_of_m_keys es) in Hn.
  exists D', I'. split; [done|]. split; [done|]. split; [|split; [|split]].
  - intros d l Hd. rewrite (HD d _ (HD1 d l Hd)). by rewrite <-app_assoc.
  - intros id' t'. case_decide; subst; intros; simplify_eq; [|by apply HI].
    rewrite HI2 by done. by rewrite m_get_set_eq.
  - intros id'. case_decide; [done|]. intros Hn'. rewrite HI2 by done. by apply m_get_set_ne.
  - intros. apply Hnd'. by apply NoDup_m_set.
Qed.

Lemma empty_dependents_get (es : list (TaskItemId * Task))
    (m : list (TaskItemId * list TaskItemId)) (d : TaskItemId) :
  m_get d (foldl (fun m entry => m_set entry.1 [] m) m es) =
    if m_has d es then Some [] else m_get d m.
Proof.
  revert m. induction es as [|[id t] es IH]; intros m; [done|]. simpl. rewrite IH.
  unfold m_has. simpl. rewrite m_get_set. destruct (m_get d es) eqn:E.
  - by repeat case_decide.
  - repeat case_decide; congruence.
Qed.

Lemma build_degrees_spec :
  NoDup (m_keys items) ->
  exists D I, build_degrees items = (D, I) /\ NoDup (m_keys I) /\
    (forall d, m_get d D = if m_has d items then Some (dependents_list items d) else None) /\
    (forall id, m_get id I =
       (fun t => Z.of_nat (length (open_deps [] (t_dependencies t)))) <$> m_get id items).
Proof.
  intros Hnd. unfold build_degrees, empty_dependents.
  pose proof (empty_dependents_get items []) as He.
  destruct (count_items_spec items (foldl (fun m entry => m_set entry.1 [] m) [] items) [])
    as (D & I & -> & Hcov & HD & HI & HI2 & Hndi); [|done|].
  { intros d. rewrite He. destruct (m_has d items); [split; eauto|]. simpl. split; [by intros [? ?]|done]. }
  exists D, I. split; [done|]. split; [apply Hndi; constructor|]. split.
  - intros d. specialize (He d). destruct (m_has d items) eqn:Ed.
    + by rewrite (HD d [] He).
    + apply eq_None_not_Some. rewrite (Hcov d). congruence.
  - intros id. destruct (m_get id items) as [t|] eqn:E; simpl; [by apply HI|]. by rewrite HI2.
Qed.
End Degrees.

(** ** Kahn's algorithm: the loop *)

Section Kahn.
Context (items : list (TaskItemId * Task)) (Hnd : NoDup (m_keys items)).

Definition degree (P : list TaskItemId) (t : Task) : nat :=
  length (open_deps items P (t_dependencies t)).

(** The state of the loop while the dependents [ds] of the last processed
    node are still to be relaxed: [P] is the processed prefix, [Q] the rest
    of the queue. *)
Record loop_inv (P Q ds : list TaskItemId) (I : list (TaskItemId * Z)) : Prop := {
  li_nodup : NoDup (P ++ Q);
  li_known : forall id, id ∈ P ++ Q -> is_Some (m_get id items);
  li_degree : forall id t, m_get id items = Some t ->
    m_get id I = Some (Z.of_nat (degree P t + occs id ds));
  li_zero : forall id t, m_get id items = Some t ->
    (id ∈ P ++ Q <-> degree P t + occs id ds = 0)
}.

Lemma relax_inv P Q ds I d :
  is_Some (m_get d items) -> loop_inv P Q (d :: ds) I ->
  loop_inv P (relax (I, Q) d).2 ds (relax (I, Q) d).1.
Proof.
  intros [td Htd] [Hn Hk Hdeg Hz]. pose proof (Hdeg d td Htd) as Hd.
  rewrite occs_cons, decide_True in Hd by done. unfold relax. simpl. rewrite Hd. simpl.
  assert (HdQ : d ∉ P ++ Q).
  { rewrite (Hz d td Htd), occs_cons, decide_True by done. lia. }
  assert (Hocc : forall id, id ≠ d -> occs id (d :: ds) = occs id ds).
  { intros id Hid. by rewrite occs_cons, decide_False. }
  case_decide as Hnew.
  - constructor.
    + rewrite app_assoc. apply NoDup_app. split; [done|]. split; [set_solver|apply NoDup_singleton].
    + intros id. rewrite app_assoc, elem_of_app, list_elem_of_singleton. intros [?| ->]; eauto.
    + intros id t Ht. rewrite m_get_set. case_decide; subst; simplify_eq; [f_equal; lia|].
      rewrite (Hdeg id t Ht), Hocc; auto.
    + intros id t Ht. rewrite app_assoc, elem_of_app, list_elem_of_singleton, (Hz id t Ht).
      destruct (decide (id = d)) as [->|Hne]; [simplify_eq|rewrite Hocc by done; naive_solver].
      split; [lia|by right].
  - constructor; [done|done| |].
    + intros id t Ht. rewrite m_get_set. case_decide; subst; simplify_eq; [f_equal; lia|].
      rewrite (Hdeg id t Ht), Hocc; auto.
    + intros id t Ht. rewrite (Hz id t Ht).
      destruct (decide (id = d)) as [->|Hne]; [simplify_eq|by rewrite Hocc].
      rewrite occs_cons, decide_True by done. lia.
Qed.

Lemma relax_all_inv P Q ds I :
  (forall d, d ∈ ds -> is_Some (m_get d items)) -> loop_inv P Q ds I ->
  exists I' Q', foldl relax (I, Q) ds = (I', Q') /\ loop_inv P Q' [] I'.
Proof.
  revert I Q. induction ds as [|d ds IH]; intros I Q Hds Hinv; [by exists I, Q|].
  simpl. destruct (relax (I, Q) d) as [I1 Q1] eqn:E. apply IH; [set_solver|].
  pose proof (relax_inv P Q ds I d (Hds d ltac:(set_solver)) Hinv) as H. by rewrite E in H.
Qed.

(** Moving the head of the queue to the processed prefix opens the degrees
    of its dependents. *)
Lemma degree_snoc P c t :
  c ∉ P -> m_has c items = true ->
  degree P t = degree (P ++ [c]) t + occs c (t_dependencies t).
Proof.
  intros Hc Hh. unfold degree, open_deps, occs. induction (t_dependencies t) as [|x l IH]; [done|].
  rewrite !filter_cons. repeat case_decide; simpl; try set_solver; lia.
Qed.

Lemma dequeue_inv P c Q I :
  loop_inv P (c :: Q) [] I -> loop_inv (P ++ [c]) Q (dependents_list items c) I.
Proof.
  intros [Hn Hk Hdeg Hz].
  assert (Hc : c ∉ P) by (apply NoDup_app in Hn; set_solver).
  assert (Hh : m_has c items = true) by (apply m_has_spec, Hk; set_solver).
  assert (Heq : forall id t, m_get id items = Some t ->
    degree (P ++ [c]) t + occs id (dependents_list items c) = degree P t + occs id []).
  { intros id t Ht. rewrite (degree_snoc P c t Hc Hh), occs_dependents, Ht by done.
    unfold occs at 3. simpl. lia. }
  rewrite cons_middle, app_assoc in Hn, Hk, Hz.
  constructor; [done|done| |]; intros id t Ht; rewrite (Heq id t Ht); auto.
Qed.

(** Every task on the list comes after the tasks it depends on. *)
Definition topo_ordered (l : list TaskItemId) : Prop :=
  forall l1 id l2 t d, l = l1 ++ id :: l2 -> m_get id items = Some t ->
    d ∈ t_dependencies t -> m_has d items = true -> d ∈ l1.

Lemma topo_snoc P c :
  topo_ordered P ->
  (forall t d, m_get c items = Some t -> d ∈ t_dependencies t -> m_has d items = true -> d ∈ P) ->
  topo_ordered (P ++ [c]).
Proof.
  intros HP Hc l1 id l2 t d Heq Ht Hd Hh. destruct l2 as [|y l2 _] using rev_ind.
  - apply app_inj_tail in Heq as [<- <-]. eauto.
  - rewrite app_comm_cons, app_assoc in Heq. apply app_inj_tail in Heq as [-> <-]. eauto.
Qed.

Lemma kahn_spec fuel D P Q I :
  (forall c, is_Some (m_get c items) -> m_get c D = Some (dependents_list items c)) ->
  m_size items <= length P + fuel -> topo_ordered P -> loop_inv P Q [] I ->
  exists L I', kahn fuel D I Q P = Some L /\ topo_ordered L /\ loop_inv L [] [] I'.
Proof.
  intros HD. revert P Q I. induction fuel as [|fuel IH]; intros P Q I Hf HP Hinv.
  - destruct Q as [|c Q]; [by exists P, I|]. exfalso. destruct Hinv as [Hn Hk _ _].
    assert (Hle : length (P ++ c :: Q) <= length (m_keys items)).
    { apply submseteq_length, NoDup_submseteq; [done|]. intros id Hid.
      by apply elem_of_m_keys, Hk. }
    unfold m_keys, m_size in *. rewrite length_fmap, length_app in Hle. simpl in Hle. lia.
  - destruct Q as [|c Q]; [by exists P, I|]. simpl.
    assert (Hc : is_Some (m_get c items)) by (apply (li_known _ _ _ _ Hinv); set_solver).
    rewrite (HD c Hc). simpl.
    destruct (relax_all_inv (P ++ [c]) Q (dependents_list items c) I) as (I' & Q' & -> & Hinv').
    { intros d. rewrite elem_of_dependents by done. intros (t & Ht & _). eauto. }
    { by apply dequeue_inv. }
    apply IH; [rewrite length_app; simpl; lia| |done].
    apply topo_snoc; [done|]. intros t d Ht Hd Hh.
    destruct (decide (d ∈ P)) as [|HnP]; [done|]. exfalso.
    pose proof (proj1 (li_zero _ _ _ _ Hinv c t Ht) ltac:(set_solver)) as Hz.
    assert (0 < degree P t); [|lia]. unfold degree, open_deps.
    destruct (filter _ _) eqn:E; simpl; [|lia]. exfalso.
    apply (not_elem_of_nil d). rewrite <-E. by apply list_elem_of_filter.
Qed.

(** What [topologicalSort] returns, whatever the graph. *)
Lemma topologicalSort_cases :
  exists I, topo_ordered (topologicalSort items) /\ loop_inv (topologicalSort items) [] [] I.
Proof.
  unfold topologicalSort. destruct (build_degrees_spec items Hnd) as (D & I & -> & HndI & HD & HI).
  assert (Hzero : forall id t, m_get id items = Some t ->
    (id ∈ zero_degree I <-> degree [] t = 0)).
  { intros id t Ht. specialize (HI id). rewrite Ht in HI. simpl in HI. unfold zero_degree, m_keys.
    rewrite list_elem_of_fmap. split.
    - intros ([id' z] & -> & Hin). apply list_elem_of_filter in Hin as [Hz Hin]. simpl in *.
      apply elem_m_get in Hin; [|done]. unfold degree. rewrite HI in Hin. injection Hin. lia.
    - intros Hz. exists (id, 0%Z). split; [done|]. apply list_elem_of_filter. split; [done|].
      apply m_get_elem. rewrite HI. unfold degree in Hz. by rewrite Hz. }
  destruct (kahn_spec (m_size items) D [] (zero_degree I) I) as (L & I' & -> & HL & Hinv).
  - intros c Hc. rewrite HD. by apply m_has_spec in Hc as ->.
  - simpl. lia.
  - intros l1 id l2 t d Heq. by destruct l1.
  - constructor.
    + simpl. unfold zero_degree, m_keys in *. clear -HndI.
      induction I as [|[id z] I IH]; [constructor|]. apply NoDup_cons in HndI as [Hn HndI].
      rewrite filter_cons. case_decide; [|auto]. rewrite fmap_cons. apply NoDup_cons. split; [|auto].
      intros Hin. apply Hn. apply list_elem_of_fmap in Hin as (p & Hp & Hin).
      apply list_elem_of_filter in Hin as [_ Hin]. apply list_elem_of_fmap. eauto.
    + intros id Hin. simpl in Hin. unfold zero_degree, m_keys in Hin.
      apply list_elem_of_fmap in Hin as ([id' z] & -> & Hin).
      apply list_elem_of_filter in Hin as [_ Hin]. apply elem_m_get in Hin; [|done].
      rewrite HI in Hin. simpl. destruct (m_get id' items); [eauto|done].
    + intros id t Ht. rewrite HI, Ht. simpl. unfold degree. f_equal. unfold occs. simpl. lia.
    + intros id t Ht. simpl. rewrite (Hzero id t Ht). unfold occs. simpl. lia.
  - exists I'. done.
Qed.
End Kahn.

(** ** Consequences for the graph *)

Lemma dep_edge_source items a b : dep_edge items a b -> is_Some (m_get a items).
Proof. intros (t & -> & _). eauto. Qed.

Lemma tc_edge_source items a b : tc (dep_edge items) a b -> is_Some (m_get a items).
Proof. destruct 1; eauto using dep_edge_source. Qed.

(** In an acyclic board dependencies are well founded: induction along them is
    available, starting anywhere. *)
Lemma acyclic_sn items a : acyclic items -> sn (dep_edge items) a.
Proof.
  intros Hac. apply tc_finite_sn; [exact Hac|].
  exists (items ≫= fun e => t_dependencies e.2). intros b Hb.
  assert (forall x y, dep_edge items x y -> y ∈ items ≫= fun e => t_dependencies e.2) as Hedge.
  { intros x y (t & Ht & Hy). apply list_elem_of_bind. exists (x, t). split; [done|].
    by apply m_get_elem. }
  clear Hac. induction Hb; eauto.
Qed.

Lemma topo_ordered_tc items l a b :
  topo_ordered items l -> (forall id, is_Some (m_get id items) -> id ∈ l) ->
  tc (dep_edge items) a b -> is_Some (m_get b items) ->
  forall l1 l2, l = l1 ++ a :: l2 -> b ∈ l1.
Proof.
  intros Hl Hall Htc. induction Htc as [a b (t & Ht & Hb)|a c b (t & Ht & Hc) Htc IH];
    intros Hsb l1 l2 Heq.
  - apply (Hl l1 a l2 t b Heq Ht Hb). by apply m_has_spec.
  - assert (c ∈ l1) as Hin.
    { apply (Hl l1 a l2 t c Heq Ht Hc). apply m_has_spec. by eapply tc_edge_source. }
    apply list_elem_of_split in Hin as (k1 & k2 & ->).
    assert (b ∈ k1); [|set_solver].
    apply (IH Hsb k1 (k2 ++ a :: l2)). rewrite Heq. by rewrite <-app_assoc.
Qed.

Lemma isAcyclic_spec items : NoDup (m_keys items) -> isAcyclic items = true <-> acyclic items.
Proof.
  intros Hnd. unfold isAcyclic. rewrite bool_decide_eq_true.
  destruct (topologicalSort_cases items Hnd) as (I & Htopo & [Hn Hk Hdeg Hz]).
  set (L := topologicalSort items) in *. rewrite app_nil_r in Hn, Hk.
  assert (HLk : L ⊆+ m_keys items).
  { apply NoDup_submseteq; [done|]. intros id Hid. by apply elem_of_m_keys, Hk. }
  assert (Hsize : length (m_keys items) = m_size items) by (unfold m_keys; apply length_fmap).
  split.
  - intros Hlen a Htc.
    assert (Hperm : L ≡ₚ m_keys items) by (apply submseteq_length_Permutation; [done|lia]).
    assert (Hall : forall id, is_Some (m_get id items) -> id ∈ L).
    { intros id Hid. rewrite Hperm. by apply elem_of_m_keys. }
    pose proof (tc_edge_source _ _ _ Htc) as Ha.
    destruct (list_elem_of_split L a (Hall a Ha)) as (l1 & l2 & Heq).
    pose proof (topo_ordered_tc items L a a Htopo Hall Htc Ha l1 l2 Heq).
    rewrite Heq in Hn. apply NoDup_app in Hn. set_solver.
  - intros Hac. rewrite <-Hsize. apply Permutation_length, NoDup_Permutation; [done|done|].
    intros id. rewrite elem_of_m_keys. split; [apply Hk|].
    induction (acyclic_sn items id Hac) as [id _ IH]. intros [t Ht].
    rewrite <-(app_nil_r L). apply (Hz id t Ht). unfold occs, degree, open_deps. simpl.
    rewrite Nat.add_0_r. destruct (filter _ _) as [|d l] eqn:E; [done|]. exfalso.
    assert (d ∈ filter (fun d => m_has d items = true /\ d ∉ L) (t_dependencies t)) as Hd.
    { rewrite E. set_solver. }
    apply list_elem_of_filter in Hd as [[Hh HnL] Hd]. apply HnL, IH; [by exists t|].
    by apply m_has_spec.
Qed.

(** ** Properties *)

(** C1: [detectCycle] is sound and complete.  It returns [undefined] exactly
    when no dependency of the new node leads back to it, and a path it returns
    is a genuine cycle through the new node. *)
Theorem detectCycle_correct items newDeps newId :
  (detectCycle items newDeps newId = None <->
     forall d, d ∈ newDeps -> ~ rtc (dep_edge items) d newId) /\
  (forall c, detectCycle items newDeps newId = Some c ->
     walk (edge_with items newDeps newId) newId newId c /\ 2 <= length c).
Proof.
  pose proof (detectCycle_cases items newDeps newId) as H.
  destruct (detectCycle items newDeps newId) as [c|].
  - destruct H as (d & p & Hd & -> & Hw). split.
    + split; [done|]. intros Hall. exfalso. by apply (Hall d Hd), (walk_rtc _ _ _ p).
    + intros c [= <-]. split; [|inversion Hw; simpl; lia].
      apply (walk_step _ _ d); [by right|]. apply (walk_mono (dep_edge items)); [by left|done].
  - by split.
Qed.

(** Kahn's algorithm.  The order returned never repeats a task, puts every
    task after the tasks it depends on, and contains all tasks exactly when
    the graph has no cycle, which is what [isAcyclic] answers. *)
Lemma topologicalSort_correct items :
  NoDup (m_keys items) ->
  NoDup (topologicalSort items) /\ topo_ordered items (topologicalSort items) /\
  (isAcyclic items = true <-> acyclic items) /\
  (acyclic items -> topologicalSort items ≡ₚ m_keys items).
Proof.
  intros Hnd. pose proof (isAcyclic_spec items Hnd) as Hiff.
  destruct (topologicalSort_cases items Hnd) as (I & Htopo & [Hn Hk _ _]).
  rewrite app_nil_r in Hn, Hk. split; [done|]. split; [done|]. split; [done|].
  intros Hac. apply Hiff in Hac. unfold isAcyclic in Hac. apply bool_decide_eq_true in Hac.
  apply submseteq_length_Permutation.
  - apply NoDup_submseteq; [done|]. intros id Hid. by apply elem_of_m_keys, Hk.
  - unfold m_keys. rewrite length_fmap. unfold m_size in Hac. lia.
Qed.

(** A board of three tasks, the third depending on the other two. *)
Definition sample_task (id : string) (deps : list string) (st : TaskStatus) : Task :=
  mkTask id id id deps st None None None None 0 0 None None 0 0 None.

Definition sample_items : list (string * Task) :=
  [("c", sample_task "c" ["a"; "b"] pending); ("a", sample_task "a" [] pending);
   ("b", sample_task "b" ["a"] pending)].

Lemma topologicalSort_correct_witness :
  topologicalSort sample_items = ["a"; "b"; "c"] /\
  topo_ordered sample_items (topologicalSort sample_items).
Proof.
  split; [vm_compute; reflexivity|].
  apply (topologicalSort_correct sample_items).
  apply NoDup_cons. split; [|apply NoDup_cons; split; [|apply NoDup_singleton]]; set_solver.
Defined.

Example detectCycle_finds :
  detectCycle sample_items ["c"] "a" = Some ["a"; "c"; "a"] /\ detectCycle sample_items ["c"] "d" = None.
Proof. vm_compute. split; reflexivity. Qed.
