(* ===== verification/TaskBoard.v ===== *)
(** * The task board: [packages/lib/task-board/src/board.ts], [helpers.ts], [guards.ts]

    Every mutation of the immutable board as a function from a board to a new
    board and the events emitted, or an error; the queries; loading and saving
    snapshots.  The clock is an argument: every mutation reads [Date.now()]
    once. *)

From S2P Require Import Prelude JsMap TaskTypes Dag.

Local Open Scope string_scope.
Local Open Scope list_scope.

(** ** Error factories *)

Definition conflictError (id : TaskItemId) : KoiError :=
  mkKoiError CONFLICT ("Task already exists: " +:+ id) false (Some [("resourceId", JStr id)]) None.

Definition notFoundError (id : TaskItemId) : KoiError :=
  mkKoiError NOT_FOUND ("Task not found: " +:+ id) false (Some [("resourceId", JStr id)]) None.

Definition validationError (message : string) : KoiError := koiError VALIDATION message false.

(** ** Helpers *)

Definition isDead (s : TaskStatus) : bool :=
  bool_decide (s = failed) || bool_decide (s = killed).

Definition isReady (task : Task) (items : list (TaskItemId * Task)) : bool :=
  bool_decide (t_status task = pending) &&
  forallb (fun dep =>
    match m_get dep items with
    | Some depTask => bool_decide (t_status depTask = completed)
    | None => false
    end) (t_dependencies task).

Definition stripDelegatedTo (metadata : option Metadata) : option Metadata :=
  match metadata with
  | None => None
  | Some m =>
      if m_has "delegatedTo" m then
        let rest := m_delete "delegatedTo" m in
        if decide (0 < length (m_keys rest)) then Some rest else None
      else Some m
  end.

Definition inputToTask (input : TaskInput) (now : Z) : Task :=
  mkTask (in_id input) (default (in_description input) (in_subject input)) (in_description input)
    (default [] (in_dependencies input)) pending (in_createdBy input) None None
    (in_activeForm input) 0 0 None (in_metadata input) now now None.

Definition filterTasks (items : list (TaskItemId * Task)) (predicate : Task -> bool) : list Task :=
  foldl (fun result entry => if predicate entry.2 then result ++ [entry.2] else result) [] items.

(** Reverse adjacency: every task is recorded with each of its dependencies. *)
Definition add_dependent (id : TaskItemId) (reverse : list (TaskItemId * list TaskItemId))
    (dep : TaskItemId) : list (TaskItemId * list TaskItemId) :=
  match m_get dep reverse with
  | Some l => m_set dep (l ++ [id]) reverse
  | None => reverse
  end.

Definition buildReverseAdjacency (items : list (TaskItemId * Task))
    : list (TaskItemId * list TaskItemId) :=
  foldl (fun reverse entry => foldl (add_dependent entry.1) reverse (t_dependencies entry.2))
    (empty_dependents items) items.

(** The inner function [hasDeadAncestor]; [st] holds the [cache] shared by all
    calls and the [visiting] set of the outermost one. *)
Fixpoint hasDeadAncestor (fuel : nat) (items : list (TaskItemId * Task))
    (st : list (TaskItemId * bool) * list TaskItemId) (taskId : TaskItemId)
    : option (bool * (list (TaskItemId * bool) * list TaskItemId)) :=
  match fuel with
  | O => None
  | S fuel' =>
      match m_get taskId st.1 with
      | Some cached => Some (cached, st)
      | None =>
          if decide (taskId ∈ st.2) then Some (false, st)
          else
            let st1 := (st.1, s_add taskId st.2) in
            match m_get taskId items with
            | None => Some (false, (m_set taskId false st1.1, st1.2))
            | Some task =>
                match for_return (fun s dep =>
                  match m_get dep items with
                  | None => Some (None, s)
                  | Some depTask =>
                      if isDead (t_status depTask) then
                        Some (Some true, (m_set taskId true s.1, s.2))
                      else
                        match hasDeadAncestor fuel' items s dep with
                        | None => None
                        | Some (true, s') => Some (Some true, (m_set taskId true s'.1, s'.2))
                        | Some (false, s') => Some (None, s')
                        end
                  end) st1 (t_dependencies task) with
                | None => None
                | Some (Some r, s) => Some (r, s)
                | Some (None, s) => Some (false, (m_set taskId false s.1, s.2))
                end
            end
      end
  end.

(** The loop of [computeUnreachableSet]: a fresh [visiting] set per task, one
    cache for all; each nested call adds a task of the board to [visiting]. *)
Definition unreachable_step (items : list (TaskItemId * Task))
    (st : list TaskItemId * list (TaskItemId * bool)) (entry : TaskItemId * Task)
    : list TaskItemId * list (TaskItemId * bool) :=
  if decide (t_status entry.2 = pending) then
    match hasDeadAncestor (S (m_size items)) items (st.2, []) entry.1 with
    | Some (true, s) => (s_add entry.1 st.1, s.1)
    | Some (false, s) => (st.1, s.1)
    | None => st
    end
  else st.

Definition computeUnreachableSet (items : list (TaskItemId * Task)) : list TaskItemId :=
  (foldl (unreachable_step items) ([], []) items).1.

(** The inner function [traverse]; the state is [visited] and the list of
    newly unreachable tasks. *)
Fixpoint traverse (fuel : nat) (items : list (TaskItemId * Task)) (existing : list TaskItemId)
    (reverseAdj : list (TaskItemId * list TaskItemId)) (st : list TaskItemId * list TaskItemId)
    (current : TaskItemId) : option (list TaskItemId * list TaskItemId) :=
  match fuel with
  | O => None
  | S fuel' =>
      foldl (fun acc id =>
        match acc with
        | None => None
        | Some (visited, newly) =>
            if decide (id ∈ visited) then Some (visited, newly)
            else
              let newly' :=
                match m_get id items with
                | Some task =>
                    if bool_decide (t_status task = pending) && negb (s_has id existing)
                    then newly ++ [id] else newly
                | None => newly
                end in
              traverse fuel' items existing reverseAdj (s_add id visited, newly') id
        end) (Some st) (default [] (m_get current reverseAdj))
  end.

(** Each nested call adds a task of the board to [visited]. *)
Definition findNewlyUnreachable (taskId : TaskItemId) (items : list (TaskItemId * Task))
    (existing : list TaskItemId) (reverseAdj : list (TaskItemId * list TaskItemId)) : list TaskItemId :=
  match traverse (S (m_size items)) items existing reverseAdj ([], []) taskId with
  | Some (_, newly) => newly
  | None => []
  end.

(** ** The board *)

(** The state captured by [createBoardFromState].  Its caches (reverse
    adjacency, [blockedBy]) only memoise functions of this state. *)
Record Board : Type := mkBoard {
  b_items : list (TaskItemId * Task);
  b_results : list (TaskItemId * TaskResult);
  b_unreachable : list TaskItemId;
  b_config : TaskBoardConfig
}.

Abbreviation BoardResult := (Result (Board * list TaskBoardEvent) KoiError) (only parsing).

Definition maxRetries (config : TaskBoardConfig) : Z :=
  default (default 3%Z (cfg_maxRetries DEFAULT_TASK_BOARD_CONFIG)) (cfg_maxRetries config).

(** [Partial<Pick<Task, ...>>]: a key that is absent leaves the field, a key
    that is present overwrites it, also with [undefined]. *)
Record TransitionPatch : Type := mkTransitionPatch {
  tp_assignedTo : option (option AgentId);
  tp_lastAssignedTo : option (option AgentId);
  tp_error : option (option KoiError)
}.

Definition no_patch : TransitionPatch := mkTransitionPatch None None None.

Definition invalidTransitionMessage (taskId : TaskItemId) (from to : TaskStatus) : string :=
  "Cannot transition task " +:+ taskId +:+ ": '" +:+ status_string from +:+ "' → '" +:+
  status_string to +:+ "' is not a valid transition".

(** The updated task a valid transition builds. *)
Definition transitioned (task : Task) (to : TaskStatus) (patch : TransitionPatch) (ts : Z) : Task :=
  let nextMetadata :=
    if decide (to = in_progress) then stripDelegatedTo (t_metadata task) else t_metadata task in
  mkTask (t_id task) (t_subject task) (t_description task) (t_dependencies task) to
    (t_createdBy task)
    (default (t_assignedTo task) (tp_assignedTo patch))
    (default (t_lastAssignedTo task) (tp_lastAssignedTo patch))
    (if isTerminalTaskStatus to then None else t_activeForm task)
    (t_retries task) (t_version task + 1)
    (default (t_error task) (tp_error patch)) nextMetadata
    (t_createdAt task) ts
    (if decide (to = in_progress) then Some ts else t_startedAt task).

Definition transitionTask (items : list (TaskItemId * Task)) (taskId : TaskItemId) (to : TaskStatus)
    (patch : TransitionPatch) (ts : Z) : Result (Task * list (TaskItemId * Task)) KoiError :=
  match m_get taskId items with
  | None => Err (notFoundError taskId)
  | Some task =>
      if isValidTransition (t_status task) to then
        let updated := transitioned task to patch ts in
        Ok (updated, m_set taskId updated items)
      else Err (validationError (invalidTransitionMessage taskId (t_status task) to))
  end.

Module TB.

(** ** Mutations *)

Definition cycleError (cycle : list TaskItemId) : KoiError :=
  validationError ("Cycle detected: " +:+ String.concat " → " cycle).

Definition is_dead_in (items : list (TaskItemId * Task)) (dep : TaskItemId) : bool :=
  match m_get dep items with Some depTask => isDead (t_status depTask) | None => false end.

Definition find_first {A : Type} (p : A -> bool) (l : list A) : option A := head (filter p l).

(** [add]. *)
Definition add (b : Board) (input : TaskInput) (now : Z) : BoardResult :=
  let items := b_items b in
  let deps := default [] (in_dependencies input) in
  if m_has (in_id input) items then Err (conflictError (in_id input))
  else if s_has (in_id input) deps then
    Err (validationError ("Cycle detected: " +:+ in_id input +:+ " → " +:+ in_id input))
  else
    match find_first (fun dep => negb (m_has dep items)) deps with
    | Some dep => Err (notFoundError dep)
    | None =>
        match detectCycle items deps (in_id input) with
        | Some cycle => Err (cycleError cycle)
        | None =>
            let newTask := inputToTask input now in
            let newItems := m_set (in_id input) newTask items in
            let hasDeadDep := existsb (is_dead_in items) deps in
            let hasUnreachableDep := existsb (fun dep => s_has dep (b_unreachable b)) deps in
            let newUnreachable :=
              if hasDeadDep || hasUnreachableDep then s_add (in_id input) (b_unreachable b)
              else b_unreachable b in
            let newBoard := mkBoard newItems (b_results b) newUnreachable (b_config b) in
            let unreachableEvent :=
              if s_has (in_id input) newUnreachable then
                match find_first (fun dep => is_dead_in items dep || s_has dep (b_unreachable b)) deps with
                | Some blockingDep => [task_unreachable (in_id input) blockingDep]
                | None => []
                end
              else [] in
            Ok (newBoard, task_added newTask :: unreachableEvent)
        end
    end.

(** The first loop of [addAll]. *)
Fixpoint addAll_entries (ts : Z) (inputs : list TaskInput) (newItems : list (TaskItemId * Task))
    (newEntries : list Task) : Result (list (TaskItemId * Task) * list Task) KoiError :=
  match inputs with
  | [] => Ok (newItems, newEntries)
  | input :: rest =>
      if m_has (in_id input) newItems then Err (conflictError (in_id input))
      else
        let entry := inputToTask input ts in
        addAll_entries ts rest (m_set (in_id input) entry newItems) (newEntries ++ [entry])
  end.

(** The cycle reported by [addAll]: the first one found from a new entry. *)
Fixpoint addAll_cycle (newItems : list (TaskItemId * Task)) (newEntries : list Task) : KoiError :=
  match newEntries with
  | [] => validationError "Cycle detected in task dependency graph"
  | entry :: rest =>
      match detectCycle newItems (t_dependencies entry) (t_id entry) with
      | Some cycle => cycleError cycle
      | None => addAll_cycle newItems rest
      end
  end.

(** The [task:unreachable] event of one batch entry. *)
Definition addAll_unreachable (b : Board) (newItems : list (TaskItemId * Task))
    (newUnreachable : list TaskItemId) (entry : Task) : list TaskBoardEvent :=
  if s_has (t_id entry) newUnreachable then
    match find_first (fun dep => is_dead_in newItems dep || s_has dep (b_unreachable b) ||
      s_has dep newUnreachable) (t_dependencies entry) with
    | Some blockingDep => [task_unreachable (t_id entry) blockingDep]
    | None => []
    end
  else [].

Definition addAll (b : Board) (inputs : list TaskInput) (now : Z) : BoardResult :=
  match addAll_entries now inputs (b_items b) [] with
  | Err e => Err e
  | Ok (newItems, newEntries) =>
      match find_first (fun dep => negb (m_has dep newItems)) (newEntries ≫= t_dependencies) with
      | Some dep => Err (notFoundError dep)
      | None =>
          if negb (isAcyclic newItems) then Err (addAll_cycle newItems newEntries)
          else
            let newUnreachable := computeUnreachableSet newItems in
            let newBoard := mkBoard newItems (b_results b) newUnreachable (b_config b) in
            Ok (newBoard, (task_added <$> newEntries) ++
                          (newEntries ≫= addAll_unreachable b newItems newUnreachable))
      end
  end.

(** The per-owner count of [assign]: [Some count] when the limit is reached. *)
Fixpoint owned_limit (items : list (TaskItemId * Task)) (agentId : AgentId) (maxPerOwner count : Z)
    : option Z :=
  match items with
  | [] => None
  | (_, t) :: rest =>
      if bool_decide (t_status t = in_progress) && bool_decide (t_assignedTo t = Some agentId) then
        if (count + 1 >=? maxPerOwner)%Z then Some (count + 1)%Z
        else owned_limit rest agentId maxPerOwner (count + 1)
      else owned_limit rest agentId maxPerOwner count
  end.

(** The checks of [assign] on [maxInProgressPerOwner]. *)
Definition owner_check (b : Board) (taskId : TaskItemId) (agentId : AgentId) : option KoiError :=
  match cfg_maxInProgressPerOwner (b_config b) with
  | None => None
  | Some maxPerOwner =>
      if (maxPerOwner <=? 0)%Z then
        Some (validationError ("Cannot assign task " +:+ taskId +:+ ": maxInProgressPerOwner is " +:+
          pretty maxPerOwner +:+ " (no assignments allowed)"))
      else
        match owned_limit (b_items b) agentId maxPerOwner 0 with
        | Some count =>
            Some (validationError ("Cannot assign task " +:+ taskId +:+ " to " +:+ agentId +:+
              ": agent already has " +:+ pretty count +:+ " in-progress task(s) (max: " +:+
              pretty maxPerOwner +:+ ")"))
        | None => None
        end
  end.

Definition assign (b : Board) (taskId : TaskItemId) (agentId : AgentId) (now : Z) : BoardResult :=
  match m_get taskId (b_items b) with
  | None => Err (notFoundError taskId)
  | Some task =>
      if negb (bool_decide (t_status task = pending)) then
        Err (validationError ("Cannot assign task " +:+ taskId +:+ ": status is '" +:+
          status_string (t_status task) +:+ "', expected 'pending'"))
      else if negb (isReady task (b_items b)) then
        Err (validationError ("Cannot assign task " +:+ taskId +:+ ": dependencies not satisfied"))
      else
        match owner_check b taskId agentId with
        | Some e => Err e
        | None =>
            match transitionTask (b_items b) taskId in_progress
              (mkTransitionPatch (Some (Some agentId)) (Some (Some agentId)) None) now with
            | Err e => Err e
            | Ok (_, items) =>
                Ok (mkBoard items (b_results b) (b_unreachable b) (b_config b),
                    [task_assigned taskId agentId])
            end
        end
  end.

Definition unassign (b : Board) (taskId : TaskItemId) (now : Z) : BoardResult :=
  match m_get taskId (b_items b) with
  | None => Err (notFoundError taskId)
  | Some task =>
      if negb (bool_decide (t_status task = in_progress)) then
        Err (validationError ("Cannot unassign task " +:+ taskId +:+ ": task is '" +:+
          status_string (t_status task) +:+ "', expected 'in_progress'"))
      else
        let updated := mkTask (t_id task) (t_subject task) (t_description task)
          (t_dependencies task) pending (t_createdBy task) None (t_lastAssignedTo task)
          (t_activeForm task) (t_retries task) (t_version task + 1) (t_error task)
          (stripDelegatedTo (t_metadata task)) (t_createdAt task) now (t_startedAt task) in
        Ok (mkBoard (m_set taskId updated (b_items b)) (b_results b) (b_unreachable b) (b_config b),
            [task_unassigned taskId])
  end.

Definition complete (b : Board) (taskId : TaskItemId) (taskResult : TaskResult) (now : Z) : BoardResult :=
  if negb (bool_decide (r_taskId taskResult = taskId)) then
    Err (validationError ("Result taskId '" +:+ r_taskId taskResult +:+
      "' does not match completed taskId '" +:+ taskId +:+ "'"))
  else
    match transitionTask (b_items b) taskId completed no_patch now with
    | Err e => Err e
    | Ok (_, items) =>
        Ok (mkBoard items (m_set taskId taskResult (b_results b)) (b_unreachable b) (b_config b),
            [task_completed taskId taskResult])
    end.

(** The [lastAssignedTo] backfill of [fail] and [kill]. *)
Definition backfillLastAssignedTo (task : Task) : option (option AgentId) :=
  match t_lastAssignedTo task, t_assignedTo task with
  | None, Some a => Some (Some a)
  | _, _ => None
  end.

(** The tail of [fail] and [kill]: record and announce what is cut off. *)
Definition finish_dead (b : Board) (taskId : TaskItemId) (items : list (TaskItemId * Task))
    (event : TaskBoardEvent) : Board * list TaskBoardEvent :=
  let newlyUnreachable := findNewlyUnreachable taskId items (b_unreachable b)
    (buildReverseAdjacency (b_items b)) in
  let newUnreachable := s_addAll newlyUnreachable (b_unreachable b) in
  (mkBoard items (b_results b) newUnreachable (b_config b),
   event :: ((fun id => task_unreachable id taskId) <$> newlyUnreachable)).

Definition fail (b : Board) (taskId : TaskItemId) (error : KoiError) (now : Z) : BoardResult :=
  match m_get taskId (b_items b) with
  | None => Err (notFoundError taskId)
  | Some task =>
      if negb (bool_decide (t_status task = in_progress)) then
        Err (validationError ("Cannot fail task " +:+ taskId +:+ ": status is '" +:+
          status_string (t_status task) +:+ "', expected 'in_progress'"))
      else if err_retryable error && (t_retries task <? maxRetries (b_config b))%Z then
        let updated := mkTask (t_id task) (t_subject task) (t_description task)
          (t_dependencies task) pending (t_createdBy task) None
          (default (t_lastAssignedTo task) (backfillLastAssignedTo task))
          (t_activeForm task) (t_retries task + 1) (t_version task + 1) (Some error)
          (stripDelegatedTo (t_metadata task)) (t_createdAt task) now (t_startedAt task) in
        Ok (mkBoard (m_set taskId updated (b_items b)) (b_results b) (b_unreachable b) (b_config b),
            [task_retried taskId (t_retries task + 1)])
      else
        match transitionTask (b_items b) taskId failed
          (mkTransitionPatch (Some None) (backfillLastAssignedTo task) (Some (Some error))) now with
        | Err e => Err e
        | Ok (_, items) => Ok (finish_dead b taskId items (task_failed taskId error))
        end
  end.

Definition kill (b : Board) (taskId : TaskItemId) (now : Z) : BoardResult :=
  let task := m_get taskId (b_items b) in
  let prevStatus := default pending (t_status <$> task) in
  let killBackfill := mkTransitionPatch None
    (match task with Some t => backfillLastAssignedTo t | None => None end) None in
  match transitionTask (b_items b) taskId killed killBackfill now with
  | Err e => Err e
  | Ok (_, items) => Ok (finish_dead b taskId items (task_killed taskId prevStatus))
  end.

Definition update (b : Board) (taskId : TaskItemId) (patch : TaskPatch) (now : Z) : BoardResult :=
  match m_get taskId (b_items b) with
  | None => Err (notFoundError taskId)
  | Some task =>
      if isTerminalTaskStatus (t_status task) then
        Err (validationError ("Cannot update task " +:+ taskId +:+ ": status is '" +:+
          status_string (t_status task) +:+ "'"))
      else
        let updated := mkTask (t_id task) (default (t_subject task) (p_subject patch))
          (default (t_description task) (p_description patch)) (t_dependencies task)
          (t_status task) (t_createdBy task) (t_assignedTo task) (t_lastAssignedTo task)
          (default (t_activeForm task) (p_activeForm patch)) (t_retries task)
          (t_version task + 1) (t_error task)
          (match p_metadata patch with Some m => Some m | None => t_metadata task end)
          (t_createdAt task) now (t_startedAt task) in
        Ok (mkBoard (m_set taskId updated (b_items b)) (b_results b) (b_unreachable b) (b_config b),
            [task_updated taskId patch])
  end.

(** ** Queries *)

Definition result (b : Board) (taskId : TaskItemId) : option TaskResult := m_get taskId (b_results b).
Definition get (b : Board) (taskId : TaskItemId) : option Task := m_get taskId (b_items b).
Definition with_status (b : Board) (s : TaskStatus) : list Task :=
  filterTasks (b_items b) (fun t => bool_decide (t_status t = s)).
Definition ready (b : Board) : list Task := filterTasks (b_items b) (fun t => isReady t (b_items b)).
Definition blocked (b : Board) : list Task :=
  filterTasks (b_items b) (fun t => bool_decide (t_status t = pending) && negb (isReady t (b_items b))).
Definition completed_results (b : Board) : list TaskResult := m_values (b_results b).

Definition unreachable (b : Board) : list Task :=
  foldl (fun acc id =>
    match m_get id (b_items b) with
    | Some task => if bool_decide (t_status task = pending) then acc ++ [task] else acc
    | None => acc
    end) [] (b_unreachable b).

Definition dependentsOf (b : Board) (taskId : TaskItemId) : list Task :=
  foldl (fun acc id => match m_get id (b_items b) with Some task => acc ++ [task] | None => acc end)
    [] (default [] (m_get taskId (buildReverseAdjacency (b_items b)))).

Definition blockedBy (b : Board) (taskId : TaskItemId) : option TaskItemId :=
  match m_get taskId (b_items b) with
  | None => None
  | Some task =>
      if bool_decide (t_status task = pending) then
        find_first (fun dep =>
          match m_get dep (b_items b) with
          | Some depTask => negb (bool_decide (t_status depTask = completed))
          | None => false
          end) (t_dependencies task)
      else None
  end.

Definition all (b : Board) : list Task := m_values (b_items b).
Definition size (b : Board) : nat := m_size (b_items b).

(** ** Creation, loading and saving *)

(** The normalisation of [version]: numbers are integers here, so [Math.floor]
    is the identity. *)
Definition safeVersion (version : jsval) : Z :=
  match version with
  | JNum n => if (0 <=? n)%Z then n else 0
  | _ => 0
  end.

Definition load_task (item : SnapshotTask) : Task :=
  mkTask (sn_id item) (default "" (sn_subject item)) (sn_description item) (sn_dependencies item)
    (sn_status item) (sn_createdBy item) (sn_assignedTo item) (sn_lastAssignedTo item)
    (sn_activeForm item) (default 0%Z (sn_retries item)) (safeVersion (sn_version item))
    (sn_error item)
    (if decide (sn_status item = in_progress) then stripDelegatedTo (sn_metadata item)
     else sn_metadata item)
    (default 0%Z (sn_createdAt item)) (default 0%Z (sn_updatedAt item))
    (match sn_startedAt item with
     | Some s => Some s
     | None =>
         if decide (sn_status item = in_progress) then Some (default 0%Z (sn_updatedAt item)) else None
     end).

Definition createTaskBoard (config : option TaskBoardConfig) (initial : option TaskBoardSnapshot)
    : Board :=
  let resolvedConfig := default DEFAULT_TASK_BOARD_CONFIG config in
  match initial with
  | None => mkBoard [] [] [] resolvedConfig
  | Some snapshot =>
      let items := foldl (fun m item => m_set (sn_id item) (load_task item) m) [] (snap_items snapshot) in
      let results := foldl (fun m r => m_set (r_taskId r) r m) [] (snap_results snapshot) in
      mkBoard items results (computeUnreachableSet items) resolvedConfig
  end.

(** A task as [serializeBoard] hands it out: every field present. *)
Definition save_task (t : Task) : SnapshotTask :=
  mkSnapshotTask (t_id t) (Some (t_subject t)) (t_description t) (t_dependencies t) (t_status t)
    (t_createdBy t) (t_assignedTo t) (t_lastAssignedTo t) (t_activeForm t) (Some (t_retries t))
    (JNum (t_version t)) (t_error t) (t_metadata t) (Some (t_createdAt t)) (Some (t_updatedAt t))
    (t_startedAt t).

Definition serializeBoard (b : Board) : TaskBoardSnapshot :=
  mkTaskBoardSnapshot (save_task <$> all b) (completed_results b).

Definition deserializeBoard (snapshot : TaskBoardSnapshot) (config : option TaskBoardConfig) : Board :=
  createTaskBoard config (Some snapshot).

Definition snapshotToItemsMap (b : Board) : list (TaskItemId * Task) :=
  foldl (fun m t => m_set (t_id t) t m) [] (all b).

End TB.
