(* ===== verification/TaskBoardGraph.v ===== *)
(** * The board's graph searches

    Correctness of the memoised search for dead ancestors, of the reverse
    adjacency and of the forward search from a task that just died. *)

From S2P Require Import Prelude JsMap TaskTypes Dag TaskBoard.

(** ** Dead ancestors *)

(** Some direct or transitive dependency failed or was killed. *)
Definition dead_ancestor (items : list (TaskItemId * Task)) (id : TaskItemId) : Prop :=
  exists d t, tc (dep_edge items) id d /\ m_get d items = Some t /\ isDead (t_status t) = true.

Lemma dead_ancestor_step items id :
  dead_ancestor items id <->
    exists d t, dep_edge items id d /\ m_get d items = Some t /\
      (isDead (t_status t) = true \/ dead_ancestor items d).
Proof.
  split.
  - intros (d & t & Htc & Hd & Hdead). inversion Htc as [? ? He|? c ? He Htc']; subst; [eauto 8|].
    destruct (tc_edge_source _ _ _ Htc') as [tc' Hc]. exists c, tc'.
    split; [done|]. split; [done|]. right. by exists d, t.
  - intros (d & t & He & Hd & [Hdead|(d' & t' & Htc & Hd' & Hdead)]).
    + exists d, t. eauto using tc_once.
    + exists d', t'. eauto using tc_l.
Qed.

Lemma dead_ancestor_source items id : dead_ancestor items id -> is_Some (m_get id items).
Proof. intros (d & t & Htc & _). by eapply tc_edge_source. Qed.

Section HasDeadAncestor.
Context (items : list (TaskItemId * Task)) (Hac : acyclic items).

Definition cache_ok (cache : list (TaskItemId * bool)) : Prop :=
  forall k b, m_get k cache = Some b -> (b = true <-> dead_ancestor items k).

(** The tasks being visited without an answer yet are the callers. *)
Definition visit_ok (cache : list (TaskItemId * bool)) (visiting : list TaskItemId)
    (current : TaskItemId) : Prop :=
  forall v, v ∈ visiting -> m_get v cache = None -> tc (dep_edge items) v current.

(** How a call may change the shared state. *)
Definition hda_frame (st st' : list (TaskItemId * bool) * list TaskItemId) : Prop :=
  cache_ok st'.1 /\ st.2 ⊆ st'.2 /\
  (forall v, v ∈ st'.2 -> v ∉ st.2 -> is_Some (m_get v st'.1)) /\
  (forall k, is_Some (m_get k st.1) -> is_Some (m_get k st'.1)).

Lemma hda_frame_refl st : cache_ok st.1 -> hda_frame st st.
Proof. intros Hok. split; [done|]. split; [done|]. split; [|done]. intros v Hv Hn. done. Qed.

Lemma hda_frame_trans st1 st2 st3 : hda_frame st1 st2 -> hda_frame st2 st3 -> hda_frame st1 st3.
Proof.
  intros (_ & Hs & Hn & Hm) (Hok & Hs' & Hn' & Hm'). split; [done|]. split; [by etrans|].
  split; [|by auto]. intros v Hv Hnv. destruct (decide (v ∈ st2.2)); auto.
Qed.

Lemma cache_ok_set cache k b :
  cache_ok cache -> (b = true <-> dead_ancestor items k) -> cache_ok (m_set k b cache).
Proof. intros Hc Hb k' b'. rewrite m_get_set. case_decide; [naive_solver|apply Hc]. Qed.

(** Answering for [k] closes its visit. *)
Lemma hda_frame_answer st st' k b :
  hda_frame (st.1, s_add k st.2) st' -> (b = true <-> dead_ancestor items k) ->
  hda_frame st (m_set k b st'.1, st'.2).
Proof.
  intros (Hok & Hsub & Hnew & Hmono) Hb. simpl in *. split; [by apply cache_ok_set|].
  split; [intros x Hx; apply Hsub, elem_of_s_add; by right|]. split; simpl.
  - intros v Hv Hn. rewrite m_get_set. case_decide; [by eauto|]. apply Hnew; [done|].
    rewrite elem_of_s_add. naive_solver.
  - intros x Hx. rewrite m_get_set. case_decide; [by eauto|auto].
Qed.

(** Visiting a dependency of [taskId]: what is open above it leads there. *)
Lemma visit_ok_dep st s taskId dep :
  m_get taskId st.1 = None -> visit_ok st.1 st.2 taskId -> dep_edge items taskId dep ->
  hda_frame (st.1, s_add taskId st.2) s -> visit_ok s.1 s.2 dep.
Proof.
  intros Hcache Hvis Hedge (_ & _ & Hs2 & Hs3) v Hv Hn.
  destruct (decide (v = taskId)) as [->|Hne]; [by apply tc_once|].
  eapply tc_r; [|exact Hedge]. simpl in *.
  destruct (decide (v ∈ s_add taskId st.2)) as [Hv2|Hv2].
  - apply Hvis; [rewrite elem_of_s_add in Hv2; naive_solver|].
    apply eq_None_not_Some. intros Hsome. apply Hs3 in Hsome. destruct Hsome. congruence.
  - destruct (Hs2 v Hv Hv2). congruence.
Qed.

(** A new visit uses up fuel. *)
Lemma visit_fuel (visiting : list TaskItemId) taskId :
  is_Some (m_get taskId items) -> taskId ∉ visiting ->
  remaining (m_keys items) (s_add taskId visiting) < remaining (m_keys items) visiting.
Proof.
  intros Hs Hn. apply (remaining_lt _ _ _ taskId); try done.
  - intros x. rewrite elem_of_s_add. auto.
  - by rewrite elem_of_m_keys.
  - rewrite elem_of_s_add. auto.
Qed.

(** No answer found among the dependencies. *)
Lemma no_dead_ancestor taskId task :
  m_get taskId items = Some task ->
  (forall d t, d ∈ t_dependencies task -> m_get d items = Some t ->
     isDead (t_status t) = false /\ ~ dead_ancestor items d) ->
  ~ dead_ancestor items taskId.
Proof.
  intros Hget Hseen. rewrite dead_ancestor_step. intros (d & t & (t' & Ht' & Hd) & Ht & Hdead). simplify_eq.
  destruct (Hseen d t Hd Ht). naive_solver congruence.
Qed.

Lemma hasDeadAncestor_spec fuel st taskId :
  remaining (m_keys items) st.2 < fuel -> cache_ok st.1 -> visit_ok st.1 st.2 taskId ->
  exists r st', hasDeadAncestor fuel items st taskId = Some (r, st') /\
    (r = true <-> dead_ancestor items taskId) /\ hda_frame st st' /\
    is_Some (m_get taskId st'.1).
Proof.
  revert st taskId. induction fuel as [|fuel IH]; intros st taskId Hf Hok Hvis; [lia|]. simpl.
  destruct (m_get taskId st.1) as [cached|] eqn:Hcache.
  { exists cached, st. split; [done|]. split; [by apply Hok|]. split; [|by eauto].
    by apply hda_frame_refl. }
  case_decide as Hin; [exfalso; by apply (Hac taskId), Hvis|].
  set (st1 := (st.1, s_add taskId st.2)).
  assert (Hsub1 : st.2 ⊆ s_add taskId st.2) by (intros x; rewrite elem_of_s_add; auto).
  assert (H1 : hda_frame st1 st1) by (by apply hda_frame_refl).
  destruct (m_get taskId items) as [task|] eqn:Hget.
  2:{ assert (Hno : ~ dead_ancestor items taskId).
      { intros Hd. apply dead_ancestor_source in Hd as [? ?]. congruence. }
      eexists _, _. split; [done|]. split; [naive_solver|]. split.
      - apply (hda_frame_answer st st1); [done|naive_solver].
      - simpl. rewrite m_get_set_eq. eauto. }
  assert (Hrem : remaining (m_keys items) (s_add taskId st.2) < fuel).
  { pose proof (visit_fuel st.2 taskId ltac:(eauto) Hin). lia. }
  match goal with |- context [for_return ?f _ _] => set (body := f) end.
  set (Inv := fun (seen : list TaskItemId) s => hda_frame st1 s /\
    forall d t, d ∈ seen -> m_get d items = Some t ->
      isDead (t_status t) = false /\ ~ dead_ancestor items d).
  set (Q := fun (r : bool) s => r = true /\ dead_ancestor items taskId /\
    hda_frame st s /\ is_Some (m_get taskId s.1)).
  assert (HQ : forall s, hda_frame st1 s -> dead_ancestor items taskId ->
    Q true (m_set taskId true s.1, s.2)).
  { intros s Hs Hd. split; [done|]. split; [done|]. split; [by apply hda_frame_answer|].
    simpl. rewrite m_get_set_eq. eauto. }
  destruct (for_return_ind Inv Q body (t_dependencies task) st1) as (r & s & -> & Hr).
  - split; [done|]. set_solver.
  - intros seen dep rest s Hdeps ((Hok' & Hs1 & Hs2 & Hs3) & Hseen). unfold body.
    assert (Hedge : dep_edge items taskId dep) by (exists task; split; [done|]; rewrite Hdeps; set_solver).
    destruct (m_get dep items) as [depTask|] eqn:Hdep.
    2:{ exists None, s. split; [done|]. split; [done|]. intros d t. rewrite elem_of_app, list_elem_of_singleton.
        intros [Hd| ->]; [by apply Hseen|congruence]. }
    destruct (isDead (t_status depTask)) eqn:Hdead.
    { eexists _, _. split; [done|]. apply HQ; [done|]. apply dead_ancestor_step.
      exists dep, depTask. auto. }
    destruct (IH s dep) as (r & s' & -> & Hrd & (Hok2 & Hs1' & Hs2' & Hs3') & Hc2).
    + simpl in *. pose proof (remaining_mono (m_keys items) _ _ Hs1). lia.
    + done.
    + by apply (visit_ok_dep st s taskId).
    + assert (Hfr : hda_frame st1 s').
      { by apply (hda_frame_trans _ s). }
      destruct r; eexists _, _; (split; [done|]).
      * apply HQ; [done|]. apply dead_ancestor_step. exists dep, depTask. naive_solver.
      * split; [done|]. intros d t. rewrite elem_of_app, list_elem_of_singleton.
        intros [Hd| ->]; [by apply Hseen|]. intros. simplify_eq. naive_solver.
  - destruct r as [r|].
    + destruct Hr as (-> & Hd & Hfr & Hc). exists true, s. done.
    + destruct Hr as (Hfr & Hseen).
      assert (Hno : ~ dead_ancestor items taskId).
      { by apply (no_dead_ancestor taskId task). }
      eexists _, _. split; [done|]. split; [naive_solver|]. split.
      * apply hda_frame_answer; [done|naive_solver].
      * simpl. rewrite m_get_set_eq. eauto.
Qed.

Lemma computeUnreachableSet_elem (Hnd : NoDup (m_keys items)) id :
  id ∈ computeUnreachableSet items <->
    exists t, m_get id items = Some t /\ t_status t = pending /\ dead_ancestor items id.
Proof.
  unfold computeUnreachableSet.
  pose (Inv := fun (seen : list (TaskItemId * Task)) (st : list TaskItemId * list (TaskItemId * bool)) =>
    cache_ok st.2 /\ forall id, id ∈ st.1 <->
      exists t, (id, t) ∈ seen /\ t_status t = pending /\ dead_ancestor items id).
  destruct (foldl_ind Inv (unreachable_step items) items ([], [])) as [_ Hinv].
  - split; [done|]. set_solver.
  - intros seen [k t] rest [un cache] Heq [Hok Hun]. unfold unreachable_step. cbn [fst snd].
    case_decide as Hp.
    + destruct (hasDeadAncestor_spec (S (m_size items)) (cache, []) k) as (r & s & -> & Hr & (Hok' & _) & _).
      { simpl. pose proof (remaining_le (m_keys items) []) as Hle.
        unfold m_keys, m_size in *. rewrite length_fmap in Hle. lia. }
      { done. }
      { intros v Hv. set_solver. }
      destruct r; (split; [done|]); intros id'; simpl; rewrite ?elem_of_s_add; rewrite Hun;
        setoid_rewrite elem_of_app; setoid_rewrite list_elem_of_singleton; naive_solver.
    + split; [done|]. intros id'. simpl. rewrite Hun.
      setoid_rewrite elem_of_app. setoid_rewrite list_elem_of_singleton. naive_solver.
  - rewrite Hinv. split; intros (t & Ht & Hrest); exists t; (split; [|done]).
    + by apply elem_m_get.
    + by apply m_get_elem.
Qed.
End HasDeadAncestor.

Lemma computeUnreachableSet_NoDup items : NoDup (computeUnreachableSet items).
Proof.
  unfold computeUnreachableSet.
  apply (foldl_ind (fun _ st => NoDup st.1)); [constructor|]. intros _ [k t] _ [un cache] _ Hnd.
  unfold unreachable_step. case_decide; [|done].
  destruct (hasDeadAncestor _ _ _ _) as [[[] ?]|]; simpl in *; auto using NoDup_s_add.
Qed.

(** ** Reverse adjacency *)

Lemma add_dependents_count items id deps D c :
  covers items D -> foldl (add_dependent id) D deps = (foldl (count_dep items id) (D, c) deps).1.
Proof.
  revert D c. induction deps as [|x deps IH]; intros D c Hcov; simpl; [done|].
  unfold add_dependent at 2, count_dep at 2. simpl. destruct (m_has x items) eqn:Hx.
  - destruct (proj2 (Hcov x) Hx) as [l Hl]. rewrite Hl. apply IH. intros d.
    rewrite m_get_set. case_decide; subst; [split; eauto|apply Hcov].
  - destruct (m_get x D) eqn:Hl; [|by apply IH]. exfalso.
    enough (m_has x items = true) by congruence. apply Hcov. eauto.
Qed.

Lemma buildReverseAdjacency_get items d :
  NoDup (m_keys items) ->
  m_get d (buildReverseAdjacency items) =
    if m_has d items then Some (dependents_list items d) else None.
Proof.
  intros Hnd. destruct (build_degrees_spec items Hnd) as (D & I & Hb & _ & HD & _).
  rewrite <-HD. enough (buildReverseAdjacency items = (build_degrees items).1) as ->.
  { by rewrite Hb. }
  unfold buildReverseAdjacency, build_degrees.
  assert (Hcov0 : covers items (empty_dependents items)).
  { intros x. unfold empty_dependents. rewrite empty_dependents_get. simpl.
    destruct (m_has x items); [split; eauto|]. split; [by intros [? ?]|done]. }
  generalize (@nil (TaskItemId * Z)) as I0. revert Hcov0.
  generalize (empty_dependents items) as D0. clear.
  generalize items at 2 4 as es.
  induction es as [|[id t] es IH]; intros D0 Hcov I0; simpl; [done|].
  unfold count_item at 2. simpl. rewrite (add_dependents_count items id _ _ 0%Z Hcov).
  destruct (count_deps_spec items id (t_dependencies t) D0 0 Hcov) as (D1 & -> & Hc1 & _).
  by apply IH.
Qed.

Lemma elem_of_reverse items d id :
  NoDup (m_keys items) ->
  id ∈ default [] (m_get d (buildReverseAdjacency items)) <-> m_has d items = true /\ dep_edge items id d.
Proof.
  intros Hnd. rewrite buildReverseAdjacency_get by done.
  destruct (m_has d items); simpl; [rewrite elem_of_dependents by done; naive_solver|].
  split; [set_solver|naive_solver].
Qed.

(** ** The forward search *)

Section Traverse.
Context (old items : list (TaskItemId * Task)) (existing : list TaskItemId).
Context (Hnd : NoDup (m_keys old)) (Hkeys : m_keys items = m_keys old).

(** Which visited tasks are reported. *)
Definition reported (id : TaskItemId) : Prop :=
  (exists t, m_get id items = Some t /\ t_status t = pending) /\ id ∉ existing.

Definition trav_post (st : list TaskItemId * list TaskItemId) (current : TaskItemId)
    (roots : list TaskItemId) (st' : list TaskItemId * list TaskItemId) : Prop :=
  st.1 ⊆ st'.1 /\ roots ⊆ st'.1 /\
  (forall v, v ∈ st'.1 -> v ∉ st.1 -> tc (dep_edge old) v current /\ 
     forall w, dep_edge old w v -> w ∈ st'.1) /\
  (forall id, id ∈ st'.2 <-> id ∈ st.2 \/ (id ∈ st'.1 /\ id ∉ st.1 /\ reported id)) /\
  (NoDup st.2 -> (forall id, id ∈ st.2 -> id ∈ st.1) ->
     NoDup st'.2 /\ forall id, id ∈ st'.2 -> id ∈ st'.1).

Lemma traverse_spec fuel st current :
  remaining (m_keys items) st.1 < fuel -> m_has current old = true ->
  exists st', traverse fuel items existing (buildReverseAdjacency old) st current = Some st' /\
    trav_post st current (default [] (m_get current (buildReverseAdjacency old))) st'.
Proof.
  revert st current. induction fuel as [|fuel IH]; intros st current Hf Hcur; [lia|].
  simpl. apply (foldl_option_ind (trav_post st current)).
  { split; [done|]. split; [set_solver|]. split; [intros v Hv Hn; done|].
    split; [intros x; set_solver|done]. }
  intros seen id rest [vis newly] Hroots (Hsub & Hseen & Hnew & Hrep & Hndp). simpl in *.
  assert (Hedge : dep_edge old id current).
  { apply (elem_of_reverse old current id Hnd). rewrite Hroots. set_solver. }
  case_decide as Hin.
  { eexists. split; [done|]. split; [done|]. split; [set_solver|done]. }
  set (newly' := match m_get id items with Some _ => _ | None => _ end).
  assert (Hnewly : forall x, x ∈ newly' <-> x ∈ newly \/ (x = id /\ reported id)).
  { intros x. subst newly'. unfold reported. destruct (m_get id items) as [t|] eqn:Hid.
    - destruct (bool_decide (t_status t = pending)) eqn:Hp; simpl.
      + apply bool_decide_eq_true in Hp. destruct (s_has id existing) eqn:Hex; simpl.
        * apply s_has_true in Hex. naive_solver.
        * apply s_has_false in Hex. rewrite elem_of_app, list_elem_of_singleton. naive_solver.
      + apply bool_decide_eq_false in Hp. naive_solver.
    - naive_solver. }
  assert (Hold : m_has id old = true) by (apply m_has_spec; by eapply dep_edge_source).
  destruct (IH (s_add id vis, newly') id) as ([vis' newly2] & -> & Hsub2 & Hroots2 & Hnew2 & Hrep2 & Hndp2).
  { simpl. enough (remaining (m_keys items) (s_add id vis) < remaining (m_keys items) vis).
    { pose proof (remaining_mono (m_keys items) _ _ Hsub). lia. }
    apply (remaining_lt _ _ _ id); [intros x; rewrite elem_of_s_add; auto| |done|rewrite elem_of_s_add; auto].
    rewrite Hkeys, elem_of_m_keys. by apply m_has_spec. }
  { done. }
  simpl in *. eexists. split; [done|].
  assert (Hvis : vis ⊆ vis') by (intros x Hx; apply Hsub2, elem_of_s_add; by right).
  assert (Hidin : id ∈ vis') by (apply Hsub2, elem_of_s_add; by left).
  split; [set_solver|]. split; [set_solver|]. split; [|split].
  - intros v Hv Hnv. simpl. destruct (decide (v = id)) as [->|Hne].
    { split; [by apply tc_once|]. intros w Hw. apply Hroots2.
      by apply (elem_of_reverse old id w Hnd). }
    destruct (decide (v ∈ vis)) as [Hvv|Hvv].
    { destruct (Hnew v Hvv Hnv). split; [done|]. set_solver. }
    destruct (Hnew2 v Hv) as [Htc Hcl]; [rewrite elem_of_s_add; naive_solver|].
    split; [by eapply tc_r|done].
  - intros x. simpl. rewrite Hrep2, Hnewly, Hrep. rewrite elem_of_s_add.
    pose proof (Hsub x). pose proof (Hvis x).
    destruct (decide (x ∈ vis)); destruct (decide (x = id)) as [->|]; tauto.
  - intros Hn Hs. destruct (Hndp Hn Hs) as [Hn' Hs']. apply Hndp2.
    + subst newly'. destruct (m_get id items); [|done].
      destruct (bool_decide _ && _); [|done]. apply NoDup_app. split; [done|].
      split; [set_solver|apply NoDup_singleton].
    + intros x. rewrite Hnewly, elem_of_s_add. naive_solver.
Qed.

(** The search finds exactly the pending tasks that depend on the dead one,
    directly or not, and are not known to be unreachable. *)
Lemma findNewlyUnreachable_elem taskId id :
  m_has taskId old = true ->
  id ∈ findNewlyUnreachable taskId items existing (buildReverseAdjacency old) <->
    tc (dep_edge old) id taskId /\ reported id.
Proof.
  intros Hh. unfold findNewlyUnreachable.
  destruct (traverse_spec (S (m_size items)) ([], []) taskId) as ([vis newly] & -> & Hp); [|done|].
  { simpl. pose proof (remaining_le (m_keys items) []) as Hle.
    unfold m_keys, m_size in *. rewrite length_fmap in Hle. lia. }
  destruct Hp as (_ & Hroots & Hnew & Hrep & _). simpl in *. rewrite Hrep.
  enough (id ∈ vis <-> tc (dep_edge old) id taskId) by set_solver.
  split; [intros Hv; apply Hnew; set_solver|]. intros Htc.
  assert (Hr : forall w, dep_edge old w taskId -> w ∈ vis).
  { intros w Hw. apply Hroots. by apply elem_of_reverse. }
  induction Htc as [a b He|a c b He Htc IH]; [auto|].
  apply (Hnew c); [by apply IH|set_solver|done].
Qed.

Lemma findNewlyUnreachable_NoDup taskId :
  m_has taskId old = true ->
  NoDup (findNewlyUnreachable taskId items existing (buildReverseAdjacency old)).
Proof.
  intros Hh. unfold findNewlyUnreachable.
  destruct (traverse_spec (S (m_size items)) ([], []) taskId) as ([vis newly] & -> & Hp); [|done|].
  { simpl. pose proof (remaining_le (m_keys items) []) as Hle.
    unfold m_keys, m_size in *. rewrite length_fmap in Hle. lia. }
  destruct Hp as (_ & _ & _ & _ & Hn). apply Hn; [constructor|set_solver].
Qed.
End Traverse.
