(* ===== verification/TaskBoardInv.v ===== *)
(** * Invariant of the task board

    The well-formedness of a board in three layers (the graph, the statuses
    along it, the set of unreachable tasks), each preserved by every mutation,
    and the boards that are reachable from an empty one. *)

From S2P Require Import Prelude JsMap TaskTypes Dag TaskBoard TaskBoardGraph.

(** ** The layers *)

Record graph_wf (items : list (TaskItemId * Task)) : Prop := {
  gw_nodup : NoDup (m_keys items);
  gw_id : forall id t, m_get id items = Some t -> t_id t = id;
  gw_closed : forall a b, dep_edge items a b -> is_Some (m_get b items);
  gw_acyclic : acyclic items
}.

(** Work that was started, and has not been killed, had all it depends on. *)
Definition is_started (s : TaskStatus) : bool :=
  bool_decide (s = in_progress) || bool_decide (s = completed) || bool_decide (s = failed).

Definition deps_completed (items : list (TaskItemId * Task)) (t : Task) : Prop :=
  forall d, d ∈ t_dependencies t -> exists td, m_get d items = Some td /\ t_status td = completed.

Definition started_ok (items : list (TaskItemId * Task)) : Prop :=
  forall id t, m_get id items = Some t -> is_started (t_status t) = true -> deps_completed items t.

(** The eagerly maintained set holds the pending tasks with a dead ancestor,
    and possibly some that were killed since. *)
Record un_ok (items : list (TaskItemId * Task)) (un : list TaskItemId) : Prop := {
  uo_nodup : NoDup un;
  uo_sound : forall x, x ∈ un -> exists t, m_get x items = Some t /\
    ((t_status t = pending /\ dead_ancestor items x) \/ t_status t = killed);
  uo_complete : forall x t, m_get x items = Some t -> t_status t = pending ->
    dead_ancestor items x -> x ∈ un
}.

Record core_wf (items : list (TaskItemId * Task)) (un : list TaskItemId) : Prop := {
  cw_graph : graph_wf items;
  cw_started : started_ok items;
  cw_un : un_ok items un
}.

Lemma isDead_spec s : isDead s = true <-> s = failed \/ s = killed.
Proof. destruct s; vm_compute; naive_solver. Qed.

Lemma isReady_spec t items :
  isReady t items = true <-> t_status t = pending /\ deps_completed items t.
Proof.
  unfold isReady. rewrite andb_true_iff, bool_decide_eq_true, forallb_forall.
  unfold deps_completed. setoid_rewrite <-list_elem_of_In.
  split; intros [Hp Hd]; (split; [done|]); intros d Hin; specialize (Hd d Hin).
  - destruct (m_get d items) as [td|]; [|done]. apply bool_decide_eq_true in Hd. eauto.
  - destruct Hd as (td & -> & Hc). by apply bool_decide_eq_true.
Qed.

Lemma not_ready_dep t items :
  t_status t = pending -> isReady t items = false ->
  exists d, d ∈ t_dependencies t /\ forall td, m_get d items = Some td -> t_status td ≠ completed.
Proof.
  unfold isReady. intros Hp. rewrite bool_decide_eq_true_2 by done. simpl.
  induction (t_dependencies t) as [|d ds IH]; simpl; [done|].
  destruct (m_get d items) as [td|] eqn:E.
  - case_bool_decide as Hc; simpl.
    + intros H. destruct (IH H) as (d' & Hd' & ?). exists d'. split; [by right|done].
    + intros _. exists d. split; [by left|]. intros td' Htd'. congruence.
  - intros _. exists d. split; [by left|]. congruence.
Qed.

(** Behind completed dependencies there is nothing dead. *)
Lemma completed_deps_alive items id t :
  started_ok items -> m_get id items = Some t -> deps_completed items t -> ~ dead_ancestor items id.
Proof.
  intros Hst Hid Hdc (d & td & Htc & Hd & Hdead). revert t Hid Hdc.
  induction Htc as [a b (t' & Ht' & Hb)|a c b (t' & Ht' & Hc) Htc IH]; intros t Hid Hdc; simplify_eq.
  - destruct (Hdc b Hb) as (tb & Htb & Hs). simplify_eq. rewrite Hs in Hdead. done.
  - destruct (Hdc c Hc) as (tc' & Htc' & Hs). apply (IH Hd tc' Htc').
    apply (Hst c); [done|]. by rewrite Hs.
Qed.

(** ** Replacing one task *)

Section Replace.
Context (items : list (TaskItemId * Task)) (id : TaskItemId) (t t' : Task).
Context (Hget : m_get id items = Some t) (Hdeps : t_dependencies t' = t_dependencies t).
Context (Hid' : t_id t' = t_id t).

Lemma replace_edge a b : dep_edge (m_set id t' items) a b <-> dep_edge items a b.
Proof.
  unfold dep_edge. setoid_rewrite m_get_set. case_decide; subst; [|done].
  split; intros (x & Hx & Hb); simplify_eq; eexists; (split; [done|]); congruence.
Qed.

Lemma replace_tc a b : tc (dep_edge (m_set id t' items)) a b <-> tc (dep_edge items) a b.
Proof.
  split; intros Htc; (induction Htc as [a b He|a c b He Htc IH];
    [apply tc_once|eapply tc_l; [|exact IH]]; by apply replace_edge).
Qed.

Lemma replace_keys : m_keys (m_set id t' items) = m_keys items.
Proof. apply m_keys_set_present. by eexists. Qed.

Lemma replace_get_ne x : x ≠ id -> m_get x (m_set id t' items) = m_get x items.
Proof. intros. by apply m_get_set_ne. Qed.

Lemma replace_graph : graph_wf items -> graph_wf (m_set id t' items).
Proof.
  intros [Hn Hi Hc Ha]. constructor.
  - by rewrite replace_keys.
  - intros x tx. rewrite m_get_set. case_decide; subst; intros; simplify_eq; [|auto].
    rewrite Hid'. auto.
  - intros a b. rewrite replace_edge. intros He. apply Hc in He.
    rewrite m_get_set. case_decide; eauto.
  - intros a. rewrite replace_tc. apply Ha.
Qed.

Lemma replace_started :
  acyclic items -> started_ok items -> t_status t ≠ completed ->
  (is_started (t_status t') = true -> deps_completed items t) ->
  started_ok (m_set id t' items).
Proof.
  intros Hac Hst Hnc Hnew x tx. rewrite m_get_set. case_decide as Hx; subst; intros Htx Hs d Hd.
  - simplify_eq. rewrite Hdeps in Hd. destruct (Hnew Hs d Hd) as (td & Htd & Hc).
    exists td. split; [|done]. rewrite m_get_set_ne; [done|]. intros <-.
    apply (Hac x), tc_once. by exists t.
  - destruct (Hst x tx Htx Hs d Hd) as (td & Htd & Hc). exists td.
    split; [|done]. rewrite m_get_set_ne; [done|]. intros <-. congruence.
Qed.

(** A replacement that keeps the task alive changes no ancestry. *)
Lemma replace_dead_alive x :
  isDead (t_status t) = false -> isDead (t_status t') = false ->
  dead_ancestor (m_set id t' items) x <-> dead_ancestor items x.
Proof.
  intros H1 H2. unfold dead_ancestor. setoid_rewrite replace_tc. setoid_rewrite m_get_set.
  split; intros (d & td & Htc & Hd & Hdead); exists d.
  - case_decide; simplify_eq; [congruence|]. by exists td.
  - case_decide; simplify_eq; [congruence|]. by exists td.
Qed.

(** A task that dies adds its dependents to the tasks with a dead ancestor. *)
Lemma replace_dead_dies x :
  isDead (t_status t) = false -> isDead (t_status t') = true ->
  dead_ancestor (m_set id t' items) x <-> dead_ancestor items x \/ tc (dep_edge items) x id.
Proof.
  intros H1 H2. unfold dead_ancestor. setoid_rewrite replace_tc. setoid_rewrite m_get_set. split.
  - intros (d & td & Htc & Hd & Hdead). case_decide; simplify_eq; [by right|]. left. by exists d, td.
  - intros [(d & td & Htc & Hd & Hdead)|Htc].
    + exists d, td. split; [done|]. rewrite decide_False; [done|]. intros <-. congruence.
    + exists id, t'. by rewrite decide_True.
Qed.

Lemma replace_un un :
  isDead (t_status t) = false -> isDead (t_status t') = false ->
  (t_status t' = t_status t \/ ~ dead_ancestor items id) ->
  un_ok items un -> un_ok (m_set id t' items) un.
Proof.
  intros H1 H2 Hor [Hn Hs Hc]. constructor; [done| |].
  - intros x Hx. destruct (Hs x Hx) as (tx & Htx & Hcase). rewrite m_get_set.
    setoid_rewrite (replace_dead_alive x H1 H2). case_decide; subst; [|by exists tx].
    exists t'. split; [done|]. simplify_eq. destruct Hcase as [[Hp Hd]|Hk].
    + left. destruct Hor as [->|?]; done.
    + by rewrite Hk in H1.
  - intros x tx. rewrite m_get_set, replace_dead_alive by done.
    case_decide; subst; [|apply Hc]. intros ? Hp Hd. simplify_eq.
    destruct Hor as [Heq|?]; [|done]. apply (Hc x t); [done|congruence|done].
Qed.

Lemma replace_un_dies un un' :
  isDead (t_status t) = false -> isDead (t_status t') = true ->
  (t_status t' = killed \/ id ∉ un) ->
  NoDup un' ->
  (forall x, x ∈ un' <-> x ∈ un \/ (tc (dep_edge items) x id /\
     (exists tx, m_get x (m_set id t' items) = Some tx /\ t_status tx = pending) /\ x ∉ un)) ->
  un_ok items un -> un_ok (m_set id t' items) un'.
Proof.
  intros H1 H2 Hor Hn' Hun' [Hn Hs Hc]. constructor; [done| |].
  - intros x. rewrite Hun'. setoid_rewrite (replace_dead_dies x H1 H2). intros [Hx|(Htc & (tx & Htx & Hp) & _)].
    + destruct (Hs x Hx) as (tx & Htx & Hcase). rewrite m_get_set.
      case_decide; subst; [|exists tx; naive_solver].
      exists t'. split; [done|]. right. by destruct Hor.
    + exists tx. split; [done|]. left. naive_solver.
  - intros x tx Htx Hp. rewrite Hun', replace_dead_dies by done.
    assert (x ≠ id) as Hne.
    { intros ->. rewrite m_get_set_eq in Htx. simplify_eq. by rewrite Hp in H2. }
    intros [Hd|Htc].
    + left. rewrite m_get_set_ne in Htx by done. by apply (Hc x tx).
    + destruct (decide (x ∈ un)); [by left|]. right. split; [done|]. split; [by exists tx|done].
Qed.
End Replace.

(** ** Adding tasks *)

Section Extend.
Context (items new : list (TaskItemId * Task)).
Context (Hclosed : forall a b, dep_edge items a b -> is_Some (m_get b items)).

Lemma extend_get x t : m_get x items = Some t -> m_get x (items ++ new) = Some t.
Proof. intros H. by rewrite m_get_app, H. Qed.

Lemma extend_edge a b : is_Some (m_get a items) -> dep_edge (items ++ new) a b <-> dep_edge items a b.
Proof. intros [ta Hta]. unfold dep_edge. by rewrite (extend_get a ta Hta), Hta. Qed.

Lemma extend_tc a b :
  is_Some (m_get a items) -> tc (dep_edge (items ++ new)) a b <-> tc (dep_edge items) a b.
Proof.
  intros Ha. split; intros Htc; revert Ha.
  - induction Htc as [a b He|a c b He Htc IH]; intros Ha; apply extend_edge in He; eauto using tc.
  - induction Htc as [a b He|a c b He Htc IH]; intros Ha; [by apply tc_once, extend_edge|].
    eapply tc_l; [by apply extend_edge|]. eauto.
Qed.

Lemma extend_dead x :
  is_Some (m_get x items) -> dead_ancestor (items ++ new) x <-> dead_ancestor items x.
Proof.
  intros Hx. unfold dead_ancestor. setoid_rewrite extend_tc; [|done].
  split; intros (d & td & Htc & Hd & Hdead); exists d, td; (split; [done|]); (split; [|done]).
  - assert (is_Some (m_get d items)) as [td' Hd'].
    { clear -Htc Hclosed. induction Htc; eauto. }
    by rewrite m_get_app, Hd' in Hd; simplify_eq.
  - by apply extend_get.
Qed.

Lemma extend_started :
  started_ok items -> (forall x t, m_get x new = Some t -> is_started (t_status t) = false) ->
  started_ok (items ++ new).
Proof.
  intros Hst Hnew x t. rewrite m_get_app. destruct (m_get x items) as [tx|] eqn:Hx.
  - intros ? Hs d Hd. simplify_eq. destruct (Hst x t Hx Hs d Hd) as (td & Htd & Hc).
    exists td. split; [by apply extend_get|done].
  - intros Hn Hs. rewrite (Hnew x t Hn) in Hs. done.
Qed.
End Extend.

(** ** What a successful mutation did *)

Lemma transitionTask_ok items id to patch ts t' items' :
  transitionTask items id to patch ts = Ok (t', items') <->
    exists t, m_get id items = Some t /\ isValidTransition (t_status t) to = true /\
      t' = transitioned t to patch ts /\ items' = m_set id t' items.
Proof.
  unfold transitionTask. destruct (m_get id items) as [t|].
  - destruct (isValidTransition (t_status t) to) eqn:E; split; simpl.
    + intros [= <- <-]. by exists t.
    + intros (? & [= <-] & _ & -> & ->). done.
    + done.
    + intros (? & [= <-] & ? & _). congruence.
  - split; [done|]. by intros (? & ? & _).
Qed.

Lemma assign_ok b id agent now b' evs :
  TB.assign b id agent now = Ok (b', evs) ->
  exists t, m_get id (b_items b) = Some t /\ t_status t = pending /\
    deps_completed (b_items b) t /\ TB.owner_check b id agent = None /\
    b' = mkBoard (m_set id (transitioned t in_progress
           (mkTransitionPatch (Some (Some agent)) (Some (Some agent)) None) now) (b_items b))
         (b_results b) (b_unreachable b) (b_config b) /\
    evs = [task_assigned id agent].
Proof.
  unfold TB.assign. destruct (m_get id (b_items b)) as [t|] eqn:Ht; [|done].
  case_bool_decide as Hp; [|done]. simpl. destruct (isReady t (b_items b)) eqn:Hr; [|done]. simpl.
  destruct (TB.owner_check b id agent) eqn:Ho; [done|].
  destruct (transitionTask _ _ _ _ _) as [[t' items']|] eqn:Htr; [|done].
  apply transitionTask_ok in Htr as (t0 & Ht0 & _ & -> & ->). intros [= <- <-]. simplify_eq.
  apply isReady_spec in Hr as [_ Hd]. by exists t.
Qed.

Definition unassigned (task : Task) (now : Z) : Task :=
  mkTask (t_id task) (t_subject task) (t_description task)
    (t_dependencies task) pending (t_createdBy task) None (t_lastAssignedTo task)
    (t_activeForm task) (t_retries task) (t_version task + 1) (t_error task)
    (stripDelegatedTo (t_metadata task)) (t_createdAt task) now (t_startedAt task).

Lemma unassign_ok b id now b' evs :
  TB.unassign b id now = Ok (b', evs) ->
  exists t, m_get id (b_items b) = Some t /\ t_status t = in_progress /\
    b' = mkBoard (m_set id (unassigned t now) (b_items b)) (b_results b) (b_unreachable b) (b_config b) /\
    evs = [task_unassigned id].
Proof.
  unfold TB.unassign. destruct (m_get id (b_items b)) as [t|] eqn:Ht; [|done].
  case_bool_decide as Hp; [|done]. simpl. intros [= <- <-]. by exists t.
Qed.

Lemma complete_ok b id r now b' evs :
  TB.complete b id r now = Ok (b', evs) ->
  exists t, m_get id (b_items b) = Some t /\ t_status t = in_progress /\ r_taskId r = id /\
    b' = mkBoard (m_set id (transitioned t completed no_patch now) (b_items b))
           (m_set id r (b_results b)) (b_unreachable b) (b_config b) /\
    evs = [task_completed id r].
Proof.
  unfold TB.complete. case_bool_decide as Hr; [|done]. simpl.
  destruct (transitionTask _ _ _ _ _) as [[t' items']|] eqn:Htr; [|done].
  apply transitionTask_ok in Htr as (t & Ht & Hv & -> & ->). intros [= <- <-].
  exists t. split; [done|]. split; [|done]. apply isValidTransition_spec in Hv.
  destruct (t_status t); set_solver.
Qed.

Definition retried (task : Task) (error : KoiError) (now : Z) : Task :=
  mkTask (t_id task) (t_subject task) (t_description task)
    (t_dependencies task) pending (t_createdBy task) None
    (default (t_lastAssignedTo task) (TB.backfillLastAssignedTo task))
    (t_activeForm task) (t_retries task + 1) (t_version task + 1) (Some error)
    (stripDelegatedTo (t_metadata task)) (t_createdAt task) now (t_startedAt task).

Definition failed_patch (task : Task) (error : KoiError) : TransitionPatch :=
  mkTransitionPatch (Some None) (TB.backfillLastAssignedTo task) (Some (Some error)).

Lemma fail_ok b id error now b' evs :
  TB.fail b id error now = Ok (b', evs) ->
  exists t, m_get id (b_items b) = Some t /\ t_status t = in_progress /\
    ((err_retryable error = true /\ (t_retries t < maxRetries (b_config b))%Z /\
      b' = mkBoard (m_set id (retried t error now) (b_items b)) (b_results b) (b_unreachable b) (b_config b) /\
      evs = [task_retried id (t_retries t + 1)]) \/
     ((err_retryable error = false \/ (maxRetries (b_config b) <= t_retries t)%Z) /\
      (b', evs) = TB.finish_dead b id
        (m_set id (transitioned t failed (failed_patch t error) now) (b_items b)) (task_failed id error))).
Proof.
  unfold TB.fail. destruct (m_get id (b_items b)) as [t|] eqn:Ht; [|done].
  case_bool_decide as Hp; [|done]. simpl. intros Hres. exists t. split; [done|]. split; [done|].
  destruct (err_retryable error && (t_retries t <? maxRetries (b_config b))%Z) eqn:Hr.
  - apply andb_true_iff in Hr as [Hr Hlt]. left. injection Hres as <- <-.
    repeat split; [done|by apply Z.ltb_lt].
  - right. destruct (transitionTask _ _ _ _ _) as [[t' items']|] eqn:Htr; [|done].
    apply transitionTask_ok in Htr as (t0 & Ht0 & _ & -> & ->). rewrite Ht in Ht0.
    injection Ht0 as <-. injection Hres as <- <-. split.
    + apply andb_false_iff in Hr as [?|?%Z.ltb_ge]; auto.
    + done.
Qed.

Lemma kill_ok b id now b' evs :
  TB.kill b id now = Ok (b', evs) ->
  exists t, m_get id (b_items b) = Some t /\ (t_status t = pending \/ t_status t = in_progress) /\
    (b', evs) = TB.finish_dead b id
      (m_set id (transitioned t killed (mkTransitionPatch None (TB.backfillLastAssignedTo t) None) now)
         (b_items b)) (task_killed id (t_status t)).
Proof.
  unfold TB.kill. destruct (transitionTask _ _ _ _ _) as [[t' items']|] eqn:Htr; [|done].
  apply transitionTask_ok in Htr as (t & Ht & Hv & -> & ->). rewrite Ht. simpl. intros [= <- <-].
  exists t. split; [done|]. split; [by eapply isValidTransition_source|done].
Qed.

Definition updated (task : Task) (patch : TaskPatch) (now : Z) : Task :=
  mkTask (t_id task) (default (t_subject task) (p_subject patch))
    (default (t_description task) (p_description patch)) (t_dependencies task)
    (t_status task) (t_createdBy task) (t_assignedTo task) (t_lastAssignedTo task)
    (default (t_activeForm task) (p_activeForm patch)) (t_retries task)
    (t_version task + 1) (t_error task)
    (match p_metadata patch with Some m => Some m | None => t_metadata task end)
    (t_createdAt task) now (t_startedAt task).

Lemma update_ok b id patch now b' evs :
  TB.update b id patch now = Ok (b', evs) ->
  exists t, m_get id (b_items b) = Some t /\ isTerminalTaskStatus (t_status t) = false /\
    b' = mkBoard (m_set id (updated t patch now) (b_items b)) (b_results b) (b_unreachable b) (b_config b) /\
    evs = [task_updated id patch].
Proof.
  unfold TB.update. destruct (m_get id (b_items b)) as [t|] eqn:Ht; [|done].
  destruct (isTerminalTaskStatus (t_status t)) eqn:Hp; [done|]. intros [= <- <-]. by exists t.
Qed.

(** New tasks, as entries of the map. *)
Definition entry_of (t : Task) : TaskItemId * Task := (t_id t, t).

Lemma find_first_None {A : Type} (p : A -> bool) (l : list A) :
  TB.find_first p l = None <-> forall x, x ∈ l -> p x = false.
Proof.
  unfold TB.find_first. split.
  - intros Hn x Hx. destruct (p x) eqn:Hp; [|done]. exfalso.
    assert (x ∈ filter p l) as Hin by (apply list_elem_of_filter; by rewrite Hp).
    destruct (filter p l); [set_solver|done].
  - intros Hall. destruct (filter p l) as [|x l'] eqn:E; [done|]. exfalso.
    assert (x ∈ filter p l) as Hin by (rewrite E; set_solver).
    apply list_elem_of_filter in Hin as [Hp Hx]. rewrite (Hall x Hx) in Hp. done.
Qed.

Lemma find_first_Some {A : Type} (p : A -> bool) (l : list A) (x : A) :
  TB.find_first p l = Some x -> x ∈ l /\ p x = true.
Proof.
  unfold TB.find_first. intros Hh. destruct (filter p l) as [|y l'] eqn:E; [done|].
  simplify_eq/=. assert (x ∈ filter p l) as Hin by (rewrite E; set_solver).
  apply list_elem_of_filter in Hin as [Hp Hx]. split; [done|]. by destruct (p x).
Qed.

Lemma negb_has_false (items : list (TaskItemId * Task)) d :
  negb (m_has d items) = false <-> is_Some (m_get d items).
Proof. by rewrite negb_false_iff, m_has_spec. Qed.

(** Does the new task have a dead or unreachable dependency. *)
Definition cut_off (b : Board) (deps : list TaskItemId) : bool :=
  existsb (TB.is_dead_in (b_items b)) deps || existsb (fun dep => s_has dep (b_unreachable b)) deps.

Lemma add_ok b input now b' evs :
  TB.add b input now = Ok (b', evs) ->
  let t := inputToTask input now in
  m_get (in_id input) (b_items b) = None /\
  (forall d, d ∈ t_dependencies t -> is_Some (m_get d (b_items b))) /\
  b' = mkBoard (b_items b ++ [entry_of t]) (b_results b)
         (if cut_off b (t_dependencies t) then s_add (in_id input) (b_unreachable b) else b_unreachable b)
         (b_config b).
Proof.
  unfold TB.add. destruct (m_has (in_id input) (b_items b)) eqn:Hh; [done|].
  apply m_has_false in Hh. destruct (s_has _ _); [done|].
  destruct (TB.find_first _ _) eqn:Hf; [done|]. destruct (detectCycle _ _ _); [done|].
  intros [= <- _]. simpl. split; [done|]. split.
  - intros d Hd. apply negb_has_false. by apply (proj1 (find_first_None _ _) Hf).
  - by rewrite m_set_absent.
Qed.

Lemma addAll_entries_ok now inputs items entries items' entries' :
  TB.addAll_entries now inputs items entries = Ok (items', entries') ->
  NoDup (m_keys items) ->
  exists new, entries' = entries ++ new /\ items' = items ++ (entry_of <$> new) /\
    NoDup (m_keys items') /\ new = (fun i => inputToTask i now) <$> inputs.
Proof.
  revert items entries. induction inputs as [|i inputs IH]; intros items entries; simpl.
  - intros [= <- <-] Hnd. exists []. by rewrite !app_nil_r.
  - destruct (m_has (in_id i) items) eqn:Hh; [done|]. apply m_has_false in Hh.
    intros Hrec Hnd. apply IH in Hrec as (new & -> & -> & Hn & ->); [|by apply NoDup_m_set].
    exists (inputToTask i now :: ((fun i => inputToTask i now) <$> inputs)).
    rewrite m_set_absent in * by done. rewrite <-!app_assoc in *. done.
Qed.

Lemma addAll_ok b inputs now b' evs :
  NoDup (m_keys (b_items b)) ->
  TB.addAll b inputs now = Ok (b', evs) ->
  exists new, new = (fun i => inputToTask i now) <$> inputs /\
    let items' := b_items b ++ (entry_of <$> new) in
    NoDup (m_keys items') /\ acyclic items' /\
    (forall t d, t ∈ new -> d ∈ t_dependencies t -> is_Some (m_get d items')) /\
    b' = mkBoard items' (b_results b) (computeUnreachableSet items') (b_config b).
Proof.
  intros Hnd. unfold TB.addAll.
  destruct (TB.addAll_entries now inputs (b_items b) []) as [[items' entries]|] eqn:He; [|done].
  apply addAll_entries_ok in He as (new & -> & -> & Hn & Hnew); [|done]. simpl.
  destruct (TB.find_first _ _) eqn:Hf; [done|].
  destruct (isAcyclic _) eqn:Ha; [|done]. simpl. intros [= <- _].
  exists new. split; [done|]. split; [done|]. split; [by apply isAcyclic_spec|]. split; [|done].
  intros t d Ht Hd. apply negb_has_false, (proj1 (find_first_None _ _) Hf).
  apply list_elem_of_bind. by exists t.
Qed.

(** ** The invariant *)

(** The tasks an agent has in progress. *)
Definition owns (agent : AgentId) (t : Task) : Prop :=
  t_status t = in_progress /\ t_assignedTo t = Some agent.

Definition owned (items : list (TaskItemId * Task)) (agent : AgentId) : nat :=
  length (filter (fun e => owns agent e.2) items).

Record task_ok (config : TaskBoardConfig) (t : Task) : Prop := {
  to_version : (0 <= t_version t)%Z;
  to_retries : (0 <= t_retries t <= Z.max 0 (maxRetries config))%Z;
  to_assigned : t_status t = in_progress -> is_Some (t_assignedTo t) /\ is_Some (t_startedAt t);
  to_active : isTerminalTaskStatus (t_status t) = true -> t_activeForm t = None
}.

Record board_wf (b : Board) : Prop := {
  bw_core : core_wf (b_items b) (b_unreachable b);
  bw_tasks : forall id t, m_get id (b_items b) = Some t -> task_ok (b_config b) t;
  bw_results_nodup : NoDup (m_keys (b_results b));
  bw_results : forall id, is_Some (m_get id (b_results b)) <->
    exists t, m_get id (b_items b) = Some t /\ t_status t = completed;
  bw_results_id : forall id r, m_get id (b_results b) = Some r -> r_taskId r = id;
  bw_owned : forall max agent, cfg_maxInProgressPerOwner (b_config b) = Some max ->
    (Z.of_nat (owned (b_items b) agent) <= Z.max 0 max)%Z
}.

Lemma owned_replace items id t t' agent :
  m_get id items = Some t ->
  owned (m_set id t' items) agent + (if decide (owns agent t) then 1 else 0) =
  owned items agent + (if decide (owns agent t') then 1 else 0).
Proof.
  intros Hget. unfold owned. induction items as [|[k x] items IH]; simpl in *; [done|].
  destruct (decide (id = k)); simplify_eq.
  - rewrite !filter_cons. simpl. repeat case_decide; simpl; lia.
  - specialize (IH Hget). rewrite !filter_cons. simpl. destruct (decide (owns agent x)); simpl; lia.
Qed.

Lemma owned_app items new agent : owned (items ++ new) agent = owned items agent + owned new agent.
Proof. unfold owned. by rewrite filter_app, length_app. Qed.

Lemma owned_cons k t items agent :
  owned ((k, t) :: items) agent = (if decide (owns agent t) then 1 else 0) + owned items agent.
Proof. unfold owned. rewrite filter_cons. simpl. by case_decide. Qed.

Lemma owns_bool agent t :
  bool_decide (t_status t = in_progress) && bool_decide (t_assignedTo t = Some agent) =
  bool_decide (owns agent t).
Proof.
  unfold owns. repeat case_bool_decide; simpl; try done; naive_solver.
Qed.

(** The counting loop stops exactly when the owner is at the limit. *)
Lemma owned_limit_None items agent max c :
  (c < max)%Z ->
  TB.owned_limit items agent max c = None <-> (c + Z.of_nat (owned items agent) < max)%Z.
Proof.
  revert c. induction items as [|[k t] items IH]; intros c Hc; simpl.
  { unfold owned. simpl. split; [lia|done]. }
  rewrite owns_bool, owned_cons. case_bool_decide as Ho.
  - rewrite decide_True by done. destruct (Z.geb_spec (c + 1) max); [split; [done|lia]|].
    rewrite IH by done. lia.
  - rewrite decide_False by done. by apply IH.
Qed.

Lemma owner_check_None b id agent :
  TB.owner_check b id agent = None <->
  forall max, cfg_maxInProgressPerOwner (b_config b) = Some max ->
    (Z.of_nat (owned (b_items b) agent) < max)%Z.
Proof.
  unfold TB.owner_check. destruct (cfg_maxInProgressPerOwner (b_config b)) as [max|]; [|naive_solver].
  destruct (Z.leb_spec max 0) as [|Hlt].
  - split; [done|]. intros Hx. specialize (Hx max eq_refl). lia.
  - pose proof (owned_limit_None (b_items b) agent max 0 Hlt) as Hl.
    destruct (TB.owned_limit _ _ _ _) as [n|]; split; intros Hx; try done.
    + specialize (Hx max eq_refl). assert (Some n = None) by (apply Hl; lia). done.
    + intros ? [= <-]. by apply Hl.
Qed.

(** ** Preservation *)

Definition same_shape (t t' : Task) : Prop :=
  t_id t' = t_id t /\ t_dependencies t' = t_dependencies t.

(** The part of the invariant every single-task replacement shares. *)
Lemma replace_wf b id t t' results un :
  board_wf b -> m_get id (b_items b) = Some t -> same_shape t t' ->
  core_wf (m_set id t' (b_items b)) un ->
  t_status t ≠ completed ->
  task_ok (b_config b) t' ->
  (t_status t' = completed /\ (exists r, r_taskId r = id /\ results = m_set id r (b_results b)) \/
   t_status t' ≠ completed /\ results = b_results b) ->
  (forall agent, owns agent t' -> owns agent t \/
     forall max, cfg_maxInProgressPerOwner (b_config b) = Some max ->
       (Z.of_nat (owned (b_items b) agent) < max)%Z) ->
  board_wf (mkBoard (m_set id t' (b_items b)) results un (b_config b)).
Proof.
  intros [Hcore Htask Hrn Hres Hrid Hown] Hget [Hid Hdeps] Hcore' Hnc Hok Hresults Howns.
  constructor; simpl; [done| | | | |].
  - intros x tx. rewrite m_get_set. case_decide; intros; simplify_eq; eauto.
  - destruct Hresults as [(_ & r & _ & ->)|[_ ->]]; [by apply NoDup_m_set|done].
  - intros x. rewrite m_get_set. destruct Hresults as [(Hc & r & _ & ->)|[Hc ->]].
    + rewrite m_get_set. case_decide; subst; [|apply Hres]. split; [by exists t'|by eexists].
    + case_decide; subst; [|apply Hres]. rewrite Hres. split; [|naive_solver].
      intros (? & ? & ?). congruence.
  - intros x rx. destruct Hresults as [(Hc & r & Hr & ->)|[Hc ->]]; [|apply Hrid].
    rewrite m_get_set. case_decide; intros; simplify_eq; auto.
  - intros max agent Hmax. pose proof (owned_replace (b_items b) id t t' agent Hget) as Heq.
    specialize (Hown max agent Hmax). destruct (decide (owns agent t')) as [Ho|]; [|lia].
    destruct (Howns agent Ho) as [Ho2|Hlim]; [rewrite decide_True in Heq by done; lia|].
    specialize (Hlim max Hmax). lia.
Qed.

Lemma graph_replace b id t t' :
  board_wf b -> m_get id (b_items b) = Some t -> same_shape t t' ->
  t_status t ≠ completed -> isDead (t_status t) = false -> isDead (t_status t') = false ->
  (is_started (t_status t') = true -> deps_completed (b_items b) t) ->
  (t_status t' = t_status t \/ deps_completed (b_items b) t) ->
  core_wf (m_set id t' (b_items b)) (b_unreachable b).
Proof.
  intros Hwf Hget [Hid Hdeps] Hnc Hd Hd' Hs Hor. destruct (bw_core b Hwf) as [Hg Hst Hun].
  constructor.
  - by apply (replace_graph _ id t).
  - apply (replace_started _ id t); auto. by destruct Hg.
  - apply (replace_un _ id t); auto. destruct Hor as [?|Hdc]; [by left|right].
    by apply (completed_deps_alive _ id t).
Qed.

(** A call of one of the eight mutations. *)
Inductive BoardOp : Type :=
  | OpAdd (input : TaskInput)
  | OpAddAll (inputs : list TaskInput)
  | OpAssign (taskId : TaskItemId) (agentId : AgentId)
  | OpUnassign (taskId : TaskItemId)
  | OpComplete (taskId : TaskItemId) (taskResult : TaskResult)
  | OpFail (taskId : TaskItemId) (error : KoiError)
  | OpKill (taskId : TaskItemId)
  | OpUpdate (taskId : TaskItemId) (patch : TaskPatch).

Definition run_op (b : Board) (op : BoardOp) (now : Z) : BoardResult :=
  match op with
  | OpAdd input => TB.add b input now
  | OpAddAll inputs => TB.addAll b inputs now
  | OpAssign id agent => TB.assign b id agent now
  | OpUnassign id => TB.unassign b id now
  | OpComplete id r => TB.complete b id r now
  | OpFail id e => TB.fail b id e now
  | OpKill id => TB.kill b id now
  | OpUpdate id p => TB.update b id p now
  end.

(** The boards a program can hold: an empty board and what successful
    mutations make of it. *)
Inductive reachable (config : option TaskBoardConfig) : Board -> Prop :=
  | reach_empty : reachable config (TB.createTaskBoard config None)
  | reach_step b op now b' evs :
      reachable config b -> run_op b op now = Ok (b', evs) -> reachable config b'.

Lemma task_ok_input config input now : task_ok config (inputToTask input now).
Proof. constructor; simpl; [lia|lia|done|done]. Qed.

(** Appending one pending task whose dependencies are on the board. *)
Section AddOne.
Context (items : list (TaskItemId * Task)) (un : list TaskItemId) (t : Task).
Context (Hcore : core_wf items un) (Hnone : m_get (t_id t) items = None).
Context (Hdeps : forall d, d ∈ t_dependencies t -> is_Some (m_get d items)).
Context (Hpend : t_status t = pending).

Local Definition extended := items ++ [entry_of t].

Local Lemma Hclosed a b : dep_edge items a b -> is_Some (m_get b items).
Proof. apply (gw_closed _ (cw_graph _ _ Hcore)). Qed.

Lemma add_one_get x tx :
  m_get x extended = Some tx <-> m_get x items = Some tx \/ (x = t_id t /\ tx = t).
Proof.
  unfold extended. rewrite m_get_app. destruct (m_get x items) as [ty|] eqn:E; simpl.
  - split; [by left|]. intros [?|[-> _]]; [done|congruence].
  - case_decide; naive_solver.
Qed.

Lemma add_one_target a b : dep_edge extended a b -> is_Some (m_get b items).
Proof.
  intros (ta & Hta & Hin). apply add_one_get in Hta as [Hta|[-> ->]]; [|by apply Hdeps].
  apply (Hclosed a). by exists ta.
Qed.

Lemma add_one_acyclic : acyclic extended.
Proof.
  intros a Htc. assert (exists c, dep_edge extended c a) as [c Hca].
  { clear -Htc. induction Htc; eauto. }
  apply (gw_acyclic _ (cw_graph _ _ Hcore) a).
  apply (extend_tc items [entry_of t] Hclosed); [by eapply add_one_target|done].
Qed.

Lemma add_one_graph : graph_wf extended.
Proof.
  constructor; [| | |apply add_one_acyclic].
  - unfold extended, m_keys. rewrite fmap_app. apply NoDup_app.
    split; [apply (gw_nodup _ (cw_graph _ _ Hcore))|]. split; [|apply NoDup_singleton].
    intros x Hx. apply (elem_of_m_keys items) in Hx as [tx Hx]. simpl.
    rewrite list_elem_of_singleton. intros ->. congruence.
  - intros x tx Hx. apply add_one_get in Hx as [Hx|[-> ->]]; [|done].
    by apply (gw_id _ (cw_graph _ _ Hcore)).
  - intros a b He. apply add_one_target in He as [tb Hb]. exists tb. apply add_one_get. by left.
Qed.

Lemma add_one_dead_old x :
  is_Some (m_get x items) -> dead_ancestor extended x <-> dead_ancestor items x.
Proof. intros Hx. apply (extend_dead items [entry_of t] Hclosed x Hx). Qed.

(** A task on the board is dead, or has a dead ancestor, exactly when its
    status or the tracked set says so. *)
Lemma tracked_dead d td :
  m_get d items = Some td ->
  (isDead (t_status td) = true \/ dead_ancestor items d) <->
  (TB.is_dead_in items d = true \/ d ∈ un).
Proof.
  intros Hd. unfold TB.is_dead_in. rewrite Hd. split; intros [H1|H1]; try by left.
  - destruct (isDead (t_status td)) eqn:E; [by left|right].
    apply (uo_complete _ _ (cw_un _ _ Hcore) d td Hd); [|done].
    destruct (is_started (t_status td)) eqn:Es; [exfalso|by destruct (t_status td)].
    apply (completed_deps_alive items d td (cw_started _ _ Hcore) Hd); [|done].
    by apply (cw_started _ _ Hcore d td Hd).
  - destruct (uo_sound _ _ (cw_un _ _ Hcore) d H1) as (td' & Htd' & [[_ ?]|Hk]); [by right|].
    left. simplify_eq. by rewrite Hk.
Qed.

Lemma add_one_dead_new :
  dead_ancestor extended (t_id t) <->
    exists d, d ∈ t_dependencies t /\ (TB.is_dead_in items d = true \/ d ∈ un).
Proof.
  assert (Hself : m_get (t_id t) extended = Some t) by (apply add_one_get; by right).
  rewrite dead_ancestor_step. split.
  - intros (d & td & (ts & Hts & Hd) & Htd & Hcase). simplify_eq. exists d. split; [done|].
    destruct (Hdeps d Hd) as [td0 Htd0]. assert (td = td0) as ->.
    { apply add_one_get in Htd as [?|[-> _]]; congruence. }
    rewrite add_one_dead_old in Hcase by (by eexists). by apply (tracked_dead d td0).
  - intros (d & Hd & Hcase). destruct (Hdeps d Hd) as [td Htd]. exists d, td.
    split; [by exists t|]. split; [apply add_one_get; by left|].
    rewrite add_one_dead_old by (by eexists). by apply tracked_dead.
Qed.

Lemma add_one_core un' :
  NoDup un' ->
  (forall x, x ∈ un' <-> x ∈ un \/ (x = t_id t /\ dead_ancestor extended (t_id t))) ->
  core_wf extended un'.
Proof.
  intros Hn Hun'. constructor; [apply add_one_graph| |constructor; [done| |]].
  - apply extend_started; [apply (cw_started _ _ Hcore)|]. intros x tx Hx. simpl in Hx.
    case_decide; [|done]. simplify_eq. by rewrite Hpend.
  - intros x. rewrite Hun'. intros [Hx|[-> Hd]].
    + destruct (uo_sound _ _ (cw_un _ _ Hcore) x Hx) as (tx & Htx & Hcase). exists tx.
      split; [apply add_one_get; by left|]. by rewrite add_one_dead_old by (by eexists).
    + exists t. split; [apply add_one_get; by right|]. by left.
  - intros x tx Hx Hp Hd. apply Hun'. apply add_one_get in Hx as [Hx|[-> ->]]; [left|by right].
    apply (uo_complete _ _ (cw_un _ _ Hcore) x tx Hx Hp). apply add_one_dead_old; [by eexists|done].
Qed.
End AddOne.

(** The parts of the invariant that only concern tasks, for any batch of new
    pending tasks. *)
Lemma extend_wf b new un :
  board_wf b -> (forall t, t ∈ new -> exists input now, t = inputToTask input now) ->
  core_wf (b_items b ++ (entry_of <$> new)) un ->
  board_wf (mkBoard (b_items b ++ (entry_of <$> new)) (b_results b) un (b_config b)).
Proof.
  intros Hwf Hnew Hcore.
  assert (Hget : forall x tx, m_get x (entry_of <$> new) = Some tx ->
    exists input now, tx = inputToTask input now).
  { intros x tx Hx. apply m_get_elem, list_elem_of_fmap in Hx as (t & [= -> ->] & Ht). auto. }
  constructor; simpl; [done| |apply Hwf| |apply Hwf|].
  - intros x tx. rewrite m_get_app. destruct (m_get x (b_items b)) eqn:E.
    + intros. simplify_eq. by apply (bw_tasks _ Hwf x).
    + intros Hx. apply Hget in Hx as (? & ? & ->). apply task_ok_input.
  - intros x. rewrite (bw_results _ Hwf x). split; intros (tx & Htx & Hc); exists tx; (split; [|done]).
    + by apply extend_get.
    + rewrite m_get_app in Htx. destruct (m_get x (b_items b)); [done|].
      apply Hget in Htx as (? & ? & ->). done.
  - intros max agent Hmax. rewrite owned_app. pose proof (bw_owned _ Hwf max agent Hmax) as Ho.
    enough (owned (entry_of <$> new) agent = 0) by lia. unfold owned.
    destruct (filter _ _) as [|[x tx] l] eqn:E; [done|]. exfalso.
    assert ((x, tx) ∈ filter (fun e => owns agent e.2) (entry_of <$> new)) as Hin by (rewrite E; set_solver).
    apply list_elem_of_filter in Hin as [[Hs _] Hin]. simpl in Hs.
    apply list_elem_of_fmap in Hin as (t & [= -> ->] & Ht). destruct (Hnew t Ht) as (? & ? & ->). done.
Qed.

Lemma cut_off_spec b deps :
  cut_off b deps = true <->
    exists d, d ∈ deps /\ (TB.is_dead_in (b_items b) d = true \/ d ∈ b_unreachable b).
Proof.
  unfold cut_off. rewrite orb_true_iff, !existsb_exists. setoid_rewrite <-list_elem_of_In.
  setoid_rewrite s_has_true. naive_solver.
Qed.

Lemma add_wf b input now b' evs : TB.add b input now = Ok (b', evs) -> board_wf b -> board_wf b'.
Proof.
  intros Hop Hwf. apply add_ok in Hop as (Hnone & Hdeps & ->).
  set (t := inputToTask input now) in *. pose proof (bw_core _ Hwf) as Hcore.
  apply (extend_wf b [t]); [done|intros x ->%list_elem_of_singleton; by exists input, now|].
  apply (add_one_core (b_items b) (b_unreachable b) t Hcore Hnone Hdeps eq_refl).
  - destruct (cut_off _ _); [apply NoDup_s_add|]; apply (uo_nodup _ _ (cw_un _ _ Hcore)).
  - intros x. rewrite (add_one_dead_new _ _ t Hcore Hnone Hdeps eq_refl), <-cut_off_spec.
    destruct (cut_off b (t_dependencies t)); [rewrite elem_of_s_add|]; naive_solver.
Qed.

Lemma addAll_wf b inputs now b' evs :
  TB.addAll b inputs now = Ok (b', evs) -> board_wf b -> board_wf b'.
Proof.
  intros Hop Hwf. destruct (bw_core _ Hwf) as [[Hn Hi Hc Ha] Hst Hun].
  apply addAll_ok in Hop as (new & Hnew & Hnd & Hac & Hdeps & ->); [|done].
  set (items := b_items b) in *. set (items' := items ++ (entry_of <$> new)) in *.
  assert (Hpend : forall x t, m_get x (entry_of <$> new) = Some t ->
    t ∈ new /\ x = t_id t /\ t_status t = pending).
  { intros x t Hx. apply m_get_elem, list_elem_of_fmap in Hx as (t' & [= -> ->] & Ht).
    split; [done|]. split; [done|]. subst new. by apply list_elem_of_fmap in Ht as (i & -> & _). }
  assert (Hinv : forall x t, m_get x items' = Some t ->
    m_get x items = Some t \/ (t ∈ new /\ x = t_id t /\ t_status t = pending)).
  { intros x t. unfold items'. rewrite m_get_app. destruct (m_get x items); [by left|]. auto. }
  apply extend_wf; [done| |].
  { intros t Ht. subst new. apply list_elem_of_fmap in Ht as (i & -> & _). by exists i, now. }
  fold items items'. constructor; [constructor; [done| | |done]| |constructor].
  - intros x t Hx. destruct (Hinv x t Hx) as [H1|(_ & -> & _)]; auto.
  - intros a b0 (t & Ht & Hin). destruct (Hinv a t Ht) as [H1|(Hin2 & _)]; [|by eapply Hdeps].
    destruct (Hc a b0) as [tb Hb]; [by exists t|]. exists tb. by apply extend_get.
  - apply extend_started; [done|]. intros x t Hx. apply Hpend in Hx as (_ & _ & ->). done.
  - apply computeUnreachableSet_NoDup.
  - intros x Hx. apply (computeUnreachableSet_elem items' Hac Hnd) in Hx as (t & Ht & Hp & Hd).
    exists t. split; [done|]. by left.
  - intros x t Hx Hp Hd. apply (computeUnreachableSet_elem items' Hac Hnd). by exists t.
Qed.

Lemma assign_wf b id agent now b' evs :
  TB.assign b id agent now = Ok (b', evs) -> board_wf b -> board_wf b'.
Proof.
  intros Hop Hwf. apply assign_ok in Hop as (t & Ht & Hp & Hdc & Hoc & -> & _).
  pose proof (bw_tasks _ Hwf id t Ht) as [Hv Hr _ _].
  apply (replace_wf b id t); try done; try (by rewrite Hp).
  - apply (graph_replace b id t); try done; try (by rewrite Hp). by right.
  - constructor; simpl; [lia|done|by eauto|done].
  - by right.
  - intros ag [_ Ha]. simplify_eq/=. right. intros max Hmax.
    by apply (proj1 (owner_check_None b id ag) Hoc).
Qed.

(** Leaving [in_progress] for [pending]: [unassign] and the retry of [fail]. *)
Lemma release_wf b id t t' :
  board_wf b -> m_get id (b_items b) = Some t -> t_status t = in_progress -> same_shape t t' ->
  t_status t' = pending -> task_ok (b_config b) t' ->
  board_wf (mkBoard (m_set id t' (b_items b)) (b_results b) (b_unreachable b) (b_config b)).
Proof.
  intros Hwf Ht Hs Hsh Hp Hok. apply (replace_wf b id t); try done; try (by rewrite Hs).
  - apply (graph_replace b id t); rewrite ?Hs, ?Hp; try done. right.
    apply (cw_started _ _ (bw_core _ Hwf) id t Ht). by rewrite Hs.
  - right. by rewrite Hp.
  - intros ag [Ho _]. congruence.
Qed.

Lemma unassign_wf b id now b' evs :
  TB.unassign b id now = Ok (b', evs) -> board_wf b -> board_wf b'.
Proof.
  intros Hop Hwf. apply unassign_ok in Hop as (t & Ht & Hs & -> & _).
  pose proof (bw_tasks _ Hwf id t Ht) as [Hv Hr _ _].
  apply (release_wf b id t); try done. constructor; simpl; [lia|done|done|done].
Qed.

Lemma complete_wf b id r now b' evs :
  TB.complete b id r now = Ok (b', evs) -> board_wf b -> board_wf b'.
Proof.
  intros Hop Hwf. apply complete_ok in Hop as (t & Ht & Hs & Hr & -> & _).
  pose proof (bw_tasks _ Hwf id t Ht) as [Hv Hrt _ _].
  assert (Hdc : deps_completed (b_items b) t).
  { apply (cw_started _ _ (bw_core _ Hwf) id t Ht). by rewrite Hs. }
  apply (replace_wf b id t); try done; try (by rewrite Hs).
  - apply (graph_replace b id t); rewrite ?Hs; try done. by right.
  - constructor; simpl; [lia|done|done|done].
  - left. split; [done|]. by exists r.
  - by intros ag [Ho _].
Qed.

Lemma finish_dead_wf b id t t' ev :
  board_wf b -> m_get id (b_items b) = Some t -> same_shape t t' ->
  (t_status t = in_progress \/ t_status t = pending) -> isDead (t_status t') = true ->
  (t_status t' = killed \/ t_status t = in_progress) ->
  task_ok (b_config b) t' ->
  board_wf (TB.finish_dead b id (m_set id t' (b_items b)) ev).1.
Proof.
  intros Hwf Ht [Hid Hdeps] Hs Hd Hor Hok. destruct (bw_core _ Hwf) as [Hg Hst Hun].
  assert (Halive : isDead (t_status t) = false) by (by destruct Hs as [-> | ->]).
  assert (Hnc : t_status t ≠ completed) by (destruct Hs; congruence).
  assert (Hns : forall ag, ~ owns ag t').
  { intros ag [Ho _]. by rewrite Ho in Hd. }
  assert (Hkeys : m_keys (m_set id t' (b_items b)) = m_keys (b_items b)) by (by apply (replace_keys _ _ t)).
  assert (Hhas : m_has id (b_items b) = true) by (by eapply m_get_Some_has).
  unfold TB.finish_dead. simpl. apply (replace_wf b id t); try done.
  - constructor.
    + by apply (replace_graph _ id t).
    + apply (replace_started _ id t); try done; [by destruct Hg|]. intros Hsd.
      apply (Hst id t Ht). destruct Hor as [Hk|Hi]; [by rewrite Hk in Hsd|by rewrite Hi].
    + apply (replace_un_dies _ id t t' Ht Hdeps Hid (b_unreachable b)); try done.
      * destruct Hor as [Hk|Hi]; [by left|right]. intros Hin.
        destruct (uo_sound _ _ Hun id Hin) as (tx & Htx & [[Hp _]|Hk]); congruence.
      * apply NoDup_s_addAll. by destruct Hun.
      * intros x. rewrite elem_of_s_addAll.
        rewrite (findNewlyUnreachable_elem (b_items b)) by (try done; apply Hg).
        unfold reported. naive_solver.
  - right. split; [|done]. intros Hc. by rewrite Hc in Hd.
  - intros ag Ho. by destruct (Hns ag).
Qed.

Lemma fail_wf b id error now b' evs :
  TB.fail b id error now = Ok (b', evs) -> board_wf b -> board_wf b'.
Proof.
  intros Hop Hwf. apply fail_ok in Hop as (t & Ht & Hs & [(_ & Hlt & -> & _)|(_ & Heq)]).
  - pose proof (bw_tasks _ Hwf id t Ht) as [Hv Hr _ _].
    apply (release_wf b id t); try done. constructor; simpl; [lia|lia|done|done].
  - pose proof (bw_tasks _ Hwf id t Ht) as [Hv Hr _ _].
    replace b' with (b', evs).1 by done. rewrite Heq. apply (finish_dead_wf b id t); try done; auto.
    constructor; simpl; [lia|done|done|done].
Qed.

Lemma kill_wf b id now b' evs : TB.kill b id now = Ok (b', evs) -> board_wf b -> board_wf b'.
Proof.
  intros Hop Hwf. apply kill_ok in Hop as (t & Ht & Hs & Heq).
  pose proof (bw_tasks _ Hwf id t Ht) as [Hv Hr _ _].
  replace b' with (b', evs).1 by done. rewrite Heq.
  apply (finish_dead_wf b id t); try done; [naive_solver|by left|].
  constructor; simpl; [lia|done|done|done].
Qed.

Lemma update_wf b id patch now b' evs :
  TB.update b id patch now = Ok (b', evs) -> board_wf b -> board_wf b'.
Proof.
  intros Hop Hwf. apply update_ok in Hop as (t & Ht & Hnt & -> & _).
  pose proof (bw_tasks _ Hwf id t Ht) as [Hv Hr Ha Hf].
  assert (Hnc : t_status t ≠ completed) by (intros Hc; by rewrite Hc in Hnt).
  assert (Hnd : isDead (t_status t) = false) by (by destruct (t_status t)).
  apply (replace_wf b id t); try done.
  - apply (graph_replace b id t); try done; [|by left].
    intros Hs. by apply (cw_started _ _ (bw_core _ Hwf) id t Ht).
  - constructor; simpl; [lia|done|done|]. by rewrite Hnt.
  - by right.
  - intros ag Ho. by left.
Qed.

Lemma run_op_wf b op now b' evs : run_op b op now = Ok (b', evs) -> board_wf b -> board_wf b'.
Proof.
  destruct op; simpl; eauto using add_wf, addAll_wf, assign_wf, unassign_wf, complete_wf, fail_wf,
    kill_wf, update_wf.
Qed.

Lemma empty_wf config : board_wf (TB.createTaskBoard config None).
Proof.
  constructor; simpl.
  - constructor; [constructor| |constructor]; simpl; try done; try constructor.
    + intros a b (t & Ht & _). done.
    + intros a Htc. apply tc_edge_source in Htc as [? ?]. done.
    + intros x Hx. by apply not_elem_of_nil in Hx.
  - done.
  - constructor.
  - intros id. split; [by intros [? ?]|]. by intros (? & ? & _).
  - done.
  - intros max agent _. unfold owned. simpl. lia.
Qed.

Lemma run_op_config b op now b' evs : run_op b op now = Ok (b', evs) -> b_config b' = b_config b.
Proof.
  destruct op; simpl; intros H.
  - by apply add_ok in H as (_ & _ & ->).
  - revert H. unfold TB.addAll. repeat case_match; try done. by intros [= <- _].
  - by apply assign_ok in H as (? & _ & _ & _ & _ & -> & _).
  - by apply unassign_ok in H as (? & _ & _ & -> & _).
  - by apply complete_ok in H as (? & _ & _ & _ & -> & _).
  - apply fail_ok in H as (? & _ & _ & [(_ & _ & -> & _)|(_ & Heq)]); [done|].
    by injection Heq as -> _.
  - apply kill_ok in H as (? & _ & _ & Heq). by injection Heq as -> _.
  - by apply update_ok in H as (? & _ & _ & -> & _).
Qed.

Lemma reachable_wf config b : reachable config b -> board_wf b.
Proof. induction 1; eauto using empty_wf, run_op_wf. Qed.

Lemma reachable_config config b :
  reachable config b -> b_config b = default DEFAULT_TASK_BOARD_CONFIG config.
Proof. induction 1 as [|b op now b' evs _ IH Hop]; [done|]. by rewrite (run_op_config _ _ _ _ _ Hop). Qed.

#[export] Hint Resolve reachable_wf bw_core cw_graph cw_started cw_un gw_nodup gw_acyclic : koi.
