(* ===== verification/TaskBoardSpec.v ===== *)
(** * What the task board promises

    The theorems about boards reachable from an empty one: the invariant, the
    meaning of the unreachable and ready queries, progress, the finality of
    terminal tasks, limits on owners and retries, the snapshot round trip, and
    the refinement of an abstract machine over statuses. *)

From S2P Require Import Prelude JsMap TaskTypes Dag TaskBoard TaskBoardGraph TaskBoardInv.

(** ** Queries as sets *)

Lemma filterTasks_elem items p t :
  t ∈ filterTasks items p <-> (exists id, (id, t) ∈ items) /\ p t = true.
Proof.
  unfold filterTasks.
  pose proof (foldl_ind (fun (seen : list (TaskItemId * Task)) (acc : list Task) =>
    forall t, t ∈ acc <-> (exists id, (id, t) ∈ seen) /\ p t = true)
    (fun result entry => if p entry.2 then result ++ [entry.2] else result) items []) as Hind.
  apply Hind; clear.
  - intros t. split; [intros H; by apply not_elem_of_nil in H|].
    by intros [[id H%not_elem_of_nil] _].
  - intros seen [k x] rest acc _ IH t. simpl. setoid_rewrite elem_of_app.
    setoid_rewrite list_elem_of_singleton. destruct (p x) eqn:Hp.
    + rewrite elem_of_app, list_elem_of_singleton, IH. split.
      * intros [[[id Hin] Hpt]| ->]; (split; [|done]); [exists id; by left|exists k; by right].
      * intros [[id [Hin|[= -> ->]]] Hpt]; [left|by right]. split; [by exists id|done].
    + rewrite IH. split; intros [[id Hin] Hpt]; (split; [|done]); exists id; [by left|].
      destruct Hin as [Hin|[= -> ->]]; [done|congruence].
Qed.

Lemma filterTasks_get b p t :
  board_wf b -> t ∈ filterTasks (b_items b) p <-> m_get (t_id t) (b_items b) = Some t /\ p t = true.
Proof.
  intros Hwf. rewrite filterTasks_elem. destruct (bw_core _ Hwf) as [[Hn Hi _ _] _ _].
  split; intros [H Hp]; (split; [|done]).
  - destruct H as [id Hin]. apply elem_m_get in Hin; [|done]. by rewrite (Hi id t Hin).
  - exists (t_id t). by apply m_get_elem.
Qed.

Lemma unreachable_elem b t :
  board_wf b ->
  t ∈ TB.unreachable b <->
    m_get (t_id t) (b_items b) = Some t /\ t_status t = pending /\ t_id t ∈ b_unreachable b.
Proof.
  intros Hwf. unfold TB.unreachable.
  pose proof (gw_id _ (cw_graph _ _ (bw_core _ Hwf))) as Hi.
  pose proof (foldl_ind (fun (seen : list TaskItemId) (acc : list Task) => forall t, t ∈ acc <->
    m_get (t_id t) (b_items b) = Some t /\ t_status t = pending /\ t_id t ∈ seen)
    (fun acc id => match m_get id (b_items b) with
      | Some task => if bool_decide (t_status task = pending) then acc ++ [task] else acc
      | None => acc end) (b_unreachable b) []) as Hind.
  apply Hind; clear -Hi.
  - intros t. split; [intros H; by apply not_elem_of_nil in H|]. by intros (_ & _ & H%not_elem_of_nil).
  - intros seen id rest acc _ IH t. setoid_rewrite elem_of_app. setoid_rewrite list_elem_of_singleton.
    destruct (m_get id (b_items b)) as [x|] eqn:Hx.
    + pose proof (Hi id x Hx) as Hix. case_bool_decide as Hp.
      * rewrite elem_of_app, list_elem_of_singleton, IH. split; [intros [?| ->]|].
        -- naive_solver.
        -- rewrite Hix. naive_solver.
        -- intros (Ht & Hpt & [Hs|Hs]); [by left|right]. congruence.
      * rewrite IH. split; [naive_solver|]. intros (Ht & Hpt & [Hs|Hs]); [done|congruence].
    + rewrite IH. split; [naive_solver|]. intros (Ht & Hpt & [Hs|Hs]); [done|congruence].
Qed.

(** ** Frame: how a mutation may change one task *)

(** Identity, dependencies and creation data never change; a terminal task
    does not change at all; a change increments the version. *)
Definition task_evolves (t t' : Task) : Prop :=
  t' = t \/
  (isTerminalTaskStatus (t_status t) = false /\ t_id t' = t_id t /\
   t_dependencies t' = t_dependencies t /\ t_createdBy t' = t_createdBy t /\
   t_createdAt t' = t_createdAt t /\ t_version t' = (t_version t + 1)%Z /\
   (t_retries t <= t_retries t')%Z).

Lemma evolves_set (items : list (TaskItemId * Task)) id t t' x tx :
  m_get id items = Some t -> task_evolves t t' -> m_get x items = Some tx ->
  exists tx', m_get x (m_set id t' items) = Some tx' /\ task_evolves tx tx'.
Proof.
  intros Ht He Hx. rewrite m_get_set. case_decide; subst.
  - simplify_eq. eauto.
  - exists tx. split; [done|by left].
Qed.

Lemma run_op_evolves b op now b' evs id t :
  board_wf b -> run_op b op now = Ok (b', evs) -> m_get id (b_items b) = Some t ->
  exists t', m_get id (b_items b') = Some t' /\ task_evolves t t'.
Proof.
  intros Hwf Hop Hid. destruct op; simpl in Hop.
  - apply add_ok in Hop as (_ & _ & ->). exists t. split; [by apply extend_get|by left].
  - apply addAll_ok in Hop as (new & _ & _ & _ & _ & ->); [|by apply Hwf].
    exists t. split; [by apply extend_get|by left].
  - apply assign_ok in Hop as (x & Hx & Hp & _ & _ & -> & _). eapply evolves_set; [done| |done].
    right. simpl. rewrite Hp. repeat split; lia.
  - apply unassign_ok in Hop as (x & Hx & Hp & -> & _). eapply evolves_set; [done| |done].
    right. simpl. rewrite Hp. repeat split; lia.
  - apply complete_ok in Hop as (x & Hx & Hp & _ & -> & _). eapply evolves_set; [done| |done].
    right. simpl. rewrite Hp. repeat split; lia.
  - apply fail_ok in Hop as (x & Hx & Hp & [(_ & _ & -> & _)|(_ & Heq)]).
    + eapply evolves_set; [done| |done]. right. simpl. rewrite Hp. repeat split; lia.
    + injection Heq as -> _. eapply evolves_set; [done| |done]. right. simpl. rewrite Hp. repeat split; lia.
  - apply kill_ok in Hop as (x & Hx & Hp & Heq). injection Heq as -> _.
    eapply evolves_set; [done| |done]. right. simpl. destruct Hp as [-> | ->]; repeat split; lia.
  - apply update_ok in Hop as (x & Hx & Hp & -> & _). eapply evolves_set; [done| |done].
    right. simpl. repeat split; [done|lia].
Qed.

(** ** The abstract machine *)

(** What the board means to its clients: a status and the dependencies for
    every task. *)
Abbreviation AbstractBoard := (gmap string (TaskStatus * list string)) (only parsing).

Definition abs_task (t : Task) : TaskStatus * list string := (t_status t, t_dependencies t).

Definition abs (b : Board) : AbstractBoard := abs_task <$> (list_to_map (b_items b) : gmap string Task).

Inductive abstract_step (s : AbstractBoard) : AbstractBoard -> Prop :=
  | as_add (new : AbstractBoard) :
      (forall id st ds, new !! id = Some (st, ds) -> st = pending /\ s !! id = None /\
         forall d, d ∈ ds -> is_Some ((new ∪ s) !! d)) ->
      abstract_step s (new ∪ s)
  | as_start id ds :
      s !! id = Some (pending, ds) -> (forall d, d ∈ ds -> exists ds', s !! d = Some (completed, ds')) ->
      abstract_step s (<[id := (in_progress, ds)]> s)
  | as_release id ds :
      s !! id = Some (in_progress, ds) -> abstract_step s (<[id := (pending, ds)]> s)
  | as_finish id ds st :
      s !! id = Some (in_progress, ds) -> st = completed \/ st = failed ->
      abstract_step s (<[id := (st, ds)]> s)
  | as_kill id ds st :
      s !! id = Some (st, ds) -> st = pending \/ st = in_progress ->
      abstract_step s (<[id := (killed, ds)]> s)
  | as_stay : abstract_step s s.

Lemma list_to_map_get (items : list (string * Task)) id :
  (list_to_map items : gmap string Task) !! id = m_get id items.
Proof.
  induction items as [|[k t] items IH]; [done|]. simpl. rewrite lookup_insert.
  repeat case_decide; congruence.
Qed.

Lemma abs_lookup b id : abs b !! id = abs_task <$> m_get id (b_items b).
Proof. unfold abs. by rewrite lookup_fmap, list_to_map_get. Qed.

Lemma abs_set items results un config id t :
  abs (mkBoard (m_set id t items) results un config) =
    <[id := abs_task t]> (abs (mkBoard items results un config)).
Proof.
  apply map_eq. intros x. rewrite abs_lookup, lookup_insert, abs_lookup. simpl.
  rewrite m_get_set. by case_decide.
Qed.

Lemma abs_items b results un config :
  abs (mkBoard (b_items b) results un config) = abs b.
Proof. apply map_eq. intros x. by rewrite !abs_lookup. Qed.

Lemma abs_append b new results un config :
  abs (mkBoard (b_items b ++ (entry_of <$> new)) results un config) =
    (filter (fun e => abs b !! e.1 = None) (abs_task <$> list_to_map (entry_of <$> new) : AbstractBoard)) ∪ abs b.
Proof.
  apply map_eq. intros x. rewrite abs_lookup, lookup_union. simpl. rewrite m_get_app.
  rewrite map_lookup_filter, lookup_fmap, list_to_map_get, !abs_lookup.
  destruct (m_get x (b_items b)) as [t|] eqn:E; simpl.
  - destruct (m_get x (entry_of <$> new)); simpl; [|done]. rewrite option_guard_False; [done|].
    simpl. by rewrite abs_lookup, E.
  - destruct (m_get x (entry_of <$> new)); simpl; [|done]. rewrite option_guard_True; [done|].
    simpl. by rewrite abs_lookup, E.
Qed.

Lemma refines_set b id t t' st :
  m_get id (b_items b) = Some t -> t_dependencies t' = t_dependencies t -> t_status t' = st ->
  forall results un config,
    abs (mkBoard (m_set id t' (b_items b)) results un config) = <[id := (st, t_dependencies t)]> (abs b).
Proof.
  intros Ht Hd <- results un config. rewrite abs_set, abs_items. unfold abs_task. by rewrite Hd.
Qed.

Lemma refines_append b new results un config :
  (forall t, t ∈ new -> t_status t = pending) ->
  (forall t d, t ∈ new -> d ∈ t_dependencies t -> is_Some (m_get d (b_items b ++ (entry_of <$> new)))) ->
  abstract_step (abs b) (abs (mkBoard (b_items b ++ (entry_of <$> new)) results un config)).
Proof.
  intros Hp Hd. pose proof (abs_append b new results un config) as Heq.
  set (add := filter _ _) in Heq. rewrite Heq. apply as_add. intros id st ds Hid. subst add.
  apply map_lookup_filter_Some in Hid as [Hid Hnone]. rewrite lookup_fmap, list_to_map_get in Hid.
  destruct (m_get id (entry_of <$> new)) as [t|] eqn:Et; [|done]. simplify_eq/=.
  apply m_get_elem, list_elem_of_fmap in Et as (t0 & [= -> ->] & Ht0). injection Hid as <- <-.
  split; [by apply Hp|]. split; [done|]. intros d Hin. rewrite <-Heq, abs_lookup. simpl.
  destruct (Hd t0 d Ht0 Hin) as [td ->]. by eexists.
Qed.

(** Replaying a list of mutations, for concrete boards. *)
Fixpoint run_ops (b : Board) (ops : list (BoardOp * Z)) : option Board :=
  match ops with
  | [] => Some b
  | (op, now) :: rest =>
      match run_op b op now with
      | Ok (b', _) => run_ops b' rest
      | Err _ => None
      end
  end.

Lemma run_ops_reachable config ops b :
  run_ops (TB.createTaskBoard config None) ops = Some b -> reachable config b.
Proof.
  enough (forall b0 ops, reachable config b0 -> run_ops b0 ops = Some b -> reachable config b) as H.
  { apply H. constructor. }
  clear. intros b0 ops. revert b0. induction ops as [|[op now] ops IH]; intros b0 Hr; simpl.
  - by intros [= <-].
  - destruct (run_op b0 op now) as [[b1 evs]|] eqn:E; [|done]. apply IH. by eapply reach_step.
Qed.

(** ** Properties *)

(** C2: the board invariant.  On every board reachable from an empty one by any
    sequence of successful mutations, the task graph is closed and acyclic,
    every task that was started had all its dependencies completed, the eagerly
    maintained unreachable set is exact for pending tasks, retries and versions
    are in range, a task in progress has an owner and a start time, and the
    results are exactly those of the completed tasks. *)
Theorem board_invariant config b : reachable config b -> board_wf b.
Proof. apply reachable_wf. Qed.

(** [unreachable()] on a reachable board lists exactly the pending tasks
    that have a failed or killed task among their direct or transitive
    dependencies. *)
Lemma unreachable_exact config b t :
  reachable config b ->
  t ∈ TB.unreachable b <->
    TB.get b (t_id t) = Some t /\ t_status t = pending /\ dead_ancestor (b_items b) (t_id t).
Proof.
  intros Hr. apply reachable_wf in Hr as Hwf. rewrite unreachable_elem by done.
  destruct (bw_core _ Hwf) as [_ _ [_ Hs Hc]]. unfold TB.get. split.
  - intros (Ht & Hp & Hin). split; [done|]. split; [done|].
    destruct (Hs _ Hin) as (t' & Ht' & [[_ ?]|Hk]); [done|congruence].
  - intros (Ht & Hp & Hd). split; [done|]. split; [done|]. by apply (Hc _ t).
Qed.

(** C3: the board never deadlocks.  If nothing is in progress and some pending
    task is not cut off by a dead ancestor, then some task is ready. *)
Theorem board_progress config b id t :
  reachable config b ->
  TB.with_status b in_progress = [] ->
  TB.get b id = Some t -> t_status t = pending -> t ∉ TB.unreachable b ->
  exists t', t' ∈ TB.ready b.
Proof.
  intros Hr Hidle Ht Hp Hnu. apply reachable_wf in Hr as Hwf.
  destruct (bw_core _ Hwf) as [[Hn Hi Hcl Hac] Hst Hun]. unfold TB.get in Ht.
  assert (Hnd : ~ dead_ancestor (b_items b) id).
  { intros Hd. apply Hnu. rewrite unreachable_elem by done. rewrite (Hi id t Ht).
    split; [done|]. split; [done|]. by apply (uo_complete _ _ Hun id t). }
  clear Hnu. revert t Ht Hp Hnd.
  induction (acyclic_sn (b_items b) id Hac) as [id _ IH]. intros t Ht Hp Hnd.
  destruct (isReady t (b_items b)) eqn:Hready.
  - exists t. apply filterTasks_get; [done|]. by rewrite (Hi id t Ht).
  - destruct (not_ready_dep t _ Hp Hready) as (d & Hd & Hnc).
    assert (He : dep_edge (b_items b) id d) by (by exists t).
    destruct (Hcl id d He) as [td Htd].
    assert (Hdp : t_status td = pending).
    { destruct (t_status td) eqn:E; [done|exfalso..].
      - assert (td ∈ TB.with_status b in_progress) as Hin.
        { apply filterTasks_get; [done|]. rewrite (Hi d td Htd). split; [done|]. by apply bool_decide_eq_true. }
        rewrite Hidle in Hin. by apply not_elem_of_nil in Hin.
      - by apply (Hnc td).
      - apply Hnd, dead_ancestor_step. exists d, td. rewrite E. auto.
      - apply Hnd, dead_ancestor_step. exists d, td. rewrite E. auto. }
    apply (IH d He td Htd Hdp). intros Hda. apply Hnd, dead_ancestor_step. exists d, td. auto.
Qed.

(** C4: refinement.  Every successful mutation of a reachable board is a step
    of the abstract machine over statuses and dependencies: tasks appear as
    pending with known dependencies, work starts only behind completed
    dependencies, only work in progress completes, fails or is released, and
    only live tasks are killed. *)
Theorem board_refines config b op now b' evs :
  reachable config b -> run_op b op now = Ok (b', evs) -> abstract_step (abs b) (abs b').
Proof.
  intros Hr Hop. apply reachable_wf in Hr as Hwf.
  assert (Hab : forall id t, m_get id (b_items b) = Some t ->
    abs b !! id = Some (t_status t, t_dependencies t)).
  { intros id t Ht. by rewrite abs_lookup, Ht. }
  destruct op; simpl in Hop.
  - apply add_ok in Hop as (_ & Hd & ->). apply (refines_append b [inputToTask input now]).
    + by intros t ->%list_elem_of_singleton.
    + intros t d ->%list_elem_of_singleton Hin. destruct (Hd d Hin). eexists. by apply extend_get.
  - apply addAll_ok in Hop as (new & Hnew & _ & _ & Hd & ->); [|by apply Hwf].
    apply refines_append; [|exact Hd]. intros t Ht. subst new. by apply list_elem_of_fmap in Ht as (i & -> & _).
  - apply assign_ok in Hop as (t & Ht & Hp & Hdc & _ & -> & _).
    erewrite refines_set by done. apply as_start; [by rewrite (Hab _ t Ht), Hp|].
    intros d Hin. destruct (Hdc d Hin) as (td & Htd & Hc). exists (t_dependencies td).
    by rewrite (Hab d td Htd), Hc.
  - apply unassign_ok in Hop as (t & Ht & Hp & -> & _).
    erewrite refines_set by done. apply as_release. by rewrite (Hab _ t Ht), Hp.
  - apply complete_ok in Hop as (t & Ht & Hp & _ & -> & _).
    erewrite refines_set by done. apply as_finish; [by rewrite (Hab _ t Ht), Hp|by left].
  - apply fail_ok in Hop as (t & Ht & Hp & [(_ & _ & -> & _)|(_ & Heq)]).
    + erewrite refines_set by done. apply as_release. by rewrite (Hab _ t Ht), Hp.
    + injection Heq as -> _. erewrite refines_set by done.
      apply as_finish; [by rewrite (Hab _ t Ht), Hp|by right].
  - apply kill_ok in Hop as (t & Ht & Hp & Heq). injection Heq as -> _.
    erewrite refines_set by done. by apply (as_kill _ _ _ (t_status t)); [apply Hab|].
  - apply update_ok in Hop as (t & Ht & _ & -> & _). erewrite refines_set by done. simpl.
    rewrite insert_id by (by apply Hab). apply as_stay.
Qed.

(** Nothing is lost and nothing finished is reopened.  Across any
    successful mutation every task stays on the board with the same identity,
    dependencies and creation data; a terminal task is left exactly as it is, a
    task that changes gets the next version; and a recorded result is never
    replaced. *)
Lemma terminal_final config b op now b' evs id t :
  reachable config b -> run_op b op now = Ok (b', evs) -> TB.get b id = Some t ->
  (exists t', TB.get b' id = Some t' /\ task_evolves t t') /\
  (forall r, TB.result b id = Some r -> TB.result b' id = Some r).
Proof.
  intros Hr Hop Ht. apply reachable_wf in Hr as Hwf. split; [by eapply run_op_evolves|].
  intros r Hres. unfold TB.result in *. destruct op; simpl in Hop.
  - by apply add_ok in Hop as (_ & _ & ->).
  - by apply addAll_ok in Hop as (new & _ & _ & _ & _ & ->); [|apply Hwf].
  - by apply assign_ok in Hop as (x & _ & _ & _ & _ & -> & _).
  - by apply unassign_ok in Hop as (x & _ & _ & -> & _).
  - apply complete_ok in Hop as (x & Hx & Hp & _ & -> & _). simpl. rewrite m_get_set.
    case_decide; subst; [|done]. exfalso.
    destruct (proj1 (bw_results _ Hwf id)) as (y & Hy & Hc); [by eexists|]. congruence.
  - apply fail_ok in Hop as (x & _ & _ & [(_ & _ & -> & _)|(_ & Heq)]); [done|].
    by injection Heq as -> _.
  - apply kill_ok in Hop as (x & _ & _ & Heq). by injection Heq as -> _.
  - by apply update_ok in Hop as (x & _ & _ & -> & _).
Qed.

(** [assign] on a reachable board.  It succeeds exactly when the task is
    pending, all its dependencies are completed and the agent is below
    [maxInProgressPerOwner]; so no agent ever holds more tasks than that. *)
Lemma assign_limit config b id t agent now :
  reachable config b -> TB.get b id = Some t ->
  (is_ok (TB.assign b id agent now) = true <->
     t_status t = pending /\ deps_completed (b_items b) t /\
     forall max, cfg_maxInProgressPerOwner (b_config b) = Some max ->
       (Z.of_nat (owned (b_items b) agent) < max)%Z) /\
  (forall max, cfg_maxInProgressPerOwner (b_config b) = Some max ->
     (Z.of_nat (owned (b_items b) agent) <= Z.max 0 max)%Z).
Proof.
  intros Hr Ht. apply reachable_wf in Hr as Hwf. split; [|by intros; apply Hwf].
  unfold TB.get in Ht. split.
  - destruct (TB.assign b id agent now) as [[b' evs]|] eqn:E; [|done]. intros _.
    apply assign_ok in E as (x & Hx & Hp & Hd & Hoc & _). simplify_eq.
    split; [done|]. split; [done|]. by apply (owner_check_None b id agent).
  - intros (Hp & Hd & Hlim). unfold TB.assign. rewrite Ht, Hp. simpl.
    rewrite (proj2 (isReady_spec t (b_items b))) by done. simpl.
    rewrite (proj2 (owner_check_None b id agent) Hlim).
    unfold transitionTask. by rewrite Ht, Hp.
Qed.

(** [fail] on a task in progress always succeeds.  A retryable error with
    retries left sends the task back to [pending] with one more retry; any
    other error makes it [failed], and then the [task:unreachable] events name
    exactly the pending tasks downstream of it that were not unreachable
    before, each once. *)
Lemma fail_outcome config b id t error now :
  reachable config b -> TB.get b id = Some t -> t_status t = in_progress ->
  exists b' evs t', TB.fail b id error now = Ok (b', evs) /\ TB.get b' id = Some t' /\
    t_error t' = Some error /\ t_assignedTo t' = None /\
    if err_retryable error && (t_retries t <? maxRetries (b_config b))%Z then
      t_status t' = pending /\ t_retries t' = (t_retries t + 1)%Z /\
      evs = [task_retried id (t_retries t + 1)]
    else
      t_status t' = failed /\ t_retries t' = t_retries t /\
      exists cut, evs = task_failed id error :: ((fun x => task_unreachable x id) <$> cut) /\
        NoDup cut /\
        forall x, x ∈ cut <-> tc (dep_edge (b_items b)) x id /\
          (exists tx, TB.get b x = Some tx /\ t_status tx = pending) /\ ~ dead_ancestor (b_items b) x.
Proof.
  intros Hr Ht Hs. apply reachable_wf in Hr as Hwf. unfold TB.get in *.
  unfold TB.fail. rewrite Ht, Hs. simpl.
  destruct (err_retryable error && (t_retries t <? maxRetries (b_config b))%Z).
  { eexists _, _, (retried t error now). split; [done|]. simpl. split; [apply m_get_set_eq|done]. }
  unfold transitionTask. rewrite Ht, Hs. simpl.
  set (t' := transitioned t failed _ now).
  eexists _, _, t'. split; [done|]. simpl. split; [apply m_get_set_eq|].
  split; [done|]. split; [done|]. split; [done|]. split; [done|].
  pose proof (bw_core _ Hwf) as [Hg Hst Hun].
  assert (Hhas : m_has id (b_items b) = true) by (by eapply m_get_Some_has).
  assert (Hkeys : m_keys (m_set id t' (b_items b)) = m_keys (b_items b)) by (by apply (replace_keys _ _ t)).
  eexists. split; [done|].
  split; [apply findNewlyUnreachable_NoDup; [apply Hg|done|done]|].
  intros x. rewrite findNewlyUnreachable_elem by (try done; apply Hg). unfold reported. split.
  - intros (Htc & (tx & Htx & Hp) & Hn). rewrite m_get_set in Htx. case_decide; [by simplify_eq|].
    split; [done|]. split; [by exists tx|]. intros Hd. apply Hn. by apply (uo_complete _ _ Hun x tx).
  - intros (Htc & (tx & Htx & Hp) & Hn). split; [done|]. split.
    + exists tx. split; [|done]. rewrite m_get_set_ne; [done|]. intros ->.
      by apply (gw_acyclic _ Hg x).
    + intros Hin. destruct (uo_sound _ _ Hun x Hin) as (ty & Hty & [[_ ?]|Hk]); [done|congruence].
Qed.

(** ** Snapshots *)

Lemma strip_absent md : (forall m, md = Some m -> m_get "delegatedTo" m = None) -> stripDelegatedTo md = md.
Proof.
  destruct md as [m|]; [|done]. intros H. unfold stripDelegatedTo. unfold m_has. by rewrite (H m eq_refl).
Qed.

Definition no_marker (t : Task) : Prop :=
  t_status t = in_progress -> forall m, t_metadata t = Some m -> m_get "delegatedTo" m = None.

Lemma load_save config t : task_ok config t -> no_marker t -> TB.load_task (TB.save_task t) = t.
Proof.
  intros [Hv _ Ha _] Hm. destruct t as [? ? ? ? st ? ? ? ? ? ver ? md ? ? sa]. unfold no_marker in Hm.
  unfold TB.load_task. simpl in *. f_equal.
  - destruct (Z.leb_spec 0 ver); [done|lia].
  - case_decide; [|done]. apply strip_absent. auto.
  - destruct sa; [done|]. case_decide; [|done]. by destruct (Ha H) as [_ [? ?]].
Qed.

Lemma load_items (items : list (TaskItemId * Task)) config :
  NoDup (m_keys items) -> (forall id t, m_get id items = Some t -> t_id t = id /\ task_ok config t /\ no_marker t) ->
  foldl (fun m item => m_set (sn_id item) (TB.load_task item) m) [] (TB.save_task <$> m_values items) = items.
Proof.
  intros Hnd Hall. unfold m_values.
  enough (forall pre, NoDup (m_keys (pre ++ items)) ->
    foldl (fun m item => m_set (sn_id item) (TB.load_task item) m) pre (TB.save_task <$> items.*2) =
      pre ++ items) as H by (by apply (H [])).
  induction items as [|[k t] items IH]; intros pre Hpre; simpl; [by rewrite app_nil_r|].
  destruct (Hall k t) as (Hid & Hok & Hm); [simpl; by rewrite decide_True|].
  rewrite (load_save config t Hok Hm), Hid. rewrite m_set_absent.
  - rewrite IH; [by rewrite <-app_assoc| |..].
    + by apply NoDup_cons in Hnd as [_ ?].
    + intros id x Hx. apply (Hall id x). simpl. rewrite decide_False; [done|]. intros ->.
      apply NoDup_cons in Hnd as [Hk _]. apply Hk, elem_of_m_keys. by eexists.
    + by rewrite <-app_assoc.
  - apply not_elem_of_m_keys. unfold m_keys in *. rewrite fmap_app in Hpre.
    apply NoDup_app in Hpre as (_ & Hdis & _). intros Hin. apply (Hdis k Hin). simpl. by left.
Qed.

Lemma load_results (results : list (TaskItemId * TaskResult)) :
  NoDup (m_keys results) -> (forall id r, m_get id results = Some r -> r_taskId r = id) ->
  foldl (fun m r => m_set (r_taskId r) r m) [] (m_values results) = results.
Proof.
  intros Hnd Hall. unfold m_values.
  enough (forall pre, NoDup (m_keys (pre ++ results)) ->
    foldl (fun m r => m_set (r_taskId r) r m) pre (results.*2) = pre ++ results) as H by (by apply (H [])).
  induction results as [|[k r] results IH]; intros pre Hpre; simpl; [by rewrite app_nil_r|].
  rewrite (Hall k r) by (simpl; by rewrite decide_True). rewrite m_set_absent.
  - rewrite IH; [by rewrite <-app_assoc| |..].
    + by apply NoDup_cons in Hnd as [_ ?].
    + intros id x Hx. apply (Hall id x). simpl. rewrite decide_False; [done|]. intros ->.
      apply NoDup_cons in Hnd as [Hk _]. apply Hk, elem_of_m_keys. by eexists.
    + by rewrite <-app_assoc.
  - apply not_elem_of_m_keys. unfold m_keys in *. rewrite fmap_app in Hpre.
    apply NoDup_app in Hpre as (_ & Hdis & _). intros Hin. apply (Hdis k Hin). simpl. by left.
Qed.

(** C5: snapshots round-trip.  Loading the snapshot of a reachable board gives
    back the same tasks and results in the same order, the same configuration
    and the same unreachable tasks, provided no task in progress carries the
    pending-only [delegatedTo] marker, which loading removes. *)
Theorem snapshot_roundtrip config b :
  reachable config b -> (forall id t, TB.get b id = Some t -> no_marker t) ->
  let b2 := TB.deserializeBoard (TB.serializeBoard b) config in
  b_items b2 = b_items b /\ b_results b2 = b_results b /\ b_config b2 = b_config b /\
  (forall t, t ∈ TB.unreachable b2 <-> t ∈ TB.unreachable b).
Proof.
  intros Hr Hm. apply reachable_wf in Hr as Hwf. pose proof (bw_core _ Hwf) as [Hg Hst Hun].
  set (b2 := TB.deserializeBoard _ _). simpl.
  assert (Hitems : b_items b2 = b_items b).
  { subst b2. simpl. apply (load_items _ (b_config b)); [apply Hg|]. intros id t Ht.
    split; [by apply (gw_id _ Hg)|]. split; [by apply (bw_tasks _ Hwf id)|by apply (Hm id)]. }
  assert (Hresults : b_results b2 = b_results b).
  { subst b2. simpl. apply load_results; [apply (bw_results_nodup _ Hwf)|apply (bw_results_id _ Hwf)]. }
  assert (Hconfig : b_config b2 = b_config b) by (subst b2; simpl; by rewrite (reachable_config _ _ Hr)).
  assert (Hun2 : b_unreachable b2 = computeUnreachableSet (b_items b)) by (by rewrite <-Hitems).
  split; [done|]. split; [done|]. split; [done|]. intros t.
  assert (Hwf2 : board_wf b2).
  { destruct b2 as [i2 r2 u2 c2]. simpl in *. subst i2 r2 c2. destruct Hwf as [_ ? ? ? ? ?].
    constructor; simpl; try done. constructor; [done|done|]. subst u2. constructor.
    - apply computeUnreachableSet_NoDup.
    - intros x Hx. apply computeUnreachableSet_elem in Hx as (tx & Htx & Hp & Hd); [|apply Hg..].
      exists tx. split; [done|]. by left.
    - intros x tx Htx Hp Hd. apply computeUnreachableSet_elem; [apply Hg..|]. by exists tx. }
  rewrite !unreachable_elem, Hitems, Hun2 by done.
  rewrite computeUnreachableSet_elem by apply Hg. split; intros (Ht & Hp & Hin); (split; [done|]; split; [done|]).
  - destruct Hin as (tx & Htx & _ & Hd). by apply (uo_complete _ _ Hun _ t).
  - destruct (uo_sound _ _ Hun _ Hin) as (tx & Htx & [[? ?]|Hk]); [by exists tx|congruence].
Qed.

(** The claim path clears the delegation marker, but [update] can put it
    back.  After [assign] the task carries no [delegatedTo]; yet there is a
    reachable board with a task in progress that carries it, because [update]
    accepts any metadata for a task in progress. *)
Lemma marker_not_pending_only :
  (forall b id agent now b' evs t, TB.assign b id agent now = Ok (b', evs) ->
     TB.get b' id = Some t -> no_marker t) /\
  exists b t, reachable None b /\ TB.get b "a" = Some t /\ ~ no_marker t.
Proof.
  split.
  - intros b id agent now b' evs t' Hop Ht' _ m Hm. apply assign_ok in Hop as (t & Ht & Hp & _ & _ & -> & _).
    unfold TB.get in Ht'. simpl in Ht'. rewrite m_get_set_eq in Ht'. simplify_eq. simpl in Hm.
    unfold stripDelegatedTo in Hm. destruct (t_metadata t) as [md|]; [|done].
    destruct (m_has "delegatedTo" md) eqn:E.
    + case_decide; simplify_eq. apply m_get_delete_eq.
    + simplify_eq. by apply m_has_false.
  - pose (input := mkTaskInput "a" None "do it" None None None None).
    pose (patch := mkTaskPatch None None (Some [("delegatedTo", JStr "child")]) None).
    destruct (run_ops (TB.createTaskBoard None None)
      [(OpAdd input, 1%Z); (OpAssign "a" "w", 2%Z); (OpUpdate "a" patch, 3%Z)]) as [b|] eqn:E; [|done].
    eexists b, _. split; [by eapply run_ops_reachable|]. vm_compute in E. injection E as <-.
    split; [reflexivity|]. intros Hm. specialize (Hm eq_refl _ eq_refl). done.
Qed.

(** ** Witnesses *)

Definition sample_config : TaskBoardConfig := mkTaskBoardConfig (Some 1%Z) (Some 1%Z).

Definition sample_input (id : string) (deps : list string) : TaskInput :=
  mkTaskInput id None id (Some deps) None None None.

Definition sample_result (id : string) : TaskResult :=
  mkTaskResult id "done" 5 None None None None None None None.

(** [a] is completed, [c] is in progress, [b] and [d] are pending. *)
Definition sample_ops : list (BoardOp * Z) :=
  [(OpAddAll [sample_input "a" []; sample_input "b" ["a"]], 1%Z); (OpAdd (sample_input "c" []), 2%Z);
   (OpAdd (sample_input "d" ["c"; "b"]), 3%Z); (OpAssign "a" "w", 4%Z);
   (OpComplete "a" (sample_result "a"), 5%Z); (OpAssign "c" "w", 6%Z)].

Definition sample_board : Board :=
  default (TB.createTaskBoard None None) (run_ops (TB.createTaskBoard (Some sample_config) None) sample_ops).

Definition sample_get (b : Board) (id : string) : Task :=
  default (sample_task id [] pending) (TB.get b id).

Lemma sample_reachable : reachable (Some sample_config) sample_board.
Proof. apply (run_ops_reachable _ sample_ops). vm_compute. reflexivity. Qed.

(** The same board after [c] failed for good: [d] is cut off. *)
Definition fatal : KoiError := koiError EXTERNAL "boom" false.

Definition dead_board : Board :=
  default sample_board (run_ops sample_board [(OpFail "c" fatal, 7%Z)]).

Lemma dead_reachable : reachable (Some sample_config) dead_board.
Proof.
  apply (run_ops_reachable _ (sample_ops ++ [(OpFail "c" fatal, 7%Z)])). vm_compute. reflexivity.
Qed.

Lemma board_invariant_witness : board_wf sample_board.
Proof. apply (board_invariant (Some sample_config)). exact sample_reachable. Defined.

Lemma unreachable_exact_witness : sample_get dead_board "d" ∈ TB.unreachable dead_board /\
  dead_ancestor (b_items dead_board) "d".
Proof.
  assert (sample_get dead_board "d" ∈ TB.unreachable dead_board) as Hin.
  { vm_compute. apply list_elem_of_here. }
  split; [exact Hin|].
  exact (proj2 (proj2 (proj1 (unreachable_exact _ _ (sample_get dead_board "d") dead_reachable) Hin))).
Defined.

(** Before [c] is assigned nothing is in progress. *)
Definition idle_board : Board :=
  default (TB.createTaskBoard None None)
    (run_ops (TB.createTaskBoard (Some sample_config) None) (take 5 sample_ops)).

Lemma board_progress_witness : exists t', t' ∈ TB.ready idle_board.
Proof.
  apply (board_progress (Some sample_config) idle_board "d" (sample_get idle_board "d")).
  - apply (run_ops_reachable _ (take 5 sample_ops)). vm_compute. reflexivity.
  - vm_compute. reflexivity.
  - vm_compute. reflexivity.
  - vm_compute. reflexivity.
  - assert (TB.unreachable idle_board = []) as -> by (vm_compute; reflexivity). apply not_elem_of_nil.
Defined.

Lemma board_refines_witness : abstract_step (abs sample_board) (abs dead_board).
Proof.
  apply (board_refines (Some sample_config) sample_board (OpFail "c" fatal) 7 dead_board
    [task_failed "c" fatal; task_unreachable "d" "c"]); [exact sample_reachable|].
  vm_compute. reflexivity.
Defined.

Lemma terminal_final_witness : TB.result dead_board "a" = Some (sample_result "a").
Proof.
  apply (proj2 (terminal_final (Some sample_config) sample_board (OpFail "c" fatal) 7 dead_board
    [task_failed "c" fatal; task_unreachable "d" "c"] "a" (sample_get sample_board "a")
    sample_reachable ltac:(vm_compute; reflexivity) ltac:(vm_compute; reflexivity))).
  vm_compute. reflexivity.
Defined.

(** The owner of [c] is at the limit of one task. *)
Lemma assign_limit_witness :
  ~ (t_status (sample_get sample_board "b") = pending /\
     deps_completed (b_items sample_board) (sample_get sample_board "b") /\
     forall max, cfg_maxInProgressPerOwner (b_config sample_board) = Some max ->
       (Z.of_nat (owned (b_items sample_board) "w") < max)%Z).
Proof.
  intros Hall.
  apply (proj2 (proj1 (assign_limit (Some sample_config) sample_board "b" (sample_get sample_board "b") "w" 9
    sample_reachable ltac:(vm_compute; reflexivity)))) in Hall.
  vm_compute in Hall. discriminate Hall.
Defined.

Lemma fail_outcome_witness :
  exists b' evs t', TB.fail sample_board "c" fatal 7 = Ok (b', evs) /\ TB.get b' "c" = Some t'.
Proof.
  destruct (fail_outcome (Some sample_config) sample_board "c" (sample_get sample_board "c") fatal 7
    sample_reachable ltac:(vm_compute; reflexivity) ltac:(vm_compute; reflexivity))
    as (b' & evs & t' & Hop & Hget & _).
  exists b', evs, t'. split; [exact Hop|exact Hget].
Defined.

Lemma snapshot_roundtrip_witness :
  b_items (TB.deserializeBoard (TB.serializeBoard sample_board) (Some sample_config)) = b_items sample_board.
Proof.
  apply (snapshot_roundtrip (Some sample_config) sample_board sample_reachable).
  intros id t Ht _ m Hm. exfalso.
  assert (forallb (fun e => bool_decide (t_metadata e.2 = None)) (b_items sample_board) = true) as Hall
    by (vm_compute; reflexivity).
  rewrite forallb_forall in Hall. specialize (Hall (id, t)). rewrite <-list_elem_of_In in Hall.
  specialize (Hall (m_get_elem _ _ _ Ht)). apply bool_decide_eq_true in Hall. simpl in Hall. congruence.
Defined.
