(* ===== verification/Bfs.v ===== *)
(** * Worklist traversal

    Two loops of the agent control plane walk the process tree breadth first
    with the same skeleton: a queue read by index, a visited set that starts
    with the root, and children pushed unless already visited.  [bfs] is that
    skeleton; [visit] is the loop body between marking a node and pushing its
    children: it may change a state and says whether to descend.  The nodes
    visited are logged in order, with that answer. *)

From S2P Require Import Prelude JsMap.

Section Bfs.
Context {K : Type} `{EqDecision K} {S : Type}.
Variable next : K -> list K.
Variable visit : S -> K -> S * bool.

Fixpoint bfs (fuel : nat) (queue visited : list K) (s : S) (log : list (K * bool))
    : option (S * list (K * bool)) :=
  match fuel with
  | O => None
  | Datatypes.S fuel =>
      match queue with
      | [] => Some (s, log)
      | k :: queue =>
          if s_has k visited then bfs fuel queue visited s log
          else
            let visited := s_add k visited in
            let '(s, descend) := visit s k in
            let pushed := if descend then filter (fun c => s_has c visited = false) (next k) else [] in
            bfs fuel (queue ++ pushed) visited s (log ++ [(k, descend)])
      end
  end.

(** Reachable from the queue through visited nodes the loop descended into. *)
Inductive descended (log : list (K * bool)) (queue : list K) : K -> Prop :=
  | descended_queue k : k ∈ queue -> descended log queue k
  | descended_next k c : descended log queue k -> (k, true) ∈ log -> c ∈ next k ->
      descended log queue c.

Lemma descended_mono log log' queue queue' k :
  log ⊆ log' -> queue ⊆ queue' -> descended log queue k -> descended log' queue' k.
Proof. intros Hl Hq. induction 1; [apply descended_queue; auto|eapply descended_next; eauto]. Qed.

(** Nodes pushed later were reachable before: the queue can be traded for the log. *)
Lemma descended_trade log queue queue' k :
  (forall x, x ∈ queue' -> descended log queue x) -> descended log queue' k -> descended log queue k.
Proof. intros Hq. induction 1; [auto|eapply descended_next; eauto]. Qed.

(** How much work is left: queue entries, and the children not pushed yet. *)
Definition pending_pushes (univ visited : list K) : nat :=
  sum_list_with (fun k => if decide (k ∈ visited) then 0 else length (next k)) univ.

Lemma pending_pushes_mono univ visited visited' :
  visited ⊆ visited' -> pending_pushes univ visited' <= pending_pushes univ visited.
Proof.
  intros Hsub. unfold pending_pushes. induction univ as [|x univ IH]; simpl; [lia|].
  repeat case_decide; try lia. set_solver.
Qed.

Lemma pending_pushes_visit univ visited k :
  k ∉ visited -> (next k ≠ [] -> k ∈ univ) ->
  length (next k) + pending_pushes univ (s_add k visited) <= pending_pushes univ visited.
Proof.
  intros Hk Hu. destruct (next k) as [|c cs] eqn:Hn.
  { simpl. apply pending_pushes_mono. intros x Hx. apply elem_of_s_add. auto. }
  rewrite <-Hn. assert (Hin : k ∈ univ) by (by apply Hu). clear Hu Hn.
  induction univ as [|x univ IH]; [by apply elem_of_nil in Hin|]. unfold pending_pushes in *. simpl.
  assert (Hmono : pending_pushes univ (s_add k visited) <= pending_pushes univ visited).
  { apply pending_pushes_mono. intros y Hy. apply elem_of_s_add. auto. }
  unfold pending_pushes in Hmono.
  destruct (decide (x = k)) as [->|Hne].
  - rewrite (decide_True (P := k ∈ s_add k visited)) by (apply elem_of_s_add; auto).
    rewrite (decide_False (P := k ∈ visited)) by done. lia.
  - apply elem_of_cons in Hin as [?|Hin]; [congruence|]. specialize (IH Hin).
    destruct (decide (x ∈ visited)) as [Hv|Hv];
      [rewrite decide_True by (apply elem_of_s_add; auto)|
       rewrite decide_False by (rewrite elem_of_s_add; tauto)]; lia.
Qed.

(** What the loop computes, whatever [visit] does to the state. *)
Record bfs_post (root queue : list K) (log : list (K * bool)) : Prop := {
  bp_nodup : NoDup log.*1;
  bp_fresh : forall k, k ∈ log.*1 -> k ∉ root;
  bp_queue : forall k, k ∈ queue -> k ∉ root -> k ∈ log.*1;
  bp_next : forall k c, (k, true) ∈ log -> c ∈ next k -> c ∉ root -> c ∈ log.*1;
  bp_reach : forall k, k ∈ log.*1 -> descended log queue k
}.

Variable Inv : list (K * bool) -> S -> Prop.
Hypothesis visit_inv : forall log s k, Inv log s -> k ∉ log.*1 ->
  Inv (log ++ [(k, (visit s k).2)]) (visit s k).1.

Variable univ : list K.
Hypothesis next_univ : forall k, next k ≠ [] -> k ∈ univ.

(** The invariant of the loop: [queue] is what is left of the worklist. *)
Record bfs_state (root queue0 queue visited : list K) (log : list (K * bool)) : Prop := {
  bs_visited : forall k, k ∈ visited <-> k ∈ root \/ k ∈ log.*1;
  bs_nodup : NoDup log.*1;
  bs_fresh : forall k, k ∈ log.*1 -> k ∉ root;
  bs_queue : forall k, k ∈ queue0 -> k ∉ root -> k ∈ log.*1 \/ k ∈ queue;
  bs_next : forall k c, (k, true) ∈ log -> c ∈ next k -> c ∉ root -> c ∈ log.*1 \/ c ∈ queue;
  bs_reach : forall k, k ∈ log.*1 \/ k ∈ queue -> descended log queue0 k
}.

Lemma bfs_state_done root queue0 visited log :
  bfs_state root queue0 [] visited log -> bfs_post root queue0 log.
Proof.
  intros []. split; try done.
  - intros k Hk Hr. destruct (bs_queue0 k Hk Hr) as [?|?%elem_of_nil]; done.
  - intros k c Hk Hc Hr. destruct (bs_next0 k c Hk Hc Hr) as [?|?%elem_of_nil]; done.
  - intros k Hk. apply bs_reach0. by left.
Qed.

Lemma bfs_state_skip root queue0 k queue visited log :
  k ∈ visited -> bfs_state root queue0 (k :: queue) visited log -> bfs_state root queue0 queue visited log.
Proof.
  intros Hk []. apply bs_visited0 in Hk. split; try done.
  - intros x Hx Hr. destruct (bs_queue0 x Hx Hr) as [?|[->|?]%elem_of_cons]; auto. destruct Hk; [done|auto].
  - intros x c Hx Hc Hr. destruct (bs_next0 x c Hx Hc Hr) as [?|[->|?]%elem_of_cons]; auto. destruct Hk; [done|auto].
  - intros x [?|?]; apply bs_reach0; [by left|right; by apply list_elem_of_further].
Qed.

(** [pushed] holds children of [k] only, and all unvisited ones if the loop descends. *)
Lemma bfs_state_visit root queue0 k queue visited log d pushed :
  k ∉ visited -> (forall c, c ∈ pushed -> c ∈ next k /\ d = true) ->
  (d = true -> forall c, c ∈ next k -> c ∉ s_add k visited -> c ∈ pushed) ->
  bfs_state root queue0 (k :: queue) visited log ->
  bfs_state root queue0 (queue ++ pushed) (s_add k visited) (log ++ [(k, d)]).
Proof.
  intros Hk Hpushed Hall [].
  assert (Hkl : k ∉ log.*1) by (intros ?; apply Hk, bs_visited0; auto).
  assert (Hkr : k ∉ root) by (intros ?; apply Hk, bs_visited0; auto).
  assert (Hkeys : forall x, x ∈ (log ++ [(k, d)]).*1 <-> x ∈ log.*1 \/ x = k).
  { intros x. rewrite fmap_app, elem_of_app. simpl. by rewrite list_elem_of_singleton. }
  split.
  - intros x. rewrite elem_of_s_add, Hkeys, bs_visited0. tauto.
  - rewrite fmap_app. apply NoDup_app. split; [done|]. simpl. split; [|apply NoDup_singleton].
    intros x Hx ->%list_elem_of_singleton. done.
  - intros x [Hx| ->]%Hkeys; auto.
  - intros x Hx Hr. rewrite Hkeys, elem_of_app. destruct (bs_queue0 x Hx Hr) as [?|[->|?]%elem_of_cons]; auto.
  - intros x c Hx Hc Hr. rewrite Hkeys, elem_of_app. apply elem_of_app in Hx as [Hx|Hx%list_elem_of_singleton].
    + destruct (bs_next0 x c Hx Hc Hr) as [?|[->|?]%elem_of_cons]; auto.
    + simplify_eq. destruct (decide (c ∈ s_add k visited)) as [Hcv|Hcv]; [|right; right; by apply Hall].
      apply elem_of_s_add in Hcv as [->|Hcv]; [auto|]. apply bs_visited0 in Hcv as [?|?]; [done|auto].
  - assert (Hsub : log ⊆ log ++ [(k, d)]) by (intros y ?; apply elem_of_app; auto).
    assert (Hd : descended (log ++ [(k, d)]) queue0 k).
    { eapply descended_mono; [done|done|]. apply bs_reach0. right. left. }
    intros x. rewrite Hkeys, elem_of_app. intros [[Hx| ->]|[Hx|Hx]]; [|done| |].
    + eapply descended_mono; [done|done|]. apply bs_reach0. by left.
    + eapply descended_mono; [done|done|]. apply bs_reach0. right. by apply list_elem_of_further.
    + apply Hpushed in Hx as [Hx ->]. eapply descended_next; [done| |done].
      apply elem_of_app. right. by apply list_elem_of_singleton.
Qed.

Lemma bfs_loop root queue0 fuel : forall queue visited s log,
  length queue + pending_pushes univ visited < fuel ->
  bfs_state root queue0 queue visited log -> Inv log s ->
  exists s' log', bfs fuel queue visited s log = Some (s', log') /\
    bfs_post root queue0 log' /\ Inv log' s'.
Proof.
  induction fuel as [|fuel IH]; intros queue visited s log Hfuel Hst HI; [lia|].
  cbn [bfs]. destruct queue as [|k queue].
  { exists s, log. split; [done|]. split; [by eapply bfs_state_done|done]. }
  simpl in Hfuel. destruct (s_has k visited) eqn:Hhas.
  { apply s_has_true in Hhas. apply IH; [lia|by eapply bfs_state_skip|done]. }
  apply s_has_false in Hhas.
  assert (Hkl : k ∉ log.*1) by (intros ?; apply Hhas, (bs_visited _ _ _ _ _ Hst); auto).
  pose proof (visit_inv log s k HI Hkl) as HI'. destruct (visit s k) as [s' d] eqn:Hv. simpl in HI'.
  pose proof (pending_pushes_visit univ visited k Hhas (next_univ k)) as Hpp.
  apply IH; [| |done].
  - rewrite length_app. destruct d; [|simpl; lia].
    match goal with |- context [length (filter ?P (next k))] => pose proof (length_filter P (next k)) end. lia.
  - apply bfs_state_visit; [done| | |done]; destruct d; try done.
    + intros c. rewrite list_elem_of_filter. tauto.
    + by intros c ?%elem_of_nil.
    + intros _ c Hc Hn. apply list_elem_of_filter. split; [by apply s_has_false|done].
Qed.

(** Enough fuel for a traversal from the children of one root. *)
Definition bfs_fuel (queue : list K) : nat := Datatypes.S (length queue + sum_list_with (fun k => length (next k)) univ).

Lemma bfs_spec (root : K) (queue : list K) (s : S) :
  Inv [] s ->
  exists s' log, bfs (bfs_fuel queue) queue [root] s [] = Some (s', log) /\
    bfs_post [root] queue log /\ Inv log s'.
Proof.
  intros HI. apply bfs_loop; try done.
  - unfold bfs_fuel, pending_pushes.
    assert (forall v : list K, sum_list_with (fun k => if decide (k ∈ v) then 0 else length (next k)) univ
      <= sum_list_with (fun k => length (next k)) univ) as Hle.
    { intros v. clear. induction univ as [|x u IH]; simpl; [lia|]. case_decide; lia. }
    specialize (Hle [root]). lia.
  - split; auto.
    + intros k. simpl. rewrite elem_of_nil. tauto.
    + apply NoDup_nil_2.
    + intros k ?%elem_of_nil; done.
    + intros k c ?%elem_of_nil; done.
    + intros k [?%elem_of_nil|?]; [done|by apply descended_queue].
Qed.
End Bfs.

Arguments bfs_fuel {K} next univ queue.
