(* ===== verification/Registry.v ===== *)
(** * Agent registry, process accounter, process tree

    [kernel/engine-reconcile/src/registry.ts], [process-accounter.ts] and
    [process-tree.ts].  The registry keeps one entry per agent and notifies its
    listeners synchronously; the notifications are modelled as the sequence of
    events an operation emits, and a listener is the fold of its handler over
    that sequence.  Listeners run after the store is updated and cannot make
    the operation fail ([createListenerSet] swallows what they throw). *)

From S2P Require Import Prelude JsMap Lifecycle Bfs.

Local Open Scope string_scope.
Local Open Scope list_scope.
Local Open Scope Z_scope.

Abbreviation AgentId := string (only parsing).

Inductive AgentType : Type := copilot | worker.

#[export] Instance AgentType_eq_dec : EqDecision AgentType.
Proof. solve_decision. Defined.

Record RegistryEntry : Type := mkRegistryEntry {
  re_agentId : AgentId;
  re_status : AgentStatus;
  re_agentType : AgentType;
  re_metadata : list (string * jsval);
  re_registeredAt : Z;
  re_parentId : option AgentId;
  re_spawner : option AgentId;
  re_zoneId : option string;
  re_groupId : option string;
  re_priority : Z
}.

Record PatchableRegistryFields : Type := mkPatch {
  pf_priority : option Z;
  pf_zoneId : option string;
  pf_metadata : option (list (string * jsval))
}.

Inductive RegistryEvent : Type :=
  | ev_registered (entry : RegistryEntry)
  | ev_deregistered (agentId : AgentId)
  | ev_transitioned (agentId : AgentId) (from to : ProcessState) (generation : Z)
      (reason : TransitionReason)
  | ev_patched (agentId : AgentId) (fields : PatchableRegistryFields) (entry : RegistryEntry).

Record RegistryFilter : Type := mkRegistryFilter {
  rf_phase : option ProcessState;
  rf_agentType : option AgentType;
  rf_condition : option AgentCondition;
  rf_parentId : option AgentId;
  rf_zoneId : option string;
  rf_groupId : option string;
  rf_capability : option string
}.

(** [field === undefined || entry's field === it] *)
Definition passes {A : Type} `{EqDecision A} (wanted : option A) (have : option A) : bool :=
  match wanted with None => true | Some _ => bool_decide (have = wanted) end.

Definition includes_str (s : string) (v : jsval) : bool :=
  match v with JStr s' => bool_decide (s' = s) | _ => false end.

Definition matchesFilter (entry : RegistryEntry) (filter : RegistryFilter) : bool :=
  passes (rf_phase filter) (Some (as_phase (re_status entry))) &&
  passes (rf_agentType filter) (Some (re_agentType entry)) &&
  match rf_condition filter with
  | None => true
  | Some c => bool_decide (c ∈ as_conditions (re_status entry))
  end &&
  passes (rf_parentId filter) (re_parentId entry) &&
  passes (rf_zoneId filter) (re_zoneId entry) &&
  passes (rf_groupId filter) (re_groupId entry) &&
  match rf_capability filter with
  | None => true
  | Some cap =>
      match m_get "capabilities" (re_metadata entry) with
      | Some (JArr caps) => existsb (includes_str cap) caps
      | _ => false
      end
  end.

Record ProcessDescriptor : Type := mkProcessDescriptor {
  pd_agentId : AgentId;
  pd_state : ProcessState;
  pd_conditions : list AgentCondition;
  pd_generation : Z;
  pd_registeredAt : Z;
  pd_terminationOutcome : option TerminationOutcome
}.

Definition mapRegistryEntryToDescriptor (entry : RegistryEntry) : ProcessDescriptor :=
  mkProcessDescriptor (re_agentId entry) (as_phase (re_status entry))
    (as_conditions (re_status entry)) (as_generation (re_status entry)) (re_registeredAt entry)
    (if decide (as_phase (re_status entry) = terminated)
     then mapReasonToOutcome (as_reason (re_status entry)) else None).

(** ** The in-memory registry *)

Module Reg.

Definition Store : Type := list (AgentId * RegistryEntry).

Definition with_status (e : RegistryEntry) (st : AgentStatus) : RegistryEntry :=
  mkRegistryEntry (re_agentId e) st (re_agentType e) (re_metadata e) (re_registeredAt e)
    (re_parentId e) (re_spawner e) (re_zoneId e) (re_groupId e) (re_priority e).

Definition notFound (id : AgentId) : KoiError :=
  koiError NOT_FOUND ("Agent " +:+ id +:+ " not found in registry") false.

Definition register (entry : RegistryEntry) (store : Store) : Store * list RegistryEvent :=
  (m_set (re_agentId entry) entry store, [ev_registered entry]).

Definition deregister (id : AgentId) (store : Store) : bool * Store * list RegistryEvent :=
  if m_has id store then (true, m_delete id store, [ev_deregistered id]) else (false, store, []).

Definition lookup (id : AgentId) (store : Store) : option RegistryEntry := m_get id store.

Definition list_entries (filter : option RegistryFilter) (store : Store) : list RegistryEntry :=
  match filter with
  | None => m_values store
  | Some f => base.filter (fun e => matchesFilter e f = true) (m_values store)
  end.

Definition transition (now : Z) (id : AgentId) (targetPhase : ProcessState)
    (expectedGeneration : Z) (reason : TransitionReason) (store : Store)
    : Result RegistryEntry KoiError * Store * list RegistryEvent :=
  match m_get id store with
  | None => (Err (notFound id), store, [])
  | Some current =>
      match applyTransition now (re_status current)
              (mkTransitionInput None targetPhase expectedGeneration reason) with
      | Err e => (Err e, store, [])
      | Ok status =>
          let updated := with_status current status in
          (Ok updated, m_set id updated store,
            [ev_transitioned id (as_phase (re_status current)) targetPhase
               (as_generation status) reason])
      end
  end.

Definition patch (id : AgentId) (fields : PatchableRegistryFields) (store : Store)
    : Result RegistryEntry KoiError * Store * list RegistryEvent :=
  match m_get id store with
  | None => (Err (notFound id), store, [])
  | Some current =>
      let updated :=
        mkRegistryEntry (re_agentId current) (re_status current) (re_agentType current)
          (default (re_metadata current) (pf_metadata fields)) (re_registeredAt current)
          (re_parentId current) (re_spawner current)
          (match pf_zoneId fields with Some z => Some z | None => re_zoneId current end)
          (re_groupId current) (default (re_priority current) (pf_priority fields)) in
      (Ok updated, m_set id updated store, [ev_patched id fields updated])
  end.

Definition descriptor (id : AgentId) (store : Store) : option ProcessDescriptor :=
  mapRegistryEntryToDescriptor <$> m_get id store.

(** ** Runs of registry operations *)

Inductive reg_op : Type :=
  | op_register (entry : RegistryEntry)
  | op_deregister (id : AgentId)
  | op_transition (now : Z) (id : AgentId) (to : ProcessState) (gen : Z) (reason : TransitionReason)
  | op_patch (id : AgentId) (fields : PatchableRegistryFields).

Definition run_op (store : Store) (op : reg_op) : Store * list RegistryEvent :=
  match op with
  | op_register e => register e store
  | op_deregister id => let '(_, store, evs) := deregister id store in (store, evs)
  | op_transition now id to gen reason =>
      let '(_, store, evs) := transition now id to gen reason store in (store, evs)
  | op_patch id fields => let '(_, store, evs) := patch id fields store in (store, evs)
  end.

Definition run_ops (store : Store) (ops : list reg_op) : Store * list RegistryEvent :=
  foldl (fun acc op => let '(store, evs) := run_op acc.1 op in (store, acc.2 ++ evs)) (store, []) ops.

(** The operations that rebind or drop an agent's entry. *)
Definition is_registration (id : AgentId) (op : reg_op) : Prop :=
  match op with op_register e => re_agentId e = id | _ => False end.

Definition membership (op : reg_op) : Prop :=
  match op with op_register _ | op_deregister _ => True | _ => False end.

(** *** What an operation does to one agent's entry *)

Lemma transition_spec now id to gen reason store :
  (exists cur, m_get id store = Some cur /\ as_generation (re_status cur) = gen /\
     to ∈ VALID_TRANSITIONS (as_phase (re_status cur)) /\
     let updated := with_status cur
       (mkAgentStatus to (gen + 1) (as_conditions (re_status cur)) (Some reason) now) in
     transition now id to gen reason store =
       (Ok updated, m_set id updated store,
         [ev_transitioned id (as_phase (re_status cur)) to (gen + 1) reason])) \/
  (exists e, transition now id to gen reason store = (Err e, store, []) /\
     (m_get id store = None /\ err_code e = NOT_FOUND \/
      exists cur, m_get id store = Some cur /\
        (as_generation (re_status cur) ≠ gen /\ err_code e = CONFLICT \/
         as_generation (re_status cur) = gen /\ err_code e = VALIDATION /\
           to ∉ VALID_TRANSITIONS (as_phase (re_status cur))))).
Proof.
  unfold transition. destruct (m_get id store) as [cur|] eqn:Hg; [|right; eexists; eauto].
  destruct (applyTransition _ _ _) as [st|e] eqn:Ha.
  - left. exists cur. apply applyTransition_ok in Ha as (_ & Hgen & Hto & ->). simpl in *.
    split_and!; try done. subst gen. done.
  - right. exists e. split; [done|]. right. exists cur. split; [done|].
    unfold applyTransition in Ha. cbn [ti_from ti_expectedGeneration ti_to] in Ha.
    destruct (Z.eqb_spec (as_generation (re_status cur)) gen); simpl in Ha.
    + right. destruct (validateTransition _ _) eqn:Hv; [done|]. simplify_eq.
      split_and!; [done|by eapply validateTransition_err|].
      rewrite <-validateTransition_ok, Hv. done.
    + left. split; [done|]. by injection Ha as <-.
Qed.

Lemma run_op_get store op id e :
  m_get id store = Some e -> ~ is_registration id op ->
  m_get id (run_op store op).1 = None \/
  exists e', m_get id (run_op store op).1 = Some e' /\ re_agentType e' = re_agentType e /\
    re_agentId e' = re_agentId e /\ re_parentId e' = re_parentId e /\
    (re_status e' = re_status e \/
     as_generation (re_status e') = as_generation (re_status e) + 1 /\
     as_phase (re_status e') ∈ VALID_TRANSITIONS (as_phase (re_status e))).
Proof.
  intros Hg Hreg. destruct op as [e2|id2|now id2 to gen reason|id2 fields]; simpl in *.
  - right. exists e. rewrite m_get_set_ne by done. auto 10.
  - unfold deregister. destruct (m_has id2 store); simpl; [|right; exists e; auto 10].
    destruct (decide (id2 = id)) as [->|]; [left; apply m_get_delete_eq|].
    right. exists e. rewrite m_get_delete_ne by done. auto 10.
  - right. destruct (transition_spec now id2 to gen reason store)
      as [(cur & Hc & <- & Hto & ->)|(er & -> & _)]; simpl; [|exists e; auto 10].
    destruct (decide (id2 = id)) as [->|]; [|exists e; rewrite m_get_set_ne by done; auto 10].
    rewrite Hg in Hc. injection Hc as <-. rewrite m_get_set_eq. eexists. split; [done|]. simpl.
    split_and!; auto.
  - right. unfold patch. destruct (m_get id2 store) as [cur|] eqn:Hc; simpl; [|exists e; auto 10].
    destruct (decide (id2 = id)) as [->|]; [|exists e; rewrite m_get_set_ne by done; auto 10].
    rewrite Hg in Hc. injection Hc as <-. rewrite m_get_set_eq. eexists. split; [done|]. simpl. auto.
Qed.

Lemma run_op_get_none store op id :
  m_get id store = None -> ~ is_registration id op -> m_get id (run_op store op).1 = None.
Proof.
  intros Hg Hreg. destruct op as [e2|id2|now id2 to gen reason|id2 fields]; simpl in *.
  - by rewrite m_get_set_ne.
  - unfold deregister. destruct (m_has id2 store); simpl; [|done].
    destruct (decide (id2 = id)) as [->|]; [apply m_get_delete_eq|by rewrite m_get_delete_ne].
  - destruct (transition_spec now id2 to gen reason store)
      as [(cur & Hc & <- & Hto & ->)|(er & -> & _)]; simpl; [|done].
    rewrite m_get_set_ne; [done|congruence].
  - unfold patch. destruct (m_get id2 store) as [cur|] eqn:Hc; simpl; [|done].
    rewrite m_get_set_ne; [done|congruence].
Qed.

Lemma run_op_stays store op id e :
  m_get id store = Some e -> ~ membership op -> is_Some (m_get id (run_op store op).1).
Proof.
  intros Hg Hm. destruct op as [e2|id2|now id2 to gen reason|id2 fields]; simpl in *; try tauto.
  - destruct (transition_spec now id2 to gen reason store)
      as [(cur & Hc & <- & Hto & ->)|(er & -> & _)]; simpl; [|by eexists].
    rewrite m_get_set. case_decide; eauto.
  - unfold patch. destruct (m_get id2 store) as [cur|] eqn:Hc; simpl; [|by eexists].
    rewrite m_get_set. case_decide; eauto.
Qed.

Lemma run_ops_cons store op ops :
  run_ops store (op :: ops) =
  ((run_ops (run_op store op).1 ops).1, (run_op store op).2 ++ (run_ops (run_op store op).1 ops).2).
Proof.
  unfold run_ops. simpl. destruct (run_op store op) as [st evs]. simpl. clear store op.
  revert st evs. induction ops as [|op ops IH]; intros st evs; simpl; [by rewrite app_nil_r|].
  destruct (run_op st op) as [st' evs']. rewrite (IH st' (evs ++ evs')), (IH st' evs'). simpl.
  by rewrite app_assoc.
Qed.

Lemma run_ops_snoc store ops op :
  run_ops store (ops ++ [op]) =
  ((run_op (run_ops store ops).1 op).1, (run_ops store ops).2 ++ (run_op (run_ops store ops).1 op).2).
Proof.
  unfold run_ops at 1. rewrite foldl_app. simpl. fold (run_ops store ops).
  by destruct (run_op (run_ops store ops).1 op).
Qed.

(** Phase and generation of an agent along a run that does not register it again. *)
Definition status_le (st st' : AgentStatus) : Prop :=
  st' = st \/ as_generation st < as_generation st' /\
    (as_phase st = terminated -> False).

Lemma run_ops_get ops store id e :
  m_get id store = Some e -> Forall (fun op => ~ is_registration id op) ops ->
  m_get id (run_ops store ops).1 = None \/
  exists e', m_get id (run_ops store ops).1 = Some e' /\ re_agentType e' = re_agentType e /\
    status_le (re_status e) (re_status e').
Proof.
  revert store e. induction ops as [|op ops IH]; intros store e Hg Hf; [right; exists e; by repeat split; auto; left|].
  apply Forall_cons in Hf as [Hop Hf]. rewrite run_ops_cons. simpl.
  destruct (run_op_get store op id e Hg Hop) as [Hn|(e1 & He1 & Ht & _ & _ & Hst)].
  - left. revert Hn Hf. generalize (run_op store op).1. clear. intros st. revert st.
    induction ops as [|op ops IH]; intros st Hn Hf; [done|]. apply Forall_cons in Hf as [Hop Hf].
    rewrite run_ops_cons. simpl. apply IH; [by apply run_op_get_none|done].
  - destruct (IH _ _ He1 Hf) as [?|(e2 & He2 & Ht2 & Hle)]; [by left|right].
    exists e2. split; [done|]. split; [congruence|]. unfold status_le in *.
    destruct Hst as [<-|[Hgen Hph]]; [done|]. right.
    split; [destruct Hle as [->|[? _]]; lia|].
    intros Hterm. rewrite Hterm in Hph. by apply elem_of_nil in Hph.
Qed.

(** A run that neither registers nor deregisters keeps every agent. *)
Lemma run_ops_stays ops store id e :
  m_get id store = Some e -> Forall (fun op => ~ membership op) ops ->
  exists e', m_get id (run_ops store ops).1 = Some e' /\ re_agentType e' = re_agentType e /\
    status_le (re_status e) (re_status e').
Proof.
  intros Hg Hf. destruct (run_ops_get ops store id e Hg) as [Hn|?]; [|exfalso|done].
  { eapply Forall_impl; [done|]. intros [] Hm; simpl in *; tauto. }
  revert store e Hg Hn. induction ops as [|op ops IH]; intros store e Hg Hn; [simpl in *; congruence|].
  apply Forall_cons in Hf as [Hop Hf]. rewrite run_ops_cons in Hn. simpl in Hn.
  destruct (run_op_stays store op id e Hg Hop) as [e1 He1]. by eapply IH.
Qed.

Lemma run_ops_none ops store id :
  m_get id store = None -> Forall (fun op => ~ membership op) ops ->
  m_get id (run_ops store ops).1 = None.
Proof.
  revert store. induction ops as [|op ops IH]; intros store Hg Hf; [done|].
  apply Forall_cons in Hf as [Hop Hf]. rewrite run_ops_cons. simpl. apply IH; [|done].
  apply run_op_get_none; [done|]. destruct op; simpl in *; tauto.
Qed.

End Reg.
