(* ===== verification/AgentTree.v ===== *)
(** * Listeners of the registry: process accounter and process tree

    [process-accounter.ts] counts the active processes, [process-tree.ts] keeps
    who is whose child and who spawned whom; both are folds over the events of
    the registry they watch.  The theorems relate what they say to the
    registry's own contents. *)

From S2P Require Import Prelude JsMap Lifecycle Bfs Registry.

Local Open Scope string_scope.
Local Open Scope list_scope.
Local Open Scope Z_scope.

(** ** Process accounter *)

Module Accounter.

Record State : Type := mkState { ac_count : Z; ac_decremented : list AgentId }.

Definition init : State := mkState 0 [].

Definition on_event (s : State) (event : RegistryEvent) : State :=
  match event with
  | ev_registered entry =>
      mkState (ac_count s + 1) (s_delete (re_agentId entry) (ac_decremented s))
  | ev_deregistered id =>
      mkState (if s_has id (ac_decremented s) then ac_count s else Z.max 0 (ac_count s - 1))
        (s_delete id (ac_decremented s))
  | ev_transitioned id _ terminated _ _ =>
      if s_has id (ac_decremented s) then s
      else mkState (Z.max 0 (ac_count s - 1)) (s_add id (ac_decremented s))
  | _ => s
  end.

Definition activeCount (s : State) : Z := ac_count s.
Definition increment (s : State) : State := mkState (ac_count s + 1) (ac_decremented s).
Definition decrement (s : State) : State := mkState (Z.max 0 (ac_count s - 1)) (ac_decremented s).

Definition after (events : list RegistryEvent) : State := foldl on_event init events.

End Accounter.

(** ** Process tree *)

Module Tree.

Record State : Type := mkState {
  parentMap : list (AgentId * AgentId);
  childrenMap : list (AgentId * list AgentId);
  spawnerMap : list (AgentId * AgentId)
}.

Definition init : State := mkState [] [] [].

(** [indexOf] and [splice(idx, 1)]: the first occurrence goes. *)
Fixpoint remove_first (x : AgentId) (l : list AgentId) : list AgentId :=
  match l with
  | [] => []
  | y :: l => if decide (y = x) then l else y :: remove_first x l
  end.

Definition on_registered (s : State) (agentId : AgentId) (parentId spawner : option AgentId) : State :=
  let '(parents, children) :=
    match parentId with
    | Some parent =>
        (m_set agentId parent (parentMap s),
         match m_get parent (childrenMap s) with
         | None => m_set parent [agentId] (childrenMap s)
         | Some siblings => m_set parent (siblings ++ [agentId]) (childrenMap s)
         end)
    | None => (parentMap s, childrenMap s)
    end in
  mkState parents
    (if m_has agentId children then children else m_set agentId [] children)
    (match spawner with Some sp => m_set agentId sp (spawnerMap s) | None => spawnerMap s end).

Definition on_deregistered (s : State) (agentId : AgentId) : State :=
  let '(parents, children) :=
    match m_get agentId (parentMap s) with
    | Some parent =>
        (m_delete agentId (parentMap s),
         match m_get parent (childrenMap s) with
         | Some siblings => m_set parent (remove_first agentId siblings) (childrenMap s)
         | None => childrenMap s
         end)
    | None => (parentMap s, childrenMap s)
    end in
  mkState parents (m_delete agentId children) (m_delete agentId (spawnerMap s)).

Definition on_event (s : State) (event : RegistryEvent) : State :=
  match event with
  | ev_registered e => on_registered s (re_agentId e) (re_parentId e) (re_spawner e)
  | ev_deregistered id => on_deregistered s id
  | _ => s
  end.

Definition after (events : list RegistryEvent) : State := foldl on_event init events.

Definition parentOf (s : State) (id : AgentId) : option AgentId := m_get id (parentMap s).
Definition childrenOf (s : State) (id : AgentId) : list AgentId := default [] (m_get id (childrenMap s)).
Definition size (s : State) : nat := m_size (childrenMap s).

(** The loop pushes every node it visits to [result] and always descends. *)
Definition descendantsOf (s : State) (id : AgentId) : option (list AgentId) :=
  let queue := childrenOf s id in
  fst <$> bfs (childrenOf s) (fun result current => (result ++ [current], true))
    (bfs_fuel (childrenOf s) (m_keys (childrenMap s)) queue) queue [id] [] [].

(** The loop shared by [depthOf] and [lineage]: follow a map upward until it
    ends or repeats. *)
Fixpoint chain (m : list (AgentId * AgentId)) (fuel : nat) (current : option AgentId)
    (visited : list AgentId) : option (list AgentId) :=
  match fuel with
  | O => None
  | S fuel =>
      match current with
      | None => Some visited
      | Some c =>
          if s_has c visited then Some visited
          else chain m fuel (m_get c m) (s_add c visited)
      end
  end.

Definition chain_fuel (m : list (AgentId * AgentId)) : nat := S (S (length m)).

Definition depthOf (s : State) (id : AgentId) : option nat :=
  length <$> chain (parentMap s) (chain_fuel (parentMap s)) (m_get id (parentMap s)) [].

Definition lineage (s : State) (id : AgentId) : option (list AgentId) :=
  chain (spawnerMap s) (chain_fuel (spawnerMap s)) (m_get id (spawnerMap s)) [].

End Tree.

(** ** Runs in which an agent id is registered only while it is free *)

Fixpoint fresh_run (store : Reg.Store) (ops : list Reg.reg_op) : Prop :=
  match ops with
  | [] => True
  | op :: ops =>
      match op with Reg.op_register e => m_get (re_agentId e) store = None | _ => True end /\
      fresh_run (Reg.run_op store op).1 ops
  end.

(** ... and is registered alive. *)
Definition born_alive (op : Reg.reg_op) : Prop :=
  match op with Reg.op_register e => as_phase (re_status e) ≠ terminated | _ => True end.

Definition is_live (p : AgentId * RegistryEntry) : Prop := as_phase (re_status p.2) ≠ terminated.
#[export] Instance is_live_dec p : Decision (is_live p).
Proof. unfold is_live. apply _. Defined.

Definition live_count (store : list (AgentId * RegistryEntry)) : Z := Z.of_nat (length (filter is_live store)).

Lemma fresh_run_app store ops ops' :
  fresh_run store (ops ++ ops') <-> fresh_run store ops /\ fresh_run (Reg.run_ops store ops).1 ops'.
Proof.
  revert store. induction ops as [|op ops IH]; intros store; [simpl; tauto|].
  rewrite Reg.run_ops_cons. simpl. rewrite IH. tauto.
Qed.

(** Runs are replayed one operation at a time by this rule: [Inv] relates the
    store and what a listener [h] made of the events so far. *)
Lemma run_listener {S : Type} (h : S -> RegistryEvent -> S) (s0 : S) (P : Reg.reg_op -> Prop)
    (Inv : list Reg.reg_op -> Reg.Store -> S -> Prop) ops :
  Inv [] [] s0 ->
  (forall done store s op, Inv done store s -> P op ->
     match op with Reg.op_register e => m_get (re_agentId e) store = None | _ => True end ->
     Inv (done ++ [op]) (Reg.run_op store op).1 (foldl h s (Reg.run_op store op).2)) ->
  fresh_run [] ops -> Forall P ops ->
  Inv ops (Reg.run_ops [] ops).1 (foldl h s0 (Reg.run_ops [] ops).2).
Proof.
  intros H0 Hstep. induction ops as [|op ops IH] using rev_ind; intros Hf HP; [done|].
  apply fresh_run_app in Hf as [Hf Hop]. apply Forall_app in HP as [HP Hp].
  apply Forall_cons in Hp as [Hp _]. rewrite Reg.run_ops_snoc. cbn [fst snd]. rewrite foldl_app.
  apply Hstep; [auto|done|]. by destruct Hop.
Qed.

Lemma run_op_nodup store op : NoDup (m_keys store) -> NoDup (m_keys (Reg.run_op store op).1).
Proof.
  intros Hnd. destruct op as [e|id|now id to gen r|id f]; simpl.
  - by apply NoDup_m_set.
  - unfold Reg.deregister. destruct (m_has id store); simpl; [by apply NoDup_m_delete|done].
  - destruct (Reg.transition_spec now id to gen r store) as [(cur & _ & _ & _ & ->)|(er & -> & _)];
      [by apply NoDup_m_set|done].
  - unfold Reg.patch. destruct (m_get id store); simpl; [by apply NoDup_m_set|done].
Qed.

(** *** Live agents *)

Lemma live_count_app l1 l2 : live_count (l1 ++ l2) = live_count l1 + live_count l2.
Proof. unfold live_count. rewrite filter_app, length_app. lia. Qed.

Lemma live_count_cons p l : live_count (p :: l) = (if decide (is_live p) then 1 else 0) + live_count l.
Proof. unfold live_count. rewrite filter_cons. case_decide; simpl; lia. Qed.

Lemma live_count_set store id e e' :
  NoDup (m_keys store) -> m_get id store = Some e ->
  live_count (m_set id e' store) = live_count store
    + (if decide (is_live (id, e')) then 1 else 0) - (if decide (is_live (id, e)) then 1 else 0).
Proof.
  intros Hnd Hg. destruct (m_split _ _ _ Hnd Hg) as (l1 & l2 & -> & Hs & _). rewrite Hs.
  rewrite !live_count_app, !live_count_cons. lia.
Qed.

Lemma live_count_delete store id e :
  NoDup (m_keys store) -> m_get id store = Some e ->
  live_count (m_delete id store) = live_count store - (if decide (is_live (id, e)) then 1 else 0).
Proof.
  intros Hnd Hg. destruct (m_split _ _ _ Hnd Hg) as (l1 & l2 & -> & _ & Hd). rewrite Hd.
  rewrite !live_count_app, !live_count_cons. lia.
Qed.

Lemma live_count_nonneg store : 0 <= live_count store.
Proof. unfold live_count. lia. Qed.

Lemma live_count_pos store id e :
  NoDup (m_keys store) -> m_get id store = Some e -> as_phase (re_status e) ≠ terminated ->
  1 <= live_count store.
Proof.
  intros Hnd Hg Hl. pose proof (live_count_delete _ _ _ Hnd Hg) as Hd.
  rewrite decide_True in Hd by done. pose proof (live_count_nonneg (m_delete id store)). lia.
Qed.

Definition acc_inv (store : Reg.Store) (s : Accounter.State) : Prop :=
  NoDup (m_keys store) /\ Accounter.ac_count s = live_count store /\
  (forall id, id ∈ Accounter.ac_decremented s <->
     exists e, m_get id store = Some e /\ as_phase (re_status e) = terminated).

Lemma acc_inv_set store s id e e' :
  acc_inv store s -> m_get id store = Some e ->
  (as_phase (re_status e') = terminated <-> as_phase (re_status e) = terminated) ->
  acc_inv (m_set id e' store) s.
Proof.
  intros (Hnd & Hc & Hd) Hg Hph. split_and!; [by apply NoDup_m_set| |].
  - rewrite Hc, (live_count_set _ _ _ e' Hnd Hg). unfold is_live. simpl.
    repeat case_decide; try lia; tauto.
  - intros i. rewrite Hd, m_get_set. destruct (decide (id = i)) as [<-|]; [|done].
    split; intros (x & Hx & Ht); simplify_eq; eexists; (split; [done|]); tauto.
Qed.

Lemma acc_step store s op :
  acc_inv store s -> born_alive op ->
  match op with Reg.op_register e => m_get (re_agentId e) store = None | _ => True end ->
  acc_inv (Reg.run_op store op).1 (foldl Accounter.on_event s (Reg.run_op store op).2).
Proof.
  intros Hinv Hb Hfresh. pose proof Hinv as (Hnd & Hc & Hd).
  assert (Hdec : forall id e, m_get id store = Some e ->
    s_has id (Accounter.ac_decremented s) = true <-> as_phase (re_status e) = terminated).
  { intros id e Hg. rewrite s_has_true, Hd. split; [intros (? & ? & ?); congruence|eauto]. }
  destruct op as [e|id|now id to gen r|id f]; simpl.
  - split_and!; [by apply NoDup_m_set| |]; simpl.
    + rewrite Hc, m_set_absent, live_count_app, live_count_cons by done.
      rewrite decide_True by done. unfold live_count. simpl. lia.
    + intros i. rewrite elem_of_s_delete, Hd, m_get_set.
      destruct (decide (re_agentId e = i)) as [<-|Hne].
      * split; [intros [? _]; congruence|intros (x & [= <-] & ?); done].
      * split; [intros [_ ?]; done|intros ?; split; [congruence|done]].
  - unfold Reg.deregister. destruct (m_has id store) eqn:Hh; simpl; [|done].
    apply m_has_spec in Hh as [e He]. specialize (Hdec id e He).
    split_and!; [by apply NoDup_m_delete| |]; simpl.
    + rewrite (live_count_delete _ _ _ Hnd He). pose proof (live_count_nonneg store).
      rewrite Hc. destruct (s_has id _); destruct (decide (is_live (id, e))) as [Hl|Hl]; try lia.
      * exfalso. by apply Hl, Hdec.
      * pose proof (live_count_pos _ _ _ Hnd He Hl). lia.
      * exfalso. apply Hl. intros Ht. by apply Hdec in Ht.
    + intros i. rewrite elem_of_s_delete, Hd. destruct (decide (id = i)) as [<-|Hne].
      * rewrite m_get_delete_eq. split; [tauto|intros (? & ? & _); done].
      * rewrite m_get_delete_ne by done. split; [tauto|]. intros ?. split; [congruence|done].
  - destruct (Reg.transition_spec now id to gen r store) as [(cur & Hg & _ & Hto & ->)|(er & -> & _)];
      [|done]. cbn [fst snd foldl].
    assert (Hlive : as_phase (re_status cur) ≠ terminated).
    { intros Ht. rewrite Ht in Hto. by apply elem_of_nil in Hto. }
    set (e' := Reg.with_status _ _). destruct (decide (to = terminated)) as [->|Hne].
    + simpl. destruct (s_has id _) eqn:Hh; [exfalso; by apply Hlive, (Hdec id cur)|].
      split_and!; [by apply NoDup_m_set| |]; simpl.
      * rewrite (live_count_set _ _ _ e' Hnd Hg), Hc. pose proof (live_count_pos _ _ _ Hnd Hg Hlive).
        rewrite (decide_True (P := is_live (id, cur))) by done.
        rewrite decide_False by (intros Hx; by apply Hx). lia.
      * intros i. rewrite elem_of_s_add, Hd, m_get_set.
        destruct (decide (id = i)) as [<-|Hn]; [split; [by exists e'|by left]|].
        split; [intros [?|?]; [congruence|done]|by right].
    + assert (Accounter.on_event s
        (ev_transitioned id (as_phase (re_status cur)) to (gen + 1) r) = s) as -> by (by destruct to).
      apply (acc_inv_set _ _ _ cur); [done..|]. simpl. tauto.
  - unfold Reg.patch. destruct (m_get id store) as [cur|] eqn:Hg; simpl; [|done].
    by apply (acc_inv_set _ _ _ cur).
Qed.

(** *** What the tree says *)

Lemma childrenOf_registered s id parentId spawner p :
  Tree.childrenOf (Tree.on_registered s id parentId spawner) p =
  Tree.childrenOf s p ++ (if decide (parentId = Some p) then [id] else []).
Proof.
  assert (Hensure : forall m : list (AgentId * list AgentId),
    default [] (m_get p (if m_has id m then m else m_set id [] m)) = default [] (m_get p m)).
  { intros m. destruct (m_has id m) eqn:Hh; [done|]. apply m_has_false in Hh.
    rewrite m_get_set. destruct (decide (id = p)) as [<-|]; [by rewrite Hh|done]. }
  unfold Tree.on_registered, Tree.childrenOf. destruct parentId as [q|]; simpl; rewrite Hensure.
  2:{ by rewrite app_nil_r. }
  destruct (m_get q (Tree.childrenMap s)) as [l|] eqn:Hq; rewrite m_get_set;
    destruct (decide (q = p)) as [<-|Hne].
  - rewrite Hq, decide_True by done. done.
  - rewrite decide_False by congruence. by rewrite app_nil_r.
  - rewrite Hq, decide_True by done. done.
  - rewrite decide_False by congruence. by rewrite app_nil_r.
Qed.

Lemma childrenOf_deregistered s id p :
  Tree.childrenOf (Tree.on_deregistered s id) p =
  if decide (p = id) then []
  else if decide (m_get id (Tree.parentMap s) = Some p) then Tree.remove_first id (Tree.childrenOf s p)
  else Tree.childrenOf s p.
Proof.
  assert (Hdel : forall m : list (AgentId * list AgentId),
    default [] (m_get p (m_delete id m)) = if decide (p = id) then [] else default [] (m_get p m)).
  { intros m. case_decide as Hp; [subst; by rewrite m_get_delete_eq|by rewrite m_get_delete_ne]. }
  unfold Tree.on_deregistered, Tree.childrenOf.
  destruct (m_get id (Tree.parentMap s)) as [q|]; simpl; rewrite Hdel; destruct (decide (p = id)); try done.
  destruct (m_get q (Tree.childrenMap s)) as [l|] eqn:Hq;
    destruct (decide (Some q = Some p)) as [[= <-]|Hne]; rewrite ?Hq; try done.
  - by rewrite m_get_set_eq.
  - rewrite m_get_set_ne by congruence. done.
Qed.

Lemma elem_of_remove_first x y l :
  NoDup l -> y ∈ Tree.remove_first x l <-> y ≠ x /\ y ∈ l.
Proof.
  induction l as [|z l IH]; simpl; intros Hnd; [rewrite elem_of_nil; tauto|].
  apply NoDup_cons in Hnd as [Hz Hnd]. destruct (decide (z = x)) as [->|Hne].
  - rewrite elem_of_cons. split; [|tauto]. intros Hy. split; [congruence|auto].
  - rewrite !elem_of_cons, IH by done. split; [|tauto]. intros [->|?]; tauto.
Qed.

Lemma NoDup_remove_first x l : NoDup l -> NoDup (Tree.remove_first x l).
Proof.
  induction l as [|z l IH]; simpl; [done|]. intros Hnd. pose proof Hnd as [Hz Hl]%NoDup_cons.
  case_decide; [done|]. apply NoDup_cons. split; [|auto]. rewrite elem_of_remove_first; tauto.
Qed.

(** The tree after a run [ops] that left [store]. *)
Record tree_inv (ops : list Reg.reg_op) (store : Reg.Store) (s : Tree.State) : Prop := {
  ti_parent : forall c, Tree.parentOf s c = m_get c store ≫= re_parentId;
  ti_spawner : forall c, m_get c (Tree.spawnerMap s) = m_get c store ≫= re_spawner;
  ti_nodup : forall p, NoDup (Tree.childrenOf s p);
  ti_child : forall p c, c ∈ Tree.childrenOf s p -> Tree.parentOf s c = Some p;
  ti_complete : forall p c, Reg.op_deregister p ∉ ops -> Tree.parentOf s c = Some p ->
    c ∈ Tree.childrenOf s p
}.

Lemma tree_inv_set ops store s id e e' op :
  tree_inv ops store s -> m_get id store = Some e ->
  re_parentId e' = re_parentId e -> re_spawner e' = re_spawner e ->
  tree_inv (ops ++ [op]) (m_set id e' store) s.
Proof.
  intros [Hp Hs Hn Hc Hcomp] Hg Hpe Hse. split; try done.
  - intros c. rewrite Hp, m_get_set. destruct (decide (id = c)) as [<-|]; [|done]. by rewrite Hg.
  - intros c. rewrite Hs, m_get_set. destruct (decide (id = c)) as [<-|]; [|done]. by rewrite Hg.
  - intros p c Hd. apply Hcomp. rewrite elem_of_app in Hd. tauto.
Qed.

Lemma tree_inv_more ops store s op : tree_inv ops store s -> tree_inv (ops ++ [op]) store s.
Proof.
  intros [Hp Hs Hn Hc Hcomp]. split; try done. intros p c Hd. apply Hcomp.
  rewrite elem_of_app in Hd. tauto.
Qed.

Lemma tree_inv_register ops store s e op :
  tree_inv ops store s -> m_get (re_agentId e) store = None ->
  tree_inv (ops ++ [op]) (m_set (re_agentId e) e store)
    (Tree.on_registered s (re_agentId e) (re_parentId e) (re_spawner e)).
Proof.
  intros [Hp Hs Hn Hc Hcomp] Hfree. set (id := re_agentId e) in *.
  assert (Hpid : Tree.parentOf s id = None) by (by rewrite Hp, Hfree).
  assert (Hparent : forall c, Tree.parentOf (Tree.on_registered s id (re_parentId e) (re_spawner e)) c =
    if decide (id = c) then re_parentId e else Tree.parentOf s c).
  { intros c. unfold Tree.on_registered, Tree.parentOf in *. destruct (re_parentId e); simpl.
    - by rewrite m_get_set.
    - destruct (decide (id = c)) as [<-|]; done. }
  split.
  - intros c. rewrite Hparent, m_get_set, Hp. by destruct (decide (id = c)).
  - intros c. rewrite m_get_set. pose proof (Hs id) as Hid. rewrite Hfree in Hid.
    assert (Tree.spawnerMap (Tree.on_registered s id (re_parentId e) (re_spawner e)) =
      match re_spawner e with Some sp => m_set id sp (Tree.spawnerMap s) | None => Tree.spawnerMap s end) as ->.
    { unfold Tree.on_registered. by destruct (re_parentId e). }
    destruct (re_spawner e) as [sp|] eqn:Hsp; rewrite ?m_get_set; destruct (decide (id = c)) as [<-|];
      simpl; rewrite ?Hsp; auto.
  - intros p. rewrite childrenOf_registered. case_decide; [|by rewrite app_nil_r].
    apply NoDup_app. split; [done|]. split; [|apply NoDup_singleton].
    intros x Hx ->%list_elem_of_singleton. apply Hc in Hx. congruence.
  - intros p c. rewrite childrenOf_registered, Hparent, elem_of_app.
    intros [Hx|Hx].
    + apply Hc in Hx. rewrite decide_False; [done|congruence].
    + case_decide as Hpe; [|by apply elem_of_nil in Hx].
      apply list_elem_of_singleton in Hx as ->. by rewrite decide_True.
  - intros p c Hd. rewrite childrenOf_registered, Hparent, elem_of_app.
    destruct (decide (id = c)) as [<-|].
    + intros Hpe. right. rewrite decide_True by done. by apply list_elem_of_singleton.
    + intros Hx. left. apply Hcomp; [|done]. rewrite elem_of_app in Hd. tauto.
Qed.

Lemma tree_inv_deregister ops store s id :
  tree_inv ops store s ->
  tree_inv (ops ++ [Reg.op_deregister id]) (m_delete id store) (Tree.on_deregistered s id).
Proof.
  intros [Hp Hs Hn Hc Hcomp].
  assert (Hmap : forall (c : AgentId) (f : RegistryEntry -> option AgentId) (m : list (AgentId * AgentId)),
    m_get c m = m_get c store ≫= f -> m_get c (m_delete id m) = m_get c (m_delete id store) ≫= f).
  { intros c f m Hm. destruct (decide (id = c)) as [<-|].
    - by rewrite !m_get_delete_eq.
    - by rewrite !m_get_delete_ne. }
  assert (Hparent : forall c, Tree.parentOf (Tree.on_deregistered s id) c =
    if decide (id = c) then None else Tree.parentOf s c).
  { intros c. unfold Tree.on_deregistered, Tree.parentOf.
    destruct (m_get id (Tree.parentMap s)) eqn:Hid; simpl; destruct (decide (id = c)) as [<-|Hne];
      try done; [by rewrite m_get_delete_eq|by rewrite m_get_delete_ne]. }
  split.
  - intros c. rewrite Hparent. destruct (decide (id = c)) as [<-|Hne];
      [by rewrite m_get_delete_eq|by rewrite m_get_delete_ne].
  - intros c. unfold Tree.on_deregistered. destruct (m_get id (Tree.parentMap s)); simpl; by apply Hmap.
  - intros p. rewrite childrenOf_deregistered. repeat case_decide; [apply NoDup_nil_2| |done].
    by apply NoDup_remove_first.
  - intros p c. rewrite childrenOf_deregistered, Hparent.
    case_decide; [by intros ?%elem_of_nil|]. case_decide as Hid.
    + rewrite elem_of_remove_first by done. intros [? Hx]. rewrite decide_False by done. by apply Hc.
    + intros Hx. apply Hc in Hx. rewrite decide_False; [done|]. intros ->. done.
  - intros p c Hd. rewrite elem_of_app, list_elem_of_singleton in Hd.
    rewrite childrenOf_deregistered, Hparent. destruct (decide (id = c)) as [|Hne]; [done|].
    intros Hx. apply Hcomp in Hx; [|tauto]. rewrite decide_False by (intros ->; tauto).
    case_decide; [|done]. rewrite elem_of_remove_first by done. auto.
Qed.

Lemma tree_step ops store s op :
  tree_inv ops store s ->
  match op with Reg.op_register e => m_get (re_agentId e) store = None | _ => True end ->
  tree_inv (ops ++ [op]) (Reg.run_op store op).1 (foldl Tree.on_event s (Reg.run_op store op).2).
Proof.
  intros Hinv Hfree. destruct op as [e|id|now id to gen r|id f]; simpl.
  - by apply tree_inv_register.
  - unfold Reg.deregister. destruct (m_has id store); simpl;
      [by apply tree_inv_deregister|by apply tree_inv_more].
  - destruct (Reg.transition_spec now id to gen r store) as [(cur & Hg & _ & Hto & ->)|(er & -> & _)];
      [|by apply tree_inv_more]. by eapply tree_inv_set.
  - unfold Reg.patch. destruct (m_get id store) as [cur|] eqn:Hg; simpl; [|by apply tree_inv_more].
    by eapply tree_inv_set.
Qed.

(** *** Walking up *)

(** [l] is the walk upward from [cur]; [walk_end] is where it stands after it. *)
Fixpoint up_walk (m : list (AgentId * AgentId)) (cur : option AgentId) (l : list AgentId) : Prop :=
  match l with
  | [] => True
  | x :: l => cur = Some x /\ up_walk m (m_get x m) l
  end.

Fixpoint walk_end (m : list (AgentId * AgentId)) (cur : option AgentId) (l : list AgentId) : option AgentId :=
  match l with
  | [] => cur
  | x :: l => walk_end m (m_get x m) l
  end.

Lemma up_walk_snoc m cur l x :
  up_walk m cur (l ++ [x]) <-> up_walk m cur l /\ walk_end m cur l = Some x.
Proof. revert cur. induction l as [|y l IH]; intros cur; simpl; [tauto|]. rewrite IH. tauto. Qed.

Lemma walk_end_snoc m cur l x : walk_end m cur (l ++ [x]) = m_get x m.
Proof. revert cur. induction l as [|y l IH]; intros cur; simpl; auto. Qed.

Lemma up_walk_values m cur l x : up_walk m cur l -> x ∈ l -> Some x = cur \/ x ∈ m_values m.
Proof.
  revert cur. induction l as [|y l IH]; intros cur; [by intros _ ?%elem_of_nil|].
  intros [-> Hw] [->|Hx]%elem_of_cons; [by left|]. right. destruct (IH _ Hw Hx) as [He|?]; [|done].
  symmetry in He. apply m_get_elem in He. apply list_elem_of_fmap. by exists (y, x).
Qed.

Lemma chain_loop m cur fuel : forall visited,
  (length m + 2 <= fuel + length visited)%nat -> up_walk m cur visited -> NoDup visited ->
  (forall x, cur = Some x -> x ∈ m_values m) ->
  exists l, Tree.chain m fuel (walk_end m cur visited) visited = Some l /\
    up_walk m cur l /\ NoDup l /\ (forall x, walk_end m cur l = Some x -> x ∈ l).
Proof.
  induction fuel as [|fuel IH]; intros visited Hf Hw Hnd Hcur.
  - exfalso. assert (Hsub : visited ⊆ m_values m).
    { intros x Hx. destruct (up_walk_values _ _ _ _ Hw Hx) as [He|?]; [by apply Hcur|done]. }
    pose proof (submseteq_length _ _ (NoDup_submseteq _ _ Hnd Hsub)) as Hl2.
    unfold m_values in Hl2. rewrite length_fmap in Hl2. simpl in Hf. lia.
  - cbn [Tree.chain]. destruct (walk_end m cur visited) as [c|] eqn:He.
    2:{ exists visited. split_and!; [done..|]. congruence. }
    destruct (s_has c visited) eqn:Hv.
    { exists visited. split_and!; [done..|]. intros x Hx. rewrite He in Hx. injection Hx as <-.
      by apply s_has_true. }
    apply s_has_false in Hv. unfold s_add. rewrite decide_False by done.
    rewrite <-(walk_end_snoc m cur visited c). apply IH; [| | |done].
    + rewrite length_app. simpl. lia.
    + by apply up_walk_snoc.
    + apply NoDup_app. split; [done|]. split; [|apply NoDup_singleton].
      by intros x Hx ->%list_elem_of_singleton.
Qed.

Lemma chain_spec (m : list (AgentId * AgentId)) id :
  exists l, Tree.chain m (Tree.chain_fuel m) (m_get id m) [] = Some l /\
    up_walk m (m_get id m) l /\ NoDup l /\ (forall x, walk_end m (m_get id m) l = Some x -> x ∈ l).
Proof.
  apply (chain_loop m (m_get id m) _ []).
  - unfold Tree.chain_fuel. simpl. lia.
  - done.
  - apply NoDup_nil_2.
  - intros x Hx. apply m_get_elem in Hx. apply list_elem_of_fmap. by exists (id, x).
Qed.

(** ** The claims *)

(** A generation of an agent is won at most once: after a transition that
    succeeded against generation [g], and whatever operations follow other than
    registering the agent anew, every transition that still expects [g] is
    refused with [CONFLICT] (or [NOT_FOUND] once deregistered) and changes and
    announces nothing.  A terminated agent refuses every transition. *)
Lemma generation_won_once (store : Reg.Store) now1 now2 id to1 to2 g r1 r2 e store' evs ops :
  Reg.transition now1 id to1 g r1 store = (Ok e, store', evs) ->
  Forall (fun op => ~ Reg.is_registration id op) ops ->
  let later := (Reg.run_ops store' ops).1 in
  (exists err, Reg.transition now2 id to2 g r2 later = (Err err, later, []) /\
     (err_code err = CONFLICT \/ m_get id later = None /\ err_code err = NOT_FOUND)) /\
  (to1 = terminated -> forall g', exists err,
     Reg.transition now2 id to2 g' r2 later = (Err err, later, [])).
Proof.
  intros Hwin Hops later.
  assert (Hwon : m_get id store' = Some e /\ as_generation (re_status e) = g + 1 /\
    as_phase (re_status e) = to1).
  { destruct (Reg.transition_spec now1 id to1 g r1 store) as [(cur & Hg & Hgen & Hto & Heq)|(er & Heq & _)];
      rewrite Heq in Hwin; [|done]. injection Hwin as <- <- _. by rewrite m_get_set_eq. }
  clear Hwin. destruct Hwon as (Hwon & Hgen & Hph).
  destruct (Reg.run_ops_get ops _ id _ Hwon Hops) as [Hn|(e' & He' & _ & Hle)];
    fold later in Hn || fold later in He'.
  { assert (forall g', exists err, Reg.transition now2 id to2 g' r2 later = (Err err, later, []) /\
      err_code err = NOT_FOUND) as Hall.
    { intros g'. unfold Reg.transition. rewrite Hn. by eexists. }
    split; [|intros _ g']; [destruct (Hall g) as (er & ? & ?)|destruct (Hall g') as (er & ? & ?)];
      exists er; auto. }
  assert (Hgen' : as_generation (re_status e') ≠ g) by (destruct Hle as [->|[? _]]; lia).
  split.
  - destruct (Reg.transition_spec now2 id to2 g r2 later)
      as [(cur2 & Hg2 & Hgen2 & _)|(er & -> & Hcase)]; [congruence|].
    exists er. split; [done|].
    destruct Hcase as [?|(cur2 & Hg2 & [[_ ?]|[Hgen2 _]])]; [by right|by left|congruence].
  - intros -> g'. destruct Hle as [Hst|[_ []]]; [|done].
    destruct (Reg.transition_spec now2 id to2 g' r2 later)
      as [(cur2 & Hg2 & _ & Hto2 & _)|(er & Heq2 & _)]; [|by exists er].
    rewrite He' in Hg2. injection Hg2 as <-. rewrite Hst, Hph in Hto2. by apply elem_of_nil in Hto2.
Qed.

(** In a run that registers an agent id only while it is free, and alive,
    the accounter's count is exactly the number of registered agents that are
    not terminated. *)
Lemma accounter_exact (ops : list Reg.reg_op) :
  fresh_run [] ops -> Forall born_alive ops ->
  let '(store, events) := Reg.run_ops [] ops in
  Accounter.activeCount (Accounter.after events) = live_count store.
Proof.
  intros Hf Hb. destruct (Reg.run_ops [] ops) as [store events] eqn:Hr.
  pose proof (run_listener Accounter.on_event Accounter.init born_alive
    (fun _ store s => acc_inv store s) ops) as Hinv.
  rewrite Hr in Hinv. simpl in Hinv.
  destruct Hinv as (_ & Hc & _); [| |done|done|done].
  - split_and!; [apply NoDup_nil_2|done|]. simpl. intros id. rewrite elem_of_nil. split; [done|by intros (? & ? & _)].
  - intros dn st s op H1 H2 H3. by apply acc_step.
Qed.

(** Registering an id that is still registered counts the agent twice: the
    registry replaces the entry, the accounter adds one, and removing the agent
    leaves a phantom process in the count. *)
Theorem accounter_recount_phantom :
  exists (e : RegistryEntry),
    let '(store, events) := Reg.run_ops [] [Reg.op_register e; Reg.op_register e] in
    let '(store', events') := Reg.run_ops store [Reg.op_deregister (re_agentId e)] in
    live_count store = 1 /\ Accounter.activeCount (Accounter.after events) = 2 /\
    store' = [] /\ Accounter.activeCount (Accounter.after (events ++ events')) = 1.
Proof.
  exists (mkRegistryEntry "a" (mkAgentStatus running 0 [] None 0) worker [] 0 None None None None 10).
  by vm_compute.
Qed.

(** In a run that registers an agent id only while it is free, the tree
    agrees with the registry: [parentOf] and the spawner are those of the
    registered entry, [childrenOf] lists distinct agents whose registered
    parent is the one asked for, and lists all of them unless that parent was
    itself deregistered at some point. *)
Lemma tree_consistent (ops : list Reg.reg_op) :
  fresh_run [] ops ->
  let '(store, events) := Reg.run_ops [] ops in
  let s := Tree.after events in
  (forall c, Tree.parentOf s c = m_get c store ≫= re_parentId) /\
  (forall c, m_get c (Tree.spawnerMap s) = m_get c store ≫= re_spawner) /\
  (forall p, NoDup (Tree.childrenOf s p)) /\
  (forall p c, c ∈ Tree.childrenOf s p ->
     exists e, m_get c store = Some e /\ re_parentId e = Some p) /\
  (forall p c e, Reg.op_deregister p ∉ ops -> m_get c store = Some e -> re_parentId e = Some p ->
     c ∈ Tree.childrenOf s p).
Proof.
  intros Hf. destruct (Reg.run_ops [] ops) as [store events] eqn:Hr.
  pose proof (run_listener Tree.on_event Tree.init (fun _ => True) tree_inv ops) as Hinv.
  rewrite Hr in Hinv. simpl in Hinv. destruct Hinv as [Hp Hs Hn Hc Hcomp].
  - split; try done; [intros p; apply NoDup_nil_2|intros p c Hx; by apply elem_of_nil in Hx].
  - intros dn st s op H1 _ H3. by apply tree_step.
  - done.
  - by apply Forall_true.
  - split_and!; try done.
    + intros p c Hx. apply Hc in Hx. rewrite Hp in Hx. by apply bind_Some in Hx.
    + intros p c e Hd He Hpe. apply Hcomp; [done|]. fold (Tree.after events). rewrite Hp, He. done.
Qed.

(** Ancestry queries terminate and are exact on any tree, cyclic ones
    included: [descendantsOf] lists without repetition exactly the other agents
    reachable through children, and [lineage] is the walk up the spawner
    chain, without repetition, until the chain ends or closes a cycle;
    [depthOf] counts that walk over parents. *)
Lemma ancestry_exact (s : Tree.State) (id : AgentId) :
  (exists l, Tree.descendantsOf s id = Some l /\ NoDup l /\
     forall c, c ∈ l <-> c ≠ id /\ tc (fun p c => c ∈ Tree.childrenOf s p) id c) /\
  (exists l, Tree.lineage s id = Some l /\ up_walk (Tree.spawnerMap s) (m_get id (Tree.spawnerMap s)) l /\
     NoDup l /\ forall x, walk_end (Tree.spawnerMap s) (m_get id (Tree.spawnerMap s)) l = Some x -> x ∈ l) /\
  (exists l, Tree.depthOf s id = Some (length l) /\ up_walk (Tree.parentMap s) (Tree.parentOf s id) l /\
     NoDup l /\ forall x, walk_end (Tree.parentMap s) (Tree.parentOf s id) l = Some x -> x ∈ l).
Proof.
  split_and!.
  - unfold Tree.descendantsOf.
    destruct (bfs_spec (Tree.childrenOf s) (fun result current => (result ++ [current], true))
      (fun log result => result = log.*1 /\ Forall (fun p => p.2 = true) log)) with
      (univ := m_keys (Tree.childrenMap s)) (root := id) (queue := Tree.childrenOf s id) (s := @nil AgentId)
      as (res & log & -> & [Hnd Hfresh Hq Hn Hr] & -> & Hall).
    + intros log st k [-> Ha] _. simpl. rewrite fmap_app. split; [done|].
      apply Forall_app. split; [done|]. by apply Forall_singleton.
    + intros k Hk. apply elem_of_m_keys. unfold Tree.childrenOf in Hk.
      destruct (m_get k _) as [l|]; [by exists l|done].
    + split; [done|apply Forall_nil_2].
    + exists log.*1. split; [done|]. split; [done|]. intros c. split.
      * intros Hc. split; [intros ->; apply (Hfresh id Hc); by apply list_elem_of_singleton|].
        apply Hr in Hc. induction Hc as [k Hk|k c Hd IH Hk Hc]; [by apply tc_once|].
        eapply tc_r; [exact IH|exact Hc].
      * intros [Hne Htc]. assert (c = id \/ c ∈ log.*1) as [?|?]; [|done|done].
        apply (tc_closed (fun p c => c ∈ Tree.childrenOf s p) (fun x => x = id \/ x ∈ log.*1) id c);
          [|done|by left]. clear c Hne Htc. intros x y Hx Hy. cbn beta in Hx, Hy |- *.
        destruct (decide (y = id)) as [|Hyi]; [by left|]. right.
        assert (Hyr : y ∉ [id]) by (by intros ->%list_elem_of_singleton).
        destruct Hx as [->|Hx]; [by apply Hq|]. apply list_elem_of_fmap in Hx as ([x' d] & -> & Hx).
        apply (Hn x' y); [|done|done]. rewrite Forall_forall in Hall. specialize (Hall _ Hx).
        simpl in Hall. by subst d.
  - apply chain_spec.
  - unfold Tree.depthOf, Tree.parentOf. destruct (chain_spec (Tree.parentMap s) id) as (l & -> & ?).
    by exists l.
Qed.

(** ** Concrete runs *)

Definition sample_entry (id : AgentId) (parent : option AgentId) (ty : AgentType) : RegistryEntry :=
  mkRegistryEntry id (mkAgentStatus running 0 [Ready] None 0) ty [] 0 parent parent None None 10.

(** A supervisor, its worker and a copilot; the worker is then terminated and
    the copilot leaves. *)
Definition sample_ops : list Reg.reg_op :=
  [ Reg.op_register (sample_entry "root" None worker);
    Reg.op_register (sample_entry "w" (Some "root") worker);
    Reg.op_register (sample_entry "c" (Some "root") copilot);
    Reg.op_transition 5 "w" terminated 0 tr_completed;
    Reg.op_deregister "c" ].

Lemma sample_fresh : fresh_run [] sample_ops.
Proof. by vm_compute. Qed.

Lemma sample_born : Forall born_alive sample_ops.
Proof. unfold sample_ops. repeat (apply Forall_cons; split; [done|]). apply Forall_nil_2. Qed.

Definition sample_store : Reg.Store := (Reg.run_ops [] (take 3 sample_ops)).1.

Definition sample_won : Reg.Store := (Reg.run_ops sample_store [Reg.op_transition 5 "w" terminated 0 tr_completed]).1.
Definition sample_later : Reg.Store := (Reg.run_ops sample_won [Reg.op_deregister "c"]).1.

Lemma generation_won_once_witness :
  exists err, Reg.transition 9 "w" suspended 0 tr_signal_stop sample_later = (Err err, sample_later, []) /\
    (err_code err = CONFLICT \/ m_get "w" sample_later = None /\ err_code err = NOT_FOUND).
Proof.
  apply (generation_won_once sample_store 5 9 "w" terminated suspended 0 tr_completed tr_signal_stop
    (Reg.with_status (sample_entry "w" (Some "root") worker)
      (mkAgentStatus terminated 1 [Ready] (Some tr_completed) 5)) sample_won
    [ev_transitioned "w" running terminated 1 tr_completed] [Reg.op_deregister "c"]).
  - vm_compute. reflexivity.
  - apply Forall_singleton. vm_compute. tauto.
Defined.

Lemma accounter_exact_witness :
  let '(store, events) := Reg.run_ops [] sample_ops in
  Accounter.activeCount (Accounter.after events) = live_count store.
Proof. exact (accounter_exact sample_ops sample_fresh sample_born). Defined.

Lemma tree_consistent_witness :
  "w" ∈ Tree.childrenOf (Tree.after (Reg.run_ops [] sample_ops).2) "root".
Proof.
  apply (proj2 (proj2 (proj2 (proj2 (tree_consistent sample_ops sample_fresh)))) "root" "w"
    (Reg.with_status (sample_entry "w" (Some "root") worker)
      (mkAgentStatus terminated 1 [Ready] (Some tr_completed) 5))).
  - intros Hin. repeat (apply elem_of_cons in Hin as [Hin|Hin]; [discriminate|]). by apply elem_of_nil in Hin.
  - vm_compute. reflexivity.
  - reflexivity.
Defined.
