(* ===== verification/Cascade.v ===== *)
(** * Cascading termination

    [kernel/engine-reconcile/src/cascading-termination.ts]: when an agent
    terminates, its descendants are terminated too, breadth first, except
    copilots and what lies below them.  Each node takes two awaits, between
    which anyone may act on the registry; what the others do is a script of
    batches of registry operations, one batch per await.  The batches contain
    no registration and no deregistration, so that the process tree the loop
    reads is fixed while it runs. *)

From S2P Require Import Prelude JsMap Lifecycle Bfs Registry AgentTree.

Local Open Scope string_scope.
Local Open Scope list_scope.

Definition MAX_CAS_RETRIES : nat := 3.

Inductive verdict : Type := Skip | Descend.

Definition descends (v : verdict) : bool := match v with Descend => true | Skip => false end.

(** The registry, what the others will do at the coming awaits, and the events
    the cascade itself caused. *)
Record World : Type := mkWorld {
  w_store : Reg.Store;
  w_script : list (list Reg.reg_op);
  w_events : list RegistryEvent
}.

(** An await: the next batch of the script runs. *)
Definition await (w : World) : World :=
  match w_script w with
  | [] => w
  | ops :: script => mkWorld (Reg.run_ops (w_store w) ops).1 script (w_events w)
  end.

(** [for (attempt = 0; attempt < MAX_CAS_RETRIES; attempt++)], with the number
    of attempts left. *)
Fixpoint attempt_terminate (now : Z) (attempts : nat) (w : World) (childId : AgentId)
    : World * verdict :=
  match attempts with
  | O => (w, Skip)
  | S attempts =>
      let entry := Reg.lookup childId (w_store w) in
      let w := await w in
      match entry with
      | None => (w, Skip)
      | Some e =>
          if decide (re_agentType e = copilot) then (w, Skip)
          else if decide (as_phase (re_status e) = terminated) then (w, Descend)
          else
            let '(result, store, evs) :=
              Reg.transition now childId terminated (as_generation (re_status e)) tr_evicted
                (w_store w) in
            let w := await (mkWorld store (w_script w) (w_events w ++ evs)) in
            match result with
            | Ok _ => (w, Descend)
            | Err error =>
                if decide (err_code error = CONFLICT) then attempt_terminate now attempts w childId
                else (w, Skip)
            end
      end
  end.

Definition tryTerminateDescendant (now : Z) (w : World) (childId : AgentId) : World * bool :=
  let '(w, v) := attempt_terminate now MAX_CAS_RETRIES w childId in (w, descends v).

Definition cascadeTerminate (now : Z) (tree : Tree.State) (w : World) (terminatedAgentId : AgentId)
    : option (World * list (AgentId * bool)) :=
  let queue := Tree.childrenOf tree terminatedAgentId in
  bfs (Tree.childrenOf tree) (tryTerminateDescendant now)
    (bfs_fuel (Tree.childrenOf tree) (m_keys (Tree.childrenMap tree)) queue) queue
    [terminatedAgentId] w [].

(** The watch callback: terminal transitions of agents whose failure is not
    left to a supervisor start a cascade. *)
Definition on_event (now : Z) (tree : Tree.State) (isSupervised : option (AgentId -> bool))
    (w : World) (event : RegistryEvent) : option (World * list (AgentId * bool)) :=
  match event with
  | ev_transitioned id _ terminated _ _ =>
      if match isSupervised with Some f => f id | None => false end then Some (w, [])
      else cascadeTerminate now tree w id
  | _ => Some (w, [])
  end.

(** ** One descendant *)

Definition quiet_membership (w : World) : Prop :=
  Forall (Forall (fun op => ~ Reg.membership op)) (w_script w).

(** How many batches of the script still contain anything. *)
Definition disturbances (w : World) : nat := length (filter (fun ops => ops ≠ []) (w_script w)).

(** Everybody keeps an entry of the same type, and no status goes back. *)
Definition grows (w w' : World) : Prop :=
  (forall id, m_get id (w_store w) = None -> m_get id (w_store w') = None) /\
  (forall id e, m_get id (w_store w) = Some e -> exists e', m_get id (w_store w') = Some e' /\
     re_agentType e' = re_agentType e /\ Reg.status_le (re_status e) (re_status e')).

Lemma status_le_trans s1 s2 s3 : Reg.status_le s1 s2 -> Reg.status_le s2 s3 -> Reg.status_le s1 s3.
Proof.
  unfold Reg.status_le. intros [->|[H1 N1]] [->|[H2 N2]]; auto; right; split; auto; lia.
Qed.

Lemma grows_refl w : grows w w.
Proof. split; [done|]. intros id e He. exists e. repeat split; [done|by left]. Qed.

Lemma grows_trans w1 w2 w3 : grows w1 w2 -> grows w2 w3 -> grows w1 w3.
Proof.
  intros [Hn1 H1] [Hn2 H2]. split; [auto|]. intros id e He.
  destruct (H1 id e He) as (e1 & He1 & Ht1 & Hl1). destruct (H2 id e1 He1) as (e2 & He2 & Ht2 & Hl2).
  exists e2. split; [done|]. split; [congruence|by eapply status_le_trans].
Qed.

Lemma grows_terminated w w' id e :
  grows w w' -> m_get id (w_store w) = Some e -> as_phase (re_status e) = terminated ->
  exists e', m_get id (w_store w') = Some e' /\ re_status e' = re_status e.
Proof.
  intros [_ H] He Ht. destruct (H id e He) as (e' & He' & _ & [Hs|[_ Hs]]); [|by destruct Hs].
  by exists e'.
Qed.

(** An await: others act, and a quiet batch changes nothing. *)
Lemma await_spec w :
  quiet_membership w ->
  grows w (await w) /\ quiet_membership (await w) /\ w_events (await w) = w_events w /\
  (w_store (await w) = w_store w /\ disturbances (await w) = disturbances w \/
   disturbances w = S (disturbances (await w))).
Proof.
  unfold quiet_membership, await, disturbances. intros Hq. destruct w as [store [|ops script] evs]; simpl in *.
  { split; [apply grows_refl|]. auto. }
  apply Forall_cons in Hq as [Hops Hq]. split; [|split; [done|split; [done|]]].
  - split; simpl; [intros id Hn; by apply Reg.run_ops_none|]. intros id e He. by apply Reg.run_ops_stays.
  - rewrite filter_cons. case_decide as Hne; simpl; [by right|left].
    by destruct ops.
Qed.

Lemma transition_grows now id gen r store script evs evs' e store' :
  Reg.transition now id terminated gen r store = (Ok e, store', evs') ->
  grows (mkWorld store script evs) (mkWorld store' script (evs ++ evs')) /\
  exists e', m_get id store' = Some e' /\ as_phase (re_status e') = terminated.
Proof.
  intros Ht. destruct (Reg.transition_spec now id terminated gen r store)
    as [(cur & Hg & Hgen & Hto & Heq)|(er & Heq & _)]; rewrite Heq in Ht; [|done].
  injection Ht as <- <- _. split.
  - split; simpl.
    + intros i Hi. rewrite m_get_set_ne; [done|congruence].
    + intros i e1 He1. rewrite m_get_set. destruct (decide (id = i)) as [<-|].
      * rewrite Hg in He1. injection He1 as <-. eexists. split; [done|]. split; [done|]. right.
        simpl. split; [lia|]. intros Hx. rewrite Hx in Hto. by apply elem_of_nil in Hto.
      * exists e1. repeat split; [done|by left].
  - rewrite m_get_set_eq. by eexists.
Qed.

(** What one attempt loop achieves: descending means the child is terminated;
    skipping a registered worker means that every attempt was disturbed. *)
Record attempted (w w' : World) (attempts : nat) (id : AgentId) (v : verdict) : Prop := {
  at_grows : grows w w';
  at_quiet : quiet_membership w';
  at_less : disturbances w' <= disturbances w;
  at_descend : v = Descend ->
    exists e, m_get id (w_store w') = Some e /\ re_agentType e = worker /\
      as_phase (re_status e) = terminated;
  at_skip : v = Skip -> m_get id (w_store w') = None \/
    (exists e, m_get id (w_store w') = Some e /\ re_agentType e = copilot) \/
    attempts + disturbances w' <= disturbances w
}.

Lemma attempt_terminate_spec now attempts : forall w id,
  quiet_membership w ->
  let '(w', v) := attempt_terminate now attempts w id in attempted w w' attempts id v.
Proof.
  induction attempts as [|attempts IH]; intros w id Hq; cbn [attempt_terminate].
  { split; try done; [apply grows_refl|]. intros _. right. right. lia. }
  destruct (await_spec w Hq) as (Hg & Hq1 & _ & Hd).
  unfold Reg.lookup. destruct (m_get id (w_store w)) as [e|] eqn:He.
  2:{ split; try done; [destruct Hd; lia|]. intros _. left. by apply Hg. }
  destruct (proj2 Hg id e He) as (e1 & He1 & Hty & Hle).
  destruct (decide (re_agentType e = copilot)) as [Hc|Hc].
  { split; try done; [destruct Hd; lia|]. intros _. right. left. exists e1. split; [done|congruence]. }
  assert (Hw : re_agentType e = worker) by (by destruct (re_agentType e)).
  destruct (decide (as_phase (re_status e) = terminated)) as [Ht|Ht].
  { split; try done; [destruct Hd; lia|]. intros _. exists e1.
    split; [done|]. split; [congruence|]. destruct Hle as [->|[_ []]]; done. }
  set (w1 := await w) in *.
  destruct (Reg.transition now id terminated (as_generation (re_status e)) tr_evicted (w_store w1))
    as [[result store] evs] eqn:Htr.
  set (w2 := mkWorld store (w_script w1) (w_events w1 ++ evs)).
  assert (Hq2 : quiet_membership w2) by done.
  destruct (await_spec w2 Hq2) as (Hg3 & Hq3 & _ & Hd3).
  assert (Hd2 : disturbances w2 = disturbances w1) by done.
  destruct result as [e2|error].
  - destruct w1 as [store1 script1 evs1] eqn:Hw1. simpl in *.
    destruct (transition_grows _ _ _ _ _ script1 evs1 _ _ _ Htr) as [Hg2 (e3 & He3 & Ht3)].
    assert (Hgw : grows w w2) by (by eapply grows_trans).
    assert (Hgw3 : grows w (await w2)) by (by eapply grows_trans).
    split; try done; [destruct Hd, Hd3; lia|]. intros _.
    destruct (proj2 Hgw3 id e He) as (e4 & He4 & Hty4 & _).
    destruct (grows_terminated w2 (await w2) id e3 Hg3 He3 Ht3) as (e5 & He5 & Hs5).
    exists e4. split; [done|]. split; [congruence|]. congruence.
  - assert (store = w_store w1 /\ evs = [] /\ (err_code error = CONFLICT /\ re_status e1 ≠ re_status e)) as (-> & -> & Hconf & Hch).
    { destruct (Reg.transition_spec now id terminated (as_generation (re_status e)) tr_evicted (w_store w1))
        as [(cur & _ & _ & _ & Heq)|(er & Heq & Hcase)]; rewrite Heq in Htr; [done|].
      injection Htr as <- <- <-. split_and!; try done.
      all: destruct Hcase as [[? _]|(cur & Hcur & Hcase)]; [congruence|].
      all: rewrite He1 in Hcur; injection Hcur as <-; destruct Hcase as [[Hgen ?]|(Hgen & _ & Hno)];
        [try done; congruence|exfalso].
      all: destruct Hle as [Hs|[Hs _]]; [|lia]; rewrite Hs in Hno; apply Hno; by apply terminate_allowed. }
    rewrite decide_True by done.
    assert (Hdist : disturbances w = S (disturbances w1)).
    { destruct Hd as [[Hs _]|?]; [|done]. rewrite Hs, He in He1. by injection He1 as <-. }
    specialize (IH (await w2) id Hq3). destruct (attempt_terminate now attempts (await w2) id) as [w4 v].
    destruct IH as [H1 H2 H3 H4 H5].
    assert (Hg2 : grows w1 w2) by (split; [done|]; intros i ei Hi; exists ei; repeat split; [done|by left]).
    split; [|done| |done|].
    + exact (grows_trans _ _ _ Hg (grows_trans _ _ _ Hg2 (grows_trans _ _ _ Hg3 H1))).
    + destruct Hd3; lia.
    + intros Hv. destruct (H5 Hv) as [?|[?|?]]; [by left|by right; left|right; right]. destruct Hd3; lia.
Qed.

(** When nobody interferes, an attempt touches no agent but the child it
    terminates. *)
Lemma await_quiet w : disturbances w = 0 -> quiet_membership w ->
  w_store (await w) = w_store w /\ disturbances (await w) = 0 /\ quiet_membership (await w).
Proof. intros Hz Hq. destruct (await_spec w Hq) as (_ & Hq' & _ & [[? ?]|?]); [|lia]. split_and!; congruence. Qed.

Lemma attempt_terminate_quiet now attempts : forall w id,
  disturbances w = 0 -> quiet_membership w ->
  let '(w', v) := attempt_terminate now attempts w id in
  forall other, (v = Descend -> other ≠ id) -> m_get other (w_store w') = m_get other (w_store w).
Proof.
  induction attempts as [|attempts IH]; intros w id Hz Hq; cbn [attempt_terminate]; [done|].
  destruct (await_quiet w Hz Hq) as (Hs1 & Hz1 & Hq1).
  destruct (Reg.lookup id (w_store w)) as [e|]; [|by rewrite Hs1].
  repeat (case_decide; [by rewrite Hs1|]).
  destruct (Reg.transition _ _ _ _ _ _) as [[result store] evs] eqn:Htr.
  set (w2 := mkWorld store _ _). destruct (await_quiet w2 Hz1 Hq1) as (Hs2 & Hz2 & Hq2).
  destruct (Reg.transition_spec now id terminated (as_generation (re_status e)) tr_evicted (w_store (await w)))
    as [(cur & _ & _ & _ & Heq)|(er & Heq & _)]; rewrite Heq in Htr; injection Htr as <- <- <-.
  - intros other Ho. rewrite Hs2. simpl. rewrite m_get_set_ne; [by rewrite Hs1|]. intros ->. by apply Ho.
  - case_decide; [|by rewrite Hs2; simpl; rewrite Hs1].
    specialize (IH (await w2) id Hz2 Hq2). destruct (attempt_terminate _ _ _ _) as [w4 v].
    intros other Ho. rewrite (IH other Ho), Hs2. simpl. by rewrite Hs1.
Qed.

(** ** The whole cascade *)

(** Below [root] through registered workers only. *)
Definition is_worker (store : Reg.Store) (id : AgentId) : Prop :=
  exists e, m_get id store = Some e /\ re_agentType e = worker.

Inductive worker_below (tree : Tree.State) (store : Reg.Store) (root : AgentId) : AgentId -> Prop :=
  | worker_child c : c ∈ Tree.childrenOf tree root -> c ≠ root -> is_worker store c ->
      worker_below tree store root c
  | worker_grandchild p c : worker_below tree store root p -> c ∈ Tree.childrenOf tree p ->
      c ≠ root -> is_worker store c -> worker_below tree store root c.

(** The loop invariant, for a cascade that started in [w0]. *)
Record cascade_inv (w0 : World) (log : list (AgentId * bool)) (w : World) : Prop := {
  ci_grows : grows w0 w;
  ci_quiet : quiet_membership w;
  ci_less : disturbances w <= disturbances w0;
  ci_descend : forall k, (k, true) ∈ log -> exists e, m_get k (w_store w) = Some e /\
     re_agentType e = worker /\ as_phase (re_status e) = terminated;
  ci_skip : forall k, (k, false) ∈ log -> is_worker (w_store w0) k -> MAX_CAS_RETRIES <= disturbances w0;
  ci_untouched : disturbances w0 = 0 -> forall k, (k, true) ∉ log ->
     m_get k (w_store w) = m_get k (w_store w0)
}.

Lemma grows_worker w w' k : grows w w' -> is_worker (w_store w) k <-> is_worker (w_store w') k.
Proof.
  intros [Hn Hs]. split.
  - intros (e & He & Ht). destruct (Hs k e He) as (e' & ? & ? & _). exists e'. split; congruence.
  - intros (e & He & Ht). destruct (m_get k (w_store w)) as [e0|] eqn:He0.
    + destruct (Hs k e0 He0) as (e' & ? & ? & _). exists e0. split; congruence.
    + apply Hn in He0. congruence.
Qed.

Lemma cascade_step now w0 log w k :
  cascade_inv w0 log w -> k ∉ log.*1 ->
  cascade_inv w0 (log ++ [(k, (tryTerminateDescendant now w k).2)]) (tryTerminateDescendant now w k).1.
Proof.
  intros [Hg Hq Hl Hd Hs Hu] Hk. unfold tryTerminateDescendant.
  pose proof (attempt_terminate_spec now MAX_CAS_RETRIES w k Hq) as Hat.
  pose proof (attempt_terminate_quiet now MAX_CAS_RETRIES w k) as Hqu.
  destruct (attempt_terminate now MAX_CAS_RETRIES w k) as [w' v]. destruct Hat as [Ag Aq Al Ad As].
  simpl. split; [by eapply grows_trans|done|lia| | |].
  - intros x. rewrite elem_of_app, list_elem_of_singleton. intros [Hx|[= -> Hv]].
    + destruct (Hd x Hx) as (e & He & Ht & Hp).
      destruct (proj2 Ag x e He) as (e' & He' & Ht' & [Hs'|[_ []]]); [|done].
      exists e'. split; [done|]. split; congruence.
    + apply Ad. by destruct v.
  - intros x. rewrite elem_of_app, list_elem_of_singleton. intros [Hx|[= -> Hv]]; [by apply Hs|].
    intros Hw. apply (grows_worker w0 w') in Hw as (e & He & Ht); [|by eapply grows_trans].
    destruct As as [?|[(e' & ? & ?)|?]]; [by destruct v|congruence|congruence|lia].
  - intros Hz x Hx. rewrite elem_of_app, list_elem_of_singleton in Hx.
    rewrite Hqu; [|lia|done|]; [apply Hu; tauto|]. intros -> ->. tauto.
Qed.

(** Cascading termination reaches everyone it should.  The cascade always
    ends; as long as others interfere at fewer than [MAX_CAS_RETRIES] awaits
    (by any transitions or patches), every registered worker below the
    terminated agent through registered workers ends up terminated, and when
    nobody interferes every other agent, copilots and what hangs below them
    included, keeps exactly the entry it had. *)
Lemma cascade_reaches_workers (now : Z) (tree : Tree.State) (w : World) (root : AgentId) :
  quiet_membership w ->
  exists w' log, cascadeTerminate now tree w root = Some (w', log) /\
  (disturbances w < MAX_CAS_RETRIES -> forall c, worker_below tree (w_store w) root c ->
     exists e, m_get c (w_store w') = Some e /\ as_phase (re_status e) = terminated) /\
  (disturbances w = 0 -> forall c, ~ worker_below tree (w_store w) root c ->
     m_get c (w_store w') = m_get c (w_store w)).
Proof.
  intros Hq. unfold cascadeTerminate.
  destruct (bfs_spec (Tree.childrenOf tree) (tryTerminateDescendant now) (cascade_inv w)) with
    (univ := m_keys (Tree.childrenMap tree)) (root := root) (queue := Tree.childrenOf tree root)
    (s := w) as (w' & log & -> & [Hnd Hfresh Hqueue Hnext Hreach] & [Hg _ _ Hd Hs Hu]).
  { intros log s k. apply cascade_step. }
  { intros k Hk. apply elem_of_m_keys. unfold Tree.childrenOf in Hk.
    destruct (m_get k _) as [l|]; [by exists l|done]. }
  { split; try done; [apply grows_refl|intros k Hk..]; by apply elem_of_nil in Hk. }
  exists w', log. split; [done|]. split.
  - intros Hlt c Hc. assert (Hlog : forall k, k ∈ log.*1 -> is_worker (w_store w) k -> (k, true) ∈ log).
    { intros k Hk Hw. apply list_elem_of_fmap in Hk as ([k' []] & -> & Hk); [done|].
      apply Hs in Hk; [lia|done]. }
    assert ((c, true) ∈ log) as Hin.
    { induction Hc as [c Hc Hne Hw|p c _ IH Hc Hne Hw]; apply Hlog; try done.
      - apply Hqueue; [done|]. by intros ->%list_elem_of_singleton.
      - eapply Hnext; [exact IH|done|]. by intros ->%list_elem_of_singleton. }
    destruct (Hd c Hin) as (e & ? & _ & ?). by exists e.
  - intros Hz c Hc. apply Hu; [done|]. intros Hin. apply Hc. clear Hc.
    assert (Hw : forall k, (k, true) ∈ log -> is_worker (w_store w) k /\ k ≠ root).
    { intros k Hk. split.
      - apply (grows_worker w w' k Hg). destruct (Hd k Hk) as (e & ? & ? & _). by exists e.
      - intros ->. apply (Hfresh root); [|by apply list_elem_of_singleton].
        apply list_elem_of_fmap. by exists (root, true). }
    assert (Hr : descended (Tree.childrenOf tree) log (Tree.childrenOf tree root) c).
    { apply Hreach. apply list_elem_of_fmap. by exists (c, true). }
    induction Hr as [k Hk|k c Hr IH Hk Hc]; destruct (Hw _ Hin).
    + by apply worker_child.
    + eapply worker_grandchild; eauto.
Qed.

(** A root with a worker and a copilot child and a worker below each; at the
    second await somebody suspends the worker child. *)
Definition sample_tree : Tree.State :=
  Tree.mkState [] [("root", ["w"; "c"]); ("w", ["x"]); ("c", ["y"])] [].

Definition sample_world : World :=
  mkWorld
    ((fun id => (id, sample_entry id None (if decide (id = "c") then copilot else worker)))
       <$> ["w"; "c"; "x"; "y"])
    [[Reg.op_transition 1 "w" suspended 0 tr_signal_stop]] [].

Lemma cascade_reaches_workers_witness :
  exists w' log, cascadeTerminate 7 sample_tree sample_world "root" = Some (w', log) /\
    exists e, m_get "x" (w_store w') = Some e /\ as_phase (re_status e) = terminated.
Proof.
  destruct (cascade_reaches_workers 7 sample_tree sample_world "root") as (w' & log & Hc & Hw & _).
  { apply Forall_singleton, Forall_singleton. vm_compute. tauto. }
  exists w', log. split; [exact Hc|]. apply Hw; [vm_compute; lia|].
  apply (worker_grandchild _ _ _ "w").
  - apply worker_child; [left|discriminate|]. eexists. split; vm_compute; reflexivity.
  - left.
  - discriminate.
  - eexists. split; vm_compute; reflexivity.
Defined.
