(* ===== verification/ReconcileQueue.v ===== *)
(** * Reconcile queue

    [kernel/engine-reconcile/src/reconcile-queue.ts]: the work queue of the
    reconcile runner.  The code keeps an array with a head pointer, tombstones
    for removed keys, a mirror set of the queued keys, and two more sets;
    [Impl] is that data structure, [Spec] the queue it stands for: keys in
    order, keys being processed, keys to queue again. *)

From S2P Require Import Prelude JsMap.

Section Queue.
Context {K : Type} `{EqDecision K}.

(** ** The array implementation *)

Record Impl : Type := mkImpl {
  queueStorage : list (option K);
  head : nat;
  queuedSet : list K;
  processing : list K;
  dirty : list K
}.

Definition createReconcileQueue : Impl := mkImpl [] 0 [] [] [].

Definition maybeCompact (s : Impl) : Impl :=
  if decide (0 < head s /\ length (queueStorage s) - head s <= head s)
  then mkImpl (drop (head s) (queueStorage s)) 0 (queuedSet s) (processing s) (dirty s)
  else s.

Definition enqueue (key : K) (s : Impl) : Impl :=
  if s_has key (processing s) then
    mkImpl (queueStorage s) (head s) (queuedSet s) (processing s) (s_add key (dirty s))
  else if s_has key (queuedSet s) then s
  else mkImpl (queueStorage s ++ [Some key]) (head s) (s_add key (queuedSet s)) (processing s) (dirty s).

(** [while (head < queueStorage.length)], with fuel. *)
Fixpoint dequeue_loop (fuel : nat) (s : Impl) : option (option K * Impl) :=
  match fuel with
  | O => None
  | S fuel =>
      if decide (head s < length (queueStorage s)) then
        let key := queueStorage s !! head s in
        let s := mkImpl (<[head s := None]> (queueStorage s)) (head s + 1) (queuedSet s)
                   (processing s) (dirty s) in
        match key with
        | Some (Some key) =>
            let s := mkImpl (queueStorage s) (head s) (s_delete key (queuedSet s))
                       (s_add key (processing s)) (dirty s) in
            Some (Some key, maybeCompact s)
        | _ => dequeue_loop fuel s
        end
      else
        Some (None, if decide (0 < head s) then mkImpl [] 0 (queuedSet s) (processing s) (dirty s) else s)
  end.

Definition dequeue (s : Impl) : option (option K * Impl) :=
  dequeue_loop (S (length (queueStorage s) - head s)) s.

Definition complete (key : K) (s : Impl) : Impl :=
  let processing := s_delete key (processing s) in
  if s_has key (dirty s) then
    mkImpl (queueStorage s ++ [Some key]) (head s) (s_add key (queuedSet s)) processing
      (s_delete key (dirty s))
  else mkImpl (queueStorage s) (head s) (queuedSet s) processing (dirty s).

(** The scan of [remove] from the head: the first cell holding the key. *)
Fixpoint tombstone (key : K) (cells : list (option K)) : list (option K) :=
  match cells with
  | [] => []
  | c :: cells => if decide (c = Some key) then None :: cells else c :: tombstone key cells
  end.

Definition remove (key : K) (s : Impl) : Impl :=
  let '(storage, queued) :=
    if s_has key (queuedSet s) then
      (take (head s) (queueStorage s) ++ tombstone key (drop (head s) (queueStorage s)),
       s_delete key (queuedSet s))
    else (queueStorage s, queuedSet s) in
  mkImpl storage (head s) queued (s_delete key (processing s)) (s_delete key (dirty s)).

Definition size (s : Impl) : nat := length (queuedSet s) + length (processing s).

Definition has (key : K) (s : Impl) : bool :=
  s_has key (queuedSet s) || s_has key (processing s) || s_has key (dirty s).

Definition clear (s : Impl) : Impl := createReconcileQueue.

(** ** What it stands for *)

Record Spec : Type := mkSpec { q_waiting : list K; q_active : list K; q_again : list K }.

Definition spec_enqueue (k : K) (a : Spec) : Spec :=
  if decide (k ∈ q_active a) then mkSpec (q_waiting a) (q_active a) (s_add k (q_again a))
  else mkSpec (s_add k (q_waiting a)) (q_active a) (q_again a).

Definition spec_dequeue (a : Spec) : option K * Spec :=
  match q_waiting a with
  | [] => (None, a)
  | k :: w => (Some k, mkSpec w (s_add k (q_active a)) (q_again a))
  end.

Definition spec_complete (k : K) (a : Spec) : Spec :=
  if decide (k ∈ q_again a)
  then mkSpec (q_waiting a ++ [k]) (s_delete k (q_active a)) (s_delete k (q_again a))
  else mkSpec (q_waiting a) (s_delete k (q_active a)) (q_again a).

Definition spec_remove (k : K) (a : Spec) : Spec :=
  mkSpec (s_delete k (q_waiting a)) (s_delete k (q_active a)) (s_delete k (q_again a)).

Definition spec_size (a : Spec) : nat := length (q_waiting a) + length (q_active a).

(** The live cells in order. *)
Definition waiting_of (s : Impl) : list K := omap id (drop (head s) (queueStorage s)).
Definition abstract (s : Impl) : Spec := mkSpec (waiting_of s) (processing s) (dirty s).

Record impl_ok (s : Impl) : Prop := {
  io_head : head s <= length (queueStorage s);
  io_mirror : queuedSet s ≡ₚ waiting_of s;
  io_waiting : NoDup (waiting_of s);
  io_active : NoDup (processing s);
  io_dirty : NoDup (dirty s);
  io_disjoint : forall k, k ∈ waiting_of s -> k ∉ processing s;
  io_again : forall k, k ∈ dirty s -> k ∈ processing s
}.

Lemma mirror_has s k : impl_ok s -> s_has k (queuedSet s) = true <-> k ∈ waiting_of s.
Proof. intros Hok. rewrite s_has_true. by rewrite (io_mirror s Hok). Qed.

Lemma s_delete_perm k (l l' : list K) : l ≡ₚ l' -> s_delete k l ≡ₚ s_delete k l'.
Proof. intros Hp. unfold s_delete. by rewrite Hp. Qed.

Lemma s_delete_absent k (l : list K) : k ∉ l -> s_delete k l = l.
Proof.
  intros Hk. unfold s_delete. induction l as [|x l IH]; [done|]. rewrite filter_cons.
  rewrite decide_True by (intros ->; apply Hk; left). f_equal. apply IH. intros ?; apply Hk; by right.
Qed.

Lemma s_delete_cons_eq k (l : list K) : k ∉ l -> s_delete k (k :: l) = l.
Proof.
  intros Hk. unfold s_delete. rewrite filter_cons, decide_False by (intros Hx; by apply Hx).
  by apply s_delete_absent.
Qed.

Lemma waiting_push s storage k :
  head s <= length (queueStorage s) -> storage = queueStorage s ++ [Some k] ->
  omap id (drop (head s) storage) = waiting_of s ++ [k].
Proof. intros Hh ->. rewrite drop_app_le by done. by rewrite omap_app. Qed.

(** To check a new state it is enough to say which keys it has waiting. *)
Lemma impl_ok_intro st h qs p d w :
  omap id (drop h st) = w -> h <= length st -> qs ≡ₚ w -> NoDup w -> NoDup p -> NoDup d ->
  (forall k, k ∈ w -> k ∉ p) -> (forall k, k ∈ d -> k ∈ p) ->
  impl_ok (mkImpl st h qs p d) /\ abstract (mkImpl st h qs p d) = mkSpec w p d.
Proof. intros <- ? ? ? ? ? ? ?. done. Qed.

Lemma NoDup_push (k : K) (l : list K) : NoDup l -> k ∉ l -> NoDup (l ++ [k]).
Proof.
  intros. apply NoDup_app. split; [done|]. split; [|apply NoDup_singleton].
  by intros x Hx ->%list_elem_of_singleton.
Qed.

Lemma maybeCompact_ok s : impl_ok s -> impl_ok (maybeCompact s) /\ abstract (maybeCompact s) = abstract s.
Proof.
  intros Hok. unfold maybeCompact. case_decide; [|done]. destruct Hok.
  apply impl_ok_intro; try done; lia.
Qed.

Lemma enqueue_ok s k : impl_ok s -> impl_ok (enqueue k s) /\ abstract (enqueue k s) = spec_enqueue k (abstract s).
Proof.
  intros Hok. pose proof (mirror_has s k Hok) as Hm. unfold enqueue, spec_enqueue. simpl.
  destruct (s_has k (processing s)) eqn:Hp.
  - apply s_has_true in Hp. rewrite decide_True by done. destruct Hok.
    apply impl_ok_intro; auto with koi. intros x [->|?]%elem_of_s_add; auto.
  - apply s_has_false in Hp. rewrite decide_False by done. unfold s_add.
    destruct (s_has k (queuedSet s)) eqn:Hq.
    { rewrite decide_True by (by apply Hm). done. }
    assert (Hnw : k ∉ waiting_of s) by (rewrite <-Hm; congruence).
    rewrite (decide_False (P := k ∈ waiting_of s)) by done.
    assert (Hnq : k ∉ queuedSet s) by (by rewrite (io_mirror s Hok)). rewrite decide_False by done.
    destruct Hok. apply impl_ok_intro; try done.
    + by apply waiting_push.
    + rewrite length_app. simpl. lia.
    + by f_equiv.
    + by apply NoDup_push.
    + intros x [?| ->%list_elem_of_singleton]%elem_of_app; auto.
Qed.

Lemma queue_complete_ok s k : impl_ok s -> impl_ok (complete k s) /\ abstract (complete k s) = spec_complete k (abstract s).
Proof.
  intros Hok. unfold complete, spec_complete. simpl. destruct (s_has k (dirty s)) eqn:Hd.
  - apply s_has_true in Hd. rewrite decide_True by done.
    assert (Hp : k ∈ processing s) by (by apply (io_again s Hok)).
    assert (Hnw : k ∉ waiting_of s) by (intros Hx; by apply (io_disjoint s Hok) in Hx).
    assert (Hnq : k ∉ queuedSet s) by (by rewrite (io_mirror s Hok)).
    destruct Hok. apply impl_ok_intro; auto with koi.
    + by apply waiting_push.
    + rewrite length_app. simpl. lia.
    + unfold s_add. rewrite decide_False by done. by f_equiv.
    + by apply NoDup_push.
    + intros x [Hx| ->%list_elem_of_singleton]%elem_of_app; rewrite elem_of_s_delete; [|tauto].
      intros [_ ?]. by apply (io_disjoint0 x).
    + intros x [? ?]%elem_of_s_delete. apply elem_of_s_delete. auto.
  - apply s_has_false in Hd. rewrite decide_False by done. destruct Hok.
    apply impl_ok_intro; auto with koi.
    + intros x Hx [_ ?]%elem_of_s_delete. by apply (io_disjoint0 x).
    + intros x Hx. apply elem_of_s_delete. split; [congruence|auto].
Qed.

Lemma omap_tombstone k cells :
  NoDup (omap id cells) -> omap id (tombstone k cells) = s_delete k (omap id cells).
Proof.
  induction cells as [|[c|] cells IH]; simpl; [done| |done]. intros Hnd.
  apply NoDup_cons in Hnd as [Hc Hnd]. case_decide as He; simpl.
  - injection He as ->. by rewrite s_delete_cons_eq.
  - unfold s_delete. rewrite filter_cons, decide_True by congruence. f_equal. by apply IH.
Qed.

Lemma length_tombstone k cells : length (tombstone k cells) = length cells.
Proof. induction cells as [|c cells IH]; simpl; [done|]. case_decide; simpl; congruence. Qed.

Lemma remove_ok s k : impl_ok s -> impl_ok (remove k s) /\ abstract (remove k s) = spec_remove k (abstract s).
Proof.
  intros Hok.
  assert (Hst : forall st qs, length st = length (queueStorage s) ->
    omap id (drop (head s) st) = s_delete k (waiting_of s) -> qs ≡ₚ s_delete k (waiting_of s) ->
    let s' := mkImpl st (head s) qs (s_delete k (processing s)) (s_delete k (dirty s)) in
    impl_ok s' /\ abstract s' = spec_remove k (abstract s)).
  { intros st qs Hl Hw Hq. destruct Hok. apply impl_ok_intro; auto with koi; [lia| |].
    - intros x [? Hx]%elem_of_s_delete [_ ?]%elem_of_s_delete. by apply (io_disjoint0 x).
    - intros x [? ?]%elem_of_s_delete. apply elem_of_s_delete. auto. }
  pose proof (mirror_has s k Hok) as Hm. pose proof (io_mirror s Hok) as Hmir.
  unfold remove. destruct (s_has k (queuedSet s)) eqn:Hq; apply Hst.
  - rewrite length_app, length_tombstone, length_take, length_drop. pose proof (io_head s Hok). lia.
  - rewrite drop_app_length' by (rewrite length_take; pose proof (io_head s Hok); lia).
    apply omap_tombstone. apply (io_waiting s Hok).
  - by apply s_delete_perm.
  - done.
  - rewrite s_delete_absent; [done|]. rewrite <-Hm. congruence.
  - rewrite s_delete_absent; [done|]. rewrite <-Hm. congruence.
Qed.
Lemma dequeue_loop_ok fuel : forall s, impl_ok s -> length (queueStorage s) - head s < fuel ->
  exists r s', dequeue_loop fuel s = Some (r, s') /\ impl_ok s' /\
    (r, abstract s') = spec_dequeue (abstract s).
Proof.
  induction fuel as [|fuel IH]; intros s Hok Hf; [lia|]. cbn [dequeue_loop].
  assert (Hhead : head s < length (queueStorage s) -> forall c, queueStorage s !! head s = Some c ->
    drop (S (head s)) (<[head s := None]> (queueStorage s)) = drop (S (head s)) (queueStorage s) /\
    drop (head s) (queueStorage s) = c :: drop (S (head s)) (queueStorage s)).
  { intros Hl c Hc. split; [apply drop_insert_lt; lia|by apply drop_S]. }
  destruct (decide (head s < length (queueStorage s))) as [Hl|Hl].
  2:{ exists None. assert (Hnil : waiting_of s = []).
      { unfold waiting_of. rewrite drop_ge by lia. done. }
      case_decide; eexists; (split; [done|]); unfold spec_dequeue; simpl; rewrite Hnil; [|done].
      destruct (impl_ok_intro [] 0 (queuedSet s) (processing s) (dirty s) []) as [? Ha]; try apply Hok; try done.
      - rewrite (io_mirror s Hok). by rewrite Hnil.
      - apply NoDup_nil_2.
      - by intros k ?%elem_of_nil.
      - split; [done|]. rewrite Ha. unfold abstract. by rewrite Hnil. }
  destruct (lookup_lt_is_Some_2 _ _ Hl) as [c Hc]. rewrite Hc.
  destruct (Hhead Hl c Hc) as [Hins Hdrop]. pose proof Hok as [Hh Hm Hw Hp Hd Hdis Hag].
  unfold waiting_of in *. rewrite Hdrop in *. rewrite Nat.add_1_r. destruct c as [key|].
  - simpl in *. apply NoDup_cons in Hw as [Hk Hw].
    destruct (impl_ok_intro (<[head s := None]> (queueStorage s)) (S (head s))
      (s_delete key (queuedSet s)) (s_add key (processing s)) (dirty s)
      (omap id (drop (S (head s)) (queueStorage s)))) as [Hok' Ha'].
    + by rewrite Hins.
    + rewrite length_insert. lia.
    + rewrite (s_delete_perm key _ _ Hm). by rewrite s_delete_cons_eq.
    + done.
    + by apply NoDup_s_add.
    + done.
    + intros x Hx [->|?]%elem_of_s_add; [done|]. apply (Hdis x); [by right|done].
    + intros x Hx. apply elem_of_s_add. auto.
    + apply maybeCompact_ok in Hok' as [Hok2 Ha2]. eexists (Some key), _. split; [done|]. split; [done|].
      rewrite Ha2, Ha'. unfold spec_dequeue, abstract, waiting_of. simpl. by rewrite Hdrop.
  - destruct (impl_ok_intro (<[head s := None]> (queueStorage s)) (S (head s))
      (queuedSet s) (processing s) (dirty s)
      (omap id (drop (S (head s)) (queueStorage s)))) as [Hok' Ha']; try done.
    + by rewrite Hins.
    + rewrite length_insert. lia.
    + destruct (IH _ Hok') as (r & s' & Hr & Hok2 & Hr2); [simpl; rewrite length_insert; lia|].
      exists r, s'. split; [done|]. split; [done|]. rewrite Hr2, Ha'.
      unfold abstract, waiting_of. by rewrite Hdrop.
Qed.

Lemma dequeue_ok s : impl_ok s ->
  exists r s', dequeue s = Some (r, s') /\ impl_ok s' /\ (r, abstract s') = spec_dequeue (abstract s).
Proof. intros Hok. apply dequeue_loop_ok; [done|lia]. Qed.

Lemma queue_create_ok : impl_ok createReconcileQueue /\ abstract createReconcileQueue = mkSpec [] [] [].
Proof.
  apply impl_ok_intro; try done; try apply NoDup_nil_2; by intros k ?%elem_of_nil.
Qed.

(** ** Runs *)

Inductive q_op : Type :=
  | q_enqueue (k : K) | q_dequeue | q_complete (k : K) | q_remove (k : K) | q_clear.

(** The key a run's [dequeue]s hand out, in order. *)
Definition run_op (s : Impl) (op : q_op) : option (option K * Impl) :=
  match op with
  | q_enqueue k => Some (None, enqueue k s)
  | q_dequeue => dequeue s
  | q_complete k => Some (None, complete k s)
  | q_remove k => Some (None, remove k s)
  | q_clear => Some (None, clear s)
  end.

Definition spec_op (a : Spec) (op : q_op) : option K * Spec :=
  match op with
  | q_enqueue k => (None, spec_enqueue k a)
  | q_dequeue => spec_dequeue a
  | q_complete k => (None, spec_complete k a)
  | q_remove k => (None, spec_remove k a)
  | q_clear => (None, mkSpec [] [] [])
  end.

Fixpoint run (s : Impl) (ops : list q_op) : option (list (option K) * Impl) :=
  match ops with
  | [] => Some ([], s)
  | op :: ops =>
      match run_op s op with
      | None => None
      | Some (r, s) =>
          match run s ops with
          | None => None
          | Some (rs, s) => Some (r :: rs, s)
          end
      end
  end.

Fixpoint spec_run (a : Spec) (ops : list q_op) : list (option K) * Spec :=
  match ops with
  | [] => ([], a)
  | op :: ops =>
      let '(r, a) := spec_op a op in
      let '(rs, a) := spec_run a ops in (r :: rs, a)
  end.

Lemma run_op_ok s op : impl_ok s ->
  exists r s', run_op s op = Some (r, s') /\ impl_ok s' /\ (r, abstract s') = spec_op (abstract s) op.
Proof.
  intros Hok. destruct op; simpl.
  - destruct (enqueue_ok s k Hok) as [? <-]. eauto.
  - by apply dequeue_ok.
  - destruct (queue_complete_ok s k Hok) as [? <-]. eauto.
  - destruct (remove_ok s k Hok) as [? <-]. eauto.
  - destruct queue_create_ok as [? <-]. eauto.
Qed.

Lemma queue_run_ok ops : forall s, impl_ok s ->
  exists rs s', run s ops = Some (rs, s') /\ impl_ok s' /\ (rs, abstract s') = spec_run (abstract s) ops.
Proof.
  induction ops as [|op ops IH]; intros s Hok; simpl; [eauto|].
  destruct (run_op_ok s op Hok) as (r & s1 & -> & Hok1 & <-).
  destruct (IH s1 Hok1) as (rs & s2 & -> & Hok2 & <-). eauto.
Qed.

(** *** The specification's own invariant and what it guarantees *)

Record spec_ok (a : Spec) : Prop := {
  so_waiting : NoDup (q_waiting a);
  so_disjoint : forall k, k ∈ q_waiting a -> k ∉ q_active a;
  so_again : forall k, k ∈ q_again a -> k ∈ q_active a
}.

Lemma abstract_ok s : impl_ok s -> spec_ok (abstract s).
Proof. by intros []. Qed.

(** A key that asked for attention and has not been handed out since. *)
Definition pending (k : K) (a : Spec) : Prop := k ∈ q_waiting a \/ k ∈ q_again a.

Lemma pending_enqueue k a : pending k (spec_enqueue k a).
Proof.
  unfold pending, spec_enqueue. case_decide; simpl; rewrite elem_of_s_add; auto.
Qed.

Lemma pending_step k a op :
  pending k a -> op ≠ q_remove k -> op ≠ q_clear ->
  (spec_op a op).1 = Some k \/ pending k (spec_op a op).2.
Proof.
  unfold pending. intros Hp Hr Hc. destruct op as [j| |j|j|]; simpl; [| | | |done].
  - right. unfold spec_enqueue. case_decide; simpl; rewrite elem_of_s_add; tauto.
  - unfold spec_dequeue. destruct (q_waiting a) as [|j w] eqn:Hw; simpl; [rewrite Hw; by right|].
    destruct Hp as [[->|?]%elem_of_cons|?]; auto.
  - right. unfold spec_complete. case_decide as Hj; simpl.
    + rewrite elem_of_app, list_elem_of_singleton, elem_of_s_delete.
      destruct (decide (k = j)); tauto.
    + destruct Hp as [?|?]; [by left|right; done].
  - right. unfold spec_remove. simpl. rewrite !elem_of_s_delete.
    assert (k ≠ j) by congruence. tauto.
Qed.

Lemma pending_run k ops : forall a, pending k a -> Forall (fun op => op ≠ q_remove k /\ op ≠ q_clear) ops ->
  Some k ∈ (spec_run a ops).1 \/ pending k (spec_run a ops).2.
Proof.
  induction ops as [|op ops IH]; intros a Hp Hf; simpl; [by right|].
  apply Forall_cons in Hf as [[Hr Hc] Hf]. pose proof (pending_step k a op Hp Hr Hc) as Hs.
  destruct (spec_op a op) as [r a1]. specialize (IH a1). destruct (spec_run a1 ops) as [rs a2]. simpl in *.
  destruct Hs as [->|Hp1]; [left; left|]. destruct (IH Hp1 Hf) as [?|?]; [left; by right|by right].
Qed.

(** How many [dequeue]s come before the key's turn. *)
Lemma waiting_turn k a n : q_waiting a !! n = Some k ->
  last (spec_run a (replicate (S n) q_dequeue)).1 = Some (Some k).
Proof.
  revert a. induction n as [|n IH]; intros a Hn.
  - simpl. unfold spec_dequeue. destruct (q_waiting a); [done|]. simpl in *. congruence.
  - change (replicate (S (S n)) q_dequeue) with (q_dequeue :: replicate (S n) q_dequeue).
    cbn [spec_run spec_op]. unfold spec_dequeue at 1. destruct (q_waiting a) as [|j w] eqn:Hw; [done|].
    specialize (IH (mkSpec w (s_add j (q_active a)) (q_again a)) Hn).
    destruct (spec_run _ (replicate (S n) q_dequeue)) as [rs a2]. cbn [fst] in *.
    destruct rs; [done|]. exact IH.
Qed.

(** Between two hand-outs of a key it is completed, removed or all is cleared. *)
Definition releases (k : K) (op : q_op) : Prop := op = q_complete k \/ op = q_remove k \/ op = q_clear.

Lemma active_run k ops : forall a, spec_ok a -> k ∈ q_active a -> Forall (fun op => ~ releases k op) ops ->
  Some k ∉ (spec_run a ops).1.
Proof.
  induction ops as [|op ops IH]; intros a Hok Hk Hf; simpl; [apply not_elem_of_nil|].
  apply Forall_cons in Hf as [Hop Hf]. unfold releases in Hop.
  assert ((spec_op a op).1 ≠ Some k /\ spec_ok (spec_op a op).2 /\ k ∈ q_active (spec_op a op).2) as (Hr & Hok' & Hk').
  { destruct Hok as [Hw Hd Ha]. destruct op as [j| |j|j|]; simpl; [| | | |tauto].
    - split; [done|]. unfold spec_enqueue. destruct (decide (j ∈ q_active a)); simpl; (split; [|done]); split; simpl; auto with koi.
      + intros x [->|?]%elem_of_s_add; auto.
      + intros x [->|?]%elem_of_s_add; auto.
    - unfold spec_dequeue. destruct (q_waiting a) as [|j w] eqn:Hq; simpl; [split_and!; [done| |done]; split; rewrite ?Hq; done|].
      apply NoDup_cons in Hw as [Hj Hw]. split; [|split; [split; simpl|apply elem_of_s_add; auto]]; [|done| |].
      + intros [= ->]. apply (Hd k); [by left|done].
      + intros x Hx [->|?]%elem_of_s_add; [done|]. apply (Hd x); [by right|done].
      + intros x Hx. apply elem_of_s_add. auto.
    - assert (j ≠ k) by (intros ->; tauto). split; [done|]. unfold spec_complete.
      destruct (decide (j ∈ q_again a)) as [Hj|Hj]; simpl; (split; [|apply elem_of_s_delete; auto]); split; simpl; auto.
      + apply NoDup_push; [done|]. intros Hx. apply (Hd j Hx). by apply Ha.
      + intros x [Hx| ->%list_elem_of_singleton]%elem_of_app; rewrite elem_of_s_delete; [|tauto].
        intros [_ ?]. by apply (Hd x).
      + intros x [? ?]%elem_of_s_delete. apply elem_of_s_delete. auto.
      + intros x Hx. rewrite elem_of_s_delete. intros [_ ?]. by apply (Hd x).
      + intros x Hx. apply elem_of_s_delete. split; [congruence|auto].
    - assert (j ≠ k) by (intros ->; tauto). split; [done|]. unfold spec_remove. simpl.
      split; [|apply elem_of_s_delete; auto]. split; simpl; auto with koi.
      + intros x [? ?]%elem_of_s_delete [_ ?]%elem_of_s_delete. by apply (Hd x).
      + intros x [? ?]%elem_of_s_delete. apply elem_of_s_delete. auto. }
  destruct (spec_op a op) as [r a1]. specialize (IH a1 Hok' Hk' Hf). destruct (spec_run a1 ops) as [rs a2].
  simpl in *. rewrite elem_of_cons. intros [?|?]; [congruence|done].
Qed.

Lemma dequeue_spec_ok a k : spec_ok a -> (spec_dequeue a).1 = Some k ->
  spec_ok (spec_dequeue a).2 /\ k ∈ q_active (spec_dequeue a).2.
Proof.
  intros [Hw Hd Ha]. unfold spec_dequeue. destruct (q_waiting a) as [|j w] eqn:Hq; simpl; [done|].
  intros [= ->]. apply NoDup_cons in Hw as [Hj Hw]. split; [|apply elem_of_s_add; auto]. split; simpl; [done| |].
  - intros x Hx [->|?]%elem_of_s_add; [done|]. apply (Hd x); [by right|done].
  - intros x Hx. apply elem_of_s_add. auto.
Qed.

(** The dead prefix stays shorter than what follows it. *)
Definition compacted (s : Impl) : Prop := head s = 0 \/ head s < length (queueStorage s) - head s.

Lemma dequeue_loop_compacted fuel : forall s r s',
  dequeue_loop fuel s = Some (r, s') -> compacted s'.
Proof.
  induction fuel as [|fuel IH]; intros s r s'; cbn [dequeue_loop]; [done|].
  case_decide.
  - destruct (queueStorage s !! head s) as [[key|]|]; try apply IH.
    intros [= <- <-]. unfold compacted, maybeCompact. case_decide as Hc; simpl in *; lia.
  - case_decide; intros [= <- <-]; unfold compacted; simpl; lia.
Qed.

Lemma run_op_compacted s op r s' :
  head s <= length (queueStorage s) -> compacted s -> run_op s op = Some (r, s') -> compacted s'.
Proof.
  intros Hh Hc. destruct op as [k| |k|k|]; simpl.
  - intros [= <- <-]. unfold enqueue, compacted in *. repeat case_match; simpl; rewrite ?length_app; lia.
  - apply dequeue_loop_compacted.
  - intros [= <- <-]. unfold complete, compacted in *. case_match; simpl; rewrite ?length_app; simpl; lia.
  - intros [= <- <-]. unfold remove, compacted in *. destruct (s_has k (queuedSet s)); simpl; [|lia].
    rewrite length_app, length_tombstone, length_take, length_drop. lia.
  - intros [= <- <-]. by left.
Qed.

Lemma run_compacted ops : forall s rs s',
  impl_ok s -> compacted s -> run s ops = Some (rs, s') -> compacted s'.
Proof.
  induction ops as [|op ops IH]; intros s rs s' Hok Hc; simpl; [by intros [= <- <-]|].
  destruct (run_op_ok s op Hok) as (r & s1 & Hr & Hok1 & _). rewrite Hr.
  pose proof (run_op_compacted s op r s1 (io_head s Hok) Hc Hr) as Hc1.
  destruct (run s1 ops) as [[rs2 s2]|] eqn:Hrun; [|done]. intros [= <- <-]. by eapply IH.
Qed.

Lemma size_ok s : impl_ok s -> size s = spec_size (abstract s).
Proof. intros Hok. unfold size, spec_size. by rewrite (io_mirror s Hok). Qed.

Lemma has_ok s k : impl_ok s -> has k s = true <->
  k ∈ q_waiting (abstract s) \/ k ∈ q_active (abstract s) \/ k ∈ q_again (abstract s).
Proof.
  intros Hok. unfold has. rewrite !orb_true_iff, mirror_has, !s_has_true by done. simpl. tauto.
Qed.
End Queue.
Arguments Impl K : clear implicits.
Arguments Spec K : clear implicits.
Arguments q_op K : clear implicits.

(** C6: The array queue with its head pointer, tombstones, compaction and mirror
    set refines the three-part queue it stands for: on every sequence of
    operations each [dequeue] terminates and hands out the same key as the
    specification, [size] and [has] agree with it afterwards, and the dead
    prefix of the array stays shorter than the rest. *)
Theorem queue_refines (ops : list (q_op string)) :
  exists rs s, run createReconcileQueue ops = Some (rs, s) /\
    (rs, abstract s) = spec_run (mkSpec [] [] []) ops /\
    size s = spec_size (abstract s) /\
    (forall k, has k s = true <->
       k ∈ q_waiting (abstract s) \/ k ∈ q_active (abstract s) \/ k ∈ q_again (abstract s)) /\
    (head s = 0 \/ head s < length (queueStorage s) - head s).
Proof.
  destruct (queue_run_ok ops createReconcileQueue) as (rs & s & Hr & Hok & Ha); [apply queue_create_ok|].
  exists rs, s. split; [done|]. split; [by rewrite Ha, (proj2 queue_create_ok)|].
  split; [by apply size_ok|]. split; [intros k; by apply has_ok|].
  eapply (run_compacted ops); [apply queue_create_ok| |done]. by left.
Qed.

(** No wake-up is lost and no key is processed twice at once.  Whatever
    happened before, a key that is enqueued is later handed out or still
    pending, unless it is removed or all is cleared; a key waiting behind [n]
    others is handed out by the [n+1]-st [dequeue]; and once handed out it is
    not handed out again before it is completed, removed or all is cleared. *)
Lemma queue_delivery (before after : list (q_op string)) (k : string) :
  let a := (spec_run (mkSpec [] [] []) before).2 in
  (Forall (fun op => op ≠ q_remove k /\ op ≠ q_clear) after ->
     Some k ∈ (spec_run (spec_enqueue k a) after).1 \/ pending k (spec_run (spec_enqueue k a) after).2) /\
  (forall n, q_waiting a !! n = Some k ->
     last (spec_run a (replicate (S n) q_dequeue)).1 = Some (Some k)) /\
  ((spec_dequeue a).1 = Some k -> Forall (fun op => ~ releases k op) after ->
     Some k ∉ (spec_run (spec_dequeue a).2 after).1).
Proof.
  intros a. assert (Hok : spec_ok a).
  { destruct (queue_run_ok before createReconcileQueue) as (rs & s & _ & Hok & Ha); [apply queue_create_ok|].
    rewrite (proj2 queue_create_ok) in Ha. subst a. rewrite <-Ha. by apply abstract_ok. }
  split; [|split].
  - intros Hf. apply pending_run; [apply pending_enqueue|done].
  - intros n. apply waiting_turn.
  - intros Hd Hf. destruct (dequeue_spec_ok a k Hok Hd). by apply active_run.
Qed.
