(* ===== verification/WorkQueue.v ===== *)
(** * The queue as the runner sees it

    The interface the reconcile runner relies on: operations on an abstract
    queue type, a validity predicate, and the view of a valid queue as
    [Spec] (keys waiting in order, keys being processed, keys to queue again)
    on which every operation acts as specified.  The array queue of
    [reconcile-queue.ts] is an instance. *)

From S2P Require Import Prelude JsMap ReconcileQueue.

Class WorkQueue (K Q : Type) `{EqDecision K} := {
  wq_new : Q;
  wq_enqueue : K -> Q -> Q;
  wq_dequeue : Q -> option K * Q;
  wq_complete : K -> Q -> Q;
  wq_remove : K -> Q -> Q;
  wq_clear : Q -> Q;
  wq_size : Q -> nat;
  wq_ok : Q -> Prop;
  wq_view : Q -> Spec K;
  wq_new_ok : wq_ok wq_new /\ wq_view wq_new = mkSpec [] [] [];
  wq_enqueue_ok k q : wq_ok q -> wq_ok (wq_enqueue k q) /\ wq_view (wq_enqueue k q) = spec_enqueue k (wq_view q);
  wq_dequeue_ok q : wq_ok q -> wq_ok (wq_dequeue q).2 /\
    ((wq_dequeue q).1, wq_view (wq_dequeue q).2) = spec_dequeue (wq_view q);
  wq_complete_ok k q : wq_ok q -> wq_ok (wq_complete k q) /\ wq_view (wq_complete k q) = spec_complete k (wq_view q);
  wq_remove_ok k q : wq_ok q -> wq_ok (wq_remove k q) /\ wq_view (wq_remove k q) = spec_remove k (wq_view q);
  wq_clear_ok q : wq_ok (wq_clear q) /\ wq_view (wq_clear q) = mkSpec [] [] [];
  wq_size_ok q : wq_ok q -> wq_size q = spec_size (wq_view q);
  wq_view_ok q : wq_ok q -> spec_ok (wq_view q)
}.

(** The array queue.  [dequeue] always answers on a valid queue. *)
#[export] Program Instance reconcile_queue_work {K : Type} `{EqDecision K} : WorkQueue K (Impl K) := {|
  wq_new := createReconcileQueue;
  wq_enqueue := enqueue;
  wq_dequeue := fun q => default (None, q) (dequeue q);
  wq_complete := complete;
  wq_remove := remove;
  wq_clear := clear;
  wq_size := size;
  wq_ok := impl_ok;
  wq_view := abstract
|}.
Next Obligation. intros. apply queue_create_ok. Qed.
Next Obligation. intros. by apply enqueue_ok. Qed.
Next Obligation. intros K ? q Hq. destruct (dequeue_ok q Hq) as (r & s & Hd & Hs). by rewrite Hd. Qed.
Next Obligation. intros. by apply queue_complete_ok. Qed.
Next Obligation. intros. by apply remove_ok. Qed.
Next Obligation. intros. apply queue_create_ok. Qed.
Next Obligation. intros. by apply size_ok. Qed.
Next Obligation. intros. by apply abstract_ok. Qed.
