(* ===== verification/Runner.v ===== *)
(** * Reconcile runner

    [kernel/engine-reconcile/src/reconcile-runner.ts] and [backoff.ts]: the
    loop that feeds agents to reconciliation controllers.  The runner is a
    single-threaded event handler: registry events, timers, settled promises
    and calls of its public functions are the steps of a state machine.  What
    the environment decides is given by oracles: the answer of the n-th call of
    a controller (with the registry events and public calls that happen while
    it runs), and the n-th random number.  The clock is the list of live timers;
    which of them fires, and when, is a step.  [trace] records the calls made
    and the promises the runner does not track; no operation reads it.

    Not modelled: the log messages, the controllers' context argument, and
    asynchronous registries (their listing arrives later as the argument of the
    same enqueue loops).  A tick reads the clock once, and controllers are not
    registered while one runs. *)

From S2P Require Import Prelude JsMap ReconcileQueue WorkQueue.

Local Open Scope Z_scope.

(** ** Data *)

Inductive ReconcileResult : Type :=
  | R_converged
  | R_retry (afterMs : Z)
  | R_terminal (reason : string)
  | R_recheck (afterMs : Z).

Record RunnerConfig : Type := mkRunnerConfig {
  driftCheckIntervalMs : Z;
  reconcileTimeoutMs : Z;
  maxConsecutiveFailures : Z;
  backoffBaseMs : Z;
  backoffCapMs : Z;
  minReconcileIntervalMs : Z;
  maxConcurrentReconciles : Z;
  processTickIntervalMs : Z;
  processBatchSize : Z
}.

Definition DEFAULT_RECONCILE_RUNNER_CONFIG : RunnerConfig :=
  mkRunnerConfig 60000 30000 5 100 30000 5000 10 100 32.

(** What happens while a controller runs, and how it answers. *)
Inductive Signal : Type :=
  | s_registered (agentId : string)
  | s_transitioned (agentId : string)
  | s_deregistered (agentId : string)
  | s_sweep (running : list string)
  | s_dispose.

Inductive Outcome : Type := O_sync (result : ReconcileResult) | O_throw | O_async.

Record Answer : Type := mkAnswer { an_during : list Signal; an_outcome : Outcome }.

(** A live timer: a deferred enqueue, the timeout of a tracked promise, or one
    of the two intervals. *)
Inductive TimerKind : Type :=
  | T_deferred (agentId key : string)
  | T_timeout (race : nat)
  | T_processTick
  | T_driftSweep.

(** A tracked promise: the [Promise.race] of the result with its timeout. *)
Record Race : Type := mkRace { rc_agent : string; rc_key : string; rc_timer : nat }.

Inductive Output : Type :=
  | o_reconcile (agentId controller : string)
  | o_untracked (agentId controller : string).

(** ** [computeBackoff]

    [random] is [Math.random() * 2^53], a number below [2^53]. *)
Definition computeBackoff (random prevSleepMs baseMs capMs : Z) : Z :=
  let upper := Z.min capMs (Z.max baseMs (prevSleepMs * 3)) in
  baseMs + random * (upper - baseMs) / 2 ^ 53.

Definition circuitKey (agentId controllerName : string) : string :=
  (agentId +:+ ":" +:+ controllerName)%string.

Section Runner.
Context {Q : Type} `{!WorkQueue string Q}.
Variable config : RunnerConfig.
Variable answer : nat -> Answer.
Variable random : nat -> Z.

Record Runner : Type := mkRunner {
  queue : Q;
  controllers : list string;
  totalReconciled : Z;
  totalRetried : Z;
  totalCircuitBroken : Z;
  inFlightCount : Z;
  asyncPending : list (string * Z);
  consecutiveFailures : list (string * Z);
  backoffState : list (string * Z);
  lastReconciledAt : list (string * Z);
  backoffTimers : list (string * nat);
  driftSweepTimer : option nat;
  processTickTimer : option nat;
  disposed : bool;
  timers : list (nat * TimerKind);
  nextTimer : nat;
  races : list (nat * Race);
  nextRace : nat;
  draws : nat;
  trace : list Output
}.

Definition createReconcileRunner : Runner :=
  mkRunner wq_new [] 0 0 0 0 [] [] [] [] [] None None false [] 0 [] 0 0 [].

(** ** Updates of single fields *)

Definition set_queue (f : Q -> Q) (s : Runner) : Runner :=
  mkRunner (f (queue s)) (controllers s) (totalReconciled s) (totalRetried s) (totalCircuitBroken s)
    (inFlightCount s) (asyncPending s) (consecutiveFailures s) (backoffState s) (lastReconciledAt s)
    (backoffTimers s) (driftSweepTimer s) (processTickTimer s) (disposed s) (timers s) (nextTimer s)
    (races s) (nextRace s) (draws s) (trace s).

Definition set_counts (reconciled retried broken : Z) (s : Runner) : Runner :=
  mkRunner (queue s) (controllers s) (totalReconciled s + reconciled) (totalRetried s + retried)
    (totalCircuitBroken s + broken)
    (inFlightCount s) (asyncPending s) (consecutiveFailures s) (backoffState s) (lastReconciledAt s)
    (backoffTimers s) (driftSweepTimer s) (processTickTimer s) (disposed s) (timers s) (nextTimer s)
    (races s) (nextRace s) (draws s) (trace s).

Definition set_pending (f : list (string * Z) -> list (string * Z)) (s : Runner) : Runner :=
  mkRunner (queue s) (controllers s) (totalReconciled s) (totalRetried s) (totalCircuitBroken s)
    (inFlightCount s) (f (asyncPending s)) (consecutiveFailures s) (backoffState s) (lastReconciledAt s)
    (backoffTimers s) (driftSweepTimer s) (processTickTimer s) (disposed s) (timers s) (nextTimer s)
    (races s) (nextRace s) (draws s) (trace s).

(** [consecutiveFailures] and [backoffState]. *)
Definition set_breaker (f g : list (string * Z) -> list (string * Z)) (s : Runner) : Runner :=
  mkRunner (queue s) (controllers s) (totalReconciled s) (totalRetried s) (totalCircuitBroken s)
    (inFlightCount s) (asyncPending s) (f (consecutiveFailures s)) (g (backoffState s)) (lastReconciledAt s)
    (backoffTimers s) (driftSweepTimer s) (processTickTimer s) (disposed s) (timers s) (nextTimer s)
    (races s) (nextRace s) (draws s) (trace s).

Definition set_last (f : list (string * Z) -> list (string * Z)) (s : Runner) : Runner :=
  mkRunner (queue s) (controllers s) (totalReconciled s) (totalRetried s) (totalCircuitBroken s)
    (inFlightCount s) (asyncPending s) (consecutiveFailures s) (backoffState s) (f (lastReconciledAt s))
    (backoffTimers s) (driftSweepTimer s) (processTickTimer s) (disposed s) (timers s) (nextTimer s)
    (races s) (nextRace s) (draws s) (trace s).

Definition set_backoffTimers (f : list (string * nat) -> list (string * nat)) (s : Runner) : Runner :=
  mkRunner (queue s) (controllers s) (totalReconciled s) (totalRetried s) (totalCircuitBroken s)
    (inFlightCount s) (asyncPending s) (consecutiveFailures s) (backoffState s) (lastReconciledAt s)
    (f (backoffTimers s)) (driftSweepTimer s) (processTickTimer s) (disposed s) (timers s) (nextTimer s)
    (races s) (nextRace s) (draws s) (trace s).

Definition set_timers (f : list (nat * TimerKind) -> list (nat * TimerKind)) (s : Runner) : Runner :=
  mkRunner (queue s) (controllers s) (totalReconciled s) (totalRetried s) (totalCircuitBroken s)
    (inFlightCount s) (asyncPending s) (consecutiveFailures s) (backoffState s) (lastReconciledAt s)
    (backoffTimers s) (driftSweepTimer s) (processTickTimer s) (disposed s) (f (timers s)) (nextTimer s)
    (races s) (nextRace s) (draws s) (trace s).

(** [clock.setTimeout] and [clock.setInterval]: the handle and the state with
    the timer live. *)
Definition new_timer (kind : TimerKind) (s : Runner) : nat * Runner :=
  (nextTimer s,
   mkRunner (queue s) (controllers s) (totalReconciled s) (totalRetried s) (totalCircuitBroken s)
    (inFlightCount s) (asyncPending s) (consecutiveFailures s) (backoffState s) (lastReconciledAt s)
    (backoffTimers s) (driftSweepTimer s) (processTickTimer s) (disposed s)
    (timers s ++ [(nextTimer s, kind)]) (S (nextTimer s)) (races s) (nextRace s) (draws s) (trace s)).

(** [handle?.clear()] *)
Definition clear_timer (handle : option nat) (s : Runner) : Runner :=
  match handle with Some h => set_timers (m_delete h) s | None => s end.

Definition set_intervals (process drift : nat) (s : Runner) : Runner :=
  mkRunner (queue s) (controllers s) (totalReconciled s) (totalRetried s) (totalCircuitBroken s)
    (inFlightCount s) (asyncPending s) (consecutiveFailures s) (backoffState s) (lastReconciledAt s)
    (backoffTimers s) (Some drift) (Some process) (disposed s) (timers s) (nextTimer s)
    (races s) (nextRace s) (draws s) (trace s).

Definition set_disposed (s : Runner) : Runner :=
  mkRunner (queue s) (controllers s) (totalReconciled s) (totalRetried s) (totalCircuitBroken s)
    (inFlightCount s) (asyncPending s) (consecutiveFailures s) (backoffState s) (lastReconciledAt s)
    (backoffTimers s) (driftSweepTimer s) (processTickTimer s) true (timers s) (nextTimer s)
    (races s) (nextRace s) (draws s) (trace s).

Definition draw (s : Runner) : Z * Runner :=
  (random (draws s),
   mkRunner (queue s) (controllers s) (totalReconciled s) (totalRetried s) (totalCircuitBroken s)
    (inFlightCount s) (asyncPending s) (consecutiveFailures s) (backoffState s) (lastReconciledAt s)
    (backoffTimers s) (driftSweepTimer s) (processTickTimer s) (disposed s) (timers s) (nextTimer s)
    (races s) (nextRace s) (S (draws s)) (trace s)).

Definition log (o : Output) (s : Runner) : Runner :=
  mkRunner (queue s) (controllers s) (totalReconciled s) (totalRetried s) (totalCircuitBroken s)
    (inFlightCount s) (asyncPending s) (consecutiveFailures s) (backoffState s) (lastReconciledAt s)
    (backoffTimers s) (driftSweepTimer s) (processTickTimer s) (disposed s) (timers s) (nextTimer s)
    (races s) (nextRace s) (draws s) (trace s ++ [o]).

(** [inFlightCount += 1] and the race under a fresh number; [inFlightCount -= 1]
    and its end. *)
Definition add_race (r : Race) (s : Runner) : Runner :=
  mkRunner (queue s) (controllers s) (totalReconciled s) (totalRetried s) (totalCircuitBroken s)
    (inFlightCount s + 1) (asyncPending s) (consecutiveFailures s) (backoffState s) (lastReconciledAt s)
    (backoffTimers s) (driftSweepTimer s) (processTickTimer s) (disposed s) (timers s) (nextTimer s)
    (races s ++ [(nextRace s, r)]) (S (nextRace s)) (draws s) (trace s).

Definition end_race (id : nat) (s : Runner) : Runner :=
  mkRunner (queue s) (controllers s) (totalReconciled s) (totalRetried s) (totalCircuitBroken s)
    (inFlightCount s - 1) (asyncPending s) (consecutiveFailures s) (backoffState s) (lastReconciledAt s)
    (backoffTimers s) (driftSweepTimer s) (processTickTimer s) (disposed s) (timers s) (nextTimer s)
    (m_delete id (races s)) (nextRace s) (draws s) (trace s).

(** ** Internal helpers *)

Definition resetCircuitBreaker (agentId : string) (s : Runner) : Runner :=
  foldl (fun s c => set_breaker (m_delete (circuitKey agentId c)) (m_delete (circuitKey agentId c)) s)
    s (controllers s).

Definition cleanup_key (key : string) (s : Runner) : Runner :=
  let s := set_breaker (m_delete key) (m_delete key) s in
  match m_get key (backoffTimers s) with
  | Some timer => set_backoffTimers (m_delete key) (clear_timer (Some timer) s)
  | None => s
  end.

Definition cleanupAgent (agentId : string) (s : Runner) : Runner :=
  let s := foldl (fun s c => cleanup_key (circuitKey agentId c) s) s (controllers s) in
  set_pending (m_delete agentId) (set_last (m_delete agentId) s).

Definition scheduleDeferredEnqueue (agentId key : string) (ms : Z) (s : Runner) : Runner :=
  let s := clear_timer (m_get key (backoffTimers s)) s in
  let '(handle, s) := new_timer (T_deferred agentId key) s in
  set_backoffTimers (m_set key handle) s.

Definition handleResult (agentId key : string) (result : ReconcileResult) (s : Runner) : Runner :=
  match result with
  | R_converged | R_terminal _ => set_counts 1 0 0 (set_breaker (m_delete key) (m_delete key) s)
  | R_retry afterMs =>
      scheduleDeferredEnqueue agentId key afterMs
        (set_breaker (m_delete key) id (set_counts 0 1 0 s))
  | R_recheck afterMs =>
      scheduleDeferredEnqueue agentId key afterMs
        (set_breaker (m_delete key) id (set_counts 1 0 0 s))
  end.

Definition handleError (agentId key : string) (s : Runner) : Runner :=
  let prevSleep := default 0 (m_get key (backoffState s)) in
  let '(r, s) := draw s in
  let nextSleep := computeBackoff r prevSleep (backoffBaseMs config) (backoffCapMs config) in
  let newFailures := default 0 (m_get key (consecutiveFailures s)) + 1 in
  let s := set_breaker (m_set key newFailures) (m_set key nextSleep) s in
  if newFailures >=? maxConsecutiveFailures config then set_counts 0 0 1 s
  else scheduleDeferredEnqueue agentId key nextSleep (set_counts 0 1 0 s).

Definition settleAsyncPending (agentId : string) (s : Runner) : Runner :=
  let remaining := default 1 (m_get agentId (asyncPending s)) - 1 in
  if remaining <=? 0
  then set_queue (wq_complete agentId) (set_pending (m_delete agentId) s)
  else set_pending (m_set agentId remaining) s.

(** The [then] of the race of promise [race]: [Some result] when the result
    arrives first, [None] when it is rejected or times out.  A race settles
    once. *)
Definition settle (race : nat) (outcome : option ReconcileResult) (s : Runner) : Runner :=
  match m_get race (races s) with
  | None => s
  | Some r =>
      let s := clear_timer (Some (rc_timer r)) (end_race race s) in
      let s := match outcome with
               | Some result => handleResult (rc_agent r) (rc_key r) result s
               | None => handleError (rc_agent r) (rc_key r) s
               end in
      settleAsyncPending (rc_agent r) s
  end.

Definition handleAsyncReconcile (agentId controller : string) (s : Runner) : Runner :=
  if (maxConcurrentReconciles config >? 0) && (inFlightCount s >=? maxConcurrentReconciles config)
  then log (o_untracked agentId controller) (set_queue (wq_enqueue agentId) s)
  else
    let s := set_pending (m_set agentId (default 0 (m_get agentId (asyncPending s)) + 1)) s in
    let race := nextRace s in
    let '(timer, s) := new_timer (T_timeout race) s in
    add_race (mkRace agentId (circuitKey agentId controller) timer) s.

(** ** Registry events and public functions *)

Definition enqueue_all (agents : list string) (s : Runner) : Runner :=
  foldl (fun s a => set_queue (wq_enqueue a) s) s agents.

Definition sweep (running : list string) (s : Runner) : Runner :=
  if disposed s then s else enqueue_all running s.

Definition register (controller : string) (s : Runner) : Runner :=
  mkRunner (queue s) (controllers s ++ [controller]) (totalReconciled s) (totalRetried s) (totalCircuitBroken s)
    (inFlightCount s) (asyncPending s) (consecutiveFailures s) (backoffState s) (lastReconciledAt s)
    (backoffTimers s) (driftSweepTimer s) (processTickTimer s) (disposed s) (timers s) (nextTimer s)
    (races s) (nextRace s) (draws s) (trace s).

Definition dispose (s : Runner) : Runner :=
  let s := set_disposed s in
  let s := clear_timer (processTickTimer s) (clear_timer (driftSweepTimer s) s) in
  let s := foldl (fun s h => clear_timer (Some h) s) s (m_values (backoffTimers s)) in
  set_queue wq_clear (set_pending (fun _ => []) (set_last (fun _ => [])
    (set_breaker (fun _ => []) (fun _ => []) (set_backoffTimers (fun _ => []) s)))).

Definition handle_signal (s : Runner) (sig : Signal) : Runner :=
  match sig with
  | s_registered a | s_transitioned a =>
      if disposed s then s else resetCircuitBreaker a (set_queue (wq_enqueue a) s)
  | s_deregistered a => if disposed s then s else cleanupAgent a (set_queue (wq_remove a) s)
  | s_sweep running => sweep running s
  | s_dispose => dispose s
  end.

(** ** Processing *)

(** The number of calls made so far selects the controller's answer. *)
Definition calls (s : Runner) : nat :=
  foldr (fun o n => match o with o_reconcile _ _ => S n | o_untracked _ _ => n end) O (trace s).

Definition call_controller (agentId controller : string) (s : Runner) : Runner :=
  let ans := answer (calls s) in
  let s := foldl handle_signal (log (o_reconcile agentId controller) s) (an_during ans) in
  let key := circuitKey agentId controller in
  match an_outcome ans with
  | O_async => handleAsyncReconcile agentId controller s
  | O_sync result => handleResult agentId key result s
  | O_throw => handleError agentId key s
  end.

Fixpoint process_controllers (agentId : string) (cs : list string) (s : Runner) : Runner :=
  match cs with
  | [] => s
  | c :: cs =>
      if disposed s then s
      else if default 0 (m_get (circuitKey agentId c) (consecutiveFailures s)) >=? maxConsecutiveFailures config
      then process_controllers agentId cs s
      else process_controllers agentId cs (call_controller agentId c s)
  end.

Definition processOne (now : Z) (agentId : string) (s : Runner) : Runner :=
  let s := process_controllers agentId (controllers s) s in
  let s := set_last (m_set agentId now) s in
  if m_has agentId (asyncPending s) then s else set_queue (wq_complete agentId) s.

Fixpoint process_batch (now : Z) (batchSize : nat) (s : Runner) : Runner :=
  match batchSize with
  | O => s
  | S batchSize =>
      if disposed s then s
      else if (maxConcurrentReconciles config >? 0) && (inFlightCount s >=? maxConcurrentReconciles config) then s
      else
        let '(agentId, q) := wq_dequeue (queue s) in
        let s := set_queue (fun _ => q) s in
        match agentId with
        | None => s
        | Some agentId => process_batch now batchSize (processOne now agentId s)
        end
  end.

Definition processTick (now : Z) (s : Runner) : Runner :=
  if disposed s then s else process_batch now (Z.to_nat (Z.max 1 (processBatchSize config))) s.

Definition driftSweep (now : Z) (running : list string) (s : Runner) : Runner :=
  if disposed s then s
  else
    foldl (fun s a =>
      match m_get a (lastReconciledAt s) with
      | Some lastTime =>
          if now - lastTime <? minReconcileIntervalMs config then s else set_queue (wq_enqueue a) s
      | None => set_queue (wq_enqueue a) s
      end) s running.

Definition start (running : list string) (s : Runner) : Runner :=
  if disposed s then s
  else
    let s := enqueue_all running s in
    let '(process, s) := new_timer T_processTick s in
    let '(drift, s) := new_timer T_driftSweep s in
    set_intervals process drift s.

(** ** Timers and steps *)

(** A live timer fires: a deferred enqueue and a timeout are one-shot, the
    intervals stay.  [running] is what the registry lists at that moment. *)
Definition fire (handle : nat) (now : Z) (running : list string) (s : Runner) : Runner :=
  match m_get handle (timers s) with
  | None => s
  | Some (T_deferred agentId key) =>
      let s := set_timers (m_delete handle) s in
      let s := if disposed s then s else set_queue (wq_enqueue agentId) s in
      if decide (m_get key (backoffTimers s) = Some handle)
      then set_backoffTimers (m_delete key) s else s
  | Some (T_timeout race) => settle race None (set_timers (m_delete handle) s)
  | Some T_processTick => processTick now s
  | Some T_driftSweep => driftSweep now running s
  end.

Inductive Event : Type :=
  | e_start (running : list string)
  | e_register (controller : string)
  | e_signal (sig : Signal)
  | e_fire (handle : nat) (now : Z) (running : list string)
  | e_settle (race : nat) (outcome : option ReconcileResult).

Definition step (s : Runner) (e : Event) : Runner :=
  match e with
  | e_start running => start running s
  | e_register controller => register controller s
  | e_signal sig => handle_signal s sig
  | e_fire handle now running => fire handle now running s
  | e_settle race outcome => settle race outcome s
  end.

Definition run (events : list Event) : Runner := foldl step createReconcileRunner events.

(** [stats()] *)
Record RunnerStats : Type := mkStats {
  st_totalReconciled : Z; st_totalRetried : Z; st_totalCircuitBroken : Z;
  st_queueSize : nat; st_activeControllers : nat; st_inFlightAsyncReconciles : Z
}.

Definition stats (s : Runner) : RunnerStats :=
  mkStats (totalReconciled s) (totalRetried s) (totalCircuitBroken s) (wq_size (queue s))
    (length (controllers s)) (inFlightCount s).
End Runner.
