(* ===== verification/RunnerInv.v ===== *)
(** * Invariants of the reconcile runner

    What holds in every state the runner reaches: the accounting of tracked
    promises and timers, the exclusion of overlapping passes, and that a failed
    controller is not forgotten. *)

From S2P Require Import Prelude JsMap ReconcileQueue WorkQueue Runner.

Local Open Scope Z_scope.

(** ** Timers, their owners, and tracked promises *)

Record timers_ok (tm : list (nat * TimerKind)) (nt : nat) (bt : list (string * nat))
    (drift process : option nat) (rc : list (nat * Race)) (nr : nat) : Prop := {
  to_nodup : NoDup (m_keys tm);
  to_fresh : forall h, is_Some (m_get h tm) -> (h < nt)%nat;
  to_races_nodup : NoDup (m_keys rc);
  to_races_fresh : forall i, is_Some (m_get i rc) -> (i < nr)%nat;
  to_bt_nodup : NoDup (m_keys bt);
  to_deferred : forall key h, m_get key bt = Some h <-> exists a, m_get h tm = Some (T_deferred a key);
  to_timeout : forall i h, m_get h tm = Some (T_timeout i) <-> exists r, m_get i rc = Some r /\ rc_timer r = h;
  to_drift : forall h, drift = Some h -> (h < nt)%nat /\ forall k, m_get h tm = Some k -> k = T_driftSweep;
  to_process : forall h, process = Some h -> (h < nt)%nat /\ forall k, m_get h tm = Some k -> k = T_processTick
}.

Lemma fresh_timer tm nt bt d p rc nr : timers_ok tm nt bt d p rc nr -> m_get nt tm = None.
Proof.
  intros Hok. destruct (m_get nt tm) eqn:E; [|done]. exfalso.
  assert (nt < nt)%nat by (apply (to_fresh _ _ _ _ _ _ _ Hok); eauto). lia.
Qed.

Lemma fresh_race tm nt bt d p rc nr : timers_ok tm nt bt d p rc nr -> m_get nr rc = None.
Proof.
  intros Hok. destruct (m_get nr rc) eqn:E; [|done]. exfalso.
  assert (nr < nr)%nat by (apply (to_races_fresh _ _ _ _ _ _ _ Hok); eauto). lia.
Qed.

(** Clearing the deferred timer of a key. *)
Lemma timers_forget tm nt bt d p rc nr key h :
  timers_ok tm nt bt d p rc nr -> m_get key bt = Some h ->
  timers_ok (m_delete h tm) nt (m_delete key bt) d p rc nr.
Proof.
  intros Hok Hb. pose proof (proj1 (to_deferred _ _ _ _ _ _ _ Hok key h) Hb) as [a Ha].
  assert (Hget : forall h' k, m_get h' (m_delete h tm) = Some k <-> h ≠ h' /\ m_get h' tm = Some k).
  { intros h' k. rewrite m_get_delete. case_decide; naive_solver. }
  destruct Hok. split; try done.
  - by apply NoDup_m_delete.
  - intros h' [k [_ Hk]%Hget]. eauto.
  - by apply NoDup_m_delete.
  - intros key' h'. setoid_rewrite Hget. rewrite m_get_delete. case_decide; subst.
    + split; [done|]. intros (a' & Hne & Ha'). assert (m_get key' bt = Some h') by (apply to_deferred0; eauto). congruence.
    + rewrite to_deferred0. split; intros [a' Ha']; exists a'; [|tauto].
      split; [|done]. intros <-. congruence.
  - intros i h'. rewrite Hget, to_timeout0. split; [by intros [_ ?]|]. intros Hr. split; [|done].
    intros <-. apply to_timeout0 in Hr. congruence.
  - intros h' Hd. destruct (to_drift0 h' Hd) as [? Hk]. split; [done|]. intros k [_ ?]%Hget. auto.
  - intros h' Hd. destruct (to_process0 h' Hd) as [? Hk]. split; [done|]. intros k [_ ?]%Hget. auto.
Qed.

(** A new timer that is not yet in any table. *)
Lemma timers_defer tm nt bt d p rc nr key a :
  timers_ok tm nt bt d p rc nr -> m_get key bt = None ->
  timers_ok (m_set nt (T_deferred a key) tm) (S nt) (m_set key nt bt) d p rc nr.
Proof.
  intros Hok Hb. pose proof (fresh_timer _ _ _ _ _ _ _ Hok) as Hf.
  destruct Hok. split; try done.
  - by apply NoDup_m_set.
  - intros h. rewrite m_get_set. case_decide; [lia|]. intros ?%to_fresh0. lia.
  - by apply NoDup_m_set.
  - intros key' h. rewrite !m_get_set. repeat case_decide; subst; try naive_solver.
  - intros i h. rewrite m_get_set. case_decide; subst; [|apply to_timeout0]. split; [done|].
    intros Hr%to_timeout0. congruence.
  - intros h Hd. destruct (to_drift0 h Hd). split; [lia|]. intros k. rewrite m_get_set. case_decide; [lia|auto].
  - intros h Hd. destruct (to_process0 h Hd). split; [lia|]. intros k. rewrite m_get_set. case_decide; [lia|auto].
Qed.

Lemma timers_track tm nt bt d p rc nr a key :
  timers_ok tm nt bt d p rc nr ->
  timers_ok (m_set nt (T_timeout nr) tm) (S nt) bt d p (m_set nr (mkRace a key nt) rc) (S nr).
Proof.
  intros Hok. pose proof (fresh_timer _ _ _ _ _ _ _ Hok) as Hf. pose proof (fresh_race _ _ _ _ _ _ _ Hok) as Hg.
  destruct Hok. split; try done.
  - by apply NoDup_m_set.
  - intros h. rewrite m_get_set. case_decide; [lia|]. intros ?%to_fresh0. lia.
  - by apply NoDup_m_set.
  - intros i. rewrite m_get_set. case_decide; [lia|]. intros ?%to_races_fresh0. lia.
  - intros key' h. rewrite m_get_set. case_decide; subst; [|apply to_deferred0].
    rewrite to_deferred0. naive_solver.
  - intros i h. rewrite !m_get_set. repeat case_decide; subst; try naive_solver.
  - intros h Hd. destruct (to_drift0 h Hd). split; [lia|]. intros k. rewrite m_get_set. case_decide; [lia|auto].
  - intros h Hd. destruct (to_process0 h Hd). split; [lia|]. intros k. rewrite m_get_set. case_decide; [lia|auto].
Qed.

Lemma timers_settle tm nt bt d p rc nr i r :
  timers_ok tm nt bt d p rc nr -> m_get i rc = Some r ->
  timers_ok (m_delete (rc_timer r) tm) nt bt d p (m_delete i rc) nr.
Proof.
  intros Hok Hr. set (h := rc_timer r).
  assert (Ht : m_get h tm = Some (T_timeout i)) by (apply (to_timeout _ _ _ _ _ _ _ Hok); eauto).
  assert (Hget : forall h' k, m_get h' (m_delete h tm) = Some k <-> h ≠ h' /\ m_get h' tm = Some k).
  { intros h' k. rewrite m_get_delete. case_decide; naive_solver. }
  destruct Hok. split; try done.
  - by apply NoDup_m_delete.
  - intros h' [k [_ Hk]%Hget]. eauto.
  - by apply NoDup_m_delete.
  - intros i'. rewrite m_get_delete. case_decide; [by intros []|auto].
  - intros key h'. setoid_rewrite Hget. rewrite to_deferred0. split; intros [a Ha]; exists a; [|tauto].
    split; [|done]. intros <-. congruence.
  - intros i' h'. rewrite Hget, m_get_delete. case_decide; subst.
    + split; [|naive_solver]. intros [Hne Hi]. assert (m_get i' rc = Some r) by done.
      apply to_timeout0 in Hi as (r' & Hr' & Hh). simplify_eq.
    + rewrite to_timeout0. split; [tauto|]. intros Hr'. split; [|done]. intros <-. apply to_timeout0 in Hr'. congruence.
  - intros h' Hd. destruct (to_drift0 h' Hd) as [? Hk]. split; [done|]. intros k [_ ?]%Hget. auto.
  - intros h' Hd. destruct (to_process0 h' Hd) as [? Hk]. split; [done|]. intros k [_ ?]%Hget. auto.
Qed.

Lemma timers_ext tm nt bt bt' d p rc nr :
  timers_ok tm nt bt d p rc nr -> NoDup (m_keys bt') -> (forall k, m_get k bt' = m_get k bt) ->
  timers_ok tm nt bt' d p rc nr.
Proof. intros [] Hnd He. split; try done. intros key h. by rewrite He. Qed.

Lemma timers_schedule tm nt bt d p rc nr key a :
  timers_ok tm nt bt d p rc nr ->
  timers_ok (match m_get key bt with Some h => m_delete h tm | None => tm end ++ [(nt, T_deferred a key)])
    (S nt) (m_set key nt bt) d p rc nr.
Proof.
  intros Hok. destruct (m_get key bt) as [h|] eqn:E.
  - pose proof (timers_forget _ _ _ _ _ _ _ _ _ Hok E) as Hok'.
    rewrite <-m_set_absent by (by eapply fresh_timer).
    eapply timers_ext; [eapply timers_defer; [exact Hok'|apply m_get_delete_eq]| |].
    + apply NoDup_m_set. by apply (to_bt_nodup _ _ _ _ _ _ _ Hok).
    + intros k. rewrite !m_get_set. case_decide; [done|]. by rewrite m_get_delete_ne.
  - rewrite <-m_set_absent by (by eapply fresh_timer). by apply timers_defer.
Qed.

Lemma timers_interval tm nt bt d p rc nr k :
  timers_ok tm nt bt d p rc nr -> k = T_processTick \/ k = T_driftSweep ->
  timers_ok (tm ++ [(nt, k)]) (S nt) bt d p rc nr.
Proof.
  intros Hok Hk. pose proof (fresh_timer _ _ _ _ _ _ _ Hok) as Hf. rewrite <-m_set_absent by done.
  assert (Hget : forall h x, m_get h (m_set nt k tm) = Some x -> x ≠ T_processTick -> x ≠ T_driftSweep -> m_get h tm = Some x).
  { intros h x. rewrite m_get_set. case_decide; naive_solver. }
  assert (Hold : forall h x, m_get h tm = Some x -> m_get h (m_set nt k tm) = Some x).
  { intros h x Hx. rewrite m_get_set. case_decide; congruence. }
  destruct Hok. split; try done.
  - by apply NoDup_m_set.
  - intros h. rewrite m_get_set. case_decide; [lia|]. intros ?%to_fresh0. lia.
  - intros key h. rewrite to_deferred0. split; intros [a Ha]; exists a; [by apply Hold|by apply Hget].
  - intros i h. rewrite <-to_timeout0. split; intros Ha; [by apply Hget|by apply Hold].
  - intros h Hd. destruct (to_drift0 h Hd). split; [lia|]. intros x. rewrite m_get_set. case_decide; [lia|auto].
  - intros h Hd. destruct (to_process0 h Hd). split; [lia|]. intros x. rewrite m_get_set. case_decide; [lia|auto].
Qed.

Lemma timers_handles tm nt bt d p rc nr d' p' :
  timers_ok tm nt bt d p rc nr ->
  (forall h, d' = Some h -> (h < nt)%nat /\ forall k, m_get h tm = Some k -> k = T_driftSweep) ->
  (forall h, p' = Some h -> (h < nt)%nat /\ forall k, m_get h tm = Some k -> k = T_processTick) ->
  timers_ok tm nt bt d' p' rc nr.
Proof. intros []. by split. Qed.

(** Clearing a timer that is in no table. *)
Lemma timers_drop tm nt bt d p rc nr h :
  timers_ok tm nt bt d p rc nr ->
  (forall k, m_get h tm = Some k -> k = T_processTick \/ k = T_driftSweep) ->
  timers_ok (m_delete h tm) nt bt d p rc nr.
Proof.
  intros Hok Hk.
  assert (Hget : forall h' k, m_get h' (m_delete h tm) = Some k <-> h ≠ h' /\ m_get h' tm = Some k).
  { intros h' k. rewrite m_get_delete. case_decide; naive_solver. }
  destruct Hok. split; try done.
  - by apply NoDup_m_delete.
  - intros h' [k [_ Hx]%Hget]. eauto.
  - intros key h'. setoid_rewrite Hget. rewrite to_deferred0. split; intros [a Ha]; exists a; [|tauto].
    split; [|done]. intros <-. by destruct (Hk _ Ha).
  - intros i h'. rewrite Hget, <-to_timeout0. split; [tauto|]. intros Hi. split; [|done]. intros <-. by destruct (Hk _ Hi).
  - intros h' Hd. destruct (to_drift0 h' Hd) as [? Hx]. split; [done|]. intros k [_ ?]%Hget. auto.
  - intros h' Hd. destruct (to_process0 h' Hd) as [? Hx]. split; [done|]. intros k [_ ?]%Hget. auto.
Qed.

(** The jittered delay stays between the base and the cap. *)
Lemma computeBackoff_bounds random prev base cap :
  0 <= random < 2 ^ 53 -> base <= cap -> base <= computeBackoff random prev base cap <= cap.
Proof.
  intros Hr Hb. unfold computeBackoff. set (upper := Z.min cap (Z.max base (prev * 3))).
  assert (base <= upper <= cap) by lia.
  assert (0 <= random * (upper - base) / 2 ^ 53) by (apply Z.div_pos; nia).
  assert (random * (upper - base) / 2 ^ 53 <= upper - base); [|lia].
  apply Z.div_le_upper_bound; nia.
Qed.

Section Invariants.
Context {Q : Type} `{!WorkQueue string Q}.
Variable config : RunnerConfig.
Variable answer : nat -> Answer.
Variable random : nat -> Z.

Implicit Types s : Runner (Q := Q).

(** ** Resources *)

Definition res_ok s : Prop :=
  wq_ok (queue s) /\
  inFlightCount s = Z.of_nat (length (races s)) /\
  (0 < maxConcurrentReconciles config -> inFlightCount s <= maxConcurrentReconciles config) /\
  timers_ok (timers s) (nextTimer s) (backoffTimers s) (driftSweepTimer s) (processTickTimer s)
    (races s) (nextRace s).

Lemma res_queue (f : Q -> Q) s : (wq_ok (queue s) -> wq_ok (f (queue s))) -> res_ok s -> res_ok (set_queue f s).
Proof. intros Hf (? & ? & ? & ?). split; [by apply Hf|done]. Qed.

Lemma res_enqueue a s : res_ok s -> res_ok (set_queue (wq_enqueue a) s).
Proof. intros Hs. apply res_queue; [|done]. intros. by apply wq_enqueue_ok. Qed.

Lemma res_complete a s : res_ok s -> res_ok (set_queue (wq_complete a) s).
Proof. intros Hs. apply res_queue; [|done]. intros. by apply wq_complete_ok. Qed.

Lemma res_remove a s : res_ok s -> res_ok (set_queue (wq_remove a) s).
Proof. intros Hs. apply res_queue; [|done]. intros. by apply wq_remove_ok. Qed.

Lemma res_dequeue s : res_ok s -> res_ok (set_queue (fun _ => (wq_dequeue (queue s)).2) s).
Proof. intros Hs. apply res_queue; [|done]. intros. by apply wq_dequeue_ok. Qed.

Lemma res_foldl {A : Type} (f : Runner (Q := Q) -> A -> Runner) xs s :
  (forall s x, res_ok s -> res_ok (f s x)) -> res_ok s -> res_ok (foldl f s xs).
Proof. intros Hf. revert s. induction xs as [|x xs IH]; intros s Hs; [done|]. simpl. auto. Qed.

Lemma res_schedule a key ms s : res_ok s -> res_ok (scheduleDeferredEnqueue a key ms s).
Proof.
  intros (Hq & Hc & Hm & Ht). pose proof (timers_schedule _ _ _ _ _ _ _ key a Ht) as Ht'.
  unfold scheduleDeferredEnqueue, clear_timer. destruct (m_get key (backoffTimers s)); exact (conj Hq (conj Hc (conj Hm Ht'))).
Qed.

Lemma res_handleResult a key r s : res_ok s -> res_ok (handleResult a key r s).
Proof. intros Hs. destruct r; [exact Hs|by apply res_schedule|exact Hs|by apply res_schedule]. Qed.

Lemma res_handleError a key s : res_ok s -> res_ok (handleError config random a key s).
Proof. intros Hs. unfold handleError, draw. case_match; [exact Hs|by apply res_schedule]. Qed.

Lemma res_settlePending a s : res_ok s -> res_ok (settleAsyncPending a s).
Proof. intros Hs. unfold settleAsyncPending. case_match; [by apply res_complete|exact Hs]. Qed.

Lemma length_m_delete {V : Type} (k : nat) (v : V) (m : list (nat * V)) :
  NoDup (m_keys m) -> m_get k m = Some v -> length m = S (length (m_delete k m)).
Proof.
  intros Hnd Hk. destruct (m_split m k v) as (m1 & m2 & Hm & _ & Hd); [done..|].
  rewrite Hd, Hm, !length_app. simpl. lia.
Qed.

Lemma res_end_race i r s :
  res_ok s -> m_get i (races s) = Some r -> res_ok (clear_timer (Some (rc_timer r)) (end_race i s)).
Proof.
  intros (Hq & Hc & Hm & Ht) Hr. pose proof (timers_settle _ _ _ _ _ _ _ i r Ht Hr) as Ht'.
  pose proof (length_m_delete i r (races s) (to_races_nodup _ _ _ _ _ _ _ Ht) Hr) as Hl.
  split; [done|]. split; [simpl; lia|]. split; [simpl; intros; lia|done].
Qed.

Lemma res_settle i out s : res_ok s -> res_ok (settle config random i out s).
Proof.
  intros Hs. unfold settle. destruct (m_get i (races s)) as [r|] eqn:E; [|done].
  apply res_settlePending. destruct out; [apply res_handleResult|apply res_handleError]; by apply res_end_race.
Qed.

Lemma res_async a c s : res_ok s -> res_ok (handleAsyncReconcile config a c s).
Proof.
  intros Hs. unfold handleAsyncReconcile. destruct (_ && _) eqn:Hcap; [exact (res_enqueue a s Hs)|].
  destruct Hs as (Hq & Hc & Hm & Ht).
  pose proof (timers_track _ _ _ _ _ _ _ a (circuitKey a c) Ht) as Ht'.
  rewrite (m_set_absent (timers s)), (m_set_absent (races s)) in Ht' by (by eapply fresh_timer || by eapply fresh_race).
  split; [done|]. simpl. split; [rewrite length_app; simpl; lia|]. split; [|done].
  intros Hpos. apply andb_false_iff in Hcap as [?|?]; lia.
Qed.

Lemma res_cleanup_key key s : res_ok s -> res_ok (cleanup_key key s).
Proof.
  intros Hs. unfold cleanup_key. simpl. destruct (m_get key (backoffTimers s)) as [h|] eqn:E; [|exact Hs].
  destruct Hs as (Hq & Hc & Hm & Ht). pose proof (timers_forget _ _ _ _ _ _ _ _ _ Ht E) as Ht'.
  exact (conj Hq (conj Hc (conj Hm Ht'))).
Qed.

Lemma res_cleanup a s : res_ok s -> res_ok (cleanupAgent a s).
Proof.
  intros Hs. unfold cleanupAgent. apply (res_foldl (fun s c => cleanup_key (circuitKey a c) s)); [|done].
  intros s' c. apply res_cleanup_key.
Qed.

Lemma res_reset a s : res_ok s -> res_ok (resetCircuitBreaker a s).
Proof. intros Hs. unfold resetCircuitBreaker. apply res_foldl; [|done]. intros s' c Hs'. exact Hs'. Qed.

Lemma res_enqueue_all l s : res_ok s -> res_ok (enqueue_all l s).
Proof. intros Hs. apply res_foldl; [|done]. intros s' a. apply res_enqueue. Qed.

Lemma timers_clear_all tm nt bt d p rc nr :
  timers_ok tm nt bt d p rc nr -> timers_ok (foldl (fun tm h => m_delete h tm) tm (m_values bt)) nt [] d p rc nr.
Proof.
  revert tm. induction bt as [|[key h] bt IH]; intros tm Hok; [done|]. simpl. apply IH.
  pose proof (to_bt_nodup _ _ _ _ _ _ _ Hok) as Hnd. apply NoDup_cons in Hnd as [Hk _].
  pose proof (timers_forget _ _ _ _ _ _ _ key h Hok) as Hf. simpl in Hf. rewrite decide_True in Hf by done.
  specialize (Hf eq_refl). unfold m_delete at 2 in Hf. rewrite filter_cons in Hf. simpl in Hf.
  rewrite decide_False in Hf by (intros Hx; by apply Hx). fold (m_delete key bt) in Hf.
  rewrite (m_delete_absent bt) in Hf; [done|]. by apply not_elem_of_m_keys.
Qed.

Lemma clear_all_frame hs s :
  foldl (fun s h => clear_timer (Some h) s) s hs =
    set_timers (fun _ => foldl (fun tm h => m_delete h tm) (timers s) hs) s.
Proof.
  revert s. induction hs as [|h hs IH]; intros s; simpl; [by destruct s|]. rewrite IH. reflexivity.
Qed.

Lemma res_clear_interval h s :
  (forall h', h = Some h' -> forall k, m_get h' (timers s) = Some k -> k = T_processTick \/ k = T_driftSweep) ->
  res_ok s -> res_ok (clear_timer h s).
Proof.
  intros Hk Hs. destruct h as [h|]; [|exact Hs]. destruct Hs as (Hq & Hc & Hm & Ht).
  pose proof (timers_drop _ _ _ _ _ _ _ h Ht (Hk h eq_refl)) as Ht'. exact (conj Hq (conj Hc (conj Hm Ht'))).
Qed.

Lemma res_dispose s : res_ok s -> res_ok (dispose s).
Proof.
  intros Hs. unfold dispose. rewrite clear_all_frame.
  set (s1 := clear_timer (processTickTimer (set_disposed s)) (clear_timer (driftSweepTimer (set_disposed s)) (set_disposed s))).
  assert (H0 : res_ok (clear_timer (driftSweepTimer (set_disposed s)) (set_disposed s))).
  { apply res_clear_interval; [|exact Hs]. intros h Hh k Hk. right.
    destruct Hs as (_ & _ & _ & Ht). by apply (to_drift _ _ _ _ _ _ _ Ht h Hh). }
  assert (H1 : res_ok s1).
  { apply res_clear_interval; [|exact H0]. intros h Hh k Hk. left. destruct H0 as (_ & _ & _ & Ht).
    apply (to_process _ _ _ _ _ _ _ Ht h); [|done]. by destruct (driftSweepTimer (set_disposed s)). }
  destruct H1 as (Hq & Hc & Hm & Ht). split; [apply wq_clear_ok|]. split; [exact Hc|]. split; [exact Hm|].
  by apply timers_clear_all.
Qed.

Lemma res_signal s sig : res_ok s -> res_ok (handle_signal s sig).
Proof.
  intros Hs. destruct sig; unfold handle_signal, sweep; try (destruct (disposed s); [done|]).
  - by apply res_reset, res_enqueue.
  - by apply res_reset, res_enqueue.
  - by apply res_cleanup, res_remove.
  - by apply res_enqueue_all.
  - by apply res_dispose.
Qed.

Lemma res_call a c s : res_ok s -> res_ok (call_controller config answer random a c s).
Proof.
  intros Hs. unfold call_controller.
  assert (Hd : res_ok (foldl handle_signal (log (o_reconcile a c) s) (an_during (answer (calls s))))).
  { apply res_foldl; [|exact Hs]. apply res_signal. }
  destruct (an_outcome _); [by apply res_handleResult|by apply res_handleError|by apply res_async].
Qed.

Lemma res_controllers a cs s : res_ok s -> res_ok (process_controllers config answer random a cs s).
Proof.
  revert s. induction cs as [|c cs IH]; intros s Hs; [done|]. simpl.
  destruct (disposed s); [done|]. destruct (_ >=? _); [by apply IH|by apply IH, res_call].
Qed.

Lemma res_processOne now a s : res_ok s -> res_ok (processOne config answer random now a s).
Proof.
  intros Hs. unfold processOne. pose proof (res_controllers a (controllers s) s Hs) as Hc.
  destruct (m_has _ _); [exact Hc|by apply res_complete].
Qed.

Lemma res_batch now n s : res_ok s -> res_ok (process_batch config answer random now n s).
Proof.
  revert s. induction n as [|n IH]; intros s Hs; [done|]. simpl. destruct (disposed s); [done|].
  destruct (_ && _); [done|]. pose proof (res_dequeue s Hs) as Hd.
  destruct (wq_dequeue (queue s)) as [[a|] q]; [|exact Hd]. by apply IH, res_processOne.
Qed.

Lemma m_delete_idem {V : Type} (h : nat) (m : list (nat * V)) : m_delete h (m_delete h m) = m_delete h m.
Proof. apply m_delete_absent, m_get_delete_eq. Qed.

(** A timeout that fires does what settling its race with an error does. *)
Lemma fire_timeout i r s :
  res_ok s -> m_get i (races s) = Some r ->
  settle config random i None (set_timers (m_delete (rc_timer r)) s) = settle config random i None s.
Proof.
  intros Hs Hr. unfold settle. simpl. rewrite Hr. do 2 f_equal.
  unfold clear_timer, set_timers, end_race. simpl. by rewrite m_delete_idem.
Qed.

Lemma res_fire h now l s : res_ok s -> res_ok (fire config answer random h now l s).
Proof.
  intros Hs. unfold fire. destruct (m_get h (timers s)) as [[a key|i| |]|] eqn:E; [..|done].
  - destruct Hs as (Hq & Hc & Hm & Ht).
    assert (Hb : m_get key (backoffTimers s) = Some h) by (apply (to_deferred _ _ _ _ _ _ _ Ht); eauto).
    pose proof (timers_forget _ _ _ _ _ _ _ _ _ Ht Hb) as Ht'.
    assert (Hb' : m_get key (backoffTimers (if disposed (set_timers (m_delete h) s) then set_timers (m_delete h) s
      else set_queue (wq_enqueue a) (set_timers (m_delete h) s))) = Some h) by (by destruct (disposed _)).
    rewrite decide_True by done. destruct (disposed (set_timers (m_delete h) s)).
    + exact (conj Hq (conj Hc (conj Hm Ht'))).
    + apply (res_enqueue a (set_backoffTimers (m_delete key) (set_timers (m_delete h) s))).
      exact (conj Hq (conj Hc (conj Hm Ht'))).
  - pose proof Hs as (_ & _ & _ & Ht). apply (to_timeout _ _ _ _ _ _ _ Ht) in E as (r & Hr & <-).
    rewrite (fire_timeout i r) by done. by apply res_settle.
  - unfold processTick. destruct (disposed s); [done|by apply res_batch].
  - unfold driftSweep. destruct (disposed s); [done|]. apply res_foldl; [|done].
    intros s' a Hs'. destruct (m_get a (lastReconciledAt s')); [case_match|]; try by apply res_enqueue. exact Hs'.
Qed.

Lemma res_start l s : res_ok s -> res_ok (start l s).
Proof.
  intros Hs. unfold start. destruct (disposed s); [done|].
  pose proof (res_enqueue_all l s Hs) as (Hq & Hc & Hm & Ht). set (s1 := enqueue_all l s) in *.
  pose proof (timers_interval _ _ _ _ _ _ _ T_processTick Ht (or_introl eq_refl)) as Ht1.
  pose proof (timers_interval _ _ _ _ _ _ _ T_driftSweep Ht1 (or_intror eq_refl)) as Ht2.
  split; [exact Hq|]. split; [exact Hc|]. split; [exact Hm|].
  pose proof (fresh_timer _ _ _ _ _ _ _ Ht) as Hf. pose proof (fresh_timer _ _ _ _ _ _ _ Ht1) as Hf1.
  assert (G1 : m_get (S (nextTimer s1)) ((timers s1 ++ [(nextTimer s1, T_processTick)]) ++
    [(S (nextTimer s1), T_driftSweep)]) = Some T_driftSweep).
  { rewrite m_get_app, Hf1. simpl. by rewrite decide_True. }
  assert (G2 : m_get (nextTimer s1) ((timers s1 ++ [(nextTimer s1, T_processTick)]) ++
    [(S (nextTimer s1), T_driftSweep)]) = Some T_processTick).
  { rewrite !m_get_app, Hf. simpl. by rewrite decide_True. }
  eapply timers_handles; [exact Ht2| |]; intros h [= <-]; (split; [simpl; lia|]); intros k Hk.
  - pose proof (eq_trans (eq_sym G1) Hk). congruence.
  - pose proof (eq_trans (eq_sym G2) Hk). congruence.
Qed.

Lemma res_step s e : res_ok s -> res_ok (step config answer random s e).
Proof.
  intros Hs. destruct e; simpl; [by apply res_start|exact Hs|by apply res_signal|by apply res_fire|by apply res_settle].
Qed.

Lemma res_run events : res_ok (run config answer random events).
Proof.
  unfold run. apply res_foldl; [apply res_step|].
  split; [apply wq_new_ok|]. split; [done|]. split; [simpl; lia|].
  split; simpl; try apply NoDup_nil_2; try (by intros ? []); try done.
  - intros key h. split; [done|by intros []].
  - intros i h. split; [done|by intros (? & ? & _)].
Qed.

(** ** After disposal *)

Definition silent (f : Runner (Q := Q) -> Runner (Q := Q)) : Prop :=
  forall s, trace (f s) = trace s /\ (disposed s = true -> disposed (f s) = true).

Lemma silent_compose f g : silent f -> silent g -> silent (fun s => f (g s)).
Proof. intros Hf Hg s. destruct (Hf (g s)), (Hg s). split; [congruence|auto]. Qed.

Lemma silent_foldl {A : Type} (f : Runner (Q := Q) -> A -> Runner) xs :
  (forall x, silent (fun s => f s x)) -> silent (fun s => foldl f s xs).
Proof.
  intros Hf. induction xs as [|x xs IH]; intros s; [done|]. simpl.
  destruct (IH (f s x)) as [-> IH2], (Hf x s) as [-> H2]. auto.
Qed.

Lemma silent_schedule a key ms : silent (scheduleDeferredEnqueue a key ms).
Proof. intros s. unfold scheduleDeferredEnqueue, clear_timer. by destruct (m_get _ _). Qed.

Lemma silent_handleResult a key r : silent (handleResult a key r).
Proof.
  intros s. destruct r as [|ms|reason|ms]; try done.
  - exact (silent_schedule a key ms (set_breaker (m_delete key) id (set_counts 0 1 0 s))).
  - exact (silent_schedule a key ms (set_breaker (m_delete key) id (set_counts 1 0 0 s))).
Qed.

Lemma silent_handleError a key : silent (handleError config random a key).
Proof.
  intros s. unfold handleError, draw. case_match; [done|].
  match goal with |- context [scheduleDeferredEnqueue a key ?ms ?s'] => exact (silent_schedule a key ms s') end.
Qed.

Lemma silent_settlePending a : silent (settleAsyncPending a).
Proof. intros s. unfold settleAsyncPending. by case_match. Qed.

Lemma silent_settle i out : silent (settle config random i out).
Proof.
  intros s. unfold settle. destruct (m_get _ _) as [r|]; [|done].
  destruct out as [res|].
  - exact (silent_compose _ _ (silent_settlePending _) (silent_handleResult (rc_agent r) (rc_key r) res)
      (clear_timer (Some (rc_timer r)) (end_race i s))).
  - exact (silent_compose _ _ (silent_settlePending _) (silent_handleError (rc_agent r) (rc_key r))
      (clear_timer (Some (rc_timer r)) (end_race i s))).
Qed.

Lemma silent_cleanup_key key : silent (cleanup_key key).
Proof. intros s. unfold cleanup_key. simpl. by destruct (m_get _ _). Qed.

Lemma silent_reset a s : trace (resetCircuitBreaker a s) = trace s.
Proof.
  refine (proj1 (silent_foldl (fun s c => set_breaker (m_delete (circuitKey a c)) (m_delete (circuitKey a c)) s) _ _ s)).
  by intros c s'.
Qed.

Lemma silent_signal sig : silent (fun s => handle_signal s sig).
Proof.
  intros s. destruct sig as [a|a|a|l|]; unfold handle_signal, sweep.
  5:{ unfold dispose. rewrite clear_all_frame. unfold clear_timer.
      by destruct (driftSweepTimer _), (processTickTimer _). }
  all: destruct (disposed s) eqn:E; rewrite ?E; [done|split; [|done]].
  - exact (silent_reset a (set_queue (wq_enqueue a) s)).
  - exact (silent_reset a (set_queue (wq_enqueue a) s)).
  - exact (proj1 (silent_foldl (fun s c => cleanup_key (circuitKey a c) s) (controllers s)
      (fun c => silent_cleanup_key (circuitKey a c)) (set_queue (wq_remove a) s))).
  - exact (proj1 (silent_foldl (fun s a => set_queue (wq_enqueue a) s) l (fun a s => conj eq_refl (fun H => H)) s)).
Qed.

Lemma disposed_step s e :
  disposed s = true -> disposed (step config answer random s e) = true /\ trace (step config answer random s e) = trace s.
Proof.
  intros Hd. destruct e as [l|c|sig|h now l|i out]; cbn [step].
  - unfold start. by rewrite Hd.
  - done.
  - destruct (silent_signal sig s). auto.
  - unfold fire. destruct (m_get h (timers s)) as [[a key|i| |]|]; [..|done].
    + replace (disposed (set_timers (m_delete h) s)) with true by done. by case_decide.
    + destruct (silent_settle i None (set_timers (m_delete h) s)) as [-> H]. split; [by apply H|done].
    + unfold processTick. by rewrite Hd.
    + unfold driftSweep. by rewrite Hd.
  - destruct (silent_settle i out s). auto.
Qed.

(** ** No overlapping passes

    As long as nothing is deregistered and the runner is not disposed. *)

Definition owned s (a : string) : nat := length (filter (fun p : nat * Race => rc_agent p.2 = a) (races s)).

Definition excl_ok s : Prop :=
  (forall a, default 0 (m_get a (asyncPending s)) = Z.of_nat (owned s a)) /\
  (forall a n, m_get a (asyncPending s) = Some n -> 0 < n) /\
  (forall a, owned s a <> 0%nat -> a ∈ q_active (wq_view (queue s))).

(** Signals and events that neither deregister an agent nor dispose the runner. *)
Definition keeps (sig : Signal) : bool :=
  match sig with s_deregistered _ | s_dispose => false | _ => true end.

Definition keeps_event (e : Event) : bool := match e with e_signal sig => keeps sig | _ => true end.

Definition polite : Prop := forall n, Forall (fun sig => keeps sig = true) (an_during (answer n)).

Lemma excl_queue f s :
  (forall a, owned s a <> 0%nat -> a ∈ q_active (wq_view (queue s)) -> a ∈ q_active (wq_view (f (queue s)))) ->
  excl_ok s -> excl_ok (set_queue f s).
Proof. intros Hf (Hp & Hpos & Ha). split; [exact Hp|]. split; [exact Hpos|]. intros a Ho. apply Hf; [exact Ho|auto]. Qed.

Lemma active_enqueue a s :
  wq_ok (queue s) -> q_active (wq_view (wq_enqueue a (queue s))) = q_active (wq_view (queue s)).
Proof. intros Hq. destruct (wq_enqueue_ok a (queue s) Hq) as [_ ->]. unfold spec_enqueue. by case_decide. Qed.

Lemma excl_enqueue a s : res_ok s -> excl_ok s -> excl_ok (set_queue (wq_enqueue a) s).
Proof. intros [Hq _]. apply excl_queue. intros b _. by rewrite active_enqueue. Qed.

Lemma excl_complete a s : res_ok s -> owned s a = 0%nat -> excl_ok s -> excl_ok (set_queue (wq_complete a) s).
Proof.
  intros [Hq _] Ho. apply excl_queue. intros b Hb Hact.
  destruct (wq_complete_ok a (queue s) Hq) as [_ ->]. unfold spec_complete.
  assert (b ≠ a) by (intros ->; contradiction). case_decide; simpl; by apply elem_of_s_delete.
Qed.

Lemma schedule_frame a key ms s :
  queue (scheduleDeferredEnqueue a key ms s) = queue s /\ asyncPending (scheduleDeferredEnqueue a key ms s) = asyncPending s /\
  races (scheduleDeferredEnqueue a key ms s) = races s /\ controllers (scheduleDeferredEnqueue a key ms s) = controllers s /\
  consecutiveFailures (scheduleDeferredEnqueue a key ms s) = consecutiveFailures s /\
  disposed (scheduleDeferredEnqueue a key ms s) = disposed s.
Proof. unfold scheduleDeferredEnqueue, clear_timer. by destruct (m_get _ _). Qed.

Lemma handleResult_frame a key r s :
  queue (handleResult a key r s) = queue s /\ asyncPending (handleResult a key r s) = asyncPending s /\
  races (handleResult a key r s) = races s /\ controllers (handleResult a key r s) = controllers s /\
  consecutiveFailures (handleResult a key r s) = m_delete key (consecutiveFailures s) /\
  disposed (handleResult a key r s) = disposed s.
Proof.
  destruct r as [|ms|reason|ms]; try done; unfold handleResult.
  - exact (schedule_frame a key ms (set_breaker (m_delete key) id (set_counts 0 1 0 s))).
  - exact (schedule_frame a key ms (set_breaker (m_delete key) id (set_counts 1 0 0 s))).
Qed.

Lemma handleError_frame a key s :
  queue (handleError config random a key s) = queue s /\
  asyncPending (handleError config random a key s) = asyncPending s /\
  races (handleError config random a key s) = races s /\
  controllers (handleError config random a key s) = controllers s /\
  consecutiveFailures (handleError config random a key s) =
    m_set key (default 0 (m_get key (consecutiveFailures s)) + 1) (consecutiveFailures s) /\
  disposed (handleError config random a key s) = disposed s.
Proof.
  unfold handleError, draw. case_match; [done|].
  match goal with |- context [scheduleDeferredEnqueue a key ?ms ?s'] => exact (schedule_frame a key ms s') end.
Qed.

Lemma excl_frame s s' :
  queue s' = queue s -> asyncPending s' = asyncPending s -> races s' = races s -> excl_ok s -> excl_ok s'.
Proof. unfold excl_ok, owned. by intros -> -> ->. Qed.

Lemma excl_handleResult a key r s : excl_ok s -> excl_ok (handleResult a key r s).
Proof. destruct (handleResult_frame a key r s) as (? & ? & ? & _). by apply excl_frame. Qed.

Lemma excl_handleError a key s : excl_ok s -> excl_ok (handleError config random a key s).
Proof. destruct (handleError_frame a key s) as (? & ? & ? & _). by apply excl_frame. Qed.

Lemma owned_m_delete (a : string) i r (m : list (nat * Race)) :
  NoDup (m_keys m) -> m_get i m = Some r ->
  length (filter (fun p : nat * Race => rc_agent p.2 = a) m) =
    ((if decide (rc_agent r = a) then 1 else 0) +
     length (filter (fun p : nat * Race => rc_agent p.2 = a) (m_delete i m)))%nat.
Proof.
  intros Hnd Hk. destruct (m_split m i r) as (m1 & m2 & Hm & _ & Hd); [done..|].
  rewrite Hd, Hm, !filter_app, filter_cons, !length_app. simpl. case_decide; simpl; lia.
Qed.

(** Settling a race: one owner less, and completion only after the last. *)
Lemma excl_settle i out s : res_ok s -> excl_ok s -> excl_ok (settle config random i out s).
Proof.
  intros Hs (Hp & Hpos & Hact). unfold settle. destruct (m_get i (races s)) as [r|] eqn:Hr; [|by split].
  set (s1 := clear_timer (Some (rc_timer r)) (end_race i s)).
  assert (Hframe : exists s2, (match out with Some result => handleResult (rc_agent r) (rc_key r) result s1
      | None => handleError config random (rc_agent r) (rc_key r) s1 end) = s2 /\
      res_ok s2 /\ queue s2 = queue s /\ asyncPending s2 = asyncPending s /\ races s2 = m_delete i (races s)).
  { eexists. split; [reflexivity|]. split.
    - destruct out; [apply res_handleResult|apply res_handleError]; by apply res_end_race.
    - destruct out as [res|].
      + destruct (handleResult_frame (rc_agent r) (rc_key r) res s1) as (-> & -> & -> & _). done.
      + destruct (handleError_frame (rc_agent r) (rc_key r) s1) as (-> & -> & -> & _). done. }
  destruct Hframe as (s2 & -> & Hs2 & Hq & Ha & Hrc).
  assert (Hcount : forall b, owned s b = ((if decide (rc_agent r = b) then 1 else 0) + owned s2 b)%nat).
  { intros b. unfold owned. rewrite Hrc. apply owned_m_delete; [|done].
    by destruct Hs as (_ & _ & _ & []). }
  pose proof (Hcount (rc_agent r)) as Hown. rewrite decide_True in Hown by done.
  assert (Hg : m_get (rc_agent r) (asyncPending s) = Some (Z.of_nat (owned s (rc_agent r)))).
  { specialize (Hp (rc_agent r)). destruct (m_get _ _); simpl in Hp; [by rewrite Hp|lia]. }
  assert (Hother : forall b, b ≠ rc_agent r -> owned s2 b = owned s b).
  { intros b Hb. rewrite (Hcount b). by rewrite decide_False by done. }
  unfold settleAsyncPending. rewrite Ha, Hg. simpl. destruct (_ <=? 0) eqn:Hle.
  - assert (Hz : owned s2 (rc_agent r) = 0%nat) by lia.
    apply (excl_complete (rc_agent r) (set_pending (m_delete (rc_agent r)) s2)); [exact Hs2|exact Hz|].
    split; [|split].
    + intros b. change (default 0 (m_get b (m_delete (rc_agent r) (asyncPending s2))) = Z.of_nat (owned s2 b)).
      rewrite Ha, m_get_delete. case_decide as Hb; [subst b; by rewrite Hz|]. rewrite Hp. by rewrite <-Hother.
    + intros b n. change (m_get b (m_delete (rc_agent r) (asyncPending s2)) = Some n -> 0 < n).
      rewrite Ha, m_get_delete. case_decide; [done|eauto].
    + intros b Hb. change (b ∈ q_active (wq_view (queue s2))). rewrite Hq. apply Hact.
      change (owned s2 b ≠ 0%nat) in Hb. specialize (Hcount b). lia.
  - split; [|split].
    + intros b. change (default 0 (m_get b (m_set (rc_agent r) (Z.of_nat (owned s (rc_agent r)) - 1) (asyncPending s2)))
        = Z.of_nat (owned s2 b)).
      rewrite Ha, m_get_set. case_decide as Hb; [subst b; simpl; lia|]. rewrite Hp. by rewrite <-Hother.
    + intros b n. change (m_get b (m_set (rc_agent r) (Z.of_nat (owned s (rc_agent r)) - 1) (asyncPending s2)) = Some n -> 0 < n).
      rewrite Ha, m_get_set. case_decide; [intros [= <-]; lia|eauto].
    + intros b Hb. change (b ∈ q_active (wq_view (queue s2))). rewrite Hq. apply Hact.
      change (owned s2 b ≠ 0%nat) in Hb. specialize (Hcount b). lia.
Qed.

Definition act (a : string) s : Prop := a ∈ q_active (wq_view (queue s)).

(** Within a pass of [a]: resources, exclusion, and [a] being processed. *)
Definition pass_ok (a : string) s : Prop := res_ok s /\ excl_ok s /\ act a s.

Lemma pass_enqueue a b s : pass_ok a s -> pass_ok a (set_queue (wq_enqueue b) s).
Proof.
  intros (Hr & He & Ha). split; [by apply res_enqueue|]. split; [by apply excl_enqueue|].
  unfold act in *. simpl. rewrite active_enqueue; [done|]. apply Hr.
Qed.

Lemma pass_frame a s s' :
  queue s' = queue s -> asyncPending s' = asyncPending s -> races s' = races s -> res_ok s' -> pass_ok a s -> pass_ok a s'.
Proof.
  intros Hq Hp Hr Hs (_ & He & Ha). split; [done|]. split; [by apply (excl_frame s)|]. unfold act. by rewrite Hq.
Qed.

Lemma reset_fold a cs s :
  let s' := foldl (fun s c => set_breaker (m_delete (circuitKey a c)) (m_delete (circuitKey a c)) s) s cs in
  queue s' = queue s /\ asyncPending s' = asyncPending s /\ races s' = races s /\ timers s' = timers s /\
  controllers s' = controllers s /\ disposed s' = disposed s /\
  forall key n, m_get key (consecutiveFailures s') = Some n -> m_get key (consecutiveFailures s) = Some n.
Proof.
  revert s. induction cs as [|c cs IH]; intros s; [done|]. simpl.
  destruct (IH (set_breaker (m_delete (circuitKey a c)) (m_delete (circuitKey a c)) s)) as (-> & -> & -> & -> & -> & -> & Hf).
  split_and!; try done. intros key n Hk%Hf. simpl in Hk. rewrite m_get_delete in Hk. by case_decide.
Qed.

Lemma reset_frame a s : let s' := resetCircuitBreaker a s in
  queue s' = queue s /\ asyncPending s' = asyncPending s /\ races s' = races s /\ timers s' = timers s /\
  controllers s' = controllers s /\ disposed s' = disposed s /\
  forall key n, m_get key (consecutiveFailures s') = Some n -> m_get key (consecutiveFailures s) = Some n.
Proof. apply reset_fold. Qed.

Lemma pass_signal a s sig : keeps sig = true -> pass_ok a s -> pass_ok a (handle_signal s sig).
Proof.
  intros Hk Hs. pose proof (res_signal s sig (proj1 Hs)) as Hr. destruct sig as [b|b|b|l|]; try done; unfold handle_signal, sweep in *.
  - destruct (disposed s); [done|]. destruct (reset_frame b (set_queue (wq_enqueue b) s)) as (? & ? & ? & _).
    by eapply pass_frame; [..|apply (pass_enqueue a b s Hs)].
  - destruct (disposed s); [done|]. destruct (reset_frame b (set_queue (wq_enqueue b) s)) as (? & ? & ? & _).
    by eapply pass_frame; [..|apply (pass_enqueue a b s Hs)].
  - destruct (disposed s); [done|]. clear Hr Hk. unfold enqueue_all. revert s Hs.
    induction l as [|b l IH]; intros s Hs; [done|]. apply IH. by apply pass_enqueue.
Qed.

Lemma owned_add b r s : owned (add_race r s) b = (owned s b + if decide (rc_agent r = b) then 1 else 0)%nat.
Proof. unfold owned. simpl. rewrite filter_app, length_app, filter_cons. simpl. by case_decide. Qed.

Lemma pass_async a c s : pass_ok a s -> pass_ok a (handleAsyncReconcile config a c s).
Proof.
  intros Hs. pose proof (res_async a c s (proj1 Hs)) as Hr. unfold handleAsyncReconcile in *.
  destruct (_ && _); [exact (pass_enqueue a a s Hs)|]. split; [exact Hr|].
  destruct Hs as (_ & (Hp & Hpos & Hact) & Ha). split; [|exact Ha].
  set (s' := set_pending (m_set a (default 0 (m_get a (asyncPending s)) + 1)) s).
  set (r := mkRace a (circuitKey a c) (nextTimer s')).
  assert (Hown : forall b, owned (add_race r (new_timer (T_timeout (nextRace s')) s').2) b =
    (owned s b + if decide (a = b) then 1 else 0)%nat) by (intros b; by rewrite owned_add).
  split; [|split].
  - intros b. change (default 0 (m_get b (m_set a (default 0 (m_get a (asyncPending s)) + 1) (asyncPending s))) =
      Z.of_nat (owned (add_race r (new_timer (T_timeout (nextRace s')) s').2) b)).
    rewrite Hown, m_get_set. case_decide; subst; [rewrite Hp; simpl; lia|rewrite Hp; lia].
  - intros b n. change (m_get b (m_set a (default 0 (m_get a (asyncPending s)) + 1) (asyncPending s)) = Some n -> 0 < n).
    rewrite m_get_set, Hp. case_decide; [intros [= <-]; lia|eauto].
  - intros b. change (owned (add_race r (new_timer (T_timeout (nextRace s')) s').2) b ≠ 0%nat ->
      b ∈ q_active (wq_view (queue s))). rewrite Hown. case_decide; subst; [done|]. intros ?. apply Hact. lia.
Qed.

Lemma pass_call a c s : polite -> pass_ok a s -> pass_ok a (call_controller config answer random a c s).
Proof.
  intros Hpol Hs. unfold call_controller.
  assert (Hd : pass_ok a (foldl handle_signal (log (o_reconcile a c) s) (an_during (answer (calls s))))).
  { specialize (Hpol (calls s)). revert Hpol. generalize (an_during (answer (calls s))). intros sigs.
    assert (H0 : pass_ok a (log (o_reconcile a c) s)) by exact Hs. revert H0. generalize (log (o_reconcile a c) s).
    induction sigs as [|sig sigs IH]; intros s0 H0 Hf; [done|]. inversion Hf; subst. simpl. apply IH; [by apply pass_signal|done]. }
  destruct (an_outcome _) as [res| |].
  - match goal with |- pass_ok a (handleResult _ _ _ ?s0) => destruct (handleResult_frame a (circuitKey a c) res s0) as (Hq & Hp & Hrc & _) end.
    apply (pass_frame a _ _ Hq Hp Hrc); [|done]. by apply res_handleResult, Hd.
  - match goal with |- pass_ok a (handleError _ _ _ _ ?s0) => destruct (handleError_frame a (circuitKey a c) s0) as (Hq & Hp & Hrc & _) end.
    apply (pass_frame a _ _ Hq Hp Hrc); [|done]. by apply res_handleError, Hd.
  - by apply pass_async.
Qed.

Lemma pass_controllers a cs s : polite -> pass_ok a s -> pass_ok a (process_controllers config answer random a cs s).
Proof.
  intros Hpol. revert s. induction cs as [|c cs IH]; intros s Hs; [done|]. simpl.
  destruct (disposed s); [done|]. destruct (_ >=? _); [by apply IH|by apply IH, pass_call].
Qed.

Lemma excl_processOne now a s : polite -> pass_ok a s ->
  res_ok (processOne config answer random now a s) /\ excl_ok (processOne config answer random now a s).
Proof.
  intros Hpol Hs. pose proof (pass_controllers a (controllers s) s Hpol Hs) as Hc.
  split; [apply res_processOne, Hs|]. unfold processOne. set (s1 := process_controllers _ _ _ _ _ _) in *.
  destruct (m_has _ _) eqn:Hh; [apply Hc|]. destruct Hc as (Hr & He & Ha).
  apply (excl_complete a (set_last (m_set a now) s1)); [exact Hr| |exact He].
  change (owned s1 a = 0%nat). apply m_has_false in Hh. destruct He as (Hp & _). specialize (Hp a).
  change (m_get a (asyncPending s1) = None) in Hh. rewrite Hh in Hp. simpl in Hp. lia.
Qed.

Lemma excl_dequeue s : res_ok s -> excl_ok s ->
  excl_ok (set_queue (fun _ => (wq_dequeue (queue s)).2) s) /\
  forall a, (wq_dequeue (queue s)).1 = Some a -> owned s a = 0%nat /\ act a (set_queue (fun _ => (wq_dequeue (queue s)).2) s).
Proof.
  intros [Hq _] He. destruct (wq_dequeue_ok (queue s) Hq) as [_ Hv]. unfold spec_dequeue in Hv.
  pose proof (wq_view_ok (queue s) Hq) as Hok. split.
  - apply (excl_queue (fun _ => (wq_dequeue (queue s)).2)); [|done]. intros b _ Hb.
    destruct (q_waiting _) as [|k w]; injection Hv as _ ->; [done|]. simpl. apply elem_of_s_add. by right.
  - intros a Ha. rewrite Ha in Hv. unfold act. simpl. destruct (q_waiting _) as [|k w] eqn:Ew; [done|]. injection Hv as -> ->.
    split; [|simpl; apply elem_of_s_add; by left]. destruct He as (_ & _ & Hact).
    destruct (decide (owned s k = 0%nat)) as [?|Hn]; [done|exfalso]. apply (so_disjoint _ Hok k); [rewrite Ew; left|by apply Hact].
Qed.

Lemma excl_batch now n s : polite -> res_ok s -> excl_ok s ->
  res_ok (process_batch config answer random now n s) /\ excl_ok (process_batch config answer random now n s).
Proof.
  intros Hpol. revert s. induction n as [|n IH]; intros s Hr He; [done|]. simpl. destruct (disposed s); [done|].
  destruct (_ && _); [done|]. pose proof (res_dequeue s Hr) as Hr'. destruct (excl_dequeue s Hr He) as [He' Ha].
  destruct (wq_dequeue (queue s)) as [[a|] q]; [|done].
  destruct (excl_processOne now a (set_queue (fun _ => q) s) Hpol) as [H1 H2].
  { split; [done|]. split; [done|]. by apply Ha. }
  by apply IH.
Qed.

Lemma excl_fire h now l s : polite -> res_ok s -> excl_ok s -> excl_ok (fire config answer random h now l s).
Proof.
  intros Hpol Hr He. unfold fire. destruct (m_get h (timers s)) as [[a key|i| |]|] eqn:E; [..|done].
  - assert (Hd : excl_ok (if disposed (set_timers (m_delete h) s) then set_timers (m_delete h) s
      else set_queue (wq_enqueue a) (set_timers (m_delete h) s))).
    { destruct (disposed _); [exact He|exact (excl_enqueue a s Hr He)]. }
    case_decide; exact Hd.
  - pose proof Hr as (_ & _ & _ & Ht). apply (to_timeout _ _ _ _ _ _ _ Ht) in E as (r & Hi & <-).
    rewrite (fire_timeout i r) by done. by apply excl_settle.
  - unfold processTick. destruct (disposed s); [done|by apply excl_batch].
  - unfold driftSweep. destruct (disposed s); [done|].
    match goal with |- excl_ok (foldl ?f s l) => assert (H : forall l s, res_ok s -> excl_ok s -> excl_ok (foldl f s l)); [|by apply H] end.
    clear. intros l. induction l as [|a l IH]; intros s Hr He; [done|]. simpl.
    destruct (m_get a (lastReconciledAt s)); [case_match|]; apply IH; try done; by (apply res_enqueue || apply excl_enqueue).
Qed.

Lemma excl_step s e : polite -> keeps_event e = true -> res_ok s -> excl_ok s -> excl_ok (step config answer random s e).
Proof.
  intros Hpol Hk Hr He. destruct e as [l|c|sig|h now l|i out]; cbn [step].
  - unfold start. destruct (disposed s); [done|]. change (excl_ok (enqueue_all l s)). unfold enqueue_all. clear Hk.
    revert s Hr He. induction l as [|a l IH]; intros s Hr He; [done|]. apply IH; [by apply res_enqueue|by apply excl_enqueue].
  - exact He.
  - destruct sig as [b|b|b|l|]; try done; unfold handle_signal, sweep; (destruct (disposed s); [done|]).
    + destruct (reset_frame b (set_queue (wq_enqueue b) s)) as (? & ? & ? & _). by eapply excl_frame, excl_enqueue.
    + destruct (reset_frame b (set_queue (wq_enqueue b) s)) as (? & ? & ? & _). by eapply excl_frame, excl_enqueue.
    + unfold enqueue_all. clear Hk. revert s Hr He. induction l as [|a l IH]; intros s Hr He; [done|].
      apply IH; [by apply res_enqueue|by apply excl_enqueue].
  - by apply excl_fire.
  - by apply excl_settle.
Qed.

Lemma excl_run events : polite -> Forall (fun e => keeps_event e = true) events -> excl_ok (run config answer random events).
Proof.
  intros Hpol Hf. unfold run.
  assert (H0 : excl_ok createReconcileRunner) by (split; [done|]; split; [done|]; intros a Ha; by destruct Ha).
  pose proof (res_run []) as Hr0. change (res_ok createReconcileRunner) in Hr0. revert H0 Hr0.
  generalize createReconcileRunner. induction Hf as [|e es He Hes IH]; intros s H0 Hr0; [done|]. simpl.
  apply IH; [by apply excl_step|by apply res_step].
Qed.

(** ** Failed controllers are not forgotten *)

(** A key is covered when some agent it belongs to is waiting or will be queued
    again, has a live timer or a tracked promise for it, or when the pass in
    progress ([cur]: its agent and the controllers still to run) will reach it. *)
Definition covered s (cur : option (string * list string)) (key : string) : Prop :=
  exists a c, key = circuitKey a c /\ c ∈ controllers s /\
    (pending a (wq_view (queue s)) \/
     (exists h, m_get h (timers s) = Some (T_deferred a key)) \/
     (exists i r, m_get i (races s) = Some r /\ rc_agent r = a /\ rc_key r = key) \/
     (exists rem, cur = Some (a, rem) /\ c ∈ rem)).

(** Every key with failures below the limit, except [but], is covered. *)
Definition owed_ok (but : option string) (cur : option (string * list string)) s : Prop :=
  disposed s = false -> forall key n, m_get key (consecutiveFailures s) = Some n ->
    n < maxConsecutiveFailures config -> but ≠ Some key -> covered s cur key.

Definition known s : Prop :=
  forall i r, m_get i (races s) = Some r -> exists c, c ∈ controllers s /\ rc_key r = circuitKey (rc_agent r) c.

(** [s'] loses nothing that covers a key. *)
Record loses_nothing s s' : Prop := {
  ln_disposed : disposed s' = false -> disposed s = false;
  ln_failures : forall key n, m_get key (consecutiveFailures s') = Some n -> m_get key (consecutiveFailures s) = Some n;
  ln_controllers : forall c, c ∈ controllers s -> c ∈ controllers s';
  ln_pending : forall a, pending a (wq_view (queue s)) -> pending a (wq_view (queue s'));
  ln_timers : forall h a key, m_get h (timers s) = Some (T_deferred a key) -> m_get h (timers s') = Some (T_deferred a key);
  ln_races : races s' = races s
}.

Lemma owed_keep but cur s s' : loses_nothing s s' -> owed_ok but cur s -> owed_ok but cur s'.
Proof.
  intros [] Ho Hd key n Hk Hn Hb. destruct (Ho (ln_disposed0 Hd) key n (ln_failures0 key n Hk) Hn Hb)
    as (a & c & -> & Hc & Hcov). exists a, c. rewrite ln_races0.
  split; [done|]. split; [auto|]. destruct Hcov as [?|[[h ?]|[?|?]]]; eauto 6.
Qed.

Lemma known_keep s s' : loses_nothing s s' -> known s -> known s'.
Proof. intros [] Hk i r. rewrite ln_races0. intros Hr. destruct (Hk i r Hr) as (c & ? & ?). eauto. Qed.

Definition inv but cur s : Prop := res_ok s /\ known s /\ owed_ok but cur s.

Lemma inv_keep but cur s s' : loses_nothing s s' -> res_ok s' -> inv but cur s -> inv but cur s'.
Proof. intros Hl Hr (_ & Hk & Ho). split; [done|]. split; [by eapply known_keep|by eapply owed_keep]. Qed.

Lemma pending_of_enqueue a b s : wq_ok (queue s) ->
  pending b (wq_view (queue s)) \/ b = a -> pending b (wq_view (wq_enqueue a (queue s))).
Proof.
  intros Hq. destruct (wq_enqueue_ok a (queue s) Hq) as [_ ->]. intros [Hp| ->]; [|apply pending_enqueue].
  unfold pending, spec_enqueue in *. case_decide; simpl; rewrite elem_of_s_add; naive_solver.
Qed.

Lemma keeps_enqueue a s : wq_ok (queue s) -> loses_nothing s (set_queue (wq_enqueue a) s).
Proof. intros Hq. split; try done. intros b Hb. apply pending_of_enqueue; auto. Qed.

Lemma inv_enqueue but cur a s : inv but cur s -> inv but cur (set_queue (wq_enqueue a) s).
Proof. intros Hi. eapply inv_keep; [apply keeps_enqueue, Hi|apply res_enqueue, Hi|done]. Qed.

Lemma pending_of_complete a b s : wq_ok (queue s) ->
  pending b (wq_view (queue s)) -> pending b (wq_view (wq_complete a (queue s))).
Proof.
  intros Hq. destruct (wq_complete_ok a (queue s) Hq) as [_ ->]. unfold pending, spec_complete.
  case_decide as Ha; simpl; [|auto]. rewrite elem_of_app, list_elem_of_singleton, elem_of_s_delete.
  destruct (decide (b = a)); naive_solver.
Qed.

Lemma inv_complete but cur a s : inv but cur s -> inv but cur (set_queue (wq_complete a) s).
Proof.
  intros Hi. eapply inv_keep; [|apply res_complete, Hi|done]. split; try done.
  intros b. apply pending_of_complete, Hi.
Qed.

(** Weakening the exception and the pass. *)
Lemma inv_weaken but but' cur cur' s :
  (forall key, but' ≠ Some key -> but ≠ Some key \/ covered s cur' key) ->
  (forall key, but' ≠ Some key -> covered s cur key -> covered s cur' key) ->
  inv but cur s -> inv but' cur' s.
Proof.
  intros Hb Hc (Hr & Hk & Ho). split; [done|]. split; [done|]. intros Hd key n Hf Hn Hne.
  destruct (Hb key Hne) as [?|?]; [|done]. apply Hc; eauto.
Qed.

Lemma schedule_timers a key ms s : res_ok s ->
  (exists h, m_get h (timers (scheduleDeferredEnqueue a key ms s)) = Some (T_deferred a key)) /\
  forall h a' key', key' ≠ key -> m_get h (timers s) = Some (T_deferred a' key') ->
    m_get h (timers (scheduleDeferredEnqueue a key ms s)) = Some (T_deferred a' key').
Proof.
  intros (_ & _ & _ & Ht). unfold scheduleDeferredEnqueue, clear_timer.
  pose proof (fresh_timer _ _ _ _ _ _ _ Ht) as Hf.
  destruct (m_get key (backoffTimers s)) as [h0|] eqn:E; cbn [new_timer set_timers set_backoffTimers timers nextTimer].
  - apply (to_deferred _ _ _ _ _ _ _ Ht) in E as [a0 E]. split.
    + exists (nextTimer s). rewrite m_get_app, m_get_delete. case_decide; [congruence|]. rewrite Hf. simpl. by rewrite decide_True.
    + intros h a' key' Hne Hh. rewrite m_get_app, m_get_delete. case_decide; [congruence|]. by rewrite Hh.
  - split.
    + exists (nextTimer s). rewrite m_get_app, Hf. simpl. by rewrite decide_True.
    + intros h a' key' _ Hh. by rewrite m_get_app, Hh.
Qed.

Lemma inv_schedule cur a key ms c s : key = circuitKey a c -> c ∈ controllers s ->
  inv (Some key) cur s -> inv None cur (scheduleDeferredEnqueue a key ms s).
Proof.
  intros Hkey Hc (Hr & Hk & Ho). destruct (schedule_timers a key ms s Hr) as [[h0 Hh0] Hkeep].
  destruct (schedule_frame a key ms s) as (Hq & _ & Hrc & Hcs & Hf & Hd). split; [by apply res_schedule|]. split.
  - intros i r. rewrite Hrc, Hcs. apply Hk.
  - intros Hdis key' n Hfn Hn _. rewrite Hd in Hdis. rewrite Hf in Hfn. destruct (decide (key' = key)) as [->|Hne].
    + exists a, c. rewrite Hcs. split; [done|]. split; [done|]. eauto.
    + destruct (Ho Hdis key' n Hfn Hn) as (a' & c' & Hk' & Hc' & Hcov); [congruence|].
      exists a', c'. rewrite Hcs, Hq, Hrc. split; [done|]. split; [done|].
      destruct Hcov as [?|[[h ?]|?]]; eauto 6.
Qed.

Lemma keeps_breaker (f g : list (string * Z) -> list (string * Z)) x y z s :
  (forall key n, m_get key (f (consecutiveFailures s)) = Some n -> m_get key (consecutiveFailures s) = Some n) ->
  loses_nothing s (set_breaker f g (set_counts x y z s)).
Proof. intros Hf. by split. Qed.

Lemma inv_forget cur key g x y z s :
  inv (Some key) cur s -> inv (Some key) cur (set_breaker (m_delete key) g (set_counts x y z s)).
Proof.
  intros Hi. eapply inv_keep; [|exact (proj1 Hi)|done]. apply keeps_breaker.
  intros k n. rewrite m_get_delete. by case_decide.
Qed.

Lemma inv_handleResult cur a key r c s : key = circuitKey a c -> c ∈ controllers s ->
  inv (Some key) cur s -> inv None cur (handleResult a key r s).
Proof.
  intros Hkey Hc Hi.
  assert (Hdone : inv None cur (set_counts 1 0 0 (set_breaker (m_delete key) (m_delete key) s))).
  { apply (inv_forget cur key (m_delete key) 1 0 0 s) in Hi as (Hr & Hk & Ho). split; [exact Hr|]. split; [exact Hk|].
    intros Hd key' n Hf Hn _. apply (Ho Hd key' n Hf Hn). intros [= <-]. simpl in Hf. by rewrite m_get_delete_eq in Hf. }
  destruct r as [|ms|reason|ms]; [exact Hdone| |exact Hdone|]; unfold handleResult;
    (eapply inv_schedule; [exact Hkey|exact Hc|by apply inv_forget]).
Qed.

Lemma inv_set_failures cur key v g s : inv (Some key) cur s -> inv (Some key) cur (set_breaker (m_set key v) g s).
Proof.
  intros (Hr & Hk & Ho). split; [exact Hr|]. split; [exact Hk|]. intros Hd key' n Hf Hn Hne.
  apply (Ho Hd key' n); [|done|done]. simpl in Hf. rewrite m_get_set in Hf. case_decide; congruence.
Qed.

Lemma inv_handleError cur a key c s : key = circuitKey a c -> c ∈ controllers s ->
  inv (Some key) cur s -> inv None cur (handleError config random a key s).
Proof.
  intros Hkey Hc Hi. unfold handleError, draw.
  match goal with |- context [set_breaker (m_set key ?v) ?g ?s'] =>
    pose proof (inv_set_failures cur key v g s' Hi) as Hi'; set (s1 := set_breaker (m_set key v) g s') in * end.
  destruct (_ >=? _) eqn:Hge.
  - destruct Hi' as (Hr & Hk & Ho). split; [exact Hr|]. split; [exact Hk|]. intros Hd key' n Hf Hn _.
    apply (Ho Hd key' n Hf Hn). intros [= <-]. unfold s1 in Hf. simpl in Hf. rewrite m_get_set, decide_True in Hf by done.
    simplify_eq. simpl in Hge. lia.
  - eapply inv_schedule; [exact Hkey|exact Hc|]. exact Hi'.
Qed.

Lemma inv_async cur a c s : c ∈ controllers s ->
  inv (Some (circuitKey a c)) cur s -> inv None cur (handleAsyncReconcile config a c s).
Proof.
  intros Hc Hi. pose proof (res_async a c s (proj1 Hi)) as Hr'. unfold handleAsyncReconcile in *. destruct (_ && _).
  - apply (inv_weaken (Some (circuitKey a c)) None cur cur); [|done|exact (inv_enqueue _ _ a s Hi)].
    intros key _. destruct (decide (key = circuitKey a c)) as [->|?]; [right|left; congruence].
    exists a, c. split; [done|]. split; [exact Hc|]. left. apply pending_of_enqueue; [apply Hi|by right].
  - destruct Hi as ((Hq & Hcn & Hm & Ht) & Hk & Ho). split; [exact Hr'|]. clear Hr'.
    set (s1 := set_pending _ s). set (r := mkRace a (circuitKey a c) (nextTimer s1)).
    pose proof (fresh_race _ _ _ _ _ _ _ Ht) as Hf.
    assert (Hraces : forall i, m_get i (races s ++ [(nextRace s, r)]) =
      match m_get i (races s) with Some r' => Some r' | None => if decide (i = nextRace s) then Some r else None end).
    { intros i. by rewrite m_get_app. }
    split.
    + intros i r'. change (m_get i (races s ++ [(nextRace s, r)]) = Some r' -> exists c0, c0 ∈ controllers s /\ rc_key r' = circuitKey (rc_agent r') c0).
      rewrite Hraces. destruct (m_get i (races s)) eqn:E; [intros [= <-]; by apply (Hk i)|].
      case_decide; [|done]. intros [= <-]. by exists c.
    + intros Hd key n Hfn Hn _. destruct (decide (key = circuitKey a c)) as [->|Hne].
      * exists a, c. split; [done|]. split; [exact Hc|]. right. right. left. exists (nextRace s), r.
        split; [|done]. change (m_get (nextRace s) (races s ++ [(nextRace s, r)]) = Some r). rewrite Hraces, Hf. by rewrite decide_True.
      * destruct (Ho Hd key n Hfn Hn) as (a' & c' & Hk' & Hc' & Hcov); [congruence|]. exists a', c'.
        split; [done|]. split; [exact Hc'|]. destruct Hcov as [?|[[h Hh]|[(i & r' & Hi & Hr')|?]]]; [by left| | |by do 3 right].
        -- right. left. exists h. change (m_get h (timers s ++ [(nextTimer s, T_timeout (nextRace s))]) = Some (T_deferred a' key)).
           by rewrite m_get_app, Hh.
        -- do 2 right. left. exists i, r'. split; [|done]. change (m_get i (races s ++ [(nextRace s, r)]) = Some r').
           by rewrite Hraces, Hi.
Qed.

Lemma inv_settle i out s : inv None None s -> inv None None (settle config random i out s).
Proof.
  intros Hi. unfold settle. destruct (m_get i (races s)) as [r|] eqn:Hr; [|done].
  set (s1 := clear_timer (Some (rc_timer r)) (end_race i s)).
  assert (H1 : inv (Some (rc_key r)) None s1).
  { destruct Hi as (Hres & Hk & Ho). split; [by apply res_end_race|]. split.
    - intros j r' Hj. apply (Hk j). unfold s1 in Hj. simpl in Hj. rewrite m_get_delete in Hj. by case_decide.
    - intros Hd key n Hf Hn Hne. destruct (Ho Hd key n Hf Hn) as (a & c & -> & Hc & Hcov); [done|].
      exists a, c. split; [done|]. split; [done|]. destruct Hcov as [?|[[h Hh]|[(j & r' & Hj & Hr')|(? & ? & _)]]]; [by left| | |done].
      + right. left. exists h. unfold s1. simpl. rewrite m_get_delete. case_decide; [|done]. subst h. exfalso.
        destruct Hres as (_ & _ & _ & Ht). assert (m_get (rc_timer r) (timers s) = Some (T_timeout i))
          by (apply (to_timeout _ _ _ _ _ _ _ Ht); eauto). congruence.
      + right. right. left. exists j, r'. split; [|done]. unfold s1. simpl. rewrite m_get_delete. case_decide; [|done].
        subst j. exfalso. apply Hne. destruct Hr' as [_ <-]. congruence. }
  destruct (proj1 (proj2 Hi) i r Hr) as (c & Hc & Hkey).
  assert (H2 : inv None None (match out with Some result => handleResult (rc_agent r) (rc_key r) result s1
      | None => handleError config random (rc_agent r) (rc_key r) s1 end)).
  { destruct out; [by eapply inv_handleResult|by eapply inv_handleError]. }
  unfold settleAsyncPending. destruct (_ <=? 0); [exact (inv_complete _ _ _ _ H2)|exact H2].
Qed.

Lemma cleanup_fold b cs s : res_ok s ->
  let s' := foldl (fun s c => cleanup_key (circuitKey b c) s) s cs in
  queue s' = queue s /\ races s' = races s /\ controllers s' = controllers s /\ disposed s' = disposed s /\
  (forall key n, m_get key (consecutiveFailures s') = Some n ->
     m_get key (consecutiveFailures s) = Some n /\ forall c, c ∈ cs -> key ≠ circuitKey b c) /\
  (forall h a key, m_get h (timers s) = Some (T_deferred a key) -> (forall c, c ∈ cs -> key ≠ circuitKey b c) ->
     m_get h (timers s') = Some (T_deferred a key)).
Proof.
  revert s. induction cs as [|c cs IH]; intros s Hr.
  { simpl. split_and!; try done. intros key n Hk. split; [done|]. intros c Hc. by apply not_elem_of_nil in Hc. }
  cbn [foldl]. destruct (IH (cleanup_key (circuitKey b c) s)) as (Hq & Hrc & Hcs & Hd & Hf & Ht); [by apply res_cleanup_key|].
  cbn zeta in *. rewrite Hq, Hrc, Hcs, Hd.
  assert (Hone : queue (cleanup_key (circuitKey b c) s) = queue s /\ races (cleanup_key (circuitKey b c) s) = races s /\
    controllers (cleanup_key (circuitKey b c) s) = controllers s /\ disposed (cleanup_key (circuitKey b c) s) = disposed s /\
    consecutiveFailures (cleanup_key (circuitKey b c) s) = m_delete (circuitKey b c) (consecutiveFailures s) /\
    (timers (cleanup_key (circuitKey b c) s) = timers s \/ exists h0, m_get (circuitKey b c) (backoffTimers s) = Some h0 /\
      timers (cleanup_key (circuitKey b c) s) = m_delete h0 (timers s))).
  { unfold cleanup_key. cbn [backoffTimers set_breaker]. destruct (m_get (circuitKey b c) (backoffTimers s)) as [h0|] eqn:E.
    - split_and!; try done. right. by exists h0.
    - split_and!; try done. by left. }
  destruct Hone as (-> & -> & -> & -> & Hcf & Htm). split_and!; try done.
  - intros key n Hk. destruct (Hf key n Hk) as [H1 H2]. rewrite Hcf, m_get_delete in H1. case_decide; [done|].
    split; [done|]. intros c' [->|?]%elem_of_cons; auto.
  - intros h a key Hh Hne. apply Ht; [|intros c' ?; apply Hne; by right].
    destruct Htm as [->|(h0 & Hb & ->)]; [done|]. rewrite m_get_delete. case_decide; [|done]. subst h0.
    destruct Hr as (_ & _ & _ & Hok). apply (to_deferred _ _ _ _ _ _ _ Hok) in Hb as [a' Hb].
    exfalso. apply (Hne c); [left|congruence].
Qed.

Lemma inv_deregister but cur b s : inv but cur s -> inv but cur (cleanupAgent b (set_queue (wq_remove b) s)).
Proof.
  intros (Hr & Hk & Ho). set (s0 := set_queue (wq_remove b) s).
  destruct (cleanup_fold b (controllers s0) s0 (res_remove b s Hr)) as (Hq & Hrc & Hcs & Hd & Hf & Ht).
  split; [by apply res_cleanup, res_remove|]. split.
  - intros i r. unfold cleanupAgent. cbn [races controllers set_pending set_last]. rewrite Hrc, Hcs. apply Hk.
  - intros Hdis key n Hfn Hn Hne. unfold cleanupAgent in *. cbn [disposed consecutiveFailures set_pending set_last] in *.
    rewrite Hd in Hdis. destruct (Hf key n Hfn) as [Hfs Hnot].
    destruct (Ho Hdis key n Hfs Hn Hne) as (a & c & -> & Hc & Hcov). exists a, c.
    cbn [controllers queue timers races set_pending set_last]. rewrite Hq, Hrc, Hcs. split; [done|]. split; [exact Hc|].
    destruct Hcov as [Hp|[[h Hh]|[?|?]]]; [left|right; left; exists h; by apply Ht|by do 2 right; left|by do 3 right].
    assert (a ≠ b) by (intros ->; by apply (Hnot c)).
    change (pending a (wq_view (wq_remove b (queue s)))). destruct (wq_remove_ok b (queue s)) as [_ ->]; [apply Hr|].
    unfold pending, spec_remove in *. simpl. rewrite !elem_of_s_delete. naive_solver.
Qed.

Lemma inv_reset but cur b s : inv but cur s -> inv but cur (resetCircuitBreaker b s).
Proof.
  intros Hi. destruct (reset_frame b s) as (Hq & _ & Hrc & Ht & Hcs & Hd & Hf). eapply inv_keep; [|apply res_reset, Hi|done].
  split; rewrite ?Hq, ?Ht, ?Hcs, ?Hd; done.
Qed.

Lemma dispose_frame s : disposed (dispose s) = true /\ races (dispose s) = races s /\ controllers (dispose s) = controllers s.
Proof.
  unfold dispose. rewrite clear_all_frame. unfold clear_timer. by destruct (driftSweepTimer _), (processTickTimer _).
Qed.

Lemma inv_enqueue_all but cur l s : inv but cur s -> inv but cur (enqueue_all l s).
Proof.
  unfold enqueue_all. revert s. induction l as [|a l IH]; intros s Hi; [done|]. apply IH. by apply inv_enqueue.
Qed.

Lemma inv_signal but cur s sig : inv but cur s -> inv but cur (handle_signal s sig).
Proof.
  intros Hi. destruct sig as [b|b|b|l|]; unfold handle_signal, sweep.
  5:{ destruct (dispose_frame s) as (Hd & Hrc & Hcs). split; [apply res_dispose, Hi|]. split.
      - intros i r. rewrite Hrc, Hcs. apply Hi.
      - intros Hd'. congruence. }
  all: destruct (disposed s); [done|].
  - by apply inv_reset, inv_enqueue.
  - by apply inv_reset, inv_enqueue.
  - by apply inv_deregister.
  - by apply inv_enqueue_all.
Qed.

Lemma controllers_signal s sig : res_ok s -> controllers (handle_signal s sig) = controllers s.
Proof.
  intros Hr. destruct sig as [b|b|b|l|]; unfold handle_signal, sweep.
  5: by apply dispose_frame.
  all: destruct (disposed s); [done|].
  - by apply (reset_frame b (set_queue (wq_enqueue b) s)).
  - by apply (reset_frame b (set_queue (wq_enqueue b) s)).
  - exact (proj1 (proj2 (proj2 (cleanup_fold b (controllers s) _ (res_remove b s Hr))))).
  - unfold enqueue_all. clear Hr. revert s. induction l as [|a l IH]; intros s; [done|]. simpl. by rewrite IH.
Qed.

Lemma inv_signals but cur sigs s : inv but cur s ->
  inv but cur (foldl handle_signal s sigs) /\ controllers (foldl handle_signal s sigs) = controllers s.
Proof.
  revert s. induction sigs as [|sig sigs IH]; intros s Hi; [done|]. simpl.
  destruct (IH (handle_signal s sig)) as [H1 ->]; [by apply inv_signal|]. split; [done|]. apply controllers_signal, Hi.
Qed.

(** Running one controller of the pass. *)
Lemma inv_call a c cs s : c ∈ controllers s -> inv None (Some (a, c :: cs)) s ->
  inv None (Some (a, cs)) (call_controller config answer random a c s) /\
  controllers (call_controller config answer random a c s) = controllers s.
Proof.
  intros Hc Hi. unfold call_controller.
  destruct (inv_signals None (Some (a, c :: cs)) (an_during (answer (calls s))) (log (o_reconcile a c) s) Hi) as [H1 Hcs].
  change (controllers (log (o_reconcile a c) s)) with (controllers s) in Hcs.
  set (s1 := foldl handle_signal _ _) in *. rewrite <-Hcs in Hc.
  assert (H2 : inv (Some (circuitKey a c)) (Some (a, cs)) s1).
  { eapply inv_weaken; [| |exact H1]; [by left|]. intros key Hne (a' & c' & -> & Hc' & Hcov). exists a', c'.
    split; [done|]. split; [done|]. destruct Hcov as [?|[?|[?|(rem & [= <- <-] & Hin)]]]; [by left|by right; left|by do 2 right; left|].
    do 3 right. exists cs. split; [done|]. apply elem_of_cons in Hin as [->|?]; [by destruct Hne|done]. }
  destruct (an_outcome _) as [res| |].
  - split; [by eapply inv_handleResult|]. by destruct (handleResult_frame a (circuitKey a c) res s1) as (_ & _ & _ & -> & _).
  - split; [by eapply inv_handleError|]. by destruct (handleError_frame a (circuitKey a c) s1) as (_ & _ & _ & -> & _).
  - split; [by apply inv_async|]. rewrite <-Hcs. unfold handleAsyncReconcile. by destruct (_ && _).
Qed.

Lemma inv_controllers a cs s : (forall c, c ∈ cs -> c ∈ controllers s) -> inv None (Some (a, cs)) s ->
  inv None None (process_controllers config answer random a cs s).
Proof.
  revert s. induction cs as [|c cs IH]; intros s Hcs Hi; simpl.
  { eapply inv_weaken; [| |exact Hi]; [by left|]. intros key _ (a' & c' & Hk & Hc & Hcov). exists a', c'.
    split; [done|]. split; [done|]. destruct Hcov as [?|[?|[?|(rem & [= <- <-] & Hin)]]]; eauto. by apply not_elem_of_nil in Hin. }
  destruct (disposed s) eqn:Hd.
  { destruct Hi as (? & ? & _). split; [done|]. split; [done|]. intros ?. congruence. }
  destruct (_ >=? _) eqn:Hge.
  - apply IH; [intros c' ?; apply Hcs; by right|]. destruct Hi as (Hr & Hk & Ho). split; [done|]. split; [done|].
    intros _ key n Hf Hn Hne. destruct (Ho Hd key n Hf Hn Hne) as (a' & c' & -> & Hc & Hcov). exists a', c'.
    split; [done|]. split; [done|]. destruct Hcov as [?|[?|[?|(rem & [= <- <-] & Hin)]]]; [by left|by right; left|by do 2 right; left|].
    do 3 right. exists cs. split; [done|]. apply elem_of_cons in Hin as [->|?]; [|done]. exfalso.
    rewrite Hf in Hge. simpl in Hge. lia.
  - destruct (inv_call a c cs s) as [H1 H2]; [apply Hcs; left|done|]. apply IH; [|done].
    intros c' ?. rewrite H2. apply Hcs. by right.
Qed.

Lemma inv_processOne now a s : inv None (Some (a, controllers s)) s ->
  inv None None (processOne config answer random now a s).
Proof.
  intros Hi. unfold processOne. pose proof (inv_controllers a (controllers s) s (fun c H => H) Hi) as H1.
  set (s1 := process_controllers _ _ _ _ _ _) in *. destruct (m_has _ _); [exact H1|].
  exact (inv_complete _ _ a (set_last (m_set a now) s1) H1).
Qed.

Lemma inv_dequeue s : inv None None s ->
  let s' := set_queue (fun _ => (wq_dequeue (queue s)).2) s in
  match (wq_dequeue (queue s)).1 with
  | Some a => inv None (Some (a, controllers s)) s'
  | None => inv None None s'
  end.
Proof.
  intros (Hr & Hk & Ho) s'. pose proof (res_dequeue s Hr) as Hr'.
  destruct (wq_dequeue_ok (queue s)) as [_ Hv]; [apply Hr|]. unfold spec_dequeue in Hv.
  destruct (wq_dequeue (queue s)).1 as [a|] eqn:Ea.
  - split; [done|]. split; [exact Hk|]. intros Hd key n Hf Hn Hne.
    destruct (Ho Hd key n Hf Hn Hne) as (a' & c' & -> & Hc & Hcov). exists a', c'. split; [done|]. split; [exact Hc|].
    destruct Hcov as [Hp|[?|[?|(rem & [=] & _)]]]; [|by right; left|by do 2 right; left].
    destruct (q_waiting (wq_view (queue s))) as [|k w] eqn:Ew; [done|]. injection Hv as -> Hv.
    destruct (decide (a' = k)) as [->|Hak]; [do 3 right; by exists (controllers s)|left].
    unfold s'. simpl. rewrite Hv. unfold pending in *. simpl. rewrite Ew in Hp. rewrite elem_of_cons in Hp. naive_solver.
  - eapply inv_keep; [|exact Hr'|exact (conj Hr (conj Hk Ho))]. split; try done. intros b. unfold s'. simpl.
    destruct (q_waiting (wq_view (queue s))); [|done]. injection Hv as ->. done.
Qed.

Lemma inv_batch now n s : inv None None s -> inv None None (process_batch config answer random now n s).
Proof.
  revert s. induction n as [|n IH]; intros s Hi; [done|]. simpl. destruct (disposed s); [done|].
  destruct (_ && _); [done|]. pose proof (inv_dequeue s Hi) as Hd. cbn zeta in Hd.
  destruct (wq_dequeue (queue s)) as [[a|] q]; cbn [fst snd] in Hd; [|done]. apply IH. by apply inv_processOne.
Qed.

Lemma inv_fire h now l s : inv None None s -> inv None None (fire config answer random h now l s).
Proof.
  intros Hi. pose proof (res_fire h now l s (proj1 Hi)) as Hr'. unfold fire in *.
  destruct (m_get h (timers s)) as [[a key|i| |]|] eqn:E; [..|done].
  - destruct Hi as (Hr & Hk & Ho).
    set (s1 := if disposed (set_timers (m_delete h) s) then _ else _) in *.
    assert (H1 : disposed s1 = disposed s /\ races s1 = races s /\ controllers s1 = controllers s /\
      consecutiveFailures s1 = consecutiveFailures s /\ timers s1 = m_delete h (timers s) /\
      (disposed s = false -> queue s1 = wq_enqueue a (queue s))).
    { unfold s1. destruct (disposed (set_timers (m_delete h) s)) eqn:Ed; split_and!; try done.
      intros Hx. change (disposed s = true) in Ed. congruence. }
    destruct H1 as (Hd & Hrc & Hcs & Hf & Htm & Hq).
    assert (H2 : known s1 /\ owed_ok None None s1).
    { split; [intros i r; rewrite Hrc, Hcs; apply Hk|]. intros Hdis key' n Hfn Hn Hne. rewrite Hd in Hdis. rewrite Hf in Hfn.
      destruct (Ho Hdis key' n Hfn Hn Hne) as (a' & c' & -> & Hc & Hcov). exists a', c'.
      rewrite Hcs, Hrc, Htm, (Hq Hdis). split; [done|]. split; [done|].
      destruct Hcov as [Hp|[[h' Hh]|[?|(rem & [=] & _)]]]; [| |by do 2 right; left].
      - left. apply pending_of_enqueue; [apply Hr|by left].
      - destruct (decide (h = h')) as [<-|Hne']; [left|right; left; exists h'; by rewrite m_get_delete_ne].
        apply pending_of_enqueue; [apply Hr|right; congruence]. }
    destruct H2. case_decide; by split.
  - pose proof Hi as ((_ & _ & _ & Ht) & _). apply (to_timeout _ _ _ _ _ _ _ Ht) in E as (r & Hri & <-).
    rewrite (fire_timeout i r) by (done || apply Hi). by apply inv_settle.
  - unfold processTick. destruct (disposed s); [done|by apply inv_batch].
  - unfold driftSweep. destruct (disposed s); [done|]. clear Hr' E. revert s Hi.
    induction l as [|a l IH]; intros s Hi; [done|]. simpl. apply IH.
    destruct (m_get a (lastReconciledAt s)); [case_match; [done|]|]; by apply inv_enqueue.
Qed.

Lemma inv_step s e : inv None None s -> inv None None (step config answer random s e).
Proof.
  intros Hi. destruct e as [l|c|sig|h now l|i out]; cbn [step].
  - pose proof (res_start l s (proj1 Hi)) as Hr. unfold start in *. destruct (disposed s); [done|].
    pose proof (inv_enqueue_all None None l s Hi) as Hi'. eapply inv_keep; [|exact Hr|exact Hi']. split; try done.
    intros h a key Hh. change (m_get h ((timers (enqueue_all l s) ++ [(nextTimer (enqueue_all l s), T_processTick)]) ++
      [(S (nextTimer (enqueue_all l s)), T_driftSweep)]) = Some (T_deferred a key)). by rewrite !m_get_app, Hh.
  - eapply inv_keep; [|exact (proj1 Hi)|exact Hi]. split; try done. intros c' ?. simpl. apply elem_of_app. by left.
  - by apply inv_signal.
  - by apply inv_fire.
  - by apply inv_settle.
Qed.

Lemma inv_run events : inv None None (run config answer random events).
Proof.
  unfold run. assert (H0 : inv None None createReconcileRunner).
  { split; [exact (res_run [])|]. by split. }
  revert H0. generalize createReconcileRunner. induction events as [|e es IH]; intros s Hi; [done|]. simpl. by apply IH, inv_step.
Qed.
End Invariants.
