(* ===== verification/RunnerSpec.v ===== *)
(** * Properties of the reconcile runner

    What the runner guarantees, proved against the queue interface, and what it
    does not: three behaviours its comments rule out, shown on runs over the
    array queue of [reconcile-queue.ts]. *)

From S2P Require Import Prelude JsMap ReconcileQueue WorkQueue Runner RunnerInv.

Local Open Scope Z_scope.

(** ** Runs *)

(** One async slot, and controllers that all answer with a promise. *)
Definition one_slot : RunnerConfig := mkRunnerConfig 60000 30000 5 100 30000 5000 1 100 32.
Definition always_async (n : nat) : Answer := mkAnswer [] O_async.

(** Two controllers, one running agent; timer 0 is the process tick. *)
Definition two_controllers : list Event := [e_register "first"; e_register "second"; e_start ["a"]].

(** A tick, then the promise tracked by it settles. *)
Definition tick_and_settle (now : Z) (race : nat) : list Event :=
  [e_fire 0 now []; e_settle race (Some R_converged)].

Fixpoint rounds (times : nat -> Z) (n : nat) : list Event :=
  match n with O => [] | S n => rounds times n ++ tick_and_settle (times n) n end.

Definition one_round : list Output :=
  [o_reconcile "a" "first"; o_reconcile "a" "second"; o_untracked "a" "second"].

Fixpoint traced (n : nat) : list Output := match n with O => [] | S n => traced n ++ one_round end.

(** The state between rounds: [a] is queued again, nothing is in flight. *)
Definition starved (n : nat) (last : list (string * Z)) (tr : list Output) : Runner (Q := Impl string) :=
  mkRunner (mkImpl [Some "a"] 0 ["a"] [] []) ["first"; "second"] (Z.of_nat n) 0 0 0 [] [] [] last []
    (Some 1%nat) (Some 0%nat) false [(0%nat, T_processTick); (1%nat, T_driftSweep)] (2 + n) [] n 0 tr.

Lemma starved_round random now n last tr :
  foldl (step one_slot always_async random) (starved n last tr) (tick_and_settle now n) =
    starved (S n) (m_set "a" now last) (tr ++ one_round).
Proof.
  unfold tick_and_settle. cbn [foldl].
  assert (H : step one_slot always_async random (starved n last tr) (e_fire 0 now []) =
    mkRunner (mkImpl [] 0 [] ["a"] ["a"]) ["first"; "second"] (Z.of_nat n) 0 0 1 [("a", 1)] [] []
      (m_set "a" now last) [] (Some 1%nat) (Some 0%nat) false
      [(0%nat, T_processTick); (1%nat, T_driftSweep); ((2 + n)%nat, T_timeout n)] (3 + n)
      [(n, mkRace "a" (circuitKey "a" "first") (2 + n))] (S n) 0
      (((tr ++ [o_reconcile "a" "first"]) ++ [o_reconcile "a" "second"]) ++ [o_untracked "a" "second"])).
  { reflexivity. }
  rewrite H. clear H. rewrite <-!app_assoc. cbn [step]. unfold settle. cbn [races m_get]. rewrite decide_True by done.
  unfold end_race, clear_timer, set_timers, m_delete. cbn [rc_timer rc_agent rc_key races timers].
  rewrite !filter_cons, !filter_nil. cbn [fst]. repeat (case_decide; try lia).
  unfold starved. replace (Z.of_nat (S n)) with (Z.of_nat n + 1) by lia. reflexivity.
Qed.

Lemma rounds_starved random times n : exists last,
  run one_slot always_async random (two_controllers ++ rounds times n) =
    starved n last (traced n).
Proof.
  induction n as [|n [last IH]]; [exists []; reflexivity|]. exists (m_set "a" (times n) last). cbn [rounds].
  unfold run in *. rewrite app_assoc, foldl_app, IH, starved_round. done.
Qed.

(** An agent that is deregistered and registered again while its controller's
    promise is in flight; the old promise settles during the new pass. *)
Definition reregistration : list Event :=
  [e_register "slow"; e_start ["a"]; e_fire 0 0 [];
   e_signal (s_deregistered "a"); e_signal (s_registered "a"); e_fire 0 100 [];
   e_settle 0 (Some R_converged);
   e_signal (s_transitioned "a"); e_fire 0 200 []].

(** A promise that settles with a retry after the runner was disposed. *)
Definition late_retry : list Event :=
  [e_register "slow"; e_start ["a"]; e_fire 0 0 []; e_signal s_dispose; e_settle 0 (Some (R_retry 1000))].

(** A run with two agents, a failing and an asynchronous controller. *)
Definition mixed_answers (n : nat) : Answer :=
  if Nat.even n then mkAnswer [s_transitioned "b"] O_throw else mkAnswer [] O_async.

Definition mixed_run : list Event :=
  [e_register "failing"; e_register "slow"; e_start ["a"; "b"]; e_fire 0 0 []].

(** ** Properties *)

Section Properties.
Context {Q : Type} `{!WorkQueue string Q}.
Variable config : RunnerConfig.
Variable answer : nat -> Answer.
Variable random : nat -> Z.

Implicit Types events : list Event.

Lemma settle_ends_race i out (s : Runner (Q := Q)) : m_get i (races (settle config random i out s)) = None.
Proof.
  unfold settle. destruct (m_get i (races s)) as [r|] eqn:E; [|done].
  set (s1 := clear_timer (Some (rc_timer r)) (end_race i s)).
  assert (H1 : m_get i (races s1) = None) by apply m_get_delete_eq.
  assert (H2 : races (match out with Some result => handleResult (rc_agent r) (rc_key r) result s1
      | None => handleError config random (rc_agent r) (rc_key r) s1 end) = races s1).
  { destruct out as [res|]; [apply (handleResult_frame (rc_agent r) (rc_key r) res s1)
    |apply (handleError_frame config random (rc_agent r) (rc_key r) s1)]. }
  unfold settleAsyncPending. destruct (_ <=? 0); (etrans; [|exact H1]); f_equal; exact H2.
Qed.

(** C7: in every state the runner reaches, the in-flight counter is the number
    of tracked promises and never exceeds the configured limit; every tracked
    promise has a live timeout of its own, and when that timeout fires the
    promise is no longer tracked; the live deferred-enqueue timers are exactly
    those the runner can clear; and [stats().queueSize] counts waiting and
    processed agents. *)
Theorem runner_resources events :
  let s := run (Q := Q) config answer random events in
  inFlightCount s = Z.of_nat (length (races s)) /\
  (0 < maxConcurrentReconciles config -> inFlightCount s <= maxConcurrentReconciles config) /\
  (forall i r, m_get i (races s) = Some r -> m_get (rc_timer r) (timers s) = Some (T_timeout i) /\
     forall now l, m_get i (races (fire config answer random (rc_timer r) now l s)) = None) /\
  (forall key h, m_get key (backoffTimers s) = Some h <-> exists a, m_get h (timers s) = Some (T_deferred a key)) /\
  st_queueSize (stats s) = spec_size (wq_view (queue s)).
Proof.
  intros s. pose proof (res_run config answer random events) as Hs. fold s in Hs.
  pose proof Hs as (Hq & Hc & Hm & Ht). split; [done|]. split; [done|]. split; [|split].
  - intros i r Hr. assert (Htm : m_get (rc_timer r) (timers s) = Some (T_timeout i)).
    { apply (to_timeout _ _ _ _ _ _ _ Ht). eauto. }
    split; [done|]. intros now l. unfold fire. rewrite Htm. apply settle_ends_race.
  - apply Ht.
  - by apply wq_size_ok.
Qed.

(** C8: as long as no agent is deregistered and the runner is not disposed, a
    pass over an agent only starts when none of its promises is still tracked:
    before every dequeue of every tick the agent dequeued next has no tracked
    promise, and the pending count of every agent is the number of its tracked
    promises. *)
Theorem runner_no_overlap events now n a
    (Hanswers : polite answer) (Hevents : Forall (fun e => keeps_event e = true) events) :
  let s := process_batch (Q := Q) config answer random now n (run config answer random events) in
  ((wq_dequeue (queue s)).1 = Some a -> forall i r, m_get i (races s) = Some r -> rc_agent r ≠ a) /\
  default 0 (m_get a (asyncPending s)) = Z.of_nat (length (filter (fun p : nat * Race => rc_agent p.2 = a) (races s))).
Proof.
  destruct (excl_batch config answer random now n (run config answer random events) Hanswers) as [Hr He];
    [apply res_run|by apply excl_run|].
  intros s. split; [|apply He]. intros Hd i r Hi Ha.
  destruct (excl_dequeue config s Hr He) as [_ H0]. destruct (H0 a Hd) as [Ho _].
  unfold owned in Ho. apply nil_length_inv in Ho. apply m_get_elem in Hi.
  assert (Hin : (i, r) ∈ filter (fun p : nat * Race => rc_agent p.2 = a) (races s)) by (by apply list_elem_of_filter).
  rewrite Ho in Hin. by apply elem_of_nil in Hin.
Qed.

(** A controller that has failed for an agent, but not often enough for the
    circuit breaker, is run again: until the runner is disposed, the agent is
    waiting or will be queued again, or a promise of that controller is tracked,
    or a live timer exists whose firing puts the agent back in the queue. *)
Lemma runner_retry_not_lost events key n :
  let s := run (Q := Q) config answer random events in
  disposed s = false -> m_get key (consecutiveFailures s) = Some n -> n < maxConsecutiveFailures config ->
  exists a c, key = circuitKey a c /\ c ∈ controllers s /\
    (pending a (wq_view (queue s)) \/
     (exists i r, m_get i (races s) = Some r /\ rc_agent r = a /\ rc_key r = key) \/
     (exists h, m_get h (timers s) = Some (T_deferred a key) /\
        forall now l, pending a (wq_view (queue (fire config answer random h now l s))))).
Proof.
  intros s Hd Hf Hn. destruct (inv_run config answer random events) as (Hr & _ & Ho). fold s in Hr, Ho.
  destruct (Ho Hd key n Hf Hn) as (a & c & Hk & Hc & Hcov); [done|]. exists a, c. split; [done|]. split; [done|].
  destruct Hcov as [?|[[h Hh]|[?|(? & ? & _)]]]; [by left| |by right; left|done]. do 2 right. exists h. split; [done|].
  intros now l. unfold fire. rewrite Hh. replace (disposed (set_timers (m_delete h) s)) with false by done.
  assert (Hp : pending a (wq_view (wq_enqueue a (queue s)))) by (apply pending_of_enqueue; [apply Hr|by right]).
  case_decide; exact Hp.
Qed.

(** Disposal is final: whatever happens afterwards, no controller is called
    and the runner stays disposed; and at the moment of disposal every deferred
    enqueue is cancelled. *)
Lemma runner_disposed before after :
  let s := run (Q := Q) config answer random (before ++ e_signal s_dispose :: after) in
  disposed s = true /\ trace s = trace (run (Q := Q) config answer random before) /\
  forall h a key, m_get h (timers (run (Q := Q) config answer random (before ++ [e_signal s_dispose]))) ≠
    Some (T_deferred a key).
Proof.
  intros s. unfold s, run. rewrite !foldl_app. cbn [foldl step handle_signal].
  set (s0 := foldl _ createReconcileRunner before).
  assert (H0 : disposed (dispose s0) = true /\ trace (dispose s0) = trace s0).
  { split; [apply dispose_frame|]. apply (silent_signal s_dispose s0). }
  assert (H1 : disposed (foldl (step config answer random) (dispose s0) after) = true /\
    trace (foldl (step config answer random) (dispose s0) after) = trace s0).
  { revert H0. generalize (dispose s0). induction after as [|e es IH]; intros s1 [Hd Ht]; [done|]. cbn [foldl].
    destruct (disposed_step config answer random s1 e Hd) as [Hd' Ht']. apply IH. split; [done|congruence]. }
  destruct H1 as [H1 H2]. split; [done|]. split; [done|]. intros h a key Hh.
  pose proof (res_run config answer random (before ++ [e_signal s_dispose])) as (_ & _ & _ & Ht).
  unfold run in Ht. rewrite foldl_app in Ht. cbn [foldl step handle_signal] in Ht. fold s0 in Ht.
  assert (Hb : m_get key (backoffTimers (dispose s0)) = Some h) by (apply (to_deferred _ _ _ _ _ _ _ Ht); eauto).
  done.
Qed.
End Properties.

(** With one slot and two asynchronous controllers the second starves: in
    every round of ticks it is called and its promise dropped, so its result is
    never handled however many rounds are run, and the agent is queued again
    each time although the first controller has converged. *)
Lemma runner_starves_over_cap random times n :
  let s := run (Q := Impl string) one_slot always_async random (two_controllers ++ rounds times n) in
  trace s = traced n /\ totalReconciled s = Z.of_nat n /\ races s = [] /\ asyncPending s = [] /\
  q_waiting (wq_view (queue s)) = ["a"].
Proof. intros s. destruct (rounds_starved random times n) as [last H]. unfold s. by rewrite H. Qed.

(** After an agent was deregistered and registered again while a promise
    was in flight, the settling of the old promise ends the new pass early: two
    promises of the same agent and controller, both started after the
    registration, are tracked at once, and the pending count says one. *)
Lemma runner_reregistration_overlap random :
  let s := run (Q := Impl string) DEFAULT_RECONCILE_RUNNER_CONFIG always_async random reregistration in
  (rc_key <$> m_values (races s)) = [circuitKey "a" "slow"; circuitKey "a" "slow"] /\
  m_keys (races s) = [1%nat; 2%nat] /\ m_get "a" (asyncPending s) = Some 1.
Proof. vm_compute. done. Qed.

(** A promise that settles with a retry after disposal leaves a live timer. *)
Lemma timer_after_dispose random :
  let s := run (Q := Impl string) DEFAULT_RECONCILE_RUNNER_CONFIG always_async random late_retry in
  disposed s = true /\ m_values (timers s) = [T_deferred "a" (circuitKey "a" "slow")].
Proof. vm_compute. done. Qed.

(** Witnesses *)

Lemma runner_no_overlap_witness :
  default 0 (m_get "a" (asyncPending (process_batch (Q := Impl string) DEFAULT_RECONCILE_RUNNER_CONFIG always_async
    (fun _ => 0) 0 1 (run DEFAULT_RECONCILE_RUNNER_CONFIG always_async (fun _ => 0) two_controllers)))) = 2.
Proof.
  rewrite (proj2 (runner_no_overlap (Q := Impl string) DEFAULT_RECONCILE_RUNNER_CONFIG always_async (fun _ => 0)
    two_controllers 0 1 "a" (fun n => Forall_nil_2 _) ltac:(by repeat constructor))).
  vm_compute. reflexivity.
Defined.

Lemma runner_retry_not_lost_witness :
  m_get (circuitKey "a" "failing") (consecutiveFailures (run (Q := Impl string) DEFAULT_RECONCILE_RUNNER_CONFIG
    mixed_answers (fun _ => 0) mixed_run)) = Some 1 /\
  exists a c, circuitKey "a" "failing" = circuitKey a c.
Proof.
  split; [vm_compute; reflexivity|].
  destruct (runner_retry_not_lost (Q := Impl string) DEFAULT_RECONCILE_RUNNER_CONFIG mixed_answers (fun _ => 0) mixed_run
    (circuitKey "a" "failing") 1) as (a & c & Hk & _); [vm_compute; reflexivity..|].
  by exists a, c.
Defined.
