(* ===== verification/Semaphore.v ===== *)
(** * Concurrency semaphore

    [kernel/engine-reconcile/src/concurrency-semaphore.ts]: the counting
    semaphore with timeouts behind the concurrency guard of model and tool
    calls.  Every [acquire] gets an identifier; a waiter keeps the index of its
    cell in the queue array ([slot]), as the closure of the code does, and that
    index is not updated when the array is compacted. *)

From S2P Require Import Prelude JsMap.

(** A waiter's promise, its timeout flag and its cell index ([-1] is [None]). *)
Inductive outcome : Type := Pending | Resolved | Rejected.

#[export] Instance outcome_eq_dec : EqDecision outcome.
Proof. solve_decision. Defined.

Record Waiter : Type := mkWaiter { wt_slot : option nat; wt_outcome : outcome }.

(** [didTimeout] is set exactly when the timer rejects the promise. *)
Definition timedOut (w : Waiter) : bool := bool_decide (wt_outcome w = Rejected).

Record Semaphore : Type := mkSemaphore {
  active : Z;
  queue : list (option nat);
  head : nat;
  liveWaiters : Z;
  waiters : list (nat * Waiter);
  next_id : nat
}.

Definition createConcurrencySemaphore : Semaphore := mkSemaphore 0 [] 0 0 [] 0.

(** [queue[i] = undefined]: out of range, JavaScript extends the array. *)
Definition js_clear (i : nat) (q : list (option nat)) : list (option nat) :=
  if decide (i < length q) then <[i := None]> q else q ++ replicate (S (i - length q)) None.

Definition maybeCompact (s : Semaphore) : Semaphore :=
  let len := length (queue s) in
  if decide (head s = 0) then s
  else
    let dead := len - (len - head s) in
    if decide (len - head s <= head s \/ 128 <= dead)
    then mkSemaphore (active s) (drop (head s) (queue s)) 0 (liveWaiters s) (waiters s) (next_id s)
    else s.

(** What the caller of an operation, and the waiters, get to see. *)
Inductive output : Type :=
  | o_granted (id : nat)     (* acquire resolved at once *)
  | o_fired (id : nat)       (* a waiter's promise resolved *)
  | o_rejected (id : nat)    (* a waiter's promise rejected on timeout *)
  | o_released               (* a slot was returned to the pool *)
  | o_error.                 (* release threw: no slot is held *)

Section Sem.
Variable maxConcurrency : Z.

Definition acquire (s : Semaphore) : Semaphore * list output :=
  let id := next_id s in
  if (active s <? maxConcurrency)%Z then
    (mkSemaphore (active s + 1) (queue s) (head s) (liveWaiters s) (waiters s) (S id), [o_granted id])
  else
    (mkSemaphore (active s) (queue s ++ [Some id]) (head s) (liveWaiters s + 1)
       (m_set id (mkWaiter (Some (length (queue s))) Pending) (waiters s)) (S id), []).

(** The timer of waiter [id] fires, unless [fire] cleared it. *)
Definition timeout (id : nat) (s : Semaphore) : Semaphore * list output :=
  match m_get id (waiters s) with
  | Some (mkWaiter slot Pending) =>
      let '(q, live, slot) :=
        match slot with
        | Some i =>
            match queue s !! i with
            | Some (Some _) => (js_clear i (queue s), Z.max 0 (liveWaiters s - 1), None)
            | _ => (queue s, liveWaiters s, Some i)
            end
        | None => (queue s, liveWaiters s, None)
        end in
      (mkSemaphore (active s) q (head s) live (m_set id (mkWaiter slot Rejected) (waiters s)) (next_id s),
       [o_rejected id])
  | _ => (s, [])
  end.

(** [waiter.invalidate()], then the decrement [release] does itself. *)
Definition invalidate (id : nat) (w : Waiter) (s : Semaphore) : Semaphore :=
  match wt_slot w with
  | Some i =>
      mkSemaphore (active s) (js_clear i (queue s)) (head s) (Z.max 0 (liveWaiters s - 1))
        (m_set id (mkWaiter None (wt_outcome w)) (waiters s)) (next_id s)
  | None => s
  end.

(** The loop of [release]: skip tombstones and waiters that timed out, hand the
    slot to the first live one. *)
Fixpoint release_loop (fuel : nat) (s : Semaphore) : option (Semaphore * list output) :=
  match fuel with
  | O => None
  | S fuel =>
      if decide (head s < length (queue s)) then
        let cell := queue s !! head s in
        let s := mkSemaphore (active s) (js_clear (head s) (queue s)) (head s + 1) (liveWaiters s)
                   (waiters s) (next_id s) in
        match cell with
        | Some (Some id) =>
            match m_get id (waiters s) with
            | Some w =>
                if timedOut w then release_loop fuel s
                else
                  let s := invalidate id w s in
                  let s := mkSemaphore (active s) (queue s) (head s) (Z.max 0 (liveWaiters s - 1))
                             (waiters s) (next_id s) in
                  let s := maybeCompact s in
                  Some (mkSemaphore (active s) (queue s) (head s) (liveWaiters s)
                          (m_set id (mkWaiter (from_option wt_slot None (m_get id (waiters s))) Resolved)
                             (waiters s)) (next_id s), [o_fired id])
            | None => release_loop fuel s
            end
        | _ => release_loop fuel s
        end
      else
        let s := if decide (0 < head s)
                 then mkSemaphore (active s) [] 0 (liveWaiters s) (waiters s) (next_id s) else s in
        Some (mkSemaphore (active s - 1) (queue s) (head s) (liveWaiters s) (waiters s) (next_id s),
          [o_released])
  end.

Definition release (s : Semaphore) : option (Semaphore * list output) :=
  if (active s <=? 0)%Z then Some (s, [o_error])
  else release_loop (S (length (queue s) - head s)) s.

Definition activeCount (s : Semaphore) : Z := active s.
Definition waitingCount (s : Semaphore) : Z := liveWaiters s.

(** ** Runs *)

Inductive sem_op : Type := op_acquire | op_release | op_timeout (id : nat).

Definition run_op (s : Semaphore) (op : sem_op) : option (Semaphore * list output) :=
  match op with
  | op_acquire => Some (acquire s)
  | op_release => release s
  | op_timeout id => Some (timeout id s)
  end.

Fixpoint run (s : Semaphore) (ops : list sem_op) : option (Semaphore * list output) :=
  match ops with
  | [] => Some (s, [])
  | op :: ops =>
      match run_op s op with
      | None => None
      | Some (s, out) =>
          match run s ops with
          | None => None
          | Some (s, outs) => Some (s, out ++ outs)
          end
      end
  end.

(** ** Invariant *)

Definition cells (s : Semaphore) : list nat := omap id (drop (head s) (queue s)).

Record sem_ok (s : Semaphore) : Prop := {
  sk_active : (0 <= active s <= maxConcurrency)%Z;
  sk_sorted : StronglySorted lt (cells s);
  sk_bound : Forall (fun id => id < next_id s) (cells s);
  sk_known : forall id, id ∈ cells s -> exists w, m_get id (waiters s) = Some w /\ wt_outcome w ≠ Resolved;
  sk_ids : forall id w, m_get id (waiters s) = Some w -> id < next_id s
}.

Lemma sublist_sorted (l k : list nat) : sublist l k -> StronglySorted lt k -> StronglySorted lt l.
Proof.
  induction 1 as [|x l k Hs IH|x l k Hs IH]; intros Hk; [constructor| |];
    apply StronglySorted_inv in Hk as [Hk Hx]; [|by apply IH].
  constructor; [by apply IH|]. apply Forall_forall. intros y Hy. rewrite Forall_forall in Hx. apply Hx.
  by eapply elem_of_sublist.
Qed.

Lemma omap_clear_sublist (i : nat) (l : list (option nat)) :
  sublist (omap id (<[i := None]> l)) (omap id l).
Proof.
  revert i. induction l as [|c l IH]; intros [|i]; simpl; try done.
  - destruct c; simpl; [by apply sublist_cons|done].
  - destruct c; simpl; [apply sublist_skip|]; apply IH.
Qed.

Lemma omap_replicate_None n : omap id (replicate n (@None nat)) = [].
Proof. by induction n. Qed.

Lemma js_clear_sublist h i q : sublist (omap id (drop h (js_clear i q))) (omap id (drop h q)).
Proof.
  unfold js_clear. case_decide as Hi.
  - destruct (decide (i < h)); [by rewrite drop_insert_lt|].
    rewrite drop_insert_ge by lia. apply omap_clear_sublist.
  - rewrite drop_app, omap_app, drop_replicate, omap_replicate_None, app_nil_r. done.
Qed.

Lemma cells_head s c :
  queue s !! head s = Some c ->
  cells s = omap id (c :: drop (S (head s)) (queue s)) /\
  drop (head s + 1) (js_clear (head s) (queue s)) = drop (S (head s)) (queue s).
Proof.
  intros Hc. split; [unfold cells; by rewrite (drop_S _ c)|].
  apply lookup_lt_Some in Hc. unfold js_clear. rewrite decide_True by done.
  rewrite Nat.add_1_r. apply drop_insert_lt. lia.
Qed.

(** A state whose queue only lost cells, and whose waiters kept their verdicts
    (or are no longer queued), is still well formed. *)
Lemma sem_ok_shrink s s' :
  sem_ok s -> active s' = active s -> next_id s' = next_id s -> sublist (cells s') (cells s) ->
  (forall id w, m_get id (waiters s) = Some w -> id ∈ cells s' -> wt_outcome w ≠ Resolved ->
     exists w', m_get id (waiters s') = Some w' /\ wt_outcome w' ≠ Resolved) ->
  (forall id w', m_get id (waiters s') = Some w' -> is_Some (m_get id (waiters s))) ->
  sem_ok s'.
Proof.
  intros [Ha Hs Hb Hk Hi] Hact Hn Hsub Hw Hback. split.
  - by rewrite Hact.
  - by eapply sublist_sorted.
  - rewrite Hn. apply Forall_forall. intros x Hx. rewrite Forall_forall in Hb. apply Hb.
    by eapply elem_of_sublist.
  - intros id Hid. destruct (Hk id) as (w & Hwg & Hne); [by eapply elem_of_sublist|]. by apply (Hw id w).
  - intros id w' Hw'. rewrite Hn. destruct (Hback id w' Hw') as [w Hwg]. by apply (Hi id w).
Qed.

Lemma maybeCompact_same s :
  cells (maybeCompact s) = cells s /\ active (maybeCompact s) = active s /\
  waiters (maybeCompact s) = waiters s /\ next_id (maybeCompact s) = next_id s.
Proof.
  unfold maybeCompact. repeat case_decide; done.
Qed.

(** The verdicts of all waiters but [id] are untouched. *)
Definition same_but (id : nat) (s s' : Semaphore) : Prop :=
  forall i, i ≠ id -> wt_outcome <$> m_get i (waiters s') = wt_outcome <$> m_get i (waiters s).

Lemma fire_ok id w s0 s :
  sem_ok s0 -> active s = active s0 -> next_id s = next_id s0 -> waiters s = waiters s0 ->
  cells s0 = id :: cells s -> m_get id (waiters s) = Some w ->
  let s1 := invalidate id w s in
  let s2 := mkSemaphore (active s1) (queue s1) (head s1) (Z.max 0 (liveWaiters s1 - 1)) (waiters s1) (next_id s1) in
  let s3 := maybeCompact s2 in
  let s4 := mkSemaphore (active s3) (queue s3) (head s3) (liveWaiters s3)
    (m_set id (mkWaiter (from_option wt_slot None (m_get id (waiters s3))) Resolved) (waiters s3)) (next_id s3) in
  sem_ok s4 /\ active s4 = active s0 /\ next_id s4 = next_id s0 /\ Forall (lt id) (cells s4) /\
  cells s4 ⊆ cells s0 /\
  same_but id s0 s4 /\ wt_outcome <$> m_get id (waiters s4) = Some Resolved.
Proof.
  intros Hok Ha Hn Hws Hc Hw s1 s2 s3 s4.
  destruct (maybeCompact_same s2) as (Hc3 & Ha3 & Hw3 & Hn3). fold s3 in Hc3, Ha3, Hw3, Hn3.
  assert (Hs1 : active s1 = active s0 /\ next_id s1 = next_id s0 /\ sublist (cells s1) (cells s) /\
    (forall i, i ≠ id -> m_get i (waiters s1) = m_get i (waiters s0)) /\ is_Some (m_get id (waiters s1))).
  { subst s1. unfold invalidate. destruct (wt_slot w) as [i|]; simpl; rewrite Ha, Hn, Hws; split_and!; try done.
    - apply js_clear_sublist.
    - intros j Hj. by rewrite m_get_set_ne.
    - rewrite m_get_set_eq. eauto.
    - rewrite <-Hws. by eexists. }
  destruct Hs1 as (Ha1 & Hn1 & Hsub & Hoth & Hid).
  assert (Hcells : cells s4 = cells s1) by (unfold cells in *; simpl; by rewrite Hc3).
  assert (Hsorted : StronglySorted lt (id :: cells s)) by (rewrite <-Hc; apply Hok).
  apply StronglySorted_inv in Hsorted as [Hsort Hlt].
  assert (Hlt4 : Forall (lt id) (cells s4)).
  { rewrite Hcells. apply Forall_forall. intros x Hx. rewrite Forall_forall in Hlt. apply Hlt.
    by eapply elem_of_sublist. }
  assert (Hoth4 : forall i, i ≠ id -> m_get i (waiters s4) = m_get i (waiters s0)).
  { intros i Hi. subst s4. simpl. rewrite m_get_set_ne, Hw3 by done. simpl. by apply Hoth. }
  split_and!.
  - apply (sem_ok_shrink s0); [done| | | | |].
    + subst s4. simpl. by rewrite Ha3.
    + subst s4. simpl. by rewrite Hn3.
    + rewrite Hcells, Hc. by apply sublist_cons.
    + intros i w' Hg Hi Hne. rewrite Forall_forall in Hlt4. specialize (Hlt4 i Hi).
      exists w'. rewrite Hoth4 by lia. done.
    + intros i w' Hg. destruct (decide (i = id)) as [->|Hne]; [rewrite <-Hws; by eexists|].
      rewrite Hoth4 in Hg by done. by eexists.
  - subst s4. simpl. by rewrite Ha3.
  - subst s4. simpl. by rewrite Hn3.
  - done.
  - rewrite Hcells, Hc. intros x Hx. right. by eapply elem_of_sublist.
  - intros i Hi. by rewrite Hoth4.
  - subst s4. simpl. by rewrite m_get_set_eq.
Qed.

(** What [release] does to the invariant and to the world. *)
Inductive released (s s' : Semaphore) : list output -> Prop :=
  | rel_fired id : active s' = active s -> id ∈ cells s ->
      wt_outcome <$> m_get id (waiters s) = Some Pending ->
      wt_outcome <$> m_get id (waiters s') = Some Resolved ->
      same_but id s s' -> Forall (lt id) (cells s') -> released s s' [o_fired id]
  | rel_pool : active s' = (active s - 1)%Z -> waiters s' = waiters s -> released s s' [o_released].

Lemma release_loop_ok fuel : forall s, sem_ok s -> (0 < active s)%Z -> length (queue s) - head s < fuel ->
  exists s' out, release_loop fuel s = Some (s', out) /\ sem_ok s' /\ next_id s' = next_id s /\
    released s s' out /\ cells s' ⊆ cells s.
Proof.
  induction fuel as [|fuel IH]; intros s Hok Ha Hf; [lia|]. cbn [release_loop].
  destruct (decide (head s < length (queue s))) as [Hl|Hl].
  2:{ set (s1 := if decide _ then _ else s).
      assert (Hs1 : active s1 = active s /\ waiters s1 = waiters s /\ next_id s1 = next_id s /\ cells s1 = []).
      { subst s1. unfold cells. case_decide; simpl; split_and!; try done. by rewrite drop_ge by lia. }
      destruct Hs1 as (H1 & H2 & H3 & H4). eexists _, _. split; [done|].
      split; [|split; [done|split; [by apply rel_pool; simpl; rewrite ?H1|]]].
      - destruct Hok as [Hact Hso Hb Hk Hi]. split; simpl.
        + rewrite H1. lia.
        + unfold cells in *. simpl. rewrite H4. constructor.
        + unfold cells in *. simpl. rewrite H4. constructor.
        + intros id. unfold cells in *. simpl. rewrite H4. by intros ?%elem_of_nil.
        + intros id w. rewrite H2, H3. apply Hi.
      - unfold cells in *. simpl. rewrite H4. by intros ? ?%elem_of_nil. }
  destruct (lookup_lt_is_Some_2 _ _ Hl) as [c Hc]. rewrite Hc.
  destruct (cells_head s c Hc) as [Hcells Hdrop].
  set (s1 := mkSemaphore (active s) (js_clear (head s) (queue s)) (head s + 1) (liveWaiters s) (waiters s) (next_id s)).
  assert (Hc1 : cells s1 = omap id (drop (S (head s)) (queue s))) by (unfold cells; simpl; by rewrite Hdrop).
  assert (Hsub : sublist (cells s1) (cells s)).
  { rewrite Hcells, Hc1. destruct c; simpl; [by apply sublist_cons|done]. }
  assert (Hok1 : sem_ok s1).
  { apply (sem_ok_shrink s); try done; intros i w Hg; by exists w. }
  assert (Hlen : length (queue s1) - head s1 < fuel).
  { simpl. unfold js_clear. rewrite decide_True by done. rewrite length_insert. lia. }
  assert (Hskip : exists s' out, release_loop fuel s1 = Some (s', out) /\ sem_ok s' /\ next_id s' = next_id s /\
    released s s' out /\ cells s' ⊆ cells s).
  { destruct (IH s1 Hok1 Ha Hlen) as (s' & out & Hr & Hok' & Hn' & Hrel & Hsub').
    exists s', out. split_and!; try done; [|intros x Hx; eapply elem_of_sublist; [by apply Hsub'|done]].
    inversion Hrel as [id H1 H2 H3 H4 H5 H6|H1 H2]; subst; [apply rel_fired; try done|by apply rel_pool].
    by eapply elem_of_sublist. }
  destruct c as [id|]; [|done]. simpl in Hcells.
  destruct (sk_known s Hok id) as (w & Hw & Hne); [rewrite Hcells; by left|].
  change (waiters s1) with (waiters s). rewrite Hw. destruct (timedOut w) eqn:Ht; [done|].
  assert (Hpend : wt_outcome w = Pending).
  { unfold timedOut in Ht. apply bool_decide_eq_false in Ht. by destruct (wt_outcome w). }
  destruct (fire_ok id w s s1 Hok eq_refl eq_refl eq_refl) as (Hok4 & Ha4 & Hn4 & Hlt & Hsub4 & Hsame & Hres);
    [by rewrite Hcells, Hc1|done|].
  eexists _, _. split; [done|]. split; [done|]. split; [done|]. split.
  - apply rel_fired; try done; [rewrite Hcells; by left|]. by rewrite Hw; simpl; f_equal.
  - done.
Qed.
(** ** Histories *)

Definition fired_ids (outs : list output) : list nat :=
  omap (fun o => match o with o_fired id => Some id | _ => None end) outs.

(** The acquires whose promise has been settled, either way. *)
Definition settled_ids (outs : list output) : list nat :=
  omap (fun o => match o with o_granted id | o_fired id | o_rejected id => Some id | _ => None end) outs.

(** Slots handed out minus slots given back to the pool; a hand-over from a
    releaser to a waiter changes neither. *)
Fixpoint held (outs : list output) : Z :=
  match outs with
  | [] => 0
  | o :: outs => (match o with o_granted _ => 1 | o_released => -1 | _ => 0 end + held outs)%Z
  end.

Record history_ok (s : Semaphore) (outs : list output) : Prop := {
  ho_ok : sem_ok s;
  ho_held : active s = held outs;
  ho_fifo : StronglySorted lt (fired_ids outs);
  ho_after : forall f, f ∈ fired_ids outs -> Forall (lt f) (cells s);
  ho_once : NoDup (settled_ids outs);
  ho_bound : forall id, id ∈ settled_ids outs -> id < next_id s;
  ho_pending : forall id, wt_outcome <$> m_get id (waiters s) = Some Pending -> id ∉ settled_ids outs
}.

Lemma held_app o1 o2 : held (o1 ++ o2) = (held o1 + held o2)%Z.
Proof. induction o1 as [|o o1 IH]; simpl; [done|]. rewrite IH. lia. Qed.

Lemma fired_app o1 o2 : fired_ids (o1 ++ o2) = fired_ids o1 ++ fired_ids o2.
Proof. apply omap_app. Qed.

Lemma settled_app o1 o2 : settled_ids (o1 ++ o2) = settled_ids o1 ++ settled_ids o2.
Proof. apply omap_app. Qed.

Lemma fired_settled outs id : id ∈ fired_ids outs -> id ∈ settled_ids outs.
Proof.
  unfold fired_ids, settled_ids. rewrite !list_elem_of_omap. intros (o & Ho & He). exists o.
  split; [done|]. by destruct o.
Qed.

Lemma sorted_snoc (l : list nat) x : StronglySorted lt l -> Forall (fun y => y < x) l -> StronglySorted lt (l ++ [x]).
Proof.
  induction 1 as [|y l Hs IH Hy]; intros Hx; simpl; [repeat constructor|].
  apply Forall_cons in Hx as [Hyx Hx]. constructor; [by apply IH|]. apply Forall_app. split; [done|].
  by apply Forall_singleton.
Qed.

(** An acquire, timeout or release that settles one more identifier. *)
Lemma settle_one outs s o id :
  history_ok s outs -> settled_ids [o] = [id] -> id ∉ settled_ids outs -> id < next_id s ->
  NoDup (settled_ids (outs ++ [o])) /\ (forall x, x ∈ settled_ids (outs ++ [o]) -> x < next_id s).
Proof.
  intros [] Ho Hn Hlt. rewrite settled_app, Ho. split.
  - apply NoDup_app. split; [done|]. split; [|apply NoDup_singleton]. by intros x Hx ->%list_elem_of_singleton.
  - intros x [?| ->%list_elem_of_singleton]%elem_of_app; auto.
Qed.

Lemma acquire_ok s outs : history_ok s outs ->
  let '(s', out) := acquire s in history_ok s' (outs ++ out).
Proof.
  intros Hh. pose proof Hh as [[Ha Hs Hb Hk Hi] Hheld Hf Haf Ho Hbd Hp]. unfold acquire.
  destruct (Z.ltb_spec (active s) maxConcurrency) as [Hlt|Hge].
  - assert (Hfresh : next_id s ∉ settled_ids outs) by (intros Hx%Hbd; lia).
    assert (Hcells : forall l n, cells (mkSemaphore (active s + 1) (queue s) (head s) l (waiters s) n) = cells s) by done.
    split; simpl.
    + split; simpl; [lia|done| |done|].
      * rewrite Hcells. eapply Forall_impl; [done|]. simpl. lia.
      * intros id w Hw. apply Hi in Hw. lia.
    + rewrite held_app. simpl. lia.
    + rewrite fired_app. simpl. by rewrite app_nil_r.
    + rewrite fired_app. simpl. rewrite app_nil_r. done.
    + rewrite settled_app. apply NoDup_app. split; [done|]. split; [|apply NoDup_singleton].
      by intros x Hx ->%list_elem_of_singleton.
    + intros x. rewrite settled_app. simpl. intros [Hx%Hbd| ->%list_elem_of_singleton]%elem_of_app; lia.
    + intros id Hid. rewrite settled_app. simpl. rewrite elem_of_app, list_elem_of_singleton.
      intros [?| ->]; [by eapply Hp|]. destruct (m_get (next_id s) (waiters s)) as [w|] eqn:Hw; [|done].
      apply Hi in Hw. lia.
  - rewrite app_nil_r. set (s' := mkSemaphore _ _ _ _ _ _).
    assert (Hcells : sublist (cells s') (cells s ++ [next_id s])).
    { subst s'. unfold cells. simpl. rewrite drop_app, omap_app. apply sublist_app; [done|].
      destruct (head s - length (queue s)); simpl; [done|]. rewrite drop_nil. apply sublist_nil_l. }
    split; try done; simpl.
    + split; simpl; [lia| | | |].
      * eapply sublist_sorted; [done|]. by apply sorted_snoc.
      * apply Forall_forall. intros x Hx. eapply elem_of_sublist in Hx; [|done].
        rewrite Forall_forall in Hb. apply elem_of_app in Hx as [Hx%Hb| ->%list_elem_of_singleton]; lia.
      * intros id Hid. rewrite m_get_set. destruct (decide (next_id s = id)) as [<-|Hne].
        { eexists. split; [done|]. done. }
        apply Hk. eapply elem_of_sublist in Hid; [|done].
        apply elem_of_app in Hid as [?| ->%list_elem_of_singleton]; done.
      * intros id w. rewrite m_get_set. case_decide; [lia|]. intros Hw%Hi. lia.
    + intros f Hx. apply Forall_forall. intros x Hc. eapply elem_of_sublist in Hc; [|done].
      specialize (Haf f Hx). rewrite Forall_forall in Haf.
      apply elem_of_app in Hc as [?| ->%list_elem_of_singleton]; [by apply Haf|].
      by apply Hbd, fired_settled.
    + intros id Hid. specialize (Hbd id Hid). lia.
    + intros id. rewrite m_get_set. case_decide; [|apply Hp]. subst. intros _ Hx%Hbd. lia.
Qed.

Lemma timeout_ok id s outs : history_ok s outs ->
  let '(s', out) := timeout id s in history_ok s' (outs ++ out).
Proof.
  intros Hh. pose proof Hh as [Hok Hheld Hf Haf Ho Hbd Hp]. unfold timeout.
  destruct (m_get id (waiters s)) as [[slot []]|] eqn:Hw; rewrite ?app_nil_r; try done.
  destruct (match slot with Some i => _ | None => _ end) as [[q live] slot'] eqn:Hq.
  assert (Hsub : sublist (omap (fun c : option nat => c) (drop (head s) q)) (cells s)).
  { destruct slot as [i|]; [destruct (queue s !! i) as [[?|]|]|]; injection Hq as <- _ _; try done.
    apply js_clear_sublist. }
  assert (Hpend : wt_outcome <$> m_get id (waiters s) = Some Pending) by (by rewrite Hw).
  destruct (settle_one outs s (o_rejected id) id Hh eq_refl) as [Hnd Hb2];
    [by apply Hp|by eapply (sk_ids s Hok)|].
  split; simpl; try done.
  - apply (sem_ok_shrink s); try done; simpl.
    + intros i w Hg _ Hne. rewrite m_get_set. case_decide; [by eexists|by exists w].
    + intros i w. rewrite m_get_set. case_decide; [subst; by eexists|by eexists].
  - rewrite held_app. simpl. lia.
  - rewrite fired_app. simpl. by rewrite app_nil_r.
  - rewrite fired_app. simpl. rewrite app_nil_r. intros f Hx. specialize (Haf f Hx).
    rewrite Forall_forall in *. intros x Hc. apply Haf. by eapply elem_of_sublist.
  - intros i. rewrite settled_app, m_get_set. simpl. case_decide as Hi; [done|]. intros Hg.
    rewrite elem_of_app, list_elem_of_singleton. intros [?| ->]; [by eapply Hp|done].
Qed.

Lemma release_ok s outs : history_ok s outs ->
  exists s' out, release s = Some (s', out) /\ history_ok s' (outs ++ out).
Proof.
  intros Hh. pose proof Hh as [Hok Hheld Hf Haf Ho Hbd Hp]. unfold release.
  destruct (Z.leb_spec (active s) 0) as [Hle|Hpos].
  { exists s, [o_error]. split; [done|].
    split; rewrite ?settled_app, ?fired_app; simpl; rewrite ?app_nil_r; try done.
    rewrite held_app. simpl. lia. }
  destruct (release_loop_ok (S (length (queue s) - head s)) s Hok Hpos) as (s' & out & Hr & Hok' & Hn & Hrel & Hsub);
    [lia|]. exists s', out. split; [done|].
  inversion Hrel as [id Ha Hid Hpend Hres Hsame Hlt|Ha Hw]; subst.
  - destruct (settle_one outs s (o_fired id) id Hh eq_refl) as [Hnd Hb2]; [by apply Hp| |].
    { destruct Hok as [_ _ Hb _ _]. rewrite Forall_forall in Hb. by apply Hb. }
    split; try done.
    + rewrite held_app, Ha. simpl. lia.
    + rewrite fired_app. apply sorted_snoc; [done|]. apply Forall_forall. intros f Hx.
      specialize (Haf f Hx). rewrite Forall_forall in Haf. by apply Haf.
    + intros f. rewrite fired_app. intros [Hx| ->%list_elem_of_singleton]%elem_of_app; [|done].
      specialize (Haf f Hx). rewrite Forall_forall in *. auto.
    + intros x Hx. rewrite Hn. by apply Hb2.
    + intros i Hi. rewrite settled_app, elem_of_app. simpl. rewrite list_elem_of_singleton.
      destruct (decide (i = id)) as [->|Hne]; [congruence|]. rewrite (Hsame i Hne) in Hi.
      intros [?|?]; [by eapply Hp|done].
  - split; rewrite ?settled_app, ?fired_app; simpl; rewrite ?app_nil_r; try done.
    + rewrite held_app, Ha. simpl. lia.
    + intros f Hx. specialize (Haf f Hx). rewrite Forall_forall in *. auto.
    + by rewrite Hn.
    + by rewrite Hw.
Qed.

Lemma sem_run_ok ops : forall s outs, history_ok s outs ->
  exists s' outs', run s ops = Some (s', outs') /\ history_ok s' (outs ++ outs').
Proof.
  induction ops as [|op ops IH]; intros s outs Hh; simpl; [exists s, []; by rewrite app_nil_r|].
  assert (exists s1 out, run_op s op = Some (s1, out) /\ history_ok s1 (outs ++ out)) as (s1 & out & -> & H1).
  { destruct op as [| |id]; simpl; [|by apply release_ok|].
    - pose proof (acquire_ok s outs Hh). destruct (acquire s). eauto.
    - pose proof (timeout_ok id s outs Hh). destruct (timeout id s). eauto. }
  destruct (IH _ _ H1) as (s2 & outs2 & -> & H2). exists s2, (out ++ outs2).
  split; [done|]. by rewrite app_assoc.
Qed.

Lemma sem_create_ok : (0 <= maxConcurrency)%Z -> history_ok createConcurrencySemaphore [].
Proof.
  intros Hm. split; simpl; try done; try apply SSorted_nil; try apply NoDup_nil_2;
    try (by intros f ?%elem_of_nil).
  split; unfold cells; simpl; try done; try apply SSorted_nil; try apply Forall_nil_2; try lia;
    by intros f ?%elem_of_nil.
Qed.
End Sem.

(** Whatever the interleaving of acquires, releases and timeouts, every
    operation terminates, the number of active slots stays within
    [0, maxConcurrency] and equals the slots handed out minus those given back,
    no acquire is answered twice, and waiters are served in arrival order. *)
Lemma semaphore_safe (maxConcurrency : Z) (ops : list sem_op) :
  (1 <= maxConcurrency)%Z ->
  exists s outs, run maxConcurrency createConcurrencySemaphore ops = Some (s, outs) /\
    (0 <= activeCount s <= maxConcurrency)%Z /\ activeCount s = held outs /\
    NoDup (settled_ids outs) /\ StronglySorted lt (fired_ids outs).
Proof.
  intros Hm. destruct (sem_run_ok maxConcurrency ops createConcurrencySemaphore []) as (s & outs & Hr & []);
    [apply sem_create_ok; lia|]. exists s, outs. split; [done|]. by destruct ho_ok0.
Qed.

(** Four waiters behind one slot; two are served, a fifth arrives, and all
    slots are released. *)
Definition lost_run : list sem_op :=
  [op_acquire; op_acquire; op_acquire; op_acquire; op_acquire; op_release; op_release;
   op_acquire; op_release; op_release; op_release].

(** A waiter can be lost.  [slot] keeps its value when [maybeCompact] moves
    the cells, so serving a waiter erases the cell of another: in this run
    nobody times out, everybody releases, the semaphore is idle with no cell
    queued, and the promise of acquire 5 is still pending; no later release can
    reach it, only its own timeout. *)
Lemma semaphore_loses_waiter :
  exists s outs, run 1 createConcurrencySemaphore lost_run = Some (s, outs) /\
    activeCount s = 0%Z /\ cells s = [] /\
    wt_outcome <$> m_get 5 (waiters s) = Some Pending /\ 5 ∉ settled_ids outs /\
    (exists s' outs', run 1 s [op_acquire; op_release; op_release] = Some (s', outs') /\
       wt_outcome <$> m_get 5 (waiters s') = Some Pending).
Proof.
  eexists _, _. split; [vm_compute; reflexivity|]. split_and!; try (vm_compute; reflexivity).
  - vm_compute. intros Hin. repeat (apply elem_of_cons in Hin as [Hin|Hin]; [done|]). by apply elem_of_nil in Hin.
  - eexists _, _. split; vm_compute; reflexivity.
Qed.

(** [waitingCount] undercounts: serving one of two waiters decrements the
    counter twice, so it reports nobody waiting while one acquire is queued and
    pending. *)
Theorem waiting_count_undercounts :
  exists s outs, run 1 createConcurrencySemaphore [op_acquire; op_acquire; op_acquire; op_release] = Some (s, outs) /\
    waitingCount s = 0%Z /\ cells s = [2] /\ wt_outcome <$> m_get 2 (waiters s) = Some Pending.
Proof. eexists _, _. by split; [vm_compute; reflexivity|]. Qed.

Lemma semaphore_safe_witness :
  exists s outs, run 2 createConcurrencySemaphore
      [op_acquire; op_acquire; op_acquire; op_timeout 2; op_release] = Some (s, outs) /\
    (0 <= activeCount s <= 2)%Z /\ activeCount s = held outs /\
    NoDup (settled_ids outs) /\ StronglySorted lt (fired_ids outs).
Proof. apply (semaphore_safe 2). lia. Defined.
