(* ===== verification/Text.v ===== *)
(** * Text

    The string operations the permission code uses, on lists of characters (the
    code units of a JavaScript string, those below 256): search, [split],
    [join]. *)

From S2P Require Import Prelude.
From Stdlib Require Export Ascii.

Abbreviation text := (list ascii) (only parsing).

Definition str (s : string) : text := String.list_ascii_of_string s.

#[export] Instance ascii_eq_dec : EqDecision ascii := ascii_dec.

(** [s.startsWith(p)] *)
Fixpoint starts_with (p s : text) : bool :=
  match p, s with
  | [], _ => true
  | c :: p, x :: s => bool_decide (c = x) && starts_with p s
  | _ :: _, [] => false
  end.

(** [s.includes(p)] *)
Fixpoint includes (p s : text) : bool :=
  starts_with p s || match s with [] => false | _ :: s => includes p s end.

(** [s.indexOf(c)] for a single character; [None] is [-1]. *)
Fixpoint indexOf (c : ascii) (s : text) : option nat :=
  match s with
  | [] => None
  | x :: s => if decide (x = c) then Some 0 else S <$> indexOf c s
  end.

(** [s.split(c)] for a single character. *)
Fixpoint split (c : ascii) (s : text) : list text :=
  match s with
  | [] => [[]]
  | x :: s =>
      if decide (x = c) then [] :: split c s
      else match split c s with
           | seg :: segs => (x :: seg) :: segs
           | [] => [[x]]
           end
  end.

(** [segs.join(c)] for a single character. *)
Fixpoint join (c : ascii) (segs : list text) : text :=
  match segs with
  | [] => []
  | [seg] => seg
  | seg :: segs => seg ++ c :: join c segs
  end.

Definition replaceAll (c d : ascii) (s : text) : text :=
  (fun x => if decide (x = c) then d else x) <$> s.

Lemma split_nonempty c s : split c s ≠ [].
Proof. destruct s as [|x s]; simpl; [done|]. case_decide; [done|]. by destruct (split c s). Qed.

Lemma join_cons c seg segs : segs ≠ [] -> join c (seg :: segs) = seg ++ c :: join c segs.
Proof. by destruct segs. Qed.

Lemma join_split c s : join c (split c s) = s.
Proof.
  induction s as [|x s IH]; [done|]. cbn [split]. pose proof (split_nonempty c s) as Hne.
  case_decide as Hx.
  - subst x. rewrite join_cons by done. by rewrite IH.
  - destruct (split c s) as [|seg [|seg2 segs]]; [done| |]; simpl in *; by rewrite <-IH.
Qed.

Lemma split_free c s : Forall (fun seg => c ∉ seg) (split c s).
Proof.
  induction s as [|x s IH]; simpl; [by apply Forall_singleton, not_elem_of_nil|].
  case_decide; [apply Forall_cons; split; [apply not_elem_of_nil|done]|].
  destruct (split c s) as [|seg segs].
  - apply Forall_singleton. by intros Hc%list_elem_of_singleton.
  - apply Forall_cons in IH as [Hseg IH]. apply Forall_cons. split; [|done].
    by intros [?|?]%elem_of_cons.
Qed.

Lemma split_app c seg s : c ∉ seg -> split c (seg ++ c :: s) = seg :: split c s.
Proof.
  induction seg as [|x seg IH]; simpl; intros Hc.
  - by rewrite decide_True.
  - rewrite not_elem_of_cons in Hc. rewrite decide_False by (intros ->; tauto). by rewrite IH by tauto.
Qed.

Lemma split_single c seg : c ∉ seg -> split c seg = [seg].
Proof.
  induction seg as [|x seg IH]; simpl; intros Hc; [done|].
  rewrite not_elem_of_cons in Hc. rewrite decide_False by (intros ->; tauto). by rewrite IH by tauto.
Qed.

Lemma split_join c segs : segs ≠ [] -> Forall (fun seg => c ∉ seg) segs -> split c (join c segs) = segs.
Proof.
  induction segs as [|seg segs IH]; intros Hne Hf; [done|]. apply Forall_cons in Hf as [Hs Hf].
  destruct segs as [|seg2 segs]; [by apply split_single|]. rewrite join_cons by done.
  rewrite split_app by done. by rewrite IH.
Qed.

Lemma indexOf_None c s : indexOf c s = None <-> c ∉ s.
Proof.
  induction s as [|x s IH]; simpl; [split; [intros _; apply not_elem_of_nil|done]|].
  rewrite not_elem_of_cons. case_decide as Hx; [split; [done|intros [? _]; congruence]|].
  rewrite <-IH. destruct (indexOf c s); simpl; [split; [done|by intros [_ ?]]|].
  split; [|done]. intros _. split; [congruence|done].
Qed.

Lemma indexOf_Some c s n : indexOf c s = Some n <->
  exists s1 s2, s = s1 ++ c :: s2 /\ c ∉ s1 /\ length s1 = n.
Proof.
  revert n. induction s as [|x s IH]; intros n; simpl.
  - split; [done|]. intros (s1 & s2 & H & _). by destruct s1.
  - case_decide as Hx.
    + subst x. split.
      * intros [= <-]. exists [], s. split_and!; [done|apply not_elem_of_nil|done].
      * intros (s1 & s2 & Heq & Hn & <-). destruct s1 as [|y s1]; [done|].
        injection Heq as -> _. exfalso. apply Hn. by left.
    + rewrite fmap_Some. split.
      * intros (m & (s1 & s2 & -> & Hn & <-)%IH & ->). exists (x :: s1), s2.
        split_and!; [done| |done]. rewrite not_elem_of_cons. split; [congruence|done].
      * intros (s1 & s2 & Heq & Hn & <-). destruct s1 as [|y s1]; injection Heq as -> ->; [done|].
        exists (length s1). split; [|done]. apply IH. exists s1, s2. rewrite not_elem_of_cons in Hn. tauto.
Qed.

Lemma starts_with_spec p s : starts_with p s = true <-> exists s', s = p ++ s'.
Proof.
  revert s. induction p as [|c p IH]; intros s; simpl; [split; eauto|].
  destruct s as [|x s]; [split; [done|by intros [? ?]]|].
  rewrite andb_true_iff, bool_decide_eq_true, IH. split.
  - intros [-> [s' ->]]. by exists s'.
  - intros [s' [= -> ->]]. split; [done|by exists s'].
Qed.

Lemma includes_spec p s : includes p s = true <-> exists s1 s2, s = s1 ++ p ++ s2.
Proof.
  induction s as [|x s IH]; simpl; rewrite orb_true_iff, starts_with_spec.
  - split; [intros [[s' ?]|?]; [by exists [], s'|done]|].
    intros (s1 & s2 & H). left. destruct s1; [by exists s2|done].
  - rewrite IH. split.
    + intros [[s' ->]|(s1 & s2 & ->)]; [by exists [], s'|by exists (x :: s1), s2].
    + intros ([|y s1] & s2 & H); simpl in H; [left; by exists s2|right].
      injection H as -> ->. by exists s1, s2.
Qed.

Lemma replaceAll_absent c d s : c ∉ s -> replaceAll c d s = s.
Proof.
  induction s as [|x s IH]; simpl; intros Hc; [done|]. rewrite not_elem_of_cons in Hc.
  rewrite decide_False by (intros ->; tauto). f_equal. apply IH. tauto.
Qed.

Lemma replaceAll_free c d s : c ≠ d -> c ∉ replaceAll c d s.
Proof.
  intros Hne. unfold replaceAll. rewrite list_elem_of_fmap. intros (x & Hx & _).
  case_decide; congruence.
Qed.
