(* ===== verification/PathNorm.v ===== *)
(** * Resource normalisation

    [normalizeResource] and the traversal guard of
    [security/permissions/src/rule-evaluator.ts]: permission rules are matched
    against the normalised resource, so that [..] cannot step out of what a
    rule allows. *)

From S2P Require Import Prelude Text.
Local Open Scope char_scope.
Local Open Scope list_scope.

Definition isAlpha (c : ascii) : bool :=
  let n := nat_of_ascii c in ((65 <=? n) && (n <=? 90) || (97 <=? n) && (n <=? 122))%nat.

(** [colonIndex !== -1 && !isWindowsDrive && (slashIndex === -1 || colonIndex < slashIndex)] *)
Definition colon_first (resource : text) : bool :=
  let isWindowsDrive :=
    bool_decide (indexOf ":" resource = Some 1%nat) &&
    match resource with c :: _ => isAlpha c | [] => false end in
  match indexOf ":" resource with
  | None => false
  | Some colonIndex =>
      negb isWindowsDrive &&
      match indexOf "/" resource with None => true | Some slashIndex => (colonIndex <? slashIndex)%nat end
  end.

Definition isFilesystemPath (resource : text) : bool :=
  if includes (str "://"%string) resource then false
  else if colon_first resource then false
  else if bool_decide (resource = ["."]) || bool_decide (resource = ["."; "."]) then true
  else includes ["/"] resource || includes ["\"] resource.

(** The loop over the segments: [None] when [..] escapes a relative path. *)
Fixpoint resolve (isAbsolute : bool) (segments resolved : list text) : option (list text) :=
  match segments with
  | [] => Some resolved
  | seg :: segments =>
      if bool_decide (seg = ["."]) || bool_decide (seg = []) then resolve isAbsolute segments resolved
      else if bool_decide (seg = ["."; "."]) then
        match resolved with
        | [] => if isAbsolute then resolve isAbsolute segments resolved else None
        | _ => resolve isAbsolute segments (removelast resolved)
        end
      else resolve isAbsolute segments (resolved ++ [seg])
  end.

(** [/^[A-Za-z]:\//] *)
Definition driveMatch (s : text) : bool :=
  match s with
  | c :: d :: e :: _ => isAlpha c && bool_decide (d = ":") && bool_decide (e = "/")
  | _ => false
  end.

Definition normalizeResource (resource : text) : option text :=
  if negb (isFilesystemPath resource) then Some resource
  else
    let normalized := replaceAll "\" "/" resource in
    let isUnixAbsolute := starts_with ["/"] normalized in
    let isAbsolute := isUnixAbsolute || driveMatch normalized in
    let drivePrefix := if driveMatch normalized then Some (take 2%nat normalized) else None in
    let pathPart := if driveMatch normalized then drop 2%nat normalized else normalized in
    match resolve isAbsolute (split "/" pathPart) [] with
    | None => None
    | Some resolved =>
        let result := join "/" resolved in
        match drivePrefix with
        | Some prefix => Some (prefix ++ "/" :: result)
        | None => Some (if isUnixAbsolute then "/" :: result else result)
        end
    end.

(** [/(?:^|[/\\])\.\.?(?:[/\\]|$)/]: search for a dot segment, [boundary] being
    whether the current position is the start or follows a separator. *)
Definition isSep (c : ascii) : bool := bool_decide (c = "/") || bool_decide (c = "\").

Definition at_end (s : text) : bool := match s with [] => true | c :: _ => isSep c end.

Definition dot_segment (s : text) : bool :=
  match s with
  | c :: s =>
      bool_decide (c = ".") &&
      (at_end s || match s with d :: s => bool_decide (d = ".") && at_end s | [] => false end)
  | [] => false
  end.

Fixpoint has_traversal (boundary : bool) (s : text) : bool :=
  (boundary && dot_segment s) ||
  match s with [] => false | c :: s => has_traversal (isSep c) s end.

Definition hasNamespaceTraversal (resource : text) : bool :=
  match indexOf ":" resource with
  | None => false
  | Some colonIndex => has_traversal true (drop (S colonIndex) resource)
  end.

(** ** Canonical paths *)

Definition is_dots (seg : text) : Prop := seg = ["."] \/ seg = ["."; "."].

(** A proper path segment: not empty, not a dot segment, no separator. *)
Definition good (seg : text) : Prop := seg ≠ [] /\ ~ is_dots seg /\ "/" ∉ seg /\ "\" ∉ seg.

(** [""], ["/"] or a drive root. *)
Definition is_root (root : text) : Prop :=
  root = [] \/ root = ["/"] \/ exists d, isAlpha d = true /\ root = [d; ":"; "/"].

Definition canonical (p : text) : Prop :=
  exists root segs, is_root root /\ Forall good segs /\ p = root ++ join "/" segs.

(** How far a list of segments climbs: names and [..]. *)
Definition ups (segs : list text) : nat := length (filter (fun s => s = ["."; "."]) segs).
Definition names (segs : list text) : nat :=
  length (filter (fun s => s ≠ [] /\ s ≠ ["."] /\ s ≠ ["."; "."]) segs).

Lemma ups_cons seg segs : ups (seg :: segs) = ((if decide (seg = ["."; "."]) then 1 else 0) + ups segs)%nat.
Proof. unfold ups. rewrite filter_cons. by case_decide. Qed.

Lemma names_cons seg segs :
  names (seg :: segs) = ((if decide (seg ≠ [] /\ seg ≠ ["."] /\ seg ≠ ["."; "."]) then 1 else 0) + names segs)%nat.
Proof. unfold names. rewrite filter_cons. by case_decide. Qed.

Lemma length_removelast (l : list text) : length (removelast l) = (length l - 1)%nat.
Proof. induction l as [|x [|y l] IH]; simpl in *; [done|done|]. rewrite IH. lia. Qed.

Lemma resolve_good isAbs segs : forall acc res,
  Forall (fun s => "/" ∉ s /\ "\" ∉ s) segs -> Forall good acc ->
  resolve isAbs segs acc = Some res -> Forall good res.
Proof.
  induction segs as [|seg segs IH]; intros acc res Hf Hacc; simpl; [by intros [= <-]|].
  apply Forall_cons in Hf as [[Hs1 Hs2] Hf]. case_bool_decide as H1; simpl; [by apply IH|].
  case_bool_decide as H2; simpl; [by apply IH|]. case_bool_decide as H3.
  - destruct acc as [|a acc]; [destruct isAbs; [by apply IH|done]|]. apply IH; [done|].
    by apply Forall_removelast.
  - apply IH; [done|]. apply Forall_app. split; [done|]. apply Forall_singleton.
    split_and!; try done. by intros [?|?].
Qed.

Lemma resolve_good_id isAbs segs : forall acc,
  Forall good segs -> resolve isAbs segs acc = Some (acc ++ segs).
Proof.
  induction segs as [|seg segs IH]; intros acc Hf; simpl; [by rewrite app_nil_r|].
  apply Forall_cons in Hf as [(Hne & Hd & _) Hf]. unfold is_dots in Hd.
  rewrite !bool_decide_false by tauto. simpl. rewrite IH by done. by rewrite <-app_assoc.
Qed.

(** A relative path is unresolvable exactly when some prefix of it climbs more
    often than it descends. *)
Lemma resolve_escape segs : forall acc,
  resolve false segs acc = None <->
  exists p q, segs = p ++ q /\ (names p + length acc < ups p)%nat.
Proof.
  induction segs as [|seg segs IH]; intros acc; cbn [resolve].
  { split; [done|]. intros (p & q & Heq & Hlt). symmetry in Heq. apply app_eq_nil in Heq as [-> ->].
    unfold ups in Hlt. simpl in Hlt. lia. }
  assert (Hcons : (exists p q, seg :: segs = p ++ q /\ (names p + length acc < ups p)%nat) <->
    exists p q, segs = p ++ q /\ (names (seg :: p) + length acc < ups (seg :: p))%nat).
  { split; intros (p & q & Heq & Hlt).
    - destruct p as [|x p]; [unfold ups in Hlt; simpl in Hlt; lia|]. injection Heq as -> ->. by exists p, q.
    - subst segs. by exists (seg :: p), q. }
  rewrite Hcons. clear Hcons.
  case_bool_decide as H1; simpl.
  { rewrite IH. setoid_rewrite names_cons. setoid_rewrite ups_cons. subst seg.
    rewrite decide_False by tauto. by rewrite decide_False by done. }
  case_bool_decide as H2; simpl.
  { rewrite IH. setoid_rewrite names_cons. setoid_rewrite ups_cons. subst seg.
    rewrite decide_False by tauto. by rewrite decide_False by done. }
  case_bool_decide as H3.
  - subst seg. setoid_rewrite names_cons. setoid_rewrite ups_cons.
    rewrite decide_False by tauto. rewrite decide_True by done.
    destruct acc as [|a acc].
    + split; [|done]. intros _. exists [], segs. split; [done|]. simpl. lia.
    + rewrite IH, length_removelast. simpl. rewrite Nat.sub_0_r.
      split; intros (p & q & ? & ?); exists p, q; (split; [done|lia]).
  - rewrite IH. setoid_rewrite names_cons. setoid_rewrite ups_cons.
    rewrite decide_True by done. rewrite decide_False by done. rewrite length_app. simpl.
    split; intros (p & q & ? & ?); exists p, q; (split; [done|lia]).
Qed.

Lemma resolve_absolute segs : forall acc, is_Some (resolve true segs acc).
Proof.
  induction segs as [|seg segs IH]; intros acc; simpl; [by eexists|].
  repeat case_bool_decide; simpl; try apply IH. destruct acc; apply IH.
Qed.

Lemma elem_of_join c seg segs x : seg ∈ segs -> x ∈ seg -> x ∈ join c segs.
Proof.
  induction segs as [|y segs IH]; intros Hs Hx; [by apply elem_of_nil in Hs|].
  destruct segs as [|z segs].
  - by apply list_elem_of_singleton in Hs as ->.
  - rewrite join_cons by done. rewrite elem_of_app, elem_of_cons.
    apply elem_of_cons in Hs as [->|Hs]; [by left|right; right; by apply IH].
Qed.

Lemma split_segments s : "\" ∉ s -> Forall (fun seg => "/" ∉ seg /\ "\" ∉ seg) (split "/" s).
Proof.
  intros Hb. apply Forall_forall. intros seg Hseg. split.
  - pose proof (split_free "/" s) as Hf. rewrite Forall_forall in Hf. by apply Hf.
  - intros Hin. apply Hb. rewrite <-(join_split "/" s). by eapply elem_of_join.
Qed.

(** ** Normal forms *)

Lemma good_free segs : Forall good segs -> Forall (fun seg => "/" ∉ seg) segs.
Proof. intros Hf. eapply Forall_impl; [done|]. by intros seg (_ & _ & ? & _). Qed.

Lemma not_elem_of_join x c segs : x ≠ c -> Forall (fun seg => x ∉ seg) segs -> x ∉ join c segs.
Proof.
  intros Hne. induction 1 as [|seg segs Hs Hf IH]; [apply not_elem_of_nil|].
  destruct segs as [|seg2 segs]; [done|]. rewrite join_cons by done.
  rewrite elem_of_app, elem_of_cons. tauto.
Qed.

Lemma split_join_good segs : segs ≠ [] -> Forall good segs -> split "/" (join "/" segs) = segs.
Proof. intros Hne Hg. apply split_join; [done|by apply good_free]. Qed.

Lemma resolve_rooted isAbs segs :
  Forall good segs -> resolve isAbs (split "/" ("/" :: join "/" segs)) [] = Some segs.
Proof.
  intros Hg. change (split "/" ("/" :: join "/" segs)) with ([] :: split "/" (join "/" segs)).
  destruct segs as [|seg segs]; [by destruct isAbs|]. rewrite split_join_good by done. simpl.
  exact (resolve_good_id isAbs (seg :: segs) [] Hg).
Qed.

Lemma isAlpha_not c d : isAlpha d = true -> isAlpha c = false -> d ≠ c.
Proof. intros H1 H2 ->. congruence. Qed.

Lemma starts_slash_join segs : Forall good segs -> starts_with ["/"] (join "/" segs) = false.
Proof.
  intros Hg. destruct segs as [|seg segs]; [done|]. apply Forall_cons in Hg as [(Hne & _ & Hs & _) _].
  destruct seg as [|x seg]; [done|]. rewrite not_elem_of_cons in Hs.
  assert (bool_decide ("/" = x) = false) as Hb by (apply bool_decide_false; tauto).
  destruct segs; simpl; by rewrite Hb.
Qed.

Lemma canonical_backslash p : canonical p -> "\" ∉ p.
Proof.
  intros (root & segs & Hr & Hg & ->). rewrite elem_of_app. intros [Hin|Hin].
  - destruct Hr as [->|[->|(d & Hd & ->)]]; [by apply elem_of_nil in Hin|by apply list_elem_of_singleton in Hin|].
    repeat (apply elem_of_cons in Hin as [Hin|Hin]; [try discriminate; subst; discriminate|]).
    by apply elem_of_nil in Hin.
  - revert Hin. apply not_elem_of_join; [done|]. eapply Forall_impl; [done|]. by intros seg (_ & _ & _ & ?).
Qed.

Lemma driveMatch_spec s : driveMatch s = true ->
  exists d q, isAlpha d = true /\ s = d :: ":" :: "/" :: q.
Proof.
  destruct s as [|d [|c [|e q]]]; simpl; try done.
  rewrite !andb_true_iff, !bool_decide_eq_true. intros [[Hd ->] ->]. by exists d, q.
Qed.

(** A canonical path is its own normal form. *)
Lemma normalize_canonical p : canonical p -> normalizeResource p = Some p.
Proof.
  intros Hc. unfold normalizeResource. destruct (isFilesystemPath p) eqn:Hfs; cbn [negb]; [|done].
  rewrite replaceAll_absent by (by apply canonical_backslash).
  destruct Hc as (root & segs & Hr & Hg & ->). destruct Hr as [->|[->|(d & Hd & ->)]]; simpl app.
  - rewrite starts_slash_join by done. destruct (driveMatch (join "/" segs)) eqn:Hdr; simpl orb.
    + apply driveMatch_spec in Hdr as (d & q & Hd & Heq). rewrite Heq.
      assert (Hsegs : segs = [d; ":"] :: split "/" q).
      { rewrite <-(split_join_good segs), Heq; [|by intros ->|done].
        apply (split_app "/" [d; ":"] q). rewrite !not_elem_of_cons.
        split_and!; [|done|apply not_elem_of_nil]. intros <-. done. }
      assert (Hq : Forall good (split "/" q)) by (subst segs; by apply Forall_cons in Hg as [_ ?]).
      change (drop 2 (d :: ":" :: "/" :: q)) with ("/" :: q).
      rewrite <-(join_split "/" q) at 1. rewrite (resolve_rooted true) by done.
      simpl. by rewrite join_split.
    + destruct segs as [|seg segs]; [done|].
      rewrite split_join_good by done.
      rewrite (resolve_good_id false (seg :: segs) []) by done. done.
  - change (starts_with ["/"] ("/" :: join "/" segs)) with true. simpl orb.
    assert (driveMatch ("/" :: join "/" segs) = false) as ->.
    { destruct (driveMatch _) eqn:Hdr; [|done]. apply driveMatch_spec in Hdr as (d & q & Hd & Heq).
      injection Heq as <- _. done. }
    rewrite resolve_rooted by done. done.
  - assert (starts_with ["/"] (d :: ":" :: "/" :: join "/" segs) = false) as ->.
    { simpl. rewrite bool_decide_false; [done|]. intros <-. done. }
    assert (driveMatch (d :: ":" :: "/" :: join "/" segs) = true) as ->.
    { simpl. by rewrite Hd. }
    simpl orb. change (drop 2 (d :: ":" :: "/" :: join "/" segs)) with ("/" :: join "/" segs).
    rewrite resolve_rooted by done. done.
Qed.

(** Normalising a filesystem path gives a canonical one. *)
Lemma normalize_is_canonical r p :
  isFilesystemPath r = true -> normalizeResource r = Some p -> canonical p.
Proof.
  intros Hfs. unfold normalizeResource. rewrite Hfs. cbn [negb]. set (n := replaceAll "\" "/" r).
  assert (Hn : "\" ∉ n) by (by apply replaceAll_free).
  destruct (resolve _ _ []) as [resolved|] eqn:Hres; [|done].
  assert (Hgood : Forall good resolved).
  { eapply resolve_good; [| |exact Hres]; [|done]. apply split_segments.
    destruct (driveMatch n); [|done]. intros Hin. apply Hn.
    rewrite <-(take_drop 2 n). apply elem_of_app. by right. }
  destruct (driveMatch n) eqn:Hd.
  - apply driveMatch_spec in Hd as (d & q & Hd & ->). intros [= <-].
    exists [d; ":"; "/"], resolved. split; [right; right; by exists d|]. split; done.
  - destruct (starts_with ["/"] n); intros [= <-].
    + exists ["/"], resolved. split; [right; by left|]. split; done.
    + exists [], resolved. split; [by left|]. split; done.
Qed.

(** ** What reaches the rules has no dot segments *)

Lemma dot_segment_first s f t :
  split "/" s = f :: t -> is_dots f -> dot_segment s = true.
Proof.
  intros Hs Hd.
  assert (Hcase : s = f \/ exists s', s = f ++ "/" :: s').
  { rewrite <-(join_split "/" s), Hs. destruct t as [|g t]; [by left|right].
    rewrite join_cons by done. eauto. }
  destruct Hd as [->| ->]; destruct Hcase as [->|[s' ->]]; done.
Qed.

Lemma has_traversal_tail s : forall b f t seg,
  split "/" s = f :: t -> seg ∈ t -> is_dots seg -> has_traversal b s = true.
Proof.
  induction s as [|x s IH]; intros b f t seg Hs Hin Hd; simpl in Hs.
  { injection Hs as <- <-. by apply elem_of_nil in Hin. }
  simpl. apply orb_true_iff. right. case_decide as Hx.
  - subst x. injection Hs as <- <-. destruct (split "/" s) as [|f t] eqn:Hsp; [by apply elem_of_nil in Hin|].
    apply elem_of_cons in Hin as [->|Hin]; [|by eapply IH].
    pose proof (dot_segment_first _ _ _ Hsp Hd) as Hdot.
    destruct s; [done|]. cbn [has_traversal]. by rewrite Hdot.
  - destruct (split "/" s) as [|f' t'] eqn:Hsp; [by apply split_nonempty in Hsp|].
    injection Hs as <- <-. by eapply IH.
Qed.

Lemma canonical_no_dots p : canonical p -> Forall (fun seg => ~ is_dots seg) (split "/" p).
Proof.
  intros (root & segs & Hr & Hg & ->).
  assert (Hj : Forall (fun seg => ~ is_dots seg) (split "/" (join "/" segs))).
  { destruct segs as [|seg segs]; [apply Forall_singleton; by intros [?|?]|].
    rewrite split_join_good by done. eapply Forall_impl; [done|]. by intros x (_ & ? & _). }
  destruct Hr as [->|[->|(d & Hd & ->)]]; [done| |].
  - change (split "/" (["/"] ++ join "/" segs)) with ([] :: split "/" (join "/" segs)).
    apply Forall_cons. split; [by intros [?|?]|done].
  - change ([d; ":"; "/"] ++ join "/" segs) with ([d; ":"] ++ "/" :: join "/" segs).
    rewrite split_app; [apply Forall_cons; split; [by intros [?|?]|done]|].
    rewrite !not_elem_of_cons. split_and!; [|done|apply not_elem_of_nil]. intros <-. done.
Qed.

Lemma colon_first_spec r : colon_first r = true ->
  exists s1 s2, r = s1 ++ ":" :: s2 /\ "/" ∉ s1 /\ hasNamespaceTraversal r = has_traversal true s2.
Proof.
  unfold colon_first, hasNamespaceTraversal. destruct (indexOf ":" r) as [ci|] eqn:Hci; [|done].
  apply indexOf_Some in Hci as (s1 & s2 & -> & Hn & <-). rewrite andb_true_iff. intros [_ Hsl].
  exists s1, s2. split; [done|]. split.
  - intros Hin. apply list_elem_of_split in Hin as (a & b & ->).
    destruct (indexOf "/" ((a ++ "/" :: b) ++ ":" :: s2)) as [si|] eqn:Hsi.
    + apply Nat.ltb_lt in Hsl. apply indexOf_Some in Hsi as (p & q & Heq & Hp & Hlen).
      rewrite length_app in Hsl. simpl in Hsl. rewrite <-app_assoc in Heq. simpl in Heq.
      assert (length a < length p)%nat by lia.
      assert (Hlk : (a ++ "/" :: b ++ ":" :: s2) !! length a = Some "/").
      { by rewrite lookup_app_r, Nat.sub_diag by lia. }
      rewrite Heq, lookup_app_l in Hlk by lia. apply Hp. by eapply list_elem_of_lookup_2.
    + apply indexOf_None in Hsi. apply Hsi. rewrite !elem_of_app. left. right. by left.
  - f_equal. change (s1 ++ ":" :: s2) with (s1 ++ [":"] ++ s2). rewrite app_assoc.
    rewrite drop_app_length'; [done|]. rewrite length_app. simpl. lia.
Qed.

Lemma matched_no_dots r p :
  normalizeResource r = Some p -> hasNamespaceTraversal p = false -> includes (str "://"%string) r = false ->
  Forall (fun seg => ~ is_dots seg) (split "/" p).
Proof.
  intros Hn Ht Hurl. destruct (isFilesystemPath r) eqn:Hfs.
  { by eapply canonical_no_dots, normalize_is_canonical. }
  unfold normalizeResource in Hn. rewrite Hfs in Hn. injection Hn as <-.
  unfold isFilesystemPath in Hfs. rewrite Hurl in Hfs. destruct (colon_first r) eqn:Hcf.
  - apply colon_first_spec in Hcf as (s1 & s2 & -> & Hs1 & Htr). rewrite Htr in Ht.
    destruct (split "/" s2) as [|f t] eqn:Hs2; [by apply split_nonempty in Hs2|].
    assert (split "/" (s1 ++ ":" :: s2) = (s1 ++ ":" :: f) :: t) as ->.
    { clear -Hs1 Hs2. induction s1 as [|x s1 IH]; [simpl app; cbn [split]; by rewrite Hs2|].
      rewrite not_elem_of_cons in Hs1. simpl. rewrite decide_False by (intros ->; tauto).
      by rewrite IH by tauto. }
    apply Forall_cons. split.
    + assert (Hc : ":" ∈ s1 ++ ":" :: f) by (apply elem_of_app; right; by left).
      intros [Hd|Hd]; rewrite Hd in Hc; repeat (apply elem_of_cons in Hc as [Hc|Hc]; [done|]);
        by apply elem_of_nil in Hc.
    + apply Forall_forall. intros seg Hin Hd. rewrite (has_traversal_tail s2 true f t seg) in Ht; done.
  - destruct (bool_decide (r = ["."]) || bool_decide (r = ["."; "."])) eqn:Hdots; [done|].
    apply orb_false_iff in Hfs as [Hfs _].
    rewrite split_single.
    + apply Forall_singleton. apply orb_false_iff in Hdots as [H1 H2].
      rewrite bool_decide_eq_false in H1, H2. by intros [?|?].
    + intros Hin. apply list_elem_of_split in Hin as (a & b & ->).
      assert (includes ["/"] (a ++ "/" :: b) = true); [|congruence].
      apply includes_spec. by exists a, b.
Qed.

(** ** The claims *)

(** [normalizeResource] computes normal forms: a resource that does not look
    like a path is passed through, a path becomes canonical (a Unix or drive
    root, then proper segments only: no empty, dot or [..] segment and no
    backslash), normalising twice changes nothing, and a path is refused exactly
    when it is relative and some prefix of its segments climbs above its start.
    Absolute paths are clamped at their root and never refused. *)
Lemma normalize_spec (r : text) :
  let n := replaceAll "\" "/" r in
  (isFilesystemPath r = false -> normalizeResource r = Some r) /\
  (forall p, isFilesystemPath r = true -> normalizeResource r = Some p -> canonical p) /\
  (forall p, normalizeResource r = Some p -> normalizeResource p = Some p) /\
  (normalizeResource r = None <->
     isFilesystemPath r = true /\ starts_with ["/"] n = false /\ driveMatch n = false /\
     exists a b, split "/" n = a ++ b /\ (names a < ups a)%nat).
Proof.
  intros n. split; [|split; [|split]].
  - intros Hfs. unfold normalizeResource. by rewrite Hfs.
  - intros p. apply normalize_is_canonical.
  - intros p Hn. destruct (isFilesystemPath r) eqn:Hfs.
    + by eapply normalize_canonical, normalize_is_canonical.
    + unfold normalizeResource in Hn. rewrite Hfs in Hn. injection Hn as <-.
      unfold normalizeResource. by rewrite Hfs.
  - unfold normalizeResource. destruct (isFilesystemPath r) eqn:Hfs; cbn [negb]; [|split; [done|by intros [? _]]].
    fold n. destruct (driveMatch n) eqn:Hd.
    { rewrite orb_true_r. destruct (resolve_absolute (split "/" (drop 2 n)) []) as [x ->].
      split; [done|by intros (_ & _ & ? & _)]. }
    destruct (starts_with ["/"] n) eqn:Hs; simpl orb.
    { destruct (resolve_absolute (split "/" n) []) as [x ->]. split; [done|by intros (_ & ? & _)]. }
    pose proof (resolve_escape (split "/" n) []) as He. cbn [length] in He.
    setoid_rewrite Nat.add_0_r in He.
    destruct (resolve false (split "/" n) []) as [x|].
    + split; [done|]. intros (_ & _ & _ & Hx). by apply He in Hx.
    + split; [|done]. intros _. split; [done|]. split; [done|]. split; [done|]. by apply He.
Qed.

(** Unless the resource contains [://], what is matched against the rules
    has no dot segment left: once [normalizeResource] and the namespace guard
    have let a resource through, none of its segments is [.] or [..]. *)
Lemma matched_resource_clean (r p : text) :
  normalizeResource r = Some p -> hasNamespaceTraversal p = false ->
  includes (str "://"%string) r = false ->
  forall seg, seg ∈ split "/" p -> seg ≠ ["."] /\ seg ≠ ["."; "."].
Proof.
  intros Hn Ht Hu seg Hseg. pose proof (matched_no_dots r p Hn Ht Hu) as Hf.
  rewrite Forall_forall in Hf. specialize (Hf seg Hseg). unfold is_dots in Hf. tauto.
Qed.

Lemma matched_resource_clean_witness :
  str "etc"%string ≠ ["."] /\ str "etc"%string ≠ ["."; "."].
Proof.
  apply (matched_resource_clean (str "/srv/./app/../../etc//passwd"%string) (str "/etc/passwd"%string));
    [vm_compute; reflexivity..|]. vm_compute. right. left.
Defined.
