(* ===== verification/Glob.v ===== *)
(** * Globs

    [compileGlob] of [security/permissions/src/rule-evaluator.ts] turns a glob
    into the source of an anchored regular expression.  The expression is a
    sequence of five kinds of pieces, modelled as the list of those pieces with
    their JavaScript meaning ([.] does not match a line terminator; the two
    Unicode ones are outside the characters modelled).  [glob_match] is what
    the documentation promises, segment by segment. *)

From S2P Require Import Prelude Text.
Local Open Scope char_scope.
Local Open Scope list_scope.

(** ** The regular expressions [compileGlob] emits *)

(** In order: an escaped literal character; a run of characters other than a
    slash; a run of any characters; an optional run of any characters that ends
    with a slash; an optional slash followed by a run of any characters. *)
Inductive piece : Type :=
  | P_lit (c : ascii)
  | P_seg
  | P_any
  | P_dirs
  | P_sub.

#[export] Instance piece_eq_dec : EqDecision piece.
Proof. solve_decision. Defined.

Definition is_newline (c : ascii) : bool :=
  bool_decide (c = ascii_of_nat 10) || bool_decide (c = ascii_of_nat 13).

(** The loop of [compileGlob]; [result] is the expression so far, and
    [result.endsWith("/")] holds exactly when its last piece is a literal
    slash. *)
Fixpoint compile (result : list piece) (pattern : text) : list piece :=
  match pattern with
  | [] => result
  | c :: pattern =>
      if decide (c = "*") then
        match pattern with
        | [] => compile (result ++ [P_seg]) pattern
        | d :: pattern' =>
            if decide (d = "*") then
              match pattern' with
              | [] =>
                  if decide (last result = Some (P_lit "/"))
                  then removelast result ++ [P_sub] else result ++ [P_any]
              | e :: pattern'' =>
                  if decide (e = "/") then compile (result ++ [P_dirs]) pattern''
                  else if decide (last result = Some (P_lit "/"))
                       then compile (removelast result ++ [P_sub]) pattern'
                       else compile (result ++ [P_any]) pattern'
              end
            else compile (result ++ [P_seg]) pattern
        end
      else compile (result ++ [P_lit c]) pattern
  end.

Definition compileGlob (pattern : text) : list piece := compile [] pattern.

(** *** Matching, with what must match the rest as a continuation *)

(** Consume any number of characters satisfying [ok], then continue. *)
Fixpoint eat (ok : ascii -> bool) (k : text -> bool) (s : text) : bool :=
  k s || match s with c :: s => ok c && eat ok k s | [] => false end.

Definition dot (c : ascii) : bool := negb (is_newline c).
Definition not_slash (c : ascii) : bool := bool_decide (c ≠ "/").

Definition after_slash (k : text -> bool) (s : text) : bool :=
  match s with c :: s => bool_decide (c = "/") && k s | [] => false end.

Definition match_piece (p : piece) (k : text -> bool) (s : text) : bool :=
  match p with
  | P_lit c => match s with x :: s => bool_decide (x = c) && k s | [] => false end
  | P_seg => eat not_slash k s
  | P_any => eat dot k s
  | P_dirs => k s || eat dot (after_slash k) s
  | P_sub => k s || after_slash (eat dot k) s
  end.

Definition nil_b (s : text) : bool := match s with [] => true | _ => false end.

Definition match_pieces (ps : list piece) (k : text -> bool) : text -> bool :=
  foldr match_piece k ps.

(** [new RegExp("^...$").test(s)] *)
Definition regex_test (ps : list piece) (s : text) : bool := match_pieces ps nil_b s.

Definition matchResource (compiled : list piece) (resource : text) : bool := regex_test compiled resource.

(** ** What a glob means: segment by segment *)

(** A segment pattern is literal text with single stars in it. *)
Inductive atom : Type := A_star | A_lit (c : ascii).

Inductive gseg : Type :=
  | G_any_depth                (* a whole "**" segment *)
  | G_name (atoms : list atom).

Fixpoint name_match (atoms : list atom) (seg : text) : bool :=
  match atoms with
  | [] => nil_b seg
  | A_lit c :: atoms => match seg with x :: seg => bool_decide (x = c) && name_match atoms seg | [] => false end
  | A_star :: atoms => eat not_slash (name_match atoms) seg
  end.

(** "**" stands for zero or more whole segments. *)
Fixpoint skip_segments (k : list text -> bool) (segs : list text) : bool :=
  k segs || match segs with _ :: segs => skip_segments k segs | [] => false end.

Fixpoint glob_match (g : list gseg) (segs : list text) : bool :=
  match g with
  | [] => match segs with [] => true | _ => false end
  | G_any_depth :: g => skip_segments (glob_match g) segs
  | G_name atoms :: g =>
      match segs with
      | seg :: segs => name_match atoms seg && glob_match g segs
      | [] => false
      end
  end.

Definition render_atom (a : atom) : ascii := match a with A_star => "*" | A_lit c => c end.

Definition render_seg (g : gseg) : text :=
  match g with G_any_depth => ["*"; "*"] | G_name atoms => render_atom <$> atoms end.

(** The pattern string written for a list of segment patterns. *)
Definition render (g : list gseg) : text := join "/" (render_seg <$> g).

(** Literals are neither stars nor slashes, stars stand alone. *)
Fixpoint atoms_ok (atoms : list atom) : bool :=
  match atoms with
  | [] => true
  | A_lit c :: atoms => bool_decide (c ≠ "*") && bool_decide (c ≠ "/") && atoms_ok atoms
  | A_star :: atoms =>
      match atoms with A_star :: _ => false | _ => atoms_ok atoms end
  end.

(** A well-formed glob: "**" only as a whole segment, never twice in a row. *)
Fixpoint glob_ok (g : list gseg) : bool :=
  match g with
  | [] => true
  | G_any_depth :: g => match g with G_any_depth :: _ => false | _ => glob_ok g end
  | G_name atoms :: g => atoms_ok atoms && glob_ok g
  end.

(** ** What [compileGlob] emits for a well-formed glob *)

Definition atom_piece (a : atom) : piece := match a with A_star => P_seg | A_lit c => P_lit c end.

Fixpoint pieces_of (g : list gseg) : list piece :=
  match g with
  | [] => []
  | [G_any_depth] => [P_any]
  | G_any_depth :: g => P_dirs :: pieces_of g
  | [G_name atoms] => atom_piece <$> atoms
  | [G_name atoms; G_any_depth] => (atom_piece <$> atoms) ++ [P_sub]
  | G_name atoms :: g => (atom_piece <$> atoms) ++ P_lit "/" :: pieces_of g
  end.

Lemma compile_atoms atoms rest : forall result,
  atoms_ok atoms = true -> (rest = [] \/ exists r, rest = "/" :: r) ->
  compile result ((render_atom <$> atoms) ++ rest) = compile (result ++ (atom_piece <$> atoms)) rest.
Proof.
  induction atoms as [|[|c] atoms IH]; intros result Hok Hrest; cbn [fmap list_fmap app].
  - by rewrite app_nil_r.
  - assert (Hok' : atoms_ok atoms = true) by (destruct atoms as [|[] ?]; done).
    replace (result ++ atom_piece A_star :: (atom_piece <$> atoms))
      with ((result ++ [P_seg]) ++ (atom_piece <$> atoms)) by (by rewrite <-app_assoc).
    rewrite <-(IH (result ++ [P_seg])) by done. cbn [compile render_atom]. rewrite decide_True by done.
    destruct atoms as [|[|c] atoms]; cbn [fmap list_fmap app].
    + destruct Hrest as [->|[r ->]]; [done|]. by rewrite decide_False.
    + done.
    + cbn [render_atom]. simpl in Hok'. rewrite !andb_true_iff, !bool_decide_eq_true in Hok'.
      rewrite decide_False by tauto. done.
  - cbn [atoms_ok] in Hok. rewrite !andb_true_iff, !bool_decide_eq_true in Hok.
    destruct Hok as [[Hs Hsl] Hok].
    replace (result ++ atom_piece (A_lit c) :: (atom_piece <$> atoms))
      with ((result ++ [P_lit c]) ++ (atom_piece <$> atoms)) by (by rewrite <-app_assoc).
    rewrite <-(IH (result ++ [P_lit c])) by done. cbn [compile render_atom].
    by rewrite decide_False.
Qed.

Lemma last_snoc_piece (l : list piece) p : last (l ++ [p]) = Some p.
Proof. by rewrite last_snoc. Qed.

Lemma render_cons g g2 gs : render (g :: g2 :: gs) = render_seg g ++ "/" :: render (g2 :: gs).
Proof. done. Qed.

Lemma compile_render g : forall result,
  glob_ok g = true -> g ≠ [] -> (last result ≠ Some (P_lit "/") \/ (exists a gs, g = G_name a :: gs) \/
    (exists g2 gs, g = G_any_depth :: g2 :: gs)) ->
  compile result (render g) = result ++ pieces_of g.
Proof.
  induction g as [|s g IH]; intros result Hok Hne Hlast; [done|]. destruct g as [|s2 g].
  - destruct s as [|atoms].
    + destruct Hlast as [Hl|[(a & gs & ?)|(g2 & gs & ?)]]; [|done|done]. unfold render. cbn [fmap list_fmap join render_seg].
      cbn [compile]. rewrite !decide_True by done. by rewrite decide_False.
    + unfold render. cbn [fmap list_fmap join render_seg]. cbn [glob_ok] in Hok. rewrite andb_true_iff in Hok.
      rewrite <-(app_nil_r (render_atom <$> atoms)). rewrite compile_atoms by (tauto || by left). done.
  - rewrite render_cons. destruct s as [|atoms].
    + destruct s2 as [|atoms2]; [done|]. cbn [render_seg app compile]. rewrite !decide_True by done.
      rewrite IH; [by rewrite <-app_assoc|done|done|right; left; eauto].
    + cbn [glob_ok] in Hok. rewrite andb_true_iff in Hok. destruct Hok as [Ha Hok].
      cbn [render_seg]. rewrite compile_atoms by (done || right; eauto).
      cbn [compile]. rewrite decide_False by done. destruct s2 as [|atoms2].
      * destruct g as [|s3 g].
        -- unfold render. cbn [fmap list_fmap join render_seg compile]. rewrite !decide_True by done.
           rewrite decide_True by apply last_snoc_piece. rewrite removelast_last. cbn [pieces_of].
           by rewrite <-app_assoc.
        -- rewrite IH; [|done|done|right; right; eauto]. cbn [pieces_of]. by rewrite <-!app_assoc.
      * rewrite IH; [|done|done|right; left; eauto]. cbn [pieces_of]. by rewrite <-!app_assoc.
Qed.

(** ** Matching the emitted expression is matching segment by segment *)

Lemma match_pieces_app ps qs k s : match_pieces (ps ++ qs) k s = match_pieces ps (match_pieces qs k) s.
Proof. unfold match_pieces. by rewrite foldr_app. Qed.

(** What follows a segment: nothing, or a slash. *)
Definition segment_end (rest : text) : Prop := rest = [] \/ exists r, rest = "/" :: r.

Lemma match_name atoms k seg rest :
  atoms_ok atoms = true -> "/" ∉ seg -> segment_end rest ->
  (forall x s, x ≠ "/" -> k (x :: s) = false) ->
  match_pieces (atom_piece <$> atoms) k (seg ++ rest) = name_match atoms seg && k rest.
Proof.
  intros Hok Hseg Hrest Hk. revert seg Hok Hseg.
  induction atoms as [|[|c] atoms IH]; intros seg Hok Hseg; cbn [fmap list_fmap match_pieces foldr name_match].
  - destruct seg as [|x seg]; [done|]. rewrite not_elem_of_cons in Hseg. simpl. apply Hk. intros ->. tauto.
  - assert (Hok' : atoms_ok atoms = true) by (destruct atoms as [|[] ?]; done).
    fold (match_pieces (atom_piece <$> atoms) k). cbn [match_piece atom_piece].
    induction seg as [|x seg IHs]; cbn [app eat].
    + pose proof (IH [] Hok' Hseg) as IH0. simpl in IH0.
      destruct Hrest as [->|[r ->]]; cbn [eat]; rewrite IH0, ?orb_false_r; [done|].
      change (not_slash "/") with false. simpl. by rewrite ?orb_false_r.
    + rewrite not_elem_of_cons in Hseg. pose proof (IH (x :: seg) Hok') as IH1. simpl in IH1.
      rewrite IH1 by (rewrite not_elem_of_cons; tauto). rewrite IHs by tauto.
      by rewrite andb_orb_distrib_l, andb_assoc.
  - cbn [atoms_ok] in Hok. rewrite !andb_true_iff, !bool_decide_eq_true in Hok. destruct Hok as [[_ Hc] Hok].
    fold (match_pieces (atom_piece <$> atoms) k). cbn [match_piece atom_piece].
    destruct seg as [|x seg]; cbn [app].
    + destruct Hrest as [->|[r ->]]; [done|]. rewrite bool_decide_false by congruence. done.
    + rewrite not_elem_of_cons in Hseg. rewrite IH by tauto. by rewrite andb_assoc.
Qed.

Lemma eat_dot_nil s : Forall (fun c => dot c = true) s -> eat dot nil_b s = true.
Proof. induction 1 as [|c s Hc Hs IH]; [done|]. simpl. by rewrite Hc, IH. Qed.

Lemma eat_to_slash k seg t : "/" ∉ seg -> Forall (fun c => dot c = true) seg ->
  eat dot (after_slash k) (seg ++ "/" :: t) = k t || eat dot (after_slash k) t.
Proof.
  induction seg as [|x seg IH]; intros Hs Hd; cbn [app eat after_slash].
  - by rewrite bool_decide_true.
  - rewrite not_elem_of_cons in Hs. apply Forall_cons in Hd as [Hx Hd].
    rewrite bool_decide_false by (intros ->; tauto). rewrite Hx, IH by tauto. done.
Qed.

Lemma eat_no_slash k seg : "/" ∉ seg -> eat dot (after_slash k) seg = false.
Proof.
  induction seg as [|x seg IH]; intros Hs; cbn [eat after_slash]; [done|].
  rewrite not_elem_of_cons in Hs. rewrite bool_decide_false by (intros ->; tauto).
  rewrite IH by tauto. simpl. by rewrite andb_false_r.
Qed.

(** Segments as [split] makes them, of a text without line terminators. *)
Definition plain (seg : text) : Prop := "/" ∉ seg /\ Forall (fun c => dot c = true) seg.

Lemma plain_join segs : Forall plain segs -> Forall (fun c => dot c = true) (join "/" segs).
Proof.
  induction 1 as [|seg segs [_ Hd] Hf IH]; [done|]. destruct segs as [|seg2 segs]; [done|].
  rewrite join_cons by done. apply Forall_app. split; [done|]. by apply Forall_cons.
Qed.

Lemma match_dirs k f segs :
  segs ≠ [] -> Forall plain segs -> f [] = false ->
  (forall segs', segs' ≠ [] -> Forall plain segs' -> k (join "/" segs') = f segs') ->
  match_piece P_dirs k (join "/" segs) = skip_segments f segs.
Proof.
  intros Hne Hf Hnil Hk. induction segs as [|seg segs IH]; [done|].
  pose proof Hf as [[Hs Hd] Hf']%Forall_cons. cbn [match_piece skip_segments].
  rewrite (Hk (seg :: segs)) by done. f_equal.
  destruct segs as [|seg2 segs].
  - simpl. by rewrite eat_no_slash, Hnil.
  - rewrite join_cons by done. rewrite eat_to_slash by done. apply IH; done.
Qed.

Lemma glob_match_nil g : glob_ok g = true -> g ≠ [] -> g ≠ [G_any_depth] -> glob_match g [] = false.
Proof.
  destruct g as [|[|a] g]; try done. destruct g as [|[|a] g]; try done. 
Qed.

Lemma skip_all segs : skip_segments (glob_match []) segs = true.
Proof. induction segs as [|s segs IH]; [done|]. cbn [skip_segments]. rewrite IH. by destruct segs. Qed.

Lemma match_glob g : forall segs,
  glob_ok g = true -> g ≠ [] -> segs ≠ [] -> Forall plain segs ->
  match_pieces (pieces_of g) nil_b (join "/" segs) = glob_match g segs.
Proof.
  induction g as [|s g IH]; intros segs Hok Hne Hs Hf; [done|].
  assert (Hend : forall seg segs', join "/" (seg :: segs') = seg ++ match segs' with [] => [] | _ => "/" :: join "/" segs' end).
  { intros seg [|? ?]; [by rewrite app_nil_r|done]. }
  destruct s as [|atoms].
  - destruct g as [|s2 g].
    + change (match_pieces (pieces_of [G_any_depth]) nil_b (join "/" segs)) with (eat dot nil_b (join "/" segs)).
      rewrite eat_dot_nil by (by apply plain_join). cbn [glob_match]. by rewrite skip_all.
    + destruct s2 as [|a2]; [done|].
      change (match_pieces (pieces_of (G_any_depth :: G_name a2 :: g)) nil_b (join "/" segs)) with
        (match_piece P_dirs (match_pieces (pieces_of (G_name a2 :: g)) nil_b) (join "/" segs)).
      rewrite (match_dirs _ (glob_match (G_name a2 :: g))); try done. intros segs' ? ?. by apply IH.
  - destruct segs as [|seg segs]; [done|]. apply Forall_cons in Hf as [[Hseg Hd] Hf].
    cbn [glob_ok] in Hok. rewrite andb_true_iff in Hok. destruct Hok as [Ha Hok].
    cbn [glob_match]. rewrite Hend.
    assert (Hrest : segment_end (match segs with [] => [] | _ => "/" :: join "/" segs end)).
    { destruct segs; [by left|right; eauto]. }
    destruct g as [|s2 g]; [|destruct s2 as [|a2]; [destruct g as [|s3 g]|]]; cbn [pieces_of].
    + rewrite match_name by done. f_equal. by destruct segs.
    + rewrite match_pieces_app, match_name; [|done|done|done|].
      2:{ intros x t Hx. simpl. by rewrite bool_decide_false. }
      f_equal. cbn [glob_match]. rewrite skip_all. destruct segs as [|seg2 segs]; [done|].
      simpl match_pieces. apply (eat_dot_nil (join "/" (seg2 :: segs))). by apply plain_join.
    + rewrite match_pieces_app, match_name; [|done|done|done|].
      2:{ intros x t Hx. simpl. by rewrite bool_decide_false. }
      f_equal. destruct segs as [|seg2 segs].
      * symmetry. by apply glob_match_nil.
      * transitivity (match_pieces (pieces_of (G_any_depth :: s3 :: g)) nil_b (join "/" (seg2 :: segs)));
          [reflexivity|by apply IH].
    + rewrite match_pieces_app, match_name; [|done|done|done|].
      2:{ intros x t Hx. simpl. by rewrite bool_decide_false. }
      f_equal. destruct segs as [|seg2 segs]; [done|].
      transitivity (match_pieces (pieces_of (G_name a2 :: g)) nil_b (join "/" (seg2 :: segs)));
        [reflexivity|by apply IH].
Qed.

Lemma split_plain s : Forall (fun c => dot c = true) s -> Forall plain (split "/" s).
Proof.
  intros Hd. induction Hd as [|x s Hx Hd IH]; simpl.
  - apply Forall_singleton. split; [apply not_elem_of_nil|done].
  - case_decide; [apply Forall_cons; split; [split; [apply not_elem_of_nil|done]|done]|].
    destruct (split "/" s) as [|f t].
    + apply Forall_singleton. split; [|by apply Forall_singleton]. by intros ?%list_elem_of_singleton.
    + apply Forall_cons in IH as [[H1 H2] IH]. apply Forall_cons. split; [|done].
      split; [by intros [?|?]%elem_of_cons|by apply Forall_cons].
Qed.

(** A glob whose segments all come from [split]: matching as used by clients. *)
Lemma matchResource_glob g s :
  glob_ok g = true -> g ≠ [] -> Forall (fun c => dot c = true) s ->
  matchResource (compileGlob (render g)) s = glob_match g (split "/" s).
Proof.
  intros Hok Hne Hs. unfold matchResource, regex_test, compileGlob.
  rewrite compile_render; [|done|done|by left]. simpl app.
  rewrite <-(join_split "/" s) at 1. apply match_glob; [done|done|apply split_nonempty|by apply split_plain].
Qed.

(** ** The claims *)

(** C9: For every well-formed glob ([**] only as a whole segment and never twice
    in a row) and every resource without line terminators, the regular
    expression [compileGlob] builds accepts the resource exactly when the glob
    matches it segment by segment: [*] within a segment, [**] any number of
    segments, everything else literally. *)
Theorem compileGlob_correct (g : list gseg) (resource : text) :
  glob_ok g = true -> g ≠ [] -> Forall (fun c => is_newline c = false) resource ->
  matchResource (compileGlob (render g)) resource = glob_match g (split "/" resource).
Proof.
  intros Hok Hne Hs. apply matchResource_glob; [done|done|]. eapply Forall_impl; [done|].
  intros c Hc. unfold dot. by rewrite Hc.
Qed.

Lemma compileGlob_correct_witness :
  matchResource (compileGlob (str "src/**/*.ts"%string)) (str "src/deep/nested/index.ts"%string) =
  glob_match [G_name [A_lit "s"; A_lit "r"; A_lit "c"]; G_any_depth;
              G_name [A_star; A_lit "."; A_lit "t"; A_lit "s"]]
    (split "/" (str "src/deep/nested/index.ts"%string)).
Proof.
  apply (compileGlob_correct [G_name [A_lit "s"; A_lit "r"; A_lit "c"]; G_any_depth;
              G_name [A_star; A_lit "."; A_lit "t"; A_lit "s"]]).
  - reflexivity.
  - discriminate.
  - apply Forall_forall. intros c Hc. vm_compute in Hc.
    repeat (apply elem_of_cons in Hc as [->|Hc]; [reflexivity|]). by apply elem_of_nil in Hc.
Defined.

(** A line terminator defeats [**]: the pattern [secrets/**] means every
    path below [secrets], but the expression compiled from it rejects one whose
    name contains a newline, while a single star accepts it. *)
Theorem newline_escapes_double_star :
  let resource := str "secrets/a"%string ++ [ascii_of_nat 10; "b"] in
  let g := [G_name (A_lit <$> str "secrets"%string); G_any_depth] in
  render g = str "secrets/**"%string /\ glob_match g (split "/" resource) = true /\
  matchResource (compileGlob (render g)) resource = false /\
  matchResource (compileGlob (str "secrets/*"%string)) resource = true.
Proof. by vm_compute. Qed.
