(* ===== verification/Permissions.v ===== *)
(** * Permissions

    Rules, evaluation, modes, loading and the default credential rules of
    [security/permissions/src] ([rule-types.ts], [rule-evaluator.ts],
    [mode-resolver.ts], [rule-loader.ts], [create-permission-backend.ts],
    [credential-deny-rules.ts]).  Patterns and resources are texts, matched
    through [PathNorm] and [Glob]; schema validation is the Zod library's and
    enters as a parameter of [loadRules]. *)

From S2P Require Import Prelude JsMap Text PathNorm Glob.

Local Open Scope string_scope.
Local Open Scope list_scope.

(** ** Rules *)

Inductive RuleEffect : Type := E_allow | E_deny | E_ask.
Inductive Disposition : Type := hard | soft.

Inductive RuleSource : Type := S_policy | S_flag | S_project | S_local | S_user.

#[export] Instance RuleSource_eq_dec : EqDecision RuleSource.
Proof. solve_decision. Defined.

Definition RuleSource_str (s : RuleSource) : string :=
  match s with
  | S_policy => "policy" | S_flag => "flag" | S_project => "project"
  | S_local => "local" | S_user => "user"
  end.

Record PermissionRule : Type := mkRule {
  pr_pattern : text;
  pr_action : string;
  pr_effect : RuleEffect;
  pr_principal : option text;
  pr_context : option (list (string * text));
  pr_reason : option string;
  pr_on_deny : option Disposition
}.

(** A rule tagged with where it came from. *)
Record SourcedRule : Type := mkSourced { sr_rule : PermissionRule; sr_source : RuleSource }.

Record CompiledRule : Type := mkCompiled {
  cr_rule : SourcedRule;
  cr_compiled : list piece;
  cr_principal : option (list piece);
  cr_context : option (list (string * list piece))
}.

Definition SOURCE_PRECEDENCE : list RuleSource := [S_policy; S_flag; S_local; S_project; S_user].

Inductive PermissionMode : Type :=
  | M_default | M_bypass | M_plan | M_auto | M_unknown (mode : string).

Definition PLAN_ALLOWED_ACTIONS : list string := ["read"; "glob"; "grep"; "search"; "list"].
Definition PLAN_RULE_EVALUATED_ACTIONS : list string := ["discover"].
Definition PLAN_SAFE_VOCABULARY : list string :=
  ["read"; "glob"; "grep"; "search"; "list"; "discover"; "stat"; "metadata"; "lookup"; "describe";
   "inspect"; "resolve"].

Record PermissionQuery : Type := mkQuery {
  q_principal : text;
  q_action : string;
  q_resource : text;
  q_context : option (list (string * jsval))
}.

(** Decisions, with the two symbols the evaluator stamps: [exact] on an allow
    from a pattern without metacharacters, [fallthrough] on the default ask. *)
Inductive PermissionDecision : Type :=
  | allow (exact : bool)
  | deny (reason : string) (disposition : option Disposition)
  | ask (reason : string) (fallthrough : bool).

(** ** Evaluation *)

Definition matchAction (ruleAction queryAction : string) : bool :=
  bool_decide (ruleAction = "*") || bool_decide (ruleAction = queryAction).

Definition matchPrincipal (compiledPrincipal : option (list piece)) (principal : text) : bool :=
  match compiledPrincipal with None => true | Some re => regex_test re principal end.

Definition matchContext (compiledContext : option (list (string * list piece)))
    (queryContext : option (list (string * jsval))) : bool :=
  match compiledContext, queryContext with
  | None, _ => true
  | Some _, None => false
  | Some ctx, Some values =>
      forallb (fun '(key, pattern) =>
        match m_get key values with
        | Some (JStr value) => regex_test pattern (str value)
        | _ => false
        end) ctx
  end.

Definition resolveDenyDisposition (rule : PermissionRule) : Disposition := default hard (pr_on_deny rule).

(** [/[*?[\]{]/.test(pattern)] *)
Definition has_metachar (pattern : text) : bool :=
  existsb (fun c => bool_decide (c ∈ str "*?[]{")) pattern.

Definition rule_matches (query : PermissionQuery) (resource : text) (rule : CompiledRule) : bool :=
  matchPrincipal (cr_principal rule) (q_principal query) &&
  matchContext (cr_context rule) (q_context query) &&
  matchAction (pr_action (sr_rule (cr_rule rule))) (q_action query) &&
  matchResource (cr_compiled rule) resource.

(** What a matching rule answers. *)
Definition apply_rule (rule : CompiledRule) : PermissionDecision :=
  let r := sr_rule (cr_rule rule) in
  let reason :=
    default ("Matched " +:+ RuleSource_str (sr_source (cr_rule rule)) +:+ " rule: "
             +:+ String.string_of_list_ascii (pr_pattern r)) (pr_reason r) in
  match pr_effect r with
  | E_allow => allow (negb (has_metachar (pr_pattern r)))
  | E_deny => deny reason (Some (resolveDenyDisposition r))
  | E_ask => ask reason false
  end.

Fixpoint first_match (query : PermissionQuery) (resource : text) (rules : list CompiledRule)
    : PermissionDecision :=
  match rules with
  | [] => ask "No matching permission rule" true
  | rule :: rules =>
      if rule_matches query resource rule then apply_rule rule else first_match query resource rules
  end.

Definition evaluateRules (query : PermissionQuery) (rules : list CompiledRule) : PermissionDecision :=
  match normalizeResource (q_resource query) with
  | None => deny "Resource path contains unresolvable traversal segments" (Some hard)
  | Some resource =>
      if hasNamespaceTraversal resource
      then deny "Namespace resource contains path traversal segments" (Some hard)
      else first_match query resource rules
  end.

(** ** Modes *)

Record PlanModeOptions : Type := mkPlanOptions {
  allowedActions : list string;
  ruleEvaluatedActions : list string
}.

Definition resolveMode (mode : PermissionMode) (query : PermissionQuery) (rules : list CompiledRule)
    (planOptions : PlanModeOptions) : PermissionDecision :=
  match mode with
  | M_bypass => allow false
  | M_plan =>
      if negb (bool_decide (q_action query ∈ allowedActions planOptions)) &&
         negb (bool_decide (q_action query ∈ ruleEvaluatedActions planOptions))
      then deny "Only read-only actions are allowed in plan mode" None
      else
        match evaluateRules query rules with
        | deny reason d => deny reason d
        | ask reason f => ask reason f
        | allow _ => allow false
        end
  | M_default | M_auto => evaluateRules query rules
  | M_unknown m => deny ("Unknown permission mode: " +:+ m) None
  end.

(** ** Loading *)

Section Load.
(** [validateSourceRules]: the Zod schema's verdict on one source's rules. *)
Variable validateSourceRules : RuleSource -> list PermissionRule -> Result (list PermissionRule) KoiError.

Definition normalize_pattern (source : RuleSource) (rule : PermissionRule) : SourcedRule :=
  mkSourced
    (mkRule (replaceAll "\"%char "/"%char (pr_pattern rule)) (pr_action rule) (pr_effect rule)
       (pr_principal rule) (pr_context rule) (pr_reason rule) (pr_on_deny rule))
    source.

Fixpoint load_sources (order : list RuleSource) (sources : RuleSource -> option (list PermissionRule))
    (merged : list SourcedRule) : Result (list SourcedRule) KoiError :=
  match order with
  | [] => Ok merged
  | source :: order =>
      match sources source with
      | None | Some [] => load_sources order sources merged
      | Some rules =>
          match validateSourceRules source rules with
          | Err e => Err e
          | Ok rules => load_sources order sources (merged ++ (normalize_pattern source <$> rules))
          end
      end
  end.

Definition loadRules (sources : RuleSource -> option (list PermissionRule))
    : Result (list SourcedRule) KoiError :=
  load_sources SOURCE_PRECEDENCE sources [].
End Load.

(** ** The backend *)

Record PermissionConfig : Type := mkConfig {
  pc_mode : PermissionMode;
  pc_rules : list SourcedRule;
  pc_planAllowedActions : option (list string);
  pc_planRuleEvaluatedActions : option (list string)
}.

Definition compileRule (rule : SourcedRule) : CompiledRule :=
  mkCompiled rule (compileGlob (pr_pattern (sr_rule rule)))
    (match pr_principal (sr_rule rule) with
     | Some p => if decide (p = ["*"%char]) then None else Some (compileGlob p)
     | None => None
     end)
    (option_map (List.map (fun '(key, value) => (key, compileGlob value))) (pr_context (sr_rule rule))).

Definition validatePlanActions (actions : list string) : bool :=
  forallb (fun a => bool_decide (a ∈ PLAN_SAFE_VOCABULARY)) actions.

(** A constructed backend is its [check] function; construction throws on an
    invalid mode or on plan actions outside the vocabulary. *)
Definition createPermissionBackend (config : PermissionConfig)
    : option (PermissionQuery -> PermissionDecision) :=
  match pc_mode config with
  | M_unknown _ => None
  | mode =>
      let rules := compileRule <$> pc_rules config in
      let planAllowed := default PLAN_ALLOWED_ACTIONS (pc_planAllowedActions config) in
      let planRuleEval := default PLAN_RULE_EVALUATED_ACTIONS (pc_planRuleEvaluatedActions config) in
      if validatePlanActions planAllowed && validatePlanActions planRuleEval then
        match mode with
        | M_bypass => Some (fun _ => allow true)
        | _ => Some (fun query => resolveMode mode query rules (mkPlanOptions planAllowed planRuleEval))
        end
      else None
  end.

Definition checkBatch (check : PermissionQuery -> PermissionDecision) (queries : list PermissionQuery)
    : list PermissionDecision := check <$> queries.

(** ** Default credential rules *)

Definition credential_rule (pattern : string) (reason : string) : PermissionRule :=
  mkRule (str pattern) "*" E_deny None None (Some reason) None.

Definition CREDENTIAL_DENY_RULES : list PermissionRule :=
  [ credential_rule "**/.ssh/**" "SSH keys — credential directory blocked by default policy";
    credential_rule "**/.docker/**" "Docker credentials — credential directory blocked by default policy";
    credential_rule "**/.aws/**" "AWS credentials — credential directory blocked by default policy";
    credential_rule "**/.gnupg/**" "GPG keys — credential directory blocked by default policy";
    credential_rule "**/.config/gcloud/**" "Google Cloud credentials — credential directory blocked by default policy";
    credential_rule "**/.azure/**" "Azure CLI credentials — credential directory blocked by default policy";
    credential_rule "**/.kube/**" "Kubernetes configs — credential directory blocked by default policy";
    credential_rule "**/.npmrc" "npm auth tokens — credential file blocked by default policy";
    credential_rule "**/.pypirc" "PyPI auth tokens — credential file blocked by default policy";
    credential_rule "**/.netrc" "Network credentials — credential file blocked by default policy";
    credential_rule "**/.vault-token" "HashiCorp Vault token — credential file blocked by default policy";
    credential_rule "**/.env" "Environment file (may contain secrets) — blocked by default policy";
    credential_rule "**/.env.*" "Environment variant file (may contain secrets) — blocked by default policy" ].

Definition createCredentialDenyRules (source : RuleSource) : list SourcedRule :=
  (fun rule => mkSourced rule source) <$> CREDENTIAL_DENY_RULES.

(** ** First match *)

Lemma first_match_spec query resource rules :
  (first_match query resource rules = ask "No matching permission rule" true /\
     Forall (fun r => rule_matches query resource r = false) rules) \/
  (exists pre r post, rules = pre ++ r :: post /\
     Forall (fun r => rule_matches query resource r = false) pre /\
     rule_matches query resource r = true /\ first_match query resource rules = apply_rule r).
Proof.
  induction rules as [|r rules IH]; simpl; [by left|].
  destruct (rule_matches query resource r) eqn:Hm.
  - right. by exists [], r, rules.
  - destruct IH as [[-> Hf]|(pre & r' & post & -> & Hf & Hr & ->)].
    + left. split; [done|]. by apply Forall_cons.
    + right. exists (r :: pre), r', post. split_and!; try done. by apply Forall_cons.
Qed.

Lemma first_match_prefix query resource pre post :
  (exists r, r ∈ pre /\ rule_matches query resource r = true) ->
  exists r, r ∈ pre /\ first_match query resource (pre ++ post) = apply_rule r.
Proof.
  induction pre as [|r pre IH]; simpl; intros (r' & Hin & Hm); [by apply elem_of_nil in Hin|].
  destruct (rule_matches query resource r) eqn:Hr; [exists r; split; [left|done]|].
  apply elem_of_cons in Hin as [->|Hin]; [congruence|].
  destruct IH as (r2 & ? & ?); [by exists r'|]. exists r2. split; [by right|done].
Qed.

(** ** Loading keeps the precedence order *)

Definition rank (s : RuleSource) : nat :=
  match s with S_policy => 0 | S_flag => 1 | S_local => 2 | S_project => 3 | S_user => 4 end.

Definition outranks (r r' : SourcedRule) : Prop := rank (sr_source r) <= rank (sr_source r').

Lemma load_sources_sorted validate order sources : forall merged res,
  StronglySorted (fun s s' => rank s <= rank s') order ->
  StronglySorted outranks merged ->
  (forall r s, r ∈ merged -> s ∈ order -> rank (sr_source r) <= rank s) ->
  load_sources validate order sources merged = Ok res -> StronglySorted outranks res.
Proof.
  induction order as [|s order IH]; intros merged res Ho Hm Hb; simpl; [by intros [= <-]|].
  apply StronglySorted_inv in Ho as [Ho Hs]. rewrite Forall_forall in Hs.
  destruct (sources s) as [[|r0 rules]|]; [apply IH; try done; intros; apply Hb; [done|by right]| |
    apply IH; try done; intros; apply Hb; [done|by right]].
  destruct (validate s (r0 :: rules)) as [valid|]; [|done].
  assert (Hsrc : forall r, r ∈ normalize_pattern s <$> valid -> sr_source r = s).
  { intros r. rewrite list_elem_of_fmap. by intros (x & -> & _). }
  apply IH; [done| |].
  - assert (Hnew : StronglySorted outranks (normalize_pattern s <$> valid)).
    { clear -Hsrc. induction valid as [|v valid IHv]; [constructor|]. simpl. constructor.
      - apply IHv. intros r Hr. apply Hsrc. by right.
      - apply Forall_forall. intros r Hr. unfold outranks. simpl.
        rewrite (Hsrc r) by (by right). lia. }
    revert Hm Hb. clear -Hnew Hsrc. induction merged as [|m merged IHm]; intros Hm Hb; [done|].
    apply StronglySorted_inv in Hm as [Hm Hmm]. simpl. constructor.
    + apply IHm; [done|]. intros r s' Hr Hs'. apply Hb; [by right|done].
    + apply Forall_app. split; [done|]. apply Forall_forall. intros r Hr. unfold outranks.
      rewrite (Hsrc r Hr). apply Hb; left.
  - intros r s' [Hr|Hr]%elem_of_app Hs'; [apply Hb; [done|by right]|].
    rewrite (Hsrc r Hr). by apply Hs.
Qed.

Lemma loadRules_sorted validate sources merged :
  loadRules validate sources = Ok merged -> StronglySorted outranks merged.
Proof.
  apply load_sources_sorted; [|constructor|by intros r s ?%elem_of_nil].
  unfold SOURCE_PRECEDENCE. repeat constructor; simpl; lia.
Qed.

Lemma sorted_split_ranks (pre post : list SourcedRule) r r' :
  StronglySorted outranks (pre ++ r :: post) -> r' ∈ pre ++ r :: post ->
  rank (sr_source r') < rank (sr_source r) -> r' ∈ pre.
Proof.
  induction pre as [|x pre IH]; simpl; intros Hs Hin Hlt; apply StronglySorted_inv in Hs as [Hs Hx].
  - exfalso. rewrite Forall_forall in Hx. apply elem_of_cons in Hin as [->|Hin]; [lia|].
    specialize (Hx _ Hin). unfold outranks in Hx. lia.
  - apply elem_of_cons in Hin as [->|Hin]; [by left|right; by apply IH].
Qed.

(** ** Protected paths *)

Definition credential_dirs : list string := [".ssh"; ".docker"; ".aws"; ".gnupg"; ".azure"; ".kube"].
Definition credential_files : list string := [".npmrc"; ".pypirc"; ".netrc"; ".vault-token"; ".env"].

(** A path that leads into a credential directory, or to a credential file. *)
Definition protected (segs : list text) : Prop :=
  (exists d, d ∈ credential_dirs /\ str d ∈ segs) \/
  (exists a b, segs = a ++ str ".config" :: str "gcloud" :: b) \/
  (exists f, f ∈ credential_files /\ last segs = Some (str f)) \/
  (exists suffix, "/"%char ∉ suffix /\ last segs = Some (str ".env." ++ suffix)).

Definition name_glob (s : string) : gseg := G_name (A_lit <$> str s).

Definition credential_globs : list (list gseg) :=
  [ [G_any_depth; name_glob ".ssh"; G_any_depth]; [G_any_depth; name_glob ".docker"; G_any_depth];
    [G_any_depth; name_glob ".aws"; G_any_depth]; [G_any_depth; name_glob ".gnupg"; G_any_depth];
    [G_any_depth; name_glob ".config"; name_glob "gcloud"; G_any_depth];
    [G_any_depth; name_glob ".azure"; G_any_depth]; [G_any_depth; name_glob ".kube"; G_any_depth];
    [G_any_depth; name_glob ".npmrc"]; [G_any_depth; name_glob ".pypirc"];
    [G_any_depth; name_glob ".netrc"]; [G_any_depth; name_glob ".vault-token"];
    [G_any_depth; name_glob ".env"]; [G_any_depth; G_name ((A_lit <$> str ".env.") ++ [A_star])] ].

Lemma credential_globs_render : render <$> credential_globs = pr_pattern <$> CREDENTIAL_DENY_RULES.
Proof. reflexivity. Qed.

Lemma credential_globs_ok g : g ∈ credential_globs -> glob_ok g = true /\ g ≠ [].
Proof.
  intros Hg. assert (Forall (fun g => glob_ok g = true /\ g ≠ []) credential_globs) as Hf.
  { unfold credential_globs. repeat (apply Forall_cons; split; [done|]). apply Forall_nil_2. }
  rewrite Forall_forall in Hf. by apply Hf.
Qed.

Lemma skip_intro k a b : k b = true -> skip_segments k (a ++ b) = true.
Proof.
  intros Hk. induction a as [|x a IH]; simpl.
  - destruct b; simpl; by rewrite Hk.
  - by rewrite IH, orb_true_r.
Qed.

Lemma name_match_lit s seg : name_match (A_lit <$> s) seg = bool_decide (seg = s).
Proof.
  revert seg. induction s as [|c s IH]; intros [|x seg]; simpl; try done.
  - rewrite IH. repeat case_bool_decide; simpl; congruence || done.
Qed.

Lemma name_match_prefix s suffix : "/"%char ∉ suffix ->
  name_match ((A_lit <$> s) ++ [A_star]) (s ++ suffix) = true.
Proof.
  intros Hs. induction s as [|c s IH]; [|simpl; by rewrite bool_decide_true].
  change (eat not_slash nil_b suffix = true). induction suffix as [|x suffix IH]; [done|].
  rewrite not_elem_of_cons in Hs. cbn [eat]. rewrite IH by tauto.
  unfold not_slash. rewrite bool_decide_true by (intros ->; tauto). by rewrite orb_true_r.
Qed.

Lemma last_split (segs : list text) x : last segs = Some x -> exists a, segs = a ++ [x].
Proof. intros Hl. exists (removelast segs). revert Hl. induction segs as [|y [|z l] IH]; simpl; [done|by intros [= ->]|]. intros Hl. f_equal. by apply IH. Qed.

Lemma glob_skip g segs a b : segs = a ++ b -> glob_match g b = true -> glob_match (G_any_depth :: g) segs = true.
Proof. intros -> Hg. cbn [glob_match]. by apply skip_intro. Qed.

Lemma protected_glob segs : protected segs -> exists g, g ∈ credential_globs /\ glob_match g segs = true.
Proof.
  assert (Hdir : forall d, str d ∈ segs -> glob_match [G_any_depth; name_glob d; G_any_depth] segs = true).
  { intros d (a & b & Hs)%list_elem_of_split. eapply glob_skip; [done|]. cbn [glob_match name_glob].
    rewrite name_match_lit, bool_decide_true by done. by rewrite skip_all. }
  assert (Hfile : forall f, last segs = Some (str f) -> glob_match [G_any_depth; name_glob f] segs = true).
  { intros f [a Hs]%last_split. eapply glob_skip; [done|]. cbn [glob_match name_glob].
    by rewrite name_match_lit, bool_decide_true. }
  intros [(d & Hd & Hin)|[(a & b & Hs)|[(f & Hf & Hl)|(suffix & Hsl & Hl)]]].
  - exists [G_any_depth; name_glob d; G_any_depth]. split; [|by apply Hdir].
    unfold credential_dirs in Hd. unfold credential_globs.
    repeat (apply elem_of_cons in Hd as [->|Hd]; [rewrite !elem_of_cons; by auto 20|]). by apply elem_of_nil in Hd.
  - exists [G_any_depth; name_glob ".config"; name_glob "gcloud"; G_any_depth].
    split; [unfold credential_globs; rewrite !elem_of_cons; by auto 20|]. eapply glob_skip; [done|].
    cbn [glob_match name_glob]. rewrite !name_match_lit, !bool_decide_true by done. by rewrite skip_all.
  - exists [G_any_depth; name_glob f]. split; [|by apply Hfile].
    unfold credential_files in Hf. unfold credential_globs.
    repeat (apply elem_of_cons in Hf as [->|Hf]; [rewrite !elem_of_cons; by auto 20|]). by apply elem_of_nil in Hf.
  - eexists. split; [unfold credential_globs; do 12 right; left|].
    apply last_split in Hl as [a Hs]. eapply glob_skip; [done|]. cbn [glob_match].
    by rewrite name_match_prefix.
Qed.

(** Every protected resource is caught by one of the credential rules. *)
Lemma credential_rule_matches source query p :
  Forall (fun c => is_newline c = false) p -> protected (split "/"%char p) ->
  exists r, r ∈ compileRule <$> createCredentialDenyRules source /\ rule_matches query p r = true.
Proof.
  intros Hp Hprot. apply protected_glob in Hprot as (g & Hg & Hm).
  destruct (credential_globs_ok g Hg) as [Hok Hne].
  assert (Hrule : exists rule, rule ∈ CREDENTIAL_DENY_RULES /\ pr_pattern rule = render g).
  { assert (Hin : render g ∈ render <$> credential_globs) by (apply list_elem_of_fmap; by exists g).
    rewrite credential_globs_render in Hin. apply list_elem_of_fmap in Hin as (rule & ? & ?). by exists rule. }
  destruct Hrule as (rule & Hrule & Hpat).
  assert (Hshape : pr_principal rule = None /\ pr_context rule = None /\ pr_action rule = "*").
  { assert (Forall (fun r => pr_principal r = None /\ pr_context r = None /\ pr_action r = "*") CREDENTIAL_DENY_RULES) as Hf.
    { unfold CREDENTIAL_DENY_RULES. repeat (apply Forall_cons; split; [done|]). apply Forall_nil_2. }
    rewrite Forall_forall in Hf. by apply Hf. }
  destruct Hshape as (Hpr & Hctx & Hact).
  exists (compileRule (mkSourced rule source)). split.
  - apply list_elem_of_fmap. exists (mkSourced rule source). split; [done|].
    apply list_elem_of_fmap. by exists rule.
  - unfold rule_matches, compileRule. simpl. rewrite Hpr, Hctx, Hact, Hpat. simpl.
    rewrite matchResource_glob; [done|done|done|]. eapply Forall_impl; [done|].
    intros c Hc. unfold dot. by rewrite Hc.
Qed.

Lemma credential_rules_deny source r :
  r ∈ compileRule <$> createCredentialDenyRules source -> exists reason, apply_rule r = deny reason (Some hard).
Proof.
  intros (sr & -> & (rule & -> & Hin)%list_elem_of_fmap)%list_elem_of_fmap.
  assert (Forall (fun r => pr_effect r = E_deny /\ pr_on_deny r = None) CREDENTIAL_DENY_RULES) as Hf.
  { unfold CREDENTIAL_DENY_RULES. repeat (apply Forall_cons; split; [done|]). apply Forall_nil_2. }
  rewrite Forall_forall in Hf. destruct (Hf rule Hin) as [He Hd].
  unfold apply_rule, resolveDenyDisposition. simpl. rewrite He, Hd. by eexists.
Qed.

(** What [evaluateRules] answers, with the rule that decides. *)
Lemma evaluateRules_cases query rules :
  (exists reason, evaluateRules query rules = deny reason (Some hard) /\
     (normalizeResource (q_resource query) = None \/
      exists p, normalizeResource (q_resource query) = Some p /\ hasNamespaceTraversal p = true)) \/
  (exists p, normalizeResource (q_resource query) = Some p /\ hasNamespaceTraversal p = false /\
     evaluateRules query rules = first_match query p rules).
Proof.
  unfold evaluateRules. destruct (normalizeResource (q_resource query)) as [p|]; [|left; eauto].
  destruct (hasNamespaceTraversal p) eqn:Ht; [left; eauto 10|right; eauto].
Qed.

(** ** The claims *)

(** Precedence: for rules that [loadRules] merged, a decision is a refusal of
    the resource, the default ask when no rule matches, or the answer of a
    matching rule such that no matching rule comes from a source of higher
    precedence (policy, flag, local, project, user in that order) and, within
    the merged list, no earlier rule matches. *)
Lemma precedence_respected validate sources merged (query : PermissionQuery) :
  loadRules validate sources = Ok merged ->
  let decision := evaluateRules query (compileRule <$> merged) in
  (exists reason, decision = deny reason (Some hard) /\
     (normalizeResource (q_resource query) = None \/
      exists p, normalizeResource (q_resource query) = Some p /\ hasNamespaceTraversal p = true)) \/
  exists p, normalizeResource (q_resource query) = Some p /\
    (decision = ask "No matching permission rule" true /\
       Forall (fun r => rule_matches query p (compileRule r) = false) merged \/
     exists pre r post, merged = pre ++ r :: post /\ rule_matches query p (compileRule r) = true /\
       decision = apply_rule (compileRule r) /\
       Forall (fun r' => rule_matches query p (compileRule r') = false) pre /\
       forall r', r' ∈ merged -> rank (sr_source r') < rank (sr_source r) ->
         rule_matches query p (compileRule r') = false).
Proof.
  intros Hl decision. apply loadRules_sorted in Hl.
  destruct (evaluateRules_cases query (compileRule <$> merged)) as [?|(p & Hp & _ & He)]; [by left|right].
  exists p. split; [done|]. unfold decision. rewrite He.
  destruct (first_match_spec query p (compileRule <$> merged)) as [[-> Hf]|(pre & r & post & Heq & Hf & Hm & ->)].
  - left. split; [done|]. by apply Forall_fmap in Hf.
  - right. apply fmap_app_inv in Heq as (pre' & rest & -> & Hrest & ->).
    symmetry in Hrest. apply fmap_cons_inv in Hrest as (r' & post' & -> & -> & ->).
    apply Forall_fmap in Hf. exists pre', r', post'. split_and!; try done.
    intros r2 Hin Hlt. rewrite Forall_forall in Hf. apply (Hf r2). by eapply sorted_split_ranks.
Qed.

(** The set of actions a configuration admits to rule evaluation in plan mode. *)
Definition plan_actions (config : PermissionConfig) : list string :=
  default PLAN_ALLOWED_ACTIONS (pc_planAllowedActions config) ++
  default PLAN_RULE_EVALUATED_ACTIONS (pc_planRuleEvaluatedActions config).

(** The first rule that matches the normalised resource is an explicit allow. *)
Definition allowed_by_rule (config : PermissionConfig) (query : PermissionQuery) : Prop :=
  exists p pre r post, normalizeResource (q_resource query) = Some p /\ hasNamespaceTraversal p = false /\
    compileRule <$> pc_rules config = pre ++ r :: post /\
    Forall (fun r => rule_matches query p r = false) pre /\ rule_matches query p r = true /\
    pr_effect (sr_rule (cr_rule r)) = E_allow.

Lemma apply_rule_allow r : (exists e, apply_rule r = allow e) <-> pr_effect (sr_rule (cr_rule r)) = E_allow.
Proof. unfold apply_rule. destruct (pr_effect _); split; try done; [by eexists|by intros [e He]..]. Qed.

Lemma first_match_app query p pre r post :
  Forall (fun r => rule_matches query p r = false) pre -> rule_matches query p r = true ->
  first_match query p (pre ++ r :: post) = apply_rule r.
Proof. induction 1 as [|x pre Hx _ IH]; simpl; intros Hr; [by rewrite Hr|]. rewrite Hx. by apply IH. Qed.

Lemma evaluateRules_allow config query :
  (exists e, evaluateRules query (compileRule <$> pc_rules config) = allow e) <-> allowed_by_rule config query.
Proof.
  split.
  - intros [e He]. destruct (evaluateRules_cases query (compileRule <$> pc_rules config))
      as [(reason & Hd & _)|(p & Hp & Ht & Hev)]; [congruence|].
    destruct (first_match_spec query p (compileRule <$> pc_rules config))
      as [[Hf _]|(pre & r & post & Heq & Hf & Hm & Hr)]; [congruence|].
    exists p, pre, r, post. split_and!; try done. apply apply_rule_allow. exists e. congruence.
  - intros (p & pre & r & post & Hp & Ht & -> & Hf & Hm & He).
    unfold evaluateRules. rewrite Hp, Ht, first_match_app by done. by apply apply_rule_allow.
Qed.

Lemma validatePlanActions_ok actions :
  validatePlanActions actions = true -> forall a, a ∈ actions -> a ∈ PLAN_SAFE_VOCABULARY.
Proof.
  unfold validatePlanActions. rewrite forallb_forall. intros Hv a Ha%list_elem_of_In.
  specialize (Hv a Ha). by apply bool_decide_eq_true in Hv.
Qed.

Lemma resolve_plan query rules options :
  (exists e, resolveMode M_plan query rules options = allow e) <->
  q_action query ∈ allowedActions options ++ ruleEvaluatedActions options /\
  (exists e, evaluateRules query rules = allow e).
Proof.
  simpl. rewrite elem_of_app.
  destruct (bool_decide (q_action query ∈ allowedActions options)) eqn:H1;
    [apply bool_decide_eq_true in H1|apply bool_decide_eq_false in H1];
    (destruct (bool_decide (q_action query ∈ ruleEvaluatedActions options)) eqn:H2;
      [apply bool_decide_eq_true in H2|apply bool_decide_eq_false in H2]); simpl;
    destruct (evaluateRules query rules); naive_solver.
Qed.

(** C10: Nothing is allowed by default: a constructed backend allows a query
    exactly in bypass mode, or when the resource is admissible and the first rule
    that matches is an explicit allow; in plan mode the action must moreover be
    in one of the two configured sets, which hold actions of the approved
    read-only vocabulary only.  An explicit allow rule is needed in plan mode for
    the actions of [planAllowedActions] too: contrary to the comments of
    [rule-types.ts], they are not allowed automatically. *)
Theorem no_implicit_allow (config : PermissionConfig) check (query : PermissionQuery) :
  createPermissionBackend config = Some check ->
  ((exists exact, check query = allow exact) <->
   pc_mode config = M_bypass \/
   (allowed_by_rule config query /\ (pc_mode config = M_plan -> q_action query ∈ plan_actions config))) /\
  (forall action, action ∈ plan_actions config -> action ∈ PLAN_SAFE_VOCABULARY).
Proof.
  intros Hc. unfold createPermissionBackend in Hc.
  pose proof (evaluateRules_allow config query) as Hev.
  destruct (pc_mode config) eqn:Hmode; [| | | |done];
    (destruct (validatePlanActions _ && validatePlanActions _) eqn:Hv; [|done]); injection Hc as <-;
    apply andb_true_iff in Hv as [Hv1 Hv2];
    (split; [|intros action [Ha|Ha]%elem_of_app; eauto using validatePlanActions_ok]).
  - naive_solver.
  - split; [by left|by eexists].
  - destruct (resolve_plan query (compileRule <$> pc_rules config)
      (mkPlanOptions (default PLAN_ALLOWED_ACTIONS (pc_planAllowedActions config))
         (default PLAN_RULE_EVALUATED_ACTIONS (pc_planRuleEvaluatedActions config)))) as [H1 H2].
    cbn [allowedActions ruleEvaluatedActions] in H1, H2. fold (plan_actions config) in H1, H2.
    split; [intros [Hin He]%H1; right; tauto|]. intros [Hb|[Hr Hin]]; [done|]. apply H2. tauto.
  - naive_solver.
Qed.

(** The actions a plan-mode backend is documented to allow automatically are
    treated like those that need a rule: both are evaluated against the rules
    alone, and with no rule a read is asked for like a discovery. *)
Lemma plan_reads_need_rules query rules options :
  q_action query ∈ allowedActions options ++ ruleEvaluatedActions options ->
  resolveMode M_plan query rules options =
    match evaluateRules query rules with allow _ => allow false | decision => decision end.
Proof.
  intros Hin%elem_of_app. simpl.
  replace (_ && _) with false; [by destruct (evaluateRules query rules)|].
  symmetry. apply andb_false_iff. destruct Hin; [left|right]; apply negb_false_iff; by apply bool_decide_eq_true_2.
Qed.

Lemma plan_read_is_asked :
  exists check, createPermissionBackend (mkConfig M_plan [] None None) = Some check /\
    "read" ∈ PLAN_ALLOWED_ACTIONS /\
    check (mkQuery (str "agent") "read" (str "/srv/app.ts") None) = ask "No matching permission rule" true.
Proof. eexists. split; [reflexivity|]. split; [left|by vm_compute]. Qed.

(** The default credential rules cannot be overridden: put in front of any
    other rules, they make every non-bypass backend deny each query whose
    normalised resource (free of line terminators) leads into a credential
    directory or to a credential file, whoever asks for whatever action. *)
Lemma credentials_denied (mode : PermissionMode) (rest : list SourcedRule) pa pr check
    (query : PermissionQuery) (p : text) :
  mode ≠ M_bypass ->
  createPermissionBackend (mkConfig mode (createCredentialDenyRules S_policy ++ rest) pa pr) = Some check ->
  normalizeResource (q_resource query) = Some p ->
  Forall (fun c => is_newline c = false) p -> protected (split "/"%char p) ->
  exists reason d, check query = deny reason d.
Proof.
  intros Hmode Hc Hn Hnl Hprot. unfold createPermissionBackend in Hc.
  cbn [pc_mode pc_rules pc_planAllowedActions pc_planRuleEvaluatedActions] in Hc.
  set (rules := compileRule <$> (createCredentialDenyRules S_policy ++ rest)) in Hc.
  assert (Heval : exists reason, evaluateRules query rules = deny reason (Some hard)).
  { destruct (evaluateRules_cases query rules) as [(reason & He & _)|(p' & Hn' & _ & ->)]; [by exists reason|].
    rewrite Hn in Hn'. injection Hn' as <-. subst rules. rewrite fmap_app.
    destruct (first_match_prefix query p (compileRule <$> createCredentialDenyRules S_policy)
      (compileRule <$> rest)) as (r & Hr & ->); [by apply credential_rule_matches|].
    by eapply credential_rules_deny. }
  destruct Heval as [reason Heval].
  destruct mode; [|done| | |done];
    (destruct (validatePlanActions _ && validatePlanActions _); [|done]); injection Hc as <-;
    cbn [resolveMode]; rewrite ?Heval; eauto.
  destruct (negb _ && negb _); eauto.
Qed.

(** The guard has a hole: any resource that contains [://] is taken for a
    URL and not normalised, and the namespace guard only looks behind the first
    colon.  The path [/allowed/../etc/x://y], which a file system resolves
    outside [/allowed], is let through unchanged and allowed by a rule for
    [/allowed/**]. *)
Lemma url_lookalike_traversal :
  let resource := str "/allowed/../etc/x://y" in
  let rule := mkSourced (mkRule (str "/allowed/**") "*" E_allow None None None None) S_project in
  normalizeResource resource = Some resource /\ hasNamespaceTraversal resource = false /\
  str ".." ∈ split "/"%char resource /\
  evaluateRules (mkQuery (str "agent") "read" resource None) [compileRule rule] = allow false.
Proof.
  split_and!; [by vm_compute|by vm_compute| |by vm_compute].
  change (split _ _) with [str ""; str "allowed"; str ".."; str "etc"; str "x:"; str ""; str "y"].
  right. right. left.
Qed.

(** A line terminator in a file name escapes the credential rules: a file
    below [.ssh] whose name contains a newline is not denied but falls through
    to the default ask. *)
Lemma newline_escapes_credentials :
  let resource := str ".ssh/id" ++ [ascii_of_nat 10; "x"%char] in
  protected (split "/"%char resource) /\
  evaluateRules (mkQuery (str "agent") "read" resource None)
    (compileRule <$> createCredentialDenyRules S_policy) = ask "No matching permission rule" true.
Proof.
  split; [|by vm_compute]. left. exists ".ssh". split; [by left|].
  change (split _ _) with [str ".ssh"; str "id" ++ [ascii_of_nat 10; "x"%char]]. left.
Qed.

Definition sample_rule (pattern : string) (effect : RuleEffect) : PermissionRule :=
  mkRule (str pattern) "*" effect None None None None.

Definition sample_sources (s : RuleSource) : option (list PermissionRule) :=
  match s with
  | S_policy => Some [sample_rule "/srv/private/**" E_deny]
  | S_user => Some [sample_rule "/srv/**" E_allow]
  | _ => None
  end.

Definition sample_query : PermissionQuery := mkQuery (str "agent:a") "read" (str "/srv/x/../app.ts") None.

Lemma precedence_respected_witness :
  exists p, normalizeResource (q_resource sample_query) = Some p /\
    evaluateRules sample_query (compileRule <$>
      [mkSourced (sample_rule "/srv/private/**" E_deny) S_policy; mkSourced (sample_rule "/srv/**" E_allow) S_user])
    = allow false.
Proof.
  destruct (precedence_respected (fun _ rules => Ok rules) sample_sources _ sample_query eq_refl)
    as [(reason & He & _)|(p & Hp & _)].
  - vm_compute in He. discriminate.
  - exists p. split; [exact Hp|]. vm_compute. reflexivity.
Defined.

Lemma no_implicit_allow_witness :
  let config := mkConfig M_plan [mkSourced (sample_rule "/srv/**" E_allow) S_user] None None in
  exists check, createPermissionBackend config = Some check /\ check sample_query = allow false /\
    allowed_by_rule config sample_query /\ q_action sample_query ∈ plan_actions config.
Proof.
  eexists. split; [reflexivity|]. split; [vm_compute; reflexivity|].
  destruct (no_implicit_allow (mkConfig M_plan [mkSourced (sample_rule "/srv/**" E_allow) S_user] None None)
    _ sample_query eq_refl) as [[Hif _] _].
  destruct Hif as [Hb|[Hr Hp]]; [exists false; vm_compute; reflexivity|discriminate|].
  split; [exact Hr|exact (Hp eq_refl)].
Defined.

Lemma credentials_denied_witness :
  exists check, createPermissionBackend (mkConfig M_default
      (createCredentialDenyRules S_policy ++ [mkSourced (sample_rule "**" E_allow) S_user]) None None) = Some check /\
    exists reason d, check (mkQuery (str "agent") "read" (str "/home/u/.ssh/id_rsa") None) = deny reason d.
Proof.
  eexists. split; [reflexivity|].
  refine (credentials_denied M_default [mkSourced (sample_rule "**" E_allow) S_user] None None _
    (mkQuery (str "agent") "read" (str "/home/u/.ssh/id_rsa") None) (str "/home/u/.ssh/id_rsa") _ eq_refl _ _ _).
  - discriminate.
  - vm_compute. reflexivity.
  - apply Forall_forall. intros c Hc. vm_compute in Hc.
    repeat (apply elem_of_cons in Hc as [->|Hc]; [reflexivity|]). by apply elem_of_nil in Hc.
  - left. exists ".ssh". split; [by left|]. vm_compute. do 3 right. left.
Defined.
