(* ===== verification/SessionRepair.v ===== *)
(** * Session repair

    [mm/session-repair/src]: repairing a message history before it is sent to a
    provider.  [repairSession] runs four passes (orphan repair, duplicate
    removal, merging, separators between user turns); [needsRepair] is the
    check that decides whether to run them.  The content hash of [@koi/hash]
    (a SHA-256 digest) is a parameter: only its equality is used. *)

From S2P Require Import Prelude JsMap.

Local Open Scope string_scope.
Local Open Scope list_scope.

(** ** Messages *)

Inductive ContentBlock : Type :=
  | B_text (text : string)
  | B_file (url mimeType : string) (name : option string)
  | B_image (url : string) (alt : option string)
  | B_button (label action : string) (payload : jsval)
  | B_custom (type : string) (data : jsval).

Record InboundMessage : Type := mkMessage {
  im_content : list ContentBlock;
  im_senderId : string;
  im_threadId : option string;
  im_timestamp : Z;
  im_metadata : option (list (string * jsval));
  im_pinned : option bool
}.

Inductive phase : Type := ph_orphan_tool | ph_dedup | ph_merge | ph_interrupt.
Inductive action : Type := ac_removed | ac_merged | ac_inserted | ac_kept.

Record RepairIssue : Type := mkIssue {
  ri_phase : phase;
  ri_description : string;
  ri_index : nat;
  ri_action : action
}.

Record RepairResult : Type := mkResult {
  rr_messages : list InboundMessage;
  rr_issues : list RepairIssue
}.

Record CallIdPairMap : Type := mkPairs {
  assistantByCallId : list (string * nat);
  orphanToolIndices : list nat;
  danglingToolUseIndices : list nat
}.

(** ** Helpers of internal.ts *)

Definition meta_get (metadata : option (list (string * jsval))) (key : string) : option jsval :=
  match metadata with Some m => m_get key m | None => None end.

Definition readStringMeta (metadata : option (list (string * jsval))) (key : string) : option string :=
  match meta_get metadata key with Some (JStr s) => Some s | _ => None end.

Definition meta_true (metadata : option (list (string * jsval))) (key : string) : bool :=
  match meta_get metadata key with Some (JBool true) => true | _ => false end.

Definition is_some_b {A : Type} (o : option A) : bool := match o with Some _ => true | None => false end.

Definition has_toolCalls (msg : InboundMessage) : bool :=
  match meta_get (im_metadata msg) "toolCalls" with Some (JArr _) => true | _ => false end.

Definition is_pinned (msg : InboundMessage) : bool :=
  match im_pinned msg with Some true => true | _ => false end.

Definition isMergeable (msg : InboundMessage) : bool :=
  negb (is_some_b (readStringMeta (im_metadata msg) "callId")) &&
  negb (has_toolCalls msg) &&
  negb (bool_decide (im_senderId msg = "tool")) &&
  negb (bool_decide (im_senderId msg = "user")) &&
  negb (is_pinned msg) &&
  negb (meta_true (im_metadata msg) "synthetic").

(** ** Call-id pairs *)

(** The call ids an assistant message announces, in the order they are read:
    [metadata.callId], then the [id]s of [metadata.toolCalls]. *)
Definition toolCall_id (tc : jsval) : option string :=
  match tc with JObj fields => readStringMeta (Some fields) "id" | _ => None end.

Definition call_ids (msg : InboundMessage) : list string :=
  match readStringMeta (im_metadata msg) "callId" with Some c => [c] | None => [] end ++
  match meta_get (im_metadata msg) "toolCalls" with
  | Some (JArr toolCalls) => omap toolCall_id toolCalls
  | _ => []
  end.

Fixpoint collect_assistants (i : nat) (messages : list InboundMessage) (acc : list (string * nat))
    : list (string * nat) :=
  match messages with
  | [] => acc
  | msg :: messages =>
      collect_assistants (S i) messages
        (if decide (im_senderId msg = "assistant")
         then foldl (fun acc c => m_set c i acc) acc (call_ids msg) else acc)
  end.

Fixpoint scan_tools (assistants : list (string * nat)) (i : nat) (messages : list InboundMessage)
    (orphans : list nat) (matched : list string) : list nat * list string :=
  match messages with
  | [] => (orphans, matched)
  | msg :: messages =>
      if decide (im_senderId msg = "tool") then
        match readStringMeta (im_metadata msg) "callId" with
        | None => scan_tools assistants (S i) messages orphans matched
        | Some callId =>
            if m_has callId assistants then scan_tools assistants (S i) messages orphans (s_add callId matched)
            else scan_tools assistants (S i) messages (orphans ++ [i]) matched
        end
      else scan_tools assistants (S i) messages orphans matched
  end.

Definition mapCallIdPairs (messages : list InboundMessage) : CallIdPairMap :=
  let assistants := collect_assistants 0 messages [] in
  let '(orphans, matched) := scan_tools assistants 0 messages [] [] in
  let dangling := (filter (fun p => p.1 ∉ matched) assistants).*2 in
  mkPairs assistants orphans (merge_sort le dangling).

(** ** Phase 1: orphan tools and dangling calls *)

Definition synthetic (sender text : string) (callId : option string) (repairPhase : string)
    (msg : InboundMessage) : InboundMessage :=
  mkMessage [B_text text] sender (im_threadId msg) (im_timestamp msg)
    (Some (match callId with Some c => [("callId", JStr c)] | None => [] end ++
           [("synthetic", JBool true); ("repairPhase", JStr repairPhase)])) None.

Definition msg_callId (msg : InboundMessage) : string :=
  default "unknown" (readStringMeta (im_metadata msg) "callId").

Fixpoint repair_orphans_loop (orphanSet danglingSet : list nat) (i : nat) (messages : list InboundMessage)
    : list InboundMessage * list RepairIssue :=
  match messages with
  | [] => ([], [])
  | msg :: messages =>
      let callId := msg_callId msg in
      let '(before, issues1) :=
        if decide (i ∈ orphanSet) then
          ([synthetic "assistant" "[Tool call reconstructed during session repair]" (Some callId) "orphan-tool" msg],
           [mkIssue ph_orphan_tool
              ("Inserted synthetic assistant for orphan tool at index " +:+ pretty i +:+ " (callId: " +:+ callId +:+ ")")
              i ac_inserted])
        else ([], []) in
      let '(after, issues2) :=
        if decide (i ∈ danglingSet) then
          ([synthetic "tool" "[Tool result lost during session repair]" (Some callId) "orphan-tool" msg],
           [mkIssue ph_orphan_tool
              ("Inserted synthetic tool result for dangling assistant at index " +:+ pretty i +:+ " (callId: " +:+ callId +:+ ")")
              i ac_inserted])
        else ([], []) in
      let '(result, issues) := repair_orphans_loop orphanSet danglingSet (S i) messages in
      (before ++ [msg] ++ after ++ result, issues1 ++ issues2 ++ issues)
  end.

Definition repairOrphans (messages : list InboundMessage) : list InboundMessage * list RepairIssue :=
  let pairs := mapCallIdPairs messages in
  match orphanToolIndices pairs, danglingToolUseIndices pairs with
  | [], [] => (messages, [])
  | orphans, dangling => repair_orphans_loop orphans dangling 0 messages
  end.

(** ** Phase 4: separators between user turns *)

Definition user_pair (prev curr : InboundMessage) : bool :=
  bool_decide (im_senderId prev = "user") && bool_decide (im_senderId curr = "user") &&
  negb (is_pinned prev) && negb (is_pinned curr).

Definition restored (msg : InboundMessage) : bool :=
  meta_true (im_metadata msg) "synthetic" || meta_true (im_metadata msg) "resumedSystemRole".

Definition interrupt_text : string :=
  "[Previous turn was interrupted before any reply. Respond to the next user message as a fresh request — do not search for hidden context. If the new message is a follow-up referring back to the interrupted turn, you may acknowledge and resume; otherwise just answer it directly.]".

Fixpoint repair_interrupts_loop (i : nat) (prev : option InboundMessage) (messages : list InboundMessage)
    : list InboundMessage * list RepairIssue :=
  match messages with
  | [] => ([], [])
  | curr :: messages =>
      let '(before, issues1) :=
        match prev with
        | Some p =>
            if user_pair p curr then
              let restoredContext := restored p || restored curr in
              ([synthetic "assistant" (if restoredContext then "[Continuing.]" else interrupt_text) None
                  "interrupt" curr],
               [mkIssue ph_interrupt
                  (if restoredContext
                   then "Inserted neutral separator between restored-context and user message at index " +:+ pretty i +:+ " (role alternation)"
                   else "Inserted synthetic assistant between consecutive user messages at index " +:+ pretty i +:+ " (likely interrupted turn)")
                  i ac_inserted])
            else ([], [])
        | None => ([], [])
        end in
      let '(result, issues) := repair_interrupts_loop (S i) (Some curr) messages in
      (before ++ curr :: result, issues1 ++ issues)
  end.

Definition repairInterrupts (messages : list InboundMessage) : list InboundMessage * list RepairIssue :=
  match messages with
  | [] | [_] => (messages, [])
  | _ =>
      let '(result, issues) := repair_interrupts_loop 0 None messages in
      (if bool_decide (length issues = 0) then messages else result, issues)
  end.

Section Hash.
Variable computeContentHash : list ContentBlock -> string.

(** ** Phase 2: duplicates *)

(** [prev] is the last message kept, [lastHash] the cached hash of its content. *)
Fixpoint dedup_loop (i : nat) (prev : InboundMessage) (lastHash : option string)
    (messages : list InboundMessage) : list InboundMessage * list RepairIssue :=
  match messages with
  | [] => ([], [])
  | curr :: messages =>
      if bool_decide (im_senderId prev = im_senderId curr) && negb (bool_decide (im_senderId curr = "user")) then
        let last := default (computeContentHash (im_content prev)) lastHash in
        let currHash := computeContentHash (im_content curr) in
        if decide (last = currHash) then
          let '(result, issues) := dedup_loop (S i) prev (Some last) messages in
          (result,
           mkIssue ph_dedup
             ("Removed duplicate message at index " +:+ pretty i +:+ " (senderId: " +:+ im_senderId curr +:+ ")")
             i ac_removed :: issues)
        else
          let '(result, issues) := dedup_loop (S i) curr (Some currHash) messages in
          (curr :: result, issues)
      else
        let '(result, issues) := dedup_loop (S i) curr None messages in
        (curr :: result, issues)
  end.

Definition dedup (messages : list InboundMessage) : list InboundMessage * list RepairIssue :=
  match messages with
  | first :: (_ :: _) as rest =>
      let '(result, issues) := dedup_loop 1 first None rest in (first :: result, issues)
  | _ => (messages, [])
  end.

(** ** Phase 3: merging *)

Definition merge_pair (prev curr : InboundMessage) : bool :=
  bool_decide (im_senderId prev = im_senderId curr) && isMergeable prev && isMergeable curr.

Fixpoint merge_loop (i : nat) (prev : InboundMessage) (messages : list InboundMessage)
    : list InboundMessage * list RepairIssue :=
  match messages with
  | [] => ([prev], [])
  | curr :: messages =>
      if merge_pair prev curr then
        let merged :=
          mkMessage (im_content prev ++ im_content curr) (im_senderId prev) (im_threadId prev)
            (im_timestamp prev) (im_metadata prev) (im_pinned prev) in
        let '(result, issues) := merge_loop (S i) merged messages in
        (result,
         mkIssue ph_merge ("Merged consecutive " +:+ im_senderId curr +:+ " message at index " +:+ pretty i)
           i ac_merged :: issues)
      else
        let '(result, issues) := merge_loop (S i) curr messages in
        (prev :: result, issues)
  end.

Definition merge (messages : list InboundMessage) : list InboundMessage * list RepairIssue :=
  match messages with
  | first :: (_ :: _) as rest => merge_loop 1 first rest
  | _ => (messages, [])
  end.

(** ** The pipeline and its fast path *)

Definition repairSession (messages : list InboundMessage) : RepairResult :=
  match messages with
  | [] => mkResult messages []
  | _ =>
      let '(afterOrphan, i1) := repairOrphans messages in
      let '(afterDedup, i2) := dedup afterOrphan in
      let '(afterMerge, i3) := merge afterDedup in
      let '(afterInterrupt, i4) := repairInterrupts afterMerge in
      let issues := i1 ++ i2 ++ i3 ++ i4 in
      if bool_decide (length issues = 0) then mkResult messages [] else mkResult afterInterrupt issues
  end.

Definition dup_pair (prev curr : InboundMessage) : bool :=
  bool_decide (im_senderId prev = im_senderId curr) && negb (bool_decide (im_senderId curr = "user")) &&
  bool_decide (computeContentHash (im_content prev) = computeContentHash (im_content curr)).

(** The loop of [needsRepair] over adjacent messages. *)
Fixpoint some_adjacent (bad : InboundMessage -> InboundMessage -> bool) (prev : InboundMessage)
    (messages : list InboundMessage) : bool :=
  match messages with
  | [] => false
  | curr :: messages => bad prev curr || some_adjacent bad curr messages
  end.

Definition needs_pair (prev curr : InboundMessage) : bool :=
  merge_pair prev curr || dup_pair prev curr || user_pair prev curr.

Definition needsRepair (messages : list InboundMessage) : bool :=
  match messages with
  | [] => false
  | first :: rest =>
      let pairs := mapCallIdPairs messages in
      if bool_decide (0 < length (orphanToolIndices pairs)) || bool_decide (0 < length (danglingToolUseIndices pairs))
      then true
      else some_adjacent needs_pair first rest
  end.
End Hash.

(** ** Each pass leaves the history alone exactly when its check finds nothing *)

Lemma some_adjacent_orb (f g : InboundMessage -> InboundMessage -> bool) prev ms :
  some_adjacent (fun p c => f p c || g p c) prev ms = some_adjacent f prev ms || some_adjacent g prev ms.
Proof.
  revert prev. induction ms as [|c ms IH]; intros prev; [done|]. simpl. rewrite IH.
  by destruct (f prev c), (g prev c), (some_adjacent f c ms), (some_adjacent g c ms).
Qed.

(** The cached hash, when there is one, is that of the last message kept. *)
Definition cache_ok (h : list ContentBlock -> string) (prev : InboundMessage) (lastHash : option string) : Prop :=
  default (h (im_content prev)) lastHash = h (im_content prev).

Lemma dedup_loop_clean h i prev lh ms :
  cache_ok h prev lh -> some_adjacent (dup_pair h) prev ms = false -> dedup_loop h i prev lh ms = (ms, []).
Proof.
  revert i prev lh. induction ms as [|c ms IH]; intros i prev lh Hc H; [done|]. simpl in *.
  apply orb_false_iff in H as [H1 H2]. unfold dup_pair in H1. rewrite Hc.
  destruct (bool_decide (im_senderId prev = im_senderId c) && negb _) eqn:E1; simpl in H1; [|by rewrite (IH (S i) c None eq_refl H2)].
  apply bool_decide_eq_false in H1. rewrite decide_False by done.
  by rewrite (IH (S i) c (Some _) eq_refl H2).
Qed.

Lemma dedup_loop_dirty h i prev lh ms :
  cache_ok h prev lh -> some_adjacent (dup_pair h) prev ms = true -> (dedup_loop h i prev lh ms).2 ≠ [].
Proof.
  revert i prev lh. induction ms as [|c ms IH]; intros i prev lh Hc H; [done|]. simpl in *.
  unfold dup_pair in H at 1. rewrite Hc.
  destruct (bool_decide (im_senderId prev = im_senderId c) && negb _) eqn:E1; simpl in H.
  - case_decide as Hd.
    + by destruct (dedup_loop _ _ _ _ _).
    + rewrite bool_decide_false in H by done. simpl in H.
      specialize (IH (S i) c (Some (h (im_content c))) eq_refl H). by destruct (dedup_loop _ _ _ _ _).
  - specialize (IH (S i) c None eq_refl H). by destruct (dedup_loop _ _ _ _ _).
Qed.

Lemma merge_loop_clean i prev ms :
  some_adjacent merge_pair prev ms = false -> merge_loop i prev ms = (prev :: ms, []).
Proof.
  revert i prev. induction ms as [|c ms IH]; intros i prev H; [done|]. simpl in *.
  apply orb_false_iff in H as [-> H]. by rewrite IH.
Qed.

Lemma merge_loop_dirty i prev ms :
  some_adjacent merge_pair prev ms = true -> (merge_loop i prev ms).2 ≠ [].
Proof.
  revert i prev. induction ms as [|c ms IH]; intros i prev H; [done|]. simpl in *.
  destruct (merge_pair prev c) eqn:E.
  - by destruct (merge_loop _ _ _).
  - specialize (IH (S i) c H). by destruct (merge_loop _ _ _).
Qed.

Lemma interrupts_loop_clean i prev ms :
  some_adjacent user_pair prev ms = false -> repair_interrupts_loop i (Some prev) ms = (ms, []).
Proof.
  revert i prev. induction ms as [|c ms IH]; intros i prev H; [done|]. simpl in *.
  apply orb_false_iff in H as [-> H]. by rewrite IH.
Qed.

Lemma interrupts_loop_dirty i prev ms :
  some_adjacent user_pair prev ms = true -> (repair_interrupts_loop i (Some prev) ms).2 ≠ [].
Proof.
  revert i prev. induction ms as [|c ms IH]; intros i prev H; [done|]. simpl in *.
  destruct (user_pair prev c) eqn:E.
  - by destruct (repair_interrupts_loop _ _ _).
  - specialize (IH (S i) c H). by destruct (repair_interrupts_loop _ _ _).
Qed.

(** The passes on a non-empty history, without the special case of one message. *)
Lemma dedup_cons h first rest :
  dedup h (first :: rest) =
    (first :: (dedup_loop h 1 first None rest).1, (dedup_loop h 1 first None rest).2).
Proof. destruct rest as [|c rest]; [done|]. unfold dedup. by destruct (dedup_loop _ _ _ _ _). Qed.

Lemma merge_cons first rest : merge (first :: rest) = merge_loop 1 first rest.
Proof. by destruct rest. Qed.

Lemma interrupts_cons first rest :
  repairInterrupts (first :: rest) =
    (first :: (repair_interrupts_loop 1 (Some first) rest).1, (repair_interrupts_loop 1 (Some first) rest).2).
Proof.
  destruct rest as [|c rest]; [done|]. unfold repairInterrupts.
  change (repair_interrupts_loop 0 None (first :: c :: rest)) with
    (let '(result, issues) := repair_interrupts_loop 1 (Some first) (c :: rest) in ([] ++ first :: result, [] ++ issues)).
  destruct (some_adjacent user_pair first (c :: rest)) eqn:E.
  - apply (interrupts_loop_dirty 1) in E. destruct (repair_interrupts_loop 1 (Some first) (c :: rest)) as [r iss].
    cbn [fst snd app] in *. by destruct iss.
  - by rewrite (interrupts_loop_clean 1 _ _ E).
Qed.

(** ** The positions reported by [mapCallIdPairs] *)

Lemma scan_tools_orphans assistants i ms orphans matched k :
  k ∈ (scan_tools assistants i ms orphans matched).1 <->
    k ∈ orphans \/ exists j msg c, ms !! j = Some msg /\ k = i + j /\ im_senderId msg = "tool" /\
      readStringMeta (im_metadata msg) "callId" = Some c /\ m_has c assistants = false.
Proof.
  revert i orphans matched. induction ms as [|msg ms IH]; intros i orphans matched; simpl.
  { split; [by left|]. intros [?|(j & ? & ? & H & _)]; [done|by rewrite lookup_nil in H]. }
  assert (Hshift : forall P : InboundMessage -> string -> Prop,
    (exists j msg' c, (msg :: ms) !! j = Some msg' /\ k = i + j /\ P msg' c) <->
    (k = i /\ exists c, P msg c) \/ (exists j msg' c, ms !! j = Some msg' /\ k = S i + j /\ P msg' c)).
  { intros P. split.
    - intros ([|j] & m' & c & Hl & -> & HP); simplify_eq/=; [left|right]; eauto with lia.
      exists j, m', c. eauto with lia.
    - intros [[-> [c HP]]|(j & m' & c & Hl & -> & HP)]; [exists 0, msg, c|exists (S j), m', c]; eauto with lia. }
  rewrite (Hshift (fun m' c => im_senderId m' = "tool" /\ readStringMeta (im_metadata m') "callId" = Some c
    /\ m_has c assistants = false)). clear Hshift.
  case_decide as Hs; [destruct (readStringMeta (im_metadata msg) "callId") as [c|] eqn:Ec;
    [destruct (m_has c assistants) eqn:Eh|]|]; rewrite IH, ?elem_of_app, ?list_elem_of_singleton.
  1,3,4: split; [intros [?|?]; auto|intros [?|[(_ & c' & ? & ? & ?)|?]]; [auto|congruence|auto]].
  split.
  - intros [[?| ->]|?]; [by left| |by right; right]. right; left. split; [done|]. by exists c.
  - intros [?|[(-> & _)|?]]; auto.
Qed.

(** The call ids a message announces, and the one it answers. *)
Definition announces (msg : InboundMessage) : list string :=
  if decide (im_senderId msg = "assistant") then call_ids msg else [].

Definition answers (msg : InboundMessage) : option string :=
  if decide (im_senderId msg = "tool") then readStringMeta (im_metadata msg) "callId" else None.

Definition announced (ms : list InboundMessage) : list string := ms ≫= announces.
Definition answered (ms : list InboundMessage) : list string := omap answers ms.

Lemma announced_cons msg ms : announced (msg :: ms) = announces msg ++ announced ms.
Proof. done. Qed.

Lemma set_all_keys (i : nat) (cs : list string) acc c :
  c ∈ m_keys (foldl (fun acc c => m_set c i acc) acc cs) <-> c ∈ cs \/ c ∈ m_keys acc.
Proof.
  revert acc. induction cs as [|c' cs IH]; intros acc; simpl; [set_solver|].
  rewrite IH, elem_of_cons, !elem_of_m_keys, m_get_set. case_decide; subst; [|naive_solver].
  split; intros _; [by left; left|by right].
Qed.

Lemma collect_keys i ms acc c :
  c ∈ m_keys (collect_assistants i ms acc) <-> c ∈ announced ms \/ c ∈ m_keys acc.
Proof.
  revert i acc. induction ms as [|msg ms IH]; intros i acc; [cbn; set_solver|cbn [collect_assistants]].
  rewrite IH, announced_cons, elem_of_app. unfold announces.
  destruct (decide (im_senderId msg = "assistant")); [rewrite set_all_keys; tauto|]. set_solver.
Qed.

Lemma set_all_elem (i : nat) (cs : list string) acc p :
  p ∈ foldl (fun acc c => m_set c i acc) acc cs -> p ∈ acc \/ p.2 = i /\ p.1 ∈ cs.
Proof.
  revert acc. induction cs as [|c' cs IH]; intros acc; simpl; [by left|].
  intros [H|[? ?]]%IH; [|right; set_solver]. apply elem_of_m_set in H as [->|?]; [right; set_solver|by left].
Qed.

Lemma collect_elem i ms acc p :
  p ∈ collect_assistants i ms acc ->
  p ∈ acc \/ exists j msg, ms !! j = Some msg /\ p.2 = i + j /\ p.1 ∈ announces msg.
Proof.
  revert i acc. induction ms as [|msg ms IH]; intros i acc; simpl; [by left|].
  intros [H|(j & m' & Hl & He & Hin)]%IH; [|right; exists (S j), m'; eauto with lia].
  case_decide as Hs; [|by left]. apply set_all_elem in H as [?|[? ?]]; [by left|].
  right. exists 0, msg. unfold announces. rewrite decide_True by done. eauto with lia.
Qed.

Lemma scan_tools_matched assistants i ms orphans matched c :
  c ∈ (scan_tools assistants i ms orphans matched).2 <->
    c ∈ matched \/ (c ∈ answered ms /\ m_has c assistants = true).
Proof.
  revert i orphans matched. induction ms as [|msg ms IH]; intros i orphans matched; [cbn; set_solver|].
  unfold answered. simpl. fold (answered ms). unfold answers at 1.
  case_decide as Hs; [destruct (readStringMeta (im_metadata msg) "callId") as [c'|];
    [destruct (m_has c' assistants) eqn:Eh|]|]; rewrite IH, ?elem_of_s_add, ?elem_of_cons; try done.
  - naive_solver.
  - split; [naive_solver|]. intros [?|[[->|?] ?]]; [by left|congruence|by right].
Qed.

Lemma mem_has (c : string) (m : list (string * nat)) : m_has c m = true <-> c ∈ m_keys m.
Proof. by rewrite m_has_spec, elem_of_m_keys. Qed.

Lemma mem_has_not (c : string) (m : list (string * nat)) : m_has c m = false <-> c ∉ m_keys m.
Proof. rewrite <-mem_has. destruct (m_has c m); split; congruence. Qed.

Lemma assistants_keys ms c : c ∈ m_keys (collect_assistants 0 ms []) <-> c ∈ announced ms.
Proof. rewrite collect_keys. set_solver. Qed.

Lemma pairs_orphans ms k :
  k ∈ orphanToolIndices (mapCallIdPairs ms) <->
    exists msg c, ms !! k = Some msg /\ answers msg = Some c /\ c ∉ announced ms.
Proof.
  unfold mapCallIdPairs. destruct (scan_tools _ _ _ _ _) as [orphans matched] eqn:E. simpl.
  change orphans with (orphans, matched).1. rewrite <-E, scan_tools_orphans. split.
  - intros [?|(j & msg & c & Hl & -> & Hs & Hc & Hm)]; [set_solver|]. exists msg, c.
    unfold answers. rewrite decide_True by done. apply mem_has_not in Hm. by rewrite assistants_keys in Hm.
  - intros (msg & c & Hl & Ha & Hn). right. exists k, msg, c. unfold answers in Ha. case_decide; [|done].
    split_and!; try done. apply mem_has_not. by rewrite assistants_keys.
Qed.

Lemma dangling_elem ms k :
  k ∈ danglingToolUseIndices (mapCallIdPairs ms) <->
    exists c, (c, k) ∈ collect_assistants 0 ms [] /\ c ∉ answered ms.
Proof.
  unfold mapCallIdPairs. destruct (scan_tools _ _ _ _ _) as [orphans matched] eqn:E. simpl.
  rewrite merge_sort_Permutation, list_elem_of_fmap.
  assert (Hm : forall c, (c, k) ∈ collect_assistants 0 ms [] -> c ∈ matched <-> c ∈ answered ms).
  { intros c Hin. change matched with (orphans, matched).2. rewrite <-E, scan_tools_matched.
    assert (m_has c (collect_assistants 0 ms []) = true) by (apply mem_has, list_elem_of_fmap; by exists (c, k)).
    set_solver. }
  split.
  - intros ([c k'] & -> & Hf). apply list_elem_of_filter in Hf as [Hn Hin]. simpl in *.
    exists c. by rewrite <-Hm.
  - intros (c & Hin & Hn). exists (c, k). split; [done|]. apply list_elem_of_filter. simpl. by rewrite Hm.
Qed.

Lemma pairs_dangling ms k :
  k ∈ danglingToolUseIndices (mapCallIdPairs ms) ->
    exists msg c, ms !! k = Some msg /\ c ∈ announces msg /\ c ∉ answered ms.
Proof.
  intros (c & Hin & Hn)%dangling_elem. apply collect_elem in Hin as [?|(j & msg & Hl & Hj & Hc)]; [set_solver|].
  simpl in *. subst. eauto.
Qed.

Lemma dangling_announced ms c :
  c ∈ announced ms -> c ∉ answered ms ->
  exists k msg, k ∈ danglingToolUseIndices (mapCallIdPairs ms) /\ ms !! k = Some msg /\ c ∈ announces msg.
Proof.
  intros Hin Hn. rewrite <-assistants_keys in Hin. apply list_elem_of_fmap in Hin as ([c' k] & -> & Hin).
  pose proof Hin as Hin'. apply collect_elem in Hin' as [?|(j & msg & Hl & Hj & Hc)]; [set_solver|].
  simpl in *. subst. exists j, msg. split_and!; [|done..]. apply dangling_elem. eauto.
Qed.

Lemma orphans_nil ms : orphanToolIndices (mapCallIdPairs ms) = [] <-> answered ms ⊆ announced ms.
Proof.
  split.
  - intros Hnil c Hc. apply list_elem_of_omap in Hc as (msg & Hin & Ha).
    destruct (decide (c ∈ announced ms)) as [?|Hn]; [done|exfalso].
    apply list_elem_of_lookup in Hin as [k Hk]. assert (Ho : k ∈ orphanToolIndices (mapCallIdPairs ms)).
    { apply pairs_orphans. eauto. } rewrite Hnil in Ho. set_solver.
  - intros Hsub. apply elem_of_nil_inv. intros k (msg & c & Hl & Ha & Hn)%pairs_orphans. apply Hn, Hsub.
    apply list_elem_of_omap. exists msg. split; [by eapply list_elem_of_lookup_2|done].
Qed.

Lemma dangling_nil ms : danglingToolUseIndices (mapCallIdPairs ms) = [] <-> announced ms ⊆ answered ms.
Proof.
  split.
  - intros Hnil c Hc. destruct (decide (c ∈ answered ms)) as [?|Hn]; [done|exfalso].
    destruct (dangling_announced _ _ Hc Hn) as (k & _ & Hk & _). rewrite Hnil in Hk. set_solver.
  - intros Hsub. apply elem_of_nil_inv. intros k (msg & c & Hl & Ha & Hn)%pairs_dangling. apply Hn, Hsub.
    apply list_elem_of_bind. exists msg. split; [done|by eapply list_elem_of_lookup_2].
Qed.

(** ** The first pass *)

Lemma orphans_loop_dirty O D i ms j :
  j < length ms -> i + j ∈ O ++ D -> (repair_orphans_loop O D i ms).2 ≠ [].
Proof.
  revert i j. induction ms as [|msg ms IH]; intros i j Hj Hin; simpl in *; [lia|].
  destruct (repair_orphans_loop O D (S i) ms) as [r iss] eqn:E.
  repeat case_decide; simpl; try done. destruct j as [|j].
  - rewrite Nat.add_0_r in Hin. set_solver.
  - replace (i + S j) with (S i + j) in Hin by lia. specialize (IH (S i) j ltac:(lia) Hin). by rewrite E in IH.
Qed.

Definition pairs_clean (ms : list InboundMessage) : bool :=
  bool_decide (orphanToolIndices (mapCallIdPairs ms) = [] /\ danglingToolUseIndices (mapCallIdPairs ms) = []).

Lemma repairOrphans_clean ms : pairs_clean ms = true -> repairOrphans ms = (ms, []).
Proof. unfold pairs_clean, repairOrphans. intros [-> ->]%bool_decide_eq_true. done. Qed.

Lemma repairOrphans_dirty ms : pairs_clean ms = false -> (repairOrphans ms).2 ≠ [].
Proof.
  intros Hd%bool_decide_eq_false. unfold repairOrphans.
  destruct (orphanToolIndices _) as [|k O] eqn:EO.
  - destruct (danglingToolUseIndices _) as [|k D] eqn:ED; [by destruct Hd|].
    assert (Hk : k ∈ danglingToolUseIndices (mapCallIdPairs ms)) by (rewrite ED; left).
    apply pairs_dangling in Hk as (msg & c & Hl & _). apply lookup_lt_Some in Hl.
    apply (orphans_loop_dirty _ _ 0 _ k); [done|]. left.
  - assert (Hk : k ∈ orphanToolIndices (mapCallIdPairs ms)) by (rewrite EO; left).
    apply pairs_orphans in Hk as (msg & c & Hl & _). apply lookup_lt_Some in Hl.
    apply (orphans_loop_dirty _ _ 0 _ k); [done|]. simpl. left.
Qed.

Lemma needsRepair_split h first rest :
  needsRepair h (first :: rest) =
    negb (pairs_clean (first :: rest)) || some_adjacent (dup_pair h) first rest ||
    some_adjacent merge_pair first rest || some_adjacent user_pair first rest.
Proof.
  unfold needsRepair, pairs_clean. unfold needs_pair. rewrite !some_adjacent_orb.
  destruct (orphanToolIndices _); [|done]. destruct (danglingToolUseIndices _); [|done]. simpl.
  by destruct (some_adjacent merge_pair _ _), (some_adjacent (dup_pair h) _ _).
Qed.

(** The four passes in a row. *)
Definition passes (h : list ContentBlock -> string) (ms : list InboundMessage) : list InboundMessage :=
  (repairInterrupts (merge (dedup h (repairOrphans ms).1).1).1).1.

Lemma dedup_issues_nil h first rest : (dedup_loop h 1 first None rest).2 = [] -> some_adjacent (dup_pair h) first rest = false.
Proof. destruct (some_adjacent _ _ _) eqn:E; [|done]. by intros ?%(dedup_loop_dirty h 1 _ None). Qed.

Lemma repairSession_clean h ms : needsRepair h ms = false -> repairSession h ms = mkResult ms [] /\ passes h ms = ms.
Proof.
  destruct ms as [|first rest]; [done|]. rewrite needsRepair_split.
  intros [[[Hp%negb_false_iff Hd]%orb_false_iff Hm]%orb_false_iff Hu]%orb_false_iff.
  unfold repairSession, passes. rewrite (repairOrphans_clean _ Hp). cbn [fst].
  rewrite dedup_cons, (dedup_loop_clean h 1 _ None _ eq_refl Hd). cbn [fst snd].
  rewrite merge_cons, (merge_loop_clean _ _ _ Hm). cbn [fst snd].
  by rewrite interrupts_cons, (interrupts_loop_clean _ _ _ Hu).
Qed.

Lemma repairSession_dirty h ms :
  needsRepair h ms = true -> rr_issues (repairSession h ms) ≠ [] /\ rr_messages (repairSession h ms) = passes h ms.
Proof.
  destruct ms as [|first rest]; [done|]. rewrite needsRepair_split. intros Hn.
  assert (Hi : (repairOrphans (first :: rest)).2 ++ (dedup h (repairOrphans (first :: rest)).1).2 ++
    (merge (dedup h (repairOrphans (first :: rest)).1).1).2 ++ (repairInterrupts (merge (dedup h (repairOrphans (first :: rest)).1).1).1).2 ≠ []).
  { destruct (pairs_clean (first :: rest)) eqn:Hp.
    2:{ apply repairOrphans_dirty in Hp. by destruct (repairOrphans (first :: rest)) as [? []]. }
    rewrite (repairOrphans_clean _ Hp). cbn [fst snd app]. rewrite dedup_cons. cbn [fst snd].
    destruct (some_adjacent (dup_pair h) first rest) eqn:Hd.
    { apply (dedup_loop_dirty h 1 _ None _ eq_refl) in Hd. by destruct (dedup_loop h 1 first None rest).2. }
    rewrite (dedup_loop_clean h 1 _ None _ eq_refl Hd). cbn [fst snd app]. rewrite merge_cons.
    destruct (some_adjacent merge_pair first rest) eqn:Hm.
    { apply (merge_loop_dirty 1) in Hm. by destruct (merge_loop 1 first rest).2. }
    rewrite (merge_loop_clean _ _ _ Hm). cbn [fst snd app]. rewrite interrupts_cons. cbn [fst snd].
    by apply interrupts_loop_dirty. }
  unfold repairSession, passes. destruct (repairOrphans (first :: rest)) as [m1 i1]. cbn [fst snd] in *.
  destruct (dedup h m1) as [m2 i2]. cbn [fst snd] in *. destruct (merge m2) as [m3 i3]. cbn [fst snd] in *.
  destruct (repairInterrupts m3) as [m4 i4]. cbn [fst snd] in *.
  rewrite bool_decide_false; [done|]. by rewrite length_zero_iff_nil.
Qed.

Lemma repairSession_messages h ms : rr_messages (repairSession h ms) = passes h ms.
Proof.
  destruct (needsRepair h ms) eqn:E; [by apply repairSession_dirty|].
  apply repairSession_clean in E as [-> ->]. done.
Qed.

(** ** What the passes do to call ids *)

Lemma announced_app a b : announced (a ++ b) = announced a ++ announced b.
Proof. apply bind_app. Qed.

Lemma answered_cons msg ms : answered (msg :: ms) = option_list (answers msg) ++ answered ms.
Proof. unfold answered. simpl. by destruct (answers msg). Qed.

Lemma answered_app a b : answered (a ++ b) = answered a ++ answered b.
Proof. apply omap_app. Qed.

Lemma synthetic_assistant_announces text c p msg : announces (synthetic "assistant" text (Some c) p msg) = [c].
Proof. reflexivity. Qed.

Lemma synthetic_tool_answers text c p msg : option_list (answers (synthetic "tool" text (Some c) p msg)) = [c].
Proof. reflexivity. Qed.

(** A position of a longer list is its head or a position of its tail. *)
Lemma loop_shift (X : list nat) (P : InboundMessage -> Prop) i msg ms :
  (exists j m', (msg :: ms) !! j = Some m' /\ i + j ∈ X /\ P m') <->
    (i ∈ X /\ P msg) \/ exists j m', ms !! j = Some m' /\ S i + j ∈ X /\ P m'.
Proof.
  split.
  - intros ([|j] & m' & Hl & Hin & HP); simplify_eq/=; [left|right].
    + by rewrite Nat.add_0_r in Hin.
    + exists j, m'. split_and!; [done|by replace (S (i + j)) with (i + S j) by lia|done].
  - intros [[? HP]|(j & m' & Hl & Hin & HP)]; [exists 0, msg|exists (S j), m'].
    + by rewrite Nat.add_0_r.
    + split_and!; [done|by replace (i + S j) with (S i + j) by lia|done].
Qed.

(** The first pass adds exactly one call id per reported position. *)
Lemma orphans_loop_announced O D i ms c :
  c ∈ announced (repair_orphans_loop O D i ms).1 <->
    c ∈ announced ms \/ exists j msg, ms !! j = Some msg /\ i + j ∈ O /\ c = msg_callId msg.
Proof.
  revert i. induction ms as [|msg ms IH]; intros i.
  { cbn. split; [by left|]. intros [?|(j & ? & H & _)]; [done|by rewrite lookup_nil in H]. }
  cbn [repair_orphans_loop]. specialize (IH (S i)).
  destruct (repair_orphans_loop O D (S i) ms) as [r iss]. cbn [fst] in IH.
  rewrite loop_shift, announced_cons, elem_of_app.
  destruct (decide (i ∈ O)), (decide (i ∈ D)); cbn [fst app];
    rewrite ?announced_cons, ?synthetic_assistant_announces, ?elem_of_app, ?elem_of_cons, ?elem_of_nil, IH; tauto.
Qed.

Lemma orphans_loop_answered O D i ms c :
  c ∈ answered (repair_orphans_loop O D i ms).1 <->
    c ∈ answered ms \/ exists j msg, ms !! j = Some msg /\ i + j ∈ D /\ c = msg_callId msg.
Proof.
  revert i. induction ms as [|msg ms IH]; intros i.
  { cbn. split; [by left|]. intros [?|(j & ? & H & _)]; [done|by rewrite lookup_nil in H]. }
  cbn [repair_orphans_loop]. specialize (IH (S i)).
  destruct (repair_orphans_loop O D (S i) ms) as [r iss]. cbn [fst] in IH.
  rewrite loop_shift, answered_cons, elem_of_app.
  destruct (decide (i ∈ O)), (decide (i ∈ D)); cbn [fst app];
    rewrite ?answered_cons, ?synthetic_tool_answers, ?elem_of_app, ?elem_of_cons, ?elem_of_nil, IH; tauto.
Qed.

Lemma repairOrphans_cases ms :
  pairs_clean ms = true \/
  repairOrphans ms = repair_orphans_loop (orphanToolIndices (mapCallIdPairs ms))
    (danglingToolUseIndices (mapCallIdPairs ms)) 0 ms.
Proof.
  unfold repairOrphans, pairs_clean. destruct (orphanToolIndices _), (danglingToolUseIndices _); auto.
Qed.

Lemma answers_callId msg c : answers msg = Some c -> msg_callId msg = c.
Proof. unfold answers, msg_callId. case_decide; [|done]. by intros ->. Qed.

Lemma answered_elem ms c : c ∈ answered ms <-> exists k msg, ms !! k = Some msg /\ answers msg = Some c.
Proof.
  unfold answered. rewrite list_elem_of_omap. setoid_rewrite list_elem_of_lookup. naive_solver.
Qed.

Lemma repairOrphans_announced ms c :
  c ∈ announced (repairOrphans ms).1 <-> c ∈ announced ms \/ c ∈ answered ms.
Proof.
  destruct (repairOrphans_cases ms) as [Hc| ->].
  - rewrite (repairOrphans_clean _ Hc). apply bool_decide_eq_true in Hc as [Ho%orphans_nil _]. simpl. set_solver.
  - rewrite orphans_loop_announced. split.
    + intros [?|(j & msg & Hl & Hj & ->)]; [by left|right].
      apply pairs_orphans in Hj as (m' & c & Hl' & Ha & _). simplify_eq/=. rewrite (answers_callId _ _ Ha).
      apply answered_elem. eauto.
    + intros [?|Hc]; [by left|]. destruct (decide (c ∈ announced ms)) as [?|Hn]; [by left|right].
      apply answered_elem in Hc as (k & msg & Hl & Ha). exists k, msg. split_and!; [done| |].
      * apply pairs_orphans. eauto.
      * by rewrite (answers_callId _ _ Ha).
Qed.

Lemma repairOrphans_answered ms c :
  c ∈ answered (repairOrphans ms).1 <->
    c ∈ answered ms \/
    exists k msg, ms !! k = Some msg /\ k ∈ danglingToolUseIndices (mapCallIdPairs ms) /\ c = msg_callId msg.
Proof.
  destruct (repairOrphans_cases ms) as [Hc| ->]; [|apply orphans_loop_answered].
  rewrite (repairOrphans_clean _ Hc). apply bool_decide_eq_true in Hc as [_ ->]. simpl.
  split; [by left|]. intros [?|(? & ? & _ & Hn & _)]; [done|set_solver].
Qed.

(** Removing duplicates that carry no call id leaves the call ids alone.
    [q] is the immediate predecessor, which may itself have been removed. *)
Definition carries (msg : InboundMessage) : bool :=
  negb (bool_decide (announces msg = [])) || is_some_b (answers msg).

Definition dup_call (h : list ContentBlock -> string) (prev curr : InboundMessage) : bool :=
  dup_pair h prev curr && carries curr.

Lemma carries_false msg : carries msg = false -> announces msg = [] /\ answers msg = None.
Proof.
  unfold carries. intros [H%negb_false_iff%bool_decide_eq_true H2]%orb_false_iff. by destruct (answers msg).
Qed.

Lemma dedup_loop_calls h i prev q lh ms :
  cache_ok h prev lh -> im_senderId q = im_senderId prev -> h (im_content q) = h (im_content prev) ->
  some_adjacent (dup_call h) q ms = false ->
  announced (dedup_loop h i prev lh ms).1 = announced ms /\ answered (dedup_loop h i prev lh ms).1 = answered ms.
Proof.
  revert i prev q lh. induction ms as [|c ms IH]; intros i prev q lh Hc Hs Hh H; [done|].
  cbn [dedup_loop some_adjacent] in *. apply orb_false_iff in H as [H1 H2]. rewrite Hc.
  unfold dup_call, dup_pair in H1. rewrite Hs, Hh in H1.
  destruct (bool_decide (im_senderId prev = im_senderId c) && negb _) eqn:E1; cbn [andb] in H1.
  - destruct (decide (h (im_content prev) = h (im_content c))) as [Hd|Hd].
    + rewrite bool_decide_true in H1 by done. cbn [andb] in H1. apply carries_false in H1 as [H1 H1'].
      apply andb_true_iff in E1 as [E1%bool_decide_eq_true _].
      destruct (IH (S i) prev c (Some (h (im_content prev))) eq_refl (eq_sym E1) (eq_sym Hd) H2) as [IH1 IH2].
      destruct (dedup_loop _ _ _ _ _) as [r iss]. cbn [fst] in *.
      by rewrite announced_cons, answered_cons, H1, H1'.
    + destruct (IH (S i) c c (Some (h (im_content c))) eq_refl eq_refl eq_refl H2) as [IH1 IH2].
      destruct (dedup_loop _ _ _ _ _) as [r iss]. cbn [fst] in *.
      by rewrite !announced_cons, !answered_cons, IH1, IH2.
  - destruct (IH (S i) c c None eq_refl eq_refl eq_refl H2) as [IH1 IH2].
    destruct (dedup_loop _ _ _ _ _) as [r iss]. cbn [fst] in *.
    by rewrite !announced_cons, !answered_cons, IH1, IH2.
Qed.

Lemma mergeable_silent msg : isMergeable msg = true -> announces msg = [] /\ answers msg = None.
Proof.
  unfold isMergeable, announces, answers, call_ids, has_toolCalls.
  intros (((((H1 & H2)%andb_true_iff & H3)%andb_true_iff & _)%andb_true_iff & _)%andb_true_iff & _)%andb_true_iff.
  apply negb_true_iff in H3. apply bool_decide_eq_false in H3. rewrite (decide_False (P := im_senderId msg = "tool")) by done.
  split; [|done]. case_decide; [|done]. destruct (readStringMeta _ _); [done|].
  by destruct (meta_get _ "toolCalls") as [[]|].
Qed.

Lemma merge_loop_calls i prev ms :
  announced (merge_loop i prev ms).1 = announced (prev :: ms) /\ answered (merge_loop i prev ms).1 = answered (prev :: ms).
Proof.
  revert i prev. induction ms as [|c ms IH]; intros i prev; [done|]. cbn [merge_loop].
  destruct (merge_pair prev c) eqn:E.
  - set (merged := mkMessage _ _ _ _ _ _). destruct (IH (S i) merged) as [IH1 IH2].
    destruct (merge_loop (S i) merged ms) as [r iss]. cbn [fst] in *. rewrite IH1, IH2.
    apply andb_true_iff in E as [[_ Hp]%andb_true_iff Hc].
    apply mergeable_silent in Hc as [Hc1 Hc2]. pose proof (mergeable_silent _ Hp) as [Hp1 Hp2].
    assert (Hm : isMergeable merged = true) by exact Hp. apply mergeable_silent in Hm as [Hm1 Hm2].
    by rewrite !announced_cons, !answered_cons, Hc1, Hc2, Hp1, Hp2, Hm1, Hm2.
  - destruct (IH (S i) c) as [IH1 IH2]. destruct (merge_loop (S i) c ms) as [r iss]. cbn [fst] in *.
    rewrite !(announced_cons prev), !(answered_cons prev). by rewrite IH1, IH2.
Qed.

Lemma interrupts_loop_calls i prev ms :
  announced (repair_interrupts_loop i (Some prev) ms).1 = announced ms /\
  answered (repair_interrupts_loop i (Some prev) ms).1 = answered ms.
Proof.
  revert i prev. induction ms as [|c ms IH]; intros i prev; [done|]. cbn [repair_interrupts_loop].
  destruct (IH (S i) c) as [IH1 IH2]. destruct (repair_interrupts_loop (S i) (Some c) ms) as [r iss]. cbn [fst] in *.
  destruct (user_pair prev c); cbn [fst app]; rewrite !announced_cons, !answered_cons, IH1, IH2; done.
Qed.

(** [none_adjacent f ms]: no two neighbours of [ms] are an [f]-pair. *)
Definition none_adjacent (f : InboundMessage -> InboundMessage -> bool) (ms : list InboundMessage) : bool :=
  match ms with [] => true | first :: rest => negb (some_adjacent f first rest) end.

Lemma passes_calls h ms :
  none_adjacent (dup_call h) (repairOrphans ms).1 = true ->
  announced (passes h ms) = announced (repairOrphans ms).1 /\ answered (passes h ms) = answered (repairOrphans ms).1.
Proof.
  unfold passes. destruct (repairOrphans ms).1 as [|first rest]; [done|]. cbn [none_adjacent].
  intros Hn%negb_true_iff. rewrite dedup_cons. cbn [fst].
  destruct (dedup_loop_calls h 1 first first None rest eq_refl eq_refl eq_refl Hn) as [D1 D2].
  set (ds := (dedup_loop h 1 first None rest).1) in *. rewrite merge_cons.
  destruct (merge_loop_calls 1 first ds) as [M1 M2]. rewrite (announced_cons first rest), (answered_cons first rest), <-D1, <-D2.
  rewrite <-announced_cons, <-answered_cons, <-M1, <-M2.
  destruct (merge_loop 1 first ds).1 as [|x r]; [done|]. rewrite interrupts_cons. cbn [fst].
  destruct (interrupts_loop_calls 1 x r) as [I1 I2].
  by rewrite !(announced_cons x), !(answered_cons x), I1, I2.
Qed.

(** ** What the passes do to the user's messages and to neighbours *)

Definition user_messages (ms : list InboundMessage) : list InboundMessage :=
  filter (fun msg => im_senderId msg = "user") ms.

Lemma user_messages_cons msg ms :
  user_messages (msg :: ms) = (if decide (im_senderId msg = "user") then [msg] else []) ++ user_messages ms.
Proof. unfold user_messages. rewrite filter_cons. by case_decide. Qed.

Lemma orphans_loop_user O D i ms : user_messages (repair_orphans_loop O D i ms).1 = user_messages ms.
Proof.
  revert i. induction ms as [|msg ms IH]; intros i; [done|]. cbn [repair_orphans_loop]. specialize (IH (S i)).
  destruct (repair_orphans_loop O D (S i) ms) as [r iss]. cbn [fst] in IH.
  destruct (decide (i ∈ O)), (decide (i ∈ D)); cbn [fst app]; rewrite !user_messages_cons, IH; done.
Qed.

Lemma dedup_loop_user h i prev lh ms : user_messages (dedup_loop h i prev lh ms).1 = user_messages ms.
Proof.
  revert i prev lh. induction ms as [|c ms IH]; intros i prev lh; [done|]. cbn [dedup_loop].
  destruct (bool_decide (im_senderId prev = im_senderId c) && negb _) eqn:E1.
  - apply andb_true_iff in E1 as [_ Hu%negb_true_iff%bool_decide_eq_false].
    destruct (decide (default _ lh = _)).
    + specialize (IH (S i) prev (Some (default (h (im_content prev)) lh))).
      destruct (dedup_loop _ _ _ _ _) as [r iss]. cbn [fst] in *.
      rewrite user_messages_cons, decide_False by done. done.
    + specialize (IH (S i) c (Some (h (im_content c)))). destruct (dedup_loop _ _ _ _ _) as [r iss].
      cbn [fst] in *. by rewrite !user_messages_cons, IH.
  - specialize (IH (S i) c None). destruct (dedup_loop _ _ _ _ _) as [r iss].
    cbn [fst] in *. by rewrite !user_messages_cons, IH.
Qed.

Lemma mergeable_not_user msg : isMergeable msg = true -> im_senderId msg ≠ "user".
Proof.
  unfold isMergeable. intros [[[_ H]%andb_true_iff _]%andb_true_iff _]%andb_true_iff.
  by apply negb_true_iff, bool_decide_eq_false in H.
Qed.

Lemma merge_pair_mergeable prev curr :
  merge_pair prev curr = true -> isMergeable prev = true /\ isMergeable curr = true.
Proof. by intros [[_ ?]%andb_true_iff ?]%andb_true_iff. Qed.

Lemma merge_loop_user i prev ms : user_messages (merge_loop i prev ms).1 = user_messages (prev :: ms).
Proof.
  revert i prev. induction ms as [|c ms IH]; intros i prev; [done|]. cbn [merge_loop].
  destruct (merge_pair prev c) eqn:E.
  - set (merged := mkMessage _ _ _ _ _ _). specialize (IH (S i) merged).
    destruct (merge_loop (S i) merged ms) as [r iss]. cbn [fst] in *. rewrite IH, !user_messages_cons.
    apply merge_pair_mergeable in E as [Hp%mergeable_not_user Hc%mergeable_not_user].
    by rewrite !decide_False by done.
  - specialize (IH (S i) c). destruct (merge_loop (S i) c ms) as [r iss]. cbn [fst] in *.
    by rewrite !(user_messages_cons prev), IH.
Qed.

Lemma interrupts_loop_user i prev ms : user_messages (repair_interrupts_loop i (Some prev) ms).1 = user_messages ms.
Proof.
  revert i prev. induction ms as [|c ms IH]; intros i prev; [done|]. cbn [repair_interrupts_loop].
  specialize (IH (S i) c). destruct (repair_interrupts_loop (S i) (Some c) ms) as [r iss]. cbn [fst] in *.
  destruct (user_pair prev c); cbn [fst app]; rewrite !user_messages_cons, IH; done.
Qed.

Lemma passes_user h ms : user_messages (passes h ms) = user_messages ms.
Proof.
  transitivity (user_messages (repairOrphans ms).1).
  2:{ destruct (repairOrphans_cases ms) as [Hc| ->]; [by rewrite repairOrphans_clean|apply orphans_loop_user]. }
  unfold passes. destruct (repairOrphans ms).1 as [|first rest]; [done|].
  rewrite dedup_cons. cbn [fst]. rewrite merge_cons.
  rewrite (user_messages_cons first rest), <-(dedup_loop_user h 1 first None rest), <-user_messages_cons.
  rewrite <-(merge_loop_user 1). destruct (merge_loop 1 first _).1 as [|x r]; [done|].
  rewrite interrupts_cons. cbn [fst]. by rewrite !(user_messages_cons x), interrupts_loop_user.
Qed.

(** Merging leaves a first message with the same sender and the same
    mergeability, and no mergeable neighbours. *)
Lemma merge_loop_separates i prev ms :
  exists x r, (merge_loop i prev ms).1 = x :: r /\ im_senderId x = im_senderId prev /\
    isMergeable x = isMergeable prev /\ some_adjacent merge_pair x r = false.
Proof.
  revert i prev. induction ms as [|c ms IH]; intros i prev; cbn [merge_loop].
  { by exists prev, []. }
  destruct (merge_pair prev c) eqn:E.
  - set (merged := mkMessage _ _ _ _ _ _). destruct (IH (S i) merged) as (x & r & Hm & Hs & Hg & Hn).
    destruct (merge_loop (S i) merged ms) as [r' iss]. cbn [fst] in *. exists x, r. split_and!; done.
  - destruct (IH (S i) c) as (x & r & Hm & Hs & Hg & Hn). destruct (merge_loop (S i) c ms) as [r' iss].
    cbn [fst] in *. subst r'. exists prev, (x :: r). split_and!; [done..|]. cbn [some_adjacent].
    unfold merge_pair in E |- * at 1. by rewrite Hs, Hg, E.
Qed.

Lemma synthetic_not_mergeable text msg : isMergeable (synthetic "assistant" text None "interrupt" msg) = false.
Proof. reflexivity. Qed.

Lemma interrupts_loop_separates i prev ms :
  some_adjacent merge_pair prev ms = false ->
  some_adjacent (fun p c => merge_pair p c || user_pair p c) prev (repair_interrupts_loop i (Some prev) ms).1 = false.
Proof.
  revert i prev. induction ms as [|c ms IH]; intros i prev Hm; [done|].
  cbn [repair_interrupts_loop some_adjacent] in *. apply orb_false_iff in Hm as [Hm1 Hm2].
  specialize (IH (S i) c Hm2). destruct (repair_interrupts_loop (S i) (Some c) ms) as [r iss]. cbn [fst] in *.
  destruct (user_pair prev c) eqn:Eu; cbn [fst app some_adjacent].
  - set (sep := synthetic _ _ _ _ _). assert (Hsep : isMergeable sep = false) by apply synthetic_not_mergeable.
    assert (Hb : forall p, merge_pair p sep || user_pair p sep = false).
    { intros p. unfold merge_pair, user_pair. rewrite Hsep, andb_false_r, (bool_decide_false (im_senderId sep = "user")) by done.
      by rewrite andb_false_r. }
    assert (Hf : merge_pair sep c || user_pair sep c = false).
    { unfold merge_pair, user_pair. by rewrite Hsep, andb_false_r. }
    by rewrite Hb, Hf.
  - rewrite Hm1, Eu. done.
Qed.

Lemma passes_separated h ms : none_adjacent (fun p c => merge_pair p c || user_pair p c) (passes h ms) = true.
Proof.
  unfold passes. destruct (repairOrphans ms).1 as [|first rest]; [done|]. rewrite dedup_cons. cbn [fst]. rewrite merge_cons.
  destruct (merge_loop_separates 1 first (dedup_loop h 1 first None rest).1) as (x & r & -> & _ & _ & Hn).
  rewrite interrupts_cons. cbn [fst none_adjacent]. apply negb_true_iff. by apply interrupts_loop_separates.
Qed.

(** ** The properties *)

(** [needsRepair] is exact: it answers true precisely when [repairSession]
    reports an issue, and false precisely when [repairSession] returns the
    history unchanged with no issues. *)
Lemma needsRepair_exact h ms :
  (needsRepair h ms = true <-> rr_issues (repairSession h ms) ≠ []) /\
  (needsRepair h ms = false <-> repairSession h ms = mkResult ms []).
Proof.
  destruct (needsRepair h ms) eqn:E.
  - apply repairSession_dirty in E as [Hi _]. split; split; try done. intros Hr. by rewrite Hr in Hi.
  - apply repairSession_clean in E as [-> _]. by split; split.
Qed.


(** Repair never drops, alters or reorders a message of the user, and its
    result has no mergeable neighbours and no two unpinned user messages in a
    row. *)
Lemma repair_keeps_user_turns h ms :
  user_messages (rr_messages (repairSession h ms)) = user_messages ms /\
  none_adjacent (fun p c => merge_pair p c || user_pair p c) (rr_messages (repairSession h ms)) = true.
Proof. rewrite repairSession_messages. split; [apply passes_user|apply passes_separated]. Qed.

(** A lost call that is announced only in [metadata.toolCalls] is never
    answered: the synthetic result goes under another id, the call still
    dangles, and the repaired history needs repair again. *)
Lemma lost_multi_call_not_repaired h ms c
    (Hc : c ∈ announced ms) (Hn : c ∉ answered ms)
    (Honly : forall msg, msg ∈ ms -> msg_callId msg ≠ c)
    (Hsafe : none_adjacent (dup_call h) (repairOrphans ms).1 = true) :
  c ∈ announced (rr_messages (repairSession h ms)) /\ c ∉ answered (rr_messages (repairSession h ms)) /\
  needsRepair h (rr_messages (repairSession h ms)) = true.
Proof.
  rewrite repairSession_messages. destruct (passes_calls h ms Hsafe) as [Ha Hb].
  assert (H1 : c ∈ announced (passes h ms)) by (rewrite Ha, repairOrphans_announced; by left).
  assert (H2 : c ∉ answered (passes h ms)).
  { rewrite Hb, repairOrphans_answered. intros [?|(k & msg & Hl & _ & ->)]; [done|].
    by apply (Honly msg); [eapply list_elem_of_lookup_2|]. }
  split_and!; [done..|]. destruct (needsRepair h (passes h ms)) eqn:E; [done|exfalso].
  destruct (passes h ms) as [|first rest]; [by apply not_elem_of_nil in H1|].
  rewrite needsRepair_split in E. apply orb_false_iff in E as [[[E _]%orb_false_iff _]%orb_false_iff _].
  apply negb_false_iff, bool_decide_eq_true in E as [_ E%dangling_nil]. auto.
Qed.

(** A turn of two parallel calls whose results have the same content. *)
Definition plain_message (sender : string) (content : list ContentBlock) (metadata : list (string * jsval)) : InboundMessage :=
  mkMessage content sender None 0 (Some metadata) None.

Definition parallel_turn (c1 c2 : string) (x : list ContentBlock) : list InboundMessage :=
  [plain_message "user" [B_text "go"] [];
   plain_message "assistant" [] [("toolCalls", JArr [JObj [("id", JStr c1)]; JObj [("id", JStr c2)]])];
   plain_message "tool" x [("callId", JStr c1)];
   plain_message "tool" x [("callId", JStr c2)]].

(** Whatever the hash, the result of the second of two parallel calls with
    equal results is removed as a duplicate, although the ids differ: a history
    whose calls and results were paired ends with a call without a result. *)
Lemma equal_parallel_results_lost h c1 c2 x (Hne : c1 ≠ c2) :
  pairs_clean (parallel_turn c1 c2 x) = true /\
  rr_messages (repairSession h (parallel_turn c1 c2 x)) = take 3 (parallel_turn c1 c2 x) /\
  pairs_clean (rr_messages (repairSession h (parallel_turn c1 c2 x))) = false.
Proof.
  assert (Hclean : pairs_clean (parallel_turn c1 c2 x) = true).
  { apply bool_decide_eq_true. by rewrite orphans_nil, dangling_nil. }
  assert (Hout : rr_messages (repairSession h (parallel_turn c1 c2 x)) = take 3 (parallel_turn c1 c2 x)).
  { rewrite repairSession_messages. unfold passes. rewrite (repairOrphans_clean _ Hclean). cbn [fst].
    unfold parallel_turn at 1. rewrite dedup_cons. cbn. by destruct (decide (h x = h x)). }
  split_and!; [done..|]. rewrite Hout. apply bool_decide_eq_false. rewrite dangling_nil.
  intros [_ Hs]. specialize (Hs c2). cbn in Hs. set_solver.
Qed.

(** Witnesses *)

Definition example_hash (content : list ContentBlock) : string :=
  foldr (fun b acc => (match b with B_text t => t | _ => "" end) +:+ acc) "" content.

Definition lost_single : list InboundMessage :=
  [plain_message "user" [B_text "hi"] [];
   plain_message "assistant" [B_text "call"] [("callId", JStr "c1")];
   plain_message "tool" [B_text "late"] [("callId", JStr "c9")]].


Definition lost_multi : list InboundMessage := take 2 (parallel_turn "c1" "c2" []).

Lemma lost_multi_call_not_repaired_witness :
  needsRepair example_hash (rr_messages (repairSession example_hash lost_multi)) = true.
Proof.
  refine (proj2 (proj2 (lost_multi_call_not_repaired example_hash lost_multi "c1" _ _ _ _))).
  - vm_compute. left.
  - vm_compute. by apply not_elem_of_nil.
  - intros msg Hin. unfold lost_multi, parallel_turn in Hin. simpl in Hin. rewrite !elem_of_cons in Hin.
    destruct Hin as [->|[->|Hin]]; [done|done|by apply not_elem_of_nil in Hin].
  - vm_compute. reflexivity.
Defined.

Lemma equal_parallel_results_lost_witness :
  "c1" ≠ "c2" /\ length (rr_messages (repairSession example_hash (parallel_turn "c1" "c2" [B_text "ok"]))) = 3.
Proof.
  split; [done|].
  by rewrite (proj1 (proj2 (equal_parallel_results_lost example_hash "c1" "c2" [B_text "ok"] ltac:(done)))).
Defined.
