(* ===== verification/PairBoundaries.v ===== *)
(** * Pairs of calls and results in a message history

    [lib/context-manager/src/pair-boundaries.ts]: which tool result answers
    which assistant message, where a history may be cut without separating the
    two, and which messages of the part before the cut are kept because they are
    pinned.  Messages are those of [SessionRepair]; a history is an array
    without holes, so the [undefined] guards of the loops have no counterpart.
    The sort of numeric indices is modelled by stdpp's merge sort. *)

From S2P Require Import Prelude JsMap SessionRepair.

Local Open Scope string_scope.
Local Open Scope list_scope.

(** A history holds message objects: [M] is the type of references to them,
    equality on [M] is identity of objects, and [as_message] reads the object.
    Only [enforce-budget.ts] compares identities. *)
Class Message (M : Type) : Type := as_message : M -> InboundMessage.

Record AssistantToolPair : Type := mkPair { assistantIdx : nat; toolIdx : nat }.

Section Pairs.
Context {M : Type} `{Message M}.

(** ** Matching results to calls *)

Definition readCallId (msg : M) : option string :=
  readStringMeta (im_metadata (as_message msg)) "callId".

(** First loop of [matchAssistantToolPairs]: the positions of the assistant
    messages of each call id, in order. *)
Fixpoint index_assistants (i : nat) (messages : list M)
    (byCallId : list (string * list nat)) : list (string * list nat) :=
  match messages with
  | [] => byCallId
  | msg :: rest =>
      index_assistants (S i) rest
        (if decide (im_senderId (as_message msg) = "assistant") then
           match readCallId msg with
           | None => byCallId
           | Some callId =>
               match m_get callId byCallId with
               | Some existing => m_set callId (existing ++ [i]) byCallId
               | None => m_set callId [i] byCallId
               end
           end
         else byCallId)
  end.

(** The scan of the candidates, from the last to the first. *)
Fixpoint nearest (i : nat) (consumed candidates : list nat) : option nat :=
  match candidates with
  | [] => None
  | c :: cs =>
      if bool_decide (c < i) && negb (s_has c consumed) then Some c
      else nearest i consumed cs
  end.

(** Second loop. *)
Fixpoint match_tools (i : nat) (messages : list M)
    (byCallId : list (string * list nat)) (consumed : list nat)
    (pairs : list AssistantToolPair) : list AssistantToolPair :=
  match messages with
  | [] => pairs
  | msg :: rest =>
      if decide (im_senderId (as_message msg) = "tool") then
        match readCallId msg with
        | None => match_tools (S i) rest byCallId consumed pairs
        | Some callId =>
            match m_get callId byCallId with
            | None => match_tools (S i) rest byCallId consumed pairs
            | Some candidates =>
                match nearest i consumed (rev candidates) with
                | None => match_tools (S i) rest byCallId consumed pairs
                | Some matchIdx =>
                    match_tools (S i) rest byCallId (s_add matchIdx consumed)
                      (pairs ++ [mkPair matchIdx i])
                end
            end
        end
      else match_tools (S i) rest byCallId consumed pairs
  end.

Definition matchAssistantToolPairs (messages : list M) : list AssistantToolPair :=
  match_tools 0 messages (index_assistants 0 messages []) [] [].

(** ** Atomic groups and split points *)

(** All indices from the call through the result. *)
Definition group_of (p : AssistantToolPair) : list nat :=
  seq (assistantIdx p) (toolIdx p + 1 - assistantIdx p).

Definition add_group (groups : list (nat * list nat)) (p : AssistantToolPair) :
    list (nat * list nat) :=
  foldl (fun gs idx => m_set idx (group_of p) gs) groups (group_of p).

Definition buildAtomicGroups (messages : list M) : list (nat * list nat) :=
  foldl add_group [] (matchAssistantToolPairs messages).

(** [Math.min] of a group that is not empty. *)
Definition min_of (group : list nat) : nat :=
  match group with [] => 0 | g :: gs => foldl Nat.min g gs end.

Definition add_interior (interiors : list nat) (group : list nat) : list nat :=
  foldl (fun acc idx => if decide (idx = min_of group) then acc else s_add idx acc)
    interiors group.

Definition findAtomicGroupInteriors (messages : list M) : list nat :=
  foldl add_interior [] (m_values (buildAtomicGroups messages)).

Definition findValidSplitPoints (messages : list M) (preserveRecent : Z) : list nat :=
  let maxSplitIndex := (Z.of_nat (length messages) - preserveRecent)%Z in
  if bool_decide (maxSplitIndex < 1)%Z then []
  else
    let interiors := findAtomicGroupInteriors messages in
    filter (fun s => s ∉ interiors) (seq 1 (Z.to_nat maxSplitIndex)).

(** ** Rescue of pinned messages *)

Definition buildPairPartners (messages : list M) : list (nat * nat) :=
  foldl (fun partners p =>
           m_set (toolIdx p) (assistantIdx p) (m_set (assistantIdx p) (toolIdx p) partners))
    [] (matchAssistantToolPairs messages).

Definition pinned_at (messages : list M) (i : nat) : bool :=
  match messages !! i with Some msg => is_pinned (as_message msg) | None => false end.

(** The loop over the head of the history. *)
Definition rescue_step (messages : list M) (splitIdx : nat)
    (partners : list (nat * nat)) (rescued : list nat) (i : nat) : list nat :=
  if pinned_at messages i then
    match m_get i partners with
    | Some partnerIdx =>
        if decide (partnerIdx < splitIdx) then s_add partnerIdx (s_add i rescued)
        else s_add i rescued
    | None => s_add i rescued
    end
  else rescued.

Definition rescuedIndices (messages : list M) (splitIdx : nat) : list nat :=
  foldl (rescue_step messages splitIdx (buildPairPartners messages)) [] (seq 0 splitIdx).

Definition rescuePinnedGroups (messages : list M) (splitIdx : nat) :
    list M :=
  let hasPinned := existsb (pinned_at messages) (seq 0 splitIdx) in
  if negb hasPinned then []
  else omap (fun i => messages !! i) (merge_sort Nat.le (rescuedIndices messages splitIdx)).

(** [buildTailWithRescued] of [micro-compact.ts], also in [enforce-budget.ts]. *)
Definition buildTailWithRescued (allMessages : list M) (splitIdx : nat) :
    list M :=
  let rescued := rescuePinnedGroups allMessages splitIdx in
  let rawTail := drop splitIdx allMessages in
  if decide (length rescued = 0) then rawTail else rescued ++ rawTail.

(** ** What a matching of calls and results is *)

Definition is_call (messages : list M) (a : nat) (callId : string) : Prop :=
  exists msg, messages !! a = Some msg /\ im_senderId (as_message msg) = "assistant" /\
    readCallId msg = Some callId.

Definition is_answer (messages : list M) (t : nat) (callId : string) : Prop :=
  exists msg, messages !! t = Some msg /\ im_senderId (as_message msg) = "tool" /\
    readCallId msg = Some callId.

(** Call [a] was taken by a result before position [t]. *)
Definition taken_before (pairs : list AssistantToolPair) (a t : nat) : Prop :=
  exists q, q ∈ pairs /\ assistantIdx q = a /\ toolIdx q < t.

(** [pairs] matches the results among the first [n] messages. *)
Record matching (messages : list M) (n : nat) (pairs : list AssistantToolPair) : Prop := {
  mt_valid : forall p, p ∈ pairs -> assistantIdx p < toolIdx p < n /\
    exists c, is_call messages (assistantIdx p) c /\ is_answer messages (toolIdx p) c;
  mt_sorted : StronglySorted (fun p q => toolIdx p < toolIdx q) pairs;
  mt_once : NoDup (assistantIdx <$> pairs);
  mt_nearest : forall p c a, p ∈ pairs -> is_answer messages (toolIdx p) c ->
    is_call messages a c -> assistantIdx p < a < toolIdx p -> taken_before pairs a (toolIdx p);
  mt_greedy : forall t c, t < n -> is_answer messages t c ->
    (exists p, p ∈ pairs /\ toolIdx p = t) \/
    (forall a, a < t -> is_call messages a c -> taken_before pairs a t)
}.

(** Position [s] separates a call from its result. *)
Definition separates (pairs : list AssistantToolPair) (s : nat) : Prop :=
  exists p, p ∈ pairs /\ assistantIdx p < s <= toolIdx p.

#[export] Instance separates_dec pairs s : Decision (separates pairs s).
Proof.
  refine (cast_if (decide (Exists (fun p => assistantIdx p < s <= toolIdx p) pairs)));
    unfold separates; rewrite <-Exists_exists; done.
Defined.

(** Index [i] of the head is rescued: it is pinned, or its partner is. *)
Definition is_rescued (messages : list M) (s i : nat) : Prop :=
  pinned_at messages i = true \/
  exists p, p ∈ matchAssistantToolPairs messages /\
    ((i = assistantIdx p /\ toolIdx p < s /\ pinned_at messages (toolIdx p) = true) \/
     (i = toolIdx p /\ assistantIdx p < s /\ pinned_at messages (assistantIdx p) = true)).

#[export] Instance is_rescued_dec messages s i : Decision (is_rescued messages s i).
Proof.
  refine (cast_if (decide (pinned_at messages i = true \/
    Exists (fun p => (i = assistantIdx p /\ toolIdx p < s /\ pinned_at messages (toolIdx p) = true) \/
     (i = toolIdx p /\ assistantIdx p < s /\ pinned_at messages (assistantIdx p) = true))
      (matchAssistantToolPairs messages))));
    unfold is_rescued; rewrite <-Exists_exists; done.
Defined.

(** The indices of a history that survive a cut at [s]. *)
Definition kept_indices (messages : list M) (s : nat) : list nat :=
  filter (is_rescued messages s) (seq 0 s) ++ seq s (length messages - s).

(** ** The matching is the one described *)

Definition candidates (byCallId : list (string * list nat)) (c : string) : list nat :=
  default [] (m_get c byCallId).

(** The index of assistants after [i] messages. *)
Definition indexed (messages : list M) (i : nat)
    (byCallId : list (string * list nat)) : Prop :=
  forall c, StronglySorted lt (candidates byCallId c) /\
    forall a, a ∈ candidates byCallId c <-> a < i /\ is_call messages a c.

Lemma lookup_middle {A} (pre rest : list A) x : (pre ++ x :: rest) !! length pre = Some x.
Proof. by rewrite lookup_app_r, Nat.sub_diag by lia. Qed.

Lemma is_call_inj messages a c c' : is_call messages a c -> is_call messages a c' -> c = c'.
Proof. intros (m & ? & _ & ?) (m' & ? & _ & ?). congruence. Qed.

Lemma is_answer_inj messages a c c' : is_answer messages a c -> is_answer messages a c' -> c = c'.
Proof. intros (m & ? & _ & ?) (m' & ? & _ & ?). congruence. Qed.

Lemma indexed_step_none messages i byId :
  (forall c, ~ is_call messages i c) -> indexed messages i byId -> indexed messages (S i) byId.
Proof.
  intros Hn Hi c. destruct (Hi c) as [Hs He]. split; [done|]. intros a. rewrite He.
  split; intros [? ?]; split; try done; [lia|].
  destruct (decide (a = i)) as [->|]; [by destruct (Hn c)|lia].
Qed.

Lemma indexed_step_call messages i byId c :
  is_call messages i c -> indexed messages i byId ->
  indexed messages (S i) (m_set c (candidates byId c ++ [i]) byId).
Proof.
  intros Hc Hi c'. unfold candidates at 1 3. rewrite m_get_set. case_decide as Hcc; simpl.
  - subst c'. destruct (Hi c) as [Hs He]. split.
    + apply StronglySorted_snoc; [done|]. intros y Hy. by apply He.
    + intros a. rewrite elem_of_app, He, list_elem_of_singleton. split.
      * intros [[? ?]| ->]; split; try done; lia.
      * intros [? ?]. destruct (decide (a = i)); [by right|left; split; [lia|done]].
  - destruct (Hi c') as [Hs He]. split; [done|]. intros a. unfold candidates in He. rewrite He.
    split; intros [? ?]; split; try done; [lia|].
    destruct (decide (a = i)) as [->|]; [|lia].
    by destruct Hcc; apply (is_call_inj messages i).
Qed.

Lemma index_assistants_spec messages pre rest byId :
  messages = pre ++ rest -> indexed messages (length pre) byId ->
  indexed messages (length messages) (index_assistants (length pre) rest byId).
Proof.
  revert pre byId. induction rest as [|msg rest IH]; intros pre byId Heq Hi; simpl.
  - subst. by rewrite app_nil_r in *.
  - assert (Hl : messages !! length pre = Some msg) by (subst; apply lookup_middle).
    specialize (IH (pre ++ [msg])). rewrite length_app, Nat.add_1_r in IH.
    apply IH; [by rewrite <-app_assoc|]. clear IH.
    assert (Hnone : (im_senderId (as_message msg) ≠ "assistant" \/ readCallId msg = None) ->
      indexed messages (S (length pre)) byId).
    { intros Hn. apply indexed_step_none; [|done]. intros c (m & Hm & ? & ?).
      rewrite Hl in Hm. simplify_eq. destruct Hn; congruence. }
    case_decide as Hs; [|by auto].
    destruct (readCallId msg) as [callId|] eqn:Hc; [|by auto].
    pose proof (indexed_step_call messages (length pre) byId callId) as Hstep.
    unfold candidates in Hstep. destruct (m_get callId byId); apply Hstep; try done;
      by exists msg.
Qed.

Lemma nearest_spec i consumed l :
  StronglySorted (flip lt) l ->
  match nearest i consumed l with
  | Some m => m ∈ l /\ m < i /\ m ∉ consumed /\ forall a, a ∈ l -> m < a < i -> a ∈ consumed
  | None => forall a, a ∈ l -> a < i -> a ∈ consumed
  end.
Proof.
  induction 1 as [|c l Hl IH Hc]; simpl; [intros a ?; set_solver|].
  rewrite Forall_forall in Hc. unfold flip in Hc.
  destruct (bool_decide (c < i) && negb (s_has c consumed)) eqn:E.
  - apply andb_true_iff in E as [E1%bool_decide_eq_true E2%negb_true_iff].
    apply s_has_false in E2. split_and!; [set_solver|done..|].
    intros a [->|Ha]%elem_of_cons ?; [lia|]. specialize (Hc a Ha). lia.
  - apply andb_false_iff in E.
    assert (Hskip : forall a, a = c -> a < i -> a ∈ consumed).
    { intros a -> ?. destruct E as [E%bool_decide_eq_false|E%negb_false_iff]; [lia|].
      by apply s_has_true. }
    destruct (nearest i consumed l) as [m|].
    + destruct IH as (? & ? & ? & IH). split_and!; [set_solver|done..|].
      intros a [->|Ha]%elem_of_cons ?; [apply Hskip; [done|lia]|by apply IH].
    + intros a [->|Ha]%elem_of_cons ?; [by apply Hskip|by apply IH].
Qed.

Lemma elem_of_rev {A} (l : list A) x : x ∈ rev l <-> x ∈ l.
Proof. rewrite rev_alt. apply elem_of_reverse. Qed.

Lemma StronglySorted_rev {A} (R : relation A) l :
  StronglySorted R l -> StronglySorted (flip R) (rev l).
Proof.
  induction 1 as [|x l Hl IH Hx]; simpl; [constructor|].
  apply StronglySorted_snoc; [done|]. intros y Hy.
  rewrite elem_of_rev in Hy. rewrite Forall_forall in Hx. unfold flip. by apply Hx.
Qed.

(** A position that holds no result leaves the matching as it is. *)
Lemma matching_step_skip messages n pairs :
  (forall c, is_answer messages n c ->
    forall a, a < n -> is_call messages a c -> taken_before pairs a n) ->
  matching messages n pairs -> matching messages (S n) pairs.
Proof.
  intros Hn [Hv Hs Ho Hne Hg]. split; try done.
  - intros p Hp. destruct (Hv p Hp). split; [lia|done].
  - intros t c Ht Hc. destruct (decide (t = n)) as [->|]; [right; by eapply Hn|].
    apply Hg; [lia|done].
Qed.

Lemma matching_step_pair messages n pairs m c :
  m < n -> is_call messages m c -> is_answer messages n c ->
  m ∉ (assistantIdx <$> pairs) ->
  (forall a, is_call messages a c -> m < a < n -> a ∈ (assistantIdx <$> pairs)) ->
  matching messages n pairs -> matching messages (S n) (pairs ++ [mkPair m n]).
Proof.
  intros Hm Hcall Hans Hnew Hnear [Hv Hs Ho Hne Hg].
  assert (Hmono : forall a t, taken_before pairs a t -> taken_before (pairs ++ [mkPair m n]) a t).
  { intros a t (q & ? & ? & ?). exists q. split_and!; [set_solver|done..]. }
  split.
  - intros p [Hp|Hp%list_elem_of_singleton]%elem_of_app.
    + destruct (Hv p Hp). split; [lia|done].
    + subst p; simpl. split; [lia|eauto].
  - apply StronglySorted_snoc; [done|]. intros y Hy; simpl. destruct (Hv y Hy). lia.
  - rewrite fmap_app. apply NoDup_app. split_and!; [done| |apply NoDup_singleton].
    intros x Hx ->%list_elem_of_singleton. by apply Hnew.
  - intros p c' a [Hp|Hp%list_elem_of_singleton]%elem_of_app Hc' Ha Hlt.
    + apply Hmono. by eapply Hne.
    + subst p; simpl in *. assert (c' = c) as -> by (eapply is_answer_inj; eassumption).
      apply Hmono. specialize (Hnear a Ha Hlt). apply list_elem_of_fmap in Hnear as (q & ? & Hq).
      exists q. split_and!; [set_solver|done|]. destruct (Hv q Hq). lia.
  - intros t c' Ht Hc'. destruct (decide (t = n)) as [->|].
    + left. exists (mkPair m n). split; [set_solver|done].
    + destruct (Hg t c') as [(p & ? & ?)|Hg']; [lia|done| |].
      * left. exists p. split; [set_solver|done].
      * right. intros a ? ?. by apply Hmono, Hg'.
Qed.

Lemma match_tools_spec messages pre rest byId consumed pairs :
  messages = pre ++ rest -> indexed messages (length messages) byId ->
  (forall a, a ∈ consumed <-> a ∈ (assistantIdx <$> pairs)) ->
  matching messages (length pre) pairs ->
  matching messages (length messages) (match_tools (length pre) rest byId consumed pairs).
Proof.
  revert pre consumed pairs. induction rest as [|msg rest IH]; intros pre consumed pairs Heq Hi Hcon Hm; simpl.
  { subst. by rewrite app_nil_r in *. }
  assert (Hl : messages !! length pre = Some msg) by (subst; apply lookup_middle).
  specialize (IH (pre ++ [msg])). rewrite length_app, Nat.add_1_r in IH.
  assert (Heq' : messages = (pre ++ [msg]) ++ rest) by by rewrite <-app_assoc.
  assert (Hskip : (forall c, is_answer messages (length pre) c ->
      forall a, a < length pre -> is_call messages a c -> a ∈ consumed) ->
    matching messages (length messages) (match_tools (S (length pre)) rest byId consumed pairs)).
  { intros Hn. apply IH; [done..|]. apply matching_step_skip; [|done].
    intros c Hc a Ha Hcall. pose proof (proj1 (Hcon a) (Hn c Hc a Ha Hcall)) as Hq. apply list_elem_of_fmap in Hq as (q & -> & Hq).
    exists q. split_and!; [done..|]. destruct (mt_valid _ _ _ Hm q Hq). lia. }
  case_decide as Hs; [|apply Hskip; intros c (m & ? & ? & ?); congruence].
  destruct (readCallId msg) as [callId|] eqn:Hc; [|apply Hskip; intros c (m & ? & ? & ?); congruence].
  assert (Hans : is_answer messages (length pre) callId) by by exists msg.
  destruct (Hi callId) as [Hsort Helem]. unfold candidates in Hsort, Helem.
  destruct (m_get callId byId) as [cands|] eqn:Eb; simpl in *.
  - pose proof (nearest_spec (length pre) consumed (rev cands) (StronglySorted_rev _ _ Hsort)) as Hn.
    destruct (nearest (length pre) consumed (rev cands)) as [m|];
      setoid_rewrite elem_of_rev in Hn.
    + destruct Hn as (Hmc & Hlt & Hncon & Hnear). apply Helem in Hmc as [_ Hcall].
      apply IH; [done..| |].
      * intros a. rewrite elem_of_s_add, fmap_app, elem_of_app, Hcon; simpl.
        rewrite list_elem_of_singleton. tauto.
      * eapply matching_step_pair; try done; [by rewrite <-Hcon|].
        intros a Ha Hb. apply Hcon, Hnear; [|done]. apply Helem. split; [|done].
        destruct Ha as (? & ?%lookup_lt_Some & _). done.
    + apply Hskip. intros c Hc' a Ha Hcall. rewrite (is_answer_inj _ _ _ _ Hc' Hans) in Hcall.
      apply Hn; [|done]. apply Helem. split; [|done].
      destruct Hcall as (? & ?%lookup_lt_Some & _). done.
  - apply Hskip. intros c Hc' a Ha Hcall. rewrite (is_answer_inj _ _ _ _ Hc' Hans) in Hcall.
    destruct (not_elem_of_nil a). apply Helem. split; [|done].
    destruct Hcall as (? & ?%lookup_lt_Some & _). done.
Qed.

Lemma pairs_matching messages : matching messages (length messages) (matchAssistantToolPairs messages).
Proof.
  apply (match_tools_spec messages []); [done| |done|].
  - apply (index_assistants_spec messages []); [done|]. intros c. split; [constructor|].
    intros a. unfold candidates; simpl. rewrite elem_of_nil. split; [done|intros [? _]; lia].
  - split.
    + intros p ?%elem_of_nil. done.
    + constructor.
    + constructor.
    + intros p ? ? ?%elem_of_nil. done.
    + intros t c Ht; simpl in Ht; lia.
Qed.

Lemma pair_bounds messages p :
  p ∈ matchAssistantToolPairs messages -> assistantIdx p < toolIdx p < length messages.
Proof. intros Hp. by destruct (mt_valid _ _ _ (pairs_matching messages) p Hp). Qed.

(** ** Split points separate no pair *)

Lemma elem_of_group_of p i : i ∈ group_of p <-> assistantIdx p <= i < toolIdx p + 1.
Proof. unfold group_of. rewrite elem_of_seq. lia. Qed.

Lemma fold_min_seq a n m : a <= m -> foldl Nat.min a (seq m n) = a.
Proof. revert a m. induction n as [|n IH]; intros a m Ha; simpl; [done|]. rewrite Nat.min_l, IH by lia. done. Qed.

Lemma min_group_of p : assistantIdx p <= toolIdx p -> min_of (group_of p) = assistantIdx p.
Proof.
  intros Hp. unfold min_of, group_of.
  replace (toolIdx p + 1 - assistantIdx p) with (S (toolIdx p - assistantIdx p)) by lia.
  simpl. apply fold_min_seq. lia.
Qed.

Lemma m_get_set_many (l : list nat) (g : list nat) gs i :
  m_get i (foldl (fun gs idx => m_set idx g gs) gs l) = if decide (i ∈ l) then Some g else m_get i gs.
Proof.
  revert gs. induction l as [|x l IH]; intros gs; cbn [foldl]; [case_decide; [set_solver|done]|].
  rewrite IH, m_get_set. repeat case_decide; try done; subst; set_solver.
Qed.

Lemma m_get_add_group gs p i :
  m_get i (add_group gs p) = if decide (i ∈ group_of p) then Some (group_of p) else m_get i gs.
Proof. apply m_get_set_many. Qed.

Lemma NoDup_add_group gs p : NoDup (m_keys gs) -> NoDup (m_keys (add_group gs p)).
Proof.
  intros Hgs. unfold add_group. apply (foldl_ind (fun _ gs => NoDup (m_keys gs))); [done|].
  intros; by apply NoDup_m_set.
Qed.

(** Every pair of a prefix lies in a group that still owns its own first index. *)
Lemma groups_cover (ps : list AssistantToolPair) :
  (forall p, p ∈ ps -> assistantIdx p < toolIdx p) ->
  StronglySorted (fun p q => toolIdx p < toolIdx q) ps ->
  let gs := foldl add_group [] ps in
  NoDup (m_keys gs) /\
  (forall i g, m_get i gs = Some g -> exists p, p ∈ ps /\ g = group_of p) /\
  (forall p, p ∈ ps -> exists q, q ∈ ps /\ assistantIdx q <= assistantIdx p /\
     toolIdx p <= toolIdx q /\ m_get (assistantIdx q) gs = Some (group_of q)).
Proof.
  intros Hv Hs gs. subst gs.
  apply (foldl_ind (fun seen gs => NoDup (m_keys gs) /\
    (forall i g, m_get i gs = Some g -> exists p, p ∈ seen /\ g = group_of p) /\
    (forall p, p ∈ seen -> exists q, q ∈ seen /\ assistantIdx q <= assistantIdx p /\
     toolIdx p <= toolIdx q /\ m_get (assistantIdx q) gs = Some (group_of q)))).
  { split_and!; [constructor|done|intros p ?%elem_of_nil; done]. }
  intros seen x rest gs -> (Hnd & Hg & Hc).
  assert (Hx : assistantIdx x < toolIdx x) by (apply Hv; set_solver).
  assert (Hlast : forall p, p ∈ seen -> toolIdx p < toolIdx x).
  { intros p Hp. by apply (StronglySorted_app_1_elem_of _ _ _ p x Hs Hp), list_elem_of_here. }
  assert (Hown : m_get (assistantIdx x) (add_group gs x) = Some (group_of x)).
  { rewrite m_get_add_group, decide_True; [done|]. apply elem_of_group_of. lia. }
  split_and!.
  - by apply NoDup_add_group.
  - intros i g. rewrite m_get_add_group. case_decide; [intros [= <-]; exists x; set_solver|].
    intros (p & ? & ->)%Hg. exists p. set_solver.
  - intros p [Hp| ->%list_elem_of_singleton]%elem_of_app; [|exists x; set_solver].
    destruct (Hc p Hp) as (q & Hq & ? & ? & Hgq).
    destruct (decide (assistantIdx q ∈ group_of x)) as [Hin|Hin].
    + apply elem_of_group_of in Hin. pose proof (Hlast p Hp).
      exists x. split_and!; [set_solver|lia..|done].
    + exists q. split_and!; [set_solver|done..|]. by rewrite m_get_add_group, decide_False.
Qed.

Lemma elem_of_add_interior g acc i :
  i ∈ add_interior acc g <-> i ∈ acc \/ (i ∈ g /\ i ≠ min_of g).
Proof.
  unfold add_interior. generalize (min_of g) as m. intros m. revert acc.
  induction g as [|x g IH]; intros acc; simpl; [set_solver|].
  rewrite IH. case_decide; rewrite ?elem_of_s_add, ?elem_of_cons; naive_solver.
Qed.

Lemma elem_of_interiors gs acc i :
  i ∈ foldl add_interior acc gs <-> i ∈ acc \/ exists g, g ∈ gs /\ i ∈ g /\ i ≠ min_of g.
Proof.
  revert acc. induction gs as [|g gs IH]; intros acc; simpl; [set_solver|].
  rewrite IH, elem_of_add_interior. set_solver.
Qed.

(** The interiors are the positions where a cut separates a pair. *)
Lemma interiors_separate messages s :
  s ∈ findAtomicGroupInteriors messages <-> separates (matchAssistantToolPairs messages) s.
Proof.
  pose proof (pairs_matching messages) as Hm.
  assert (Hlt : forall p, p ∈ matchAssistantToolPairs messages -> assistantIdx p < toolIdx p).
  { intros p Hp. by destruct (pair_bounds messages p Hp). }
  destruct (groups_cover _ Hlt (mt_sorted _ _ _ Hm)) as (Hnd & Hg & Hc).
  unfold findAtomicGroupInteriors. rewrite elem_of_interiors. unfold buildAtomicGroups. split.
  - intros [?%elem_of_nil|(g & Hgs & Hin & Hne)]; [done|].
    apply list_elem_of_fmap in Hgs as ([i g'] & -> & Hi). simpl in *.
    apply elem_m_get in Hi; [|done]. destruct (Hg _ _ Hi) as (p & Hp & ->).
    exists p. split; [done|]. specialize (Hlt p Hp).
    rewrite min_group_of in Hne by lia. apply elem_of_group_of in Hin. lia.
  - intros (p & Hp & Hs). right. destruct (Hc p Hp) as (q & Hq & ? & ? & Hgq).
    exists (group_of q). split_and!.
    + apply list_elem_of_fmap. exists (assistantIdx q, group_of q). split; [done|]. by apply m_get_elem.
    + apply elem_of_group_of. lia.
    + rewrite min_group_of by (specialize (Hlt q Hq); lia). lia.
Qed.

Lemma valid_split_points_exact messages k :
  findValidSplitPoints messages k =
  filter (fun s => ~ separates (matchAssistantToolPairs messages) s)
    (seq 1 (Z.to_nat (Z.of_nat (length messages) - k))).
Proof.
  unfold findValidSplitPoints. case_bool_decide as Hk.
  - by replace (Z.to_nat (Z.of_nat (length messages) - k)) with 0 by lia.
  - apply list_filter_iff. intros s. by rewrite interiors_separate.
Qed.

Lemma elem_of_valid_split_points messages k s :
  s ∈ findValidSplitPoints messages k <->
  1 <= s /\ (Z.of_nat s <= Z.of_nat (length messages) - k)%Z /\
  ~ separates (matchAssistantToolPairs messages) s.
Proof. rewrite valid_split_points_exact, list_elem_of_filter, elem_of_seq. split; intros; split_and!; try tauto; lia. Qed.

(** ** What a cut keeps *)

(** The ends of different pairs are different. *)
Lemma pair_ends messages p q :
  p ∈ matchAssistantToolPairs messages -> q ∈ matchAssistantToolPairs messages ->
  (assistantIdx p = assistantIdx q -> p = q) /\ (toolIdx p = toolIdx q -> p = q) /\
  assistantIdx p ≠ toolIdx q.
Proof.
  intros Hp Hq. pose proof (pairs_matching messages) as Hm. split_and!.
  - intros Ha. apply list_elem_of_lookup in Hp as [i Hi]. apply list_elem_of_lookup in Hq as [j Hj].
    enough (i = j) by congruence. apply (NoDup_lookup _ i j (assistantIdx p) (mt_once _ _ _ Hm));
      rewrite list_lookup_fmap, ?Hi, ?Hj; simpl; congruence.
  - intros Ht. pose proof (mt_sorted _ _ _ Hm) as Hs.
    apply list_elem_of_split in Hp as (l1 & l2 & Heq). rewrite Heq in Hs, Hq.
    apply elem_of_app in Hq as [Hq|[->|Hq]%elem_of_cons]; [|done|].
    + pose proof (StronglySorted_app_1_elem_of _ _ _ q p Hs Hq (list_elem_of_here _ _)). simpl in *. lia.
    + apply StronglySorted_app_1_r, StronglySorted_inv in Hs as [_ Hs].
      rewrite Forall_forall in Hs. specialize (Hs q Hq). simpl in Hs. lia.
  - intros Ha. destruct (mt_valid _ _ _ Hm p Hp) as [_ (c & (m & Hm1 & Hs1 & _) & _)].
    destruct (mt_valid _ _ _ Hm q Hq) as [_ (c' & _ & (m' & Hm2 & Hs2 & _))].
    rewrite Ha, Hm2 in Hm1. simplify_eq. rewrite Hs1 in Hs2. discriminate.
Qed.

Definition partner_of (messages : list M) (i j : nat) : Prop :=
  exists p, p ∈ matchAssistantToolPairs messages /\
    ((i = assistantIdx p /\ j = toolIdx p) \/ (i = toolIdx p /\ j = assistantIdx p)).

Lemma pair_partners_exact messages i j :
  m_get i (buildPairPartners messages) = Some j <-> partner_of messages i j.
Proof.
  unfold buildPairPartners, partner_of. pose proof (pair_ends messages) as He. revert He.
  generalize (matchAssistantToolPairs messages) as ps. intros ps He.
  apply (foldl_ind (fun seen gs => m_get i gs = Some j <-> exists p, p ∈ seen /\
    ((i = assistantIdx p /\ j = toolIdx p) \/ (i = toolIdx p /\ j = assistantIdx p)))).
  { split; [done|]. by intros (p & ?%elem_of_nil & _). }
  intros seen x rest gs -> IH. rewrite !m_get_set.
  assert (Hx : forall q, q ∈ seen -> (assistantIdx q = assistantIdx x -> q = x) /\
    (toolIdx q = toolIdx x -> q = x) /\ assistantIdx q ≠ toolIdx x /\ assistantIdx x ≠ toolIdx q).
  { intros q Hq. destruct (He q x) as (? & ? & ?); [set_solver..|].
    destruct (He x q) as (_ & _ & ?); [set_solver..|]. done. }
  destruct (He x x) as (_ & _ & Hself); [set_solver..|].
  setoid_rewrite elem_of_app. setoid_rewrite list_elem_of_singleton.
  case_decide as H1; [|case_decide as H2].
  - subst i. split; [intros [= <-]; exists x; tauto|]. intros (p & [Hp| ->] & Hpp).
    + destruct (Hx p Hp) as (? & Ht & ? & ?). destruct Hpp as [[? ?]|[? ->]]; [congruence|].
      by rewrite (Ht ltac:(congruence)).
    + destruct Hpp as [[? ?]|[_ ->]]; [congruence|done].
  - subst i. split; [intros [= <-]; exists x; tauto|]. intros (p & [Hp| ->] & Hpp).
    + destruct (Hx p Hp) as (Ha & _ & ? & ?). destruct Hpp as [[? ->]|[? ?]]; [|congruence].
      by rewrite (Ha ltac:(congruence)).
    + destruct Hpp as [[_ ->]|[? ?]]; [done|congruence].
  - rewrite IH. split; [intros (p & ? & ?); exists p; tauto|].
    intros (p & [Hp| ->] & Hpp); [by exists p|]. destruct Hpp as [[? _]|[? _]]; congruence.
Qed.

Lemma elem_of_rescue_step messages s partners r k i :
  i ∈ rescue_step messages s partners r k <->
  i ∈ r \/ (pinned_at messages k = true /\ (i = k \/ (m_get k partners = Some i /\ i < s))).
Proof.
  unfold rescue_step. destruct (pinned_at messages k); [|intuition congruence].
  destruct (m_get k partners) as [q|]; [case_decide|]; rewrite ?elem_of_s_add;
    intuition (subst; auto; congruence).
Qed.

Lemma elem_of_rescue_fold messages s partners l acc i :
  i ∈ foldl (rescue_step messages s partners) acc l <->
  i ∈ acc \/ exists k, k ∈ l /\ pinned_at messages k = true /\
    (i = k \/ (m_get k partners = Some i /\ i < s)).
Proof.
  revert acc. induction l as [|k l IH]; intros acc; simpl.
  - split; [by left|]. intros [?|(k & ?%elem_of_nil & _)]; done.
  - rewrite IH, elem_of_rescue_step. setoid_rewrite elem_of_cons. split.
    + intros [[?|?]|(k' & ? & ?)]; [by left|right; exists k; tauto|right; exists k'; tauto].
    + intros [?|(k' & [->|?] & ?)]; [tauto|tauto|right; by exists k'].
Qed.

Lemma NoDup_rescue_fold messages s partners l acc :
  NoDup acc -> NoDup (foldl (rescue_step messages s partners) acc l).
Proof.
  intros Hacc. apply (foldl_ind (fun _ r => NoDup r)); [done|].
  intros _ k _ r _ Hr. unfold rescue_step. destruct (pinned_at messages k); [|done].
  destruct (m_get k partners); [case_decide|]; eauto using NoDup_s_add.
Qed.

Lemma elem_of_rescuedIndices messages s i :
  i ∈ rescuedIndices messages s <-> i < s /\ is_rescued messages s i.
Proof.
  unfold rescuedIndices, is_rescued. rewrite elem_of_rescue_fold.
  setoid_rewrite elem_of_seq. setoid_rewrite pair_partners_exact. unfold partner_of. split.
  - intros [?%elem_of_nil|(k & Hk & Hp & Hik)]; [done|].
    destruct Hik as [->|[(p & Hpin & Hpp) Hi]]; [split; [lia|by left]|].
    split; [lia|right]. exists p. split; [done|].
    destruct Hpp as [[-> ->]|[-> ->]]; [right|left]; split_and!; try done; lia.
  - intros [Hi [Hp|(p & Hpin & Hpp)]]; right.
    + exists i. split_and!; [lia..|done|by left].
    + destruct Hpp as [(-> & ? & ?)|(-> & ? & ?)].
      * exists (toolIdx p). split_and!; [lia..|done|]. right. split; [|done]. exists p. auto.
      * exists (assistantIdx p). split_and!; [lia..|done|]. right. split; [|done]. exists p. auto.
Qed.

Lemma StronglySorted_seq a n : StronglySorted Nat.le (seq a n).
Proof.
  revert a. induction n as [|n IH]; intros a; simpl; [constructor|].
  constructor; [done|]. apply Forall_forall. intros x Hx%elem_of_seq. unfold Nat.le. lia.
Qed.

Lemma rescue_sorted messages s :
  merge_sort Nat.le (rescuedIndices messages s) = filter (is_rescued messages s) (seq 0 s).
Proof.
  apply (StronglySorted_unique Nat.le).
  - apply StronglySorted_merge_sort; [intros x y z; unfold Nat.le; lia|intros x y; unfold Nat.le; lia].
  - apply StronglySorted_filter, StronglySorted_seq.
  - rewrite merge_sort_Permutation. apply NoDup_Permutation.
    + apply NoDup_rescue_fold. constructor.
    + apply NoDup_filter, NoDup_seq.
    + intros i. rewrite elem_of_rescuedIndices, list_elem_of_filter, elem_of_seq. split; intros; split; try tauto; lia.
Qed.

Lemma rescue_exact messages s :
  rescuePinnedGroups messages s =
  omap (fun i => messages !! i) (filter (is_rescued messages s) (seq 0 s)).
Proof.
  unfold rescuePinnedGroups. rewrite rescue_sorted.
  destruct (existsb (pinned_at messages) (seq 0 s)) eqn:He; [done|]. simpl.
  assert (Hn : forall i, i < s -> pinned_at messages i = false).
  { intros i Hi. destruct (pinned_at messages i) eqn:Hp; [|done]. rewrite <-not_true_iff_false in He.
    destruct He. apply existsb_exists. exists i. split; [|done]. apply in_seq. lia. }
  assert (Hf : filter (is_rescued messages s) (seq 0 s) = []); [|by rewrite Hf].
  apply elem_of_nil_inv. intros i [Hr Hi%elem_of_seq]%list_elem_of_filter. revert Hr. unfold is_rescued.
  rewrite (Hn i) by lia. intros [?|(p & _ & [(_ & ? & Hp)|(_ & ? & Hp)])]; [done|..];
    rewrite Hn in Hp by lia; done.
Qed.

Lemma omap_lookup_drop {A} (l : list A) s n :
  length l - s <= n -> omap (fun i => l !! i) (seq s n) = drop s l.
Proof.
  revert s. induction n as [|n IH]; intros s Hn; simpl.
  - by rewrite drop_ge by lia.
  - destruct (l !! s) as [x|] eqn:Hx.
    + rewrite IH by lia. by rewrite (drop_S l x s).
    + apply lookup_ge_None in Hx. rewrite IH by lia. by rewrite !drop_ge by lia.
Qed.

(** The compacted history is the messages at the kept indices. *)
Lemma tail_exact messages s :
  buildTailWithRescued messages s = omap (fun i => messages !! i) (kept_indices messages s).
Proof.
  unfold buildTailWithRescued, kept_indices. rewrite omap_app, <-rescue_exact, omap_lookup_drop by lia.
  case_decide as Hl; [|done]. by apply nil_length_inv in Hl as ->.
Qed.

Lemma elem_of_kept messages s i :
  i ∈ kept_indices messages s <->
  (i < s /\ is_rescued messages s i) \/ s <= i < length messages.
Proof. unfold kept_indices. rewrite elem_of_app, list_elem_of_filter, !elem_of_seq. split; intros; intuition lia. Qed.

(** ** The matching is determined by its description *)

Lemma matching_agrees messages n ps ps' p :
  matching messages n ps -> matching messages n ps' ->
  (forall q, toolIdx q < toolIdx p -> q ∈ ps <-> q ∈ ps') ->
  p ∈ ps -> p ∈ ps'.
Proof.
  intros Hm Hm' IH Hp. destruct (mt_valid _ _ _ Hm p Hp) as [Hlt (c & Hcall & Hans)].
  assert (Honce : forall ps q q', matching messages n ps -> q ∈ ps -> q' ∈ ps ->
    assistantIdx q = assistantIdx q' -> q = q').
  { clear. intros ps q q' Hm Hq Hq' Ha.
    apply list_elem_of_lookup in Hq as [i Hi]. apply list_elem_of_lookup in Hq' as [j Hj].
    enough (i = j) by congruence. apply (NoDup_lookup _ i j (assistantIdx q) (mt_once _ _ _ Hm));
      rewrite list_lookup_fmap, ?Hi, ?Hj; simpl; congruence. }
  destruct (mt_greedy _ _ _ Hm' (toolIdx p) c) as [(p' & Hp' & Ht)|Hall]; [lia|done| |].
  - destruct (mt_valid _ _ _ Hm' p' Hp') as [Hlt' (c' & Hcall' & Hans')].
    rewrite Ht in Hans', Hlt'. rewrite (is_answer_inj _ _ _ _ Hans' Hans) in *.
    destruct (decide (assistantIdx p = assistantIdx p')) as [Ha|Ha].
    { destruct p, p'; simpl in *. congruence. }
    exfalso. destruct (decide (assistantIdx p < assistantIdx p')).
    + destruct (mt_nearest _ _ _ Hm p c (assistantIdx p')) as (q & Hq & Hqa & Hqt); [done..|lia|].
      rewrite IH in Hq by done. pose proof (Honce _ _ _ Hm' Hq Hp' Hqa). subst q. lia.
    + destruct (mt_nearest _ _ _ Hm' p' c (assistantIdx p)) as (q & Hq & Hqa & Hqt);
        [done|by rewrite Ht|done|lia|].
      rewrite <-IH in Hq by lia. pose proof (Honce _ _ _ Hm Hq Hp Hqa). subst q. lia.
  - destruct (Hall (assistantIdx p)) as (q & Hq & Hqa & Hqt); [lia|done|].
    rewrite <-IH in Hq by lia. pose proof (Honce _ _ _ Hm Hq Hp Hqa). subst q. lia.
Qed.

Lemma matching_unique messages n ps ps' :
  matching messages n ps -> matching messages n ps' -> ps = ps'.
Proof.
  intros Hm Hm'.
  assert (Heq : forall t p, toolIdx p < t -> p ∈ ps <-> p ∈ ps').
  { induction t as [|t IH]; intros p Ht; [lia|].
    split; intros Hp; [apply (matching_agrees messages n ps)|apply (matching_agrees messages n ps')];
      try done; intros q Hq; [|symmetry]; apply IH; lia. }
  assert (Hnd : forall l, StronglySorted (fun p q => toolIdx p < toolIdx q) l -> NoDup l).
  { clear. induction 1 as [|p l Hl IH Hx]; constructor; [|done]. intros Hp.
    rewrite Forall_forall in Hx. specialize (Hx p Hp). lia. }
  apply (StronglySorted_unique_strong (fun p q => toolIdx p < toolIdx q)); try apply Hm; try apply Hm'.
  - intros p q _ _ ? ?. lia.
  - apply NoDup_Permutation; [apply Hnd, Hm|apply Hnd, Hm'|]. intros p. apply (Heq (S (toolIdx p))). lia.
Qed.

(** [matchAssistantToolPairs] computes exactly one thing: the pairing in
    which every result takes the nearest earlier call with its id that no
    earlier result took, results without such a call stay unpaired, no call is
    taken twice and pairs come in the order of their results. *)
Lemma pairs_exact (messages : list M) (ps : list AssistantToolPair) :
  matching messages (length messages) ps <-> ps = matchAssistantToolPairs messages.
Proof.
  split; [|intros ->; apply pairs_matching].
  intros Hm. exact (matching_unique messages _ _ _ Hm (pairs_matching messages)).
Qed.

Lemma kept_sorted messages s : StronglySorted Nat.le (kept_indices messages s).
Proof.
  unfold kept_indices. apply StronglySorted_app_2.
  - intros x y [_ Hx%elem_of_seq]%list_elem_of_filter Hy%elem_of_seq. unfold Nat.le. lia.
  - apply StronglySorted_filter, StronglySorted_seq.
  - apply StronglySorted_seq.
Qed.

Lemma is_rescued_call messages s p :
  p ∈ matchAssistantToolPairs messages ->
  is_rescued messages s (assistantIdx p) <->
  pinned_at messages (assistantIdx p) = true \/
  (toolIdx p < s /\ pinned_at messages (toolIdx p) = true).
Proof.
  intros Hp. unfold is_rescued. split.
  - intros [?|(q & Hq & Hc)]; [by left|].
    destruct (pair_ends messages p q Hp Hq) as (Ha & _ & ?).
    destruct Hc as [(Hqa & ? & ?)|(? & _)]; [|done]. rewrite (Ha Hqa). by right.
  - intros [?|[? ?]]; [by left|right]. exists p. split; [done|]. by left.
Qed.

Lemma is_rescued_answer messages s p :
  p ∈ matchAssistantToolPairs messages ->
  is_rescued messages s (toolIdx p) <->
  pinned_at messages (toolIdx p) = true \/
  (assistantIdx p < s /\ pinned_at messages (assistantIdx p) = true).
Proof.
  intros Hp. unfold is_rescued. split.
  - intros [?|(q & Hq & Hc)]; [by left|].
    destruct (pair_ends messages p q Hp Hq) as (_ & Ht & _).
    destruct (pair_ends messages q p Hq Hp) as (_ & _ & ?).
    destruct Hc as [(? & _)|(Hqt & ? & ?)]; [congruence|]. rewrite (Ht Hqt). by right.
  - intros [?|[? ?]]; [by left|right]. exists p. split; [done|]. by right.
Qed.

Lemma kept_pairs messages s p :
  ~ separates (matchAssistantToolPairs messages) s -> s <= length messages ->
  p ∈ matchAssistantToolPairs messages ->
  assistantIdx p ∈ kept_indices messages s <-> toolIdx p ∈ kept_indices messages s.
Proof.
  intros Hsep Hs Hp. pose proof (pair_bounds messages p Hp) as Hb. rewrite !elem_of_kept.
  destruct (decide (s <= assistantIdx p)); [split; intros _; right; lia|].
  assert (toolIdx p < s) by (apply not_le; intros ?; destruct Hsep; exists p; split; [done|lia]).
  rewrite is_rescued_call, is_rescued_answer by done.
  split; (intros [[_ [?|[_ ?]]]|?]; [left; split; [lia|]..|lia]); auto with lia.
Qed.

(** C12: cutting a history at a valid split point and rescuing pinned messages
    keeps messages in order; keeps a call exactly when it keeps its result;
    keeps every pinned message, everything from the cut on and at least the
    requested number of recent messages. *)
Theorem compaction_keeps_pairs (messages : list M) (preserveRecent : Z) (s : nat) :
  (0 <= preserveRecent)%Z -> s ∈ findValidSplitPoints messages preserveRecent ->
  let kept := kept_indices messages s in
  buildTailWithRescued messages s = omap (fun i => messages !! i) kept /\
  StronglySorted Nat.le kept /\
  (forall p, p ∈ matchAssistantToolPairs messages -> assistantIdx p ∈ kept <-> toolIdx p ∈ kept) /\
  (forall i, pinned_at messages i = true -> i ∈ kept) /\
  (forall i, s <= i < length messages -> i ∈ kept) /\
  (preserveRecent <= Z.of_nat (length messages - s))%Z.
Proof.
  intros Hk Hs kept. apply elem_of_valid_split_points in Hs as (H1 & H2 & Hsep).
  assert (Hle : s <= length messages) by lia.
  split; [apply tail_exact|]. split; [apply kept_sorted|].
  split; [intros p Hp; by apply kept_pairs|]. split; [|split; [|lia]].
  - intros i Hi. apply elem_of_kept. destruct (decide (i < s)); [left; split; [done|by left]|right].
    unfold pinned_at in Hi. destruct (messages !! i) eqn:Hl; [|done]. apply lookup_lt_Some in Hl. lia.
  - intros i Hi. apply elem_of_kept. by right.
Qed.

End Pairs.

#[export] Instance inbound_message : Message InboundMessage := fun msg => msg.

Definition sample_message (sender text : string) (callId : option string) (pinned : bool) : InboundMessage :=
  mkMessage [B_text text] sender None 0
    (match callId with Some c => Some [("callId", JStr c)] | None => None end)
    (if pinned then Some true else None).

Lemma compaction_keeps_pairs_witness :
  let messages := [sample_message "user" "a" None false;
    sample_message "assistant" "b" (Some "c1") true; sample_message "tool" "c" (Some "c1") false;
    sample_message "user" "d" None false; sample_message "user" "e" None false] in
  3 ∈ findValidSplitPoints messages 2 /\
  length (buildTailWithRescued messages 3) = 4 /\
  (forall i, pinned_at messages i = true -> i ∈ kept_indices messages 3).
Proof.
  intros messages.
  assert (Hs : 3 ∈ findValidSplitPoints messages 2) by (apply (bool_decide_eq_true _); reflexivity).
  split; [exact Hs|split; [reflexivity|]].
  destruct (compaction_keeps_pairs messages 2 3 ltac:(lia) Hs) as (_ & _ & _ & Hp & _). exact Hp.
Defined.
