(* ===== verification/Compaction.v ===== *)
(** * Compaction of a message history

    [lib/context-manager/src]: the decision whether to compact ([policy.ts]),
    the two ways to choose a cut ([find-split.ts], [micro-compact.ts]), removal
    of old tool results ([selective-prune.ts]), back-off after failures
    ([backoff.ts]) and the retry around a model call ([overflow-recovery.ts]).
    The token estimator is a parameter, so is the type of message objects.
    Fractions of the window are exact rationals: rounding of doubles is not
    modelled. *)

From Stdlib Require Import QArith.QArith_base QArith.Qround.
From S2P Require Import Prelude JsMap SessionRepair PairBoundaries.

Local Open Scope string_scope.
Local Open Scope list_scope.
Local Open Scope nat_scope.

(** ** policy.ts *)

Inductive CompactionDecision : Type := D_noop | D_micro | D_full.

Definition shouldCompact (totalTokens contextWindowSize : Z)
    (softTriggerFraction hardTriggerFraction : Q) : CompactionDecision :=
  if (contextWindowSize <=? 0)%Z then D_noop
  else
    let hardThreshold := (inject_Z contextWindowSize * hardTriggerFraction)%Q in
    let softThreshold := (inject_Z contextWindowSize * softTriggerFraction)%Q in
    if Qle_bool hardThreshold (inject_Z totalTokens) then D_full
    else if Qle_bool softThreshold (inject_Z totalTokens) then D_micro
    else D_noop.

(** ** Estimators, results and events *)

Record TokenEstimator (M : Type) : Type := mkEstimator {
  estimateText : string -> Z;
  estimateMessages : list M -> Z
}.
Arguments mkEstimator {M}.
Arguments estimateText {M}.
Arguments estimateMessages {M}.

Definition block_tokens (block : ContentBlock) : Z :=
  match block with
  | B_text text => (Z.of_nat (String.length text) + 3) / 4
  | _ => 100
  end%Z.

(** [FALLBACK_ESTIMATOR] of [fallback-estimator.ts]. *)
Definition FALLBACK_ESTIMATOR {M : Type} `{Message M} : TokenEstimator M :=
  mkEstimator (fun text => (Z.of_nat (String.length text) + 3) / 4)%Z
    (fun messages =>
       foldl (fun total msg =>
                foldl (fun t block => t + block_tokens block) (total + 4) (im_content (as_message msg)))
         0 messages)%Z.

Record CompactionResult (M : Type) : Type := mkCompaction {
  cr_messages : list M;
  cr_originalTokens : Z;
  cr_compactedTokens : Z;
  cr_strategy : string
}.
Arguments mkCompaction {M}.
Arguments cr_messages {M}.
Arguments cr_originalTokens {M}.
Arguments cr_compactedTokens {M}.
Arguments cr_strategy {M}.

Record SummaryAnchor : Type := mkAnchor {
  sa_fromTimestamp : Z;
  sa_toTimestamp : Z;
  sa_tokensBefore : Z;
  sa_tokensAfter : Z
}.

Inductive CompactionEvent : Type :=
  | E_triggered (signal : CompactionDecision) (tokensBefore contextWindow : Z)
  | E_completed (signal : CompactionDecision) (tokensBefore tokensAfter : Z)
      (summaryAnchor : option SummaryAnchor)
  | E_pruned (pairsRemoved : nat) (tokensSaved : Z).

Record SelectivePruneResult (M : Type) : Type := mkPrune {
  pr_messages : list M;
  pr_pairsRemoved : nat;
  pr_tokensSaved : Z;
  pr_events : list CompactionEvent
}.
Arguments mkPrune {M}.
Arguments pr_messages {M}.
Arguments pr_pairsRemoved {M}.
Arguments pr_tokensSaved {M}.
Arguments pr_events {M}.

Section Compaction.
Context {M : Type} `{Message M}.
Context (estimator : TokenEstimator M).

(** ** find-split.ts *)

Definition fits (messages : list M) (budget : Z) (s : nat) : bool :=
  (estimateMessages estimator (buildTailWithRescued messages s) <=? budget)%Z.

Definition findOptimalSplit (messages : list M) (validSplitPoints : list nat)
    (contextWindowSize maxSummaryTokens : Z) : Z :=
  if decide (length messages = 0 \/ length validSplitPoints = 0) then (-1)%Z
  else
    let budget := (contextWindowSize - maxSummaryTokens)%Z in
    match List.find (fits messages budget) (rev validSplitPoints) with
    | Some splitIdx => Z.of_nat splitIdx
    | None => (-1)%Z
    end.

(** ** micro-compact.ts *)

Definition noopResult (messages : list M) (tokenCount : Z) : CompactionResult M :=
  mkCompaction messages tokenCount tokenCount "noop".

Definition microcompact (messages : list M) (targetTokens preserveRecent : Z) : CompactionResult M :=
  let originalTokens := estimateMessages estimator messages in
  if (originalTokens <=? targetTokens)%Z then noopResult messages originalTokens
  else
    let validSplitPoints := findValidSplitPoints messages preserveRecent in
    if decide (length validSplitPoints = 0) then noopResult messages originalTokens
    else
      match List.find (fits messages targetTokens) validSplitPoints with
      | Some splitIdx =>
          let tail := buildTailWithRescued messages splitIdx in
          mkCompaction tail originalTokens (estimateMessages estimator tail) "micro-truncate"
      | None =>
          match last validSplitPoints with
          | Some lastSplit =>
              let tail := buildTailWithRescued messages lastSplit in
              mkCompaction tail originalTokens (estimateMessages estimator tail)
                "micro-truncate-partial"
          | None => noopResult messages originalTokens
          end
      end.

(** ** selective-prune.ts *)

Definition both_ends (pairs : list AssistantToolPair) : list nat :=
  foldl (fun acc p => s_add (toolIdx p) (s_add (assistantIdx p) acc)) [] pairs.

(** [matchedPairs.slice(-k)] for a positive [k]. *)
Definition slice_last {A : Type} (k : Z) (l : list A) : list A :=
  drop (length l - Z.to_nat k) l.

Definition pairs_to_remove (pairs : list AssistantToolPair) (prunePreserveLastK : Z) :
    list AssistantToolPair :=
  let pairsToKeep := if (0 <? prunePreserveLastK)%Z then slice_last prunePreserveLastK pairs else [] in
  let keepIndices := both_ends pairsToKeep in
  filter (fun p => assistantIdx p ∉ keepIndices \/ toolIdx p ∉ keepIndices) pairs.

Definition selectivelyPrune (messages : list M) (prunePreserveLastK : Z) : SelectivePruneResult M :=
  let matchedPairs := matchAssistantToolPairs messages in
  let pairsToRemove := pairs_to_remove matchedPairs prunePreserveLastK in
  if decide (length pairsToRemove = 0) then mkPrune messages 0 0 []
  else
    let indicesToRemove := both_ends pairsToRemove in
    let prunedMessages :=
      omap (fun p => if decide (p.1 ∈ indicesToRemove) then None else Some p.2)
        (zip (seq 0 (length messages)) messages) in
    let tokensBefore := estimateMessages estimator messages in
    let tokensAfter := estimateMessages estimator prunedMessages in
    let tokensSaved := Z.max 0 (tokensBefore - tokensAfter) in
    mkPrune prunedMessages (length pairsToRemove) tokensSaved
      [E_pruned (length pairsToRemove) tokensSaved].
End Compaction.

(** ** backoff.ts *)

Record ResolvedCompactionPolicy : Type := mkPolicy {
  rp_contextWindow : Z;
  rp_softTriggerFraction : Q;
  rp_hardTriggerFraction : Q;
  rp_prunePreserveLastK : Z
}.

Record CompactionState : Type := mkCState {
  cs_epoch : Z;
  cs_currentTurn : Z;
  cs_lastTokenFraction : Q;
  cs_consecutiveFailures : Z;
  cs_skipUntilTurn : Z;
  cs_resolvedPolicy : ResolvedCompactionPolicy
}.

Definition set_backoff (state : CompactionState) (failures skipUntil : Z) : CompactionState :=
  mkCState (cs_epoch state) (cs_currentTurn state) (cs_lastTokenFraction state) failures skipUntil
    (cs_resolvedPolicy state).

Definition shouldSkip (state : CompactionState) : bool :=
  ((cs_currentTurn state <=? cs_skipUntilTurn state) && (0 <? cs_skipUntilTurn state))%Z.

Definition recordFailure (initialSkip cap : Z) (state : CompactionState) : CompactionState :=
  let failures := (cs_consecutiveFailures state + 1)%Z in
  let rawSkip := (initialSkip * 2 ^ (failures - 1))%Z in
  let skip := Z.min rawSkip cap in
  set_backoff state failures (cs_currentTurn state + skip)%Z.

Definition recordSuccess (state : CompactionState) : CompactionState :=
  set_backoff state 0 0.

(** ** overflow-recovery.ts

    [execute] and [recover] act on a state [S] and return or throw; the error
    of a failed recovery carries the overflow error as its cause. *)

Inductive RecoveryError (E : Type) : Type :=
  | Thrown (error : E)
  | RecoveryFailed (cause : E).
Arguments Thrown {E}.
Arguments RecoveryFailed {E}.

Section Overflow.
Context {S T E : Type}.
Context (isContextOverflowError : E -> bool).
Context (execute : S -> Result T E * S) (recover : S -> Result unit E * S).

(** The [for (;;)] loop; [None] when the fuel runs out. *)
Fixpoint recovery_loop (fuel : nat) (retriesLeft : Z) (s : S) : option (Result T (RecoveryError E) * S) :=
  match fuel with
  | O => None
  | Datatypes.S fuel =>
      match execute s with
      | (Ok v, s1) => Some (Ok v, s1)
      | (Err error, s1) =>
          if negb (isContextOverflowError error) || (retriesLeft <=? 0)%Z then Some (Err (Thrown error), s1)
          else
            match recover s1 with
            | (Ok _, s2) => recovery_loop fuel (retriesLeft - 1) s2
            | (Err _, s2) => Some (Err (RecoveryFailed error), s2)
            end
      end
  end.

Definition wrapWithOverflowRecovery (maxRetries : Z) (s : S) : option (Result T (RecoveryError E) * S) :=
  recovery_loop (Datatypes.S (Z.to_nat maxRetries)) maxRetries s.
End Overflow.

(** ** Searches *)

Lemma find_first {A} (f : A -> bool) (l : list A) :
  match List.find f l with
  | Some x => exists l1 l2, l = l1 ++ x :: l2 /\ f x = true /\ forall y, y ∈ l1 -> f y = false
  | None => forall y, y ∈ l -> f y = false
  end.
Proof.
  induction l as [|x l IH]; simpl; [by intros y ?%elem_of_nil|].
  destruct (f x) eqn:Hf; [exists [], l; split_and!; try done; by intros y ?%elem_of_nil|].
  destruct (List.find f l) as [z|].
  - destruct IH as (l1 & l2 & -> & ? & Hl). exists (x :: l1), l2. split_and!; [done..|].
    intros y [->|Hy]%elem_of_cons; auto.
  - intros y [->|Hy]%elem_of_cons; auto.
Qed.

Lemma split_sorted {A} (R : relation A) l1 x l2 y :
  StronglySorted R (l1 ++ x :: l2) -> y ∈ l1 ++ x :: l2 -> y ∈ l1 \/ y = x \/ R x y.
Proof.
  intros Hs [Hy|[->|Hy]%elem_of_cons]%elem_of_app; [by left|by right; left|right; right].
  apply StronglySorted_app_1_r, StronglySorted_inv in Hs as [_ Hs].
  rewrite Forall_forall in Hs. by apply Hs.
Qed.

Lemma StronglySorted_seq_lt a n : StronglySorted lt (seq a n).
Proof.
  revert a. induction n as [|n IH]; intros a; simpl; [constructor|].
  constructor; [done|]. apply Forall_forall. intros x Hx%elem_of_seq. lia.
Qed.

Section Cuts.
Context {M : Type} `{Message M}.
Context (estimator : TokenEstimator M).

Lemma split_points_sorted (messages : list M) k : StronglySorted lt (findValidSplitPoints messages k).
Proof. rewrite valid_split_points_exact. apply StronglySorted_filter, StronglySorted_seq_lt. Qed.

(** [microcompact] does nothing when the history is within the target or cannot
    be cut; otherwise it cuts at the first point that meets the target, and at
    the last point when none does. *)
Lemma microcompact_cases (messages : list M) target k :
  let total := estimateMessages estimator messages in
  let points := findValidSplitPoints messages k in
  let r := microcompact estimator messages target k in
  let cut s strategy := mkCompaction (buildTailWithRescued messages s) total
    (estimateMessages estimator (buildTailWithRescued messages s)) strategy in
  (((total <= target)%Z \/ points = []) /\ r = noopResult messages total) \/
  ((target < total)%Z /\ exists s, s ∈ points /\ r = cut s "micro-truncate" /\
     fits estimator messages target s = true /\
     forall s', s' ∈ points -> s' < s -> fits estimator messages target s' = false) \/
  ((target < total)%Z /\ exists s, s ∈ points /\ r = cut s "micro-truncate-partial" /\
     forall s', s' ∈ points -> s' <= s /\ fits estimator messages target s' = false).
Proof.
  intros total points r cut. subst r. unfold microcompact. fold total. fold points.
  destruct (Z.leb_spec total target) as [Ht|Ht]; [left; split; [by left|done]|].
  case_decide as Hl; [apply nil_length_inv in Hl; left; split; [by right|done]|right].
  pose proof (split_points_sorted messages k) as Hs. fold points in Hs.
  pose proof (find_first (fits estimator messages target) points) as Hf.
  destruct (List.find (fits estimator messages target) points) as [s|].
  - left. split; [done|]. destruct Hf as (l1 & l2 & Hp & Hfit & Hno). exists s.
    split_and!; [rewrite Hp; set_solver|done..|]. intros s' Hs' Hlt.
    rewrite Hp in Hs, Hs'. destruct (split_sorted _ _ _ _ _ Hs Hs') as [?|[->|?]]; [auto|lia|lia].
  - right. split; [done|]. destruct (last points) as [s|] eqn:Hlast.
    2: { apply last_None in Hlast. by rewrite Hlast in Hl. }
    exists s. apply last_Some in Hlast as [l1 Hp].
    split_and!; [rewrite Hp; set_solver|done|]. intros s' Hs'. split; [|by apply Hf].
    rewrite Hp in Hs, Hs'. apply elem_of_app in Hs' as [Hs'| ->%list_elem_of_singleton]; [|done].
    pose proof (StronglySorted_app_1_elem_of _ _ _ s' s Hs Hs' (list_elem_of_here _ _)). lia.
Qed.

(** [findOptimalSplit] returns the last split point whose tail leaves room for
    the summary, and [-1] when there is none. *)
Lemma findOptimalSplit_cases (messages : list M) k window summary :
  (0 <= k)%Z ->
  let points := findValidSplitPoints messages k in
  let ok := fits estimator messages (window - summary)%Z in
  (findOptimalSplit estimator messages points window summary = (-1)%Z /\
     forall s, s ∈ points -> ok s = false) \/
  (exists s, s ∈ points /\ findOptimalSplit estimator messages points window summary = Z.of_nat s /\
     ok s = true /\ forall s', s' ∈ points -> s < s' -> ok s' = false).
Proof.
  intros Hk points ok. unfold findOptimalSplit. fold ok. case_decide as Hl.
  - left. split; [done|]. intros s Hs. exfalso. pose proof Hs as Hv.
    apply elem_of_valid_split_points in Hv as (H1 & H2 & _).
    destruct Hl as [Hl|Hl]; [lia|]. apply nil_length_inv in Hl. rewrite Hl in Hs. by apply elem_of_nil in Hs.
  - pose proof (StronglySorted_rev _ _ (split_points_sorted messages k)) as Hs. fold points in Hs.
    pose proof (find_first ok (rev points)) as Hf. destruct (List.find ok (rev points)) as [s|].
    + right. destruct Hf as (l1 & l2 & Hp & Hfit & Hno). exists s.
      split_and!; [rewrite <-elem_of_rev, Hp; set_solver|done..|]. intros s' Hs' Hlt.
      rewrite Hp in Hs. rewrite <-elem_of_rev, Hp in Hs'. 
      destruct (split_sorted _ _ _ _ _ Hs Hs') as [?|[->|Hgt]]; [auto|lia|unfold flip in Hgt; lia].
    + left. split; [done|]. intros s Hs'. apply Hf. by rewrite elem_of_rev.
Qed.
End Cuts.

(** ** Pruning *)

Section Pruning.
Context {M : Type} `{Message M}.

Lemma elem_of_both_ends pairs i :
  i ∈ both_ends pairs <-> exists p, p ∈ pairs /\ (i = assistantIdx p \/ i = toolIdx p).
Proof.
  unfold both_ends. cut (forall acc, i ∈ foldl (fun acc p => s_add (toolIdx p) (s_add (assistantIdx p) acc)) acc pairs
    <-> i ∈ acc \/ exists p, p ∈ pairs /\ (i = assistantIdx p \/ i = toolIdx p)).
  { intros Hc. rewrite Hc. set_solver. }
  induction pairs as [|p pairs IH]; intros acc; simpl; [set_solver|].
  rewrite IH, !elem_of_s_add. setoid_rewrite elem_of_cons. split.
  - intros [[->|[->|?]]|(q & ? & ?)]; [right; exists p|right; exists p|left|right; exists q]; auto.
  - intros [?|(q & [->|?] & ?)]; [auto|tauto|right; by exists q].
Qed.

(** What is removed: all pairs but the last [k]. *)
Lemma pairs_to_remove_exact (messages : list M) k :
  pairs_to_remove (matchAssistantToolPairs messages) k =
  take (length (matchAssistantToolPairs messages) - Z.to_nat k) (matchAssistantToolPairs messages).
Proof.
  pose proof (pair_ends messages) as He. pose proof (mt_sorted _ _ _ (pairs_matching messages)) as Hs.
  unfold pairs_to_remove, slice_last. revert He Hs. generalize (matchAssistantToolPairs messages) as ps.
  intros ps He Hs. set (n := length ps - Z.to_nat k).
  assert (Hk : (if (0 <? k)%Z then drop n ps else []) = drop n ps).
  { destruct (Z.ltb_spec 0 k); [done|]. subst n. rewrite drop_ge; [done|lia]. }
  rewrite Hk. set (P := fun p => assistantIdx p ∉ both_ends (drop n ps) \/ toolIdx p ∉ both_ends (drop n ps)).
  transitivity (filter P (take n ps ++ drop n ps)); [by rewrite take_drop|]. rewrite filter_app.
  assert (Hkeep : filter P (drop n ps) = []).
  { apply elem_of_nil_inv. intros p [[Hp|Hp] Hin]%list_elem_of_filter; destruct Hp;
      apply elem_of_both_ends; exists p; auto. }
  rewrite Hkeep, app_nil_r. apply filter_all. intros p Hp. left.
  rewrite elem_of_both_ends. intros (q & Hq & Hpq).
  assert (Hlt : toolIdx p < toolIdx q).
  { rewrite <-(take_drop n ps) in Hs. exact (StronglySorted_app_1_elem_of _ _ _ p q Hs Hp Hq). }
  assert (Hpin : p ∈ ps) by (rewrite <-(take_drop n ps); set_solver).
  assert (Hqin : q ∈ ps) by (rewrite <-(take_drop n ps); set_solver).
  destruct (He p q Hpin Hqin) as (Ha & _ & ?). destruct Hpq as [Hpq|?]; [|done].
  rewrite (Ha Hpq) in Hlt. lia.
Qed.

Lemma filter_indices (I : list nat) (messages pre l : list M) :
  messages = pre ++ l ->
  omap (fun p : nat * M => if decide (p.1 ∈ I) then None else Some p.2)
    (zip (seq (length pre) (length l)) l) =
  omap (fun i => messages !! i) (filter (fun i => i ∉ I) (seq (length pre) (length l))).
Proof.
  revert pre. induction l as [|x l IH]; intros pre Heq; simpl; [done|].
  assert (Hx : messages !! length pre = Some x) by (subst; apply lookup_middle).
  specialize (IH (pre ++ [x])). rewrite length_app, Nat.add_1_r, <-app_assoc in IH. specialize (IH Heq).
  rewrite filter_cons. destruct (decide (length pre ∈ I)) as [Hin|Hin].
  - rewrite decide_False by tauto. exact IH.
  - rewrite decide_True by done. simpl. rewrite Hx. by f_equal.
Qed.

(** Pruning removes both ends of every matched pair except the last [k]
    pairs, and nothing else: a message survives exactly when it is not an end
    of an older pair, whatever the estimator says. *)
Lemma prune_exact (estimator : TokenEstimator M) (messages : list M) (k : Z) :
  let pairs := matchAssistantToolPairs messages in
  let removed := take (length pairs - Z.to_nat k) pairs in
  let r := selectivelyPrune estimator messages k in
  pr_messages r = omap (fun i => messages !! i)
    (filter (fun i => i ∉ both_ends removed) (seq 0 (length messages))) /\
  pr_pairsRemoved r = length removed /\
  (0 <= pr_tokensSaved r)%Z /\
  (forall p, p ∈ pairs -> p ∈ removed \/ (assistantIdx p ∉ both_ends removed /\ toolIdx p ∉ both_ends removed)).
Proof.
  intros pairs removed r.
  assert (Hrest : forall p, p ∈ pairs -> p ∈ removed \/
    (assistantIdx p ∉ both_ends removed /\ toolIdx p ∉ both_ends removed)).
  { intros p Hp. destruct (decide (Exists (fun q => toolIdx q = toolIdx p) removed)) as [Hq|Hq].
    - left. apply Exists_exists in Hq as (q & Hq & Ht). assert (Hqp : q ∈ pairs).
      { rewrite <-(take_drop (length pairs - Z.to_nat k) pairs). apply elem_of_app. by left. }
      destruct (pair_ends messages q p Hqp Hp) as (_ & He & _). by rewrite <-(He Ht).
    - right. rewrite !elem_of_both_ends. assert (Hno : forall q, q ∈ removed -> q ∈ pairs /\ toolIdx q ≠ toolIdx p).
      { intros q Hqr. split; [rewrite <-(take_drop (length pairs - Z.to_nat k) pairs); apply elem_of_app; by left|].
        intros Ht. apply Hq, Exists_exists. by exists q. }
      split; intros (q & Hqr & Hqp); destruct (Hno q Hqr) as [Hqq Hne];
        destruct (pair_ends messages p q Hp Hqq) as (Ha & Ht & Hat);
        destruct (pair_ends messages q p Hqq Hp) as (_ & _ & Hta); destruct Hqp as [Hqp|Hqp]; try congruence.
      destruct Hne. by rewrite (Ha Hqp). }
  split; [|split; [|split; [|exact Hrest]]]; subst r; unfold selectivelyPrune;
    rewrite pairs_to_remove_exact; fold pairs; fold removed; case_decide as Hl; simpl; try done; try lia.
  - apply nil_length_inv in Hl. rewrite Hl. rewrite filter_all by (intros i _; apply not_elem_of_nil).
    rewrite omap_lookup_drop by lia. done.
  - exact (filter_indices (both_ends removed) messages [] messages eq_refl).
Qed.
End Pruning.

(** A pinned call and its result are pruned like any other pair, although a
    pinned message must survive compaction verbatim. *)
Lemma pruning_drops_pinned :
  let messages := [sample_message "user" "a" None false;
    sample_message "assistant" "b" (Some "c1") true; sample_message "tool" "c" (Some "c1") true] in
  pr_messages (selectivelyPrune FALLBACK_ESTIMATOR messages 0) = [sample_message "user" "a" None false].
Proof. reflexivity. Qed.

(** ** Back-off *)

(** After a failure the next turn is skipped, later turns are skipped for no
    longer than the cap, and a success ends the back-off. *)
Lemma backoff_bounds initialSkip cap state turn :
  (0 < initialSkip)%Z -> (0 < cap)%Z -> (0 <= cs_currentTurn state)%Z ->
  (0 <= cs_consecutiveFailures state)%Z ->
  let state' := recordFailure initialSkip cap state in
  let at_turn t := mkCState (cs_epoch state') t (cs_lastTokenFraction state')
    (cs_consecutiveFailures state') (cs_skipUntilTurn state') (cs_resolvedPolicy state') in
  shouldSkip (at_turn (cs_currentTurn state + 1)%Z) = true /\
  ((cs_currentTurn state + cap < turn)%Z -> shouldSkip (at_turn turn) = false) /\
  shouldSkip (recordSuccess (at_turn turn)) = false.
Proof.
  intros Hi Hc Ht Hf state' at_turn. unfold shouldSkip; simpl.
  assert (Hpow : (1 <= initialSkip * 2 ^ (cs_consecutiveFailures state + 1 - 1))%Z).
  { pose proof (Z.pow_pos_nonneg 2 (cs_consecutiveFailures state + 1 - 1) ltac:(lia) ltac:(lia)). nia. }
  split; [|split]; [apply andb_true_iff; split; lia|intros ?; apply andb_false_iff; left; lia|].
  apply andb_false_iff. right. lia.
Qed.

(** ** Overflow recovery *)

Section OverflowProofs.
Context {S T E : Type}.
Context (isOverflow : E -> bool) (execute : S -> Result T E * S) (recover : S -> Result unit E * S).

(** A run of the loop: attempts that overflow and are recovered from, then one
    last attempt. *)
Inductive attempts : nat -> S -> S -> Prop :=
  | at_none s : attempts 0 s s
  | at_more n s s1 s2 s3 e u : execute s = (Err e, s1) -> isOverflow e = true ->
      recover s1 = (Ok u, s2) -> attempts n s2 s3 -> attempts (Datatypes.S n) s s3.

Lemma recovery_loop_spec fuel retries s :
  (Z.to_nat retries < fuel) ->
  exists n s1, attempts n s s1 /\ n <= Z.to_nat retries /\
    match execute s1 with
    | (Ok v, s2) => recovery_loop isOverflow execute recover fuel retries s = Some (Ok v, s2)
    | (Err e, s2) =>
        (recovery_loop isOverflow execute recover fuel retries s = Some (Err (Thrown e), s2) /\
           (isOverflow e = false \/ n = Z.to_nat retries)) \/
        (isOverflow e = true /\ exists e' s3, recover s2 = (Err e', s3) /\
           recovery_loop isOverflow execute recover fuel retries s = Some (Err (RecoveryFailed e), s3))
    end.
Proof.
  revert retries s. induction fuel as [|fuel IH]; intros retries s Hf; [lia|]. simpl.
  destruct (execute s) as [[v|e] s1] eqn:He.
  - exists 0, s. split; [constructor|]. split; [lia|]. by rewrite He.
  - destruct (isOverflow e) eqn:Ho; simpl.
    2: { exists 0, s. split; [constructor|]. split; [lia|]. rewrite He. left. split; [done|by left]. }
    destruct (Z.leb_spec retries 0) as [Hr|Hr].
    { exists 0, s. split; [constructor|]. split; [lia|]. rewrite He. left. split; [done|right; lia]. }
    destruct (recover s1) as [[u|e'] s2] eqn:Hrec.
    + destruct (IH (retries - 1)%Z s2) as (n & s3 & Hat & Hn & Hres); [lia|].
      exists (Datatypes.S n), s3. split; [by eapply at_more|]. split; [lia|].
      destruct (execute s3) as [[v|e3] s4]; [done|].
      destruct Hres as [[? [?|?]]|?]; [left; auto| |by right]. left. split; [done|right; lia].
    + exists 0, s. split; [constructor|]. split; [lia|]. rewrite He. right. split; [done|]. by exists e', s2.
Qed.

(** Overflow recovery always returns, after at most [maxRetries] recovered
    attempts and one more call: the value of the last call, its error when it is
    no overflow or the retries are used up, or the failure of a recovery. *)
Lemma overflow_recovery_terminates (maxRetries : Z) (s : S) :
  exists n s1, attempts n s s1 /\ n <= Z.to_nat maxRetries /\
    match execute s1 with
    | (Ok v, s2) => wrapWithOverflowRecovery isOverflow execute recover maxRetries s = Some (Ok v, s2)
    | (Err e, s2) =>
        (wrapWithOverflowRecovery isOverflow execute recover maxRetries s = Some (Err (Thrown e), s2) /\
           (isOverflow e = false \/ n = Z.to_nat maxRetries)) \/
        (isOverflow e = true /\ exists e' s3, recover s2 = (Err e', s3) /\
           wrapWithOverflowRecovery isOverflow execute recover maxRetries s = Some (Err (RecoveryFailed e), s3))
    end.
Proof. apply recovery_loop_spec. lia. Qed.
End OverflowProofs.
