(* ===== verification/Replacement.v ===== *)
(** * Replacement of large tool results

    [lib/context-manager/src/replacement.ts]: a tool result above a token limit
    is stored and replaced by a preview with a reference; when the results of a
    message together are above a second limit, more are replaced, largest
    first.  The store is a type class with laws, and the in-memory store an
    instance for every injective hash.  The hash (SHA-256 of [node:crypto]) and
    number formatting ([toLocaleString]) are parameters.  A store that answers
    with promises is modelled with its [put] calls applied in call order. *)

From S2P Require Import Prelude JsMap SessionRepair PairBoundaries Compaction.

Local Open Scope string_scope.
Local Open Scope list_scope.
Local Open Scope nat_scope.

(** ** Stores: [ReplacementStore] of [kernel/core/src/replacement.ts] *)

Class ReplacementStore (St : Type) : Type := {
  store_put : string -> St -> string * St;
  store_get : string -> St -> option string;
  store_ok : St -> Prop
}.

(** "[get(put(content))] returns [content]", also after later calls. *)
Class ReplacementStoreLaws (St : Type) `{ReplacementStore St} : Prop := {
  put_get content st : store_ok st ->
    store_get (store_put content st).1 (store_put content st).2 = Some content;
  put_keeps content st ref old : store_ok st ->
    store_get ref st = Some old -> store_get ref (store_put content st).2 = Some old;
  put_ok content st : store_ok st -> store_ok (store_put content st).2
}.

(** [createInMemoryReplacementStore]. *)
Section Memory.
Context (sha256 : string -> string).

Definition mem_put (content : string) (store : list (string * string)) : string * list (string * string) :=
  let hash := sha256 content in (hash, m_set hash content store).

Definition mem_get (ref : string) (store : list (string * string)) : option string := m_get ref store.

Definition mem_cleanup (activeRefs : list string) (store : list (string * string)) : list (string * string) :=
  foldl (fun s key => if s_has key activeRefs then s else m_delete key s) store (m_keys store).

Definition mem_ok (store : list (string * string)) : Prop :=
  forall ref content, m_get ref store = Some content -> ref = sha256 content.

Definition memory_store : ReplacementStore (list (string * string)) :=
  {| store_put := mem_put; store_get := mem_get; store_ok := mem_ok |}.

Lemma memory_store_laws :
  (forall c c', sha256 c = sha256 c' -> c = c') ->
  @ReplacementStoreLaws (list (string * string)) memory_store.
Proof.
  intros Hinj. split; simpl; unfold mem_get, mem_ok.
  - intros content st _. by rewrite m_get_set_eq.
  - intros content st ref old Hok Hg. rewrite m_get_set. case_decide as Hr; [|done].
    f_equal. apply Hinj. rewrite Hr. by apply Hok.
  - intros content st Hok ref c. rewrite m_get_set. case_decide as Hr; [|apply Hok].
    intros [= <-]. done.
Qed.

Lemma mem_cleanup_get activeRefs store ref :
  mem_get ref (mem_cleanup activeRefs store) =
  if s_has ref activeRefs then mem_get ref store else None.
Proof.
  unfold mem_cleanup, mem_get.
  assert (Hf : forall keys (s : list (string * string)), m_get ref (foldl (fun s key => if s_has key activeRefs then s else m_delete key s) s keys)
    = if s_has ref activeRefs then m_get ref s else if decide (ref ∈ keys) then None else m_get ref s).
  { induction keys as [|k keys IH]; intros s; cbn [foldl].
    - destruct (s_has ref activeRefs); [done|]. case_decide as Hin; [by apply elem_of_nil in Hin|done].
    - rewrite IH. destruct (s_has ref activeRefs) eqn:Hr.
      + destruct (s_has k activeRefs) eqn:Hk; [done|]. by rewrite m_get_delete_ne by congruence.
      + destruct (decide (ref ∈ keys)) as [Hin|Hin].
        { by rewrite decide_True by (apply elem_of_cons; by right). }
        destruct (s_has k activeRefs) eqn:Hk.
        * rewrite decide_False; [done|]. apply not_elem_of_cons. split; [congruence|done].
        * rewrite m_get_delete. destruct (decide (k = ref)) as [->|Hne].
          -- by rewrite decide_True by apply list_elem_of_here.
          -- rewrite decide_False; [done|]. apply not_elem_of_cons. split; [congruence|done]. }
  rewrite Hf. destruct (s_has ref activeRefs); [done|]. case_decide as Hin; [done|].
  by apply not_elem_of_m_keys in Hin.
Qed.
End Memory.

(** ** Previews and outcomes *)

Inductive ReplacementOutcome : Type :=
  | RO_kept
  | RO_replaced (preview ref : string) (originalTokens previewTokens : Z).

Definition is_replaced (o : ReplacementOutcome) : bool :=
  match o with RO_kept => false | RO_replaced _ _ _ _ => true end.

Record ReplacementMessageOutcome : Type := mkMessageOutcome {
  mo_outcomes : list ReplacementOutcome;
  mo_totalSavedTokens : Z;
  mo_aggregateCapApplied : bool
}.

(** [content.slice(0, n)]. *)
Definition slice0 (n : Z) (content : string) : string :=
  String.substring 0
    (Z.to_nat (if n <? 0 then Z.max 0 (Z.of_nat (String.length content) + n) else n)%Z) content.

Definition nl : string := String (Ascii.ascii_of_nat 10) EmptyString.

Section Replacement.
Context (toLocaleString : Z -> string).
Context (estimateText : string -> Z).
Context {St : Type} `{ReplacementStore St}.

Definition generatePreview (content ref : string) (previewChars estimatedTokens : Z) : string :=
  let truncated := slice0 previewChars content in
  String.concat nl
    ["[Large result: " +:+ toLocaleString (Z.of_nat (String.length content)) +:+ " chars, ~" +:+
       toLocaleString estimatedTokens +:+ " tokens]";
     "Preview (first " +:+ toLocaleString previewChars +:+ " chars):";
     truncated;
     "...";
     "[Full content stored as ref:" +:+ ref +:+ ". Use retrieval tool to access.]"].

Definition buildReplacementOutcome (content ref : string) (previewChars estimatedTokens : Z) : ReplacementOutcome :=
  let preview := generatePreview content ref previewChars estimatedTokens in
  RO_replaced preview ref estimatedTokens ((Z.of_nat (String.length preview) + 3) / 4)%Z.

Definition doReplacement (content : string) (store : St) (previewChars maxResultTokens estimatedTokens : Z) :
    ReplacementOutcome * St :=
  if (estimatedTokens <=? maxResultTokens)%Z then (RO_kept, store)
  else
    let (ref, store') := store_put content store in
    (buildReplacementOutcome content ref previewChars estimatedTokens, store').

Definition evaluateReplacement (content : string) (store : St) (maxResultTokens previewChars : Z) :
    ReplacementOutcome * St :=
  doReplacement content store previewChars maxResultTokens (estimateText content).

(** ** [buildMessageOutcome] *)

Definition savedTokens (outcomes : list ReplacementOutcome) : Z :=
  foldl (fun acc o => match o with
                      | RO_replaced _ _ originalTokens previewTokens => acc + (originalTokens - previewTokens)
                      | RO_kept => acc
                      end)%Z 0%Z outcomes.

(** The tokens an outcome contributes to the conversation. *)
Definition outcome_tokens (o : ReplacementOutcome) (content : string) : Z :=
  match o with
  | RO_replaced preview _ _ _ => estimateText preview
  | RO_kept => estimateText content
  end.

Definition outcomes_total (outcomes : list ReplacementOutcome) (contents : list string) : Z :=
  foldr Z.add 0%Z (zip_with outcome_tokens outcomes contents).

(** The results not replaced yet, with their indices and sizes. *)
Definition unreplaced_of (outcomes : list ReplacementOutcome) (contents : list string) : list (nat * Z) :=
  omap (fun '(i, (o, content)) => if is_replaced o then None else Some (i, estimateText content))
    (zip (seq 0 (length outcomes)) (zip outcomes contents)).

(** [sort((a, b) => b.tokens - a.tokens)], which is stable. *)
Fixpoint insert_desc (x : nat * Z) (l : list (nat * Z)) : list (nat * Z) :=
  match l with
  | [] => [x]
  | y :: l' => if (y.2 <? x.2)%Z then x :: y :: l' else y :: insert_desc x l'
  end.

Definition sort_desc (l : list (nat * Z)) : list (nat * Z) := foldl (fun acc x => insert_desc x acc) [] l.

Fixpoint cap_loop (contents : list string) (maxMessageTokens previewChars : Z) (todo : list (nat * Z))
    (outcomes : list ReplacementOutcome) (totalTokens : Z) (store : St) (applied : bool) :
    list ReplacementOutcome * Z * St * bool :=
  match todo with
  | [] => (outcomes, totalTokens, store, applied)
  | (idx, contentTokens) :: todo' =>
      if (totalTokens <=? maxMessageTokens)%Z then (outcomes, totalTokens, store, applied)
      else
        match contents !! idx with
        | None => cap_loop contents maxMessageTokens previewChars todo' outcomes totalTokens store applied
        | Some content =>
            let (ref, store') := store_put content store in
            let preview := generatePreview content ref previewChars contentTokens in
            let previewTokens := estimateText preview in
            cap_loop contents maxMessageTokens previewChars todo'
              (<[idx := RO_replaced preview ref contentTokens previewTokens]> outcomes)
              (totalTokens - (contentTokens - previewTokens))%Z store' true
        end
  end.

Definition buildMessageOutcome (outcomes : list ReplacementOutcome) (contents : list string)
    (maxMessageTokens : Z) (store : St) (previewChars : Z) : ReplacementMessageOutcome * St :=
  let totalTokens := outcomes_total outcomes contents in
  if (totalTokens <=? maxMessageTokens)%Z then
    (mkMessageOutcome outcomes (savedTokens outcomes) false, store)
  else
    let '(mutableOutcomes, _, store', applied) :=
      cap_loop contents maxMessageTokens previewChars (sort_desc (unreplaced_of outcomes contents))
        outcomes totalTokens store false in
    (mkMessageOutcome mutableOutcomes (savedTokens mutableOutcomes) applied, store').

(** First pass of [evaluateMessageResults]. *)
Fixpoint evaluate_each (contents : list string) (store : St) (maxResultTokens previewChars : Z) :
    list ReplacementOutcome * St :=
  match contents with
  | [] => ([], store)
  | content :: rest =>
      let (o, store1) := evaluateReplacement content store maxResultTokens previewChars in
      let (os, store2) := evaluate_each rest store1 maxResultTokens previewChars in
      (o :: os, store2)
  end.

Definition evaluateMessageResults (contents : list string) (store : St)
    (maxResultTokens maxMessageTokens previewChars : Z) : ReplacementMessageOutcome * St :=
  let (outcomes, store1) := evaluate_each contents store maxResultTokens previewChars in
  buildMessageOutcome outcomes contents maxMessageTokens store1 previewChars.

Definition collectRefsFromOutcomes (outcomes : list ReplacementOutcome) : list string :=
  foldl (fun refs o => match o with RO_replaced _ ref _ _ => s_add ref refs | RO_kept => refs end)
    [] outcomes.

(** ** What the store holds afterwards *)

(** Every replaced result can be fetched under its reference. *)
Definition retrievable (contents : list string) (outcomes : list ReplacementOutcome) (st : St) : Prop :=
  Forall2 (fun o content => match o with
                            | RO_kept => True
                            | RO_replaced _ ref _ _ => store_get ref st = Some content
                            end) outcomes contents.
End Replacement.

Section ReplacementProofs.
Context (toLocaleString : Z -> string) (estimateText : string -> Z).
Context {St : Type} `{!ReplacementStore St} `{!ReplacementStoreLaws St}.

Definition keeps (st st' : St) : Prop :=
  store_ok st' /\ forall ref old, store_get ref st = Some old -> store_get ref st' = Some old.

Lemma keeps_refl st : store_ok st -> keeps st st.
Proof. done. Qed.

Lemma keeps_trans st1 st2 st3 : keeps st1 st2 -> keeps st2 st3 -> keeps st1 st3.
Proof. intros [? H1] [? H2]. split; auto. Qed.

Lemma keeps_put st content : store_ok st -> keeps st (store_put content st).2.
Proof. intros Hok. split; [by apply put_ok|]. intros. by apply put_keeps. Qed.

Lemma retrievable_keeps contents outcomes st st' :
  keeps st st' -> retrievable contents outcomes st -> retrievable contents outcomes st'.
Proof.
  intros [_ Hk] Hf. eapply Forall2_impl; [exact Hf|]. intros [|p r o t] c; [done|]. apply Hk.
Qed.

Lemma evaluate_each_spec contents st maxResult previewChars :
  store_ok st ->
  let r := evaluate_each toLocaleString estimateText contents st maxResult previewChars in
  keeps st r.2 /\ retrievable contents r.1 r.2 /\
  Forall2 (fun o content => o = RO_kept -> (estimateText content <= maxResult)%Z) r.1 contents.
Proof.
  revert st. induction contents as [|c contents IH]; intros st Hok; simpl.
  { split_and!; [by apply keeps_refl|constructor..]. }
  unfold evaluateReplacement, doReplacement. destruct (Z.leb_spec (estimateText c) maxResult) as [Hle|Hle].
  - specialize (IH st Hok). destruct (evaluate_each _ _ contents st maxResult previewChars) as [os st2].
    simpl in *. destruct IH as (Hk & Hr & Hf). split_and!; [done|by constructor..].
  - pose proof (keeps_put st c Hok) as Hkp. pose proof (put_get c st Hok) as Hg.
    destruct (store_put c st) as [ref st1]. simpl in *. specialize (IH st1 (proj1 Hkp)).
    destruct (evaluate_each _ _ contents st1 maxResult previewChars) as [os st2].
    simpl in *. destruct IH as (Hk & Hr & Hf). split_and!; [by eapply keeps_trans| |by constructor].
    constructor; [|done]. by apply Hk.
Qed.

(** ** The aggregate cap *)

Lemma outcomes_total_insert outcomes contents i o o' c :
  outcomes !! i = Some o -> contents !! i = Some c ->
  (outcomes_total estimateText (<[i := o']> outcomes) contents =
   outcomes_total estimateText outcomes contents - outcome_tokens estimateText o c
     + outcome_tokens estimateText o' c)%Z.
Proof.
  unfold outcomes_total. revert outcomes contents.
  induction i as [|i IH]; intros [|x os] [|y cs] Ho Hc; simplify_eq/=; [lia|].
  rewrite (IH os cs) by done. lia.
Qed.

Lemma insert_desc_perm x l : insert_desc x l ≡ₚ x :: l.
Proof. induction l as [|y l IH]; simpl; [done|]. case_match; [done|]. rewrite IH. apply Permutation_swap. Qed.

Lemma sort_desc_perm l : sort_desc l ≡ₚ l.
Proof.
  unfold sort_desc. cut (forall acc, foldl (fun acc x => insert_desc x acc) acc l ≡ₚ acc ++ l).
  { intros Hc. by rewrite Hc. }
  induction l as [|x l IH]; intros acc; simpl; [by rewrite app_nil_r|].
  rewrite IH, insert_desc_perm. apply Permutation_middle.
Qed.

Lemma unreplaced_shift a outcomes contents :
  omap (fun '(i, (o, content)) => if is_replaced o then None else Some (i, estimateText content))
    (zip (seq (S a) (length outcomes)) (zip outcomes contents)) =
  (fun p => (S p.1, p.2)) <$> omap (fun '(i, (o, content)) => if is_replaced o then None
     else Some (i, estimateText content)) (zip (seq a (length outcomes)) (zip outcomes contents)).
Proof.
  revert a contents. induction outcomes as [|o os IH]; intros a [|c cs]; simpl; try done.
  rewrite (IH (S a)). destruct (is_replaced o); simpl; [|f_equal]; reflexivity.
Qed.

Lemma unreplaced_spec outcomes contents :
  length outcomes = length contents ->
  NoDup (unreplaced_of estimateText outcomes contents).*1 /\
  forall i t, (i, t) ∈ unreplaced_of estimateText outcomes contents <->
    outcomes !! i = Some RO_kept /\ exists c, contents !! i = Some c /\ t = estimateText c.
Proof.
  revert contents. induction outcomes as [|o os IH]; intros [|c cs] Hl; try done.
  { split; [constructor|]. intros i t. split; [by intros ?%elem_of_nil|by intros [? _]]. }
  injection Hl as Hl. destruct (IH cs Hl) as [Hnd He]. clear IH.
  unfold unreplaced_of in *. simpl length. cbn [seq zip zip_with omap list_omap].
  rewrite unreplaced_shift.
  set (l := omap _ (zip (seq 0 (length os)) (zip os cs))) in *.
  assert (Hnd' : NoDup ((fun p : nat * Z => (S p.1, p.2)) <$> l).*1).
  { replace (((fun p : nat * Z => (S p.1, p.2)) <$> l).*1) with (S <$> l.*1)
      by (by rewrite <-!list_fmap_compose).
    apply NoDup_fmap_2; [|done]. intros x y. congruence. }
  assert (He' : forall i t, (i, t) ∈ (fun p : nat * Z => (S p.1, p.2)) <$> l <->
    exists j, i = S j /\ os !! j = Some RO_kept /\ exists c, cs !! j = Some c /\ t = estimateText c).
  { intros i t. rewrite list_elem_of_fmap. split.
    - intros ([j t'] & [= -> ->] & Hj). exists j. split; [done|]. by apply He.
    - intros (j & -> & Hj). exists (j, t). split; [done|]. by apply He. }
  assert (H0 : 0 ∉ ((fun p : nat * Z => (S p.1, p.2)) <$> l).*1).
  { intros ([j t] & Hj & (? & ? & _)%list_elem_of_fmap)%list_elem_of_fmap. simplify_eq. }
  destruct o as [|p r ot pt]; simpl.
  - split; [by constructor|]. intros [|i] t; rewrite elem_of_cons, He'; simpl; split.
    + intros [[= ->]|(j & ? & _)]; [split; [done|by exists c]|done].
    + intros [_ (c' & [= <-] & ->)]. by left.
    + intros [[=]|(j & [= <-] & ?)]. done.
    + intros Hi. right. by exists i.
  - split; [done|]. intros [|i] t; rewrite He'; simpl; split.
    + intros (j & ? & _). done.
    + by intros [[=] _].
    + intros (j & [= <-] & ?). done.
    + intros Hi. by exists i.
Qed.

Record cap_inv (contents : list string) (todo : list (nat * Z)) (outcomes : list ReplacementOutcome)
    (total : Z) (st : St) : Prop := {
  ci_total : total = outcomes_total estimateText outcomes contents;
  ci_retr : retrievable contents outcomes st;
  ci_ok : store_ok st;
  ci_nodup : NoDup todo.*1;
  ci_todo : forall i t, (i, t) ∈ todo -> outcomes !! i = Some RO_kept /\
    exists c, contents !! i = Some c /\ t = estimateText c;
  ci_kept : forall i, outcomes !! i = Some RO_kept -> i ∈ todo.*1
}.

Lemma cap_loop_spec contents maxMessage previewChars todo outcomes total st applied :
  cap_inv contents todo outcomes total st ->
  let '(os, total', st', _) :=
    cap_loop toLocaleString estimateText contents maxMessage previewChars todo outcomes total st applied in
  total' = outcomes_total estimateText os contents /\ retrievable contents os st' /\ keeps st st' /\
  ((total' <= maxMessage)%Z \/ forall i, os !! i ≠ Some RO_kept) /\
  (forall i, os !! i = Some RO_kept -> outcomes !! i = Some RO_kept).
Proof.
  revert outcomes total st applied.
  induction todo as [|[idx tok] todo IH]; intros outcomes total st applied [Ht Hr Hok Hnd Htodo Hkept]; simpl.
  { split_and!; try done. right. intros i Hi. by apply Hkept, elem_of_nil in Hi. }
  destruct (Z.leb_spec total maxMessage) as [Hle|Hle]; [split_and!; try done; by left|].
  destruct (Htodo idx tok) as (Ho & c & Hc & ->); [apply list_elem_of_here|]. rewrite Hc.
  pose proof (keeps_put st c Hok) as Hkp. pose proof (put_get c st Hok) as Hg.
  destruct (store_put c st) as [ref st1]. simpl in *.
  apply NoDup_cons in Hnd as [Hnin Hnd].
  set (preview := generatePreview _ _ _ _ _). set (o := RO_replaced _ _ _ _).
  specialize (IH (<[idx := o]> outcomes) (total - (estimateText c - estimateText preview))%Z st1 true).
  destruct (cap_loop _ _ _ _ _ todo _ _ _ _) as [[[os total'] st'] app].
  destruct IH as (H1 & H2 & H3 & H4 & H5).
  - split.
    + rewrite (outcomes_total_insert _ _ _ RO_kept o c) by done. simpl. lia.
    + apply (retrievable_keeps _ _ _ _ Hkp) in Hr. unfold retrievable in *.
      rewrite <-(list_insert_id contents idx c) by done. by apply Forall2_insert.
    + apply Hkp.
    + done.
    + intros i t Hi. destruct (Htodo i t) as (Hio & Hic); [by apply list_elem_of_further|].
      split; [|done]. rewrite list_lookup_insert_ne; [done|]. intros ->. apply Hnin.
      apply list_elem_of_fmap. by exists (i, t).
    + intros i Hi. destruct (decide (idx = i)) as [->|Hne].
      * apply list_lookup_insert_Some in Hi as [(_ & Hx & _)|[? _]]; [done|congruence].
      * rewrite list_lookup_insert_ne in Hi by done. specialize (Hkept i Hi).
        by apply elem_of_cons in Hkept as [->|].
  - split_and!; try done; [by eapply keeps_trans|]. intros i Hi. specialize (H5 i Hi).
    destruct (decide (idx = i)) as [->|Hne]; [done|]. by rewrite list_lookup_insert_ne in H5.
Qed.

(** After a message's tool results were evaluated, every replaced result can
    be fetched from the store under its reference, what was stored before still
    can, no result above the single-result limit is kept, and the results fit
    the message limit unless all of them are replaced. *)
Lemma replacement_sound (contents : list string) (st : St)
    (maxResultTokens maxMessageTokens previewChars : Z) :
  store_ok st ->
  let r := evaluateMessageResults toLocaleString estimateText contents st
             maxResultTokens maxMessageTokens previewChars in
  let outcomes := mo_outcomes r.1 in
  retrievable contents outcomes r.2 /\ keeps st r.2 /\
  (forall i content, outcomes !! i = Some RO_kept -> contents !! i = Some content ->
     (estimateText content <= maxResultTokens)%Z) /\
  ((outcomes_total estimateText outcomes contents <= maxMessageTokens)%Z \/
   forall i, outcomes !! i ≠ Some RO_kept).
Proof.
  intros Hok r outcomes. subst outcomes r. unfold evaluateMessageResults.
  pose proof (evaluate_each_spec contents st maxResultTokens previewChars Hok) as He.
  destruct (evaluate_each _ _ contents st maxResultTokens previewChars) as [os st1]. simpl in He.
  destruct He as (Hk & Hr & Hf).
  assert (Hres : forall i content, os !! i = Some RO_kept -> contents !! i = Some content ->
    (estimateText content <= maxResultTokens)%Z).
  { intros i content Ho Hc. by apply (Forall2_lookup_lr _ _ _ _ _ _ Hf Ho Hc). }
  unfold buildMessageOutcome.
  destruct (Z.leb_spec (outcomes_total estimateText os contents) maxMessageTokens) as [Hle|Hle]; simpl.
  { split_and!; try done; [apply Hk..|by left]. }
  assert (Hlen : length os = length contents) by by eapply Forall2_length.
  destruct (unreplaced_spec os contents Hlen) as [Hnd Hun].
  pose proof (cap_loop_spec contents maxMessageTokens previewChars
    (sort_desc (unreplaced_of estimateText os contents)) os (outcomes_total estimateText os contents) st1 false) as Hc.
  destruct (cap_loop _ _ _ _ _ _ os _ st1 false) as [[[os' total'] st'] app]. simpl.
  destruct Hc as (-> & H2 & H3 & H4 & H5).
  - split; try done.
    + apply Hk.
    + by rewrite sort_desc_perm.
    + intros i t. rewrite sort_desc_perm. apply Hun.
    + intros i Hi. rewrite sort_desc_perm. destruct (lookup_lt_is_Some_2 contents i) as [c Hci].
      { rewrite <-Hlen. by apply lookup_lt_Some in Hi. }
      apply list_elem_of_fmap. exists (i, estimateText c). split; [done|]. apply Hun. split; [done|]. by exists c.
  - split; [done|]. split; [by eapply keeps_trans|]. split; [|done].
    intros i content Ho Hci. by apply (Hres i); auto.
Qed.
End ReplacementProofs.

Lemma replacement_sound_witness :
  let toLocale := fun z => pretty z in
  let estimate := fun text => Z.of_nat (String.length text) in
  let contents := ["0123456789"; "abc"; "abcdefgh"] in
  let _ := memory_store (fun c => c) in
  let r := evaluateMessageResults toLocale estimate contents ([] : list (string * string)) 100 160 2 in
  mo_aggregateCapApplied (evaluateMessageResults toLocale estimate contents ([] : list (string * string)) 100 20 2).1 = true /\
  retrievable contents (mo_outcomes r.1) r.2.
Proof.
  intros toLocale estimate contents M r. split; [vm_compute; reflexivity|].
  assert (Hlaws : @ReplacementStoreLaws _ M) by (apply memory_store_laws; auto).
  assert (Hok : store_ok ([] : list (string * string))) by (intros ref c; discriminate).
  exact (proj1 (replacement_sound toLocale estimate contents [] 100 160 2 Hok)).
Defined.
