(* ===== verification/Budget.v ===== *)
(** * Token budget of a turn and the default context engine

    [lib/context-manager/src/enforce-budget.ts]: the cascade replacement, policy,
    pruning, micro or full compaction.  [lib/context-manager/src/create-context-engine.ts]:
    the validation of its options and the engine built on the cascade.  Equality
    on [M] is identity of message objects, which is how dropped messages are
    computed.  The [onBeforeDrop] callback answers [Some e] when it throws [e];
    estimators and stores that throw are not modelled: their error leaves the
    function. *)

From Stdlib Require Import QArith.QArith_base QArith.Qround QArith.Qreduction.
From S2P Require Import Prelude JsMap SessionRepair PairBoundaries Compaction Replacement.

Local Open Scope string_scope.
Local Open Scope list_scope.
Local Open Scope nat_scope.

(** ** Configuration *)

Record BudgetConfig (M : Type) : Type := mkBudget {
  bc_contextWindowSize : option Z;
  bc_preserveRecent : option Z;
  bc_prunePreserveLastK : option Z;
  bc_tokenEstimator : option (TokenEstimator M);
  bc_softTriggerFraction : option Q;
  bc_hardTriggerFraction : option Q;
  bc_microTargetFraction : option Q;
  bc_maxResultTokens : option Z;
  bc_maxMessageTokens : option Z;
  bc_previewChars : option Z;
  bc_maxSummaryTokens : option Z;
  bc_onBeforeDrop : option (list M -> option jsval)
}.
Arguments mkBudget {M}.
Arguments bc_contextWindowSize {M}.
Arguments bc_preserveRecent {M}.
Arguments bc_prunePreserveLastK {M}.
Arguments bc_tokenEstimator {M}.
Arguments bc_softTriggerFraction {M}.
Arguments bc_hardTriggerFraction {M}.
Arguments bc_microTargetFraction {M}.
Arguments bc_maxResultTokens {M}.
Arguments bc_maxMessageTokens {M}.
Arguments bc_previewChars {M}.
Arguments bc_maxSummaryTokens {M}.
Arguments bc_onBeforeDrop {M}.

Definition default_config {M : Type} : BudgetConfig M :=
  mkBudget None None None None None None None None None None None None.

(** [COMPACTION_DEFAULTS], through the [??] operators of [enforceBudget]. *)
Section Defaults.
Context {M : Type} `{Message M}.
Context (config : BudgetConfig M).

Definition contextWindowSize : Z := default 200000%Z (bc_contextWindowSize config).
Definition preserveRecent : Z := default 4%Z (bc_preserveRecent config).
Definition prunePreserveLastK : Z := default 3%Z (bc_prunePreserveLastK config).
Definition estimator : TokenEstimator M := default FALLBACK_ESTIMATOR (bc_tokenEstimator config).
Definition softFraction : Q := default (1 # 2)%Q (bc_softTriggerFraction config).
Definition hardFraction : Q := default (3 # 4)%Q (bc_hardTriggerFraction config).
Definition microTarget : Q := default (35 # 100)%Q (bc_microTargetFraction config).
Definition maxResultTokens : Z := default 12500%Z (bc_maxResultTokens config).
Definition maxMessageTokens : Z := default 50000%Z (bc_maxMessageTokens config).
Definition previewChars : Z := default 2048%Z (bc_previewChars config).
Definition maxSummaryTokens : Z := default 1000%Z (bc_maxSummaryTokens config).

(** [Math.floor(contextWindowSize * microTarget)]. *)
Definition microLimit : Z := Qfloor (inject_Z contextWindowSize * microTarget).
End Defaults.

(** ** Results *)

Record ReplacementInfo : Type := mkInfo {
  ri_previews : list string;
  ri_outcomes : list ReplacementOutcome;
  ri_tokensSaved : Z;
  ri_activeRefs : list string
}.

(** The spread [...preservation]: empty, or failed with an error. *)
Definition PreservationStatus : Type := option jsval.

Inductive BudgetEnforcementResult (M : Type) : Type :=
  | BR_noop (messages : list M) (totalTokens : Z) (events : list CompactionEvent)
      (replacement : option ReplacementInfo)
  | BR_micro (messages : list M) (originalTokens compactedTokens : Z) (strategy : string)
      (events : list CompactionEvent) (replacement : option ReplacementInfo)
      (droppedMessages : option (list M)) (preservation : PreservationStatus)
  | BR_full (messages : list M) (splitIdx totalTokens : Z) (events : list CompactionEvent)
      (replacement : option ReplacementInfo) (droppedMessages : option (list M))
      (preservation : PreservationStatus).
Arguments BR_noop {M}.
Arguments BR_micro {M}.
Arguments BR_full {M}.

(** [result.messages], which every variant has. *)
Definition result_messages {M : Type} (r : BudgetEnforcementResult M) : list M :=
  match r with
  | BR_noop messages _ _ _ => messages
  | BR_micro messages _ _ _ _ _ _ _ => messages
  | BR_full messages _ _ _ _ _ _ => messages
  end.

Inductive NewToolResults : Type :=
  | NR_one (text : string)
  | NR_many (texts : list string).

Section Budget.
Context {M : Type} `{Message M} `{EqDecision M}.
Context (toLocaleString : Z -> string).
Context {St : Type} `{ReplacementStore St}.

(** ** Dropped messages *)

Definition computeDroppedMessages (allMessages : list M) (splitIdx : Z) : list M :=
  if (splitIdx <=? 0)%Z then []
  else
    let rescued := rescuePinnedGroups allMessages (Z.to_nat splitIdx) in
    filter (fun msg => msg ∉ rescued) (take (Z.to_nat splitIdx) allMessages).

Definition computeRemovedMessages (original surviving : list M) : list M :=
  filter (fun msg => msg ∉ surviving) original.

Definition buildSummaryAnchor (est : TokenEstimator M) (droppedMessages : list M) (tokensAfter : Z) :
    option SummaryAnchor :=
  match head droppedMessages, last droppedMessages with
  | Some firstDropped, Some lastDropped =>
      Some (mkAnchor (im_timestamp (as_message firstDropped)) (im_timestamp (as_message lastDropped))
              (estimateMessages est droppedMessages) tokensAfter)
  | _, _ => None
  end.

Definition fireOnBeforeDrop (config : BudgetConfig M) (dropped : list M) : PreservationStatus :=
  match bc_onBeforeDrop config with
  | None => None
  | Some callback => if decide (length dropped = 0) then None else callback dropped
  end.

Definition some_if_any (dropped : list M) : option (list M) :=
  if decide (length dropped = 0) then None else Some dropped.

(** ** Stage 1: new tool results *)

Definition sum_text (est : TokenEstimator M) (texts : list string) : Z :=
  foldl (fun total text => total + estimateText est text)%Z 0%Z texts.

Definition preview_text (o : ReplacementOutcome) (original : string) : string :=
  match o with RO_replaced preview _ _ _ => preview | RO_kept => original end.

Definition ingest (config : BudgetConfig M) (store : option St) (newToolResults : option NewToolResults) :
    option ReplacementInfo * Z * option St :=
  match newToolResults with
  | None => (None, 0%Z, store)
  | Some nr =>
      let results := match nr with NR_one text => [text] | NR_many texts => texts end in
      match store with
      | Some st =>
          let (messageOutcome, st') :=
            evaluateMessageResults toLocaleString (estimateText (estimator config)) results st
              (maxResultTokens config) (maxMessageTokens config) (previewChars config) in
          let outcomes := mo_outcomes messageOutcome in
          let previews := zip_with preview_text outcomes results in
          let info :=
            if existsb is_replaced outcomes then
              Some (mkInfo previews outcomes (mo_totalSavedTokens messageOutcome)
                      (collectRefsFromOutcomes outcomes))
            else None in
          (info, sum_text (estimator config) previews, Some st')
      | None => (None, sum_text (estimator config) results, None)
      end
  end.

(** ** Stage 5: full compaction *)

Definition full_compaction (config : BudgetConfig M) (messages workingMessages : list M)
    (totalTokens newResultTokens : Z) (events : list CompactionEvent)
    (info : option ReplacementInfo) : BudgetEnforcementResult M :=
  let est := estimator config in
  let validSplitPoints := findValidSplitPoints workingMessages (preserveRecent config) in
  let splitIdx := findOptimalSplit est workingMessages validSplitPoints
                    (contextWindowSize config - newResultTokens) (maxSummaryTokens config) in
  let found := (0 <=? splitIdx)%Z in
  let fullSurvivingMessages :=
    if found then buildTailWithRescued workingMessages (Z.to_nat splitIdx) else workingMessages in
  let droppedMessages := computeRemovedMessages messages fullSurvivingMessages in
  let compactionDroppedMessages :=
    if found then computeDroppedMessages workingMessages splitIdx else [] in
  let reserved := if found then maxSummaryTokens config else 0%Z in
  let summaryAnchor := buildSummaryAnchor est compactionDroppedMessages reserved in
  let preservation := fireOnBeforeDrop config droppedMessages in
  let survivingTokens := estimateMessages est fullSurvivingMessages in
  let tokensAfter := (survivingTokens + newResultTokens + reserved)%Z in
  BR_full workingMessages splitIdx totalTokens
    (events ++ [E_completed D_full totalTokens tokensAfter summaryAnchor]) info
    (some_if_any droppedMessages) preservation.

(** Stages 2 to 5. *)
Definition compact_history (config : BudgetConfig M) (messages : list M)
    (newResultTokens : Z) (info : option ReplacementInfo) : BudgetEnforcementResult M :=
  let est := estimator config in
  let totalTokens := (estimateMessages est messages + newResultTokens)%Z in
  let window := contextWindowSize config in
  let decision := shouldCompact totalTokens window (softFraction config) (hardFraction config) in
  match decision with
  | D_noop => BR_noop messages totalTokens [] info
  | _ =>
      let pruneResult := selectivelyPrune est messages (prunePreserveLastK config) in
      let workingMessages := pr_messages pruneResult in
      let events := pr_events pruneResult ++ [E_triggered decision totalTokens window] in
      match decision with
      | D_micro =>
          let targetTokens := (microLimit config - newResultTokens)%Z in
          let result := microcompact est workingMessages targetTokens (preserveRecent config) in
          if (cr_compactedTokens result + newResultTokens <=? microLimit config)%Z then
            let droppedMessages := computeRemovedMessages messages (cr_messages result) in
            let compactionDroppedMessages := computeRemovedMessages workingMessages (cr_messages result) in
            let summaryAnchor := buildSummaryAnchor est compactionDroppedMessages 0 in
            let preservation := fireOnBeforeDrop config droppedMessages in
            BR_micro (cr_messages result) (cr_originalTokens result) (cr_compactedTokens result)
              (cr_strategy result)
              (events ++ [E_completed D_micro totalTokens
                            (cr_compactedTokens result + newResultTokens) summaryAnchor])
              info (some_if_any droppedMessages) preservation
          else full_compaction config messages workingMessages totalTokens newResultTokens events info
      | _ => full_compaction config messages workingMessages totalTokens newResultTokens events info
      end
  end.

Definition enforceBudget (messages : list M) (store : option St) (config : BudgetConfig M)
    (newToolResults : option NewToolResults) : BudgetEnforcementResult M * option St :=
  let '(info, newResultTokens, store') := ingest config store newToolResults in
  (compact_history config messages newResultTokens info, store').

(** ** The context engine *)

Record EngineState : Type := mkEngine { es_perTurnTokens : list (string * Z); es_store : option St }.

Definition prepare (options : BudgetConfig M) (turnId : string) (messages : list M) (engine : EngineState) :
    list M * EngineState :=
  let (result, store') := enforceBudget messages (es_store engine) options None in
  let estimated := estimateMessages (estimator options) (result_messages result) in
  (result_messages result, mkEngine (m_set turnId estimated (es_perTurnTokens engine)) store').

Definition onAfterTurn (turnId : string) (engine : EngineState) : EngineState :=
  mkEngine (m_delete turnId (es_perTurnTokens engine)) (es_store engine).

Record ContextOccupancy : Type := mkOccupancy {
  co_estimatedTokens : Z;
  co_maxTokens : Z;
  co_pressure : Q
}.

Definition describeOccupancy (options : BudgetConfig M) (engine : EngineState) : ContextOccupancy :=
  let peak := foldl (fun peak v => if (peak <? v)%Z then v else peak) 0%Z (m_values (es_perTurnTokens engine)) in
  let maxTokens := contextWindowSize options in
  mkOccupancy peak maxTokens
    (if (0 <? maxTokens)%Z then
       let p := (inject_Z peak / inject_Z maxTokens)%Q in if Qle_bool p 1 then p else 1%Q
     else 0%Q).
End Budget.

(** ** Validation of engine options *)

(** A value of the option bag, as far as the checks look at it. *)
Inductive cfg_value : Type :=
  | CV_undefined
  | CV_number (q : Q)
  | CV_nonfinite
  | CV_string (s : string)
  | CV_other.

Inductive BudgetError : Type :=
  | UnknownKeys (keys : list string)
  | NotNonNegative (key : string)
  | ModelIdNotString
  | FractionRange (key : string)
  | WindowNotPositive
  | KnobNotPositive (key : string)
  | PruneNotInteger
  | MicroNotBelowSoft
  | SoftAboveHard.

Definition NUMERIC_BUDGET_KEYS : list string :=
  ["contextWindowSize"; "preserveRecent"; "prunePreserveLastK"; "softTriggerFraction";
   "hardTriggerFraction"; "microTargetFraction"; "maxResultTokens"; "maxMessageTokens";
   "previewChars"; "maxSummaryTokens"].

Definition ALLOWED_MANIFEST_CONFIG_KEYS : list string := NUMERIC_BUDGET_KEYS ++ ["modelId"].

Definition coerceFiniteNumber (key : string) (value : cfg_value) : Result Q BudgetError :=
  match value with
  | CV_number q => if Qle_bool 0 q then Ok q else Err (NotNonNegative key)
  | _ => Err (NotNonNegative key)
  end.

(** The loop over the numeric keys. *)
Fixpoint collect_numeric (keys : list string) (cfg : list (string * cfg_value))
    (out : list (string * Q)) : Result (list (string * Q)) BudgetError :=
  match keys with
  | [] => Ok out
  | key :: keys' =>
      match default CV_undefined (m_get key cfg) with
      | CV_undefined => collect_numeric keys' cfg out
      | v => match coerceFiniteNumber key v with
             | Ok q => collect_numeric keys' cfg (m_set key q out)
             | Err e => Err e
             end
      end
  end.

Definition Qlt_bool (x y : Q) : bool := negb (Qle_bool y x).

(** A check on a key that applies when the key is present. *)
Definition present (out : list (string * Q)) (key : string) (ok : Q -> bool) : bool :=
  match m_get key out with Some q => ok q | None => true end.

Definition present2 (out : list (string * Q)) (key1 key2 : string) (ok : Q -> Q -> bool) : bool :=
  match m_get key1 out, m_get key2 out with Some q1, Some q2 => ok q1 q2 | _, _ => true end.

Definition is_fraction (q : Q) : bool := Qlt_bool 0 q && Qle_bool q 1.
Definition is_integer (q : Q) : bool := Pos.eqb (Qden (Qred q)) 1.

Definition budget_checks (out : list (string * Q)) : list (bool * BudgetError) :=
  [ (present out "softTriggerFraction" is_fraction, FractionRange "softTriggerFraction");
    (present out "hardTriggerFraction" is_fraction, FractionRange "hardTriggerFraction");
    (present out "microTargetFraction" is_fraction, FractionRange "microTargetFraction");
    (present out "contextWindowSize" (Qlt_bool 0), WindowNotPositive);
    (present out "maxResultTokens" (Qlt_bool 0), KnobNotPositive "maxResultTokens");
    (present out "maxMessageTokens" (Qlt_bool 0), KnobNotPositive "maxMessageTokens");
    (present out "previewChars" (Qlt_bool 0), KnobNotPositive "previewChars");
    (present out "prunePreserveLastK" is_integer, PruneNotInteger);
    (present2 out "microTargetFraction" "softTriggerFraction" Qlt_bool, MicroNotBelowSoft);
    (present2 out "softTriggerFraction" "hardTriggerFraction" Qle_bool, SoftAboveHard) ].

Fixpoint first_failure {E : Type} (checks : list (bool * E)) : option E :=
  match checks with
  | [] => None
  | (ok, e) :: rest => if ok then first_failure rest else Some e
  end.

Definition checkBudgetInvariants (out : list (string * Q)) : option BudgetError :=
  first_failure (budget_checks out).

Definition modelId_of (cfg : list (string * cfg_value)) : Result (option string) BudgetError :=
  match default CV_undefined (m_get "modelId" cfg) with
  | CV_undefined => Ok None
  | CV_string s => Ok (Some s)
  | _ => Err ModelIdNotString
  end.

Definition validateManifestBudget (cfg : list (string * cfg_value)) :
    Result (list (string * Q) * option string) BudgetError :=
  let unknown := filter (fun k => k ∉ ALLOWED_MANIFEST_CONFIG_KEYS) (m_keys cfg) in
  if decide (0 < length unknown) then Err (UnknownKeys unknown)
  else
    match collect_numeric NUMERIC_BUDGET_KEYS cfg [] with
    | Err e => Err e
    | Ok out =>
        match modelId_of cfg with
        | Err e => Err e
        | Ok modelId =>
            match checkBudgetInvariants out with
            | Some e => Err e
            | None => Ok (out, modelId)
            end
        end
    end.

Definition validateDirectOptions (opts : list (string * cfg_value)) : option BudgetError :=
  match collect_numeric NUMERIC_BUDGET_KEYS opts [] with
  | Err e => Some e
  | Ok numeric => checkBudgetInvariants numeric
  end.

(** ** The budget is respected *)

Lemma Qle_bool_false x y : Qle_bool x y = false -> (y < x)%Q.
Proof.
  intros Hf. apply Qnot_le_lt. intros Hle. apply Qle_bool_iff in Hle. congruence.
Qed.

Lemma shouldCompact_cases total window soft hard :
  match shouldCompact total window soft hard with
  | D_noop => (window <= 0)%Z \/
      ((inject_Z total < inject_Z window * hard)%Q /\ (inject_Z total < inject_Z window * soft)%Q)
  | D_micro => (0 < window)%Z /\ (inject_Z total < inject_Z window * hard)%Q /\
      (inject_Z window * soft <= inject_Z total)%Q
  | D_full => (0 < window)%Z /\ (inject_Z window * hard <= inject_Z total)%Q
  end.
Proof.
  unfold shouldCompact. destruct (Z.leb_spec window 0) as [Hw|Hw]; [by left|].
  destruct (Qle_bool (inject_Z window * hard) (inject_Z total)) eqn:Hh.
  - split; [done|]. by apply Qle_bool_iff.
  - destruct (Qle_bool (inject_Z window * soft) (inject_Z total)) eqn:Hs.
    + split_and!; [done|by apply Qle_bool_false|by apply Qle_bool_iff].
    + right. split; by apply Qle_bool_false.
Qed.

Section BudgetProofs.
Context {M : Type} `{Message M} `{EqDecision M}.

(** What a full compaction promises about the cut it announces: it is the last
    valid one whose tail fits the window, or [-1] when none does. *)
Definition announced_cut (config : BudgetConfig M) (working : list M) (newTokens splitIdx : Z)
    (surviving : list M) : Prop :=
  let points := findValidSplitPoints working (preserveRecent config) in
  let cost s := (estimateMessages (estimator config) (buildTailWithRescued working s)
                   + newTokens + maxSummaryTokens config)%Z in
  (splitIdx = (-1)%Z /\ surviving = working /\
     forall s, s ∈ points -> (contextWindowSize config < cost s)%Z) \/
  (exists s, s ∈ points /\ splitIdx = Z.of_nat s /\ surviving = buildTailWithRescued working s /\
     (cost s <= contextWindowSize config)%Z /\
     forall s', s' ∈ points -> s < s' -> (contextWindowSize config < cost s')%Z).

(** [dropped] lists the messages of [original] that are not in [surviving]. *)
Definition drops_exactly (original surviving : list M) (dropped : option (list M)) : Prop :=
  forall msg, msg ∈ default [] dropped <-> msg ∈ original /\ msg ∉ surviving.

Lemma drops_exactly_removed original surviving :
  drops_exactly original surviving (some_if_any (computeRemovedMessages original surviving)).
Proof.
  intros msg. unfold some_if_any, computeRemovedMessages.
  set (l := filter _ original). replace (default [] (if decide (length l = 0) then None else Some l)) with l.
  - subst l. rewrite list_elem_of_filter. tauto.
  - case_decide as Hl; [by apply nil_length_inv in Hl|done].
Qed.

Lemma full_compaction_spec config (messages working : list M) total newTokens events info :
  (0 <= preserveRecent config)%Z ->
  exists splitIdx surviving anchor tokensAfter dropped,
    full_compaction config messages working total newTokens events info =
      BR_full working splitIdx total (events ++ [E_completed D_full total tokensAfter anchor]) info
        dropped (fireOnBeforeDrop config (computeRemovedMessages messages surviving)) /\
    announced_cut config working newTokens splitIdx surviving /\
    drops_exactly messages surviving dropped.
Proof.
  intros Hk. unfold full_compaction.
  destruct (findOptimalSplit_cases (estimator config) working (preserveRecent config)
    (contextWindowSize config - newTokens) (maxSummaryTokens config) Hk) as [[Heq Hno]|(s & Hs & Heq & Hok & Hlast)];
    rewrite Heq.
  - do 5 eexists. split; [reflexivity|]. split; [|apply drops_exactly_removed].
    left. split_and!; [done..|]. intros s Hs. specialize (Hno s Hs). unfold fits in Hno.
    apply Z.leb_gt in Hno. lia.
  - do 5 eexists. split; [reflexivity|]. split; [|apply drops_exactly_removed].
    rewrite (proj2 (Z.leb_le 0 (Z.of_nat s))) by lia. rewrite Nat2Z.id.
    right. exists s. unfold fits in Hok. apply Z.leb_le in Hok. split_and!; [done..|lia|].
    intros s' Hs' Hlt. specialize (Hlast s' Hs' Hlt). unfold fits in Hlast. apply Z.leb_gt in Hlast. lia.
Qed.

Lemma micro_tokens est (messages : list M) target k :
  cr_compactedTokens (microcompact est messages target k) =
  estimateMessages est (cr_messages (microcompact est messages target k)).
Proof.
  destruct (microcompact_cases est messages target k) as [[_ ->]|[(_ & s & _ & -> & _)|(_ & s & _ & -> & _)]];
    reflexivity.
Qed.

(** A fraction of at most one of a window, in whole tokens, is at most the window. *)
Lemma fraction_of_window window f : (0 < window)%Z -> (f <= 1)%Q -> (inject_Z window * f <= inject_Z window)%Q.
Proof.
  intros Hw Hf. rewrite <- (Qmult_1_r (inject_Z window)) at 2. rewrite !(Qmult_comm (inject_Z window)).
  apply Qmult_le_compat_r; [done|]. change 0%Q with (inject_Z 0). rewrite <- Zle_Qle. lia.
Qed.

(** The history that remains once a cut that full compaction announces is made,
    and the tokens set aside for the summary of what it cuts. *)
Definition remaining (r : BudgetEnforcementResult M) : list M :=
  match r with
  | BR_noop ms _ _ _ | BR_micro ms _ _ _ _ _ _ _ => ms
  | BR_full ms splitIdx _ _ _ _ _ =>
      if (0 <=? splitIdx)%Z then buildTailWithRescued ms (Z.to_nat splitIdx) else ms
  end.

Definition reserved (config : BudgetConfig M) (r : BudgetEnforcementResult M) : Z :=
  match r with BR_full _ _ _ _ _ _ _ => maxSummaryTokens config | _ => 0 end%Z.

(** Full compaction that finds no cut that fits. *)
Definition no_cut_fits (r : BudgetEnforcementResult M) : Prop :=
  match r with BR_full _ splitIdx _ _ _ _ _ => splitIdx = (-1)%Z | _ => False end.

(** What each outcome says; [working] is the history after pruning. *)
Definition outcome_spec (config : BudgetConfig M) (messages : list M) (newTokens : Z)
    (r : BudgetEnforcementResult M) : Prop :=
  let est := estimateMessages (estimator config) in
  let total := (est messages + newTokens)%Z in
  let size := contextWindowSize config in
  let soft := (inject_Z size * softFraction config)%Q in
  let hard := (inject_Z size * hardFraction config)%Q in
  let working := pr_messages (selectivelyPrune (estimator config) messages (prunePreserveLastK config)) in
  let micro := microcompact (estimator config) working (microLimit config - newTokens) (preserveRecent config) in
  match r with
  | BR_noop ms t _ _ =>
      ms = messages /\ t = total /\
      ((size <= 0)%Z \/ ((inject_Z total < hard)%Q /\ (inject_Z total < soft)%Q))
  | BR_micro ms _ compacted _ _ _ dropped _ =>
      (0 < size)%Z /\ (soft <= inject_Z total)%Q /\ (inject_Z total < hard)%Q /\ ms = cr_messages micro /\
      compacted = est ms /\ (est ms + newTokens <= microLimit config)%Z /\
      drops_exactly messages ms dropped
  | BR_full ms splitIdx t _ _ dropped _ =>
      (0 < size)%Z /\ t = total /\ ms = working /\
      ((hard <= inject_Z total)%Q \/
       (soft <= inject_Z total)%Q /\ (microLimit config < est (cr_messages micro) + newTokens)%Z) /\
      exists surviving, announced_cut config ms newTokens splitIdx surviving /\
        drops_exactly messages surviving dropped
  end.

Lemma compact_history_spec config messages newTokens info :
  (0 <= preserveRecent config)%Z ->
  outcome_spec config messages newTokens (compact_history config messages newTokens info).
Proof.
  intros Hk. unfold compact_history, outcome_spec. cbv zeta.
  set (total := (_ + newTokens)%Z).
  pose proof (shouldCompact_cases total (contextWindowSize config) (softFraction config) (hardFraction config)) as Hc.
  set (working := pr_messages _). set (r := microcompact _ _ _ _).
  pose proof (fun e => full_compaction_spec config messages working total newTokens e info Hk) as Hfull.
  destruct (shouldCompact _ _ _ _); cbn beta iota zeta.
  - done.
  - destruct Hc as (Hw & Hh & Hs). unfold r at 1. rewrite micro_tokens. fold r.
    destruct (Z.leb_spec (estimateMessages (estimator config) (cr_messages r) + newTokens) (microLimit config)).
    + split_and!; try done; [apply micro_tokens|apply drops_exactly_removed].
    + match goal with |- context [full_compaction _ _ _ _ _ ?e] =>
        destruct (Hfull e) as (splitIdx & surviving & anchor & after & dropped & -> & Hcut & Hd) end.
      split_and!; [done..|by right|]. by exists surviving.
  - destruct Hc as [Hw Hh].
    match goal with |- context [full_compaction _ _ _ _ _ ?e] =>
      destruct (Hfull e) as (splitIdx & surviving & anchor & after & dropped & -> & Hcut & Hd) end.
    split_and!; [done..|by left|]. by exists surviving.
Qed.

Lemma outcome_within_window config messages newTokens r :
  outcome_spec config messages newTokens r ->
  (0 < contextWindowSize config)%Z -> (hardFraction config <= 1)%Q -> (microTarget config <= 1)%Q ->
  ~ no_cut_fits r ->
  (estimateMessages (estimator config) (remaining r) + newTokens + reserved config r <= contextWindowSize config)%Z.
Proof.
  intros Ho Hw Hh Hm Hcut. apply (fraction_of_window _ _ Hw) in Hh, Hm.
  destruct r as [ms t ev inf|ms o c st ev inf d p|ms splitIdx t ev inf d p]; simpl in *.
  - destruct Ho as (-> & _ & [?|[Hlt _]]); [lia|].
    pose proof (Qlt_le_trans _ _ _ Hlt Hh) as Hl. rewrite <- Zlt_Qlt in Hl. lia.
  - destruct Ho as (_ & _ & _ & _ & _ & Hl & _). unfold microLimit in Hl.
    pose proof (Qle_trans _ _ _ (Qfloor_le (inject_Z (contextWindowSize config) * microTarget config)) Hm) as Hf.
    rewrite <- Zle_Qle in Hf. lia.
  - destruct Ho as (_ & _ & _ & _ & surviving & [[? _]|(s & _ & -> & _ & Hfit & _)] & _); [done|].
    rewrite (proj2 (Z.leb_le 0 (Z.of_nat s))) by lia. by rewrite Nat2Z.id.
Qed.

(** C13: A turn keeps to the token budget, as far as the enforcement decides it.
    With a window of positive size and fractions of at most one, the history that
    remains, with the new results and what is reserved for a summary, is within
    the window, where the history remaining after full compaction is the one left
    by the cut it announces: the list it returns is the pruned history, not cut
    yet.  The one exception is the full compaction that announces [-1], and it
    does so exactly when no valid cut fits.  With an empty window nothing is
    limited or compacted.  In detail: without compaction the total is below both
    thresholds; after micro compaction, which is tried between the soft and the
    hard threshold, the messages and the new results are within its target; full
    compaction takes place from the hard threshold on or where micro compaction
    missed its target, and announces the last valid cut that fits; and the
    messages reported as dropped are exactly those that do not survive. *)
Theorem budget_respected (config : BudgetConfig M) (messages : list M) (newTokens : Z)
    (info : option ReplacementInfo) :
  (0 <= preserveRecent config)%Z ->
  let result := compact_history config messages newTokens info in
  outcome_spec config messages newTokens result /\
  ((contextWindowSize config <= 0)%Z ->
     result = BR_noop messages (estimateMessages (estimator config) messages + newTokens) [] info) /\
  ((0 < contextWindowSize config)%Z -> (hardFraction config <= 1)%Q -> (microTarget config <= 1)%Q ->
     ~ no_cut_fits result ->
     (estimateMessages (estimator config) (remaining result) + newTokens + reserved config result
        <= contextWindowSize config)%Z).
Proof.
  intros Hk result. pose proof (compact_history_spec config messages newTokens info Hk) as Ho.
  split; [exact Ho|split; [|by apply outcome_within_window with (messages := messages)]].
  intros Hw. subst result. unfold compact_history, shouldCompact. by rewrite (proj2 (Z.leb_le _ _) Hw).
Qed.

(** [prepare] of the default engine does not compact in the full zone: when
    the history reaches the hard threshold and holds no more than the preserved
    number of pairs, the prepared list is the whole history, whatever cut was
    announced. *)
Lemma prepare_full_not_compacted {St : Type} `{ReplacementStore St} (toLocaleString : Z -> string)
    (options : BudgetConfig M) (turnId : string) (messages : list M) (engine : EngineState (St := St)) :
  (0 < contextWindowSize options)%Z ->
  (inject_Z (contextWindowSize options) * hardFraction options <=
     inject_Z (estimateMessages (estimator options) messages))%Q ->
  (Z.of_nat (length (matchAssistantToolPairs messages)) <= prunePreserveLastK options)%Z ->
  (prepare toLocaleString options turnId messages engine).1 = messages.
Proof.
  intros Hw Hh Hp. unfold prepare, enforceBudget, ingest; simpl. unfold compact_history.
  rewrite Z.add_0_r. unfold shouldCompact. destruct (Z.leb_spec (contextWindowSize options) 0); [lia|].
  apply Qle_bool_iff in Hh. rewrite Hh. cbn beta iota zeta. unfold full_compaction; simpl.
  unfold selectivelyPrune. rewrite pairs_to_remove_exact.
  replace (length (matchAssistantToolPairs messages) - Z.to_nat (prunePreserveLastK options)) with 0 by lia.
  done.
Qed.
End BudgetProofs.

(** Ten message objects, numbered, all with the same content. *)
Definition numbered : Message nat := fun _ => sample_message "user" "12345678" None false.

Lemma budget_respected_witness :
  let _ := numbered in
  let config := mkBudget (Some 40%Z) None None None None None None None None None (Some 5%Z) None in
  let messages := seq 0 10 in
  let result := compact_history config messages 0 None in
  (0 <= preserveRecent config)%Z /\
  match result with
  | BR_full ms splitIdx _ _ _ dropped _ => splitIdx = 6%Z /\
      exists surviving, announced_cut config ms 0 splitIdx surviving /\
        drops_exactly messages surviving dropped
  | _ => False
  end /\
  (estimateMessages (estimator config) (remaining result) + 0 + reserved config result <= 40)%Z.
Proof.
  intros heap config messages result. assert (Hk : (0 <= preserveRecent config)%Z) by (vm_compute; discriminate).
  split; [exact Hk|].
  destruct (budget_respected config messages 0 None Hk) as (Hb & _ & Hw). fold result in Hb, Hw.
  assert (Hs : match result with BR_full _ s _ _ _ _ _ => s | _ => 0%Z end = 6%Z) by (vm_compute; reflexivity).
  assert (Hcut : ~ no_cut_fits result).
  { destruct result as [ | |ms s t ev inf dropped pres]; [discriminate Hs..|]. simpl in *. rewrite Hs. discriminate. }
  split; [|apply Hw; [vm_compute; reflexivity|vm_compute; discriminate..|exact Hcut]].
  destruct result as [ | |ms s t ev inf dropped pres]; [discriminate Hs..|].
  destruct Hb as (_ & _ & _ & _ & Hb). split; [exact Hs|exact Hb].
Defined.

Lemma prepare_full_not_compacted_witness :
  let _ := numbered in
  let options := mkBudget (Some 40%Z) None None None None None None None None None (Some 5%Z) None in
  let messages := seq 0 10 in
  let _ := memory_store (fun c => c) in
  (contextWindowSize options < estimateMessages (estimator options) messages)%Z /\
  (prepare pretty options "t1" messages (mkEngine [] (Some ([] : list (string * string))))).1 = messages.
Proof.
  intros heap options messages store. split; [vm_compute; reflexivity|].
  apply (prepare_full_not_compacted pretty options "t1" messages); vm_compute; try reflexivity; discriminate.
Defined.

(** ** What validation accepts *)

Lemma collect_numeric_spec keys cfg out0 out :
  collect_numeric keys cfg out0 = Ok out -> NoDup keys ->
  (forall k, k ∈ keys -> m_get k out0 = None) ->
  forall k, (k ∉ keys -> m_get k out = m_get k out0) /\
    (k ∈ keys -> forall q, m_get k out = Some q <-> m_get k cfg = Some (CV_number q) /\ (0 <= q)%Q).
Proof.
  revert out0. induction keys as [|key keys IH]; intros out0 Hc Hnd Hnone k; simpl in Hc.
  { simplify_eq. split; [done|]. by intros ?%elem_of_nil. }
  apply NoDup_cons in Hnd as [Hnin Hnd].
  assert (Hskip : collect_numeric keys cfg out0 = Ok out -> (forall q, m_get key cfg ≠ Some (CV_number q)) ->
    (k ∉ key :: keys -> m_get k out = m_get k out0) /\
    (k ∈ key :: keys -> forall q, m_get k out = Some q <-> m_get k cfg = Some (CV_number q) /\ (0 <= q)%Q)).
  { intros Hc' Hno. assert (Hn' : forall k, k ∈ keys -> m_get k out0 = None) by (intros; apply Hnone; set_solver).
    destruct (IH out0 Hc' Hnd Hn' k) as [H1 H2]. split; [intros Hk; apply H1; set_solver|].
    intros [->|Hk]%elem_of_cons; [|by apply H2]. intros q. rewrite H1, Hnone by (done || apply list_elem_of_here).
    split; [done|]. intros [Hq _]. by apply Hno in Hq. }
  destruct (m_get key cfg) as [v|] eqn:Hv; simpl in Hc; [|by apply Hskip].
  destruct v as [|q| |s|]; simpl in Hc; try done; [apply Hskip; [done|intros q; congruence]|].
  destruct (Qle_bool 0 q) eqn:Hq; [|done].
  assert (Hn' : forall k, k ∈ keys -> m_get k (m_set key q out0) = None).
  { intros k' Hk'. rewrite m_get_set_ne by (intros ->; done). apply Hnone. set_solver. }
  destruct (IH _ Hc Hnd Hn' k) as [H1 H2]. split.
  - intros [Hk1 Hk2]%not_elem_of_cons. rewrite H1 by done. by rewrite m_get_set_ne by congruence.
  - intros [->|Hk]%elem_of_cons; [|by apply H2]. intros q'. rewrite H1, m_get_set_eq by done. rewrite Hv.
    apply Qle_bool_iff in Hq. split; [intros [= <-]; done|by intros [[= ->] _]].
Qed.

Lemma first_failure_none {E} (checks : list (bool * E)) :
  first_failure checks = None -> Forall (fun c => c.1 = true) checks.
Proof.
  induction checks as [|[[] e] checks IH]; simpl; intros Hf; [constructor|constructor; auto|done].
Qed.

Lemma present_true out key ok q : present out key ok = true -> m_get key out = Some q -> ok q = true.
Proof. unfold present. intros Hp Hg. by rewrite Hg in Hp. Qed.

Lemma Qlt_bool_true x y : Qlt_bool x y = true -> (x < y)%Q.
Proof. unfold Qlt_bool. intros Hn%negb_true_iff. by apply Qle_bool_false. Qed.

(** C14: an option bag that passes validation is well typed: it has no unknown
    key, the knobs are exactly its numeric entries and none is negative,
    fractions lie in (0, 1], sizes are positive, and the target, soft and hard
    fractions are in order where both of a pair are given. *)
Theorem manifest_budget_typed (cfg : list (string * cfg_value)) out modelId :
  validateManifestBudget cfg = Ok (out, modelId) ->
  (forall k, k ∈ m_keys cfg -> k ∈ ALLOWED_MANIFEST_CONFIG_KEYS) /\
  (forall k q, m_get k out = Some q <->
     k ∈ NUMERIC_BUDGET_KEYS /\ m_get k cfg = Some (CV_number q) /\ (0 <= q)%Q) /\
  (forall k q, k ∈ ["softTriggerFraction"; "hardTriggerFraction"; "microTargetFraction"] ->
     m_get k out = Some q -> (0 < q <= 1)%Q) /\
  (forall k q, k ∈ ["contextWindowSize"; "maxResultTokens"; "maxMessageTokens"; "previewChars"] ->
     m_get k out = Some q -> (0 < q)%Q) /\
  (forall target soft, m_get "microTargetFraction" out = Some target ->
     m_get "softTriggerFraction" out = Some soft -> (target < soft)%Q) /\
  (forall soft hard, m_get "softTriggerFraction" out = Some soft ->
     m_get "hardTriggerFraction" out = Some hard -> (soft <= hard)%Q).
Proof.
  unfold validateManifestBudget. case_decide as Hu; [done|].
  destruct (collect_numeric NUMERIC_BUDGET_KEYS cfg []) as [o|] eqn:Hc; [|done].
  destruct (modelId_of cfg) as [id|]; [|done].
  destruct (checkBudgetInvariants o) eqn:Hi; [done|]. intros [= -> ->].
  apply first_failure_none in Hi. unfold budget_checks in Hi. rewrite !Forall_cons in Hi. simpl in Hi.
  destruct Hi as (H1 & H2 & H3 & H4 & H5 & H6 & H7 & _ & H9 & H10 & _).
  assert (Hfrac : forall k q, present out k is_fraction = true -> m_get k out = Some q -> (0 < q <= 1)%Q).
  { intros k q Hp Hg. apply (present_true _ _ _ _ Hp) in Hg. apply andb_true_iff in Hg as [Ha Hb].
    split; [by apply Qlt_bool_true|by apply Qle_bool_iff]. }
  assert (Hpos : forall k q, present out k (Qlt_bool 0) = true -> m_get k out = Some q -> (0 < q)%Q).
  { intros k q Hp Hg. apply Qlt_bool_true. by apply (present_true _ _ _ _ Hp) in Hg. }
  split; [|split; [|split; [|split; [|split]]]].
  - intros k Hk. destruct (decide (k ∈ ALLOWED_MANIFEST_CONFIG_KEYS)) as [|Hn]; [done|].
    destruct Hu. assert (Hin : k ∈ filter (fun k => k ∉ ALLOWED_MANIFEST_CONFIG_KEYS) (m_keys cfg)).
    { by apply list_elem_of_filter. }
    destruct (filter _ (m_keys cfg)); [by apply elem_of_nil in Hin|simpl; lia].
  - intros k q. pose proof (collect_numeric_spec _ _ _ _ Hc) as Hs.
    destruct (Hs ltac:(by apply (bool_decide_eq_true_1 _); vm_compute) ltac:(done) k) as [Ha Hb].
    destruct (decide (k ∈ NUMERIC_BUDGET_KEYS)) as [Hk|Hk]; [rewrite (Hb Hk); tauto|].
    rewrite (Ha Hk). split; [done|]. by intros [? _].
  - intros k q Hk. rewrite !elem_of_cons, elem_of_nil in Hk. destruct Hk as [->|[->|[->|[]]]]; by apply Hfrac.
  - intros k q Hk. rewrite !elem_of_cons, elem_of_nil in Hk. destruct Hk as [->|[->|[->|[->|[]]]]]; by apply Hpos.
  - intros t s Ht Hs. unfold present2 in H9. rewrite Ht, Hs in H9. by apply Qlt_bool_true.
  - intros s h Hs Hh. unfold present2 in H10. rewrite Hs, Hh in H10. by apply Qle_bool_iff.
Qed.

Lemma manifest_budget_typed_witness :
  let cfg := [("softTriggerFraction", CV_number (1 # 4)); ("contextWindowSize", CV_number (1000 # 1));
    ("modelId", CV_string "m")] in
  let out := [("contextWindowSize", 1000 # 1); ("softTriggerFraction", 1 # 4)]%Q in
  validateManifestBudget cfg = Ok (out, Some "m") /\
  (forall k, k ∈ m_keys cfg -> k ∈ ALLOWED_MANIFEST_CONFIG_KEYS).
Proof.
  intros cfg out. assert (Hv : validateManifestBudget cfg = Ok (out, Some "m")) by (vm_compute; reflexivity).
  split; [exact Hv|]. exact (proj1 (manifest_budget_typed cfg out (Some "m") Hv)).
Defined.

(** The cross-checks look only at the given keys: a target above the default
    soft threshold passes. *)
Lemma validation_ignores_defaults :
  validateManifestBudget [("microTargetFraction", CV_number (9 # 10))] =
    Ok ([("microTargetFraction", (9 # 10)%Q)], None) /\
  (softFraction (M := InboundMessage) default_config < 9 # 10)%Q.
Proof. split; reflexivity. Qed.
