(* ===== verification/Heap.v ===== *)
(** * The scheduler's binary heap

    [sched/scheduler/src/heap.ts].  The heap is an array; [at] throws when an
    index is out of bounds, which is [None] here, as is running out of fuel.
    The theorems state that neither happens.  The comparator is a parameter with
    the laws of a total preorder.  [Class PriorityQueue] states what the heap
    promises; the array heap is an instance. *)

From S2P Require Import Prelude.

Local Open Scope nat_scope.

Section Heap.
Context {T : Type}.
Context (compare : T -> T -> Z).

(** ** Operations *)

Definition swap (i j : nat) (data : list T) : option (list T) :=
  match data !! i, data !! j with
  | Some a, Some b => Some (<[j := a]> (<[i := b]> data))
  | _, _ => None
  end.

Definition parent (i : nat) : nat := Nat.div (i - 1) 2.

(** One iteration per unit of fuel. *)
Fixpoint siftUp (fuel i : nat) (data : list T) : option (list T) :=
  match fuel with
  | O => None
  | S fuel =>
      if decide (0 < i) then
        match data !! i, data !! parent i with
        | Some x, Some p =>
            if (0 <=? compare x p)%Z then Some data
            else
              match swap i (parent i) data with
              | Some data' => siftUp fuel (parent i) data'
              | None => None
              end
        | _, _ => None
        end
      else Some data
  end.

(** [if (c < n && compare(at(c), at(min)) < 0) min = c]. *)
Definition pick (data : list T) (c min : nat) : option nat :=
  if decide (c < length data) then
    match data !! c, data !! min with
    | Some x, Some m => Some (if (compare x m <? 0)%Z then c else min)
    | _, _ => None
    end
  else Some min.

Fixpoint siftDown (fuel i : nat) (data : list T) : option (list T) :=
  match fuel with
  | O => None
  | S fuel =>
      match pick data (2 * i + 1) i with
      | None => None
      | Some min1 =>
          match pick data (2 * i + 2) min1 with
          | None => None
          | Some min =>
              if decide (min = i) then Some data
              else
                match swap i min data with
                | Some data' => siftDown fuel min data'
                | None => None
                end
          end
      end
  end.

Definition insert_item (item : T) (data : list T) : option (list T) :=
  let data' := data ++ [item] in
  siftUp (S (length data)) (length data) data'.

Definition extractMin (data : list T) : option (option T * list T) :=
  match data !! 0, last data with
  | Some min, Some lst =>
      let data' := take (length data - 1) data in
      if decide (0 < length data') then
        match siftDown (length data) 0 (<[0 := lst]> data') with
        | Some data'' => Some (Some min, data'')
        | None => None
        end
      else Some (Some min, data')
  | _, _ => Some (None, data)
  end.

Definition peek (data : list T) : option T := data !! 0.

(** [for (let i = floor(n/2) - 1; i >= 0; i--) siftDown(i)], [k] iterations left. *)
Fixpoint heapify (k : nat) (data : list T) : option (list T) :=
  match k with
  | O => Some data
  | S i =>
      match siftDown (S (length data)) i data with
      | Some data' => heapify i data'
      | None => None
      end
  end.

Fixpoint findIndex (predicate : T -> bool) (data : list T) : option nat :=
  match data with
  | [] => None
  | x :: data' => if predicate x then Some 0 else S <$> findIndex predicate data'
  end.

Definition remove (predicate : T -> bool) (data : list T) : option (bool * list T) :=
  match findIndex predicate data with
  | None => Some (false, data)
  | Some idx =>
      let data' := take idx data ++ drop (S idx) data in
      match heapify (Nat.div (length data') 2) data' with
      | Some data'' => Some (true, data'')
      | None => None
      end
  end.

(** ** Laws of the comparator and heap order *)

Class TotalComparator : Prop := {
  compare_trans x y z : (compare x y <= 0)%Z -> (compare y z <= 0)%Z -> (compare x z <= 0)%Z;
  compare_anti x y : (compare x y < 0)%Z <-> (0 < compare y x)%Z
}.

Definition le (x y : T) : Prop := (compare x y <= 0)%Z.

(** The values at [i] and [j], if any, are in order. *)
Definition ordered (data : list T) (i j : nat) : Prop :=
  forall x y, data !! i = Some x -> data !! j = Some y -> le x y.

(** Every child of a position from [r] on is in order with it, except the
    children of [hole] (top down). *)
Definition heap_from (r : nat) (data : list T) : Prop :=
  forall j, 0 < j -> r <= parent j -> ordered data (parent j) j.

Definition is_heap (data : list T) : Prop := heap_from 0 data.

Lemma parent_spec j i : 0 < j -> parent j = i <-> (j = 2 * i + 1 \/ j = 2 * i + 2).
Proof.
  intros Hj. unfold parent. pose proof (Nat.div_mod_eq (j - 1) 2).
  pose proof (Nat.mod_upper_bound (j - 1) 2). lia.
Qed.

Lemma parent_lt j : 0 < j -> parent j < j.
Proof. intros Hj. destruct (proj1 (parent_spec j (parent j) Hj) eq_refl); lia. Qed.

Lemma lookup_swap i j data data' :
  swap i j data = Some data' ->
  forall k, data' !! k = if decide (k = j) then data !! i else if decide (k = i) then data !! j else data !! k.
Proof.
  unfold swap. destruct (data !! i) as [a|] eqn:Hi; [|done]. destruct (data !! j) as [b|] eqn:Hj; [|done].
  intros [= <-] k. pose proof (lookup_lt_Some _ _ _ Hi). pose proof (lookup_lt_Some _ _ _ Hj).
  case_decide as Hkj; [subst; by rewrite list_lookup_insert_eq by (rewrite length_insert; lia)|].
  rewrite list_lookup_insert_ne by done.
  case_decide as Hki; [subst; by rewrite list_lookup_insert_eq by lia|].
  by rewrite list_lookup_insert_ne.
Qed.

Lemma swap_some i j data : i < length data -> j < length data -> is_Some (swap i j data).
Proof.
  intros [a Ha]%lookup_lt_is_Some_2 [b Hb]%lookup_lt_is_Some_2. unfold swap. rewrite Ha, Hb. eauto.
Qed.

Lemma swap_length i j data data' : swap i j data = Some data' -> length data' = length data.
Proof.
  unfold swap. destruct (data !! i), (data !! j); try done. intros [= <-]. by rewrite !length_insert.
Qed.

Lemma swap_perm i j data data' : swap i j data = Some data' -> data' ≡ₚ data.
Proof.
  unfold swap. destruct (data !! i) as [a|] eqn:Hi; [|done]. destruct (data !! j) as [b|] eqn:Hj; [|done].
  intros [= <-].
  by apply Permutation_insert_swap.
Qed.

(** ** Sifting *)

Context `{!TotalComparator}.

Lemma le_refl x : le x x.
Proof. unfold le. pose proof (compare_anti x x). lia. Qed.

Lemma le_total x y : le x y \/ le y x.
Proof. unfold le. pose proof (compare_anti y x). lia. Qed.

Lemma le_trans x y z : le x y -> le y z -> le x z.
Proof. apply compare_trans. Qed.

Lemma not_le x y : (0 < compare x y)%Z -> le y x.
Proof. unfold le. pose proof (compare_anti y x). lia. Qed.

Lemma lt_le x y : (compare x y < 0)%Z -> le x y.
Proof. unfold le. lia. Qed.

(** Heap order except at [i], whose children are in order with its parent. *)
Definition up_inv (data : list T) (i : nat) : Prop :=
  (forall j, 0 < j -> j ≠ i -> ordered data (parent j) j) /\
  (0 < i -> forall j, 0 < j -> parent j = i -> ordered data (parent i) j).

Lemma siftUp_step data data' i x p :
  0 < i -> data !! i = Some x -> data !! parent i = Some p -> le x p ->
  swap i (parent i) data = Some data' -> up_inv data i -> up_inv data' (parent i).
Proof.
  intros Hi Hx Hp Hle Hs [H1 H2]. pose proof (parent_lt i Hi) as Hpi.
  pose proof (lookup_swap _ _ _ _ Hs) as Hl.
  assert (Hat : forall k, k ≠ i -> k ≠ parent i -> data' !! k = data !! k).
  { intros k ? ?. rewrite Hl. by rewrite !decide_False. }
  assert (Hati : data' !! i = Some p).
  { rewrite Hl, decide_False, decide_True by lia. done. }
  assert (Hatp : data' !! parent i = Some x) by (rewrite Hl, decide_True by done; done).
  split.
  - intros j Hj Hne u v Hu Hv. pose proof (parent_lt j Hj).
    destruct (decide (j = i)) as [->|Hji]; [rewrite Hatp in Hu; rewrite Hati in Hv; by simplify_eq|].
    rewrite (Hat j) in Hv by done.
    destruct (decide (parent j = i)) as [Hpj|Hpj].
    { rewrite Hpj, Hati in Hu. injection Hu as <-. by apply (H2 Hi j Hj Hpj). }
    destruct (decide (parent j = parent i)) as [Hpp|Hpp].
    { rewrite Hpp, Hatp in Hu. injection Hu as <-. apply (le_trans _ p); [done|].
      apply (H1 j Hj Hji); [by rewrite Hpp|done]. }
    rewrite Hat in Hu by done. by apply (H1 j Hj Hji).
  - intros Hp0 j Hj Hpj u v Hu Hv. pose proof (parent_lt _ Hp0) as Hpp.
    rewrite Hat in Hu by lia. assert (Hup : le u p) by (by apply (H1 (parent i) Hp0 ltac:(lia))).
    destruct (decide (j = i)) as [->|Hji]; [rewrite Hati in Hv; by simplify_eq|].
    pose proof (parent_lt j Hj). rewrite Hat in Hv by (try done; lia).
    apply (le_trans _ p); [done|]. apply (H1 j Hj Hji); [by rewrite Hpj|done].
Qed.

Lemma siftUp_spec fuel i data :
  i < fuel -> i < length data -> up_inv data i ->
  exists data', siftUp fuel i data = Some data' /\ is_heap data' /\ data' ≡ₚ data.
Proof.
  revert i data. induction fuel as [|fuel IH]; intros i data Hf Hi Hinv; [lia|]. cbn [siftUp].
  destruct (decide (0 < i)) as [H0|H0].
  - pose proof (parent_lt i H0) as Hpi.
    destruct (lookup_lt_is_Some_2 data i Hi) as [x Hx].
    destruct (lookup_lt_is_Some_2 data (parent i) ltac:(lia)) as [p Hp]. rewrite Hx, Hp.
    destruct (Z.leb_spec 0 (compare x p)) as [Hc|Hc].
    + exists data. split_and!; [done| |done]. intros j Hj _.
      destruct (decide (j = i)) as [->|Hji]; [|by apply Hinv]. intros u v Hu Hv.
      assert (u = p) as -> by congruence. assert (v = x) as -> by congruence.
      unfold le. pose proof (compare_anti x p). pose proof (compare_anti p x). lia.
    + destruct (swap_some i (parent i) data Hi ltac:(lia)) as [data' Hs]. rewrite Hs.
      destruct (IH (parent i) data') as (d & -> & Hh & Hperm).
      * lia.
      * rewrite (swap_length _ _ _ _ Hs). lia.
      * apply (siftUp_step data data' i x p); try done. by apply lt_le.
      * exists d. split_and!; [done..|]. by rewrite Hperm, (swap_perm _ _ _ _ Hs).
  - exists data. split_and!; [done| |done]. intros j Hj _. apply Hinv; lia.
Qed.

(** Heap order from [r] on except below [i], whose children are in order with
    its parent. *)
Definition down_inv (r : nat) (data : list T) (i : nat) : Prop :=
  (forall j, 0 < j -> r <= parent j -> parent j ≠ i -> ordered data (parent j) j) /\
  (forall j, 0 < i -> r <= parent i -> 0 < j -> parent j = i -> ordered data (parent i) j).

Lemma pick_spec data c min m :
  data !! min = Some m ->
  exists k x, pick data c min = Some k /\ data !! k = Some x /\ (k = c \/ k = min) /\ le x m /\
    (k = min -> forall y, data !! c = Some y -> le m y) /\
    (k = c -> k ≠ min -> (compare x m < 0)%Z) /\ (forall y, data !! c = Some y -> le x y).
Proof.
  intros Hm. unfold pick. case_decide as Hc.
  - destruct (lookup_lt_is_Some_2 data c Hc) as [x Hx]. rewrite Hx, Hm.
    destruct (Z.ltb_spec (compare x m) 0) as [Hlt|Hge].
    + exists c, x. split_and!; try done; [by left|by apply lt_le| |by intros y [= <-]; apply le_refl].
      intros -> y Hy. assert (x = m) as -> by congruence. pose proof (compare_anti m m). lia.
    + assert (Hmx : le m x) by (unfold le; pose proof (compare_anti x m); pose proof (compare_anti m x); lia).
      exists min, m. split_and!; try done; [by right|apply le_refl|by intros _ y [= <-]|by intros y [= <-]].
  - assert (Hn : data !! c = None) by (apply lookup_ge_None; lia).
    exists min, m. rewrite Hn. split_and!; try done; [by right|apply le_refl].
Qed.

Lemma siftDown_stop r data i :
  down_inv r data i -> (forall j, 0 < j -> parent j = i -> ordered data i j) -> heap_from r data.
Proof.
  intros [H1 _] Hc j Hj Hr. destruct (decide (parent j = i)) as [Hp|Hp]; [rewrite Hp; by apply Hc|by apply H1].
Qed.

Lemma siftDown_step r data data' i k x m :
  0 < k -> parent k = i -> r <= i -> data !! i = Some m -> data !! k = Some x -> le x m ->
  (forall j y, 0 < j -> parent j = i -> data !! j = Some y -> le x y) ->
  swap i k data = Some data' -> down_inv r data i -> down_inv r data' k.
Proof.
  intros Hk Hpk Hr Hm Hx Hle Hmin Hs [H1 H2]. pose proof (parent_lt k Hk) as Hlt.
  pose proof (lookup_swap _ _ _ _ Hs) as Hl.
  assert (Hat : forall j, j ≠ i -> j ≠ k -> data' !! j = data !! j).
  { intros j ? ?. rewrite Hl. by rewrite !decide_False. }
  assert (Hatk : data' !! k = Some m) by (rewrite Hl, decide_True by done; done).
  assert (Hati : data' !! i = Some x).
  { rewrite Hl, decide_False, decide_True by lia. done. }
  split.
  - intros j Hj Hrj Hne u v Hu Hv. pose proof (parent_lt j Hj).
    destruct (decide (parent j = i)) as [Hpj|Hpj].
    + rewrite Hpj, Hati in Hu. injection Hu as <-. destruct (decide (j = k)) as [->|Hjk].
      * rewrite Hatk in Hv. by simplify_eq.
      * rewrite Hat in Hv by (try done; lia). by apply (Hmin j).
    + rewrite Hat in Hu by done. destruct (decide (j = k)) as [->|Hjk]; [congruence|].
      destruct (decide (j = i)) as [->|Hji].
      * rewrite Hati in Hv. injection Hv as <-. by apply (H2 k ltac:(lia) Hrj Hk Hpk).
      * rewrite Hat in Hv by done. by apply (H1 j Hj Hrj Hpj).
  - intros j _ _ Hj Hpj u v Hu Hv. rewrite Hpk, Hati in Hu. injection Hu as <-.
    pose proof (parent_lt j Hj). rewrite Hat in Hv by lia.
    apply (H1 j Hj); [lia|lia|by rewrite Hpj|done].
Qed.

Lemma siftDown_spec fuel i data r :
  length data - i < fuel -> r <= i -> i < length data -> down_inv r data i ->
  exists data', siftDown fuel i data = Some data' /\ heap_from r data' /\ data' ≡ₚ data.
Proof.
  revert i data. induction fuel as [|fuel IH]; intros i data Hf Hr Hi Hinv; [lia|]. cbn [siftDown].
  destruct (lookup_lt_is_Some_2 data i Hi) as [m Hm].
  destruct (pick_spec data (2 * i + 1) i m Hm) as (k1 & x1 & -> & Hx1 & Hk1 & Hle1 & _ & Hs1 & Hm1).
  destruct (pick_spec data (2 * i + 2) k1 x1 Hx1) as (k2 & x2 & -> & Hx2 & Hk2 & Hle2 & _ & Hs2 & Hm2).
  assert (Hmin : forall j y, 0 < j -> parent j = i -> data !! j = Some y -> le x2 y).
  { intros j y Hj Hp Hy. apply (parent_spec j i Hj) in Hp as [-> | ->]; [|by apply Hm2].
    apply (le_trans _ x1); [done|by apply Hm1]. }
  destruct (decide (k2 = i)) as [->|Hne].
  - exists data. split_and!; [done| |done]. apply (siftDown_stop r data i Hinv).
    intros j Hj Hp u v Hu Hv. simplify_eq. by apply (Hmin j).
  - assert (Hk : 0 < k2 /\ parent k2 = i).
    { assert (0 < k2) by (destruct Hk2; [lia|destruct Hk1; lia]). split; [done|]. apply parent_spec; [done|]. lia. }
    destruct Hk as [Hk0 Hkp]. pose proof (lookup_lt_Some _ _ _ Hx2) as Hkl.
    pose proof (parent_lt k2 Hk0).
    destruct (swap_some i k2 data Hi Hkl) as [data' Hs]. rewrite Hs.
    destruct (IH k2 data') as (d & -> & Hh & Hperm).
    + rewrite (swap_length _ _ _ _ Hs). lia.
    + lia.
    + by rewrite (swap_length _ _ _ _ Hs).
    + apply (siftDown_step r data data' i k2 x2 m); try done. by apply (le_trans _ x1).
    + exists d. split_and!; [done..|]. by rewrite Hperm, (swap_perm _ _ _ _ Hs).
Qed.

Lemma heapify_spec k data :
  k <= length data -> heap_from k data ->
  exists data', heapify k data = Some data' /\ is_heap data' /\ data' ≡ₚ data.
Proof.
  revert data. induction k as [|i IH]; intros data Hk Hh; cbn [heapify]; [by exists data|].
  destruct (siftDown_spec (S (length data)) i data i) as (d & -> & Hd & Hp); [lia|lia|lia| |].
  { split; [intros j Hj Hr Hne; apply Hh; [done|lia]|]. intros j H0 Hr. pose proof (parent_lt i H0). lia. }
  destruct (IH d) as (d' & -> & Hd' & Hp'); [rewrite Hp; lia|done|].
  exists d'. split_and!; [done..|]. by rewrite Hp', Hp.
Qed.

Lemma root_minimal data x y : is_heap data -> data !! 0 = Some x -> y ∈ data -> le x y.
Proof.
  intros Hh Hx [i Hi]%list_elem_of_lookup. revert y Hi.
  induction i as [i IH] using lt_wf_ind. intros y Hi.
  destruct (decide (0 < i)) as [H0|H0]; [|assert (i = 0) by lia; subst; simplify_eq; apply le_refl].
  pose proof (parent_lt i H0). pose proof (lookup_lt_Some _ _ _ Hi).
  destruct (lookup_lt_is_Some_2 data (parent i)) as [p Hp]; [lia|].
  apply (le_trans _ p); [by apply (IH (parent i))|]. apply (Hh i H0); [lia|done..].
Qed.

(** ** The operations keep heap order *)

Lemma is_heap_nil : is_heap [].
Proof. intros j _ _ x y Hx. done. Qed.

Lemma insert_spec item data :
  is_heap data ->
  exists data', insert_item item data = Some data' /\ is_heap data' /\ data' ≡ₚ item :: data.
Proof.
  intros Hh. unfold insert_item.
  destruct (siftUp_spec (S (length data)) (length data) (data ++ [item])) as (d & -> & Hd & Hp).
  - lia.
  - rewrite length_app; simpl; lia.
  - assert (Hlt : forall j y, (data ++ [item]) !! j = Some y -> j ≠ length data -> data !! j = Some y).
    { intros j y Hj Hne. pose proof (lookup_lt_Some _ _ _ Hj) as Hl. rewrite length_app in Hl; simpl in Hl.
      by rewrite lookup_app_l in Hj by lia. }
    split.
    + intros j Hj Hne u v Hu Hv. pose proof (parent_lt j Hj). apply (Hlt _ _) in Hv; [|done].
      pose proof (lookup_lt_Some _ _ _ Hv). apply Hlt in Hu; [|lia]. by apply (Hh j Hj ltac:(lia)).
    + intros _ j Hj Hpj u v _ Hv. pose proof (parent_lt j Hj). apply Hlt in Hv; [|lia].
      apply lookup_lt_Some in Hv. lia.
  - exists d. split_and!; [done..|]. rewrite Hp. symmetry. apply Permutation_cons_append.
Qed.

Lemma extractMin_spec data :
  is_heap data ->
  exists m data', extractMin data = Some (m, data') /\ is_heap data' /\
    match m with
    | None => data = [] /\ data' = []
    | Some x => m = peek data /\ data ≡ₚ x :: data' /\ forall y, y ∈ data -> le x y
    end.
Proof.
  intros Hh. unfold extractMin, peek. destruct data as [|x data]; [exists None, []; by split_and!|].
  cbn [lookup list_lookup]. set (l := x :: data).
  assert (Hmin : forall y, y ∈ l -> le x y) by (intros y Hy; by apply (root_minimal l)).
  destruct (last l) as [lst|] eqn:Hlast; [|by apply last_None in Hlast].
  apply last_Some in Hlast as [l' Hl]. rewrite Hl, length_app, take_app_le by (simpl; lia).
  cbn [length]. rewrite Nat.add_sub, take_ge by lia.
  case_decide as H0.
  - destruct l' as [|x' l']; [simpl in H0; lia|]. assert (x' = x) as -> by (subst l; by injection Hl).
    assert (Hins : <[0:=lst]> (x :: l') = lst :: l') by done. rewrite Hins.
    destruct (siftDown_spec (length (x :: l') + 1) 0 (lst :: l') 0) as (d & -> & Hd & Hp).
    + simpl. lia.
    + lia.
    + simpl. lia.
    + split; [|intros j ?; lia]. intros j Hj _ Hne u v Hu Hv. pose proof (parent_lt j Hj).
      apply (Hh j Hj); [lia|..].
      * rewrite (Hl : x :: data = (x :: l') ++ [lst]), lookup_app_l; [by destruct (parent j)|]. apply lookup_lt_Some in Hu. done.
      * rewrite (Hl : x :: data = (x :: l') ++ [lst]), lookup_app_l; [by destruct j|]. apply lookup_lt_Some in Hv. done.
    + exists (Some x), d. split_and!; [done..| |by rewrite <-Hl]. rewrite Hp. simpl.
      by rewrite <-Permutation_cons_append.
  - destruct l'; [|simpl in H0; lia]. simpl in Hl. subst l. simplify_eq. exists (Some lst), [].
    split_and!; try done.
Qed.

Lemma findIndex_spec predicate data :
  match findIndex predicate data with
  | Some i => exists x, data !! i = Some x /\ predicate x = true /\
      forall j y, j < i -> data !! j = Some y -> predicate y = false
  | None => forall y, y ∈ data -> predicate y = false
  end.
Proof.
  induction data as [|x data IH]; simpl; [by intros y ?%elem_of_nil|].
  destruct (predicate x) eqn:Hx; [exists x; split_and!; [done..|lia]|].
  destruct (findIndex predicate data) as [i|]; simpl.
  - destruct IH as (y & Hy & Hp & Hno). exists y. split_and!; [done..|].
    intros [|j] z Hj Hz; simpl in Hz; [congruence|]. apply (Hno j); [lia|done].
  - intros y [->|Hy]%elem_of_cons; auto.
Qed.

Lemma heap_from_half k (data : list T) : Nat.div (length data) 2 <= k -> heap_from k data.
Proof.
  intros Hk j Hj Hr u v _ Hv. exfalso. apply lookup_lt_Some in Hv.
  pose proof (parent_spec j (parent j) Hj) as [Hp _]. specialize (Hp eq_refl).
  pose proof (Nat.div_mod_eq (length data) 2). pose proof (Nat.mod_upper_bound (length data) 2). lia.
Qed.

Lemma remove_spec predicate data :
  is_heap data ->
  exists b data', remove predicate data = Some (b, data') /\ is_heap data' /\
    if b then exists x, predicate x = true /\ data ≡ₚ x :: data'
    else data' = data /\ forall y, y ∈ data -> predicate y = false.
Proof.
  intros Hh. unfold remove. pose proof (findIndex_spec predicate data) as Hf.
  destruct (findIndex predicate data) as [i|]; [|by exists false, data].
  destruct Hf as (x & Hx & Hp & _). set (rest := take i data ++ drop (S i) data).
  destruct (heapify_spec (Nat.div (length rest) 2) rest) as (d & -> & Hd & Hperm).
  - apply Nat.Div0.div_le_upper_bound. lia.
  - by apply heap_from_half.
  - exists true, d. split_and!; [done..|]. exists x. split; [done|]. rewrite Hperm.
    subst rest. rewrite <-(take_drop_middle data i x Hx) at 1. by rewrite Permutation_middle.
Qed.
End Heap.

(** ** What the heap promises *)

Class PriorityQueue (T Q : Type) : Type := {
  pq_empty : Q;
  pq_insert : T -> Q -> option Q;
  pq_extractMin : Q -> option (option T * Q);
  pq_peek : Q -> option T;
  pq_remove : (T -> bool) -> Q -> option (bool * Q);
  pq_elements : Q -> list T;
  pq_ok : Q -> Prop
}.

(** Operations on a well-formed queue return a well-formed queue; [peek] and
    [extractMin] give a least element; [remove] takes out one match. *)
Class PriorityQueueLaws (T Q : Type) (compare : T -> T -> Z) `{PriorityQueue T Q} : Prop := {
  pq_empty_ok : pq_ok (T := T) (pq_empty (T := T) (Q := Q)) /\ pq_elements (T := T) (pq_empty (Q := Q)) = [];
  pq_insert_ok x q : pq_ok (T := T) q ->
    exists q', pq_insert x q = Some q' /\ pq_ok (T := T) q' /\ pq_elements q' ≡ₚ x :: pq_elements q;
  pq_extract_ok q : pq_ok (T := T) q ->
    exists m q', pq_extractMin q = Some (m, q') /\ pq_ok (T := T) q' /\ m = pq_peek q /\
      match m with
      | None => pq_elements (T := T) q = [] /\ pq_elements (T := T) q' = []
      | Some x => pq_elements q ≡ₚ x :: pq_elements q' /\ forall y, y ∈ pq_elements q -> (compare x y <= 0)%Z
      end;
  pq_peek_ok q : pq_ok (T := T) q -> pq_peek (T := T) q = None -> pq_elements (T := T) q = [];
  pq_remove_ok p q : pq_ok (T := T) q ->
    exists b q', pq_remove p q = Some (b, q') /\ pq_ok (T := T) q' /\
      if b then exists x : T, p x = true /\ pq_elements q ≡ₚ x :: pq_elements q'
      else q' = q /\ forall y, y ∈ pq_elements q -> p y = false
}.

Definition heap_queue {T : Type} (compare : T -> T -> Z) : PriorityQueue T (list T) :=
  {| pq_empty := []; pq_insert := insert_item compare; pq_extractMin := extractMin compare;
     pq_peek := peek; pq_remove := remove compare; pq_elements := fun q => q;
     pq_ok := is_heap compare |}.

Lemma heap_queue_laws {T : Type} (compare : T -> T -> Z) :
  TotalComparator compare ->
  @PriorityQueueLaws T (list T) compare (heap_queue compare).
Proof.
  intros Hc. split; simpl.
  - split; [apply is_heap_nil|done].
  - intros x q Hq. by apply insert_spec.
  - intros q Hq. destruct (extractMin_spec compare q Hq) as (m & q' & He & Hok & Hm).
    exists m, q'. split_and!; [done..| |].
    + destruct m; [by destruct Hm|]. by destruct Hm as [-> _].
    + destruct m; [by destruct Hm|]. done.
  - unfold peek. by intros [|x q] _.
  - intros p q Hq. by apply remove_spec.
Qed.

(** C16: for every comparator that is a total preorder the array heap is a
    priority queue: no operation throws or runs out of steps; order is kept;
    [insert] adds one item; [extractMin] takes out a least item, the one [peek]
    shows, and nothing else; [remove] takes out exactly one match if any. *)
Theorem heap_is_priority_queue {T : Type} (compare : T -> T -> Z) :
  TotalComparator compare ->
  @PriorityQueueLaws T (list T) compare (heap_queue compare).
Proof. apply heap_queue_laws. Qed.

Lemma heap_is_priority_queue_witness :
  TotalComparator Z.sub /\
  @PriorityQueueLaws Z (list Z) Z.sub (heap_queue Z.sub) /\
  extractMin Z.sub [1; 4; 2; 9; 5; 3]%Z = Some (Some 1%Z, [2; 4; 3; 9; 5]%Z).
Proof.
  assert (Hc : TotalComparator Z.sub) by (split; intros; lia).
  split; [exact Hc|split; [exact (heap_is_priority_queue Z.sub Hc)|vm_compute; reflexivity]].
Defined.
