(* ===== verification/Scheduler.v ===== *)
(** * The local task scheduler

    [sched/scheduler/src/scheduler.ts] with [semaphore.ts] and [retry.ts], over
    any priority queue ([Heap]): submission, dispatch bounded by a semaphore,
    retries with back-off, dead letters, cancellation, crash recovery and
    disposal.  Every [await] ends a step; a step names the promise that settles
    and how, so a run is an arbitrary interleaving of settlements.  Calls of the
    store, the dispatcher and the listeners are recorded in a trace.  The clock
    is read once per step, and times are integers (the fraction that
    [Math.random] adds to a delay is cut off).  A distributed queue backend, the
    run store and cron schedules are not modelled. *)

From S2P Require Import Prelude JsMap Heap.

Local Open Scope string_scope.
Local Open Scope list_scope.
Local Open Scope nat_scope.

(** ** Tasks: [kernel/core/src/scheduler.ts] *)

Inductive ScheduledTaskStatus : Type := TS_pending | TS_running | TS_completed | TS_failed | TS_dead_letter.
Inductive DispatchMode : Type := M_spawn | M_dispatch.

#[export] Instance ScheduledTaskStatus_eq_dec : EqDecision ScheduledTaskStatus.
Proof. solve_decision. Defined.

Record ScheduledTask : Type := mkTask {
  t_id : string;
  t_agentId : string;
  t_input : jsval;
  t_mode : DispatchMode;
  t_priority : Z;
  t_status : ScheduledTaskStatus;
  t_createdAt : Z;
  t_scheduledAt : option Z;
  t_retries : nat;
  t_maxRetries : nat;
  t_timeoutMs : option Z;
  t_lastError : option KoiError;
  t_metadata : option (list (string * jsval))
}.

Record TaskOptions : Type := mkOptions {
  o_priority : option Z;
  o_delayMs : option Z;
  o_maxRetries : option nat;
  o_timeoutMs : option Z;
  o_metadata : option (list (string * jsval));
  o_idempotencyKey : option string
}.

Definition no_options : TaskOptions := mkOptions None None None None None None.

Record SchedulerConfig : Type := mkConfig {
  maxConcurrent : nat;
  defaultPriority : Z;
  defaultMaxRetries : nat;
  baseRetryDelayMs : Z;
  maxRetryDelayMs : Z;
  retryJitterMs : Z
}.

Definition scheduled (t : ScheduledTask) : Z := default 0%Z (t_scheduledAt t).

Definition taskComparator (a b : ScheduledTask) : Z :=
  if decide (scheduled a ≠ scheduled b) then (scheduled a - scheduled b)%Z
  else if decide (t_priority a ≠ t_priority b) then (t_priority a - t_priority b)%Z
  else (t_createdAt a - t_createdAt b)%Z.

(** ** semaphore.ts and retry.ts *)

Definition tryAcquire (max inUse : nat) : option nat := if decide (max <= inUse) then None else Some (S inUse).
Definition release (inUse : nat) : nat := if decide (0 < inUse) then inUse - 1 else inUse.
Definition available (max inUse : nat) : Z := (Z.of_nat max - Z.of_nat inUse)%Z.

(** [jitter] stands for [Math.random() * jitterMs]. *)
Definition computeBackoff (attempt : nat) (config : SchedulerConfig) (jitter : Z) : Z :=
  let exp := Z.min (maxRetryDelayMs config) (baseRetryDelayMs config * 2 ^ Z.of_nat attempt) in
  (exp + jitter)%Z.

(** ** Effects *)

Inductive SchedulerEvent : Type :=
  | Ev_submitted (task : ScheduledTask)
  | Ev_started (taskId : string)
  | Ev_completed (taskId : string)
  | Ev_failed (taskId : string) (error : KoiError)
  | Ev_dead_letter (taskId : string) (error : KoiError)
  | Ev_cancelled (taskId : string)
  | Ev_recovered (taskId : string) (retriesUsed : nat).

Inductive Effect : Type :=
  | Fx_save (task : ScheduledTask)
  | Fx_updateStatus (taskId : string) (status : ScheduledTaskStatus)
      (startedAt completedAt : option Z) (lastError : option KoiError) (retries : option nat)
  | Fx_remove (taskId : string)
  | Fx_dispatch (task : ScheduledTask)
  | Fx_emit (event : SchedulerEvent).

(** A thrown value: an [Error] with a message, or something else as a string. *)
Record Thrown : Type := mkThrown { th_isError : bool; th_message : string }.

Definition is_timeout (e : Thrown) : bool := th_isError e && bool_decide (th_message e = "Task timed out").

Definition koi_error_of (e : Thrown) : KoiError :=
  koiError (if is_timeout e then TIMEOUT else EXTERNAL) (th_message e) (negb (is_timeout e)).

(** ** State *)

(** Where a run of [dispatchTask] waits. *)
Inductive Phase : Type :=
  | Ph_starting
  | Ph_running
  | Ph_completing
  | Ph_burying (error : KoiError)
  | Ph_retrying (retried : ScheduledTask) (error : KoiError).

Record Flight : Type := mkFlight { f_task : ScheduledTask; f_startedAt : Z; f_phase : Phase }.

(** Where a run of [enqueueTask] waits. *)
Inductive Enqueue : Type :=
  | Eq_init (agentId : string) (input : jsval) (mode : DispatchMode) (options : TaskOptions)
  | Eq_saving (task : ScheduledTask).

(** Where [init] waits. *)
Inductive InitState : Type :=
  | In_loading
  | In_recovering (recovered : ScheduledTask) (todo : list ScheduledTask)
  | In_burying (taskId : string) (todo : list ScheduledTask)
  | In_done
  | In_failed.

(** How a queued task ended.  [E_lost]: the store failed in the error path. *)
Inductive Ending : Type := En_completed | En_dead | En_cancelled | En_lost.

#[export] Instance Ending_eq_dec : EqDecision Ending.
Proof. solve_decision. Defined.

(** [s_queued] and [s_ended] are ghosts: the ids that were put in the queue as
    new tasks and the ids that ended, in order. *)
Record State (Q : Type) : Type := mkState {
  s_heap : Q;
  s_inUse : nat;
  s_flights : list Flight;
  s_enqueues : list Enqueue;
  s_cancels : list string;
  s_init : InitState;
  s_disposed : bool;
  s_completed : nat;
  s_failed : nat;
  s_deadLettered : nat;
  s_trace : list Effect;
  s_queued : list string;
  s_ended : list (string * Ending)
}.
Arguments mkState {Q}.
Arguments s_heap {Q}.
Arguments s_inUse {Q}.
Arguments s_flights {Q}.
Arguments s_enqueues {Q}.
Arguments s_cancels {Q}.
Arguments s_init {Q}.
Arguments s_disposed {Q}.
Arguments s_completed {Q}.
Arguments s_failed {Q}.
Arguments s_deadLettered {Q}.
Arguments s_trace {Q}.
Arguments s_queued {Q}.
Arguments s_ended {Q}.

Inductive Outcome : Type := O_done | O_threw (e : Thrown) | O_timeout.

(** Steps.  [None] for a settled promise is success. *)
Inductive Step : Type :=
  | St_submit (agentId : string) (input : jsval) (mode : DispatchMode) (options : TaskOptions)
  | St_enqueue (k : nat) (now : Z) (id : string)
  | St_saved (k : nat) (ok : bool) (now : Z)
  | St_timer (now : Z)
  | St_started (k : nat) (res : option Thrown) (now jitter : Z)
  | St_settled (k : nat) (outcome : Outcome) (now jitter : Z)
  | St_completed (k : nat) (res : option Thrown) (now jitter : Z)
  | St_buried (k : nat) (ok : bool) (now : Z)
  | St_retried (k : nat) (ok : bool) (now : Z)
  | St_cancel (id : string)
  | St_cancelled (k : nat) (ok : bool)
  | St_loaded (tasks : list ScheduledTask)
  | St_recovered (ok : bool)
  | St_dispose.

(** A step is not possible now, an operation of the queue failed, or the state
    after the step. *)
Inductive Progress (S : Type) : Type := Disabled | Crash | Next (st : S).
Arguments Disabled {S}.
Arguments Crash {S}.
Arguments Next {S}.

Definition next_of {S : Type} (o : option S) : Progress S :=
  match o with Some st => Next st | None => Crash end.

Section Scheduler.
Context {Q : Type} `{PriorityQueue ScheduledTask Q}.
Context (config : SchedulerConfig).

Definition set_heap (q : Q) (st : State Q) : State Q :=
  mkState q (s_inUse st) (s_flights st) (s_enqueues st) (s_cancels st) (s_init st) (s_disposed st)
    (s_completed st) (s_failed st) (s_deadLettered st) (s_trace st) (s_queued st) (s_ended st).

(** [inUse] and the runs of [dispatchTask]. *)
Definition set_flights (n : nat) (fs : list Flight) (st : State Q) : State Q :=
  mkState (s_heap st) n fs (s_enqueues st) (s_cancels st) (s_init st) (s_disposed st)
    (s_completed st) (s_failed st) (s_deadLettered st) (s_trace st) (s_queued st) (s_ended st).

Definition set_pending (es : list Enqueue) (cs : list string) (i : InitState) (st : State Q) : State Q :=
  mkState (s_heap st) (s_inUse st) (s_flights st) es cs i (s_disposed st)
    (s_completed st) (s_failed st) (s_deadLettered st) (s_trace st) (s_queued st) (s_ended st).

Definition set_counts (c f d : nat) (st : State Q) : State Q :=
  mkState (s_heap st) (s_inUse st) (s_flights st) (s_enqueues st) (s_cancels st) (s_init st) (s_disposed st)
    c f d (s_trace st) (s_queued st) (s_ended st).

Definition effect (fx : Effect) (st : State Q) : State Q :=
  mkState (s_heap st) (s_inUse st) (s_flights st) (s_enqueues st) (s_cancels st) (s_init st) (s_disposed st)
    (s_completed st) (s_failed st) (s_deadLettered st) (s_trace st ++ [fx]) (s_queued st) (s_ended st).

Definition ghost (qs : list string) (es : list (string * Ending)) (st : State Q) : State Q :=
  mkState (s_heap st) (s_inUse st) (s_flights st) (s_enqueues st) (s_cancels st) (s_init st) (s_disposed st)
    (s_completed st) (s_failed st) (s_deadLettered st) (s_trace st) (s_queued st ++ qs) (s_ended st ++ es).

Definition set_disposed (st : State Q) : State Q :=
  mkState (s_heap st) (s_inUse st) (s_flights st) (s_enqueues st) (s_cancels st) (s_init st) true
    (s_completed st) (s_failed st) (s_deadLettered st) (s_trace st) (s_queued st) (s_ended st).

(** [createScheduler] has called [init], which waits for [loadPending]. *)
Definition createScheduler : State Q :=
  mkState (pq_empty (T := ScheduledTask)) 0 [] [] [] In_loading false 0 0 0 [] [] [].

Definition emit (event : SchedulerEvent) (st : State Q) : State Q := effect (Fx_emit event) st.

(** ** dispatchTask and poll *)

(** [dispatchTask] up to its first [await]. *)
Definition dispatchTask (now : Z) (task : ScheduledTask) (st : State Q) : State Q :=
  effect (Fx_updateStatus (t_id task) TS_running (Some now) None None None)
    (set_flights (s_inUse st) (s_flights st ++ [mkFlight task now Ph_starting]) st).

Definition in_future (task : ScheduledTask) (now : Z) : bool :=
  match t_scheduledAt task with Some at_ => (now <? at_)%Z | None => false end.

Fixpoint poll_loop (fuel : nat) (now : Z) (st : State Q) : option (State Q) :=
  match fuel with
  | O => None
  | S fuel =>
      match pq_peek (s_heap st) with
      | None => Some st
      | Some task =>
          if in_future task now then Some st
          else
            match tryAcquire (maxConcurrent config) (s_inUse st) with
            | None => Some st
            | Some inUse =>
                match pq_extractMin (T := ScheduledTask) (s_heap st) with
                | Some (_, q) =>
                    poll_loop fuel now (dispatchTask now task (set_flights inUse (s_flights st) (set_heap q st)))
                | None => None
                end
            end
      end
  end.

Definition poll (now : Z) (st : State Q) : option (State Q) :=
  poll_loop (S (length (pq_elements (T := ScheduledTask) (s_heap st)))) now st.

Definition insert_task (task : ScheduledTask) (st : State Q) : option (State Q) :=
  match pq_insert task (s_heap st) with
  | Some q => Some (set_heap q st)
  | None => None
  end.

Definition set_phase (k : nat) (fl : Flight) (phase : Phase) (st : State Q) : State Q :=
  set_flights (s_inUse st) (<[k := mkFlight (f_task fl) (f_startedAt fl) phase]> (s_flights st)) st.

(** The [finally] block. *)
Definition finally (k : nat) (now : Z) (st : State Q) : option (State Q) :=
  poll now (set_flights (release (s_inUse st)) (delete k (s_flights st)) st).

(** The [catch] block up to its first [await]. *)
Definition catch (k : nat) (fl : Flight) (e : Thrown) (now jitter : Z) (st : State Q) : State Q :=
  let task := f_task fl in
  let koiErr := koi_error_of e in
  if is_timeout e || bool_decide (t_maxRetries task <= t_retries task) then
    effect (Fx_updateStatus (t_id task) TS_dead_letter None (Some now) (Some koiErr) None)
      (set_phase k fl (Ph_burying koiErr) st)
  else
    let delay := computeBackoff (t_retries task) config jitter in
    let retried := mkTask (t_id task) (t_agentId task) (t_input task) (t_mode task) (t_priority task)
                     TS_pending (t_createdAt task) (Some (now + delay)%Z) (S (t_retries task))
                     (t_maxRetries task) (t_timeoutMs task) (Some koiErr) (t_metadata task) in
    effect (Fx_save retried) (set_phase k fl (Ph_retrying retried koiErr) st).

(** ** enqueueTask *)

Definition new_task (agentId : string) (input : jsval) (mode : DispatchMode) (options : TaskOptions)
    (now : Z) (id : string) : ScheduledTask :=
  mkTask id agentId input mode (default (defaultPriority config) (o_priority options)) TS_pending now
    (match o_delayMs options with Some d => Some (now + d)%Z | None => None end) 0
    (default (defaultMaxRetries config) (o_maxRetries options)) (o_timeoutMs options) None
    (o_metadata options).

(** ** init *)

Definition crash_error : KoiError := koiError INTERNAL "Max retries exceeded on crash recovery" false.

Definition with_retries (task : ScheduledTask) (retries : nat) : ScheduledTask :=
  mkTask (t_id task) (t_agentId task) (t_input task) (t_mode task) (t_priority task) TS_pending
    (t_createdAt task) (t_scheduledAt task) retries (t_maxRetries task) (t_timeoutMs task)
    (t_lastError task) (t_metadata task).

(** The loop of [init] up to its next [await]. *)
Fixpoint init_loop (tasks : list ScheduledTask) (st : State Q) : option (State Q) :=
  match tasks with
  | [] => Some (set_pending (s_enqueues st) (s_cancels st) In_done st)
  | task :: rest =>
      if decide (t_status task = TS_running) then
        if decide (t_retries task < t_maxRetries task) then
          let recovered := with_retries task (S (t_retries task)) in
          Some (effect (Fx_updateStatus (t_id task) TS_pending None None None (Some (t_retries recovered)))
                  (set_pending (s_enqueues st) (s_cancels st) (In_recovering recovered rest) st))
        else
          Some (effect (Fx_updateStatus (t_id task) TS_dead_letter None None None None)
                  (set_pending (s_enqueues st) (s_cancels st) (In_burying (t_id task) rest) st))
      else
        match insert_task task st with
        | Some st' => init_loop rest (ghost [t_id task] [] st')
        | None => None
        end
  end.

(** ** Steps *)

Definition step (s : Step) (st : State Q) : Progress (State Q) :=
  match s with
  | St_submit agentId input mode options =>
      if s_disposed st then Next st
      else Next (set_pending (s_enqueues st ++ [Eq_init agentId input mode options]) (s_cancels st) (s_init st) st)
  | St_enqueue k now id =>
      match s_enqueues st !! k with
      | Some (Eq_init agentId input mode options) =>
          let task := new_task agentId input mode options now id in
          Next (effect (Fx_save task)
                  (set_pending (<[k := Eq_saving task]> (s_enqueues st)) (s_cancels st) (s_init st) st))
      | _ => Disabled
      end
  | St_saved k ok now =>
      match s_enqueues st !! k with
      | Some (Eq_saving task) =>
          let st1 := set_pending (delete k (s_enqueues st)) (s_cancels st) (s_init st) st in
          if ok then
            match insert_task task st1 with
            | Some st2 => next_of (poll now (emit (Ev_submitted task) (ghost [t_id task] [] st2)))
            | None => Crash
            end
          else Next st1
      | _ => Disabled
      end
  | St_timer now =>
      if s_disposed st then Disabled
      else match s_init st with In_done => next_of (poll now st) | _ => Disabled end
  | St_started k res now jitter =>
      match s_flights st !! k with
      | Some (mkFlight task at_ Ph_starting as fl) =>
          match res with
          | None => Next (effect (Fx_dispatch task) (emit (Ev_started (t_id task)) (set_phase k fl Ph_running st)))
          | Some e => Next (catch k fl e now jitter st)
          end
      | _ => Disabled
      end
  | St_settled k outcome now jitter =>
      match s_flights st !! k with
      | Some (mkFlight task at_ Ph_running as fl) =>
          match outcome with
          | O_done =>
              Next (effect (Fx_updateStatus (t_id task) TS_completed None (Some now) None None)
                      (set_phase k fl Ph_completing st))
          | O_threw e => Next (catch k fl e now jitter st)
          | O_timeout =>
              match t_timeoutMs task with
              | Some _ => Next (catch k fl (mkThrown true "Task timed out") now jitter st)
              | None => Disabled
              end
          end
      | _ => Disabled
      end
  | St_completed k res now jitter =>
      match s_flights st !! k with
      | Some (mkFlight task at_ Ph_completing as fl) =>
          match res with
          | None =>
              next_of (finally k now
                (emit (Ev_completed (t_id task))
                  (ghost [] [(t_id task, En_completed)]
                    (set_counts (S (s_completed st)) (s_failed st) (s_deadLettered st) st))))
          | Some e => Next (catch k fl e now jitter st)
          end
      | _ => Disabled
      end
  | St_buried k ok now =>
      match s_flights st !! k with
      | Some (mkFlight task at_ (Ph_burying err)) =>
          next_of (finally k now
            (if ok then
               emit (Ev_dead_letter (t_id task) err)
                 (ghost [] [(t_id task, En_dead)]
                   (set_counts (s_completed st) (s_failed st) (S (s_deadLettered st)) st))
             else ghost [] [(t_id task, En_lost)] st))
      | _ => Disabled
      end
  | St_retried k ok now =>
      match s_flights st !! k with
      | Some (mkFlight task at_ (Ph_retrying retried err)) =>
          if ok then
            match insert_task retried st with
            | Some st1 =>
                match poll now st1 with
                | Some st2 =>
                    next_of (finally k now
                      (emit (Ev_failed (t_id task) err)
                        (set_counts (s_completed st2) (S (s_failed st2)) (s_deadLettered st2) st2)))
                | None => Crash
                end
            | None => Crash
            end
          else next_of (finally k now (ghost [] [(t_id task, En_lost)] st))
      | _ => Disabled
      end
  | St_cancel id =>
      match pq_remove (fun t => bool_decide (t_id t = id)) (s_heap st) with
      | Some (true, q) =>
          Next (effect (Fx_remove id)
                  (ghost [] [(id, En_cancelled)]
                    (set_heap q (set_pending (s_enqueues st) (s_cancels st ++ [id]) (s_init st) st))))
      | Some (false, q) => Next (set_heap q st)
      | None => Crash
      end
  | St_cancelled k ok =>
      match s_cancels st !! k with
      | Some id =>
          let st1 := set_pending (s_enqueues st) (delete k (s_cancels st)) (s_init st) st in
          Next (if ok then emit (Ev_cancelled id) st1 else st1)
      | None => Disabled
      end
  | St_loaded tasks =>
      match s_init st with
      | In_loading => next_of (init_loop tasks st)
      | _ => Disabled
      end
  | St_recovered ok =>
      match s_init st with
      | In_recovering recovered todo =>
          if ok then
            match insert_task recovered st with
            | Some st1 =>
                next_of (init_loop todo
                  (emit (Ev_recovered (t_id recovered) (t_retries recovered))
                    (ghost [t_id recovered] [] st1)))
            | None => Crash
            end
          else Next (set_pending (s_enqueues st) (s_cancels st) In_failed st)
      | In_burying id todo =>
          if ok then
            next_of (init_loop todo
              (emit (Ev_dead_letter id crash_error)
                (set_counts (s_completed st) (s_failed st) (S (s_deadLettered st)) st)))
          else Next (set_pending (s_enqueues st) (s_cancels st) In_failed st)
      | _ => Disabled
      end
  | St_dispose => Next (set_disposed st)
  end.

(** Tasks come back from the store with as many retries as they were saved with. *)
Definition step_ok (s : Step) : Prop :=
  match s with
  | St_loaded tasks => Forall (fun t => t_retries t <= t_maxRetries t) tasks
  | _ => True
  end.

Inductive reachable : State Q -> Prop :=
  | re_create : reachable createScheduler
  | re_step s st st' : reachable st -> step_ok s -> step s st = Next st' -> reachable st'.

(** Run a list of steps; a step that is not possible stops the run. *)
Fixpoint run (steps : list Step) (st : State Q) : option (State Q) :=
  match steps with
  | [] => Some st
  | s :: steps' => match step s st with Next st' => run steps' st' | _ => None end
  end.

(** Dispatches made so far: task id and number of retries, in order. *)
Definition dispatches (trace : list Effect) : list (string * nat) :=
  omap (fun fx => match fx with Fx_dispatch t => Some (t_id t, t_retries t) | _ => None end) trace.
End Scheduler.
