(* ===== verification/SchedulerSpec.v ===== *)
(** * What the scheduler promises

    Invariants of every reachable state of [Scheduler] over any priority queue
    that satisfies its laws: slots are accounted for, no task is lost or
    duplicated, polling drains what is due, attempts are bounded.  Then runs
    that show where the scheduler falls short of its contract. *)

From S2P Require Import Prelude JsMap Heap Scheduler.

Local Open Scope string_scope.
Local Open Scope list_scope.
Local Open Scope nat_scope.

#[export] Instance task_comparator_total : TotalComparator taskComparator.
Proof.
  split; unfold taskComparator.
  - intros x y z. repeat case_decide; lia.
  - intros x y. repeat case_decide; lia.
Qed.

Section Spec.
Context {Q : Type} `{HPQ : PriorityQueue ScheduledTask Q} `{!PriorityQueueLaws ScheduledTask Q taskComparator}.
Context (config : SchedulerConfig).

Notation State := (State Q).
Notation elements := (pq_elements (T := ScheduledTask)).
Notation wf := (pq_ok (T := ScheduledTask)).

(** ** Polling *)

Definition started (now : Z) (t : ScheduledTask) : Flight := mkFlight t now Ph_starting.
Definition start_effect (now : Z) (t : ScheduledTask) : Effect :=
  Fx_updateStatus (t_id t) TS_running (Some now) None None None.

(** The state after the tasks [new] were taken out and started. *)
Definition polled (now : Z) (new : list ScheduledTask) (q : Q) (st : State) : State :=
  mkState q (s_inUse st + length new) (s_flights st ++ (started now <$> new)) (s_enqueues st)
    (s_cancels st) (s_init st) (s_disposed st) (s_completed st) (s_failed st) (s_deadLettered st)
    (s_trace st ++ (start_effect now <$> new)) (s_queued st) (s_ended st).

Lemma polled_nil now st : polled now [] (s_heap st) st = st.
Proof. destruct st. unfold polled; simpl. by rewrite Nat.add_0_r, !app_nil_r. Qed.

(** What polling guarantees about the tasks it took and those it left. *)
Record drained (now : Z) (st : State) (new : list ScheduledTask) (q : Q) : Prop := {
  dr_ok : wf q;
  dr_perm : elements (s_heap st) ≡ₚ new ++ elements q;
  dr_due : Forall (fun t => in_future t now = false) new;
  dr_first : forall t u, t ∈ new -> u ∈ elements q -> (taskComparator t u <= 0)%Z;
  dr_order : StronglySorted (fun t u => (taskComparator t u <= 0)%Z) new;
  dr_cap : s_inUse st <= maxConcurrent config -> s_inUse st + length new <= maxConcurrent config;
  dr_stop : elements q = [] \/ maxConcurrent config <= s_inUse st + length new \/
    exists t, t ∈ elements q /\ in_future t now = true /\ forall u, u ∈ elements q -> (taskComparator t u <= 0)%Z
}.

Lemma poll_loop_spec fuel now st :
  wf (s_heap st) -> length (elements (s_heap st)) < fuel ->
  exists new q, poll_loop config fuel now st = Some (polled now new q st) /\ drained now st new q.
Proof.
  revert st. induction fuel as [|fuel IH]; intros st Hok Hf; [lia|]. cbn [poll_loop].
  destruct (pq_extract_ok (T := ScheduledTask) (compare := taskComparator) (s_heap st) Hok)
    as (m & q & He & Hq & Hm & Hspec).
  assert (Hstop : (elements (s_heap st) = [] \/ maxConcurrent config <= s_inUse st + 0 \/
    exists t, t ∈ elements (s_heap st) /\ in_future t now = true /\
      forall u, u ∈ elements (s_heap st) -> (taskComparator t u <= 0)%Z) ->
    exists new q, Some st = Some (polled now new q st) /\ drained now st new q).
  { intros Hs. exists [], (s_heap st). rewrite polled_nil. split; [done|].
    split; try done; [by intros t u ?%elem_of_nil|constructor|intros; simpl; lia]. }
  rewrite <-Hm. destruct m as [task|]; [|apply Hstop; by left; destruct Hspec].
  destruct Hspec as [Hperm Hmin].
  destruct (in_future task now) eqn:Hfut.
  { apply Hstop. right; right. exists task. split_and!; [rewrite Hperm; set_solver|done..]. }
  unfold tryAcquire. case_decide as Hmax; [apply Hstop; right; left; lia|].
  rewrite He. set (st1 := dispatchTask _ _ _).
  destruct (IH st1) as (new & q' & -> & Hd); [done|simpl; rewrite Hperm in Hf; simpl in Hf; lia|].
  exists (task :: new), q'. split.
  - f_equal. unfold polled; simpl. f_equal; [lia|by rewrite <-app_assoc|by rewrite <-app_assoc].
  - destruct Hd as [H1 H2 H3 H4 H5 H6 H7]. simpl in *.
    assert (Hle : forall u, u ∈ elements q -> (taskComparator task u <= 0)%Z).
    { intros u Hu. apply Hmin. rewrite Hperm. by right. }
    split; simpl.
    + done.
    + by rewrite Hperm, H2.
    + by constructor.
    + intros t u [->|Ht]%elem_of_cons Hu; [apply Hle; rewrite H2; set_solver|by apply H4].
    + constructor; [done|]. apply Forall_forall. intros u Hu. apply Hle. rewrite H2. set_solver.
    + intros _. specialize (H6 ltac:(lia)). lia.
    + destruct H7 as [?|[?|?]]; [by left|right; left; lia|by right; right].
Qed.

Lemma poll_spec now st :
  wf (s_heap st) ->
  exists new q, poll config now st = Some (polled now new q st) /\ drained now st new q.
Proof. intros Hok. apply poll_loop_spec; [done|lia]. Qed.

(** ** Slots and conservation *)

Definition heap_ids (st : State) : list string := t_id <$> elements (s_heap st).
Definition flight_ids (st : State) : list string := (fun fl => t_id (f_task fl)) <$> s_flights st.
Definition ended_ids (st : State) : list string := (s_ended st).*1.

Definition completions (es : list (string * Ending)) : nat :=
  length (filter (fun e => e.2 = En_completed) es).

(** A retry waiting to be saved is the same task with one more retry. *)
Definition flight_ok (fl : Flight) : Prop :=
  match f_phase fl with
  | Ph_retrying retried _ =>
      t_id retried = t_id (f_task fl) /\ t_retries retried = S (t_retries (f_task fl)) /\
      t_maxRetries retried = t_maxRetries (f_task fl) /\ t_retries (f_task fl) < t_maxRetries (f_task fl)
  | _ => True
  end.

Definition within (t : ScheduledTask) : Prop := t_retries t <= t_maxRetries t.

Definition init_good (i : InitState) : Prop :=
  match i with
  | In_recovering recovered todo => within recovered /\ Forall within todo
  | In_burying _ todo => Forall within todo
  | _ => True
  end.

Definition enqueue_good (e : Enqueue) : Prop :=
  match e with Eq_saving task => within task | Eq_init _ _ _ _ => True end.

Definition pend_good (es : list Enqueue) (i : InitState) : Prop :=
  Forall enqueue_good es /\ init_good i.

Record inv (st : State) : Prop := {
  i_ok : wf (s_heap st);
  i_use : s_inUse st = length (s_flights st);
  i_cap : s_inUse st <= maxConcurrent config;
  i_conserve : s_queued st ≡ₚ heap_ids st ++ flight_ids st ++ ended_ids st;
  i_count : s_completed st = completions (s_ended st);
  i_flights : Forall flight_ok (s_flights st);
  i_pend : pend_good (s_enqueues st) (s_init st)
}.

Lemma inv_polled now new q st : inv st -> drained now st new q -> inv (polled now new q st).
Proof.
  intros [H1 H2 H3 H4 H5 H6 H7] [D1 D2 _ _ _ D6 _]. split; simpl; try done.
  - by rewrite length_app, length_fmap, H2.
  - by apply D6.
  - rewrite H4. unfold heap_ids, flight_ids, ended_ids; simpl.
    rewrite D2, !fmap_app, <-list_fmap_compose. unfold compose; simpl. solve_Permutation.
  - apply Forall_app_2; [done|]. apply Forall_fmap, Forall_true. done.
Qed.

Lemma ids_delete (fs : list Flight) k fl :
  fs !! k = Some fl ->
  ((fun fl => t_id (f_task fl)) <$> fs) ≡ₚ
    t_id (f_task fl) :: ((fun fl => t_id (f_task fl)) <$> delete k fs).
Proof. intros Hk. by rewrite (delete_Permutation fs k fl Hk) at 1. Qed.

(** The [finally] block, from a state in which the run counts as gone. *)
Lemma finally_spec k now st :
  inv (set_flights (release (s_inUse st)) (delete k (s_flights st)) st) ->
  exists st', finally config k now st = Some st' /\ inv st'.
Proof.
  intros Hi. unfold finally. set (st1 := set_flights _ _ _) in *.
  destruct (poll_spec now st1 (i_ok _ Hi)) as (new & q & -> & Hd).
  exists (polled now new q st1). split; [done|]. by apply inv_polled.
Qed.

Lemma release_length {A} (fs : list A) k x :
  fs !! k = Some x -> release (length fs) = length (delete k fs).
Proof.
  intros Hk. pose proof (lookup_lt_Some _ _ _ Hk). unfold release. rewrite decide_True by lia.
  rewrite length_delete by eauto. lia.
Qed.

Lemma inv_set_phase k fl phase st :
  s_flights st !! k = Some fl -> flight_ok (mkFlight (f_task fl) (f_startedAt fl) phase) ->
  inv st -> inv (set_phase k fl phase st).
Proof.
  intros Hk Hok [H1 H2 H3 H4 H5 H6 H7]. split; simpl; try done.
  - by rewrite length_insert.
  - rewrite H4. unfold flight_ids; simpl. rewrite list_fmap_insert. simpl. rewrite list_insert_id; [done|].
    by rewrite list_lookup_fmap, Hk.
  - by apply Forall_insert.
Qed.

Lemma inv_effect fx st : inv st -> inv (effect fx st).
Proof. intros [? ? ? ? ? ? ?]. by split. Qed.

Lemma inv_pending es cs i st : pend_good es i -> inv st -> inv (set_pending es cs i st).
Proof. intros Hp [? ? ? ? ? ? ?]. by split. Qed.

Lemma inv_catch k fl e now jitter st :
  s_flights st !! k = Some fl -> inv st -> inv (catch config k fl e now jitter st).
Proof.
  intros Hk Hi. unfold catch. destruct (is_timeout e || bool_decide _) eqn:Hc.
  - by apply inv_effect, inv_set_phase.
  - apply inv_effect, inv_set_phase; [done| |done].
    apply orb_false_iff in Hc as [_ Hc%bool_decide_eq_false]. unfold flight_ok; simpl. split_and!; try done. lia.
Qed.

(** A new task enters the queue. *)
Lemma insert_new task st :
  inv st -> exists st1, insert_task task st = Some st1 /\ inv (ghost [t_id task] [] st1) /\
    elements (s_heap st1) ≡ₚ task :: elements (s_heap st).
Proof.
  intros [H1 H2 H3 H4 H5 H6 H7]. unfold insert_task.
  destruct (pq_insert_ok (compare := taskComparator) task (s_heap st) H1) as (q & -> & Hq & Hp).
  exists (set_heap q st). split; [done|]. split; [|done]. split; simpl; try done; [|by rewrite app_nil_r].
  rewrite H4. unfold heap_ids, flight_ids, ended_ids; simpl. rewrite Hp, app_nil_r; simpl. solve_Permutation.
Qed.

Lemma init_loop_spec tasks st :
  Forall within tasks -> inv st -> exists st', init_loop tasks st = Some st' /\ inv st'.
Proof.
  revert st. induction tasks as [|task rest IH]; intros st Hw Hi; cbn [init_loop].
  { eexists. split; [done|]. apply inv_pending; [|done]. split; [apply Hi|done]. }
  apply Forall_cons in Hw as [Hwt Hw]. pose proof (proj1 (i_pend _ Hi)).
  case_decide; [case_decide; eexists; (split; [done|]); apply inv_effect, inv_pending; try done; by split|].
  destruct (insert_new task st Hi) as (st1 & -> & Hi1 & _). by apply IH.
Qed.

Lemma inv_finish st k fl c f d ending :
  s_flights st !! k = Some fl -> c = s_completed st + (if decide (ending = En_completed) then 1 else 0) ->
  inv st ->
  inv (set_flights (release (s_inUse st)) (delete k (s_flights st))
         (ghost [] [(t_id (f_task fl), ending)] (set_counts c f d st))).
Proof.
  intros Hk -> [H1 H2 H3 H4 H5 H6 H7]. split; simpl; try done.
  - by rewrite H2, (release_length _ _ _ Hk).
  - unfold release. case_decide; lia.
  - rewrite app_nil_r, H4. unfold heap_ids, flight_ids, ended_ids; simpl.
    rewrite (ids_delete _ _ _ Hk), fmap_app; simpl. solve_Permutation.
  - rewrite H5. unfold completions. rewrite filter_app, length_app. f_equal.
    rewrite filter_cons. simpl. by repeat case_decide.
  - by apply Forall_delete.
Qed.

(** The retry of a failed task: back into the queue, poll, leave. *)
Lemma retry_spec k fl retried err now st :
  s_flights st !! k = Some fl -> f_phase fl = Ph_retrying retried err -> inv st ->
  exists st1 st2 st3, insert_task retried st = Some st1 /\ poll config now st1 = Some st2 /\
    finally config k now (emit (Ev_failed (t_id (f_task fl)) err)
      (set_counts (s_completed st2) (S (s_failed st2)) (s_deadLettered st2) st2)) = Some st3 /\ inv st3.
Proof.
  intros Hk Hph [H1 H2 H3 H4 H5 H6 H7].
  assert (Hfl : flight_ok fl) by by eapply Forall_lookup_1.
  unfold flight_ok in Hfl. rewrite Hph in Hfl. destruct Hfl as (Hid & _).
  unfold insert_task.
  destruct (pq_insert_ok (compare := taskComparator) retried (s_heap st) H1) as (q & -> & Hq & Hp).
  destruct (poll_spec now (set_heap q st) Hq) as (new & q' & Hpoll & Hd).
  exists (set_heap q st), (polled now new q' (set_heap q st)).
  destruct (finally_spec k now (emit (Ev_failed (t_id (f_task fl)) err)
    (set_counts (s_completed (polled now new q' (set_heap q st))) (S (s_failed (polled now new q' (set_heap q st))))
      (s_deadLettered (polled now new q' (set_heap q st))) (polled now new q' (set_heap q st))))) as (st3 & H & Hi).
  - destruct Hd as [D1 D2 _ _ _ D6 _]. simpl in *.
    assert (Hk' : (s_flights st ++ (started now <$> new)) !! k = Some fl).
    { rewrite lookup_app_l; [done|]. by eapply lookup_lt_Some. }
    assert (Hlen : s_inUse st + length new = length (s_flights st ++ (started now <$> new))).
    { by rewrite length_app, length_fmap, H2. }
    split; simpl; try done.
    + by rewrite Hlen, (release_length _ _ _ Hk').
    + specialize (D6 H3). unfold release. case_decide; lia.
    + rewrite H4. unfold heap_ids, flight_ids, ended_ids; simpl.
      assert (Hids : ((fun fl => t_id (f_task fl)) <$> s_flights st) ++ (t_id <$> new) ≡ₚ
        t_id (f_task fl) :: ((fun fl => t_id (f_task fl)) <$> delete k (s_flights st ++ (started now <$> new)))).
      { rewrite <-(ids_delete _ _ _ Hk'), fmap_app, <-list_fmap_compose. done. }
      assert (Hh : t_id (f_task fl) :: (t_id <$> elements (s_heap st)) ≡ₚ (t_id <$> new) ++ (t_id <$> elements q')).
      { rewrite <-fmap_app, <-D2, Hp. simpl. by rewrite Hid. }
      apply (Permutation_cons_inv (a := t_id (f_task fl))).
      rewrite app_comm_cons, Hh.
      transitivity ((t_id <$> elements q') ++ ((fun fl => t_id (f_task fl)) <$> s_flights st) ++ (t_id <$> new) ++ (s_ended st).*1).
      { solve_Permutation. }
      rewrite (app_assoc (_ <$> s_flights st)), Hids. solve_Permutation.
    + apply Forall_delete, Forall_app_2; [done|]. apply Forall_fmap, Forall_true. done.
  - exists st3. done.
Qed.

Lemma inv_create : inv createScheduler.
Proof.
  destruct (pq_empty_ok (T := ScheduledTask) (Q := Q) (compare := taskComparator)) as [He Hn].
  split; simpl; [done|done|lia| |done|constructor|by split]. unfold heap_ids; simpl. by rewrite Hn.
Qed.

(** What a step does to the invariant. *)
Definition progress_inv (p : Progress State) : Prop :=
  match p with Disabled => True | Crash => False | Next st => inv st end.

Lemma next_of_inv o : (exists st', o = Some st' /\ inv st') -> progress_inv (next_of o).
Proof. by intros (st' & -> & ?). Qed.

Lemma set_counts_id (st : State) : set_counts (s_completed st) (s_failed st) (s_deadLettered st) st = st.
Proof. by destruct st. Qed.

Lemma step_inv s st : step_ok s -> inv st -> progress_inv (step config s st).
Proof.
  intros Hok Hi. pose proof (i_pend _ Hi) as [Hpe Hpi]. destruct s; cbn [step].
  - destruct (s_disposed st); [done|]. apply inv_pending; [|done]. split; [|done].
    apply Forall_app_2; [done|by repeat constructor].
  - destruct (s_enqueues st !! k) as [[]|]; try done. apply inv_effect, inv_pending; [|done].
    split; [|done]. apply Forall_insert; [done|]. simpl. unfold within; simpl. lia.
  - destruct (s_enqueues st !! k) as [[|task]|]; try done.
    assert (Hp : pend_good (delete k (s_enqueues st)) (s_init st)) by (split; [by apply Forall_delete|done]).
    destruct ok; [|by apply inv_pending].
    destruct (insert_new task _ (inv_pending (delete k (s_enqueues st)) (s_cancels st) (s_init st) _ Hp Hi))
      as (st1 & -> & Hi1 & _).
    apply next_of_inv. destruct (poll_spec now _ (i_ok _ (inv_effect (Fx_emit (Ev_submitted task)) _ Hi1)))
      as (new & q & Hpoll & Hd). eexists. split; [exact Hpoll|]. apply inv_polled; [by apply inv_effect|done].
  - destruct (s_disposed st); [done|]. destruct (s_init st); try done. apply next_of_inv.
    destruct (poll_spec now st (i_ok _ Hi)) as (new & q & -> & Hd). eexists. split; [done|]. by apply inv_polled.
  - destruct (s_flights st !! k) as [[task at_ []]|] eqn:Hk; try done. destruct res; [by apply inv_catch|].
    by apply inv_effect, inv_effect, inv_set_phase.
  - destruct (s_flights st !! k) as [[task at_ []]|] eqn:Hk; try done. destruct outcome; cbn [step].
    + by apply inv_effect, inv_set_phase.
    + by apply inv_catch.
    + destruct (t_timeoutMs task); [by apply inv_catch|done].
  - destruct (s_flights st !! k) as [[task at_ []]|] eqn:Hk; try done. destruct res; [by apply inv_catch|].
    apply next_of_inv, finally_spec. exact (inv_effect (Fx_emit (Ev_completed (t_id task))) _
      (inv_finish st k _ (S (s_completed st)) (s_failed st) (s_deadLettered st) En_completed Hk
        ltac:(simpl; lia) Hi)).
  - destruct (s_flights st !! k) as [[task at_ []]|] eqn:Hk; try done.
    apply next_of_inv, finally_spec. destruct ok.
    + exact (inv_effect (Fx_emit (Ev_dead_letter (t_id task) error)) _
        (inv_finish st k _ (s_completed st) (s_failed st) (S (s_deadLettered st)) En_dead Hk
          ltac:(simpl; lia) Hi)).
    + pose proof (inv_finish st k _ (s_completed st) (s_failed st) (s_deadLettered st) En_lost Hk) as Hf.
      rewrite set_counts_id in Hf. apply Hf; [simpl; lia|done].
  - destruct (s_flights st !! k) as [[task at_ []]|] eqn:Hk; try done. destruct ok.
    + destruct (retry_spec k _ retried error now st Hk eq_refl Hi) as (st1 & st2 & st3 & -> & -> & Hfin & ?).
      apply next_of_inv. by exists st3.
    + apply next_of_inv, finally_spec.
      pose proof (inv_finish st k _ (s_completed st) (s_failed st) (s_deadLettered st) En_lost Hk) as Hf.
      rewrite set_counts_id in Hf. apply Hf; [simpl; lia|done].
  - destruct Hi as [H1 H2 H3 H4 H5 H6 H7].
    destruct (pq_remove_ok (compare := taskComparator) (fun t => bool_decide (t_id t = id)) (s_heap st) H1)
      as ([] & q & -> & Hq & Hspec); [|by split; simpl; try done; destruct Hspec as [-> _]].
    destruct Hspec as (x & Hx%bool_decide_eq_true & Hp). split; simpl; try done.
    + rewrite app_nil_r, H4. unfold heap_ids, flight_ids, ended_ids; simpl. rewrite Hp, fmap_app; simpl.
      rewrite Hx. solve_Permutation.
    + rewrite H5. unfold completions. rewrite filter_app, length_app. simpl. lia.
  - destruct (s_cancels st !! k); [|done]. destruct ok; [by apply inv_effect, inv_pending|by apply inv_pending].
  - destruct (s_init st); try done. by apply next_of_inv, init_loop_spec.
  - destruct (s_init st) as [|rec todo|id todo| |]; try done.
    + destruct ok; [|by apply inv_pending]. destruct (insert_new rec st Hi) as (st1 & -> & Hi1 & _).
      destruct Hpi. by apply next_of_inv, init_loop_spec, inv_effect.
    + destruct ok; [|by apply inv_pending]. apply next_of_inv, init_loop_spec, inv_effect; [done|].
      destruct Hi as [? ? ? ? ? ? Hpend]. split; try done.
  - destruct Hi as [? ? ? ? ? ? ?]. by split.
Qed.

Lemma reachable_inv st : reachable config st -> inv st.
Proof.
  induction 1 as [|s st st' _ IH Hok Hs]; [apply inv_create|].
  pose proof (step_inv s st Hok IH) as Hp. by rewrite Hs in Hp.
Qed.

(** C15: in every reachable state the semaphore counts exactly the tasks in
    flight and these are at most [maxConcurrent]; every task that was queued is
    in the queue, in flight or ended, exactly once per time it was queued; and
    no possible step makes an operation of the queue fail. *)
Theorem scheduler_conserves (st : State) :
  reachable config st ->
  s_inUse st = length (s_flights st) /\ length (s_flights st) <= maxConcurrent config /\
  s_queued st ≡ₚ (t_id <$> elements (s_heap st)) ++ ((fun fl => t_id (f_task fl)) <$> s_flights st)
                   ++ (s_ended st).*1 /\
  s_completed st = completions (s_ended st) /\
  forall s, step_ok s -> step config s st ≠ Crash.
Proof.
  intros Hr. pose proof (reachable_inv st Hr) as Hi. destruct Hi as [H1 H2 H3 H4 H5 H6 H7].
  split_and!; try done; [lia|]. intros s Hok Hs. pose proof (step_inv s st Hok (reachable_inv st Hr)) as Hp.
  by rewrite Hs in Hp.
Qed.

(** Polling takes out exactly the tasks that are due, best first, as far as
    slots are free: afterwards the queue is empty, or all slots are used, or the
    best task left is in the future. *)
Lemma poll_drains (st : State) (now : Z) :
  reachable config st ->
  exists new q, poll config now st = Some (polled now new q st) /\
    elements (s_heap st) ≡ₚ new ++ elements q /\
    Forall (fun t => in_future t now = false) new /\
    StronglySorted (fun t u => (taskComparator t u <= 0)%Z) new /\
    (forall t u, t ∈ new -> u ∈ elements q -> (taskComparator t u <= 0)%Z) /\
    (elements q = [] \/ s_inUse (polled now new q st) = maxConcurrent config \/
       exists t, t ∈ elements q /\ in_future t now = true /\
         forall u, u ∈ elements q -> (taskComparator t u <= 0)%Z).
Proof.
  intros Hr. destruct (reachable_inv st Hr) as [H1 H2 H3 _ _ _ _].
  destruct (poll_spec now st H1) as (new & q & Hp & [D1 D2 D3 D4 D5 D6 D7]).
  exists new, q. split_and!; try done. specialize (D6 H3). simpl.
  destruct D7 as [?|[?|?]]; [by left|right; left; lia|by right; right].
Qed.

(** ** Attempts *)

(** All dispatches of the task so far were earlier attempts. *)
Definition behind (D : list (string * nat)) (t : ScheduledTask) : Prop :=
  forall r, (t_id t, r) ∈ D -> r < t_retries t.

Definition flight_good (D : list (string * nat)) (fl : Flight) : Prop :=
  within (f_task fl) /\
  match f_phase fl with
  | Ph_starting => behind D (f_task fl)
  | _ => forall r, (t_id (f_task fl), r) ∈ D -> r <= t_retries (f_task fl)
  end.

Record dinv (st : State) : Prop := {
  d_nodup : NoDup (dispatches (s_trace st));
  d_heap t : t ∈ elements (s_heap st) -> behind (dispatches (s_trace st)) t /\ within t;
  d_flight fl : fl ∈ s_flights st -> flight_good (dispatches (s_trace st)) fl;
  d_queued p : p ∈ dispatches (s_trace st) -> p.1 ∈ s_queued st;
  d_within t : Fx_dispatch t ∈ s_trace st -> within t
}.

(** Effects that are no dispatches. *)
Definition quiet (fxs : list Effect) : Prop := forall t, Fx_dispatch t ∉ fxs.

Lemma dispatches_quiet tr fxs : quiet fxs -> dispatches (tr ++ fxs) = dispatches tr.
Proof.
  intros Hq. unfold dispatches. rewrite omap_app.
  assert (Hn : omap (fun fx => match fx with Fx_dispatch t => Some (t_id t, t_retries t) | _ => None end) fxs = []).
  { apply elem_of_nil_inv. intros p (fx & Hfx & Hp)%list_elem_of_omap.
    destruct fx; try done. by apply (Hq task). }
  by rewrite Hn, app_nil_r.
Qed.

(** A change that dispatches nothing keeps the invariant when what is new in the
    queue and in flight is good. *)
Lemma dinv_change st st' fxs :
  dinv st -> s_trace st' = s_trace st ++ fxs -> quiet fxs ->
  (forall id, id ∈ s_queued st -> id ∈ s_queued st') ->
  (forall t, t ∈ elements (s_heap st') -> t ∈ elements (s_heap st) \/
     (behind (dispatches (s_trace st)) t /\ within t)) ->
  (forall fl, fl ∈ s_flights st' -> fl ∈ s_flights st \/ flight_good (dispatches (s_trace st)) fl) ->
  dinv st'.
Proof.
  intros [H1 H2 H3 H4 H5] Ht Hq Hqs Hh Hf.
  pose proof (dispatches_quiet (s_trace st) fxs Hq) as HD. rewrite <-Ht in HD.
  split; rewrite ?HD; try done.
  - intros t Hte. destruct (Hh t Hte); auto.
  - intros fl Hfl. destruct (Hf fl Hfl); auto.
  - intros p Hp. auto.
  - intros t. rewrite Ht. intros [?|?]%elem_of_app; [by apply H5|by apply Hq in H].
Qed.

Ltac quiet := intros ?; rewrite ?list_elem_of_singleton; (intros ?%elem_of_nil || intros ?); done.

Lemma dinv_polled now new q st : dinv st -> drained now st new q -> dinv (polled now new q st).
Proof.
  intros Hd [_ D2 _ _ _ _ _].
  apply (dinv_change st _ (start_effect now <$> new)); try done.
  - intros t (u & Hu & _)%list_elem_of_fmap. done.
  - intros t Ht. left. rewrite D2. set_solver.
  - intros fl [?|(t & -> & Ht)%list_elem_of_fmap]%elem_of_app; [by left|right].
    destruct (d_heap _ Hd t) as [? ?]; [rewrite D2; set_solver|]. by split.
Qed.

(** Polling and the [finally] block add nothing to the queue. *)
Lemma poll_dinv now st st' :
  wf (s_heap st) -> poll config now st = Some st' ->
  s_queued st' = s_queued st /\ (dinv st -> dinv st').
Proof.
  intros Hok Hp. destruct (poll_spec now st Hok) as (new & q & Hp' & Hd).
  rewrite Hp in Hp'. simplify_eq. split; [done|]. intros. by apply dinv_polled.
Qed.

Lemma finally_dinv k now st st' :
  wf (s_heap st) -> finally config k now st = Some st' ->
  s_queued st' = s_queued st /\ (dinv st -> dinv st').
Proof.
  intros Hok Hf. apply poll_dinv in Hf as [Hq Hd]; [|done]. split; [done|]. intros H. apply Hd.
  apply (dinv_change st _ []); simpl; try done; [by rewrite app_nil_r|quiet|auto|].
  intros fl Hfl. left. by apply list_elem_of_delete_inv in Hfl.
Qed.

Lemma elem_of_insert_inv {A} (l : list A) i x y : y ∈ <[i:=x]> l -> y = x \/ y ∈ l.
Proof.
  intros [j Hj]%list_elem_of_lookup. apply list_lookup_insert_Some in Hj as [(_ & ? & _)|[_ Hj]]; [by left|].
  right. by eapply list_elem_of_lookup_2.
Qed.

Lemma set_phase_dinv k fl phase fxs st st' :
  s_flights st !! k = Some fl -> phase ≠ Ph_starting -> quiet fxs ->
  s_trace st' = s_trace st ++ fxs -> s_heap st' = s_heap st -> s_queued st' = s_queued st ->
  s_flights st' = <[k := mkFlight (f_task fl) (f_startedAt fl) phase]> (s_flights st) ->
  dinv st -> dinv st'.
Proof.
  intros Hk Hph Hq Ht Hh Hqs Hfl Hd. apply (dinv_change st _ fxs); try done.
  - by rewrite Hqs.
  - rewrite Hh. auto.
  - rewrite Hfl. intros fl' Hin. apply elem_of_insert_inv in Hin as [->|?]; [right|by left].
    destruct (d_flight _ Hd fl) as [Hw Hb]; [by eapply list_elem_of_lookup_2|]. split; simpl; [done|].
    destruct (f_phase fl); destruct phase; try done; intros r Hr; specialize (Hb r Hr); lia.
Qed.

Lemma catch_dinv k fl e now jitter st :
  s_flights st !! k = Some fl -> dinv st ->
  s_queued (catch config k fl e now jitter st) = s_queued st /\ dinv (catch config k fl e now jitter st).
Proof.
  intros Hk Hd. unfold catch. destruct (is_timeout e || _); (split; [done|]).
  - eapply (set_phase_dinv k fl (Ph_burying _)); try done. quiet.
  - eapply (set_phase_dinv k fl (Ph_retrying _ _)); try done. quiet.
Qed.

(** [st'] extends the queue history of [st], and keeps the invariant on attempts
    as long as no id was queued twice. *)
Definition extends (st st' : State) : Prop :=
  (exists l, s_queued st' = s_queued st ++ l) /\ (NoDup (s_queued st') -> dinv st -> dinv st').

Lemma extends_refl_q st st' : s_queued st' = s_queued st -> (dinv st -> dinv st') -> extends st st'.
Proof. intros Hq Hd. split; [exists []; by rewrite app_nil_r|auto]. Qed.

Lemma extends_trans st1 st2 st3 : extends st1 st2 -> extends st2 st3 -> extends st1 st3.
Proof.
  intros [[l1 H1] D1] [[l2 H2] D2]. split; [exists (l1 ++ l2); by rewrite H2, H1, app_assoc|].
  intros Hnd Hd. apply D2; [done|]. apply D1; [|done]. rewrite H2 in Hnd. by apply NoDup_app in Hnd as [? _].
Qed.

Lemma extends_change st st' fxs :
  s_trace st' = s_trace st ++ fxs -> quiet fxs -> s_queued st' = s_queued st ->
  s_heap st' = s_heap st -> (forall fl, fl ∈ s_flights st' -> fl ∈ s_flights st) -> extends st st'.
Proof.
  intros Ht Hq Hqs Hh Hf. apply extends_refl_q; [done|]. intros Hd.
  apply (dinv_change st _ fxs); try done; [by rewrite Hqs|rewrite Hh; auto|auto].
Qed.

Ltac extends_by fxs := apply (extends_change _ _ fxs); simpl; rewrite ?app_nil_r, <-?app_assoc; try done; try quiet.

Lemma insert_extends task st st1 :
  inv st -> within task -> insert_task task st = Some st1 -> extends st (ghost [t_id task] [] st1).
Proof.
  intros Hi Hw Hins. destruct (insert_new task st Hi) as (st2 & Hins' & _ & Hp). rewrite Hins in Hins'. simplify_eq.
  unfold insert_task in Hins. destruct (pq_insert task (s_heap st)); simplify_eq.
  split; [by exists [t_id task]|]. simpl. intros Hnd Hd. apply (dinv_change st _ []); simpl; try done.
  - by rewrite app_nil_r.
  - quiet.
  - set_solver.
  - intros t. simpl in Hp. rewrite Hp. intros [->|?]%elem_of_cons; [right|by left]. split; [|done].
    intros r Hr. exfalso. apply (d_queued _ Hd) in Hr. simpl in Hr.
    apply NoDup_app in Hnd as (_ & Hnd & _). apply (Hnd _ Hr). set_solver.
  - auto.
Qed.

Lemma init_loop_extends tasks st st' :
  inv st -> Forall within tasks -> init_loop tasks st = Some st' -> extends st st'.
Proof.
  revert st. induction tasks as [|task rest IH]; intros st Hi Hw Hl; cbn [init_loop] in Hl.
  { simplify_eq. by extends_by (@nil Effect). }
  apply Forall_cons in Hw as [Hwt Hwr].
  case_decide; [case_decide; simplify_eq|].
  - extends_by [Fx_updateStatus (t_id task) TS_pending None None None (Some (S (t_retries task)))].
  - extends_by [Fx_updateStatus (t_id task) TS_dead_letter None None None None].
  - destruct (insert_new task st Hi) as (st1 & Hins & Hi1 & _). rewrite Hins in Hl.
    eapply extends_trans; [by eapply insert_extends|]. by apply IH.
Qed.

Lemma poll_extends now st st' : wf (s_heap st) -> poll config now st = Some st' -> extends st st'.
Proof. intros Hok Hp. apply poll_dinv in Hp as [? ?]; [|done]. by apply extends_refl_q. Qed.

Lemma finally_extends k now st st' : wf (s_heap st) -> finally config k now st = Some st' -> extends st st'.
Proof. intros Hok Hp. apply finally_dinv in Hp as [? ?]; [|done]. by apply extends_refl_q. Qed.

Lemma catch_extends k fl e now jitter st :
  s_flights st !! k = Some fl -> extends st (catch config k fl e now jitter st).
Proof.
  intros Hk. apply extends_refl_q.
  - unfold catch. by destruct (is_timeout e || _).
  - intros Hd. by apply catch_dinv.
Qed.

Lemma next_of_eq (o : option State) st' : next_of o = Next st' -> o = Some st'.
Proof. destruct o; simpl; congruence. Qed.

(** Ids in the queue and in flight are different when none was queued twice. *)
Lemma ids_distinct st :
  inv st -> NoDup (s_queued st) ->
  NoDup (heap_ids st ++ flight_ids st).
Proof.
  intros Hi Hnd. rewrite (i_conserve _ Hi), app_assoc in Hnd. by apply NoDup_app in Hnd as [? _].
Qed.

Lemma dispatch_extends k task at_ st :
  inv st -> s_flights st !! k = Some (mkFlight task at_ Ph_starting) ->
  extends st (effect (Fx_dispatch task) (emit (Ev_started (t_id task))
    (set_phase k (mkFlight task at_ Ph_starting) Ph_running st))).
Proof.
  intros Hi Hk. split; [exists []; by rewrite app_nil_r|]. simpl. intros Hnd Hd.
  pose proof (ids_distinct st Hi Hnd) as Hids. apply NoDup_app in Hids as (_ & Hdis & Hfl).
  assert (Hin : mkFlight task at_ Ph_starting ∈ s_flights st) by by eapply list_elem_of_lookup_2.
  assert (Hfid : t_id task ∈ flight_ids st) by (apply list_elem_of_fmap; exists (mkFlight task at_ Ph_starting); done).
  destruct (d_flight _ Hd _ Hin) as [Hw Hb]. simpl in Hw, Hb.
  assert (HD : dispatches ((s_trace st ++ [Fx_emit (Ev_started (t_id task))]) ++ [Fx_dispatch task]) =
    dispatches (s_trace st) ++ [(t_id task, t_retries task)]).
  { unfold dispatches. rewrite !omap_app. simpl. by rewrite app_nil_r. }
  split; simpl; rewrite ?HD.
  - apply NoDup_app. split_and!; [apply Hd| |apply NoDup_singleton].
    intros p Hp ->%list_elem_of_singleton. specialize (Hb _ Hp). lia.
  - intros t Ht. destruct (d_heap _ Hd t Ht) as [Hbt Hwt]. split; [|done].
    intros r [Hr|Hr%list_elem_of_singleton]%elem_of_app; [by apply Hbt|]. simplify_eq.
    destruct (Hdis (t_id t)); [apply list_elem_of_fmap; by exists t|congruence].
  - intros fl [j Hj]%list_elem_of_lookup. apply list_lookup_insert_Some in Hj as [(<- & <- & _)|[Hne Hj]].
    + split; simpl; [done|]. intros r [Hr|Hr%list_elem_of_singleton]%elem_of_app; [|simplify_eq; lia].
      specialize (Hb _ Hr). lia.
    + destruct (d_flight _ Hd fl) as [Hwf Hbf]; [by eapply list_elem_of_lookup_2|].
      assert (Hne' : t_id (f_task fl) ≠ t_id task).
      { intros Heq. apply Hne. apply (NoDup_lookup (flight_ids st) k j (t_id task)); [done|..];
          unfold flight_ids; rewrite list_lookup_fmap, ?Hk, ?Hj; simpl; congruence. }
      split; [done|]. destruct (f_phase fl); intros r [Hr|Hr%list_elem_of_singleton]%elem_of_app;
        simplify_eq; by apply Hbf.
  - intros p [Hp|Hp%list_elem_of_singleton]%elem_of_app; [by apply (d_queued _ Hd)|]. subst p. simpl.
    rewrite (i_conserve _ Hi). set_solver.
  - intros t Ht. rewrite <-app_assoc in Ht. apply elem_of_app in Ht as [Ht|Ht]; [by apply (d_within _ Hd)|].
    simpl in Ht. rewrite !elem_of_cons, elem_of_nil in Ht. destruct Ht as [?|[[= ->]|[]]]; done.
Qed.

Lemma retry_extends k fl retried err now st st1 st2 st3 :
  s_flights st !! k = Some fl -> f_phase fl = Ph_retrying retried err -> inv st ->
  insert_task retried st = Some st1 -> poll config now st1 = Some st2 ->
  finally config k now (emit (Ev_failed (t_id (f_task fl)) err)
      (set_counts (s_completed st2) (S (s_failed st2)) (s_deadLettered st2) st2)) = Some st3 ->
  extends st st3.
Proof.
  intros Hk Hph Hi Hins Hp Hf. unfold insert_task in Hins.
  destruct (pq_insert_ok (compare := taskComparator) retried (s_heap st) (i_ok _ Hi)) as (q & Hq & Hok & Hperm).
  rewrite Hq in Hins. simplify_eq.
  pose proof Hp as Hp'. destruct (poll_spec now (set_heap q st) Hok) as (new & q' & Hpoll & Hd).
  rewrite Hp in Hpoll. simplify_eq.
  assert (E1 : extends st (set_heap q st)).
  { apply extends_refl_q; [done|]. intros Hdi. apply (dinv_change st _ []); simpl; try done.
    - by rewrite app_nil_r.
    - quiet.
    - intros t. rewrite Hperm. intros [->|?]%elem_of_cons; [right|by left].
      assert (Hfl : flight_ok fl) by (eapply Forall_lookup_1; [apply Hi|done]).
      unfold flight_ok in Hfl. rewrite Hph in Hfl. destruct Hfl as (Hid & Hr & Hm & Hlt).
      destruct (d_flight _ Hdi fl) as [Hw Hb]; [by eapply list_elem_of_lookup_2|]. rewrite Hph in Hb.
      split; [|unfold within; lia]. intros r. rewrite Hid. intros Hrr. specialize (Hb r Hrr). lia.
    - auto. }
  eapply extends_trans; [exact E1|]. eapply extends_trans; [by eapply poll_extends|].
  eapply extends_trans; [|eapply finally_extends; [|exact Hf]; simpl; apply Hd].
  by extends_by [Fx_emit (Ev_failed (t_id (f_task fl)) err)].
Qed.

Lemma extends_pending es cs i st : extends st (set_pending es cs i st).
Proof. by extends_by (@nil Effect). Qed.

Lemma extends_effect fx st : (forall t, fx ≠ Fx_dispatch t) -> extends st (effect fx st).
Proof. intros Hfx. apply (extends_change _ _ [fx]); try done. intros t Ht%list_elem_of_singleton. by apply (Hfx t). Qed.

Lemma extends_finish es c f d st : extends st (ghost [] es (set_counts c f d st)).
Proof. by extends_by (@nil Effect). Qed.

Lemma extends_phase k fl phase fx st :
  s_flights st !! k = Some fl -> phase ≠ Ph_starting -> (forall t, fx ≠ Fx_dispatch t) ->
  extends st (effect fx (set_phase k fl phase st)).
Proof.
  intros Hk Hp Hfx. apply extends_refl_q; [done|]. apply (set_phase_dinv k fl phase [fx]); try done.
  intros t Ht%list_elem_of_singleton. by apply (Hfx t).
Qed.

Lemma step_extends s st st' : inv st -> step_ok s -> step config s st = Next st' -> extends st st'.
Proof.
  intros Hi Hok Hs. pose proof (i_pend _ Hi) as [Hpe Hpi].
  destruct s; cbn [step] in Hs.
  - destruct (s_disposed st); simplify_eq; [by apply extends_refl_q|by apply extends_pending].
  - destruct (s_enqueues st !! k) as [[]|]; try done. simplify_eq.
    eapply extends_trans; [|by apply extends_effect]. by apply extends_pending.
  - destruct (s_enqueues st !! k) as [[|task]|] eqn:Hk; try done.
    destruct ok; [|simplify_eq; by apply extends_pending].
    set (st0 := set_pending _ _ _ st) in Hs.
    assert (Hi0 : inv st0) by (apply inv_pending; [split; [by apply Forall_delete|done]|done]).
    assert (Hw : within task) by (eapply (Forall_lookup_1 _ _ k (Eq_saving task)) in Hpe; done).
    destruct (insert_new task st0 Hi0) as (st1 & Hins & Hi1 & _). rewrite Hins in Hs. apply next_of_eq in Hs.
    eapply extends_trans; [apply extends_pending|]. eapply extends_trans; [by eapply insert_extends|].
    eapply extends_trans; [|eapply poll_extends; [|exact Hs]; apply (i_ok _ (inv_effect (Fx_emit (Ev_submitted task)) _ Hi1))].
    by apply extends_effect.
  - destruct (s_disposed st); [done|]. destruct (s_init st); try done. apply next_of_eq in Hs.
    eapply poll_extends; [apply Hi|done].
  - destruct (s_flights st !! k) as [[task at_ []]|] eqn:Hk; try done. destruct res; simplify_eq.
    + by apply catch_extends.
    + by apply dispatch_extends.
  - destruct (s_flights st !! k) as [[task at_ []]|] eqn:Hk; try done. destruct outcome; simplify_eq.
    + by apply extends_phase.
    + by apply catch_extends.
    + destruct (t_timeoutMs task); simplify_eq. by apply catch_extends.
  - destruct (s_flights st !! k) as [[task at_ []]|] eqn:Hk; try done. destruct res; simplify_eq; [by apply catch_extends|].
    apply next_of_eq in Hs. eapply extends_trans; [|eapply finally_extends; [|exact Hs]; simpl; apply Hi].
    eapply extends_trans; [|by apply extends_effect]. apply extends_finish.
  - destruct (s_flights st !! k) as [[task at_ []]|] eqn:Hk; try done. apply next_of_eq in Hs. destruct ok.
    + eapply extends_trans; [|eapply finally_extends; [|exact Hs]; simpl; apply Hi].
      eapply extends_trans; [|by apply extends_effect]. apply extends_finish.
    + eapply extends_trans; [|eapply finally_extends; [|exact Hs]; simpl; apply Hi]. by extends_by (@nil Effect).
  - destruct (s_flights st !! k) as [[task at_ []]|] eqn:Hk; try done. destruct ok.
    + destruct (retry_spec k _ retried error now st Hk eq_refl Hi) as (st1 & st2 & st3 & H1 & H2 & H3 & _).
      rewrite H1, H2 in Hs. apply next_of_eq in Hs. by eapply retry_extends.
    + apply next_of_eq in Hs. eapply extends_trans; [|eapply finally_extends; [|exact Hs]; simpl; apply Hi].
      by extends_by (@nil Effect).
  - destruct (pq_remove_ok (compare := taskComparator) (fun t => bool_decide (t_id t = id)) (s_heap st) (i_ok _ Hi))
      as ([] & q & Hr & Hq & Hspec); rewrite Hr in Hs; simplify_eq.
    + apply extends_refl_q; [simpl; by rewrite app_nil_r|]. intros Hd.
      destruct Hspec as (x & _ & Hp).
      apply (dinv_change st _ [Fx_remove id]); simpl; try done; [quiet|by rewrite app_nil_r| |auto].
      intros t Ht. left. rewrite Hp. by right.
    + destruct Hspec as [-> _]. by apply extends_refl_q; [|destruct st].
  - destruct (s_cancels st !! k); [|done]. destruct ok; simplify_eq; [|by apply extends_pending].
    eapply extends_trans; [|by apply extends_effect]. by apply extends_pending.
  - destruct (s_init st); try done. apply next_of_eq in Hs. by eapply init_loop_extends.
  - destruct (s_init st) as [|rec todo|id todo| |] eqn:Hinit; try done.
    + destruct ok; [|simplify_eq; by apply extends_pending]. destruct Hpi as [Hw Hwt].
      destruct (insert_new rec st Hi) as (st1 & Hins & Hi1 & _). rewrite Hins in Hs. apply next_of_eq in Hs.
      eapply extends_trans; [by eapply insert_extends|].
      eapply extends_trans; [|eapply init_loop_extends; [|exact Hwt|exact Hs]; by apply inv_effect].
      by apply extends_effect.
    + destruct ok; [|simplify_eq; by apply extends_pending]. apply next_of_eq in Hs.
      assert (Hi1 : inv (set_counts (s_completed st) (s_failed st) (S (s_deadLettered st)) st)).
      { destruct Hi as [? ? ? ? ? ? ?]. by split. }
      eapply extends_trans; [|eapply init_loop_extends; [|exact Hpi|exact Hs]; by apply inv_effect].
      eapply extends_trans; [|by apply extends_effect]. by extends_by (@nil Effect).
  - simplify_eq. by extends_by (@nil Effect).
Qed.

Lemma dinv_create : dinv createScheduler.
Proof.
  destruct (pq_empty_ok (T := ScheduledTask) (Q := Q) (compare := taskComparator)) as [_ Hn].
  split; simpl; [constructor|rewrite Hn|..]; set_solver.
Qed.

Lemma reachable_dinv st : reachable config st -> NoDup (s_queued st) -> dinv st.
Proof.
  induction 1 as [|s st st' Hr IH Hok Hs]; intros Hnd; [apply dinv_create|].
  destruct (step_extends s st st' (reachable_inv st Hr) Hok Hs) as [[l Hl] Hd].
  apply Hd; [done|]. apply IH. rewrite Hl in Hnd. by apply NoDup_app in Hnd as [? _].
Qed.

(** As long as no task id enters the queue twice as a new task, no attempt is
    dispatched twice: the dispatches of a task differ in their retry counter, the
    counter never passes [maxRetries], so a task is dispatched at most
    [maxRetries + 1] times. *)
Lemma attempts_bounded (st : State) :
  reachable config st -> NoDup (s_queued st) ->
  NoDup (dispatches (s_trace st)) /\
  (forall t, Fx_dispatch t ∈ s_trace st -> t_retries t <= t_maxRetries t) /\
  forall id m, (forall t, Fx_dispatch t ∈ s_trace st -> t_id t = id -> t_maxRetries t <= m) ->
    length (filter (fun p => p.1 = id) (dispatches (s_trace st))) <= S m.
Proof.
  intros Hr Hnd. destruct (reachable_dinv st Hr Hnd) as [H1 _ _ _ H5]. split_and!; [done..|].
  intros id m Hm. set (D := filter _ _).
  assert (Hsub : D.*2 ⊆ seq 0 (S m)).
  { intros r ([i r'] & -> & Hin)%list_elem_of_fmap. apply list_elem_of_filter in Hin as [Hi Hin]. simpl in Hi. subst i.
    unfold dispatches in Hin. apply list_elem_of_omap in Hin as (fx & Hfx & Hp). destruct fx; simplify_eq.
    apply elem_of_seq. specialize (H5 _ Hfx). specialize (Hm _ Hfx eq_refl). unfold within in H5. simpl. lia. }
  assert (Hnd2 : NoDup D.*2).
  { apply NoDup_fmap_2_strong; [|by apply NoDup_filter].
    intros [i r] [j u] [Hi _]%list_elem_of_filter [Hj _]%list_elem_of_filter. simpl in *. congruence. }
  apply submseteq_length in Hsub || (apply NoDup_submseteq in Hsub; [|done]; apply submseteq_length in Hsub).
  by rewrite length_fmap, length_seq in Hsub.
Qed.

Lemma run_reachable steps st st' :
  Forall step_ok steps -> reachable config st -> run config steps st = Some st' -> reachable config st'.
Proof.
  revert st. induction steps as [|s steps IH]; intros st Hok Hr Hrun; simpl in Hrun; [by simplify_eq|].
  apply Forall_cons in Hok as [Hs Hok]. destruct (step config s st) as [| |st1] eqn:E; try done.
  eapply IH; [done| |exact Hrun]. by eapply re_step.
Qed.
End Spec.

(** ** Runs over the array heap *)

Definition sample_config : SchedulerConfig := mkConfig 1 5 1 1000 60000 0.

#[export] Instance task_heap : PriorityQueue ScheduledTask (list ScheduledTask) := heap_queue taskComparator.

#[export] Instance task_heap_laws : PriorityQueueLaws ScheduledTask (list ScheduledTask) taskComparator.
Proof. apply heap_queue_laws, task_comparator_total. Qed.

(** Submit two tasks; the first is dispatched and fails once. *)
Definition sample_steps : list Step :=
  [ St_loaded []; St_submit "agent" JNull M_dispatch no_options; St_enqueue 0 10 "a"; St_saved 0 true 11;
    St_submit "agent" JNull M_spawn no_options; St_enqueue 0 12 "b"; St_saved 0 true 13;
    St_started 0 None 14 0; St_settled 0 (O_threw (mkThrown true "boom")) 15 0; St_retried 0 true 16 ].

Definition sample_state : State (list ScheduledTask) := default createScheduler (run sample_config sample_steps createScheduler).

Lemma sample_run_reachable : reachable sample_config sample_state.
Proof.
  eapply (run_reachable sample_config sample_steps createScheduler); [repeat constructor|apply re_create|].
  vm_compute. reflexivity.
Qed.

Lemma scheduler_conserves_witness :
  s_queued sample_state = ["a"; "b"] /\ s_failed sample_state = 1 /\
  length (s_flights sample_state) <= 1.
Proof.
  split; [vm_compute; reflexivity|]. split; [vm_compute; reflexivity|].
  exact (proj1 (proj2 (scheduler_conserves sample_config sample_state sample_run_reachable))).
Defined.

Lemma poll_drains_witness : exists new q, poll sample_config 5000 sample_state = Some (polled 5000 new q sample_state).
Proof.
  destruct (poll_drains sample_config sample_state 5000 sample_run_reachable) as (new & q & Hp & _).
  exists new, q. exact Hp.
Defined.

Lemma attempts_bounded_witness :
  dispatches (s_trace sample_state) = [("a", 0)] /\ NoDup (dispatches (s_trace sample_state)).
Proof.
  split; [vm_compute; reflexivity|].
  assert (Hnd : NoDup (s_queued sample_state)) by exact (bool_decide_unpack (NoDup (s_queued sample_state)) ltac:(vm_compute; exact I)).
  exact (proj1 (attempts_bounded sample_config sample_state sample_run_reachable Hnd)).
Defined.

(** ** Where the contract is not kept *)

(** A disposed scheduler goes on to start tasks of its queue: [poll] has no check
    of [disposed], and the end of a task polls. *)
Lemma disposed_keeps_dispatching :
  let steps := [ St_loaded []; St_submit "agent" JNull M_dispatch no_options; St_enqueue 0 10 "a"; St_saved 0 true 11;
                 St_submit "agent" JNull M_dispatch no_options; St_enqueue 0 12 "b"; St_saved 0 true 13; St_started 0 None 14 0 ] in
  (s_disposed <$> run sample_config (steps ++ [St_dispose]) createScheduler) = Some true /\
  ((fun st => dispatches (s_trace st)) <$> run sample_config
     (steps ++ [St_dispose; St_settled 0 O_done 20 0; St_completed 0 None 21 0; St_started 0 None 22 0]) createScheduler)
  = Some [("a", 0); ("b", 0)].
Proof. vm_compute. split; reflexivity. Qed.

(** [enqueueTask] does not wait for recovery: a task that is saved while [init]
    waits for [loadPending] is loaded again, queued twice and run twice. *)
Lemma submit_during_init_runs_twice :
  let steps := [ St_submit "agent" JNull M_dispatch no_options; St_enqueue 0 10 "a"; St_saved 0 true 11;
                 St_started 0 None 12 0;
                 St_loaded [new_task sample_config "agent" JNull M_dispatch no_options 10 "a"];
                 St_settled 0 O_done 13 0; St_completed 0 None 14 0; St_started 0 None 15 0 ] in
  ((fun st => (s_queued st, dispatches (s_trace st))) <$> run sample_config steps createScheduler)
  = Some (["a"; "a"], [("a", 0); ("a", 0)]).
Proof. vm_compute. reflexivity. Qed.

(** A task that succeeded runs again when the store cannot record its success. *)
Lemma store_failure_reruns :
  let steps := [ St_loaded []; St_submit "agent" JNull M_dispatch no_options; St_enqueue 0 10 "a"; St_saved 0 true 11;
                 St_started 0 None 12 0; St_settled 0 O_done 13 0;
                 St_completed 0 (Some (mkThrown true "disk full")) 14 0; St_retried 0 true 15;
                 St_timer 2000; St_started 0 None 2001 0 ] in
  ((fun st => dispatches (s_trace st)) <$> run sample_config steps createScheduler) = Some [("a", 0); ("a", 1)].
Proof. vm_compute. reflexivity. Qed.
