(* ===== verification/Canonical.v ===== *)
(** * Canonical JSON

    [security/governance-delegation/src/canonical.ts]: what is signed is
    [JSON.stringify] of the value with sorted keys.  [stringify] follows the
    standard; integers have fewer than 22 digits, characters are code units
    below 256, and no key is an array index or [__proto__].  The main fact: the
    text determines the value, up to what JSON cannot express. *)

From S2P Require Import Prelude JsMap Text.

Local Open Scope list_scope.
Local Open Scope char_scope.

(** ** Induction over JavaScript values *)

Lemma jsval_deep_ind (P : jsval -> Prop) :
  P JUndefined -> P JNull -> (forall b, P (JBool b)) -> (forall n, P (JNum n)) -> P JNonFinite ->
  (forall s, P (JStr s)) -> (forall l, Forall P l -> P (JArr l)) ->
  (forall fs, Forall (fun f => P f.2) fs -> P (JObj fs)) -> forall v, P v.
Proof.
  intros H1 H2 H3 H4 H5 H6 H7 H8. fix IH 1. intros [| |b|n| |s|l|fs].
  - exact H1.
  - exact H2.
  - exact (H3 b).
  - exact (H4 n).
  - exact H5.
  - exact (H6 s).
  - apply H7. induction l as [|v l IHl]; constructor; [apply IH|exact IHl].
  - apply H8. induction fs as [|f fs IHf]; constructor; [apply IH|exact IHf].
Qed.

(** ** canonicalize *)

Definition is_undefined (v : jsval) : bool := match v with JUndefined => true | _ => false end.

Definition key_le (a b : string * jsval) : Prop := String.leb a.1 b.1 = true.

#[export] Instance key_le_dec a b : Decision (key_le a b).
Proof. unfold key_le. apply _. Defined.

Definition sort_fields (fs : list (string * jsval)) : list (string * jsval) := merge_sort key_le fs.

Definition defined_fields (fs : list (string * jsval)) : list (string * jsval) :=
  filter (fun f => is_undefined f.2 = false) fs.

Fixpoint canonicalize (v : jsval) : jsval :=
  match v with
  | JArr l => JArr (List.map canonicalize l)
  | JObj fs => JObj (defined_fields (sort_fields (List.map (fun f => (f.1, canonicalize f.2)) fs)))
  | _ => v
  end.

(** ** JSON.stringify *)

Definition hex_digit (n : nat) : ascii := default "0"%char (str "0123456789abcdef" !! n).

Definition escape_char (c : ascii) : text :=
  let n := nat_of_ascii c in
  if decide (n = 34) then str "\" ++ [c]
  else if decide (n = 92) then str "\\"
  else if decide (n = 8) then str "\b"
  else if decide (n = 9) then str "\t"
  else if decide (n = 10) then str "\n"
  else if decide (n = 12) then str "\f"
  else if decide (n = 13) then str "\r"
  else if decide (n < 32) then str "\u00" ++ [hex_digit (n / 16); hex_digit (n mod 16)]
  else [c].

Definition dquote : ascii := "034".

Definition quote (s : text) : text := dquote :: concat (escape_char <$> s) ++ [dquote].

Fixpoint commas (parts : list text) : text :=
  match parts with
  | [] => []
  | [p] => p
  | p :: ps => p ++ "," :: commas ps
  end.

(** [undefined] in an array is [null], in an object it is skipped. *)
Fixpoint stringify (v : jsval) : text :=
  match v with
  | JUndefined | JNull | JNonFinite => str "null"
  | JBool true => str "true"
  | JBool false => str "false"
  | JNum n => str (pretty n)
  | JStr s => quote (str s)
  | JArr l => "[" :: commas (List.map stringify l) ++ ["]"]
  | JObj fs =>
      "{" :: commas (concat (List.map (fun f =>
        if is_undefined f.2 then [] else [quote (str f.1) ++ ":" :: stringify f.2]) fs)) ++ ["}"]
  end.

Example stringify_sample :
  stringify (canonicalize (JObj [("b", JArr [JNum (-12); JUndefined]); ("c", JUndefined); ("a", JBool true)]%string))
  = str "{" ++ [dquote] ++ str "a" ++ [dquote] ++ str ":true," ++ [dquote] ++ str "b" ++ [dquote] ++ str ":[-12,null]}".
Proof. vm_compute. reflexivity. Qed.

(** ** What the text determines *)

(** Two texts with delimited rests are equal only when text and rest are. *)
Definition prefix_free {A : Type} (enc : A -> text) (P : A -> Prop) (ok : text -> Prop) : Prop :=
  forall x y r r', P x -> P y -> ok r -> ok r' -> enc x ++ r = enc y ++ r' -> x = y /\ r = r'.

Definition escape_prefix_free (codes : list nat) : bool :=
  forallb (fun n => forallb (fun m => bool_decide (n = m) ||
    negb (starts_with (escape_char (ascii_of_nat n)) (escape_char (ascii_of_nat m)))) codes) codes.

Lemma escape_prefix_free_spec codes n m :
  escape_prefix_free codes = true -> n ∈ codes -> m ∈ codes ->
  starts_with (escape_char (ascii_of_nat n)) (escape_char (ascii_of_nat m)) = true -> n = m.
Proof.
  unfold escape_prefix_free. intros Hall Hn Hm Hs. rewrite forallb_forall in Hall.
  apply list_elem_of_In in Hn, Hm. specialize (Hall n Hn). rewrite forallb_forall in Hall.
  specialize (Hall m Hm). rewrite Hs, orb_false_r in Hall. by apply bool_decide_eq_true in Hall.
Qed.

Lemma escape_char_prefix c d x y : escape_char c ++ x = escape_char d ++ y -> c = d /\ x = y.
Proof.
  assert (Hall : escape_prefix_free (seq 0 256) = true) by (vm_compute; reflexivity).
  assert (Hin : forall e, nat_of_ascii e ∈ seq 0 256).
  { intros e. apply elem_of_seq. pose proof (nat_ascii_bounded e). lia. }
  assert (Hne : forall e f, starts_with (escape_char e) (escape_char f) = true -> e = f).
  { intros e f He. rewrite <-(ascii_nat_embedding e), <-(ascii_nat_embedding f) in He.
    pose proof (escape_prefix_free_spec _ _ _ Hall (Hin e) (Hin f) He) as Hef.
    by rewrite <-(ascii_nat_embedding e), Hef, ascii_nat_embedding. }
  clear Hall Hin.
  intros Heq. assert (Hcd : c = d).
  { apply app_eq_inv in Heq as [(k & Hk & _)|(k & Hk & _)].
    - symmetry. apply Hne, starts_with_spec. by exists k.
    - apply Hne, starts_with_spec. by exists k. }
  subst d. by apply app_inv_head in Heq.
Qed.

Lemma escape_char_head c : exists x l, escape_char c = x :: l /\ x ≠ dquote.
Proof.
  unfold escape_char. repeat case_decide; try (eexists _, _; split; [reflexivity|]; done).
  eexists _, _. split; [done|]. intros ->. by compute in *.
Qed.

Lemma quote_prefix s s' r r' : quote s ++ r = quote s' ++ r' -> s = s' /\ r = r'.
Proof.
  unfold quote. simpl. rewrite <-!app_assoc. intros [= H]. revert s' H.
  induction s as [|c s IH]; intros [|c' s']; simpl; rewrite <-?app_assoc; intros H.
  - by injection H.
  - destruct (escape_char_head c') as (x & l & Hx & Hne). rewrite Hx in H. injection H as H _. by subst.
  - destruct (escape_char_head c) as (x & l & Hx & Hne). rewrite Hx in H. injection H as H _. by subst.
  - apply escape_char_prefix in H as [-> H]. by apply IH in H as [-> ->].
Qed.

(** ** Numbers *)

Definition numeric (c : ascii) : bool :=
  bool_decide (c = "-") || (bool_decide (48 <= nat_of_ascii c) && bool_decide (nat_of_ascii c <= 57)).

Lemma pretty_N_char_numeric x : (x < 10)%N -> numeric (pretty_N_char x) = true.
Proof.
  intros Hx. assert (Hc : exists k, x = N.of_nat k /\ k < 10) by (exists (N.to_nat x); lia).
  destruct Hc as (k & -> & Hk). do 10 (destruct k as [|k]; [done|]). lia.
Qed.

Lemma pretty_N_go_numeric x s :
  Forall (fun c => numeric c = true) (str s) -> Forall (fun c => numeric c = true) (str (pretty_N_go x s)).
Proof.
  revert s. induction x as [x IH] using (well_founded_induction N.lt_wf_0). intros s Hs.
  destruct (decide (0 < x)%N) as [Hx|Hx]; [|by replace x with 0%N by lia].
  rewrite pretty_N_go_step by done. apply IH; [by apply N.div_lt|].
  constructor; [|done]. apply pretty_N_char_numeric, N.mod_lt. lia.
Qed.

Lemma pretty_numeric (n : Z) : Forall (fun c => numeric c = true) (str (pretty n)).
Proof.
  assert (HN : forall x : N, Forall (fun c => numeric c = true) (str (pretty x))).
  { intros x. unfold pretty, pretty_N. case_decide; [by constructor|]. by apply pretty_N_go_numeric. }
  destruct n as [|p|p]; [by repeat constructor|apply (HN (Npos p))|]. constructor; [done|apply (HN (Npos p))].
Qed.

Lemma str_inj s s' : str s = str s' -> s = s'.
Proof. intros H. by rewrite <-(String.string_of_list_ascii_of_string s), <-(String.string_of_list_ascii_of_string s'); f_equal. Qed.

Lemma pretty_N_go_length x s : String.length s <= String.length (pretty_N_go x s).
Proof.
  revert s. induction x as [x IH] using (well_founded_induction N.lt_wf_0). intros s.
  destruct (decide (0 < x)%N) as [Hx|Hx]; [|by replace x with 0%N by lia].
  rewrite pretty_N_go_step by done. etrans; [|apply IH, N.div_lt; lia]. simpl. lia.
Qed.

Lemma pretty_N_nonempty (x : N) : pretty x ≠ ""%string.
Proof.
  unfold pretty, pretty_N. case_decide; [done|]. rewrite pretty_N_go_step by lia. intros Hgo.
  pose proof (pretty_N_go_length (x / 10) (String (pretty_N_char (x mod 10)) "")) as Hl.
  rewrite Hgo in Hl. simpl in Hl. lia.
Qed.

Lemma pretty_head (n : Z) : exists c l, str (pretty n) = c :: l /\ numeric c = true.
Proof.
  pose proof (pretty_numeric n) as Hn. destruct (str (pretty n)) as [|c l] eqn:E.
  - exfalso. apply (str_inj _ "") in E. destruct n as [|p|p]; [done| |done].
    by apply (pretty_N_nonempty (Npos p)).
  - inversion Hn; subst. by exists c, l.
Qed.

(** What follows a value inside an array or object. *)
Definition delimited (r : text) : Prop :=
  match r with [] => True | c :: _ => c = "," \/ c = "]" \/ c = "}" end.

Lemma delimited_not_numeric c r : delimited (c :: r) -> numeric c = false.
Proof. by intros [->|[->| ->]]. Qed.

Lemma class_prefix (P : ascii -> bool) l l' r r' :
  Forall (fun c => P c = true) l -> Forall (fun c => P c = true) l' ->
  (forall c t, r = c :: t -> P c = false) -> (forall c t, r' = c :: t -> P c = false) ->
  l ++ r = l' ++ r' -> l = l' /\ r = r'.
Proof.
  intros Hl. revert l'. induction Hl as [|c l Hc Hl IH]; intros [|c' l'] Hl' Hr Hr' H; simpl in *; try done.
  - subst r. inversion Hl'; subst. rewrite (Hr c' _ eq_refl) in *. done.
  - subst r'. rewrite (Hr' c _ eq_refl) in Hc. done.
  - injection H as -> H. inversion Hl'; subst. by apply IH in H as [-> ->].
Qed.

Lemma number_prefix (n m : Z) r r' :
  delimited r -> delimited r' -> str (pretty n) ++ r = str (pretty m) ++ r' -> n = m /\ r = r'.
Proof.
  intros Hr Hr' H. apply (class_prefix numeric) in H as [H ->].
  - split; [|done]. by apply str_inj, (inj pretty) in H.
  - apply pretty_numeric.
  - apply pretty_numeric.
  - intros c t ->. by eapply delimited_not_numeric.
  - intros c t ->. by eapply delimited_not_numeric.
Qed.

(** ** Values *)

(** Values that JSON can express; elsewhere [jnorm] is what it makes of them. *)
Fixpoint json_normal (v : jsval) : bool :=
  match v with
  | JUndefined | JNonFinite => false
  | JArr l => forallb json_normal l
  | JObj fs => forallb (fun f => json_normal f.2) fs
  | _ => true
  end.

Fixpoint jnorm (v : jsval) : jsval :=
  match v with
  | JUndefined | JNonFinite => JNull
  | JArr l => JArr (List.map jnorm l)
  | JObj fs => JObj (concat (List.map (fun f => if is_undefined f.2 then [] else [(f.1, jnorm f.2)]) fs))
  | _ => v
  end.

Lemma jnorm_defined v : is_undefined (jnorm v) = false.
Proof. by destruct v. Qed.

Lemma stringify_jnorm v : stringify (jnorm v) = stringify v.
Proof.
  induction v as [| | | | | |l IH|fs IH] using jsval_deep_ind; try done; simpl.
  - do 3 f_equal. rewrite List.map_map. apply List.map_ext_in. intros v Hv%list_elem_of_In.
    by eapply Forall_forall in IH.
  - do 3 f_equal. induction IH as [|f fs Hf _ IH]; [done|]. simpl.
    rewrite List.map_app, concat_app, IH. f_equal.
    destruct (is_undefined f.2); [done|]. simpl. by rewrite jnorm_defined, Hf.
Qed.

Lemma jnorm_normal v : json_normal (jnorm v) = true.
Proof.
  induction v as [| | | | | |l IH|fs IH] using jsval_deep_ind; try done; simpl.
  - induction IH as [|v l Hv _ IH]; [done|]. simpl. by rewrite Hv.
  - induction IH as [|f fs Hf _ IH]; [done|]. simpl. destruct (is_undefined f.2); [done|]. simpl. by rewrite Hf.
Qed.

(** Items of an array or object, separated by commas. *)
Lemma commas_prefix {A : Type} (enc : A -> text) (close : ascii) xs ys r r' :
  close ≠ "," -> delimited [close] ->
  (forall x, x ∈ xs ++ ys -> exists c l, enc x = c :: l /\ c ≠ close) ->
  (forall x y t t', x ∈ xs -> y ∈ ys -> delimited t -> delimited t' -> enc x ++ t = enc y ++ t' -> x = y /\ t = t') ->
  commas (enc <$> xs) ++ close :: r = commas (enc <$> ys) ++ close :: r' -> xs = ys /\ r = r'.
Proof.
  intros Hc Hd Hhead Hpre. revert ys Hhead Hpre.
  set (tail := fun (l : list A) (t : text) => match l with [] => close :: t | _ => "," :: commas (enc <$> l) ++ close :: t end).
  assert (Htail : forall x l t, commas (enc <$> (x :: l)) ++ close :: t = enc x ++ tail l t).
  { intros x [|y l] t; simpl; [done|]. by rewrite <-app_assoc. }
  assert (Hdel : forall l t, delimited (tail l t)) by (intros [|y l] t; simpl; [exact Hd|by left]).
  induction xs as [|x xs IH]; intros [|y ys] Hhead Hpre H.
  - by injection H.
  - destruct (Hhead y) as (c & l & He & Hne); [left|]. rewrite Htail, He in H. injection H as H _. by subst.
  - destruct (Hhead x) as (c & l & He & Hne); [left|]. rewrite Htail, He in H. injection H as H _. by subst.
  - rewrite !Htail in H. apply Hpre in H as [-> H]; [|left|left|apply Hdel..].
    destruct xs as [|x' xs], ys as [|y' ys]; unfold tail in H.
    { injection H as H. by subst. }
    { injection H as H _. congruence. }
    { injection H as H _. congruence. }
    apply (app_inv_head [","] (commas _ ++ _)), IH in H as [-> ->]; [done| |].
    + intros z Hz. apply Hhead. set_solver.
    + intros u v t t' Hu Hv. apply Hpre; by right.
Qed.

Definition member (f : string * jsval) : text := quote (str f.1) ++ ":" :: stringify f.2.

Lemma stringify_members fs :
  forallb (fun f => json_normal f.2) fs = true ->
  stringify (JObj fs) = "{" :: commas (member <$> fs) ++ ["}"].
Proof.
  intros Hn. simpl. do 3 f_equal. induction fs as [|f fs IH]; [done|]. simpl in *.
  apply andb_true_iff in Hn as [Hf Hn]. rewrite IH by done. by destruct f as [k []].
Qed.

(** No value starts with a closing bracket. *)
Lemma stringify_head v : exists c l, stringify v = c :: l /\ c ≠ "]".
Proof.
  destruct v as [| |[]|n| | | |]; try (eexists _, _; split; [reflexivity|done]).
  destruct (pretty_head n) as (c & l & Hl & Hc). exists c, l. split; [done|]. by intros ->.
Qed.

Lemma forallb_elem {A} (f : A -> bool) l x : forallb f l = true -> x ∈ l -> f x = true.
Proof. rewrite forallb_forall. intros H Hx. by apply H, list_elem_of_In. Qed.

Definition value_prefix (v : jsval) : Prop :=
  forall w r r', json_normal v = true -> json_normal w = true -> delimited r -> delimited r' ->
    stringify v ++ r = stringify w ++ r' -> v = w /\ r = r'.

(** Two values whose texts start with different characters. *)
Ltac other_head H := exfalso; simpl in H; unfold quote, dquote in H; discriminate H.

Lemma number_head (n : Z) r c t : str (pretty n) ++ r = c :: t -> numeric c = true.
Proof. destruct (pretty_head n) as (x & l & -> & Hx). by intros [= -> _]. Qed.

Ltac number_head H := exfalso; simpl in H; first [apply number_head in H | symmetry in H; apply number_head in H]; vm_compute in H; discriminate H.

Lemma array_prefix l : Forall value_prefix l -> value_prefix (JArr l).
Proof.
  intros IH w r r' Hv Hw Hr Hr' H. destruct w as [| |[]|n| | |l'|]; try other_head H; [number_head H|].
  simpl in H, Hv, Hw. rewrite <-!app_assoc in H. apply (app_inv_head ["["]) in H.
  apply (commas_prefix stringify "]") in H as [-> ->]; [done|done|by right; left|..].
  - intros x _. apply stringify_head.
  - intros x y t t' Hx Hy Ht Ht' He. rewrite Forall_forall in IH.
    apply (IH x Hx) in He; try done; [exact (forallb_elem _ _ _ Hv Hx)|exact (forallb_elem _ _ _ Hw Hy)].
Qed.

Lemma object_prefix fs : Forall (fun f => value_prefix f.2) fs -> value_prefix (JObj fs).
Proof.
  intros IH w r r' Hv Hw Hr Hr' H. destruct w as [| |[]|n| | | |fs']; try other_head H; [number_head H|].
  simpl in Hv, Hw. rewrite !stringify_members in H by done.
  simpl in H. rewrite <-!app_assoc in H. apply (app_inv_head ["{"]) in H.
  apply (commas_prefix member "}") in H as [-> ->]; [done|done|by right; right|..].
  - intros x _. unfold member, quote. eexists _, _. split; [reflexivity|done].
  - intros [k x] [k' y] t t' Hx Hy Ht Ht'. unfold member, fst, snd. rewrite <-!app_assoc.
    intros [Hk He]%quote_prefix. apply str_inj in Hk as ->. apply (app_inv_head [":"]) in He.
    rewrite Forall_forall in IH. apply (IH _ Hx) in He as [Hxy ->]; simpl in *; try done; [by subst|..].
    + by apply (forallb_elem _ _ _ Hv) in Hx.
    + by apply (forallb_elem _ _ _ Hw) in Hy.
Qed.

Lemma stringify_prefix v : value_prefix v.
Proof.
  induction v as [| |b|n| |s|l IH|fs IH] using jsval_deep_ind; try by intros w r r' ?.
  - intros w r r' _ Hw _ _ H. destruct w as [| |[]|n| | | |]; try done; try other_head H; [|number_head H].
    simpl in H. by injection H as ->.
  - intros w r r' _ Hw _ _ H. destruct b, w as [| |[]|n| | | |]; try done; try other_head H; try number_head H;
      simpl in H; by injection H as ->.
  - intros w r r' _ Hw Hr Hr' H. destruct w as [| |[]|m| | | |]; try done; try number_head H.
    by apply number_prefix in H as [-> ->].
  - intros w r r' _ Hw Hr Hr' H. destruct w as [| |[]|m| |s'| |]; try done; try other_head H; [number_head H|].
    simpl in H. apply quote_prefix in H as [Hs ->]. by apply str_inj in Hs as ->.
  - by apply array_prefix.
  - by apply object_prefix.
Qed.

(** The text determines the value, up to what JSON cannot express. *)
Lemma stringify_inj v w : stringify v = stringify w -> jnorm v = jnorm w.
Proof.
  intros H. rewrite <-(stringify_jnorm v), <-(stringify_jnorm w) in H.
  apply (stringify_prefix (jnorm v) (jnorm w) [] []); [apply jnorm_normal..|done|done|].
  by rewrite !app_nil_r.
Qed.

(** ** Fields of a canonical object *)

Lemma m_get_perm {V : Type} (m m' : list (string * V)) k :
  NoDup (m_keys m) -> m ≡ₚ m' -> m_get k m = m_get k m'.
Proof.
  intros Hnd Hp. assert (Hnd' : NoDup (m_keys m')) by (unfold m_keys in *; by rewrite <-Hp).
  destruct (m_get k m) as [v|] eqn:E.
  - symmetry. apply elem_m_get; [done|]. rewrite <-Hp. by apply m_get_elem.
  - symmetry. apply not_elem_of_m_keys. unfold m_keys in *. rewrite <-Hp. by apply not_elem_of_m_keys.
Qed.

Lemma m_get_map {V W : Type} (f : V -> W) (m : list (string * V)) k :
  m_get k (List.map (fun p => (p.1, f p.2)) m) = f <$> m_get k m.
Proof. induction m as [|[k' v] m IH]; [done|]. simpl. by case_decide. Qed.

Lemma m_get_defined (m : list (string * jsval)) k :
  NoDup (m_keys m) ->
  m_get k (defined_fields m) = (v ← m_get k m; if is_undefined v then None else Some v).
Proof.
  unfold defined_fields. induction m as [|[k' v] m IH]; intros Hnd; [done|].
  apply NoDup_cons in Hnd as [Hk Hnd]. rewrite filter_cons. simpl. case_decide as Hu; simpl; case_decide as He.
  - subst. cbn. by rewrite Hu.
  - by apply IH.
  - subst. cbn. destruct (is_undefined v); [|done]. rewrite IH by done.
    apply not_elem_of_m_keys in Hk. simpl in Hk. by rewrite Hk.
  - by apply IH.
Qed.

(** The canonical form of a value as far as its text shows it. *)
Definition canonical (v : jsval) : jsval := jnorm (canonicalize v).

Definition canonical_fields (fs : list (string * jsval)) : list (string * jsval) :=
  List.map (fun f => (f.1, jnorm f.2)) (defined_fields (sort_fields (List.map (fun f => (f.1, canonicalize f.2)) fs))).

Lemma canonical_object fs : canonical (JObj fs) = JObj (canonical_fields fs).
Proof.
  unfold canonical, canonical_fields. simpl. f_equal. set (gs := sort_fields _). clearbody gs.
  induction gs as [|[k v] gs IH]; [done|]. unfold defined_fields in *. rewrite filter_cons; simpl.
  case_decide as Hu; simpl; [|done]. by rewrite Hu, IH.
Qed.

Lemma canonicalize_undefined v : is_undefined (canonicalize v) = is_undefined v.
Proof. by destruct v. Qed.

Lemma keys_map {V W : Type} (f : V -> W) (m : list (string * V)) :
  m_keys (List.map (fun p => (p.1, f p.2)) m) = m_keys m.
Proof. unfold m_keys. induction m as [|[k v] m IH]; [done|]. cbn. f_equal. exact IH. Qed.

Lemma sort_fields_perm fs : sort_fields fs ≡ₚ fs.
Proof. apply merge_sort_Permutation. Qed.

(** What the canonical object says about a key. *)
Definition shown (fs : list (string * jsval)) (k : string) : option jsval :=
  v ← m_get k fs; if is_undefined v then None else Some (canonical v).

Lemma canonical_fields_get fs k : NoDup (m_keys fs) -> m_get k (canonical_fields fs) = shown fs k.
Proof.
  intros Hnd. unfold canonical_fields, shown. rewrite m_get_map.
  set (hs := List.map (fun f => (f.1, canonicalize f.2)) fs).
  assert (Hh : NoDup (m_keys hs)) by (unfold hs; by rewrite keys_map).
  assert (Hs : NoDup (m_keys (sort_fields hs))) by (unfold m_keys in *; by rewrite sort_fields_perm).
  rewrite m_get_defined by done. rewrite (m_get_perm _ hs) by (done || apply sort_fields_perm).
  unfold hs. rewrite m_get_map. destruct (m_get k fs) as [v|]; [|done]. simpl.
  rewrite canonicalize_undefined. by destruct (is_undefined v).
Qed.

Lemma key_le_total a b : key_le a b \/ key_le b a.
Proof. unfold key_le. destruct (String.leb_total a.1 b.1); auto. Qed.

Lemma ascii_compare_lt_trans a b c : Ascii.compare a b = Lt -> Ascii.compare b c = Lt -> Ascii.compare a c = Lt.
Proof. unfold Ascii.compare. rewrite !N.compare_lt_iff. lia. Qed.

Lemma string_leb_cons a s b t :
  String.leb (String a s) (String b t) = true <->
  Ascii.compare a b = Lt \/ (a = b /\ String.leb s t = true).
Proof.
  unfold String.leb. simpl. destruct (Ascii.compare a b) eqn:E.
  - apply Ascii.compare_eq_iff in E. subst. split; [by right|]. by intros [H|[_ H]].
  - split; [by left|done].
  - split; [done|]. intros [H|[-> _]]; [done|].
    unfold Ascii.compare in E. by rewrite N.compare_refl in E.
Qed.

Lemma string_leb_trans s t u : String.leb s t = true -> String.leb t u = true -> String.leb s u = true.
Proof.
  revert t u. induction s as [|a s IH]; intros [|b t] [|c u]; try done.
  rewrite !string_leb_cons. intros [H1|[-> H1]] [H2|[-> H2]]; [left|by left|by left|right; eauto].
  by eapply ascii_compare_lt_trans.
Qed.

Lemma canonical_fields_sorted fs : StronglySorted key_le (canonical_fields fs).
Proof.
  unfold canonical_fields. set (hs := List.map _ fs).
  assert (H : StronglySorted key_le (sort_fields hs)).
  { apply Sorted_StronglySorted; [intros a b c; apply string_leb_trans|].
    apply Sorted_merge_sort. intros a b. apply key_le_total. }
  assert (Hd : StronglySorted key_le (defined_fields (sort_fields hs))) by by apply StronglySorted_filter.
  induction Hd as [|f l _ IH Hf]; [constructor|]. simpl. constructor; [done|]. 
  rewrite Forall_map. done.
Qed.

Lemma NoDup_defined_fields m : NoDup (m_keys m) -> NoDup (m_keys (defined_fields m)).
Proof.
  unfold defined_fields. induction m as [|[k v] m IH]; intros Hnd; [done|].
  apply NoDup_cons in Hnd as [Hk Hnd]. rewrite filter_cons. case_decide; [|by apply IH].
  apply NoDup_cons. split; [|by apply IH]. contradict Hk.
  apply list_elem_of_fmap in Hk as (p & -> & [_ Hp]%list_elem_of_filter). by apply list_elem_of_fmap_2.
Qed.

Lemma canonical_fields_NoDup fs : NoDup (m_keys fs) -> NoDup (m_keys (canonical_fields fs)).
Proof.
  intros Hnd. unfold canonical_fields. rewrite keys_map. apply NoDup_defined_fields.
  unfold m_keys. rewrite sort_fields_perm.
  change (NoDup (m_keys (List.map (fun f => (f.1, canonicalize f.2)) fs))). by rewrite keys_map.
Qed.

(** The signed text determines the value and does not depend on the order of
    keys: two objects have the same canonical text exactly when they agree, in
    canonical form, on every key. *)
Lemma canonical_text_exact (fs gs : list (string * jsval)) :
  NoDup (m_keys fs) -> NoDup (m_keys gs) ->
  stringify (canonicalize (JObj fs)) = stringify (canonicalize (JObj gs)) <->
  forall k, shown fs k = shown gs k.
Proof.
  intros Hf Hg. split.
  - intros H%stringify_inj k. change (canonical (JObj fs) = canonical (JObj gs)) in H.
    rewrite !canonical_object in H. injection H as H. by rewrite <-!canonical_fields_get, H.
  - intros Hk. rewrite <-(stringify_jnorm (canonicalize (JObj fs))), <-(stringify_jnorm (canonicalize (JObj gs))).
    change (stringify (canonical (JObj fs)) = stringify (canonical (JObj gs))).
    rewrite !canonical_object. do 2 f_equal.
    pose proof (canonical_fields_NoDup _ Hf) as Nf. pose proof (canonical_fields_NoDup _ Hg) as Ng.
    assert (Hin : forall p, p ∈ canonical_fields fs <-> p ∈ canonical_fields gs).
    { intros [k v]. split; intros Hp; apply m_get_elem; [rewrite canonical_fields_get, <-Hk, <-canonical_fields_get by done|
        rewrite canonical_fields_get, Hk, <-canonical_fields_get by done]; by apply elem_m_get. }
    apply (StronglySorted_unique_strong key_le); [|apply canonical_fields_sorted..|].
    + intros [k1 v1] [k2 v2] H1 H2 Hle Hge. assert (k1 = k2) as -> by by apply String.leb_antisym.
      apply Hin in H1. f_equal. apply (elem_m_get _ _ _ Ng) in H1, H2. congruence.
    + apply NoDup_Permutation; [by apply NoDup_fmap_1 in Nf|by apply NoDup_fmap_1 in Ng|done].
Qed.

Lemma canonical_text_exact_witness :
  let fs := [("b", JNum 1); ("a", JArr [JNull])]%string in
  let gs := [("a", JArr [JUndefined]); ("b", JNum 1); ("c", JUndefined)]%string in
  stringify (canonicalize (JObj fs)) = stringify (canonicalize (JObj gs)).
Proof.
  intros fs gs. apply (canonical_text_exact fs gs).
  - apply (bool_decide_unpack (NoDup (m_keys fs))). vm_compute. exact I.
  - apply (bool_decide_unpack (NoDup (m_keys gs))). vm_compute. exact I.
  - intros k. unfold shown, fs, gs. simpl. repeat case_decide; subst; done.
Defined.
