(* ===== verification/Delegation.v ===== *)
(** * Capability delegation

    [security/governance-delegation/src] with [kernel/core/src/capability.ts] and
    the permission operations of [kernel/core/src/delegation.ts]: attenuation,
    the default scope checker, the in-memory revocation registry, issue and
    delegation of tokens, and the verifier that walks a chain of tokens to its
    root.  Hashing, signatures and Base64 are parameters ([Crypto]); the stores
    are type classes, of which the in-memory registry is an instance.  Tokens
    that come from outside are [jsval]s until their shape is checked.  An
    operation of a store that throws is [None]; [runVerify] turns every
    exception into a refusal, which is what its callees return here.  The state
    of the stores does not change while one token is verified. *)

From S2P Require Import Prelude JsMap Text Canonical.

Local Open Scope string_scope.
Local Open Scope list_scope.
Local Open Scope Z_scope.

(** ** Permissions: [kernel/core/src/delegation.ts], [attenuation.ts] *)

Record PermissionConfig : Type := mkPerms {
  p_allow : option (list string);
  p_deny : option (list string);
  p_ask : option (list string)
}.

(** [list ?? []] *)
Definition entries (l : option (list string)) : list string := default [] l.

Definition isPermissionSubset (child parent : PermissionConfig) : bool :=
  let parentAllow := entries (p_allow parent) in
  if negb (s_has "*" parentAllow) && negb (forallb (fun perm => s_has perm parentAllow) (entries (p_allow child)))
  then false
  else forallb (fun perm => s_has perm (entries (p_deny child))) (entries (p_deny parent)).

Definition intersectPermissions (parent child : PermissionConfig) : list string :=
  let parentAllow := entries (p_allow parent) in
  let childAllow := entries (p_allow child) in
  if s_has "*" parentAllow then childAllow
  else if s_has "*" childAllow then parentAllow
  else filter (fun tool => s_has tool parentAllow = true) childAllow.

Definition unionDenyLists (parent child : PermissionConfig) : list string :=
  s_addAll (entries (p_deny parent) ++ entries (p_deny child)) [].

Definition isPermissionSubsetWithAsk (child parent : PermissionConfig) : bool :=
  if negb (isPermissionSubset child parent) then false
  else
    let parentAsk := entries (p_ask parent) in
    if decide (length parentAsk = 0%nat) then true
    else forallb (fun entry => s_has entry (entries (p_ask child)) || s_has entry (entries (p_deny child))) parentAsk.

Definition isResourceSubset (child parent : option (list string)) : bool :=
  match parent with
  | None | Some [] => true
  | Some parentSet =>
      match child with
      | None | Some [] => false
      | Some es => forallb (fun entry => s_has entry parentSet) es
      end
  end.

(** ** Tokens: [kernel/core/src/capability.ts] *)

Record CapabilityScope : Type := mkScope {
  sc_permissions : PermissionConfig;
  sc_resources : option (list string);
  sc_sessionId : string
}.

(** A proof is its kind and its other fields, of any type. *)
Record CapabilityProof : Type := mkProof { pf_kind : string; pf_fields : list (string * jsval) }.

Definition hmac_proof (digest : string) : CapabilityProof := mkProof "hmac-sha256" [("digest", JStr digest)].
Definition ed25519_proof (publicKey signature : string) : CapabilityProof :=
  mkProof "ed25519" [("publicKey", JStr publicKey); ("signature", JStr signature)].

(** Fields whose type the shape check does not establish stay [jsval]s;
    [ct_extra] are the fields the code only signs. *)
Record CapabilityToken : Type := mkToken {
  ct_id : string;
  ct_issuerId : string;
  ct_delegateeId : string;
  ct_scope : CapabilityScope;
  ct_parentId : option string;
  ct_chainDepth : jsval;
  ct_maxChainDepth : jsval;
  ct_createdAt : jsval;
  ct_expiresAt : jsval;
  ct_requiresPoP : jsval;
  ct_proof : CapabilityProof;
  ct_extra : list (string * jsval)
}.

Record VerifyContext : Type := mkContext { vc_toolId : string; vc_now : jsval; vc_activeSessionIds : list string }.

Inductive CapabilityDenyReason : Type :=
  | R_expired | R_revoked | R_scope_exceeded | R_chain_depth_exceeded | R_invalid_signature
  | R_unknown_grant | R_session_expired | R_escalation_denied | R_session_invalid | R_proof_type_unsupported.

#[export] Instance CapabilityDenyReason_eq_dec : EqDecision CapabilityDenyReason.
Proof. solve_decision. Defined.

(** ** The default scope checker: [scope-checker.ts] *)

Definition ends_with_star (p : text) : bool := bool_decide (last p = Some "*"%char).

Definition matchesPattern (toolId pattern : string) : bool :=
  if decide (pattern = "*") then true
  else if ends_with_star (str pattern) then starts_with (removelast (str pattern)) (str toolId)
  else bool_decide (toolId = pattern).

Definition matchesAny (toolId : string) (patterns : list string) : bool := existsb (matchesPattern toolId) patterns.

Definition hasGroupPattern (patterns : option (list string)) : bool :=
  match patterns with None => false | Some ps => existsb (fun p => starts_with (str "group:") (str p)) ps end.

(** [isAllowed] of [createGlobScopeChecker]. *)
Definition isAllowed (toolId : string) (scope : CapabilityScope) : bool :=
  let perms := sc_permissions scope in
  if negb (bool_decide (entries (sc_resources scope) = [])) then false
  else if hasGroupPattern (p_allow perms) || hasGroupPattern (p_deny perms) || hasGroupPattern (p_ask perms) then false
  else if matchesAny toolId (entries (p_deny perms)) then false
  else if matchesAny toolId (entries (p_ask perms)) then false
  else matchesAny toolId (entries (p_allow perms)).

(** A scope checker answers or throws. *)
Definition ScopeChecker : Type := string -> CapabilityScope -> option bool.

Definition createGlobScopeChecker : ScopeChecker := fun toolId scope => Some (isAllowed toolId scope).

(** ** Signing: [canonical.ts], [hmac.ts], [ed25519.ts], [signer.ts] *)

Definition opt_field (k : string) (v : option jsval) : list (string * jsval) :=
  match v with Some v => [(k, v)] | None => [] end.

Definition strings (l : list string) : jsval := JArr (JStr <$> l).

Definition permissions_object (p : PermissionConfig) : jsval :=
  JObj (opt_field "allow" (strings <$> p_allow p) ++ opt_field "deny" (strings <$> p_deny p) ++
        opt_field "ask" (strings <$> p_ask p)).

Definition scope_object (s : CapabilityScope) : jsval :=
  JObj ([("permissions", permissions_object (sc_permissions s)); ("sessionId", JStr (sc_sessionId s))] ++
        opt_field "resources" (strings <$> sc_resources s)).

(** The token without its proof, as an object. *)
Definition unsigned_fields (t : CapabilityToken) : list (string * jsval) :=
  [("id", JStr (ct_id t)); ("issuerId", JStr (ct_issuerId t)); ("delegateeId", JStr (ct_delegateeId t));
   ("scope", scope_object (ct_scope t))] ++ opt_field "parentId" (JStr <$> ct_parentId t) ++
  [("chainDepth", ct_chainDepth t); ("maxChainDepth", ct_maxChainDepth t);
   ("createdAt", ct_createdAt t); ("expiresAt", ct_expiresAt t); ("requiresPoP", ct_requiresPoP t)] ++ ct_extra t.

Definition proof_object (p : CapabilityProof) : jsval := JObj (("kind", JStr (pf_kind p)) :: pf_fields p).

Definition token_object (t : CapabilityToken) : jsval :=
  JObj (unsigned_fields t ++ [("proof", proof_object (ct_proof t))]).

Definition serializeForSigning (t : CapabilityToken) : text := stringify (canonicalize (JObj (unsigned_fields t))).

(** Bytes are strings.  [buffer_from] is [Buffer.from(_, "base64")], which may
    throw; [ed25519_verify] is false for a key that does not parse. *)
Record Crypto : Type := mkCrypto {
  hmac_sha256 : string -> text -> string;
  ed25519_sign : string -> text -> string;
  ed25519_verify : string -> text -> string -> bool;
  base64 : string -> string;
  buffer_from : jsval -> option string
}.

Inductive CapabilitySigner : Type :=
  | Sg_hmac (secret : string)
  | Sg_ed25519 (privateKey publicKeyFingerprint : string).

(** ** Registry and token store: [revocation.ts] *)

Class CapabilityTokenStore (St : Type) : Type := {
  store_get : string -> St -> option (option jsval);
  store_ids : St -> list string
}.

(** The ids a store may know; they bound the walk through a chain. *)
Class TokenStoreLaws (St : Type) `{CapabilityTokenStore St} : Prop :=
  store_finite id st tok : store_get id st = Some (Some tok) -> id ∈ store_ids st.

Class CapabilityRevocationRegistry (Rg : Type) : Type := {
  rg_register : CapabilityToken -> Rg -> option Rg;
  rg_isRevoked : string -> Rg -> option bool;
  rg_revoke : string -> bool -> Rg -> option Rg
}.

Record MemoryRegistry : Type := mkRegistry {
  mr_revoked : list string;
  mr_children : list (string * list string);
  mr_parents : list (string * string);
  mr_tokens : list (string * CapabilityToken)
}.

Definition createMemoryCapabilityRevocationRegistry : MemoryRegistry := mkRegistry [] [] [] [].

Fixpoint ancestor_loop (fuel : nat) (revoked : list string) (parents : list (string * string))
    (cursor : option string) (seen : list string) : option bool :=
  match fuel with
  | O => None
  | S fuel =>
      match cursor with
      | None => Some false
      | Some c =>
          if s_has c seen then Some false
          else if s_has c revoked then Some true
          else ancestor_loop fuel revoked parents (m_get c parents) (s_add c seen)
      end
  end.

Definition isAnyAncestorRevoked (start : string) (r : MemoryRegistry) : option bool :=
  ancestor_loop (3 + length (mr_parents r)) (mr_revoked r) (mr_parents r) (Some start) [].

(** The loop over the children of one token: what is pushed, [seen], [revoked]. *)
Fixpoint kid_loop (kids queue seen revoked : list string) : list string * list string * list string :=
  match kids with
  | [] => (queue, seen, revoked)
  | kid :: kids =>
      if s_has kid seen then kid_loop kids queue seen revoked
      else kid_loop kids (queue ++ [kid]) (s_add kid seen) (s_add kid revoked)
  end.

Fixpoint cascade_loop (fuel : nat) (children : list (string * list string)) (queue seen revoked : list string) :
    option (list string) :=
  match fuel with
  | O => None
  | S fuel =>
      match queue with
      | [] => Some revoked
      | next :: queue =>
          match m_get next children with
          | None => cascade_loop fuel children queue seen revoked
          | Some kids =>
              let '(queue', seen', revoked') := kid_loop kids queue seen revoked in
              cascade_loop fuel children queue' seen' revoked'
          end
      end
  end.

Definition with_revoked (revoked : list string) (r : MemoryRegistry) : MemoryRegistry :=
  mkRegistry revoked (mr_children r) (mr_parents r) (mr_tokens r).

Definition cascadeRevokeFrom (start : string) (r : MemoryRegistry) : option MemoryRegistry :=
  match cascade_loop (3 + length (concat (m_values (mr_children r)))) (mr_children r) [start] [start] (mr_revoked r) with
  | Some revoked => Some (with_revoked revoked r)
  | None => None
  end.

Definition register (token : CapabilityToken) (r : MemoryRegistry) : option MemoryRegistry :=
  let tokens := m_set (ct_id token) token (mr_tokens r) in
  match ct_parentId token with
  | None => Some (mkRegistry (mr_revoked r) (mr_children r) (mr_parents r) tokens)
  | Some parentId =>
      let set := s_add (ct_id token) (default [] (m_get parentId (mr_children r))) in
      let r1 := mkRegistry (mr_revoked r) (m_set parentId set (mr_children r))
                  (m_set (ct_id token) parentId (mr_parents r)) tokens in
      match isAnyAncestorRevoked parentId r1 with
      | None => None
      | Some true => cascadeRevokeFrom (ct_id token) (with_revoked (s_add (ct_id token) (mr_revoked r1)) r1)
      | Some false => Some r1
      end
  end.

Definition isRevoked (id : string) (r : MemoryRegistry) : bool := s_has id (mr_revoked r).

Definition revoke (id : string) (cascade : bool) (r : MemoryRegistry) : option MemoryRegistry :=
  let r1 := with_revoked (s_add id (mr_revoked r)) r in
  if cascade then cascadeRevokeFrom id r1 else Some r1.

Definition get (id : string) (r : MemoryRegistry) : option CapabilityToken := m_get id (mr_tokens r).

#[export] Instance memory_token_store : CapabilityTokenStore MemoryRegistry :=
  {| store_get id r := Some (token_object <$> get id r); store_ids r := m_keys (mr_tokens r) |}.

#[export] Instance memory_registry : CapabilityRevocationRegistry MemoryRegistry :=
  {| rg_register := register; rg_isRevoked id r := Some (isRevoked id r); rg_revoke := revoke |}.

(** ** Issue and delegation: [issue.ts] *)

Section Issue.
Context (crypto : Crypto) {Rg : Type} `{CapabilityRevocationRegistry Rg}.

Definition signHmac (token : CapabilityToken) (secret : string) : string :=
  base64 crypto (hmac_sha256 crypto secret (serializeForSigning token)).

Definition signEd25519 (token : CapabilityToken) (privateKey : string) : string :=
  base64 crypto (ed25519_sign crypto privateKey (serializeForSigning token)).

Definition buildProof (token : CapabilityToken) (signer : CapabilitySigner) : CapabilityProof :=
  match signer with
  | Sg_hmac secret => hmac_proof (signHmac token secret)
  | Sg_ed25519 privateKey fingerprint => ed25519_proof fingerprint (signEd25519 token privateKey)
  end.

Definition with_proof (proof : CapabilityProof) (t : CapabilityToken) : CapabilityToken :=
  mkToken (ct_id t) (ct_issuerId t) (ct_delegateeId t) (ct_scope t) (ct_parentId t) (ct_chainDepth t)
    (ct_maxChainDepth t) (ct_createdAt t) (ct_expiresAt t) (ct_requiresPoP t) proof (ct_extra t).

(** What issuing ends with: an exception, a refusal or the token, and the registry. *)
Inductive Issued : Type :=
  | Is_threw (message : string)
  | Is_refused (error : KoiError)
  | Is_token (token : CapabilityToken) (registry : option Rg).

Definition signAndRegister (unsigned : CapabilityToken) (signer : CapabilitySigner) (registry : option Rg) : Issued :=
  let signed := with_proof (buildProof unsigned signer) unsigned in
  match registry with
  | None => Is_token signed None
  | Some rg =>
      match rg_register signed rg with
      | Some rg' => Is_token signed (Some rg')
      | None => Is_threw "register"
      end
  end.

Definition finite (v : jsval) : option Z := match v with JNum n => Some n | _ => None end.

Definition issueRootCapability (signer : CapabilitySigner) (issuerId delegateeId : string) (scope : CapabilityScope)
    (ttlMs maxChainDepth now : jsval) (id : string) (registry : option Rg) : Issued :=
  match finite ttlMs with
  | None => Is_threw "issueRootCapability: ttlMs must be a finite number > 0"
  | Some ttl =>
      if ttl <=? 0 then Is_threw "issueRootCapability: ttlMs must be a finite number > 0"
      else
        match finite maxChainDepth with
        | None => Is_threw "issueRootCapability: maxChainDepth must be a finite number >= 0"
        | Some maxDepth =>
            if maxDepth <? 0 then Is_threw "issueRootCapability: maxChainDepth must be a finite number >= 0"
            else
              match finite now with
              | None => Is_threw "issueRootCapability: now() must return a finite number"
              | Some now =>
                  signAndRegister
                    (mkToken id issuerId delegateeId scope None (JNum 0) (JNum maxDepth) (JNum now)
                       (JNum (now + ttl)) JUndefined (hmac_proof "") [])
                    signer registry
              end
        end
  end.

Inductive DelegationFailureReason : Type :=
  | F_expired | F_chain_depth_exceeded | F_scope_exceeded | F_session_mismatch | F_ttl_exceeds_parent.

Definition reason_name (reason : DelegationFailureReason) : string :=
  match reason with
  | F_expired => "expired" | F_chain_depth_exceeded => "chain_depth_exceeded" | F_scope_exceeded => "scope_exceeded"
  | F_session_mismatch => "session_mismatch" | F_ttl_exceeds_parent => "ttl_exceeds_parent"
  end.

Definition fail (reason : DelegationFailureReason) : KoiError :=
  let context := Some [("reason", JStr (reason_name reason))] in
  match reason with
  | F_expired => mkKoiError VALIDATION "delegateCapability: parent expired" false context None
  | _ => mkKoiError PERMISSION ("delegateCapability: " +:+ reason_name reason) false context None
  end.

(** The number a field holds; the comparisons below are made only on tokens
    whose fields are numbers, as the type of [parent] promises. *)
Definition num (v : jsval) : Z := default 0 (finite v).

Definition delegateCapability (signer : CapabilitySigner) (parent : CapabilityToken) (delegateeId : string)
    (scope : CapabilityScope) (ttlMs now : jsval) (id : string) (registry : option Rg) : Issued :=
  match finite ttlMs with
  | None => Is_threw "delegateCapability: ttlMs must be a finite number > 0"
  | Some ttl =>
      if ttl <=? 0 then Is_threw "delegateCapability: ttlMs must be a finite number > 0"
      else
        match finite now with
        | None => Is_threw "delegateCapability: now() must return a finite number"
        | Some now =>
            if num (ct_expiresAt parent) <=? now then Is_refused (fail F_expired)
            else if num (ct_maxChainDepth parent) <? num (ct_chainDepth parent) + 1 then
              Is_refused (fail F_chain_depth_exceeded)
            else if negb (bool_decide (sc_sessionId (ct_scope parent) = sc_sessionId scope)) then
              Is_refused (fail F_session_mismatch)
            else if negb (isPermissionSubsetWithAsk (sc_permissions scope) (sc_permissions (ct_scope parent))) then
              Is_refused (fail F_scope_exceeded)
            else if negb (isResourceSubset (sc_resources scope) (sc_resources (ct_scope parent))) then
              Is_refused (fail F_scope_exceeded)
            else if num (ct_expiresAt parent) <? now + ttl then Is_refused (fail F_ttl_exceeds_parent)
            else
              signAndRegister
                (mkToken id (ct_delegateeId parent) delegateeId scope (Some (ct_id parent))
                   (JNum (num (ct_chainDepth parent) + 1)) (ct_maxChainDepth parent) (JNum now) (JNum (now + ttl))
                   JUndefined (hmac_proof "") [])
                signer registry
        end
  end.
End Issue.
Arguments Issued : clear implicits.
Arguments Is_threw {Rg}.
Arguments Is_refused {Rg}.
Arguments Is_token {Rg}.

(** ** Verification: [verifier.ts] *)

Record HmacOptions : Type := mkHmac { ho_secret : string; ho_rootIssuer : option string }.

Record Ed25519Options : Type := mkEd {
  eo_publicKeys : list (string * string);
  eo_issuerKeys : list (string * string);
  eo_rootKeys : list string
}.

Record CapabilityVerifierOptions (Rg St : Type) : Type := mkVerifier {
  vo_hmac : option HmacOptions;
  vo_ed25519 : option Ed25519Options;
  vo_scopeChecker : ScopeChecker;
  vo_revocations : option Rg;
  vo_tokenStore : option St
}.
Arguments mkVerifier {Rg St}.
Arguments vo_hmac {Rg St}.
Arguments vo_ed25519 {Rg St}.
Arguments vo_scopeChecker {Rg St}.
Arguments vo_revocations {Rg St}.
Arguments vo_tokenStore {Rg St}.

(** *** The shape of a token *)

(** [typeof v === "object"] with its named fields; an array has none. *)
Definition object_fields (v : jsval) : option (list (string * jsval)) :=
  match v with JObj fs => Some fs | JArr _ => Some [] | _ => None end.

Definition field (k : string) (fs : list (string * jsval)) : jsval := default JUndefined (m_get k fs).

Definition is_string (v : jsval) : bool := match v with JStr _ => true | _ => false end.

Definition isStringArrayOrAbsent (v : jsval) : bool :=
  match v with JUndefined => true | JArr l => forallb is_string l | _ => false end.

Definition validateTokenShape (token : jsval) : option CapabilityDenyReason :=
  match object_fields token with
  | None => Some R_invalid_signature
  | Some t =>
      if negb (is_string (field "id" t)) then Some R_invalid_signature
      else if negb (is_string (field "issuerId" t)) then Some R_invalid_signature
      else if negb (is_string (field "delegateeId" t)) then Some R_invalid_signature
      else
        match object_fields (field "scope" t) with
        | None => Some R_invalid_signature
        | Some scope =>
            match object_fields (field "permissions" scope) with
            | None => Some R_invalid_signature
            | Some perms =>
                if negb (isStringArrayOrAbsent (field "allow" perms)) ||
                   negb (isStringArrayOrAbsent (field "deny" perms)) ||
                   negb (isStringArrayOrAbsent (field "ask" perms)) then Some R_invalid_signature
                else if negb (isStringArrayOrAbsent (field "resources" scope)) then Some R_invalid_signature
                else if negb (is_string (field "sessionId" scope)) then Some R_invalid_signature
                else
                  match object_fields (field "proof" t) with
                  | None => Some R_proof_type_unsupported
                  | Some proof =>
                      if negb (is_string (field "kind" proof)) then Some R_proof_type_unsupported
                      else
                        match field "parentId" t with
                        | JUndefined | JStr _ => None
                        | _ => Some R_invalid_signature
                        end
                  end
            end
        end
  end.

(** *** Reading a token of that shape *)

Definition read_string (v : jsval) : string := match v with JStr s => s | _ => "" end.

Definition read_strings (v : jsval) : option (list string) :=
  match v with JArr l => Some (read_string <$> l) | _ => None end.

Definition named (v : jsval) : list (string * jsval) := default [] (object_fields v).

Definition known_keys : list string :=
  ["id"; "issuerId"; "delegateeId"; "scope"; "parentId"; "chainDepth"; "maxChainDepth"; "createdAt"; "expiresAt";
   "requiresPoP"; "proof"].

(** The token with its permission and resource lists rebuilt. *)
Definition normalizePermissionContainers (token : jsval) : CapabilityToken :=
  let t := named token in
  let scope := named (field "scope" t) in
  let perms := named (field "permissions" scope) in
  let proof := named (field "proof" t) in
  mkToken (read_string (field "id" t)) (read_string (field "issuerId" t)) (read_string (field "delegateeId" t))
    (mkScope (mkPerms (read_strings (field "allow" perms)) (read_strings (field "deny" perms)) (read_strings (field "ask" perms)))
       (read_strings (field "resources" scope)) (read_string (field "sessionId" scope)))
    (match field "parentId" t with JStr s => Some s | _ => None end)
    (field "chainDepth" t) (field "maxChainDepth" t) (field "createdAt" t) (field "expiresAt" t) (field "requiresPoP" t)
    (mkProof (read_string (field "kind" proof)) (m_delete "kind" proof))
    (filter (fun f => f.1 ∉ known_keys) t).

Section Verify.
Context (crypto : Crypto) {Rg St : Type} `{CapabilityRevocationRegistry Rg} `{CapabilityTokenStore St}.
Context (opts : CapabilityVerifierOptions Rg St) (ctx : VerifyContext).

Definition verifyHmac (token : CapabilityToken) (secret : string) : bool :=
  if negb (bool_decide (pf_kind (ct_proof token) = "hmac-sha256")) then false
  else
    match buffer_from crypto (field "digest" (pf_fields (ct_proof token))) with
    | None => false
    | Some actual => bool_decide (hmac_sha256 crypto secret (serializeForSigning token) = actual)
    end.

Definition lookup_key (k : jsval) (keys : list (string * string)) : option string :=
  match k with JStr s => m_get s keys | _ => None end.

Definition verifyEd25519 (token : CapabilityToken) (publicKeys : list (string * string)) : bool :=
  if negb (bool_decide (pf_kind (ct_proof token) = "ed25519")) then false
  else
    match lookup_key (field "publicKey" (pf_fields (ct_proof token))) publicKeys with
    | None => false
    | Some key =>
        match buffer_from crypto (field "signature" (pf_fields (ct_proof token))) with
        | None => false
        | Some sigBytes => ed25519_verify crypto key (serializeForSigning token) sigBytes
        end
    end.

(** [None] is success, as in the code. *)
Definition verifySignature (token : CapabilityToken) : option CapabilityDenyReason :=
  if decide (pf_kind (ct_proof token) = "hmac-sha256") then
    match vo_hmac opts with
    | None => Some R_proof_type_unsupported
    | Some hmac => if verifyHmac token (ho_secret hmac) then None else Some R_invalid_signature
    end
  else if decide (pf_kind (ct_proof token) = "ed25519") then
    match vo_ed25519 opts with
    | None => Some R_proof_type_unsupported
    | Some ed =>
        if negb (verifyEd25519 token (eo_publicKeys ed)) then Some R_invalid_signature
        else
          match lookup_key (field "publicKey" (pf_fields (ct_proof token))) (eo_issuerKeys ed) with
          | Some bound => if decide (bound = ct_issuerId token) then None else Some R_invalid_signature
          | None => Some R_invalid_signature
          end
    end
  else Some R_proof_type_unsupported.

Definition verifyRootAuthority (token : CapabilityToken) : option CapabilityDenyReason :=
  if decide (pf_kind (ct_proof token) = "hmac-sha256") then
    match ho_rootIssuer <$> vo_hmac opts with
    | Some (Some expected) => if decide (ct_issuerId token = expected) then None else Some R_invalid_signature
    | _ => None
    end
  else if decide (pf_kind (ct_proof token) = "ed25519") then
    match vo_ed25519 opts with
    | Some ed =>
        match field "publicKey" (pf_fields (ct_proof token)) with
        | JStr key => if s_has key (eo_rootKeys ed) then None else Some R_invalid_signature
        | _ => Some R_invalid_signature
        end
    | None => Some R_invalid_signature
    end
  else None.

(** The shape check that the code repeats here holds of every [CapabilityToken]. *)
Definition verifyStructural (token : CapabilityToken) : option CapabilityDenyReason :=
  match finite (ct_createdAt token), finite (ct_expiresAt token), finite (ct_chainDepth token),
        finite (ct_maxChainDepth token), finite (vc_now ctx) with
  | Some createdAt, Some expiresAt, Some chainDepth, Some _, Some now =>
      match verifySignature token with
      | Some reason => Some reason
      | None =>
          if now <? createdAt then Some R_invalid_signature
          else if expiresAt <=? now then Some R_expired
          else if negb (s_has (sc_sessionId (ct_scope token)) (vc_activeSessionIds ctx)) then Some R_session_invalid
          else
            match (match vo_revocations opts with Some rg => rg_isRevoked (ct_id token) rg | None => Some false end) with
            | None => Some R_invalid_signature
            | Some true => Some R_revoked
            | Some false =>
                match ct_requiresPoP token with
                | JBool true => Some R_proof_type_unsupported
                | _ => if decide (chainDepth = 0) then verifyRootAuthority token else None
                end
            end
      end
  | _, _, _, _, _ => Some R_invalid_signature
  end.

(** The conditions between a token and its parent. *)
Definition verifyLink (child parent : CapabilityToken) : option CapabilityDenyReason :=
  if negb (bool_decide (ct_delegateeId parent = ct_issuerId child)) then Some R_invalid_signature
  else if negb (num (ct_chainDepth parent) + 1 =? num (ct_chainDepth child)) then Some R_invalid_signature
  else if num (ct_maxChainDepth parent) <? num (ct_chainDepth child) then Some R_invalid_signature
  else if num (ct_maxChainDepth parent) <? num (ct_maxChainDepth child) then Some R_invalid_signature
  else if num (ct_expiresAt parent) <? num (ct_expiresAt child) then Some R_expired
  else if negb (bool_decide (sc_sessionId (ct_scope parent) = sc_sessionId (ct_scope child))) then Some R_session_invalid
  else if negb (isPermissionSubsetWithAsk (sc_permissions (ct_scope child)) (sc_permissions (ct_scope parent))) then
    Some R_scope_exceeded
  else if negb (isResourceSubset (sc_resources (ct_scope child)) (sc_resources (ct_scope parent))) then Some R_scope_exceeded
  else None.

(** [!fetched].  Of the two values [JNonFinite] stands for, [NaN] is falsy and is
    refused with another reason here; no chain has either. *)
Definition falsy (v : jsval) : bool :=
  match v with
  | JUndefined | JNull => true
  | JBool b => negb b
  | JNum n => bool_decide (n = 0)
  | JStr s => bool_decide (s = "")
  | JNonFinite | JArr _ | JObj _ => false
  end.

(** The outer [None] is running out of fuel. *)
Fixpoint verifyChain (fuel : nat) (child : CapabilityToken) (visited : list string) :
    option (option CapabilityDenyReason) :=
  match fuel with
  | O => None
  | S fuel =>
      if decide (num (ct_chainDepth child) = 0) then
        match ct_parentId child with Some _ => Some (Some R_invalid_signature) | None => Some None end
      else
        match ct_parentId child with
        | None => Some (Some R_invalid_signature)
        | Some parentId =>
            match vo_tokenStore opts with
            | None => Some (Some R_unknown_grant)
            | Some store =>
                if s_has parentId visited then Some (Some R_invalid_signature)
                else
                  match store_get parentId store with
                  | None => Some (Some R_invalid_signature)
                  | Some None => Some (Some R_unknown_grant)
                  | Some (Some fetched) =>
                      if falsy fetched then Some (Some R_unknown_grant) else
                      match validateTokenShape fetched with
                      | Some reason => Some (Some reason)
                      | None =>
                          let parent := normalizePermissionContainers fetched in
                          if negb (bool_decide (ct_id parent = parentId)) then Some (Some R_unknown_grant)
                          else
                            match verifyStructural parent with
                            | Some reason => Some (Some reason)
                            | None =>
                                match verifyLink child parent with
                                | Some reason => Some (Some reason)
                                | None => verifyChain fuel parent (s_add parentId visited)
                                end
                            end
                      end
                  end
            end
        end
  end.

Definition chain_fuel : nat :=
  S (S (match vo_tokenStore opts with Some store => length (store_ids store) | None => 0%nat end)).

Definition runVerify (token : CapabilityToken) : option (Result CapabilityToken CapabilityDenyReason) :=
  match verifyStructural token with
  | Some reason => Some (Err reason)
  | None =>
      match verifyChain chain_fuel token [ct_id token] with
      | None => None
      | Some (Some reason) => Some (Err reason)
      | Some None =>
          match vo_scopeChecker opts (vc_toolId ctx) (ct_scope token) with
          | None => Some (Err R_invalid_signature)
          | Some false => Some (Err R_scope_exceeded)
          | Some true => Some (Ok token)
          end
      end
  end.

Definition verify (token : jsval) : option (Result CapabilityToken CapabilityDenyReason) :=
  match validateTokenShape token with
  | Some reason => Some (Err reason)
  | None => runVerify (normalizePermissionContainers token)
  end.
End Verify.
