(* ===== verification/DelegationSpec.v ===== *)
(** * What capability delegation promises

    Attenuation is a preorder that no chain of tokens can climb; the verifier
    accepts exactly the tokens with a valid chain to an authorised root, and
    always answers; what is delegated verifies; signatures bind every field;
    cascading revocation reaches every descendant, whatever the order of
    registrations. *)

From S2P Require Import Prelude JsMap Text Canonical Delegation.

Local Open Scope string_scope.
Local Open Scope list_scope.

(** ** Attenuation *)

Record attenuates (child parent : PermissionConfig) : Prop := {
  at_allow : "*" ∈ entries (p_allow parent) \/ entries (p_allow child) ⊆ entries (p_allow parent);
  at_deny : entries (p_deny parent) ⊆ entries (p_deny child);
  at_ask : forall e, e ∈ entries (p_ask parent) -> e ∈ entries (p_ask child) \/ e ∈ entries (p_deny child)
}.

Lemma forallb_spec {A} (f : A -> bool) l : forallb f l = true <-> forall x, x ∈ l -> f x = true.
Proof. rewrite forallb_forall. split; intros H x Hx; apply H; by apply list_elem_of_In. Qed.

Lemma subset_of_list (l l' : list string) : forallb (fun e => s_has e l') l = true <-> l ⊆ l'.
Proof. rewrite forallb_spec. split; intros H x Hx; apply s_has_true; auto. Qed.

Lemma isPermissionSubset_spec child parent :
  isPermissionSubset child parent = true <->
  ("*" ∈ entries (p_allow parent) \/ entries (p_allow child) ⊆ entries (p_allow parent)) /\
  entries (p_deny parent) ⊆ entries (p_deny child).
Proof.
  unfold isPermissionSubset. rewrite <-(subset_of_list (entries (p_deny parent))),
    <-(subset_of_list (entries (p_allow child))), <-s_has_true.
  destruct (s_has "*" _), (forallb _ (entries (p_allow child))); simpl; naive_solver.
Qed.

Lemma isPermissionSubsetWithAsk_spec child parent :
  isPermissionSubsetWithAsk child parent = true <-> attenuates child parent.
Proof.
  unfold isPermissionSubsetWithAsk.
  assert (Hask : (if decide (length (entries (p_ask parent)) = 0%nat) then true
     else forallb (fun e => s_has e (entries (p_ask child)) || s_has e (entries (p_deny child))) (entries (p_ask parent))) = true
     <-> forall e, e ∈ entries (p_ask parent) -> e ∈ entries (p_ask child) \/ e ∈ entries (p_deny child)).
  { case_decide as Hl.
    - apply nil_length_inv in Hl. rewrite Hl. split; [by intros _ e ?%elem_of_nil|done].
    - rewrite forallb_spec. split; intros H e He; specialize (H e He);
        rewrite orb_true_iff, !s_has_true in *; done. }
  destruct (isPermissionSubset child parent) eqn:E; cbn [negb].
  - apply isPermissionSubset_spec in E as [Ha Hd]. rewrite Hask. split; [by split|by intros []].
  - split; [done|]. intros [Ha Hd _]. rewrite (proj2 (isPermissionSubset_spec _ _) (conj Ha Hd)) in E. done.
Qed.

#[export] Instance attenuates_preorder : PreOrder attenuates.
Proof.
  split.
  - intros p. split; [by right|done|by left].
  - intros c m p [Ha1 Hd1 Hk1] [Ha2 Hd2 Hk2]. split.
    + destruct Ha2 as [?|H2]; [by left|]. destruct Ha1 as [H1|H1]; [left; auto|right]. by etrans.
    + by etrans.
    + intros e He. destruct (Hk2 e He) as [?|?]; auto.
Qed.

Definition resources_within (child parent : option (list string)) : Prop :=
  entries parent = [] \/ (entries child ≠ [] /\ entries child ⊆ entries parent).

Lemma isResourceSubset_spec child parent :
  isResourceSubset child parent = true <-> resources_within child parent.
Proof.
  unfold isResourceSubset, resources_within.
  destruct parent as [[|p ps]|]; simpl; [by split; [left|]| |by split; [left|]].
  destruct child as [[|c cs]|]; [naive_solver| |simpl; naive_solver].
  pose proof (subset_of_list (c :: cs) (p :: ps)) as Hs. simpl in Hs |- *. rewrite Hs. naive_solver.
Qed.

#[export] Instance resources_within_preorder : PreOrder resources_within.
Proof.
  split.
  - intros r. destruct (decide (entries r = [])); [by left|by right].
  - intros c m p [H1|[H1 H1']] [H2|[H2 H2']]; try by left.
    right. split; [done|]. by etrans.
Qed.

(** A scope within another: permissions, resources and session. *)
Record scope_within (child parent : CapabilityScope) : Prop := {
  sw_permissions : attenuates (sc_permissions child) (sc_permissions parent);
  sw_resources : resources_within (sc_resources child) (sc_resources parent);
  sw_session : sc_sessionId child = sc_sessionId parent
}.

#[export] Instance scope_within_preorder : PreOrder scope_within.
Proof.
  split; [intros s; by split|]. intros c m p [] []. split; [by etrans..|congruence].
Qed.

(** The tool matches an allow entry and neither a deny nor an ask entry. *)
Definition permitted (toolId : string) (scope : CapabilityScope) : Prop :=
  matchesAny toolId (entries (p_deny (sc_permissions scope))) = false /\
  matchesAny toolId (entries (p_ask (sc_permissions scope))) = false /\
  matchesAny toolId (entries (p_allow (sc_permissions scope))) = true.

Lemma matchesAny_spec toolId ps :
  matchesAny toolId ps = true <-> exists p, p ∈ ps /\ matchesPattern toolId p = true.
Proof. unfold matchesAny. rewrite existsb_exists. by setoid_rewrite list_elem_of_In. Qed.

Lemma matchesAny_mono toolId ps qs : ps ⊆ qs -> matchesAny toolId qs = false -> matchesAny toolId ps = false.
Proof.
  intros Hsub Hq. apply not_true_iff_false. rewrite matchesAny_spec. intros (p & Hp & Hm).
  apply not_true_iff_false in Hq. apply Hq, matchesAny_spec. eauto.
Qed.

Lemma permitted_within toolId child parent :
  scope_within child parent -> permitted toolId child -> permitted toolId parent.
Proof.
  intros [[Ha Hd Hk] _ _] (Nd & Nk & Hp). split_and!.
  - by eapply matchesAny_mono.
  - apply not_true_iff_false. rewrite matchesAny_spec. intros (p & Hin & Hm).
    destruct (Hk p Hin) as [H|H]; [apply not_true_iff_false in Nk; apply Nk|apply not_true_iff_false in Nd; apply Nd];
      apply matchesAny_spec; eauto.
  - apply matchesAny_spec in Hp as (p & Hin & Hm). apply matchesAny_spec.
    destruct Ha as [Hs|Hs]; [exists "*"; split; [done|]; unfold matchesPattern; by rewrite decide_True|eauto].
Qed.

Lemma isAllowed_spec toolId scope :
  isAllowed toolId scope = true ->
  permitted toolId scope /\ entries (sc_resources scope) = [].
Proof.
  unfold isAllowed. intros H.
  destruct (negb (bool_decide _)) eqn:E1; [done|]. apply negb_false_iff, bool_decide_eq_true in E1.
  destruct (_ || _ || _); [done|].
  destruct (matchesAny toolId (entries (p_deny _))) eqn:E2; [done|].
  destruct (matchesAny toolId (entries (p_ask _))) eqn:E3; [done|]. done.
Qed.

Lemma resources_within_empty child parent :
  resources_within child parent -> entries child = [] -> entries parent = [].
Proof. intros [?|[? _]] ?; done. Qed.

(** ** Narrowing by intersection and union *)

(** The permissions built from the intersection of allow lists and the union of
    deny lists are within those of the parent. *)
Lemma narrowed_within parent child :
  isPermissionSubset
    (mkPerms (Some (intersectPermissions parent child)) (Some (unionDenyLists parent child)) (p_ask child)) parent = true.
Proof.
  apply isPermissionSubset_spec. simpl. split.
  - unfold intersectPermissions. destruct (s_has "*" (entries (p_allow parent))) eqn:E; [left; by apply s_has_true|right].
    destruct (s_has "*" (entries (p_allow child))); [done|]. intros t [Ht%s_has_true _]%list_elem_of_filter. done.
  - unfold unionDenyLists. intros t Ht. apply elem_of_s_addAll. left. set_solver.
Qed.

(** ** Tokens *)

Section Verifier.
Context (crypto : Crypto) {Rg St : Type} `{HRg : CapabilityRevocationRegistry Rg} `{HSt : CapabilityTokenStore St}.
Context `{HLaws : !TokenStoreLaws St}.
Context (opts : CapabilityVerifierOptions Rg St) (ctx : VerifyContext).

(** A proof that the configured keys accept, by an issuer the key is bound to. *)
Inductive signed (t : CapabilityToken) : Prop :=
  | signed_hmac ho digest :
      pf_kind (ct_proof t) = "hmac-sha256" -> vo_hmac opts = Some ho ->
      buffer_from crypto (field "digest" (pf_fields (ct_proof t))) = Some digest ->
      hmac_sha256 crypto (ho_secret ho) (serializeForSigning t) = digest -> signed t
  | signed_ed25519 ed fingerprint key sig :
      pf_kind (ct_proof t) = "ed25519" -> vo_ed25519 opts = Some ed ->
      field "publicKey" (pf_fields (ct_proof t)) = JStr fingerprint ->
      m_get fingerprint (eo_publicKeys ed) = Some key ->
      buffer_from crypto (field "signature" (pf_fields (ct_proof t))) = Some sig ->
      ed25519_verify crypto key (serializeForSigning t) sig = true ->
      m_get fingerprint (eo_issuerKeys ed) = Some (ct_issuerId t) -> signed t.

(** The authority to issue roots. *)
Definition root_authority (t : CapabilityToken) : Prop :=
  (pf_kind (ct_proof t) = "hmac-sha256" ->
     forall ho issuer, vo_hmac opts = Some ho -> ho_rootIssuer ho = Some issuer -> ct_issuerId t = issuer) /\
  (pf_kind (ct_proof t) = "ed25519" ->
     exists ed fingerprint, vo_ed25519 opts = Some ed /\
       field "publicKey" (pf_fields (ct_proof t)) = JStr fingerprint /\ fingerprint ∈ eo_rootKeys ed).

Definition not_revoked (t : CapabilityToken) : Prop :=
  forall rg, vo_revocations opts = Some rg -> rg_isRevoked (ct_id t) rg = Some false.

(** What must hold of each token of a chain on its own. *)
Record token_valid (t : CapabilityToken) : Prop := {
  tv_created : exists c, ct_createdAt t = JNum c /\ exists n, vc_now ctx = JNum n /\ (c <= n)%Z /\
                 exists e, ct_expiresAt t = JNum e /\ (n < e)%Z;
  tv_depth : exists d, ct_chainDepth t = JNum d;
  tv_max : exists m, ct_maxChainDepth t = JNum m;
  tv_signed : signed t;
  tv_session : sc_sessionId (ct_scope t) ∈ vc_activeSessionIds ctx;
  tv_revoked : not_revoked t;
  tv_pop : ct_requiresPoP t ≠ JBool true;
  tv_root : num (ct_chainDepth t) = 0%Z -> root_authority t
}.

Lemma lookup_key_Some k keys v : lookup_key k keys = Some v <-> exists s, k = JStr s /\ m_get s keys = Some v.
Proof. destruct k; simpl; naive_solver. Qed.

Lemma verifySignature_spec t : verifySignature crypto opts t = None <-> signed t.
Proof.
  unfold verifySignature. split.
  - case_decide as Hk.
    + destruct (vo_hmac opts) as [ho|] eqn:Ho; [|done]. unfold verifyHmac. rewrite bool_decide_true by done. simpl.
      destruct (buffer_from _ _) as [d|] eqn:Hb; [|done]. case_bool_decide; [|done]. intros _. by eapply signed_hmac.
    + case_decide as Hk'; [|done]. destruct (vo_ed25519 opts) as [ed|] eqn:He; [|done].
      unfold verifyEd25519. rewrite bool_decide_true by done. simpl.
      destruct (lookup_key _ (eo_publicKeys ed)) as [key|] eqn:Hl; [|done].
      destruct (buffer_from _ _) as [sig|] eqn:Hb; [|done]. destruct (ed25519_verify _ _ _ _) eqn:Hv; [|done]. simpl.
      apply lookup_key_Some in Hl as (f & Hf & Hl). rewrite Hf. simpl.
      destruct (m_get f (eo_issuerKeys ed)) as [b|] eqn:Hi; [|done]. case_decide; [|done]. subst b. intros _.
      by eapply signed_ed25519.
  - destruct 1 as [ho d Hk Ho Hb Hh|ed f key sig Hk He Hf Hp Hb Hv Hi].
    + rewrite decide_True, Ho by done. unfold verifyHmac. rewrite bool_decide_true by done. simpl.
      rewrite Hb. by rewrite bool_decide_true.
    + rewrite decide_False by (by rewrite Hk). rewrite decide_True, He by done.
      unfold verifyEd25519. rewrite bool_decide_true by done. simpl. rewrite Hf. simpl. rewrite Hp, Hb, Hv. simpl.
      rewrite Hi. by rewrite decide_True.
Qed.

Lemma verifyRootAuthority_spec t : verifyRootAuthority opts t = None <-> root_authority t.
Proof.
  unfold verifyRootAuthority, root_authority. case_decide as Hk.
  - rewrite Hk. split.
    + intros Hv. split; [|done]. intros _ ho issuer Ho Hi. rewrite Ho in Hv. simpl in Hv. rewrite Hi in Hv.
      by case_decide.
    + intros [Hh _]. destruct (vo_hmac opts) as [ho|]; [|done]. simpl. destruct (ho_rootIssuer ho) eqn:Hi; [|done].
      rewrite decide_True; [done|]. by eapply Hh.
  - case_decide as Hk'; [|naive_solver]. rewrite Hk'. split.
    + intros Hv. split; [done|]. intros _. destruct (vo_ed25519 opts) as [ed|]; [|done].
      destruct (field _ _) as [| | | | |s| |] eqn:Hf; try done. exists ed, s. split_and!; [done..|].
      destruct (s_has s _) eqn:Hs; [|done]. by apply s_has_true.
    + intros [_ Hr]. destruct (Hr eq_refl) as (ed & f & -> & -> & Hin%s_has_true). by rewrite Hin.
Qed.

Lemma finite_Some v n : finite v = Some n <-> v = JNum n.
Proof. destruct v; simpl; naive_solver. Qed.

Lemma revocation_spec t :
  (match vo_revocations opts with Some rg => rg_isRevoked (ct_id t) rg | None => Some false end) = Some false <->
  not_revoked t.
Proof.
  unfold not_revoked. destruct (vo_revocations opts) as [rg|]; [|by split].
  split; [by intros Hr rg' [= <-]|]. intros Hr. by apply Hr.
Qed.

Lemma verifyStructural_spec t : verifyStructural crypto opts ctx t = None <-> token_valid t.
Proof.
  unfold verifyStructural. split.
  - destruct (finite (ct_createdAt t)) as [c|] eqn:Hc; [|done]. destruct (finite (ct_expiresAt t)) as [e|] eqn:He; [|done].
    destruct (finite (ct_chainDepth t)) as [d|] eqn:Hd; [|done]. destruct (finite (ct_maxChainDepth t)) as [m|] eqn:Hm; [|done].
    destruct (finite (vc_now ctx)) as [n|] eqn:Hn; [|done].
    destruct (verifySignature _ _ _) eqn:Hs; [done|]. apply verifySignature_spec in Hs.
    destruct (n <? c)%Z eqn:H1; [done|]. destruct (e <=? n)%Z eqn:H2; [done|].
    destruct (s_has _ _) eqn:Hses; [|done]. apply s_has_true in Hses. simpl.
    destruct (match vo_revocations opts with Some _ => _ | None => _ end) as [[]|] eqn:Hr; try done.
    apply revocation_spec in Hr. intros Hpop.
    apply finite_Some in Hc, He, Hd, Hm, Hn.
    assert (Hpop' : ct_requiresPoP t ≠ JBool true /\ (if decide (d = 0%Z) then verifyRootAuthority opts t else None) = None).
    { destruct (ct_requiresPoP t) as [| |[]| | | | |]; done. }
    destruct Hpop' as [Hp Hroot]. split; eauto.
    + exists c. split; [done|]. exists n. split; [done|]. split; [lia|]. exists e. split; [done|lia].
    + intros Hz. rewrite Hd in Hz. unfold num in Hz; simpl in Hz. subst d. by apply verifyRootAuthority_spec.
  - intros [(c & Hc & n & Hn & Hcn & e & He & Hne) (d & Hd) (m & Hm) Hs Hses Hr Hp Hroot].
    rewrite Hc, He, Hd, Hm, Hn. simpl. rewrite (proj2 (verifySignature_spec t) Hs).
    rewrite (proj2 (Z.ltb_ge n c)) by lia. rewrite (proj2 (Z.leb_gt e n)) by lia.
    rewrite (proj2 (s_has_true _ _) Hses). simpl. rewrite (proj2 (revocation_spec t) Hr).
    assert (Ht : (if decide (d = 0%Z) then verifyRootAuthority opts t else None) = None).
    { case_decide; [|done]. subst. apply verifyRootAuthority_spec, Hroot. by rewrite Hd. }
    destruct (ct_requiresPoP t) as [| |[]| | | | |]; done.
Qed.

(** What must hold between a token and its parent. *)
Record linked (child parent : CapabilityToken) : Prop := {
  lk_issuer : ct_delegateeId parent = ct_issuerId child;
  lk_depth : (num (ct_chainDepth parent) + 1 = num (ct_chainDepth child))%Z;
  lk_bound : (num (ct_chainDepth child) <= num (ct_maxChainDepth parent))%Z;
  lk_max : (num (ct_maxChainDepth child) <= num (ct_maxChainDepth parent))%Z;
  lk_expiry : (num (ct_expiresAt child) <= num (ct_expiresAt parent))%Z;
  lk_scope : scope_within (ct_scope child) (ct_scope parent)
}.

Lemma verifyLink_spec child parent : verifyLink child parent = None <-> linked child parent.
Proof.
  unfold verifyLink. split.
  - destruct (bool_decide (ct_delegateeId parent = _)) eqn:H1; [|done]. apply bool_decide_eq_true in H1. simpl.
    destruct (_ =? _)%Z eqn:H2; [|done]. simpl. destruct (_ <? num (ct_chainDepth child))%Z eqn:H3; [done|].
    destruct (_ <? num (ct_maxChainDepth child))%Z eqn:H4; [done|]. destruct (_ <? num (ct_expiresAt child))%Z eqn:H5; [done|].
    destruct (bool_decide (sc_sessionId _ = _)) eqn:H6; [|done]. apply bool_decide_eq_true in H6. simpl.
    destruct (isPermissionSubsetWithAsk _ _) eqn:H7; [|done]. apply isPermissionSubsetWithAsk_spec in H7. simpl.
    destruct (isResourceSubset _ _) eqn:H8; [|done]. apply isResourceSubset_spec in H8. intros _.
    split; try lia; [done|]. by split.
  - intros [H1 H2 H3 H4 H5 [H6 H7 H8]]. rewrite bool_decide_true by done. simpl.
    rewrite (proj2 (Z.eqb_eq _ _) H2). simpl. rewrite (proj2 (Z.ltb_ge _ _) H3), (proj2 (Z.ltb_ge _ _) H4), (proj2 (Z.ltb_ge _ _) H5).
    rewrite bool_decide_true by done. simpl. rewrite (proj2 (isPermissionSubsetWithAsk_spec _ _) H6). simpl.
    by rewrite (proj2 (isResourceSubset_spec _ _) H7).
Qed.

(** [chain t ancestors]: the store leads from [t] over valid, linked tokens to a
    token of depth 0 without a parent. *)
Inductive chain : CapabilityToken -> list CapabilityToken -> Prop :=
  | chain_root t : num (ct_chainDepth t) = 0%Z -> ct_parentId t = None -> chain t []
  | chain_link t parent ancestors store raw :
      num (ct_chainDepth t) ≠ 0%Z -> ct_parentId t = Some (ct_id parent) -> vo_tokenStore opts = Some store ->
      store_get (ct_id parent) store = Some (Some raw) -> validateTokenShape raw = None ->
      normalizePermissionContainers raw = parent -> token_valid parent -> linked t parent ->
      chain parent ancestors -> chain t (parent :: ancestors).

Definition known_ids : list string := match vo_tokenStore opts with Some store => store_ids store | None => [] end.

Lemma falsy_no_token raw : falsy raw = true -> validateTokenShape raw ≠ None.
Proof. by destruct raw. Qed.

Lemma verifyChain_spec fuel : forall child visited,
  remaining known_ids visited < fuel ->
  exists r, verifyChain crypto opts ctx fuel child visited = Some r /\
    (r = None <-> exists ancestors, chain child ancestors /\ NoDup (ct_id <$> ancestors) /\
                    forall id, id ∈ ct_id <$> ancestors -> id ∉ visited).
Proof.
  induction fuel as [|fuel IH]; intros child visited Hf; [lia|]. cbn [verifyChain].
  case_decide as Hd.
  { destruct (ct_parentId child) as [p|] eqn:Hp; eexists; (split; [done|]); split; try done.
    - intros (as_ & Hc & _). inversion Hc; congruence.
    - intros _. exists []. split_and!; [by apply chain_root|constructor|by intros ? ?%elem_of_nil]. }
  (* every refusal: no chain *)
  assert (Hno : forall r : CapabilityDenyReason, (forall as_, chain child as_ -> NoDup (ct_id <$> as_) ->
      (forall id, id ∈ ct_id <$> as_ -> id ∉ visited) -> False) ->
    exists r', Some (Some r) = Some r' /\ (r' = None <-> exists as_, chain child as_ /\ NoDup (ct_id <$> as_) /\
                    forall id, id ∈ ct_id <$> as_ -> id ∉ visited)).
  { intros r Hr. eexists. split; [done|]. split; [done|]. intros (as_ & H1 & H2 & H3). by destruct (Hr as_). }
  destruct (ct_parentId child) as [parentId|] eqn:Hp; [|apply Hno; intros as_ Hc; inversion Hc; congruence].
  destruct (vo_tokenStore opts) as [store|] eqn:Hst; [|apply Hno; intros as_ Hc; inversion Hc; congruence].
  destruct (s_has parentId visited) eqn:Hv.
  { apply s_has_true in Hv. apply Hno. intros as_ Hc Hnd Hdis. inversion Hc; [congruence|]. subst.
    apply (Hdis parentId); [|done]. simplify_eq. left. }
  apply s_has_false in Hv.
  destruct (store_get parentId store) as [[raw|]|] eqn:Hg; [|apply Hno; intros as_ Hc; inversion Hc; congruence..].
  destruct (falsy raw) eqn:Hfalsy.
  { apply falsy_no_token in Hfalsy. apply Hno. intros as_ Hc. inversion Hc; congruence. }
  destruct (validateTokenShape raw) eqn:Hsh; [apply Hno; intros as_ Hc; inversion Hc; congruence|].
  remember (normalizePermissionContainers raw) as parent eqn:Hpar. cbv zeta.
  destruct (decide (ct_id parent = parentId)) as [Hid|Hid].
  2: { rewrite bool_decide_false by done. apply Hno. intros as_ Hc. inversion Hc; [congruence|]. simplify_eq. }
  rewrite bool_decide_true by done. cbn [negb].
  destruct (verifyStructural _ _ _ parent) eqn:Hstr.
  { apply Hno. intros as_ Hc. inversion Hc; [congruence|]. simplify_eq.
    match goal with Ht : token_valid _ |- _ => apply verifyStructural_spec in Ht end. congruence. }
  destruct (verifyLink child parent) eqn:Hl.
  { apply Hno. intros as_ Hc. inversion Hc; [congruence|]. simplify_eq.
    match goal with Ht : linked _ _ |- _ => apply verifyLink_spec in Ht end. congruence. }
  apply verifyStructural_spec in Hstr. apply verifyLink_spec in Hl.
  destruct (IH parent (s_add parentId visited)) as (r & Hr & Hspec).
  { enough (remaining known_ids (s_add parentId visited) < remaining known_ids visited) by lia.
    apply (remaining_lt _ _ _ parentId); [intros x Hx; apply elem_of_s_add; auto| |done|apply elem_of_s_add; auto].
    unfold known_ids. rewrite Hst. by eapply store_finite. }
  exists r. split; [done|]. rewrite Hspec. split.
  - intros (as_ & Hc & Hnd & Hdis). exists (parent :: as_). split_and!.
    + eapply chain_link; try done; congruence.
    + simpl. constructor; [|done]. intros Hin. apply (Hdis _ Hin). apply elem_of_s_add. by left.
    + simpl. intros id [->|Hin]%elem_of_cons; [by rewrite Hid|]. intros Hvi. apply (Hdis _ Hin), elem_of_s_add. by right.
  - intros (as_ & Hc & Hnd & Hdis). inversion Hc as [|t p as' st raw' Hd' Hpid Hst' Hg' Hsh' Hn Hv' Hl' Hc']; [congruence|].
    assert (raw' = raw) as -> by congruence. assert (p = parent) as -> by congruence. subst as_ t. exists as'.
    simpl in Hnd, Hdis. apply NoDup_cons in Hnd as [Hni Hnd]. split_and!; [done..|].
    intros id Hin. rewrite elem_of_s_add. intros [->|Hvi]; [by rewrite <-Hid in Hin|].
    apply (Hdis id); [by right|done].
Qed.

(** The verdict on a token whose fields have been read. *)
Definition accepted (t : CapabilityToken) : Prop :=
  token_valid t /\
  (exists ancestors, chain t ancestors /\ NoDup (ct_id <$> t :: ancestors)) /\
  vo_scopeChecker opts (vc_toolId ctx) (ct_scope t) = Some true.

Lemma runVerify_spec t :
  exists r, runVerify crypto opts ctx t = Some r /\ forall u, r = Ok u <-> u = t /\ accepted t.
Proof.
  unfold runVerify, accepted. destruct (verifyStructural _ _ _ t) eqn:Hs.
  { eexists. split; [done|]. intros u. split; [done|]. intros (_ & Hv & _).
    apply verifyStructural_spec in Hv. congruence. }
  apply verifyStructural_spec in Hs.
  destruct (verifyChain_spec (chain_fuel opts) t [ct_id t]) as (r & -> & Hr).
  { pose proof (remaining_le known_ids [ct_id t]) as Hle. revert Hle. unfold chain_fuel, known_ids.
    destruct (vo_tokenStore opts); simpl; lia. }
  assert (Hc : r = None <-> exists ancestors, chain t ancestors /\ NoDup (ct_id <$> t :: ancestors)).
  { rewrite Hr. apply exist_proper. intros as_. rewrite fmap_cons, NoDup_cons. split.
    - intros (Hc & Hnd & Hdis). split_and!; [done| |done]. intros Hin. apply (Hdis _ Hin), list_elem_of_here.
    - intros (Hc & Hin & Hnd). split_and!; [done..|]. intros id Hid ->%list_elem_of_singleton. done. }
  destruct r as [reason|].
  { eexists. split; [done|]. intros u. split; [done|]. intros (_ & _ & Hch & _). by apply Hc in Hch. }
  destruct (vo_scopeChecker _ _ _) as [[]|]; eexists; (split; [done|]); intros u.
  - split; [intros [= <-]|]; [|by intros [-> _]]. split_and!; try done. by apply Hc.
  - split; [done|]. by intros (_ & _ & _ & ?).
  - split; [done|]. by intros (_ & _ & _ & ?).
Qed.

Lemma verify_accepts (raw : jsval) t : verify crypto opts ctx raw = Some (Ok t) <->
  validateTokenShape raw = None /\ t = normalizePermissionContainers raw /\ accepted t.
Proof.
  unfold verify. destruct (validateTokenShape raw) eqn:Hs; [by split; [|intros [? _]]|].
  destruct (runVerify_spec (normalizePermissionContainers raw)) as (r & -> & Hr). specialize (Hr t).
  split; [intros [= ->]; by destruct (proj1 Hr eq_refl) as [-> Ha]|intros (_ & -> & Ha); f_equal; by apply Hr].
Qed.

(** C17: verification always ends, and accepts exactly the values that have the
    shape of a token, are valid on their own, lead over a chain of distinct,
    valid and linked ancestors to a root, and whose scope the scope checker
    grants for the tool. *)
Theorem verify_exact (raw : jsval) :
  exists r, verify crypto opts ctx raw = Some r /\
    forall t, r = Ok t <->
      validateTokenShape raw = None /\ t = normalizePermissionContainers raw /\ accepted t.
Proof.
  unfold verify. destruct (validateTokenShape raw) eqn:Hs.
  { eexists. split; [done|]. intros t. split; [done|]. by intros [? _]. }
  destruct (runVerify_spec (normalizePermissionContainers raw)) as (r & -> & Hr).
  exists r. split; [done|]. intros t. rewrite Hr. naive_solver.
Qed.

(** Along a chain. *)
Lemma chain_facts t ancestors :
  chain t ancestors ->
  num (ct_chainDepth t) = Z.of_nat (length ancestors) /\
  Forall (fun a => token_valid a /\ scope_within (ct_scope t) (ct_scope a) /\
    (num (ct_expiresAt t) <= num (ct_expiresAt a))%Z /\
    (num (ct_maxChainDepth t) <= num (ct_maxChainDepth a))%Z) ancestors.
Proof.
  induction 1 as [t Hd Hp|t parent as_ store raw Hd Hp Hst Hg Hsh Hn Hv Hl Hc [IH1 IH2]]; [by split; [|constructor]|].
  destruct Hl as [L1 L2 L3 L4 L5 L6]. split; [simpl; lia|]. constructor; [by split_and!|].
  eapply Forall_impl; [exact IH2|]. intros a (A1 & A2 & A3 & A4). split_and!; [done|by etrans|lia..].
Qed.

Lemma chain_root_last t ancestors :
  chain t ancestors -> token_valid t ->
  exists root, last (t :: ancestors) = Some root /\ ct_parentId root = None /\ root_authority root.
Proof.
  induction 1 as [t Hd Hp|t parent as_ store raw Hd Hp Hst Hg Hsh Hn Hv Hl Hc IH]; intros Ht.
  - exists t. split_and!; [done..|]. by apply (tv_root _ Ht).
  - destruct (IH Hv) as (root & Hlast & ?). exists root. by rewrite last_cons_cons.
Qed.
End Verifier.

(** C18: no chain amplifies: when a verifier with the default scope checker accepts
    a token for a tool, the token is at distance [chainDepth] from a root with
    root authority, and every token of the chain is signed, unexpired, in an
    active session and not revoked, and itself permits the tool. *)
Theorem no_amplification (crypto : Crypto) {Rg St : Type} `{CapabilityRevocationRegistry Rg}
    `{CapabilityTokenStore St} `{!TokenStoreLaws St}
    (opts : CapabilityVerifierOptions Rg St) (ctx : VerifyContext) (raw : jsval) (t : CapabilityToken) :
  vo_scopeChecker opts = createGlobScopeChecker ->
  verify crypto opts ctx raw = Some (Ok t) ->
  exists ancestors root,
    ct_chainDepth t = JNum (Z.of_nat (length ancestors)) /\
    last (t :: ancestors) = Some root /\ ct_parentId root = None /\ root_authority opts root /\
    Forall (fun a => token_valid crypto opts ctx a /\ permitted (vc_toolId ctx) (ct_scope a) /\
      entries (sc_resources (ct_scope a)) = [] /\ sc_sessionId (ct_scope a) = sc_sessionId (ct_scope t)) (t :: ancestors).
Proof.
  intros Hsc Hv. apply (verify_accepts crypto opts ctx) in Hv as (_ & _ & Hvalid & (as_ & Hc & _) & Hok).
  rewrite Hsc in Hok. injection Hok as Hok. apply isAllowed_spec in Hok as [Hperm Hres].
  destruct (chain_facts _ _ _ _ _ Hc) as [Hlen Hall]. destruct (chain_root_last _ _ _ _ _ Hc Hvalid) as (root & H1 & H2 & H3).
  exists as_, root. split_and!; [|done..|].
  - destruct (tv_depth _ _ _ _ Hvalid) as (d & Hd). rewrite Hd in Hlen |- *. unfold num in Hlen. simpl in Hlen. by subst.
  - constructor; [done|]. eapply Forall_impl; [exact Hall|]. intros a (A1 & A2 & _). split_and!; [done|..].
    + by eapply permitted_within.
    + eapply resources_within_empty; [apply A2|done].
    + symmetry. apply A2.
Qed.

#[export] Instance memory_token_store_laws : TokenStoreLaws MemoryRegistry.
Proof.
  intros id r tok Hg. simpl in *. injection Hg as Hg. apply elem_of_m_keys. unfold get in Hg.
  destruct (m_get id (mr_tokens r)); [by eexists|done].
Qed.

(** ** Tokens as objects *)

(** Fields the code does not know have names of their own. *)
Definition clean (t : CapabilityToken) : Prop :=
  NoDup (m_keys (ct_extra t)) /\ (forall k, k ∈ m_keys (ct_extra t) -> k ∉ known_keys) /\
  "kind" ∉ m_keys (pf_fields (ct_proof t)).

Lemma m_get_opt_field k k' v : m_get k (opt_field k' v) = if decide (k = k') then v else None.
Proof. destruct v; simpl; case_decide; congruence. Qed.

Lemma field_object k fs gs : k ∉ m_keys fs -> field k (fs ++ gs) = field k gs.
Proof. intros Hk%not_elem_of_m_keys. unfold field. by rewrite m_get_app, Hk. Qed.

Lemma read_strings_strings l : read_strings (strings l) = Some l.
Proof. unfold strings; simpl. f_equal. rewrite <-list_fmap_compose. apply list_fmap_id. Qed.

Lemma strings_shape o : isStringArrayOrAbsent (default JUndefined (strings <$> o)) = true.
Proof. destruct o as [l|]; [|done]. simpl. apply forallb_spec. by intros ? (? & -> & _)%list_elem_of_fmap. Qed.

Lemma read_strings_opt o : read_strings (default JUndefined (strings <$> o)) = o.
Proof. destruct o; [apply read_strings_strings|done]. Qed.

Lemma permission_fields p :
  let fs := named (permissions_object p) in
  field "allow" fs = default JUndefined (strings <$> p_allow p) /\
  field "deny" fs = default JUndefined (strings <$> p_deny p) /\
  field "ask" fs = default JUndefined (strings <$> p_ask p).
Proof. destruct p as [[a|] [d|] [k|]]; done. Qed.

Lemma scope_fields s :
  let fs := named (scope_object s) in
  field "permissions" fs = permissions_object (sc_permissions s) /\
  field "sessionId" fs = JStr (sc_sessionId s) /\
  field "resources" fs = default JUndefined (strings <$> sc_resources s).
Proof. destruct s as [p [r|] ses]; done. Qed.

Lemma unknown_field t k : clean t -> k ∈ known_keys -> m_get k (ct_extra t) = None.
Proof. intros (_ & Hk & _) Hin. apply not_elem_of_m_keys. intros He. by apply (Hk k). Qed.

Lemma token_fields_read t :
  clean t ->
  let fs := named (token_object t) in
  field "id" fs = JStr (ct_id t) /\ field "issuerId" fs = JStr (ct_issuerId t) /\
  field "delegateeId" fs = JStr (ct_delegateeId t) /\ field "scope" fs = scope_object (ct_scope t) /\
  field "parentId" fs = default JUndefined (JStr <$> ct_parentId t) /\
  field "chainDepth" fs = ct_chainDepth t /\ field "maxChainDepth" fs = ct_maxChainDepth t /\
  field "createdAt" fs = ct_createdAt t /\ field "expiresAt" fs = ct_expiresAt t /\
  field "requiresPoP" fs = ct_requiresPoP t /\ field "proof" fs = proof_object (ct_proof t).
Proof.
  intros Hc. pose proof (fun k => unknown_field t k Hc) as Hu.
  destruct t as [i a b sc [p|] c d e f g h x]; simpl in Hu |- *; unfold field; simpl; split_and!; try done;
    rewrite m_get_app, Hu by (unfold known_keys; set_solver); done.
Qed.

Lemma proof_read p : "kind" ∉ m_keys (pf_fields p) ->
  mkProof (read_string (field "kind" (named (proof_object p)))) (m_delete "kind" (named (proof_object p))) = p.
Proof.
  destruct p as [k fs]. intros Hk. cbn [pf_fields] in Hk.
  change (named (proof_object (mkProof k fs))) with (("kind", JStr k) :: fs). f_equal.
  unfold m_delete. rewrite filter_cons_False by (intros Hne; by apply Hne).
  apply m_delete_absent. by apply not_elem_of_m_keys.
Qed.

Lemma extra_read t : clean t -> filter (fun f => f.1 ∉ known_keys) (named (token_object t)) = ct_extra t.
Proof.
  intros (Hnd & Hk & _).
  change (named (token_object t)) with (unsigned_fields t ++ [("proof", proof_object (ct_proof t))]).
  unfold unsigned_fields. rewrite !filter_app, (filter_all _ (ct_extra t)).
  2: { intros f Hf. apply Hk. by apply list_elem_of_fmap_2. }
  rewrite !filter_cons_False by (unfold known_keys; set_solver).
  destruct (ct_parentId t); simpl opt_field; rewrite ?filter_cons_False by (unfold known_keys; set_solver);
    simpl; by rewrite app_nil_r.
Qed.

(** Reading the object of a token gives the token back. *)
Lemma token_roundtrip t :
  clean t ->
  validateTokenShape (token_object t) = None /\ normalizePermissionContainers (token_object t) = t.
Proof.
  intros Hc. destruct (token_fields_read t Hc) as (F1 & F2 & F3 & F4 & F5 & F6 & F7 & F8 & F9 & F10 & F11).
  destruct (scope_fields (ct_scope t)) as (S1 & S2 & S3).
  destruct (permission_fields (sc_permissions (ct_scope t))) as (P1 & P2 & P3).
  split.
  - unfold validateTokenShape. change (object_fields (token_object t)) with (Some (named (token_object t))). cbv iota beta.
    rewrite F1, F2, F3, F4, F5, F11. cbn [negb is_string].
    change (object_fields (scope_object (ct_scope t))) with (Some (named (scope_object (ct_scope t)))). cbv iota beta.
    rewrite S1, S2, S3.
    change (object_fields (permissions_object (sc_permissions (ct_scope t)))) with
      (Some (named (permissions_object (sc_permissions (ct_scope t))))). cbv iota beta.
    rewrite P1, P2, P3, !strings_shape. by destruct (ct_parentId t).
  - unfold normalizePermissionContainers.
    rewrite F1, F2, F3, F4, F5, F6, F7, F8, F9, F10, F11, S1, S2, S3, P1, P2, P3, !read_strings_opt.
    rewrite proof_read by apply Hc. rewrite extra_read by done.
    destruct t as [i a b [[x y z] r s] [p|] c d e f g h k]; done.
Qed.

(** ** What a signature binds *)

Lemma shown_field fs k :
  shown fs k = if is_undefined (field k fs) then None else Some (canonical (field k fs)).
Proof. unfold shown, field. by destruct (m_get k fs) as [v|]. Qed.

(** Fields that canonical text can tell apart. *)
Lemma shown_exact fs gs k :
  shown fs k = shown gs k ->
  is_undefined (field k fs) = is_undefined (field k gs) /\
  (is_undefined (field k fs) = false -> canonical (field k fs) = canonical (field k gs)).
Proof.
  rewrite !shown_field. destruct (is_undefined (field k fs)), (is_undefined (field k gs)); try done.
  intros [= ->]. done.
Qed.

Lemma canonical_JNum v n : canonical v = JNum n -> v = JNum n.
Proof. by destruct v. Qed.

Lemma canonical_strings l : canonical (strings l) = strings l.
Proof.
  unfold canonical, strings. simpl. f_equal. rewrite List.map_map. rewrite <-(List.map_id (JStr <$> l)) at 2.
  apply List.map_ext_in. intros x (s & -> & _)%list_elem_of_In%list_elem_of_fmap. done.
Qed.

Lemma strings_opt_inj o p fs gs k :
  field k fs = default JUndefined (strings <$> o) -> field k gs = default JUndefined (strings <$> p) ->
  shown fs k = shown gs k -> o = p.
Proof.
  intros Ho Hp (Hu & Hc)%shown_exact. rewrite Ho, Hp in Hu, Hc. destruct o as [o|], p as [p|]; try done.
  specialize (Hc eq_refl). simpl in Hc. rewrite !canonical_strings in Hc.
  apply (f_equal read_strings) in Hc. by rewrite !read_strings_strings in Hc.
Qed.

Lemma object_shown fs gs k :
  NoDup (m_keys fs) -> NoDup (m_keys gs) -> canonical (JObj fs) = canonical (JObj gs) -> shown fs k = shown gs k.
Proof. intros Hf Hg. rewrite !canonical_object. intros [= H]. by rewrite <-!canonical_fields_get, H. Qed.

(** Lists of literal keys without repetition. *)
Ltac nodup_keys := refine (bool_decide_unpack (NoDup _) _); vm_compute; exact I.

Lemma permissions_inj p q : canonical (permissions_object p) = canonical (permissions_object q) -> p = q.
Proof.
  intros H. destruct (permission_fields p) as (P1 & P2 & P3). destruct (permission_fields q) as (Q1 & Q2 & Q3).
  assert (Hnd : forall r, NoDup (m_keys (named (permissions_object r)))).
  { intros [[a|] [d|] [k|]]; nodup_keys. }
  pose proof (fun k => object_shown _ _ k (Hnd p) (Hnd q) H) as Hs.
  pose proof (strings_opt_inj _ _ _ _ _ P1 Q1 (Hs _)) as E1.
  pose proof (strings_opt_inj _ _ _ _ _ P2 Q2 (Hs _)) as E2.
  pose proof (strings_opt_inj _ _ _ _ _ P3 Q3 (Hs _)) as E3.
  destruct p, q; simpl in *; congruence.
Qed.

Lemma scope_inj s r : canonical (scope_object s) = canonical (scope_object r) -> s = r.
Proof.
  intros H. destruct (scope_fields s) as (S1 & S2 & S3). destruct (scope_fields r) as (R1 & R2 & R3).
  assert (Hnd : forall r, NoDup (m_keys (named (scope_object r)))).
  { intros [p [e|] ses]; nodup_keys. }
  pose proof (fun k => object_shown _ _ k (Hnd s) (Hnd r) H) as Hs.
  pose proof (strings_opt_inj _ _ _ _ _ S3 R3 (Hs _)) as E3.
  destruct (shown_exact _ _ _ (Hs "permissions")) as [_ E1]. rewrite S1, R1 in E1. specialize (E1 eq_refl).
  apply permissions_inj in E1. destruct (shown_exact _ _ _ (Hs "sessionId")) as [_ E2]. rewrite S2, R2 in E2.
  specialize (E2 eq_refl). injection E2 as E2. destruct s, r; simpl in *; congruence.
Qed.

Lemma unsigned_field t k : k ≠ "proof" -> field k (named (token_object t)) = field k (unsigned_fields t).
Proof.
  intros Hk. change (named (token_object t)) with (unsigned_fields t ++ [("proof", proof_object (ct_proof t))]).
  unfold field. rewrite m_get_app. destruct (m_get k (unsigned_fields t)); [done|]. simpl. by rewrite decide_False.
Qed.

Lemma unsigned_NoDup t : clean t -> NoDup (m_keys (unsigned_fields t)).
Proof.
  intros (Hnd & Hk & _). unfold unsigned_fields, m_keys. rewrite !fmap_app.
  rewrite !(assoc_L (++)). apply NoDup_app. split_and!; [| |done].
  - destruct (ct_parentId t); nodup_keys.
  - intros k Hin Hex. apply (Hk k Hex). unfold known_keys. destruct (ct_parentId t); simpl in Hin; set_solver.
Qed.

(** The signed text binds every field the verifier reads: two tokens with the
    same text differ at most in their proofs and in what JSON cannot express. *)
Lemma signed_text_binds (t u : CapabilityToken) :
  clean t -> clean u -> serializeForSigning t = serializeForSigning u ->
  ct_id t = ct_id u /\ ct_issuerId t = ct_issuerId u /\ ct_delegateeId t = ct_delegateeId u /\
  ct_scope t = ct_scope u /\ ct_parentId t = ct_parentId u /\
  (forall n, ct_chainDepth t = JNum n <-> ct_chainDepth u = JNum n) /\
  (forall n, ct_maxChainDepth t = JNum n <-> ct_maxChainDepth u = JNum n) /\
  (forall n, ct_createdAt t = JNum n <-> ct_createdAt u = JNum n) /\
  (forall n, ct_expiresAt t = JNum n <-> ct_expiresAt u = JNum n) /\
  (ct_requiresPoP t = JBool true <-> ct_requiresPoP u = JBool true).
Proof.
  intros Ht Hu H%stringify_inj.
  pose proof (fun k => object_shown _ _ k (unsigned_NoDup t Ht) (unsigned_NoDup u Hu) H) as Hs.
  assert (Hf : forall k, k ≠ "proof" ->
    let a := field k (named (token_object t)) in let b := field k (named (token_object u)) in
    is_undefined a = is_undefined b /\ (is_undefined a = false -> canonical a = canonical b)).
  { intros k Hk. simpl. rewrite !unsigned_field by done. by apply shown_exact. }
  destruct (token_fields_read t Ht) as (T1 & T2 & T3 & T4 & T5 & T6 & T7 & T8 & T9 & T10 & _).
  destruct (token_fields_read u Hu) as (U1 & U2 & U3 & U4 & U5 & U6 & U7 & U8 & U9 & U10 & _).
  assert (Hstr : forall k a b, k ≠ "proof" -> field k (named (token_object t)) = JStr a ->
    field k (named (token_object u)) = JStr b -> a = b).
  { intros k a b Hk Ha Hb. destruct (Hf k Hk) as [_ Hc]. rewrite Ha, Hb in Hc. specialize (Hc eq_refl). by injection Hc. }
  assert (Hnum : forall k a b, k ≠ "proof" -> field k (named (token_object t)) = a ->
    field k (named (token_object u)) = b -> forall n, a = JNum n <-> b = JNum n).
  { intros k a b Hk Ha Hb n. destruct (Hf k Hk) as [Hd Hc]. rewrite Ha, Hb in Hd, Hc.
    split; intros ->; simpl in *; [by apply canonical_JNum; rewrite <-Hc|apply canonical_JNum; by apply Hc]. }
  refine (conj (Hstr "id" _ _ ltac:(done) T1 U1) (conj (Hstr "issuerId" _ _ ltac:(done) T2 U2)
    (conj (Hstr "delegateeId" _ _ ltac:(done) T3 U3) (conj _ (conj _ (conj (Hnum "chainDepth" _ _ ltac:(done) T6 U6)
    (conj (Hnum "maxChainDepth" _ _ ltac:(done) T7 U7) (conj (Hnum "createdAt" _ _ ltac:(done) T8 U8)
    (conj (Hnum "expiresAt" _ _ ltac:(done) T9 U9) _))))))))).
  - destruct (Hf "scope") as [_ Hc]; [done|]. rewrite T4, U4 in Hc. by apply scope_inj, Hc.
  - destruct (Hf "parentId") as [Hd Hc]; [done|]. rewrite T5, U5 in Hd, Hc.
    destruct (ct_parentId t), (ct_parentId u); try done. specialize (Hc eq_refl). by injection Hc as ->.
  - destruct (Hf "requiresPoP") as [Hd Hc]; [done|]. rewrite T10, U10 in Hd, Hc.
    assert (Hb : forall v, canonical v = JBool true -> v = JBool true) by (by intros []).
    split; intros Hx; rewrite Hx in Hd, Hc; simpl in *; apply Hb; [by rewrite <-Hc|by apply Hc].
Qed.

(** ** What is delegated verifies *)

Class CryptoLaws (crypto : Crypto) : Prop :=
  base64_decodes b : buffer_from crypto (JStr (base64 crypto b)) = Some b.

(** The verifier knows the signer's key, for tokens of this issuer. *)
Definition signer_trusted (crypto : Crypto) {Rg St : Type} (opts : CapabilityVerifierOptions Rg St)
    (signer : CapabilitySigner) (issuer : string) : Prop :=
  match signer with
  | Sg_hmac secret => exists ho, vo_hmac opts = Some ho /\ ho_secret ho = secret
  | Sg_ed25519 privateKey fingerprint =>
      exists ed key, vo_ed25519 opts = Some ed /\ m_get fingerprint (eo_publicKeys ed) = Some key /\
        m_get fingerprint (eo_issuerKeys ed) = Some issuer /\
        forall p, ed25519_verify crypto key p (ed25519_sign crypto privateKey p) = true
  end.

Section Delegated.
Context (crypto : Crypto) `{!CryptoLaws crypto} {Rg St : Type} `{HRg : CapabilityRevocationRegistry Rg}
  `{HSt : CapabilityTokenStore St} `{HLaws : !TokenStoreLaws St}.
Context (opts : CapabilityVerifierOptions Rg St) (ctx : VerifyContext).

Lemma built_signed t signer :
  signer_trusted crypto opts signer (ct_issuerId t) -> signed crypto opts (with_proof (buildProof crypto t signer) t).
Proof.
  destruct signer as [secret|priv fp]; simpl.
  - intros (ho & Ho & <-). eapply signed_hmac; [done|exact Ho|apply base64_decodes|done].
  - intros (ed & key & He & Hk & Hi & Hv).
    eapply signed_ed25519; [done|exact He|done|exact Hk|apply base64_decodes|apply Hv|done].
Qed.

Lemma signAndRegister_token t signer registry u registry' :
  signAndRegister crypto t signer registry = Is_token u registry' -> u = with_proof (buildProof crypto t signer) t.
Proof.
  unfold signAndRegister. destruct registry as [rg|]; [|by intros [= <- _]].
  destruct (rg_register _ rg); [|done]. by intros [= <- _].
Qed.

(** Delegation succeeds only within the parent. *)
Lemma delegate_token signer parent delegatee scope ttlMs now id registry child registry' :
  delegateCapability crypto signer parent delegatee scope ttlMs now id registry = Is_token child registry' ->
  exists ttl n, ttlMs = JNum ttl /\ now = JNum n /\ (0 < ttl)%Z /\ (n + ttl <= num (ct_expiresAt parent))%Z /\
    (num (ct_chainDepth parent) + 1 <= num (ct_maxChainDepth parent))%Z /\
    scope_within scope (ct_scope parent) /\
    child = (let u := mkToken id (ct_delegateeId parent) delegatee scope (Some (ct_id parent))
                 (JNum (num (ct_chainDepth parent) + 1)) (ct_maxChainDepth parent) (JNum n) (JNum (n + ttl))
                 JUndefined (hmac_proof "") [] in with_proof (buildProof crypto u signer) u).
Proof.
  unfold delegateCapability. destruct (finite ttlMs) as [ttl|] eqn:Ht; [|done].
  destruct (ttl <=? 0)%Z eqn:H0; [done|]. destruct (finite now) as [n|] eqn:Hn; [|done].
  destruct (_ <=? n)%Z eqn:H1; [done|]. destruct (_ <? _ + 1)%Z eqn:H2; [done|].
  destruct (bool_decide _) eqn:H3; [|done]. destruct (isPermissionSubsetWithAsk _ _) eqn:H4; [|done].
  destruct (isResourceSubset _ _) eqn:H5; [|done]. cbn [negb]. destruct (_ <? n + ttl)%Z eqn:H6; [done|].
  intros Hs%signAndRegister_token. apply finite_Some in Ht, Hn. exists ttl, n.
  apply bool_decide_eq_true in H3. apply isPermissionSubsetWithAsk_spec in H4. apply isResourceSubset_spec in H5.
  split_and!; try done; lia.
Qed.

(** Completeness of delegation: a token delegated under a valid chain is
    accepted from its creation until it expires, by every verifier that knows the
    signer's key and finds the parent in its store, as long as it is not revoked
    and its scope grants the tool. *)
Lemma delegation_verifies (signer : CapabilitySigner) (parent child : CapabilityToken) (ancestors : list CapabilityToken)
    (delegatee id : string) (scope : CapabilityScope) (ttlMs now : jsval) (registry registry' : option Rg) (store : St) :
  delegateCapability crypto signer parent delegatee scope ttlMs now id registry = Is_token child registry' ->
  token_valid crypto opts ctx parent -> chain crypto opts ctx parent ancestors ->
  NoDup (id :: (ct_id <$> parent :: ancestors)) -> clean parent ->
  signer_trusted crypto opts signer (ct_delegateeId parent) ->
  vo_tokenStore opts = Some store -> store_get (ct_id parent) store = Some (Some (token_object parent)) ->
  not_revoked opts child ->
  (num (ct_createdAt child) <= num (vc_now ctx) < num (ct_expiresAt child))%Z ->
  vo_scopeChecker opts (vc_toolId ctx) scope = Some true ->
  verify crypto opts ctx (token_object child) = Some (Ok child).
Proof.
  intros Hdel Hvalid Hchain Hnd Hclean Htrust Hst Hget Hrev Htime Hsc.
  apply delegate_token in Hdel as (ttl & n & -> & -> & Httl & Hexp & Hmax & Hscope & Hchild).
  pose proof (chain_facts _ _ _ _ _ Hchain) as [Hdepth _].
  assert (Hcc : clean child) by (subst child; split_and!; [constructor|by intros ? ?%elem_of_nil|destruct signer; set_solver]).
  destruct (token_roundtrip child Hcc) as [Hshape Hnorm]. destruct (token_roundtrip parent Hclean) as [Psh Pn].
  destruct (tv_created _ _ _ _ Hvalid) as (c & Hc & m & Hm & _ & _).
  assert (Hcv : token_valid crypto opts ctx child).
  { rewrite Hm in Htime. unfold num in Htime. subst child; simpl in *.
    split; simpl; eauto.
    - exists n. split; [done|]. exists m. split; [done|]. split; [lia|]. eexists. split; [done|lia].
    - exact (tv_max _ _ _ _ Hvalid).
    - by apply built_signed.
    - rewrite (sw_session _ _ Hscope). apply Hvalid.
    - intros Hz. change (num (JNum (num (ct_chainDepth parent) + 1))) with (num (ct_chainDepth parent) + 1)%Z in Hz. lia. }
  apply (verify_accepts crypto opts ctx).
  split_and!; [done|by rewrite Hnorm|]. split; [done|split; [|by subst child]].
  exists (parent :: ancestors). split; [|subst child; exact Hnd].
  eapply chain_link; try done; subst child; simpl; try done.
  change (num (ct_chainDepth parent) + 1 ≠ 0)%Z. lia.
Qed.
End Delegated.

(** ** A chain of two tokens in the in-memory registry *)

Definition text_string (t : text) : string := String.string_of_list_ascii t.

(** A stand-in for the primitives, good enough to run the code. *)
Definition toy_crypto : Crypto :=
  mkCrypto (fun secret p => secret +:+ text_string p) (fun key p => key +:+ text_string p)
    (fun key p sig => bool_decide (sig = key +:+ text_string p)) (fun b => b)
    (fun v => match v with JStr s => Some s | _ => None end).

#[export] Instance toy_crypto_laws : CryptoLaws toy_crypto.
Proof. by intros b. Qed.

Definition sample_scope (allow deny : list string) : CapabilityScope :=
  mkScope (mkPerms (Some allow) (Some deny) None) None "session".

Definition issued {Rg : Type} (i : Issued Rg) : option (CapabilityToken * option Rg) :=
  match i with Is_token t rg => Some (t, rg) | _ => None end.

Definition sample_root : option (CapabilityToken * option MemoryRegistry) :=
  issued (issueRootCapability toy_crypto (Sg_hmac "secret") "engine" "alice" (sample_scope ["*"] ["bash"])
    (JNum 1000) (JNum 2) (JNum 0) "root" (Some createMemoryCapabilityRevocationRegistry)).

Definition root_token : CapabilityToken := default (mkToken "" "" "" (sample_scope [] []) None JNull JNull JNull JNull JNull (hmac_proof "") []) (fst <$> sample_root).
Definition root_registry : option MemoryRegistry := r ← sample_root; r.2.

Definition sample_child : option (CapabilityToken * option MemoryRegistry) :=
  issued (delegateCapability toy_crypto (Sg_hmac "secret") root_token "bob" (sample_scope ["db*"] ["bash"; "rm"])
    (JNum 500) (JNum 10) "child" root_registry).

Definition child_token : CapabilityToken := default root_token (fst <$> sample_child).
Definition child_registry : MemoryRegistry := default createMemoryCapabilityRevocationRegistry (r ← sample_child; r.2).

Definition sample_options : CapabilityVerifierOptions MemoryRegistry MemoryRegistry :=
  mkVerifier (Some (mkHmac "secret" (Some "engine"))) None createGlobScopeChecker (Some child_registry) (Some child_registry).

Definition sample_context : VerifyContext := mkContext "db:read" (JNum 20) ["session"].

Lemma no_amplification_witness :
  verify toy_crypto sample_options sample_context (token_object child_token) = Some (Ok child_token) /\
  exists ancestors root, last (child_token :: ancestors) = Some root /\ ct_parentId root = None.
Proof.
  assert (Hv : verify toy_crypto sample_options sample_context (token_object child_token) = Some (Ok child_token))
    by (vm_compute; reflexivity).
  split; [exact Hv|].
  destruct (no_amplification toy_crypto sample_options sample_context (token_object child_token) child_token eq_refl Hv)
    as (ancestors & root & _ & Hlast & Hparent & _).
  exists ancestors, root. split; [exact Hlast|exact Hparent].
Defined.

Lemma sample_clean t : ct_extra t = [] -> m_keys (pf_fields (ct_proof t)) = ["digest"] -> clean t.
Proof. unfold clean. intros -> ->. split_and!; [constructor|by intros ? ?%elem_of_nil|set_solver]. Qed.

Lemma signed_text_binds_witness :
  serializeForSigning root_token = serializeForSigning (with_proof (hmac_proof "other") root_token) /\
  ct_id root_token = ct_id (with_proof (hmac_proof "other") root_token).
Proof.
  assert (H1 : clean root_token) by (apply sample_clean; vm_compute; reflexivity).
  assert (H2 : clean (with_proof (hmac_proof "other") root_token)) by (apply sample_clean; vm_compute; reflexivity).
  split; [reflexivity|]. exact (proj1 (signed_text_binds _ _ H1 H2 eq_refl)).
Defined.

Lemma delegation_verifies_witness :
  verify toy_crypto sample_options sample_context (token_object child_token) = Some (Ok child_token).
Proof.
  assert (Hstr : verifyStructural toy_crypto sample_options sample_context root_token = None) by (vm_compute; reflexivity).
  apply (delegation_verifies toy_crypto sample_options sample_context (Sg_hmac "secret") root_token child_token []
    "bob" "child" (sample_scope ["db*"] ["bash"; "rm"]) (JNum 500) (JNum 10) root_registry (Some child_registry) child_registry).
  - vm_compute. reflexivity.
  - apply verifyStructural_spec. exact Hstr.
  - apply chain_root; reflexivity.
  - apply (bool_decide_unpack (NoDup ("child" :: (ct_id <$> [root_token])))). vm_compute. exact I.
  - apply sample_clean; vm_compute; reflexivity.
  - exists (mkHmac "secret" (Some "engine")). split; reflexivity.
  - reflexivity.
  - vm_compute. reflexivity.
  - intros rg Hrg. injection Hrg as <-. vm_compute. reflexivity.
  - vm_compute. split; [discriminate|reflexivity].
  - vm_compute. reflexivity.
Defined.

Lemma verify_exact_witness :
  exists r, verify toy_crypto sample_options sample_context (JObj [("id", JStr "forged")]) = Some r /\
    forall t, r <> Ok t.
Proof.
  destruct (verify_exact toy_crypto sample_options sample_context (JObj [("id", JStr "forged")])) as (r & Hr & Hspec).
  exists r. split; [exact Hr|]. intros t Ht. apply Hspec in Ht as (Hshape & _).
  vm_compute in Hshape. discriminate Hshape.
Defined.
