(* ===== verification/Revocation.v ===== *)
(** * Cascading revocation

    The in-memory registry of [Delegation] keeps its promise in every order of
    calls: a cascading revocation reaches every descendant, registered before or
    after it, and nothing is revoked without a revoked ancestor. *)

From S2P Require Import Prelude JsMap Text Canonical Delegation.

Local Open Scope list_scope.

(** ** Operations on the registry *)

Inductive RegistryOp : Type :=
  | Op_register (token : CapabilityToken)
  | Op_revoke (id : string) (cascade : bool).

Definition run_op (op : RegistryOp) (r : MemoryRegistry) : option MemoryRegistry :=
  match op with
  | Op_register token => register token r
  | Op_revoke id cascade => revoke id cascade r
  end.

Definition run_ops (ops : list RegistryOp) (r : MemoryRegistry) : option MemoryRegistry :=
  foldl (fun acc op => s ← acc; run_op op s) (Some r) ops.

(** A registered token and its parent. *)
Definition delegated (ops : list RegistryOp) (parent child : string) : Prop :=
  exists t, Op_register t ∈ ops /\ ct_parentId t = Some parent /\ ct_id t = child.

(** ** The cascade *)

Definition kid_of (children : list (string * list string)) (p k : string) : Prop :=
  exists kids, m_get p children = Some kids /\ k ∈ kids.

Lemma kid_loop_spec kids queue seen revoked :
  exists new, kid_loop kids queue seen revoked = (queue ++ new, seen ++ new, foldl (fun acc k => s_add k acc) revoked new) /\
    NoDup new /\ (forall k, k ∈ new <-> k ∈ kids /\ k ∉ seen).
Proof.
  revert queue seen revoked. induction kids as [|k kids IH]; intros queue seen revoked; simpl.
  { exists []. rewrite !app_nil_r. split_and!; [done|constructor|]. set_solver. }
  destruct (s_has k seen) eqn:Hk.
  - apply s_has_true in Hk. destruct (IH queue seen revoked) as (new & -> & Hnd & Hn). exists new.
    split_and!; [done..|]. intros x. rewrite Hn, elem_of_cons. destruct (decide (x = k)) as [->|]; tauto.
  - apply s_has_false in Hk. destruct (IH (queue ++ [k]) (s_add k seen) (s_add k revoked)) as (new & -> & Hnd & Hn).
    exists (k :: new). unfold s_add at 1. rewrite decide_False by done. rewrite <-!app_assoc. split; [done|]. split.
    + constructor; [|done]. rewrite Hn, elem_of_s_add. tauto.
    + intros x. rewrite !elem_of_cons, Hn, elem_of_s_add. destruct (decide (x = k)) as [->|]; tauto.
Qed.

Lemma elem_of_add_all (new revoked : list string) x :
  x ∈ foldl (fun acc k => s_add k acc) revoked new <-> x ∈ new \/ x ∈ revoked.
Proof.
  revert revoked. induction new as [|k new IH]; intros revoked; simpl; [set_solver|].
  rewrite IH, elem_of_s_add, elem_of_cons. tauto.
Qed.

(** State of the loop started at [s]: what is seen is reachable, what is seen
    and no longer queued has been expanded, what is seen apart from [s] is revoked. *)
Record cascading (children : list (string * list string)) (s : string) (revoked0 queue seen revoked : list string) : Prop := {
  cd_start : s ∈ seen;
  cd_queue : queue ⊆ seen;
  cd_reach x : x ∈ seen -> rtc (kid_of children) s x;
  cd_done x k : x ∈ seen -> x ∉ queue -> kid_of children x k -> k ∈ seen;
  cd_revoked x : x ∈ revoked <-> x ∈ revoked0 \/ (x ∈ seen /\ x ≠ s)
}.

Lemma kid_universe children p k : kid_of children p k -> k ∈ concat (m_values children).
Proof.
  intros (kids & Hg & Hk). apply list_elem_of_In, in_concat. exists kids.
  split; apply list_elem_of_In; [|done]. apply list_elem_of_fmap. exists (p, kids). split; [done|]. by apply m_get_elem.
Qed.

Lemma remaining_extend (univ seen new : list string) :
  NoDup new -> new ⊆ univ -> (forall k, k ∈ new -> k ∉ seen) ->
  length new + remaining univ (seen ++ new) <= remaining univ seen.
Proof.
  revert seen. induction new as [|k new IH]; intros seen Hnd Hu Hs; simpl; [by rewrite app_nil_r|].
  apply NoDup_cons in Hnd as [Hk Hnd].
  assert (Hlt : remaining univ (seen ++ [k]) < remaining univ seen).
  { apply (remaining_lt _ _ _ k); [set_solver|set_solver|apply Hs; left|set_solver]. }
  specialize (IH (seen ++ [k]) Hnd ltac:(set_solver)). rewrite <-app_assoc in IH. simpl in IH.
  enough (length new + remaining univ (seen ++ k :: new) <= remaining univ (seen ++ [k])) by lia.
  apply IH. intros x Hx Hin. apply elem_of_app in Hin as [Hin|Hin%list_elem_of_singleton].
  - apply (Hs x); [by right|done].
  - by subst.
Qed.

Lemma cascade_loop_spec children s revoked0 fuel : forall queue seen revoked,
  length queue + remaining (concat (m_values children)) seen < fuel ->
  cascading children s revoked0 queue seen revoked ->
  exists revoked', cascade_loop fuel children queue seen revoked = Some revoked' /\
    exists seen', cascading children s revoked0 [] seen' revoked'.
Proof.
  induction fuel as [|fuel IH]; intros queue seen revoked Hf Hc; [lia|]. cbn [cascade_loop].
  destruct queue as [|next queue]; [eauto|]. simpl in Hf.
  destruct (m_get next children) as [kids|] eqn:Hg.
  - destruct (kid_loop_spec kids queue seen revoked) as (new & -> & Hnd & Hnew).
    assert (Hkid : forall k, k ∈ new -> kid_of children next k) by (intros k Hk; exists kids; split; [done|]; by apply Hnew).
    apply IH.
    + rewrite length_app. enough (length new + remaining (concat (m_values children)) (seen ++ new)
        <= remaining (concat (m_values children)) seen) by lia.
      apply remaining_extend; [done|intros k Hk; by eapply kid_universe, Hkid|intros k Hk; by apply Hnew].
    + destruct Hc as [C1 C2 C3 C4 C5]. split.
      * set_solver.
      * set_solver.
      * intros x [Hx|Hx]%elem_of_app; [by apply C3|]. eapply rtc_r; [apply (C3 next); set_solver|by apply Hkid].
      * intros x k Hx Hq Hk. apply elem_of_app. destruct (decide (k ∈ seen)) as [|Hks]; [by left|right].
        apply Hnew. split; [|done].
        assert (x = next) as -> by (destruct (decide (x = next)); [done|];
          exfalso; apply Hks, (C4 x); [apply elem_of_app in Hx; set_solver|set_solver|done]).
        destruct Hk as (kids' & Hg' & Hk). congruence.
      * intros x. rewrite elem_of_add_all, C5, elem_of_app. split; [|tauto].
        intros [Hx|Hx]; [|tauto]. right. split; [by right|]. intros ->. by apply Hnew in Hx as [_ ?].
  - apply IH; [lia|]. destruct Hc as [C1 C2 C3 C4 C5]. split; [done|set_solver|done| |done].
    intros x k Hx Hq Hk. destruct (decide (x = next)) as [->|Hne].
    + destruct Hk as (kids & Hg' & _). congruence.
    + apply (C4 x); [done|set_solver|done].
Qed.

(** The cascade from a revoked token revokes its descendants and nothing else. *)
Lemma cascadeRevokeFrom_spec s r :
  s ∈ mr_revoked r ->
  exists revoked', cascadeRevokeFrom s r = Some (with_revoked revoked' r) /\
    forall x, x ∈ revoked' <-> x ∈ mr_revoked r \/ rtc (kid_of (mr_children r)) s x.
Proof.
  intros Hs. unfold cascadeRevokeFrom.
  destruct (cascade_loop_spec (mr_children r) s (mr_revoked r) (3 + length (concat (m_values (mr_children r)))) [s] [s] (mr_revoked r))
    as (revoked' & -> & seen & [C1 C2 C3 C4 C5]).
  - pose proof (remaining_le (concat (m_values (mr_children r))) [s]). simpl. lia.
  - split; [left|done| | |].
    + intros x ->%list_elem_of_singleton. done.
    + intros x k Hx Hn. done.
    + intros x. rewrite list_elem_of_singleton. tauto.
  - exists revoked'. split; [done|]. intros x. rewrite C5. split.
    + intros [?|[Hx _]]; [by left|right; by apply C3].
    + intros [?|Hx]; [by left|]. destruct (decide (x = s)) as [->|Hne]; [by left|right]. split; [|done].
      apply (rtc_closed (kid_of (mr_children r)) (fun y => y ∈ seen) s); [|done|done].
      intros y k Hy Hk. apply (C4 y k Hy); [by intros ?%elem_of_nil|done].
Qed.

(** ** Walking up *)

Definition parent_of (parents : list (string * string)) (c p : string) : Prop := m_get c parents = Some p.

Lemma ancestor_loop_spec revoked parents s fuel : forall cursor seen,
  S (remaining (s :: m_values parents) seen) < fuel ->
  (forall c, cursor = Some c -> c ∈ s :: m_values parents /\ rtc (parent_of parents) s c) ->
  exists b, ancestor_loop fuel revoked parents cursor seen = Some b /\
    (b = true -> exists x, x ∈ revoked /\ rtc (parent_of parents) s x) /\
    (forall c, cursor = Some c -> c ∈ revoked -> c ∉ seen -> b = true).
Proof.
  induction fuel as [|fuel IH]; intros cursor seen Hf Hc; [lia|]. cbn [ancestor_loop].
  destruct cursor as [c|]; [|by eexists]. destruct (Hc c eq_refl) as [Hin Hr].
  destruct (s_has c seen) eqn:Hs.
  { apply s_has_true in Hs. eexists. split; [done|]. split; [done|]. by intros ? [= <-] _ ?. }
  destruct (s_has c revoked) eqn:Hv.
  { apply s_has_true in Hv. eexists. split; [done|]. split; [eauto|done]. }
  apply s_has_false in Hs, Hv.
  destruct (IH (m_get c parents) (s_add c seen)) as (b & Hb & H1 & H2).
  - enough (remaining (s :: m_values parents) (s_add c seen) < remaining (s :: m_values parents) seen) by lia.
    apply (remaining_lt _ _ _ c); [intros x ?; apply elem_of_s_add; auto|done|done|apply elem_of_s_add; auto].
  - intros p Hp. split; [|by eapply rtc_r]. right. apply list_elem_of_fmap. exists (c, p). split; [done|].
    by apply m_get_elem.
  - exists b. split; [done|]. split; [done|]. intros c' [= <-]. done.
Qed.

Lemma isAnyAncestorRevoked_spec s r :
  exists b, isAnyAncestorRevoked s r = Some b /\
    (b = true -> exists x, x ∈ mr_revoked r /\ rtc (parent_of (mr_parents r)) s x) /\
    (s ∈ mr_revoked r -> b = true).
Proof.
  unfold isAnyAncestorRevoked.
  destruct (ancestor_loop_spec (mr_revoked r) (mr_parents r) s (3 + length (mr_parents r)) (Some s) []) as (b & Hb & H1 & H2).
  - pose proof (remaining_le (s :: m_values (mr_parents r)) []) as Hle. simpl in Hle. unfold m_values in *.
    rewrite length_fmap in Hle. lia.
  - intros c [= <-]. split; [left|done].
  - exists b. split; [done|]. split; [done|]. intros Hs. apply (H2 s eq_refl Hs). by intros ?%elem_of_nil.
Qed.

(** ** The invariant *)

Record registry_ok (ops : list RegistryOp) (r : MemoryRegistry) : Prop := {
  ro_kids p k : kid_of (mr_children r) p k <-> delegated ops p k;
  ro_parents c p : parent_of (mr_parents r) c p -> delegated ops p c;
  ro_explicit a b : Op_revoke a b ∈ ops -> a ∈ mr_revoked r;
  ro_cascade a d : Op_revoke a true ∈ ops -> rtc (delegated ops) a d -> d ∈ mr_revoked r;
  ro_sound d : d ∈ mr_revoked r -> exists a b, Op_revoke a b ∈ ops /\ rtc (delegated ops) a d
}.

Lemma delegated_revoke ops id c p k : delegated (ops ++ [Op_revoke id c]) p k <-> delegated ops p k.
Proof.
  unfold delegated. split; intros (t & Ht & Hp).
  - exists t. split; [|done]. by apply elem_of_app in Ht as [?|[= ]%list_elem_of_singleton].
  - exists t. split; [|done]. apply elem_of_app. by left.
Qed.

Lemma delegated_register ops t p k :
  delegated (ops ++ [Op_register t]) p k <-> delegated ops p k \/ (ct_parentId t = Some p /\ ct_id t = k).
Proof.
  unfold delegated. split.
  - intros (u & Hu & Hp). apply elem_of_app in Hu as [Hu|[= ->]%list_elem_of_singleton]; [left; eauto|by right].
  - intros [(u & Hu & Hp)|Hp]; [exists u|exists t]; (split; [|done]); apply elem_of_app; [by left|right; left].
Qed.

Lemma rtc_iff {A} (R R' : relation A) a b : (forall x y, R x y <-> R' x y) -> rtc R a b <-> rtc R' a b.
Proof. intros Hi. split; apply rtc_subrel; intros x y; apply Hi. Qed.

(** A path in a relation with one more edge either avoids it or passes through it. *)
Lemma rtc_new_edge {A} (R R' : relation A) p t a d :
  (forall x y, R' x y -> R x y \/ (x = p /\ y = t)) ->
  rtc R' a d -> rtc R a d \/ (rtc R a p /\ rtc R' t d).
Proof.
  intros Hn. induction 1 as [|a b d Hab Hbd IH]; [by left|].
  apply Hn in Hab as [Hab|[-> ->]]; [|right; by split]. destruct IH as [IH|[IH1 IH2]].
  - left. by eapply rtc_l.
  - right. split; [by eapply rtc_l|done].
Qed.

Lemma elem_of_snoc {A} (l : list A) x y : x ∈ l ++ [y] <-> x ∈ l \/ x = y.
Proof. by rewrite elem_of_app, list_elem_of_singleton. Qed.

Lemma revoke_ok ops id cascade r :
  registry_ok ops r ->
  exists r', revoke id cascade r = Some r' /\ registry_ok (ops ++ [Op_revoke id cascade]) r'.
Proof.
  intros [R1 R2 R3 R4 R5]. unfold revoke. set (r1 := with_revoked _ r).
  assert (Hd : forall p k, delegated (ops ++ [Op_revoke id cascade]) p k <-> delegated ops p k) by apply delegated_revoke.
  assert (Hk : forall a x, rtc (kid_of (mr_children r)) a x <-> rtc (delegated ops) a x) by (intros; by apply rtc_iff).
  assert (Hr : forall a x, rtc (delegated (ops ++ [Op_revoke id cascade])) a x <-> rtc (delegated ops) a x)
    by (intros; by apply rtc_iff).
  assert (Hin : forall x, x ∈ mr_revoked r1 <-> x = id \/ x ∈ mr_revoked r) by (intros x; apply elem_of_s_add).
  assert (Hgen : forall revoked', (forall x, x ∈ revoked' <-> x ∈ mr_revoked r1 \/ (cascade = true /\ rtc (delegated ops) id x)) ->
    registry_ok (ops ++ [Op_revoke id cascade]) (with_revoked revoked' r1)).
  { intros revoked' Hrev. split; simpl.
    - intros p k. by rewrite Hd, R1.
    - intros c p Hp. apply Hd. by apply R2.
    - intros a b. rewrite elem_of_snoc, Hrev, Hin. intros [Ha|[= -> _]]; [left; right; by eapply R3|left; by left].
    - intros a d. rewrite elem_of_snoc, Hrev, Hin, Hr. intros [Ha|[= -> <-]] Hx; [left; right; by eapply R4|by right].
    - intros d. rewrite Hrev, Hin. intros [[->|Hd']|[-> Hx]].
      + exists id, cascade. split; [apply elem_of_snoc; by right|done].
      + destruct (R5 d Hd') as (a & b & Ha & Hx). exists a, b. split; [apply elem_of_snoc; by left|by apply Hr].
      + exists id, true. split; [apply elem_of_snoc; by right|by apply Hr]. }
  destruct cascade.
  - destruct (cascadeRevokeFrom_spec id r1) as (revoked' & -> & Hrev); [apply Hin; by left|].
    eexists. split; [done|]. apply Hgen. intros x. rewrite Hrev. simpl. rewrite Hk. tauto.
  - exists r1. split; [done|]. apply (Hgen (mr_revoked r1)). intros x. split; [by left|]. by intros [?|[? _]].
Qed.

Lemma kid_of_set children p t x k :
  kid_of (m_set p (s_add t (default [] (m_get p children))) children) x k <->
  kid_of children x k \/ (x = p /\ k = t).
Proof.
  unfold kid_of. rewrite m_get_set. case_decide as Hx.
  - subst x. split.
    + intros (kids & [= <-] & Hk). apply elem_of_s_add in Hk as [->|Hk]; [by right|left].
      destruct (m_get p children) as [ks|]; [by exists ks|by apply elem_of_nil in Hk].
    + intros H. eexists. split; [done|]. apply elem_of_s_add.
      destruct H as [(kids & -> & Hk)|[_ ->]]; [by right|by left].
  - split; [by left|]. intros [H|[-> _]]; done.
Qed.

(** A new parent link, before the check for revoked ancestors. *)
Lemma register_link_ok ops t p r :
  ct_parentId t = Some p -> registry_ok ops r ->
  let ops' := ops ++ [Op_register t] in
  let r1 := mkRegistry (mr_revoked r) (m_set p (s_add (ct_id t) (default [] (m_get p (mr_children r)))) (mr_children r))
              (m_set (ct_id t) p (mr_parents r)) (m_set (ct_id t) t (mr_tokens r)) in
  (forall x k, kid_of (mr_children r1) x k <-> delegated ops' x k) /\
  (forall c x, parent_of (mr_parents r1) c x -> delegated ops' x c) /\
  (forall a d, Op_revoke a true ∈ ops' -> rtc (delegated ops') a d ->
     d ∈ mr_revoked r \/ (p ∈ mr_revoked r /\ rtc (delegated ops') (ct_id t) d)).
Proof.
  intros Hp [R1 R2 R3 R4 R5]; simpl. split_and!.
  - intros x k. rewrite kid_of_set, R1, delegated_register, Hp. naive_solver.
  - unfold parent_of. intros c x. rewrite m_get_set, delegated_register. case_decide; [|left; by apply R2].
    intros [= <-]. by right.
  - intros a d. rewrite elem_of_snoc. intros [Ha|?] Hr; [|done].
    apply (rtc_new_edge (delegated ops) _ p (ct_id t)) in Hr as [Hr|[Hr1 Hr2]].
    + left. by eapply R4.
    + right. split; [by eapply R4|done].
    + intros x y Hxy. apply delegated_register in Hxy as [?|[Hx <-]]; [by left|right]. split; congruence.
Qed.

Lemma rtc_delegated_mono ops op a d : rtc (delegated ops) a d -> rtc (delegated (ops ++ [op])) a d.
Proof.
  apply rtc_subrel. intros x y (t & Ht & Hp). exists t. split; [|done]. apply elem_of_snoc. by left.
Qed.

Lemma rtc_parents_down ops parents s x :
  (forall c p, parent_of parents c p -> delegated ops p c) -> rtc (parent_of parents) s x -> rtc (delegated ops) x s.
Proof. intros Hp. induction 1 as [|a b c Hab _ IH]; [done|]. eapply rtc_r; [exact IH|by apply Hp]. Qed.

Lemma register_ok ops t r :
  registry_ok ops r -> exists r', register t r = Some r' /\ registry_ok (ops ++ [Op_register t]) r'.
Proof.
  intros Hok. unfold register. destruct (ct_parentId t) as [p|] eqn:Hp.
  2: { eexists. split; [done|]. destruct Hok as [R1 R2 R3 R4 R5].
    assert (Hd : forall x k, delegated (ops ++ [Op_register t]) x k <-> delegated ops x k)
      by (intros; rewrite delegated_register, Hp; naive_solver).
    assert (Hr : forall a x, rtc (delegated (ops ++ [Op_register t])) a x <-> rtc (delegated ops) a x)
      by (intros; by apply rtc_iff).
    split; simpl.
    - intros x k. by rewrite Hd, R1.
    - intros c x Hc. apply Hd. by apply R2.
    - intros a b. rewrite elem_of_snoc. intros [?|?]; [by eapply R3|done].
    - intros a d. rewrite elem_of_snoc, Hr. intros [?|?]; [by apply R4|done].
    - intros d (a & b & Ha & Hx)%R5. exists a, b. split; [apply elem_of_snoc; by left|by apply Hr]. }
  destruct (register_link_ok ops t p r Hp Hok) as (L1 & L2 & L3). cbv zeta. set (r1 := mkRegistry _ _ _ _) in *.
  destruct Hok as [R1 R2 R3 R4 R5].
  assert (Hsound : forall d, d ∈ mr_revoked r -> exists a b, Op_revoke a b ∈ ops ++ [Op_register t] /\
    rtc (delegated (ops ++ [Op_register t])) a d).
  { intros d (a & b & Ha & Hx)%R5. exists a, b. split; [apply elem_of_snoc; by left|by apply rtc_delegated_mono]. }
  destruct (isAnyAncestorRevoked_spec p r1) as (b & -> & Hb1 & Hb2). destruct b.
  - set (r2 := with_revoked _ r1).
    destruct (cascadeRevokeFrom_spec (ct_id t) r2) as (revoked' & -> & Hrev); [apply elem_of_s_add; by left|].
    eexists. split; [done|].
    assert (Hk : forall x, x ∈ revoked' <-> x ∈ mr_revoked r \/ rtc (delegated (ops ++ [Op_register t])) (ct_id t) x).
    { intros x. rewrite Hrev. change (mr_children r2) with (mr_children r1).
      rewrite (rtc_iff _ _ (ct_id t) x L1).
      change (mr_revoked r2) with (s_add (ct_id t) (mr_revoked r)). rewrite elem_of_s_add. split; [|tauto]. intros [[->|?]|?]; [right; done|by left|by right]. }
    split; simpl.
    + exact L1.
    + exact L2.
    + intros a c. rewrite elem_of_snoc, Hk. intros [?|?]; [left; by eapply R3|done].
    + intros a d Ha Hd. apply Hk. destruct (L3 a d Ha Hd) as [?|[_ ?]]; auto.
    + intros d [Hd|Hd]%Hk; [by apply Hsound|].
      destruct (Hb1 eq_refl) as (x & Hx & Hpx). destruct (Hsound x Hx) as (a & c & Ha & Hax).
      exists a, c. split; [done|]. apply (rtc_parents_down _ _ _ _ L2) in Hpx.
      etrans; [exact Hax|]. etrans; [exact Hpx|]. eapply rtc_l; [|exact Hd].
      apply delegated_register. by right.
  - exists r1. split; [done|]. split; simpl; try done.
    + intros a c. rewrite elem_of_snoc. intros [?|?]; [by eapply R3|done].
    + intros a d Ha Hd. destruct (L3 a d Ha Hd) as [?|[Hpr _]]; [done|]. by apply Hb2 in Hpr.
Qed.

Lemma run_ops_ok ops : exists r, run_ops ops createMemoryCapabilityRevocationRegistry = Some r /\ registry_ok ops r.
Proof.
  unfold run_ops. apply (foldl_option_ind registry_ok (fun acc op => s ← acc; run_op op s)).
  - split; simpl.
    + intros p k. split; [by intros (? & ? & _)|]. by intros (t & ?%elem_of_nil & _).
    + done.
    + by intros a b ?%elem_of_nil.
    + by intros a d ?%elem_of_nil.
    + by intros d ?%elem_of_nil.
  - intros seen op rest s _ Hs. simpl. destruct op as [t|id c]; [by apply register_ok|by apply revoke_ok].
Qed.

(** C19: for every sequence of registrations and revocations the registry answers:
    explicitly revoked tokens and all descendants of a token revoked with cascade,
    whether registered before or after, are revoked; and every revoked token has
    an explicitly revoked ancestor or is one. *)
Theorem revocation_exact (ops : list RegistryOp) :
  exists r, run_ops ops createMemoryCapabilityRevocationRegistry = Some r /\
    (forall a b, Op_revoke a b ∈ ops -> isRevoked a r = true) /\
    (forall a d, Op_revoke a true ∈ ops -> rtc (delegated ops) a d -> isRevoked d r = true) /\
    (forall d, isRevoked d r = true -> exists a b, Op_revoke a b ∈ ops /\ rtc (delegated ops) a d).
Proof.
  destruct (run_ops_ok ops) as (r & Hr & [R1 R2 R3 R4 R5]). exists r. split; [done|].
  unfold isRevoked. setoid_rewrite s_has_true. split_and!; done.
Qed.

(** Registration under a token that was revoked without cascade still revokes. *)
Lemma late_child_of_single_revocation (t : CapabilityToken) p :
  ct_parentId t = Some p ->
  exists r, run_ops [Op_revoke p false; Op_register t] createMemoryCapabilityRevocationRegistry = Some r /\
    isRevoked (ct_id t) r = true.
Proof.
  intros Hp. destruct (run_ops_ok [Op_revoke p false]) as (r & Hr & Hok). cbn in Hr. injection Hr as <-.
  unfold run_ops; simpl. unfold register. rewrite Hp. set (r1 := mkRegistry _ _ _ _).
  destruct (isAnyAncestorRevoked_spec p r1) as (b & -> & _ & Hb). rewrite Hb by (by left).
  destruct (cascadeRevokeFrom_spec (ct_id t) (with_revoked (s_add (ct_id t) (mr_revoked r1)) r1)) as (rv & -> & Hrev);
    [apply elem_of_s_add; by left|].
  eexists. split; [done|]. apply s_has_true. simpl. apply Hrev. left. apply elem_of_s_add. by left.
Qed.
