(* ===== verification/VectorClock.v ===== *)
(** * Vector clocks and sync cursors

    [lib/federation/src/vector-clock.ts], the pure part of [sync-protocol.ts] and
    [types.ts].  A clock is an object from zone ids to numbers, a map in
    insertion order here; no zone is named like a member of [Object.prototype],
    which the code would find by reading [clock[zone]].  Numbers are integers. *)

From S2P Require Import Prelude JsMap Text Canonical.

Local Open Scope string_scope.
Local Open Scope list_scope.
Local Open Scope Z_scope.

(** ** Clocks *)

Definition VectorClock : Type := list (string * Z).

(** [clock[zone] ?? 0] *)
Definition component (clock : VectorClock) (zone : string) : Z := default 0 (m_get zone clock).

Inductive ClockOrder : Type := CO_before | CO_after | CO_concurrent | CO_equal.

#[export] Instance ClockOrder_eq_dec : EqDecision ClockOrder.
Proof. solve_decision. Defined.

Definition incrementVectorClock (clock : VectorClock) (zone : string) : VectorClock :=
  m_set zone (component clock zone + 1) clock.

(** [new Set([...Object.keys(left), ...Object.keys(right)])] *)
Definition all_keys (left right : VectorClock) : list string := s_addAll (m_keys left ++ m_keys right) [].

Definition mergeVectorClock (left right : VectorClock) : VectorClock :=
  (fun key => (key, Z.max (component left key) (component right key))) <$> all_keys left right.

Fixpoint compare_loop (left right : VectorClock) (keys : list string) (leftBefore rightBefore : bool) : ClockOrder :=
  match keys with
  | [] =>
      if negb leftBefore && negb rightBefore then CO_equal else if leftBefore then CO_before else CO_after
  | key :: keys =>
      let leftValue := component left key in
      let rightValue := component right key in
      let leftBefore' := if leftValue <? rightValue then true else leftBefore in
      let rightBefore' :=
        if leftValue <? rightValue then rightBefore else if rightValue <? leftValue then true else rightBefore in
      if leftBefore' && rightBefore' then CO_concurrent
      else compare_loop left right keys leftBefore' rightBefore'
  end.

Definition compareVectorClock (left right : VectorClock) : ClockOrder :=
  compare_loop left right (all_keys left right) false false.

Definition pruneVectorClock (clock : VectorClock) (lastActiveTimes : list (string * Z)) (cutoffAt : Z) : VectorClock :=
  filter (fun e => match m_get e.1 lastActiveTimes with None => true | Some lastActive => cutoffAt <=? lastActive end = true) clock.

(** ** Events and conflicts *)

Record FederationSyncEvent : Type := mkEvent {
  ev_kind : string;
  ev_originZoneId : string;
  ev_sequence : Z;
  ev_vectorClock : option VectorClock;
  ev_data : list (string * jsval);
  ev_emittedAt : Z
}.

Inductive ConflictResolutionStrategy : Type := Cs_lww | Cs_merge | Cs_manual.

(** [value.trim()] for the white space below 256. *)
Definition is_space (c : ascii) : bool :=
  let n := nat_of_ascii c in
  bool_decide (n = 32%nat \/ (9 <= n <= 13)%nat \/ n = 160%nat).

Fixpoint trim_start (s : text) : text :=
  match s with c :: s' => if is_space c then trim_start s' else s | [] => [] end.

Definition trim (s : text) : text := rev (trim_start (rev (trim_start s))).

(** [a ?? b] *)
Definition nullish (a b : jsval) : jsval := match a with JUndefined | JNull => b | _ => a end.

Definition data_field (k : string) (event : FederationSyncEvent) : jsval := default JUndefined (m_get k (ev_data event)).

Definition getConflictResourceKey (event : FederationSyncEvent) : option string :=
  match nullish (data_field "resourceKey" event) (data_field "resource" event) with
  | JStr s => let trimmed := trim (str s) in if decide (trimmed = []) then None else Some (String.string_of_list_ascii trimmed)
  | _ => None
  end.

Definition clock_of (event : FederationSyncEvent) : VectorClock := default [] (ev_vectorClock event).

Definition detectEventConflict (local remote : FederationSyncEvent) : bool :=
  match getConflictResourceKey local with
  | None => false
  | Some l =>
      if decide (Some l = getConflictResourceKey remote) then
        bool_decide (compareVectorClock (clock_of local) (clock_of remote) = CO_concurrent)
      else false
  end.

Record ConflictReport : Type := mkReport {
  cr_resourceKey : string;
  cr_local : FederationSyncEvent;
  cr_remote : FederationSyncEvent;
  cr_strategy : ConflictResolutionStrategy
}.

Inductive ConflictResolutionResult : Type :=
  | Cr_resolved (strategy : ConflictResolutionStrategy) (event : FederationSyncEvent)
  | Cr_manual (report : ConflictReport).

Definition pickLastWriter (local remote : FederationSyncEvent) : FederationSyncEvent :=
  if ev_emittedAt remote <? ev_emittedAt local then local
  else if ev_emittedAt local <? ev_emittedAt remote then remote
  else if String.leb (ev_originZoneId remote) (ev_originZoneId local) then local else remote.

(** [{ ...a, ...b }] *)
Definition spread (a b : list (string * jsval)) : list (string * jsval) := foldl (fun acc f => m_set f.1 f.2 acc) a b.

Definition resourceKey_of (local remote : FederationSyncEvent) : string :=
  default (default "" (getConflictResourceKey remote)) (getConflictResourceKey local).

Definition resolveEventConflict (local remote : FederationSyncEvent) (strategy : ConflictResolutionStrategy) :
    ConflictResolutionResult :=
  match strategy with
  | Cs_manual => Cr_manual (mkReport (resourceKey_of local remote) local remote strategy)
  | Cs_merge =>
      let winner := pickLastWriter local remote in
      Cr_resolved strategy
        (mkEvent (ev_kind winner) (ev_originZoneId winner) (Z.max (ev_sequence local) (ev_sequence remote))
           (Some (mergeVectorClock (clock_of local) (clock_of remote))) (spread (ev_data local) (ev_data remote))
           (Z.max (ev_emittedAt local) (ev_emittedAt remote)))
  | Cs_lww => Cr_resolved strategy (pickLastWriter local remote)
  end.

(** ** Cursors: [sync-protocol.ts] *)

Record SyncCursor : Type := mkCursor {
  sy_zoneId : string;
  sy_vectorClock : option VectorClock;
  sy_lastSequence : Z;
  sy_lastSyncAt : Z
}.

Definition fault (cursor : SyncCursor) (expected saw : Z) : KoiError :=
  mkKoiError EXTERNAL ("Sync batch fault for zone " +:+ sy_zoneId cursor) true
    (Some [("zoneId", JStr (sy_zoneId cursor)); ("expectedSequence", JNum expected); ("sawSequence", JNum saw)]) None.

Fixpoint advance_loop (cursor : SyncCursor) (events : list FederationSyncEvent) (expected advanced : Z)
    (vectorClock : VectorClock) : Result (Z * VectorClock) KoiError :=
  match events with
  | [] => Ok (advanced, vectorClock)
  | event :: events =>
      if ev_sequence event <=? sy_lastSequence cursor then advance_loop cursor events expected advanced vectorClock
      else if negb (ev_sequence event =? expected) then Err (fault cursor expected (ev_sequence event))
      else
        advance_loop cursor events (expected + 1) (ev_sequence event) (mergeVectorClock vectorClock (clock_of event))
  end.

Definition advanceCursor (cursor : SyncCursor) (events : list FederationSyncEvent) (now : Z) : Result SyncCursor KoiError :=
  let clock := default [] (sy_vectorClock cursor) in
  if decide (length events = 0%nat) then Ok (mkCursor (sy_zoneId cursor) (Some clock) (sy_lastSequence cursor) now)
  else
    match advance_loop cursor events (sy_lastSequence cursor + 1) (sy_lastSequence cursor) clock with
    | Ok (advanced, vectorClock) => Ok (mkCursor (sy_zoneId cursor) (Some vectorClock) advanced now)
    | Err e => Err e
    end.

Definition deduplicateEvents (events : list FederationSyncEvent) (cursor : SyncCursor) : list FederationSyncEvent :=
  filter (fun e => (sy_lastSequence cursor <? ev_sequence e) = true) events.

(** [isFederationSyncEvent], on a value from outside. *)
Definition get_field (k : string) (fs : list (string * jsval)) : jsval := default JUndefined (m_get k fs).

Definition non_empty_string (v : jsval) : option string :=
  match v with JStr s => if decide (s = "") then None else Some s | _ => None end.

Definition non_negative (v : jsval) : option Z :=
  match v with JNum n => if 0 <=? n then Some n else None | _ => None end.

Fixpoint read_clock (fs : list (string * jsval)) : option VectorClock :=
  match fs with
  | [] => Some []
  | (k, v) :: fs =>
      match non_negative v, read_clock fs with
      | Some n, Some clock => Some ((k, n) :: clock)
      | _, _ => None
      end
  end.

(** The event a value is, when the guard accepts it. *)
Definition isFederationSyncEvent (value : jsval) : option FederationSyncEvent :=
  match value with
  | JObj c =>
      match non_empty_string (get_field "kind" c), non_empty_string (get_field "originZoneId" c),
            non_negative (get_field "sequence" c), get_field "emittedAt" c with
      | Some kind, Some origin, Some sequence, JNum emittedAt =>
          match (match get_field "vectorClock" c with
                 | JUndefined => Some None
                 | JObj fs => Some <$> read_clock fs
                 | _ => None
                 end), get_field "data" c with
          | Some clock, JObj data => Some (mkEvent kind origin sequence clock data emittedAt)
          | _, _ => None
          end
      | _, _, _, _ => None
      end
  | _ => None
  end.

(** ** The causal order *)

Definition clock_le (a b : VectorClock) : Prop := forall zone, component a zone <= component b zone.

#[export] Instance clock_le_preorder : PreOrder clock_le.
Proof. split; [by intros a z|]. intros a b c H1 H2 z. exact (Z.le_trans _ _ _ (H1 z) (H2 z)). Qed.

(** Clocks with the same components. *)
Definition clock_eq (a b : VectorClock) : Prop := forall zone, component a zone = component b zone.

#[export] Instance clock_eq_equivalence : Equivalence clock_eq.
Proof.
  split.
  - by intros a z.
  - intros a b H z. by rewrite (H z).
  - intros a b c H1 H2 z. by rewrite (H1 z).
Qed.

#[export] Instance clock_le_proper : Proper (clock_eq ==> clock_eq ==> iff) clock_le.
Proof.
  intros a a' Ha b b' Hb. split; intros H z; specialize (H z).
  - by rewrite <-(Ha z), <-(Hb z).
  - by rewrite (Ha z), (Hb z).
Qed.

Lemma component_merge a b zone : component (mergeVectorClock a b) zone = Z.max (component a zone) (component b zone).
Proof.
  unfold mergeVectorClock.
  assert (Hget : forall (f : string -> Z) keys, m_get zone ((fun k => (k, f k)) <$> keys) =
    if decide (zone ∈ keys) then Some (f zone) else None).
  { intros f keys. induction keys as [|k keys IH]; [done|].
    rewrite fmap_cons. simpl. destruct (decide (zone = k)) as [->|Hk].
    - by rewrite decide_True by set_solver.
    - rewrite IH. destruct (decide (zone ∈ keys)), (decide (zone ∈ k :: keys)); try done; exfalso; set_solver. }
  unfold component at 1. rewrite (Hget (fun k => Z.max (component a k) (component b k))).
  case_decide as Hin; [done|]. simpl.
  assert (Hn : m_get zone a = None /\ m_get zone b = None).
  { rewrite <-!not_elem_of_m_keys. unfold all_keys in Hin. rewrite elem_of_s_addAll in Hin. set_solver. }
  unfold component. by rewrite (proj1 Hn), (proj2 Hn).
Qed.

#[export] Instance merge_proper : Proper (clock_eq ==> clock_eq ==> clock_eq) mergeVectorClock.
Proof. intros a a' Ha b b' Hb z. by rewrite !component_merge, (Ha z), (Hb z). Qed.

Lemma component_increment clock zone z :
  component (incrementVectorClock clock zone) z = component clock z + (if decide (zone = z) then 1 else 0).
Proof. unfold incrementVectorClock, component at 1. rewrite m_get_set. case_decide; subst; simpl; unfold component; lia. Qed.

(** What the loop of the comparison has seen so far. *)
Lemma compare_loop_spec a b keys lb rb :
  (lb && rb = false) ->
  let lt := lb || existsb (fun k => component a k <? component b k) keys in
  let gt := rb || existsb (fun k => component b k <? component a k) keys in
  compare_loop a b keys lb rb =
    if lt && gt then CO_concurrent else if lt then CO_before else if gt then CO_after else CO_equal.
Proof.
  revert lb rb. induction keys as [|k keys IH]; intros lb rb Hb; simpl.
  - by destruct lb, rb.
  - destruct (Z.ltb_spec (component a k) (component b k)) as [H1|H1];
      destruct (Z.ltb_spec (component b k) (component a k)) as [H2|H2]; try lia;
      destruct lb, rb; simpl in *; try done; try (rewrite IH by done; simpl); try done;
      by repeat destruct (existsb _ keys).
Qed.

Lemma existsb_keys a b :
  existsb (fun k => component a k <? component b k) (all_keys a b) = true <-> exists zone, component a zone < component b zone.
Proof.
  rewrite existsb_exists. split.
  - intros (k & _ & Hk). exists k. lia.
  - intros (k & Hk). exists k. split; [|lia]. apply list_elem_of_In. unfold all_keys. rewrite elem_of_s_addAll, elem_of_app.
    left. destruct (decide (k ∈ m_keys a)) as [|Ha]; [by left|].
    destruct (decide (k ∈ m_keys b)) as [|Hb]; [by right|]. exfalso.
    apply not_elem_of_m_keys in Ha, Hb. unfold component in Hk. rewrite Ha, Hb in Hk. simpl in Hk. lia.
Qed.

(** ** Theorems *)

Lemma gt_exists a b :
  existsb (fun k => component b k <? component a k) (all_keys a b) = true <-> exists zone, component b zone < component a zone.
Proof.
  rewrite <-existsb_keys, !existsb_exists.
  assert (Hk : forall k, In k (all_keys a b) <-> In k (all_keys b a)).
  { intros k. rewrite <-!list_elem_of_In. unfold all_keys. rewrite !elem_of_s_addAll, !elem_of_app. tauto. }
  split; intros (k & H1 & H2); exists k; (split; [by apply Hk|done]).
Qed.

Lemma not_some_lt a b : ~ (exists zone, component b zone < component a zone) <-> clock_le a b.
Proof.
  split.
  - intros H z. destruct (Z.le_gt_cases (component a z) (component b z)); [done|]. destruct H. by exists z.
  - intros H [z Hz]. specialize (H z). lia.
Qed.

Lemma compare_cases a b :
  compareVectorClock a b =
    if existsb (fun k => component a k <? component b k) (all_keys a b) then
      if existsb (fun k => component b k <? component a k) (all_keys a b) then CO_concurrent else CO_before
    else if existsb (fun k => component b k <? component a k) (all_keys a b) then CO_after else CO_equal.
Proof.
  unfold compareVectorClock. rewrite compare_loop_spec by done. simpl. by repeat destruct (existsb _ _).
Qed.

(** [compareVectorClock] decides the causal order. *)
Lemma compare_spec a b :
  match compareVectorClock a b with
  | CO_before => clock_le a b /\ ~ clock_le b a
  | CO_after => clock_le b a /\ ~ clock_le a b
  | CO_equal => clock_eq a b
  | CO_concurrent => ~ clock_le a b /\ ~ clock_le b a
  end.
Proof.
  rewrite compare_cases. pose proof (existsb_keys a b) as H1. pose proof (gt_exists a b) as H2.
  destruct (existsb (fun k => component a k <? component b k) _), (existsb (fun k => component b k <? component a k) _).
  4: { intros z. apply Z.le_antisymm.
       - apply not_some_lt; intros Hx. by apply H2 in Hx.
       - apply not_some_lt; intros Hx. by apply H1 in Hx. }
  all: rewrite <-!not_some_lt; split; intros Hn.
  all: solve [by apply H1 in Hn|by apply H2 in Hn|by apply Hn, H1|by apply Hn, H2].
Qed.

(** [mergeVectorClock] is the least upper bound. *)
Lemma merge_le a b c : clock_le (mergeVectorClock a b) c <-> clock_le a c /\ clock_le b c.
Proof.
  split.
  - intros H. split; intros z; specialize (H z); rewrite component_merge in H; lia.
  - intros [H1 H2] z. specialize (H1 z). specialize (H2 z). rewrite component_merge. lia.
Qed.

Lemma merge_upper a b : clock_le a (mergeVectorClock a b) /\ clock_le b (mergeVectorClock a b).
Proof. apply merge_le. reflexivity. Qed.

Lemma increment_above clock zone : clock_le clock (incrementVectorClock clock zone).
Proof. intros z. rewrite component_increment. case_decide; lia. Qed.

Lemma before_intro a b zone : clock_le a b -> component a zone < component b zone -> compareVectorClock a b = CO_before.
Proof.
  intros Hle Hlt. pose proof (compare_spec a b) as H. destruct (compareVectorClock a b); [done|..].
  - destruct H as [H _]. specialize (H zone). lia.
  - by destruct H as [H _].
  - specialize (H zone). lia.
Qed.

(** Vector clocks track causality.  The comparison answers [equal] exactly
    for clocks with the same components, [before] and [after] exactly for the
    strict component-wise order and [concurrent] for incomparable clocks; a zone
    that merges the clocks it has received and then counts its own event gets a
    clock strictly after each of them; and the merge is no later than any clock
    above both. *)
Lemma causality (a b c : VectorClock) (zone : string) :
  (compareVectorClock a b = CO_equal <-> clock_eq a b) /\
  (compareVectorClock a b = CO_before <-> clock_le a b /\ ~ clock_le b a) /\
  (compareVectorClock a b = CO_after <-> clock_le b a /\ ~ clock_le a b) /\
  (compareVectorClock a b = CO_concurrent <-> ~ clock_le a b /\ ~ clock_le b a) /\
  (let next := incrementVectorClock (mergeVectorClock a b) zone in
   compareVectorClock a next = CO_before /\ compareVectorClock b next = CO_before) /\
  (clock_le (mergeVectorClock a b) c <-> clock_le a c /\ clock_le b c).
Proof.
  pose proof (compare_spec a b) as H.
  assert (Heq : clock_eq a b -> clock_le a b /\ clock_le b a).
  { intros He. split; intros z; rewrite (He z); lia. }
  assert (Hnext : forall x, clock_le x (mergeVectorClock a b) ->
    compareVectorClock x (incrementVectorClock (mergeVectorClock a b) zone) = CO_before).
  { intros x Hx. apply (before_intro _ _ zone).
    - etrans; [exact Hx|apply increment_above].
    - rewrite component_increment, decide_True by done. specialize (Hx zone). lia. }
  destruct (merge_upper a b) as [Ha Hb].
  cbv zeta. repeat match goal with |- _ /\ _ => split end; try apply merge_le; try by apply Hnext.
  all: destruct (compareVectorClock a b); split; intros Hx; try done; try tauto.
Qed.

Lemma leb_antisym s t : String.leb s t = true -> String.leb t s = true -> s = t.
Proof. apply String.leb_antisym. Qed.

(** Last-writer-wins is independent of which side resolves: two zones that
    hold a pair of events from different origins pick the same one, whichever
    they call local, and never an older one. *)
Lemma lww_converges (a b : FederationSyncEvent) :
  ev_originZoneId a ≠ ev_originZoneId b ->
  resolveEventConflict a b Cs_lww = resolveEventConflict b a Cs_lww /\
  exists e, resolveEventConflict a b Cs_lww = Cr_resolved Cs_lww e /\ e ∈ [a; b] /\
    ev_emittedAt a <= ev_emittedAt e /\ ev_emittedAt b <= ev_emittedAt e.
Proof.
  intros Hne. simpl. split.
  - f_equal. unfold pickLastWriter.
    destruct (Z.ltb_spec (ev_emittedAt b) (ev_emittedAt a)), (Z.ltb_spec (ev_emittedAt a) (ev_emittedAt b)); try done; try lia.
    destruct (String.leb (ev_originZoneId b) (ev_originZoneId a)) eqn:H1, (String.leb (ev_originZoneId a) (ev_originZoneId b)) eqn:H2;
      try done.
    + destruct Hne. by apply leb_antisym.
    + destruct (String.leb_total (ev_originZoneId a) (ev_originZoneId b)); congruence.
  - exists (pickLastWriter a b). split; [done|]. unfold pickLastWriter.
    repeat case_match; split; try set_solver; lia.
Qed.

(** ** Contiguous runs of events *)

(** The sequences are [start + 1], [start + 2], and so on. *)
Fixpoint contiguous (start : Z) (events : list FederationSyncEvent) : Prop :=
  match events with
  | [] => True
  | e :: events => ev_sequence e = start + 1 /\ contiguous (start + 1) events
  end.

#[export] Instance contiguous_dec start events : Decision (contiguous start events).
Proof.
  revert start. induction events as [|e events IH]; intros start; simpl; [left; done|].
  destruct (decide (ev_sequence e = start + 1)) as [H|H]; [|right; by intros [? _]].
  destruct (IH (start + 1)) as [H'|H']; [left; done|right; by intros [_ ?]].
Defined.

Lemma contiguous_app start l1 l2 :
  contiguous start (l1 ++ l2) <-> contiguous start l1 /\ contiguous (start + Z.of_nat (length l1)) l2.
Proof.
  revert start. induction l1 as [|e l1 IH]; intros start; cbn [contiguous app length].
  - rewrite Z.add_0_r. tauto.
  - rewrite IH. replace (start + 1 + Z.of_nat (length l1)) with (start + Z.of_nat (S (length l1))) by lia. tauto.
Qed.

Lemma contiguous_lookup start l i e : contiguous start l -> l !! i = Some e -> ev_sequence e = start + Z.of_nat i + 1.
Proof.
  revert start i. induction l as [|e' l IH]; intros start [|i] Hc He; try done.
  - destruct Hc as [Hc _]. injection He as ->. lia.
  - destruct Hc as [_ Hc]. rewrite (IH _ _ Hc He). lia.
Qed.

Lemma contiguous_NoDup start l : contiguous start l -> NoDup l.
Proof.
  intros Hc. apply NoDup_alt. intros i j e Hi Hj.
  pose proof (contiguous_lookup _ _ _ _ Hc Hi). pose proof (contiguous_lookup _ _ _ _ Hc Hj). lia.
Qed.

Definition clocks_of (clock : VectorClock) (events : list FederationSyncEvent) : VectorClock :=
  foldl (fun acc e => mergeVectorClock acc (clock_of e)) clock events.

Lemma advance_loop_dedup cursor events expected advanced clock :
  advance_loop cursor events expected advanced clock =
  advance_loop cursor (deduplicateEvents events cursor) expected advanced clock.
Proof.
  revert expected advanced clock. induction events as [|e events IH]; intros expected advanced clock; [done|].
  unfold deduplicateEvents in *. rewrite filter_cons. cbn [advance_loop].
  destruct (Z.leb_spec (ev_sequence e) (sy_lastSequence cursor)) as [Hle|Hlt].
  - rewrite decide_False by lia. apply IH.
  - rewrite decide_True by lia. cbn [advance_loop]. destruct (Z.leb_spec (ev_sequence e) (sy_lastSequence cursor)); [lia|].
    destruct (negb _); [done|apply IH].
Qed.

Lemma advance_loop_exact cursor events start clock :
  sy_lastSequence cursor <= start -> Forall (fun e => sy_lastSequence cursor < ev_sequence e) events ->
  match advance_loop cursor events (start + 1) start clock with
  | Ok (advanced, clock') =>
      contiguous start events /\ advanced = start + Z.of_nat (length events) /\ clock' = clocks_of clock events
  | Err e => ~ contiguous start events /\ err_code e = EXTERNAL /\ err_retryable e = true
  end.
Proof.
  revert start clock. induction events as [|e events IH]; intros start clock Hle Hall.
  - simpl. split_and!; [done|lia|done].
  - apply Forall_cons in Hall as [He Hall]. cbn [advance_loop contiguous length].
    destruct (Z.leb_spec (ev_sequence e) (sy_lastSequence cursor)); [lia|].
    destruct (Z.eqb_spec (ev_sequence e) (start + 1)) as [Heq|Hne]; simpl.
    + rewrite Heq. specialize (IH (start + 1) (mergeVectorClock clock (clock_of e)) ltac:(lia) Hall).
      destruct (advance_loop _ _ _ _ _) as [[advanced clock']|err].
      * destruct IH as (H1 & H2 & H3). split_and!; [done..|lia|done].
      * destruct IH as (H1 & H2 & H3). split_and!; [|done..]. by intros [_ ?].
    + split_and!; try done. by intros [? _].
Qed.

Lemma dedup_above events cursor : Forall (fun e => sy_lastSequence cursor < ev_sequence e) (deduplicateEvents events cursor).
Proof. apply Forall_forall. intros e He. apply list_elem_of_filter in He as [He _]. lia. Qed.

Lemma advanceCursor_spec cursor events now :
  let fresh := deduplicateEvents events cursor in
  match advanceCursor cursor events now with
  | Ok c => contiguous (sy_lastSequence cursor) fresh /\
      c = mkCursor (sy_zoneId cursor) (Some (clocks_of (default [] (sy_vectorClock cursor)) fresh))
            (sy_lastSequence cursor + Z.of_nat (length fresh)) now
  | Err e => ~ contiguous (sy_lastSequence cursor) fresh /\ err_code e = EXTERNAL /\ err_retryable e = true
  end.
Proof.
  intros fresh. unfold advanceCursor. case_decide as H0.
  - apply nil_length_inv in H0. subst events. split; [done|]. simpl. by rewrite Z.add_0_r.
  - rewrite advance_loop_dedup. fold fresh.
    pose proof (advance_loop_exact cursor fresh (sy_lastSequence cursor) (default [] (sy_vectorClock cursor))
      (Z.le_refl _) (dedup_above events cursor)) as H.
    destruct (advance_loop _ _ _ _ _) as [[advanced clock]|e]; [|done]. by destruct H as (H & -> & ->).
Qed.

(** A cursor advances exactly over a contiguous batch.  [advanceCursor]
    drops the events at or below the cursor; it succeeds if and only if the rest,
    in the order received, are numbered [lastSequence + 1], [lastSequence + 2] and
    so on, and then moves past the last of them, merging their clocks into its
    own in that order; otherwise it is a retryable [EXTERNAL] fault. *)
Lemma cursor_advances_exactly (cursor : SyncCursor) (events : list FederationSyncEvent) (now : Z) :
  let fresh := deduplicateEvents events cursor in
  (forall c, advanceCursor cursor events now = Ok c <->
     contiguous (sy_lastSequence cursor) fresh /\
     c = mkCursor (sy_zoneId cursor) (Some (clocks_of (default [] (sy_vectorClock cursor)) fresh))
           (sy_lastSequence cursor + Z.of_nat (length fresh)) now) /\
  (forall e, advanceCursor cursor events now = Err e ->
     ~ contiguous (sy_lastSequence cursor) fresh /\ err_code e = EXTERNAL /\ err_retryable e = true) /\
  (forall e, e ∈ fresh <-> e ∈ events /\ sy_lastSequence cursor < ev_sequence e).
Proof.
  intros fresh. pose proof (advanceCursor_spec cursor events now) as H. cbv zeta in H. fold fresh in H. split_and!.
  - intros c. destruct (advanceCursor cursor events now) as [c'|e]; [destruct H as [H ->]|destruct H as [H _]].
    + split; [by intros [= <-]|by intros [_ ->]].
    + split; [done|]. by intros [? _].
  - intros e He. by rewrite He in H.
  - intros e. unfold fresh, deduplicateEvents. rewrite list_elem_of_filter, Z.ltb_lt. tauto.
Qed.
