(* ===== verification/SyncEngine.v ===== *)
(** * The federation sync engine

    [lib/federation/src/sync-engine.ts]: one cursor, log and health per remote
    zone, fed by fetches that settle, time out or never settle.  The state is the
    closure's variables; a run of [syncZone] between its start and the end of the
    race is an entry of [en_waiting], and [en_fetches] are the promises of
    [fetchDelta] that have not settled.  Handlers are called in the middle of a
    step and may call the engine back: what each does with an event, and whether
    it throws, is an argument of the step.  The clock is read once per step, and
    the entry of [inflight] is removed in the step in which [syncZone] returns.
    The remote clients, the poll timer and the answer of the hub are not modelled:
    a tick of the timer is the step [sync].  Numbers of the configuration are
    whole: a fractional [eventLogMaxPerZone], which the code accepts, is not
    representable. *)

From S2P Require Import Prelude JsMap Text Canonical VectorClock.

Local Open Scope string_scope.
Local Open Scope list_scope.
Local Open Scope Z_scope.

(** ** Configuration *)

(** A JavaScript number without a fraction. *)
Inductive number : Type := Finite (n : Z) | Infinite | Not_a_number.

Definition positive_finite (x : number) : bool := match x with Finite n => 0 <? n | _ => false end.

Inductive ZoneStatus : Type := Zs_active | Zs_draining | Zs_offline.

#[export] Instance ZoneStatus_eq_dec : EqDecision ZoneStatus.
Proof. solve_decision. Defined.

Record SyncEngineConfig : Type := mkSyncConfig {
  sc_localZoneId : string;
  sc_remoteClients : list string;
  sc_pollIntervalMs : number;
  sc_offlineAfterFailures : number;
  sc_strictV1 : option bool;
  sc_fetchTimeoutMs : option number;
  sc_outstandingFetchMaxAgeMs : option number;
  sc_eventLogMaxPerZone : option number;
  sc_conflictResolution : option ConflictResolutionStrategy;
  sc_hubTransport : bool;
  sc_initialCursors : list (string * SyncCursor)
}.

(** The constants of the closure, after the defaults. *)
Record Tunables : Type := mkTunables {
  tn_localZoneId : string;
  tn_remotes : list string;
  tn_offlineAfter : Z;
  tn_strictV1 : bool;
  tn_maxAge : Z;
  tn_logMax : option Z;  (* [None] is Infinity *)
  tn_resolution : ConflictResolutionStrategy;
  tn_hub : bool
}.

Inductive ConfigError : Type :=
  | Ce_pollIntervalMs
  | Ce_fetchTimeoutMs
  | Ce_outstandingFetchMaxAgeMs
  | Ce_maxAge_below_timeout
  | Ce_eventLogMaxPerZone
  | Ce_offlineAfterFailures
  | Ce_cursor_unknown_zone (zone : string)
  | Ce_cursor_zoneId (zone : string)
  | Ce_cursor_lastSequence (zone : string)
  | Ce_cursor_lastSyncAt (zone : string)
  | Ce_cursor_vectorClock (zone : string).

Definition scale5 (x : number) : number := match x with Finite n => Finite (n * 5) | x => x end.

Definition checkTunables (config : SyncEngineConfig) : Result Tunables ConfigError :=
  let fetchTimeoutMs := default (Finite 30000) (sc_fetchTimeoutMs config) in
  let maxAge := default (scale5 fetchTimeoutMs) (sc_outstandingFetchMaxAgeMs config) in
  if negb (positive_finite (sc_pollIntervalMs config)) then Err Ce_pollIntervalMs
  else match fetchTimeoutMs with
  | Finite timeout =>
      if timeout <=? 0 then Err Ce_fetchTimeoutMs
      else match maxAge with
      | Finite age =>
          if age <=? 0 then Err Ce_outstandingFetchMaxAgeMs
          else if age <? timeout then Err Ce_maxAge_below_timeout
          else
            let? logMax :=
              match default (Finite 10000) (sc_eventLogMaxPerZone config) with
              | Infinite => Ok None
              | Finite n => if n <=? 0 then Err Ce_eventLogMaxPerZone else Ok (Some n)
              | Not_a_number => Err Ce_eventLogMaxPerZone
              end%koi in
            match sc_offlineAfterFailures config with
            | Finite n =>
                if n <=? 0 then Err Ce_offlineAfterFailures
                else Ok (mkTunables (sc_localZoneId config) (sc_remoteClients config) n
                           (default true (sc_strictV1 config)) age logMax
                           (default Cs_lww (sc_conflictResolution config)) (sc_hubTransport config))
            | _ => Err Ce_offlineAfterFailures
            end
      | _ => Err Ce_outstandingFetchMaxAgeMs
      end%koi
  | _ => Err Ce_fetchTimeoutMs
  end.

Definition isValidVectorClock (clock : VectorClock) : bool := forallb (fun c => 0 <=? c.2) clock.

Definition checkCursor (remotes : list string) (e : string * SyncCursor) : option ConfigError :=
  let '(remoteId, seed) := e in
  if negb (bool_decide (remoteId ∈ remotes)) then Some (Ce_cursor_unknown_zone remoteId)
  else if negb (bool_decide (sy_zoneId seed = remoteId)) then Some (Ce_cursor_zoneId remoteId)
  else if sy_lastSequence seed <? 0 then Some (Ce_cursor_lastSequence remoteId)
  else if sy_lastSyncAt seed <? 0 then Some (Ce_cursor_lastSyncAt remoteId)
  else if negb (isValidVectorClock (default [] (sy_vectorClock seed))) then Some (Ce_cursor_vectorClock remoteId)
  else None.

Fixpoint first_error (remotes : list string) (cursors : list (string * SyncCursor)) : option ConfigError :=
  match cursors with
  | [] => None
  | e :: cursors => match checkCursor remotes e with Some err => Some err | None => first_error remotes cursors end
  end.

(** ** Batches *)

Definition by_key {A : Type} (a b : string * A) : Prop := String.leb a.1 b.1 = true.

#[export] Instance by_key_dec {A : Type} (a b : string * A) : Decision (by_key a b).
Proof. unfold by_key. apply _. Defined.

(** [stableStringify]: [None] is [undefined]. *)
Fixpoint stableStringify (v : jsval) : option text :=
  match v with
  | JUndefined => None
  | JArr l => Some ("["%char :: commas (List.map (fun v => default [] (stableStringify v)) l) ++ ["]"%char])
  | JObj fs =>
      Some ("{"%char ::
        commas (List.map (fun f => quote (str f.1) ++ ":"%char :: default (str "undefined") f.2)
                  (merge_sort by_key (List.map (fun f => (f.1, stableStringify f.2)) fs)))
        ++ ["}"%char])
  | _ => Some (stringify v)
  end.

Definition clock_value (clock : VectorClock) : jsval := JObj ((fun c => (c.1, JNum c.2)) <$> clock).

Definition sameEvent (a b : FederationSyncEvent) : bool :=
  bool_decide (ev_kind a = ev_kind b) && bool_decide (ev_originZoneId a = ev_originZoneId b) &&
  (ev_sequence a =? ev_sequence b) && (ev_emittedAt a =? ev_emittedAt b) &&
  bool_decide (stableStringify (clock_value (clock_of a)) = stableStringify (clock_value (clock_of b))) &&
  bool_decide (stableStringify (JObj (ev_data a)) = stableStringify (JObj (ev_data b))).

Fixpoint validate_loop (events : list FederationSyncEvent) (seenAtSeq : list (Z * FederationSyncEvent))
    (dedupedInOrder : list FederationSyncEvent) (lastSeqSeen : Z) : bool * list FederationSyncEvent :=
  match events with
  | [] => (true, dedupedInOrder)
  | event :: events =>
      match m_get (ev_sequence event) seenAtSeq with
      | Some prior =>
          if sameEvent prior event then validate_loop events seenAtSeq dedupedInOrder lastSeqSeen
          else (false, dedupedInOrder)
      | None =>
          if (ev_sequence event <=? lastSeqSeen) || negb (ev_sequence event =? lastSeqSeen + 1) then (false, dedupedInOrder)
          else
            validate_loop events (m_set (ev_sequence event) event seenAtSeq) (dedupedInOrder ++ [event]) (ev_sequence event)
      end
  end.

(** [{ ok, prefix }] *)
Definition validateV1Batch (events : list FederationSyncEvent) (cursorLastSequence : Z) : bool * list FederationSyncEvent :=
  validate_loop events [] [] cursorLastSequence.

(** ** State *)

Record ReportedConflict : Type := mkConflict {
  rc_resourceKey : string;
  rc_local : FederationSyncEvent;
  rc_remote : FederationSyncEvent;
  rc_strategy : ConflictResolutionStrategy;
  rc_resolution : ConflictResolutionResult
}.

(** How the promise of [fetchDelta] settles. *)
Inductive FetchOutcome : Type :=
  | Fo_rejected
  | Fo_error (error : KoiError)
  | Fo_ok (value : jsval).

Section Engine.
Context {H C : Type} {HEq : EqDecision H} {CEq : EqDecision C}.

Inductive SyncEffect : Type :=
  | Fx_fetchDelta (zone : string) (cursor : SyncCursor)
  | Fx_deliver (handler : H) (event : FederationSyncEvent) (accepted : bool)
  | Fx_reportConflict (handler : C) (report : ReportedConflict)
  | Fx_reset (zone : string)
  | Fx_zoneDisconnect.

Record Engine : Type := mkEngine {
  en_cursors : list (string * SyncCursor);
  en_eventLogs : list (string * list FederationSyncEvent);
  en_conflictReports : list ReportedConflict;
  en_truncatedCounts : list (string * Z);
  en_failures : list (string * Z);
  en_statuses : list (string * ZoneStatus);
  en_outstandingFetches : list (string * (Z * nat));  (* startedAt, token *)
  en_handlers : list H;
  en_conflictHandlers : list C;
  en_disposed : bool;
  en_inflight : list string;
  en_waiting : list (string * (SyncCursor * nat));
  en_fetches : list (nat * string);
  en_nextToken : nat;
  en_trace : list SyncEffect
}.

Definition with_cursor (r : string) (c : SyncCursor) (s : Engine) : Engine :=
  let '(mkEngine cu l cr t f st o h ch d i w fe n tr) := s in mkEngine (m_set r c cu) l cr t f st o h ch d i w fe n tr.
Definition with_log (r : string) (log : list FederationSyncEvent) (s : Engine) : Engine :=
  let '(mkEngine cu l cr t f st o h ch d i w fe n tr) := s in mkEngine cu (m_set r log l) cr t f st o h ch d i w fe n tr.
Definition with_reports (reports : list ReportedConflict) (s : Engine) : Engine :=
  let '(mkEngine cu l cr t f st o h ch d i w fe n tr) := s in mkEngine cu l reports t f st o h ch d i w fe n tr.
Definition with_truncated (r : string) (k : Z) (s : Engine) : Engine :=
  let '(mkEngine cu l cr t f st o h ch d i w fe n tr) := s in mkEngine cu l cr (m_set r k t) f st o h ch d i w fe n tr.
Definition with_failures (r : string) (k : Z) (s : Engine) : Engine :=
  let '(mkEngine cu l cr t f st o h ch d i w fe n tr) := s in mkEngine cu l cr t (m_set r k f) st o h ch d i w fe n tr.
Definition with_status (r : string) (z : ZoneStatus) (s : Engine) : Engine :=
  let '(mkEngine cu l cr t f st o h ch d i w fe n tr) := s in mkEngine cu l cr t f (m_set r z st) o h ch d i w fe n tr.
Definition with_outstanding (o : list (string * (Z * nat))) (s : Engine) : Engine :=
  let '(mkEngine cu l cr t f st _ h ch d i w fe n tr) := s in mkEngine cu l cr t f st o h ch d i w fe n tr.
Definition with_handlers (h : list H) (s : Engine) : Engine :=
  let '(mkEngine cu l cr t f st o _ ch d i w fe n tr) := s in mkEngine cu l cr t f st o h ch d i w fe n tr.
Definition with_conflictHandlers (ch : list C) (s : Engine) : Engine :=
  let '(mkEngine cu l cr t f st o h _ d i w fe n tr) := s in mkEngine cu l cr t f st o h ch d i w fe n tr.
Definition with_inflight (i : list string) (s : Engine) : Engine :=
  let '(mkEngine cu l cr t f st o h ch d _ w fe n tr) := s in mkEngine cu l cr t f st o h ch d i w fe n tr.
Definition with_waiting (w : list (string * (SyncCursor * nat))) (s : Engine) : Engine :=
  let '(mkEngine cu l cr t f st o h ch d i _ fe n tr) := s in mkEngine cu l cr t f st o h ch d i w fe n tr.
Definition with_fetches (fe : list (nat * string)) (s : Engine) : Engine :=
  let '(mkEngine cu l cr t f st o h ch d i w _ n tr) := s in mkEngine cu l cr t f st o h ch d i w fe n tr.
Definition emit (e : SyncEffect) (s : Engine) : Engine :=
  let '(mkEngine cu l cr t f st o h ch d i w fe n tr) := s in mkEngine cu l cr t f st o h ch d i w fe n (tr ++ [e]).
(** A fresh [Symbol("fetch")]. *)
Definition take_token (s : Engine) : nat * Engine :=
  let '(mkEngine cu l cr t f st o h ch d i w fe n tr) := s in (n, mkEngine cu l cr t f st o h ch d i w fe (S n) tr).

Definition getFailures (r : string) (s : Engine) : Z := default 0 (m_get r (en_failures s)).
Definition getLog (r : string) (s : Engine) : list FederationSyncEvent := default [] (m_get r (en_eventLogs s)).
Definition getTruncatedCount (r : string) (s : Engine) : Z := default 0 (m_get r (en_truncatedCounts s)).

Context (tn : Tunables).

Definition initial_cursor (seeds : list (string * SyncCursor)) (r : string) : SyncCursor :=
  default (mkCursor r None 0 0) (m_get r seeds).

Definition initial_engine (seeds : list (string * SyncCursor)) (remotes : list string) : Engine :=
  mkEngine ((fun r => (r, initial_cursor seeds r)) <$> remotes) ((fun r => (r, [])) <$> remotes) []
    ((fun r => (r, 0)) <$> remotes) ((fun r => (r, 0)) <$> remotes) ((fun r => (r, Zs_active)) <$> remotes)
    [] [] [] false [] [] [] 0%nat [].

(** ** Operations *)

Definition bumpFailure (r : string) (s : Engine) : Engine :=
  let next := getFailures r s + 1 in
  let s := with_failures r next s in
  if tn_offlineAfter tn <=? next then with_status r Zs_offline s else s.

Definition reset_health (r : string) (s : Engine) : Engine := with_status r Zs_active (with_failures r 0 s).

(** [syncZone] up to its [await]. *)
Definition syncZone (now : Z) (r : string) (s : Engine) : Engine :=
  if en_disposed s then s
  else
    match m_get r (en_cursors s) with
    | None => s
    | Some cursor =>
        match m_get r (en_outstandingFetches s) with
        | Some (startedAt, _) =>
            if now - startedAt <? tn_maxAge tn then s
            else with_failures r (tn_offlineAfter tn) (with_status r Zs_offline s)
        | None =>
            let (token, s) := take_token s in
            let s := with_outstanding (m_set r (now, token) (en_outstandingFetches s)) s in
            let s := with_fetches (m_set token r (en_fetches s)) s in
            let s := with_waiting (m_set r (cursor, token) (en_waiting s)) s in
            let s := with_inflight (s_add r (en_inflight s)) s in
            emit (Fx_fetchDelta r cursor) s
        end
    end.

Definition syncAll_loop (now : Z) (remotes : list string) (s : Engine) : Engine :=
  foldl (fun s r => if s_has r (en_inflight s) then s else syncZone now r s) s remotes.

Definition syncAll (now : Z) (s : Engine) : Engine :=
  if en_disposed s then s else syncAll_loop now (tn_remotes tn) s.

Definition forceResetZone (r : string) (s : Engine) : bool * Engine :=
  match m_get r (en_outstandingFetches s) with
  | None => (false, s)
  | Some _ =>
      let s := with_outstanding (m_delete r (en_outstandingFetches s)) s in
      let s := with_failures r 0 s in
      let s := if m_has r (en_statuses s) then with_status r Zs_active s else s in
      (true, emit (Fx_reset r) s)
  end.

Definition asyncDispose (s : Engine) : Engine :=
  let '(mkEngine _ _ _ t _ _ o _ _ _ i w fe n tr) := s in
  mkEngine [] [] [] t [] [] o [] [] true i w fe n (if tn_hub tn then tr ++ [Fx_zoneDisconnect] else tr).

(** What a caller, or a handler during its call, may do. *)
Inductive Command : Type :=
  | Do_sync
  | Do_forceResetZone (zone : string)
  | Do_onEvent (h : H)
  | Do_offEvent (h : H)
  | Do_onConflict (c : C)
  | Do_offConflict (c : C)
  | Do_dispose.

Definition run_command (now : Z) (s : Engine) (c : Command) : Engine :=
  match c with
  | Do_sync => syncAll now s
  | Do_forceResetZone r => (forceResetZone r s).2
  | Do_onEvent h => with_handlers (s_add h (en_handlers s)) s
  | Do_offEvent h => with_handlers (s_delete h (en_handlers s)) s
  | Do_onConflict c => with_conflictHandlers (s_add c (en_conflictHandlers s)) s
  | Do_offConflict c => with_conflictHandlers (s_delete c (en_conflictHandlers s)) s
  | Do_dispose => asyncDispose s
  end.

(** What the subscribers do during a step: the calls each makes, and whether an
    event handler returns without throwing. *)
Record Subscribers : Type := mkSubscribers {
  on_event : H -> FederationSyncEvent -> list Command * bool;
  on_conflict : C -> ReportedConflict -> list Command
}.

Context (now : Z) (subs : Subscribers).

Definition notifyHandlers (event : FederationSyncEvent) (s : Engine) : Engine * bool :=
  foldl (fun '(s, allOk) handler =>
      let '(commands, accepted) := on_event subs handler event in
      (emit (Fx_deliver handler event accepted) (foldl (run_command now) s commands), allOk && accepted))
    (s, true) (en_handlers s).

Definition notifyConflictHandlers (report : ReportedConflict) (s : Engine) : Engine :=
  foldl (fun s handler =>
      emit (Fx_reportConflict handler report) (foldl (run_command now) s (on_conflict subs handler report)))
    s (en_conflictHandlers s).

Definition conflict_report (local remote : FederationSyncEvent) : ReportedConflict :=
  let resolution := resolveEventConflict local remote (tn_resolution tn) in
  let resourceKey := match resolution with Cr_manual report => cr_resourceKey report | Cr_resolved _ _ => resourceKey_of local remote end in
  mkConflict resourceKey local remote (tn_resolution tn) resolution.

Definition report_one (remote : FederationSyncEvent) (s : Engine) (local : FederationSyncEvent) : Engine :=
  if detectEventConflict local remote then
    let report := conflict_report local remote in
    notifyConflictHandlers report (with_reports (en_conflictReports s ++ [report]) s)
  else s.

Definition reportConflicts (events : list FederationSyncEvent) (s : Engine) : Engine :=
  let existingEvents := concat (m_values (en_eventLogs s)) in
  foldl (fun s remote => foldl (report_one remote) s existingEvents) s events.

(** The delivery loop: the state, [deliveredCount] and [handlerFailed]. *)
Fixpoint deliver (events : list FederationSyncEvent) (deliveredCount : nat) (s : Engine) : Engine * nat * bool :=
  match events with
  | [] => (s, deliveredCount, false)
  | event :: events =>
      match notifyHandlers event s with
      | (s, false) => (s, deliveredCount, true)
      | (s, true) => deliver events (S deliveredCount) s
      end
  end.

Definition append_log (r : string) (accepted : list FederationSyncEvent) (s : Engine) : Engine :=
  let merged := getLog r s ++ accepted in
  match tn_logMax tn with
  | Some cap =>
      if cap <? Z.of_nat (length merged) then
        let evicted := Z.of_nat (length merged) - cap in
        with_log r (drop (Z.to_nat evicted) merged) (with_truncated r (getTruncatedCount r s + evicted) s)
      else with_log r merged s
  | None => with_log r merged s
  end.

(** [syncZone] from a batch whose events are well formed. *)
Definition process_batch (r : string) (cursor : SyncCursor) (value : list FederationSyncEvent) (s : Engine) : Engine :=
  if existsb (fun e => negb (bool_decide (ev_originZoneId e = r))) value then bumpFailure r s
  else
    let newEvents := deduplicateEvents value cursor in
    if decide (length newEvents = 0%nat) then
      let s := reset_health r s in
      match advanceCursor cursor [] now with Ok c => with_cursor r c s | Err _ => s end
    else
      let '(ok, deliverable) := validateV1Batch newEvents (sy_lastSequence cursor) in
      if negb ok && tn_strictV1 tn then bumpFailure r s
      else if decide (length deliverable = 0%nat) then bumpFailure r s
      else
        let '(s, deliveredCount, handlerFailed) := deliver deliverable 0 s in
        let s := if handlerFailed then bumpFailure r s else reset_health r s in
        let accepted := take deliveredCount deliverable in
        if decide (length accepted = 0%nat) then s
        else
          match advanceCursor cursor accepted now with
          | Err _ => bumpFailure r s
          | Ok c => append_log r accepted (reportConflicts accepted (with_cursor r c s))
          end.

Inductive Raced : Type := R_timeout | R_settled (outcome : FetchOutcome).

(** [syncZone] after its [await]. *)
Definition after_race (r : string) (cursor : SyncCursor) (raced : Raced) (s : Engine) : Engine :=
  match raced with
  | R_settled Fo_rejected => bumpFailure r s
  | _ =>
      if en_disposed s then s
      else
        match raced with
        | R_settled (Fo_ok (JArr l)) =>
            match mapM isFederationSyncEvent l with
            | None => bumpFailure r s
            | Some value => process_batch r cursor value s
            end
        | _ => bumpFailure r s
        end
  end.

Definition resume (r : string) (cursor : SyncCursor) (raced : Raced) (s : Engine) : Engine :=
  let s := with_waiting (m_delete r (en_waiting s)) s in
  let s := after_race r cursor raced s in
  with_inflight (s_delete r (en_inflight s)) s.

(** The promise of a fetch settles: its [finally] runs first. *)
Definition settle (token : nat) (outcome : FetchOutcome) (s : Engine) : Engine :=
  match m_get token (en_fetches s) with
  | None => s
  | Some r =>
      let s := with_fetches (m_delete token (en_fetches s)) s in
      let s :=
        match m_get r (en_outstandingFetches s) with
        | Some (_, current) =>
            if decide (current = token) then with_outstanding (m_delete r (en_outstandingFetches s)) s else s
        | None => s
        end in
      match m_get r (en_waiting s) with
      | Some (cursor, waited) => if decide (waited = token) then resume r cursor (R_settled outcome) s else s
      | None => s
      end
  end.

Definition fetchTimeout (r : string) (s : Engine) : Engine :=
  match m_get r (en_waiting s) with
  | Some (cursor, _) => resume r cursor R_timeout s
  | None => s
  end.

Inductive Label : Type :=
  | L_command (c : Command)
  | L_settle (token : nat) (outcome : FetchOutcome)
  | L_timeout (zone : string).

Definition step (l : Label) (s : Engine) : Engine :=
  match l with
  | L_command c => run_command now s c
  | L_settle token outcome => settle token outcome s
  | L_timeout r => fetchTimeout r s
  end.

Definition getHealth (r : string) (s : Engine) : option (ZoneStatus * Z * Z) :=
  match m_get r (en_cursors s), m_get r (en_statuses s) with
  | Some cursor, Some status => Some (status, getFailures r s, sy_lastSyncAt cursor)
  | _, _ => None
  end.

End Engine.

Arguments Engine : clear implicits.
Arguments Command : clear implicits.
Arguments Subscribers : clear implicits.
Arguments SyncEffect : clear implicits.

(** [createSyncEngine] *)
Definition createSyncEngine (H C : Type) (config : SyncEngineConfig) : Result (Tunables * Engine H C) ConfigError :=
  (let? tn := checkTunables config in
   match first_error (tn_remotes tn) (sc_initialCursors config) with
   | Some e => Err e
   | None => Ok (tn, initial_engine (sc_initialCursors config) (tn_remotes tn))
   end)%koi.

(** A step of a run has its own time and its own behaviour of the subscribers. *)
Record Event (H C : Type) : Type := mkRunEvent { run_now : Z; run_subs : Subscribers H C; run_label : Label (H:=H) (C:=C) }.
Arguments mkRunEvent {H C}.
Arguments run_now {H C}.
Arguments run_subs {H C}.
Arguments run_label {H C}.

Definition run {H C : Type} `{EqDecision H, EqDecision C} (tn : Tunables) (events : list (Event H C)) (s : Engine H C) :
    Engine H C :=
  foldl (fun s e => step tn (run_now e) (run_subs e) (run_label e) s) s events.

(** ** The client of the hub: [createNexusSyncClient] of [sync-protocol.ts] *)

Fixpoint first_malformed (i : nat) (l : list jsval) : option nat :=
  match l with
  | [] => None
  | v :: l => match isFederationSyncEvent v with Some _ => first_malformed (S i) l | None => Some i end
  end.

(** [fetchDelta], on the answer of the transport. *)
Definition fetchDelta (cursor : SyncCursor) (answer : Result jsval KoiError) : Result jsval KoiError :=
  match answer with
  | Err e => Err e
  | Ok (JArr l) =>
      match first_malformed 0 l with
      | Some i =>
          Err (mkKoiError EXTERNAL "federation.sync_fetch_delta returned a malformed event" true
            (Some [("zoneId", JStr (sy_zoneId cursor)); ("index", JNum (Z.of_nat i))]) None)
      | None => answer
      end
  | Ok _ =>
      Err (mkKoiError EXTERNAL "federation.sync_fetch_delta returned a non-array payload" true
        (Some [("zoneId", JStr (sy_zoneId cursor))]) None)
  end.

Lemma first_malformed_none i l : first_malformed i l = None <-> is_Some (mapM isFederationSyncEvent l).
Proof.
  revert i. induction l as [|v l IH]; intros i; simpl; [by split; [eexists|]|].
  destruct (isFederationSyncEvent v) as [e|]; simpl; [|by split; [|intros []]].
  rewrite IH. destruct (mapM _ l); simpl; [by split; eexists|by split; intros []].
Qed.

(** What the client passes on satisfies the guards of the engine. *)
Lemma fetchDelta_well_formed cursor answer v :
  fetchDelta cursor answer = Ok v ->
  answer = Ok v /\ exists l events, v = JArr l /\ mapM isFederationSyncEvent l = Some events.
Proof.
  unfold fetchDelta. destruct answer as [[| | | | | |l|]|]; try done. destruct (first_malformed 0 l) eqn:Hf; [done|].
  intros [= <-]. split; [done|]. apply first_malformed_none in Hf as [events He]. by exists l, events.
Qed.

(** ** [config.ts] *)

Record FederationConfig : Type := mkFederationConfig {
  fc_localZoneId : string;
  fc_remoteZones : list string;
  fc_pollIntervalMs : number;
  fc_offlineAfterFailures : number;
  fc_conflictResolution : ConflictResolutionStrategy
}.

Definition validateFederationConfig (localZoneId : string) (remoteZones : option (list string)) (pollIntervalMs : option number)
    (offlineAfterFailures : option number) (conflictResolution : option ConflictResolutionStrategy) :
    Result FederationConfig KoiError :=
  if decide (localZoneId = "") then Err (koiError VALIDATION "localZoneId is required and must be non-empty" false)
  else
    let poll := default (Finite 5000) pollIntervalMs in
    let offline := default (Finite 3) offlineAfterFailures in
    if negb (positive_finite poll) then Err (koiError VALIDATION "pollIntervalMs must be a positive finite number" false)
    else if negb (positive_finite offline) then Err (koiError VALIDATION "offlineAfterFailures must be a positive integer" false)
    else Ok (mkFederationConfig localZoneId (default [] remoteZones) poll offline (default Cs_lww conflictResolution)).

(** A validated configuration passes the checks of the engine. *)
Lemma validated_config_accepted local remotes poll offline resolution config hub H C :
  validateFederationConfig local remotes poll offline resolution = Ok config ->
  is_ok (createSyncEngine H C
    (mkSyncConfig (fc_localZoneId config) (fc_remoteZones config) (fc_pollIntervalMs config) (fc_offlineAfterFailures config)
       None None None None (Some (fc_conflictResolution config)) hub [])) = true.
Proof.
  unfold validateFederationConfig. case_decide; [done|].
  destruct (positive_finite (default (Finite 5000) poll)) eqn:Hp; [|done].
  destruct (positive_finite (default (Finite 3) offline)) eqn:Ho; [|done]. intros [= <-].
  unfold createSyncEngine, checkTunables. simpl. rewrite Hp. simpl.
  destruct (default (Finite 3) offline) as [n| |]; try done. simpl in Ho. destruct (Z.leb_spec n 0); [lia|done].
Qed.
