(* ===== verification/SyncBatch.v ===== *)
(** * Batches of the sync engine

    What [validateV1Batch] and [sameEvent] of [sync-engine.ts] decide. *)

From S2P Require Import Prelude JsMap Text Canonical VectorClock SyncEngine.

Local Open Scope list_scope.
Local Open Scope Z_scope.

(** ** Sorting commutes with a map that keeps the keys *)

Section SortMap.
Context {A B : Type} (R : relation A) (S : relation B) `{!RelDecision R} `{!RelDecision S} (f : A -> B).
Hypothesis Hf : forall a b, R a b <-> S (f a) (f b).

Lemma list_merge_map l1 l2 : f <$> list_merge R l1 l2 = list_merge S (f <$> l1) (f <$> l2).
Proof.
  revert l2. induction l1 as [|x l1 IH1]; intros l2; [rewrite list_merge_nil_l; symmetry; apply list_merge_nil_l|].
  induction l2 as [|y l2 IH2]; [done|]. rewrite !fmap_cons, !list_merge_cons.
  destruct (decide (R x y)) as [H|H], (decide (S (f x) (f y))) as [H'|H']; try (by rewrite Hf in H).
  - by rewrite fmap_cons, IH1.
  - by rewrite fmap_cons, IH2.
Qed.

Lemma merge_list_to_stack_map st l :
  fmap (M:=option) (fmap (M:=list) f) <$> merge_list_to_stack R st l =
  merge_list_to_stack S (fmap (M:=option) (fmap (M:=list) f) <$> st) (f <$> l).
Proof.
  revert l. induction st as [|[l'|] st IH]; intros l; [done| |done].
  cbn [merge_list_to_stack]. rewrite fmap_cons, IH, list_merge_map. done.
Qed.

Lemma merge_sort_map l : f <$> merge_sort R l = merge_sort S (f <$> l).
Proof.
  unfold merge_sort. change (@nil (option (list B))) with (fmap (M:=option) (fmap (M:=list) f) <$> @nil (option (list A))).
  generalize (@nil (option (list A))). induction l as [|x l IH]; intros st.
  - cbn. induction st as [|[l|] st IH]; [done| |exact IH]. cbn. by rewrite list_merge_map, IH.
  - rewrite fmap_cons. cbn [merge_sort_aux]. rewrite IH. f_equal. apply merge_list_to_stack_map.
Qed.
End SortMap.

(** ** stableStringify *)

(** A value without [undefined] in it, as JSON yields. *)
Fixpoint plain (v : jsval) : bool :=
  match v with
  | JUndefined => false
  | JArr l => forallb plain l
  | JObj fs => forallb (fun f => plain f.2) fs
  | _ => true
  end.

Lemma plain_defined v : plain v = true -> is_undefined v = false.
Proof. by destruct v. Qed.

Lemma plain_canonicalize v : plain v = true -> plain (canonicalize v) = true.
Proof.
  induction v as [| | | | | |l IH|fs IH] using jsval_deep_ind; intros Hv; try done; simpl in *.
  - induction IH as [|v l Hx _ IH]; [done|]. simpl in *. apply andb_true_iff in Hv as [H1 H2]. by rewrite Hx, IH.
  - rewrite forallb_forall in *. intros f Hf. apply list_elem_of_In in Hf. unfold defined_fields in Hf.
    apply list_elem_of_filter in Hf as [_ Hf]. rewrite sort_fields_perm in Hf.
    apply list_elem_of_In, in_map_iff in Hf as (g & <- & Hg). simpl. rewrite Forall_forall in IH.
    apply IH; [by apply list_elem_of_In|by apply Hv].
Qed.

Lemma defined_fields_all fs : forallb (fun f => plain f.2) fs = true -> defined_fields fs = fs.
Proof.
  intros Hp. unfold defined_fields. apply filter_all. intros f Hf.
  apply plain_defined. rewrite forallb_forall in Hp. by apply Hp, list_elem_of_In.
Qed.

(** On JSON values, [stableStringify] writes the canonical text. *)
Lemma stableStringify_canonical v : plain v = true -> stableStringify v = Some (stringify (canonicalize v)).
Proof.
  induction v as [| | | | | |l IH|fs IH] using jsval_deep_ind; intros Hv; try done.
  - simpl. do 4 f_equal. rewrite List.map_map. apply List.map_ext_in. intros v Hin.
    rewrite Forall_forall in IH. simpl in Hv. rewrite forallb_forall in Hv.
    rewrite IH; [done|by apply list_elem_of_In|by apply Hv].
  - pose proof (plain_canonicalize _ Hv) as Hc. simpl in Hv, Hc. cbn [canonicalize stableStringify].
    set (gs := List.map (fun f => (f.1, canonicalize f.2)) fs) in *.
    assert (Hgs : forallb (fun f => plain f.2) (sort_fields gs) = true).
    { rewrite forallb_forall in *. intros f Hf. apply list_elem_of_In in Hf. rewrite sort_fields_perm in Hf.
      apply list_elem_of_In, in_map_iff in Hf as (g & <- & Hg). by apply plain_canonicalize, Hv. }
    rewrite (defined_fields_all _ Hgs). set (h := fun f : string * jsval => (f.1, Some (stringify f.2))).
    assert (Hmap : List.map (fun f => (f.1, stableStringify f.2)) fs = h <$> gs).
    { unfold gs. change (h <$> ?l) with (List.map h l). rewrite List.map_map. apply List.map_ext_in.
      intros f Hin. unfold h. simpl. f_equal. rewrite Forall_forall in IH. rewrite forallb_forall in Hv.
      apply IH; [by apply list_elem_of_In|by apply Hv]. }
    rewrite Hmap.
    assert (Hs : merge_sort by_key (h <$> gs) = h <$> sort_fields gs) by (symmetry; by apply (merge_sort_map key_le by_key h)).
    rewrite Hs.
    simpl. do 4 f_equal. revert Hgs. generalize (sort_fields gs). intros l.
    induction l as [|f l IHl]; intros Hl; [done|]. simpl in Hl. apply andb_true_iff in Hl as [Hf Hl].
    simpl. rewrite (plain_defined _ Hf). simpl. f_equal. by apply IHl.
Qed.

Definition clock_fields (clock : VectorClock) : list (string * jsval) := (fun c => (c.1, JNum c.2)) <$> clock.

Lemma clock_value_plain clock : plain (clock_value clock) = true.
Proof. unfold clock_value. cbn [plain]. induction clock as [|c clock IH]; [done|exact IH]. Qed.

Lemma clock_value_shown clock k : shown (clock_fields clock) k = JNum <$> m_get k clock.
Proof.
  unfold shown, clock_fields. induction clock as [|[k' n] clock IH]; [done|]. rewrite fmap_cons. simpl.
  destruct (decide (k = k')); [done|exact IH].
Qed.

Lemma clock_value_keys clock : m_keys (clock_fields clock) = m_keys clock.
Proof. unfold m_keys, clock_fields. rewrite <-list_fmap_compose. by apply list_fmap_ext. Qed.

Definition json_event (e : FederationSyncEvent) : Prop :=
  plain (JObj (ev_data e)) = true /\ NoDup (m_keys (ev_data e)) /\ NoDup (m_keys (clock_of e)).

(** Two events count as one retransmitted event exactly when they are the
    same: for events decoded from JSON, [sameEvent] holds if and only if kind,
    origin, sequence and time agree, the clocks have the same entries, and the
    data agree on every key up to the order of keys, at every depth. *)
Lemma same_event_exact (a b : FederationSyncEvent) :
  json_event a -> json_event b ->
  sameEvent a b = true <->
    ev_kind a = ev_kind b /\ ev_originZoneId a = ev_originZoneId b /\ ev_sequence a = ev_sequence b /\
    ev_emittedAt a = ev_emittedAt b /\
    (forall zone, m_get zone (clock_of a) = m_get zone (clock_of b)) /\
    (forall k, shown (ev_data a) k = shown (ev_data b) k).
Proof.
  intros (Ha1 & Ha2 & Ha3) (Hb1 & Hb2 & Hb3). unfold sameEvent.
  rewrite !andb_true_iff, !bool_decide_eq_true, !Z.eqb_eq.
  rewrite !stableStringify_canonical by (done || apply clock_value_plain).
  assert (Hclock : Some (stringify (canonicalize (clock_value (clock_of a)))) =
      Some (stringify (canonicalize (clock_value (clock_of b)))) <->
      forall zone, m_get zone (clock_of a) = m_get zone (clock_of b)).
  { rewrite (inj_iff Some). change (clock_value ?c) with (JObj (clock_fields c)). rewrite canonical_text_exact by (by rewrite clock_value_keys).
    setoid_rewrite clock_value_shown. split; intros Hk zone; specialize (Hk zone).
    - destruct (m_get zone (clock_of a)), (m_get zone (clock_of b)); simpl in Hk; congruence.
    - by rewrite Hk. }
  rewrite Hclock, (inj_iff Some), canonical_text_exact by done. tauto.
Qed.

(** ** validateV1Batch *)

(** What the loop has recorded when it has accepted [acc] after [start]. *)
Definition seen_ok (start : Z) (seen : list (Z * FederationSyncEvent)) (acc : list FederationSyncEvent) : Prop :=
  contiguous start acc /\ forall q e, m_get q seen = Some e <-> e ∈ acc /\ ev_sequence e = q.

Definition repeated (e : FederationSyncEvent) (acc : list FederationSyncEvent) : Prop :=
  exists p, p ∈ acc /\ ev_sequence p = ev_sequence e /\ sameEvent p e = true.

(** An event the batch cannot continue with. *)
Definition misplaced (start : Z) (e : FederationSyncEvent) (acc : list FederationSyncEvent) : Prop :=
  (exists p, p ∈ acc /\ ev_sequence p = ev_sequence e /\ sameEvent p e = false) \/
  (ev_sequence e ≠ start + Z.of_nat (length acc) + 1 /\ forall p, p ∈ acc -> ev_sequence p ≠ ev_sequence e).

Lemma contiguous_range start acc e : contiguous start acc -> e ∈ acc -> start < ev_sequence e <= start + Z.of_nat (length acc).
Proof.
  intros Hc [i Hi]%list_elem_of_lookup. rewrite (contiguous_lookup _ _ _ _ Hc Hi).
  apply lookup_lt_Some in Hi. lia.
Qed.

Lemma contiguous_unique start acc e e' :
  contiguous start acc -> e ∈ acc -> e' ∈ acc -> ev_sequence e = ev_sequence e' -> e = e'.
Proof.
  intros Hc [i Hi]%list_elem_of_lookup [j Hj]%list_elem_of_lookup Heq.
  rewrite (contiguous_lookup _ _ _ _ Hc Hi), (contiguous_lookup _ _ _ _ Hc Hj) in Heq.
  assert (i = j) as -> by lia. congruence.
Qed.

Lemma seen_ok_snoc start seen acc e :
  seen_ok start seen acc -> ev_sequence e = start + Z.of_nat (length acc) + 1 ->
  seen_ok start (m_set (ev_sequence e) e seen) (acc ++ [e]).
Proof.
  intros [Hc Hs] He. split.
  - apply contiguous_app. split; [done|]. by split.
  - intros q p. rewrite m_get_set, elem_of_app, list_elem_of_singleton.
    case_decide as Hq; [subst q|].
    + split; [intros [= <-]; auto|]. intros [[Hp| ->] Hpe]; [|done].
      apply (contiguous_range _ _ _ Hc) in Hp. lia.
    + rewrite Hs. split; [tauto|]. intros [[Hp| ->] Hpe]; [done|by destruct Hq].
Qed.

Lemma validate_loop_spec start events seen acc :
  seen_ok start seen acc ->
  let '(ok, prefix) := validate_loop events seen acc (start + Z.of_nat (length acc)) in
  (exists rest, prefix = acc ++ rest /\ forall e, e ∈ rest -> e ∈ events) /\ contiguous start prefix /\
  if ok then forall e, e ∈ events -> e ∈ prefix \/ repeated e prefix
  else exists l1 e l2, events = l1 ++ e :: l2 /\ misplaced start e prefix /\
         (forall e, e ∈ l1 -> e ∈ prefix \/ repeated e prefix).
Proof.
  revert seen acc. induction events as [|e events IH]; intros seen acc Hs; simpl.
  { split_and!; [|apply Hs|set_solver]. exists []. rewrite app_nil_r. set_solver. }
  destruct (m_get (ev_sequence e) seen) as [prior|] eqn:Hget.
  - apply Hs in Hget as [Hp Hq]. destruct (sameEvent prior e) eqn:Hsame.
    + specialize (IH _ _ Hs). destruct (validate_loop _ _ _ _) as [ok prefix].
      destruct IH as ((rest & -> & Hrest) & Hc & Hok).
      assert (He : repeated e (acc ++ rest)) by (exists prior; set_solver).
      split_and!; [exists rest; split; [done|set_solver]|done|]. destruct ok.
      * intros x [->|Hx]%elem_of_cons; [by right|by apply Hok].
      * destruct Hok as (l1 & x & l2 & -> & Hm & Hl). exists (e :: l1), x, l2. split_and!; [done..|].
        intros y [->|Hy]%elem_of_cons; [by right|by apply Hl].
    + split_and!; [exists []; rewrite app_nil_r; set_solver|apply Hs|].
      exists [], e, events. split_and!; [done| |set_solver]. left. by exists prior.
  - assert (Hnew : forall p, p ∈ acc -> ev_sequence p ≠ ev_sequence e).
    { intros p Hp Heq. assert (m_get (ev_sequence e) seen = Some p) as Hx by by apply Hs. congruence. }
    destruct (Z.eqb_spec (ev_sequence e) (start + Z.of_nat (length acc) + 1)) as [Heq|Hne].
    + destruct (Z.leb_spec (ev_sequence e) (start + Z.of_nat (length acc))); [lia|]. simpl.
      specialize (IH _ _ (seen_ok_snoc _ _ _ _ Hs Heq)).
      rewrite length_app in IH. simpl in IH. replace (start + Z.of_nat (length acc + 1)) with (ev_sequence e) in IH by lia.
      destruct (validate_loop _ _ _ _) as [ok prefix]. destruct IH as ((rest & -> & Hrest) & Hc & Hok).
      split_and!; [|done|].
      { exists (e :: rest). rewrite <-app_assoc. split; [done|]. set_solver. }
      destruct ok.
      * intros x [->|Hx]%elem_of_cons; [left; set_solver|by apply Hok].
      * destruct Hok as (l1 & x & l2 & -> & Hm & Hl). exists (e :: l1), x, l2. split_and!; [done..|].
        intros y [->|Hy]%elem_of_cons; [left; set_solver|by apply Hl].
    + rewrite orb_true_r. split_and!; [exists []; rewrite app_nil_r; set_solver|apply Hs|].
      exists [], e, events. split_and!; [done| |set_solver]. by right.
Qed.

Lemma validate_spec events start :
  let '(ok, prefix) := validateV1Batch events start in
  (forall e, e ∈ prefix -> e ∈ events) /\ contiguous start prefix /\
  if ok then forall e, e ∈ events -> e ∈ prefix \/ repeated e prefix
  else exists l1 e l2, events = l1 ++ e :: l2 /\ misplaced start e prefix /\
         (forall e, e ∈ l1 -> e ∈ prefix \/ repeated e prefix).
Proof.
  assert (Hs : seen_ok start [] []) by (split; [done|set_solver]).
  pose proof (validate_loop_spec start events [] [] Hs) as H. unfold validateV1Batch.
  simpl in H. rewrite Z.add_0_r in H. destruct (validate_loop _ _ _ _) as [ok prefix].
  destruct H as ((rest & -> & Hrest) & Hc & Hok). by split_and!.
Qed.

(** A batch is accepted whole exactly when it is a contiguous run with
    faithful repetitions.  The prefix [validateV1Batch] returns always consists of
    events of the batch numbered from [start + 1] without gap; when the batch is
    accepted every other event repeats one of the prefix; when it is refused
    there is a first event that contradicts an accepted one under the same number
    or is not the next number, and all before it are in the prefix or repeat it. *)
Lemma batch_validation_exact (events : list FederationSyncEvent) (start : Z) :
  let '(ok, prefix) := validateV1Batch events start in
  (forall e, e ∈ prefix -> e ∈ events) /\ contiguous start prefix /\
  if ok then forall e, e ∈ events -> e ∈ prefix \/ repeated e prefix
  else exists l1 e l2, events = l1 ++ e :: l2 /\ misplaced start e prefix /\
         (forall e, e ∈ l1 -> e ∈ prefix \/ repeated e prefix).
Proof. exact (validate_spec events start). Qed.

Lemma validate_contiguous_loop start events seen acc :
  seen_ok start seen acc -> contiguous (start + Z.of_nat (length acc)) events ->
  validate_loop events seen acc (start + Z.of_nat (length acc)) = (true, acc ++ events).
Proof.
  revert seen acc. induction events as [|e events IH]; intros seen acc Hs Hc; simpl; [by rewrite app_nil_r|].
  destruct Hc as [He Hc]. destruct (m_get (ev_sequence e) seen) as [p|] eqn:Hp.
  { apply Hs in Hp as [Hp Hq]. apply (contiguous_range _ _ _ (proj1 Hs)) in Hp. lia. }
  rewrite (proj2 (Z.eqb_eq _ _) He), (proj2 (Z.leb_gt _ _)) by lia. simpl.
  rewrite He at 2. replace (start + Z.of_nat (length acc) + 1) with (start + Z.of_nat (length (acc ++ [e])))
    by (rewrite length_app; simpl; lia).
  rewrite IH; [by rewrite <-app_assoc|by apply seen_ok_snoc|].
  rewrite length_app. simpl. by replace (start + Z.of_nat (length acc + 1)) with (start + Z.of_nat (length acc) + 1) by lia.
Qed.

Lemma validate_contiguous start events : contiguous start events -> validateV1Batch events start = (true, events).
Proof.
  intros Hc. unfold validateV1Batch. pose proof (validate_contiguous_loop start events [] []) as H.
  simpl in H. rewrite Z.add_0_r in H. apply H; [split; [done|set_solver]|done].
Qed.
