(* ===== verification/SyncEngineInv.v ===== *)
(** * Invariants of the sync engine

    What every call, of the caller or of a handler in the middle of a step, keeps:
    the bookkeeping of fetches ([books]), the health of each zone ([healthy_books])
    and, unless the engine is disposed of, cursors and logs ([keeps]). *)

From S2P Require Import Prelude JsMap Text Canonical VectorClock SyncEngine SyncBatch.

Local Open Scope list_scope.
Local Open Scope Z_scope.

Section Inv.
Context {H C : Type} {HEq : EqDecision H} {CEq : EqDecision C}.
Context (tn : Tunables).

Notation Engine := (Engine H C).

Implicit Types s : Engine.

(** ** Frames *)

Definition keeps s s' : Prop :=
  (en_disposed s = true -> en_disposed s' = true) /\
  (en_disposed s' = false ->
     en_cursors s' = en_cursors s /\ en_eventLogs s' = en_eventLogs s /\ en_truncatedCounts s' = en_truncatedCounts s) /\
  (forall r, r ∈ en_inflight s -> r ∈ en_inflight s' /\ m_get r (en_waiting s') = m_get r (en_waiting s)).

#[export] Instance keeps_preorder : PreOrder keeps.
Proof.
  split; [by intros s|]. intros s1 s2 s3 (D1 & F1 & W1) (D2 & F2 & W2). split_and!.
  - intros Hd. auto.
  - intros Hd. assert (Hd2 : en_disposed s2 = false) by (destruct (en_disposed s2); [by rewrite D2 in Hd|done]).
    destruct (F2 Hd) as (-> & -> & ->). by apply F1.
  - intros r Hr. destruct (W1 _ Hr) as [Hr2 Hw2]. destruct (W2 _ Hr2) as [Hr3 Hw3]. split; [done|congruence].
Qed.

Definition is_reset (r : string) (e : SyncEffect H C) : Prop := match e with Fx_reset r' => r' = r | _ => False end.

#[export] Instance is_reset_dec r e : Decision (is_reset r e).
Proof. destruct e; unfold is_reset; apply _. Defined.

Definition fetches_of (r : string) s : nat := length (filter (fun f => f.2 = r) (en_fetches s)).
Definition resets (r : string) s : nat := length (filter (is_reset r) (en_trace s)).
Definition slot (r : string) s : nat := if m_has r (en_outstandingFetches s) then 1 else 0.

(** The bookkeeping; [busy] are the zones whose [syncZone] is in the middle of its
    last step. *)
Record books (busy : list string) s : Prop := mkBooks {
  bk_tokens : forall tok r, m_get tok (en_fetches s) = Some r -> (tok < en_nextToken s)%nat;
  bk_slot : forall r t tok, m_get r (en_outstandingFetches s) = Some (t, tok) -> m_get tok (en_fetches s) = Some r;
  bk_waiting : forall r c tok, m_get r (en_waiting s) = Some (c, tok) -> m_get tok (en_fetches s) = Some r;
  bk_inflight : forall r, r ∈ en_inflight s <-> is_Some (m_get r (en_waiting s)) \/ r ∈ busy;
  bk_busy : forall r, r ∈ busy -> m_get r (en_waiting s) = None;
  bk_cursor : en_disposed s = false -> forall r c tok, m_get r (en_waiting s) = Some (c, tok) -> m_get r (en_cursors s) = Some c;
  bk_count : forall r, (fetches_of r s <= slot r s + resets r s)%nat
}.

(** ** Health *)

Definition healthy_zone (r : string) s : Prop :=
  0 <= getFailures r s /\
  ((m_get r (en_statuses s) = Some Zs_offline /\ tn_offlineAfter tn <= getFailures r s) \/
   (m_get r (en_statuses s) = Some Zs_active /\ getFailures r s < tn_offlineAfter tn)).

(** A zone is offline exactly when its failures have reached the threshold. *)
Definition healthy_books s : Prop := en_disposed s = false -> forall r, is_Some (m_get r (en_statuses s)) -> healthy_zone r s.

Definition statuses_known s : Prop :=
  en_disposed s = false -> forall r, is_Some (m_get r (en_cursors s)) <-> is_Some (m_get r (en_statuses s)).

Definition health_ok s : Prop := 0 < tn_offlineAfter tn /\ healthy_books s /\ statuses_known s.

(** ** Operations that touch health only *)

Lemma books_failures busy r k s : books busy s -> books busy (with_failures r k s).
Proof. destruct s. intros []. by constructor. Qed.
Lemma books_status busy r z s : books busy s -> books busy (with_status r z s).
Proof. destruct s. intros []. by constructor. Qed.
Lemma books_handlers busy hs s : books busy s -> books busy (with_handlers hs s).
Proof. destruct s. intros []. by constructor. Qed.
Lemma books_conflictHandlers busy hs s : books busy s -> books busy (with_conflictHandlers hs s).
Proof. destruct s. intros []. by constructor. Qed.
Lemma books_reports busy rs s : books busy s -> books busy (with_reports rs s).
Proof. destruct s. intros []. by constructor. Qed.
Lemma books_log busy r l s : books busy s -> books busy (with_log r l s).
Proof. destruct s. intros []. by constructor. Qed.
Lemma books_truncated busy r k s : books busy s -> books busy (with_truncated r k s).
Proof. destruct s. intros []. by constructor. Qed.

Lemma resets_emit r e s : resets r (emit e s) = (resets r s + if decide (is_reset r e) then 1 else 0)%nat.
Proof. destruct s. unfold resets. simpl. rewrite filter_app, length_app, filter_cons. by case_decide. Qed.

Lemma books_emit busy e s : books busy s -> books busy (emit e s).
Proof.
  intros []. constructor; try by destruct s.
  intros r. rewrite resets_emit. specialize (bk_count0 r). destruct s; unfold fetches_of, slot in *; simpl in *. lia.
Qed.

Lemma books_bump busy r s : books busy s -> books busy (bumpFailure tn r s).
Proof. intros Hb. unfold bumpFailure. case_match; eauto using books_failures, books_status. Qed.

Lemma books_reset_health busy r s : books busy s -> books busy (reset_health r s).
Proof. intros Hb. unfold reset_health. eauto using books_failures, books_status. Qed.

Lemma keeps_health r k z s : keeps s (with_failures r k s) /\ keeps s (with_status r z s).
Proof. by destruct s. Qed.

Lemma keeps_bump r s : keeps s (bumpFailure tn r s).
Proof.
  unfold bumpFailure. set (k := getFailures r s + 1). destruct (keeps_health r k Zs_offline s) as [Hf _].
  case_match; [|done]. etrans; [exact Hf|]. apply (keeps_health r k).
Qed.

Lemma keeps_reset_health r s : keeps s (reset_health r s).
Proof. by destruct s. Qed.

Lemma getFailures_set r k r' s : getFailures r' (with_failures r k s) = if decide (r = r') then k else getFailures r' s.
Proof. destruct s. unfold getFailures. simpl. rewrite m_get_set. by case_decide. Qed.

(** Setting both parts of a zone's health. *)
Lemma health_set r k z s :
  (z = Zs_offline /\ tn_offlineAfter tn <= k \/ z = Zs_active /\ 0 <= k < tn_offlineAfter tn) ->
  is_Some (m_get r (en_cursors s)) -> health_ok s -> health_ok (with_failures r k (with_status r z s)).
Proof.
  intros Hz Hc (Hp & Hh & Hk). split_and!; [done| |].
  - intros Hd r' Hr'. unfold healthy_zone. rewrite getFailures_set.
    assert (Hg : getFailures r' (with_status r z s) = getFailures r' s) by by destruct s.
    assert (Hs : m_get r' (en_statuses (with_failures r k (with_status r z s))) =
      if decide (r = r') then Some z else m_get r' (en_statuses s)).
    { destruct s. simpl. by rewrite m_get_set. }
    rewrite Hs in *. rewrite Hg. case_decide as Heq.
    + destruct Hz as [[-> Hz]|[-> Hz]]; split; try lia; [by left|right; split; [done|lia]].
    + apply Hh; [by destruct s|done].
  - intros Hd r'. destruct s as [cu]. simpl in *. rewrite m_get_set. case_decide as Heq; [subst r'|by apply Hk].
    split; [by eexists|done].
Qed.

Lemma with_swap r k z s : with_status r z (with_failures r k s) = with_failures r k (with_status r z s).
Proof. by destruct s. Qed.

Lemma health_bump r s : is_Some (m_get r (en_cursors s)) -> health_ok s -> health_ok (bumpFailure tn r s).
Proof.
  intros Hc Hok. unfold bumpFailure.
  destruct (Z.leb_spec (tn_offlineAfter tn) (getFailures r s + 1)) as [Hle|Hlt].
  - rewrite with_swap. apply health_set; [left; split; [done|lia]|done..].
  - destruct (decide (en_disposed s = false)) as [Hd|Hd].
    + assert (Hz : is_Some (m_get r (en_statuses s))) by (by apply Hok).
      destruct (proj1 (proj2 Hok) Hd r Hz) as [H0 [[Hst Hf]|[Hst Hf]]]; [lia|].
      assert (Hsame : with_failures r (getFailures r s + 1) s =
        with_failures r (getFailures r s + 1) (with_status r Zs_active s)).
      { destruct s as [? ? ? ? ? sts]. unfold with_failures, with_status. f_equal. simpl in Hst.
        clear - Hst. induction sts as [|[r' z'] sts IH]; [done|]. simpl in *. case_decide as Heq; [by injection Hst as ->; subst|].
        f_equal. by apply IH. }
      rewrite Hsame. apply health_set; [right; split; [done|lia]|done..].
    + destruct Hok as (Hp & Hh & Hk). split_and!; [done|intros Hd'; by destruct s|intros Hd'; by destruct s].
Qed.

Lemma health_reset r s : is_Some (m_get r (en_cursors s)) -> health_ok s -> health_ok (reset_health r s).
Proof.
  intros Hc Hok. unfold reset_health. rewrite with_swap. apply health_set; [right|done..].
  split; [done|]. destruct Hok as [Hp _]. lia.
Qed.

Lemma health_ext s s' :
  en_disposed s' = en_disposed s -> en_failures s' = en_failures s -> en_statuses s' = en_statuses s ->
  en_cursors s' = en_cursors s -> health_ok s -> health_ok s'.
Proof.
  intros H1 H2 H3 H4 (Hp & Hh & Hk). unfold health_ok, healthy_books, statuses_known, healthy_zone, getFailures in *.
  rewrite H1, H2, H3, H4. done.
Qed.

(** ** Starting a cycle *)

Definition start_fetch (now : Z) (r : string) (cursor : SyncCursor) s : Engine :=
  let '(mkEngine cu l cr t f st o h ch d i w fe n tr) := s in
  mkEngine cu l cr t f st (m_set r (now, n) o) h ch d (s_add r i) (m_set r (cursor, n) w) (m_set n r fe) (S n)
    (tr ++ [Fx_fetchDelta r cursor]).

Lemma syncZone_cases now r s :
  syncZone tn now r s = s \/
  (en_disposed s = false /\ is_Some (m_get r (en_cursors s)) /\
   syncZone tn now r s = with_failures r (tn_offlineAfter tn) (with_status r Zs_offline s)) \/
  (exists cursor, en_disposed s = false /\ m_get r (en_cursors s) = Some cursor /\
   m_get r (en_outstandingFetches s) = None /\ syncZone tn now r s = start_fetch now r cursor s).
Proof.
  unfold syncZone. destruct (en_disposed s) eqn:Hd; [by left|].
  destruct (m_get r (en_cursors s)) as [cursor|] eqn:Hc; [|by left].
  destruct (m_get r (en_outstandingFetches s)) as [[t tok]|] eqn:Ho.
  - case_match; [by left|]. right. left. split_and!; [done|by eexists|done].
  - right. right. exists cursor. split_and!; try done. by destruct s.
Qed.

Lemma filter_m_set_absent (P : nat * string -> Prop) `{!forall x, Decision (P x)} n r (fe : list (nat * string)) :
  m_get n fe = None -> filter P (m_set n r fe) = filter P fe ++ filter P [(n, r)].
Proof. intros Hn. by rewrite m_set_absent, filter_app. Qed.

Lemma books_start busy now r cursor s :
  books busy s -> m_get r (en_cursors s) = Some cursor -> m_get r (en_outstandingFetches s) = None ->
  r ∉ en_inflight s -> books busy (start_fetch now r cursor s).
Proof.
  intros [Bt Bs Bw Bi Bb Bc Bn] Hc Ho Hr.
  assert (Hnew : m_get (en_nextToken s) (en_fetches s) = None).
  { destruct (m_get (en_nextToken s) (en_fetches s)) eqn:Hf; [|done]. apply Bt in Hf. lia. }
  assert (Hold : forall tok r', m_get tok (en_fetches s) = Some r' -> en_nextToken s ≠ tok) by (intros ? ? Hf <-; congruence).
  unfold fetches_of, slot, resets in *.
  destruct s as [cu l cr t f st o h ch d i w fe n tr]. simpl in *. constructor; simpl.
  - intros tok r'. rewrite m_get_set. case_decide as Hq; [lia|]. intros Hf. apply Bt in Hf. lia.
  - intros r' t' tok. rewrite m_get_set. case_decide as Hq.
    + intros [= _ <-]. subst. by rewrite m_get_set, decide_True.
    + intros Ho'. apply Bs in Ho'. rewrite m_get_set_ne; [done|by eapply Hold].
  - intros r' c tok. rewrite m_get_set. case_decide as Hq.
    + intros [= _ <-]. subst. by rewrite m_get_set, decide_True.
    + intros Hw. apply Bw in Hw. rewrite m_get_set_ne; [done|by eapply Hold].
  - intros r'. rewrite elem_of_s_add, Bi, m_get_set. case_decide as Hq; [subst|].
    + split; [by eauto|by left].
    + split; [by intros [->|?]|by right].
  - intros r' Hb. rewrite m_get_set_ne; [by apply Bb|]. intros ->. apply Hr, Bi. by right.
  - intros Hd r' c tok. rewrite m_get_set. case_decide as Hq; [by intros [= -> _]; subst|by apply Bc].
  - intros r'. unfold fetches_of, slot, resets in *. simpl in *. specialize (Bn r').
    rewrite filter_m_set_absent, length_app, filter_app, length_app by done. rewrite !filter_cons, !filter_nil; simpl.
    assert (Hhas : m_has r' (m_set r (now, n) o) = if decide (r = r') then true else m_has r' o).
    { unfold m_has. rewrite m_get_set. by case_decide. }
    rewrite Hhas. destruct (decide (r = r')) as [->|Hq]; simpl; [|lia].
    unfold m_has in Bn. rewrite Ho in Bn. simpl in Bn. lia.
Qed.

Lemma keeps_start busy now r cursor s : books busy s -> r ∉ en_inflight s -> keeps s (start_fetch now r cursor s).
Proof.
  intros Hb Hr. destruct s as [cu l cr t f st o h ch d i w fe n tr]. split_and!; try done.
  intros r' Hr'. simpl in *. rewrite elem_of_s_add. split; [by right|]. rewrite m_get_set_ne; [done|by intros ->].
Qed.

(** What every call preserves. *)
Definition stable busy s s' : Prop := books busy s' /\ (health_ok s -> health_ok s') /\ keeps s s'.

Lemma stable_refl busy s : books busy s -> stable busy s s.
Proof. intros Hb. split; [done|split; [done|reflexivity]]. Qed.

Lemma stable_trans busy s1 s2 s3 : stable busy s1 s2 -> (books busy s2 -> stable busy s2 s3) -> stable busy s1 s3.
Proof.
  intros (B1 & H1 & K1) H2. destruct (H2 B1) as (B2 & H2' & K2).
  split; [done|split; [by auto|by etrans]].
Qed.

Lemma stable_foldl {A : Type} busy (f : Engine -> A -> Engine) (l : list A) s :
  books busy s -> (forall s a, books busy s -> stable busy s (f s a)) -> stable busy s (foldl f s l).
Proof.
  intros Hb Hf. revert s Hb. induction l as [|a l IH]; intros s Hb; [by apply stable_refl|]. simpl.
  eapply stable_trans; [by apply Hf|]. intros Hb'. by apply IH.
Qed.

Lemma syncZone_stable busy now r s : books busy s -> r ∉ en_inflight s -> stable busy s (syncZone tn now r s).
Proof.
  intros Hb Hr. destruct (syncZone_cases now r s) as [->|[(Hd & Hc & ->)|(cursor & Hd & Hc & Ho & ->)]].
  - by apply stable_refl.
  - split; [by apply books_failures, books_status|split; [|by destruct s]].
    intros Hok. apply health_set; [left; split; [done|lia]|done..].
  - split; [by eapply books_start|split; [|by eapply keeps_start]].
    intros Hok. eapply health_ext; [..|exact Hok]; by destruct s.
Qed.

Lemma syncAll_stable busy now s : books busy s -> stable busy s (syncAll tn now s).
Proof.
  intros Hb. unfold syncAll. case_match; [by apply stable_refl|]. apply stable_foldl; [done|].
  intros s' r Hb'. destruct (s_has r (en_inflight s')) eqn:Hi; [by apply stable_refl|].
  apply syncZone_stable; [done|by apply s_has_false].
Qed.

(** ** Commands *)

Lemma m_has_delete {V : Type} r r' (o : list (string * V)) :
  m_has r' (m_delete r o) = if decide (r = r') then false else m_has r' o.
Proof. unfold m_has. rewrite m_get_delete. by case_decide. Qed.

Lemma drop_slot_books busy r s :
  books busy s -> is_Some (m_get r (en_outstandingFetches s)) ->
  books busy (emit (Fx_reset r) (with_outstanding (m_delete r (en_outstandingFetches s)) s)).
Proof.
  intros [Bt Bs Bw Bi Bb Bc Bn] Ho. constructor; try by destruct s.
  - intros r' t tok Hg. destruct s; simpl in *. rewrite m_get_delete in Hg. case_decide; [done|by apply (Bs r' t)].
  - intros r'. rewrite resets_emit. specialize (Bn r').
    destruct s; unfold fetches_of, slot, resets in *; simpl in *. rewrite m_has_delete.
    destruct (decide (r = r')) as [->|Hne]; [|lia]. unfold m_has in Bn.
    destruct Ho as [x Ho]. rewrite Ho in Bn. simpl in Bn. lia.
Qed.

Lemma forceReset_stable busy r s : books busy s -> stable busy s (forceResetZone r s).2.
Proof.
  intros Hb. unfold forceResetZone. destruct (m_get r (en_outstandingFetches s)) as [p|] eqn:Ho; [|by apply stable_refl].
  cbn [snd]. set (s1 := with_failures r 0 (with_outstanding (m_delete r (en_outstandingFetches s)) s)).
  assert (Hb1 : books busy (emit (Fx_reset r) s1)).
  { assert (emit (Fx_reset r) s1 = with_failures r 0 (emit (Fx_reset r) (with_outstanding (m_delete r (en_outstandingFetches s)) s)))
      as -> by by destruct s. by apply books_failures, drop_slot_books; [|eexists]. }
  split; [|split].
  - assert (Hsw : emit (Fx_reset r) (with_status r Zs_active s1) = with_status r Zs_active (emit (Fx_reset r) s1)) by by destruct s.
    destruct (m_has r (en_statuses s1)); [rewrite Hsw; by apply books_status|done].
  - intros Hok. destruct (m_has r (en_statuses s1)) eqn:Hs1.
    + assert (Hst : is_Some (m_get r (en_statuses s))) by (apply m_has_spec; by destruct s).
      destruct (decide (en_disposed s = false)) as [Hd|Hd].
      * eapply (health_ext (with_failures r 0 (with_status r Zs_active s))); try by destruct s.
        apply health_set; [right; split; [done|]|by apply Hok|done]. destruct Hok as [Hp _]. lia.
      * split_and!; [by apply Hok|intros Hd'; destruct Hd; by destruct s|intros Hd'; destruct Hd; by destruct s].
    + assert (Hst : m_get r (en_statuses s) = None) by (apply m_has_false; by destruct s).
      destruct Hok as (Hp & Hh & Hk). split_and!; [done| |intros Hd; destruct s; exact (Hk Hd)].
      intros Hd r' Hr'. assert (Hne : r ≠ r') by (intros ->; destruct s; simpl in *; rewrite Hst in Hr'; by destruct Hr').
      assert (Hz : healthy_zone r' s) by (apply Hh; by destruct s).
      destruct s; unfold healthy_zone, getFailures in *; simpl in *. by rewrite m_get_set_ne.
  - destruct (m_has r (en_statuses s1)); by destruct s.
Qed.

Lemma dispose_stable busy s : books busy s -> stable busy s (asyncDispose tn s).
Proof.
  intros [Bt Bs Bw Bi Bb Bc Bn].
  assert (Hr : forall r, resets r (asyncDispose tn s) = resets r s).
  { intros r. destruct s. unfold resets. simpl. case_match; [|done]. rewrite filter_app, length_app. simpl. lia. }
  split; [|split].
  - constructor; try by destruct s. intros r. rewrite Hr. specialize (Bn r). by destruct s.
  - intros [Hp _]. split_and!; [done|intros Hd; by destruct s|intros Hd; by destruct s].
  - destruct s; by split_and!.
Qed.

Lemma command_stable busy now s c : books busy s -> stable busy s (run_command tn now s c).
Proof.
  intros Hb. destruct c; cbn [run_command].
  - by apply syncAll_stable.
  - by apply forceReset_stable.
  - split; [by apply books_handlers|split; [|by destruct s]]. intros Hok. eapply health_ext; [..|exact Hok]; by destruct s.
  - split; [by apply books_handlers|split; [|by destruct s]]. intros Hok. eapply health_ext; [..|exact Hok]; by destruct s.
  - split; [by apply books_conflictHandlers|split; [|by destruct s]]. intros Hok. eapply health_ext; [..|exact Hok]; by destruct s.
  - split; [by apply books_conflictHandlers|split; [|by destruct s]]. intros Hok. eapply health_ext; [..|exact Hok]; by destruct s.
  - by apply dispose_stable.
Qed.

Lemma emit_stable busy e s : books busy s -> stable busy s (emit e s).
Proof.
  intros Hb. split; [by apply books_emit|split; [|by destruct s]].
  intros Hok. eapply health_ext; [..|exact Hok]; by destruct s.
Qed.

Lemma commands_emit_stable busy now cs e s : books busy s -> stable busy s (emit e (foldl (run_command tn now) s cs)).
Proof.
  intros Hb. eapply stable_trans; [|apply emit_stable].
  apply stable_foldl; [done|]. intros. by apply command_stable.
Qed.

(** ** Subscribers *)

Lemma notify_stable busy now subs event s :
  books busy s -> stable busy s (notifyHandlers tn now subs event s).1.
Proof.
  intros Hb. unfold notifyHandlers. generalize true. generalize (en_handlers s). intros hs. revert s Hb.
  induction hs as [|h hs IH]; intros s Hb ok; [by apply stable_refl|]. cbn [foldl].
  destruct (on_event subs h event) as [cs acc].
  eapply stable_trans; [by apply (commands_emit_stable busy now cs (Fx_deliver h event acc))|].
  intros Hb'. by apply IH.
Qed.

Lemma deliver_stable busy now subs events k s :
  books busy s -> stable busy s (deliver tn now subs events k s).1.1.
Proof.
  revert k s. induction events as [|e events IH]; intros k s Hb; [by apply stable_refl|]. cbn [deliver].
  pose proof (notify_stable busy now subs e s Hb) as Hn. destruct (notifyHandlers tn now subs e s) as [s' []]; [|done].
  eapply stable_trans; [done|]. intros Hb'. by apply IH.
Qed.

Lemma report_stable busy now subs events s :
  books busy s -> stable busy s (reportConflicts tn now subs events s).
Proof.
  intros Hb. unfold reportConflicts. apply stable_foldl; [done|]. intros s1 remote Hb1.
  apply stable_foldl; [done|]. intros s2 local Hb2. unfold report_one. case_match; [|by apply stable_refl].
  eapply stable_trans; [|intros Hb'; apply stable_foldl; [done|intros s3 h Hb3; by apply commands_emit_stable]].
  split; [by apply books_reports|split; [|by destruct s2]]. intros Hok. eapply health_ext; [..|exact Hok]; by destruct s2.
Qed.

Lemma bump_stable busy r s : books busy s -> (en_disposed s = false -> is_Some (m_get r (en_cursors s))) -> stable busy s (bumpFailure tn r s).
Proof.
  intros Hb Hc. split; [by apply books_bump|split; [|apply keeps_bump]].
  intros Hok. destruct (decide (en_disposed s = false)) as [Hd|Hd]; [by apply health_bump; auto|].
  assert (Hd' : en_disposed (bumpFailure tn r s) = en_disposed s).
  { unfold bumpFailure. case_match; by destruct s. }
  split_and!; [by apply Hok|intros Hx; congruence|intros Hx; congruence].
Qed.

Lemma reset_stable busy r s : books busy s -> (en_disposed s = false -> is_Some (m_get r (en_cursors s))) -> stable busy s (reset_health r s).
Proof.
  intros Hb Hc. split; [by apply books_reset_health|split; [|apply keeps_reset_health]].
  intros Hok. destruct (decide (en_disposed s = false)) as [Hd|Hd]; [by apply health_reset; auto|].
  split_and!; [by apply Hok|intros Hx; destruct Hd; by destruct s|intros Hx; destruct Hd; by destruct s].
Qed.

End Inv.
