(* ===== verification/SyncEngineSpec.v ===== *)
(** * What the sync engine guarantees

    The abstract state of a remote zone is its history: the events accepted from
    it so far.  Every step of the engine appends to it or leaves it alone; cursor,
    log and count of evicted events are functions of it. *)

From S2P Require Import Prelude JsMap Text Canonical VectorClock SyncEngine SyncBatch SyncEngineInv.

Local Open Scope list_scope.
Local Open Scope Z_scope.

Section Spec.
Context {H C : Type} {HEq : EqDecision H} {CEq : EqDecision C}.
Context (tn : Tunables).

Notation Engine := (Engine H C).
Implicit Types s : Engine.

(** ** The trace of deliveries *)

Definition is_delivery (e : SyncEffect H C) : Prop := match e with Fx_deliver _ _ _ => True | _ => False end.

(** The trace grows by entries with a property. *)
Definition emits (P : SyncEffect H C -> Prop) s s' : Prop := exists new, en_trace s' = en_trace s ++ new /\ Forall P new.

#[export] Instance emits_preorder P : PreOrder (emits P).
Proof.
  split; [intros s; exists []; by rewrite app_nil_r|].
  intros s1 s2 s3 (n1 & E1 & F1) (n2 & E2 & F2). exists (n1 ++ n2). rewrite E2, E1, app_assoc. split; [done|by apply Forall_app].
Qed.

Lemma emits_same P s s' : en_trace s' = en_trace s -> emits P s s'.
Proof. intros Ht. exists []. by rewrite app_nil_r. Qed.

Lemma emits_emit (P : SyncEffect H C -> Prop) e s : P e -> emits P s (emit e s).
Proof. intros He. exists [e]. split; [by destruct s|by constructor]. Qed.

Lemma emits_foldl {A : Type} P (f : Engine -> A -> Engine) l s :
  (forall s a, emits P s (f s a)) -> emits P s (foldl f s l).
Proof.
  intros Hf. revert s. induction l as [|a l IH]; intros s; [reflexivity|]. simpl. etrans; [apply Hf|apply IH].
Qed.

Lemma emits_weaken (P Q : SyncEffect H C -> Prop) s s' : (forall e, P e -> Q e) -> emits P s s' -> emits Q s s'.
Proof. intros HPQ (n & E & F). exists n. split; [done|by eapply Forall_impl]. Qed.

Definition quiet := emits (fun e => ~ is_delivery e).

Lemma command_quiet now s c : quiet s (run_command tn now s c).
Proof.
  unfold quiet. destruct c; cbn [run_command]; try (apply emits_same; by destruct s).
  - unfold syncAll. case_match; [reflexivity|]. apply emits_foldl. intros s1 r. case_match; [reflexivity|].
    destruct (syncZone_cases tn now r s1) as [->|[(_ & _ & ->)|(cursor & _ & _ & _ & ->)]].
    + reflexivity.
    + apply emits_same. by destruct s1.
    + exists [Fx_fetchDelta r cursor]. split; [by destruct s1|]. constructor; [by intros []|done].
  - unfold forceResetZone. case_match; [|reflexivity]. cbn [snd].
    eexists [Fx_reset zone]. split; [case_match; by destruct s|]. constructor; [by intros []|done].
  - destruct s. unfold asyncDispose. destruct (tn_hub tn).
    + exists [Fx_zoneDisconnect]. split; [done|]. constructor; [by intros []|done].
    + by apply emits_same.
Qed.

(** A delivery of [event], accepted if [ok]. *)
Definition delivers (event : FederationSyncEvent) (ok : bool) (e : SyncEffect H C) : Prop :=
  match e with Fx_deliver _ event' acc => event' = event /\ (ok = true -> acc = true) | _ => True end.

Lemma notify_emits now subs event s :
  emits (delivers event (notifyHandlers tn now subs event s).2) s (notifyHandlers tn now subs event s).1.
Proof.
  unfold notifyHandlers.
  assert (Hg : forall hs s ok,
    let res := foldl (fun '(s, allOk) handler =>
        let '(commands, accepted) := on_event subs handler event in
        (emit (Fx_deliver handler event accepted) (foldl (run_command tn now) s commands), allOk && accepted))
      (s, ok) hs in
    (res.2 = true -> ok = true) /\ emits (delivers event res.2) s res.1); [|apply Hg].
  clear s. intros hs. induction hs as [|h hs IH]; intros s ok; cbn [foldl]; [split; [done|reflexivity]|].
  destruct (on_event subs h event) as [cs acc]. specialize (IH (emit (Fx_deliver h event acc) (foldl (run_command tn now) s cs)) (ok && acc)).
  cbv zeta in IH |- *. destruct IH as [Hok Hem]. split; [intros Hr; by apply Hok, andb_true_iff in Hr as [? _]|].
  etrans; [|exact Hem]. etrans; [|apply emits_emit].
  - eapply emits_weaken; [|apply emits_foldl; intros; apply command_quiet]. by intros [].
  - split; [done|]. intros Hr. by apply Hok, andb_true_iff in Hr as [_ ?].
Qed.

(** What the delivery loop hands over: a prefix of the events; a subscriber
    refuses none of them. *)
Lemma deliver_spec now subs events k s :
  let '(s', k', failed) := deliver tn now subs events k s in
  (k <= k' <= k + length events)%nat /\ (failed = false -> k' = (k + length events)%nat) /\
  emits (fun e => match e with Fx_deliver _ event false => event ∈ drop (k' - k) events | _ => True end) s s'.
Proof.
  revert k s. induction events as [|event events IH]; intros k s; cbn [deliver].
  { simpl. split_and!; [lia|lia|lia|]. reflexivity. }
  pose proof (notify_emits now subs event s) as Hn. destruct (notifyHandlers tn now subs event s) as [s1 []]; cbn [fst snd] in Hn.
  - specialize (IH (S k) s1). destruct (deliver tn now subs events (S k) s1) as [[s' k'] failed].
    destruct IH as (Hk & Hf & Hem). simpl. split_and!; [lia|lia|intros Hx; rewrite Hf by done; lia|].
    replace (k' - k)%nat with (S (k' - S k)) by lia. etrans; [|exact Hem].
    eapply emits_weaken; [|exact Hn]. intros [zone c|h e []|c rep|zone|]; try done. intros [_ Hx]. by specialize (Hx eq_refl).
  - simpl. split_and!; [lia|lia|done|]. rewrite Nat.sub_diag. eapply emits_weaken; [|exact Hn].
    intros [zone c|h e []|c rep|zone|]; try done. intros [-> _]. simpl. set_solver.
Qed.

(** ** Histories *)

Definition zone_data (r : string) s : option SyncCursor * list FederationSyncEvent * Z :=
  (m_get r (en_cursors s), getLog r s, getTruncatedCount r s).

(** How many events the ring buffer has evicted from a history of [n]. *)
Definition evicted (n : nat) : Z := match tn_logMax tn with Some cap => Z.max 0 (Z.of_nat n - cap) | None => 0 end.

(** The abstraction: what cursor, log and count say about a history that began
    at the cursor [c0]. *)
Record zone_history (c0 : SyncCursor) (r : string) (hist : list FederationSyncEvent) s : Prop := mkHistory {
  zh_contiguous : contiguous (sy_lastSequence c0) hist;
  zh_origin : Forall (fun e => ev_originZoneId e = r) hist;
  zh_cursor : exists c, m_get r (en_cursors s) = Some c /\ sy_zoneId c = sy_zoneId c0 /\
    sy_lastSequence c = sy_lastSequence c0 + Z.of_nat (length hist) /\
    default [] (sy_vectorClock c) = clocks_of (default [] (sy_vectorClock c0)) hist;
  zh_truncated : getTruncatedCount r s = evicted (length hist);
  zh_log : getLog r s = drop (Z.to_nat (evicted (length hist))) hist
}.

Definition ring (merged : list FederationSyncEvent) (count : Z) : list FederationSyncEvent * Z :=
  match tn_logMax tn with
  | Some cap =>
      if cap <? Z.of_nat (length merged) then
        (drop (Z.to_nat (Z.of_nat (length merged) - cap)) merged, count + (Z.of_nat (length merged) - cap))
      else (merged, count)
  | None => (merged, count)
  end.

Lemma append_log_data r acc s :
  (getLog r (append_log tn r acc s), getTruncatedCount r (append_log tn r acc s)) = ring (getLog r s ++ acc) (getTruncatedCount r s) /\
  (forall r', r' ≠ r -> zone_data r' (append_log tn r acc s) = zone_data r' s) /\
  m_get r (en_cursors (append_log tn r acc s)) = m_get r (en_cursors s).
Proof.
  unfold append_log, ring, zone_data, getLog, getTruncatedCount. destruct s. simpl.
  repeat case_match; simpl; rewrite ?m_get_set_eq; simpl; split_and!; try done; intros r' Hr; by rewrite ?m_get_set_ne.
Qed.

(** The log of a history is what the ring buffer makes of it. *)
Lemma ring_history hist acc :
  (forall cap, tn_logMax tn = Some cap -> 0 <= cap) ->
  ring (drop (Z.to_nat (evicted (length hist))) hist ++ acc) (evicted (length hist)) =
  (drop (Z.to_nat (evicted (length (hist ++ acc)))) (hist ++ acc), evicted (length (hist ++ acc))).
Proof.
  intros Hcap. unfold ring, evicted. destruct (tn_logMax tn) as [cap|]; [|done]. specialize (Hcap cap eq_refl).
  rewrite !length_app, length_drop.
  destruct (Z.ltb_spec cap (Z.of_nat (length hist - Z.to_nat (Z.max 0 (Z.of_nat (length hist) - cap)) + length acc))) as [Hlt|Hle].
  - f_equal; [|lia]. rewrite <-(drop_app_le hist acc) by lia. rewrite drop_drop. f_equal. lia.
  - assert (Hs : (length hist + length acc <= Z.to_nat cap \/ length acc = 0)%nat) by lia.
    destruct Hs as [Hs|Hs].
    + rewrite !Z.max_l by lia. simpl. f_equal.
    + apply nil_length_inv in Hs. subst acc. rewrite !app_nil_r. simpl. by rewrite Nat.add_0_r.
Qed.

(** What a step does to one zone: [acc] are the events it accepts from [r]. *)
Record accepts (r : string) (acc : list FederationSyncEvent) s s' : Prop := mkAccepts {
  ac_cursor : forall c, m_get r (en_cursors s) = Some c -> contiguous (sy_lastSequence c) acc /\
    exists c', m_get r (en_cursors s') = Some c' /\ sy_zoneId c' = sy_zoneId c /\
      sy_lastSequence c' = sy_lastSequence c + Z.of_nat (length acc) /\
      default [] (sy_vectorClock c') = clocks_of (default [] (sy_vectorClock c)) acc;
  ac_origin : Forall (fun e => ev_originZoneId e = r) acc;
  ac_log : acc ≠ [] -> (getLog r s', getTruncatedCount r s') = ring (getLog r s ++ acc) (getTruncatedCount r s);
  ac_none : acc = [] -> getLog r s' = getLog r s /\ getTruncatedCount r s' = getTruncatedCount r s
}.

Lemma accepts_history c0 r hist acc s s' :
  (forall cap, tn_logMax tn = Some cap -> 0 <= cap) ->
  zone_history c0 r hist s -> accepts r acc s s' -> zone_history c0 r (hist ++ acc) s'.
Proof.
  intros Hcap [Hc Ho (c & Hg & Hz & Hl & Hv) Ht Hlog] [Ac Ao Al An].
  destruct (Ac c Hg) as (Hca & c' & Hg' & Hz' & Hl' & Hv').
  assert (Hring : (getLog r s', getTruncatedCount r s') =
    (drop (Z.to_nat (evicted (length (hist ++ acc)))) (hist ++ acc), evicted (length (hist ++ acc)))).
  { destruct (decide (acc = [])) as [->|Hne].
    - destruct (An eq_refl) as [-> ->]. by rewrite app_nil_r, Ht, Hlog.
    - rewrite (Al Hne), Ht, Hlog. by apply ring_history. }
  injection Hring as Hr1 Hr2. constructor; [|by apply Forall_app| |done|done].
  - apply contiguous_app. by rewrite <-Hl.
  - exists c'. rewrite Hz', Hl', Hv', Hl, Hv, length_app. split_and!; [done..|lia|]. unfold clocks_of. by rewrite foldl_app.
Qed.

Lemma accepts_nothing r s s' : zone_data r s' = zone_data r s -> accepts r [] s s'.
Proof.
  intros Hd. injection Hd as H1 H2 H3. constructor; [|by constructor|done|done].
  intros c Hc. split; [done|]. exists c. rewrite H1. split_and!; [done..|simpl; lia|done].
Qed.

(** ** One batch *)

Lemma zone_data_keeps r s s' : keeps s s' -> en_disposed s' = false -> zone_data r s' = zone_data r s.
Proof. intros (_ & Hk & _) Hd. unfold zone_data, getLog, getTruncatedCount. by destruct (Hk Hd) as (-> & -> & ->). Qed.

Lemma keeps_disposed s s' : keeps s s' -> en_disposed s' = false -> en_disposed s = false.
Proof. intros (Hd & _) Hn. destruct (en_disposed s); [by rewrite Hd in Hn|done]. Qed.

Lemma books_cursor busy r c s : r ∈ busy -> books busy s -> books busy (with_cursor r c s).
Proof.
  intros Hr [Bt Bs Bw Bi Bb Bc Bn]. constructor; try by destruct s.
  intros Hd r' c' tok Hw. destruct s; simpl in *. rewrite m_get_set_ne; [by eapply Bc|].
  intros ->. rewrite Bb in Hw; done.
Qed.

Lemma health_cursor r c s :
  (en_disposed s = false -> is_Some (m_get r (en_cursors s))) -> health_ok tn s -> health_ok tn (with_cursor r c s).
Proof.
  intros Hc (Hp & Hh & Hk). split_and!; [done|intros Hd; destruct s; by apply Hh|].
  intros Hd r'. destruct s; simpl in *. rewrite m_get_set. case_decide as Hq; [subst|by apply Hk].
  split; [intros _; apply Hk; auto|by eexists].
Qed.

Lemma bump_trace r s : en_trace (bumpFailure tn r s) = en_trace s.
Proof. unfold bumpFailure. case_match; by destruct s. Qed.

Lemma append_trace r acc s : en_trace (append_log tn r acc s) = en_trace s.
Proof. unfold append_log. repeat case_match; by destruct s. Qed.

Lemma append_disposed r acc s : en_disposed (append_log tn r acc s) = en_disposed s.
Proof. unfold append_log. repeat case_match; by destruct s. Qed.

Lemma append_books busy r acc s : books busy s -> books busy (append_log tn r acc s).
Proof. intros Hb. unfold append_log. repeat case_match; auto using books_log, books_truncated. Qed.

Lemma append_health r acc s : health_ok tn s -> health_ok tn (append_log tn r acc s).
Proof. intros Hok. eapply health_ext; [..|exact Hok]; unfold append_log; repeat case_match; by destruct s. Qed.

Lemma notifyConflict_quiet now subs rep s : quiet s (notifyConflictHandlers tn now subs rep s).
Proof.
  unfold notifyConflictHandlers. apply emits_foldl. intros s1 h.
  assert (Hc : quiet s1 (foldl (run_command tn now) s1 (on_conflict subs h rep))) by (apply emits_foldl; intros; apply command_quiet).
  etrans; [exact Hc|]. apply emits_emit. by intros [].
Qed.

Lemma report_quiet now subs events s : quiet s (reportConflicts tn now subs events s).
Proof.
  unfold reportConflicts. apply emits_foldl. intros s1 remote. apply emits_foldl. intros s2 local.
  unfold report_one. case_match; [|reflexivity]. etrans; [|apply notifyConflict_quiet].
  apply emits_same. by destruct s2.
Qed.

(** The subscribers refused none of [acc]. *)
Definition unrefused (acc : list FederationSyncEvent) : Engine -> Engine -> Prop :=
  emits (fun e => match e with Fx_deliver _ event false => event ∉ acc | _ => True end).

Lemma quiet_unrefused acc s s' : quiet s s' -> unrefused acc s s'.
Proof. apply emits_weaken. by intros [zone c|h e []|c rep|zone|] Hq; try done; destruct Hq. Qed.

(** The outcome of a batch [value] for the zone [r]. *)
Definition batch_outcome (r : string) (value : list FederationSyncEvent) s s' : Prop :=
  books [r] s' /\ (health_ok tn s -> health_ok tn s') /\ (en_disposed s = true -> en_disposed s' = true) /\
  (en_disposed s' = false ->
     (forall r', r' ≠ r -> zone_data r' s' = zone_data r' s) /\
     exists acc, accepts r acc s s' /\ (forall e, e ∈ acc -> e ∈ value) /\ unrefused acc s s').

Lemma stable_outcome r value s s' : stable tn [r] s s' -> unrefused [] s s' -> batch_outcome r value s s'.
Proof.
  intros (Hb & Hh & Hk) Hu. split_and!; [done|done|apply Hk|]. intros Hd.
  split; [intros r' _; by apply zone_data_keeps|]. exists []. split_and!; [|set_solver|done].
  by apply accepts_nothing, zone_data_keeps.
Qed.

Lemma bump_outcome r value s :
  books [r] s -> is_Some (m_get r (en_cursors s)) -> batch_outcome r value s (bumpFailure tn r s).
Proof. intros Hb Hc. apply stable_outcome; [by apply bump_stable|]. apply emits_same, bump_trace. Qed.

Lemma zone_data_cursor r r' c s : r' ≠ r -> zone_data r' (with_cursor r c s) = zone_data r' s.
Proof. intros Hne. destruct s. unfold zone_data, getLog, getTruncatedCount. simpl. by rewrite m_get_set_ne. Qed.

(** Advancing the cursor and the log over what the subscribers accepted. *)
Lemma commit_outcome now subs r cursor value acc s s1 c :
  stable tn [r] s s1 -> unrefused acc s s1 -> en_disposed s = false -> m_get r (en_cursors s) = Some cursor ->
  (forall e, e ∈ acc -> e ∈ value /\ ev_originZoneId e = r) -> acc ≠ [] ->
  contiguous (sy_lastSequence cursor) acc -> sy_zoneId c = sy_zoneId cursor ->
  sy_lastSequence c = sy_lastSequence cursor + Z.of_nat (length acc) ->
  default [] (sy_vectorClock c) = clocks_of (default [] (sy_vectorClock cursor)) acc ->
  batch_outcome r value s (append_log tn r acc (reportConflicts tn now subs acc (with_cursor r c s1))).
Proof.
  intros (B1 & H1 & K1) Hu Hd0 Hcur Hacc Hne Hcon Hz Hl Hv.
  set (s2 := with_cursor r c s1). assert (B2 : books [r] s2) by (apply books_cursor; [left|done]).
  pose proof (report_stable tn [r] now subs acc s2 B2) as (B3 & H3 & K3). set (s3 := reportConflicts tn now subs acc s2) in *.
  assert (Hd2 : en_disposed s2 = en_disposed s1) by (unfold s2; by destruct s1).
  split_and!; [by apply append_books| |congruence|].
  - intros Hok. apply append_health, H3, health_cursor; [|by apply H1].
    intros Hd1. destruct K1 as (_ & K1 & _). rewrite (proj1 (K1 Hd1)). by eexists.
  - rewrite append_disposed. intros Hd3. assert (Hd1 : en_disposed s1 = false) by (rewrite <-Hd2; by eapply keeps_disposed).
    destruct (append_log_data r acc s3) as (Hlog & Hoth & Hc). split.
    + intros r' Hr'. rewrite Hoth by done. rewrite (zone_data_keeps r' s2 s3) by done. unfold s2.
      rewrite zone_data_cursor by done. by apply zone_data_keeps.
    + exists acc. split_and!; [constructor| |].
      * intros c0 Hc0. rewrite Hcur in Hc0. injection Hc0 as <-. split; [done|]. exists c. rewrite Hc. split_and!; try done.
        assert (Hg := zone_data_keeps r s2 s3 K3 Hd3). injection Hg as -> _ _. unfold s2. destruct s1; simpl. apply m_get_set_eq.
      * apply Forall_forall. intros e He. by apply Hacc.
      * intros _. rewrite Hlog. assert (Hg := zone_data_keeps r s2 s3 K3 Hd3). injection Hg as _ -> ->.
        assert (Hg := zone_data_keeps r s s1 K1 Hd1). injection Hg as _ Hg1 Hg2. unfold s2.
        rewrite <-Hg1, <-Hg2. by destruct s1.
      * done.
      * intros e He. by apply Hacc.
      * etrans; [exact Hu|]. etrans; [|by apply emits_same, append_trace].
        etrans; [|apply quiet_unrefused, report_quiet]. apply emits_same. by destruct s1.
Qed.

(** A batch from which nothing is new. *)
Lemma empty_outcome now r cursor value s :
  books [r] s -> en_disposed s = false -> m_get r (en_cursors s) = Some cursor ->
  batch_outcome r value s
    (match advanceCursor cursor [] now with Ok c => with_cursor r c (reset_health r s) | Err _ => reset_health r s end).
Proof.
  intros Hb Hd Hc. assert (Hsome : is_Some (m_get r (en_cursors s))) by by eexists.
  pose proof (reset_stable tn [r] r s Hb (fun _ => Hsome)) as (B1 & H1 & K1).
  pose proof (advanceCursor_spec cursor [] now) as Ha. cbv zeta in Ha. cbn [deduplicateEvents] in Ha.
  destruct (advanceCursor cursor [] now) as [c|e]; [|by destruct Ha as [[] _]]. destruct Ha as [_ ->].
  split_and!; [apply books_cursor; [left|done]| |by destruct s|].
  - intros Hok. apply health_cursor; [intros _; by destruct s|by apply H1].
  - intros _. split.
    + intros r' Hr'. rewrite zone_data_cursor by done. by destruct s.
    + exists []. split_and!; [|set_solver|apply emits_same; by destruct s].
      constructor; [|by constructor|done|intros _; by destruct s].
      intros c Hc'. rewrite Hc in Hc'. injection Hc' as <-. split; [done|].
      eexists. split; [destruct s; apply m_get_set_eq|]. by split_and!.
Qed.

Lemma process_outcome now subs r cursor value s :
  books [r] s -> en_disposed s = false -> m_get r (en_cursors s) = Some cursor ->
  batch_outcome r value s (process_batch tn now subs r cursor value s).
Proof.
  intros Hb Hd Hc. assert (Hsome : is_Some (m_get r (en_cursors s))) by by eexists.
  pose proof (bump_outcome r value s Hb Hsome) as Hbump. unfold process_batch.
  destruct (existsb _ value) eqn:Hspoof; [done|].
  assert (Horigin : forall e, e ∈ value -> ev_originZoneId e = r).
  { intros e He. destruct (decide (ev_originZoneId e = r)) as [|Hne]; [done|]. exfalso.
    enough (existsb (fun e => negb (bool_decide (ev_originZoneId e = r))) value = true) by congruence.
    apply existsb_exists. exists e. split; [by apply list_elem_of_In|]. by rewrite bool_decide_false. }
  set (new := deduplicateEvents value cursor). destruct (decide (length new = 0%nat)) as [_|_]; [by apply empty_outcome|].
  pose proof (validate_spec new (sy_lastSequence cursor)) as Hval.
  destruct (validateV1Batch new (sy_lastSequence cursor)) as [ok deliverable]. destruct Hval as (Hsub & Hcon & _).
  destruct (negb ok && tn_strictV1 tn); [done|]. case_decide as Hlen; [done|].
  pose proof (deliver_stable tn [r] now subs deliverable 0 s Hb) as Hst.
  pose proof (deliver_spec now subs deliverable 0 s) as Hdel.
  destruct (deliver tn now subs deliverable 0 s) as [[s1 k] failed]. cbn [fst] in Hst.
  destruct Hdel as (_ & _ & Hem). rewrite Nat.sub_0_r in Hem.
  set (acc := take k deliverable).
  assert (Hu1 : unrefused acc s s1).
  { eapply emits_weaken; [|exact Hem]. intros [zone c|h e []|c rep|zone|]; try done. intros Hin Hacc.
    pose proof (contiguous_NoDup _ _ Hcon) as Hnd. rewrite <-(take_drop k deliverable) in Hnd.
    apply NoDup_app in Hnd as (_ & Hnd & _). by apply (Hnd e). }
  set (s2 := if failed then bumpFailure tn r s1 else reset_health r s1).
  assert (Hst2 : stable tn [r] s s2).
  { eapply stable_trans; [exact Hst|]. intros Hb1. destruct Hst as (_ & _ & K1).
    assert (Hs1 : en_disposed s1 = false -> is_Some (m_get r (en_cursors s1))).
    { intros Hd1. destruct K1 as (_ & K1 & _). rewrite (proj1 (K1 Hd1)). done. }
    unfold s2. destruct failed; [by apply bump_stable|by apply reset_stable]. }
  assert (Hu2 : unrefused acc s s2).
  { etrans; [exact Hu1|]. apply emits_same. unfold s2. destruct failed; [apply bump_trace|by destruct s1]. }
  case_decide as Hk.
  { apply nil_length_inv in Hk. apply stable_outcome; [done|]. by rewrite <-Hk. }
  assert (Hcacc : contiguous (sy_lastSequence cursor) acc).
  { rewrite <-(take_drop k deliverable) in Hcon. by apply contiguous_app in Hcon as [? _]. }
  assert (Hacc : forall e, e ∈ acc -> e ∈ new).
  { intros e He. apply Hsub. rewrite <-(take_drop k deliverable). apply elem_of_app. by left. }
  assert (Hdedup : deduplicateEvents acc cursor = acc).
  { unfold deduplicateEvents. apply filter_all. intros e He. apply Z.ltb_lt. by apply (contiguous_range _ _ _ Hcacc). }
  pose proof (advanceCursor_spec cursor acc now) as Hadv. cbv zeta in Hadv. rewrite Hdedup in Hadv.
  destruct (advanceCursor cursor acc now) as [c|e]; [|by destruct Hadv]. destruct Hadv as [_ ->].
  apply (commit_outcome now subs r cursor); try done.
  - intros e He%Hacc. unfold new, deduplicateEvents in He. apply list_elem_of_filter in He as [_ He]. auto.
  - by intros ->.
Qed.

(** ** One step *)

(** [settle] before it resumes [syncZone]. *)
Definition unfetch (tok : nat) (r : string) s : Engine :=
  let s := with_fetches (m_delete tok (en_fetches s)) s in
  match m_get r (en_outstandingFetches s) with
  | Some (_, current) =>
      if decide (current = tok) then with_outstanding (m_delete r (en_outstandingFetches s)) s else s
  | None => s
  end.

Lemma length_filter_delete tok r (fe : list (nat * string)) r' :
  m_get tok fe = Some r ->
  (length (filter (fun f => f.2 = r') (m_delete tok fe)) + (if decide (r = r') then 1 else 0)
   <= length (filter (fun f => f.2 = r') fe))%nat.
Proof.
  intros Hg. unfold m_delete.
  assert (Hle : forall fe : list (nat * string),
    (length (filter (fun f => f.2 = r') (filter (fun p => p.1 ≠ tok) fe)) <= length (filter (fun f => f.2 = r') fe))%nat).
  { intros l. induction l as [|f l IH]; [done|]. rewrite filter_cons. destruct (decide (f.1 ≠ tok)).
    - rewrite !filter_cons. case_decide; simpl; lia.
    - rewrite (filter_cons _ f l). case_decide; simpl; lia. }
  revert Hg. induction fe as [|[t z] fe IH]; [done|]. cbn [m_get]. intros Hg.
  rewrite filter_cons. simpl. destruct (decide (tok = t)) as [<-|Hne].
  - injection Hg as ->. destruct (decide (tok ≠ tok)) as [|_]; [done|]. rewrite (filter_cons _ (tok, r)). simpl.
    specialize (Hle fe). case_decide; simpl; lia.
  - destruct (decide (t ≠ tok)) as [_|Hx]; [|destruct Hx; congruence].
    rewrite !filter_cons. simpl. specialize (IH Hg). destruct (decide (z = r')); simpl; lia.
Qed.

Lemma unfetch_books busy tok r w s :
  books [] s -> m_get tok (en_fetches s) = Some r ->
  (forall r' c t, m_get r' w = Some (c, t) -> m_get r' (en_waiting s) = Some (c, t) /\ t ≠ tok) ->
  (forall r', r' ∈ en_inflight s <-> is_Some (m_get r' w) \/ r' ∈ busy) ->
  (forall r', r' ∈ busy -> m_get r' w = None) ->
  books busy (with_waiting w (unfetch tok r s)).
Proof.
  intros [Bt Bs Bw Bi Bb Bc Bn] Hf Hw Hi Hbusy.
  assert (Hsame : forall (P : Engine -> Prop), (forall o, P (with_outstanding o (with_fetches (m_delete tok (en_fetches s)) s))) -> P (unfetch tok r s)).
  { intros P HP. unfold unfetch. repeat case_match; try apply HP.
    all: specialize (HP (en_outstandingFetches s)); by destruct s. }
  assert (Hout : forall r' t t', m_get r' (en_outstandingFetches (unfetch tok r s)) = Some (t, t') ->
     m_get r' (en_outstandingFetches s) = Some (t, t') /\ t' ≠ tok).
  { intros r' t t' Hg. unfold unfetch in Hg.
    assert (Ho : forall r0, m_get r0 (en_outstandingFetches (with_fetches (m_delete tok (en_fetches s)) s)) = m_get r0 (en_outstandingFetches s)) by (by destruct s).
    rewrite Ho in Hg. destruct (m_get r (en_outstandingFetches s)) as [[t0 cur]|] eqn:Hr; [destruct (decide (cur = tok)) as [->|Hne]|].
    - destruct s; simpl in *. rewrite m_get_delete in Hg. case_decide as Hq; [done|]. split; [done|].
      intros ->. apply Bs in Hg. congruence.
    - rewrite Ho in Hg. split; [done|]. intros ->. pose proof (Bs _ _ _ Hg). assert (r' = r) as -> by congruence. congruence.
    - rewrite Ho in Hg. split; [done|]. intros ->. pose proof (Bs _ _ _ Hg). assert (r' = r) as -> by congruence. congruence. }
  constructor.
  - intros t r'. apply (Hsame (fun s' => m_get t (en_fetches (with_waiting w s')) = Some r' -> (t < en_nextToken (with_waiting w s'))%nat)).
    intros o. destruct s; simpl in *. rewrite m_get_delete. case_decide; [done|apply Bt].
  - intros r' t t' Hg. assert (Hg' : m_get r' (en_outstandingFetches (unfetch tok r s)) = Some (t, t')) by by destruct (unfetch tok r s).
    apply Hout in Hg' as [Hg' Hne]. apply (Hsame (fun s' => m_get t' (en_fetches (with_waiting w s')) = Some r')).
    intros o. destruct s; simpl in *. rewrite m_get_delete_ne by done. by eapply Bs.
  - intros r' c t Hg. assert (Hg' : m_get r' w = Some (c, t)) by by destruct (unfetch tok r s).
    apply Hw in Hg' as [Hg' Hne]. apply (Hsame (fun s' => m_get t (en_fetches (with_waiting w s')) = Some r')).
    intros o. destruct s; simpl in *. rewrite m_get_delete_ne by done. by eapply Bw.
  - intros r'. apply (Hsame (fun s' => r' ∈ en_inflight (with_waiting w s') <-> is_Some (m_get r' (en_waiting (with_waiting w s'))) \/ r' ∈ busy)).
    intros o. by destruct s.
  - intros r' Hr'. destruct (unfetch tok r s). by apply Hbusy.
  - intros Hd r' c t Hg. assert (Hg' : m_get r' w = Some (c, t)) by by destruct (unfetch tok r s).
    apply Hw in Hg' as [Hg' Hne]. revert Hd. apply (Hsame (fun s' => en_disposed (with_waiting w s') = false -> m_get r' (en_cursors (with_waiting w s')) = Some c)).
    intros o. destruct s; simpl in *. intros Hd. by eapply Bc.
  - intros r'. specialize (Bn r'). pose proof (length_filter_delete tok r (en_fetches s) r' Hf) as Hlen.
    unfold unfetch, fetches_of, slot, resets in *. destruct s as [cu l cr t f st o h ch d i w0 fe n tr]. simpl in *.
    unfold m_has in *. destruct (m_get r o) as [[t0 cur]|] eqn:Hr; [destruct (decide (cur = tok)) as [->|Hne]|]; simpl.
    + rewrite m_get_delete. destruct (decide (r = r')) as [->|Hne]; simpl; [|lia]. rewrite Hr in Bn. simpl in Bn. lia.
    + lia.
    + lia.
Qed.

Lemma books_done r s : books [r] s -> books [] (with_inflight (s_delete r (en_inflight s)) s).
Proof.
  intros [Bt Bs Bw Bi Bb Bc Bn]. constructor; try by destruct s.
  - intros r'. assert (Hr : m_get r (en_waiting s) = None) by (apply Bb; left).
    destruct s; simpl in *. rewrite elem_of_s_delete, Bi, list_elem_of_singleton. split; [tauto|].
    intros [Hx|Hx]; [|by apply not_elem_of_nil in Hx]. split; [|by left]. intros ->. rewrite Hr in Hx. by destruct Hx.
  - intros r' Hr'. by apply not_elem_of_nil in Hr'.
Qed.

(** Two states that differ in the bookkeeping of fetches only. *)
Definition same_zones s s' : Prop :=
  en_disposed s' = en_disposed s /\ en_failures s' = en_failures s /\ en_statuses s' = en_statuses s /\
  en_cursors s' = en_cursors s /\ en_trace s' = en_trace s /\ forall r, zone_data r s' = zone_data r s.

#[export] Instance same_zones_preorder : PreOrder same_zones.
Proof.
  split; [by intros s; split_and!|]. intros s1 s2 s3 (A1 & B1 & C1 & D1 & E1 & F1) (A2 & B2 & C2 & D2 & E2 & F2).
  split_and!; [congruence..|]. intros r. by rewrite F2.
Qed.

Lemma same_inflight i s : same_zones s (with_inflight i s).
Proof. destruct s. by split_and!. Qed.
Lemma same_waiting w s : same_zones s (with_waiting w s).
Proof. destruct s. by split_and!. Qed.
Lemma same_unfetch tok r s : same_zones s (unfetch tok r s).
Proof.
  assert (Hf : same_zones s (with_fetches (m_delete tok (en_fetches s)) s)) by (destruct s; by split_and!).
  unfold unfetch. repeat case_match; try done. etrans; [exact Hf|]. destruct s; by split_and!.
Qed.

(** The events a label hands to the zone [r]. *)
Definition hands_over (l : Label (H:=H) (C:=C)) s (r : string) (value : list FederationSyncEvent) : Prop :=
  exists tok raw, l = L_settle tok (Fo_ok (JArr raw)) /\ m_get tok (en_fetches s) = Some r /\
    mapM isFederationSyncEvent raw = Some value.

Definition step_outcome (l : Label (H:=H) (C:=C)) s s' : Prop :=
  books [] s' /\ (health_ok tn s -> health_ok tn s') /\ (en_disposed s = true -> en_disposed s' = true) /\
  (en_disposed s' = false -> forall r, exists acc, accepts r acc s s' /\ unrefused acc s s' /\
     (acc ≠ [] -> exists value, hands_over l s r value /\ forall e, e ∈ acc -> e ∈ value)).

Lemma stable_step l s s' : stable tn [] s s' -> unrefused [] s s' -> step_outcome l s s'.
Proof.
  intros (Hb & Hh & Hk) Hu. split_and!; [done|done|apply Hk|]. intros Hd r. exists []. split_and!; [|done|done].
  by apply accepts_nothing, zone_data_keeps.
Qed.

Lemma same_health s s' : same_zones s s' -> health_ok tn s -> health_ok tn s'.
Proof. intros (A & B & D & E & _) Hok. by eapply health_ext. Qed.

Lemma accepts_ext r acc s1 s2 s1' s2' :
  zone_data r s1' = zone_data r s1 -> zone_data r s2' = zone_data r s2 -> accepts r acc s1 s2 -> accepts r acc s1' s2'.
Proof. intros [= E1 E2 E3] [= F1 F2 F3] [Ac Ao Al An]. constructor; rewrite ?E1, ?E2, ?E3, ?F1, ?F2, ?F3; done. Qed.

Lemma batch_to_step l r value s0 s s' :
  same_zones s0 s -> batch_outcome r value s s' -> (value = [] \/ hands_over l s0 r value) ->
  step_outcome l s0 (with_inflight (s_delete r (en_inflight s')) s').
Proof.
  intros Hs (Hb & Hh & Hd & Hout) Hv. pose proof Hs as (D1 & _ & _ & _ & T1 & Z1).
  destruct (same_inflight (s_delete r (en_inflight s')) s') as (D2 & F2 & S2 & C2 & T2 & Z2).
  set (s2 := with_inflight (s_delete r (en_inflight s')) s') in *. split_and!.
  - by apply books_done.
  - intros Hok. eapply health_ext; [done..|]. apply Hh. by eapply same_health.
  - rewrite D2, <-D1. done.
  - rewrite D2. intros Hd'. destruct (Hout Hd') as (Hoth & acc & Ha & Hsub & Hu). intros r'.
    assert (Hmove : forall acc, unrefused acc s s' -> unrefused acc s0 s2).
    { intros acc0 (new & Ht & Hn). exists new. by rewrite T2, Ht, T1. }
    destruct (decide (r' = r)) as [->|Hne].
    + exists acc. split_and!; [apply (accepts_ext r acc s s'); [by rewrite Z1|by rewrite Z2|done]|by apply Hmove|].
      intros Hacc. destruct Hv as [->|Hv]; [|by exists value].
      destruct acc as [|e acc]; [done|]. destruct (not_elem_of_nil e). apply Hsub. left.
    + exists []. split_and!; [|apply Hmove; eapply emits_weaken; [|exact Hu]|done].
      * apply accepts_nothing. by rewrite Z2, Hoth, Z1.
      * intros [zone c|h e []|c rep|zone|]; try done. intros _. apply not_elem_of_nil.
Qed.

Lemma after_race_outcome now subs r cursor raced s :
  books [r] s -> (en_disposed s = false -> m_get r (en_cursors s) = Some cursor) ->
  exists value, batch_outcome r value s (after_race tn now subs r cursor raced s) /\
    (value = [] \/ exists raw, raced = R_settled (Fo_ok (JArr raw)) /\ mapM isFederationSyncEvent raw = Some value).
Proof.
  intros Hb Hc.
  assert (Hbump : batch_outcome r [] s (bumpFailure tn r s)).
  { apply stable_outcome; [apply bump_stable; [done|]|apply emits_same, bump_trace]. intros Hd. rewrite Hc by done. by eexists. }
  assert (Hstay : batch_outcome r [] s s) by (apply stable_outcome; [by apply stable_refl|reflexivity]).
  assert (Hno : forall s', batch_outcome r [] s s' -> exists value, batch_outcome r value s s' /\
    (value = [] \/ exists raw, raced = R_settled (Fo_ok (JArr raw)) /\ mapM isFederationSyncEvent raw = Some value)).
  { intros s' Ho. exists []. split; [done|by left]. }
  unfold after_race. destruct raced as [|[|e|v]]; [destruct (en_disposed s); by apply Hno|by apply Hno|
    destruct (en_disposed s); by apply Hno|]. destruct (en_disposed s) eqn:Hd; [by apply Hno|].
  destruct v as [| | | | | |raw|]; try by apply Hno. destruct (mapM _ raw) as [value|] eqn:Hm; [|by apply Hno].
  exists value. split; [apply process_outcome; auto|]. right. by exists raw.
Qed.

Lemma resume_outcome now subs l r cursor raced s0 s :
  books [r] (with_waiting (m_delete r (en_waiting s)) s) -> same_zones s0 s ->
  (en_disposed s = false -> m_get r (en_cursors s) = Some cursor) ->
  (forall raw value, raced = R_settled (Fo_ok (JArr raw)) -> mapM isFederationSyncEvent raw = Some value -> hands_over l s0 r value) ->
  step_outcome l s0 (resume tn now subs r cursor raced s).
Proof.
  intros Hb Hs Hc Hl. unfold resume. set (s1 := with_waiting (m_delete r (en_waiting s)) s) in *.
  assert (Hs1 : same_zones s s1) by apply same_waiting.
  destruct (after_race_outcome now subs r cursor raced s1 Hb) as (value & Ho & Hv).
  { destruct Hs1 as (-> & _ & _ & -> & _). done. }
  apply (batch_to_step l r value s0 s1); [by etrans|done|]. destruct Hv as [->|(raw & Hr & Hm)]; [by left|right; by eapply Hl].
Qed.

Lemma command_unrefused now s c : unrefused [] s (run_command tn now s c).
Proof. apply quiet_unrefused, command_quiet. Qed.

Lemma step_spec now subs l s : books [] s -> step_outcome l s (step tn now subs l s).
Proof.
  intros Hb. destruct l as [c|tok outcome|r]; cbn [step].
  - apply stable_step; [by apply command_stable|apply command_unrefused].
  - unfold settle. destruct (m_get tok (en_fetches s)) as [r|] eqn:Hf;
      [|apply stable_step; [by apply stable_refl|reflexivity]].
    fold (unfetch tok r s). pose proof (same_unfetch tok r s) as Hs.
    assert (Hw : en_waiting (unfetch tok r s) = en_waiting s) by (unfold unfetch; repeat case_match; by destruct s).
    change (step_outcome (L_settle tok outcome) s
      match m_get r (en_waiting (unfetch tok r s)) with
      | Some (cursor, waited) => if decide (waited = tok) then resume tn now subs r cursor (R_settled outcome) (unfetch tok r s) else unfetch tok r s
      | None => unfetch tok r s
      end).
    assert (Hidle : (forall c t, m_get r (en_waiting s) = Some (c, t) -> t ≠ tok) -> step_outcome (L_settle tok outcome) s (unfetch tok r s)).
    { intros Hne. assert (Hb' : books [] (unfetch tok r s)).
      { replace (unfetch tok r s) with (with_waiting (en_waiting s) (unfetch tok r s)) by (rewrite <-Hw; by destruct (unfetch tok r s)).
        apply unfetch_books; try done; [|apply Hb|intros r' Hr'; by apply not_elem_of_nil in Hr'].
        intros r' c t Hg. split; [done|]. intros ->. assert (r' = r) as -> by (apply (bk_waiting _ _ Hb) in Hg; congruence). by eapply Hne. }
      destruct Hs as (D & F & S & Cu & T & Z). split_and!; [done|intros Hok; by eapply health_ext|congruence|].
      intros Hd r'. exists []. split_and!; [by apply accepts_nothing|by apply emits_same|done]. }
    rewrite Hw. destruct (m_get r (en_waiting s)) as [[cursor waited]|] eqn:Hwait; [|apply Hidle; naive_solver].
    destruct (decide (waited = tok)) as [->|Hne]; [|apply Hidle; naive_solver].
    apply resume_outcome.
    + rewrite Hw. apply unfetch_books; try done.
      * intros r' c t. rewrite m_get_delete. case_decide as Hq; [done|]. intros Hg. split; [done|]. intros ->.
        apply (bk_waiting _ _ Hb) in Hg. congruence.
      * intros r'. rewrite (bk_inflight _ _ Hb), m_get_delete, list_elem_of_singleton. case_decide as Hq; [subst|].
        -- rewrite Hwait. split; [by right|left; by eexists].
        -- split; [intros [?|Hx]; [by left|by apply not_elem_of_nil in Hx]|intros [?| ->]; [by left|done]].
      * intros r' ->%list_elem_of_singleton. apply m_get_delete_eq.
    + done.
    + destruct Hs as (-> & _ & _ & -> & _). intros Hd. by eapply (bk_cursor _ _ Hb).
    + intros raw value [= ->] Hm. by exists tok, raw.
  - unfold fetchTimeout. destruct (m_get r (en_waiting s)) as [[cursor tok]|] eqn:Hwait;
      [|apply stable_step; [by apply stable_refl|reflexivity]].
    apply resume_outcome; [|reflexivity|intros Hd; by eapply (bk_cursor _ _ Hb)|done].
    destruct Hb as [Bt Bs Bw Bi Bb Bc Bn]. constructor; try by destruct s.
    + intros r' c t Hg. destruct s; simpl in *. rewrite m_get_delete in Hg. case_decide; [done|by eapply Bw].
    + intros r'. destruct s; simpl in *. rewrite Bi, m_get_delete, list_elem_of_singleton. case_decide as Hq; [subst|].
      * rewrite Hwait. split; [by right|left; by eexists].
      * split; [intros [?|Hx]; [by left|by apply not_elem_of_nil in Hx]|intros [?| ->]; [by left|done]].
    + intros r' ->%list_elem_of_singleton. destruct s; simpl. apply m_get_delete_eq.
    + intros Hd r' c t Hg. destruct s; simpl in *. rewrite m_get_delete in Hg. case_decide; [done|by eapply Bc].
Qed.

(** ** Runs *)

Notation Ev := (Event H C).

Lemma run_app (es1 es2 : list Ev) s : run tn (es1 ++ es2) s = run tn es2 (run tn es1 s).
Proof. unfold run. by rewrite foldl_app. Qed.

Lemma step_disposed now subs l s : books [] s -> en_disposed (step tn now subs l s) = false -> en_disposed s = false.
Proof.
  intros Hb Hd. destruct (step_spec now subs l s Hb) as (_ & _ & Hm & _). destruct (en_disposed s); [|done].
  by rewrite Hm in Hd.
Qed.

Lemma run_books (es : list Ev) s : books [] s -> books [] (run tn es s).
Proof.
  revert s. induction es as [|e es IH]; intros s Hb; [done|]. cbn [run foldl]. apply IH. by apply step_spec.
Qed.

Lemma run_health (es : list Ev) s : books [] s -> health_ok tn s -> health_ok tn (run tn es s).
Proof.
  revert s. induction es as [|e es IH]; intros s Hb Hh; [done|]. cbn [run foldl]. apply IH.
  - by apply step_spec.
  - by apply (step_spec (run_now e) (run_subs e) (run_label e) s Hb).
Qed.

Lemma run_disposed (es : list Ev) s : books [] s -> en_disposed (run tn es s) = false -> en_disposed s = false.
Proof.
  revert s. induction es as [|e es IH]; intros s Hb Hd; [done|]. cbn [run foldl] in Hd.
  apply IH in Hd; [by eapply step_disposed|]. by apply step_spec.
Qed.

Lemma run_history (es : list Ev) c0 r hist s :
  (forall cap, tn_logMax tn = Some cap -> 0 <= cap) -> books [] s -> en_disposed (run tn es s) = false ->
  zone_history c0 r hist s -> exists acc, zone_history c0 r (hist ++ acc) (run tn es s).
Proof.
  intros Hcap. revert s hist. induction es as [|e es IH]; intros s hist Hb Hd Hz.
  - exists []. by rewrite app_nil_r.
  - cbn [run foldl] in *. destruct (step_spec (run_now e) (run_subs e) (run_label e) s Hb) as (Hb' & _ & _ & Hout).
    assert (Hd' := run_disposed es _ Hb' Hd). destruct (Hout Hd' r) as (acc & Ha & _).
    destruct (IH _ (hist ++ acc) Hb' Hd) as (acc' & Hz'); [by eapply accepts_history|].
    exists (acc ++ acc'). by rewrite app_assoc.
Qed.

End Spec.

(** ** The constructor *)

Lemma checkTunables_ok config t : checkTunables config = Ok t ->
  0 < tn_offlineAfter t /\ (forall cap, tn_logMax t = Some cap -> 0 < cap) /\ tn_remotes t = sc_remoteClients config.
Proof.
  unfold checkTunables. intros Hc. destruct (negb _); [done|]. destruct (default (Finite 30000) _) as [timeout| |]; try done.
  destruct (timeout <=? 0); [done|]. destruct (default (scale5 _) _) as [age| |]; try done.
  destruct (age <=? 0); [done|]. destruct (age <? timeout); [done|].
  destruct (default (Finite 10000) _) as [n| |]; try done; [destruct (Z.leb_spec n 0); [done|]|]; simpl in Hc;
    (destruct (sc_offlineAfterFailures config) as [m| |]; [destruct (Z.leb_spec m 0); [done|]|done..]);
    injection Hc as <-; simpl; (split_and!; [lia| |done]); [by intros ? [= <-]|done].
Qed.

Lemma m_get_const {V : Type} (f : string -> V) (remotes : list string) r :
  m_get r ((fun r => (r, f r)) <$> remotes) = if decide (r ∈ remotes) then Some (f r) else None.
Proof.
  induction remotes as [|r' remotes IH]; [done|]. rewrite fmap_cons. cbn [m_get].
  destruct (decide (r = r')) as [->|Hne]; [by rewrite decide_True by set_solver|]. rewrite IH.
  destruct (decide (r ∈ remotes)), (decide (r ∈ r' :: remotes)); try done; exfalso; set_solver.
Qed.

Section Create.
Context {H C : Type} {HEq : EqDecision H} {CEq : EqDecision C}.
Context (config : SyncEngineConfig) (tn : Tunables) (s0 : Engine H C).
Hypothesis Hcreate : createSyncEngine H C config = Ok (tn, s0).

Lemma created : s0 = initial_engine (sc_initialCursors config) (tn_remotes tn) /\ checkTunables config = Ok tn /\
  first_error (tn_remotes tn) (sc_initialCursors config) = None.
Proof.
  unfold createSyncEngine in Hcreate. destruct (checkTunables config) as [t|]; [|done]. simpl in Hcreate.
  destruct (first_error _ _) eqn:He; [done|]. by injection Hcreate as <- <-.
Qed.

Lemma initial_cursor_zone r : sy_zoneId (initial_cursor (sc_initialCursors config) r) = r.
Proof.
  unfold initial_cursor. destruct (m_get r (sc_initialCursors config)) as [c|] eqn:Hg; [|done]. simpl.
  destruct created as (_ & _ & Hf). apply m_get_elem in Hg. revert Hf Hg. generalize (sc_initialCursors config).
  intros seeds. induction seeds as [|[r' c'] seeds IH]; intros Hf Hg; [by apply not_elem_of_nil in Hg|].
  cbn [first_error] in Hf. destruct (checkCursor (tn_remotes tn) (r', c')) eqn:Hc; [done|].
  apply elem_of_cons in Hg as [[= <- <-]|Hg]; [|by apply IH].
  unfold checkCursor in Hc. repeat (case_bool_decide; simpl in Hc; try done).
Qed.

Lemma created_books : books [] s0.
Proof.
  destruct created as (-> & _). constructor; try done.
  - intros r. simpl. split; [intros Hr; by apply not_elem_of_nil in Hr|intros [[]|Hr]; [done|by apply not_elem_of_nil in Hr]].
Qed.

Lemma created_health : health_ok tn s0.
Proof.
  destruct created as (-> & Ht & _). apply checkTunables_ok in Ht as (Hp & _). split_and!; [done| |].
  - intros _ r. simpl. rewrite (m_get_const (fun _ => Zs_active)). intros Hr.
    unfold healthy_zone, getFailures. simpl. rewrite (m_get_const (fun _ => Zs_active)), (m_get_const (fun _ => 0)).
    destruct (decide (r ∈ tn_remotes tn)); [|by destruct Hr]. simpl. split; [lia|]. right. split; [done|lia].
  - intros _ r. simpl. rewrite (m_get_const (fun _ => Zs_active)), (m_get_const (initial_cursor _)).
    destruct (decide (r ∈ tn_remotes tn)); by split; intros [].
Qed.

Lemma created_history r : r ∈ tn_remotes tn -> zone_history tn (initial_cursor (sc_initialCursors config) r) r [] s0.
Proof.
  intros Hr. destruct created as (-> & Ht & _). apply checkTunables_ok in Ht as (_ & Hcap & _).
  assert (He : evicted tn 0 = 0).
  { unfold evicted. destruct (tn_logMax tn) as [cap|] eqn:Hl; [|done]. specialize (Hcap cap eq_refl). lia. }
  constructor; [done|by constructor| | |].
  - simpl. rewrite (m_get_const (initial_cursor _)), decide_True by done. eexists. split; [done|].
    split_and!; [done|simpl; lia|done].
  - unfold getTruncatedCount. simpl. rewrite (m_get_const (fun _ => 0)), decide_True by done. by rewrite He.
  - unfold getLog. simpl. rewrite (m_get_const (fun _ => [])), decide_True by done. by rewrite drop_nil.
Qed.

End Create.
