(* ===== verification/SyncLive.v ===== *)
(** * Progress of the sync engine

    A cycle against a well-behaved remote: the batch is delivered, the cursor
    passes it and the zone is healthy.  Then the theorems about whole runs, at
    concrete runs as well. *)

From S2P Require Import Prelude JsMap Text Canonical VectorClock SyncEngine SyncBatch SyncEngineInv SyncEngineSpec.

Local Open Scope string_scope.
Local Open Scope list_scope.
Local Open Scope Z_scope.

Section Live.
Context {H C : Type} {HEq : EqDecision H} {CEq : EqDecision C}.
Context (tn : Tunables).

Notation Engine := (Engine H C).
Implicit Types s : Engine.

(** ** Starting the fetch *)

(** The zone [r] can start a fetch, or has started one. *)
Definition ready (r : string) (cursor : SyncCursor) s : Prop :=
  m_get r (en_outstandingFetches s) = None /\ r ∉ en_inflight s.

Definition started (r : string) (cursor : SyncCursor) s : Prop :=
  r ∈ en_inflight s /\ exists t tok, m_get r (en_outstandingFetches s) = Some (t, tok) /\
    m_get r (en_waiting s) = Some (cursor, tok).

(** What starting a cycle leaves alone. *)
Definition untouched s s' : Prop :=
  en_disposed s' = en_disposed s /\ en_cursors s' = en_cursors s /\ en_eventLogs s' = en_eventLogs s /\
  en_truncatedCounts s' = en_truncatedCounts s /\ en_handlers s' = en_handlers s.

#[export] Instance untouched_preorder : PreOrder untouched.
Proof.
  split; [by intros s; split_and!|]. intros s1 s2 s3 (A1 & B1 & C1 & D1 & E1) (A2 & B2 & C2 & D2 & E2).
  split_and!; congruence.
Qed.

Lemma syncZone_other now r r' cursor s :
  r' ≠ r -> untouched s (syncZone tn now r' s) /\
  (ready r cursor s -> ready r cursor (syncZone tn now r' s)) /\ (started r cursor s -> started r cursor (syncZone tn now r' s)).
Proof.
  intros Hne. destruct (syncZone_cases tn now r' s) as [->|[(_ & _ & ->)|(c & _ & _ & _ & ->)]].
  - split_and!; done.
  - destruct s. by split_and!.
  - destruct s as [cu l cr t f st o h ch d i w fe n tr]. split; [by split_and!|]. unfold ready, started. simpl.
    rewrite !m_get_set_ne by done. rewrite elem_of_s_add. split.
    + intros [Ho Hi]. split; [done|]. by intros [?|?].
    + intros [Hi Hw]. split; [by right|done].
Qed.

Lemma syncZone_self now r cursor s :
  en_disposed s = false -> m_get r (en_cursors s) = Some cursor -> ready r cursor s ->
  untouched s (syncZone tn now r s) /\ started r cursor (syncZone tn now r s).
Proof.
  intros Hd Hc [Ho Hi]. unfold syncZone. rewrite Hd, Hc, Ho. destruct s as [cu l cr t f st o h ch d i w fe n tr].
  split; [by split_and!|]. simpl. split; [simpl; rewrite elem_of_s_add; by left|]. exists now, n. simpl. by rewrite !m_get_set_eq.
Qed.

Lemma syncAll_starts now r cursor remotes s :
  en_disposed s = false -> m_get r (en_cursors s) = Some cursor -> (ready r cursor s /\ r ∈ remotes \/ started r cursor s) ->
  untouched s (syncAll_loop tn now remotes s) /\ started r cursor (syncAll_loop tn now remotes s).
Proof.
  unfold syncAll_loop. revert s. induction remotes as [|r' remotes IH]; intros s Hd Hc Hr; simpl.
  { split; [reflexivity|]. destruct Hr as [[_ Hr]|Hr]; [by apply not_elem_of_nil in Hr|done]. }
  set (s1 := if s_has r' (en_inflight s) then s else syncZone tn now r' s).
  assert (Hs1 : untouched s s1 /\ (ready r cursor s1 /\ r ∈ remotes \/ started r cursor s1)).
  { unfold s1. destruct (decide (r' = r)) as [->|Hne].
    - destruct Hr as [[Hr _]|Hr].
      + rewrite (proj2 (s_has_false _ _)) by apply Hr. destruct (syncZone_self now r cursor s Hd Hc Hr) as [Hu Hs].
        split; [done|by right].
      + rewrite (proj2 (s_has_true _ _)) by apply Hr. split; [reflexivity|by right].
    - destruct (syncZone_other now r r' cursor s Hne) as (Hu & H1 & H2).
      destruct (s_has r' (en_inflight s)); [split; [reflexivity|]|split; [done|]].
      + destruct Hr as [[Hr Hin]|Hr]; [left; split; [done|]; apply elem_of_cons in Hin as [->|?]; done|by right].
      + destruct Hr as [[Hr Hin]|Hr]; [left; split; [by apply H1|]; apply elem_of_cons in Hin as [->|?]; done|right; by apply H2]. }
  destruct Hs1 as [Hu Hr1]. destruct (IH s1) as [Hu' Hs']; [by rewrite (proj1 Hu)|by rewrite (proj1 (proj2 Hu))|done|].
  split; [by etrans|done].
Qed.

(** ** Subscribers that accept *)

Definition calm (subs : Subscribers H C) : Prop :=
  (forall h e, on_event subs h e = ([], true)) /\ (forall c rep, on_conflict subs c rep = []).

Definition emit_all (es : list (SyncEffect H C)) s : Engine := foldl (fun s e => emit e s) s es.

Lemma emit_all_app es1 es2 s : emit_all (es1 ++ es2) s = emit_all es2 (emit_all es1 s).
Proof. unfold emit_all. by rewrite foldl_app. Qed.

Lemma emit_all_handlers es s : en_handlers (emit_all es s) = en_handlers s.
Proof. revert s. induction es as [|e es IH]; intros s; [done|]. simpl. rewrite IH. by destruct s. Qed.

Lemma emit_all_same es s :
  en_disposed (emit_all es s) = en_disposed s /\ en_cursors (emit_all es s) = en_cursors s /\
  en_eventLogs (emit_all es s) = en_eventLogs s /\ en_truncatedCounts (emit_all es s) = en_truncatedCounts s /\
  en_statuses (emit_all es s) = en_statuses s /\ en_failures (emit_all es s) = en_failures s /\
  en_inflight (emit_all es s) = en_inflight s /\ en_outstandingFetches (emit_all es s) = en_outstandingFetches s /\
  en_trace (emit_all es s) = en_trace s ++ es.
Proof.
  revert s. induction es as [|e es IH]; intros s; [by rewrite app_nil_r|]. simpl.
  destruct (IH (emit e s)) as (-> & -> & -> & -> & -> & -> & -> & -> & ->). destruct s. simpl.
  by rewrite <-app_assoc.
Qed.

Definition deliveries_of (handlers : list H) (events : list FederationSyncEvent) : list (SyncEffect H C) :=
  concat ((fun e => (fun h => Fx_deliver h e true) <$> handlers) <$> events).

Lemma notify_calm now subs event s :
  calm subs -> notifyHandlers tn now subs event s = (emit_all ((fun h => Fx_deliver h event true) <$> en_handlers s) s, true).
Proof.
  intros [Hc _]. unfold notifyHandlers. generalize (en_handlers s). intros hs. revert s.
  induction hs as [|h hs IH]; intros s; [done|]. cbn [foldl]. rewrite Hc. cbn. apply IH.
Qed.

Lemma deliver_calm now subs events k s :
  calm subs -> deliver tn now subs events k s = (emit_all (deliveries_of (en_handlers s) events) s, (k + length events)%nat, false).
Proof.
  intros Hc. revert k s. induction events as [|e events IH]; intros k s; cbn [deliver].
  { by rewrite Nat.add_0_r. }
  rewrite notify_calm, IH, emit_all_handlers by done. unfold deliveries_of. cbn [fmap list_fmap concat].
  rewrite emit_all_app. simpl. by rewrite <-Nat.add_succ_comm.
Qed.

(** Reporting conflicts to calm subscribers adds reports and trace entries. *)
Definition reports_only s s' : Prop :=
  untouched s s' /\ en_statuses s' = en_statuses s /\ en_failures s' = en_failures s /\
  en_inflight s' = en_inflight s /\ en_outstandingFetches s' = en_outstandingFetches s.

#[export] Instance reports_only_preorder : PreOrder reports_only.
Proof.
  split; [by intros s; split_and!|]. intros s1 s2 s3 (A1 & B1 & C1 & D1 & E1) (A2 & B2 & C2 & D2 & E2).
  split; [by etrans|]. split_and!; congruence.
Qed.

Lemma reports_only_foldl {A : Type} (f : Engine -> A -> Engine) l s :
  (forall s a, reports_only s (f s a)) -> reports_only s (foldl f s l).
Proof. intros Hf. revert s. induction l as [|a l IH]; intros s; [reflexivity|]. simpl. etrans; [apply Hf|apply IH]. Qed.

Lemma report_calm now subs events s : calm subs -> reports_only s (reportConflicts tn now subs events s).
Proof.
  intros [_ Hc]. apply reports_only_foldl. intros s1 remote. apply reports_only_foldl. intros s2 local.
  unfold report_one. case_match; [|reflexivity]. 
  transitivity (with_reports (en_conflictReports s2 ++ [conflict_report tn local remote]) s2); [by destruct s2; split_and!|].
  unfold notifyConflictHandlers. apply reports_only_foldl. intros s3 h. rewrite Hc. simpl. by destruct s3; split_and!.
Qed.

(** ** A good batch *)

Definition good_batch (r : string) (cursor : SyncCursor) (batch : list FederationSyncEvent) : Prop :=
  batch ≠ [] /\ contiguous (sy_lastSequence cursor) batch /\ forall e, e ∈ batch -> ev_originZoneId e = r.

Definition past (cursor : SyncCursor) (batch : list FederationSyncEvent) (now : Z) : SyncCursor :=
  mkCursor (sy_zoneId cursor) (Some (clocks_of (default [] (sy_vectorClock cursor)) batch))
    (sy_lastSequence cursor + Z.of_nat (length batch)) now.

Lemma process_calm now subs r cursor batch s :
  calm subs -> good_batch r cursor batch ->
  process_batch tn now subs r cursor batch s =
  append_log tn r batch (reportConflicts tn now subs batch
    (with_cursor r (past cursor batch now) (reset_health r (emit_all (deliveries_of (en_handlers s) batch) s)))).
Proof.
  intros Hc (Hne & Hcon & Ho). unfold process_batch.
  assert (Hsp : existsb (fun e => negb (bool_decide (ev_originZoneId e = r))) batch = false).
  { apply not_true_is_false. intros Hx. apply existsb_exists in Hx as (e & He & Hb). apply list_elem_of_In, Ho in He.
    by rewrite bool_decide_true in Hb. }
  assert (Hd : deduplicateEvents batch cursor = batch).
  { apply filter_all. intros e He. apply Z.ltb_lt. by apply (contiguous_range _ _ _ Hcon). }
  assert (Hlen : length batch ≠ 0%nat) by (by destruct batch).
  rewrite Hsp, Hd, decide_False, validate_contiguous by done. simpl. rewrite decide_False by done.
  rewrite deliver_calm by done. simpl. rewrite firstn_all, decide_False by done.
  pose proof (advanceCursor_spec cursor batch now) as Ha. cbv zeta in Ha. rewrite Hd in Ha.
  destruct (advanceCursor cursor batch now) as [c|e]; [|by destruct Ha]. by destruct Ha as [_ ->].
Qed.

#[export] Instance is_delivery_dec (e : SyncEffect H C) : Decision (is_delivery e).
Proof. destruct e; unfold is_delivery; apply _. Defined.

Definition deliveries s : list (SyncEffect H C) := filter is_delivery (en_trace s).

Lemma quiet_deliveries s s' : quiet s s' -> deliveries s' = deliveries s.
Proof.
  intros (new & Ht & Hn). unfold deliveries. rewrite Ht, filter_app.
  assert (Hf : filter is_delivery new = []); [|by rewrite Hf, app_nil_r]. clear Ht.
  induction Hn as [|e new He _ IH]; [done|]. rewrite filter_cons, decide_False by done. exact IH.
Qed.

Lemma deliveries_all handlers batch : filter is_delivery (deliveries_of handlers batch) = deliveries_of handlers batch.
Proof.
  apply filter_all. intros e He. unfold deliveries_of in He. apply list_elem_of_In, in_concat in He as (l & Hl & He).
  apply list_elem_of_In, list_elem_of_fmap in Hl as (ev & -> & _). apply list_elem_of_In, list_elem_of_fmap in He as (h & -> & _). done.
Qed.

(** The state after a good cycle. *)
Record caught_up (r : string) (cursor : SyncCursor) (batch : list FederationSyncEvent) (now : Z) s s' : Prop := mkCaughtUp {
  cu_health : getHealth r s' = Some (Zs_active, 0, now);
  cu_cursor : m_get r (en_cursors s') = Some (past cursor batch now);
  cu_log : (getLog r s', getTruncatedCount r s') = ring tn (getLog r s ++ batch) (getTruncatedCount r s);
  cu_free : r ∉ en_inflight s' /\ m_get r (en_outstandingFetches s') = None;
  cu_delivered : deliveries s' = deliveries s ++ deliveries_of (en_handlers s) batch
}.

Lemma append_log_rest r acc s :
  en_statuses (append_log tn r acc s) = en_statuses s /\ en_failures (append_log tn r acc s) = en_failures s /\
  en_inflight (append_log tn r acc s) = en_inflight s /\
  en_outstandingFetches (append_log tn r acc s) = en_outstandingFetches s.
Proof. unfold append_log. repeat case_match; destruct s; by split_and!. Qed.

Lemma process_caught_up now subs r cursor batch s :
  calm subs -> good_batch r cursor batch -> m_get r (en_outstandingFetches s) = None ->
  let s1 := process_batch tn now subs r cursor batch s in
  caught_up r cursor batch now s (with_inflight (s_delete r (en_inflight s1)) s1).
Proof.
  intros Hc Hg Hout s1. unfold s1. rewrite process_calm by done. clear s1.
  set (sa := emit_all (deliveries_of (en_handlers s) batch) s).
  set (sb := with_cursor r (past cursor batch now) (reset_health r sa)).
  pose proof (report_calm now subs batch sb Hc) as ((R1 & R2 & R3 & R4 & R5) & R6 & R7 & R8 & R9).
  pose proof (report_quiet tn now subs batch sb) as Hq. set (sc := reportConflicts tn now subs batch sb) in *.
  destruct (append_log_data tn r batch sc) as (Hlog & _ & Hcur). destruct (append_log_rest r batch sc) as (P1 & P2 & P3 & P4).
  pose proof (append_trace tn r batch sc) as Ht. set (sd := append_log tn r batch sc) in *.
  destruct (emit_all_same (deliveries_of (en_handlers s) batch) s) as (E1 & E2 & E3 & E4 & E5 & E6 & E7 & E8 & E9). fold sa in E1, E2, E3, E4, E5, E6, E7, E8, E9.
  assert (Hsb : m_get r (en_cursors sb) = Some (past cursor batch now) /\ m_get r (en_statuses sb) = Some Zs_active /\
    m_get r (en_failures sb) = Some 0 /\ en_eventLogs sb = en_eventLogs sa /\ en_truncatedCounts sb = en_truncatedCounts sa /\
    en_outstandingFetches sb = en_outstandingFetches sa /\ en_trace sb = en_trace sa).
  { unfold sb. destruct sa. split_and!; try done; apply m_get_set_eq. }
  destruct Hsb as (B1 & B2 & B3 & B4 & B5 & B6 & B7).
  assert (Hi : forall i, let s2 := with_inflight i sd in en_cursors s2 = en_cursors sd /\ en_statuses s2 = en_statuses sd /\
    en_failures s2 = en_failures sd /\ zone_data r s2 = zone_data r sd /\ en_inflight s2 = i /\
    en_outstandingFetches s2 = en_outstandingFetches sd /\ en_trace s2 = en_trace sd) by (intros i; destruct sd; by split_and!).
  specialize (Hi (s_delete r (en_inflight sd))). cbv zeta in Hi.
  set (s2 := with_inflight (s_delete r (en_inflight sd)) sd) in *. destruct Hi as (I1 & I2 & I3 & [= _ I4 I5] & I6 & I7 & I8).
  constructor.
  - unfold getHealth, getFailures. rewrite I1, I2, I3, Hcur, P1, P2, R2, R6, R7, B1, B2, B3. done.
  - by rewrite I1, Hcur, R2.
  - rewrite I4, I5, Hlog. unfold getLog, getTruncatedCount. by rewrite R3, R4, B4, B5, E3, E4.
  - rewrite I6, I7, P4, R9, B6, E8, elem_of_s_delete. split; [tauto|done].
  - transitivity (deliveries sc); [unfold deliveries; by rewrite I8, Ht|].
    rewrite (quiet_deliveries sb sc Hq). unfold deliveries. by rewrite B7, E9, filter_app, deliveries_all.
Qed.

Lemma settle_caught_up now subs r cursor tok raw batch s :
  calm subs -> good_batch r cursor batch -> mapM isFederationSyncEvent raw = Some batch ->
  en_disposed s = false -> m_get tok (en_fetches s) = Some r -> m_get r (en_waiting s) = Some (cursor, tok) ->
  (exists t, m_get r (en_outstandingFetches s) = Some (t, tok)) ->
  caught_up r cursor batch now s (settle tn now subs tok (Fo_ok (JArr raw)) s).
Proof.
  intros Hc Hg Hm Hd Hf Hw [t Ho]. unfold settle. rewrite Hf. fold (unfetch tok r s).
  assert (Hs1 : exists s1, unfetch tok r s = s1 /\ en_waiting s1 = en_waiting s /\ en_disposed s1 = false /\ m_get r (en_outstandingFetches s1) = None /\
    zone_data r s1 = zone_data r s /\ en_handlers s1 = en_handlers s /\ en_trace s1 = en_trace s).
  { eexists. split; [done|]. unfold unfetch. destruct s as [cu l cr tc f st o h ch d i w fe n tr]. simpl in *.
    rewrite Ho, decide_True by done. simpl. split_and!; try done. apply m_get_delete_eq. }
  destruct Hs1 as (s1 & Heq & W1 & D1 & O1 & [= Z1 Z2 Z3] & Ha1 & T1).
  change (caught_up r cursor batch now s
    match m_get r (en_waiting (unfetch tok r s)) with
    | Some (cursor, waited) => if decide (waited = tok) then resume tn now subs r cursor (R_settled (Fo_ok (JArr raw))) (unfetch tok r s) else unfetch tok r s
    | None => unfetch tok r s
    end).
  rewrite Heq, W1, Hw, decide_True by done. unfold resume.
  set (s2 := with_waiting (m_delete r (en_waiting s1)) s1).
  assert (Hs2 : en_disposed s2 = false /\ m_get r (en_outstandingFetches s2) = None /\ zone_data r s2 = zone_data r s1 /\
    en_handlers s2 = en_handlers s1 /\ en_trace s2 = en_trace s1) by (unfold s2; by destruct s1).
  destruct Hs2 as (D2 & O2 & [= Y1 Y2 Y3] & Ha2 & T2).
  unfold after_race. rewrite D2, Hm. destruct (process_caught_up now subs r cursor batch s2 Hc Hg O2) as [].
  constructor; try done.
  - by rewrite cu_log0, Y2, Y3, Z2, Z3.
  - rewrite cu_delivered0. unfold deliveries. by rewrite T2, T1, Ha2, Ha1.
Qed.

Lemma sync_then_settle now1 now2 subs0 subs r cursor raw batch s :
  books [] s -> en_disposed s = false -> r ∈ tn_remotes tn -> ready r cursor s -> m_get r (en_cursors s) = Some cursor ->
  calm subs -> good_batch r cursor batch -> mapM isFederationSyncEvent raw = Some batch ->
  let s1 := step tn now1 subs0 (L_command Do_sync) s in
  exists tok, m_get tok (en_fetches s1) = Some r /\
    caught_up r cursor batch now2 s (step tn now2 subs (L_settle tok (Fo_ok (JArr raw))) s1).
Proof.
  intros Hb Hd Hr Hready Hcur Hc Hg Hm s1. unfold s1. cbn [step run_command]. unfold syncAll. rewrite Hd.
  pose proof (syncAll_stable tn [] now1 s Hb) as (Hb1 & _ & _). unfold syncAll in Hb1. rewrite Hd in Hb1.
  destruct (syncAll_starts now1 r cursor (tn_remotes tn) s Hd Hcur (or_introl (conj Hready Hr))) as [Hu (Hi & t & tok & Ho & Hw)].
  pose proof (command_quiet tn now1 s Do_sync) as Hq. cbn [run_command] in Hq. unfold syncAll in Hq. rewrite Hd in Hq.
  set (s2 := syncAll_loop tn now1 (tn_remotes tn) s) in *. exists tok. split; [by eapply (bk_waiting _ _ Hb1)|].
  destruct Hu as (U1 & U2 & U3 & U4 & U5).
  destruct (settle_caught_up now2 subs r cursor tok raw batch s2) as []; try done; [congruence|by eapply (bk_waiting _ _ Hb1)|by exists t|].
  constructor; try done.
  - rewrite cu_log0. unfold getLog, getTruncatedCount. by rewrite U3, U4.
  - by rewrite cu_delivered0, (quiet_deliveries s s2 Hq), U5.
Qed.

End Live.

(** ** The theorems, for any run of an engine *)

Section Theorems.
Context {H C : Type} {HEq : EqDecision H} {CEq : EqDecision C}.

(** C21: the engine implements an append-only history per remote zone.  In any run
    of a created engine that is not disposed of, for every remote zone there is a
    history, events of that zone numbered without gap from the initial cursor,
    such that the cursor stands after its last event with the clocks merged in,
    the log is the history without what the ring buffer evicted and the count of
    evicted events is exact; and continuing the run only appends to it. *)
Theorem sync_refines_history (config : SyncEngineConfig) (tn : Tunables) (s0 : Engine H C) (es1 es2 : list (Event H C)) (r : string) :
  createSyncEngine H C config = Ok (tn, s0) -> r ∈ sc_remoteClients config ->
  en_disposed (run tn (es1 ++ es2) s0) = false ->
  exists hist acc, zone_history tn (initial_cursor (sc_initialCursors config) r) r hist (run tn es1 s0) /\
    zone_history tn (initial_cursor (sc_initialCursors config) r) r (hist ++ acc) (run tn (es1 ++ es2) s0).
Proof.
  intros Hc Hr Hd. pose proof (created_books config tn s0 Hc) as Hb.
  destruct (created config tn s0 Hc) as (_ & Ht & _). apply checkTunables_ok in Ht as (_ & Hcap & Hrem).
  assert (Hcap' : forall cap, tn_logMax tn = Some cap -> 0 <= cap) by (intros cap Hx; specialize (Hcap cap Hx); lia).
  rewrite run_app in *. set (s1 := run tn es1 s0) in *. assert (Hb1 : books [] s1) by (by apply run_books).
  destruct (run_history tn es1 (initial_cursor (sc_initialCursors config) r) r [] s0) as (hist & Hz); try done.
  { fold s1. by eapply run_disposed. }
  { apply (created_history config tn s0 Hc). by rewrite Hrem. }
  destruct (run_history tn es2 _ r hist s1 Hcap' Hb1 Hd Hz) as (acc & Hz'). by exists hist, acc.
Qed.

(** Nothing enters a history but what the zone sent and every subscriber
    took.  A step of a run appends to the zone's history a contiguous run of
    events of that zone, each from the batch with which a fetch of this very zone
    settled in this step, and none refused by a subscriber in this step; every
    other step appends nothing. *)
Lemma accepted_events_were_delivered (config : SyncEngineConfig) (tn : Tunables) (s0 : Engine H C) (es : list (Event H C))
    (e : Event H C) (r : string) :
  createSyncEngine H C config = Ok (tn, s0) ->
  let s := run tn es s0 in
  let s' := step tn (run_now e) (run_subs e) (run_label e) s in
  en_disposed s' = false ->
  exists acc, accepts tn r acc s s' /\ unrefused acc s s' /\
    (acc ≠ [] -> exists value, hands_over (run_label e) s r value /\ forall ev, ev ∈ acc -> ev ∈ value).
Proof.
  intros Hc s s' Hd. assert (Hb : books [] s) by (by eapply run_books, created_books).
  by apply (step_spec tn (run_now e) (run_subs e) (run_label e) s Hb).
Qed.

(** Health is a function of the failures, and fetches do not pile up.  In any
    run, a known zone that is not disposed of is offline exactly when its
    consecutive failures have reached the threshold and active otherwise; and the
    fetches of a zone that have not settled never outnumber its slot plus the
    times an operator has forced a reset, so without a reset there is at most
    one. *)
Lemma sync_health_and_overlap (config : SyncEngineConfig) (tn : Tunables) (s0 : Engine H C) (es : list (Event H C)) (r : string) :
  createSyncEngine H C config = Ok (tn, s0) ->
  let s := run tn es s0 in
  (forall status failures at_, getHealth r s = Some (status, failures, at_) ->
     en_disposed s = false ->
     (status = Zs_offline <-> tn_offlineAfter tn <= failures) /\ (status = Zs_active <-> failures < tn_offlineAfter tn) /\ 0 <= failures) /\
  (fetches_of r s <= slot r s + resets r s)%nat /\ (slot r s <= 1)%nat.
Proof.
  intros Hc s. pose proof (created_books config tn s0 Hc) as Hb0. pose proof (created_health config tn s0 Hc) as Hh0.
  assert (Hb : books [] s) by (by apply run_books). assert (Hh : health_ok tn s) by (by apply run_health).
  split_and!; [|apply Hb|unfold slot; case_match; lia].
  intros status failures at_ Hg Hd. unfold getHealth in Hg. destruct (m_get r (en_cursors s)); [|done].
  destruct (m_get r (en_statuses s)) as [z|] eqn:Hz; [|done]. injection Hg as <- <- <-.
  destruct (proj1 (proj2 Hh) Hd r) as (H0 & Hcase); [by eexists|].
  destruct Hcase as [[Hst Hf]|[Hst Hf]]; rewrite Hz in Hst; injection Hst as ->; split_and!; try done; split; intros; (done || lia).
Qed.

(** C22: a good remote is followed.  Whatever has happened, failures included, if
    the engine is alive, no fetch of the zone is under way, and subscribers accept
    and do not call back, then a cycle in which the remote answers with the next
    contiguous batch delivers every event of it to every subscriber in order,
    moves the cursor past it, appends it to the log, frees the zone for the next
    cycle and makes it active with no failures. *)
Theorem good_cycle_catches_up (config : SyncEngineConfig) (tn : Tunables) (s0 : Engine H C) (es : list (Event H C)) (r : string)
    (cursor : SyncCursor) (raw : list jsval) (batch : list FederationSyncEvent) (now1 now2 : Z) (subs0 subs : Subscribers H C) :
  createSyncEngine H C config = Ok (tn, s0) ->
  let s := run tn es s0 in
  en_disposed s = false -> r ∈ sc_remoteClients config -> m_get r (en_cursors s) = Some cursor ->
  m_get r (en_outstandingFetches s) = None -> r ∉ en_inflight s ->
  calm subs -> mapM isFederationSyncEvent raw = Some batch -> good_batch r cursor batch ->
  let s1 := step tn now1 subs0 (L_command Do_sync) s in
  exists tok, m_get tok (en_fetches s1) = Some r /\
    caught_up tn r cursor batch now2 s (step tn now2 subs (L_settle tok (Fo_ok (JArr raw))) s1).
Proof.
  intros Hc s Hd Hr Hcur Ho Hi Hcalm Hm Hg. assert (Hb : books [] s) by (by eapply run_books, created_books).
  destruct (created config tn s0 Hc) as (_ & Ht & _). apply checkTunables_ok in Ht as (_ & _ & Hrem).
  eapply sync_then_settle; try done. by rewrite Hrem.
Qed.

End Theorems.

(** ** A concrete run *)

Definition sample_raw (zone : string) (seq : Z) : jsval :=
  JObj [("kind", JStr "write"); ("originZoneId", JStr zone); ("sequence", JNum seq); ("emittedAt", JNum (seq * 10));
        ("data", JObj [("resourceKey", JStr "doc")]); ("vectorClock", JObj [(zone, JNum seq)])].

Definition sample_config : SyncEngineConfig :=
  mkSyncConfig "local" ["a"; "b"] (Finite 100) (Finite 2) None None None (Some (Finite 2)) None true [].

(** Subscriber 0 accepts everything, subscriber 1 refuses event 3. *)
Definition sample_subs : Subscribers nat nat :=
  mkSubscribers (fun h e => ([], negb (bool_decide (h = 1%nat /\ ev_sequence e = 3)))) (fun _ _ => []).

Definition calm_subs : Subscribers nat nat := mkSubscribers (fun _ _ => ([], true)) (fun _ _ => []).

Definition at_time (now : Z) (l : Label (H:=nat) (C:=nat)) : Event nat nat := mkRunEvent now sample_subs l.

Definition sample_tn : Tunables := mkTunables "local" ["a"; "b"] 2 true 150000 (Some 2) Cs_lww true.
Definition sample_s0 : Engine nat nat := initial_engine [] ["a"; "b"].

Lemma sample_created : createSyncEngine nat nat sample_config = Ok (sample_tn, sample_s0).
Proof. reflexivity. Qed.

(** [a] sends events 1 and 2 and then 3 and 4, of which 3 is refused; [b] times
    out twice. *)
Definition sample_run : list (Event nat nat) :=
  [at_time 0 (L_command (Do_onEvent 0%nat)); at_time 0 (L_command (Do_onEvent 1%nat)); at_time 1 (L_command Do_sync);
   at_time 2 (L_settle 0 (Fo_ok (JArr [sample_raw "a" 1; sample_raw "a" 2]))); at_time 3 (L_timeout "b");
   at_time 4 (L_command Do_sync); at_time 5 (L_settle 2 (Fo_ok (JArr [sample_raw "a" 3; sample_raw "a" 4]))) ].

Example sample_state :
  let s := run sample_tn sample_run sample_s0 in
  getHealth "a" s = Some (Zs_active, 1, 2) /\ getHealth "b" s = Some (Zs_active, 1, 0) /\
  ev_sequence <$> getLog "a" s = [1; 2] /\ fetches_of "b" s = 1%nat /\ length (deliveries s) = 6%nat.
Proof. vm_compute. done. Qed.

Lemma sync_refines_history_witness :
  exists hist acc,
    zone_history sample_tn (initial_cursor [] "a") "a" hist (run sample_tn (take 3 sample_run) sample_s0) /\
    zone_history sample_tn (initial_cursor [] "a") "a" (hist ++ acc) (run sample_tn (take 3 sample_run ++ drop 3 sample_run) sample_s0).
Proof.
  apply (sync_refines_history sample_config sample_tn sample_s0 (take 3 sample_run) (drop 3 sample_run) "a").
  - reflexivity.
  - left.
  - vm_compute. reflexivity.
Defined.

Lemma accepted_events_were_delivered_witness :
  let s := run sample_tn (take 6 sample_run) sample_s0 in
  let s' := step sample_tn 5 sample_subs (L_settle 2 (Fo_ok (JArr [sample_raw "a" 3; sample_raw "a" 4]))) s in
  exists acc, accepts sample_tn "a" acc s s' /\ unrefused acc s s'.
Proof.
  destruct (accepted_events_were_delivered sample_config sample_tn sample_s0 (take 6 sample_run)
    (at_time 5 (L_settle 2 (Fo_ok (JArr [sample_raw "a" 3; sample_raw "a" 4])))) "a") as (acc & Ha & Hu & _).
  - reflexivity.
  - vm_compute. reflexivity.
  - exists acc. split; [exact Ha|exact Hu].
Defined.

Lemma sync_health_and_overlap_witness :
  let s := run sample_tn (sample_run ++ [at_time 200000 (L_command Do_sync)]) sample_s0 in
  getHealth "b" s = Some (Zs_offline, 2, 0) /\ (fetches_of "b" s <= slot "b" s + resets "b" s)%nat.
Proof.
  intros s. split; [vm_compute; reflexivity|].
  pose proof (sync_health_and_overlap sample_config sample_tn sample_s0 (sample_run ++ [at_time 200000 (L_command Do_sync)]) "b"
    sample_created) as Hx. cbv zeta in Hx. destruct Hx as (_ & Hx & _). exact Hx.
Defined.

Definition sample_batch : list FederationSyncEvent :=
  default [] (mapM isFederationSyncEvent [sample_raw "a" 3; sample_raw "a" 4; sample_raw "a" 5]).

Lemma good_cycle_catches_up_witness :
  let s := run sample_tn sample_run sample_s0 in
  let s1 := step sample_tn 6 calm_subs (L_command Do_sync) s in
  exists cursor tok, m_get tok (en_fetches s1) = Some "a" /\
    caught_up sample_tn "a" cursor sample_batch 7 s
      (step sample_tn 7 calm_subs (L_settle tok (Fo_ok (JArr [sample_raw "a" 3; sample_raw "a" 4; sample_raw "a" 5]))) s1).
Proof.
  intros s s1.
  exists (mkCursor "a" (Some [("a", 2)]) 2 2).
  apply (good_cycle_catches_up sample_config sample_tn sample_s0 sample_run "a" (mkCursor "a" (Some [("a", 2)]) 2 2)).
  - reflexivity.
  - vm_compute. reflexivity.
  - left.
  - vm_compute. reflexivity.
  - vm_compute. reflexivity.
  - apply s_has_false. vm_compute. reflexivity.
  - split; done.
  - vm_compute. reflexivity.
  - split; [by vm_compute|]. split; [vm_compute; by split_and!|].
    intros e He. repeat (apply elem_of_cons in He as [->|He]; [vm_compute; reflexivity|]). by apply not_elem_of_nil in He.
Defined.

(** ** Disposal from a handler *)

(** A handler that disposes of the engine during a delivery: [dispose] clears the
    state and the rest of [syncZone] writes to it again, a cursor and a log. *)
Definition disposing_subs : Subscribers nat nat := mkSubscribers (fun _ _ => ([Do_dispose], true)) (fun _ _ => []).

Lemma disposal_in_delivery_not_terminal :
  let s := run sample_tn (take 3 sample_run) sample_s0 in
  let s' := step sample_tn 2 disposing_subs (L_settle 0 (Fo_ok (JArr [sample_raw "a" 1]))) s in
  en_disposed s' = true /\ sy_lastSequence <$> m_get "a" (en_cursors s') = Some 1 /\
  length (getLog "a" s') = 1%nat /\ getHealth "a" s' = Some (Zs_active, 0, 2).
Proof. vm_compute. done. Qed.
