(* ===== verification/Raft.v ===== *)
(** * The in-memory consensus of the federation

    [lib/federation/src/raft-consensus.ts]: roles, terms, health and partitions of
    the zones and one log per zone.  [localeCompare] is a parameter.  The first of
    [toSorted(compare)] is computed as the first least element, which it is for a
    comparator that orders its arguments, as the two here do. *)

From S2P Require Import Prelude JsMap.

Local Open Scope string_scope.
Local Open Scope list_scope.
Local Open Scope nat_scope.

Inductive RaftNodeRole : Type := R_leader | R_follower | R_candidate.

#[export] Instance RaftNodeRole_eq_dec : EqDecision RaftNodeRole.
Proof. solve_decision. Defined.

(** The only command is [set]. *)
Record RaftCommand : Type := mkSet { cmd_key : string; cmd_value : jsval }.

Record RaftLogEntry : Type := mkEntry {
  le_term : nat;
  le_index : nat;
  le_command : RaftCommand;
  le_committed : bool
}.

Record RaftNode : Type := mkNode { nd_role : RaftNodeRole; nd_term : nat; nd_healthy : bool }.

Record Cluster : Type := mkCluster {
  nodeIds : list string;
  nodeState : list (string * RaftNode);
  logs : list (string * list RaftLogEntry);
  partitions : list (string * nat)
}.

Definition with_nodes (ns : list (string * RaftNode)) (s : Cluster) : Cluster := mkCluster (nodeIds s) ns (logs s) (partitions s).
Definition with_logs (ls : list (string * list RaftLogEntry)) (s : Cluster) : Cluster := mkCluster (nodeIds s) (nodeState s) ls (partitions s).
Definition with_partitions (ps : list (string * nat)) (s : Cluster) : Cluster := mkCluster (nodeIds s) (nodeState s) (logs s) ps.

(** [xs.toSorted(compare)[0]] *)
Definition first_of {A : Type} (compare : A -> A -> Z) (xs : list A) : option A :=
  match xs with
  | [] => None
  | x :: xs => Some (foldl (fun best y => if (compare y best <? 0)%Z then y else best) x xs)
  end.

Definition string_le (a b : string) : Prop := String.leb a b = true.

#[export] Instance string_le_dec a b : Decision (string_le a b).
Proof. unfold string_le. apply _. Defined.

Definition uniqueSorted (ids : list string) : list string := merge_sort string_le (s_addAll ids []).

Definition last_term (l : list RaftLogEntry) : nat := match last l with Some e => le_term e | None => 0 end.

Definition compareLogs (a b : list RaftLogEntry) : Z :=
  let lengthDelta := (Z.of_nat (length b) - Z.of_nat (length a))%Z in
  if decide (lengthDelta ≠ 0%Z) then lengthDelta else (Z.of_nat (last_term b) - Z.of_nat (last_term a))%Z.

(** ** Queries *)

Definition quorumSize (s : Cluster) : nat := length (nodeIds s) / 2 + 1.

Definition currentTerm (s : Cluster) : nat := foldr Nat.max 0 (nd_term <$> m_values (nodeState s)).

Definition log_of (s : Cluster) (id : string) : list RaftLogEntry := default [] (m_get id (logs s)).
Definition group_of (s : Cluster) (id : string) : nat := default 0 (m_get id (partitions s)).
Definition healthy (s : Cluster) (id : string) : bool := match m_get id (nodeState s) with Some n => nd_healthy n | None => false end.

Definition is_leader (p : string * RaftNode) : Prop := nd_role p.2 = R_leader /\ nd_healthy p.2 = true.

#[export] Instance is_leader_dec p : Decision (is_leader p).
Proof. unfold is_leader. apply _. Defined.

Definition leaders (s : Cluster) : list string := (filter is_leader (nodeState s)).*1.

Definition getLeader (s : Cluster) : option string := head (leaders s).

Definition detectSplitBrain (s : Cluster) : option (nat * list string) :=
  let leaders := merge_sort string_le (leaders s) in
  if decide (length leaders < 2) then None else Some (currentTerm s, leaders).

Definition getNode (s : Cluster) (id : string) : option RaftNode := m_get id (nodeState s).

Definition longestLog (s : Cluster) : list RaftLogEntry := default [] (first_of compareLogs (m_values (logs s))).

Definition reachableHealthyNodes (s : Cluster) (from : string) : list string :=
  filter (fun id => healthy s id = true /\ group_of s id = group_of s from) (nodeIds s).

Definition longestLogInGroup (s : Cluster) (group : nat) : list RaftLogEntry :=
  default [] (first_of compareLogs (log_of s <$> filter (fun id => group_of s id = group /\ healthy s id = true) (nodeIds s))).

(** [Object.fromEntries] of the committed entries. *)
Definition state_of (log : list RaftLogEntry) : list (string * jsval) :=
  foldl (fun acc e => m_set (cmd_key (le_command e)) (cmd_value (le_command e)) acc) [] (filter (fun e => le_committed e = true) log).

Definition getCommittedState (s : Cluster) : list (string * jsval) := state_of (longestLog s).

(** ** Operations *)

Section Ops.
Context (localeCompare : string -> string -> Z).

Definition clearLeaders (s : Cluster) : Cluster :=
  with_nodes ((fun p => (p.1, mkNode R_follower (nd_term p.2) (nd_healthy p.2))) <$> nodeState s) s.

Definition groups_of (s : Cluster) : list (nat * list string) :=
  foldl (fun groups id =>
      if healthy s id then m_set (group_of s id) (default [] (m_get (group_of s id) groups) ++ [id]) groups else groups)
    [] (nodeIds s).

Definition compareGroups (a b : list string) : Z :=
  let d := (Z.of_nat (length b) - Z.of_nat (length a))%Z in
  if decide (d ≠ 0%Z) then d
  else match head a with Some x => localeCompare x (default "" (head b)) | None => 0%Z end.

Definition healthyNodesInLargestPartition (s : Cluster) : list string :=
  default [] (first_of compareGroups (m_values (groups_of s))).

(** A loop over the nodes that rewrites each node's state. *)
Definition update_nodes (f : string -> RaftNode -> RaftNode) (ids : list string) (ns : list (string * RaftNode)) :
    list (string * RaftNode) :=
  foldl (fun ns id => match m_get id ns with Some current => m_set id (f id current) ns | None => ns end) ns ids.

Definition electLeader (s : Cluster) : Cluster :=
  let s := clearLeaders s in
  let eligible := healthyNodesInLargestPartition s in
  if decide (length eligible < quorumSize s) then s
  else
    match head eligible with
    | None => s
    | Some leaderId =>
        let nextTerm := currentTerm s + 1 in
        with_nodes (update_nodes (fun id current =>
            mkNode (if decide (id = leaderId) then R_leader else R_follower) nextTerm (nd_healthy current)) (nodeIds s) (nodeState s)) s
    end.

Definition createInMemoryRaftCluster (nodes : list string) : Cluster :=
  let ids := uniqueSorted nodes in
  electLeader (mkCluster ids ((fun id => (id, mkNode R_follower 0 true)) <$> ids) ((fun id => (id, [])) <$> ids)
    ((fun id => (id, 0)) <$> ids)).

(** Loops that give some nodes a log. *)
Definition set_logs (log : list RaftLogEntry) (ids : list string) (ls : list (string * list RaftLogEntry)) :
    list (string * list RaftLogEntry) :=
  foldl (fun ls id => m_set id log ls) ls ids.

Definition convergeAll (s : Cluster) : Cluster :=
  with_logs (set_logs (longestLog s) (filter (fun id => healthy s id = true) (nodeIds s)) (logs s)) s.

Definition convergePartitionFor (id : string) (s : Cluster) : Cluster :=
  let group := group_of s id in
  with_logs (set_logs (longestLogInGroup s group)
    (filter (fun id => group_of s id = group /\ healthy s id = true) (nodeIds s)) (logs s)) s.

Definition append_failed (why : string) : KoiError := koiError EXTERNAL ("Raft append failed: " +:+ why) true.

Definition append_entry (entry : RaftLogEntry) (ids : list string) (ls : list (string * list RaftLogEntry)) :
    list (string * list RaftLogEntry) :=
  foldl (fun ls id => m_set id (default [] (m_get id ls) ++ [entry]) ls) ls ids.

Definition append (command : RaftCommand) (s : Cluster) : Result RaftLogEntry KoiError * Cluster :=
  match detectSplitBrain s with
  | Some _ => (Err (append_failed "split-brain detected"), s)
  | None =>
      match getLeader s with
      | None => (Err (append_failed "no leader"), s)
      | Some leader =>
          let replicaIds := reachableHealthyNodes s leader in
          if decide (length replicaIds < quorumSize s) then (Err (append_failed "leader cannot reach quorum"), s)
          else
            let term := match m_get leader (nodeState s) with Some n => nd_term n | None => currentTerm s end in
            let entry := mkEntry term (length (longestLog s) + 1) command true in
            (Ok entry, convergePartitionFor leader (with_logs (append_entry entry replicaIds (logs s)) s))
      end
  end.

Definition elect_if_none (s : Cluster) : Cluster := match getLeader s with None => electLeader s | Some _ => s end.

Definition markNodeUnhealthy (id : string) (s : Cluster) : Cluster :=
  match m_get id (nodeState s) with
  | None => s
  | Some current => elect_if_none (with_nodes (m_set id (mkNode R_follower (nd_term current) false) (nodeState s)) s)
  end.

Definition markNodeHealthy (id : string) (s : Cluster) : Cluster :=
  match m_get id (nodeState s) with
  | None => s
  | Some current => elect_if_none (convergeAll (with_nodes (m_set id (mkNode R_follower (currentTerm s) true) (nodeState s)) s))
  end.

(** The map of the groups: a zone in several groups goes to the last. *)
Definition group_map (groups : list (list string)) : list (string * nat) :=
  foldl (fun next g => foldl (fun next id => m_set id g.1 next) next g.2) [] (imap (fun i g => (i, g)) groups).

Definition partition (groups : list (list string)) (s : Cluster) : Cluster :=
  let next := group_map groups in
  clearLeaders (with_partitions
    (foldl (fun ps id => m_set id (default (length groups) (m_get id next)) ps) (partitions s) (nodeIds s)) s).

Definition healPartition (s : Cluster) : Cluster :=
  electLeader (convergeAll (with_partitions (foldl (fun ps id => m_set id 0 ps) (partitions s) (nodeIds s)) s)).

Definition forceElection (id : string) (s : Cluster) : Cluster :=
  match m_get id (nodeState s) with
  | None => s
  | Some current =>
      if negb (nd_healthy current) then s
      else
        let group := group_of s id in
        let nextTerm := currentTerm s + 1 in
        with_nodes (update_nodes (fun nodeId node =>
            let sameGroup := bool_decide (group_of s nodeId = group) in
            mkNode (if decide (nodeId = id) then R_leader else if sameGroup then R_follower else nd_role node)
              (if sameGroup then nextTerm else nd_term node) (nd_healthy node)) (nodeIds s) (nodeState s)) s
  end.

(** ** Runs *)

Inductive Op : Type :=
  | O_append (command : RaftCommand)
  | O_markNodeUnhealthy (id : string)
  | O_markNodeHealthy (id : string)
  | O_partition (groups : list (list string))
  | O_healPartition
  | O_forceElection (id : string).

Definition exec (op : Op) (s : Cluster) : option (Result RaftLogEntry KoiError) * Cluster :=
  match op with
  | O_append c => let '(r, s) := append c s in (Some r, s)
  | O_markNodeUnhealthy id => (None, markNodeUnhealthy id s)
  | O_markNodeHealthy id => (None, markNodeHealthy id s)
  | O_partition gs => (None, partition gs s)
  | O_healPartition => (None, healPartition s)
  | O_forceElection id => (None, forceElection id s)
  end.

Definition run_ops (ops : list Op) (s : Cluster) : Cluster := foldl (fun s op => (exec op s).2) s ops.

End Ops.
