(* ===== verification/RaftSpec.v ===== *)
(** * What the in-memory consensus guarantees

    The invariant: there is one committed sequence; every log is a prefix of it
    and a majority of the zones hold it whole; leaders are healthy, alone in their
    group and alone in their term. *)

From S2P Require Import Prelude JsMap Raft.

Local Open Scope string_scope.
Local Open Scope list_scope.
Local Open Scope nat_scope.

(** ** Loops over maps *)

Lemma update_nodes_get f ids ns j :
  NoDup ids -> m_get j (update_nodes f ids ns) = if decide (j ∈ ids) then f j <$> m_get j ns else m_get j ns.
Proof.
  unfold update_nodes. intros Hnd. revert ns. induction Hnd as [|id ids Hid Hnd IH]; intros ns; [done|]. cbn [foldl].
  rewrite IH. assert (Hstep : m_get j (match m_get id ns with Some current => m_set id (f id current) ns | None => ns end) =
    if decide (j = id) then f id <$> m_get id ns else m_get j ns).
  { destruct (m_get id ns) as [n|] eqn:Hn; [rewrite m_get_set|]; repeat case_decide; subst; try done. }
  rewrite Hstep. destruct (decide (j = id)) as [->|Hne].
  - rewrite decide_False by done. by rewrite decide_True by set_solver.
  - destruct (decide (j ∈ ids)), (decide (j ∈ id :: ids)); try done; exfalso; set_solver.
Qed.

Lemma update_nodes_keys f ids ns : m_keys (update_nodes f ids ns) = m_keys ns.
Proof.
  unfold update_nodes. revert ns. induction ids as [|id ids IH]; intros ns; [done|]. cbn [foldl]. rewrite IH.
  destruct (m_get id ns) eqn:Hn; [|done]. apply m_keys_set_present. by eexists.
Qed.

Lemma set_logs_get log ids ls j : m_get j (set_logs log ids ls) = if decide (j ∈ ids) then Some log else m_get j ls.
Proof.
  unfold set_logs. revert ls. induction ids as [|id ids IH]; intros ls; [done|]. cbn [foldl]. rewrite IH, m_get_set.
  destruct (decide (j ∈ ids)) as [Hj|Hj]; [by rewrite decide_True by set_solver|].
  destruct (decide (id = j)) as [->|Hne]; [by rewrite decide_True by set_solver|].
  rewrite decide_False; [done|]. set_solver.
Qed.

Lemma set_logs_keys log ids ls : (forall id, id ∈ ids -> id ∈ m_keys ls) -> m_keys (set_logs log ids ls) = m_keys ls.
Proof.
  unfold set_logs. revert ls. induction ids as [|id ids IH]; intros ls Hin; [done|]. cbn [foldl].
  assert (Hk : m_keys (m_set id log ls) = m_keys ls) by (apply m_keys_set_present, elem_of_m_keys, Hin; left).
  rewrite IH; [done|]. intros j Hj. rewrite Hk. apply Hin. by right.
Qed.

Lemma append_entry_get e ids ls j :
  NoDup ids -> m_get j (append_entry e ids ls) = if decide (j ∈ ids) then Some (default [] (m_get j ls) ++ [e]) else m_get j ls.
Proof.
  unfold append_entry. intros Hnd. revert ls. induction Hnd as [|id ids Hid Hnd IH]; intros ls; [done|]. cbn [foldl].
  rewrite IH, m_get_set. destruct (decide (j = id)) as [->|Hne].
  - rewrite decide_False by done. rewrite (decide_True _ _ (eq_refl id)). by rewrite decide_True by set_solver.
  - rewrite (decide_False (P := id = j)) by congruence.
    destruct (decide (j ∈ ids)), (decide (j ∈ id :: ids)); try done; exfalso; set_solver.
Qed.

Lemma append_entry_keys e ids ls : (forall id, id ∈ ids -> id ∈ m_keys ls) -> m_keys (append_entry e ids ls) = m_keys ls.
Proof.
  unfold append_entry. revert ls. induction ids as [|id ids IH]; intros ls Hin; [done|]. cbn [foldl].
  assert (Hk : m_keys (m_set id (default [] (m_get id ls) ++ [e]) ls) = m_keys ls)
    by (apply m_keys_set_present, elem_of_m_keys, Hin; left).
  rewrite IH; [done|]. intros j Hj. rewrite Hk. apply Hin. by right.
Qed.

(** ** Majorities *)

Lemma majorities_meet {A : Type} (P Q : A -> Prop) `{!forall x, Decision (P x)} `{!forall x, Decision (Q x)} (l : list A) :
  length l < length (filter P l) + length (filter Q l) -> exists x, x ∈ l /\ P x /\ Q x.
Proof.
  induction l as [|x l IH]; [simpl; lia|]. rewrite !filter_cons. intros Hlen.
  destruct (decide (P x)) as [HP|HP], (decide (Q x)) as [HQ|HQ]; simpl in Hlen.
  - exists x. split; [left|done].
  - destruct IH as (y & Hy & ?); [lia|]. exists y. split; [by right|done].
  - destruct IH as (y & Hy & ?); [lia|]. exists y. split; [by right|done].
  - destruct IH as (y & Hy & ?); [lia|]. exists y. split; [by right|done].
Qed.

Lemma filter_length_mono {A : Type} (P Q : A -> Prop) `{!forall x, Decision (P x)} `{!forall x, Decision (Q x)} (l : list A) :
  (forall x, x ∈ l -> P x -> Q x) -> length (filter P l) <= length (filter Q l).
Proof.
  induction l as [|x l IH]; intros Hpq; [done|]. rewrite !filter_cons.
  assert (IH' : length (filter P l) <= length (filter Q l)) by (apply IH; intros y Hy; apply Hpq; by right).
  destruct (decide (P x)) as [HP|HP], (decide (Q x)) as [HQ|HQ]; simpl; try lia.
  destruct HQ. apply Hpq; [left|done].
Qed.

(** ** The longest log *)

Lemma compareLogs_lt a b : (compareLogs a b < 0)%Z -> length b <= length a.
Proof. unfold compareLogs. case_decide; lia. Qed.

Lemma compareLogs_ge a b : (0 <= compareLogs a b)%Z -> length a <= length b.
Proof. unfold compareLogs. case_decide; lia. Qed.

(** The first log is a longest one. *)
Lemma first_longest ls l : first_of compareLogs ls = Some l -> l ∈ ls /\ forall l', l' ∈ ls -> length l' <= length l.
Proof.
  destruct ls as [|x ls]; [done|]. simpl. intros [= <-]. revert x. induction ls as [|y ls IH]; intros x; simpl.
  - split; [left|]. intros l' ->%list_elem_of_singleton. lia.
  - set (x' := if (compareLogs y x <? 0)%Z then y else x). destruct (IH x') as [H1 H2].
    assert (Hx' : (x' = x \/ x' = y) /\ length x <= length x' /\ length y <= length x').
    { unfold x'. destruct (Z.ltb_spec (compareLogs y x) 0) as [Hlt|Hge].
      - apply compareLogs_lt in Hlt. split_and!; [by right|done|done].
      - apply compareLogs_ge in Hge. split_and!; [by left|done|done]. }
    destruct Hx' as (Hor & Hlx & Hly). split.
    + apply elem_of_cons in H1 as [->|H1]; [destruct Hor as [->| ->]; set_solver|set_solver].
    + assert (Hl : length x' <= length (foldl (fun best y => if (compareLogs y best <? 0)%Z then y else best) x' ls)).
      { apply H2. left. }
      intros l' [->|[->|Hin]%elem_of_cons]%elem_of_cons; [lia|lia|]. apply H2. by right.
Qed.

Lemma first_of_some {A : Type} (cmp : A -> A -> Z) l : l ≠ [] -> is_Some (first_of cmp l).
Proof. destruct l; [done|]. by eexists. Qed.

Lemma first_of_elem {A : Type} (cmp : A -> A -> Z) l x : first_of cmp l = Some x -> x ∈ l.
Proof.
  destruct l as [|y l]; [done|]. simpl. intros [= <-]. revert y. induction l as [|z l IH]; intros y; simpl; [left|].
  specialize (IH (if (cmp z y <? 0)%Z then z else y)). case_match; set_solver.
Qed.

(** ** The invariant *)

Definition wf (s : Cluster) : Prop := NoDup (nodeIds s) /\ m_keys (nodeState s) = nodeIds s /\ m_keys (logs s) = nodeIds s.

(** Every log is a prefix of [C], and a majority holds [C]. *)
Definition log_ok (C : list RaftLogEntry) (s : Cluster) : Prop :=
  (forall id, log_of s id `prefix_of` C) /\
  (C = [] \/ quorumSize s <= length (filter (fun id => length (log_of s id) = length C) (nodeIds s))).

Definition leads (s : Cluster) (id : string) (n : RaftNode) : Prop := m_get id (nodeState s) = Some n /\ nd_role n = R_leader.

Definition role_ok (s : Cluster) : Prop :=
  (forall id n, leads s id n -> nd_healthy n = true) /\
  (forall id1 n1 id2 n2, leads s id1 n1 -> leads s id2 n2 ->
     group_of s id1 = group_of s id2 \/ nd_term n1 = nd_term n2 -> id1 = id2).

Definition term_ok (C : list RaftLogEntry) (s : Cluster) : Prop :=
  (forall e, e ∈ C -> le_term e <= currentTerm s) /\ (forall id n e, leads s id n -> e ∈ C -> le_term e <= nd_term n).

(** Entries are committed, numbered from 1, and their terms do not decrease. *)
Definition entries_ok (C : list RaftLogEntry) : Prop :=
  (forall i e, C !! i = Some e -> le_index e = i + 1 /\ le_committed e = true) /\
  StronglySorted (fun a b => le_term a <= le_term b) C.

Record raft_inv (C : list RaftLogEntry) (s : Cluster) : Prop := mkRaftInv {
  ri_wf : wf s;
  ri_log : log_ok C s;
  ri_role : role_ok s;
  ri_term : term_ok C s;
  ri_entries : entries_ok C
}.

(** ** Terms *)

Lemma foldr_max_le l k : foldr Nat.max 0 l <= k <-> Forall (fun x => x <= k) l.
Proof.
  induction l as [|x l IH]; simpl; [split; [by constructor|lia]|]. rewrite Forall_cons, <-IH. lia.
Qed.

Lemma currentTerm_le s k : wf s -> currentTerm s <= k <-> forall id n, m_get id (nodeState s) = Some n -> nd_term n <= k.
Proof.
  intros (Hnd & Hk & _). unfold currentTerm. rewrite foldr_max_le, Forall_forall. split.
  - intros Hall id n Hg. apply Hall. apply m_get_elem in Hg. apply list_elem_of_fmap. exists n. split; [done|].
    apply list_elem_of_fmap. by exists (id, n).
  - intros Hall x Hx. apply list_elem_of_fmap in Hx as (n & -> & Hx). apply list_elem_of_fmap in Hx as ([id n'] & -> & Hx).
    simpl. apply (Hall id). apply elem_m_get; [by rewrite Hk|done].
Qed.

Lemma currentTerm_ge s id n : wf s -> m_get id (nodeState s) = Some n -> nd_term n <= currentTerm s.
Proof. intros Hw Hg. by eapply (currentTerm_le s). Qed.

(** The term does not fall when no node's does. *)
Lemma currentTerm_mono s s' :
  wf s -> wf s' ->
  (forall id n, m_get id (nodeState s) = Some n -> exists n', m_get id (nodeState s') = Some n' /\ nd_term n <= nd_term n') ->
  currentTerm s <= currentTerm s'.
Proof.
  intros Hw Hw' Hn. apply currentTerm_le; [done|]. intros id n Hg. destruct (Hn id n Hg) as (n' & Hg' & Hle).
  pose proof (currentTerm_ge s' id n' Hw' Hg'). lia.
Qed.

(** ** Logs *)

Lemma prefix_same_length {A : Type} (l C : list A) : l `prefix_of` C -> length C <= length l -> l = C.
Proof. intros [k ->] Hlen. rewrite length_app in Hlen. destruct k; [by rewrite app_nil_r|simpl in Hlen; lia]. Qed.

Lemma log_of_values s l : wf s -> l ∈ m_values (logs s) <-> exists id, id ∈ nodeIds s /\ log_of s id = l.
Proof.
  intros (Hnd & _ & Hk). split.
  - intros Hl. apply list_elem_of_fmap in Hl as ([id l'] & -> & Hin). exists id. split.
    + rewrite <-Hk. apply list_elem_of_fmap. by exists (id, l').
    + unfold log_of. rewrite (elem_m_get _ id l'); [done|by rewrite Hk|done].
  - intros (id & Hid & <-). rewrite <-Hk in Hid. apply elem_of_m_keys in Hid as [l Hl]. unfold log_of. rewrite Hl.
    apply list_elem_of_fmap. exists (id, l). split; [done|]. by apply m_get_elem.
Qed.

Lemma log_holder C s : wf s -> log_ok C s -> C ≠ [] -> exists id, id ∈ nodeIds s /\ log_of s id = C.
Proof.
  intros Hw [Hp [->|Hq]] Hne; [done|].
  destruct (filter (fun id => length (log_of s id) = length C) (nodeIds s)) as [|id ids] eqn:Hf.
  { unfold quorumSize in Hq. simpl in Hq. lia. }
  assert (Hin : id ∈ filter (fun id => length (log_of s id) = length C) (nodeIds s)) by (rewrite Hf; left).
  apply list_elem_of_filter in Hin as [Hlen Hin]. exists id. split; [done|]. apply prefix_same_length; [apply Hp|lia].
Qed.

Lemma longestLog_eq C s : wf s -> log_ok C s -> longestLog s = C.
Proof.
  intros Hw Hok. unfold longestLog. destruct (first_of compareLogs (m_values (logs s))) as [l|] eqn:Hf.
  - simpl. apply first_longest in Hf as [Hin Hmax]. apply (log_of_values s l Hw) in Hin as (id & _ & <-).
    apply prefix_same_length; [apply Hok|]. destruct (decide (C = [])) as [->|Hne]; [simpl; lia|].
    destruct (log_holder C s Hw Hok Hne) as (id' & Hid' & Hl'). rewrite <-Hl' at 1. apply Hmax.
    apply log_of_values; [done|by exists id'].
  - simpl. symmetry. destruct C as [|e C]; [done|]. exfalso.
    destruct (log_holder _ s Hw Hok ltac:(done)) as (id & Hid & Hl).
    assert (Hin : log_of s id ∈ m_values (logs s)) by (apply log_of_values; [done|by exists id]).
    destruct (m_values (logs s)); [by apply not_elem_of_nil in Hin|done].
Qed.

Lemma log_ok_ext C s s' :
  nodeIds s' = nodeIds s -> logs s' = logs s -> log_ok C s -> log_ok C s'.
Proof. intros H1 H2 [Hp Hq]. unfold log_ok, log_of, quorumSize in *. by rewrite H1, H2. Qed.

(** Giving some nodes the whole sequence. *)
Lemma log_ok_set C s ids :
  log_ok C s -> log_ok C (with_logs (set_logs C ids (logs s)) s).
Proof.
  intros [Hp Hq].
  assert (Hl : forall id, log_of (with_logs (set_logs C ids (logs s)) s) id = if decide (id ∈ ids) then C else log_of s id).
  { intros id. unfold log_of. simpl. rewrite set_logs_get. by case_decide. }
  split.
  - intros id. rewrite Hl. by case_decide.
  - destruct Hq as [->|Hq]; [by left|right]. unfold quorumSize in *. simpl. etrans; [exact Hq|].
    apply filter_length_mono. intros id _ Hid. rewrite Hl. by case_decide.
Qed.

Lemma wf_logs s ls : wf s -> m_keys ls = nodeIds s -> wf (with_logs ls s).
Proof. by intros (H1 & H2 & H3) Hk. Qed.

Lemma wf_nodes s ns : wf s -> m_keys ns = nodeIds s -> wf (with_nodes ns s).
Proof. by intros (H1 & H2 & H3) Hk. Qed.

Lemma converge_inv C s : raft_inv C s -> raft_inv C (convergeAll s).
Proof.
  intros [Hw Hl Hr Ht He]. unfold convergeAll. rewrite (longestLog_eq C s Hw Hl). constructor; try done.
  - apply wf_logs; [done|]. rewrite set_logs_keys; [apply Hw|]. intros id Hid. apply list_elem_of_filter in Hid as [_ Hid].
    destruct Hw as (_ & _ & ->). done.
  - by apply log_ok_set.
Qed.

(** ** Elections *)

Section Elections.
Context (localeCompare : string -> string -> Z).

Lemma clear_get s id :
  m_get id (nodeState (clearLeaders s)) = (fun n => mkNode R_follower (nd_term n) (nd_healthy n)) <$> m_get id (nodeState s).
Proof.
  unfold clearLeaders. simpl. induction (nodeState s) as [|[id' n] ns IH]; [done|]. rewrite fmap_cons. cbn [m_get].
  simpl. destruct (decide (id = id')); [done|exact IH].
Qed.

Lemma clear_keys s : m_keys (nodeState (clearLeaders s)) = m_keys (nodeState s).
Proof. unfold clearLeaders, m_keys. simpl. rewrite <-list_fmap_compose. by apply list_fmap_ext. Qed.

Lemma clear_no_leader s id n : ~ leads (clearLeaders s) id n.
Proof.
  intros [Hg Hr]. rewrite clear_get in Hg. destruct (m_get id (nodeState s)); [|done]. injection Hg as <-. done.
Qed.

Lemma clear_healthy s id : healthy (clearLeaders s) id = healthy s id.
Proof. unfold healthy. rewrite clear_get. by destruct (m_get id (nodeState s)). Qed.

(** Setting roles and terms keeps the invariant when no term falls and the new
    roles are in order. *)
Lemma nodes_inv C s ns :
  raft_inv C s -> m_keys ns = nodeIds s ->
  (forall id n, m_get id (nodeState s) = Some n -> exists n', m_get id ns = Some n' /\ nd_term n <= nd_term n') ->
  role_ok (with_nodes ns s) -> (forall id n e, leads (with_nodes ns s) id n -> e ∈ C -> le_term e <= nd_term n) ->
  raft_inv C (with_nodes ns s).
Proof.
  intros [Hw Hl Hr [Ht _] He] Hk Hmono Hrole Hterm. assert (Hw' : wf (with_nodes ns s)) by by apply wf_nodes.
  constructor; try done. split; [|done]. intros e Hin.
  pose proof (currentTerm_mono s (with_nodes ns s) Hw Hw' Hmono). specialize (Ht e Hin). lia.
Qed.

Lemma clear_inv C s : raft_inv C s -> raft_inv C (clearLeaders s).
Proof.
  intros Hi. apply (nodes_inv C s); [done| | | |].
  - change (m_keys (nodeState (clearLeaders s)) = nodeIds s). rewrite clear_keys. apply Hi.
  - intros id n Hg. change (exists n', m_get id (nodeState (clearLeaders s)) = Some n' /\ nd_term n <= nd_term n').
    rewrite clear_get, Hg. by eexists.
  - split; [intros id n Hld|intros id n ? ? Hld]; by apply (clear_no_leader s) in Hld.
  - intros id n e Hld. by apply (clear_no_leader s) in Hld.
Qed.

(** One leader with a term above all. *)
Lemma crown_inv C s leaderId f :
  raft_inv C s -> healthy s leaderId = true ->
  (forall id n, nd_healthy (f id n) = nd_healthy n) ->
  (forall id n, m_get id (nodeState s) = Some n -> nd_term n <= nd_term (f id n)) ->
  (forall id n, nd_role (f id n) = R_leader -> id = leaderId /\ nd_term (f id n) = currentTerm s + 1 \/
     nd_role n = R_leader /\ nd_term (f id n) = nd_term n /\ group_of s id ≠ group_of s leaderId) ->
  raft_inv C (with_nodes (update_nodes f (nodeIds s) (nodeState s)) s).
Proof.
  intros Hi Hh Hfh Hft Hfr. pose proof Hi as [(Hnd & Hk & Hkl) Hl [Hr1 Hr2] [Ht1 Ht2] He].
  assert (Hget : forall id, m_get id (update_nodes f (nodeIds s) (nodeState s)) = f id <$> m_get id (nodeState s)).
  { intros id. rewrite update_nodes_get by done. case_decide as Hin; [done|]. rewrite <-Hk in Hin.
    apply not_elem_of_m_keys in Hin. by rewrite Hin. }
  assert (Hold : forall id n, leads (with_nodes (update_nodes f (nodeIds s) (nodeState s)) s) id n ->
    exists n0, m_get id (nodeState s) = Some n0 /\ n = f id n0 /\
      (id = leaderId /\ nd_term n = currentTerm s + 1 \/
       leads s id n0 /\ nd_term n = nd_term n0 /\ group_of s id ≠ group_of s leaderId)).
  { intros id n [Hg Hro]. simpl in Hg. rewrite Hget in Hg. destruct (m_get id (nodeState s)) as [n0|] eqn:Hn; [|done].
    injection Hg as <-. exists n0. split_and!; [done..|]. destruct (Hfr id n0 Hro) as [?|(? & ? & ?)]; [by left|right]. by split_and!. }
  apply (nodes_inv C s); [done| | | |].
  - by rewrite update_nodes_keys.
  - intros id n Hg. rewrite Hget, Hg. exists (f id n). split; [done|by apply Hft].
  - split.
    + intros id n Hld. destruct (Hold id n Hld) as (n0 & Hn0 & -> & Hcase). rewrite Hfh.
      destruct Hcase as [[-> _]|[Hld0 _]]; [|by eapply Hr1]. unfold healthy in Hh. by rewrite Hn0 in Hh.
    + intros id1 n1 id2 n2 H1 H2 Hor. change (group_of (with_nodes ?ns s) ?x) with (group_of s x) in Hor.
      destruct (Hold _ _ H1) as (m1 & Hm1 & _ & C1). destruct (Hold _ _ H2) as (m2 & Hm2 & _ & C2).
      pose proof (currentTerm_ge s id1 m1 (conj Hnd (conj Hk Hkl)) Hm1). pose proof (currentTerm_ge s id2 m2 (conj Hnd (conj Hk Hkl)) Hm2).
      destruct C1 as [[-> T1]|(L1 & T1 & G1)], C2 as [[-> T2]|(L2 & T2 & G2)].
      * done.
      * destruct Hor as [Hg|Ht]; [congruence|lia].
      * destruct Hor as [Hg|Ht]; [congruence|lia].
      * apply (Hr2 _ m1 _ m2 L1 L2). destruct Hor as [Hg|Ht]; [by left|right; lia].
  - intros id n e Hld Hin. destruct (Hold _ _ Hld) as (n0 & Hn0 & _ & [[-> T]|(L & T & _)]).
    + specialize (Ht1 e Hin). lia.
    + rewrite T. by eapply Ht2.
Qed.

Lemma groups_of_healthy s g ids : m_get g (groups_of s) = Some ids -> forall id, id ∈ ids -> healthy s id = true /\ group_of s id = g /\ id ∈ nodeIds s.
Proof.
  unfold groups_of.
  assert (Hg : forall l acc, (forall g ids, m_get g acc = Some ids -> forall id, id ∈ ids -> healthy s id = true /\ group_of s id = g /\ id ∈ nodeIds s) ->
    (forall id, id ∈ l -> id ∈ nodeIds s) ->
    forall g ids, m_get g (foldl (fun groups id =>
      if healthy s id then m_set (group_of s id) (default [] (m_get (group_of s id) groups) ++ [id]) groups else groups) acc l) = Some ids ->
    forall id, id ∈ ids -> healthy s id = true /\ group_of s id = g /\ id ∈ nodeIds s).
  { intros l. induction l as [|x l IH]; intros acc Hacc Hl; [exact Hacc|]. cbn [foldl]. apply IH; [|intros id Hid; apply Hl; by right].
    destruct (healthy s x) eqn:Hx; [|exact Hacc]. intros g' ids'. rewrite m_get_set. case_decide as Hq; [|apply Hacc].
    intros [= <-] id [Hid|Hid]%elem_of_app.
    - destruct (m_get (group_of s x) acc) as [old|] eqn:Ho; [|by apply not_elem_of_nil in Hid].
      rewrite <-Hq. by apply (Hacc _ _ Ho).
    - apply list_elem_of_singleton in Hid. subst. split_and!; [done..|apply Hl; left]. }
  intros Hm. by apply (Hg (nodeIds s) []).
Qed.

Lemma eligible_healthy s id :
  id ∈ healthyNodesInLargestPartition localeCompare s -> healthy s id = true /\ id ∈ nodeIds s.
Proof.
  unfold healthyNodesInLargestPartition. intros Hid.
  destruct (first_of (compareGroups localeCompare) (m_values (groups_of s))) as [ids|] eqn:Hf; [|by apply not_elem_of_nil in Hid].
  simpl in Hid. apply first_of_elem, list_elem_of_fmap in Hf as ([g ids'] & -> & Hin).
  assert (Hnd : NoDup (m_keys (groups_of s))).
  { unfold groups_of. assert (Hacc : NoDup (m_keys (@nil (nat * list string)))) by constructor. revert Hacc.
    generalize (@nil (nat * list string)). induction (nodeIds s) as [|x l IH]; intros acc Hacc; [done|]. cbn [foldl]. apply IH.
    case_match; [by apply NoDup_m_set|done]. }
  apply (elem_m_get _ _ _ Hnd) in Hin. destruct (groups_of_healthy s g ids' Hin id Hid) as (H1 & _ & H2). done.
Qed.

Lemma elect_inv C s : raft_inv C s -> raft_inv C (electLeader localeCompare s).
Proof.
  intros Hi%clear_inv. unfold electLeader. cbv zeta. assert (Hnl := clear_no_leader s). set (s1 := clearLeaders s) in *. clearbody s1.
  case_decide as Hq; [done|].
  destruct (head (healthyNodesInLargestPartition localeCompare s1)) as [leaderId|] eqn:Hh; [|done].
  assert (Hel : leaderId ∈ healthyNodesInLargestPartition localeCompare s1).
  { destruct (healthyNodesInLargestPartition localeCompare s1); [done|]. injection Hh as ->. left. }
  apply eligible_healthy in Hel as [Hhl _]. apply (crown_inv C s1 leaderId); try done.
  - intros id n Hg. simpl. pose proof (currentTerm_ge s1 id n (ri_wf _ _ Hi) Hg). lia.
  - intros id n. simpl. case_decide; [|done]. intros _. by left.
Qed.

Lemma elect_if_none_inv C s : raft_inv C s -> raft_inv C (elect_if_none localeCompare s).
Proof. intros Hi. unfold elect_if_none. case_match; [done|by apply elect_inv]. Qed.

(** Making one node a follower. *)
Lemma demote_inv C s id n h t :
  raft_inv C s -> m_get id (nodeState s) = Some n -> nd_term n <= t ->
  raft_inv C (with_nodes (m_set id (mkNode R_follower t h) (nodeState s)) s).
Proof.
  intros Hi Hg Ht. pose proof Hi as [(Hnd & Hk & Hkl) Hl [Hr1 Hr2] [Ht1 Ht2] He].
  assert (Hold : forall id' n', leads (with_nodes (m_set id (mkNode R_follower t h) (nodeState s)) s) id' n' -> leads s id' n').
  { intros id' n' [Hg' Hro]. simpl in Hg'. rewrite m_get_set in Hg'. case_decide; [by injection Hg' as <-|done]. }
  apply (nodes_inv C s); [done| | | |].
  - rewrite m_keys_set_present; [done|by eexists].
  - intros id' n' Hg'. rewrite m_get_set. case_decide as Hq; [|by eexists]. subst. eexists. split; [done|]. simpl.
    rewrite Hg in Hg'. by injection Hg' as <-.
  - split; [intros id' n' Hld; by eapply Hr1, Hold|]. intros id1 n1 id2 n2 H1 H2. by apply (Hr2 _ n1 _ n2); apply Hold.
  - intros id' n' e Hld. apply Hold in Hld. by apply (Ht2 id').
Qed.

Lemma regroup_inv C s ps : raft_inv C s -> raft_inv C (clearLeaders (with_partitions ps s)).
Proof.
  intros Hi%clear_inv. destruct Hi as [Hw Hl Hr Ht He].
  change (clearLeaders (with_partitions ps s)) with (with_partitions ps (clearLeaders s)).
  assert (Hno : forall id n, ~ leads (with_partitions ps (clearLeaders s)) id n) by (intros id n; apply (clear_no_leader s)).
  constructor; try done. split; [intros id n Hld|intros id n ? ? Hld]; by apply Hno in Hld.
Qed.

End Elections.

(** ** Operations keep the invariant *)

Lemma clear_idem s : clearLeaders (clearLeaders s) = clearLeaders s.
Proof. unfold clearLeaders, with_nodes. simpl. f_equal. rewrite <-list_fmap_compose. by apply list_fmap_ext. Qed.

Lemma clear_converge s : clearLeaders (convergeAll s) = convergeAll (clearLeaders s).
Proof.
  unfold convergeAll. change (longestLog (clearLeaders s)) with (longestLog s). change (nodeIds (clearLeaders s)) with (nodeIds s).
  change (logs (clearLeaders s)) with (logs s).
  assert (Hf : filter (fun id => healthy (clearLeaders s) id = true) (nodeIds s) = filter (fun id => healthy s id = true) (nodeIds s)).
  { apply list_filter_iff. intros id. by rewrite clear_healthy. }
  by rewrite Hf.
Qed.

Section Operations.
Context (localeCompare : string -> string -> Z).

Lemma heal_inv C s : raft_inv C s -> raft_inv C (healPartition localeCompare s).
Proof.
  intros Hi. unfold healPartition. set (s1 := with_partitions _ s).
  assert (He : forall x, electLeader localeCompare x = electLeader localeCompare (clearLeaders x)) by (intros x; unfold electLeader; by rewrite clear_idem).
  rewrite He, clear_converge. apply elect_inv, converge_inv. by apply regroup_inv.
Qed.

Lemma partition_inv C gs s : raft_inv C s -> raft_inv C (partition gs s).
Proof. intros Hi. by apply regroup_inv. Qed.

Lemma unhealthy_inv C id s : raft_inv C s -> raft_inv C (markNodeUnhealthy localeCompare id s).
Proof.
  intros Hi. unfold markNodeUnhealthy. destruct (m_get id (nodeState s)) as [n|] eqn:Hg; [|done].
  by apply elect_if_none_inv, (demote_inv C s id n).
Qed.

Lemma healthy_inv C id s : raft_inv C s -> raft_inv C (markNodeHealthy localeCompare id s).
Proof.
  intros Hi. unfold markNodeHealthy. destruct (m_get id (nodeState s)) as [n|] eqn:Hg; [|done].
  apply elect_if_none_inv, converge_inv, (demote_inv C s id n); [done..|]. by eapply currentTerm_ge, Hg; apply Hi.
Qed.

Lemma force_inv C id s : raft_inv C s -> raft_inv C (forceElection id s).
Proof.
  intros Hi. unfold forceElection. destruct (m_get id (nodeState s)) as [n|] eqn:Hg; [|done].
  destruct (nd_healthy n) eqn:Hh; [|done]. simpl. apply (crown_inv C s id); try done.
  - unfold healthy. by rewrite Hg.
  - intros id' n' Hg'. simpl. case_bool_decide; [|done]. pose proof (currentTerm_ge s id' n' (ri_wf _ _ Hi) Hg'). lia.
  - intros id' n'. simpl. case_decide as Hq; [subst|].
    + intros _. left. by rewrite bool_decide_true.
    + case_bool_decide; [done|]. intros Hr. by right.
Qed.

(** *** Appending *)

Lemma log_of_append e ids s id :
  NoDup ids -> log_of (with_logs (append_entry e ids (logs s)) s) id = if decide (id ∈ ids) then log_of s id ++ [e] else log_of s id.
Proof. intros Hnd. unfold log_of. simpl. rewrite append_entry_get by done. by case_decide. Qed.

(** A majority of reachable nodes has a member that holds the whole sequence. *)
Lemma reachable_holder C s leader :
  wf s -> log_ok C s -> quorumSize s <= length (reachableHealthyNodes s leader) ->
  exists id, id ∈ reachableHealthyNodes s leader /\ log_of s id = C.
Proof.
  intros Hw [Hp Hq] Hr. set (R := reachableHealthyNodes s leader) in *. destruct Hq as [->|Hq].
  - destruct R as [|id R'] eqn:HR; [unfold quorumSize in Hr; simpl in Hr; lia|]. exists id. split; [left|].
    apply prefix_nil_inv, Hp.
  - destruct (majorities_meet (fun id => healthy s id = true /\ group_of s id = group_of s leader)
      (fun id => length (log_of s id) = length C) (nodeIds s)) as (id & Hid & HR & Hl).
    + change (filter _ _) with R at 1. unfold quorumSize in *. pose proof (Nat.div_mod (length (nodeIds s)) 2 ltac:(lia)).
      pose proof (Nat.mod_upper_bound (length (nodeIds s)) 2 ltac:(lia)). lia.
    + exists id. split; [by apply list_elem_of_filter|]. apply prefix_same_length; [apply Hp|lia].
Qed.

(** What a successful append does: every reachable node holds the sequence with
    the new entry, every other log is unchanged. *)
Lemma append_logs C s leader e :
  wf s -> log_ok C s -> quorumSize s <= length (reachableHealthyNodes s leader) ->
  let s' := convergePartitionFor leader (with_logs (append_entry e (reachableHealthyNodes s leader) (logs s)) s) in
  nodeIds s' = nodeIds s /\ nodeState s' = nodeState s /\ partitions s' = partitions s /\ m_keys (logs s') = nodeIds s /\
  forall id, log_of s' id = if decide (id ∈ reachableHealthyNodes s leader) then C ++ [e] else log_of s id.
Proof.
  intros Hw Hl Hr s'. set (R := reachableHealthyNodes s leader) in *.
  set (s1 := with_logs (append_entry e R (logs s)) s) in *.
  assert (HndR : NoDup R) by (apply NoDup_filter, Hw).
  assert (HR : filter (fun id => group_of s1 id = group_of s1 leader /\ healthy s1 id = true) (nodeIds s1) = R).
  { apply list_filter_iff. intros id. change (healthy s1 id) with (healthy s id). change (group_of s1 ?x) with (group_of s x). tauto. }
  assert (Hkeys : forall id, id ∈ R -> id ∈ m_keys (logs s)).
  { intros id Hid. apply list_elem_of_filter in Hid as [_ Hid]. by rewrite (proj2 (proj2 Hw)). }
  assert (Hk1 : m_keys (logs s1) = nodeIds s) by (simpl; rewrite append_entry_keys by done; apply Hw).
  assert (Hlong : longestLogInGroup s1 (group_of s1 leader) = C ++ [e]).
  { unfold longestLogInGroup. rewrite HR. destruct (reachable_holder C s leader Hw Hl Hr) as (x & Hx & HC). fold R in Hx.
    destruct (first_of compareLogs (log_of s1 <$> R)) as [l|] eqn:Hf.
    2: { destruct (first_of_some compareLogs (log_of s1 <$> R)) as [l Hs]; [|congruence].
         intros Hn%fmap_nil_inv. rewrite Hn in Hx. by apply not_elem_of_nil in Hx. }
    simpl. apply first_longest in Hf as [Hin Hmax]. apply list_elem_of_fmap in Hin as (y & -> & Hy).
    assert (Hlx : length (log_of s1 x) <= length (log_of s1 y)) by (apply Hmax, list_elem_of_fmap; by exists x).
    assert (Hnew : forall z, z ∈ R -> log_of s1 z = log_of s z ++ [e]).
    { intros z Hz. unfold s1. rewrite log_of_append by done. by rewrite decide_True. }
    rewrite (Hnew _ Hx), (Hnew _ Hy) in Hlx. rewrite (Hnew _ Hy). rewrite !length_app, HC in Hlx. simpl in Hlx.
    f_equal. apply prefix_same_length; [apply Hl|lia]. }
  unfold s', convergePartitionFor. rewrite HR, Hlong. split_and!; try done.
  - simpl. rewrite set_logs_keys; [done|]. intros id Hid. change (id ∈ m_keys (logs s1)). rewrite Hk1. by apply list_elem_of_filter in Hid as [_ ?].
  - intros id. unfold log_of at 1. simpl. rewrite set_logs_get. case_decide as Hid; [done|].
    change (log_of s1 id = log_of s id). unfold s1. by rewrite log_of_append, decide_False.
Qed.

Lemma getLeader_leads s leader : wf s -> getLeader s = Some leader -> exists n, leads s leader n.
Proof.
  intros (Hnd & Hk & _) Hg. unfold getLeader, leaders in Hg. destruct (filter is_leader (nodeState s)) as [|[id n] l] eqn:Hf; [done|].
  injection Hg as ->. assert (Hin : (leader, n) ∈ filter is_leader (nodeState s)) by (rewrite Hf; left).
  apply list_elem_of_filter in Hin as [[Hr _] Hin]. exists n. split; [|done]. apply elem_m_get; [by rewrite Hk|done].
Qed.

Lemma elem_of_leaders s id : wf s -> role_ok s -> id ∈ leaders s <-> exists n, leads s id n.
Proof.
  intros (Hnd & Hk & _) [Hr1 _]. unfold leaders. rewrite list_elem_of_fmap. split.
  - intros ([id' n] & -> & Hin). apply list_elem_of_filter in Hin as [[Hr _] Hin]. exists n. split; [|done].
    apply elem_m_get; [by rewrite Hk|done].
  - intros (n & Hld). exists (id, n). split; [done|]. apply list_elem_of_filter. pose proof (Hr1 id n Hld).
    destruct Hld as [Hg Hr]. split; [done|]. by apply m_get_elem.
Qed.

Lemma no_split_one_leader s id1 n1 id2 n2 :
  wf s -> role_ok s -> detectSplitBrain s = None -> leads s id1 n1 -> leads s id2 n2 -> id1 = id2.
Proof.
  intros Hw Hr Hd H1 H2. unfold detectSplitBrain in Hd. case_decide as Hlen; [|done].
  rewrite (Permutation_length (merge_sort_Permutation string_le (leaders s))) in Hlen.
  assert (E1 : id1 ∈ leaders s) by (apply elem_of_leaders; eauto). assert (E2 : id2 ∈ leaders s) by (apply elem_of_leaders; eauto).
  destruct (leaders s) as [|x [|y l]]; [by apply not_elem_of_nil in E1| |simpl in Hlen; lia].
  apply list_elem_of_singleton in E1, E2. congruence.
Qed.

(** The outcome of an append, on every branch. *)
Lemma append_spec c C s :
  raft_inv C s ->
  let '(r, s') := append c s in
  match r with
  | Err e => s' = s /\ err_code e = EXTERNAL /\ err_retryable e = true /\
      ((exists t ids, detectSplitBrain s = Some (t, ids)) \/ leaders s = [] \/
       exists leader, leaders s = [leader] /\ length (reachableHealthyNodes s leader) < quorumSize s)
  | Ok e => raft_inv (C ++ [e]) s' /\ le_command e = c /\
      exists leader n, leaders s = [leader] /\ leads s leader n /\ le_term e = nd_term n /\
        quorumSize s <= length (reachableHealthyNodes s leader) /\
        forall id, log_of s' id = if decide (id ∈ reachableHealthyNodes s leader) then C ++ [e] else log_of s id
  end.
Proof.
  intros Hi. pose proof Hi as [Hw Hl Hr [Ht1 Ht2] [He1 He2]]. unfold append.
  destruct (detectSplitBrain s) as [[t ids]|] eqn:Hsb; [split_and!; try done; left; eauto|].
  destruct (getLeader s) as [leader|] eqn:Hg.
  2: { split_and!; try done. right. left. unfold getLeader in Hg. by destruct (leaders s). }
  assert (Hone : leaders s = [leader]).
  { unfold getLeader in Hg. destruct (leaders s) as [|x [|y l]] eqn:Hls; [done|by injection Hg as ->|]. exfalso.
    unfold detectSplitBrain in Hsb. case_decide as Hlen; [|done].
    rewrite (Permutation_length (merge_sort_Permutation string_le (leaders s))), Hls in Hlen. simpl in Hlen. lia. }
  case_decide as Hq; [split_and!; try done; right; right; by exists leader|].
  destruct (getLeader_leads s leader Hw Hg) as [n Hld]. rewrite (proj1 Hld), (longestLog_eq C s Hw Hl).
  set (e := mkEntry (nd_term n) (length C + 1) c true). assert (Hq' : quorumSize s <= length (reachableHealthyNodes s leader)) by lia.
  destruct (append_logs C s leader e Hw Hl Hq') as (A1 & A2 & A3 & A4 & A5).
  set (s' := convergePartitionFor leader _) in *. split; [|split; [done|by exists leader, n]]. destruct Hl as [Hp Hqu].
  assert (Hct : currentTerm s' = currentTerm s) by (unfold currentTerm; by rewrite A2).
  assert (Hlead : forall id m, leads s' id m -> leads s id m) by (intros id m [G1 G2]; rewrite A2 in G1; done).
  constructor.
  - destruct Hw as (W1 & W2 & W3). unfold wf. by rewrite A1, A2.
  - split.
    + intros id. rewrite A5. case_decide; [done|]. by apply prefix_app_r.
    + right. unfold quorumSize in *. rewrite A1. etrans; [exact Hq'|]. apply filter_length_mono.
      intros id Hid HR. rewrite A5, decide_True; [done|by apply list_elem_of_filter].
  - destruct Hr as [R1 R2]. split; [intros id m Hm; by eapply R1, Hlead|]. intros id1 m1 id2 m2 L1 L2 Hor.
    apply (R2 _ m1 _ m2); [by apply Hlead..|]. unfold group_of in *. by rewrite A3 in Hor.
  - split.
    + intros e' [Hin|Hin]%elem_of_app; rewrite Hct; [by apply Ht1|]. apply list_elem_of_singleton in Hin. subst e'. simpl.
      by eapply currentTerm_ge, Hld.
    + intros id m e' Hm%Hlead [Hin|Hin]%elem_of_app; [by eapply Ht2|]. apply list_elem_of_singleton in Hin. subst e'. simpl.
      assert (id = leader) as -> by by eapply no_split_one_leader. destruct Hm as [M1 _], Hld as [M2 _]. rewrite M2 in M1. by injection M1 as ->.
  - split.
    + intros i e' Hlk. apply lookup_snoc_Some in Hlk as [[_ Hlk]|[-> <-]]; [by apply He1|]. simpl. split; [lia|done].
    + apply StronglySorted_snoc; [done|]. intros y Hy. simpl. by apply (Ht2 leader).
Qed.

End Operations.

(** ** Runs *)

Section Runs.
Context (localeCompare : string -> string -> Z).

Notation create := (createInMemoryRaftCluster localeCompare).
Notation execute := (exec localeCompare).
Notation run := (run_ops localeCompare).

Lemma create_inv nodes : raft_inv [] (create nodes).
Proof.
  apply elect_inv. set (ids := uniqueSorted nodes).
  assert (Hnd : NoDup ids) by (unfold ids, uniqueSorted; rewrite merge_sort_Permutation; apply NoDup_s_addAll; constructor).
  assert (Hk : forall {V : Type} (v : V), m_keys ((fun id => (id, v)) <$> ids) = ids).
  { intros V v. unfold m_keys. rewrite <-list_fmap_compose. rewrite <-(list_fmap_id ids) at 2. by apply list_fmap_ext. }
  assert (Hfol : forall id n, ~ leads (mkCluster ids ((fun id => (id, mkNode R_follower 0 true)) <$> ids) ((fun id => (id, [])) <$> ids)
    ((fun id => (id, 0)) <$> ids)) id n).
  { intros id n [Hg Hr]. simpl in Hg. apply m_get_elem, list_elem_of_fmap in Hg as (x & [= -> ->] & _). done. }
  constructor.
  - split_and!; [done|apply Hk|apply Hk].
  - split; [|by left]. intros id. unfold log_of. simpl. destruct (m_get id _) as [l|] eqn:Hg; [|done].
    apply m_get_elem, list_elem_of_fmap in Hg as (x & [= -> ->] & _). done.
  - split; [intros id n Hld|intros id n ? ? Hld]; by apply Hfol in Hld.
  - split; [intros e He|intros id n e _ He]; by apply not_elem_of_nil in He.
  - split; [done|constructor].
Qed.

(** One operation: the new committed sequence. *)
Lemma exec_inv C op s :
  raft_inv C s ->
  let '(r, s') := execute op s in
  match r with
  | Some (Ok e) => raft_inv (C ++ [e]) s' /\ exists c, op = O_append c /\ le_command e = c
  | _ => raft_inv C s'
  end.
Proof.
  intros Hi. destruct op as [c|id|id|gs| |id]; cbn [exec].
  - pose proof (append_spec localeCompare c C s Hi) as Ha. destruct (append c s) as [[e|e] s'].
    + destruct Ha as (Ha & Hc & _). split; [done|]. by exists c.
    + by destruct Ha as (-> & _).
  - by apply unhealthy_inv.
  - by apply healthy_inv.
  - by apply partition_inv.
  - by apply heal_inv.
  - by apply force_inv.
Qed.

Lemma run_inv C ops s : raft_inv C s -> exists D, raft_inv (C ++ D) (run ops s).
Proof.
  revert C s. induction ops as [|op ops IH]; intros C s Hi; [exists []; by rewrite app_nil_r|].
  cbn [run_ops foldl]. pose proof (exec_inv C op s Hi) as He. destruct (execute op s) as [[[e|e]|] s'].
  - destruct He as [He _]. destruct (IH _ s' He) as [D HD]. exists (e :: D). by rewrite <-app_assoc in HD.
  - by apply IH.
  - by apply IH.
Qed.

Lemma cluster_inv nodes ops : exists C, raft_inv C (run ops (create nodes)) /\ longestLog (run ops (create nodes)) = C.
Proof.
  destruct (run_inv [] ops (create nodes) (create_inv nodes)) as [C HC]. exists C. split; [done|].
  by apply longestLog_eq; apply HC.
Qed.

Lemma state_of_snoc C e :
  le_committed e = true -> state_of (C ++ [e]) = m_set (cmd_key (le_command e)) (cmd_value (le_command e)) (state_of C).
Proof. intros He. unfold state_of. rewrite filter_app, filter_cons, decide_True, foldl_app by done. done. Qed.

(** C20: the cluster behaves as one map.  Whatever nodes fail, recover, are
    partitioned or force elections, the committed state changes only when an
    append is acknowledged, and then by exactly that command; the acknowledged
    entry carries the command under the next index; an append that is refused and
    every other operation leave the committed state as it is. *)
Theorem raft_linearizable (nodes : list string) (ops : list Op) (op : Op) :
  let s := run ops (create nodes) in
  let '(r, s') := execute op s in
  match r with
  | Some (Ok e) =>
      exists c, op = O_append c /\ le_command e = c /\ le_index e = length (longestLog s) + 1 /\
        getCommittedState s' = m_set (cmd_key c) (cmd_value c) (getCommittedState s)
  | Some (Err e) => s' = s /\ err_code e = EXTERNAL /\ err_retryable e = true
  | None => getCommittedState s' = getCommittedState s
  end.
Proof.
  intros s. destruct (cluster_inv nodes ops) as (C & Hi & HC). fold s in Hi, HC.
  pose proof (exec_inv C op s Hi) as He. destruct (execute op s) as [[[e|e]|] s'] eqn:Hop.
  - destruct He as (Hi' & c & -> & Hc). exists c. split_and!; [done|done| |].
    + rewrite HC. apply (proj1 (ri_entries _ _ Hi')). by rewrite lookup_app_r, Nat.sub_diag by lia.
    + unfold getCommittedState. rewrite HC, (longestLog_eq (C ++ [e]) s') by apply Hi'. rewrite state_of_snoc, Hc; [done|].
      apply (proj1 (ri_entries _ _ Hi') (length C)). by rewrite lookup_app_r, Nat.sub_diag by lia.
  - destruct op as [c| | | | |]; cbn [exec] in Hop; try done. pose proof (append_spec localeCompare c C s Hi) as Ha.
    destruct (append c s) as [[e'|e'] s1]; [done|]. injection Hop as -> ->. by destruct Ha as (-> & -> & -> & _).
  - unfold getCommittedState. by rewrite HC, (longestLog_eq C s') by apply He.
Qed.

(** Acknowledged entries are never lost or reordered.  After any operations
    every log is a prefix of the longest one, which a majority of the nodes holds
    unless it is empty; it only grows, by entries at its end; its entries are
    committed, numbered from 1, and their terms do not decrease. *)
Lemma raft_log_safety (nodes : list string) (ops1 ops2 : list Op) :
  let s1 := run ops1 (create nodes) in
  let s := run (ops1 ++ ops2) (create nodes) in
  longestLog s1 `prefix_of` longestLog s /\
  (forall id, log_of s id `prefix_of` longestLog s) /\
  (longestLog s = [] \/ quorumSize s <= length (filter (fun id => length (log_of s id) = length (longestLog s)) (nodeIds s))) /\
  entries_ok (longestLog s).
Proof.
  intros s1 s. destruct (cluster_inv nodes ops1) as (C1 & Hi1 & HC1). fold s1 in Hi1, HC1.
  destruct (run_inv C1 ops2 s1 Hi1) as [D HD].
  assert (Hs : s = run ops2 s1) by (unfold s, s1, run_ops; by rewrite foldl_app).
  rewrite <-Hs in HD. rewrite HC1, (longestLog_eq (C1 ++ D) s) by apply HD. split_and!; [by exists D|apply HD|apply HD|apply HD].
Qed.

(** Leadership and availability.  After any operations every leader is
    healthy, no two share a partition group or a term, and an append is
    acknowledged exactly when there is one leader and it reaches a majority of
    healthy nodes of its group; every one of these then holds the whole log with
    the new entry, which carries the leader's term. *)
Lemma raft_leadership (nodes : list string) (ops : list Op) (c : RaftCommand) :
  let s := run ops (create nodes) in
  role_ok s /\
  let '(r, s') := append c s in
  (is_ok r = true <-> exists leader, leaders s = [leader] /\ quorumSize s <= length (reachableHealthyNodes s leader)) /\
  (forall e leader, r = Ok e -> leaders s = [leader] ->
     (le_term e) = default 0 (nd_term <$> getNode s leader) /\
     forall id, id ∈ reachableHealthyNodes s leader -> log_of s' id = longestLog s ++ [e]).
Proof.
  intros s. destruct (cluster_inv nodes ops) as (C & Hi & HC). fold s in Hi, HC. split; [apply Hi|].
  pose proof (append_spec localeCompare c C s Hi) as Ha. destruct (append c s) as [[e|e] s'].
  - destruct Ha as (Hi' & Hc & leader & n & Hl & [Hld _] & Ht & Hq & Hlog). split; [by split; [intros _; exists leader|]|].
    intros e' leader' [= <-] Hl'. assert (leader' = leader) as -> by congruence. unfold getNode. rewrite Hld, HC. split; [done|].
    intros id Hid. by rewrite Hlog, decide_True.
  - destruct Ha as (_ & _ & _ & Hwhy). split; [|done]. split; [done|]. intros (leader & Hl & Hq). exfalso.
    destruct Hwhy as [(t & ids & Hsb)|[Hn|(leader' & Hl' & Hq')]].
    + unfold detectSplitBrain in Hsb. case_decide as Hlen; [done|]. apply Hlen.
      rewrite (Permutation_length (merge_sort_Permutation string_le (leaders s))), Hl. simpl. lia.
    + congruence.
    + assert (leader' = leader) as -> by congruence. lia.
Qed.

(** ** Recovery *)

Definition healthy_nodes (s : Cluster) : list string := filter (fun id => healthy s id = true) (nodeIds s).

Lemma set_zero_get (ids : list string) (ps : list (string * nat)) id : id ∈ ids -> m_get id (foldl (fun ps id => m_set id 0 ps) ps ids) = Some 0.
Proof.
  assert (Hk : forall (ids : list string) (ps : list (string * nat)), m_get id ps = Some 0 -> m_get id (foldl (fun ps id => m_set id 0 ps) ps ids) = Some 0).
  { intros l. induction l as [|x l IH]; intros q Hq; [done|]. cbn [foldl]. apply IH. rewrite m_get_set. by case_decide. }
  revert ps. induction ids as [|x ids IH]; intros ps Hin; [by apply not_elem_of_nil in Hin|]. cbn [foldl].
  apply elem_of_cons in Hin as [->|Hin]; [apply Hk, m_get_set_eq|by apply IH].
Qed.

(** With one group, the largest partition is all the healthy nodes. *)
Lemma groups_of_one s :
  (forall id, id ∈ nodeIds s -> group_of s id = 0) ->
  healthyNodesInLargestPartition localeCompare s = healthy_nodes s.
Proof.
  intros Hg. unfold healthyNodesInLargestPartition, groups_of, healthy_nodes.
  set (step := fun (groups : list (nat * list string)) id => if healthy s id then m_set (group_of s id) (default [] (m_get (group_of s id) groups) ++ [id]) groups else groups).
  assert (Hfold : forall l l0, (forall id, id ∈ l -> group_of s id = 0) ->
    foldl step [(0, l0)] l = [(0, l0 ++ filter (fun id => healthy s id = true) l)]).
  { intros l. induction l as [|x l IH]; intros l0 Hl; [by rewrite app_nil_r|]. cbn [foldl]. rewrite filter_cons. unfold step at 2.
    rewrite (Hl x) by left. assert (Hl' : forall id, id ∈ l -> group_of s id = 0) by (intros id Hid; apply Hl; by right).
    destruct (healthy s x) eqn:Hx; [rewrite decide_True by done|rewrite decide_False by done; by apply IH].
    simpl. rewrite IH by done. by rewrite <-app_assoc. }
  assert (Hstart : forall l, (forall id, id ∈ l -> group_of s id = 0) ->
    default [] (first_of (compareGroups localeCompare) (m_values (foldl step [] l))) = filter (fun id => healthy s id = true) l).
  { intros l. induction l as [|x l IH]; intros Hl; [done|]. cbn [foldl]. rewrite filter_cons. unfold step at 2.
    rewrite (Hl x) by left. assert (Hl' : forall id, id ∈ l -> group_of s id = 0) by (intros id Hid; apply Hl; by right).
    destruct (healthy s x) eqn:Hx; [rewrite decide_True by done|rewrite decide_False by done; by apply IH].
    simpl. by rewrite Hfold. }
  by apply Hstart.
Qed.

Lemma singleton_of {A : Type} (l : list A) a : NoDup l -> a ∈ l -> (forall x, x ∈ l -> x = a) -> l = [a].
Proof.
  intros Hnd Ha Hall. destruct l as [|x [|y l]]; [by apply not_elem_of_nil in Ha| |].
  - f_equal. apply Hall. left.
  - exfalso. apply NoDup_cons in Hnd as [Hx _]. apply Hx. assert (Hx1 : x = a) by (apply Hall; left). assert (Hy1 : y = a) by (apply Hall; right; left). subst x y. left.
Qed.

Lemma leaders_NoDup s : wf s -> NoDup (leaders s).
Proof.
  intros (Hnd & Hk & _). unfold leaders. rewrite <-Hk in Hnd. unfold m_keys in Hnd. clear Hk. induction (nodeState s) as [|p ns IH]; [constructor|].
  rewrite fmap_cons in Hnd. apply NoDup_cons in Hnd as [Hp Hnd]. specialize (IH Hnd). rewrite filter_cons. case_decide; [|exact IH].
  rewrite fmap_cons. apply NoDup_cons. split; [|exact IH]. intros Hin. apply Hp. apply list_elem_of_fmap in Hin as (q & -> & Hq).
  apply list_elem_of_filter in Hq as [_ Hq]. apply list_elem_of_fmap. by exists q.
Qed.

(** Electing in a single group with a healthy majority gives one leader. *)
Lemma elect_one C s :
  raft_inv C s -> (forall id, id ∈ nodeIds s -> group_of s id = 0) -> quorumSize s <= length (healthy_nodes s) ->
  exists leader, leaders (electLeader localeCompare s) = [leader] /\ leader ∈ healthy_nodes s /\
    logs (electLeader localeCompare s) = logs s /\ nodeIds (electLeader localeCompare s) = nodeIds s /\
    partitions (electLeader localeCompare s) = partitions s /\
    forall id, healthy (electLeader localeCompare s) id = healthy s id.
Proof.
  intros Hi Hg Hq. pose proof (elect_inv localeCompare C s Hi) as Hi'. revert Hi'. unfold electLeader. cbv zeta.
  set (s1 := clearLeaders s). assert (Hi1 : raft_inv C s1) by by apply clear_inv.
  assert (Hh1 : healthy_nodes s1 = healthy_nodes s) by (apply list_filter_iff; intros id; unfold s1; by rewrite clear_healthy).
  rewrite (groups_of_one s1 Hg), Hh1. rewrite decide_False by (change (quorumSize s1) with (quorumSize s); lia).
  destruct (healthy_nodes s) as [|leader l] eqn:Hl; [unfold quorumSize in Hq; simpl in Hq; lia|]. cbn [head].
  set (f := fun id current => mkNode (if decide (id = leader) then R_leader else R_follower) (currentTerm s1 + 1) (nd_healthy current)).
  set (s2 := with_nodes (update_nodes f (nodeIds s1) (nodeState s1)) s1). intros Hi2. exists leader.
  destruct (ri_wf _ _ Hi1) as (Hnd & Hk & _).
  assert (Hget : forall id, m_get id (nodeState s2) = if decide (id ∈ nodeIds s) then f id <$> m_get id (nodeState s1) else m_get id (nodeState s1))
    by (intros id; unfold s2; simpl; by apply update_nodes_get).
  assert (Hin : leader ∈ nodeIds s /\ healthy s leader = true).
  { assert (leader ∈ healthy_nodes s) as Hx by (rewrite Hl; left). by apply list_elem_of_filter in Hx as [? ?]. }
  assert (Hlead : forall id n, leads s2 id n -> id = leader).
  { intros id n [Hgid Hr]. rewrite Hget in Hgid. case_decide.
    - destruct (m_get id (nodeState s1)); [|done]. injection Hgid as <-. simpl in Hr. by case_decide.
    - exfalso. by apply (clear_no_leader s id n). }
  split_and!; [|by left|done|done|done|].
  - apply singleton_of; [by apply leaders_NoDup, Hi2| |].
    + apply elem_of_leaders; [apply Hi2|apply Hi2|]. change (nodeIds s1) with (nodeIds s) in Hk. rewrite <-Hk in Hin.
      destruct Hin as [Hin _]. pose proof Hin as [n Hn]%elem_of_m_keys. exists (f leader n). split.
      * rewrite Hget, Hn, <-Hk, decide_True by done. done.
      * simpl. by rewrite decide_True.
    + intros x Hx. apply elem_of_leaders in Hx as [n Hn]; [by eapply Hlead|apply Hi2|apply Hi2].
  - intros id. rewrite <-(clear_healthy s id). unfold healthy. rewrite Hget. fold s1. case_decide; [|done]. by destruct (m_get id (nodeState s1)).
Qed.

Lemma heal_spec C s :
  raft_inv C s -> quorumSize s <= length (healthy_nodes s) ->
  let s' := healPartition localeCompare s in
  exists leader, leaders s' = [leader] /\ reachableHealthyNodes s' leader = healthy_nodes s /\ quorumSize s' = quorumSize s /\
    forall id, id ∈ healthy_nodes s -> log_of s' id = C.
Proof.
  intros Hi Hq s'. unfold s', healPartition. set (s1 := with_partitions _ s).
  set (s2 := convergeAll s1).
  assert (He : electLeader localeCompare s2 = electLeader localeCompare (clearLeaders s2)) by (unfold electLeader; by rewrite clear_idem).
  assert (Hi2 : raft_inv C (clearLeaders s2)) by (unfold s2; rewrite clear_converge; by apply converge_inv, regroup_inv).
  assert (Hgrp : forall id, id ∈ nodeIds s -> group_of s1 id = 0).
  { intros id Hid. unfold group_of, s1. simpl. by rewrite set_zero_get. }
  assert (Hh : healthy_nodes (clearLeaders s2) = healthy_nodes s) by (apply list_filter_iff; intros id; by rewrite clear_healthy).
  destruct (elect_one C (clearLeaders s2) Hi2 Hgrp) as (leader & Hl & Hin & E1 & E2 & E3 & E4); [by rewrite Hh|].
  rewrite He. set (s3 := electLeader localeCompare (clearLeaders s2)) in *. exists leader. rewrite Hh in Hin.
  assert (Hg3 : forall id, id ∈ nodeIds s -> group_of s3 id = 0) by (intros id Hid; unfold group_of; rewrite E3; by apply Hgrp).
  split_and!; [done| |unfold quorumSize; by rewrite E2|].
  - unfold reachableHealthyNodes, healthy_nodes. rewrite E2. change (nodeIds (clearLeaders s2)) with (nodeIds s).
    apply list_elem_of_filter in Hin as [_ Hin]. rewrite (Hg3 leader Hin).
    assert (Hsub : forall l : list string, (forall id, id ∈ l -> id ∈ nodeIds s) ->
      filter (fun id => healthy s3 id = true /\ group_of s3 id = 0) l = filter (fun id => healthy s id = true) l).
    { intros l. induction l as [|x l IH]; intros Hs; [done|]. rewrite !filter_cons, IH by (intros id Hid; apply Hs; by right).
      assert (Hx : healthy s3 x = healthy s x) by (rewrite E4; apply (clear_healthy s2)).
      rewrite Hx, Hg3 by (apply Hs; left). destruct (decide (healthy s x = true)).
      - by rewrite decide_True.
      - by rewrite decide_False by tauto. }
    by apply Hsub.
  - intros id Hid. unfold log_of. rewrite E1. change (logs (clearLeaders s2)) with (logs s2). unfold s2, convergeAll. simpl.
    rewrite set_logs_get. rewrite decide_True; [|exact Hid]. simpl.
    change (longestLog s1) with (longestLog s). by apply longestLog_eq; apply Hi.
Qed.

(** Healing restores service.  Whenever a majority of the nodes is healthy,
    healing the partition elects one leader, gives every healthy node the whole
    committed log, and the next append is acknowledged and reaches all of them. *)
Lemma heal_restores_service (nodes : list string) (ops : list Op) (c : RaftCommand) :
  let s := run ops (create nodes) in
  quorumSize s <= length (healthy_nodes s) ->
  let s' := healPartition localeCompare s in
  exists leader e s'', leaders s' = [leader] /\ (forall id, id ∈ healthy_nodes s -> log_of s' id = longestLog s) /\
    append c s' = (Ok e, s'') /\ le_command e = c /\ forall id, id ∈ healthy_nodes s -> log_of s'' id = longestLog s ++ [e].
Proof.
  intros s Hq s'. destruct (cluster_inv nodes ops) as (C & Hi & HC). fold s in Hi, HC.
  destruct (heal_spec C s Hi Hq) as (leader & Hl & Hr & Hqs & Hlog). fold s' in Hl, Hr, Hqs, Hlog.
  assert (Hi' : raft_inv C s') by by apply heal_inv.
  pose proof (append_spec localeCompare c C s' Hi') as Ha. rewrite HC. destruct (append c s') as [[e|e] s''] eqn:Happ.
  - destruct Ha as (_ & Hc & leader' & n & Hl' & _ & _ & _ & Hlog'). assert (leader' = leader) as -> by congruence.
    exists leader, e, s''. split_and!; [done|done|done|done|]. intros id Hid. by rewrite Hlog', Hr, decide_True.
  - exfalso. destruct Ha as (_ & _ & _ & [(t & ids & Hsb)|[Hn|(leader' & Hl' & Hq')]]).
    + unfold detectSplitBrain in Hsb. case_decide as Hlen; [done|]. apply Hlen.
      rewrite (Permutation_length (merge_sort_Permutation string_le (leaders s'))), Hl. simpl. lia.
    + congruence.
    + assert (leader' = leader) as -> by congruence. rewrite Hr, Hqs in Hq'. lia.
Qed.

End Runs.

(** ** A concrete run *)

Definition sample_compare (a b : string) : Z := if String.eqb a b then 0%Z else if String.leb a b then (-1)%Z else 1%Z.

(** Three zones; [a] is cut off and fails, [b] takes over. *)
Definition sample_ops : list Op :=
  [O_append (mkSet "epoch" (JNum 1)); O_partition [["a"]; ["b"; "c"]]; O_markNodeUnhealthy "a"; O_append (mkSet "epoch" (JNum 2))].

Example sample_cluster :
  let s := run_ops sample_compare sample_ops (createInMemoryRaftCluster sample_compare ["c"; "a"; "b"; "a"]) in
  nodeIds s = ["a"; "b"; "c"] /\ getCommittedState s = [("epoch", JNum 2)] /\ length (log_of s "a") = 1 /\ leaders s = ["b"].
Proof. vm_compute. done. Qed.

Lemma heal_restores_service_witness :
  let s := run_ops sample_compare sample_ops (createInMemoryRaftCluster sample_compare ["a"; "b"; "c"]) in
  let s' := healPartition sample_compare s in
  exists leader e s'', leaders s' = [leader] /\ (forall id, id ∈ healthy_nodes s -> log_of s' id = longestLog s) /\
    append (mkSet "x" JNull) s' = (Ok e, s'') /\ le_command e = mkSet "x" JNull /\
    forall id, id ∈ healthy_nodes s -> log_of s'' id = longestLog s ++ [e].
Proof.
  intros s s'. apply (heal_restores_service sample_compare ["a"; "b"; "c"] sample_ops (mkSet "x" JNull)).
  vm_compute. lia.
Defined.

(** A node that rejoins in a minority group is handed the committed log of a
    majority it cannot reach. *)
Lemma healthy_node_reads_across_partition :
  let s := run_ops sample_compare (sample_ops ++ [O_markNodeHealthy "a"]) (createInMemoryRaftCluster sample_compare ["a"; "b"; "c"]) in
  group_of s "a" ≠ group_of s "b" /\ length (log_of s "a") = 2.
Proof. vm_compute. by split. Qed.
