(* ===== verification/FederationMiddleware.v ===== *)
(** * Routing of tool calls between zones

    [lib/federation/src/zone-router.ts] and [federation-middleware.ts].  A call is
    a function of what the caller passes up to the dispatch ([route]), and then a
    race between the answer of the transport and the abort signal ([in_flight]).
    The transport, the resolver of tenants, the router, [crypto.randomUUID] and
    [localeCompare] are parameters; latencies and loads are integers. *)

From S2P Require Import Prelude JsMap SyncEngine Raft.

Local Open Scope string_scope.
Local Open Scope list_scope.
Local Open Scope Z_scope.

(** ** zone-router.ts *)

Record ZoneRouteCandidate : Type := mkCandidate {
  zr_zoneId : string;
  zr_status : ZoneStatus;
  zr_latencyMs : number;
  zr_load : option Z
}.

Section Router.
Context (localeCompare : string -> string -> Z).

(** Only finite latencies are compared. *)
Definition latency (c : ZoneRouteCandidate) : Z := match zr_latencyMs c with Finite n => n | _ => 0 end.

Definition compareCandidates (a b : ZoneRouteCandidate) : Z :=
  let latencyDelta := latency a - latency b in
  if decide (latencyDelta ≠ 0) then latencyDelta
  else
    let loadDelta := default 0 (zr_load a) - default 0 (zr_load b) in
    if decide (loadDelta ≠ 0) then loadDelta else localeCompare (zr_zoneId a) (zr_zoneId b).

Definition routable (c : ZoneRouteCandidate) : bool :=
  bool_decide (zr_status c = Zs_active) && match zr_latencyMs c with Finite n => 0 <=? n | _ => false end.

Definition pickHealthyZone (candidates : list ZoneRouteCandidate) : option ZoneRouteCandidate :=
  first_of compareCandidates (filter (fun c => routable c = true) candidates).

(** The monitor is a map. *)
Definition createStaticZoneHealthMonitor (initial : list ZoneRouteCandidate) : list (string * ZoneRouteCandidate) :=
  foldl (fun m c => m_set (zr_zoneId c) c m) [] initial.

Definition setHealth (id : string) (status : ZoneStatus) (latencyMs : number) (load : option Z)
    (m : list (string * ZoneRouteCandidate)) : list (string * ZoneRouteCandidate) :=
  m_set id (mkCandidate id status latencyMs load) m.

Definition selectZone (m : list (string * ZoneRouteCandidate)) : option ZoneRouteCandidate := pickHealthyZone (m_values m).

End Router.

(** ** federation-middleware.ts *)

Inductive FederationPrincipalPolicy : Type := Pp_omit | Pp_forward.

#[export] Instance FederationPrincipalPolicy_eq_dec : EqDecision FederationPrincipalPolicy.
Proof. solve_decision. Defined.

Record FederationRemoteCapabilities : Type := mkCapabilities { cap_cancel : bool; cap_understandsPrincipalFields : bool }.

Record SessionContext : Type := mkSession {
  ses_agentId : string;
  ses_sessionId : string;
  ses_runId : option string;
  ses_conversationId : option string;
  ses_userId : option string;
  ses_channelId : option string
}.

Record TurnContext : Type := mkTurn {
  tc_session : SessionContext;
  tc_turnId : string;
  tc_turnIndex : Z;
  tc_metadata : list (string * jsval)
}.

(** [aborted] is [request.signal.aborted] when the call starts; no signal is
    [None]. *)
Record ToolRequest : Type := mkToolRequest {
  tq_toolId : string;
  tq_input : jsval;
  tq_callId : option string;
  tq_metadata : option (list (string * jsval));
  tq_aborted : option bool
}.

Record FederationMiddlewareConfig : Type := mkFederation {
  fm_localZoneId : string;
  fm_remoteTransports : list string;
  fm_remoteCapabilities : list (string * FederationRemoteCapabilities);
  fm_principalForwarding : list (string * FederationPrincipalPolicy);
  fm_tenantIdResolver : option (TurnContext -> option string);
  fm_forwardedMetadataKeys : option (list string);
  fm_zoneRouter : option (string -> jsval -> option string);
  fm_onDelegated : bool
}.

Definition capability (config : FederationMiddlewareConfig) (zone : string) : FederationRemoteCapabilities :=
  default (mkCapabilities false false) (m_get zone (fm_remoteCapabilities config)).

Definition policy_of (config : FederationMiddlewareConfig) (zone : string) : FederationPrincipalPolicy :=
  default Pp_omit (m_get zone (fm_principalForwarding config)).

Inductive SetupError : Type := Se_not_understood (zone : string) | Se_no_resolver (zone : string).

Fixpoint check_forwarding (config : FederationMiddlewareConfig) (entries : list (string * FederationPrincipalPolicy)) :
    option SetupError :=
  match entries with
  | [] => None
  | (zone, policy) :: entries =>
      if decide (policy ≠ Pp_forward) then check_forwarding config entries
      else if negb (cap_understandsPrincipalFields (capability config zone)) then Some (Se_not_understood zone)
      else match fm_tenantIdResolver config with None => Some (Se_no_resolver zone) | Some _ => check_forwarding config entries end
  end.

(** The checks of [createFederationMiddleware]. *)
Definition createFederationMiddleware (config : FederationMiddlewareConfig) : option SetupError :=
  check_forwarding config (fm_principalForwarding config).

Record Principal : Type := mkPrincipal {
  pr_session : SessionContext;
  pr_turnId : string;
  pr_turnIndex : Z;
  pr_tenantId : string
}.

(** The payload of [federation.zone_execute]. *)
Record Execute : Type := mkExecute {
  ex_toolId : string;
  ex_input : jsval;
  ex_callId : string;
  ex_targetZoneId : string;
  ex_originZoneId : string;
  ex_metadata : option (list (string * jsval));
  ex_principalPolicy : option FederationPrincipalPolicy;
  ex_principal : option Principal
}.

(** The payload of [federation.zone_cancel]. *)
Record Cancel : Type := mkCancel {
  ca_callId : string;
  ca_targetZoneId : string;
  ca_originZoneId : string;
  ca_toolId : string
}.

Inductive RouteEffect : Type :=
  | Re_next
  | Re_onDelegated (zone : string)
  | Re_execute (zone : string) (payload : Execute)
  | Re_cancel (zone : string) (payload : Cancel).

Inductive RouteError : Type :=
  | Rt_unknown_zone (zone : string)
  | Rt_aborted (zone toolId callId : string) (cancelSupported : bool)
  | Rt_no_tenant (zone : string)
  | Rt_no_allowlist (zone : string)
  | Rt_remote_failed (zone : string) (error : KoiError)
  | Rt_malformed (zone : string)
  | Rt_rejected.

(** [describeCapabilities]: the target that the description names. *)
Definition describeCapabilities (ctx : TurnContext) : option string :=
  match m_get "targetZoneId" (tc_metadata ctx) with Some (JStr z) => Some z | _ => None end.

Definition pickAllowedKeys (source : list (string * jsval)) (allowed : list string) : option (list (string * jsval)) :=
  if decide (allowed = []) then None
  else
    let out := foldl (fun out key => match m_get key source with Some v => m_set key v out | None => out end) [] allowed in
    if decide (out = []) then None else Some out.

Inductive Malformed : Type := Mf_not_object | Mf_no_output | Mf_undefined_output | Mf_metadata.

Definition validateRemoteToolResponse (value : jsval) : Result (list (string * jsval)) Malformed :=
  match value with
  | JObj obj =>
      match m_get "output" obj with
      | None => Err Mf_no_output
      | Some JUndefined => Err Mf_undefined_output
      | Some _ =>
          match m_get "metadata" obj with
          | None | Some JUndefined | Some (JObj _) => Ok obj
          | Some _ => Err Mf_metadata
          end
      end
  | _ => Err Mf_not_object
  end.

(** Where a call stands after the synchronous part. *)
Inductive Routed : Type :=
  | Ro_local
  | Ro_failed (error : RouteError)
  | Ro_in_flight (payload : Execute).

Section Middleware.
Context (config : FederationMiddlewareConfig) (randomUUID : string).
Context (ctx : TurnContext) (request : ToolRequest).

Definition target : option string :=
  match m_get "targetZoneId" (tc_metadata ctx) with
  | Some (JStr z) => Some z
  | None | Some JUndefined => match fm_zoneRouter config with Some select => select (tq_toolId request) (tq_input request) | None => None end
  | Some _ => None
  end.

Definition federationCallId : string := default ("fed-" +:+ randomUUID) (tq_callId request).

Definition principal_of (zone : string) : Result (option Principal) RouteError :=
  match policy_of config zone with
  | Pp_omit => Ok None
  | Pp_forward =>
      match (fm_tenantIdResolver config ≫= fun resolve => resolve ctx) with
      | Some tenantId =>
          if decide (tenantId = "") then Err (Rt_no_tenant zone)
          else Ok (Some (mkPrincipal (tc_session ctx) (tc_turnId ctx) (tc_turnIndex ctx) tenantId))
      | None => Err (Rt_no_tenant zone)
      end
  end.

Definition metadata_of (zone : string) : Result (option (list (string * jsval))) RouteError :=
  match tq_metadata request with
  | None => Ok None
  | Some metadata =>
      match fm_forwardedMetadataKeys config with
      | None => Err (Rt_no_allowlist zone)
      | Some keys => Ok (pickAllowedKeys metadata keys)
      end
  end.

(** [wrapToolCall] up to the dispatch: its effects in order. *)
Definition route : list RouteEffect * Routed :=
  match target with
  | None => ([Re_next], Ro_local)
  | Some zone =>
      if decide (zone = fm_localZoneId config) then ([Re_next], Ro_local)
      else if negb (bool_decide (zone ∈ fm_remoteTransports config)) then ([], Ro_failed (Rt_unknown_zone zone))
      else if bool_decide (tq_aborted request = Some true) then
        ([], Ro_failed (Rt_aborted zone (tq_toolId request) federationCallId (cap_cancel (capability config zone))))
      else
        let delegated := if fm_onDelegated config then [Re_onDelegated zone] else [] in
        match principal_of zone with
        | Err e => (delegated, Ro_failed e)
        | Ok principal =>
            match metadata_of zone with
            | Err e => (delegated, Ro_failed e)
            | Ok metadata =>
                let sendPrincipalFields :=
                  cap_understandsPrincipalFields (capability config zone) || bool_decide (policy_of config zone = Pp_forward) in
                let payload := mkExecute (tq_toolId request) (tq_input request) federationCallId zone (fm_localZoneId config) metadata
                  (if sendPrincipalFields then Some (policy_of config zone) else None) principal in
                (delegated ++ [Re_execute zone payload], Ro_in_flight payload)
            end
        end
  end.

(** The race.  [fl_result] is the first settlement of [Promise.race]; the
    listener is removed with it. *)
Record Flight : Type := mkFlight {
  fl_cancelled : bool;
  fl_result : option (Result jsval RouteError);
  fl_effects : list RouteEffect
}.

Definition cancel_payload (payload : Execute) : Cancel :=
  mkCancel (ex_callId payload) (ex_targetZoneId payload) (ex_originZoneId payload) (ex_toolId payload).

Definition sendCancel (payload : Execute) (f : Flight) : Flight :=
  if fl_cancelled f then f
  else
    mkFlight true (fl_result f)
      (fl_effects f ++
       if cap_cancel (capability config (ex_targetZoneId payload)) then [Re_cancel (ex_targetZoneId payload) (cancel_payload payload)] else []).

Definition finish (r : Result jsval RouteError) (f : Flight) : Flight :=
  match fl_result f with Some _ => f | None => mkFlight (fl_cancelled f) (Some r) (fl_effects f) end.

Definition onAbort (payload : Execute) (f : Flight) : Flight :=
  let zone := ex_targetZoneId payload in
  finish (Err (Rt_aborted zone (ex_toolId payload) (ex_callId payload) (cap_cancel (capability config zone)))) (sendCancel payload f).

Inductive FlightEvent : Type :=
  | Fe_abort
  | Fe_answer (result : Result jsval KoiError)
  | Fe_reject.

Definition on_answer (payload : Execute) (result : Result jsval KoiError) : Result jsval RouteError :=
  match result with
  | Err e => Err (Rt_remote_failed (ex_targetZoneId payload) e)
  | Ok value =>
      match validateRemoteToolResponse value with
      | Ok _ => Ok value
      | Err _ => Err (Rt_malformed (ex_targetZoneId payload))
      end
  end.

(** One event; the listener is there while a signal was passed and the race is
    open. *)
Definition flight_step (payload : Execute) (f : Flight) (e : FlightEvent) : Flight :=
  match e with
  | Fe_abort =>
      match tq_aborted request, fl_result f with Some _, None => onAbort payload f | _, _ => f end
  | Fe_answer result => finish (on_answer payload result) f
  | Fe_reject => finish (Err Rt_rejected) f
  end.

(** A whole call: [flipped] tells whether the signal was aborted during the
    synchronous set-up, which the re-check after the dispatch sees. *)
Definition wrapToolCall (flipped : bool) (events : list FlightEvent) : Flight :=
  match route with
  | (effects, Ro_local) => mkFlight false None effects
  | (effects, Ro_failed e) => mkFlight false (Some (Err e)) effects
  | (effects, Ro_in_flight payload) =>
      let f := mkFlight false None effects in
      let f := if bool_decide (is_Some (tq_aborted request)) && flipped then onAbort payload f else f in
      foldl (flight_step payload) f events
  end.

End Middleware.

(** ** What reaches the wire *)

Lemma pickAllowedKeys_spec source allowed :
  match pickAllowedKeys source allowed with
  | Some out => out ≠ [] /\ forall k, m_get k out = if decide (k ∈ allowed) then m_get k source else None
  | None => forall k, k ∈ allowed -> m_get k source = None
  end.
Proof.
  unfold pickAllowedKeys. case_decide as Ha; [subst; intros k Hk; by apply not_elem_of_nil in Hk|].
  set (f := fun (out : list (string * jsval)) key => match m_get key source with Some v => m_set key v out | None => out end).
  assert (Hf : forall l out k, m_get k (foldl f out l) = match (if decide (k ∈ l) then m_get k source else None) with Some v => Some v | None => m_get k out end).
  { intros l. induction l as [|key l IH]; intros out k; [done|]. cbn [foldl]. rewrite IH. unfold f.
    destruct (decide (k ∈ l)) as [Hk|Hk], (decide (k ∈ key :: l)) as [Hk'|Hk']; try (exfalso; set_solver).
    - destruct (m_get k source) eqn:Hs; [done|]. destruct (m_get key source) eqn:Hs'; [|done]. rewrite m_get_set_ne; [done|congruence].
    - apply elem_of_cons in Hk' as [->|Hk']; [|done]. destruct (m_get key source); [by rewrite m_get_set_eq|done].
    - destruct (m_get key source) eqn:Hs; [|done]. rewrite m_get_set_ne; [done|]. set_solver. }
  case_decide as Ho.
  - intros k Hk. specialize (Hf allowed [] k). rewrite Ho, decide_True in Hf by done. by destruct (m_get k source).
  - split; [done|]. intros k. rewrite Hf. by repeat case_match.
Qed.

Section Wire.
Context (config : FederationMiddlewareConfig) (randomUUID : string).
Context (ctx : TurnContext) (request : ToolRequest).

(** When a request may leave for [zone], and what it says. *)
Record released (zone : string) (p : Execute) : Prop := mkReleased {
  rl_remote : zone ≠ fm_localZoneId config /\ zone ∈ fm_remoteTransports config /\ target config ctx request = Some zone;
  rl_live : tq_aborted request ≠ Some true;
  rl_envelope : ex_toolId p = tq_toolId request /\ ex_input p = tq_input request /\ ex_targetZoneId p = zone /\
    ex_originZoneId p = fm_localZoneId config /\ ex_callId p = federationCallId randomUUID request;
  rl_principal : match ex_principal p with
    | None => policy_of config zone = Pp_omit
    | Some pr => policy_of config zone = Pp_forward /\ cap_understandsPrincipalFields (capability config zone) = true /\
        (exists resolve, fm_tenantIdResolver config = Some resolve /\ resolve ctx = Some (pr_tenantId pr)) /\ pr_tenantId pr ≠ "" /\
        pr_session pr = tc_session ctx /\ pr_turnId pr = tc_turnId ctx /\ pr_turnIndex pr = tc_turnIndex ctx
    end;
  rl_metadata : match tq_metadata request with
    | None => ex_metadata p = None
    | Some source => exists allowed, fm_forwardedMetadataKeys config = Some allowed /\
        forall k, m_get k (default [] (ex_metadata p)) = if decide (k ∈ allowed) then m_get k source else None
    end
}.

Lemma check_forwarding_ok entries zone :
  check_forwarding config entries = None -> m_get zone entries = Some Pp_forward ->
  cap_understandsPrincipalFields (capability config zone) = true.
Proof.
  induction entries as [|[z policy] entries IH]; [done|]. cbn [check_forwarding m_get]. intros Hc Hg.
  destruct (decide (policy ≠ Pp_forward)) as [Hp|Hp].
  - destruct (decide (zone = z)); [by injection Hg as ->|by apply IH].
  - destruct (cap_understandsPrincipalFields (capability config z)) eqn:Hu; [|done]. simpl in Hc.
    destruct (fm_tenantIdResolver config); [|done]. destruct (decide (zone = z)) as [->|]; [done|by apply IH].
Qed.

Definition on_wire (e : RouteEffect) : Prop := match e with Re_execute _ _ | Re_cancel _ _ => True | _ => False end.

Lemma route_spec :
  createFederationMiddleware config = None ->
  let '(effects, r) := route config randomUUID ctx request in
  exists silent, Forall (fun e => ~ on_wire e) silent /\
    match r with
    | Ro_in_flight p => effects = silent ++ [Re_execute (ex_targetZoneId p) p] /\ released (ex_targetZoneId p) p
    | _ => effects = silent
    end.
Proof.
  intros Hok. unfold route. destruct (target config ctx request) as [zone|] eqn:Ht.
  2: { exists [Re_next]. split; [constructor; [by intros []|done]|done]. }
  case_decide as Hl; [exists [Re_next]; split; [constructor; [by intros []|done]|done]|].
  case_bool_decide as Hr; simpl; [|by exists []].
  case_bool_decide as Ha; [by exists []|].
  assert (Hsil : Forall (fun e => ~ on_wire e) (if fm_onDelegated config then [Re_onDelegated zone] else [])).
  { destruct (fm_onDelegated config); [constructor; [by intros []|done]|done]. }
  set (delegated := if fm_onDelegated config then [Re_onDelegated zone] else []) in *.
  destruct (principal_of config ctx zone) as [principal|e] eqn:Hp; [|by exists delegated].
  destruct (metadata_of config request zone) as [metadata|e] eqn:Hm; [|by exists delegated].
  exists delegated. split; [done|]. split; [done|]. simpl. constructor; simpl; try done.
  - unfold principal_of in Hp. destruct (policy_of config zone) eqn:Hpol; [by injection Hp as <-|].
    destruct (fm_tenantIdResolver config) as [resolve|]; [|done]. simpl in Hp.
    destruct (resolve ctx) as [t|] eqn:Hres; [|done]. case_decide as Hne; [done|]. injection Hp as <-. simpl.
    split_and!; try done; [|by exists resolve]. unfold policy_of in Hpol. destruct (m_get zone (fm_principalForwarding config)) as [pol|] eqn:Hg; [|done].
    simpl in Hpol. subst pol. by eapply check_forwarding_ok.
  - unfold metadata_of in Hm. destruct (tq_metadata request) as [source|]; [|by injection Hm as <-].
    destruct (fm_forwardedMetadataKeys config) as [allowed|]; [|done]. injection Hm as <-. exists allowed. split; [done|]. intros k.
    pose proof (pickAllowedKeys_spec source allowed) as Hk. destruct (pickAllowedKeys source allowed) as [out|]; [by apply Hk|].
    simpl. case_decide; [symmetry; by apply Hk|done].
Qed.

(** The cancellations of a flight. *)
Definition cancels_ok (payload : Execute) (base : list RouteEffect) (f : Flight) : Prop :=
  fl_effects f = base ++
    if fl_cancelled f && cap_cancel (capability config (ex_targetZoneId payload))
    then [Re_cancel (ex_targetZoneId payload) (cancel_payload payload)] else [].

Lemma finish_cancels payload base r f : cancels_ok payload base f -> cancels_ok payload base (finish r f).
Proof. intros Hf. unfold finish. destruct (fl_result f); exact Hf. Qed.

Lemma onAbort_cancels payload base f : cancels_ok payload base f -> cancels_ok payload base (onAbort config payload f).
Proof.
  intros Hf. apply finish_cancels. unfold sendCancel, cancels_ok in *. destruct (fl_cancelled f) eqn:Hc; [by rewrite Hc|]. simpl in *.
  by rewrite Hf, app_nil_r.
Qed.

Lemma flight_cancels payload base events f :
  cancels_ok payload base f -> cancels_ok payload base (foldl (flight_step config request payload) f events).
Proof.
  revert f. induction events as [|e events IH]; intros f Hf; [done|]. cbn [foldl]. apply IH.
  destruct e; simpl; try by apply finish_cancels. destruct (tq_aborted request), (fl_result f); try done. by apply onAbort_cancels.
Qed.

(** What leaves for another zone is what the operator released.  With a
    configuration that the constructor accepts, however the call is aborted or
    answered, at most one request goes out, to a configured zone other than this
    one and never for a call that was already aborted; it carries the caller's
    identity exactly when the local policy of that zone is [forward], with a
    non-empty tenant, and of the metadata exactly the allowed keys; at most one
    cancellation follows it, with the same identifiers, and only if the zone
    supports it. *)
Lemma wire_release (flipped : bool) (events : list FlightEvent) :
  createFederationMiddleware config = None ->
  exists silent sent, fl_effects (wrapToolCall config randomUUID ctx request flipped events) = silent ++ sent /\
    Forall (fun e => ~ on_wire e) silent /\
    (sent = [] \/
     exists zone p, released zone p /\
       (sent = [Re_execute zone p] \/
        sent = [Re_execute zone p; Re_cancel zone (cancel_payload p)] /\ cap_cancel (capability config zone) = true)).
Proof.
  intros Hok. pose proof (route_spec Hok) as Hr. unfold wrapToolCall.
  destruct (route config randomUUID ctx request) as [effects r]. destruct Hr as (silent & Hs & Hr).
  exists silent. destruct r as [|e|p]; [exists []; rewrite app_nil_r; auto..|]. destruct Hr as [-> Hrel].
  set (base := silent ++ [Re_execute (ex_targetZoneId p) p]).
  set (f0 := if bool_decide (is_Some (tq_aborted request)) && flipped then onAbort config p (mkFlight false None base) else mkFlight false None base).
  assert (H0 : cancels_ok p base f0).
  { assert (Hb : cancels_ok p base (mkFlight false None base)) by (unfold cancels_ok; by rewrite app_nil_r).
    unfold f0. destruct (_ && _); [by apply onAbort_cancels|done]. }
  apply (flight_cancels p base events) in H0. set (f := foldl _ f0 events) in *. unfold cancels_ok in H0. rewrite H0. unfold base.
  rewrite <-app_assoc. eexists. split; [done|]. split; [done|]. right. exists (ex_targetZoneId p), p. split; [done|].
  destruct (fl_cancelled f); simpl; [|by left]. destruct (cap_cancel _) eqn:Hcc; [by right|by left].
Qed.

(** The outcome of a call: the first settlement.  A value is returned only when
    the zone answered with a well-formed response before any abort. *)
Lemma flight_settled payload f events : is_Some (fl_result f) -> foldl (flight_step config request payload) f events = f.
Proof.
  intros [r Hr]. induction events as [|e events IH]; [done|]. cbn [foldl].
  replace (flight_step config request payload f e) with f; [done|]. destruct e; simpl; unfold finish; rewrite Hr; [by destruct (tq_aborted request)|done..].
Qed.

Lemma answer_wins payload events v f :
  fl_result f = None -> fl_result (foldl (flight_step config request payload) f events) = Some (Ok v) ->
  exists pre post, events = pre ++ Fe_answer (Ok v) :: post /\ is_ok (validateRemoteToolResponse v) = true /\
    (tq_aborted request = None \/ Fe_abort ∉ pre).
Proof.
  revert f. induction events as [|e events IH]; intros f Hf Hv; [by cbn in Hv; congruence|]. cbn [foldl] in Hv.
  destruct (fl_result (flight_step config request payload f e)) as [r|] eqn:Hs.
  - rewrite flight_settled in Hv by (by rewrite Hs). rewrite Hs in Hv. injection Hv as ->.
    destruct e as [|[value|er]|]; simpl in Hs; unfold onAbort, finish, on_answer in Hs.
    + destruct (tq_aborted request); rewrite Hf in Hs; [|done]. assert (Hx : fl_result (sendCancel config payload f) = None).
      { unfold sendCancel. destruct (fl_cancelled f); done. } rewrite Hx in Hs. done.
    + rewrite Hf in Hs. destruct (validateRemoteToolResponse value) eqn:Hval; [|done]. injection Hs as ->.
      exists [], events. split_and!; [done|by rewrite Hval|right; apply not_elem_of_nil].
    + by rewrite Hf in Hs.
    + by rewrite Hf in Hs.
  - destruct (IH _ Hs Hv) as (pre & post & -> & Hval & Hab). exists (e :: pre), post. split_and!; [done|done|].
    destruct Hab as [Hab|Hab]; [by left|]. destruct (tq_aborted request) as [b|] eqn:Hb; [right|by left].
    rewrite not_elem_of_cons. split; [|done]. intros <-. simpl in Hs. rewrite Hb, Hf in Hs.
    unfold onAbort, finish in Hs. destruct (fl_result (sendCancel config payload f)) eqn:Hx; [|done]. simpl in Hs. congruence.
Qed.

End Wire.

Definition sample_federation : FederationMiddlewareConfig :=
  mkFederation "eu" ["us"; "ap"] [("us", mkCapabilities true true)] [("us", Pp_forward)] (Some (fun _ => Some "t1")) (Some ["trace"]) None true.

Definition sample_turn : TurnContext := mkTurn (mkSession "a" "s" None None (Some "u") None) "turn" 1 [("targetZoneId", JStr "us")].

Definition sample_request : ToolRequest :=
  mkToolRequest "bash" (JObj []) (Some "c1") (Some [("secret", JStr "x"); ("trace", JNum 7)]) (Some false).

Example sample_flight :
  fl_effects (wrapToolCall sample_federation "uuid" sample_turn sample_request false [Fe_abort; Fe_abort; Fe_reject]) =
  [Re_onDelegated "us";
   Re_execute "us" (mkExecute "bash" (JObj []) "c1" "us" "eu" (Some [("trace", JNum 7)]) (Some Pp_forward)
     (Some (mkPrincipal (mkSession "a" "s" None None (Some "u") None) "turn" 1 "t1")));
   Re_cancel "us" (mkCancel "c1" "us" "eu" "bash")].
Proof. vm_compute. done. Qed.

Lemma wire_release_witness :
  exists silent sent,
    fl_effects (wrapToolCall sample_federation "uuid" sample_turn sample_request false [Fe_abort; Fe_reject]) = silent ++ sent /\
    Forall (fun e => ~ on_wire e) silent.
Proof.
  destruct (wire_release sample_federation "uuid" sample_turn sample_request false [Fe_abort; Fe_reject] eq_refl) as (silent & sent & H1 & H2 & _).
  exists silent, sent. split; [exact H1|exact H2].
Defined.

(** ** The router picks a best active zone *)

Section Pick.
Context (localeCompare : string -> string -> Z).
Hypothesis compare_total : forall a b, localeCompare a b < 0 \/ localeCompare b a < 0 \/ localeCompare a b = 0 /\ localeCompare b a = 0.
Hypothesis compare_trans : forall a b c, localeCompare a b <= 0 -> localeCompare b c <= 0 -> localeCompare a c <= 0.

Lemma compareCandidates_total a b : 0 <= compareCandidates localeCompare a b -> compareCandidates localeCompare b a <= 0.
Proof.
  unfold compareCandidates. repeat case_decide; try lia. intros Hab.
  destruct (compare_total (zr_zoneId a) (zr_zoneId b)) as [?|[?|[? ?]]]; lia.
Qed.

Lemma compareCandidates_trans a b c :
  compareCandidates localeCompare a b <= 0 -> compareCandidates localeCompare b c <= 0 -> compareCandidates localeCompare a c <= 0.
Proof. unfold compareCandidates. repeat case_decide; try lia. apply compare_trans. Qed.

Lemma pickHealthyZone_spec candidates :
  match pickHealthyZone localeCompare candidates with
  | None => forall c, c ∈ candidates -> routable c = false
  | Some best => best ∈ candidates /\ routable best = true /\
      forall c, c ∈ candidates -> routable c = true -> compareCandidates localeCompare best c <= 0
  end.
Proof.
  unfold pickHealthyZone. set (l := filter (fun c => routable c = true) candidates).
  assert (Hin : forall c, c ∈ l <-> routable c = true /\ c ∈ candidates) by (intros c; unfold l; by rewrite list_elem_of_filter).
  clearbody l. destruct l as [|x l]; simpl.
  - intros c Hc. destruct (routable c) eqn:Hr; [|done]. destruct (not_elem_of_nil c). by apply Hin.
  - set (f := fun best y => if compareCandidates localeCompare y best <? 0 then y else best).
    assert (Hf : forall l x, foldl f x l ∈ x :: l /\ forall c, c ∈ x :: l -> compareCandidates localeCompare (foldl f x l) c <= 0).
    { clear l x Hin. assert (Hrefl : forall x, compareCandidates localeCompare x x <= 0).
      { intros x. unfold compareCandidates. repeat case_decide; try lia. destruct (compare_total (zr_zoneId x) (zr_zoneId x)) as [?|[?|[? ?]]]; lia. }
      intros l. induction l as [|y l IH]; intros x; simpl.
      - split; [left|]. intros c ->%list_elem_of_singleton. apply Hrefl.
      - change (foldl f (if compareCandidates localeCompare y x <? 0 then y else x) l) with (foldl f (f x y) l).
        destruct (IH (f x y)) as [H1 H2].
        assert (Hxy : (f x y = x \/ f x y = y) /\ compareCandidates localeCompare (f x y) x <= 0 /\ compareCandidates localeCompare (f x y) y <= 0).
        { unfold f. destruct (Z.ltb_spec (compareCandidates localeCompare y x) 0); split_and!; auto; try lia; try apply Hrefl.
          by apply compareCandidates_total. }
        destruct Hxy as (Hor & Hx & Hy). pose proof (H2 (f x y) ltac:(left)) as Hb. split.
        + apply elem_of_cons in H1 as [->|H1]; [destruct Hor as [-> | ->]; set_solver|set_solver].
        + intros c [->|[->|Hc]%elem_of_cons]%elem_of_cons; [by eapply compareCandidates_trans..|]. apply H2. by right. }
    destruct (Hf l x) as [H1 H2]. apply Hin in H1 as [H1 H1']. split_and!; [done|done|]. intros c Hc Hr. apply H2, Hin. done.
Qed.

End Pick.
