(* ===== verification/ZoneRegistry.v ===== *)
(** * The registry of zones behind the hub

    [lib/federation/src/zone-registry-nexus.ts].  An operation that calls the hub
    has two steps: what it does before the call, and what it does with the answer.
    In between anything may happen.  The hub is not modelled: answers are
    arguments.  Letters of error messages are below 128 for [toLowerCase];
    listeners do not call back. *)

From S2P Require Import Prelude JsMap Text VectorClock SyncEngine.

Local Open Scope string_scope.
Local Open Scope list_scope.
Local Open Scope Z_scope.

Inductive ServerReadsMode : Type := Sr_auto | Sr_always | Sr_never.

#[export] Instance ServerReadsMode_eq_dec : EqDecision ServerReadsMode.
Proof. solve_decision. Defined.

Record ZoneRegistryConfig : Type := mkRegistryConfig {
  zc_serverReadsMode : option ServerReadsMode;
  zc_useServerReads : option bool;
  zc_serverReadsRetryAfterMs : option number
}.

Definition to_lower (c : ascii) : ascii :=
  let n := nat_of_ascii c in if decide ((65 <= n <= 90)%nat) then ascii_of_nat (n + 32) else c.

Definition isMethodNotFoundError (message : string) : bool :=
  let m := to_lower <$> str message in
  includes (str "method not found") m || includes (str "unknown method") m ||
  includes (str "not implemented") m || includes (str "-32601") m.

(** ** Descriptors *)

Definition parse_status (v : jsval) : option ZoneStatus :=
  match v with
  | JStr s =>
      if decide (s = "active") then Some Zs_active
      else if decide (s = "draining") then Some Zs_draining
      else if decide (s = "offline") then Some Zs_offline else None
  | _ => None
  end.

Record ZoneDescriptor : Type := mkDescriptor {
  zd_zoneId : string;
  zd_displayName : string;
  zd_status : ZoneStatus;
  zd_metadata : option (list (string * jsval));
  zd_registeredAt : Z
}.

(** [isZoneDescriptor]: the descriptor a value is. *)
Definition isZoneDescriptor (value : jsval) : option ZoneDescriptor :=
  match value with
  | JObj c =>
      match non_empty_string (get_field "zoneId" c), get_field "displayName" c, parse_status (get_field "status" c), get_field "registeredAt" c with
      | Some zoneId, JStr displayName, Some status, JNum registeredAt =>
          match get_field "metadata" c with
          | JUndefined => Some (mkDescriptor zoneId displayName status None registeredAt)
          | JObj meta => Some (mkDescriptor zoneId displayName status (Some meta) registeredAt)
          | _ => None
          end
      | _, _, _, _ => None
      end
  | _ => None
  end.

Record ZoneFilter : Type := mkFilter { zf_status : option ZoneStatus; zf_zoneId : option string }.

Definition matches (filter : option ZoneFilter) (d : ZoneDescriptor) : bool :=
  match filter with
  | None => true
  | Some f =>
      match zf_status f with Some st => bool_decide (zd_status d = st) | None => true end &&
      match zf_zoneId f with Some id => bool_decide (zd_zoneId d = id) | None => true end
  end.

(** ** State *)

Inductive ZoneEvent : Type := Ze_registered (d : ZoneDescriptor) | Ze_deregistered (zoneId : string).

Record Registry : Type := mkRegistry {
  rg_mode : ServerReadsMode;
  rg_retryAfterMs : option Z;  (* [None] is Infinity *)
  rg_downgradedUntil : Z;
  rg_projection : list (string * ZoneDescriptor);
  rg_listeners : list nat;
  rg_notified : list (nat * ZoneEvent)
}.

Definition createZoneRegistryNexus (config : ZoneRegistryConfig) : option Registry :=
  let mode :=
    match zc_serverReadsMode config with
    | Some m => m
    | None => match zc_useServerReads config with Some true => Sr_always | Some false => Sr_never | None => Sr_auto end
    end in
  match default (Finite 60000) (zc_serverReadsRetryAfterMs config) with
  | Infinite => Some (mkRegistry mode None 0 [] [] [])
  | Finite n => if n <=? 0 then None else Some (mkRegistry mode (Some n) 0 [] [] [])
  | Not_a_number => None
  end.

Definition with_projection (p : list (string * ZoneDescriptor)) (s : Registry) : Registry :=
  mkRegistry (rg_mode s) (rg_retryAfterMs s) (rg_downgradedUntil s) p (rg_listeners s) (rg_notified s).

Definition applyDowngrade (now : Z) (s : Registry) : Registry :=
  match rg_retryAfterMs s with
  | None => mkRegistry Sr_never None (rg_downgradedUntil s) (rg_projection s) (rg_listeners s) (rg_notified s)
  | Some n => mkRegistry (rg_mode s) (Some n) (now + n) (rg_projection s) (rg_listeners s) (rg_notified s)
  end.

Definition clearCooldown (s : Registry) : Registry :=
  mkRegistry (rg_mode s) (rg_retryAfterMs s) 0 (rg_projection s) (rg_listeners s) (rg_notified s).

Definition notify (e : ZoneEvent) (s : Registry) : Registry :=
  mkRegistry (rg_mode s) (rg_retryAfterMs s) (rg_downgradedUntil s) (rg_projection s) (rg_listeners s)
    (rg_notified s ++ ((fun l => (l, e)) <$> rg_listeners s)).

(** Whether a read asks the hub. *)
Definition asks_hub (now : Z) (s : Registry) : bool :=
  match rg_mode s with
  | Sr_always => true
  | Sr_never => false
  | Sr_auto => negb (now <? rg_downgradedUntil s)
  end.

Inductive RegistryError : Type := Re_failed (error : KoiError) | Re_malformed.

(** ** Writes, on the answer of the hub *)

Definition register (answer : Result jsval KoiError) (s : Registry) : Result ZoneDescriptor RegistryError * Registry :=
  match answer with
  | Err e => (Err (Re_failed e), s)
  | Ok value =>
      match isZoneDescriptor value with
      | None => (Err Re_malformed, s)
      | Some d => (Ok d, notify (Ze_registered d) (with_projection (m_set (zd_zoneId d) d (rg_projection s)) s))
      end
  end.

Definition deregister (id : string) (answer : Result jsval KoiError) (s : Registry) : Result bool RegistryError * Registry :=
  match answer with
  | Err e => (Err (Re_failed e), s)
  | Ok (JBool true) => (Ok true, notify (Ze_deregistered id) (with_projection (m_delete id (rg_projection s)) s))
  | Ok (JBool false) => (Ok false, s)
  | Ok _ => (Err Re_malformed, s)
  end.

(** ** Reads *)

Definition is_auto (s : Registry) : bool := bool_decide (rg_mode s = Sr_auto).

Definition lookup (id : string) (now : Z) (answer : Result jsval KoiError) (s : Registry) :
    Result (option ZoneDescriptor) RegistryError * Registry :=
  match answer with
  | Err e =>
      if is_auto s && isMethodNotFoundError (err_message e) then
        let s := applyDowngrade now s in (Ok (m_get id (rg_projection s)), s)
      else if decide (err_code e = NOT_FOUND) then (Ok None, s)
      else (Err (Re_failed e), s)
  | Ok value =>
      let s := if is_auto s then clearCooldown s else s in
      match value with
      | JNull | JUndefined => (Ok None, s)
      | _ =>
          match isZoneDescriptor value with
          | None => (Err Re_malformed, s)
          | Some d => (Ok (Some d), if is_auto s then with_projection (m_set (zd_zoneId d) d (rg_projection s)) s else s)
          end
      end
  end.

Definition localList (filter_ : option ZoneFilter) (s : Registry) : list ZoneDescriptor :=
  filter (fun d => matches filter_ d = true) (m_values (rg_projection s)).

Definition list_zones (filter_ : option ZoneFilter) (now : Z) (answer : Result jsval KoiError) (s : Registry) :
    Result (list ZoneDescriptor) RegistryError * Registry :=
  match answer with
  | Err e =>
      if is_auto s && isMethodNotFoundError (err_message e) then
        let s := applyDowngrade now s in (Ok (localList filter_ s), s)
      else (Err (Re_failed e), s)
  | Ok value =>
      let s := if is_auto s then clearCooldown s else s in
      match value with
      | JArr l =>
          match mapM isZoneDescriptor l with
          | None => (Err Re_malformed, s)
          | Some ds =>
              (Ok (filter (fun d => matches filter_ d = true) ds),
               if is_auto s then with_projection (foldl (fun p d => m_set (zd_zoneId d) d p) (rg_projection s) ds) s else s)
          end
      | _ => (Err Re_malformed, s)
      end
  end.

(** Reads that do not ask. *)
Definition local_lookup (id : string) (s : Registry) : option ZoneDescriptor := m_get id (rg_projection s).

Definition watch (l : nat) (s : Registry) : Registry :=
  mkRegistry (rg_mode s) (rg_retryAfterMs s) (rg_downgradedUntil s) (rg_projection s) (s_add l (rg_listeners s)) (rg_notified s).
Definition unwatch (l : nat) (s : Registry) : Registry :=
  mkRegistry (rg_mode s) (rg_retryAfterMs s) (rg_downgradedUntil s) (rg_projection s) (s_delete l (rg_listeners s)) (rg_notified s).
Definition dispose (s : Registry) : Registry :=
  mkRegistry (rg_mode s) (rg_retryAfterMs s) (rg_downgradedUntil s) [] [] (rg_notified s).

(** ** Runs *)

Inductive RegistryStep : Type :=
  | Rs_register (answer : Result jsval KoiError)
  | Rs_deregister (id : string) (answer : Result jsval KoiError)
  | Rs_lookup (id : string) (now : Z) (answer : Result jsval KoiError)
  | Rs_list (filter_ : option ZoneFilter) (now : Z) (answer : Result jsval KoiError)
  | Rs_watch (l : nat)
  | Rs_unwatch (l : nat)
  | Rs_dispose.

Definition registry_step (s : Registry) (st : RegistryStep) : Registry :=
  match st with
  | Rs_register a => (register a s).2
  | Rs_deregister id a => (deregister id a s).2
  | Rs_lookup id now a => (lookup id now a s).2
  | Rs_list f now a => (list_zones f now a s).2
  | Rs_watch l => watch l s
  | Rs_unwatch l => unwatch l s
  | Rs_dispose => dispose s
  end.

(** ** What a process believes about zones comes from the hub *)

(** The answer of the step names the descriptor. *)
Definition confirms (st : RegistryStep) (d : ZoneDescriptor) : Prop :=
  match st with
  | Rs_register (Ok v) | Rs_lookup _ _ (Ok v) => isZoneDescriptor v = Some d
  | Rs_list _ _ (Ok (JArr l)) => exists ds, mapM isZoneDescriptor l = Some ds /\ d ∈ ds
  | _ => False
  end.

Definition known_from (steps : list RegistryStep) (p : list (string * ZoneDescriptor)) : Prop :=
  forall id d, m_get id p = Some d -> zd_zoneId d = id /\ exists st, st ∈ steps /\ confirms st d.

Lemma known_from_set steps p st d : known_from steps p -> st ∈ steps -> confirms st d -> known_from steps (m_set (zd_zoneId d) d p).
Proof.
  intros Hp Hst Hc id d'. rewrite m_get_set. case_decide as Hq; [|apply Hp]. intros [= <-]. split; [done|by exists st].
Qed.

Lemma registry_step_known steps s st :
  st ∈ steps -> known_from steps (rg_projection s) -> known_from steps (rg_projection (registry_step s st)).
Proof.
  intros Hst Hp. destruct st as [[v|e]|id [v|e]|id now [v|e]|f now [v|e]|l|l|]; cbn [registry_step]; try done.
  - unfold register. destruct (isZoneDescriptor v) as [d|] eqn:Hv; [|done]. by eapply known_from_set.
  - unfold deregister. destruct v as [| |[]| | | | |]; try done. cbn. intros id' d. rewrite m_get_delete. case_decide; [done|apply Hp].
  - unfold lookup. set (s1 := if is_auto s then clearCooldown s else s).
    assert (Hs1 : rg_projection s1 = rg_projection s) by (unfold s1; by destruct (is_auto s)).
    destruct v; try (simpl; by rewrite Hs1);
      (match goal with |- context [isZoneDescriptor ?x] => destruct (isZoneDescriptor x) as [d|] eqn:Hv end; [|simpl; by rewrite Hs1]);
      destruct (is_auto s1); simpl; rewrite ?Hs1; try done; by eapply known_from_set.
  - unfold lookup. destruct (_ && _); [|by case_decide]. unfold applyDowngrade. by destruct (rg_retryAfterMs s).
  - unfold list_zones. set (s1 := if is_auto s then clearCooldown s else s).
    assert (Hs1 : rg_projection s1 = rg_projection s) by (unfold s1; by destruct (is_auto s)).
    destruct v as [| | | | | |l|]; try (simpl; by rewrite Hs1). destruct (mapM isZoneDescriptor l) as [ds|] eqn:Hm; [|simpl; by rewrite Hs1].
    destruct (is_auto s1); simpl; rewrite ?Hs1; [|done].
    assert (Hall : forall d, d ∈ ds -> confirms (Rs_list f now (Ok (JArr l))) d) by (intros d Hd; by exists ds).
    clear Hm Hs1 s1. revert Hp. generalize (rg_projection s). induction ds as [|d ds IH]; intros p Hp; [done|]. cbn [foldl].
    apply IH; [intros d' Hd'; apply Hall; by right|]. eapply known_from_set; [done|done|]. apply Hall. left.
  - unfold list_zones. destruct (_ && _); [|done]. unfold applyDowngrade. by destruct (rg_retryAfterMs s).
Qed.

Lemma registry_run_known steps l s :
  (forall st, st ∈ l -> st ∈ steps) -> known_from steps (rg_projection s) -> known_from steps (rg_projection (foldl registry_step s l)).
Proof.
  revert s. induction l as [|st l IH]; intros s Hsub Hs; [done|]. cbn [foldl].
  apply IH; [intros x Hx; apply Hsub; by right|]. apply registry_step_known; [apply Hsub; left|done].
Qed.

(** In any run, every zone of the projection is one the hub named in an answer,
    under its own id: failures, malformed answers and downgrades add nothing. *)
Lemma projection_confirmed config s0 steps :
  createZoneRegistryNexus config = Some s0 -> known_from steps (rg_projection (foldl registry_step s0 steps)).
Proof.
  intros Hc. apply registry_run_known; [done|]. unfold createZoneRegistryNexus in Hc.
  repeat case_match; try done; injection Hc as <-; by intros id d Hd.
Qed.

(** A zone that the hub has forgotten is still served once reads are downgraded:
    a lookup answered with "no such zone" does not remove it. *)
Lemma forgotten_zone_served_after_downgrade :
  let d := JObj [("zoneId", JStr "z"); ("displayName", JStr "Z"); ("status", JStr "active"); ("registeredAt", JNum 0)] in
  let s0 := mkRegistry Sr_auto (Some 60000) 0 [] [] [] in
  let s := foldl registry_step s0 [Rs_lookup "z" 1 (Ok d); Rs_lookup "z" 2 (Ok JNull)] in
  let '(r, s') := lookup "z" 3 (Err (koiError EXTERNAL "Method not found" false)) s in
  exists x, r = Ok (Some x) /\ zd_status x = Zs_active.
Proof. vm_compute. eexists. done. Qed.
