(* ===== verification/RestartIntensity.v ===== *)
(** * Restart budgets

    [kernel/engine-reconcile/src/restart-intensity.ts]: per child a buffer of
    the times of its latest restarts, trimmed to the budget.  The supervision
    controller asks [isExhausted] before it records an attempt, and takes the
    attempt back when the replacement could not be spawned; under that use the
    trimmed buffer answers every question as the whole history would. *)

From S2P Require Import Prelude JsMap.

Local Open Scope string_scope.
Local Open Scope list_scope.
Local Open Scope Z_scope.

Record Tracker : Type := mkTracker {
  tk_maxRestarts : Z;
  tk_windowMs : Z;
  tk_buffers : list (string * list Z)
}.

Definition createRestartIntensityTracker (maxRestarts windowMs : Z) : Tracker :=
  mkTracker maxRestarts windowMs [].

Definition with_buffers (bs : list (string * list Z)) (t : Tracker) : Tracker :=
  mkTracker (tk_maxRestarts t) (tk_windowMs t) bs.

(** An unknown child has no buffer yet; [getBuffer] creates it empty. *)
Definition getBuffer (childName : string) (t : Tracker) : list Z :=
  default [] (m_get childName (tk_buffers t)).

(** [for (const ts of buf) if (ts > cutoff) count += 1] *)
Definition count_after (cutoff : Z) (buf : list Z) : Z :=
  Z.of_nat (length (filter (fun ts => cutoff < ts) buf)).

Definition countInWindow (now : Z) (childName : string) (t : Tracker) : Z :=
  match m_get childName (tk_buffers t) with
  | None => 0
  | Some buf => count_after (now - tk_windowMs t) buf
  end.

Definition trim (maxRestarts : Z) (buf : list Z) : list Z :=
  if Z.of_nat (length buf) >? maxRestarts
  then drop (Z.to_nat (Z.of_nat (length buf) - maxRestarts)) buf else buf.

Definition record (now : Z) (childName : string) (t : Tracker) : Tracker :=
  with_buffers
    (m_set childName (trim (tk_maxRestarts t) (getBuffer childName t ++ [now])) (tk_buffers t)) t.

Definition unrecord (childName : string) (t : Tracker) : Tracker :=
  match m_get childName (tk_buffers t) with
  | None | Some [] => t
  | Some buf =>
      match removelast buf with
      | [] => with_buffers (m_delete childName (tk_buffers t)) t
      | rest => with_buffers (m_set childName rest (tk_buffers t)) t
      end
  end.

Definition isExhausted (now : Z) (childName : string) (t : Tracker) : bool :=
  if tk_maxRestarts t <=? 0 then true else tk_maxRestarts t <=? countInWindow now childName t.

Definition attemptsInWindow (now : Z) (childName : string) (t : Tracker) : Z :=
  countInWindow now childName t.

Definition reset (childName : string) (t : Tracker) : Tracker :=
  with_buffers (m_delete childName (tk_buffers t)) t.

(** ** The controller's use of a tracker *)

Inductive TrackerOp : Type :=
  | t_attempt (at_ : Z) (childName : string)
  | t_unrecord (childName : string)
  | t_reset (childName : string).

(** [if (tracker.isExhausted(name)) return escalate(…); tracker.record(name)] *)
Definition attempt (now : Z) (childName : string) (t : Tracker) : Tracker :=
  if isExhausted now childName t then t else record now childName t.

Definition tracker_step (t : Tracker) (op : TrackerOp) : Tracker :=
  match op with
  | t_attempt now c => attempt now c t
  | t_unrecord c => unrecord c t
  | t_reset c => reset c t
  end.

Definition op_child (op : TrackerOp) : string :=
  match op with t_attempt _ c | t_unrecord c | t_reset c => c end.

Definition op_time (op : TrackerOp) : option Z :=
  match op with t_attempt now _ => Some now | _ => None end.

(** ** The specification: the whole history of one child *)

Definition history_step (maxRestarts windowMs : Z) (h : list Z) (op : TrackerOp) : list Z :=
  match op with
  | t_attempt now _ => if maxRestarts <=? count_after (now - windowMs) h then h else h ++ [now]
  | t_unrecord _ => removelast h
  | t_reset _ => []
  end.

Definition history (maxRestarts windowMs : Z) (childName : string) (ops : list TrackerOp) : list Z :=
  foldl (history_step maxRestarts windowMs) [] (filter (fun op => op_child op = childName) ops).

(** Restarts of [h] in the window that ends at [s]. *)
Definition restarts_in (windowMs s : Z) (h : list Z) : Z :=
  Z.of_nat (length (filter (fun ts => s - windowMs < ts /\ ts <= s) h)).

Definition times_increase (ops : list TrackerOp) : Prop :=
  StronglySorted Z.le (omap op_time ops).

(** ** Counting *)

Lemma count_after_app cutoff l1 l2 :
  count_after cutoff (l1 ++ l2) = count_after cutoff l1 + count_after cutoff l2.
Proof. unfold count_after. rewrite filter_app, length_app. lia. Qed.

Lemma count_after_nonneg cutoff l : 0 <= count_after cutoff l.
Proof. unfold count_after. lia. Qed.

Lemma count_after_none cutoff (l : list Z) : Forall (fun ts => ts <= cutoff) l -> count_after cutoff l = 0.
Proof.
  unfold count_after. induction 1 as [|x l Hx _ IH]; [done|]. rewrite filter_cons_False by lia. done.
Qed.

Lemma count_after_all cutoff (l : list Z) :
  Forall (fun ts => cutoff < ts) l -> count_after cutoff l = Z.of_nat (length l).
Proof. unfold count_after. intros Hf. rewrite filter_all; [done|by apply Forall_forall]. Qed.

(** The recent part of a sorted buffer is its end. *)
Lemma sorted_old_prefix cutoff (l : list Z) k :
  StronglySorted Z.le l -> Z.of_nat k + count_after cutoff l <= Z.of_nat (length l) ->
  Forall (fun ts => ts <= cutoff) (take k l).
Proof.
  revert k. induction l as [|x l IH]; intros k Hs Hk; [destruct k; constructor|].
  apply StronglySorted_inv in Hs as [Hs Hx]. destruct k as [|k]; [constructor|]. simpl.
  destruct (decide (cutoff < x)) as [Hlt|Hge].
  - exfalso. rewrite count_after_all in Hk; [simpl in Hk; lia|].
    constructor; [done|]. eapply Forall_impl; [exact Hx|]. simpl. lia.
  - constructor; [lia|]. apply IH; [done|].
    unfold count_after in *. rewrite filter_cons_False in Hk by done. simpl in Hk. lia.
Qed.

Lemma StronglySorted_removelast (l : list Z) : StronglySorted Z.le l -> StronglySorted Z.le (removelast l).
Proof.
  induction l as [|x l IH] using rev_ind; [done|]. intros Hs. rewrite removelast_last.
  by apply StronglySorted_app_1_l in Hs.
Qed.

Lemma restarts_in_removelast w s l : restarts_in w s (removelast l) <= restarts_in w s l.
Proof.
  induction l as [|x l _] using rev_ind; [done|]. rewrite removelast_last.
  unfold restarts_in. rewrite filter_app, length_app. lia.
Qed.

Lemma restarts_in_le w s l : restarts_in w s l <= count_after (s - w) l.
Proof.
  unfold restarts_in, count_after. induction l as [|x l IH]; [done|].
  rewrite !filter_cons. repeat case_decide; simpl; lia.
Qed.

Lemma list_filter_iff' {A} (P Q : A -> Prop) `{!forall x, Decision (P x), !forall x, Decision (Q x)} (l : list A) :
  Forall (fun x => P x <-> Q x) l -> filter P l = filter Q l.
Proof. induction 1 as [|x l Hx _ IH]; [done|]. rewrite !filter_cons, IH. repeat case_decide; tauto. Qed.

(** ** Trackers refine histories *)

(** [h] is the history and [buf] the buffer of a child; nothing happened after [T]. *)
Record budget (maxRestarts windowMs T : Z) (h buf : list Z) : Prop := {
  bd_split : exists old, h = old ++ buf /\ Forall (fun ts => ts <= T - windowMs) old;
  bd_sorted : StronglySorted Z.le h;
  bd_past : Forall (fun ts => ts <= T) h;
  bd_bound : forall s, restarts_in windowMs s h <= Z.max 0 maxRestarts
}.

Lemma budget_count mx w T h buf now :
  budget mx w T h buf -> T <= now -> count_after (now - w) buf = count_after (now - w) h.
Proof.
  intros [(old & -> & Hold) _ _ _] Hle. rewrite count_after_app, (count_after_none _ old); [lia|].
  eapply Forall_impl; [exact Hold|]. simpl. lia.
Qed.

Lemma budget_later mx w T T' h buf : budget mx w T h buf -> T <= T' -> budget mx w T' h buf.
Proof.
  intros [(old & Hh & Hold) Hs Hp Hb] Hle. constructor; [exists old; split; [done|]|done| |done].
  all: eapply Forall_impl; [eassumption|]; simpl; lia.
Qed.

Lemma budget_nil mx w T : budget mx w T [] [].
Proof. constructor; [by exists []|constructor|constructor|]. intros s. unfold restarts_in. simpl. lia. Qed.

(** What trimming drops is out of the window already. *)
Lemma trim_split mx w T (buf : list Z) :
  StronglySorted Z.le buf -> 0 < mx -> count_after (T - w) buf < mx ->
  exists old, buf ++ [T] = old ++ trim mx (buf ++ [T]) /\ Forall (fun ts => ts <= T - w) old.
Proof.
  intros Hs Hmx Hc. unfold trim. rewrite length_app. simpl.
  destruct (Z.gtb_spec (Z.of_nat (length buf + 1)) mx) as [Hgt|_]; [|by exists []].
  set (k := Z.to_nat _). exists (take k buf). split.
  - rewrite drop_app_le by (unfold k; lia). by rewrite app_assoc, take_drop.
  - apply sorted_old_prefix; [done|]. unfold k. lia.
Qed.

Lemma budget_attempt mx w T h buf :
  budget mx w T h buf -> 0 < mx -> count_after (T - w) buf < mx ->
  budget mx w T (h ++ [T]) (trim mx (buf ++ [T])).
Proof.
  intros Hb Hmx Hc. pose proof (budget_count _ _ _ _ _ T Hb (Z.le_refl _)) as Hh.
  destruct Hb as [(old & -> & Hold) Hs Hp Hbd].
  pose proof (StronglySorted_app_1_r _ _ _ Hs) as Hsb.
  destruct (trim_split mx w T buf Hsb Hmx Hc) as (old' & Heq & Hold'). constructor.
  - exists (old ++ old'). split; [by rewrite <-!app_assoc, <-Heq|]. by apply Forall_app.
  - apply StronglySorted_snoc; [done|]. intros y Hy. by apply (proj1 (Forall_forall _ _) Hp).
  - apply Forall_app. split; [done|]. by repeat constructor.
  - intros s. destruct (decide (T <= s)) as [Hle|Hgt].
    + pose proof (restarts_in_le w s ((old ++ buf) ++ [T])) as H1.
      rewrite count_after_app in H1.
      assert (count_after (s - w) (old ++ buf) <= count_after (T - w) (old ++ buf)).
      { unfold count_after. apply inj_le. generalize (old ++ buf). intros l.
        induction l as [|x l IH]; [done|]. rewrite !filter_cons. repeat case_decide; simpl; lia. }
      assert (count_after (s - w) [T] <= 1).
      { unfold count_after. rewrite filter_cons. case_decide; simpl; lia. }
      lia.
    + specialize (Hbd s). unfold restarts_in in *. rewrite filter_app, filter_cons_False by lia.
      rewrite filter_nil, app_nil_r. exact Hbd.
Qed.

Lemma budget_unrecord mx w T h buf :
  budget mx w T h buf -> budget mx w T (removelast h) (removelast buf).
Proof.
  intros [(old & -> & Hold) Hs Hp Hb].
  assert (exists old', removelast (old ++ buf) = old' ++ removelast buf /\
            Forall (fun ts => ts <= T - w) old') as Hsplit.
  { destruct buf as [|x buf]; [|exists old; by rewrite removelast_app].
    exists (removelast old). rewrite !app_nil_r. split; [done|]. by apply Forall_removelast. }
  constructor; [exact Hsplit|by apply StronglySorted_removelast|by apply Forall_removelast|].
  intros s. etransitivity; [apply restarts_in_removelast|apply Hb].
Qed.

Lemma getBuffer_count now c t : countInWindow now c t = count_after (now - tk_windowMs t) (getBuffer c t).
Proof. unfold countInWindow, getBuffer. by destruct (m_get c (tk_buffers t)). Qed.

Lemma unrecord_buffer c t : getBuffer c (unrecord c t) = removelast (getBuffer c t).
Proof.
  unfold unrecord, getBuffer. destruct (m_get c (tk_buffers t)) as [[|x buf]|] eqn:E; simpl; [by rewrite E| |by rewrite E].
  destruct (removelast (x :: buf)) as [|y rest] eqn:Er; simpl in *; rewrite Er; simpl.
  - by rewrite m_get_delete_eq.
  - by rewrite m_get_set_eq.
Qed.

Lemma tracker_config t op :
  tk_maxRestarts (tracker_step t op) = tk_maxRestarts t /\ tk_windowMs (tracker_step t op) = tk_windowMs t.
Proof.
  destruct op as [now c|c|c]; simpl; [unfold attempt; by destruct (isExhausted _ _ _)| |done].
  unfold unrecord. destruct (m_get _ _) as [[|x buf]|]; [done| |done]. by destruct (removelast _).
Qed.

(** Children have budgets of their own. *)
Lemma tracker_frame t op c : op_child op ≠ c -> getBuffer c (tracker_step t op) = getBuffer c t.
Proof.
  unfold getBuffer. destruct op as [now c'|c'|c']; simpl; intros Hne.
  - unfold attempt. destruct (isExhausted _ _ _); simpl; [done|]. by rewrite m_get_set_ne.
  - unfold unrecord. destruct (m_get c' _) as [[|x buf]|]; [done| |done].
    destruct (removelast _); simpl; [by rewrite m_get_delete_ne|by rewrite m_get_set_ne].
  - by rewrite m_get_delete_ne.
Qed.

Lemma budget_exhausted T h c t :
  budget (tk_maxRestarts t) (tk_windowMs t) T h (getBuffer c t) ->
  isExhausted T c t = (tk_maxRestarts t <=? count_after (T - tk_windowMs t) h).
Proof.
  intros Hb. unfold isExhausted. rewrite getBuffer_count, (budget_count _ _ _ _ _ T Hb) by lia.
  pose proof (count_after_nonneg (T - tk_windowMs t) h).
  destruct (Z.leb_spec (tk_maxRestarts t) 0); [|done]. symmetry. apply Z.leb_le. lia.
Qed.

Lemma budget_step T h c t op :
  budget (tk_maxRestarts t) (tk_windowMs t) T h (getBuffer c t) -> op_child op = c ->
  match op_time op with Some now => now = T | None => True end ->
  budget (tk_maxRestarts t) (tk_windowMs t) T
    (history_step (tk_maxRestarts t) (tk_windowMs t) h op) (getBuffer c (tracker_step t op)).
Proof.
  intros Hb Hc Hnow. destruct op as [now c'|c'|c']; simpl in *; subst c'.
  - subst now. unfold attempt. rewrite (budget_exhausted T h) by done.
    destruct (Z.leb_spec (tk_maxRestarts t) (count_after (T - tk_windowMs t) h)) as [|Hlt]; [done|].
    unfold record, getBuffer at 1. simpl. rewrite m_get_set_eq. simpl.
    apply budget_attempt; [done| |].
    + pose proof (count_after_nonneg (T - tk_windowMs t) h). lia.
    + by rewrite (budget_count _ _ _ _ _ T Hb) by lia.
  - rewrite unrecord_buffer. by apply budget_unrecord.
  - unfold reset, getBuffer. simpl. rewrite m_get_delete_eq. apply budget_nil.
Qed.

Lemma run_budget ops c : forall T h t now,
  budget (tk_maxRestarts t) (tk_windowMs t) T h (getBuffer c t) ->
  StronglySorted Z.le (omap op_time ops) -> Forall (Z.le T) (omap op_time ops) ->
  T <= now -> Forall (fun ts => ts <= now) (omap op_time ops) ->
  let t' := foldl tracker_step t ops in
  tk_maxRestarts t' = tk_maxRestarts t /\ tk_windowMs t' = tk_windowMs t /\
  budget (tk_maxRestarts t) (tk_windowMs t) now
    (foldl (history_step (tk_maxRestarts t) (tk_windowMs t)) h (filter (fun op => op_child op = c) ops))
    (getBuffer c t').
Proof.
  induction ops as [|op ops IH]; intros T h t now Hb Hs Hge Hnow Hle.
  { split_and!; [done|done|]. by apply budget_later with T. }
  assert (exists T', T <= T' /\ T' <= now /\ StronglySorted Z.le (omap op_time ops) /\
            Forall (Z.le T') (omap op_time ops) /\ Forall (fun ts => ts <= now) (omap op_time ops) /\
            match op_time op with Some at_ => at_ = T' | None => True end) as (T' & H1 & H2 & H3 & H4 & H5 & H6).
  { change (omap op_time (op :: ops)) with
      (match op_time op with Some x => x :: omap op_time ops | None => omap op_time ops end) in *.
    destruct (op_time op) as [x|]; [|exists T; by auto 10].
    apply StronglySorted_inv in Hs as [Hs Hx]. apply Forall_cons in Hge as [? Hge].
    apply Forall_cons in Hle as [? Hle]. by exists x. }
  destruct (tracker_config t op) as [Ec1 Ec2].
  apply (budget_later _ _ T T') in Hb; [|done]. simpl.
  destruct (decide (op_child op = c)) as [Hc|Hc].
  - rewrite filter_cons_True by done. simpl.
    pose proof (budget_step T' h c t op Hb Hc H6) as Hb'. rewrite <-Ec1, <-Ec2 in Hb'.
    destruct (IH T' _ _ now Hb' H3 H4 H2 H5) as (-> & -> & Hr). by rewrite Ec1, Ec2 in *.
  - rewrite filter_cons_False by done. rewrite <-(tracker_frame t op c Hc), <-Ec1, <-Ec2 in Hb.
    destruct (IH T' _ _ now Hb H3 H4 H2 H5) as (-> & -> & Hr). by rewrite Ec1, Ec2 in *.
Qed.

(** C25: under the controller's discipline - ask before recording, take back only what was recorded -
    and a clock that does not run backwards, the trimmed buffers answer as the untrimmed history of
    each child would, independently per child, and the attempts that were not taken back never
    exceed the budget in any window of the configured length, wherever it lies. *)
Theorem restart_budget_exact maxRestarts windowMs ops child now :
  times_increase ops -> Forall (fun ts => ts <= now) (omap op_time ops) ->
  let t := foldl tracker_step (createRestartIntensityTracker maxRestarts windowMs) ops in
  let h := history maxRestarts windowMs child ops in
  attemptsInWindow now child t = restarts_in windowMs now h /\
  isExhausted now child t = (maxRestarts <=? restarts_in windowMs now h) /\
  forall s, restarts_in windowMs s h <= Z.max 0 maxRestarts.
Proof.
  intros Hs Hle. cbv zeta. set (t0 := createRestartIntensityTracker maxRestarts windowMs).
  set (T0 := default now (head (omap op_time ops))).
  assert (budget (tk_maxRestarts t0) (tk_windowMs t0) T0 [] (getBuffer child t0)) as Hb0 by apply budget_nil.
  assert (Forall (Z.le T0) (omap op_time ops) /\ T0 <= now) as [H0 H1].
  { unfold T0, times_increase in *. destruct (omap op_time ops) as [|x l]; simpl; [by split; [constructor|]|].
    apply StronglySorted_inv in Hs as [_ Hx]. apply Forall_cons in Hle as [? _]. by split; [constructor|]. }
  destruct (run_budget ops child T0 [] t0 now Hb0 Hs H0 H1 Hle) as (Em & Ew & Hb).
  fold (history maxRestarts windowMs child ops) in Hb. simpl in Em, Ew, Hb.
  assert (restarts_in windowMs now (history maxRestarts windowMs child ops) =
          count_after (now - windowMs) (history maxRestarts windowMs child ops)) as Hin.
  { destruct Hb as [_ _ Hp _]. unfold restarts_in, count_after. f_equal. f_equal.
    apply list_filter_iff'. eapply Forall_impl; [exact Hp|]. simpl. lia. }
  rewrite Hin. split_and!; [| |by apply Hb].
  - unfold attemptsInWindow. rewrite getBuffer_count, Ew. by eapply budget_count.
  - erewrite budget_exhausted by (rewrite Em, Ew; exact Hb). by rewrite Em, Ew.
Qed.

Definition sample_attempts : list TrackerOp :=
  [t_attempt 0 "a"; t_attempt 10 "b"; t_attempt 20 "a"; t_unrecord "a"; t_attempt 30 "a";
   t_attempt 40 "a"; t_attempt 120 "a"].

Lemma restart_budget_exact_witness :
  let t := foldl tracker_step (createRestartIntensityTracker 2 100) sample_attempts in
  let h := history 2 100 "a" sample_attempts in
  h = [0; 30; 120] /\ tk_buffers t = [("a", [30; 120]); ("b", [10])] /\
  attemptsInWindow 125 "a" t = restarts_in 100 125 h /\
  isExhausted 125 "a" t = (2 <=? restarts_in 100 125 h) /\
  forall s, restarts_in 100 s h <= Z.max 0 2.
Proof.
  assert (times_increase sample_attempts) as H1 by (repeat constructor; lia).
  assert (Forall (fun ts => ts <= 125) (omap op_time sample_attempts)) as H2 by (repeat constructor; lia).
  split; [reflexivity|]. split; [reflexivity|].
  exact (restart_budget_exact 2 100 sample_attempts "a" 125 H1 H2).
Defined.
