(* ===== verification/Supervision.v ===== *)
(** * The supervision controller

    [kernel/engine-reconcile/src/supervision-reconciler.ts],
    [kernel/core/src/supervision.ts] and [validate-supervision.ts]: a pass over
    a supervisor finds the declared children that are missing or dead and
    restarts them by the configured strategy.

    A pass is a computation in a small monad over the controller's state, the
    registry and the process tree; it may throw.  Wherever the code awaits, the
    oracle [env] answers with a [Turn]: what everybody else did to the registry
    meanwhile, the clock afterwards and, where a child was being spawned, the
    agent or the error.  The oracle is told what is awaited and how many awaits
    there were before, so it can be any environment.  The registry is the
    in-memory one; its answers are values, and [awaitWithTimeout] of a value
    neither times out nor rejects.  The state of a supervisor is found under its
    id: a pass is the only one at work on its supervisor (the runner keeps
    passes over an agent apart) and the controller is not disposed of during
    it.  Between two awaits the clock stands still. *)

From S2P Require Import Prelude JsMap Lifecycle Registry AgentTree Runner RestartIntensity.

Local Open Scope string_scope.
Local Open Scope list_scope.
Local Open Scope Z_scope.

(** ** Declarations *)

Inductive SupervisionStrategy : Type := one_for_one | one_for_all | rest_for_one.

Definition strategy_str (s : SupervisionStrategy) : string :=
  match s with
  | one_for_one => "one_for_one" | one_for_all => "one_for_all" | rest_for_one => "rest_for_one"
  end.

Inductive RestartType : Type := permanent | transient | temporary.

#[export] Instance RestartType_eq_dec : EqDecision RestartType.
Proof. solve_decision. Defined.

Inductive ChildIsolation : Type := in_process | subprocess.

#[export] Instance ChildIsolation_eq_dec : EqDecision ChildIsolation.
Proof. solve_decision. Defined.

Record ChildSpec : Type := mkChildSpec {
  cs_name : string;
  cs_restart : RestartType;
  cs_shutdownTimeoutMs : option Z;
  cs_isolation : option ChildIsolation;
  cs_command : option (list string)
}.

#[export] Instance ChildSpec_eq_dec : EqDecision ChildSpec.
Proof. solve_decision. Defined.

Record SupervisionConfig : Type := mkSupervisionConfig {
  sc_strategy : SupervisionStrategy;
  sc_maxRestarts : Z;
  sc_maxRestartWindowMs : Z;
  sc_children : list ChildSpec
}.

Definition DEFAULT_SUPERVISION_CONFIG : SupervisionConfig := mkSupervisionConfig one_for_one 5 60000 [].

(** ** State *)

Record SupervisorState : Type := mkSupervisorState {
  ss_tracker : Tracker;
  ss_spawnFailureTracker : Tracker;
  ss_childMap : list (string * AgentId)
}.

(** What a pass waits for: an answer that is already there, one child, or the
    first of several children to settle. *)
Inductive Await : Type :=
  | aw_value
  | aw_spawn (parentId : AgentId) (spec : ChildSpec)
  | aw_settle (parentId : AgentId) (pending : list ChildSpec).

Record Turn : Type := mkTurn {
  tn_ops : list Reg.reg_op;
  tn_now : Z;
  tn_pick : nat;
  tn_spawn : AgentId + jsval
}.

Record World : Type := mkWorld {
  w_store : Reg.Store;
  w_tree : Tree.State;
  w_now : Z;
  w_awaits : nat;
  w_states : list (AgentId * SupervisorState);
  w_supervised : list AgentId;
  w_initialized : list AgentId;
  w_spawned : list (AgentId * ChildSpec)
}.

Definition set_registry (f : Reg.Store -> Reg.Store * list RegistryEvent) (w : World) : World :=
  let '(mkWorld st tr now n ss sup ini sp) := w in
  let '(st', evs) := f st in mkWorld st' (foldl Tree.on_event tr evs) now n ss sup ini sp.

Definition set_states (f : list (AgentId * SupervisorState) -> list (AgentId * SupervisorState))
    (w : World) : World :=
  let '(mkWorld st tr now n ss sup ini sp) := w in mkWorld st tr now n (f ss) sup ini sp.

Definition set_supervised (f : list AgentId -> list AgentId) (w : World) : World :=
  let '(mkWorld st tr now n ss sup ini sp) := w in mkWorld st tr now n ss (f sup) ini sp.

Definition set_initialized (f : list AgentId -> list AgentId) (w : World) : World :=
  let '(mkWorld st tr now n ss sup ini sp) := w in mkWorld st tr now n ss sup (f ini) sp.

Definition log_spawn (parentId : AgentId) (spec : ChildSpec) (w : World) : World :=
  let '(mkWorld st tr now n ss sup ini sp) := w in mkWorld st tr now n ss sup ini (sp ++ [(parentId, spec)]).

Definition pass_turn (t : Turn) (w : World) : World :=
  let '(mkWorld st tr now n ss sup ini sp) := set_registry (fun st => Reg.run_ops st (tn_ops t)) w in
  mkWorld st tr (tn_now t) (S n) ss sup ini sp.

(** ** The monad *)

Definition M (A : Type) : Type := World -> (A + jsval) * World.

Definition ret {A} (a : A) : M A := fun w => (inl a, w).
Definition throw {A} (e : jsval) : M A := fun w => (inr e, w).
Definition bind {A B} (m : M A) (k : A -> M B) : M B := fun w =>
  let '(r, w) := m w in match r with inl a => k a w | inr e => (inr e, w) end.
Definition try_ {A} (m : M A) : M (A + jsval) := fun w => let '(r, w) := m w in (inl r, w).
Definition gets {A} (f : World -> A) : M A := fun w => (inl (f w), w).
Definition modify (f : World -> World) : M unit := fun w => (inl tt, f w).

Declare Scope supervision_scope.
Delimit Scope supervision_scope with sup.
Notation "'let!' x ':=' m 'in' k" := (bind m (fun x => k))
  (at level 10, x binder, m at level 100, k at level 200) : supervision_scope.
Notation "m ';;!' k" := (bind m (fun _ => k)) (at level 90, right associativity) : supervision_scope.
Local Open Scope supervision_scope.

(** [for (const x of xs) …] whose body may [return]. *)
Fixpoint for_each {A R} (xs : list A) (body : A -> M (option R)) : M (option R) :=
  match xs with
  | [] => ret None
  | x :: xs => let! r := body x in match r with Some _ => ret r | None => for_each xs body end
  end.

(** A body that never returns. *)
Fixpoint for_all {A} (xs : list A) (body : A -> M unit) : M unit :=
  match xs with
  | [] => ret tt
  | x :: xs => body x ;;! for_all xs body
  end.

Definition TERMINATE_CONFIRM_MAX_RETRIES : nat := 3.
Definition REST_FOR_ONE_RETRY_BASE_MS : Z := 250.
Definition REST_FOR_ONE_RETRY_CAP_MS : Z := 8000.
Definition REST_FOR_ONE_ROLLBACK_BUDGET_MS : Z := 8000.

Definition create_state (config : SupervisionConfig) : SupervisorState :=
  let t := createRestartIntensityTracker (sc_maxRestarts config) (sc_maxRestartWindowMs config) in
  mkSupervisorState t t [].

Definition no_state : SupervisorState := create_state DEFAULT_SUPERVISION_CONFIG.

(** The state object a pass holds. *)
Definition state_of (id : AgentId) (w : World) : SupervisorState := default no_state (m_get id (w_states w)).

Definition update_state (id : AgentId) (f : SupervisorState -> SupervisorState) (w : World) : World :=
  set_states (m_set id (f (state_of id w))) w.

Definition with_tracker (f : Tracker -> Tracker) (s : SupervisorState) : SupervisorState :=
  mkSupervisorState (f (ss_tracker s)) (ss_spawnFailureTracker s) (ss_childMap s).
Definition with_spawnFailures (f : Tracker -> Tracker) (s : SupervisorState) : SupervisorState :=
  mkSupervisorState (ss_tracker s) (f (ss_spawnFailureTracker s)) (ss_childMap s).
Definition with_child (name : string) (childId : AgentId) (s : SupervisorState) : SupervisorState :=
  mkSupervisorState (ss_tracker s) (ss_spawnFailureTracker s) (m_set name childId (ss_childMap s)).

(** [state.childMap.get(name)] *)
Definition child_of (id : AgentId) (name : string) (w : World) : option AgentId :=
  m_get name (ss_childMap (state_of id w)).

Definition unsupervise (childId : AgentId) (w : World) : World := set_supervised (s_delete childId) w.
Definition supervise (childId : AgentId) (w : World) : World := set_supervised (s_add childId) w.

Definition getOrCreateState (agentId : AgentId) (config : SupervisionConfig) (w : World) : World :=
  match m_get agentId (w_states w) with
  | Some _ => w
  | None => set_states (m_set agentId (create_state config)) w
  end.

(** ** Adopting children that exist already *)

Definition adopt (agentId : AgentId) (name : string) (childId : AgentId) (w : World) : World :=
  supervise childId (update_state agentId (with_child name childId) w).

Definition adopt_by_name (agentId : AgentId) (config : SupervisionConfig) (acc : World * list AgentId)
    (childId : AgentId) : World * list AgentId :=
  let '(w, unmatched) := acc in
  match Reg.lookup childId (w_store w) with
  | None => (w, unmatched)
  | Some entry =>
      match m_get "childSpecName" (re_metadata entry) with
      | Some (JStr specName) =>
          if existsb (fun c => bool_decide (cs_name c = specName)) (sc_children config) &&
             negb (m_has specName (ss_childMap (state_of agentId w)))
          then (adopt agentId specName childId w, unmatched)
          else (w, unmatched ++ [childId])
      | _ => (w, unmatched ++ [childId])
      end
  end.

Definition adopt_by_position (agentId : AgentId) (config : SupervisionConfig) (w : World)
    (childId : AgentId) : World :=
  match List.find (fun c => negb (m_has (cs_name c) (ss_childMap (state_of agentId w)))) (sc_children config) with
  | Some spec => adopt agentId (cs_name spec) childId w
  | None => w
  end.

Definition initializeChildMap (agentId : AgentId) (config : SupervisionConfig) (w : World) : World :=
  if s_has agentId (w_initialized w) then w
  else
    let w := set_initialized (s_add agentId) w in
    let '(w, unmatched) :=
      foldl (adopt_by_name agentId config) (w, []) (Tree.childrenOf (w_tree w) agentId) in
    foldl (adopt_by_position agentId config) w unmatched.

(** ** Decisions *)

Definition shouldRestart (spec : ChildSpec) (entry : RegistryEntry) : bool :=
  match cs_restart spec with
  | temporary => false
  | permanent => true
  | transient =>
      match as_reason (re_status entry) with
      | Some (tr_error _) | Some tr_stale => true
      | _ => false
      end
  end.

Definition computeRestForOneRetryDelay (attempt : Z) : Z :=
  Z.min (REST_FOR_ONE_RETRY_BASE_MS * 2 ^ Z.max 0 (attempt - 1)) REST_FOR_ONE_RETRY_CAP_MS.

(** ** The controller *)

Section Reconciler.

Context (env : nat -> Await -> Turn).

Definition await (a : Await) : M Turn := fun w =>
  let t := env (w_awaits w) a in (inl t, pass_turn t w).

(** [await deps.registry.lookup(id)]: the answer is the one of before the await. *)
Definition await_lookup (id : AgentId) : M (option RegistryEntry) :=
  let! entry := gets (fun w => Reg.lookup id (w_store w)) in
  await aw_value ;;! ret entry.

Definition transition (id : AgentId) (to : ProcessState) (gen : Z) (reason : TransitionReason)
    : M (Result RegistryEntry KoiError) := fun w =>
  let '(r, _, _) := Reg.transition (w_now w) id to gen reason (w_store w) in
  (inl r, set_registry (fun st => let '(_, st, evs) := Reg.transition (w_now w) id to gen reason st in (st, evs)) w).

Definition terminateChild (childId : AgentId) (reason : TransitionReason) : M bool :=
  let! entry := gets (fun w => Reg.lookup childId (w_store w)) in
  match entry with
  | None => ret false
  | Some e =>
      if decide (as_phase (re_status e) = terminated) then ret true
      else
        let! result := transition childId terminated (as_generation (re_status e)) reason in
        ret (is_ok result)
  end.

(** [for (let attempt = 0; attempt < TERMINATE_CONFIRM_MAX_RETRIES; …)], by the attempts left. *)
Fixpoint confirm_loop (attempts : nat) (childId : AgentId) (reason : TransitionReason)
    (deadlineAtMs : Z) : M bool :=
  match attempts with
  | O => ret false
  | S attempts =>
      let! now := gets w_now in
      if deadlineAtMs - now <=? 0 then ret false
      else
        let! entry := await_lookup childId in
        match entry with
        | None => ret true
        | Some e =>
            if decide (as_phase (re_status e) = terminated) then ret true
            else
              let! now := gets w_now in
              if deadlineAtMs - now <=? 0 then ret false
              else
                let! result := transition childId terminated (as_generation (re_status e)) reason in
                await aw_value ;;!
                match result with
                | Ok _ => ret true
                | Err error =>
                    if decide (err_code error = NOT_FOUND) then ret true
                    else if decide (err_code error = CONFLICT)
                    then confirm_loop attempts childId reason deadlineAtMs
                    else ret false
                end
        end
  end.

Definition terminateChildConfirmed (childId : AgentId) (reason : TransitionReason) (deadlineAtMs : Z)
    : M bool := confirm_loop TERMINATE_CONFIRM_MAX_RETRIES childId reason deadlineAtMs.

(** [spawnAndTransition] after the child was spawned. *)
Definition adopt_spawned (parentId : AgentId) (spec : ChildSpec) (strategy : SupervisionStrategy)
    (attempt : Z) (newChildId : AgentId) : M AgentId :=
  modify (adopt parentId (cs_name spec) newChildId) ;;!
  let! entry := gets (fun w => Reg.lookup newChildId (w_store w)) in
  match entry with
  | None => ret newChildId
  | Some e =>
      transition newChildId running (as_generation (re_status e))
        (tr_restarted attempt (strategy_str strategy)) ;;!
      ret newChildId
  end.

Definition spawnAndTransition (parentId : AgentId) (spec : ChildSpec) (strategy : SupervisionStrategy)
    (attempt : Z) : M AgentId :=
  modify (log_spawn parentId spec) ;;!
  let! turn := await (aw_spawn parentId spec) in
  match tn_spawn turn with
  | inr err => throw err
  | inl newChildId => adopt_spawned parentId spec strategy attempt newChildId
  end.

Definition exhausted (which : SupervisorState -> Tracker) (parentId : AgentId) (name : string)
    (w : World) : bool := isExhausted (w_now w) name (which (state_of parentId w)).

Definition record_attempt (parentId : AgentId) (name : string) (w : World) : World :=
  update_state parentId (with_tracker (record (w_now w) name)) w.

Definition unrecord_attempt (parentId : AgentId) (name : string) (w : World) : World :=
  update_state parentId (with_tracker (unrecord name)) w.

Definition attempts (parentId : AgentId) (name : string) (w : World) : Z :=
  attemptsInWindow (w_now w) name (ss_tracker (state_of parentId w)).

(** [attemptOf]: siblings that are restarted with a failed child carry 0. *)
Definition attemptOf (parentId : AgentId) (terminatedSpecs : list ChildSpec) (name : string)
    (w : World) : Z :=
  if decide (name ∈ cs_name <$> terminatedSpecs) then attempts parentId name w else 0.

Definition unsupervise_all (id : AgentId) (w : World) : World :=
  match m_get id (w_states w) with
  | None => w
  | Some s => foldl (fun w childId => unsupervise childId w) w (m_values (ss_childMap s))
  end.

Definition escalate (supervisorId : AgentId) (failedChild : string) : M ReconcileResult :=
  modify (unsupervise_all supervisorId) ;;!
  let! entry := gets (fun w => Reg.lookup supervisorId (w_store w)) in
  match entry with
  | Some e =>
      if decide (as_phase (re_status e) = terminated) then ret tt
      else
        transition supervisorId terminated (as_generation (re_status e))
          (tr_escalated ("Restart budget exhausted for child " +:+ quoted failedChild)) ;;! ret tt
  | None => ret tt
  end ;;!
  ret (R_terminal ("Escalated: restart budget exhausted for " +:+ quoted failedChild)).

Definition escalated (parentId : AgentId) (name : string) : M (option ReconcileResult) :=
  let! r := escalate parentId name in ret (Some r).

Definition or_converged (m : M (option ReconcileResult)) : M ReconcileResult :=
  let! r := m in ret (default R_converged r).

(** The body of the loop of [applyOneForOne]. *)
Definition restart_one (parentId : AgentId) (spec : ChildSpec) : M (option ReconcileResult) :=
  let! full := gets (exhausted ss_tracker parentId (cs_name spec)) in
  if full then escalated parentId (cs_name spec)
  else
    modify (record_attempt parentId (cs_name spec)) ;;!
    let! attempt := gets (attempts parentId (cs_name spec)) in
    let! oldChildId := gets (child_of parentId (cs_name spec)) in
    modify (fun w => match oldChildId with Some old => unsupervise old w | None => w end) ;;!
    let! r := try_ (spawnAndTransition parentId spec one_for_one attempt) in
    match r with
    | inl _ => ret None
    | inr err => modify (unrecord_attempt parentId (cs_name spec)) ;;! throw err
    end.

Definition applyOneForOne (parentId : AgentId) (terminatedSpecs : list ChildSpec) : M ReconcileResult :=
  or_converged (for_each terminatedSpecs (restart_one parentId)).

(** The loop over the children that are taken down with the failed ones. *)
Definition take_down (parentId : AgentId) (terminatedSpecs : list ChildSpec)
    (strategy : SupervisionStrategy) (spec : ChildSpec) : M unit :=
  let! childId := gets (child_of parentId (cs_name spec)) in
  match childId with
  | None => ret tt
  | Some id =>
      modify (unsupervise id) ;;!
      let! attempt := gets (attemptOf parentId terminatedSpecs (cs_name spec)) in
      terminateChild id (tr_restarted attempt (strategy_str strategy)) ;;! ret tt
  end.

(** [Promise.allSettled]: the spawns are all under way; one after another they
    settle, in an order the environment picks, and what follows the await in
    [spawnAndTransition] runs as each does. *)
Record Flight : Type := mkFlight { fl_index : nat; fl_spec : ChildSpec; fl_attempt : Z }.

Definition pick (n : nat) (fs : list Flight) : option (Flight * list Flight) :=
  let i := (n mod length fs)%nat in
  match fs !! i with Some f => Some (f, take i fs ++ drop (S i) fs) | None => None end.

Fixpoint settle_all (fuel : nat) (parentId : AgentId) (fs : list Flight)
    (results : list (nat * (AgentId + jsval))) : M (list (nat * (AgentId + jsval))) :=
  match fuel with
  | O => ret results
  | S fuel =>
      let! turn := await (aw_settle parentId (fl_spec <$> fs)) in
      match pick (tn_pick turn) fs with
      | None => ret results
      | Some (f, fs) =>
          match tn_spawn turn with
          | inr err => settle_all fuel parentId fs (m_set (fl_index f) (inr err) results)
          | inl id =>
              let! id := adopt_spawned parentId (fl_spec f) one_for_all (fl_attempt f) id in
              settle_all fuel parentId fs (m_set (fl_index f) (inl id) results)
          end
      end
  end.

Fixpoint take_off (parentId : AgentId) (terminatedSpecs : list ChildSpec) (i : nat)
    (specs : list ChildSpec) : M (list Flight) :=
  match specs with
  | [] => ret []
  | spec :: specs =>
      let! attempt := gets (attemptOf parentId terminatedSpecs (cs_name spec)) in
      modify (log_spawn parentId spec) ;;!
      let! fs := take_off parentId terminatedSpecs (S i) specs in
      ret (mkFlight i spec attempt :: fs)
  end.

Definition spawn_all (parentId : AgentId) (terminatedSpecs children : list ChildSpec)
    : M (list (nat * (AgentId + jsval))) :=
  let! fs := take_off parentId terminatedSpecs 0 children in
  settle_all (length fs) parentId fs [].

Definition first_failure (n : nat) (results : list (nat * (AgentId + jsval))) : option jsval :=
  head (omap (fun i => match m_get i results with Some (inr err) => Some err | _ => None end) (seq 0 n)).

(** The rollback loop of [applyOneForAll], over index and child specification. *)
Definition roll_back_one (parentId : AgentId) (terminatedSpecs : list ChildSpec)
    (results : list (nat * (AgentId + jsval))) (p : nat * ChildSpec) : M unit :=
  match m_get p.1 results with
  | Some (inl id) =>
      modify (unsupervise id) ;;!
      let! attempt := gets (attemptOf parentId terminatedSpecs (cs_name p.2)) in
      terminateChild id (tr_restarted attempt (strategy_str one_for_all)) ;;! ret tt
  | _ => ret tt
  end.

Definition unrecord_all (parentId : AgentId) (specs : list ChildSpec) : M unit :=
  for_all specs (fun spec => modify (unrecord_attempt parentId (cs_name spec))).

(** The first loop of the two collective strategies. *)
Definition charge_one (parentId : AgentId) (check_spawns : bool) (spec : ChildSpec)
    : M (option ReconcileResult) :=
  let! full := gets (exhausted ss_tracker parentId (cs_name spec)) in
  if full then escalated parentId (cs_name spec)
  else
    let! stuck := gets (exhausted ss_spawnFailureTracker parentId (cs_name spec)) in
    if check_spawns && stuck then escalated parentId (cs_name spec)
    else modify (record_attempt parentId (cs_name spec)) ;;! ret None.

Definition charge (parentId : AgentId) (check_spawns : bool) (specs : list ChildSpec)
    : M (option ReconcileResult) := for_each specs (charge_one parentId check_spawns).

Definition applyOneForAll (parentId : AgentId) (config : SupervisionConfig)
    (terminatedSpecs : list ChildSpec) : M ReconcileResult :=
  let! stop := charge parentId false terminatedSpecs in
  match stop with
  | Some r => ret r
  | None =>
      for_all (sc_children config) (take_down parentId terminatedSpecs one_for_all) ;;!
      let! results := spawn_all parentId terminatedSpecs (sc_children config) in
      match first_failure (length (sc_children config)) results with
      | None => ret R_converged
      | Some reason =>
          for_all (imap pair (sc_children config)) (roll_back_one parentId terminatedSpecs results) ;;!
          unrecord_all parentId terminatedSpecs ;;!
          throw reason
      end
  end.

(** [indexByName.get(name) ?? -1]: of equal names the last index wins. *)
Definition indexByName (children : list ChildSpec) (name : string) : option nat :=
  m_get name (foldl (fun m p => m_set (cs_name p.2) p.1 m) [] (imap pair children)).

Definition earliest (children terminatedSpecs : list ChildSpec) : nat :=
  foldl (fun earliestIdx spec =>
    match indexByName children (cs_name spec) with
    | Some idx => if (idx <? earliestIdx)%nat then idx else earliestIdx
    | None => earliestIdx
    end) (length children) terminatedSpecs.

(** The sequential restarts up to the first one that throws. *)
Fixpoint spawn_in_order (parentId : AgentId) (terminatedSpecs specs restarted : list ChildSpec)
    : M (list ChildSpec * option ChildSpec) :=
  match specs with
  | [] => ret (restarted, None)
  | spec :: specs =>
      let! attempt := gets (attemptOf parentId terminatedSpecs (cs_name spec)) in
      let! r := try_ (spawnAndTransition parentId spec rest_for_one attempt) in
      match r with
      | inl _ => spawn_in_order parentId terminatedSpecs specs (restarted ++ [spec])
      | inr _ => ret (restarted, Some spec)
      end
  end.

(** The rollback loop; [confirmed] is [rollbackConfirmed]. *)
Fixpoint roll_back (parentId : AgentId) (terminatedSpecs : list ChildSpec) (deadline : Z)
    (specs : list ChildSpec) (confirmed : bool) : M bool :=
  match specs with
  | [] => ret confirmed
  | spec :: specs =>
      let! now := gets w_now in
      if deadline <=? now then ret false
      else
        let! childId := gets (child_of parentId (cs_name spec)) in
        match childId with
        | None => roll_back parentId terminatedSpecs deadline specs confirmed
        | Some id =>
            let! attempt := gets (attemptOf parentId terminatedSpecs (cs_name spec)) in
            let! gone := terminateChildConfirmed id
                           (tr_restarted attempt (strategy_str rest_for_one)) deadline in
            if gone then
              modify (unsupervise id) ;;! roll_back parentId terminatedSpecs deadline specs confirmed
            else roll_back parentId terminatedSpecs deadline specs false
        end
  end.

(** The [catch] of [applyRestForOne]. *)
Definition rest_failed (parentId : AgentId) (terminatedSpecs restarted : list ChildSpec)
    (failedSpec : ChildSpec) : M ReconcileResult :=
  let! now := gets w_now in
  let! confirmed := roll_back parentId terminatedSpecs (now + REST_FOR_ONE_ROLLBACK_BUDGET_MS)
                      (rev restarted) true in
  unrecord_all parentId terminatedSpecs ;;!
  if negb confirmed then ret (R_retry (computeRestForOneRetryDelay 1))
  else
    let! stuck := gets (exhausted ss_spawnFailureTracker parentId (cs_name failedSpec)) in
    if stuck then escalate parentId (cs_name failedSpec)
    else
      modify (fun w => update_state parentId
                         (with_spawnFailures (record (w_now w) (cs_name failedSpec))) w) ;;!
      let! failureAttempt := gets (fun w => attemptsInWindow (w_now w) (cs_name failedSpec)
                                     (ss_spawnFailureTracker (state_of parentId w))) in
      ret (R_retry (computeRestForOneRetryDelay failureAttempt)).

Definition applyRestForOne (parentId : AgentId) (config : SupervisionConfig)
    (terminatedSpecs : list ChildSpec) : M ReconcileResult :=
  let! stop := charge parentId true terminatedSpecs in
  match stop with
  | Some r => ret r
  | None =>
      let affected := drop (earliest (sc_children config) terminatedSpecs) (sc_children config) in
      for_all (rev affected) (take_down parentId terminatedSpecs rest_for_one) ;;!
      let! outcome := spawn_in_order parentId terminatedSpecs affected [] in
      match outcome with
      | (restarted, None) =>
          for_all restarted (fun spec =>
            modify (update_state parentId (with_spawnFailures (reset (cs_name spec))))) ;;!
          ret R_converged
      | (restarted, Some failedSpec) => rest_failed parentId terminatedSpecs restarted failedSpec
      end
  end.

(** Whether a child is to be (re)spawned; the entry is asked for only when a
    child is known. *)
Definition wants_restart (spec : ChildSpec) (known : option (option RegistryEntry)) : bool :=
  match known with
  | None => true
  | Some None => bool_decide (cs_restart spec ≠ temporary)
  | Some (Some entry) => bool_decide (as_phase (re_status entry) = terminated) && shouldRestart spec entry
  end.

Fixpoint collect (agentId : AgentId) (specs : list ChildSpec) : M (list ChildSpec) :=
  match specs with
  | [] => ret []
  | spec :: specs =>
      let! childId := gets (child_of agentId (cs_name spec)) in
      let! known := match childId with
                    | None => ret None
                    | Some id => let! entry := await_lookup id in ret (Some entry)
                    end in
      let! rest := collect agentId specs in
      ret (if wants_restart spec known then spec :: rest else rest)
  end.

Definition reconcile (agentId : AgentId) (supervision : option SupervisionConfig) : M ReconcileResult :=
  match supervision with
  | None => ret R_converged
  | Some config =>
      if decide (sc_children config = []) then ret R_converged
      else
        let! supervisorEntry := await_lookup agentId in
        match supervisorEntry with
        | None => ret R_converged
        | Some entry =>
            if decide (as_phase (re_status entry) = terminated) then
              modify (unsupervise_all agentId) ;;!
              modify (fun w => set_initialized (s_delete agentId) (set_states (m_delete agentId) w)) ;;!
              ret R_converged
            else
              modify (getOrCreateState agentId config) ;;!
              modify (initializeChildMap agentId config) ;;!
              let! terminatedSpecs := collect agentId (sc_children config) in
              if decide (terminatedSpecs = []) then ret R_converged
              else
                match sc_strategy config with
                | one_for_one => applyOneForOne agentId terminatedSpecs
                | one_for_all => applyOneForAll agentId config terminatedSpecs
                | rest_for_one => applyRestForOne agentId config terminatedSpecs
                end
        end
  end.

Definition isSupervised (agentId : AgentId) (w : World) : bool := s_has agentId (w_supervised w).

Definition asyncDispose (w : World) : World :=
  set_initialized (fun _ => []) (set_supervised (fun _ => []) (set_states (fun _ => []) w)).

End Reconciler.

Definition initial (store : Reg.Store) (tree : Tree.State) (now : Z) : World :=
  mkWorld store tree now 0 [] [] [] [].
