(* ===== verification/ValidateSupervision.v ===== *)
(** * Validation of supervision declarations

    [kernel/core/src/validate-supervision.ts]: the checks a declared supervision
    tree passes before a supervisor is wired to it.  A declaration comes from a
    manifest file, so the fields that are checked at run time are taken as they
    may arrive. *)

From S2P Require Import Prelude JsMap Supervision.

Local Open Scope string_scope.
Local Open Scope list_scope.
Local Open Scope Z_scope.

(** A number: an integer, one with a fraction (the integer below it and the text
    it prints as), or none of the finite ones. *)
Inductive Num : Type :=
  | N_int (n : Z)
  | N_frac (below : Z) (text : string)
  | N_nan | N_inf | N_neginf.

Definition isInteger (x : Num) : bool := match x with N_int _ => true | _ => false end.
Definition isFinite (x : Num) : bool := match x with N_int _ | N_frac _ _ => true | _ => false end.
(** [x < 0] and [x <= 0]; every comparison with NaN is false. *)
Definition negative (x : Num) : bool :=
  match x with N_int n => n <? 0 | N_frac b _ => b <? 0 | N_neginf => true | _ => false end.
Definition not_positive (x : Num) : bool :=
  match x with N_int n => n <=? 0 | N_frac b _ => b <? 0 | N_neginf => true | _ => false end.
Definition show (x : Num) : string :=
  match x with
  | N_int n => pretty n | N_frac _ t => t
  | N_nan => "NaN" | N_inf => "Infinity" | N_neginf => "-Infinity"
  end.

Record RawChildSpec : Type := mkRawChildSpec {
  rs_name : jsval;
  rs_restart : string;
  rs_shutdownTimeoutMs : option Num;
  rs_isolation : option string;
  rs_command : option (list string)
}.

Record RawConfig : Type := mkRawConfig {
  rc_strategy : SupervisionStrategy;
  rc_maxRestarts : Num;
  rc_maxRestartWindowMs : Num;
  rc_children : list RawChildSpec
}.

Definition VALID_ISOLATION : list string := ["in-process"; "subprocess"].
Definition VALID_RESTART : list string := ["permanent"; "transient"; "temporary"].

Definition fail (message : string) : KoiError := koiError VALIDATION message false.

Definition name_of (spec : RawChildSpec) : option string :=
  match rs_name spec with
  | JStr s => if decide (s = EmptyString) then None else Some s
  | _ => None
  end.

Definition validateChildSpec (spec : RawChildSpec) : Result RawChildSpec KoiError :=
  if bool_decide (name_of spec = None) then Err (fail "ChildSpec.name must be non-empty string")
  else if negb (s_has (rs_restart spec) VALID_RESTART) then
    Err (fail ("ChildSpec.restart unknown: " +:+ quoted (rs_restart spec)))
  else if match rs_isolation spec with Some i => negb (s_has i VALID_ISOLATION) | None => false end then
    Err (fail ("ChildSpec.isolation unknown: " +:+ quoted (default EmptyString (rs_isolation spec))))
  else if match rs_shutdownTimeoutMs spec with
          | Some ms => negb (isFinite ms) || negative ms
          | None => false
          end then
    Err (fail ("ChildSpec.shutdownTimeoutMs must be non-negative, got "
               +:+ show (default N_nan (rs_shutdownTimeoutMs spec))))
  else Ok spec.

Fixpoint validate_children (seen : list string) (children : list RawChildSpec) : Result unit KoiError :=
  match children with
  | [] => Ok tt
  | child :: children =>
      match validateChildSpec child with
      | Err e => Err e
      | Ok _ =>
          let name := default EmptyString (name_of child) in
          if s_has name seen then Err (fail ("duplicate child name: " +:+ quoted name))
          else validate_children (s_add name seen) children
      end
  end.

Definition validateSupervisionConfig (config : RawConfig) : Result RawConfig KoiError :=
  if negb (isInteger (rc_maxRestarts config)) || negative (rc_maxRestarts config) then
    Err (fail ("maxRestarts must be non-negative integer, got " +:+ show (rc_maxRestarts config)))
  else if negb (isFinite (rc_maxRestartWindowMs config)) || not_positive (rc_maxRestartWindowMs config) then
    Err (fail ("maxRestartWindowMs must be positive, got " +:+ show (rc_maxRestartWindowMs config)))
  else
    match validate_children [] (rc_children config) with
    | Err e => Err e
    | Ok _ => Ok config
    end.

(** ** What is wrong with a declaration, in the order it is reported *)

Definition when (b : bool) (m : string) : list string := if b then [m] else [].

Definition child_offences (spec : RawChildSpec) : list string :=
  when (bool_decide (name_of spec = None)) "ChildSpec.name must be non-empty string" ++
  when (bool_decide (rs_restart spec ∉ VALID_RESTART))
    ("ChildSpec.restart unknown: " +:+ quoted (rs_restart spec)) ++
  match rs_isolation spec with
  | Some i => when (bool_decide (i ∉ VALID_ISOLATION)) ("ChildSpec.isolation unknown: " +:+ quoted i)
  | None => []
  end ++
  match rs_shutdownTimeoutMs spec with
  | Some ms => when (negb (isFinite ms) || negative ms)
                 ("ChildSpec.shutdownTimeoutMs must be non-negative, got " +:+ show ms)
  | None => []
  end.

Definition duplicate_offence (before : list RawChildSpec) (spec : RawChildSpec) : list string :=
  when (bool_decide (name_of spec ∈ name_of <$> before))
    ("duplicate child name: " +:+ quoted (default EmptyString (name_of spec))).

Fixpoint children_offences (before children : list RawChildSpec) : list string :=
  match children with
  | [] => []
  | spec :: children =>
      child_offences spec ++ duplicate_offence before spec ++ children_offences (before ++ [spec]) children
  end.

Definition offences (config : RawConfig) : list string :=
  when (negb (isInteger (rc_maxRestarts config)) || negative (rc_maxRestarts config))
    ("maxRestarts must be non-negative integer, got " +:+ show (rc_maxRestarts config)) ++
  when (negb (isFinite (rc_maxRestartWindowMs config)) || not_positive (rc_maxRestartWindowMs config))
    ("maxRestartWindowMs must be positive, got " +:+ show (rc_maxRestartWindowMs config)) ++
  children_offences [] (rc_children config).

(** The declaration as the controller reads it. *)
Definition typed_restart (s : string) : option RestartType :=
  if decide (s = "permanent") then Some permanent
  else if decide (s = "transient") then Some transient
  else if decide (s = "temporary") then Some temporary else None.

Definition typed_isolation (s : string) : option ChildIsolation :=
  if decide (s = "in-process") then Some in_process
  else if decide (s = "subprocess") then Some subprocess else None.

Definition whole (x : Num) : Z := match x with N_int n => n | N_frac b _ => b | _ => 0 end.

Definition typed_child (spec : RawChildSpec) : option ChildSpec :=
  name ← name_of spec; r ← typed_restart (rs_restart spec);
  Some (mkChildSpec name r (whole <$> rs_shutdownTimeoutMs spec) (i ← rs_isolation spec; typed_isolation i)
          (rs_command spec)).

(** ** Proofs *)

Lemma has_negb (x : string) l : negb (s_has x l) = bool_decide (x ∉ l).
Proof. unfold s_has. by rewrite bool_decide_not. Qed.

Lemma validateChildSpec_offences spec :
  validateChildSpec spec = match child_offences spec with [] => Ok spec | m :: _ => Err (fail m) end.
Proof.
  unfold validateChildSpec, child_offences. destruct (bool_decide (name_of spec = None)); simpl; [done|].
  rewrite has_negb. destruct (bool_decide (rs_restart spec ∉ VALID_RESTART)); simpl; [done|].
  destruct (rs_isolation spec) as [i|]; simpl; [rewrite has_negb; destruct (bool_decide (i ∉ VALID_ISOLATION)); simpl; [done|]|].
  all: destruct (rs_shutdownTimeoutMs spec) as [ms|]; simpl; [|done].
  all: by destruct (negb (isFinite ms) || negative ms).
Qed.

Lemma validate_children_offences children : forall before seen,
  Forall (fun s => is_Some (name_of s)) before ->
  (forall n, n ∈ seen <-> Some n ∈ name_of <$> before) ->
  validate_children seen children =
    match children_offences before children with [] => Ok tt | m :: _ => Err (fail m) end.
Proof.
  induction children as [|spec children IH]; intros before seen Hb Hseen; [done|].
  cbn [validate_children children_offences]. rewrite validateChildSpec_offences.
  destruct (child_offences spec) as [|m ms] eqn:Eo; simpl; [|done].
  assert (exists name, name_of spec = Some name) as [name Hname].
  { unfold child_offences in Eo. destruct (name_of spec); [by eexists|done]. }
  unfold duplicate_offence. rewrite Hname. simpl.
  assert (s_has name seen = bool_decide (Some name ∈ name_of <$> before)) as ->.
  { apply bool_decide_ext, Hseen. }
  destruct (bool_decide _); simpl; [done|]. apply IH.
  - apply Forall_app. split; [done|]. constructor; [by eexists|constructor].
  - intros n. rewrite fmap_app, elem_of_app, elem_of_s_add, Hseen. simpl. rewrite Hname, list_elem_of_singleton.
    naive_solver.
Qed.

Lemma validate_offences config :
  validateSupervisionConfig config = match offences config with [] => Ok config | m :: _ => Err (fail m) end.
Proof.
  unfold validateSupervisionConfig, offences. destruct (_ || _); simpl; [done|]. destruct (_ || _); simpl; [done|].
  rewrite (validate_children_offences _ [] []); [|apply List.Forall_nil|set_solver].
  by destruct (children_offences [] (rc_children config)).
Qed.

Lemma when_nil b m : when b m = [] <-> b = false.
Proof. by destruct b. Qed.

Lemma children_accepted children : forall before,
  Forall (fun s => is_Some (name_of s)) before -> NoDup (name_of <$> before) ->
  children_offences before children = [] ->
  exists specs, mapM typed_child children = Some specs /\
    NoDup ((name_of <$> before) ++ (Some <$> (cs_name <$> specs))).
Proof.
  induction children as [|spec children IH]; intros before Hb Hnd Ho.
  { exists []. split; [done|]. by rewrite app_nil_r. }
  cbn [children_offences] in Ho. apply app_eq_nil in Ho as [Ho1 Ho2]. apply app_eq_nil in Ho2 as [Ho2 Ho3].
  assert (exists c, typed_child spec = Some c /\ name_of spec = Some (cs_name c)) as (c & Hc & Hname).
  { unfold child_offences in Ho1. apply app_eq_nil in Ho1 as [H1 Ho1]. apply app_eq_nil in Ho1 as [H2 _].
    apply when_nil, bool_decide_eq_false in H1, H2. unfold typed_child, typed_restart.
    destruct (name_of spec) as [name|]; [|done]. simpl.
    apply dec_stable in H2. unfold VALID_RESTART in H2. rewrite !elem_of_cons in H2.
    destruct H2 as [->|[->|[->|H2]]]; simpl; [by eexists|by eexists|by eexists|by apply elem_of_nil in H2]. }
  unfold duplicate_offence in Ho2. apply when_nil, bool_decide_eq_false in Ho2.
  destruct (IH (before ++ [spec])) as (specs & Hs & Hnd').
  - apply Forall_app. split; [done|]. constructor; [by rewrite Hname|constructor].
  - rewrite fmap_app. apply NoDup_app. split_and!; [done| |apply NoDup_singleton].
    intros x Hx ->%list_elem_of_singleton. done.
  - exact Ho3.
  - exists (c :: specs). simpl. rewrite Hc. simpl. rewrite Hs. split; [done|].
    rewrite fmap_app, <-app_assoc in Hnd'. simpl in *. by rewrite Hname in Hnd'.
Qed.

(** C26: validation reports the first thing wrong with a declaration, in the order budget, window, then
    child by child name, restart type, isolation, shutdown timeout and repeated name, always as a
    VALIDATION error that is not to be retried; what it accepts it returns unchanged, and then every
    child can be read, no two children share a name, the budget is a non-negative integer and the
    window a positive finite number. *)
Theorem validation_exact config :
  match validateSupervisionConfig config with
  | Err e => err_code e = VALIDATION /\ err_retryable e = false /\ head (offences config) = Some (err_message e)
  | Ok config' =>
      config' = config /\ offences config = [] /\
      (exists n, rc_maxRestarts config = N_int n /\ 0 <= n) /\
      isFinite (rc_maxRestartWindowMs config) = true /\ not_positive (rc_maxRestartWindowMs config) = false /\
      exists specs, mapM typed_child (rc_children config) = Some specs /\ NoDup (cs_name <$> specs)
  end.
Proof.
  rewrite validate_offences. destruct (offences config) as [|m ms] eqn:Eo; [|done].
  split; [done|]. split; [done|]. unfold offences in Eo.
  apply app_eq_nil in Eo as [H1 Eo]. apply app_eq_nil in Eo as [H2 H3].
  apply when_nil, orb_false_iff in H1 as [H1 H1']. apply when_nil, orb_false_iff in H2 as [H2 H2'].
  split_and!; [| by apply negb_false_iff|done|].
  - destruct (rc_maxRestarts config) as [n| | | |]; try done. exists n. split; [done|]. simpl in H1'. lia.
  - destruct (children_accepted (rc_children config) [] (List.Forall_nil _) NoDup_nil_2 H3) as (specs & Hs & Hnd).
    exists specs. split; [done|]. simpl in Hnd. by apply NoDup_fmap_1 in Hnd.
Qed.
