(* ===== verification/SupervisionInv.v ===== *)
(** * Reasoning about passes of the supervision controller

    Rules for the monad of [Supervision], one for each way of composing
    computations: a pass stays within a reflexive and transitive relation of
    worlds when its parts do.  With them: what each part leaves alone, and the
    invariant that every supervised id is one a supervisor keeps track of. *)

From S2P Require Import Prelude JsMap Lifecycle Registry AgentTree Runner RestartIntensity Supervision.

Local Open Scope string_scope.
Local Open Scope list_scope.
Local Open Scope Z_scope.
Local Open Scope supervision_scope.

(** ** Computations within a relation *)

Section Within.

Context (R : relation World) `{HR : !PreOrder R}.

Definition within {A} (m : M A) : Prop := forall w, R w (m w).2.

Lemma within_ret {A} (a : A) : within (ret a).
Proof using HR. intros w. simpl. reflexivity. Qed.

Lemma within_throw {A} e : within (@throw A e).
Proof using HR. intros w. simpl. reflexivity. Qed.

Lemma within_gets {A} (f : World -> A) : within (gets f).
Proof using HR. intros w. simpl. reflexivity. Qed.

Lemma within_modify (f : World -> World) : (forall w, R w (f w)) -> within (modify f).
Proof. intros Hf w. apply Hf. Qed.

Lemma within_bind {A B} (m : M A) (k : A -> M B) :
  within m -> (forall a, within (k a)) -> within (bind m k).
Proof using HR.
  intros Hm Hk w. unfold bind. specialize (Hm w). destruct (m w) as [[a|e] w'] eqn:E; simpl in *; [|done].
  transitivity w'; [done|apply Hk].
Qed.

Lemma within_try {A} (m : M A) : within m -> within (try_ m).
Proof. intros Hm w. unfold try_. specialize (Hm w). by destruct (m w). Qed.

Lemma within_for_each {A B} (xs : list A) (body : A -> M (option B)) :
  (forall x, x ∈ xs -> within (body x)) -> within (for_each xs body).
Proof using HR.
  induction xs as [|x xs IH]; intros Hb; simpl; [apply within_ret|].
  apply within_bind; [apply Hb; set_solver|]. intros [r|]; [apply within_ret|].
  apply IH. intros y Hy. apply Hb. set_solver.
Qed.

Lemma within_for_all {A} (xs : list A) (body : A -> M unit) :
  (forall x, x ∈ xs -> within (body x)) -> within (for_all xs body).
Proof using HR.
  induction xs as [|x xs IH]; intros Hb; simpl; [apply within_ret|].
  apply within_bind; [apply Hb; set_solver|]. intros _. apply IH. intros y Hy. apply Hb. set_solver.
Qed.

End Within.

(** One step of taking a computation apart. *)
Ltac within_step :=
  match goal with
  | |- within _ (bind _ _) => apply within_bind; [typeclasses eauto| |intros ?]
  | |- within _ (ret _) => apply within_ret; typeclasses eauto
  | |- within _ (throw _) => apply within_throw; typeclasses eauto
  | |- within _ (gets _) => apply within_gets; typeclasses eauto
  | |- within _ (try_ _) => apply within_try
  | |- within _ (for_each _ _) => apply within_for_each; [typeclasses eauto|intros ? ?]
  | |- within _ (for_all _ _) => apply within_for_all; [typeclasses eauto|intros ? ?]
  | |- within _ (match ?x with _ => _ end) => destruct x
  | |- within _ (if ?b then _ else _) => destruct b
  end.

Ltac within_solve := repeat (within_step || (progress (eauto with within))).

Create HintDb within discriminated.

(** ** Parts that respect a relation because registry, clock and budgets do not matter to it *)

(** What a relation must tolerate of the environment, the registry and the accounts. *)
Class Ambient (R : relation World) : Prop := mkAmbient {
  am_preorder :: PreOrder R;
  am_turn : forall t w, R w (pass_turn t w);
  am_registry : forall f w, R w (set_registry f w)
}.

Section Ambient.

Context (env : nat -> Await -> Turn) (R : relation World) `{HR : !Ambient R}.

Lemma within_await a : within R (await env a).
Proof using HR. intros w. apply am_turn. Qed.

Lemma within_await_lookup id : within R (await_lookup env id).
Proof using HR. unfold await_lookup. within_solve. apply within_await. Qed.

Lemma within_transition id to gen reason : within R (transition id to gen reason).
Proof using HR. intros w. unfold transition. destruct (Reg.transition _ _ _ _ _ _) as [[r st] evs]. apply am_registry. Qed.

Lemma within_terminateChild id reason : within R (terminateChild id reason).
Proof using HR. unfold terminateChild. within_solve. apply within_transition. Qed.

Lemma within_confirm_loop n id reason deadline : within R (confirm_loop env n id reason deadline).
Proof using HR.
  revert id reason deadline. induction n as [|n IH]; intros id reason deadline; simpl; [within_solve|].
  within_solve; auto using within_await_lookup, within_transition, within_await.
Qed.

Lemma within_terminateChildConfirmed id reason deadline :
  within R (terminateChildConfirmed env id reason deadline).
Proof using HR. apply within_confirm_loop. Qed.

End Ambient.

#[export] Hint Extern 2 (within _ (await _ _)) => apply within_await; typeclasses eauto : within.
#[export] Hint Extern 2 (within _ (await_lookup _ _)) => apply within_await_lookup; typeclasses eauto : within.
#[export] Hint Extern 2 (within _ (transition _ _ _ _)) => apply within_transition; typeclasses eauto : within.
#[export] Hint Extern 2 (within _ (terminateChild _ _)) => apply within_terminateChild; typeclasses eauto : within.
#[export] Hint Extern 2 (within _ (terminateChildConfirmed _ _ _ _)) =>
  apply within_terminateChildConfirmed; typeclasses eauto : within.

(** ** Awaits only go on *)

Definition later (w w' : World) : Prop := (w_awaits w <= w_awaits w')%nat.

#[export] Instance later_ambient : Ambient later.
Proof.
  constructor.
  - split; [intros w; unfold later; lia|]. intros w1 w2 w3 H1 H2. unfold later in *. lia.
  - intros t []. unfold later, pass_turn. simpl. destruct (Reg.run_ops _ _). simpl. lia.
  - intros f []. unfold later. simpl. by destruct (f _).
Qed.

Lemma later_await_lookup env id : within later (await_lookup env id).
Proof. within_solve. Qed.

Lemma later_collect env a specs : within later (collect env a specs).
Proof. induction specs as [|spec specs IH]; simpl; [within_solve|]. within_solve; auto. Qed.

(** ** The log of spawned children *)

Definition same_log (w w' : World) : Prop := w_spawned w' = w_spawned w.

#[export] Instance same_log_ambient : Ambient same_log.
Proof.
  constructor.
  - split; [done|]. intros w1 w2 w3 H1 H2. unfold same_log in *. congruence.
  - intros t []. unfold same_log, pass_turn. simpl. by destruct (Reg.run_ops _ _).
  - intros f []. unfold same_log. simpl. by destruct (f _).
Qed.

Section Log.

Context (env : nat -> Await -> Turn).

Lemma log_states f : within same_log (modify (set_states f)).
Proof. intros []. done. Qed.

Lemma log_supervised f : within same_log (modify (set_supervised f)).
Proof. intros []. done. Qed.

Lemma log_update id f : within same_log (modify (update_state id f)).
Proof. intros []. done. Qed.

Lemma log_update' id f : within same_log (modify (fun w => update_state id (f w) w)).
Proof. intros []. done. Qed.

Lemma log_record p name : within same_log (modify (record_attempt p name)).
Proof. intros []. done. Qed.

Lemma log_unrecord p name : within same_log (modify (unrecord_attempt p name)).
Proof. intros []. done. Qed.

Lemma log_unsupervise id : within same_log (modify (unsupervise id)).
Proof. intros []. done. Qed.

Lemma same_log_foldl {A} (f : World -> A -> World) xs w :
  (forall w x, same_log w (f w x)) -> same_log w (foldl f w xs).
Proof.
  intros Hf. revert w. induction xs as [|x xs IH]; intros w; [done|]. simpl.
  transitivity (f w x); [apply Hf|apply IH].
Qed.

Lemma log_unsupervise_all id : within same_log (modify (unsupervise_all id)).
Proof.
  intros w. unfold modify, unsupervise_all. simpl. destruct (m_get _ _); [|done].
  apply same_log_foldl. by intros [].
Qed.

Hint Resolve log_states log_supervised log_update log_update' log_record log_unrecord log_unsupervise
  log_unsupervise_all : within.

Lemma log_escalate p name : within same_log (escalate p name).
Proof. unfold escalate. within_solve. Qed.

Lemma log_escalated p name : within same_log (escalated p name).
Proof. unfold escalated. within_solve. apply log_escalate. Qed.

Lemma log_adopt p name id : within same_log (modify (adopt p name id)).
Proof. intros []. done. Qed.

Hint Resolve log_escalate log_escalated log_adopt : within.

Lemma log_adopt_spawned p spec st attempt id : within same_log (adopt_spawned p spec st attempt id).
Proof. unfold adopt_spawned. within_solve. Qed.

Lemma log_take_down p T st spec : within same_log (take_down p T st spec).
Proof. unfold take_down. within_solve. Qed.

Lemma log_charge p b T : within same_log (charge p b T).
Proof. unfold charge, charge_one. within_solve. Qed.

Lemma log_unrecord_all p T : within same_log (unrecord_all p T).
Proof. unfold unrecord_all. within_solve. Qed.

Lemma log_roll_back_one p T results x : within same_log (roll_back_one p T results x).
Proof. unfold roll_back_one. within_solve. Qed.

Lemma log_roll_back p T deadline specs confirmed : within same_log (roll_back env p T deadline specs confirmed).
Proof.
  revert confirmed. induction specs as [|spec specs IH]; intros confirmed; simpl; [within_solve|].
  within_solve; try apply within_terminateChildConfirmed; try apply same_log_ambient; auto.
Qed.

Hint Resolve log_adopt_spawned log_take_down log_charge log_unrecord_all log_roll_back_one log_roll_back : within.

Lemma log_rest_failed p T restarted failed : within same_log (rest_failed env p T restarted failed).
Proof. unfold rest_failed. within_solve. Qed.

Lemma log_settle_all fuel p fs results : within same_log (settle_all env fuel p fs results).
Proof.
  revert fs results. induction fuel as [|fuel IH]; intros fs results; simpl; [within_solve|].
  within_solve; auto.
Qed.

Lemma log_collect a specs : within same_log (collect env a specs).
Proof.
  induction specs as [|spec specs IH]; simpl; [within_solve|]. within_solve; auto.
Qed.

(** Adopting children changes the controller's own books only. *)
Record bookkeeping (w w' : World) : Prop := {
  bk_store : w_store w' = w_store w;
  bk_now : w_now w' = w_now w;
  bk_awaits : w_awaits w' = w_awaits w;
  bk_spawned : w_spawned w' = w_spawned w
}.

#[export] Instance bookkeeping_preorder : PreOrder bookkeeping.
Proof. split; [by constructor|]. intros w1 w2 w3 [] []. constructor; congruence. Qed.

Lemma bookkeeping_foldl {A} (f : World -> A -> World) xs w :
  (forall w x, bookkeeping w (f w x)) -> bookkeeping w (foldl f w xs).
Proof.
  intros Hf. revert w. induction xs as [|x xs IH]; intros w; [done|]. simpl.
  transitivity (f w x); [apply Hf|apply IH].
Qed.

Lemma initialize_bookkeeping a config w :
  bookkeeping w (initializeChildMap a config (getOrCreateState a config w)).
Proof.
  assert (forall name id w, bookkeeping w (adopt a name id w)) as Ha by (intros name id []; by constructor).
  transitivity (getOrCreateState a config w).
  { unfold getOrCreateState. destruct (m_get _ _); [done|]. by destruct w. }
  generalize (getOrCreateState a config w). clear w. intros w.
  unfold initializeChildMap. destruct (s_has _ _); [done|].
  set (w0 := set_initialized _ _). assert (bookkeeping w w0) as H0 by (subst w0; by destruct w).
  assert (forall xs acc, bookkeeping acc.1 (foldl (adopt_by_name a config) acc xs).1) as Hn.
  { intros xs. induction xs as [|x xs IH]; intros acc; [done|]. simpl.
    transitivity (adopt_by_name a config acc x).1; [|apply IH].
    unfold adopt_by_name. destruct acc as [w1 un]. simpl. destruct (Reg.lookup _ _); [|done].
    destruct (m_get _ _) as [[]|]; try done. destruct (_ && _); [|done]. apply Ha. }
  specialize (Hn (Tree.childrenOf (w_tree w0) a) (w0, [])).
  destruct (foldl (adopt_by_name a config) _ _) as [w2 un]. simpl in Hn.
  transitivity w0; [done|]. transitivity w2; [done|]. apply bookkeeping_foldl.
  intros w3 x. unfold adopt_by_position. destruct (List.find _ _); [|done]. apply Ha.
Qed.

(** *** Parts that spawn *)

Lemma log_spawnAndTransition p spec st attempt w :
  w_spawned (spawnAndTransition env p spec st attempt w).2 = w_spawned w ++ [(p, spec)].
Proof.
  unfold spawnAndTransition, bind at 1, modify. set (w1 := log_spawn p spec w).
  assert (w_spawned w1 = w_spawned w ++ [(p, spec)]) as <- by (subst w1; by destruct w).
  change (same_log w1
    (bind (await env (aw_spawn p spec)) (fun turn => match tn_spawn turn with
       | inr err => throw err
       | inl newChildId => adopt_spawned p spec st attempt newChildId end) w1).2).
  generalize w1. change (within same_log (bind (await env (aw_spawn p spec)) (fun turn => match tn_spawn turn with
       | inr err => throw err
       | inl newChildId => adopt_spawned p spec st attempt newChildId end))).
  within_solve.
Qed.

Lemma log_take_off p T specs : forall i w, exists fs,
  (take_off p T i specs w).1 = inl fs /\ fl_spec <$> fs = specs /\ fl_index <$> fs = seq i (length specs) /\
  w_spawned (take_off p T i specs w).2 = w_spawned w ++ (pair p <$> specs).
Proof.
  induction specs as [|spec specs IH]; intros i w; simpl.
  { exists []. rewrite app_nil_r. done. }
  unfold bind, gets, modify. destruct (IH (S i) (log_spawn p spec w)) as (fs & H1 & H2 & H3 & H4).
  destruct (take_off p T (S i) specs (log_spawn p spec w)) as [r w'] eqn:E. simpl in *. rewrite H1.
  eexists. split; [done|]. simpl. rewrite H4.
  split_and!; [by f_equal|by f_equal|]. destruct w. simpl. by rewrite <-app_assoc.
Qed.

Lemma spawn_in_order_cons p T spec specs restarted w :
  spawn_in_order env p T (spec :: specs) restarted w =
  match spawnAndTransition env p spec rest_for_one (attemptOf p T (cs_name spec) w) w with
  | (inl _, w1) => spawn_in_order env p T specs (restarted ++ [spec]) w1
  | (inr _, w1) => (inl (restarted, Some spec), w1)
  end.
Proof. simpl. unfold bind, gets, try_. by destruct (spawnAndTransition _ _ _ _ _ _) as [[]]. Qed.

Lemma log_spawn_in_order p T specs : forall restarted w,
  exists k r, spawn_in_order env p T specs restarted w = (inl r, (spawn_in_order env p T specs restarted w).2) /\
  w_spawned (spawn_in_order env p T specs restarted w).2 = w_spawned w ++ (pair p <$> take k specs) /\
  match r.2 with
  | None => r.1 = restarted ++ specs /\ k = length specs
  | Some failed => exists j, k = S j /\ specs !! j = Some failed /\ r.1 = restarted ++ take j specs
  end.
Proof.
  induction specs as [|spec specs IH]; intros restarted w; simpl.
  { exists 0%nat, (restarted, None). by rewrite !app_nil_r. }
  pose proof (spawn_in_order_cons p T spec specs restarted w) as E. simpl in E. rewrite E. clear E.
  pose proof (log_spawnAndTransition p spec rest_for_one (attemptOf p T (cs_name spec) w) w) as Hl.
  destruct (spawnAndTransition env p spec rest_for_one (attemptOf p T (cs_name spec) w) w) as [[id|e] w1]; simpl in Hl |- *.
  - destruct (IH (restarted ++ [spec]) w1) as (k & r & Hr & Hk & Hres).
    exists (S k), r. split; [exact Hr|]. split; [by rewrite Hk, Hl, <-app_assoc|].
    destruct (r.2) as [failed|].
    + destruct Hres as (j & -> & Hj & ->). exists (S j). by rewrite <-app_assoc.
    + destruct Hres as [-> ->]. by rewrite <-app_assoc.
  - exists 1%nat, (restarted, Some spec). split; [done|]. split; [exact Hl|].
    simpl. exists 0%nat. by rewrite app_nil_r.
Qed.

End Log.

#[export] Hint Resolve log_states log_supervised log_update log_update' log_record log_unrecord log_unsupervise
  log_unsupervise_all log_escalate log_escalated log_adopt log_adopt_spawned log_take_down log_charge
  log_unrecord_all log_roll_back_one log_roll_back log_rest_failed log_settle_all log_collect : within.

(** ** Computations that do not throw *)

Definition returns {A} (P : A -> World -> Prop) (m : M A) : Prop :=
  forall w, match m w with (inl a, w') => P a w' | (inr _, _) => False end.

Abbreviation nothrow := (returns (fun _ _ => True)).

Lemma returns_ret {A} (P : A -> World -> Prop) a : (forall w, P a w) -> returns P (ret a).
Proof. intros HP w. apply HP. Qed.

Lemma returns_bind {A B} (P : B -> World -> Prop) (m : M A) (k : A -> M B) :
  nothrow m -> (forall a, returns P (k a)) -> returns P (bind m k).
Proof.
  intros Hm Hk w. unfold bind. specialize (Hm w). destruct (m w) as [[a|e] w']; [|done]. apply Hk.
Qed.

Lemma nothrow_gets {A} (f : World -> A) : nothrow (gets f).
Proof. by intros w. Qed.

Lemma nothrow_modify f : nothrow (modify f).
Proof. by intros w. Qed.

Lemma nothrow_try {A} (m : M A) : nothrow (try_ m).
Proof. intros w. unfold try_. by destruct (m w). Qed.

Lemma nothrow_transition id to gen reason : nothrow (transition id to gen reason).
Proof. intros w. unfold transition. by destruct (Reg.transition _ _ _ _ _ _) as [[]]. Qed.

Lemma nothrow_for_each {A B} (xs : list A) (body : A -> M (option B)) :
  (forall x, nothrow (body x)) -> nothrow (for_each xs body).
Proof.
  intros Hb. induction xs as [|x xs IH]; simpl; [by apply returns_ret|].
  apply returns_bind; [apply Hb|]. intros [r|]; [by apply returns_ret|apply IH].
Qed.

Lemma nothrow_for_all {A} (xs : list A) (body : A -> M unit) :
  (forall x, nothrow (body x)) -> nothrow (for_all xs body).
Proof.
  intros Hb. induction xs as [|x xs IH]; simpl; [by apply returns_ret|].
  apply returns_bind; [apply Hb|]. intros _. apply IH.
Qed.

Ltac returns_step :=
  match goal with
  | |- returns _ (bind _ _) => apply returns_bind; [|intros ?]
  | |- returns _ (ret _) => apply returns_ret; intros ?; try done
  | |- returns _ (match ?x with _ => _ end) => destruct x
  | |- returns _ (if ?b then _ else _) => destruct b
  | |- returns _ (gets _) => apply nothrow_gets
  | |- returns _ (modify _) => apply nothrow_modify
  | |- returns _ (try_ _) => apply nothrow_try
  | |- returns _ (for_each _ _) => apply nothrow_for_each; intros ?
  | |- returns _ (for_all _ _) => apply nothrow_for_all; intros ?
  | |- returns _ (transition _ _ _ _) => apply nothrow_transition
  end.

Create HintDb returns discriminated.
Ltac returns_solve := repeat (returns_step || (progress (eauto with returns))).

Section NoThrow.

Context (env : nat -> Await -> Turn).

Lemma nothrow_await a : nothrow (await env a).
Proof. by intros w. Qed.

Lemma nothrow_await_lookup id : nothrow (await_lookup env id).
Proof. unfold await_lookup. returns_solve. apply nothrow_await. Qed.

Lemma nothrow_terminateChild id reason : nothrow (terminateChild id reason).
Proof. unfold terminateChild. returns_solve. Qed.

Lemma nothrow_confirm_loop n id reason deadline : nothrow (confirm_loop env n id reason deadline).
Proof.
  revert id reason deadline. induction n as [|n IH]; intros id reason deadline; simpl; [returns_solve|].
  returns_solve; auto using nothrow_await_lookup, nothrow_await.
Qed.

Lemma nothrow_adopt_spawned p spec st attempt id : nothrow (adopt_spawned p spec st attempt id).
Proof. unfold adopt_spawned. returns_solve. Qed.

Lemma nothrow_take_down p T st spec : nothrow (take_down p T st spec).
Proof. unfold take_down. returns_solve. apply nothrow_terminateChild. Qed.

Lemma nothrow_unrecord_all p T : nothrow (unrecord_all p T).
Proof. unfold unrecord_all. returns_solve. Qed.

Lemma nothrow_roll_back_one p T results x : nothrow (roll_back_one p T results x).
Proof. unfold roll_back_one. returns_solve. apply nothrow_terminateChild. Qed.

Lemma nothrow_roll_back p T deadline specs confirmed : nothrow (roll_back env p T deadline specs confirmed).
Proof.
  revert confirmed. induction specs as [|spec specs IH]; intros confirmed; simpl; [returns_solve|].
  returns_solve. apply nothrow_confirm_loop.
Qed.

Lemma nothrow_settle_all fuel p fs results : nothrow (settle_all env fuel p fs results).
Proof.
  revert fs results. induction fuel as [|fuel IH]; intros fs results; simpl; [returns_solve|].
  returns_solve; auto using nothrow_await, nothrow_adopt_spawned.
Qed.

Lemma nothrow_take_off p T i specs : nothrow (take_off p T i specs).
Proof. revert i. induction specs as [|spec specs IH]; intros i; simpl; returns_solve. Qed.

Lemma nothrow_collect a specs : nothrow (collect env a specs).
Proof.
  induction specs as [|spec specs IH]; simpl; [returns_solve|]. returns_solve. apply nothrow_await_lookup.
Qed.

(** What passes that end in an escalation have in common. *)
Definition is_terminal (r : ReconcileResult) : Prop := exists reason, r = R_terminal reason.

Lemma escalate_terminal p name : returns (fun r _ => is_terminal r) (escalate p name).
Proof. unfold escalate. returns_solve. by eexists. Qed.

Definition only_terminal (r : option ReconcileResult) : Prop := r = None \/ exists x, r = Some x /\ is_terminal x.

Lemma escalated_terminal p name : returns (fun r _ => exists x, r = Some x /\ is_terminal x) (escalated p name).
Proof.
  intros w. unfold escalated, bind. pose proof (escalate_terminal p name w) as He.
  destruct (escalate p name w) as [[r|] w2]; [|done]. simpl. by eexists.
Qed.

Lemma charge_one_terminal p b spec : returns (fun r _ => only_terminal r) (charge_one p b spec).
Proof.
  assert (returns (fun r _ => only_terminal r) (escalated p (cs_name spec))) as He.
  { intros w. pose proof (escalated_terminal p (cs_name spec) w) as He.
    destruct (escalated p (cs_name spec) w) as [[r|] w2]; [|done]. by right. }
  unfold charge_one. returns_solve. by left.
Qed.

Lemma charge_terminal p b T : returns (fun r _ => only_terminal r) (charge p b T).
Proof.
  unfold charge. induction T as [|spec T IH]; simpl; [apply returns_ret; by left|].
  intros w. unfold bind. pose proof (charge_one_terminal p b spec w) as H1.
  destruct (charge_one p b spec w) as [[r|] w']; [|done].
  destruct H1 as [->|(x & -> & Hx)]; [apply IH|]. simpl. right. by eexists.
Qed.

End NoThrow.

(** ** A supervisor to try things on *)

Fixpoint nth_id (n : nat) : AgentId :=
  match n with O => EmptyString | S n => String (Ascii.ascii_of_nat 120) (nth_id n) end.

Lemma nth_id_length n : String.length (nth_id n) = n.
Proof. induction n as [|n IH]; [done|]. simpl. by rewrite IH. Qed.

Definition sample_agent (id : AgentId) (parent : option AgentId) (phase : ProcessState) : RegistryEntry :=
  mkRegistryEntry id (mkAgentStatus phase 0 [] None 0) worker [] 0 parent None None None 10.

(** Spawns succeed except those of the children in [broken]; the spawn that
    started first settles first. *)
Definition sample_env (broken : list string) (n : nat) (a : Await) : Turn :=
  let now := 10 * Z.of_nat n in
  let born p spec :=
    if decide (cs_name spec ∈ broken) then mkTurn [] now 0 (inr (JStr "spawn failed"))
    else mkTurn [Reg.op_register (sample_agent (nth_id n) (Some p) created)] now 0 (inl (nth_id n)) in
  match a with
  | aw_value => mkTurn [] now 0 (inr JUndefined)
  | aw_spawn p spec => born p spec
  | aw_settle p (spec :: _) => born p spec
  | aw_settle p [] => born p (mkChildSpec EmptyString permanent None None None)
  end.

Definition sample_child (name : string) (r : RestartType) : ChildSpec := mkChildSpec name r None None None.

Definition sample_world : World :=
  let '(store, evs) := Reg.run_ops [] [Reg.op_register (sample_agent "s" None running)] in
  initial store (foldl Tree.on_event Tree.init evs) 0.

(** The agent of a child dies of an error. *)
Definition crash (name : string) (w : World) : World :=
  match child_of "s" name w with
  | Some id =>
      match Reg.lookup id (w_store w) with
      | Some e => (transition id terminated (as_generation (re_status e)) (tr_error JNull) w).2
      | None => w
      end
  | None => w
  end.

Definition phases (specs : list ChildSpec) (w : World) : list (option ProcessState) :=
  (fun spec => id ← child_of "s" (cs_name spec) w;
               (fun e => as_phase (re_status e)) <$> Reg.lookup id (w_store w)) <$> specs.
