(* ===== verification/SupervisionSpec.v ===== *)
(** * What the supervision controller promises

    Exactly the declared children that are missing or dead by their restart
    type set a pass in motion, and what it restarts is what the strategy says;
    an exhausted budget ends in the supervisor's own termination; and in an
    environment that spawns children properly, one pass leaves nothing to do. *)

From S2P Require Import Prelude JsMap Lifecycle Registry AgentTree Runner RestartIntensity.
From S2P Require Import Supervision SupervisionInv.

Local Open Scope string_scope.
Local Open Scope list_scope.
Local Open Scope Z_scope.
Local Open Scope supervision_scope.

(** ** Which children are due *)

Definition due (a : AgentId) (w : World) (spec : ChildSpec) : bool :=
  wants_restart spec ((fun id => Reg.lookup id (w_store w)) <$> child_of a (cs_name spec) w).

(** The three cases of the restart rules, and the normal end that asks for none. *)
Inductive Due (a : AgentId) (w : World) (spec : ChildSpec) : Prop :=
  | due_never_spawned : child_of a (cs_name spec) w = None -> Due a w spec
  | due_deregistered id :
      child_of a (cs_name spec) w = Some id -> Reg.lookup id (w_store w) = None ->
      cs_restart spec <> temporary -> Due a w spec
  | due_terminated id e :
      child_of a (cs_name spec) w = Some id -> Reg.lookup id (w_store w) = Some e ->
      as_phase (re_status e) = terminated ->
      (cs_restart spec = permanent \/
       cs_restart spec = transient /\
         (as_reason (re_status e) = Some tr_stale \/ exists c, as_reason (re_status e) = Some (tr_error c))) ->
      Due a w spec.

Lemma due_exact a w spec : due a w spec = true <-> Due a w spec.
Proof.
  unfold due. split.
  - destruct (child_of a (cs_name spec) w) as [id|] eqn:Ec; simpl; [|by intros; apply due_never_spawned].
    destruct (Reg.lookup id (w_store w)) as [e|] eqn:Ee; simpl; [|rewrite bool_decide_eq_true; eauto using due_deregistered].
    rewrite andb_true_iff, bool_decide_eq_true. intros [Hp Hs]. eapply due_terminated; [done..|].
    unfold shouldRestart in Hs. destruct (cs_restart spec); [by left| |done]. right. split; [done|].
    destruct (as_reason (re_status e)) as [[]|]; try done; [right; by eexists|by left].
  - intros [Hc|id Hc He Hr|id e Hc He Hp Hr]; rewrite Hc; simpl; [done| |]; rewrite He; simpl.
    + by rewrite bool_decide_eq_true.
    + rewrite andb_true_iff, bool_decide_eq_true. split; [done|]. unfold shouldRestart.
      destruct Hr as [->|[-> [->|[c ->]]]]; done.
Qed.

Definition due_specs (a : AgentId) (w : World) (specs : list ChildSpec) : list ChildSpec :=
  filter (fun spec => due a w spec = true) specs.

(** Two worlds that differ in nothing but clock and number of awaits. *)
Record same_but_clock (w w' : World) : Prop := {
  sc_store : w_store w' = w_store w;
  sc_tree : w_tree w' = w_tree w;
  sc_states : w_states w' = w_states w;
  sc_supervised : w_supervised w' = w_supervised w;
  sc_initialized : w_initialized w' = w_initialized w;
  sc_spawned : w_spawned w' = w_spawned w
}.

#[export] Instance same_but_clock_preorder : PreOrder same_but_clock.
Proof.
  split; [by constructor|]. intros w1 w2 w3 [] []. constructor; congruence.
Qed.

Lemma due_same a w w' spec : same_but_clock w w' -> due a w' spec = due a w spec.
Proof. intros []. unfold due, child_of, state_of. by rewrite sc_store0, sc_states0. Qed.

(** Nobody touches the registry while an answer that is there travels. *)
Definition quiet_answers (env : nat -> Await -> Turn) : Prop :=
  forall n, tn_ops (env n aw_value) = [].

Section Due.

Context (env : nat -> Await -> Turn) (Hquiet : quiet_answers env).

Lemma confirmed_await_quiet w : exists t, await env aw_value w = (inl t, (await env aw_value w).2) /\
  same_but_clock w (await env aw_value w).2.
Proof using Hquiet.
  eexists. split; [done|]. unfold await. simpl. unfold pass_turn.
  destruct w. simpl. rewrite Hquiet. by constructor.
Qed.

Lemma await_lookup_quiet id w : exists w', await_lookup env id w = (inl (Reg.lookup id (w_store w)), w') /\
  same_but_clock w w'.
Proof using Hquiet.
  unfold await_lookup, bind, gets, ret. destruct (confirmed_await_quiet w) as (t & -> & Hs). by eexists.
Qed.

Lemma collect_quiet a specs w :
  exists w', collect env a specs w = (inl (due_specs a w specs), w') /\ same_but_clock w w'.
Proof using Hquiet.
  revert w. induction specs as [|spec specs IH]; intros w; simpl; [by exists w|].
  assert (exists w1, bind (gets (child_of a (cs_name spec))) (fun childId =>
            match childId with
            | None => ret None
            | Some id => let! entry := await_lookup env id in ret (Some entry)
            end) w = (inl ((fun id => Reg.lookup id (w_store w)) <$> child_of a (cs_name spec) w), w1) /\
          same_but_clock w w1) as (w1 & E1 & Hs1).
  { unfold bind at 1, gets. destruct (child_of a (cs_name spec) w) as [id|]; simpl; [|by exists w].
    unfold bind. destruct (await_lookup_quiet id w) as (w1 & -> & Hs). by exists w1. }
  destruct (IH w1) as (w2 & E2 & Hs2). exists w2. split; [|by transitivity w1].
  unfold bind, gets in *.
  destruct (child_of a (cs_name spec) w) as [id|] eqn:Ec; simpl in *.
  - injection E1 as E1. rewrite E1, E2. unfold ret, due_specs. rewrite filter_cons.
    change (due a w spec) with (wants_restart spec ((fun id => Reg.lookup id (w_store w)) <$> child_of a (cs_name spec) w)).
    rewrite Ec. simpl. f_equal. f_equal.
    rewrite (list_filter_iff _ (fun s => due a w s = true)) by (intros; by rewrite (due_same a w w1)).
    destruct (Reg.lookup id (w_store w)); repeat case_match; try done.
  - injection E1 as <-. rewrite E2. unfold ret, due_specs. rewrite filter_cons.
    change (due a w spec) with (wants_restart spec ((fun id => Reg.lookup id (w_store w)) <$> child_of a (cs_name spec) w)).
    rewrite Ec. simpl. done.
Qed.

End Due.

(** ** What each strategy spawns *)

Section Strategies.

Context (env : nat -> Await -> Turn).

(** The pass spawned [specs], in this order, for [p]. *)
Definition spawned_as (p : AgentId) (specs : list ChildSpec) (w w' : World) : Prop :=
  w_spawned w' = w_spawned w ++ (pair p <$> specs).

Lemma restart_one_cases p spec w :
  match restart_one env p spec w with
  | (inl (Some r), w') => is_terminal r /\ spawned_as p [] w w'
  | (_, w') => spawned_as p [spec] w w'
  end.
Proof.
  unfold restart_one, bind at 1, gets at 1. destruct (exhausted _ _ _ _).
  - pose proof (escalated_terminal p (cs_name spec) w) as He. pose proof (log_escalated p (cs_name spec) w) as Hl.
    destruct (escalated p (cs_name spec) w) as [[r|] w']; [|done]. destruct He as (x & -> & Hx).
    split; [done|]. unfold spawned_as. by rewrite app_nil_r.
  - set (w1 := record_attempt p (cs_name spec) w).
    set (w2 := match child_of p (cs_name spec) w1 with Some old => unsupervise old w1 | None => w1 end).
    assert (w_spawned w2 = w_spawned w) as Hw.
    { subst w2 w1. destruct (child_of _ _ _); by destruct w. }
    pose proof (log_spawnAndTransition env p spec one_for_one (attempts p (cs_name spec) w1) w2) as Hl.
    rewrite Hw in Hl. unfold bind, modify, gets, try_. fold w1. fold w2.
    destruct (spawnAndTransition env p spec one_for_one (attempts p (cs_name spec) w1) w2) as [[id|e] w3]; [exact Hl|].
    simpl in Hl |- *. unfold spawned_as. etransitivity; [|exact Hl]. by destruct w3.
Qed.

Lemma spawned_as_app p l1 l2 w1 w2 w3 :
  spawned_as p l1 w1 w2 -> spawned_as p l2 w2 w3 -> spawned_as p (l1 ++ l2) w1 w3.
Proof. unfold spawned_as. intros H1 H2. by rewrite H2, H1, fmap_app, app_assoc. Qed.

Lemma for_each_cons {A B} (x : A) xs (body : A -> M (option B)) w :
  for_each (x :: xs) body w =
  match body x w with
  | (inl None, w') => for_each xs body w'
  | (inl (Some r), w') => (inl (Some r), w')
  | (inr e, w') => (inr e, w')
  end.
Proof. simpl. unfold bind. by destruct (body x w) as [[[]|]]. Qed.

Lemma restart_loop p T w :
  exists k, spawned_as p (take k T) w (for_each T (restart_one env p) w).2 /\
  match (for_each T (restart_one env p) w).1 with
  | inl None => k = length T
  | inl (Some r) => is_terminal r /\ (k < length T)%nat
  | inr _ => (0 < k <= length T)%nat
  end.
Proof.
  revert w. induction T as [|spec T IH]; intros w.
  { exists 0%nat. split; [|done]. unfold spawned_as. by rewrite app_nil_r. }
  rewrite for_each_cons. pose proof (restart_one_cases p spec w) as H1.
  destruct (restart_one env p spec w) as [[[r|]|e] w1]; simpl.
  - destruct H1 as [Hr H1]. exists 0%nat. split; [done|]. split; [done|lia].
  - destruct (IH w1) as (k & Hk & Hres). exists (S k).
    split; [by apply (spawned_as_app p [spec] (take k T) w w1)|].
    destruct (for_each T (restart_one env p) w1) as [[[x|]|e] w2]; simpl in *; try lia.
    destruct Hres as [? ?]. split; [done|lia].
  - exists 1%nat. split; [exact H1|lia].
Qed.

(** What the result of a pass says about the children it spawned: all those it
    owed, or the first few of them. *)
Definition spawned_up_to (p : AgentId) (owed : list ChildSpec) (w : World)
    (res : (ReconcileResult + jsval) * World) : Prop :=
  exists k, spawned_as p (take k owed) w res.2 /\
  match res.1 with
  | inl R_converged => (length owed <= k)%nat
  | inl (R_recheck _) => False
  | _ => True
  end.

Lemma spawned_nothing p owed w r w' :
  is_terminal r -> same_log w w' -> spawned_up_to p owed w (inl r, w').
Proof.
  intros [reason ->] Hl. exists 0%nat. split; [|done]. unfold spawned_as. by rewrite app_nil_r.
Qed.

Lemma one_for_one_spawns p T w : spawned_up_to p T w (applyOneForOne env p T w).
Proof.
  unfold applyOneForOne, or_converged, bind. destruct (restart_loop p T w) as (k & Hk & Hres).
  destruct (for_each T (restart_one env p) w) as [[[r|]|e] w1]; simpl in *.
  - destruct Hres as [[reason ->] ?]. by exists k.
  - exists k. split; [done|]. simpl. lia.
  - by exists k.
Qed.

Lemma spawn_all_log p T children w :
  exists results, (spawn_all env p T children w).1 = inl results /\
    spawned_as p children w (spawn_all env p T children w).2.
Proof.
  unfold spawn_all, bind. destruct (log_take_off p T children 0 w) as (fs & H1 & _ & _ & H4).
  destruct (take_off p T 0 children w) as [r w1]. simpl in *. subst r.
  pose proof (nothrow_settle_all env (length fs) p fs [] w1) as Hr.
  pose proof (log_settle_all env (length fs) p fs [] w1) as Hl.
  destruct (settle_all env (length fs) p fs [] w1) as [[results|e] w2]; [|done]. simpl in Hl.
  exists results. split; [done|]. unfold spawned_as. simpl. by rewrite Hl.
Qed.

(** Running a part that neither throws nor spawns. *)
Lemma quiet_part {A} (m : M A) w : nothrow m -> within same_log m ->
  exists a w', m w = (inl a, w') /\ same_log w w'.
Proof.
  intros Hn Hl. specialize (Hn w). specialize (Hl w). destruct (m w) as [[a|] w']; [|done]. by eexists _, _.
Qed.

Lemma one_for_all_spawns p config T w : spawned_up_to p (sc_children config) w (applyOneForAll env p config T w).
Proof.
  unfold applyOneForAll. set (cs := sc_children config). unfold bind at 1.
  pose proof (charge_terminal p false T w) as Hc. pose proof (log_charge p false T w) as Hl.
  destruct (charge p false T w) as [[[r|]|] w1]; [|clear Hc|done]; simpl in Hl.
  { destruct Hc as [|(x & [= <-] & Hx)]; [done|]. by apply spawned_nothing. }
  destruct (quiet_part (for_all cs (take_down p T one_for_all)) w1) as (u & w2 & E2 & Hl2).
  { apply nothrow_for_all. intros. apply nothrow_take_down. }
  { within_solve. }
  unfold bind at 1. rewrite E2. destruct (spawn_all_log p T cs w2) as (results & E3 & Hl3).
  unfold bind at 1. destruct (spawn_all env p T cs w2) as [r3 w3]. simpl in E3, Hl3. subst r3.
  assert (spawned_as p (take (length cs) cs) w w3) as Hs.
  { rewrite firstn_all. unfold spawned_as, same_log in *. congruence. }
  exists (length cs). destruct (first_failure (length cs) results) as [reason|]; [|split; [exact Hs|simpl; lia]].
  destruct (quiet_part (for_all (imap pair cs) (roll_back_one p T results)) w3) as (u4 & w4 & E4 & Hl4).
  { apply nothrow_for_all. intros. apply nothrow_roll_back_one. }
  { within_solve. }
  destruct (quiet_part (unrecord_all p T) w4 (nothrow_unrecord_all p T) (log_unrecord_all p T)) as (u5 & w5 & E5 & Hl5).
  unfold bind. rewrite E4, E5. simpl. split; [|done]. unfold spawned_as, same_log in *. congruence.
Qed.

Lemma rest_failed_result p T restarted failed :
  returns (fun r _ => is_terminal r \/ exists ms, r = R_retry ms) (rest_failed env p T restarted failed).
Proof.
  unfold rest_failed.
  assert (returns (fun r _ => is_terminal r \/ exists ms, r = R_retry ms) (escalate p (cs_name failed))) as He.
  { intros w. pose proof (escalate_terminal p (cs_name failed) w) as He.
    destruct (escalate p (cs_name failed) w) as [[r|] w2]; [|done]. by left. }
  returns_solve; try (right; by eexists); [apply nothrow_roll_back|apply nothrow_unrecord_all].
Qed.

Lemma rest_for_one_spawns p config T w :
  spawned_up_to p (drop (earliest (sc_children config) T) (sc_children config)) w (applyRestForOne env p config T w).
Proof.
  unfold applyRestForOne. cbv zeta. set (affected := drop _ _). unfold bind at 1.
  pose proof (charge_terminal p true T w) as Hc. pose proof (log_charge p true T w) as Hl.
  destruct (charge p true T w) as [[[r|]|] w1]; [|clear Hc|done]; simpl in Hl.
  { destruct Hc as [|(x & [= <-] & Hx)]; [done|]. by apply spawned_nothing. }
  destruct (quiet_part (for_all (rev affected) (take_down p T rest_for_one)) w1) as (u & w2 & E2 & Hl2).
  { apply nothrow_for_all. intros. apply nothrow_take_down. }
  { within_solve. }
  unfold bind at 1. rewrite E2. destruct (log_spawn_in_order env p T affected [] w2) as (k & [rs o] & E3 & Hl3 & Hres).
  unfold bind at 1. rewrite E3. set (w3 := (spawn_in_order env p T affected [] w2).2) in *.
  assert (spawned_as p (take k affected) w w3) as Hs by (unfold spawned_as, same_log in *; congruence).
  exists k. destruct o as [failed|]; simpl in Hres.
  - pose proof (log_rest_failed env p T rs failed w3) as Hl4.
    pose proof (rest_failed_result p T rs failed w3) as Hr4.
    destruct (rest_failed env p T rs failed w3) as [[r|] w4]; [|done]. simpl in *.
    split; [unfold spawned_as, same_log in *; congruence|]. by destruct Hr4 as [[? ->]|[? ->]].
  - destruct Hres as [-> ->].
    destruct (quiet_part (for_all affected (fun spec =>
        modify (update_state p (with_spawnFailures (reset (cs_name spec)))))) w3) as (u4 & w4 & E4 & Hl4).
    { returns_solve. }
    { within_solve. }
    unfold bind. rewrite E4. simpl. split; [unfold spawned_as, same_log in *; congruence|lia].
Qed.

End Strategies.

(** ** The restart set of a pass *)

(** The declared children from the first that satisfies [f]. *)
Fixpoint from_first {A} (f : A -> bool) (l : list A) : list A :=
  match l with
  | [] => []
  | x :: l' => if f x then l else from_first f l'
  end.

Lemma index_fold (l : list ChildSpec) : forall i m name,
  name ∉ cs_name <$> l ->
  m_get name (foldl (fun m p => m_set (cs_name p.2) p.1 m) m (imap (fun j x => ((i + j)%nat, x)) l)) = m_get name m.
Proof.
  induction l as [|x l IH]; intros i m name Hn; [done|]. rewrite fmap_cons in Hn.
  apply not_elem_of_cons in Hn as [Hx Hn]. simpl.
  rewrite (imap_ext _ (fun j y => ((S i + j)%nat, y))) by (intros; simpl; f_equal; lia).
  rewrite IH by done. by rewrite m_get_set_ne.
Qed.

Lemma indexByName_fold (l : list ChildSpec) : forall i m k spec,
  NoDup (cs_name <$> l) -> l !! k = Some spec ->
  m_get (cs_name spec)
    (foldl (fun m p => m_set (cs_name p.2) p.1 m) m (imap (fun j x => ((i + j)%nat, x)) l)) = Some (i + k)%nat.
Proof.
  induction l as [|x l IH]; intros i m k spec Hnd Hk; [done|].
  rewrite fmap_cons in Hnd. apply NoDup_cons in Hnd as [Hx Hnd]. simpl.
  rewrite (imap_ext _ (fun j y => ((S i + j)%nat, y))) by (intros; simpl; f_equal; lia).
  destruct k as [|k]; simpl in Hk.
  - simplify_eq. rewrite index_fold by done. by rewrite m_get_set_eq.
  - rewrite (IH (S i) _ k spec) by done. f_equal. lia.
Qed.

Lemma indexByName_exact children k spec :
  NoDup (cs_name <$> children) -> children !! k = Some spec -> indexByName children (cs_name spec) = Some k.
Proof. intros Hnd Hk. exact (indexByName_fold children 0 [] k spec Hnd Hk). Qed.

(** Folding with minima over the indices of an increasing selection gives the first. *)
Lemma earliest_fold children (l : list ChildSpec) : forall i e f,
  NoDup (cs_name <$> children) -> drop i children = l -> (i + length l <= e)%nat ->
  let step := fun e spec => match indexByName children (cs_name spec) with
                            | Some idx => if (idx <? e)%nat then idx else e
                            | None => e
                            end in
  (forall e', (e' <= i)%nat -> foldl step e' (filter (fun x => f x = true) l) = e') /\
  (filter (fun x => f x = true) l = [] \/
   drop (foldl step e (filter (fun x => f x = true) l)) children = from_first f l).
Proof.
  induction l as [|x l IH]; intros i e f Hnd Hl He; cbv zeta; [split; [done|by left]|].
  assert (children !! i = Some x) as Hx.
  { rewrite <-(Nat.add_0_r i), <-lookup_drop, Hl. done. }
  assert (drop (S i) children = l) as Hl'.
  { erewrite <-Nat.add_1_r, <-drop_drop, Hl. done. }
  destruct (IH (S i) e f Hnd Hl') as [Hlow Hmin]; [simpl in He; lia|].
  rewrite filter_cons. simpl. destruct (f x) eqn:Ef; simpl.
  - rewrite (indexByName_exact children i x) by done. split.
    + intros e' He'. rewrite (proj2 (Nat.ltb_ge i e')) by lia. apply Hlow. lia.
    + right. rewrite (proj2 (Nat.ltb_lt i e)) by (simpl in He; lia). rewrite Hlow by lia. exact Hl.
  - split; [intros; apply Hlow; lia|exact Hmin].
Qed.

Lemma earliest_exact children f :
  NoDup (cs_name <$> children) -> filter (fun x => f x = true) children <> [] ->
  drop (earliest children (filter (fun x => f x = true) children)) children = from_first f children.
Proof.
  intros Hnd Hne. unfold earliest.
  destruct (earliest_fold children children 0 (length children) f Hnd eq_refl) as [_ [?|?]]; [lia|done|done].
Qed.

(** What a pass owes the children [due] in [w]. *)
Definition owed (strategy : SupervisionStrategy) (due : ChildSpec -> bool) (children : list ChildSpec)
    : list ChildSpec :=
  match strategy with
  | one_for_one => filter (fun s => due s = true) children
  | one_for_all => if existsb due children then children else []
  | rest_for_one => from_first due children
  end.

(** The state of the supervisor at the start of its pass. *)
Definition adopted (a : AgentId) (config : SupervisionConfig) (w : World) : World :=
  initializeChildMap a config (getOrCreateState a config w).

(** Adoption does not look at the clock. *)
Lemma update_clock a f w w' : same_but_clock w w' -> same_but_clock (update_state a f w) (update_state a f w').
Proof. intros []. destruct w, w'. simpl in *. subst. by constructor. Qed.

Lemma adopt_clock a name id w w' : same_but_clock w w' -> same_but_clock (adopt a name id w) (adopt a name id w').
Proof. intros []. destruct w, w'. simpl in *. subst. by constructor. Qed.

Lemma state_of_clock a w w' : same_but_clock w w' -> state_of a w' = state_of a w.
Proof. intros []. unfold state_of. by rewrite sc_states0. Qed.

Lemma adopt_by_name_clock a config w w' un id :
  same_but_clock w w' ->
  same_but_clock (adopt_by_name a config (w, un) id).1 (adopt_by_name a config (w', un) id).1 /\
  (adopt_by_name a config (w, un) id).2 = (adopt_by_name a config (w', un) id).2.
Proof.
  intros Hs. unfold adopt_by_name. rewrite (sc_store _ _ Hs), (state_of_clock a _ _ Hs).
  destruct (Reg.lookup _ _); [|done]. destruct (m_get _ _) as [[]|]; try done.
  destruct (_ && _); [|done]. split; [by apply adopt_clock|done].
Qed.

Lemma adopt_by_position_clock a config w w' id :
  same_but_clock w w' -> same_but_clock (adopt_by_position a config w id) (adopt_by_position a config w' id).
Proof.
  intros Hs. unfold adopt_by_position. rewrite (state_of_clock a _ _ Hs).
  destruct (List.find _ _); [by apply adopt_clock|done].
Qed.

Lemma initialize_clock a config w w' :
  same_but_clock w w' -> same_but_clock (initializeChildMap a config w) (initializeChildMap a config w').
Proof.
  intros Hs. unfold initializeChildMap. rewrite (sc_initialized _ _ Hs). destruct (s_has _ _); [done|].
  assert (same_but_clock (set_initialized (s_add a) w) (set_initialized (s_add a) w')) as H0.
  { destruct Hs, w, w'. simpl in *. subst. by constructor. }
  rewrite (sc_tree _ _ H0). revert H0.
  generalize (set_initialized (s_add a) w), (set_initialized (s_add a) w'). clear w w' Hs. intros w w' Hs.
  generalize (Tree.childrenOf (w_tree w) a). intros ids.
  assert (forall un, same_but_clock (foldl (adopt_by_name a config) (w, un) ids).1 (foldl (adopt_by_name a config) (w', un) ids).1 /\
    (foldl (adopt_by_name a config) (w, un) ids).2 = (foldl (adopt_by_name a config) (w', un) ids).2) as Hf.
  { revert w w' Hs. induction ids as [|id ids IH]; intros w w' Hs un; [done|]. cbn [foldl].
    destruct (adopt_by_name_clock a config w w' un id Hs) as [H1 H2].
    destruct (adopt_by_name a config (w, un) id) as [w1 un1], (adopt_by_name a config (w', un) id) as [w1' un1'].
    simpl in *. subst. by apply IH. }
  specialize (Hf []). destruct (foldl _ (w, []) ids) as [w1 un], (foldl _ (w', []) ids) as [w1' un'].
  simpl in Hf. destruct Hf as [Hs1 <-]. revert w1 w1' Hs1. induction un as [|id un IH]; intros w1 w1' Hs1; [done|].
  simpl. apply IH. by apply adopt_by_position_clock.
Qed.

Lemma adopted_clock a config w w' : same_but_clock w w' -> same_but_clock (adopted a config w) (adopted a config w').
Proof.
  intros Hs. apply initialize_clock. unfold getOrCreateState. rewrite (sc_states _ _ Hs).
  destruct (m_get _ _); [done|]. destruct Hs, w, w'. simpl in *. subst. by constructor.
Qed.

Lemma due_specs_same a w w' cs : same_but_clock w w' -> due_specs a w' cs = due_specs a w cs.
Proof. intros Hs. apply list_filter_iff. intros spec. by rewrite (due_same a w w'). Qed.

Lemma from_first_none {A} (f : A -> bool) l : filter (fun x => f x = true) l = [] -> from_first f l = [].
Proof.
  induction l as [|x l IH]; [done|]. rewrite filter_cons. simpl. destruct (f x); [done|]. exact IH.
Qed.

Lemma existsb_none {A} (f : A -> bool) l : filter (fun x => f x = true) l = [] <-> existsb f l = false.
Proof.
  induction l as [|x l IH]; [done|]. rewrite filter_cons. simpl. destruct (f x); [done|]. exact IH.
Qed.


Section Pass.

Context (env : nat -> Await -> Turn) (Hquiet : quiet_answers env).

Lemma due_empty a w cs strategy : due_specs a w cs = [] -> owed strategy (due a w) cs = [].
Proof.
  intros Hd. destruct strategy; simpl; [exact Hd| |by apply from_first_none].
  by rewrite (proj1 (existsb_none _ _) Hd).
Qed.

Lemma due_nonempty a w cs : due_specs a w cs <> [] -> existsb (due a w) cs = true.
Proof.
  intros Hne. destruct (existsb _ _) eqn:E; [done|]. exfalso. apply Hne. by apply existsb_none.
Qed.

(** The pass of a living supervisor, taken apart. *)
Lemma reconcile_live a config w e :
  Reg.lookup a (w_store w) = Some e -> as_phase (re_status e) <> terminated ->
  sc_children config <> [] ->
  exists w1, same_but_clock (adopted a config w) w1 /\ (w_awaits w <= w_awaits w1)%nat /\
  let T := due_specs a (adopted a config w) (sc_children config) in
  reconcile env a (Some config) w =
    if decide (T = []) then (inl R_converged, w1)
    else match sc_strategy config with
         | one_for_one => applyOneForOne env a T w1
         | one_for_all => applyOneForAll env a config T w1
         | rest_for_one => applyRestForOne env a config T w1
         end.
Proof using Hquiet.
  intros He Hp Hc. unfold reconcile. rewrite decide_False by done. unfold bind at 1.
  destruct (await_lookup_quiet env Hquiet a w) as (w0 & E0 & Hs0). rewrite E0, He, decide_False by done.
  unfold bind, modify. destruct (collect_quiet env Hquiet a (sc_children config) (adopted a config w0)) as (w1 & E1 & Hs1).
  fold (adopted a config w0). rewrite E1.
  pose proof (adopted_clock a config w w0 Hs0) as Hs. exists w1. split; [by transitivity (adopted a config w0)|].
  split.
  { pose proof (later_await_lookup env a w) as H1. pose proof (later_collect env a (sc_children config) (adopted a config w0)) as H2.
    destruct (initialize_bookkeeping a config w0) as [_ _ H3 _]. unfold later in *.
    rewrite E0 in H1. rewrite E1 in H2. simpl in *. unfold adopted in *. rewrite H3 in H2.
    lia. }
  rewrite (due_specs_same a _ _ _ Hs). case_decide; [done|]. by destruct (sc_strategy config).
Qed.

End Pass.

(** C23: a pass over a living supervisor restarts exactly the children its strategy owes: those that
    are due (never spawned, deregistered unless temporary, or terminated with a restart type that
    asks for a restart) one by one; every declared child if one is due; or the suffix of the
    declarations that begins with the first due child.  They are spawned in order of declaration;
    a pass that ends converged has spawned all of them, an escalation, retry or error a prefix. *)
Theorem restart_set_exact env a config w e :
  quiet_answers env -> NoDup (cs_name <$> sc_children config) ->
  Reg.lookup a (w_store w) = Some e -> as_phase (re_status e) <> terminated ->
  (forall spec, due a (adopted a config w) spec = true <-> Due a (adopted a config w) spec) /\
  spawned_up_to a (owed (sc_strategy config) (due a (adopted a config w)) (sc_children config)) w
    (reconcile env a (Some config) w).
Proof.
  intros Hquiet Hnd He Hp. split; [apply due_exact|]. destruct (decide (sc_children config = [])) as [Hc|Hc].
  { unfold reconcile. rewrite decide_True by done. exists 0%nat.
    rewrite Hc. destruct (sc_strategy config); simpl; split; unfold spawned_as; by rewrite ?app_nil_r. }
  destruct (reconcile_live env Hquiet a config w e He Hp Hc) as (w1 & Hs1 & _ & Hr).
  cbv zeta in Hr. rewrite Hr. clear Hr.
  assert (w_spawned w1 = w_spawned w) as Hlog.
  { rewrite (sc_spawned _ _ Hs1). by destruct (initialize_bookkeeping a config w). }
  assert (forall L res, spawned_up_to a L w1 res -> spawned_up_to a L w res) as Hshift.
  { intros L res (k & Hk & Hres). exists k. split; [|done]. unfold spawned_as in *. by rewrite Hk, Hlog. }
  case_decide as HT.
  { rewrite (due_empty a _ _ (sc_strategy config) HT). exists 0%nat. split; [|simpl; lia].
    unfold spawned_as. simpl. by rewrite app_nil_r. }
  destruct (sc_strategy config); simpl; apply Hshift.
  - apply one_for_one_spawns.
  - rewrite due_nonempty by done. apply one_for_all_spawns.
  - rewrite <-earliest_exact by done. apply rest_for_one_spawns.
Qed.

(** ** Escalation *)

Definition posts {A} (Q : A -> World -> Prop) (m : M A) : Prop :=
  forall w, match m w with (inl a, w') => Q a w' | (inr _, _) => True end.

Lemma posts_bind {A B} (Q : B -> World -> Prop) (m : M A) (k : A -> M B) :
  (forall a, posts Q (k a)) -> posts Q (bind m k).
Proof. intros Hk w. unfold bind. destruct (m w) as [[a|e] w']; [apply Hk|done]. Qed.

Lemma posts_ret {A} (Q : A -> World -> Prop) a : (forall w, Q a w) -> posts Q (ret a).
Proof. intros HQ w. apply HQ. Qed.

(** The supervisor is down, its children are nobody's, and a budget is used up. *)
Record given_up (a : AgentId) (reason : string) (w : World) : Prop := {
  gu_cause : exists name, reason = "Escalated: restart budget exhausted for " +:+ quoted name /\
    (exhausted ss_tracker a name w = true \/ exhausted ss_spawnFailureTracker a name w = true);
  gu_dead : forall e, Reg.lookup a (w_store w) = Some e -> as_phase (re_status e) = terminated;
  gu_free : forall name id, child_of a name w = Some id -> isSupervised id w = false
}.

Definition given_up_if (a : AgentId) (r : ReconcileResult) (w : World) : Prop :=
  match r with R_terminal reason => given_up a reason w | _ => True end.

Lemma unsupervise_all_spec a w :
  let w' := unsupervise_all a w in
  w_states w' = w_states w /\ w_now w' = w_now w /\ w_store w' = w_store w /\
  (forall id, id ∈ w_supervised w' -> id ∈ w_supervised w) /\
  forall s id, m_get a (w_states w) = Some s -> id ∈ m_values (ss_childMap s) -> id ∉ w_supervised w'.
Proof.
  unfold unsupervise_all. destruct (m_get a (w_states w)) as [s|]; [|by split_and!].
  assert (forall ids w, let w' := foldl (fun w id => unsupervise id w) w ids in
    w_states w' = w_states w /\ w_now w' = w_now w /\ w_store w' = w_store w /\
    forall id, id ∈ w_supervised w' <-> id ∈ w_supervised w /\ id ∉ ids) as Hf.
  { clear. intros ids. induction ids as [|i ids IH]; intros w; cbv zeta; simpl.
    { split_and!; try done. intros id. split; [intros; split; [done|set_solver]|tauto]. }
    destruct (IH (unsupervise i w)) as (H1 & H2 & H3 & H4). destruct w. simpl in *.
    split_and!; [done|done|done|]. intros id. rewrite H4, elem_of_s_delete, not_elem_of_cons. tauto. }
  destruct (Hf (m_values (ss_childMap s)) w) as (H1 & H2 & H3 & H4).
  split_and!; [done|done|done|intros id Hid; by apply H4|].
  intros s' id [= <-] Hid Hin. apply H4 in Hin. tauto.
Qed.

Lemma escalate_gives_up a name w :
  exhausted ss_tracker a name w = true \/ exhausted ss_spawnFailureTracker a name w = true ->
  match escalate a name w with (inl r, w') => given_up_if a r w' | (inr _, _) => False end.
Proof.
  intros Hex. unfold escalate, bind at 1, modify. destruct (unsupervise_all_spec a w) as (H1 & H2 & H3 & _ & H5).
  cbv zeta in *. set (w0 := unsupervise_all a w) in *. unfold bind at 1, gets. rewrite H3.
  assert (forall w', w_states w' = w_states w -> w_now w' = w_now w -> w_supervised w' = w_supervised w0 ->
            (forall e, Reg.lookup a (w_store w') = Some e -> as_phase (re_status e) = terminated) ->
            given_up a ("Escalated: restart budget exhausted for " +:+ quoted name) w') as Hok.
  { intros w' E1 E2 E3 Hdead. constructor; [|exact Hdead|].
    - exists name. split; [done|]. unfold exhausted, state_of in *. by rewrite E1, E2.
    - unfold child_of, state_of. rewrite E1. intros n id Hid. apply s_has_false. rewrite E3.
      destruct (m_get a (w_states w)) as [s|]; [|done]. apply (H5 s id eq_refl).
      apply m_get_elem in Hid. unfold m_values. apply list_elem_of_fmap. by exists (n, id). }
  unfold Reg.lookup in *. destruct (m_get a (w_store w)) as [e|] eqn:He.
  2: { apply Hok; try done. intros e He'. rewrite H3 in He'. congruence. }
  destruct (decide (as_phase (re_status e) = terminated)) as [Hp|Hp].
  { apply Hok; try done. intros e' He'. rewrite H3 in He'. congruence. }
  unfold bind, ret, transition.
  destruct (Reg.transition_spec (w_now w0) a terminated (as_generation (re_status e))
    (tr_escalated ("Restart budget exhausted for child " +:+ quoted name)) (w_store w0))
    as [(cur & Hcur & _ & _ & Htr)|(er & _ & [[Hn _]|(cur & Hcur & [[Hg _]|(_ & _ & Hv)])])].
  - rewrite Htr. rewrite H3 in Hcur. cbn beta iota.
    destruct w0 as [st tr now n ss sup ini sp]. simpl in *. rewrite Htr. apply Hok; simpl; try done.
    intros e' He'. unfold Reg.lookup in He'. rewrite m_get_set_eq in He'. by injection He' as <-.
  - rewrite H3 in Hn. congruence.
  - rewrite H3 in Hcur. congruence.
  - exfalso. apply Hv. rewrite H3 in Hcur. assert (cur = e) as -> by congruence.
    destruct (as_phase (re_status e)); simpl; set_solver.
Qed.

(** A guarded escalation, as it stands in each of the strategies. *)
Lemma guarded_escalation (which : SupervisorState -> Tracker) a name (k : M (option ReconcileResult)) :
  (which = ss_tracker \/ which = ss_spawnFailureTracker) ->
  posts (fun r w => forall x, r = Some x -> given_up_if a x w) k ->
  posts (fun r w => forall x, r = Some x -> given_up_if a x w)
    (let! full := gets (exhausted which a name) in if full then escalated a name else k).
Proof.
  intros Hwhich Hk w. unfold bind, gets. destruct (exhausted which a name w) eqn:E; [|apply Hk].
  pose proof (escalate_gives_up a name w) as He. unfold escalated, bind, ret.
  destruct (escalate a name w) as [[r|] w']; [|done]. intros x [= <-]. apply He.
  destruct Hwhich as [->| ->]; auto.
Qed.

Section GiveUp.

Context (env : nat -> Await -> Turn).

Abbreviation stops a := (fun (r : option ReconcileResult) w => forall x, r = Some x -> given_up_if a x w).

Lemma posts_for_each {A} a (xs : list A) body :
  (forall x, posts (stops a) (body x)) -> posts (stops a) (for_each xs body).
Proof.
  intros Hb. induction xs as [|x xs IH]; [by apply posts_ret|].
  intros w. rewrite for_each_cons. specialize (Hb x w). destruct (body x w) as [[[r|]|e] w']; [done|apply IH|done].
Qed.

Lemma restart_one_stops a spec : posts (stops a) (restart_one env a spec).
Proof.
  apply guarded_escalation; [by left|]. repeat (apply posts_bind; intros ?).
  match goal with |- posts _ (match ?r with _ => _ end) => destruct r end; [by apply posts_ret|].
  apply posts_bind. intros _. by intros w.
Qed.

Lemma charge_stops a b T : posts (stops a) (charge a b T).
Proof.
  apply posts_for_each. intros spec. apply guarded_escalation; [by left|].
  destruct b; simpl; [apply guarded_escalation; [by right|]|]; repeat (apply posts_bind; intros ?); by apply posts_ret.
Qed.

(** A strategy that goes on when nothing stops it. *)
Lemma posts_unless_stopped a (m : M (option ReconcileResult)) k :
  posts (stops a) m -> posts (given_up_if a) k ->
  posts (given_up_if a) (let! stop := m in match stop with Some r => ret r | None => k end).
Proof.
  intros Hm Hk w. unfold bind. specialize (Hm w). destruct (m w) as [[[r|]|e] w']; [by apply Hm|apply Hk|done].
Qed.

Lemma one_for_one_gives_up a T : posts (given_up_if a) (applyOneForOne env a T).
Proof.
  intros w. unfold applyOneForOne, or_converged, bind.
  pose proof (posts_for_each a T _ (restart_one_stops a) w) as Hs.
  destruct (for_each _ _ w) as [[[r|]|e] w']; [by apply Hs|done|done].
Qed.

Lemma one_for_all_gives_up a config T : posts (given_up_if a) (applyOneForAll env a config T).
Proof.
  apply posts_unless_stopped; [apply charge_stops|]. do 2 (apply posts_bind; intros ?).
  destruct (first_failure _ _); [|by apply posts_ret]. do 2 (apply posts_bind; intros ?). by intros w.
Qed.

Lemma rest_failed_gives_up a T rs failed : posts (given_up_if a) (rest_failed env a T rs failed).
Proof.
  unfold rest_failed. do 3 (apply posts_bind; intros ?). destruct (negb _); [by apply posts_ret|].
  intros w. unfold bind at 1, gets at 1. destruct (exhausted ss_spawnFailureTracker a (cs_name failed) w) eqn:E.
  - pose proof (escalate_gives_up a (cs_name failed) w (or_intror E)) as He.
    by destruct (escalate a (cs_name failed) w) as [[r|] w'].
  - revert w E. intros w _. revert w. change (posts (given_up_if a) (
      modify (fun w => update_state a (with_spawnFailures (record (w_now w) (cs_name failed))) w) ;;!
      let! failureAttempt := gets (fun w => attemptsInWindow (w_now w) (cs_name failed)
                                     (ss_spawnFailureTracker (state_of a w))) in
      ret (R_retry (computeRestForOneRetryDelay failureAttempt)))).
    do 2 (apply posts_bind; intros ?). by apply posts_ret.
Qed.

Lemma rest_for_one_gives_up a config T : posts (given_up_if a) (applyRestForOne env a config T).
Proof.
  apply posts_unless_stopped; [apply charge_stops|]. cbv zeta. apply posts_bind. intros _.
  apply posts_bind. intros [rs [failed|]]; [apply rest_failed_gives_up|].
  apply posts_bind. intros _. by apply posts_ret.
Qed.

(** Whenever a pass answers that it is over for good - whatever the strategy, the environment and
    the state it started in - the budget of the child it names is used up, the supervisor is
    terminated or gone from the registry, and none of its children is exempt from the cascade any
    more. *)
Lemma escalation_final a config w reason :
  (reconcile env a config w).1 = inl (R_terminal reason) ->
  given_up a reason (reconcile env a config w).2.
Proof.
  assert (posts (given_up_if a) (reconcile env a config)) as Hp.
  { unfold reconcile. destruct config as [config|]; [|by apply posts_ret].
    destruct (decide _); [by apply posts_ret|]. apply posts_bind. intros [e|]; [|by apply posts_ret].
    destruct (decide _).
    - do 2 (apply posts_bind; intros ?). by apply posts_ret.
    - do 2 (apply posts_bind; intros ?). apply posts_bind. intros T.
      destruct (decide _); [by apply posts_ret|]. destruct (sc_strategy config).
      + apply one_for_one_gives_up.
      + apply one_for_all_gives_up.
      + apply rest_for_one_gives_up. }
  intros Hr. specialize (Hp w). destruct (reconcile env a config w) as [[r|] w']; [|done].
  simpl in *. by injection Hr as ->.
Qed.

End GiveUp.

(** ** Runs *)

Definition sample_config (strategy : SupervisionStrategy) (maxRestarts : Z) (specs : list ChildSpec)
    : SupervisionConfig := mkSupervisionConfig strategy maxRestarts 60000 specs.

Definition sample_specs : list ChildSpec :=
  [sample_child "a" permanent; sample_child "b" transient; sample_child "c" temporary].

(** A pass of the sample supervisor. *)
Definition pass (broken : list string) (config : SupervisionConfig) (w : World)
    : (ReconcileResult + jsval) * World := reconcile (sample_env broken) "s" (Some config) w.

(** The children were started, and then the middle one crashed. *)
Definition sample_crashed (strategy : SupervisionStrategy) : World :=
  crash "b" (pass [] (sample_config strategy 5 sample_specs) sample_world).2.

Lemma quiet_sample broken : quiet_answers (sample_env broken).
Proof. by intros n. Qed.

Lemma restart_set_exact_witness :
  let w := sample_crashed rest_for_one in
  let config := sample_config rest_for_one 5 sample_specs in
  cs_name <$> owed rest_for_one (due "s" (adopted "s" config w)) sample_specs = ["b"; "c"] /\
  (pass [] config w).1 = inl R_converged /\
  spawned_up_to "s" (owed rest_for_one (due "s" (adopted "s" config w)) sample_specs) w (pass [] config w).
Proof.
  assert (exists e, Reg.lookup "s" (w_store (sample_crashed rest_for_one)) = Some e /\
            as_phase (re_status e) <> terminated) as (e & He & Hp) by (eexists; split; [vm_compute; reflexivity|done]).
  assert (NoDup (cs_name <$> sc_children (sample_config rest_for_one 5 sample_specs))) as Hnd.
  { apply (bool_decide_unpack _). vm_compute. exact I. }
  split; [vm_compute; reflexivity|]. split; [vm_compute; reflexivity|].
  exact (proj2 (restart_set_exact (sample_env []) "s" (sample_config rest_for_one 5 sample_specs)
    (sample_crashed rest_for_one) e (quiet_sample []) Hnd He Hp)).
Defined.

Lemma escalation_final_witness :
  let config := sample_config one_for_one 1 [sample_child "a" permanent] in
  let w := crash "a" (pass [] config sample_world).2 in
  let reason := "Escalated: restart budget exhausted for " +:+ quoted "a" in
  (pass [] config w).1 = inl (R_terminal reason) /\ given_up "s" reason (pass [] config w).2.
Proof.
  cbv zeta. split; [vm_compute; reflexivity|]. apply escalation_final. vm_compute. reflexivity.
Defined.

(** A strategy that fails half way takes its new children down with the reason
    [restarted], which a transient child's restart type takes for a normal end:
    after one failed spawn, with everything working again, both children stay
    dead and the supervisor is content. *)
Lemma rolled_back_children_stay_dead strategy :
  strategy <> one_for_one ->
  let specs := [sample_child "a" transient; sample_child "b" transient] in
  let config := sample_config strategy 5 specs in
  let running_ := (pass [] config sample_world).2 in
  let failed := pass ["b"] config (crash "a" running_) in
  let recovered := pass [] config failed.2 in
  phases specs running_ = [Some running; Some running] /\
  failed.1 <> inl R_converged /\
  recovered.1 = inl R_converged /\ w_spawned recovered.2 = w_spawned failed.2 /\
  phases specs recovered.2 = [Some terminated; Some terminated].
Proof. by destruct strategy; [done| |]; intros _; vm_compute; split_and!. Qed.

(** The collective strategies restart a temporary child along with the others. *)
Lemma temporary_child_restarted strategy :
  strategy <> one_for_one ->
  let specs := [sample_child "a" permanent; sample_child "t" temporary] in
  let config := sample_config strategy 5 specs in
  let w := crash "a" (pass [] config sample_world).2 in
  let w' := (pass [] config w).2 in
  child_of "s" "t" w' <> child_of "s" "t" w /\ phases specs w' = [Some running; Some running].
Proof. by destruct strategy; [done| |]; intros _; vm_compute; split. Qed.

(** The first start counts as a restart: with a budget of one the first crash
    escalates, and with the budget of zero that validation accepts no child is
    ever started. *)
Lemma first_start_uses_budget strategy :
  let specs := [sample_child "a" permanent] in
  let one := sample_config strategy 1 specs in
  (exists reason, (pass [] one (crash "a" (pass [] one sample_world).2)).1 = inl (R_terminal reason)) /\
  (exists reason, (pass [] (sample_config strategy 0 specs) sample_world).1 = inl (R_terminal reason)) /\
  w_spawned (pass [] (sample_config strategy 0 specs) sample_world).2 = [].
Proof. destruct strategy; vm_compute; (split; [by eexists|split; [by eexists|done]]). Qed.
