(* ===== verification/SupervisionTrack.v ===== *)
(** * Supervised agents are tracked agents

    Cascading termination spares the agents [isSupervised] names, trusting that
    some supervisor looks after them.  Here: in every run of passes, over any
    number of supervisors, each supervised id is in the child map of one. *)

From S2P Require Import Prelude JsMap Lifecycle Registry AgentTree Runner RestartIntensity.
From S2P Require Import Supervision SupervisionInv.

Local Open Scope string_scope.
Local Open Scope list_scope.
Local Open Scope Z_scope.
Local Open Scope supervision_scope.

(** Every supervised id is found in a child map, under a name that the pass over
    [a] is not about to rebind. *)
Definition tracked (a : AgentId) (pending : list string) (w : World) : Prop :=
  forall id, id ∈ w_supervised w ->
  exists sup s name, m_get sup (w_states w) = Some s /\ m_get name (ss_childMap s) = Some id /\
    ~ (sup = a /\ name ∈ pending).

Definition keeps (I : World -> Prop) (w w' : World) : Prop := I w -> I w'.

#[export] Instance keeps_preorder I : PreOrder (keeps I).
Proof. unfold keeps. split; [intros w Hw; exact Hw|]. intros w1 w2 w3. tauto. Qed.

Lemma tracked_weaken a P Q w : tracked a P w -> (forall x, x ∈ Q -> x ∈ P) -> tracked a Q w.
Proof.
  intros Ht Hs id Hid. destruct (Ht id Hid) as (sup & s & name & H1 & H2 & H3).
  exists sup, s, name. split_and!; [done|done|]. intros [-> Hin]. apply H3. auto.
Qed.

Lemma tracked_other a b w : tracked a [] w -> tracked b [] w.
Proof.
  intros Ht id Hid. destruct (Ht id Hid) as (sup & s & name & H1 & H2 & H3).
  exists sup, s, name. split_and!; [done|done|]. set_solver.
Qed.

Lemma tracked_fields a P w w' :
  w_states w' = w_states w -> w_supervised w' = w_supervised w -> tracked a P w -> tracked a P w'.
Proof. unfold tracked. by intros -> ->. Qed.

Lemma tracked_fewer a P w w' :
  w_states w' = w_states w -> (forall id, id ∈ w_supervised w' -> id ∈ w_supervised w) ->
  tracked a P w -> tracked a P w'.
Proof. unfold tracked. intros -> Hs Ht id Hid. auto. Qed.

#[export] Instance tracked_ambient a P : Ambient (keeps (tracked a P)).
Proof.
  constructor; [typeclasses eauto| |].
  - intros t w. unfold keeps. apply tracked_fields; destruct w; unfold pass_turn; simpl; by destruct (Reg.run_ops _ _).
  - intros f w. unfold keeps. apply tracked_fields; destruct w; simpl; by destruct (f _).
Qed.

(** ** The elementary changes *)

Lemma track_update a P f w :
  (forall s, ss_childMap (f s) = ss_childMap s) -> tracked a P w -> tracked a P (update_state a f w).
Proof.
  intros Hf Ht id Hid. destruct (Ht id) as (sup & s & name & H1 & H2 & H3); [by destruct w|].
  destruct (decide (a = sup)) as [<-|Hne].
  - exists a, (f s), name. split_and!; [|by rewrite Hf|done].
    unfold update_state, state_of. rewrite H1. destruct w. simpl. apply m_get_set_eq.
  - exists sup, s, name. split_and!; [|done|done].
    unfold update_state. destruct w. simpl. by rewrite m_get_set_ne.
Qed.

Lemma track_unsupervise a P id w : tracked a P w -> tracked a P (unsupervise id w).
Proof.
  apply tracked_fewer; destruct w; [done|]. simpl. intros id' [_ ?]%elem_of_s_delete. done.
Qed.

(** Rebinding a name releases it from the pending ones. *)
Lemma track_adopt a P name id w :
  name ∈ P \/ child_of a name w = None -> tracked a P w ->
  tracked a (filter (fun x => x ≠ name) P) (adopt a name id w).
Proof.
  intros Hname Ht id' Hid'. unfold adopt, supervise, update_state, state_of in *.
  destruct w as [st tr now n ss sup ini sp]. simpl in *.
  destruct (decide (id' = id)) as [->|Hne].
  - eexists a, _, name. rewrite m_get_set_eq. split_and!; [done|simpl; apply m_get_set_eq|].
    intros [_ [? ?]%list_elem_of_filter]. done.
  - apply elem_of_s_add in Hid' as [?|Hid']; [done|].
    destruct (Ht id' Hid') as (sup' & s & name' & H1 & H2 & H3). simpl in H1.
    destruct (decide (a = sup')) as [<-|Hs].
    + eexists a, _, name'. rewrite m_get_set_eq. split_and!; [done| |].
      * simpl. rewrite H1. simpl. rewrite m_get_set_ne; [done|]. intros <-.
        destruct Hname as [?|Hn]; [tauto|]. unfold child_of, state_of in Hn. simpl in Hn.
        rewrite H1 in Hn. simpl in Hn. congruence.
      * intros [_ [_ ?]%list_elem_of_filter]. tauto.
    + exists sup', s, name'. rewrite m_get_set_ne by done. split_and!; [done|done|].
      intros [<- _]. done.
Qed.

(** Releasing the child of a name makes the name free to rebind. *)
Lemma track_release a P name w :
  tracked a P w ->
  tracked a (name :: P) (match child_of a name w with Some old => unsupervise old w | None => w end).
Proof.
  intros Ht id Hid.
  assert (id ∈ w_supervised w /\ child_of a name w ≠ Some id) as [Hin Hne].
  { destruct (child_of a name w) as [old|]; [|done]. destruct w. simpl in *.
    apply elem_of_s_delete in Hid as [? ?]. split; [done|congruence]. }
  destruct (Ht id Hin) as (sup & s & name' & H1 & H2 & H3).
  exists sup, s, name'. split_and!; [by destruct (child_of a name w), w|done|].
  intros [-> [->|?]%elem_of_cons]; [|tauto]. apply Hne. unfold child_of, state_of. by rewrite H1.
Qed.

Section Track.

Context (env : nat -> Await -> Turn) (a : AgentId).

Abbreviation stable P m := (within (keeps (tracked a P)) m).

Lemma track_record P name : stable P (modify (record_attempt a name)).
Proof. intros w. unfold keeps. by apply track_update. Qed.

Lemma track_unrecord P name : stable P (modify (unrecord_attempt a name)).
Proof. intros w. unfold keeps. by apply track_update. Qed.

Lemma track_spawnFailures P f :
  stable P (modify (fun w => update_state a (with_spawnFailures (f w)) w)).
Proof. intros w. unfold keeps. by apply track_update. Qed.

Lemma track_modify_unsupervise P id : stable P (modify (unsupervise id)).
Proof. intros w. unfold keeps. apply track_unsupervise. Qed.

Lemma track_log P spec : stable P (modify (log_spawn a spec)).
Proof. intros w. unfold keeps. apply tracked_fields; by destruct w. Qed.

Lemma track_unsupervise_all P b : stable P (modify (unsupervise_all b)).
Proof.
  intros w Ht. simpl. unfold unsupervise_all. destruct (m_get _ _) as [s|]; [|done].
  revert w Ht. induction (m_values (ss_childMap s)) as [|id ids IH]; intros w Ht; [done|].
  simpl. apply IH. by apply track_unsupervise.
Qed.

Hint Resolve track_record track_unrecord track_spawnFailures track_modify_unsupervise track_log
  track_unsupervise_all : within.

Lemma track_escalate P name : stable P (escalate a name).
Proof. unfold escalate. within_solve. Qed.

Lemma track_escalated P name : stable P (escalated a name).
Proof. unfold escalated. within_solve. apply track_escalate. Qed.

Hint Resolve track_escalate track_escalated : within.

Lemma track_charge P b T : stable P (charge a b T).
Proof. unfold charge, charge_one. within_solve. Qed.

Lemma track_unrecord_all P T : stable P (unrecord_all a T).
Proof. unfold unrecord_all. within_solve. Qed.

Lemma track_roll_back_one P T results x : stable P (roll_back_one a T results x).
Proof. unfold roll_back_one. within_solve. Qed.

Lemma track_roll_back P T deadline specs confirmed : stable P (roll_back env a T deadline specs confirmed).
Proof.
  revert confirmed. induction specs as [|spec specs IH]; intros confirmed; simpl; [within_solve|].
  within_solve; auto.
Qed.

Hint Resolve track_unrecord_all track_roll_back_one track_roll_back : within.

Lemma track_rest_failed P T restarted failed : stable P (rest_failed env a T restarted failed).
Proof. unfold rest_failed. within_solve. Qed.

Lemma track_collect P specs : stable P (collect env a specs).
Proof. induction specs as [|spec specs IH]; simpl; [within_solve|]. within_solve; auto. Qed.

(** *** Children that are rebound *)

Lemma track_adopt_spawned P spec st attempt id w :
  cs_name spec ∈ P -> tracked a P w ->
  tracked a (filter (fun x => x ≠ cs_name spec) P) (adopt_spawned a spec st attempt id w).2.
Proof.
  intros Hin Ht. unfold adopt_spawned, bind at 1, modify.
  assert (stable (filter (fun x => x ≠ cs_name spec) P)
    (let! entry := gets (fun w => Reg.lookup id (w_store w)) in
     match entry with
     | None => ret id
     | Some e => transition id running (as_generation (re_status e)) (tr_restarted attempt (strategy_str st)) ;;! ret id
     end)) as Hs by within_solve.
  apply Hs. apply track_adopt; [by left|done].
Qed.

Lemma track_spawn P spec st attempt w :
  cs_name spec ∈ P -> tracked a P w ->
  match spawnAndTransition env a spec st attempt w with
  | (inl _, w') => tracked a (filter (fun x => x ≠ cs_name spec) P) w'
  | (inr _, w') => tracked a P w'
  end.
Proof.
  intros Hin Ht. unfold spawnAndTransition, bind, modify, await.
  set (w1 := pass_turn _ _). assert (tracked a P w1) as H1.
  { apply (am_turn (R := keeps (tracked a P))), (track_log P spec w), Ht. }
  destruct (tn_spawn _) as [id|e]; simpl; [|exact H1].
  pose proof (track_adopt_spawned P spec st attempt id w1 Hin H1) as H2.
  pose proof (nothrow_adopt_spawned a spec st attempt id w1) as H3.
  by destruct (adopt_spawned a spec st attempt id w1) as [[?|?] w2].
Qed.

Lemma rest_pending (x : string) (xs P : list string) :
  x ∉ xs -> (forall y, y ∈ x :: xs -> y ∈ P) -> forall y, y ∈ xs -> y ∈ filter (fun z => z ≠ x) P.
Proof. intros Hx HP y Hy. apply list_elem_of_filter. split; [by intros ->|apply HP; set_solver]. Qed.

Lemma track_spawn_in_order T specs : forall P restarted w,
  NoDup (cs_name <$> specs) -> (forall y, y ∈ cs_name <$> specs -> y ∈ P) -> tracked a P w ->
  tracked a [] (spawn_in_order env a T specs restarted w).2.
Proof.
  induction specs as [|spec specs IH]; intros P restarted w Hnd HP Ht.
  { eapply tracked_weaken; [exact Ht|]. set_solver. }
  rewrite fmap_cons in *. apply NoDup_cons in Hnd as [Hx Hnd].
  rewrite spawn_in_order_cons.
  pose proof (track_spawn P spec rest_for_one (attemptOf a T (cs_name spec) w) w) as Hs.
  destruct (spawnAndTransition _ _ _ _ _ _) as [[id|e] w1].
  - apply (IH (filter (fun x => x ≠ cs_name spec) P)); [done|by apply rest_pending|].
    apply Hs; [apply HP; set_solver|done].
  - simpl. eapply tracked_weaken; [apply Hs; [apply HP; set_solver|done]|]. set_solver.
Qed.

Lemma pick_perm n fs f rest : pick n fs = Some (f, rest) -> fs ≡ₚ f :: rest.
Proof.
  unfold pick. destruct (fs !! _) as [x|] eqn:E; [|done]. intros [= <- <-].
  rewrite Permutation_middle. by rewrite (take_drop_middle _ _ _ E).
Qed.

Lemma track_settle_all fuel : forall P fs results w,
  NoDup ((fun f => cs_name (fl_spec f)) <$> fs) ->
  (forall y, y ∈ (fun f => cs_name (fl_spec f)) <$> fs -> y ∈ P) -> tracked a P w ->
  tracked a [] (settle_all env fuel a fs results w).2.
Proof.
  induction fuel as [|fuel IH]; intros P fs results w Hnd HP Ht; simpl.
  { eapply tracked_weaken; [exact Ht|]. set_solver. }
  unfold bind at 1, await. cbv zeta.
  apply (am_turn (R := keeps (tracked a P)) (env (w_awaits w) (aw_settle a (fl_spec <$> fs)))) in Ht.
  destruct (pick _ fs) as [[f rest]|] eqn:Ep; [|eapply tracked_weaken; [exact Ht|set_solver]].
  apply pick_perm in Ep. rewrite Ep in Hnd. rewrite fmap_cons in Hnd. apply NoDup_cons in Hnd as [Hx Hnd].
  assert (forall y, y ∈ cs_name (fl_spec f) :: ((fun f => cs_name (fl_spec f)) <$> rest) -> y ∈ P) as HP'.
  { intros y Hy. apply HP. rewrite Ep. by rewrite fmap_cons. }
  destruct (tn_spawn _) as [id|e].
  - unfold bind. set (w1 := pass_turn _ _) in *.
    pose proof (nothrow_adopt_spawned a (fl_spec f) one_for_all (fl_attempt f) id w1) as H3.
    pose proof (track_adopt_spawned P (fl_spec f) one_for_all (fl_attempt f) id w1) as H2.
    destruct (adopt_spawned a (fl_spec f) one_for_all (fl_attempt f) id w1) as [[id'|?] w2]; [|done].
    eapply IH; [done| |apply H2; [apply HP'; set_solver|done]]. by apply rest_pending.
  - eapply IH; [done| |exact Ht]. intros y Hy. apply HP'. set_solver.
Qed.

Lemma track_take_off T P specs : forall i, stable P (take_off a T i specs).
Proof. induction specs as [|spec specs IH]; intros i; simpl; within_solve; auto. Qed.

Lemma track_spawn_all T children P w :
  NoDup (cs_name <$> children) -> (forall y, y ∈ cs_name <$> children -> y ∈ P) -> tracked a P w ->
  tracked a [] (spawn_all env a T children w).2.
Proof.
  intros Hnd HP Ht. unfold spawn_all, bind.
  destruct (log_take_off a T children 0 w) as (fs & H1 & H2 & _ & _).
  pose proof (track_take_off T P children 0 w Ht) as H4.
  destruct (take_off a T 0 children w) as [r w1]. simpl in *. subst r.
  apply (track_settle_all _ P); [| |exact H4].
  - by rewrite (list_fmap_compose fl_spec cs_name), H2.
  - by rewrite (list_fmap_compose fl_spec cs_name), H2.
Qed.

Lemma track_take_down T st spec P w :
  tracked a P w -> tracked a (cs_name spec :: P) (take_down a T st spec w).2.
Proof.
  intros Ht. apply (track_release a P (cs_name spec)) in Ht.
  unfold take_down, bind at 1, gets at 1. destruct (child_of a (cs_name spec) w) as [id|]; [|exact Ht].
  unfold bind at 1, modify. generalize dependent (unsupervise id w). clear w.
  change (stable (cs_name spec :: P)
    (let! attempt := gets (attemptOf a T (cs_name spec)) in
     terminateChild id (tr_restarted attempt (strategy_str st)) ;;! ret tt)). within_solve.
Qed.

Lemma track_take_down_all T st specs : forall P w,
  tracked a P w -> tracked a ((cs_name <$> specs) ++ P) (for_all specs (take_down a T st) w).2.
Proof.
  induction specs as [|spec specs IH]; intros P w Ht; [exact Ht|]. simpl. unfold bind.
  pose proof (track_take_down T st spec P w Ht) as H1. pose proof (nothrow_take_down a T st spec w) as H2.
  destruct (take_down a T st spec w) as [[u|?] w1]; [|done]. apply (IH _ _) in H1.
  eapply tracked_weaken; [exact H1|]. intros x. simpl. rewrite elem_of_cons, !elem_of_app, elem_of_cons. tauto.
Qed.

Lemma track_restart_one spec : stable [] (restart_one env a spec).
Proof.
  unfold restart_one. apply within_bind; [typeclasses eauto|within_solve|]. intros full. destruct full; [within_solve|].
  apply within_bind; [typeclasses eauto|within_solve|]. intros _.
  apply within_bind; [typeclasses eauto|within_solve|]. intros attempt w Ht.
  unfold bind at 1, gets at 1. apply (track_release a [] (cs_name spec)) in Ht.
  unfold bind at 1, modify. set (w1 := match child_of a (cs_name spec) w with Some old => unsupervise old w | None => w end) in *.
  unfold bind at 1, try_.
  pose proof (track_spawn [cs_name spec] spec one_for_one attempt w1) as Hs.
  destruct (spawnAndTransition _ _ _ _ _ _) as [[id|e] w2].
  - simpl. eapply tracked_weaken; [apply Hs; [set_solver|done]|]. set_solver.
  - apply (track_unrecord [] (cs_name spec) w2).
    eapply tracked_weaken; [apply Hs; [set_solver|done]|]. set_solver.
Qed.

Lemma track_one_for_one T : stable [] (applyOneForOne env a T).
Proof.
  unfold applyOneForOne, or_converged. within_solve. apply track_restart_one.
Qed.

(** The two collective strategies after their accounts were settled. *)
Lemma track_one_for_all config T :
  NoDup (cs_name <$> sc_children config) -> stable [] (applyOneForAll env a config T).
Proof.
  intros Hnd. unfold applyOneForAll. apply within_bind; [typeclasses eauto|apply track_charge|].
  intros [r|]; [within_solve|]. intros w Ht. unfold bind at 1.
  pose proof (track_take_down_all T one_for_all (sc_children config) [] w Ht) as H1.
  pose proof (nothrow_for_all (sc_children config) (take_down a T one_for_all) (nothrow_take_down a T one_for_all) w) as N1.
  destruct (for_all (sc_children config) (take_down a T one_for_all) w) as [[u|?] w1]; [|done].
  unfold bind at 1. rewrite app_nil_r in H1.
  pose proof (track_spawn_all T (sc_children config) _ w1 Hnd (fun y Hy => Hy) H1) as H2.
  destruct (spawn_all env a T (sc_children config) w1) as [[results|e] w2]; [|exact H2].
  destruct (first_failure _ _); [|exact H2]. generalize dependent w2.
  change (stable [] (for_all (imap pair (sc_children config)) (roll_back_one a T results) ;;!
    unrecord_all a T ;;! @throw ReconcileResult j)). within_solve.
Qed.

Lemma track_rest_for_one config T :
  NoDup (cs_name <$> sc_children config) -> stable [] (applyRestForOne env a config T).
Proof.
  intros Hnd. unfold applyRestForOne. apply within_bind; [typeclasses eauto|apply track_charge|].
  intros [r|]; [within_solve|]. cbv zeta. set (affected := drop _ _). intros w Ht. unfold bind at 1.
  assert (NoDup (cs_name <$> affected)) as Hnd'.
  { unfold affected. rewrite fmap_drop. rewrite <-(take_drop (earliest (sc_children config) T)) in Hnd.
    by apply NoDup_app in Hnd as (_ & _ & ?). }
  pose proof (track_take_down_all T rest_for_one (rev affected) [] w Ht) as H1.
  pose proof (nothrow_for_all (rev affected) (take_down a T rest_for_one) (nothrow_take_down a T rest_for_one) w) as N1.
  destruct (for_all (rev affected) (take_down a T rest_for_one) w) as [[u|?] w1]; [|done].
  unfold bind at 1. rewrite app_nil_r in H1.
  assert (tracked a [] (spawn_in_order env a T affected [] w1).2) as H2.
  { eapply track_spawn_in_order; [done| |exact H1]. intros y. rewrite !list_elem_of_fmap.
    intros (s & -> & Hs). exists s. split; [done|]. rewrite list_elem_of_In in Hs |- *. by apply -> in_rev. }
  destruct (spawn_in_order env a T affected [] w1) as [[[rs [failed|]]|e] w2]; [| |exact H2].
  - by apply track_rest_failed.
  - revert w2 H2. change (stable [] (for_all rs (fun spec =>
      modify (update_state a (with_spawnFailures (reset (cs_name spec))))) ;;! ret R_converged)).
    within_solve.
Qed.

(** *** Adoption *)

Lemma track_adopt_free name id w :
  child_of a name w = None -> tracked a [] w -> tracked a [] (adopt a name id w).
Proof. intros Hn Ht. apply (track_adopt a [] name id w); auto. Qed.

Lemma track_initialize config w :
  tracked a [] w -> tracked a [] (initializeChildMap a config (getOrCreateState a config w)).
Proof.
  intros Ht. assert (tracked a [] (getOrCreateState a config w)) as H1.
  { unfold getOrCreateState. destruct (m_get a (w_states w)) eqn:E; [done|].
    intros id Hid. destruct (Ht id) as (sup & s & name & G1 & G2 & G3); [by destruct w|].
    exists sup, s, name. split_and!; [|done|done]. destruct w. simpl in *. rewrite m_get_set_ne; congruence. }
  revert H1. generalize (getOrCreateState a config w). clear w Ht. intros w Ht.
  unfold initializeChildMap. destruct (s_has _ _); [done|].
  assert (tracked a [] (set_initialized (s_add a) w)) as H0 by (by destruct w).
  revert H0. generalize (set_initialized (s_add a) w). clear w Ht. intros w Ht.
  assert (forall name, m_has name (ss_childMap (state_of a w)) = false <-> child_of a name w = None) as Hhas.
  { intros name. apply m_has_false. }
  assert (forall ids acc, tracked a [] acc.1 -> tracked a [] (foldl (adopt_by_name a config) acc ids).1) as Hn.
  { intros ids. induction ids as [|id ids IH]; intros acc Hacc; [done|]. apply IH.
    unfold adopt_by_name. destruct acc as [w1 un]. simpl in *. destruct (Reg.lookup _ _); [|done].
    destruct (m_get _ _) as [[]|]; try done. destruct (_ && _) eqn:E; [|done].
    apply andb_true_iff in E as [_ E]. apply track_adopt_free; [|done].
    by apply negb_true_iff, m_has_false in E. }
  specialize (Hn (Tree.childrenOf (w_tree w) a) (w, []) Ht).
  destruct (foldl (adopt_by_name a config) _ _) as [w2 un]. simpl in Hn.
  revert w2 Hn. induction un as [|id un IH]; intros w2 H2; [done|]. simpl. apply IH.
  unfold adopt_by_position. destruct (List.find _ _) as [spec|] eqn:E; [|done].
  apply List.find_some in E as [_ E]. apply track_adopt_free; [|done].
  by apply negb_true_iff, m_has_false in E.
Qed.

End Track.

(** ** Runs *)

(** The controller's life: passes over supervisors, what happens between them,
    and its disposal. *)
Inductive Command : Type :=
  | cm_pass (agentId : AgentId) (supervision : option SupervisionConfig)
  | cm_elsewhere (turn : Turn)
  | cm_dispose.

Definition command_step (env : nat -> Await -> Turn) (w : World) (c : Command) : World :=
  match c with
  | cm_pass a supervision => (reconcile env a supervision w).2
  | cm_elsewhere turn => pass_turn turn w
  | cm_dispose => asyncDispose w
  end.

Definition command_run (env : nat -> Await -> Turn) (w : World) (cs : list Command) : World :=
  foldl (command_step env) w cs.

(** The configurations validation accepts name each child once. *)
Definition unique_names (c : Command) : Prop :=
  match c with cm_pass _ (Some config) => NoDup (cs_name <$> sc_children config) | _ => True end.

Lemma track_supervisor_gone a w :
  tracked a [] w ->
  tracked a [] (set_initialized (s_delete a) (set_states (m_delete a) (unsupervise_all a w))).
Proof.
  intros Ht id Hid.
  assert (id ∈ w_supervised (unsupervise_all a w)) as Hid' by (by destruct (unsupervise_all a w)).
  assert (forall ids w, w_states (foldl (fun w id => unsupervise id w) w ids) = w_states w /\
            forall id, id ∈ w_supervised (foldl (fun w id => unsupervise id w) w ids) <->
              id ∈ w_supervised w /\ id ∉ ids) as Hf.
  { clear. intros ids. induction ids as [|i ids IH]; intros w; simpl.
    { split; [done|]. intros id. split; [intros; split; [done|set_solver]|tauto]. }
    destruct (IH (unsupervise i w)) as (H1 & H2). destruct w. simpl in *.
    split; [done|]. intros id. rewrite H2, elem_of_s_delete, not_elem_of_cons. tauto. }
  assert (w_states (unsupervise_all a w) = w_states w) as Hst.
  { unfold unsupervise_all. destruct (m_get a (w_states w)); [apply Hf|done]. }
  assert (id ∈ w_supervised w) as Hin.
  { unfold unsupervise_all in Hid'. destruct (m_get a (w_states w)); [|done]. by apply Hf in Hid' as [? _]. }
  destruct (Ht id Hin) as (sup & s & name & H1 & H2 & H3).
  exists sup, s, name. split_and!; [|done|set_solver].
  assert (sup ≠ a) as Hne.
  { intros ->. unfold unsupervise_all in Hid'. rewrite H1 in Hid'. apply Hf in Hid' as [_ Hni].
    apply Hni. apply m_get_elem in H2. unfold m_values. apply list_elem_of_fmap. by exists (name, id). }
  rewrite <-Hst in H1. destruct (unsupervise_all a w). simpl in *. by rewrite m_get_delete_ne by congruence.
Qed.

Lemma track_reconcile env a supervision w :
  unique_names (cm_pass a supervision) -> tracked a [] w -> tracked a [] (reconcile env a supervision w).2.
Proof.
  intros Hnd. revert w. change (within (keeps (tracked a [])) (reconcile env a supervision)).
  unfold reconcile. destruct supervision as [config|]; [|within_solve]. simpl in Hnd.
  destruct (decide _); [within_solve|]. apply within_bind; [typeclasses eauto|within_solve|].
  intros [e|]; [|within_solve]. destruct (decide _).
  - intros w Ht. simpl. by apply track_supervisor_gone.
  - intros w Ht. unfold bind at 1, modify at 1. unfold bind at 1, modify at 1.
    apply (track_initialize a config) in Ht. revert Ht. generalize (initializeChildMap a config (getOrCreateState a config w)).
    clear w. intros w. revert w. match goal with |- forall w, _ -> tracked a [] (?m w).2 => change (within (keeps (tracked a [])) m) end.
    apply within_bind; [typeclasses eauto|apply track_collect|]. intros T.
    destruct (decide _); [within_solve|]. destruct (sc_strategy config).
    + apply track_one_for_one.
    + by apply track_one_for_all.
    + by apply track_rest_for_one.
Qed.

(** In every run of the controller - passes over any supervisors with any configurations that
    name each child once, whatever the registry, the spawns and their failures do in between - an
    agent that is exempt from the cascade is the current child of some supervisor the controller
    keeps a state for. *)
Lemma supervised_are_tracked env store tree now cs id :
  Forall unique_names cs ->
  let w := command_run env (initial store tree now) cs in
  isSupervised id w = true ->
  exists sup s name, m_get sup (w_states w) = Some s /\ m_get name (ss_childMap s) = Some id.
Proof.
  intros Hu w Hid.
  assert (tracked EmptyString [] w) as Ht.
  { subst w. unfold command_run. assert (tracked EmptyString [] (initial store tree now)) as H0.
    { intros x Hx. by apply elem_of_nil in Hx. }
    revert H0. generalize (initial store tree now). clear Hid. induction Hu as [|c cs Hc _ IH]; intros w Ht; [done|].
    simpl. apply IH. destruct c as [a supervision|turn|]; simpl.
    - apply (tracked_other a), track_reconcile; [done|]. by apply (tracked_other EmptyString).
    - by apply (am_turn (R := keeps (tracked EmptyString []))).
    - intros x Hx. destruct w. simpl in Hx. by apply elem_of_nil in Hx. }
  apply s_has_true in Hid. destruct (Ht id Hid) as (sup & s & name & H1 & H2 & _). by exists sup, s, name.
Qed.

Lemma supervised_are_tracked_witness :
  let config := Some (mkSupervisionConfig one_for_one 5 60000 [sample_child "a" permanent; sample_child "b" transient]) in
  let w := command_run (sample_env ["b"]) (initial (w_store sample_world) (w_tree sample_world) 0)
             [cm_pass "s" (Some (mkSupervisionConfig one_for_one 5 60000 [sample_child "a" permanent]));
              cm_elsewhere (mkTurn [] 50 0 (inr JUndefined)); cm_pass "s" config] in
  isSupervised "x" w = true /\
  exists sup s name, m_get sup (w_states w) = Some s /\ m_get name (ss_childMap s) = Some "x".
Proof.
  cbv zeta. split; [vm_compute; reflexivity|]. apply supervised_are_tracked.
  - repeat constructor; apply (bool_decide_unpack _); vm_compute; exact I.
  - vm_compute. reflexivity.
Defined.
