(* ===== verification/SupervisionHeal.v ===== *)
(** * One good pass is enough

    When answers travel undisturbed and every spawn yields a new living agent, a
    pass either runs out of budget or leaves no child due; it neither throws nor
    asks to be tried again, and the next pass has nothing to do. *)

From S2P Require Import Prelude JsMap Lifecycle Registry AgentTree Runner RestartIntensity.
From S2P Require Import Supervision SupervisionInv SupervisionSpec.

Local Open Scope string_scope.
Local Open Scope list_scope.
Local Open Scope supervision_scope.

Definition alive (id : AgentId) (w : World) : Prop :=
  exists e, Reg.lookup id (w_store w) = Some e /\ as_phase (re_status e) <> terminated.

(** The turn registers [id], not terminated, and hands it over. *)
Record delivers (id : AgentId) (t : Turn) : Prop := {
  dl_entry : exists e, tn_ops t = [Reg.op_register e] /\ re_agentId e = id /\
               as_phase (re_status e) <> terminated;
  dl_id : tn_spawn t = inl id
}.

Record spawns_well (env : nat -> Await -> Turn) (fresh : nat -> AgentId) : Prop := {
  sw_quiet : quiet_answers env;
  sw_inj : forall m n, fresh m = fresh n -> m = n;
  sw_spawn : forall n p spec, delivers (fresh n) (env n (aw_spawn p spec));
  sw_settle : forall n p specs, delivers (fresh n) (env n (aw_settle p specs))
}.

(** The ids still to come are nobody's, and no agent plays two children. *)
Record fit (a : AgentId) (fresh : nat -> AgentId) (w : World) : Prop := {
  ft_unused : forall m name, (w_awaits w <= m)%nat -> child_of a name w <> Some (fresh m);
  ft_distinct : forall n1 n2 id, child_of a n1 w = Some id -> child_of a n2 w = Some id -> n1 = n2
}.

(** The children are the same ones and no await has passed. *)
Record same_map (a : AgentId) (w w' : World) : Prop := {
  sm_child : forall name, child_of a name w' = child_of a name w;
  sm_awaits : w_awaits w' = w_awaits w
}.

#[export] Instance same_map_preorder a : PreOrder (same_map a).
Proof.
  split; [by constructor|]. intros w1 w2 w3 [C1 A1] [C2 A2]. constructor; [|congruence].
  intros name. by rewrite C2.
Qed.

Lemma fit_same a fresh w w' : same_map a w w' -> fit a fresh w -> fit a fresh w'.
Proof.
  intros [Hc Ha] [Hu Hd]. constructor.
  - intros m name Hm. rewrite Hc. apply Hu. lia.
  - intros n1 n2 id. rewrite !Hc. apply Hd.
Qed.

(** Only accounts and supervision marks changed. *)
Record same_agents (a : AgentId) (w w' : World) : Prop := {
  sa_map : same_map a w w';
  sa_store : w_store w' = w_store w
}.

#[export] Instance same_agents_preorder a : PreOrder (same_agents a).
Proof.
  split; [by constructor|]. intros w1 w2 w3 [M1 S1] [M2 S2]. constructor; [by transitivity w2|congruence].
Qed.

Lemma due_agents a w w' spec : same_agents a w w' -> due a w' spec = due a w spec.
Proof. intros [[Hc _] Hs]. unfold due. by rewrite Hc, Hs. Qed.

Lemma same_agents_update a f w :
  (forall s, ss_childMap (f s) = ss_childMap s) -> same_agents a w (update_state a f w).
Proof.
  intros Hf. constructor; [constructor|]; destruct w; [|done|done]. intros name.
  unfold child_of, update_state, state_of. simpl. rewrite m_get_set_eq. simpl. by rewrite Hf.
Qed.

Lemma same_agents_unsupervise a id w : same_agents a w (unsupervise id w).
Proof. by constructor; [constructor|]; destruct w. Qed.

Lemma same_agents_log a spec w : same_agents a w (log_spawn a spec w).
Proof. by constructor; [constructor|]; destruct w. Qed.

(** ** A child delivered *)

Record took_over (a : AgentId) (name : string) (id : AgentId) (w w' : World) : Prop := {
  to_child : forall n, child_of a n w' = if decide (name = n) then Some id else child_of a n w;
  to_store : forall i, i <> id -> Reg.lookup i (w_store w') = Reg.lookup i (w_store w);
  to_alive : alive id w';
  to_awaits : w_awaits w' = S (w_awaits w)
}.

Lemma transition_store id to gen reason w :
  w_store (transition id to gen reason w).2 = (Reg.transition (w_now w) id to gen reason (w_store w)).1.2.
Proof.
  unfold transition. destruct w as [st tr now n ss sup ini sp]. simpl.
  by destruct (Reg.transition now id to gen reason st) as [[r st'] evs].
Qed.

Lemma transition_lookup id to gen reason w i :
  i <> id -> Reg.lookup i (w_store (transition id to gen reason w).2) = Reg.lookup i (w_store w).
Proof.
  intros Hne. rewrite transition_store.
  destruct (Reg.transition_spec (w_now w) id to gen reason (w_store w))
    as [(cur & _ & _ & _ & ->)|(er & -> & _)]; [|done].
  simpl. unfold Reg.lookup. by rewrite m_get_set_ne.
Qed.

Lemma transition_same_map a id to gen reason w : same_map a w (transition id to gen reason w).2.
Proof.
  unfold transition. destruct w as [st tr now n ss sup ini sp]. simpl.
  destruct (Reg.transition now id to gen reason st) as [[r st'] evs]. by constructor.
Qed.

Lemma transition_alive id gen reason w :
  alive id w -> alive id (transition id running gen reason w).2.
Proof.
  intros (e & He & Hp). unfold alive. rewrite transition_store.
  destruct (Reg.transition_spec (w_now w) id running gen reason (w_store w))
    as [(cur & _ & _ & _ & ->)|(er & -> & _)]; [|by exists e].
  eexists. unfold Reg.lookup. simpl. rewrite m_get_set_eq. by split.
Qed.

Lemma adopt_delivered a name spec st attempt id t w :
  cs_name spec = name -> delivers id t ->
  exists w', adopt_spawned a spec st attempt id (pass_turn t w) = (inl id, w') /\ took_over a name id w w'.
Proof.
  intros <- [(e & Hops & Hid & Hp) _]. unfold adopt_spawned, bind at 1, modify.
  set (w1 := adopt a (cs_name spec) id (pass_turn t w)).
  assert (Reg.lookup id (w_store w1) = Some e) as He.
  { subst w1. destruct w. unfold pass_turn. simpl. rewrite Hops. simpl. unfold Reg.lookup. rewrite Hid.
    apply m_get_set_eq. }
  assert (took_over a (cs_name spec) id w w1) as Hto.
  { constructor; [| |by exists e|].
    - intros n. subst w1. destruct w. unfold adopt, pass_turn, child_of, update_state, state_of. simpl. rewrite Hops.
      simpl. rewrite m_get_set_eq. simpl. rewrite m_get_set. by repeat case_decide.
    - intros i Hi. subst w1. destruct w. unfold pass_turn. simpl. rewrite Hops. simpl. unfold Reg.lookup.
      rewrite Hid. by rewrite m_get_set_ne.
    - subst w1. destruct w. unfold pass_turn. simpl. by rewrite Hops. }
  unfold bind at 1, gets. rewrite He. unfold bind.
  pose proof (nothrow_transition id running (as_generation (re_status e)) (tr_restarted attempt (strategy_str st)) w1) as Hn.
  pose proof (transition_same_map a id running (as_generation (re_status e)) (tr_restarted attempt (strategy_str st)) w1) as Hm.
  pose proof (fun i => transition_lookup id running (as_generation (re_status e)) (tr_restarted attempt (strategy_str st)) w1 i) as Hl.
  pose proof (transition_alive id (as_generation (re_status e)) (tr_restarted attempt (strategy_str st)) w1 (to_alive _ _ _ _ _ Hto)) as Ha.
  destruct (transition _ _ _ _ w1) as [[r|] w2]; [|done]. simpl in *. exists w2. split; [done|].
  destruct Hto as [Hc Hst _ Haw], Hm as [Hmc Hma]. constructor; [| |done|congruence].
  - intros n. by rewrite Hmc.
  - intros i Hi. by rewrite Hl, Hst.
Qed.

Lemma took_over_fit a fresh name w w' :
  (forall m n, fresh m = fresh n -> m = n) ->
  took_over a name (fresh (w_awaits w)) w w' -> fit a fresh w -> fit a fresh w'.
Proof.
  intros Hinj [Hc _ _ Ha] [Hu Hd]. constructor.
  - intros m n Hm. rewrite Hc. case_decide; [|apply Hu; lia].
    intros [= Heq%Hinj]. lia.
  - intros n1 n2 id. rewrite !Hc. repeat case_decide; intros H1 H2; try congruence.
    + exfalso. apply (Hu (w_awaits w) n2); [lia|congruence].
    + exfalso. apply (Hu (w_awaits w) n1); [lia|congruence].
    + by eapply Hd.
Qed.

Lemma due_taken_over a fresh name w w' spec :
  fit a fresh w -> took_over a name (fresh (w_awaits w)) w w' ->
  due a w' spec = if decide (name = cs_name spec) then false else due a w spec.
Proof.
  intros Hf [Hc Hs (e & He & Hp) _]. unfold due. rewrite Hc. case_decide.
  - simpl. rewrite He. simpl. rewrite bool_decide_eq_false_2 by done. done.
  - destruct (child_of a (cs_name spec) w) as [id|] eqn:E; [|done]. simpl. rewrite Hs; [done|].
    intros ->. by apply (ft_unused _ _ _ Hf (w_awaits w) (cs_name spec)) in E.
Qed.

Section Heal.

Context (env : nat -> Await -> Turn) (fresh : nat -> AgentId) (Hwell : spawns_well env fresh).
Context (a : AgentId).

Lemma spawn_delivered spec st attempt w :
  exists w', spawnAndTransition env a spec st attempt w = (inl (fresh (w_awaits w)), w') /\
    took_over a (cs_name spec) (fresh (w_awaits w)) w w'.
Proof using Hwell.
  unfold spawnAndTransition, bind, modify, await. set (w0 := log_spawn a spec w).
  assert (w_awaits w0 = w_awaits w) as -> by (by destruct w).
  pose proof (sw_spawn _ _ Hwell (w_awaits w) a spec) as Hd. rewrite (dl_id _ _ Hd).
  destruct (adopt_delivered a (cs_name spec) spec st attempt _ _ w0 eq_refl Hd) as (w' & -> & Hto).
  exists w'. split; [done|]. destruct Hto as [H1 H2 H3 H4]. subst w0. destruct w. by constructor.
Qed.

(** *** One for one *)

Lemma restart_one_delivered spec w :
  fit a fresh w ->
  match restart_one env a spec w with
  | (inl (Some r), _) => is_terminal r
  | (inl None, w') => fit a fresh w' /\
      forall s, due a w' s = if decide (cs_name spec = cs_name s) then false else due a w s
  | (inr _, _) => False
  end.
Proof using Hwell.
  intros Hf. unfold restart_one, bind at 1, gets at 1. destruct (exhausted _ _ _ _).
  { pose proof (escalated_terminal a (cs_name spec) w) as He.
    destruct (escalated _ _ w) as [[r|] w']; [|done]. by destruct He as (x & -> & Hx). }
  unfold bind at 1, modify at 1. set (w1 := record_attempt a (cs_name spec) w).
  unfold bind at 1, gets at 1. unfold bind at 1, gets at 1. unfold bind at 1, modify at 1.
  set (w2 := match child_of a (cs_name spec) w1 with Some old => unsupervise old w1 | None => w1 end).
  assert (same_agents a w w2) as Hs.
  { transitivity w1; [by apply same_agents_update|]. subst w2.
    destruct (child_of _ _ w1); [apply same_agents_unsupervise|done]. }
  unfold bind, try_. destruct (spawn_delivered spec one_for_one (attempts a (cs_name spec) w1) w2) as (w3 & -> & Hto).
  simpl. apply (fit_same a fresh w w2) in Hf; [|by destruct Hs]. split.
  - eapply took_over_fit; [apply Hwell|exact Hto|exact Hf].
  - intros s. rewrite (due_taken_over _ _ _ _ _ s Hf Hto). by rewrite (due_agents a w w2).
Qed.

Lemma restart_loop_delivered T : forall w,
  fit a fresh w ->
  match for_each T (restart_one env a) w with
  | (inl (Some r), _) => is_terminal r
  | (inl None, w') => fit a fresh w' /\
      forall s, due a w' s = if decide (cs_name s ∈ cs_name <$> T) then false else due a w s
  | (inr _, _) => False
  end.
Proof using Hwell.
  induction T as [|spec T IH]; intros w Hf.
  { cbn [for_each]. unfold ret. split; [done|]. intros s. rewrite decide_False; [done|]. set_solver. }
  rewrite for_each_cons. pose proof (restart_one_delivered spec w Hf) as H1.
  destruct (restart_one env a spec w) as [[[r|]|e] w1]; [done| |done]. destruct H1 as [Hf1 Hd1].
  specialize (IH w1 Hf1). destruct (for_each T (restart_one env a) w1) as [[[r|]|e] w2]; [done| |done].
  destruct IH as [Hf2 Hd2]. split; [done|]. intros s. rewrite Hd2, Hd1. rewrite fmap_cons.
  repeat case_decide; try done; set_solver.
Qed.

(** *** Taking children down *)

Lemma terminateChild_effect id reason w :
  exists b, terminateChild id reason w = (inl b, (terminateChild id reason w).2) /\
    same_map a w (terminateChild id reason w).2 /\
    forall i, i <> id -> Reg.lookup i (w_store (terminateChild id reason w).2) = Reg.lookup i (w_store w).
Proof.
  unfold terminateChild, bind, gets, ret. destruct (Reg.lookup id (w_store w)) as [e|]; [|by exists false].
  destruct (decide _); [by exists true|].
  pose proof (nothrow_transition id terminated (as_generation (re_status e)) reason w) as Hn.
  pose proof (transition_same_map a id terminated (as_generation (re_status e)) reason w) as Hm.
  pose proof (fun i => transition_lookup id terminated (as_generation (re_status e)) reason w i) as Hl.
  destruct (transition _ _ _ _ w) as [[r|] w2]; [|done]. simpl in *. by exists (is_ok r).
Qed.

Lemma take_down_effect T st spec w :
  exists w', take_down a T st spec w = (inl tt, w') /\ same_map a w w' /\
    forall i, child_of a (cs_name spec) w <> Some i -> Reg.lookup i (w_store w') = Reg.lookup i (w_store w).
Proof.
  unfold take_down, bind at 1, gets at 1. destruct (child_of a (cs_name spec) w) as [id|] eqn:E; [|by exists w].
  unfold bind, modify, gets. set (w1 := unsupervise id w).
  destruct (same_agents_unsupervise a id w) as [Hm Hs]. fold w1 in Hm, Hs.
  destruct (terminateChild_effect id (tr_restarted (attemptOf a T (cs_name spec) w1) (strategy_str st)) w1)
    as (b & -> & Hm2 & Hl). eexists. split; [done|]. split; [by transitivity w1|].
  intros i Hi. rewrite Hl by congruence. by rewrite Hs.
Qed.

Lemma take_down_all_effect T st specs : forall w,
  exists w', for_all specs (take_down a T st) w = (inl tt, w') /\ same_map a w w' /\
    forall i, (forall s, s ∈ specs -> child_of a (cs_name s) w <> Some i) ->
      Reg.lookup i (w_store w') = Reg.lookup i (w_store w).
Proof.
  induction specs as [|spec specs IH]; intros w; [by exists w|].
  destruct (take_down_effect T st spec w) as (w1 & E1 & Hm1 & Hl1).
  destruct (IH w1) as (w2 & E2 & Hm2 & Hl2). exists w2. simpl. unfold bind. rewrite E1, E2.
  split; [done|]. split; [by transitivity w1|]. intros i Hi.
  rewrite Hl2, Hl1; [done|apply Hi; set_solver|]. intros s Hs. destruct Hm1 as [-> _]. apply Hi. set_solver.
Qed.

(** Children that do not share an agent with those taken down stay as they are. *)
Lemma due_taken_down w w' (specs : list ChildSpec) s :
  fit a fresh w -> same_map a w w' ->
  (forall i, (forall s, s ∈ specs -> child_of a (cs_name s) w <> Some i) ->
     Reg.lookup i (w_store w') = Reg.lookup i (w_store w)) ->
  cs_name s ∉ cs_name <$> specs -> due a w' s = due a w s.
Proof.
  intros Hf [Hc _] Hl Hs. unfold due. rewrite Hc. destruct (child_of a (cs_name s) w) as [id|] eqn:E; [|done].
  simpl. rewrite Hl; [done|]. intros s' Hs' E'. apply Hs.
  rewrite (ft_distinct _ _ _ Hf _ _ _ E E'). by apply list_elem_of_fmap_2.
Qed.

(** *** All together *)

Definition no_failure (results : list (nat * (AgentId + jsval))) : Prop :=
  forall i e, m_get i results <> Some (inr e).

Lemma pick_some n fs : fs <> [] -> exists f rest, pick n fs = Some (f, rest) /\ fs ≡ₚ f :: rest.
Proof.
  intros Hne. unfold pick. destruct (fs !! (n mod length fs)%nat) as [f|] eqn:E.
  - exists f. eexists. split; [done|]. rewrite Permutation_middle. by rewrite (take_drop_middle _ _ _ E).
  - exfalso. apply lookup_ge_None in E. destruct fs as [|f fs]; [done|].
    pose proof (Nat.mod_upper_bound n (length (f :: fs))). simpl in *. lia.
Qed.

Lemma settle_all_delivered fuel : forall fs results w,
  length fs = fuel -> fit a fresh w -> no_failure results ->
  exists results' w', settle_all env fuel a fs results w = (inl results', w') /\ no_failure results' /\
    fit a fresh w' /\
    forall s, due a w' s = if decide (cs_name s ∈ (fun f => cs_name (fl_spec f)) <$> fs) then false else due a w s.
Proof using Hwell.
  induction fuel as [|fuel IH]; intros fs results w Hlen Hf Hr.
  { destruct fs; [|done]. exists results, w. split_and!; [done|done|done|].
    intros s. rewrite decide_False; [done|]. set_solver. }
  destruct (pick_some (tn_pick (env (w_awaits w) (aw_settle a (fl_spec <$> fs)))) fs) as (f & rest & Hpick & Hperm); [by destruct fs|].
  pose proof (sw_settle _ _ Hwell (w_awaits w) a (fl_spec <$> fs)) as Hd.
  cbn [settle_all]. unfold bind at 1, await. set (t := env (w_awaits w) _) in *.
  rewrite Hpick, (dl_id _ _ Hd). unfold bind at 1.
  destruct (adopt_delivered a (cs_name (fl_spec f)) (fl_spec f) one_for_all (fl_attempt f) _ t w eq_refl Hd) as (w1 & -> & Hto).
  destruct (IH rest (m_set (fl_index f) (inl (fresh (w_awaits w))) results) w1) as (results' & w' & -> & Hr' & Hf' & Hd').
  - apply Permutation_length in Hperm. simpl in Hperm. lia.
  - eapply took_over_fit; [apply Hwell|exact Hto|exact Hf].
  - intros i e. rewrite m_get_set. case_decide; [done|apply Hr].
  - exists results', w'. split_and!; [done|done|done|]. intros s. rewrite Hd', (due_taken_over _ _ _ _ _ s Hf Hto).
    assert (cs_name s ∈ (fun f => cs_name (fl_spec f)) <$> fs <->
              cs_name s = cs_name (fl_spec f) \/ cs_name s ∈ (fun f => cs_name (fl_spec f)) <$> rest) as Hin
      by (rewrite Hperm; apply elem_of_cons).
    repeat case_decide; try done; exfalso; naive_solver.
Qed.

Lemma take_off_effect T specs : forall i w,
  exists fs w', take_off a T i specs w = (inl fs, w') /\ fl_spec <$> fs = specs /\ same_agents a w w'.
Proof.
  induction specs as [|spec specs IH]; intros i w; [by exists [], w|].
  destruct (IH (S i) (log_spawn a spec w)) as (fs & w' & E & Hfs & Hs).
  simpl. unfold bind, gets, modify. rewrite E. eexists _, w'. split; [done|].
  split; [by rewrite fmap_cons, Hfs|]. transitivity (log_spawn a spec w); [apply same_agents_log|done].
Qed.

Lemma no_failure_first n results : no_failure results -> first_failure n results = None.
Proof.
  intros Hr. unfold first_failure. induction (seq 0 n) as [|i l IH]; [done|]. simpl.
  destruct (m_get i results) as [[id|e]|] eqn:E; [exact IH| |exact IH]. by apply Hr in E.
Qed.

Lemma spawn_all_delivered T children w :
  fit a fresh w ->
  exists results w', spawn_all env a T children w = (inl results, w') /\
    first_failure (length children) results = None /\ fit a fresh w' /\
    forall s, due a w' s = if decide (cs_name s ∈ cs_name <$> children) then false else due a w s.
Proof using Hwell.
  intros Hf. unfold spawn_all, bind. destruct (take_off_effect T children 0 w) as (fs & w1 & -> & Hfs & Hs).
  apply (fit_same a fresh w w1) in Hf; [|by destruct Hs].
  destruct (settle_all_delivered (length fs) fs [] w1 eq_refl Hf) as (results & w' & -> & Hr & Hf' & Hd); [done|].
  exists results, w'. split_and!; [done|by apply no_failure_first|done|].
  intros s. rewrite Hd, (list_fmap_compose fl_spec cs_name), Hfs. by rewrite (due_agents a w w1).
Qed.

(** *** In order *)

Lemma spawn_in_order_delivered T specs : forall restarted w,
  fit a fresh w ->
  exists w', spawn_in_order env a T specs restarted w = (inl (restarted ++ specs, None), w') /\ fit a fresh w' /\
    forall s, due a w' s = if decide (cs_name s ∈ cs_name <$> specs) then false else due a w s.
Proof using Hwell.
  induction specs as [|spec specs IH]; intros restarted w Hf.
  { exists w. rewrite app_nil_r. split_and!; [done|done|]. intros s. rewrite decide_False; [done|]. set_solver. }
  rewrite spawn_in_order_cons.
  destruct (spawn_delivered spec rest_for_one (attemptOf a T (cs_name spec) w) w) as (w1 & -> & Hto).
  destruct (IH (restarted ++ [spec]) w1) as (w' & -> & Hf' & Hd').
  { eapply took_over_fit; [apply Hwell|exact Hto|exact Hf]. }
  exists w'. rewrite <-app_assoc. split_and!; [done|done|]. intros s.
  rewrite Hd', (due_taken_over _ _ _ _ _ s Hf Hto), fmap_cons. repeat case_decide; try done; set_solver.
Qed.

(** *** The strategies *)

(** The charge only touches the accounts, or gives up. *)
Lemma charge_effect b T : forall w,
  match charge a b T w with
  | (inl (Some r), _) => is_terminal r
  | (inl None, w') => same_agents a w w'
  | (inr _, _) => False
  end.
Proof.
  unfold charge. induction T as [|spec T IH]; intros w; [done|]. rewrite for_each_cons.
  assert (match charge_one a b spec w with
          | (inl (Some r), _) => is_terminal r
          | (inl None, w') => same_agents a w w'
          | (inr _, _) => False
          end) as H1.
  { assert (forall w, match escalated a (cs_name spec) w with
                      | (inl (Some r), _) => is_terminal r | _ => False end) as He.
    { intros w0. pose proof (escalated_terminal a (cs_name spec) w0) as He.
      destruct (escalated a (cs_name spec) w0) as [[r|] w']; [|done]. by destruct He as (x & -> & Hx). }
    specialize (He w). unfold charge_one, bind, gets, modify, ret.
    destruct (exhausted ss_tracker _ _ w); [by destruct (escalated _ _ w) as [[[]|] ?]|].
    destruct (_ && _); [by destruct (escalated _ _ w) as [[[]|] ?]|]. by apply same_agents_update. }
  destruct (charge_one a b spec w) as [[[r|]|e] w1]; [done| |done].
  specialize (IH w1). destruct (for_each T (charge_one a b) w1) as [[[r|]|e] w2]; [done| |done].
  by transitivity w1.
Qed.

Definition all_quiet (children : list ChildSpec) (res : (ReconcileResult + jsval) * World) : Prop :=
  match res with
  | (inl r, w') => is_terminal r \/ r = R_converged /\ fit a fresh w' /\
                     forall s, s ∈ children -> due a w' s = false
  | (inr _, _) => False
  end.

Lemma one_for_one_heals children w :
  fit a fresh w -> all_quiet children (applyOneForOne env a (due_specs a w children) w).
Proof using Hwell.
  intros Hf. unfold applyOneForOne, or_converged, bind. pose proof (restart_loop_delivered (due_specs a w children) w Hf) as H1.
  destruct (for_each _ _ w) as [[[r|]|e] w']; [by left| |done]. destruct H1 as [Hf' Hd]. right.
  split_and!; [done|done|]. intros s Hs. rewrite Hd. case_decide as Hn; [done|].
  apply not_true_is_false. intros Ht. apply Hn. apply list_elem_of_fmap_2. unfold due_specs.
  by apply list_elem_of_filter.
Qed.

Lemma one_for_all_heals config T w :
  fit a fresh w -> all_quiet (sc_children config) (applyOneForAll env a config T w).
Proof using Hwell.
  intros Hf. unfold applyOneForAll, bind at 1. pose proof (charge_effect false T w) as Hc.
  destruct (charge a false T w) as [[[r|]|e] w1]; [by left| |done].
  apply (fit_same a fresh w w1) in Hf; [|by destruct Hc].
  destruct (take_down_all_effect T one_for_all (sc_children config) w1) as (w2 & E2 & Hm2 & _).
  apply (fit_same a fresh w1 w2) in Hf; [|done].
  destruct (spawn_all_delivered T (sc_children config) w2 Hf) as (results & w3 & E3 & Hff & Hf3 & Hd3).
  unfold bind. rewrite E2, E3, Hff. right. split_and!; [done|done|]. intros s Hs. rewrite Hd3.
  rewrite decide_True; [done|]. by apply list_elem_of_fmap_2.
Qed.

Lemma from_first_split {A} (f : A -> bool) l :
  exists pre, l = pre ++ from_first f l /\ Forall (fun x => f x = false) pre.
Proof.
  induction l as [|x l (pre & Hl & Hpre)]; [by exists []|]. simpl. destruct (f x) eqn:E; [by exists []|].
  exists (x :: pre). split; [by rewrite Hl at 1|by constructor].
Qed.

Lemma rest_for_one_heals config w :
  NoDup (cs_name <$> sc_children config) -> due_specs a w (sc_children config) <> [] ->
  fit a fresh w -> all_quiet (sc_children config) (applyRestForOne env a config (due_specs a w (sc_children config)) w).
Proof using Hwell.
  intros Hnd Hne Hf. unfold applyRestForOne. cbv zeta. unfold due_specs at 2 3 4 5. rewrite earliest_exact by done.
  fold (due_specs a w (sc_children config)). set (T := due_specs a w (sc_children config)).
  destruct (from_first_split (due a w) (sc_children config)) as (pre & Hsplit & Hpre).
  set (affected := from_first (due a w) (sc_children config)) in *.
  unfold bind at 1. pose proof (charge_effect true T w) as Hc.
  destruct (charge a true T w) as [[[r|]|e] w1]; [by left| |done].
  apply (fit_same a fresh w w1) in Hf; [|by destruct Hc].
  destruct (take_down_all_effect T rest_for_one (rev affected) w1) as (w2 & E2 & Hm2 & Hl2).
  pose proof (fit_same a fresh w1 w2 Hm2 Hf) as Hf2.
  destruct (spawn_in_order_delivered T affected [] w2 Hf2) as (w3 & E3 & Hf3 & Hd3).
  unfold bind at 1. rewrite E2. unfold bind at 1. rewrite E3. simpl.
  assert (forall rs w, exists w', for_all rs (fun spec =>
            modify (update_state a (with_spawnFailures (reset (cs_name spec))))) w = (inl tt, w') /\ same_agents a w w') as Hres.
  { intros rs. induction rs as [|spec rs IH]; intros w0; [by exists w0|].
    cbn [for_all]. unfold bind. cbn [modify].
    destruct (IH (update_state a (with_spawnFailures (reset (cs_name spec))) w0)) as (w' & -> & Hs).
    exists w'. split; [done|]. transitivity (update_state a (with_spawnFailures (reset (cs_name spec))) w0); [by apply same_agents_update|exact Hs]. }
  destruct (Hres affected w3) as (w4 & E4 & Hs4). unfold bind. rewrite E4. right. split; [done|].
  split; [apply (fit_same a fresh w3); [by destruct Hs4|done]|]. intros s Hs.
  rewrite (due_agents a w3 w4) by done. rewrite Hd3. case_decide as Hn; [done|].
  rewrite (due_taken_down w1 w2 (rev affected) s Hf Hm2 Hl2).
  - rewrite (due_agents a w w1) by done. rewrite Hsplit in Hs. apply elem_of_app in Hs as [Hs|Hs].
    + by apply (proj1 (Forall_forall _ _) Hpre).
    + exfalso. apply Hn. by apply list_elem_of_fmap_2.
  - intros Hin. apply Hn. apply list_elem_of_fmap in Hin as (x & -> & Hx). apply list_elem_of_fmap_2.
    by apply list_elem_of_In, in_rev, list_elem_of_In in Hx.
Qed.

End Heal.



Lemma spawns_well_sample : spawns_well (sample_env []) nth_id.
Proof.
  assert (forall p spec n, delivers (nth_id n)
    (if decide (cs_name spec ∈ []) then mkTurn [] (10 * Z.of_nat n) 0 (inr (JStr "spawn failed"))
     else mkTurn [Reg.op_register (sample_agent (nth_id n) (Some p) created)] (10 * Z.of_nat n) 0 (inl (nth_id n)))) as Hd.
  { intros p spec n. rewrite decide_False by set_solver. constructor; [|done]. eexists. by split_and!. }
  constructor; [apply quiet_sample| |intros n p spec; exact (Hd p spec n)|].
  2: { intros n p [|spec specs]; [exact (Hd p (mkChildSpec EmptyString permanent None None None) n)|exact (Hd p spec n)]. }
  intros m n H%(f_equal String.length). by rewrite !nth_id_length in H.
Qed.

