(* ===== verification/RollingWindow.v ===== *)
(** * Rolling windows

    [kernel/engine-reconcile/src/rolling-window.ts]: the circular buffer of
    timestamps behind the governance controller's error rate.  The buffer, its
    cursor and fill count are modelled as the code has them; the proof relates
    them to the list of the latest recorded times. *)

From S2P Require Import Prelude.
From Stdlib Require Import QArith Qminmax.

Local Open Scope list_scope.
Local Open Scope nat_scope.

Definition DEFAULT_MAX_ENTRIES : nat := 1000.

Record RollingWindow : Type := mkRollingWindow {
  rw_windowMs : Z;
  rw_capacity : nat;
  rw_buffer : list Z;
  rw_cursor : nat;
  rw_filled : nat
}.

Definition createRollingWindow (windowMs : Z) (maxEntries : option nat) : RollingWindow :=
  let capacity := default DEFAULT_MAX_ENTRIES maxEntries in
  mkRollingWindow windowMs capacity (replicate capacity 0%Z) 0 0.

Definition record (timestamp : Z) (w : RollingWindow) : RollingWindow :=
  mkRollingWindow (rw_windowMs w) (rw_capacity w)
    (<[rw_cursor w := timestamp]> (rw_buffer w))
    ((rw_cursor w + 1) mod rw_capacity w)
    (if rw_filled w <? rw_capacity w then S (rw_filled w) else rw_filled w).

(** [for (let i = 0; i < filled; i++) …] from [i] on, with the iterations left. *)
Fixpoint count_loop (w : RollingWindow) (cutoff : Z) (n i result : nat) : nat :=
  match n with
  | O => result
  | S n =>
      let idx := (rw_cursor w + rw_capacity w - 1 - i) mod rw_capacity w in
      match rw_buffer w !! idx with
      | None => result
      | Some ts => if (ts <? cutoff)%Z then result else count_loop w cutoff n (S i) (S result)
      end
  end.

Definition count (now : Z) (w : RollingWindow) : nat :=
  count_loop w (now - rw_windowMs w) (rw_filled w) 0 0.

Definition rate (total now : Z) (w : RollingWindow) : Q :=
  if (total <=? 0)%Z then 0%Q
  else Qmin 1 (inject_Z (Z.of_nat (count now w)) / inject_Z total).

Definition clear (w : RollingWindow) : RollingWindow :=
  mkRollingWindow (rw_windowMs w) (rw_capacity w) (rw_buffer w) 0 0.

(** ** The list a window stands for, newest first *)

Definition entry (w : RollingWindow) (i : nat) : option Z :=
  rw_buffer w !! ((rw_cursor w + rw_capacity w - 1 - i) mod rw_capacity w).

Record window_of (l : list Z) (w : RollingWindow) : Prop := {
  wo_size : length (rw_buffer w) = rw_capacity w;
  wo_positive : 0 < rw_capacity w;
  wo_cursor : rw_cursor w < rw_capacity w;
  wo_filled : rw_filled w = length l;
  wo_bounded : length l <= rw_capacity w;
  wo_entries : forall i, i < length l -> entry w i = l !! i
}.

Lemma window_create windowMs maxEntries :
  0 < default DEFAULT_MAX_ENTRIES maxEntries -> window_of [] (createRollingWindow windowMs maxEntries).
Proof. intros Hc. constructor; simpl; rewrite ?length_replicate; try done; lia. Qed.

Lemma window_clear l w : window_of l w -> window_of [] (clear w).
Proof. intros [? ? ? ? ? ?]. constructor; simpl; try lia; done. Qed.

(** The cell before the cursor is the last written. *)
Lemma slot_shift cur cap i :
  0 < cap -> cur < cap -> S i < cap -> ((cur + 1) mod cap + cap - 1 - S i) mod cap = (cur + cap - 1 - i) mod cap.
Proof.
  intros Hc Hcur Hi. destruct (decide (cur + 1 = cap)) as [E|E].
  - rewrite E, Nat.Div0.mod_same, (Nat.mod_small (0 + cap - 1 - S i)) by lia.
    replace (cur + cap - 1 - i) with (cap - 1 - S i + 1 * cap) by lia.
    rewrite Nat.Div0.mod_add, Nat.mod_small; lia.
  - rewrite (Nat.mod_small (cur + 1)) by lia. f_equal. lia.
Qed.

Lemma slot_newest cur cap : 0 < cap -> cur < cap -> ((cur + 1) mod cap + cap - 1 - 0) mod cap = cur.
Proof.
  intros Hc Hcur. destruct (decide (cur + 1 = cap)) as [E|E].
  - rewrite E, Nat.Div0.mod_same, Nat.mod_small; lia.
  - rewrite (Nat.mod_small (cur + 1)) by lia.
    replace (cur + 1 + cap - 1 - 0) with (cur + 1 * cap) by lia.
    rewrite Nat.Div0.mod_add, Nat.mod_small; lia.
Qed.

Lemma slot_other cur cap i :
  0 < cap -> cur < cap -> i < cap - 1 -> (cur + cap - 1 - i) mod cap <> cur.
Proof.
  intros Hc Hcur Hi. destruct (decide (cur + cap - 1 - i < cap)) as [E|E].
  - rewrite Nat.mod_small by lia. lia.
  - replace (cur + cap - 1 - i) with (cur - 1 - i + 1 * cap) by lia.
    rewrite Nat.Div0.mod_add, Nat.mod_small; lia.
Qed.

Lemma window_record ts l w : window_of l w -> window_of (take (rw_capacity w) (ts :: l)) (record ts w).
Proof.
  intros [Hs Hp Hc Hf Hb He]. assert (length (take (rw_capacity w) (ts :: l)) =
    if rw_filled w <? rw_capacity w then S (rw_filled w) else rw_filled w) as Hlen.
  { rewrite length_take. simpl. rewrite Hf. destruct (Nat.ltb_spec (length l) (rw_capacity w)); lia. }
  constructor; simpl.
  - by rewrite length_insert.
  - done.
  - apply Nat.mod_upper_bound. lia.
  - by rewrite Hlen.
  - rewrite length_take. lia.
  - intros i Hi. unfold entry. simpl. rewrite length_take in Hi. simpl in Hi.
    rewrite lookup_take_lt by lia. destruct i as [|i].
    + rewrite slot_newest by done. apply list_lookup_insert_eq. lia.
    + rewrite slot_shift by lia. rewrite list_lookup_insert_ne by (apply not_eq_sym, slot_other; lia).
      apply He. lia.
Qed.

(** The longest run of newest entries that are not too old. *)
Fixpoint recent (cutoff : Z) (l : list Z) : list Z :=
  match l with
  | [] => []
  | ts :: l => if (ts <? cutoff)%Z then [] else ts :: recent cutoff l
  end.

Lemma count_loop_recent w cutoff l : window_of l w -> forall n i result,
  n + i = length l ->
  count_loop w cutoff n i result = result + length (recent cutoff (drop i l)).
Proof.
  intros Hw n. induction n as [|n IH]; intros i result Hi.
  { rewrite drop_ge by lia. simpl. lia. }
  destruct (lookup_lt_is_Some_2 l i) as [ts Hts]; [lia|].
  pose proof (wo_entries _ _ Hw i ltac:(lia)) as He. unfold entry in He.
  cbn [count_loop]. cbv zeta. rewrite He, Hts, (drop_S _ _ _ Hts). cbn [recent].
  destruct (ts <? cutoff)%Z; [simpl; lia|]. rewrite IH by lia. simpl. lia.
Qed.

Lemma count_recent now w l : window_of l w -> count now w = length (recent (now - rw_windowMs w) l).
Proof.
  intros Hw. unfold count. rewrite (count_loop_recent _ _ _ Hw); [by rewrite drop_0|].
  rewrite (wo_filled _ _ Hw). lia.
Qed.

(** When times did not run backwards, the run is everything in the window. *)
Lemma recent_filter cutoff (l : list Z) :
  StronglySorted Z.ge l -> recent cutoff l = filter (fun ts => (cutoff <= ts)%Z) l.
Proof.
  induction 1 as [|ts l Hs IH Hge]; [done|]. cbn [recent]. rewrite filter_cons.
  destruct (Z.ltb_spec ts cutoff).
  - rewrite decide_False by lia. symmetry. clear IH Hs.
    induction l as [|x l IH]; [done|]. apply Forall_cons in Hge as [Hx Hge].
    rewrite filter_cons_False by lia. auto.
  - rewrite decide_True by lia. by rewrite IH.
Qed.

(** ** Runs *)

Inductive WindowOp : Type := wop_record (timestamp : Z) | wop_clear.

Definition window_step (w : RollingWindow) (op : WindowOp) : RollingWindow :=
  match op with wop_record ts => record ts w | wop_clear => clear w end.

(** The times recorded since the last clear, newest first. *)
Definition recorded_step (l : list Z) (op : WindowOp) : list Z :=
  match op with wop_record ts => ts :: l | wop_clear => [] end.

Definition recorded (ops : list WindowOp) : list Z := foldl recorded_step [] ops.

Lemma window_config w op :
  rw_windowMs (window_step w op) = rw_windowMs w /\ rw_capacity (window_step w op) = rw_capacity w.
Proof. by destruct op. Qed.

Lemma window_run ops : forall w l,
  window_of (take (rw_capacity w) l) w ->
  let w' := foldl window_step w ops in
  rw_windowMs w' = rw_windowMs w /\ rw_capacity w' = rw_capacity w /\
  window_of (take (rw_capacity w) (foldl recorded_step l ops)) w'.
Proof.
  induction ops as [|op ops IH]; intros w l Hw; [done|]. simpl.
  destruct (window_config w op) as [E1 E2]. rewrite <-E1, <-E2. apply IH. rewrite E2.
  destruct op as [ts|]; simpl.
  - apply (window_record ts) in Hw.
    assert (take (rw_capacity w) (ts :: take (rw_capacity w) l) = take (rw_capacity w) (ts :: l)) as <-; [|done].
    destruct (rw_capacity w); [done|]. simpl. f_equal. rewrite take_take. f_equal. lia.
  - rewrite take_nil. by apply (window_clear (take (rw_capacity w) l)).
Qed.

Lemma StronglySorted_take {A} (R : relation A) n l : StronglySorted R l -> StronglySorted R (take n l).
Proof. rewrite <-(take_drop n l) at 1. apply StronglySorted_app_1_l. Qed.

Lemma window_count windowMs maxEntries ops now :
  let capacity := default DEFAULT_MAX_ENTRIES maxEntries in
  0 < capacity -> StronglySorted Z.ge (recorded ops) ->
  count now (foldl window_step (createRollingWindow windowMs maxEntries) ops) =
  length (filter (fun ts => (now - windowMs <= ts)%Z) (take capacity (recorded ops))).
Proof.
  intros capacity Hc Hs. set (w0 := createRollingWindow windowMs maxEntries).
  destruct (window_run ops w0 []) as (E1 & E2 & Hw).
  { rewrite take_nil. by apply window_create. }
  rewrite (count_recent _ _ _ Hw), E1. rewrite recent_filter by (by apply StronglySorted_take). done.
Qed.

(** The capacity does not show as long as no more events than that lie in the window. *)
Lemma window_count_exact windowMs maxEntries ops now :
  let capacity := default DEFAULT_MAX_ENTRIES maxEntries in
  0 < capacity -> StronglySorted Z.ge (recorded ops) ->
  length (filter (fun ts => (now - windowMs <= ts)%Z) (recorded ops)) <= capacity ->
  count now (foldl window_step (createRollingWindow windowMs maxEntries) ops) =
  length (filter (fun ts => (now - windowMs <= ts)%Z) (recorded ops)).
Proof.
  intros capacity Hc Hs Hlen. rewrite window_count by done. fold capacity.
  rewrite <-(take_drop capacity (recorded ops)) at 2. rewrite filter_app, length_app.
  assert (filter (fun ts => (now - windowMs <= ts)%Z) (drop capacity (recorded ops)) = []) as ->; [|simpl; lia].
  destruct (filter _ (drop capacity _)) as [|x xs] eqn:E; [done|]. exfalso.
  assert (x ∈ filter (fun ts => (now - windowMs <= ts)%Z) (drop capacity (recorded ops))) as Hx by (rewrite E; set_solver).
  apply list_elem_of_filter in Hx as [Hx Hin].
  assert (filter (fun ts => (now - windowMs <= ts)%Z) (take capacity (recorded ops)) = take capacity (recorded ops)) as Hall.
  { apply filter_all. intros y Hy.
    rewrite <-(take_drop capacity (recorded ops)) in Hs.
    pose proof (StronglySorted_app_1_elem_of _ _ _ y x Hs Hy Hin). lia. }
  rewrite <-(take_drop capacity (recorded ops)) in Hlen at 1. rewrite filter_app, length_app, Hall, E in Hlen.
  rewrite length_take in Hlen. simpl in Hlen.
  assert (drop capacity (recorded ops) <> []) as Hne by (intros Hn; rewrite Hn in Hin; by apply elem_of_nil in Hin).
  destruct (decide (length (recorded ops) <= capacity)) as [|]; [by rewrite drop_ge in Hne|lia].
Qed.
