(* ===== verification/Governance.v ===== *)
(** * The governance controller

    [kernel/engine-reconcile/src/governance-controller.ts],
    [governance-types.ts], [governance-extension.ts],
    [governance-reconciler.ts] and the declarations of
    [kernel/core/src/governance.ts]: sensors with limits, the events that move
    them, the guard that drives the controller from an agent's turns, tool and
    model calls, and the reconciler that shuts down an agent whose violations
    persist.

    Numbers that adapters supply may be anything a JavaScript number can be;
    finite ones are rationals, without rounding.  Variables contributed by other
    packages are closures of those packages: what one answers is asked of
    [probe] at each query. *)

From S2P Require Import Prelude JsMap Runner RollingWindow.
From Stdlib Require Import QArith Qminmax.

Local Open Scope string_scope.
Local Open Scope list_scope.
Local Open Scope Z_scope.

(** ** Numbers *)

Inductive jsnum : Type := Num (q : Q) | NaN | PosInf | NegInf.

Definition is_finite (x : jsnum) : bool := match x with Num _ => true | _ => false end.

Definition num_add (x y : jsnum) : jsnum :=
  match x, y with
  | NaN, _ | _, NaN => NaN
  | Num p, Num q => Num (p + q)
  | PosInf, NegInf | NegInf, PosInf => NaN
  | PosInf, _ | _, PosInf => PosInf
  | NegInf, _ | _, NegInf => NegInf
  end.

Definition num_sign (x : jsnum) : comparison :=
  match x with Num q => (q ?= 0)%Q | PosInf => Gt | _ => Lt end.

Definition num_mul (x y : jsnum) : jsnum :=
  match x, y with
  | NaN, _ | _, NaN => NaN
  | Num p, Num q => Num (p * q)
  | _, _ =>
      match num_sign x, num_sign y with
      | Eq, _ | _, Eq => NaN
      | Gt, Gt | Lt, Lt => PosInf
      | _, _ => NegInf
      end
  end.

(** [x <= y]; false as soon as one of them is NaN. *)
Definition num_le (x y : jsnum) : bool :=
  match x, y with
  | NaN, _ | _, NaN => false
  | Num p, Num q => Qle_bool p q
  | NegInf, _ | _, PosInf => true
  | _, _ => false
  end.

Definition num_lt (x y : jsnum) : bool :=
  match x, y with
  | NaN, _ | _, NaN => false
  | _, _ => negb (num_le y x)
  end.

(** [Math.min(1, current / limit)] for a positive limit. *)
Definition fraction (current limit : jsnum) : jsnum :=
  match current, limit with
  | Num c, Num l => Num (Qmin 1 (c / l))
  | Num _, PosInf => Num 0
  | PosInf, Num _ => Num 1
  | NegInf, Num _ => NegInf
  | _, _ => NaN
  end.

Definition num_of_Z (n : Z) : jsnum := Num (inject_Z n).
Definition num_of_nat (n : nat) : jsnum := num_of_Z (Z.of_nat n).

(** ** Configuration *)

Record SpawnLimits : Type := mkSpawnLimits { sl_maxDepth : jsnum; sl_maxFanOut : jsnum }.
Record IterationLimits : Type := mkIterationLimits {
  il_maxTurns : jsnum; il_maxTokens : jsnum; il_maxDurationMs : jsnum
}.
Record ErrorRateLimits : Type := mkErrorRateLimits {
  el_windowMs : Z; el_threshold : jsnum; el_minSampleSize : option jsnum
}.
Record CostLimits : Type := mkCostLimits {
  cl_maxCostUsd : jsnum; cl_costPerInputToken : jsnum; cl_costPerOutputToken : jsnum
}.

Record GovernanceConfig : Type := mkGovernanceConfig {
  gc_spawn : SpawnLimits;
  gc_iteration : IterationLimits;
  gc_errorRate : ErrorRateLimits;
  gc_cost : CostLimits
}.

Definition DEFAULT_GOVERNANCE_CONFIG : GovernanceConfig :=
  mkGovernanceConfig (mkSpawnLimits (Num 3) (Num 5))
    (mkIterationLimits (Num 25) (Num 100000) (Num 300000))
    (mkErrorRateLimits 60000 (Num (1 # 2)) (Some (Num 3)))
    (mkCostLimits (Num 0) (Num 0) (Num 0)).

Record GovernanceOverrides : Type := mkGovernanceOverrides {
  go_spawn : option SpawnLimits;
  go_iteration : option IterationLimits;
  go_errorRate : option ErrorRateLimits;
  go_cost : option CostLimits
}.

(** An override names all fields of its part but the optional sample size. *)
Definition merge_errorRate (o : ErrorRateLimits) : ErrorRateLimits :=
  mkErrorRateLimits (el_windowMs o) (el_threshold o)
    match el_minSampleSize o with
    | Some n => Some n
    | None => el_minSampleSize (gc_errorRate DEFAULT_GOVERNANCE_CONFIG)
    end.

Definition createDefaultGovernanceConfig (overrides : option GovernanceOverrides) : GovernanceConfig :=
  match overrides with
  | None => DEFAULT_GOVERNANCE_CONFIG
  | Some o =>
      mkGovernanceConfig
        (default (gc_spawn DEFAULT_GOVERNANCE_CONFIG) (go_spawn o))
        (default (gc_iteration DEFAULT_GOVERNANCE_CONFIG) (go_iteration o))
        (match go_errorRate o with
         | Some e => merge_errorRate e
         | None => gc_errorRate DEFAULT_GOVERNANCE_CONFIG
         end)
        (default (gc_cost DEFAULT_GOVERNANCE_CONFIG) (go_cost o))
  end.

(** ** Variables and checks *)

Inductive Builtin : Type :=
  | b_spawnDepth | b_spawnCount | b_turnCount | b_tokenUsage | b_duration | b_errorRate | b_costUsd.

Definition builtin_name (b : Builtin) : string :=
  match b with
  | b_spawnDepth => "spawn_depth" | b_spawnCount => "spawn_count" | b_turnCount => "turn_count"
  | b_tokenUsage => "token_usage" | b_duration => "duration_ms" | b_errorRate => "error_rate"
  | b_costUsd => "cost_usd"
  end.

Definition builtins : list Builtin :=
  [b_spawnDepth; b_spawnCount; b_turnCount; b_tokenUsage; b_duration; b_errorRate; b_costUsd].

(** A variable: one of the controller's own, or a contributed one, known by a
    number and with its static fields. *)
Inductive GovernanceVariable : Type :=
  | V_builtin (b : Builtin)
  | V_contributed (id : nat) (name : string) (limit : jsnum).

(** The numbers a reason is worded with. *)
Inductive Reason : Type :=
  | Unknown_variable
  | Exceeds (current limit : jsnum)
  | Reached (current limit : jsnum)
  | Contributed (text : string).

Inductive GovernanceCheck : Type :=
  | C_ok
  | C_fail (variable : string) (reason : Reason) (retryable : bool).

Definition check_ok (c : GovernanceCheck) : bool := match c with C_ok => true | _ => false end.

Record Probe : Type := mkProbe { pr_read : jsnum; pr_check : GovernanceCheck }.

Record Controller : Type := mkController {
  ct_config : GovernanceConfig;
  ct_agentDepth : jsnum;
  ct_variables : list (string * GovernanceVariable);
  ct_sealed : bool;
  ct_turnCount : Q;
  ct_tokenUsage : jsnum;
  ct_spawnCount : Z;
  ct_startedAt : Q;
  ct_costUsd : jsnum;
  ct_errorWindow : RollingWindow;
  ct_totalCallsWindow : RollingWindow
}.

Definition createGovernanceController (config : option GovernanceOverrides) (agentDepth : option jsnum)
    (now : Z) : Controller :=
  let resolved := createDefaultGovernanceConfig config in
  let window := createRollingWindow (el_windowMs (gc_errorRate resolved)) None in
  mkController resolved (default (Num 0) agentDepth)
    ((fun b => (builtin_name b, V_builtin b)) <$> builtins) false
    0 (Num 0) 0 (inject_Z now) (Num 0) window window.

Definition set_turns (turns startedAt : Q) (s : Controller) : Controller :=
  mkController (ct_config s) (ct_agentDepth s) (ct_variables s) (ct_sealed s) turns (ct_tokenUsage s)
    (ct_spawnCount s) startedAt (ct_costUsd s) (ct_errorWindow s) (ct_totalCallsWindow s).
Definition set_spend (tokens cost : jsnum) (s : Controller) : Controller :=
  mkController (ct_config s) (ct_agentDepth s) (ct_variables s) (ct_sealed s) (ct_turnCount s) tokens
    (ct_spawnCount s) (ct_startedAt s) cost (ct_errorWindow s) (ct_totalCallsWindow s).
Definition set_spawns (n : Z) (s : Controller) : Controller :=
  mkController (ct_config s) (ct_agentDepth s) (ct_variables s) (ct_sealed s) (ct_turnCount s)
    (ct_tokenUsage s) n (ct_startedAt s) (ct_costUsd s) (ct_errorWindow s) (ct_totalCallsWindow s).
Definition set_windows (errors total : RollingWindow) (s : Controller) : Controller :=
  mkController (ct_config s) (ct_agentDepth s) (ct_variables s) (ct_sealed s) (ct_turnCount s)
    (ct_tokenUsage s) (ct_spawnCount s) (ct_startedAt s) (ct_costUsd s) errors total.
Definition set_variables (vs : list (string * GovernanceVariable)) (sealed : bool) (s : Controller) : Controller :=
  mkController (ct_config s) (ct_agentDepth s) vs sealed (ct_turnCount s) (ct_tokenUsage s)
    (ct_spawnCount s) (ct_startedAt s) (ct_costUsd s) (ct_errorWindow s) (ct_totalCallsWindow s).

(** Errors per call in the window at [now]; no calls make it 0. *)
Definition error_rate (now : Z) (s : Controller) : jsnum :=
  let windowCalls := count now (ct_totalCallsWindow s) in
  if decide (0 < windowCalls)%nat
  then Num (inject_Z (Z.of_nat (count now (ct_errorWindow s))) / inject_Z (Z.of_nat windowCalls))
  else Num 0.

Definition builtin_read (now : Z) (s : Controller) (b : Builtin) : jsnum :=
  match b with
  | b_spawnDepth => ct_agentDepth s
  | b_spawnCount => num_of_Z (ct_spawnCount s)
  | b_turnCount => Num (ct_turnCount s)
  | b_tokenUsage => ct_tokenUsage s
  | b_duration => Num (inject_Z now - ct_startedAt s)
  | b_errorRate => error_rate now s
  | b_costUsd => ct_costUsd s
  end.

Definition builtin_limit (s : Controller) (b : Builtin) : jsnum :=
  match b with
  | b_spawnDepth => sl_maxDepth (gc_spawn (ct_config s))
  | b_spawnCount => sl_maxFanOut (gc_spawn (ct_config s))
  | b_turnCount => il_maxTurns (gc_iteration (ct_config s))
  | b_tokenUsage => il_maxTokens (gc_iteration (ct_config s))
  | b_duration => il_maxDurationMs (gc_iteration (ct_config s))
  | b_errorRate => el_threshold (gc_errorRate (ct_config s))
  | b_costUsd => cl_maxCostUsd (gc_cost (ct_config s))
  end.

Definition builtin_retryable (b : Builtin) : bool :=
  match b with b_spawnCount | b_errorRate => true | _ => false end.

(** [current >= limit] *)
Definition reached (now : Z) (s : Controller) (b : Builtin) : GovernanceCheck :=
  let current := builtin_read now s b in
  let limit := builtin_limit s b in
  if num_le limit current then C_fail (builtin_name b) (Reached current limit) (builtin_retryable b)
  else C_ok.

Definition builtin_check (now : Z) (s : Controller) (b : Builtin) : GovernanceCheck :=
  match b with
  | b_spawnDepth =>
      if num_lt (builtin_limit s b) (ct_agentDepth s)
      then C_fail (builtin_name b) (Exceeds (ct_agentDepth s) (builtin_limit s b)) (builtin_retryable b)
      else C_ok
  | b_errorRate =>
      let minSamples := default (Num 3) (el_minSampleSize (gc_errorRate (ct_config s))) in
      if num_lt (num_of_nat (count now (ct_totalCallsWindow s))) minSamples then C_ok
      else
        let rate := match count now (ct_totalCallsWindow s), count now (ct_errorWindow s) with
                    | O, O => NaN
                    | O, S _ => PosInf
                    | calls, errors => Num (inject_Z (Z.of_nat errors) / inject_Z (Z.of_nat calls))
                    end in
        if num_le (builtin_limit s b) rate
        then C_fail (builtin_name b) (Reached rate (builtin_limit s b)) (builtin_retryable b)
        else C_ok
  | b_costUsd => if num_le (builtin_limit s b) (Num 0) then C_ok else reached now s b
  | b_spawnCount | b_turnCount | b_tokenUsage | b_duration => reached now s b
  end.

Section Queries.

Context (probe : nat -> Probe) (now : Z) (s : Controller).

Definition v_name (v : GovernanceVariable) : string :=
  match v with V_builtin b => builtin_name b | V_contributed _ name _ => name end.
Definition v_read (v : GovernanceVariable) : jsnum :=
  match v with V_builtin b => builtin_read now s b | V_contributed id _ _ => pr_read (probe id) end.
Definition v_limit (v : GovernanceVariable) : jsnum :=
  match v with V_builtin b => builtin_limit s b | V_contributed _ _ limit => limit end.
Definition v_check (v : GovernanceVariable) : GovernanceCheck :=
  match v with V_builtin b => builtin_check now s b | V_contributed id _ _ => pr_check (probe id) end.

Definition check (variable : string) : GovernanceCheck :=
  match m_get variable (ct_variables s) with
  | None => C_fail variable Unknown_variable false
  | Some v => v_check v
  end.

Fixpoint check_first (vs : list GovernanceVariable) : GovernanceCheck :=
  match vs with
  | [] => C_ok
  | v :: vs => match v_check v with C_ok => check_first vs | c => c end
  end.

Definition checkAll : GovernanceCheck := check_first (m_values (ct_variables s)).

Record SensorReading : Type := mkSensorReading {
  sr_name : string; sr_current : jsnum; sr_limit : jsnum; sr_utilization : jsnum
}.

Definition computeReading (v : GovernanceVariable) : SensorReading :=
  let current := v_read v in
  mkSensorReading (v_name v) current (v_limit v)
    (if num_lt (Num 0) (v_limit v) then fraction current (v_limit v) else Num 0).

Record GovernanceSnapshot : Type := mkSnapshot {
  gs_timestamp : Z;
  gs_readings : list SensorReading;
  gs_healthy : bool;
  gs_violations : list string
}.

Definition violation (v : GovernanceVariable) : option string :=
  match v_check v with C_ok => None | C_fail variable _ _ => Some variable end.

Definition snapshot : GovernanceSnapshot :=
  let vs := m_values (ct_variables s) in
  let violations := omap violation vs in
  mkSnapshot now (computeReading <$> vs) (bool_decide (violations = [])) violations.

Definition reading (variable : string) : option SensorReading :=
  computeReading <$> m_get variable (ct_variables s).

End Queries.

(** [register] throws on a sealed controller. *)
Definition register (v : GovernanceVariable) (s : Controller) : Result Controller KoiError :=
  if ct_sealed s then
    Err (koiError VALIDATION ("Cannot register variable " +:+ quoted (v_name v) +:+ " — controller is sealed") false)
  else Ok (set_variables (m_set (v_name v) v (ct_variables s)) false s).

Definition seal (s : Controller) : Controller := set_variables (ct_variables s) true s.

(** ** Events *)

Inductive GovernanceEvent : Type :=
  | ge_turn
  | ge_turn_refund (count : jsnum)
  | ge_spawn (depth : jsnum)
  | ge_spawn_release
  | ge_forge
  | ge_forge_release
  | ge_token_usage (count : jsnum) (inputTokens outputTokens costUsd : option jsnum)
  | ge_tool_error (toolName : string)
  | ge_tool_success (toolName : string)
  | ge_iteration_reset
  | ge_run_reset (boundaryTimestamp : option jsnum)
  | ge_session_reset (boundaryTimestamp : option jsnum).

(** What a token event adds to the cost. *)
Definition cost_added (config : GovernanceConfig) (inputTokens outputTokens costUsd : option jsnum) : jsnum :=
  let fallback :=
    match inputTokens, outputTokens with
    | Some i, Some o =>
        num_add (num_mul i (cl_costPerInputToken (gc_cost config)))
                (num_mul o (cl_costPerOutputToken (gc_cost config)))
    | _, _ => Num 0
    end in
  match costUsd with
  | Some c => if is_finite c && num_le (Num 0) c then c else fallback
  | None => fallback
  end.

(** [Number.isFinite(ts) ? Math.min(ts, now) : now], with an absent timestamp read as [now]. *)
Definition reset_start (boundaryTimestamp : option jsnum) (now : Z) : Q :=
  match boundaryTimestamp with
  | Some (Num ts) => Qmin ts (inject_Z now)
  | _ => inject_Z now
  end.

Definition record_event (now : Z) (event : GovernanceEvent) (s : Controller) : Controller :=
  match event with
  | ge_turn => set_turns (ct_turnCount s + 1)%Q (ct_startedAt s) s
  | ge_turn_refund n =>
      let refund := match n with Num q => Qmax 0 q | _ => 0%Q end in
      set_turns (Qmax 0 (ct_turnCount s - refund)) (ct_startedAt s) s
  | ge_spawn _ => set_spawns (ct_spawnCount s + 1) s
  | ge_spawn_release => set_spawns (Z.max 0 (ct_spawnCount s - 1)) s
  | ge_forge | ge_forge_release => s
  | ge_token_usage n i o c =>
      set_spend (num_add (ct_tokenUsage s) n) (num_add (ct_costUsd s) (cost_added (ct_config s) i o c)) s
  | ge_tool_error _ =>
      set_windows (record now (ct_errorWindow s)) (record now (ct_totalCallsWindow s)) s
  | ge_tool_success _ => set_windows (ct_errorWindow s) (record now (ct_totalCallsWindow s)) s
  | ge_iteration_reset => set_turns 0 (inject_Z now) s
  | ge_run_reset ts => set_turns 0 (reset_start ts now) s
  | ge_session_reset ts =>
      set_windows (clear (ct_errorWindow s)) (clear (ct_totalCallsWindow s))
        (set_turns 0 (reset_start ts now) s)
  end.

(** ** The guard *)

Definition DEFAULT_SPAWN_TOOL_IDS : list string := ["forge_agent"; "Spawn"].

Definition sanitizeTokenCount (value : option jsnum) : option jsnum :=
  match value with
  | None => None
  | Some v => if negb (is_finite v) || num_lt v (Num 0) then None else Some v
  end.

(** What a refused call throws. *)
Record Refusal : Type := mkRefusal { rf_code : KoiErrorCode; rf_reason : Reason; rf_retryable : bool; rf_variable : string }.

Definition onBeforeTurn (probe : nat -> Probe) (now : Z) (s : Controller) : option Refusal * Controller :=
  let s := record_event now ge_turn s in
  match checkAll probe now s with
  | C_ok => (None, s)
  | C_fail variable reason retryable =>
      (Some (mkRefusal (if retryable then RATE_LIMIT else TIMEOUT) reason retryable variable), s)
  end.

(** The checks before a tool call; [PERMISSION] errors are not retryable by default. *)
Definition checkSpawn (probe : nat -> Probe) (now : Z) (toolId : string) (s : Controller) : option Refusal :=
  if s_has toolId DEFAULT_SPAWN_TOOL_IDS then
    match check probe now s "spawn_depth" with
    | C_fail variable reason _ => Some (mkRefusal PERMISSION reason false variable)
    | C_ok =>
        match check probe now s "spawn_count" with
        | C_fail variable reason _ => Some (mkRefusal RATE_LIMIT reason true variable)
        | C_ok => None
        end
    end
  else None.

(** The rest of the call, when the tool answers or throws at [now]. *)
Definition afterToolCall (now : Z) (toolId : string) (succeeded : bool) (s : Controller) : Controller :=
  record_event now (if succeeded then ge_tool_success toolId else ge_tool_error toolId) s.

Record Usage : Type := mkUsage { us_inputTokens : option jsnum; us_outputTokens : option jsnum }.

Definition record_usage (now : Z) (input output : jsnum) (s : Controller) : Controller :=
  let total := num_add input output in
  if num_lt (Num 0) total
  then record_event now (ge_token_usage total (Some input) (Some output) None) s else s.

Definition wrapModelCall (now : Z) (usage : option Usage) (s : Controller) : Controller :=
  match usage with
  | None => s
  | Some u =>
      record_usage now (default (Num 0) (sanitizeTokenCount (us_inputTokens u)))
        (default (Num 0) (sanitizeTokenCount (us_outputTokens u))) s
  end.

(** A stream: usage increments, a final response with or without usage, and
    chunks the guard passes on. *)
Inductive Chunk : Type :=
  | ch_usage (u : Usage)
  | ch_done (u : option Usage)
  | ch_other.

Definition stream_chunk (acc : jsnum * jsnum) (c : Chunk) : jsnum * jsnum :=
  match c with
  | ch_usage u =>
      (match sanitizeTokenCount (us_inputTokens u) with Some i => num_add acc.1 i | None => acc.1 end,
       match sanitizeTokenCount (us_outputTokens u) with Some o => num_add acc.2 o | None => acc.2 end)
  | ch_done (Some u) =>
      (default acc.1 (sanitizeTokenCount (us_inputTokens u)),
       default acc.2 (sanitizeTokenCount (us_outputTokens u)))
  | _ => acc
  end.

(** However the stream ends, its [finally] sees the chunks that came. *)
Definition wrapModelStream (now : Z) (chunks : list Chunk) (s : Controller) : Controller :=
  let acc := foldl stream_chunk (Num 0, Num 0) chunks in record_usage now acc.1 acc.2 s.

(** [guards]: contributed variables are registered and the builder sealed; a
    sealed builder is left alone. *)
Definition register_all (vs : list GovernanceVariable) (s : Controller) : Result Controller KoiError :=
  foldl (fun acc v => match acc with Ok s => register v s | Err e => Err e end) (Ok s) vs.

Definition guards (contributed : list GovernanceVariable) (s : Controller) : Result (Controller * bool) KoiError :=
  if ct_sealed s then Ok (s, false)
  else match register_all contributed s with Ok s => Ok (seal s, true) | Err e => Err e end.

(** ** The reconciler *)

Definition MAX_CONSECUTIVE_VIOLATIONS : Z := 5.
Definition RECHECK_MS : Z := 5000.

(** [found] is the agent's controller's snapshot, if there are an agent and a controller. *)
Definition reconcile (targetAgentId : string) (found : option GovernanceSnapshot)
    (violationCounts : list (string * Z)) : ReconcileResult * list (string * Z) :=
  match found with
  | None => (R_converged, violationCounts)
  | Some snap =>
      if gs_healthy snap then (R_converged, m_delete targetAgentId violationCounts)
      else
        let count := default 0 (m_get targetAgentId violationCounts) + 1 in
        let violationCounts := m_set targetAgentId count violationCounts in
        if MAX_CONSECUTIVE_VIOLATIONS <=? count
        then (R_terminal ("Governance violation persisted: " +:+ String.concat ", " (gs_violations snap)),
              violationCounts)
        else (R_recheck RECHECK_MS, violationCounts)
  end.
