(* ===== verification/GovernanceSpec.v ===== *)
(** * What governance promises

    Spending under the guard only grows and a reached cap stays reached through
    every reset; the error-rate sensor measures the calls of its window as long
    as they fit; the three ways of asking agree; an agent is shut down after five
    bad snapshots in a row.  And what the controller does with numbers and
    variables nobody checked. *)

From S2P Require Import Prelude JsMap Runner RollingWindow Governance.
From Stdlib Require Import QArith Qminmax Lqa.

Local Open Scope string_scope.
Local Open Scope list_scope.
Local Open Scope Z_scope.

(** ** The guard's activity *)

Inductive GuardOp : Type :=
  | gu_turn
  | gu_model (usage : option Usage)
  | gu_stream (chunks : list Chunk)
  | gu_tool (toolId : string) (succeeded : bool)
  | gu_event (event : GovernanceEvent).

(** Events others than the guard record: everything but token usage. *)
Definition no_usage (op : GuardOp) : Prop :=
  match op with gu_event (ge_token_usage _ _ _ _) => False | _ => True end.

Definition guard_step (s : Controller) (p : Z * GuardOp) : Controller :=
  match p.2 with
  | gu_turn => record_event p.1 ge_turn s
  | gu_model usage => wrapModelCall p.1 usage s
  | gu_stream chunks => wrapModelStream p.1 chunks s
  | gu_tool toolId succeeded => afterToolCall p.1 toolId succeeded s
  | gu_event e => record_event p.1 e s
  end.

Definition guard_run (s : Controller) (ops : list (Z * GuardOp)) : Controller := foldl guard_step s ops.

(** What a valid count is worth; anything else is worth nothing. *)
Definition valid (v : option jsnum) : option Q :=
  match v with Some (Num q) => if Qle_bool 0 q then Some q else None | _ => None end.

Definition plus_valid (acc : Q) (v : option jsnum) : Q :=
  match valid v with Some q => (acc + q)%Q | None => acc end.

Definition chunk_usage (acc : Q * Q) (c : Chunk) : Q * Q :=
  match c with
  | ch_usage u => (plus_valid acc.1 (us_inputTokens u), plus_valid acc.2 (us_outputTokens u))
  | ch_done (Some u) => (default acc.1 (valid (us_inputTokens u)), default acc.2 (valid (us_outputTokens u)))
  | _ => acc
  end.

(** Input and output tokens an operation is charged. *)
Definition usage_of (op : GuardOp) : Q * Q :=
  match op with
  | gu_model (Some u) => (default 0%Q (valid (us_inputTokens u)), default 0%Q (valid (us_outputTokens u)))
  | gu_stream chunks => foldl chunk_usage (0%Q, 0%Q) chunks
  | _ => (0%Q, 0%Q)
  end.

Definition price (config : GovernanceConfig) (u : Q * Q) : Q :=
  match cl_costPerInputToken (gc_cost config), cl_costPerOutputToken (gc_cost config) with
  | Num i, Num o => (u.1 * i + u.2 * o)%Q
  | _, _ => 0%Q
  end.

Definition sum_of (f : Q * Q -> Q) (ops : list (Z * GuardOp)) : Q :=
  foldl (fun acc p => (acc + f (usage_of p.2))%Q) 0%Q ops.

(** ** Sanitized numbers *)

Lemma sanitize_valid v : sanitizeTokenCount v = Num <$> valid v.
Proof.
  unfold sanitizeTokenCount, valid. destruct v as [[q| | |]|]; try done. simpl.
  unfold num_lt. simpl. by destruct (Qle_bool 0 q).
Qed.

Lemma valid_nonneg v q : valid v = Some q -> (0 <= q)%Q.
Proof.
  unfold valid. destruct v as [[x| | |]|]; try done. destruct (Qle_bool 0 x) eqn:E; [|done].
  intros [= <-]. by apply Qle_bool_iff.
Qed.

Lemma valid_default_nonneg v : (0 <= default 0%Q (valid v))%Q.
Proof. destruct (valid v) eqn:E; simpl; [by eapply valid_nonneg|lra]. Qed.

Lemma stream_accumulates chunks : forall a b,
  foldl stream_chunk (Num a, Num b) chunks =
  let u := foldl chunk_usage (a, b) chunks in (Num u.1, Num u.2).
Proof.
  induction chunks as [|c chunks IH]; intros a b; [done|].
  assert (stream_chunk (Num a, Num b) c = (Num (chunk_usage (a, b) c).1, Num (chunk_usage (a, b) c).2)) as Hc.
  { destruct c as [u|[u|]|]; simpl; rewrite ?sanitize_valid; [|by destruct (valid _), (valid _)|done|done].
    unfold plus_valid. by destruct (valid (us_inputTokens u)), (valid (us_outputTokens u)). }
  cbn [foldl]. rewrite Hc, IH. by destruct (chunk_usage (a, b) c).
Qed.

Lemma chunks_nonneg chunks : forall u, (0 <= u.1 /\ 0 <= u.2)%Q ->
  (0 <= (foldl chunk_usage u chunks).1 /\ 0 <= (foldl chunk_usage u chunks).2)%Q.
Proof.
  induction chunks as [|c chunks IH]; intros u Hu; [done|]. apply IH.
  assert (forall acc v, 0 <= acc -> 0 <= plus_valid acc v)%Q as Hp.
  { intros acc v Ha. unfold plus_valid. destruct (valid v) eqn:E; [|done]. apply valid_nonneg in E. lra. }
  assert (forall acc v, 0 <= acc -> 0 <= default acc (valid v))%Q as Hd.
  { intros acc v Ha. destruct (valid v) eqn:E; simpl; [by eapply valid_nonneg|done]. }
  destruct Hu, c as [x|[x|]|]; simpl; auto.
Qed.

Lemma usage_nonneg op : (0 <= (usage_of op).1 /\ 0 <= (usage_of op).2)%Q.
Proof.
  destruct op as [|[u|]|chunks| |]; simpl; try (split; lra).
  - split; apply valid_default_nonneg.
  - apply chunks_nonneg. simpl. lra.
Qed.

(** ** Spending *)

(** Finite, non-negative accounts, prices likewise, and the two caps in place. *)
Record solvent (t c : Q) (s : Controller) : Prop := {
  sv_tokens : exists t', ct_tokenUsage s = Num t' /\ (t' == t)%Q;
  sv_cost : exists c', ct_costUsd s = Num c' /\ (c' == c)%Q;
  sv_input : exists p, cl_costPerInputToken (gc_cost (ct_config s)) = Num p /\ (0 <= p)%Q;
  sv_output : exists p, cl_costPerOutputToken (gc_cost (ct_config s)) = Num p /\ (0 <= p)%Q
}.

Lemma solvent_ext t c t' c' s : (t == t')%Q -> (c == c')%Q -> solvent t c s -> solvent t' c' s.
Proof.
  intros Ht Hc [(x & Ex & Hx) (y & Ey & Hy) ? ?].
  constructor; [exists x; split; [done|lra]|exists y; split; [done|lra]|done|done].
Qed.

Lemma solvent_same t c s s' :
  ct_tokenUsage s' = ct_tokenUsage s -> ct_costUsd s' = ct_costUsd s -> ct_config s' = ct_config s ->
  solvent t c s -> solvent t c s'.
Proof. intros E1 E2 E3 [? ? ? ?]. constructor; by rewrite ?E1, ?E2, ?E3. Qed.

Lemma record_event_config now e s :
  ct_config (record_event now e s) = ct_config s /\ ct_variables (record_event now e s) = ct_variables s.
Proof. by destruct e. Qed.

Lemma other_event_spend now e s :
  no_usage (gu_event e) ->
  ct_tokenUsage (record_event now e s) = ct_tokenUsage s /\ ct_costUsd (record_event now e s) = ct_costUsd s.
Proof. by destruct e. Qed.

Lemma price_nonneg t c s u : solvent t c s -> (0 <= u.1 /\ 0 <= u.2)%Q -> (0 <= price (ct_config s) u)%Q.
Proof.
  intros [_ _ (i & Ei & Hi) (o & Eo & Ho)] [Hu1 Hu2]. unfold price. rewrite Ei, Eo.
  assert (0 <= u.1 * i)%Q by (by apply Qmult_le_0_compat).
  assert (0 <= u.2 * o)%Q by (by apply Qmult_le_0_compat). lra.
Qed.

Lemma record_usage_solvent now i o t c s :
  (0 <= i)%Q -> (0 <= o)%Q -> solvent t c s ->
  solvent (t + (i + o)) (c + price (ct_config s) (i, o)) (record_usage now (Num i) (Num o) s).
Proof.
  intros Hi Ho Hs. unfold record_usage. simpl. unfold num_lt. simpl.
  destruct Hs as [(t' & Et & Ht) (c' & Ec & Hc) (pi & Ei & Hpi) (po & Eo & Hpo)].
  unfold price. rewrite Ei, Eo. simpl.
  destruct (Qle_bool (i + o) 0) eqn:E; simpl.
  - apply Qle_bool_iff in E. assert (i == 0)%Q as Hi0 by lra. assert (o == 0)%Q as Ho0 by lra.
    constructor; [exists t'; split; [done|lra]| |by exists pi|by exists po].
    exists c'. split; [done|]. rewrite Hi0, Ho0. lra.
  - constructor; simpl; [| |by exists pi|by exists po].
    + rewrite Et. simpl. eexists. split; [done|]. lra.
    + rewrite Ec. simpl. eexists. split; [done|]. lra.
Qed.

Lemma record_usage_static now i o s :
  ct_config (record_usage now i o s) = ct_config s /\ ct_variables (record_usage now i o s) = ct_variables s.
Proof. unfold record_usage. by destruct (num_lt _ _). Qed.

Lemma guard_static s p : ct_config (guard_step s p) = ct_config s /\ ct_variables (guard_step s p) = ct_variables s.
Proof.
  destruct p as [now op]. unfold guard_step. simpl.
  destruct op as [|[u|]|chunks|toolId []|e]; simpl; auto using record_usage_static, record_event_config.
  unfold wrapModelStream. simpl. apply record_usage_static.
Qed.

Lemma guard_step_solvent s p t c :
  no_usage p.2 -> solvent t c s ->
  solvent (t + ((usage_of p.2).1 + (usage_of p.2).2)) (c + price (ct_config s) (usage_of p.2)) (guard_step s p).
Proof.
  destruct p as [now op]. intros Hop Hs. unfold guard_step. simpl in *.
  assert (forall s', ct_tokenUsage s' = ct_tokenUsage s -> ct_costUsd s' = ct_costUsd s -> ct_config s' = ct_config s ->
    solvent (t + (0 + 0)) (c + price (ct_config s) (0%Q, 0%Q)) s') as Hkeep.
  { intros s' E1 E2 E3. apply (solvent_same _ _ s); [done..|].
    assert (price (ct_config s) (0%Q, 0%Q) == 0)%Q as Hp.
    { destruct Hs as [_ _ (i & Ei & _) (o & Eo & _)]. unfold price. rewrite Ei, Eo. simpl. lra. }
    eapply solvent_ext; [| |exact Hs]; lra. }
  destruct op as [|[u|]|chunks|toolId succeeded|e]; cbn [usage_of fst snd].
  - by apply Hkeep.
  - simpl. rewrite !sanitize_valid.
    assert (forall v, default (Num 0) (Num <$> valid v) = Num (default 0%Q (valid v))) as Hd by (intros v; by destruct (valid v)).
    rewrite !Hd. apply record_usage_solvent; auto using valid_default_nonneg.
  - by apply Hkeep.
  - unfold wrapModelStream. rewrite stream_accumulates. simpl.
    destruct (chunks_nonneg chunks (0%Q, 0%Q)) as [H1 H2]; [simpl; lra|].
    pose proof (record_usage_solvent now _ _ t c s H1 H2 Hs) as Hr.
    by destruct (foldl chunk_usage (0%Q, 0%Q) chunks).
  - destruct succeeded; by apply Hkeep.
  - destruct (other_event_spend now e s Hop) as [E1 E2]. destruct (record_event_config now e s) as [E3 _].
    by apply Hkeep.
Qed.

Lemma sum_of_cons f p ops x :
  (foldl (fun acc p => (acc + f (usage_of p.2))%Q) x (p :: ops) == (x + f (usage_of p.2)) + sum_of f ops)%Q.
Proof.
  simpl. unfold sum_of. generalize (x + f (usage_of p.2))%Q. clear x. intros x.
  assert (forall (ops : list (Z * GuardOp)) x y, foldl (fun acc p => acc + f (usage_of p.2)) (x + y) ops ==
            x + foldl (fun acc p => acc + f (usage_of p.2)) y ops)%Q as Hf.
  { clear. intros ops. induction ops as [|p ops IH]; intros x y; simpl; [lra|].
    rewrite <-IH. assert (x + y + f (usage_of p.2) == x + (y + f (usage_of p.2)))%Q as E by lra.
    clear IH. revert E. generalize (x + y + f (usage_of p.2))%Q, (x + (y + f (usage_of p.2)))%Q.
    induction ops as [|p' ops IH]; intros a b E; simpl; [done|]. apply IH. lra. }
  rewrite <-(Hf ops x 0%Q). assert (x == x + 0)%Q as E by lra. revert E. generalize (x + 0)%Q. generalize x. clear.
  induction ops as [|p ops IH]; intros a b E; simpl; [done|]. apply IH. lra.
Qed.

Lemma guard_run_solvent ops : forall s t c,
  Forall (fun p => no_usage p.2) ops -> solvent t c s ->
  solvent (t + sum_of (fun u => u.1 + u.2)%Q ops) (c + sum_of (price (ct_config s)) ops) (guard_run s ops) /\
  ct_config (guard_run s ops) = ct_config s /\ ct_variables (guard_run s ops) = ct_variables s.
Proof.
  induction ops as [|p ops IH]; intros s t c Hf Hs.
  { split; [|done]. unfold sum_of. simpl. eapply solvent_ext; [| |exact Hs]; lra. }
  apply Forall_cons in Hf as [Hp Hf]. destruct (guard_static s p) as [E1 E2].
  destruct (IH (guard_step s p) _ _ Hf (guard_step_solvent s p t c Hp Hs)) as (Hs' & E3 & E4).
  split; [|split; simpl; congruence]. rewrite E1 in Hs'.
  assert (forall f, sum_of f (p :: ops) == f (usage_of p.2) + sum_of f ops)%Q as Hsum.
  { intros f. pose proof (sum_of_cons f p ops 0%Q) as H. unfold sum_of at 1. lra. }
  eapply solvent_ext; [| |exact Hs']; rewrite Hsum; lra.
Qed.

Lemma sum_nonneg f ops : (forall p, p ∈ ops -> 0 <= f (usage_of p.2))%Q -> (0 <= sum_of f ops)%Q.
Proof.
  induction ops as [|p ops IH]; intros Hf; [unfold sum_of; simpl; lra|].
  pose proof (sum_of_cons f p ops 0%Q) as H. unfold sum_of at 1.
  assert (0 <= f (usage_of p.2))%Q by (apply Hf; set_solver).
  assert (0 <= sum_of f ops)%Q by (apply IH; intros; apply Hf; set_solver). lra.
Qed.

(** A variable that fails makes [checkAll] fail. *)
Lemma check_first_ok probe now s vs : check_first probe now s vs = C_ok <-> Forall (fun v => v_check probe now s v = C_ok) vs.
Proof.
  induction vs as [|v vs IH]; simpl; [done|]. rewrite Forall_cons, <-IH.
  destruct (v_check probe now s v); naive_solver.
Qed.

Lemma checkAll_fails probe now s name v :
  m_get name (ct_variables s) = Some v -> v_check probe now s v <> C_ok -> checkAll probe now s <> C_ok.
Proof.
  intros Hv Hc Hall. apply check_first_ok in Hall. apply Hc. rewrite Forall_forall in Hall. apply Hall.
  apply m_get_elem in Hv. unfold m_values. apply list_elem_of_fmap. by exists (name, v).
Qed.

(** C27: from a controller with finite non-negative accounts and prices, whatever the model adapters
    report - missing, negative, infinite or not-a-number usage in calls and streams, in any order,
    with turns, tool calls, spawns and resets in between - the token account grows by exactly the
    valid counts and the cost by their price, neither ever falls, and once the token cap or a
    positive cost cap is reached every later turn is refused. *)
Theorem spend_caps_hold probe now s t c ops :
  solvent t c s -> (0 <= t)%Q -> (0 <= c)%Q -> Forall (fun p => no_usage p.2) ops ->
  let s' := guard_run s ops in
  solvent (t + sum_of (fun u => u.1 + u.2)%Q ops) (c + sum_of (price (ct_config s)) ops) s' /\
  (0 <= sum_of (fun u => u.1 + u.2)%Q ops)%Q /\ (0 <= sum_of (price (ct_config s)) ops)%Q /\
  (m_get "token_usage" (ct_variables s) = Some (V_builtin b_tokenUsage) ->
   num_le (builtin_limit s b_tokenUsage) (ct_tokenUsage s) = true ->
   (onBeforeTurn probe now s').1 <> None) /\
  (m_get "cost_usd" (ct_variables s) = Some (V_builtin b_costUsd) ->
   num_lt (Num 0) (builtin_limit s b_costUsd) = true ->
   num_le (builtin_limit s b_costUsd) (ct_costUsd s) = true ->
   (onBeforeTurn probe now s').1 <> None).
Proof.
  intros Hs Ht Hc Hf s'. destruct (guard_run_solvent ops s t c Hf Hs) as (Hs' & E1 & E2). fold s' in Hs', E1, E2.
  assert (0 <= sum_of (fun u => u.1 + u.2)%Q ops)%Q as Hsum1.
  { apply sum_nonneg. intros p _. destruct (usage_nonneg p.2). lra. }
  assert (0 <= sum_of (price (ct_config s)) ops)%Q as Hsum2.
  { apply sum_nonneg. intros p _. apply (price_nonneg t c s); [done|]. apply usage_nonneg. }
  assert (forall name b, m_get name (ct_variables s) = Some (V_builtin b) ->
    builtin_check now (record_event now ge_turn s') b <> C_ok -> (onBeforeTurn probe now s').1 <> None) as Hrefuse.
  { intros name b Hv Hb. unfold onBeforeTurn. destruct (checkAll probe now (record_event now ge_turn s')) eqn:E; [|done].
    exfalso. revert E. eapply (checkAll_fails _ _ _ name); [by rewrite <-E2 in Hv|exact Hb]. }
  split_and!; [done|done|done| |].
  - intros Hv Hle. apply (Hrefuse _ _ Hv). unfold builtin_check, reached, builtin_limit, builtin_read in *. simpl in *.
    rewrite E1. destruct Hs as [(x & Ex & Hx) _ _ _], Hs' as [(x' & Ex' & Hx') _ _ _]. rewrite Ex in Hle. rewrite Ex'.
    destruct (il_maxTokens (gc_iteration (ct_config s))) as [m| | |]; simpl in *; try done.
    rewrite (proj2 (Qle_bool_iff m x')); [done|]. apply Qle_bool_iff in Hle. lra.
  - intros Hv Hpos Hle. apply (Hrefuse _ _ Hv). unfold builtin_check, reached, builtin_limit, builtin_read in *. simpl in *.
    rewrite E1. destruct Hs as [_ (x & Ex & Hx) _ _], Hs' as [_ (x' & Ex' & Hx') _ _]. rewrite Ex in Hle. rewrite Ex'.
    destruct (cl_maxCostUsd (gc_cost (ct_config s))) as [m| | |]; simpl in *; try done. unfold num_lt in Hpos. simpl in Hpos.
    apply negb_true_iff in Hpos. rewrite Hpos. rewrite (proj2 (Qle_bool_iff m x')); [done|].
    apply Qle_bool_iff in Hle. lra.
Qed.

(** ** The error rate *)

Definition event_run (s : Controller) (events : list (Z * GovernanceEvent)) : Controller :=
  foldl (fun s p => record_event p.1 p.2 s) s events.

(** The tool calls since the last session boundary, newest first, with whether they failed. *)
Definition call_step (l : list (Z * bool)) (p : Z * GovernanceEvent) : list (Z * bool) :=
  match p.2 with
  | ge_tool_error _ => (p.1, true) :: l
  | ge_tool_success _ => (p.1, false) :: l
  | ge_session_reset _ => []
  | _ => l
  end.

Definition calls (events : list (Z * GovernanceEvent)) : list (Z * bool) := foldl call_step [] events.

Definition in_window (windowMs now : Z) (p : Z * bool) : Prop := now - windowMs <= p.1.

#[export] Instance in_window_dec windowMs now p : Decision (in_window windowMs now p).
Proof. unfold in_window. apply _. Defined.

Definition window_ops (failed : bool) (p : Z * GovernanceEvent) : list WindowOp :=
  match p.2 with
  | ge_tool_error _ => [wop_record p.1]
  | ge_tool_success _ => if failed then [] else [wop_record p.1]
  | ge_session_reset _ => [wop_clear]
  | _ => []
  end.

Lemma windows_run config depth t0 events :
  let s := event_run (createGovernanceController config depth t0) events in
  let w0 := createRollingWindow (el_windowMs (gc_errorRate (createDefaultGovernanceConfig config))) None in
  ct_config s = createDefaultGovernanceConfig config /\
  ct_errorWindow s = foldl window_step w0 (events ≫= window_ops true) /\
  ct_totalCallsWindow s = foldl window_step w0 (events ≫= window_ops false).
Proof.
  cbv zeta. induction events as [|p events (IH1 & IH2 & IH3)] using rev_ind; [done|].
  unfold event_run in *. rewrite foldl_app. simpl. rewrite !bind_app, !foldl_app, <-IH2, <-IH3. simpl.
  destruct p as [t e]. simpl. rewrite !app_nil_r. split; [rewrite <-IH1; by destruct e|]. by destruct e.
Qed.

Lemma recorded_app l1 l2 : recorded (l1 ++ l2) = foldl recorded_step (recorded l1) l2.
Proof. unfold recorded. by rewrite foldl_app. Qed.

Lemma recorded_calls events :
  recorded (events ≫= window_ops false) = (calls events).*1 /\
  recorded (events ≫= window_ops true) = (filter (fun p => p.2 = true) (calls events)).*1.
Proof.
  induction events as [|p events (IH1 & IH2)] using rev_ind; [done|].
  rewrite !bind_app. simpl. rewrite !app_nil_r, !recorded_app, IH1, IH2. unfold calls. rewrite foldl_app. simpl.
  destruct p as [t e]. by destruct e.
Qed.

Lemma length_filter_fst (P : Z -> Prop) `{!forall x, Decision (P x)} (l : list (Z * bool)) :
  length (filter P l.*1) = length (filter (fun p => P p.1) l).
Proof. induction l as [|x l IH]; [done|]. rewrite fmap_cons, !filter_cons. repeat case_decide; simpl; lia. Qed.

Lemma sorted_fst_filter (l : list (Z * bool)) :
  StronglySorted Z.ge l.*1 -> StronglySorted Z.ge (filter (fun p => p.2 = true) l).*1.
Proof.
  induction l as [|x l IH]; [done|]. rewrite fmap_cons. intros [Hs Hx]%StronglySorted_inv.
  rewrite filter_cons. case_decide; [|by apply IH]. rewrite fmap_cons. constructor; [by apply IH|].
  rewrite Forall_forall in *. intros y (z & -> & [_ Hz]%list_elem_of_filter)%list_elem_of_fmap.
  apply Hx. by apply list_elem_of_fmap_2.
Qed.

(** With a clock that does not run backwards and no more than a thousand calls in the window, the
    error-rate check refuses exactly when the window holds at least the minimum number of calls and
    the share of failed ones among them has reached the threshold - calls before the last session
    boundary, and none of the other events, make no difference. *)
Lemma error_rate_exact config depth t0 events now :
  let limits := gc_errorRate (createDefaultGovernanceConfig config) in
  let s := event_run (createGovernanceController config depth t0) events in
  let total := filter (in_window (el_windowMs limits) now) (calls events) in
  let failed := filter (fun p => p.2 = true) total in
  StronglySorted Z.ge (calls events).*1 ->
  (length total <= 1000)%nat -> total <> [] ->
  builtin_check now s b_errorRate <> C_ok <->
  num_lt (num_of_nat (length total)) (default (Num 3) (el_minSampleSize limits)) = false /\
  num_le (el_threshold limits)
    (Num (inject_Z (Z.of_nat (length failed)) / inject_Z (Z.of_nat (length total)))) = true.
Proof.
  cbv zeta. intros Hs Hlen Hne. set (limits := gc_errorRate (createDefaultGovernanceConfig config)) in *.
  set (total := filter (in_window (el_windowMs limits) now) (calls events)) in *.
  destruct (windows_run config depth t0 events) as (E1 & E2 & E3). destruct (recorded_calls events) as [R1 R2].
  set (s := event_run (createGovernanceController config depth t0) events) in *.
  assert (length (filter (fun ts => now - el_windowMs limits <= ts) (calls events).*1) = length total) as Ht.
  { apply length_filter_fst. }
  assert (length (filter (fun ts => now - el_windowMs limits <= ts) (filter (fun p => p.2 = true) (calls events)).*1)
          = length (filter (fun p => p.2 = true) total)) as Hf.
  { rewrite length_filter_fst. unfold total. rewrite !list_filter_filter. f_equal. apply list_filter_iff.
    intros [t b]. unfold in_window. simpl. tauto. }
  assert (count now (ct_totalCallsWindow s) = length total) as C1.
  { rewrite E3. rewrite window_count_exact; rewrite ?R1; [exact Ht|by apply Nat.ltb_lt|done|]. fold limits. rewrite Ht. exact Hlen. }
  assert (count now (ct_errorWindow s) = length (filter (fun p => p.2 = true) total)) as C2.
  { rewrite E2. rewrite window_count_exact; rewrite ?R2; [exact Hf|by apply Nat.ltb_lt|by apply sorted_fst_filter|].
    fold limits. rewrite Hf. transitivity (length total); [apply length_filter|exact Hlen]. }
  unfold builtin_check. rewrite E1. fold limits. rewrite C1, C2. unfold builtin_limit. rewrite E1. fold limits.
  destruct (num_lt _ _); [split; [intros Hn; by destruct Hn|by intros [? _]]|].
  destruct (length total) as [|n] eqn:El; [by apply nil_length_inv in El|].
  destruct (num_le _ _); [by split|]. split; [intros Hn; by destruct Hn|by intros [_ ?]].
Qed.

(** ** Three ways of asking *)

(** [checkAll] passes exactly when [snapshot] is healthy, exactly when every registered variable
    passes its own [check]; otherwise it answers what the first failing variable in order of
    registration answers, which heads the list of violations. *)
Lemma checks_agree probe now s :
  NoDup (m_keys (ct_variables s)) ->
  (checkAll probe now s = C_ok <-> gs_healthy (snapshot probe now s) = true) /\
  (checkAll probe now s = C_ok <->
     forall name, is_Some (m_get name (ct_variables s)) -> check probe now s name = C_ok) /\
  match checkAll probe now s with
  | C_ok => gs_violations (snapshot probe now s) = []
  | C_fail variable _ _ => head (gs_violations (snapshot probe now s)) = Some variable
  end.
Proof.
  intros Hnd.
  assert (match checkAll probe now s with
          | C_ok => gs_violations (snapshot probe now s) = []
          | C_fail variable _ _ => head (gs_violations (snapshot probe now s)) = Some variable
          end) as Hhead.
  { unfold checkAll, snapshot. simpl. induction (m_values (ct_variables s)) as [|v vs IH]; [done|]. simpl.
    assert (violation probe now s v = match v_check probe now s v with C_ok => None | C_fail x _ _ => Some x end) as -> by done.
    by destruct (v_check probe now s v). }
  split_and!; [| |exact Hhead].
  - unfold snapshot at 1. simpl. rewrite bool_decide_eq_true. unfold snapshot in Hhead. simpl in Hhead.
    destruct (checkAll probe now s); [done|]. split; [done|]. intros Hn. by rewrite Hn in Hhead.
  - unfold checkAll. rewrite check_first_ok, Forall_forall. unfold check. split.
    + intros Hall name [v Hv]. rewrite Hv. apply Hall. apply m_get_elem in Hv.
      apply list_elem_of_fmap. by exists (name, v).
    + intros Hall v Hv. apply list_elem_of_fmap in Hv as ([name v'] & -> & Hin). simpl.
      apply elem_m_get in Hin; [|done]. specialize (Hall name). rewrite Hin in Hall. apply Hall. by eexists.
Qed.

(** ** The reconciler *)

(** Observations of one agent, newest first: whether its snapshot was healthy. *)
Definition observed (id : string) (p : string * option GovernanceSnapshot) : option bool :=
  if decide (p.1 = id) then gs_healthy <$> p.2 else None.

Fixpoint bad_streak (l : list bool) : Z :=
  match l with false :: l => 1 + bad_streak l | _ => 0 end.

Definition reconcile_run (ps : list (string * option GovernanceSnapshot)) : list (string * Z) :=
  foldl (fun counts p => (reconcile p.1 p.2 counts).2) [] ps.

Lemma bad_streak_nonneg l : 0 <= bad_streak l.
Proof. induction l as [|[] l IH]; simpl; lia. Qed.

Lemma reconcile_count_step id found counts id' :
  default 0 (m_get id' (reconcile id found counts).2) =
  if decide (id = id')
  then match found with
       | None => default 0 (m_get id' counts)
       | Some snap => if gs_healthy snap then 0 else default 0 (m_get id' counts) + 1
       end
  else default 0 (m_get id' counts).
Proof.
  unfold reconcile. destruct found as [snap|]; simpl; [|by case_decide].
  destruct (gs_healthy snap); simpl; [rewrite m_get_delete; by case_decide|].
  assert (forall (b : bool) (r r' : ReconcileResult) (m : list (string * Z)), (if b then (r, m) else (r', m)).2 = m) as Hif
    by (by intros []).
  rewrite Hif, m_get_set. case_decide as E; [by subst|done].
Qed.

Lemma reconcile_counts ps id :
  default 0 (m_get id (reconcile_run ps)) = bad_streak (reverse (omap (observed id) ps)).
Proof.
  induction ps as [|[id' found] ps IH] using rev_ind; [done|].
  unfold reconcile_run in *. rewrite foldl_app, omap_app, reverse_app. simpl foldl. cbn [fst snd].
  rewrite reconcile_count_step, IH.
  assert (omap (observed id) [(id', found)] =
    if decide (id' = id) then match found with Some snap => [gs_healthy snap] | None => [] end else []) as ->.
  { simpl. unfold observed. simpl. case_decide; [by destruct found|done]. }
  case_decide; [|done]. destruct found as [snap|]; [|done]. simpl.
  destruct (gs_healthy snap); simpl; [done|lia].
Qed.

(** The reconciler asks for an agent's shutdown exactly when this and the four observations of the
    agent before it were all unhealthy; passes in which the agent or its controller was not found
    and passes over other agents do not count either way. *)
Lemma shutdown_after_five ps id snap :
  let before := reverse (omap (observed id) ps) in
  (exists reason, (reconcile id (Some snap) (reconcile_run ps)).1 = R_terminal reason) <->
  gs_healthy snap = false /\ take 4 before = [false; false; false; false].
Proof.
  cbv zeta. pose proof (reconcile_counts ps id) as Hc. unfold reconcile.
  set (before := reverse (omap (observed id) ps)) in *.
  assert (4 <= bad_streak before <-> take 4 before = [false; false; false; false]) as Hfour.
  { clear. destruct before as [|[] [|[] [|[] [|[] l]]]]; simpl; try (split; [lia|done]).
    pose proof (bad_streak_nonneg l). split; [done|lia]. }
  destruct (gs_healthy snap); simpl; [split; [by intros [? ?]|by intros [? _]]|].
  rewrite Hc. unfold MAX_CONSECUTIVE_VIOLATIONS. destruct (Z.leb_spec 5 (bad_streak before + 1)); simpl.
  - split; [|by eexists]. intros _. split; [done|]. apply Hfour. lia.
  - split; [by intros [? ?]|]. intros [_ H4]. apply Hfour in H4. lia.
Qed.

(** ** Witnesses, and what nobody checked *)

Definition sample_limits (maxTokens maxCost : jsnum) : option GovernanceOverrides :=
  Some (mkGovernanceOverrides None (Some (mkIterationLimits (Num 10) maxTokens (Num 60000))) None
          (Some (mkCostLimits maxCost (Num (1 # 1000)) (Num (2 # 1000))))).

Definition quiet_probe (id : nat) : Probe := mkProbe (Num 0) C_ok.

(** A capped controller after a call of 90 and 20 tokens, and what comes after. *)
Definition sample_spent : Controller :=
  guard_run (createGovernanceController (sample_limits (Num 100) (Num 0)) None 0)
    [(5, gu_model (Some (mkUsage (Some (Num 90)) (Some (Num 20)))))].

Definition sample_later : list (Z * GuardOp) :=
  [(6, gu_event (ge_session_reset None));
   (7, gu_stream [ch_usage (mkUsage (Some NaN) (Some (Num 4))); ch_done (Some (mkUsage (Some (Num (-3))) (Some (Num 7))))]);
   (8, gu_event (ge_run_reset (Some PosInf)))].

Lemma spend_caps_hold_witness :
  let s' := guard_run sample_spent sample_later in
  ct_tokenUsage s' = Num 117 /\
  solvent (110 + sum_of (fun u => u.1 + u.2)%Q sample_later) ((13 # 100) + sum_of (price (ct_config sample_spent)) sample_later) s' /\
  (onBeforeTurn quiet_probe 9 s').1 <> None.
Proof.
  assert (solvent 110 (13 # 100) sample_spent) as Hs.
  { constructor; eexists; (split; [vm_compute; reflexivity|]); done. }
  assert (Forall (fun p => no_usage p.2) sample_later) as Hf by (repeat constructor).
  pose proof (spend_caps_hold quiet_probe 9 sample_spent 110 (13 # 100) sample_later Hs ltac:(done) ltac:(done) Hf)
    as (H1 & _ & _ & H4 & _).
  split; [vm_compute; reflexivity|]. split; [exact H1|]. apply H4; vm_compute; reflexivity.
Defined.

Definition sample_calls : list (Z * GovernanceEvent) :=
  [(1, ge_tool_error "a"); (2, ge_session_reset None); (3, ge_tool_error "a"); (4, ge_tool_success "b");
   (5, ge_turn); (6, ge_tool_error "a")].

Lemma error_rate_exact_witness :
  let s := event_run (createGovernanceController None None 0) sample_calls in
  let total := filter (in_window 60000 10) (calls sample_calls) in
  let failed := filter (fun p => p.2 = true) total in
  length total = 3%nat /\ length failed = 2%nat /\
  (builtin_check 10 s b_errorRate <> C_ok <->
   num_lt (num_of_nat (length total)) (Num 3) = false /\
   num_le (Num (1 # 2)) (Num (inject_Z (Z.of_nat (length failed)) / inject_Z (Z.of_nat (length total)))) = true).
Proof.
  split; [vm_compute; reflexivity|]. split; [vm_compute; reflexivity|].
  assert (StronglySorted Z.ge (calls sample_calls).*1) as H1 by (repeat constructor; vm_compute; congruence).
  assert (length (filter (in_window 60000 10) (calls sample_calls)) <= 1000)%nat as H2.
  { apply Nat.leb_le. vm_compute. reflexivity. }
  assert (filter (in_window 60000 10) (calls sample_calls) <> []) as H3 by (vm_compute; done).
  exact (error_rate_exact None None 0 sample_calls 10 H1 H2 H3).
Defined.

Lemma checks_agree_witness :
  NoDup (m_keys (ct_variables sample_spent)) /\
  gs_violations (snapshot quiet_probe 9 sample_spent) = ["token_usage"] /\
  (checkAll quiet_probe 9 sample_spent = C_ok <-> gs_healthy (snapshot quiet_probe 9 sample_spent) = true).
Proof.
  assert (NoDup (m_keys (ct_variables sample_spent))) as Hnd.
  { apply (bool_decide_unpack _). vm_compute. exact I. }
  split; [exact Hnd|]. split; [vm_compute; reflexivity|].
  exact (proj1 (checks_agree quiet_probe 9 sample_spent Hnd)).
Defined.

(** The token count of an event is added unchecked, although the cost is
    guarded against exactly this: one event with NaN lifts the token cap for
    good. *)
Lemma nan_lifts_token_cap now events s t :
  let s' := event_run (record_event now (ge_token_usage NaN None None None) s) events in
  builtin_check t s' b_tokenUsage = C_ok.
Proof.
  cbv zeta. unfold builtin_check, reached, builtin_read.
  assert (ct_tokenUsage (event_run (record_event now (ge_token_usage NaN None None None) s) events) = NaN) as ->;
    [|by destruct (builtin_limit _ _)].
  assert (ct_tokenUsage (record_event now (ge_token_usage NaN None None None) s) = NaN) as H0.
  { simpl. by destruct (ct_tokenUsage s). }
  revert H0. generalize (record_event now (ge_token_usage NaN None None None) s). clear s.
  induction events as [|[t' e] events IH]; intros s H0; [done|]. apply IH. destruct e; simpl; rewrite ?H0; done.
Qed.

(** The guard counts a turn before it checks: a limit of [n] turns allows
    [n - 1] of them. *)
Lemma last_turn_refused :
  let s0 := createGovernanceController
              (Some (mkGovernanceOverrides None (Some (mkIterationLimits (Num 2) (Num 100) (Num 100))) None None)) None 0 in
  let first := onBeforeTurn quiet_probe 1 s0 in
  first.1 = None /\
  (onBeforeTurn quiet_probe 2 first.2).1 = Some (mkRefusal TIMEOUT (Reached (Num 2) (Num 2)) false "turn_count").
Proof. vm_compute. by split. Qed.

(** [checkAll] includes the fan-out limit: an agent that runs as many children as
    it may is refused its own next turn. *)
Lemma full_fan_out_blocks_turns :
  let s := event_run (createGovernanceController None None 0) (replicate 5 (1, ge_spawn (Num 1))) in
  (onBeforeTurn quiet_probe 2 s).1 = Some (mkRefusal RATE_LIMIT (Reached (Num 5) (Num 5)) true "spawn_count").
Proof. vm_compute. reflexivity. Qed.

(** Both windows keep a thousand entries: when more calls than that lie in the
    window, successes push successes out of the denominator only, and half the
    calls failing reads as all of them. *)
Lemma crowded_window_distorts_rate :
  let events := replicate 1000 (1, ge_tool_error "a") ++ replicate 1000 (1, ge_tool_success "b") in
  let s := event_run (createGovernanceController None None 0) events in
  length (filter (fun p => p.2 = true) (calls events)) = 1000%nat /\ length (calls events) = 2000%nat /\
  count 2 (ct_errorWindow s) = 1000%nat /\ count 2 (ct_totalCallsWindow s) = 1000%nat.
Proof. vm_compute. by split_and!. Qed.

(** A contributed variable that bears the name of a built-in one replaces it. *)
Lemma contributed_variable_lifts_cap :
  let s0 := createGovernanceController (sample_limits (Num 100) (Num 1)) None 0 in
  match guards [V_contributed 0 "cost_usd" (Num 0)] s0 with
  | Ok (s1, _) =>
      let s2 := record_event 1 (ge_token_usage (Num 10) None None (Some (Num 50))) s1 in
      ct_costUsd s2 = Num 50 /\ checkAll quiet_probe 2 s2 = C_ok
  | Err _ => False
  end.
Proof. vm_compute. by split. Qed.
