(* ===== verification/Health.v ===== *)
(** * Liveness: heartbeats, budgets and missing tools

    [kernel/engine-reconcile/src/health-monitor.ts], [health-reconciler.ts],
    [timeout-reconciler.ts], [tool-reconciler.ts], [eviction-policies.ts] and
    [kernel/core/src/health.ts].  The monitor keeps heartbeats in two maps, one
    for fresh ones and one they are flushed to; the reconcilers read the registry
    and move agents by compare-and-swap.  The registry is the in-memory one. *)

From S2P Require Import Prelude JsMap Lifecycle Registry Runner.

Local Open Scope string_scope.
Local Open Scope list_scope.
Local Open Scope Z_scope.

(** ** The monitor *)

Inductive HealthStatus : Type := hs_alive | hs_suspect | hs_dead.

#[export] Instance HealthStatus_eq_dec : EqDecision HealthStatus.
Proof. solve_decision. Defined.

Record HealthSnapshot : Type := mkHealthSnapshot {
  hsn_agentId : AgentId;
  hsn_status : HealthStatus;
  hsn_lastHeartbeat : Z;
  hsn_missedChecks : Z
}.

Record HealthMonitorStats : Type := mkHealthStats {
  hst_totalRecorded : Z; hst_totalFlushed : Z; hst_bufferSize : Z; hst_flushCount : Z
}.

Record HealthMonitorConfig : Type := mkHealthConfig {
  hc_flushIntervalMs : Z; hc_sweepIntervalMs : Z; hc_suspectThresholdMs : Z; hc_deadThresholdMs : Z
}.

Definition DEFAULT_HEALTH_MONITOR_CONFIG : HealthMonitorConfig := mkHealthConfig 30000 10000 60000 120000.

Record Monitor : Type := mkMonitor {
  mo_buffer : list (AgentId * Z);
  mo_flushed : list (AgentId * Z);
  mo_totalRecorded : Z;
  mo_totalFlushed : Z;
  mo_flushCount : Z;
  mo_disposed : bool;
  mo_watching : bool
}.

Definition createHealthMonitor : Monitor := mkMonitor [] [] 0 0 0 false true.

Definition flush (m : Monitor) : Monitor :=
  if decide (mo_buffer m = []) then m
  else
    mkMonitor [] (foldl (fun fl p => m_set p.1 p.2 fl) (mo_flushed m) (mo_buffer m))
      (mo_totalRecorded m) (mo_totalFlushed m + Z.of_nat (length (mo_buffer m))) (mo_flushCount m + 1)
      (mo_disposed m) (mo_watching m).

(** The listener on the registry. *)
Definition on_event (m : Monitor) (event : RegistryEvent) : Monitor :=
  match event with
  | ev_deregistered id =>
      if mo_watching m then
        mkMonitor (m_delete id (mo_buffer m)) (m_delete id (mo_flushed m)) (mo_totalRecorded m)
          (mo_totalFlushed m) (mo_flushCount m) (mo_disposed m) (mo_watching m)
      else m
  | _ => m
  end.

Definition on_timer (m : Monitor) : Monitor := if mo_disposed m then m else flush m.

Definition record (now : Z) (id : AgentId) (m : Monitor) : Monitor :=
  mkMonitor (m_set id now (mo_buffer m)) (mo_flushed m) (mo_totalRecorded m + 1) (mo_totalFlushed m)
    (mo_flushCount m) (mo_disposed m) (mo_watching m).

Definition dispose (m : Monitor) : Monitor :=
  flush (mkMonitor (mo_buffer m) (mo_flushed m) (mo_totalRecorded m) (mo_totalFlushed m)
           (mo_flushCount m) true false).

Definition stats (m : Monitor) : HealthMonitorStats :=
  mkHealthStats (mo_totalRecorded m) (mo_totalFlushed m) (Z.of_nat (length (mo_buffer m))) (mo_flushCount m).

(** [bufferedTs ?? flushedTs ?? entry?.status.lastTransitionAt ?? 0] *)
Definition last_sign (heard : option Z) (entry : option RegistryEntry) : Z :=
  match heard with
  | Some ts => ts
  | None => match entry with Some e => as_lastTransitionAt (re_status e) | None => 0 end
  end.

Definition heard (id : AgentId) (m : Monitor) : option Z :=
  match m_get id (mo_buffer m) with Some ts => Some ts | None => m_get id (mo_flushed m) end.

Definition classify (config : HealthMonitorConfig) (now lastHeartbeat : Z) : HealthStatus * Z :=
  let elapsed := now - lastHeartbeat in
  if bool_decide (lastHeartbeat = 0) || (hc_deadThresholdMs config <=? elapsed) then
    (hs_dead, if bool_decide (lastHeartbeat = 0) then 0 else elapsed / hc_suspectThresholdMs config)
  else if hc_suspectThresholdMs config <=? elapsed then
    (hs_suspect, elapsed / hc_suspectThresholdMs config)
  else (hs_alive, 0).

Definition check (config : HealthMonitorConfig) (now : Z) (store : Reg.Store) (id : AgentId) (m : Monitor)
    : HealthSnapshot :=
  let lastHeartbeat := last_sign (heard id m) (Reg.lookup id store) in
  let '(status, missedChecks) := classify config now lastHeartbeat in
  mkHealthSnapshot id status lastHeartbeat missedChecks.

(** ** The reconcilers *)

(** What both reconcilers make of a transition to terminated. *)
Definition after_termination (result : Result RegistryEntry KoiError) : ReconcileResult :=
  match result with
  | Ok _ => R_converged
  | Err e => if decide (err_code e = CONFLICT) then R_retry 100 else R_converged
  end.

Definition terminate (now : Z) (id : AgentId) (gen : Z) (reason : TransitionReason) (store : Reg.Store)
    : ReconcileResult * Reg.Store * list RegistryEvent :=
  let '(result, store, evs) := Reg.transition now id terminated gen reason store in
  (after_termination result, store, evs).

Definition handleHealthStatus (now : Z) (suspectRecheckMs : Z) (id : AgentId) (gen : Z) (status : HealthStatus)
    (store : Reg.Store) : ReconcileResult * Reg.Store * list RegistryEvent :=
  match status with
  | hs_alive => (R_converged, store, [])
  | hs_suspect => (R_recheck suspectRecheckMs, store, [])
  | hs_dead => terminate now id gen tr_stale store
  end.

Definition health_reconcile (config : HealthMonitorConfig) (suspectRecheckMs : option Z) (now : Z)
    (id : AgentId) (m : Monitor) (store : Reg.Store) : ReconcileResult * Reg.Store * list RegistryEvent :=
  match Reg.lookup id store with
  | None => (R_converged, store, [])
  | Some entry =>
      if decide (as_phase (re_status entry) = running) then
        handleHealthStatus now (default 2500 suspectRecheckMs) id (as_generation (re_status entry))
          (hsn_status (check config now store id m)) store
      else (R_converged, store, [])
  end.

(** [lastActivityAt] may be absent, and may have no answer for an agent. *)
Definition timeout_reconcile (maxRunDurationMs : Z) (recheckMs : option Z)
    (lastActivityAt : option (AgentId -> option Z)) (now : Z) (id : AgentId) (store : Reg.Store)
    : ReconcileResult * Reg.Store * list RegistryEvent :=
  match Reg.lookup id store with
  | None => (R_converged, store, [])
  | Some entry =>
      if decide (as_phase (re_status entry) = running) then
        let activity := f ← lastActivityAt; f id in
        let baseline := default (re_registeredAt entry) activity in
        let remaining := maxRunDurationMs - (now - baseline) in
        if 0 <? remaining then (R_recheck (Z.min remaining (default 30000 recheckMs)), store, [])
        else terminate now id (as_generation (re_status entry)) tr_timeout store
      else (R_converged, store, [])
  end.

(** The missing tools are handed to [onMissingTools]. *)
Definition compareTools (expected attached : list string) : ReconcileResult * option (list string) :=
  let missing := filter (fun name => name ∉ attached) expected in
  if decide (missing = []) then (R_converged, None) else (R_recheck 10000, Some missing).

Definition tool_reconcile (manifestTools : option (list string)) (attached : list string) (id : AgentId)
    (store : Reg.Store) : ReconcileResult * option (list string) :=
  match Reg.lookup id store with
  | None => (R_converged, None)
  | Some entry =>
      if decide (as_phase (re_status entry) = terminated) then (R_converged, None)
      else
        let tools := default [] manifestTools in
        if decide (tools = []) then (R_converged, None) else compareTools tools attached
  end.

(** ** Eviction *)

(** Without [metadata], which no policy looks at. *)
Record EvictionCandidate : Type := mkCandidate {
  ec_agentId : AgentId; ec_phase : ProcessState; ec_lastHeartbeat : Z; ec_priority : Z
}.

Definition older (a b : EvictionCandidate) : Prop := ec_lastHeartbeat a <= ec_lastHeartbeat b.
Definition lower_or_older (a b : EvictionCandidate) : Prop :=
  ec_priority a < ec_priority b \/ ec_priority a = ec_priority b /\ ec_lastHeartbeat a <= ec_lastHeartbeat b.

#[export] Instance older_dec a b : Decision (older a b).
Proof. unfold older. apply _. Defined.
#[export] Instance lower_or_older_dec a b : Decision (lower_or_older a b).
Proof. unfold lower_or_older. apply _. Defined.

(** [slice(0, count)] of the sorted copy; the sort is stable, and so is
    [merge_sort]. *)
Definition lruPolicy (candidates : list EvictionCandidate) (count : nat) : list EvictionCandidate :=
  take count (merge_sort older candidates).
Definition qosPolicy (candidates : list EvictionCandidate) (count : nat) : list EvictionCandidate :=
  take count (merge_sort lower_or_older candidates).

(** ** Two tiers are one *)

Inductive MonitorOp : Type :=
  | mo_record (now : Z) (id : AgentId)
  | mo_timer
  | mo_flush
  | mo_event (event : RegistryEvent).

Definition monitor_step (m : Monitor) (op : MonitorOp) : Monitor :=
  match op with
  | mo_record now id => record now id m
  | mo_timer => on_timer m
  | mo_flush => flush m
  | mo_event e => on_event m e
  end.

(** The specification: the latest heartbeat since the agent was last deregistered. *)
Definition heartbeat_step (id : AgentId) (last : option Z) (op : MonitorOp) : option Z :=
  match op with
  | mo_record now id' => if decide (id' = id) then Some now else last
  | mo_event (ev_deregistered id') => if decide (id' = id) then None else last
  | _ => last
  end.

Definition last_heartbeat (id : AgentId) (ops : list MonitorOp) : option Z :=
  foldl (heartbeat_step id) None ops.

Lemma get_copied id (l m : list (AgentId * Z)) :
  NoDup (m_keys l) ->
  m_get id (foldl (fun fl p => m_set p.1 p.2 fl) m l) =
  match m_get id l with Some ts => Some ts | None => m_get id m end.
Proof.
  revert m. induction l as [|[k v] l IH]; intros m Hnd; [done|].
  unfold m_keys in Hnd. rewrite fmap_cons in Hnd. apply NoDup_cons in Hnd as [Hk Hnd]. simpl.
  rewrite IH by done. rewrite m_get_set. case_decide as E; subst.
  - assert (m_get id l = None) as -> by (by apply not_elem_of_m_keys). by rewrite decide_True.
  - destruct (m_get id l) eqn:El; by rewrite decide_False by congruence.
Qed.

Lemma heard_flush id m : NoDup (m_keys (mo_buffer m)) -> heard id (flush m) = heard id m.
Proof.
  intros Hnd. unfold flush. case_decide as E; [done|]. unfold heard. simpl. by rewrite get_copied.
Qed.

Lemma buffer_nodup m op : NoDup (m_keys (mo_buffer m)) -> NoDup (m_keys (mo_buffer (monitor_step m op))).
Proof.
  intros Hnd. destruct op as [now id| | |[]]; simpl; try done.
  - by apply NoDup_m_set.
  - unfold on_timer, flush. destruct (mo_disposed m); [done|]. case_decide; [done|constructor].
  - unfold flush. case_decide; [done|constructor].
  - destruct (mo_watching m); [|done]. simpl. by apply NoDup_m_delete.
Qed.

Lemma heard_step id m op :
  NoDup (m_keys (mo_buffer m)) -> mo_watching m = true ->
  heard id (monitor_step m op) = heartbeat_step id (heard id m) op /\ mo_watching (monitor_step m op) = true.
Proof.
  intros Hnd Hw. destruct op as [now id'| | |e]; simpl.
  - split; [|done]. unfold heard. simpl. rewrite m_get_set. by case_decide.
  - unfold on_timer. destruct (mo_disposed m); [done|]. split; [by apply heard_flush|].
    unfold flush. by case_decide.
  - split; [by apply heard_flush|]. unfold flush. by case_decide.
  - destruct e as [| id'| |]; simpl; rewrite ?Hw; [done| |done|done]. simpl. split; [|done].
    unfold heard. simpl. rewrite !m_get_delete. by case_decide.
Qed.

Lemma heard_run id ops :
  heard id (foldl monitor_step createHealthMonitor ops) = last_heartbeat id ops.
Proof.
  enough (NoDup (m_keys (mo_buffer (foldl monitor_step createHealthMonitor ops))) /\
          mo_watching (foldl monitor_step createHealthMonitor ops) = true /\
          heard id (foldl monitor_step createHealthMonitor ops) = last_heartbeat id ops) by tauto.
  induction ops as [|op ops (H1 & H2 & H3)] using rev_ind; [by split_and!; [constructor| |]|].
  unfold last_heartbeat in *. rewrite !foldl_app. simpl.
  destruct (heard_step id _ op H1 H2) as [E W]. split_and!; [by apply buffer_nodup|done|]. by rewrite E, H3.
Qed.

(** What a health pass should do: agents that are not running are left alone, and so are those heard
    of recently; the silent ones are looked at again, and the dead ones terminated as stale. *)
Definition health_verdict (config : HealthMonitorConfig) (recheckMs now lastSign : Z) (id : AgentId)
    (e : RegistryEntry) (store : Reg.Store) : ReconcileResult * Reg.Store * list RegistryEvent :=
  let silent := now - lastSign in
  if bool_decide (lastSign = 0) || (hc_deadThresholdMs config <=? silent) then
    let gen := as_generation (re_status e) in
    (R_converged,
     m_set id (Reg.with_status e (mkAgentStatus terminated (gen + 1) (as_conditions (re_status e)) (Some tr_stale) now)) store,
     [ev_transitioned id running terminated (gen + 1) tr_stale])
  else if hc_suspectThresholdMs config <=? silent then (R_recheck recheckMs, store, [])
  else (R_converged, store, []).

Lemma terminate_running now id e reason store :
  Reg.lookup id store = Some e -> as_phase (re_status e) = running ->
  terminate now id (as_generation (re_status e)) reason store =
  (R_converged,
   m_set id (Reg.with_status e (mkAgentStatus terminated (as_generation (re_status e) + 1)
     (as_conditions (re_status e)) (Some reason) now)) store,
   [ev_transitioned id running terminated (as_generation (re_status e) + 1) reason]).
Proof.
  unfold Reg.lookup. intros He Hp. unfold terminate.
  destruct (Reg.transition_spec now id terminated (as_generation (re_status e)) reason store)
    as [(cur & Hcur & _ & _ & ->)|(er & _ & [[Hn _]|(cur & Hcur & [[Hg _]|(_ & _ & Hv)])])].
  - assert (cur = e) as -> by congruence. simpl. by rewrite Hp.
  - congruence.
  - congruence.
  - exfalso. assert (cur = e) as -> by congruence. apply Hv. rewrite Hp. simpl. set_solver.
Qed.

(** Whatever heartbeats, flushes, timer ticks and deregistrations came before, in any order, a
    health pass over an agent depends on one time only - its latest heartbeat since it was last
    deregistered, or its last transition if there is none - and does exactly what that time
    demands: a running agent silent past the dead threshold is terminated as stale at its current
    generation, one past the suspect threshold is looked at again, and all others are left alone. *)
Lemma health_pass_exact config recheckMs now id ops store :
  let m := foldl monitor_step createHealthMonitor ops in
  health_reconcile config recheckMs now id m store =
  match Reg.lookup id store with
  | Some e =>
      if decide (as_phase (re_status e) = running) then
        health_verdict config (default 2500 recheckMs) now (last_sign (last_heartbeat id ops) (Some e)) id e store
      else (R_converged, store, [])
  | None => (R_converged, store, [])
  end.
Proof.
  cbv zeta. unfold health_reconcile. destruct (Reg.lookup id store) as [e|] eqn:He; [|done].
  case_decide as Hp; [|done]. unfold check. rewrite heard_run, He.
  unfold health_verdict, classify. cbv zeta.
  destruct (bool_decide (last_sign (last_heartbeat id ops) (Some e) = 0) || _); simpl.
  - by apply terminate_running.
  - by destruct (_ <=? _).
Qed.

(** A pass of the timeout controller terminates a running agent exactly when its budget, counted
    from its last known activity or else from its registration, is used up; before that it comes
    back when the budget runs out or after the ceiling, whichever is sooner, and never later;
    agents that do not run are left alone. *)
Lemma timeout_pass_exact maxRunDurationMs recheckMs lastActivityAt now id store e :
  Reg.lookup id store = Some e ->
  let baseline := default (re_registeredAt e) (f ← lastActivityAt; f id) in
  let '(result, store', evs) := timeout_reconcile maxRunDurationMs recheckMs lastActivityAt now id store in
  (as_phase (re_status e) <> running -> result = R_converged /\ store' = store /\ evs = []) /\
  (as_phase (re_status e) = running -> now < baseline + maxRunDurationMs ->
     store' = store /\ evs = [] /\ exists ms, result = R_recheck ms /\ now + ms <= baseline + maxRunDurationMs /\
       (0 < default 30000 recheckMs -> 0 < ms) /\ ms <= default 30000 recheckMs) /\
  (as_phase (re_status e) = running -> baseline + maxRunDurationMs <= now ->
     result = R_converged /\
     (exists e', Reg.lookup id store' = Some e' /\ as_phase (re_status e') = terminated /\
        as_reason (re_status e') = Some tr_timeout) /\
     forall id', id' <> id -> Reg.lookup id' store' = Reg.lookup id' store).
Proof.
  intros He baseline. unfold timeout_reconcile. rewrite He. case_decide as Hp; [|by split_and!].
  fold baseline. cbv zeta. destruct (Z.ltb_spec 0 (maxRunDurationMs - (now - baseline))).
  - split_and!; [done| |lia]. intros _ _. split_and!; [done|done|]. eexists. split_and!; [done|lia|lia|lia].
  - rewrite (terminate_running now id e) by done. split_and!; [done|lia|]. intros _ _. split_and!; [done| |].
    + eexists. unfold Reg.lookup. rewrite m_get_set_eq. by split_and!.
    + intros id' Hne. unfold Reg.lookup. by rewrite m_get_set_ne.
Qed.

(** The tool controller reports exactly the declared tools that are not attached, in order. *)
Lemma compareTools_exact expected attached :
  compareTools expected attached =
  match filter (fun name => name ∉ attached) expected with
  | [] => (R_converged, None)
  | missing => (R_recheck 10000, Some missing)
  end.
Proof. unfold compareTools. by destruct (filter _ expected). Qed.

(** ** Eviction *)

#[export] Instance older_total : Total older.
Proof. intros a b. unfold older. lia. Qed.
#[export] Instance older_trans : Transitive older.
Proof. intros a b c. unfold older. lia. Qed.
#[export] Instance lower_or_older_total : Total lower_or_older.
Proof. intros a b. unfold lower_or_older. lia. Qed.
#[export] Instance lower_or_older_trans : Transitive lower_or_older.
Proof. intros a b c. unfold lower_or_older. lia. Qed.

(** The chosen ones are [count] of the candidates, and nobody spared should have gone before them. *)
Definition evicts_first (R : relation EvictionCandidate) (candidates : list EvictionCandidate) (count : nat)
    (chosen : list EvictionCandidate) : Prop :=
  length chosen = Nat.min count (length candidates) /\
  exists spared, chosen ++ spared ≡ₚ candidates /\ forall a b, a ∈ chosen -> b ∈ spared -> R a b.

Lemma take_sorted_evicts R `{!forall a b, Decision (R a b), !Total R, !Transitive R} candidates count :
  evicts_first R candidates count (take count (merge_sort R candidates)).
Proof.
  pose proof (merge_sort_Permutation R candidates) as Hp. split.
  - rewrite length_take. by rewrite (Permutation_length Hp).
  - exists (drop count (merge_sort R candidates)). split; [by rewrite take_drop|].
    intros a b Ha Hb. pose proof (StronglySorted_merge_sort R candidates) as Hs.
    rewrite <-(take_drop count (merge_sort R candidates)) in Hs.
    by apply (StronglySorted_app_1_elem_of _ _ _ a b Hs).
Qed.

Lemma policies_evict_first candidates count :
  evicts_first older candidates count (lruPolicy candidates count) /\
  evicts_first lower_or_older candidates count (qosPolicy candidates count).
Proof. split; apply take_sorted_evicts; apply _. Qed.

(** ** Runs *)

Definition sample_store : Reg.Store :=
  [("a", mkRegistryEntry "a" (mkAgentStatus running 3 [] None 1000) worker [] 500 None None None None 10)].

Lemma timeout_pass_exact_witness :
  exists e, Reg.lookup "a" sample_store = Some e /\
  let '(result, store', evs) := timeout_reconcile 2000 None None 2600 "a" sample_store in
  result = R_converged /\ exists e', Reg.lookup "a" store' = Some e' /\ as_reason (re_status e') = Some tr_timeout.
Proof.
  eexists. split; [reflexivity|].
  pose proof (timeout_pass_exact 2000 None None 2600 "a" sample_store _ eq_refl) as H.
  destruct (timeout_reconcile 2000 None None 2600 "a" sample_store) as [[result store'] evs].
  destruct H as (_ & _ & H). destruct H as (H1 & (e' & H2 & _ & H3) & _); [reflexivity|vm_compute; congruence|].
  split; [exact H1|]. exists e'. by split.
Defined.

(** A heartbeat, however old, hides a later transition: an agent that was
    suspended for longer than the dead threshold is terminated as stale by the
    first pass after it was resumed. *)
Lemma resumed_agent_is_stale :
  let beat := foldl monitor_step createHealthMonitor [mo_record 1000 "a"; mo_timer] in
  let store1 := (Reg.run_op sample_store (Reg.op_transition 2000 "a" suspended 3 tr_hitl_pause)).1 in
  let store2 := (Reg.run_op store1 (Reg.op_transition 500000 "a" running 4 tr_human_approval)).1 in
  let '(result, store3, _) := health_reconcile DEFAULT_HEALTH_MONITOR_CONFIG None 500001 "a" beat store2 in
  as_phase <$> (re_status <$> Reg.lookup "a" store2) = Some running /\
  as_lastTransitionAt <$> (re_status <$> Reg.lookup "a" store2) = Some 500000 /\
  as_reason <$> (re_status <$> Reg.lookup "a" store3) = Some (Some tr_stale).
Proof. vm_compute. by split_and!. Qed.
