(* ===== verification/Sweeper.v ===== *)
(** * Sweeping terminated agents

    [kernel/engine-reconcile/src/terminated-sweeper.ts]: the controller that
    removes terminated agents from the registry when their time to live is up.
    A registry may answer a removal at once or with a promise; in the second
    case the call holds a lease of ten seconds.  Failed removals are repeated
    with exponential, jittered delays.  The callbacks of a promise run as steps
    of their own, between which passes and other callbacks may run. *)

From S2P Require Import Prelude JsMap Lifecycle Registry Runner.

Local Open Scope string_scope.
Local Open Scope list_scope.
Local Open Scope Z_scope.

Definition DEFAULT_TTL_MS : Z := 30 * 60 * 1000.
Definition IN_FLIGHT_RECHECK_MS : Z := 1000.
Definition RETRY_BASE_MS : Z := 1000.
Definition RETRY_MAX_MS : Z := 60000.
Definition RETRY_CAP_ATTEMPTS : Z := 8.
Definition ASYNC_DEREGISTER_TIMEOUT_MS : Z := 10000.

Record Sweeper : Type := mkSweeper {
  sw_failedAttempts : list (AgentId * Z);
  sw_nextRetryAt : list (AgentId * Z);
  sw_inFlight : list AgentId;
  sw_inFlightStartedAt : list (AgentId * Z);
  sw_inFlightToken : list (AgentId * Z);
  sw_tokenCounter : Z
}.

Definition createTerminatedSweeper : Sweeper := mkSweeper [] [] [] [] [] 0.

(** [inFlight.delete], [inFlightStartedAt.delete], [inFlightToken.delete] *)
Definition end_lease (id : AgentId) (s : Sweeper) : Sweeper :=
  mkSweeper (sw_failedAttempts s) (sw_nextRetryAt s) (s_delete id (sw_inFlight s))
    (m_delete id (sw_inFlightStartedAt s)) (m_delete id (sw_inFlightToken s)) (sw_tokenCounter s).

Definition clearRetryState (id : AgentId) (s : Sweeper) : Sweeper :=
  end_lease id
    (mkSweeper (m_delete id (sw_failedAttempts s)) (m_delete id (sw_nextRetryAt s)) (sw_inFlight s)
       (sw_inFlightStartedAt s) (sw_inFlightToken s) (sw_tokenCounter s)).

(** [hash = (hash * 33 + ch.charCodeAt(0)) >>> 0] *)
Fixpoint hash_from (hash : Z) (seed : string) : Z :=
  match seed with
  | EmptyString => hash
  | String ch seed => hash_from ((hash * 33 + Z.of_nat (Ascii.nat_of_ascii ch)) mod 2 ^ 32) seed
  end.

(** [Math.floor(baseDelay * 0.2)] is a fifth for every delay that occurs. *)
Definition computeRetryDelay (id : AgentId) (attempt : Z) : Z :=
  let exponent := Z.max 0 (attempt - 1) in
  let baseDelay := Z.min (RETRY_BASE_MS * 2 ^ exponent) RETRY_MAX_MS in
  let jitterSpan := baseDelay / 5 in
  if decide (jitterSpan = 0) then baseDelay
  else
    let hash := hash_from 0 (id +:+ ":" +:+ pretty attempt) in
    let jitter := hash mod (jitterSpan * 2 + 1) - jitterSpan in
    Z.max 1 (baseDelay + jitter).

Definition scheduleRetry (now : Z) (id : AgentId) (s : Sweeper) : ReconcileResult * Sweeper :=
  let attempt := default 0 (m_get id (sw_failedAttempts s)) + 1 in
  let retry_at t :=
    mkSweeper (m_set id attempt (sw_failedAttempts s)) (m_set id t (sw_nextRetryAt s)) (sw_inFlight s)
      (sw_inFlightStartedAt s) (sw_inFlightToken s) (sw_tokenCounter s) in
  if RETRY_CAP_ATTEMPTS <=? attempt then (R_recheck RETRY_MAX_MS, retry_at (now + RETRY_MAX_MS))
  else
    let delay := computeRetryDelay id attempt in
    (R_retry delay, retry_at (now + delay)).

(** How the registry answers [deregister]. *)
Inductive Answer : Type :=
  | a_now (removed : bool)
  | a_promise.

(** [afterMs] of a schedule. *)
Definition afterMs (r : ReconcileResult) : Z :=
  match r with R_retry ms | R_recheck ms => ms | _ => 0 end.

(** [registry.deregister(agentId)] and what becomes of the answer. *)
Definition call_deregister (now : Z) (id : AgentId) (answer : Answer) (s : Sweeper) : ReconcileResult * Sweeper :=
  match answer with
  | a_promise =>
      let token := sw_tokenCounter s + 1 in
      (R_recheck IN_FLIGHT_RECHECK_MS,
       mkSweeper (sw_failedAttempts s) (m_delete id (sw_nextRetryAt s)) (s_add id (sw_inFlight s))
         (m_set id now (sw_inFlightStartedAt s)) (m_set id token (sw_inFlightToken s)) token)
  | a_now false => scheduleRetry now id s
  | a_now true => (R_converged, clearRetryState id s)
  end.

Section Sweeping.
Variable ttlMs : Z.

(** The result, whether [deregister] was called, and the new state.  The clock,
    read several times within a pass that does not wait, is read once. *)
Definition evaluate (now : Z) (id : AgentId) (entry : option RegistryEntry) (answer : Answer) (s : Sweeper)
    : ReconcileResult * bool * Sweeper :=
  match entry with
  | None => (R_converged, false, clearRetryState id s)
  | Some e =>
      if negb (bool_decide (as_phase (re_status e) = terminated)) then
        (R_converged, false, clearRetryState id s)
      else
        let elapsed := now - as_lastTransitionAt (re_status e) in
        if ttlMs <=? elapsed then
          if s_has id (sw_inFlight s) then
            let startedAt := default now (m_get id (sw_inFlightStartedAt s)) in
            let elapsedInFlight := now - startedAt in
            if elapsedInFlight <? ASYNC_DEREGISTER_TIMEOUT_MS then
              (R_recheck (Z.max 1 (ASYNC_DEREGISTER_TIMEOUT_MS - elapsedInFlight)), false, s)
            else
              let '(scheduled, s) := scheduleRetry now id (end_lease id s) in
              (R_recheck (afterMs scheduled), false, s)
          else
            let wait_more :=
              match m_get id (sw_nextRetryAt s) with
              | Some retryAt => if 0 <? retryAt - now then Some (retryAt - now) else None
              | None => None
              end in
            match wait_more with
            | Some remaining => (R_recheck (Z.max 1 remaining), false, s)
            | None =>
                let '(result, s) := call_deregister now id answer s in (result, true, s)
            end
        else (R_recheck (Z.max 1 (Z.min (ttlMs - elapsed) 60000)), false, s)
  end.

(** The [then] or [catch] callback of the call with this token; [None] stands
    for a rejected promise. *)
Definition on_settled (now : Z) (id : AgentId) (token : Z) (removed : option bool) (s : Sweeper) : Sweeper :=
  if decide (m_get id (sw_inFlightToken s) = Some token) then
    match removed with
    | Some true => clearRetryState id s
    | Some false | None => (scheduleRetry now id s).2
    end
  else s.

(** The [finally] callback. *)
Definition on_finally (id : AgentId) (token : Z) (s : Sweeper) : Sweeper :=
  if decide (m_get id (sw_inFlightToken s) = Some token) then end_lease id s else s.

(** ** Runs

    The clock, the promises that are out (with a flag once their first callback
    has run) and the log of calls to [deregister] around the sweeper. *)

Record World : Type := mkWorld {
  w_now : Z;
  w_sweeper : Sweeper;
  w_pending : list (AgentId * Z * bool);
  w_calls : list (AgentId * Z)
}.

Definition initial (now : Z) : World := mkWorld now createTerminatedSweeper [] [].

Inductive Op : Type :=
  | op_tick (d : N)
  | op_pass (id : AgentId) (entry : option RegistryEntry) (answer : Answer)
  | op_settle (id : AgentId) (token : Z) (removed : option bool)
  | op_finally (id : AgentId) (token : Z).

Definition pass (id : AgentId) (entry : option RegistryEntry) (answer : Answer) (w : World)
    : ReconcileResult * bool * World :=
  let '(result, called, s) := evaluate (w_now w) id entry answer (w_sweeper w) in
  (result, called,
   mkWorld (w_now w) s
     (match answer with
      | a_promise => if called then (id, sw_tokenCounter s, false) :: w_pending w else w_pending w
      | a_now _ => w_pending w
      end)
     (if called : bool then w_calls w ++ [(id, w_now w)] else w_calls w)).

Definition step (w : World) (op : Op) : World :=
  match op with
  | op_tick d => mkWorld (w_now w + Z.of_N d) (w_sweeper w) (w_pending w) (w_calls w)
  | op_pass id entry answer => (pass id entry answer w).2
  | op_settle id token removed =>
      if decide ((id, token, false) ∈ w_pending w) then
        mkWorld (w_now w) (on_settled (w_now w) id token removed (w_sweeper w))
          ((id, token, true) :: filter (fun p => p ≠ (id, token, false)) (w_pending w)) (w_calls w)
      else w
  | op_finally id token =>
      if decide ((id, token, true) ∈ w_pending w) then
        mkWorld (w_now w) (on_finally id token (w_sweeper w))
          (filter (fun p => p ≠ (id, token, true)) (w_pending w)) (w_calls w)
      else w
  end.

Definition run (now : Z) (ops : list Op) : World := foldl step (initial now) ops.

(** ** Delays *)

#[local] Ltac Zify.zify_post_hook ::= Z.to_euclidean_division_equations.

(** A fifth below the base delay of an attempt. *)
Definition delay_floor (attempt : Z) : Z :=
  let base := Z.min (RETRY_BASE_MS * 2 ^ Z.max 0 (attempt - 1)) RETRY_MAX_MS in base - base / 5.

Lemma delay_floor_mono a b : a <= b -> delay_floor a <= delay_floor b.
Proof.
  intros Hab. unfold delay_floor, RETRY_BASE_MS, RETRY_MAX_MS. cbv zeta.
  assert (H2 : 2 ^ Z.max 0 (a - 1) <= 2 ^ Z.max 0 (b - 1)) by (apply Z.pow_le_mono_r; lia).
  revert H2. generalize (2 ^ Z.max 0 (a - 1)) (2 ^ Z.max 0 (b - 1)). intros x y Hxy.
  assert (Hm : Z.min (1000 * x) 60000 <= Z.min (1000 * y) 60000) by lia.
  revert Hm. generalize (Z.min (1000 * x) 60000) (Z.min (1000 * y) 60000). lia.
Qed.

Lemma delay_floor_bounds a : 800 <= delay_floor a <= 48000.
Proof.
  unfold delay_floor, RETRY_BASE_MS, RETRY_MAX_MS. cbv zeta.
  assert (Hp : 0 < 2 ^ Z.max 0 (a - 1)) by (apply Z.pow_pos_nonneg; lia). lia.
Qed.

Lemma computeRetryDelay_bounds id a : delay_floor a <= computeRetryDelay id a <= 72000.
Proof.
  unfold computeRetryDelay, delay_floor. set (base := Z.min _ _).
  assert (Hb : 1000 <= base <= 60000).
  { subst base. unfold RETRY_BASE_MS, RETRY_MAX_MS.
    assert (Hp : 0 < 2 ^ Z.max 0 (a - 1)) by (apply Z.pow_pos_nonneg; lia). lia. }
  clearbody base. cbv zeta. case_decide; [lia|]. set (h := hash_from _ _).
  pose proof (Z.mod_pos_bound h (base / 5 * 2 + 1)). lia.
Qed.

(** ** One agent at a time

    What the five maps say about one agent, and what the operations do to it.
    No operation on one agent touches another. *)

Record View : Type := mkView {
  v_failures : Z;
  v_retryAt : option Z;
  v_flight : bool;
  v_since : option Z;
  v_token : option Z
}.

Definition view (id : AgentId) (s : Sweeper) : View :=
  mkView (default 0 (m_get id (sw_failedAttempts s))) (m_get id (sw_nextRetryAt s)) (s_has id (sw_inFlight s))
    (m_get id (sw_inFlightStartedAt s)) (m_get id (sw_inFlightToken s)).

Definition v_clear : View := mkView 0 None false None None.
Definition v_end_lease (v : View) : View := mkView (v_failures v) (v_retryAt v) false None None.
Definition v_retry (t : Z) (v : View) : View :=
  mkView (v_failures v + 1) (Some t) (v_flight v) (v_since v) (v_token v).
Definition v_lease (now token : Z) (v : View) : View :=
  mkView (v_failures v) None true (Some now) (Some token).

(** Everything but the agent's view. *)
Definition touches (id : AgentId) (s s' : Sweeper) (v : View) : Prop :=
  sw_tokenCounter s <= sw_tokenCounter s' /\
  forall id', view id' s' = if decide (id' = id) then v else view id' s.

Lemma s_has_delete (id id' : AgentId) l :
  s_has id' (s_delete id l) = if decide (id' = id) then false else s_has id' l.
Proof.
  unfold s_has. case_decide; [apply bool_decide_eq_false|apply bool_decide_ext];
    rewrite elem_of_s_delete; naive_solver.
Qed.

Lemma s_has_add (id id' : AgentId) l :
  s_has id' (s_add id l) = if decide (id' = id) then true else s_has id' l.
Proof.
  unfold s_has. case_decide; [apply bool_decide_eq_true|apply bool_decide_ext];
    rewrite elem_of_s_add; naive_solver.
Qed.

Ltac touch :=
  split; [simpl; lia|];
  intros id'; unfold view; simpl;
  rewrite ?m_get_delete, ?m_get_set, ?s_has_delete, ?s_has_add;
  repeat case_decide; subst; first [done | congruence].

Lemma end_lease_touches id s : touches id s (end_lease id s) (v_end_lease (view id s)).
Proof. touch. Qed.

Lemma clearRetryState_touches id s : touches id s (clearRetryState id s) v_clear.
Proof. touch. Qed.

Lemma scheduleRetry_touches now id s : exists t,
  touches id s (scheduleRetry now id s).2 (v_retry t (view id s)) /\
  afterMs (scheduleRetry now id s).1 = t - now /\
  delay_floor (v_failures (view id s) + 1) <= t - now <= 72000.
Proof.
  unfold scheduleRetry. change (default 0 (m_get id (sw_failedAttempts s))) with (v_failures (view id s)).
  set (a := v_failures (view id s) + 1). cbv zeta.
  pose proof (computeRetryDelay_bounds id a). pose proof (delay_floor_bounds a). unfold RETRY_MAX_MS.
  destruct (RETRY_CAP_ATTEMPTS <=? a); simpl; eexists; (split; [touch|lia]).
Qed.

Lemma touches_trans id s1 s2 s3 v v' : touches id s1 s2 v -> touches id s2 s3 v' -> touches id s1 s3 v'.
Proof.
  intros [H1 H2] [H3 H4]. split; [lia|]. intros id'. rewrite H4. case_decide; [done|]. by rewrite H2, decide_False.
Qed.

Lemma touches_self id s s' v : touches id s s' v -> view id s' = v.
Proof. intros [_ H]. by rewrite H, decide_True. Qed.

Lemma touches_none id s : touches id s s (view id s).
Proof. split; [lia|]. intros id'. case_decide; by subst. Qed.

(** What a call to [deregister] leads to. *)
Definition called_view (now : Z) (answer : Answer) (v : View) (r : ReconcileResult) (v' : View) : Prop :=
  match answer with
  | a_promise => r = R_recheck 1000 /\ exists token, v' = v_lease now token v
  | a_now true => r = R_converged /\ v' = v_clear
  | a_now false => exists t, afterMs r = t - now /\ v' = v_retry t v /\
      delay_floor (v_failures v + 1) <= t - now <= 72000
  end.

(** The outcomes of a pass, as the agent sees them. *)
Inductive passed (now : Z) (entry : option RegistryEntry) (answer : Answer) (v : View)
    : ReconcileResult -> bool -> View -> Prop :=
  | p_gone : (forall e, entry = Some e -> as_phase (re_status e) ≠ terminated) ->
      passed now entry answer v R_converged false v_clear
  | p_early e : entry = Some e -> as_phase (re_status e) = terminated ->
      now - as_lastTransitionAt (re_status e) < ttlMs ->
      passed now entry answer v
        (R_recheck (Z.max 1 (Z.min (ttlMs - (now - as_lastTransitionAt (re_status e))) 60000))) false v
  | p_leased e since : entry = Some e -> as_phase (re_status e) = terminated ->
      ttlMs <= now - as_lastTransitionAt (re_status e) -> v_flight v = true ->
      since = default now (v_since v) -> now < since + 10000 ->
      passed now entry answer v (R_recheck (Z.max 1 (10000 - (now - since)))) false v
  | p_expired e t : entry = Some e -> as_phase (re_status e) = terminated ->
      ttlMs <= now - as_lastTransitionAt (re_status e) -> v_flight v = true ->
      default now (v_since v) + 10000 <= now ->
      delay_floor (v_failures v + 1) <= t - now <= 72000 ->
      passed now entry answer v (R_recheck (t - now)) false (v_retry t (v_end_lease v))
  | p_waits e t : entry = Some e -> as_phase (re_status e) = terminated ->
      ttlMs <= now - as_lastTransitionAt (re_status e) -> v_flight v = false ->
      v_retryAt v = Some t -> now < t ->
      passed now entry answer v (R_recheck (Z.max 1 (t - now))) false v
  | p_called e r v' : entry = Some e -> as_phase (re_status e) = terminated ->
      ttlMs <= now - as_lastTransitionAt (re_status e) -> v_flight v = false ->
      (forall t, v_retryAt v = Some t -> t <= now) ->
      called_view now answer v r v' ->
      passed now entry answer v r true v'.

Lemma call_deregister_touches now id answer s : exists r s' v',
  call_deregister now id answer s = (r, s') /\ touches id s s' v' /\ called_view now answer (view id s) r v' /\
  (answer = a_promise -> v_token v' = Some (sw_tokenCounter s') /\ sw_tokenCounter s < sw_tokenCounter s').
Proof.
  destruct answer as [[]|]; simpl.
  - do 3 eexists. split; [done|]. split; [apply clearRetryState_touches|done].
  - destruct (scheduleRetry_touches now id s) as (t & Ht & Ha & Hb).
    destruct (scheduleRetry now id s) as [r s'] eqn:E. cbn [fst snd] in *.
    do 3 eexists. split; [done|]. split; [done|]. split; [eauto|done].
  - do 2 eexists. exists (v_lease now (sw_tokenCounter s + 1) (view id s)).
    split; [done|]. split; [touch|]. split; [eauto|]. simpl. split; [done|lia].
Qed.

Lemma evaluate_touches now id entry answer s : exists r called s' v',
  evaluate now id entry answer s = (r, called, s') /\ touches id s s' v' /\
  passed now entry answer (view id s) r called v' /\
  (called = true -> answer = a_promise -> v_token v' = Some (sw_tokenCounter s') /\
     sw_tokenCounter s < sw_tokenCounter s').
Proof.
  unfold evaluate. destruct entry as [e|].
  2:{ do 4 eexists. split; [done|]. split; [apply clearRetryState_touches|]. split; [by apply p_gone|done]. }
  destruct (bool_decide (as_phase (re_status e) = terminated)) eqn:Et; simpl.
  2:{ apply bool_decide_eq_false in Et. do 4 eexists. split; [done|]. split; [apply clearRetryState_touches|].
      split; [apply p_gone; naive_solver|done]. }
  apply bool_decide_eq_true in Et. destruct (Z.leb_spec ttlMs (now - as_lastTransitionAt (re_status e))) as [Hd|Hd].
  2:{ do 4 eexists. split; [done|]. split; [apply touches_none|]. split; [by eapply p_early|done]. }
  destruct (s_has id (sw_inFlight s)) eqn:Ef.
  - unfold ASYNC_DEREGISTER_TIMEOUT_MS. destruct (Z.ltb_spec (now - default now (m_get id (sw_inFlightStartedAt s))) 10000).
    + do 4 eexists. split; [done|]. split; [apply touches_none|].
      split; [|done]. eapply p_leased; simpl; try done. lia.
    + destruct (scheduleRetry_touches now id (end_lease id s)) as (t & Ht & Ha & Hb).
      destruct (scheduleRetry now id (end_lease id s)) as [r s'] eqn:E. cbn [fst snd] in *.
      pose proof (touches_self _ _ _ _ (end_lease_touches id s)) as Hv. rewrite Hv in Ht, Hb.
      do 4 eexists. split; [done|]. split; [eapply touches_trans; [apply end_lease_touches|done]|].
      split; [|done]. rewrite Ha. eapply p_expired; simpl; try done. lia.
  - destruct (m_get id (sw_nextRetryAt s)) as [t|] eqn:Er; [destruct (Z.ltb_spec 0 (t - now))|].
    { do 4 eexists. split; [done|]. split; [apply touches_none|].
      split; [|done]. eapply p_waits; simpl; try done. lia. }
    all: destruct (call_deregister_touches now id answer s) as (r & s' & v' & Hc & Ht & Hv & Hn); rewrite Hc;
      do 4 eexists; (split; [done|]); (split; [done|]); (split; [eapply p_called; eauto|by eauto]);
      simpl; rewrite Er; naive_solver lia.
Qed.

(** ** The invariant *)

(** [mine token settled]: the agent has a promise out with that token. *)
Record view_ok (now : Z) (mine : Z -> bool -> Prop) (v : View) : Prop := {
  vo_flight : v_flight v = true -> exists since token, v_since v = Some since /\ v_token v = Some token /\
    since <= now /\ (mine token false /\ v_retryAt v = None \/ mine token true /\ is_Some (v_retryAt v));
  vo_idle : v_flight v = false -> v_token v = None;
  vo_retry t : v_retryAt v = Some t -> t <= now + 72000;
  vo_failures : 0 <= v_failures v
}.

Record world_ok (w : World) : Prop := {
  wo_view id : view_ok (w_now w) (fun token settled => (id, token, settled) ∈ w_pending w) (view id (w_sweeper w));
  wo_token id token settled : (id, token, settled) ∈ w_pending w -> token <= sw_tokenCounter (w_sweeper w);
  wo_once id token : (id, token, false) ∈ w_pending w -> (id, token, true) ∉ w_pending w
}.

Lemma view_ok_mono now now' (mine mine' : Z -> bool -> Prop) v :
  now <= now' -> (forall t b, mine t b -> mine' t b) -> view_ok now mine v -> view_ok now' mine' v.
Proof.
  intros Hn Hm [Hf Hi Hr H0]. split; [|done| |done].
  - intros (since & token & Hs & Ht & Hle & Hcase)%Hf. exists since, token. split_and!; [done|done|lia|].
    naive_solver.
  - intros t Ht%Hr. lia.
Qed.

Lemma view_ok_clear now mine : view_ok now mine v_clear.
Proof. by split. Qed.

Lemma view_ok_retry now (mine : Z -> bool -> Prop) v t :
  view_ok now mine v -> (forall token, v_token v = Some token -> mine token true) -> t - now <= 72000 ->
  view_ok now mine (v_retry t v).
Proof.
  intros [Hf Hi Hr H0] Hm Ht. split; simpl; [|done| |lia].
  - intros (since & token & Hs & Htk & Hle & _)%Hf. exists since, token. split_and!; try done. right. split; auto.
  - intros ? [= ->]. lia.
Qed.

Lemma view_ok_end now mine v : view_ok now mine v -> view_ok now mine (v_end_lease v).
Proof. intros [Hf Hi Hr H0]. by split. Qed.

(** A step of one agent: the views of the others stay, and so do their promises. *)
Lemma world_ok_step w id now' s' v' pending' calls' :
  world_ok w -> w_now w <= now' -> touches id (w_sweeper w) s' v' ->
  view_ok now' (fun token settled => (id, token, settled) ∈ pending') v' ->
  (forall id' token settled, id' ≠ id -> (id', token, settled) ∈ pending' <-> (id', token, settled) ∈ w_pending w) ->
  (forall token settled, (id, token, settled) ∈ pending' -> token <= sw_tokenCounter s') ->
  (forall token, (id, token, false) ∈ pending' -> (id, token, true) ∉ pending') ->
  world_ok (mkWorld now' s' pending' calls').
Proof.
  intros [Hv Ht Ho] Hn [Hc Htv] Hok Hp Hb Hu. split; simpl.
  - intros id'. rewrite Htv. case_decide as Hd; [by subst|]. eapply view_ok_mono; [done| |apply Hv].
    intros t b. by rewrite Hp.
  - intros id' t b Hin. destruct (decide (id' = id)) as [->|Hd]; [by eapply Hb|]. apply Hp in Hin; [|done].
    apply Ht in Hin. lia.
  - intros id' t Hin. destruct (decide (id' = id)) as [->|Hd]; [by apply Hu|]. rewrite Hp by done.
    apply Ho. by apply Hp.
Qed.

Lemma pass_world_ok id entry answer w : world_ok w -> world_ok (pass id entry answer w).2.
Proof.
  intros Hw. unfold pass.
  destruct (evaluate_touches (w_now w) id entry answer (w_sweeper w)) as (r & called & s' & v' & -> & Ht & Hp & Hn).
  pose proof (wo_view w Hw id) as Hv. simpl.
  assert (called = true /\ answer = a_promise \/ ~ (called = true /\ answer = a_promise)) as [[-> ->]|Hno]
    by (destruct called, answer; naive_solver).
  - destruct (Hn eq_refl eq_refl) as [Htok Hlt]. inversion Hp as [| | | | |e r' w' H1 H2 H3 H4 H5 H6]; subst.
    destruct H6 as [_ [token H6]]. rewrite H6 in Ht, Htok. injection Htok as ->.
    eapply world_ok_step; [done|reflexivity|done| | | |].
    + split; simpl; [|done|done|apply Hv]. intros _. do 2 eexists. split_and!; [done..|]. left. split; [by left|done].
    + intros id' t b Hne. rewrite elem_of_cons. naive_solver.
    + intros t b [[= -> ->]|Hin]%elem_of_cons; [done|]. apply (wo_token w Hw) in Hin. lia.
    + intros t [[= ->]|Hin]%elem_of_cons; rewrite elem_of_cons.
      * intros [?|Hin]; [done|]. apply (wo_token w Hw) in Hin. lia.
      * intros [?|Hin']; [done|]. by apply (wo_once w Hw _ _ Hin).
  - assert (Hpend : match answer with
      | a_promise => if called then (id, sw_tokenCounter s', false) :: w_pending w else w_pending w
      | a_now _ => w_pending w end = w_pending w).
    { destruct answer; [done|]. destruct called; naive_solver. }
    rewrite Hpend. eapply world_ok_step; [done|reflexivity|done| |done| |apply Hw].
    2:{ intros t b Hin. apply (wo_token w Hw) in Hin. destruct Ht. lia. }
    inversion Hp as [| | |e t|  |e r' w' H1 H2 H3 H4 H5 H6]; subst; try done.
    + apply view_ok_retry; [by apply view_ok_end|done|lia].
    + destruct answer as [[]|]; simpl in H6; [destruct H6 as [_ ->]; apply view_ok_clear| |naive_solver].
      destruct H6 as (t & _ & -> & ?). apply view_ok_retry; [done| |lia].
      rewrite (vo_idle _ _ _ Hv) by done. done.
Qed.

(** The promise of [token] moves on: other promises stay as they were. *)
Lemma view_ok_promises now (mine mine' : Z -> bool -> Prop) token v :
  view_ok now mine v -> (forall t b, t ≠ token -> mine t b -> mine' t b) ->
  (v_token v = Some token -> mine' token true /\ is_Some (v_retryAt v)) -> view_ok now mine' v.
Proof.
  intros [Hf Hi Hr H0] Hm Ht. split; [|done|done|done]. intros (since & tk & H1 & H2 & H3 & H4)%Hf.
  exists since, tk. split_and!; [done..|]. destruct (decide (tk = token)) as [->|Hne]; [right; auto|].
  naive_solver.
Qed.

Lemma on_settled_view w id token removed (mine' : Z -> bool -> Prop) :
  let mine := fun t b => (id, t, b) ∈ w_pending w in
  view_ok (w_now w) mine (view id (w_sweeper w)) ->
  mine' token true -> (forall t b, t ≠ token -> mine t b -> mine' t b) ->
  exists v', touches id (w_sweeper w) (on_settled (w_now w) id token removed (w_sweeper w)) v' /\
    view_ok (w_now w) mine' v'.
Proof.
  intros mine Hv Htrue Hm. unfold on_settled. case_decide as Htok.
  2:{ eexists. split; [apply touches_none|]. by eapply view_ok_promises. }
  assert (Hretry : forall t, t - w_now w <= 72000 -> view_ok (w_now w) mine' (v_retry t (view id (w_sweeper w)))).
  { intros t Ht. pose proof (view_ok_retry (w_now w) (fun t b => t = token \/ mine t b) (view id (w_sweeper w)) t)
      as Hr. eapply (view_ok_promises _ _ _ token); [apply Hr; [|simpl; rewrite Htok; naive_solver|done]| |].
    - eapply view_ok_mono; [reflexivity| |done]. naive_solver.
    - naive_solver.
    - simpl. eauto. }
  destruct removed as [[]|].
  1: eexists; split; [apply clearRetryState_touches|apply view_ok_clear].
  all: destruct (scheduleRetry_touches (w_now w) id (w_sweeper w)) as (t & Hto & _ & Hb); eexists;
    split; [done|apply Hretry; lia].
Qed.

Lemma settle_world_ok w id token removed :
  world_ok w -> world_ok (step w (op_settle id token removed)).
Proof.
  intros Hw. simpl. case_decide as Hin; [|done]. set (rest := _ :: filter _ _).
  assert (Hrest : forall id' t b, (id', t, b) ∈ rest <->
    (id', t, b) = (id, token, true) \/ (id', t, b) ≠ (id, token, false) /\ (id', t, b) ∈ w_pending w).
  { intros. subst rest. by rewrite elem_of_cons, list_elem_of_filter. }
  clearbody rest. destruct (on_settled_view w id token removed (fun t b => (id, t, b) ∈ rest)) as (v' & Ht & Hok).
  { apply Hw. } { apply Hrest. by left. } { intros t b Hne Hm. apply Hrest. right. split; [congruence|done]. }
  eapply world_ok_step; [done|reflexivity|done|done| | |].
  - intros id' t b Hne. rewrite Hrest. naive_solver.
  - intros t b. rewrite Hrest. destruct Ht as [Hc _].
    intros [[= -> ->]|[_ Hi]]; [apply (wo_token w Hw) in Hin|apply (wo_token w Hw) in Hi]; lia.
  - intros t. rewrite !Hrest. pose proof (wo_once w Hw id t). naive_solver.
Qed.

Lemma finally_world_ok w id token : world_ok w -> world_ok (step w (op_finally id token)).
Proof.
  intros Hw. simpl. case_decide as Hin; [|done]. set (rest := filter _ _).
  assert (Hrest : forall id' t b, (id', t, b) ∈ rest <->
    (id', t, b) ≠ (id, token, true) /\ (id', t, b) ∈ w_pending w).
  { intros. subst rest. by rewrite list_elem_of_filter. }
  clearbody rest.
  assert (Ht : exists v', touches id (w_sweeper w) (on_finally id token (w_sweeper w)) v' /\
    view_ok (w_now w) (fun t b => (id, t, b) ∈ rest) v').
  { pose proof (wo_view w Hw id) as Hv. unfold on_finally. case_decide as Htok.
    - eexists. split; [apply end_lease_touches|]. destruct Hv as [_ _ Hr H0]. by split.
    - eexists. split; [apply touches_none|]. eapply view_ok_promises; [done| |done].
      intros t b Hne Hm. apply Hrest. split; [congruence|done]. }
  destruct Ht as (v' & Ht & Hok). eapply world_ok_step; [done|reflexivity|done|done| | |].
  - intros id' t b Hne. rewrite Hrest. naive_solver.
  - intros t b [_ Hi]%Hrest. apply (wo_token w Hw) in Hi. destruct Ht. lia.
  - intros t [_ Hi]%Hrest [_ Hi']%Hrest. by apply (wo_once w Hw _ _ Hi).
Qed.

Lemma step_world_ok w op : world_ok w -> world_ok (step w op).
Proof.
  intros Hw. destruct op as [d|id entry answer|id token removed|id token].
  - destruct Hw as [Hv Ht Ho]. split; simpl; [|done|done]. intros id.
    eapply view_ok_mono; [| |apply Hv]; [lia|done].
  - by apply pass_world_ok.
  - by apply settle_world_ok.
  - by apply finally_world_ok.
Qed.

Lemma run_world_ok now ops : world_ok (run now ops).
Proof.
  unfold run. assert (H0 : world_ok (initial now)) by (split; [intros id; apply view_ok_clear|by intros ? ? ? ?%elem_of_nil|by intros ? ? ?%elem_of_nil]).
  revert H0. generalize (initial now). induction ops as [|op ops IH]; intros w Hw; [done|].
  by apply IH, step_world_ok.
Qed.

(** ** Back-off *)

(** Nothing in this step shows that the agent is gone, or not terminated. *)
Definition still_there (id : AgentId) (op : Op) : Prop :=
  match op with
  | op_pass id' entry answer =>
      id' = id -> answer ≠ a_now true /\ exists e, entry = Some e /\ as_phase (re_status e) = terminated
  | op_settle id' _ removed => id' = id -> removed ≠ Some true
  | _ => True
  end.

(** No further call before [due], after at least [n] failures. *)
Definition held_back (id : AgentId) (due : Z) (n : Z) (w : World) : Prop :=
  let v := view id (w_sweeper w) in
  due <= w_now w \/
  n <= v_failures v /\ due - delay_floor (n + 1) <= w_now w /\
  (v_flight v = true /\ v_retryAt v = None \/ exists t, v_retryAt v = Some t /\ due <= t).

Lemma held_back_step id due n w op :
  world_ok w -> still_there id op -> held_back id due n w -> held_back id due n (step w op).
Proof.
  intros Hw Hs [Hd|(Hn & Hlo & Hcase)].
  { left. destruct op; simpl; unfold pass; repeat case_match; simpl; try lia; case_decide; simpl; lia. }
  assert (Hsched : forall t f, n <= f -> delay_floor (f + 1) <= t - w_now w -> due <= t).
  { intros t f Hf Ht. pose proof (delay_floor_mono (n + 1) (f + 1)). lia. }
  destruct op as [d|id' entry answer|id' token removed|id' token]; simpl.
  - right. simpl. split; [done|]. split; [lia|done].
  - unfold pass.
    destruct (evaluate_touches (w_now w) id' entry answer (w_sweeper w)) as (r & called & s' & v' & -> & Ht & Hp & _).
    unfold held_back. cbv zeta. cbn [w_sweeper w_now fst snd]. destruct (decide (id' = id)) as [->|Hne].
    2:{ destruct Ht as [_ Ht]. rewrite Ht, decide_False by done. by right. }
    rewrite (touches_self _ _ _ _ Ht). destruct (Hs eq_refl) as (Hno & e & -> & He).
    inversion Hp as [Hg|e' H1|e' si H1|e' t H1 H2 H3 H4 H5 H6|e' t H1 H2 H3 H4 H5 H6|e' r' w' H1 H2 H3 H4 H5 H6]; subst;
      [by destruct (Hg e)|by right|by right| |by right|].
    + right. cbn [v_retry v_end_lease v_failures v_retryAt]. split; [lia|]. split; [done|]. right. exists t. split; [done|]. eapply Hsched; [exact Hn|apply H6].
    + left. destruct Hcase as [[Hf _]|(t & Ht' & Hdt)]; [congruence|]. specialize (H5 t Ht'). lia.
  - case_decide as Hin; [|by right]. unfold held_back. cbv zeta. cbn [w_sweeper w_now fst snd]. destruct (decide (id' = id)) as [->|Hne].
    2:{ right. unfold on_settled. case_decide; [|done]. destruct removed as [[]|].
        - by rewrite (proj2 (clearRetryState_touches id' (w_sweeper w))), decide_False.
        - destruct (scheduleRetry_touches (w_now w) id' (w_sweeper w)) as (t & [_ Ht] & _). by rewrite Ht, decide_False.
        - destruct (scheduleRetry_touches (w_now w) id' (w_sweeper w)) as (t & [_ Ht] & _). by rewrite Ht, decide_False. }
    right. unfold on_settled. case_decide; [|done].
    destruct removed as [[]|]; [exfalso; by apply (Hs eq_refl)| |];
      destruct (scheduleRetry_touches (w_now w) id (w_sweeper w)) as (t & Ht & _ & Hb);
      rewrite (touches_self _ _ _ _ Ht); cbn [v_retry v_failures v_retryAt]; (split; [lia|]); (split; [done|]); right; exists t;
      (split; [done|]); apply (Hsched t (v_failures (view id (w_sweeper w)))); lia.
  - case_decide as Hin; [|by right]. right. cbn [w_sweeper w_now fst snd]. unfold on_finally. case_decide as Htok; [|done].
    destruct (decide (id' = id)) as [->|Hne];
      [|by rewrite (proj2 (end_lease_touches id' (w_sweeper w))), decide_False].
    rewrite (touches_self _ _ _ _ (end_lease_touches id (w_sweeper w))). split; [done|]. split; [done|]. right.
    destruct Hcase as [[Hf Hr]|Ht]; [|done].
    destruct (vo_flight _ _ _ (wo_view w Hw id) Hf) as (si & tk & _ & H2 & _ & [[H3 _]|[_ [? H4]]]); [|congruence].
    simpl in H2. rewrite Htok in H2. injection H2 as <-. by destruct (wo_once w Hw _ _ H3).
Qed.

Lemma pass_cases id entry answer w : exists r called w' v',
  pass id entry answer w = (r, called, w') /\ passed (w_now w) entry answer (view id (w_sweeper w)) r called v' /\
  view id (w_sweeper w') = v' /\ w_now w' = w_now w /\
  w_calls w' = (if called : bool then w_calls w ++ [(id, w_now w)] else w_calls w).
Proof.
  unfold pass.
  destruct (evaluate_touches (w_now w) id entry answer (w_sweeper w)) as (r & called & s' & v' & -> & Ht & Hp & _).
  do 4 eexists. split; [done|]. split; [done|]. by split; [apply (touches_self _ _ _ _ Ht)|].
Qed.

Definition called (id : AgentId) (entry : option RegistryEntry) (answer : Answer) (w : World) : bool :=
  (pass id entry answer w).1.2.

Definition matured (e : RegistryEntry) (now : Z) : Prop :=
  as_phase (re_status e) = terminated /\ as_lastTransitionAt (re_status e) + ttlMs <= now.

Lemma called_now id e answer w : called id (Some e) answer w = true ->
  matured e (w_now w) /\ v_flight (view id (w_sweeper w)) = false /\
  (forall t, v_retryAt (view id (w_sweeper w)) = Some t -> t <= w_now w) /\
  (answer ≠ a_now true -> held_back id (w_now w + delay_floor (v_failures (view id (w_sweeper w)) + 1))
     (v_failures (view id (w_sweeper w))) (pass id (Some e) answer w).2).
Proof.
  unfold called. destruct (pass_cases id (Some e) answer w) as (r & c & w' & v' & -> & Hp & Hv & Hn & _).
  cbn [fst snd]. intros ->. inversion Hp as [| | | | |e' r' w'' H1 H2 H3 H4 H5 H6]; subst. injection H1 as <-.
  split; [split; [done|lia]|]. split; [done|]. split; [done|]. intros Hno. right. cbv zeta. rewrite Hn.
  destruct answer as [[]|]; [done|destruct H6 as (t & _ & -> & Hb)|destruct H6 as (_ & token & ->)];
    cbn [v_retry v_lease v_failures v_retryAt v_flight]; (split; [lia|]); (split; [lia|]).
  - right. exists t. split; [done|lia].
  - by left.
Qed.

(** The sweeper asks the registry to remove an agent only when the agent
    has been terminated for the whole time to live, and it backs off: after a
    call that did not succeed, and as long as nothing shows that the agent is
    gone, the next call for it comes no earlier than four fifths of a delay that
    doubles with every failure up to a minute - whatever the registry answers,
    however promises are settled, rejected or left open, and whatever happens
    to other agents in between. *)
Lemma removals_back_off now ops1 id e1 answer1 ops2 e2 answer2 :
  let w1 := run now ops1 in
  let w2 := foldl step (step w1 (op_pass id (Some e1) answer1)) ops2 in
  called id (Some e1) answer1 w1 = true -> answer1 ≠ a_now true -> Forall (still_there id) ops2 ->
  called id (Some e2) answer2 w2 = true ->
  matured e1 (w_now w1) /\ matured e2 (w_now w2) /\
  delay_floor (default 0 (m_get id (sw_failedAttempts (w_sweeper w1))) + 1) <= w_now w2 - w_now w1.
Proof.
  intros w1 w2 Hc1 Hno Hstill Hc2.
  destruct (called_now _ _ _ _ Hc1) as (Hm1 & _ & _ & Hheld). specialize (Hheld Hno).
  destruct (called_now _ _ _ _ Hc2) as (Hm2 & Hflight & Hdue & _).
  split; [done|]. split; [done|].
  assert (H2 : held_back id (w_now w1 + delay_floor (v_failures (view id (w_sweeper w1)) + 1))
                 (v_failures (view id (w_sweeper w1))) w2).
  { subst w2. change (step w1 (op_pass id (Some e1) answer1)) with (pass id (Some e1) answer1 w1).2.
    assert (Hok : world_ok (pass id (Some e1) answer1 w1).2) by apply pass_world_ok, run_world_ok.
    clear Hc2 Hm2 Hflight Hdue. revert Hheld Hok. generalize (pass id (Some e1) answer1 w1).2.
    induction Hstill as [|op ops Hop Hops IH]; intros w Hheld Hok; [done|].
    apply IH; [by apply held_back_step|by apply step_world_ok]. }
  unfold view in H2 at 1. cbn [v_failures] in H2.
  destruct H2 as [?|(_ & _ & [[? _]|(t & Ht%Hdue & ?)])]; [lia|congruence|lia].
Qed.

(** ** Progress *)

(** A runner that does what the sweeper asks for: the next pass comes when the
    answer says, until [deregister] is called. *)
Fixpoint follow (fuel : nat) (id : AgentId) (entry : option RegistryEntry) (answer : Answer) (w : World)
    : option World :=
  match fuel with
  | O => None
  | S fuel =>
      let '(r, called, w') := pass id entry answer w in
      if called : bool then Some w'
      else follow fuel id entry answer (step w' (op_tick (Z.to_N (afterMs r))))
  end.

Definition reaches (fuel : nat) (id : AgentId) (e : RegistryEntry) (answer : Answer) (w : World) (by_ : Z) : Prop :=
  exists w' t, follow fuel id (Some e) answer w = Some w' /\ w_calls w' = w_calls w ++ [(id, t)] /\
    w_now w <= t <= by_.

Lemma reaches_next fuel id e answer w by_ r w' :
  pass id (Some e) answer w = (r, false, w') -> w_now w' = w_now w -> w_calls w' = w_calls w -> 0 <= afterMs r ->
  reaches fuel id e answer (step w' (op_tick (Z.to_N (afterMs r)))) by_ -> reaches (S fuel) id e answer w by_.
Proof.
  intros Hp Hn Hc Hr (w'' & t & Hf & Hcalls & Ht). exists w'', t. simpl in *. rewrite Hp. rewrite Hf, Hcalls, Hc.
  split_and!; [done|done|lia|lia].
Qed.

Lemma reaches_idle fuel id e answer w :
  matured e (w_now w) -> v_flight (view id (w_sweeper w)) = false ->
  (forall t, v_retryAt (view id (w_sweeper w)) = Some t -> t <= w_now w + 72000) ->
  reaches (S (S fuel)) id e answer w (w_now w + 72000).
Proof.
  intros [Hph Hm] Hf Hr.
  destruct (pass_cases id (Some e) answer w) as (r & c & w' & v' & Hp & Hc & Hv & Hn & Hcalls).
  inversion Hc as [Hg|e' H1 H2 H3|e' si H1 H2 H3 H4|e' t H1 H2 H3 H4|e' t H1 H2 H3 H4 H5 H6|e' r' v'' H1 H2 H3 H4 H5 H6];
    subst; try (injection H1 as <-); [by destruct (Hg e)|lia|congruence|congruence| |].
  - eapply reaches_next; [done|done|done|simpl; lia|]. set (w2 := step _ _).
    assert (Hn2 : w_now w2 = t) by (subst w2; simpl; lia).
    assert (Hv2 : view id (w_sweeper w2) = view id (w_sweeper w)) by done.
    clearbody w2.
    destruct (pass_cases id (Some e) answer w2) as (r2 & c2 & w3 & v3 & Hp2 & Hc2 & _ & Hn3 & Hcalls2).
    rewrite Hn2, Hv2 in Hc2.
    inversion Hc2 as [Hg|e2 K1 K2 K3|e2 si K1 K2 K3 K4|e2 u K1 K2 K3 K4|e2 u K1 K2 K3 K4 K5 K6|e2 r2' v2 K1 K2 K3 K4 K5 K6];
      subst; try (injection K1 as <-); [by destruct (Hg e)|lia|congruence|congruence|rewrite H5 in K5; simplify_eq; lia|].
    exists w3, (w_now w2). simpl. rewrite Hp2. split; [done|]. split; [done|]. specialize (Hr _ H5). lia.
  - exists w', (w_now w). simpl. rewrite Hp. split; [done|]. split; [done|lia].
Qed.

Lemma reaches_later fuel id e answer w by_ by' : by_ <= by' -> reaches fuel id e answer w by_ -> reaches fuel id e answer w by'.
Proof. intros Hb (w' & t & Hf & Hc & Ht). exists w', t. split_and!; [done|done|lia..]. Qed.

Lemma reaches_expired fuel id e answer w since :
  matured e (w_now w) -> v_flight (view id (w_sweeper w)) = true ->
  v_since (view id (w_sweeper w)) = Some since -> since + 10000 <= w_now w ->
  reaches (S (S (S fuel))) id e answer w (w_now w + 72000).
Proof.
  intros [Hph Hm] Hf Hs Hle.
  destruct (pass_cases id (Some e) answer w) as (r & c & w' & v' & Hp & Hc & Hv & Hn & Hcalls).
  inversion Hc as [Hg|e' H1 H2 H3|e' si H1 H2 H3 H4 H5 H6|e' t H1 H2 H3 H4 H5 H6|e' t H1 H2 H3 H4|e' r' v'' H1 H2 H3 H4];
    subst; try (injection H1 as <-); [by destruct (Hg e)|lia|rewrite Hs in H6; simpl in H6; lia| |congruence|congruence].
  pose proof (delay_floor_bounds (v_failures (view id (w_sweeper w)) + 1)).
  eapply reaches_next; [done|done|done|simpl; lia|]. set (w2 := step _ _).
  assert (Hn2 : w_now w2 = t) by (subst w2; simpl; lia).
  assert (Hv2 : view id (w_sweeper w2) = v_retry t (v_end_lease (view id (w_sweeper w)))) by done.
  clearbody w2. apply (reaches_later _ _ _ _ _ (w_now w2)); [lia|].
  destruct (pass_cases id (Some e) answer w2) as (r2 & c2 & w3 & v3 & Hp2 & Hc2 & _ & Hn3 & Hcalls2).
  rewrite Hv2 in Hc2.
  inversion Hc2 as [Hg|e2 K1 K2 K3|e2 si K1 K2 K3 K4|e2 u K1 K2 K3 K4|e2 u K1 K2 K3 K4 K5 K6|e2 r2' v2 K1 K2 K3 K4 K5 K6];
    subst; try (injection K1 as <-); [by destruct (Hg e)|lia|done|done|simpl in K5; simplify_eq; lia|].
  exists w3, (w_now w2). cbn [follow]. rewrite Hp2. split; [done|]. split; [done|lia].
Qed.

Lemma reaches_mature fuel id e answer w :
  world_ok w -> matured e (w_now w) -> reaches (S (S (S (S fuel)))) id e answer w (w_now w + 82000).
Proof.
  intros Hw Hm. pose proof (wo_view w Hw id) as [Hfl _ Hr _].
  destruct (v_flight (view id (w_sweeper w))) eqn:Hf.
  2:{ eapply reaches_later; [|by apply reaches_idle]. lia. }
  destruct (Hfl eq_refl) as (since & token & Hs & _ & Hle & _).
  destruct (decide (since + 10000 <= w_now w)) as [Hx|Hx].
  { eapply reaches_later; [|by eapply reaches_expired]. lia. }
  destruct (pass_cases id (Some e) answer w) as (r & c & w' & v' & Hp & Hc & Hv & Hn & Hcalls). pose proof Hm as [Hph Hd].
  inversion Hc as [Hg|e' H1 H2 H3|e' si H1 H2 H3 H4 H5 H6|e' t H1 H2 H3 H4 H5 H6|e' t H1 H2 H3 H4|e' r' v'' H1 H2 H3 H4];
    subst; try (injection H1 as <-);
    [by destruct (Hg e)|lia| |rewrite Hs in H5; simpl in H5; lia|congruence|congruence].
  rewrite Hs in *. cbn [default from_option] in *.
  eapply reaches_next; [done|done|done|simpl; lia|]. set (w2 := step _ _).
  assert (Hn2 : w_now w2 = since + 10000) by (subst w2; simpl; lia).
  assert (Hv2 : view id (w_sweeper w2) = view id (w_sweeper w)) by done. clearbody w2.
  apply (reaches_later _ _ _ _ _ (w_now w2 + 72000)); [lia|].
  apply (reaches_expired _ _ _ _ _ since); rewrite ?Hv2; [|done..|lia]. split; [done|lia].
Qed.

(** A terminated agent is not forgotten: from every reachable state, if
    passes come when the sweeper's answers ask for them, it calls [deregister]
    after at most one pass per minute of the remaining time to live and four
    more - no later than 82 seconds after the time to live is up, or after now
    if that is later - even if an earlier call never answers. *)
Lemma removal_is_attempted now ops id e answer :
  as_phase (re_status e) = terminated ->
  let w := run now ops in
  let due := Z.max (w_now w) (as_lastTransitionAt (re_status e) + ttlMs) in
  exists w' t, follow (5 + Z.to_nat ((due - w_now w) / 60000)) id (Some e) answer w = Some w' /\
    w_calls w' = w_calls w ++ [(id, t)] /\ w_now w <= t <= due + 82000.
Proof.
  intros Hph w due. change (reaches (5 + Z.to_nat ((due - w_now w) / 60000)) id e answer w (due + 82000)).
  assert (Hw : world_ok w) by apply run_world_ok. clearbody w.
  remember (Z.to_nat ((due - w_now w) / 60000)) as n eqn:Hn. assert (Hle : (due - w_now w) / 60000 <= Z.of_nat n) by lia.
  clear Hn. revert w due Hw Hle. induction n as [|n IH]; intros w due Hw Hle.
  all: destruct (decide (as_lastTransitionAt (re_status e) + ttlMs <= w_now w)) as [Hd|Hd];
    [eapply reaches_later; [|apply reaches_mature; [done|split; [done|lia]]]; lia|].
  all: destruct (pass_cases id (Some e) answer w) as (r & c & w' & v' & Hp & Hc & Hv & Hnow & Hcalls).
  all: inversion Hc as [Hg|e' H1 H2 H3|e' si H1 H2 H3 H4 H5 H6|e' t H1 H2 H3 H4 H5 H6|e' t H1 H2 H3 H4|e' r' v'' H1 H2 H3 H4];
    subst; try (injection H1 as <-); [by destruct (Hg e)| |lia..].
  all: assert (Hw' : world_ok w') by (pose proof (pass_world_ok id (Some e) answer w Hw) as Hx; by rewrite Hp in Hx).
  all: eapply reaches_next; [done|done|done|simpl; lia|]; set (w2 := step _ _).
  all: assert (Hw2 : world_ok w2) by (by apply step_world_ok).
  all: assert (Hn2 : w_now w2 = w_now w + Z.max 1 (Z.min (ttlMs - (w_now w - as_lastTransitionAt (re_status e))) 60000))
    by (subst w2; cbn [afterMs step w_now]; lia).
  all: clearbody w2.
  - apply (reaches_later _ _ _ _ _ (w_now w2 + 82000)); [lia|]. apply reaches_mature; [done|]. split; [done|lia].
  - change (5 + S n)%nat with (S (5 + n)). eapply reaches_later; [|apply IH; [done|]]; lia.
Qed.
End Sweeping.

(** ** Runs *)

Definition sample_agent : RegistryEntry :=
  mkRegistryEntry "a" (mkAgentStatus terminated 3 [] (Some tr_completed) 1000) worker [] 500 None None None None 10.

(** The first call gets no answer; the lease runs out, and a second call comes. *)
Lemma removals_back_off_witness :
  let w1 := run 500 1000 [op_tick 2000] in
  let w2 := foldl (step 500) (step 500 w1 (op_pass "a" (Some sample_agent) a_promise))
    [op_tick 10000; op_pass "a" (Some sample_agent) a_promise; op_tick 2000] in
  called 500 "a" (Some sample_agent) a_promise w1 = true /\
  delay_floor 1 <= w_now w2 - w_now w1.
Proof.
  split; [vm_compute; reflexivity|].
  refine (proj2 (proj2 (removals_back_off 500 1000 [op_tick 2000] "a" sample_agent a_promise
    [op_tick 10000; op_pass "a" (Some sample_agent) a_promise; op_tick 2000] sample_agent a_promise _ _ _ _)));
    [vm_compute; reflexivity|done| |vm_compute; reflexivity].
  repeat constructor; simpl; [done|by exists sample_agent].
Defined.

Lemma removal_is_attempted_witness :
  exists w' t, follow 500 5 "a" (Some sample_agent) (a_now true) (run 500 3000 []) = Some w' /\
    w_calls w' = [] ++ [("a", t)] /\ 3000 <= t <= 3000 + 82000.
Proof. exact (removal_is_attempted 500 3000 [] "a" sample_agent (a_now true) eq_refl). Defined.

(** Jitter is added after the cap: a delay can exceed [RETRY_MAX_MS]. *)
Lemma jitter_exceeds_cap : exists id attempt, RETRY_MAX_MS < computeRetryDelay id attempt.
Proof. exists "agent-9", 7. vm_compute. reflexivity. Qed.
