(* ===== verification/ConcurrencyGuard.v ===== *)
(** * Concurrency guard

    [kernel/engine-reconcile/src/concurrency-guard.ts]: the middleware that
    limits concurrent model and tool calls of all agents, one semaphore per kind
    of call.  A call waits for a slot, runs [next] and gives the slot back in its
    [finally]; calls interleave in any order. *)

From S2P Require Import Prelude JsMap Semaphore.

Local Open Scope string_scope.
Local Open Scope list_scope.
Local Open Scope Z_scope.

Record ConcurrencyGuardConfig : Type := mkGuardConfig {
  gc_maxConcurrentModelCalls : Z; gc_maxConcurrentToolCalls : Z; gc_acquireTimeoutMs : Z
}.

Definition DEFAULT_CONCURRENCY_GUARD_CONFIG : ConcurrencyGuardConfig := mkGuardConfig 5 10 30000.

(** [{...DEFAULT_CONCURRENCY_GUARD_CONFIG, ...config}] *)
Definition resolve (model tool timeout : option Z) : ConcurrencyGuardConfig :=
  let d := DEFAULT_CONCURRENCY_GUARD_CONFIG in
  mkGuardConfig (default (gc_maxConcurrentModelCalls d) model) (default (gc_maxConcurrentToolCalls d) tool)
    (default (gc_acquireTimeoutMs d) timeout).

Inductive Kind : Type := k_model | k_tool.

#[export] Instance Kind_eq_dec : EqDecision Kind.
Proof. solve_decision. Defined.

Definition kind_str (k : Kind) : string := match k with k_model => "model" | k_tool => "tool" end.

Definition max_of (config : ConcurrencyGuardConfig) (k : Kind) : Z :=
  match k with k_model => gc_maxConcurrentModelCalls config | k_tool => gc_maxConcurrentToolCalls config end.

(** A semaphore with the calls that go through it, by the identifier of their
    [acquire]: those that wait for a slot, and those inside [next]. *)
Record Lane : Type := mkLane { ln_sem : Semaphore; ln_waiting : list nat; ln_running : list nat }.

Record Guard : Type := mkGuard { gd_model : Lane; gd_tool : Lane }.

Definition lane_of (k : Kind) (g : Guard) : Lane := match k with k_model => gd_model g | k_tool => gd_tool g end.
Definition set_lane (k : Kind) (l : Lane) (g : Guard) : Guard :=
  match k with k_model => mkGuard l (gd_tool g) | k_tool => mkGuard (gd_model g) l end.

Definition new_lane : Lane := mkLane createConcurrencySemaphore [] [].

(** The semaphores reject a limit below one; that is an [Error], not a
    [KoiRuntimeError], here with code INTERNAL and the same text. *)
Definition check_max (max : Z) : Result unit KoiError :=
  if max <? 1
  then Err (mkKoiError INTERNAL ("maxConcurrency must be a positive integer, got " +:+ pretty max) false None None)
  else Ok tt.

Definition createConcurrencyGuard (config : ConcurrencyGuardConfig) : Result Guard KoiError :=
  if gc_acquireTimeoutMs config <=? 0 then
    Err (mkKoiError VALIDATION
           ("acquireTimeoutMs must be a positive number, got " +:+ pretty (gc_acquireTimeoutMs config)) false
           (Some [("acquireTimeoutMs", JNum (gc_acquireTimeoutMs config))]) None)
  else
    (let? _ := check_max (gc_maxConcurrentModelCalls config) in
     let? _ := check_max (gc_maxConcurrentToolCalls config) in
     Ok (mkGuard new_lane new_lane))%koi.

(** What callers see. *)
Inductive Outcome : Type :=
  | g_started (k : Kind) (id : nat)
  | g_timed_out (k : Kind) (id : nat) (error : KoiError)
  | g_release_failed.

Definition timeout_error (config : ConcurrencyGuardConfig) (k : Kind) (activeNow : Z) : KoiError :=
  mkKoiError TIMEOUT
    ("Concurrency guard: timed out waiting for " +:+ kind_str k +:+ " slot (" +:+ pretty activeNow +:+ "/" +:+
     pretty (max_of config k) +:+ " active, " +:+ pretty (gc_acquireTimeoutMs config) +:+ "ms timeout)") true
    (Some [("kind", JStr (kind_str k)); ("activeCount", JNum activeNow);
           ("maxConcurrency", JNum (max_of config k)); ("acquireTimeoutMs", JNum (gc_acquireTimeoutMs config))]) None.

(** What an answer of the semaphore does to the calls of a lane. *)
Definition answer (config : ConcurrencyGuardConfig) (k : Kind) (out : output) (l : Lane) : Lane * list Outcome :=
  match out with
  | o_granted id => (mkLane (ln_sem l) (ln_waiting l) (s_add id (ln_running l)), [g_started k id])
  | o_fired id =>
      (mkLane (ln_sem l) (s_delete id (ln_waiting l)) (s_add id (ln_running l)), [g_started k id])
  | o_rejected id =>
      (mkLane (ln_sem l) (s_delete id (ln_waiting l)) (ln_running l),
       [g_timed_out k id (timeout_error config k (activeCount (ln_sem l)))])
  | o_released => (l, [])
  | o_error => (l, [g_release_failed])
  end.

Fixpoint answers (config : ConcurrencyGuardConfig) (k : Kind) (outs : list output) (l : Lane)
    : Lane * list Outcome :=
  match outs with
  | [] => (l, [])
  | out :: outs =>
      let '(l, o1) := answer config k out l in
      let '(l, o2) := answers config k outs l in
      (l, o1 ++ o2)
  end.

Definition with_sem (s : Semaphore) (l : Lane) : Lane := mkLane s (ln_waiting l) (ln_running l).

Inductive GuardOp : Type :=
  | g_call (k : Kind)               (* wrapModelCall, the first pull of wrapModelStream, wrapToolCall *)
  | g_timer (k : Kind) (id : nat)   (* the timer of a waiting call *)
  | g_finish (k : Kind) (id : nat). (* [next] settled, or the consumer left the stream: [finally] *)

Definition lane_step (config : ConcurrencyGuardConfig) (op : GuardOp) (l : Lane) : option (Lane * list Outcome) :=
  match op with
  | g_call k =>
      let '(s, outs) := acquire (max_of config k) (ln_sem l) in
      let waiting := match outs with [] => ln_waiting l ++ [next_id (ln_sem l)] | _ => ln_waiting l end in
      Some (answers config k outs (mkLane s waiting (ln_running l)))
  | g_timer k id =>
      if decide (id ∈ ln_waiting l) then
        let '(s, outs) := timeout id (ln_sem l) in Some (answers config k outs (with_sem s l))
      else Some (l, [])
  | g_finish k id =>
      if decide (id ∈ ln_running l) then
        '(s, outs) ← release (ln_sem l);
        Some (answers config k outs (mkLane s (ln_waiting l) (s_delete id (ln_running l))))
      else Some (l, [])
  end.

Definition kind_of (op : GuardOp) : Kind := match op with g_call k | g_timer k _ | g_finish k _ => k end.

Definition guard_step (config : ConcurrencyGuardConfig) (op : GuardOp) (g : Guard) : option (Guard * list Outcome) :=
  let k := kind_of op in
  '(l, outs) ← lane_step config op (lane_of k g);
  Some (set_lane k l g, outs).

Fixpoint guard_run (config : ConcurrencyGuardConfig) (ops : list GuardOp) (g : Guard) : option (Guard * list Outcome) :=
  match ops with
  | [] => Some (g, [])
  | op :: ops =>
      '(g, o1) ← guard_step config op g;
      '(g, o2) ← guard_run config ops g;
      Some (g, o1 ++ o2)
  end.

(** ** Slots *)

Record lane_ok (max : Z) (l : Lane) : Prop := {
  lo_sem : exists outs, history_ok max (ln_sem l) outs /\ forall id, id ∈ ln_running l -> id ∈ settled_ids outs;
  lo_once : NoDup (ln_running l);
  lo_slots : active (ln_sem l) = Z.of_nat (length (ln_running l))
}.

Lemma s_add_fresh (id : nat) l : id ∉ l -> s_add id l = l ++ [id].
Proof. intros. unfold s_add. by rewrite decide_False. Qed.

Lemma length_s_delete (id : nat) l : NoDup l -> id ∈ l -> length l = S (length (s_delete id l)).
Proof.
  induction 1 as [|x l Hx Hnd IH]; intros Hin; [by apply elem_of_nil in Hin|]. unfold s_delete. rewrite filter_cons. simpl.
  destruct (decide (x = id)) as [->|Hne].
  - rewrite decide_False by naive_solver. by rewrite filter_all by (intros y Hy ->; done).
  - rewrite decide_True by done. simpl. f_equal. apply IH. by apply elem_of_cons in Hin as [?|?].
Qed.

(** A grant or a hand-over adds a call that was not there. *)
Lemma lane_ok_start max s waiting running outs o id :
  history_ok max s (outs ++ [o]) -> settled_ids [o] = [id] -> (forall i, i ∈ running -> i ∈ settled_ids outs) ->
  NoDup running -> active s = Z.of_nat (length running) + 1 ->
  lane_ok max (mkLane s waiting (s_add id running)).
Proof.
  intros Hh Ho Hr Hnd Ha. pose proof (ho_once _ _ _ Hh) as Hone. rewrite settled_app, Ho in Hone.
  apply NoDup_app in Hone as (_ & Hfresh & _).
  assert (Hid : id ∉ running) by (intros Hin%Hr%Hfresh; by rewrite list_elem_of_singleton in Hin).
  split; simpl; rewrite s_add_fresh by done.
  - exists (outs ++ [o]). split; [done|]. intros i. rewrite settled_app, Ho, !elem_of_app. naive_solver.
  - apply NoDup_app. split; [done|]. split; [|apply NoDup_singleton]. by intros i Hi ->%list_elem_of_singleton.
  - rewrite length_app. simpl. lia.
Qed.

Lemma call_ok config k l : lane_ok (max_of config k) l -> exists l' outs,
  lane_step config (g_call k) l = Some (l', outs) /\ lane_ok (max_of config k) l' /\ g_release_failed ∉ outs.
Proof.
  intros [(outs & Hh & Hr) Hnd Hs]. simpl.
  pose proof (acquire_ok (max_of config k) (ln_sem l) outs Hh) as Ha. unfold acquire in *.
  destruct (active (ln_sem l) <? max_of config k); simpl; do 2 eexists; (split; [done|]); (split; [|set_solver]).
  - eapply lane_ok_start; [exact Ha|done|exact Hr|done|simpl; lia].
  - rewrite app_nil_r in Ha. by split; simpl; [exists outs|..].
Qed.

Lemma timer_ok config k id l : lane_ok (max_of config k) l -> exists l' outs,
  lane_step config (g_timer k id) l = Some (l', outs) /\ lane_ok (max_of config k) l' /\ g_release_failed ∉ outs.
Proof.
  intros Hl. pose proof Hl as [(outs & Hh & Hr) Hnd Hs]. simpl. case_decide; [|exists l, []; split; [done|split; [done|by intros ?%elem_of_nil]]].
  pose proof (timeout_ok (max_of config k) id (ln_sem l) outs Hh) as Ht.
  destruct (timeout id (ln_sem l)) as [s out] eqn:Et.
  assert (Hact : active s = active (ln_sem l) /\ (out = [] \/ out = [o_rejected id])).
  { unfold timeout in Et. repeat case_match; simplify_eq; auto. }
  destruct Hact as [Hact [->| ->]]; simpl; do 2 eexists; (split; [done|]); (split; [|set_solver]);
    (split; simpl; [eexists; split; [exact Ht|]|done|lia]); intros i Hi%Hr; rewrite settled_app; set_solver.
Qed.

Lemma finish_ok config k id l : lane_ok (max_of config k) l -> exists l' outs,
  lane_step config (g_finish k id) l = Some (l', outs) /\ lane_ok (max_of config k) l' /\ g_release_failed ∉ outs.
Proof.
  intros Hl. pose proof Hl as [(outs & Hh & Hr) Hnd Hs]. simpl. case_decide as Hin; [|exists l, []; split; [done|split; [done|by intros ?%elem_of_nil]]].
  pose proof (length_s_delete id _ Hnd Hin) as Hlen.
  destruct (release_ok _ _ _ Hh) as (s & out & Hrel & Hh').
  assert (Hout : (exists i, out = [o_fired i] /\ active s = active (ln_sem l)) \/
    (out = [o_released] /\ active s = active (ln_sem l) - 1)).
  { pose proof Hh as [Hok _ _ _ _ _ _]. unfold release in Hrel.
    destruct (Z.leb_spec (active (ln_sem l)) 0); [lia|].
    destruct (release_loop_ok (max_of config k) (S (length (queue (ln_sem l)) - Semaphore.head (ln_sem l))) (ln_sem l) Hok)
      as (s2 & o2 & Hr2 & _ & _ & Hx & _); [lia|lia|]. rewrite Hrel in Hr2. injection Hr2 as <- <-.
    inversion Hx; subst; eauto. }
  rewrite Hrel. simpl. assert (Hnd' : NoDup (s_delete id (ln_running l))) by auto with koi.
  assert (Hr' : forall i, i ∈ s_delete id (ln_running l) -> i ∈ settled_ids outs)
    by (intros i [_ Hi]%elem_of_s_delete; auto).
  destruct Hout as [(i & -> & Ha)|[-> Ha]]; simpl; do 2 eexists; (split; [done|]); (split; [|set_solver]).
  - eapply lane_ok_start; [exact Hh'|done|exact Hr'|done|lia].
  - split; simpl; [exists (outs ++ [o_released])|done|lia]. split; [done|]. intros j Hj%Hr'.
    rewrite settled_app. set_solver.
Qed.

Definition guard_ok (config : ConcurrencyGuardConfig) (g : Guard) : Prop :=
  forall k, lane_ok (max_of config k) (lane_of k g).

Lemma guard_step_ok config op g : guard_ok config g ->
  exists g' outs, guard_step config op g = Some (g', outs) /\ guard_ok config g' /\ g_release_failed ∉ outs.
Proof.
  intros Hg. unfold guard_step.
  assert (Hl : exists l outs, lane_step config op (lane_of (kind_of op) g) = Some (l, outs) /\
    lane_ok (max_of config (kind_of op)) l /\ g_release_failed ∉ outs).
  { destruct op; simpl kind_of; [apply call_ok|apply timer_ok|apply finish_ok]; apply Hg. }
  destruct Hl as (l & outs & -> & Hl & Ho). simpl. do 2 eexists. split; [done|]. split; [|done].
  intros k. destruct op as [[]|[]|[]], k; simpl in *; first [exact Hl | exact (Hg k_model) | exact (Hg k_tool)].
Qed.

(** However calls start, wait, time out, finish or fail, the guard never
    lets more calls of a kind into [next] than its limit: the calls inside are
    exactly the slots held, no call is let in twice while it is there, and every
    [finally] finds a slot to give back. *)
Lemma guard_limits_calls config ops g :
  createConcurrencyGuard config = Ok g ->
  exists g' outs, guard_run config ops g = Some (g', outs) /\ g_release_failed ∉ outs /\
    forall k, let l := lane_of k g' in
      NoDup (ln_running l) /\ activeCount (ln_sem l) = Z.of_nat (length (ln_running l)) /\
      Z.of_nat (length (ln_running l)) <= max_of config k.
Proof.
  intros Hc. assert (Hg : guard_ok config g).
  { unfold createConcurrencyGuard, check_max in Hc. repeat case_match; simplify_eq/=.
    intros k. split; [|destruct k; apply NoDup_nil_2|by destruct k]. exists [].
    split; [|destruct k; by intros ? ?%elem_of_nil].
    destruct k; apply sem_create_ok; simpl; lia. }
  clear Hc. revert g Hg. induction ops as [|op ops IH]; intros g Hg.
  - exists g, []. split; [done|]. split; [set_solver|]. intros k. destruct (Hg k) as [(outs & Hh & _) Hnd Hs].
    destruct (ho_ok _ _ _ Hh) as [Ha _ _ _ _]. split; [done|]. split; [done|]. lia.
  - destruct (guard_step_ok config op g Hg) as (g1 & o1 & Hs1 & Hg1 & Hn1).
    destruct (IH g1 Hg1) as (g2 & o2 & Hs2 & Hn2 & Hk). exists g2, (o1 ++ o2).
    split; [simpl; rewrite Hs1; simpl; by rewrite Hs2|]. split; [set_solver|done].
Qed.

Lemma guard_limits_calls_witness :
  let config := mkGuardConfig 1 1 50 in
  exists g' outs, guard_run config [g_call k_model; g_call k_model; g_call k_tool; g_timer k_model 1; g_finish k_model 0]
      (mkGuard new_lane new_lane) = Some (g', outs) /\ g_release_failed ∉ outs /\
    forall k, let l := lane_of k g' in
      NoDup (ln_running l) /\ activeCount (ln_sem l) = Z.of_nat (length (ln_running l)) /\
      Z.of_nat (length (ln_running l)) <= max_of config k.
Proof. exact (guard_limits_calls (mkGuardConfig 1 1 50) _ (mkGuard new_lane new_lane) eq_refl). Defined.
