(* ===== verification/ToolArgs.v ===== *)
(** * Tool arguments

    [lib/query-engine/src/coerce-tool-args.ts] and [validate-tool-args.ts]: the
    arguments a model writes for a tool are coerced to the types its schema
    declares, then checked against the schema.  Numbers are finite, hence
    rationals; [Number] on a string and [Number.prototype.toString] are
    parameters.  The operator [in] sees inherited names too, and so does the
    model. *)

From Stdlib Require Import QArith.
From S2P Require Import Prelude JsMap.

Local Open Scope string_scope.
Local Open Scope list_scope.
Local Open Scope nat_scope.

(** ** JSON *)

Inductive json : Type :=
  | J_null
  | J_bool (b : bool)
  | J_num (q : Q)
  | J_str (s : string)
  | J_arr (l : list json)
  | J_obj (fields : list (string * json)).

Abbreviation JsonObject := (list (string * json)) (only parsing).

Definition isInteger (q : Q) : bool := bool_decide (Qden (Qred q) = 1%positive).

Definition typeof (v : json) : string :=
  match v with
  | J_null | J_arr _ | J_obj _ => "object"
  | J_bool _ => "boolean"
  | J_num _ => "number"
  | J_str _ => "string"
  end.

(** ** Property access *)

(** The names every object inherits from [Object.prototype]. *)
Definition prototype_names : list string :=
  ["constructor"; "__defineGetter__"; "__defineSetter__"; "hasOwnProperty"; "__lookupGetter__";
   "__lookupSetter__"; "isPrototypeOf"; "propertyIsEnumerable"; "toString"; "valueOf"; "__proto__";
   "toLocaleString"].

Inductive Property : Type :=
  | P_own (v : json)
  | P_function       (* an inherited method *)
  | P_prototype      (* [__proto__] *)
  | P_absent.

Definition prop (key : string) (o : JsonObject) : Property :=
  match m_get key o with
  | Some v => P_own v
  | None =>
      if decide (key = "__proto__") then P_prototype
      else if decide (key ∈ prototype_names) then P_function else P_absent
  end.

(** [key in o] *)
Definition is_in (key : string) (o : JsonObject) : bool :=
  match prop key o with P_absent => false | _ => true end.

Definition typeof_prop (p : Property) : string :=
  match p with P_own v => typeof v | P_function => "function" | P_prototype => "object" | P_absent => "undefined" end.

(** [Object.entries] of an object or an array. *)
Definition entries (v : json) : list (string * json) :=
  match v with
  | J_obj fs => fs
  | J_arr l => imap (fun i x => (pretty i, x)) l
  | _ => []
  end.

Definition is_object (v : json) : bool := match v with J_obj _ | J_arr _ => true | _ => false end.

Fixpoint join (sep : string) (parts : list string) : string :=
  match parts with
  | [] => ""
  | [p] => p
  | p :: parts => p +:+ sep +:+ join sep parts
  end.

(** ** coerce-tool-args.ts *)

Section Args.
Variable Number : string -> option Q.      (* [Number(s)] when it is finite *)
Variable num_text : Q -> string.           (* [String(n)] *)

Fixpoint is_blank (s : string) : bool :=
  match s with
  | EmptyString => true
  | String c s => bool_decide (Ascii.nat_of_ascii c ∈ [9; 10; 11; 12; 13; 32; 160]) && is_blank s
  end.

Definition coerceStringValue (value targetType : string) : option json :=
  if decide (targetType = "number" \/ targetType = "integer") then
    if is_blank value then None
    else
      match Number value with
      | None => None
      | Some n => if decide (targetType = "integer") then (if isInteger n then Some (J_num n) else None)
                  else Some (J_num n)
      end
  else if decide (targetType = "boolean") then
    if decide (value = "true") then Some (J_bool true)
    else if decide (value = "false") then Some (J_bool false)
    else None
  else None.

(** What the entry of one property of the schema asks to convert. *)
Definition conversion (key : string) (sub : json) (args : JsonObject) : option json :=
  match prop key args, sub with
  | P_own (J_str value), J_obj def =>
      match m_get "type" def with
      | Some (J_str schemaType) =>
          if decide (schemaType = "string") then None else coerceStringValue value schemaType
      | _ => None
      end
  | _, _ => None
  end.

(** The loop reads [args] and writes the copy; [None] is "no copy made yet". *)
Fixpoint coerce_loop (props : list (string * json)) (args : JsonObject) (coerced : option JsonObject)
    : option JsonObject :=
  match props with
  | [] => coerced
  | (key, sub) :: props =>
      coerce_loop props args
        (match conversion key sub args with
         | Some converted => Some (m_set key converted (default args coerced))
         | None => coerced
         end)
  end.

(** The flag says that the result is a new object. *)
Definition coerceToolArgs (args schema : JsonObject) : JsonObject * bool :=
  match m_get "properties" schema with
  | Some properties =>
      if is_object properties then
        match coerce_loop (entries properties) args None with
        | Some coerced => (coerced, true)
        | None => (args, false)
        end
      else (args, false)
  | None => (args, false)
  end.

(** ** validate-tool-args.ts *)

Definition SUPPORTED_ROOT_KEYWORDS : list string :=
  ["type"; "properties"; "required"; "additionalProperties"; "description"; "title"; "$schema"; "$id"; "default"].

Definition SUPPORTED_PROPERTY_KEYWORDS : list string :=
  ["type"; "description"; "title"; "default"; "minLength"; "maxLength"; "pattern"; "minimum"; "maximum";
   "exclusiveMinimum"; "exclusiveMaximum"; "minItems"; "maxItems"; "items"; "properties"; "required";
   "enum"; "const"; "additionalProperties"; "propertyNames"].

(** [String(v)].  An object whose own [toString] and [valueOf] are no functions
    makes [String] throw; here it is a type name no check supports. *)
Fixpoint to_string (v : json) : string :=
  match v with
  | J_null => "null"
  | J_bool b => if b then "true" else "false"
  | J_num q => num_text q
  | J_str s => s
  | J_arr l => join "," (List.map (fun x => match x with J_null => "" | _ => to_string x end) l)
  | J_obj _ => "[object Object]"
  end.

Definition field_error (key expected got : string) : string :=
  "field " +:+ quoted key +:+ " expected " +:+ expected +:+ ", got " +:+ got.

Definition checkType (key : string) (value : Property) (expectedType : string) : option string :=
  if decide (expectedType = "string") then
    match value with P_own (J_str _) => None | _ => Some (field_error key "string" (typeof_prop value)) end
  else if decide (expectedType = "number" \/ expectedType = "integer") then
    match value with
    | P_own (J_num q) =>
        if bool_decide (expectedType = "integer") && negb (isInteger q)
        then Some (field_error key "integer" "float") else None
    | _ => Some (field_error key expectedType (typeof_prop value))
    end
  else if decide (expectedType = "boolean") then
    match value with P_own (J_bool _) => None | _ => Some (field_error key "boolean" (typeof_prop value)) end
  else if decide (expectedType = "array") then
    match value with P_own (J_arr _) => None | _ => Some (field_error key "array" (typeof_prop value)) end
  else if decide (expectedType = "object") then
    match value with
    | P_own (J_obj _) | P_prototype => None
    | P_own (J_arr _) => Some (field_error key "object" "array")
    | _ => Some (field_error key "object" (typeof_prop value))
    end
  else if decide (expectedType = "null") then
    match value with P_own J_null => None | _ => Some (field_error key "null" (typeof_prop value)) end
  else Some ("field " +:+ quoted key +:+ " has unsupported type " +:+ quoted expectedType +:+ " — cannot validate safely").

Fixpoint first_unsupported (supported : list string) (keys : list string) : option string :=
  match keys with
  | [] => None
  | key :: keys => if decide (key ∈ supported) then first_unsupported supported keys else Some key
  end.

Definition missing_fields (required : list json) (args : JsonObject) : list string :=
  omap (fun field => match field with J_str f => if is_in f args then None else Some f | _ => None end) required.

Definition check_property (key : string) (sub : json) (args : JsonObject) : option string :=
  if negb (is_in key args) then None
  else if is_object sub then
    match first_unsupported SUPPORTED_PROPERTY_KEYWORDS (m_keys (entries sub)) with
    | Some kw => Some ("property " +:+ quoted key +:+ " uses unsupported keyword " +:+ quoted kw +:+ " — cannot validate safely")
    | None =>
        match sub with
        | J_obj def =>
            match m_get "type" def with
            | Some t => checkType key (prop key args) (to_string t)
            | None => None
            end
        | _ => None
        end
    end
  else None.

Fixpoint check_properties (props : list (string * json)) (args : JsonObject) : option string :=
  match props with
  | [] => None
  | (key, sub) :: props =>
      match check_property key sub args with
      | Some error => Some error
      | None => check_properties props args
      end
  end.

(** The allowed names when [additionalProperties] is [false]. *)
Definition allowed_fields (schema : JsonObject) : list string :=
  match m_get "properties" schema with Some p => m_keys (entries p) | None => [] end.

Definition check_additional (schema args : JsonObject) : option string :=
  match m_get "additionalProperties" schema with
  | Some (J_obj _) | Some (J_arr _) =>
      Some ("schema uses " +:+ quoted "additionalProperties" +:+ " as a subschema — cannot validate safely")
  | Some (J_bool false) =>
      let extra := filter (fun k => k ∉ allowed_fields schema) (m_keys args) in
      if decide (extra = []) then None else Some ("unexpected additional field(s): " +:+ join ", " extra)
  | _ => None
  end.

Definition validateToolArgs (args schema : JsonObject) : option string :=
  match first_unsupported SUPPORTED_ROOT_KEYWORDS (m_keys schema) with
  | Some key => Some ("schema uses unsupported keyword " +:+ quoted key +:+ " — cannot validate safely")
  | None =>
      let missing :=
        match m_get "required" schema with Some (J_arr required) => missing_fields required args | _ => [] end in
      if decide (missing ≠ []) then Some ("missing required field(s): " +:+ join ", " missing)
      else
        match check_properties (match m_get "properties" schema with Some p => entries p | None => [] end) args with
        | Some error => Some error
        | None => check_additional schema args
        end
  end.

(** ** What acceptance means *)

(** The type a schema declares for a field, when it is a plain name. *)
Definition declared_type (sub : json) : option string :=
  match sub with
  | J_obj def => match m_get "type" def with Some (J_str t) => Some t | _ => None end
  | _ => None
  end.

(** Of the values a field can have: JSON types, with [integer] for whole numbers. *)
Definition has_type (t : string) (v : json) : bool :=
  match v with
  | J_null => bool_decide (t = "null")
  | J_bool _ => bool_decide (t = "boolean")
  | J_num q => bool_decide (t = "number") || bool_decide (t = "integer") && isInteger q
  | J_str _ => bool_decide (t = "string")
  | J_arr _ => bool_decide (t = "array")
  | J_obj _ => bool_decide (t = "object")
  end.

Lemma checkType_exact key v t :
  checkType key (P_own v) t = None <-> has_type t v = true.
Proof.
  unfold checkType, has_type.
  destruct (decide (t = "string")) as [->|H1]; [by destruct v|].
  destruct (decide (t = "number" \/ t = "integer")) as [[->| ->]|H2]; [by destruct v|destruct v; simpl; try done|].
  { by destruct (isInteger q). }
  destruct (decide (t = "boolean")) as [->|H3]; [by destruct v|].
  destruct (decide (t = "array")) as [->|H4]; [by destruct v|].
  destruct (decide (t = "object")) as [->|H5]; [by destruct v|].
  destruct (decide (t = "null")) as [->|H6]; [by destruct v|].
  split; [done|]. destruct v; rewrite ?bool_decide_eq_true, ?bool_decide_eq_false_2 by naive_solver; naive_solver.
Qed.

(** What a declared type demands of a property found on the arguments: of an
    own value to be of the type, of an inherited one to be an object, which only
    [__proto__] is (methods have no JSON type). *)
Definition fits_type (t : string) (p : Property) : Prop :=
  match p with
  | P_own v => has_type t v = true
  | P_prototype => t = "object"
  | P_function | P_absent => False
  end.

Lemma checkType_none key p t : checkType key p t = None <-> fits_type t p.
Proof.
  destruct p as [v| | |]; simpl; [apply checkType_exact|..]; unfold checkType;
    repeat case_decide; naive_solver.
Qed.

Lemma first_unsupported_none supported keys :
  first_unsupported supported keys = None <-> forall key, key ∈ keys -> key ∈ supported.
Proof.
  induction keys as [|key keys IH]; simpl.
  - split; [by intros _ key ?%elem_of_nil|done].
  - case_decide as Hk; [rewrite IH; set_solver|]. split; [done|]. intros Hall. destruct Hk. apply Hall. left.
Qed.

Lemma missing_fields_nil required args :
  missing_fields required args = [] <-> forall f, J_str f ∈ required -> is_in f args = true.
Proof.
  induction required as [|field required IH]; simpl; [split; [by intros _ f ?%elem_of_nil|done]|].
  unfold missing_fields in *. simpl. destruct field as [| | |f| |]; try (rewrite IH; set_solver).
  destruct (is_in f args) eqn:Hf.
  - rewrite IH. split; [|set_solver]. intros Hall g [[= ->]|Hg]%elem_of_cons; eauto.
  - split; [done|]. intros Hall. rewrite (Hall f) in Hf by left. done.
Qed.

Lemma check_properties_none props args :
  check_properties props args = None <-> Forall (fun p => check_property p.1 p.2 args = None) props.
Proof.
  induction props as [|[key sub] props IH]; simpl; [done|]. rewrite Forall_cons, <-IH. simpl.
  by destruct (check_property key sub args); naive_solver.
Qed.

Definition properties_of (schema : JsonObject) : list (string * json) :=
  match m_get "properties" schema with Some p => entries p | None => [] end.

(** What the entry of one property demands of the arguments, when they have a
    field of that name: no keyword outside the supported ones, and for a declared
    type that the field is of it. *)
Definition property_conforms (args : JsonObject) (key : string) (sub : json) : Prop :=
  is_in key args = true ->
  (is_object sub = true -> forall kw, kw ∈ m_keys (entries sub) -> kw ∈ SUPPORTED_PROPERTY_KEYWORDS) /\
  (forall def t, sub = J_obj def -> m_get "type" def = Some t -> fits_type (to_string t) (prop key args)).

(** What a schema demands of arguments, as far as the validator supports it. *)
Record conforms (args schema : JsonObject) : Prop := mkConforms {
  cf_root : forall key, key ∈ m_keys schema -> key ∈ SUPPORTED_ROOT_KEYWORDS;
  cf_required : forall required f, m_get "required" schema = Some (J_arr required) -> J_str f ∈ required ->
    is_in f args = true;
  cf_properties : forall key sub, (key, sub) ∈ properties_of schema -> property_conforms args key sub;
  cf_subschema : forall v, m_get "additionalProperties" schema = Some v -> is_object v = false;
  cf_additional : m_get "additionalProperties" schema = Some (J_bool false) ->
    forall key, key ∈ m_keys args -> key ∈ allowed_fields schema
}.

Lemma check_property_none key sub args :
  check_property key sub args = None <-> property_conforms args key sub.
Proof.
  unfold check_property, property_conforms. destruct (is_in key args) eqn:Hi; simpl; [|done].
  destruct (is_object sub) eqn:Ho; [|split; [intros _ _; split; [done|by intros ? ? ->]|done]].
  pose proof (first_unsupported_none SUPPORTED_PROPERTY_KEYWORDS (m_keys (entries sub))) as Hkw.
  destruct (first_unsupported _ _) as [kw|].
  - split; [done|]. intros Hc. destruct (Hc eq_refl) as [Hall _]. by pose proof (proj2 Hkw (Hall eq_refl)).
  - pose proof (proj1 Hkw eq_refl) as Hall. destruct sub as [| | | |l|def]; try done.
    destruct (m_get "type" def) as [t|] eqn:Ht.
    + rewrite checkType_none. split; [|naive_solver]. intros Hf _. split; [done|]. intros ? ? [= <-]. congruence.
    + split; [|done]. intros _ _. split; [done|]. intros ? ? [= <-]. congruence.
Qed.

Lemma check_additional_none schema args : check_additional schema args = None <->
  (forall v, m_get "additionalProperties" schema = Some v -> is_object v = false) /\
  (m_get "additionalProperties" schema = Some (J_bool false) ->
     forall key, key ∈ m_keys args -> key ∈ allowed_fields schema).
Proof.
  unfold check_additional. destruct (m_get "additionalProperties" schema) as [v|]; [|naive_solver].
  destruct v as [|b| | | |]; try naive_solver; [|split; [done|]; intros [Ho _]; by specialize (Ho _ eq_refl)..].
  destruct b; [naive_solver|]. case_decide as He.
  - split; [|done]. intros _. split; [by intros ? [= <-]|]. intros _ key Hk.
    destruct (decide (key ∈ allowed_fields schema)) as [|Hn]; [done|]. exfalso.
    apply (not_elem_of_nil key). rewrite <- He. by apply list_elem_of_filter.
  - split; [done|]. intros [_ Hall]. exfalso.
    destruct (filter _ _) as [|k extra] eqn:Hx; [done|].
    assert (Hk : k ∈ k :: extra) by left. rewrite <- Hx in Hk.
    apply list_elem_of_filter in Hk as [Hn Hk]. by apply Hn, Hall.
Qed.

Lemma validate_none args schema : validateToolArgs args schema = None <-> conforms args schema.
Proof.
  unfold validateToolArgs. pose proof (first_unsupported_none SUPPORTED_ROOT_KEYWORDS (m_keys schema)) as Hroot.
  destruct (first_unsupported _ _); [split; [done|]; intros [Hr _ _ _ _]; by pose proof (proj2 Hroot Hr)|].
  cbv zeta. fold (properties_of schema).
  assert (Hmiss : match m_get "required" schema with Some (J_arr required) => missing_fields required args | _ => [] end = []
    <-> forall required f, m_get "required" schema = Some (J_arr required) -> J_str f ∈ required -> is_in f args = true).
  { destruct (m_get "required" schema) as [[]|]; try naive_solver. rewrite missing_fields_nil. naive_solver. }
  case_decide as Hm; [split; [done|]; intros [_ Hr _ _ _]; by destruct (Hm (proj2 Hmiss Hr))|].
  assert (Hprops : check_properties (properties_of schema) args = None <->
    forall key sub, (key, sub) ∈ properties_of schema -> property_conforms args key sub).
  { rewrite check_properties_none, Forall_forall. split.
    - intros Hall key sub Hin. apply check_property_none. by apply (Hall (key, sub)).
    - intros Hall [key sub] Hin. apply check_property_none. by apply Hall. }
  destruct (check_properties _ _); [split; [done|]; intros [_ _ Hp _ _]; by pose proof (proj2 Hprops Hp)|].
  rewrite check_additional_none. split; [intros [Hs Ha]|by intros []].
  split; try done; [by apply Hroot|by apply Hmiss|by apply Hprops].
Qed.

Lemma check_property_typed key sub args v t :
  check_property key sub args = None -> m_get key args = Some v -> declared_type sub = Some t -> has_type t v = true.
Proof.
  unfold check_property, declared_type, is_in, prop. intros Hc Hv Ht. rewrite Hv in Hc. simpl in Hc.
  destruct sub as [| | | | |def]; try done. simpl in Hc. destruct (first_unsupported _ _); [done|].
  destruct (m_get "type" def) as [[]|]; simplify_eq. by apply checkType_exact in Hc.
Qed.

Lemma coerceStringValue_typed value t v : coerceStringValue value t = Some v -> has_type t v = true.
Proof.
  unfold coerceStringValue. intros H. repeat (case_match || case_decide); simplify_eq; simpl;
    try (by rewrite bool_decide_eq_true_2); destruct_or?; subst; try done.
  all: by rewrite ?bool_decide_eq_true_2, ?orb_true_r.
Qed.

Lemma conversion_some key sub args v : conversion key sub args = Some v ->
  exists s t, m_get key args = Some (J_str s) /\ declared_type sub = Some t /\ t ≠ "string" /\
    coerceStringValue s t = Some v.
Proof.
  unfold conversion, declared_type, prop. intros H.
  destruct (m_get key args) as [[]|]; [..|by repeat case_decide]; try done.
  destruct sub; try done. destruct (m_get "type" fields) as [[]|]; try done. case_decide; [done|]. eauto 10.
Qed.

(** A coercion as a whole: same fields in the same order; each value is the one
    given or, where that is a string of another declared type, its conversion. *)
Lemma coerce_loop_spec props : forall args coerced out,
  coerce_loop props args coerced = Some out ->
  (forall c, coerced = Some c -> m_keys c = m_keys args) ->
  m_keys out = m_keys args /\
  forall key, m_get key out = m_get key (default args coerced) \/
    exists sub v, (key, sub) ∈ props /\ conversion key sub args = Some v /\ m_get key out = Some v.
Proof.
  induction props as [|[key sub] props IH]; intros args coerced out; simpl; [intros ->; naive_solver|].
  destruct (conversion key sub args) as [v|] eqn:Hc; intros Hl Hk.
  - assert (Hpres : is_Some (m_get key (default args coerced))).
    { apply conversion_some in Hc as (s & _ & Hg & _). apply elem_of_m_keys.
      destruct coerced as [c|]; simpl; [rewrite (Hk c eq_refl)|]; apply elem_of_m_keys; eauto. }
    destruct (IH args (Some (m_set key v (default args coerced))) out Hl) as [Hkeys Hval].
    { intros c [= <-]. rewrite m_keys_set_present by done. destruct coerced; simpl; [by apply Hk|done]. }
    split; [done|]. intros k. destruct (Hval k) as [Hv|(sub' & v' & Hin & Hv)].
    + simpl in Hv. rewrite m_get_set in Hv. case_decide as Hd; [subst|by left].
      right. exists sub, v. split; [by left|done].
    + right. exists sub', v'. split; [by right|done].
  - destruct (IH args coerced out Hl Hk) as [Hkeys Hval]. split; [done|]. intros k.
    destruct (Hval k) as [Hv|(sub' & v' & Hin & Hv)]; [by left|right; exists sub', v'; split; [by right|done]].
Qed.

Lemma coerce_loop_none props args coerced :
  Forall (fun p => conversion p.1 p.2 args = None) props -> coerce_loop props args coerced = coerced.
Proof. induction 1 as [|[key sub] props Hc _ IH]; simpl in *; [done|]. by rewrite Hc. Qed.

Lemma coerce_loop_some props args : forall c, is_Some (coerce_loop props args (Some c)).
Proof.
  induction props as [|[key sub] props IH]; intros c; simpl; [by eexists|]. destruct (conversion key sub args); apply IH.
Qed.

(** The entry of a key decides: where it asks for a conversion, the result has it. *)
Lemma coerce_loop_converts props : forall args coerced key sub v,
  NoDup (m_keys props) -> (forall c, coerced = Some c -> m_keys c = m_keys args) ->
  (key, sub) ∈ props -> conversion key sub args = Some v ->
  exists out, coerce_loop props args coerced = Some out /\ m_get key out = Some v.
Proof.
  induction props as [|[k s] props IH]; intros args coerced key sub v Hnd Hk Hin Hc; [by apply elem_of_nil in Hin|].
  apply NoDup_cons in Hnd as [Hnin Hnd]. simpl.
  set (coerced' := match conversion k s args with Some c => Some (m_set k c (default args coerced)) | None => coerced end).
  assert (Hk' : forall c, coerced' = Some c -> m_keys c = m_keys args).
  { intros c. subst coerced'. destruct (conversion k s args) as [x|] eqn:Hx; [|apply Hk].
    apply conversion_some in Hx as (str & _ & Hg & _). intros [= <-].
    destruct coerced as [d|]; simpl; [pose proof (Hk d eq_refl) as Hd|];
      rewrite m_keys_set_present by (apply elem_of_m_keys; rewrite ?Hd; apply elem_of_m_keys; eauto); done. }
  apply elem_of_cons in Hin as [[= <- <-]|Hin]; [|by apply (IH args coerced' key sub v)].
  subst coerced'. rewrite Hc in Hk' |- *.
  destruct (coerce_loop_some props args (m_set key v (default args coerced))) as [out Hout]. exists out. split; [done|].
  destruct (coerce_loop_spec _ _ _ _ Hout Hk') as [_ Hv]. destruct (Hv key) as [->|(sub' & v' & Hin & _)].
  - simpl. by rewrite m_get_set, decide_True.
  - destruct Hnin. apply list_elem_of_fmap. by exists (key, sub').
Qed.

(** What coercion does to one field: its value stays, or it is a string of
    another declared type and is converted to that type. *)
Lemma coerceToolArgs_fields args schema :
  m_keys (coerceToolArgs args schema).1 = m_keys args /\
  forall key, m_get key (coerceToolArgs args schema).1 = m_get key args \/
    exists sub s t v, (key, sub) ∈ properties_of schema /\ m_get key args = Some (J_str s) /\
      declared_type sub = Some t /\ t ≠ "string" /\ coerceStringValue s t = Some v /\ has_type t v = true /\
      m_get key (coerceToolArgs args schema).1 = Some v.
Proof.
  unfold coerceToolArgs, properties_of. destruct (m_get "properties" schema) as [p|]; [|by eauto].
  destruct (is_object p); [|by eauto].
  destruct (coerce_loop (entries p) args None) as [out|] eqn:Hl; [|by eauto].
  destruct (coerce_loop_spec _ _ _ _ Hl) as [Hk Hv]; [done|]. split; [done|].
  intros key. destruct (Hv key) as [Hs|(sub & v & Hin & Hc & Hg)]; [by left|right].
  apply conversion_some in Hc as (s & t & Ha & Ht & Hne & Hcv).
  exists sub, s, t, v. split_and!; try done. by eapply coerceStringValue_typed.
Qed.

Lemma coerceToolArgs_converts args schema key sub s t v :
  NoDup (m_keys (properties_of schema)) -> (key, sub) ∈ properties_of schema ->
  m_get key args = Some (J_str s) -> declared_type sub = Some t -> t ≠ "string" ->
  coerceStringValue s t = Some v -> m_get key (coerceToolArgs args schema).1 = Some v.
Proof.
  unfold coerceToolArgs, properties_of. intros Hnd Hin Hg Ht Hne Hv.
  destruct (m_get "properties" schema) as [p|]; [|by apply elem_of_nil in Hin].
  destruct (is_object p) eqn:Ho; [|destruct p; try done; by apply elem_of_nil in Hin].
  destruct (coerce_loop_converts (entries p) args None key sub v) as (out & -> & Hout); try done.
  unfold conversion, prop, declared_type in *. rewrite Hg. destruct sub as [| | | | |def]; try done.
  destruct (m_get "type" def) as [[]|]; simplify_eq. by rewrite decide_False.
Qed.

Lemma conforming_not_coerced args schema : conforms args schema -> coerceToolArgs args schema = (args, false).
Proof.
  intros [_ _ Hprops _ _].
  assert (Hnone : Forall (fun p => conversion p.1 p.2 args = None) (properties_of schema)).
  { apply Forall_forall. intros [key sub] Hin. specialize (Hprops key sub Hin). apply check_property_none in Hprops.
    simpl. destruct (conversion key sub args) as [v|] eqn:Hv; [|done].
    apply conversion_some in Hv as (s & t & Hg & Ht & Hne & _).
    pose proof (check_property_typed _ _ _ _ _ Hprops Hg Ht) as Hty. simpl in Hty. by apply bool_decide_eq_true in Hty. }
  unfold coerceToolArgs, properties_of in *. destruct (m_get "properties" schema) as [p|]; [|done].
  rewrite coerce_loop_none by done. by destruct (is_object p).
Qed.

(** C32: Arguments pass the check exactly when they conform to the schema as far
    as the validator supports it: the schema has only supported keywords, at its
    root and in the entries of the fields that are present; every required field
    is present, its own or an inherited one; every present field whose entry
    declares a type has that type; and [additionalProperties] is no subschema and
    where it is [false] every field is one the schema names.  In particular an own
    value of such a field has the JSON type its entry names.  Coercion keeps the
    fields and their order; it changes only strings of fields with another
    declared type, to a value of that type, and changes all of those that can be
    converted (the names of properties being distinct, as in every JSON object);
    arguments that pass already are not touched. *)
Theorem accepted_args_conform args schema :
  let '(coerced, changed) := coerceToolArgs args schema in
  (forall given, validateToolArgs given schema = None <-> conforms given schema) /\
  (forall given key sub v t, conforms given schema -> (key, sub) ∈ properties_of schema ->
     m_get key given = Some v -> declared_type sub = Some t -> has_type t v = true) /\
  (m_keys coerced = m_keys args /\
   forall key, m_get key coerced = m_get key args \/
     exists sub s t v, (key, sub) ∈ properties_of schema /\ m_get key args = Some (J_str s) /\
       declared_type sub = Some t /\ t ≠ "string" /\ coerceStringValue s t = Some v /\ has_type t v = true /\
       m_get key coerced = Some v) /\
  (forall key sub s t v, NoDup (m_keys (properties_of schema)) -> (key, sub) ∈ properties_of schema ->
     m_get key args = Some (J_str s) -> declared_type sub = Some t -> t ≠ "string" ->
     coerceStringValue s t = Some v -> m_get key coerced = Some v) /\
  (validateToolArgs args schema = None -> coerced = args /\ changed = false).
Proof.
  destruct (coerceToolArgs args schema) as [coerced changed] eqn:Hco.
  pose proof (coerceToolArgs_fields args schema) as Hf.
  pose proof (coerceToolArgs_converts args schema) as Hc.
  rewrite Hco in Hf. rewrite Hco in Hc. split; [|split; [|split; [done|split; [eauto|]]]].
  - intros given. apply validate_none.
  - intros given key sub v t [_ _ Hp _ _] Hin. eapply check_property_typed. by apply check_property_none, Hp.
  - intros Hv%validate_none%conforming_not_coerced. rewrite Hco in Hv. by injection Hv.
Qed.

(** The check on arguments and a schema with a required, an optional and no
    additional field: the right ones pass, one of a wrong type, with a field
    missing or with one too many does not. *)
Definition sample_schema : JsonObject :=
  [("type", J_str "object");
   ("properties", J_obj [("path", J_obj [("type", J_str "string")]); ("limit", J_obj [("type", J_str "integer")])]);
   ("required", J_arr [J_str "path"]); ("additionalProperties", J_bool false)].

Lemma sample_args_checked :
  validateToolArgs [("path", J_str "a.ts"); ("limit", J_num 3)] sample_schema = None /\
  is_Some (validateToolArgs [("path", J_str "a.ts"); ("limit", J_num (1 # 2))] sample_schema) /\
  is_Some (validateToolArgs [("limit", J_num 3)] sample_schema) /\
  is_Some (validateToolArgs [("path", J_str "a.ts"); ("depth", J_num 3)] sample_schema).
Proof. vm_compute. by eauto 10. Qed.

(** A required field named like an inherited one is never missed. *)
Lemma inherited_name_is_required :
  validateToolArgs [] [("required", J_arr [J_str "toString"])] = None.
Proof. reflexivity. Qed.

(** An optional field named like an inherited one makes every call without it
    fail. *)
Lemma inherited_name_blocks_calls :
  is_Some (validateToolArgs []
    [("properties", J_obj [("constructor", J_obj [("type", J_str "string")])])]).
Proof. vm_compute. by eexists. Qed.
End Args.
