(* ===== verification/ConsumeStream.v ===== *)
(** * The model stream

    [lib/query-engine/src/consume-stream.ts] with the types it moves
    ([kernel/core/src/engine.ts], [middleware.ts], [model-adapter.ts],
    [lib/query-engine/src/types.ts]): chunks from a model provider become engine
    events, argument fragments become parsed tool calls.  The generator is the
    list of the events it yields; what each pull of the provider's iterator gives
    is a list, and [JSON.parse] a parameter. *)

From S2P Require Import Prelude JsMap ToolArgs.

Local Open Scope string_scope.
Local Open Scope list_scope.
Local Open Scope Z_scope.

Abbreviation ToolCallId := string (only parsing).
Abbreviation Metadata := (list (string * jsval)) (only parsing).

Inductive EngineStopReason : Type := sr_completed | sr_max_turns | sr_interrupted | sr_error.
Inductive ModelStopReason : Type := ms_stop | ms_length | ms_tool_use | ms_error | ms_hook_blocked.

#[export] Instance EngineStopReason_eq_dec : EqDecision EngineStopReason.
Proof. solve_decision. Defined.
#[export] Instance ModelStopReason_eq_dec : EqDecision ModelStopReason.
Proof. solve_decision. Defined.

Definition model_stop_str (r : ModelStopReason) : string :=
  match r with
  | ms_stop => "stop" | ms_length => "length" | ms_tool_use => "tool_use" | ms_error => "error"
  | ms_hook_blocked => "hook_blocked"
  end.

Record Usage : Type := mkUsage { us_inputTokens : Z; us_outputTokens : Z }.

(** Of the model's response: what the consumer reads. *)
Record ModelResponse : Type := mkResponse {
  mr_content : string;
  mr_usage : option Usage;
  mr_metadata : option Metadata;
  mr_stopReason : option ModelStopReason
}.

Inductive ModelChunk : Type :=
  | mc_text_delta (delta : string)
  | mc_thinking_delta (delta : string)
  | mc_tool_call_start (toolName : string) (callId : ToolCallId)
  | mc_tool_call_delta (callId : ToolCallId) (delta : string)
  | mc_tool_call_end (callId : ToolCallId)
  | mc_usage (u : Usage)
  | mc_error (message : string) (code : option string) (retryable : option bool) (retryAfterMs : option Z)
      (usage : option Usage)
  | mc_done (response : ModelResponse).

(** One [iterator.next()] raced against the signal: a chunk, the end, or a
    rejection - by the upstream, or by the signal, which may be a timeout. *)
Inductive Pull : Type :=
  | pull_chunk (chunk : ModelChunk)
  | pull_end
  | pull_error (message : string)
  | pull_aborted (timeout : bool).

Record AccumulatedToolCall : Type := mkCall {
  tc_toolName : string;
  tc_callId : ToolCallId;
  tc_rawArgs : string;
  tc_parsedArgs : option JsonObject;
  tc_parseError : option string
}.

Record EngineMetrics : Type := mkMetrics {
  me_totalTokens : Z; me_inputTokens : Z; me_outputTokens : Z; me_turns : Z; me_durationMs : Z
}.

(** The content is one text block, or nothing. *)
Record EngineOutput : Type := mkOutput {
  eo_content : option string;
  eo_stopReason : EngineStopReason;
  eo_metrics : EngineMetrics;
  eo_metadata : option Metadata
}.

(** What a tool returns: a value [JSON.stringify] accepts, or one it rejects
    with an error message. *)
Inductive ToolOutput : Type :=
  | out_value (v : jsval)
  | out_unserializable (message : string).

Inductive EngineEvent : Type :=
  | ee_text_delta (delta : string)
  | ee_thinking_delta (delta : string)
  | ee_tool_call_start (toolName : string) (callId : ToolCallId)
  | ee_tool_call_delta (callId : ToolCallId) (delta : string)
  | ee_tool_call_end (callId : ToolCallId) (result : AccumulatedToolCall)
  | ee_tool_result (callId : ToolCallId) (output : ToolOutput)
  | ee_turn_start (turnIndex : Z)
  | ee_turn_end (turnIndex : Z)
  | ee_usage (u : Usage)                               (* custom, type "usage" *)
  | ee_custom (type : string) (data : Metadata)
  | ee_done (output : EngineOutput).

(** ** The consumer *)

Record Acc : Type := mkAcc { ac_toolName : string; ac_fragments : list string }.

Record Consumer : Type := mkConsumer {
  cn_accumulators : list (ToolCallId * Acc);
  cn_inputTokens : Z;
  cn_outputTokens : Z;
  cn_completedToolCalls : list AccumulatedToolCall;
  cn_textFragments : list string
}.

Definition new_consumer : Consumer := mkConsumer [] 0 0 [] [].

Definition concat_text (fragments : list string) : string := foldr String.append EmptyString fragments.

Definition buildDanglingToolCalls (accumulators : list (ToolCallId * Acc)) : list jsval :=
  (fun p => JObj [("callId", JStr p.1); ("toolName", JStr (ac_toolName p.2));
                  ("partialArgs", JStr (concat_text (ac_fragments p.2)))]) <$> accumulators.

(** [...(dangling.length > 0 ? { danglingToolCalls: dangling } : {})] *)
Definition dangling_field (dangling : list jsval) : Metadata :=
  match dangling with [] => [] | _ => [("danglingToolCalls", JArr dangling)] end.

(** [[{ kind: "text", text }]], or nothing for the empty text. *)
Definition text_content (text : string) : option string :=
  if decide (text = EmptyString) then None else Some text.

Definition stream_metrics (s : Consumer) : EngineMetrics :=
  mkMetrics (cn_inputTokens s + cn_outputTokens s) (cn_inputTokens s) (cn_outputTokens s) 0 0.

(** The terminal event of an abort, of an upstream error, and of a stream that
    ends without a terminal chunk. *)
Definition failed_done (reason : EngineStopReason) (message : string) (s : Consumer) : EngineEvent :=
  ee_done (mkOutput (text_content (concat_text (cn_textFragments s))) reason (stream_metrics s)
    (Some (("error", JStr message) :: dangling_field (buildDanglingToolCalls (cn_accumulators s))))).

Definition with_usage (usage : option Usage) (s : Consumer) : Consumer :=
  match usage with
  | Some u => mkConsumer (cn_accumulators s) (us_inputTokens u) (us_outputTokens u) (cn_completedToolCalls s)
                (cn_textFragments s)
  | None => s
  end.

Definition error_done (message : string) (code : option string) (retryable : option bool) (retryAfterMs : option Z)
    (s : Consumer) : EngineEvent :=
  let partial := concat_text (cn_textFragments s) in
  let content := if decide (partial = EmptyString) then message else partial in
  ee_done (mkOutput (text_content content) sr_error (stream_metrics s)
    (Some (("error", JStr message) ::
       match code with Some c => [("errorCode", JStr c)] | None => [] end ++
       match retryable with Some b => [("retryable", JBool b)] | None => [] end ++
       match retryAfterMs with Some ms => [("retryAfterMs", JNum ms)] | None => [] end ++
       dangling_field (buildDanglingToolCalls (cn_accumulators s))))).

Definition is_nonSuccess (r : option ModelStopReason) : bool :=
  match r with Some ms_error | Some ms_hook_blocked => true | _ => false end.

(** [{...base, ...fields}] *)
Definition spread (base fields : Metadata) : Metadata := foldl (fun m f => m_set f.1 f.2 m) base fields.

Definition truncation_fields (calls : list AccumulatedToolCall) : Metadata :=
  [("modelStopReason", JStr "length");
   ("truncatedToolCallError", JStr "model hit max_tokens with completed tool calls — response may be incomplete");
   ("truncatedToolCalls",
    JArr ((fun tc => JObj [("callId", JStr (tc_callId tc)); ("toolName", JStr (tc_toolName tc))]) <$> calls))].

Definition response_done (response : ModelResponse) (s : Consumer) : EngineEvent :=
  let s := with_usage (mr_usage response) s in
  let finalText := if decide (mr_content response = EmptyString) then concat_text (cn_textFragments s)
                   else mr_content response in
  let dangling := buildDanglingToolCalls (cn_accumulators s) in
  let isNonSuccess := is_nonSuccess (mr_stopReason response) in
  let isTruncatedToolCall :=
    bool_decide (mr_stopReason response = Some ms_length) && bool_decide (cn_completedToolCalls s ≠ []) in
  let hasDangling := match dangling with [] => false | _ => true end in
  let stopReason := if hasDangling || isNonSuccess || isTruncatedToolCall then sr_error else sr_completed in
  let responseMeta := default [] (mr_metadata response) in
  let hasResponseMeta := match responseMeta with [] => false | _ => true end in
  let metadata :=
    if hasDangling || hasResponseMeta || isTruncatedToolCall then
      let m := responseMeta in
      let m := spread m (if isNonSuccess then
        match mr_stopReason response with Some r => [("modelStopReason", JStr (model_stop_str r))] | None => [] end else []) in
      let m := spread m (if isTruncatedToolCall then truncation_fields (cn_completedToolCalls s) else []) in
      Some (spread m (if hasDangling then
        [("danglingToolCallsError", JStr "done received with in-flight tool calls"); ("danglingToolCalls", JArr dangling)]
        else []))
    else None in
  ee_done (mkOutput (text_content finalText) stopReason (stream_metrics s) metadata).

Section Stream.
Variable JSON_parse : string -> Result json string.

Definition json_kind (v : json) : string := match v with J_arr _ => "array" | _ => typeof v end.

(** [accumulated] of a [tool_call_end] chunk. *)
Definition finish_call (callId : ToolCallId) (acc : option Acc) : AccumulatedToolCall :=
  let rawArgs := match acc with Some a => concat_text (ac_fragments a) | None => EmptyString end in
  let toolName := match acc with Some a => ac_toolName a | None => EmptyString end in
  match JSON_parse rawArgs with
  | Ok (J_obj fields) => mkCall toolName callId rawArgs (Some fields) None
  | Ok v => mkCall toolName callId rawArgs None (Some ("expected JSON object, got " +:+ json_kind v))
  | Err message => mkCall toolName callId rawArgs None (Some message)
  end.

(** The events of one chunk; [None] after a terminal one. *)
Definition on_chunk (chunk : ModelChunk) (s : Consumer) : list EngineEvent * option Consumer :=
  match chunk with
  | mc_text_delta delta =>
      ([ee_text_delta delta],
       Some (mkConsumer (cn_accumulators s) (cn_inputTokens s) (cn_outputTokens s) (cn_completedToolCalls s)
               (cn_textFragments s ++ [delta])))
  | mc_thinking_delta delta => ([ee_thinking_delta delta], Some s)
  | mc_tool_call_start toolName callId =>
      ([ee_tool_call_start toolName callId],
       Some (mkConsumer (m_set callId (mkAcc toolName []) (cn_accumulators s)) (cn_inputTokens s)
               (cn_outputTokens s) (cn_completedToolCalls s) (cn_textFragments s)))
  | mc_tool_call_delta callId delta =>
      ([ee_tool_call_delta callId delta],
       Some (match m_get callId (cn_accumulators s) with
             | Some a => mkConsumer (m_set callId (mkAcc (ac_toolName a) (ac_fragments a ++ [delta])) (cn_accumulators s))
                           (cn_inputTokens s) (cn_outputTokens s) (cn_completedToolCalls s) (cn_textFragments s)
             | None => s
             end))
  | mc_tool_call_end callId =>
      let call := finish_call callId (m_get callId (cn_accumulators s)) in
      ([ee_tool_call_end callId call],
       Some (mkConsumer (m_delete callId (cn_accumulators s)) (cn_inputTokens s) (cn_outputTokens s)
               (cn_completedToolCalls s ++ [call]) (cn_textFragments s)))
  | mc_usage u =>
      ([ee_usage u],
       Some (mkConsumer (cn_accumulators s) (cn_inputTokens s + us_inputTokens u)
               (cn_outputTokens s + us_outputTokens u) (cn_completedToolCalls s) (cn_textFragments s)))
  | mc_error message code retryable retryAfterMs usage =>
      ([error_done message code retryable retryAfterMs (with_usage usage s)], None)
  | mc_done response => ([response_done response s], None)
  end.

(** A list of pulls that runs out ends the stream. *)
Fixpoint consume (pulls : list Pull) (s : Consumer) : list EngineEvent :=
  match pulls with
  | pull_chunk chunk :: pulls =>
      let '(events, next) := on_chunk chunk s in
      events ++ match next with Some s => consume pulls s | None => [] end
  | pull_error message :: _ => [failed_done sr_error message s]
  | pull_aborted timeout :: _ =>
      [failed_done (if timeout : bool then sr_error else sr_interrupted)
         (if timeout then "Stream timed out" else "Stream cancelled") s]
  | pull_end :: _ | [] => [failed_done sr_error "stream ended without terminal chunk" s]
  end.

Definition consumeModelStream (pulls : list Pull) : list EngineEvent := consume pulls new_consumer.

(** ** What the events say about the stream *)

Definition is_terminal (chunk : ModelChunk) : bool :=
  match chunk with mc_error _ _ _ _ _ | mc_done _ => true | _ => false end.

(** The tool call that is being streamed under an identifier: the name of its
    last start and the fragments since, unless it has ended. *)
Definition open_step (id : ToolCallId) (call : option Acc) (chunk : ModelChunk) : option Acc :=
  match chunk with
  | mc_tool_call_start toolName callId => if decide (callId = id) then Some (mkAcc toolName []) else call
  | mc_tool_call_delta callId delta =>
      if decide (callId = id) then (fun a => mkAcc (ac_toolName a) (ac_fragments a ++ [delta])) <$> call else call
  | mc_tool_call_end callId => if decide (callId = id) then None else call
  | _ => call
  end.

Definition open_call (id : ToolCallId) (chunks : list ModelChunk) : option Acc := foldl (open_step id) None chunks.

Definition ends_call (chunk : ModelChunk) : bool := match chunk with mc_tool_call_end _ => true | _ => false end.

(** The consumer after some chunks, and the events of the last of them. *)
Definition advance (s : Consumer) (chunk : ModelChunk) : Consumer := default s (on_chunk chunk s).2.
Definition after (chunks : list ModelChunk) : Consumer := foldl advance new_consumer chunks.

Lemma after_snoc chunks chunk : after (chunks ++ [chunk]) = advance (after chunks) chunk.
Proof. unfold after. by rewrite foldl_app. Qed.

Lemma open_call_snoc id chunks chunk : open_call id (chunks ++ [chunk]) = open_step id (open_call id chunks) chunk.
Proof. unfold open_call. by rewrite foldl_app. Qed.

Lemma accumulators_exact chunks :
  NoDup (m_keys (cn_accumulators (after chunks))) /\
  (forall id, m_get id (cn_accumulators (after chunks)) = open_call id chunks) /\
  (cn_completedToolCalls (after chunks) = [] <-> Forall (fun c => ends_call c = false) chunks).
Proof.
  induction chunks as [|chunk chunks IH] using rev_ind; [split_and!; try done; apply NoDup_nil_2|].
  destruct IH as (Hnd & Hget & Hcomp). setoid_rewrite open_call_snoc. rewrite after_snoc, Forall_app, Forall_singleton. simpl.
  destruct chunk as [d|d|n c|c d|c|u|m c r ms u|r]; unfold advance; simpl;
    try (split_and!; [done|done|]; rewrite Hcomp; naive_solver).
  - split_and!; [auto with koi| |rewrite Hcomp; naive_solver]. intros id. rewrite m_get_set, Hget. done.
  - destruct (m_get c (cn_accumulators (after chunks))) as [a|] eqn:Ha; simpl;
      (split_and!; [auto with koi| |rewrite Hcomp; naive_solver]); intros id; rewrite ?m_get_set, Hget;
      case_decide as Hd; subst; try done; rewrite <-Hget, Ha; done.
  - split_and!; [auto with koi| |].
    + intros id. by rewrite m_get_delete, Hget.
    + split; [intros [_ ?]%app_eq_nil; done|intros [_ He]; discriminate He].
Qed.

(** The run over a prefix that is not terminal. *)
Definition chunk_events (before : list ModelChunk) (chunk : ModelChunk) : list EngineEvent := (on_chunk chunk (after before)).1.

Lemma on_chunk_next chunk s : is_terminal chunk = false -> (on_chunk chunk s).2 = Some (advance s chunk).
Proof. unfold advance. by destruct chunk. Qed.

(** What an event of the body is, seen from the chunks before it. *)
Definition explained (before : list ModelChunk) (ev : EngineEvent) : Prop :=
  (forall out, ev ≠ ee_done out) /\
  forall id call, ev = ee_tool_call_end id call -> exists k,
    before !! k = Some (mc_tool_call_end id) /\ call = finish_call id (open_call id (take k before)).

Lemma explained_more before more ev : explained before ev -> explained (before ++ more) ev.
Proof.
  intros [Hd Ht]. split; [done|]. intros id call He. destruct (Ht id call He) as (k & Hk & ->).
  exists k. pose proof (lookup_lt_Some _ _ _ Hk) as Hlt. rewrite lookup_app_l by done. split; [done|].
  rewrite take_app_le by lia. done.
Qed.

Lemma chunk_explained before chunk ev :
  is_terminal chunk = false -> ev ∈ chunk_events before chunk -> explained (before ++ [chunk]) ev.
Proof.
  destruct (accumulators_exact before) as (_ & Hget & _). unfold chunk_events.
  destruct chunk; simpl; intros Ht Hev; try done; apply list_elem_of_singleton in Hev as ->; (split; [done|]);
    intros id call He; simplify_eq.
  exists (length before). rewrite lookup_app_r, Nat.sub_diag by done. split; [done|].
  rewrite take_app_length. by rewrite Hget.
Qed.

Inductive ending : Type := end_pull (p : Pull) | end_chunk (chunk : ModelChunk).

(** How a stream comes to its end: the chunks before, and the pull or chunk that
    ends it. *)
Fixpoint split_stream (pulls : list Pull) : list ModelChunk * ending :=
  match pulls with
  | pull_chunk chunk :: pulls =>
      if is_terminal chunk then ([], end_chunk chunk)
      else let '(before, last) := split_stream pulls in (chunk :: before, last)
  | p :: _ => ([], end_pull p)
  | [] => ([], end_pull pull_end)
  end.

Definition final_event (last : ending) (s : Consumer) : EngineEvent :=
  match last with
  | end_chunk (mc_error message code retryable retryAfterMs usage) =>
      error_done message code retryable retryAfterMs (with_usage usage s)
  | end_chunk (mc_done response) => response_done response s
  | end_pull (pull_error message) => failed_done sr_error message s
  | end_pull (pull_aborted timeout) =>
      failed_done (if timeout : bool then sr_error else sr_interrupted)
        (if timeout then "Stream timed out" else "Stream cancelled") s
  | _ => failed_done sr_error "stream ended without terminal chunk" s
  end.

Lemma consume_split pulls : forall before,
  let '(chunks, last) := split_stream pulls in
  exists body, consume pulls (after before) = body ++ [final_event last (after (before ++ chunks))] /\
    Forall (explained (before ++ chunks)) body /\ Forall (fun c => is_terminal c = false) chunks.
Proof.
  induction pulls as [|p pulls IH]; intros before; simpl.
  { exists []. rewrite app_nil_r. done. }
  destruct p as [chunk| | |]; try (exists []; rewrite app_nil_r; done).
  destruct (is_terminal chunk) eqn:Ht.
  { exists []. rewrite app_nil_r. destruct chunk; done. }
  specialize (IH (before ++ [chunk])). destruct (split_stream pulls) as [chunks last].
  destruct IH as (body & Hc & Hb & Hn). rewrite after_snoc in Hc.
  destruct (on_chunk chunk (after before)) as [events next] eqn:Ho.
  pose proof (on_chunk_next chunk (after before) Ht) as Hnext. rewrite Ho in Hnext. simpl in Hnext. rewrite Hnext, Hc.
  rewrite <-(assoc_L app) in *. exists (events ++ body). rewrite (assoc_L app). split; [done|]. split; [|by constructor].
  apply Forall_app. split; [|done]. apply Forall_forall. intros ev Hev.
  rewrite (cons_middle chunk before chunks), (assoc_L app). apply explained_more.
  apply chunk_explained; [done|]. unfold chunk_events. by rewrite Ho.
Qed.

(** When a response counts as complete. *)
Definition complete_response (chunks : list ModelChunk) (response : ModelResponse) : Prop :=
  is_nonSuccess (mr_stopReason response) = false /\ (forall id, open_call id chunks = None) /\
  (mr_stopReason response = Some ms_length -> Forall (fun c => ends_call c = false) chunks).

Lemma open_calls_nil acc : buildDanglingToolCalls acc = [] <-> acc = [].
Proof. unfold buildDanglingToolCalls. split; [apply fmap_nil_inv|by intros ->]. Qed.

Lemma response_done_completed chunks response out :
  response_done response (after chunks) = ee_done out ->
  eo_stopReason out = sr_completed <-> complete_response chunks response.
Proof.
  destruct (accumulators_exact chunks) as (_ & Hget & Hcomp). unfold response_done. cbv zeta. intros [= <-]. simpl.
  assert (Hacc : cn_accumulators (with_usage (mr_usage response) (after chunks)) = cn_accumulators (after chunks))
    by (by destruct (mr_usage response)).
  assert (Hcm : cn_completedToolCalls (with_usage (mr_usage response) (after chunks)) = cn_completedToolCalls (after chunks))
    by (by destruct (mr_usage response)).
  rewrite Hacc, Hcm. unfold complete_response.
  assert (Hopen : (forall id, open_call id chunks = None) <-> buildDanglingToolCalls (cn_accumulators (after chunks)) = []).
  { rewrite open_calls_nil. setoid_rewrite <-Hget. split; [|by intros ->].
    destruct (cn_accumulators (after chunks)) as [|[k a] l]; [done|]. intros H. specialize (H k). simpl in H.
    by rewrite decide_True in H. }
  rewrite Hopen, <-Hcomp. destruct (buildDanglingToolCalls _); simpl; [|naive_solver].
  destruct (is_nonSuccess _); simpl; [naive_solver|].
  destruct (decide (mr_stopReason response = Some ms_length)) as [Hl|Hl];
    [rewrite bool_decide_eq_true_2 by done|rewrite bool_decide_eq_false_2 by done; naive_solver].
  destruct (cn_completedToolCalls (after chunks)); simpl; naive_solver.
Qed.

(** C33: Whatever a provider sends, the consumer's events end in exactly one
    [done]; a completed tool call carries the name of its last start and exactly
    the fragments streamed since, parsed; and the [done] says [completed] only
    when the stream ended with a response that is not an error or a refusal, with
    no call still open, and not cut off at the token limit after tool calls -
    otherwise no call may be executed. *)
Theorem stream_verdict pulls :
  let '(chunks, last) := split_stream pulls in
  exists body out, consumeModelStream pulls = body ++ [ee_done out] /\
    (forall out', ee_done out' ∉ body) /\
    (forall id call, ee_tool_call_end id call ∈ body -> exists k,
       chunks !! k = Some (mc_tool_call_end id) /\ call = finish_call id (open_call id (take k chunks))) /\
    (eo_stopReason out = sr_completed <->
       exists response, last = end_chunk (mc_done response) /\ complete_response chunks response).
Proof.
  pose proof (consume_split pulls []) as H. destruct (split_stream pulls) as [chunks last].
  destruct H as (body & Hc & Hb & Hn). simpl in *. rewrite Forall_forall in Hb.
  assert (Hout : exists out, final_event last (after chunks) = ee_done out /\
    (eo_stopReason out = sr_completed <->
       exists response, last = end_chunk (mc_done response) /\ complete_response chunks response)).
  { destruct last as [p|c]; [destruct p as [|m|m|[]]|destruct c]; simpl; eexists; (split; [reflexivity|]); simpl;
      try (split; [done|naive_solver]).
    rewrite (response_done_completed chunks response _ eq_refl). naive_solver. }
  destruct Hout as (out & Ho & Hs). exists body, out. rewrite <-Ho. split; [done|].
  split; [intros out' Hin; by destruct (proj1 (Hb _ Hin) out')|]. split; [|done].
  intros id call Hin. by apply (proj2 (Hb _ Hin)).
Qed.
End Stream.
