(* ===== verification/TurnMachine.v ===== *)
(** * The turn machine and doom loops

    [lib/query-engine/src/turn-machine.ts] and [doom-loop.ts]: the pure
    transition function behind a run, and the counters that notice a model
    calling the same tool with the same arguments turn after turn. *)

From S2P Require Import Prelude JsMap ConsumeStream.

Local Open Scope string_scope.
Local Open Scope list_scope.
Local Open Scope Z_scope.

(** ** turn-machine.ts *)

Inductive TurnPhase : Type := tp_idle | tp_model | tp_tool_execution | tp_continue | tp_complete.

#[export] Instance TurnPhase_eq_dec : EqDecision TurnPhase.
Proof. solve_decision. Defined.

Inductive TurnInput : Type :=
  | ti_start
  | ti_model_done (hasToolCalls : bool)
  | ti_tools_done
  | ti_stop_blocked
  | ti_abort
  | ti_error (message : string)
  | ti_max_turns.

Record TurnState : Type := mkTurn {
  ts_phase : TurnPhase;
  ts_turnIndex : Z;
  ts_modelCalls : Z;
  ts_stopReason : option EngineStopReason
}.

Definition createTurnState (turnIndex : Z) : TurnState := mkTurn tp_idle turnIndex 0 None.

Definition complete (state : TurnState) (reason : EngineStopReason) : TurnState :=
  mkTurn tp_complete (ts_turnIndex state) (ts_modelCalls state) (Some reason).

Definition phase_str (p : TurnPhase) : string :=
  match p with
  | tp_idle => "idle" | tp_model => "model" | tp_tool_execution => "tool_execution"
  | tp_continue => "continue" | tp_complete => "complete"
  end.

Definition input_str (i : TurnInput) : string :=
  match i with
  | ti_start => "start" | ti_model_done _ => "model_done" | ti_tools_done => "tools_done"
  | ti_stop_blocked => "stop_blocked" | ti_abort => "abort" | ti_error _ => "error" | ti_max_turns => "max_turns"
  end.

Definition invalidTransition (p : TurnPhase) (i : TurnInput) : string :=
  "Invalid turn transition: " +:+ quoted (phase_str p) +:+ " + " +:+ quoted (input_str i).

Definition to_model (s : TurnState) : TurnState :=
  mkTurn tp_model (ts_turnIndex s) (ts_modelCalls s + 1) (ts_stopReason s).

Definition transitionTurn (s : TurnState) (input : TurnInput) : Result TurnState string :=
  match ts_phase s, input with
  | tp_idle, ti_start => Ok (to_model s)
  | tp_model, ti_model_done true => Ok (mkTurn tp_tool_execution (ts_turnIndex s) (ts_modelCalls s) (ts_stopReason s))
  | tp_model, ti_model_done false => Ok (complete s sr_completed)
  | tp_model, ti_abort => Ok (complete s sr_interrupted)
  | tp_model, ti_error _ => Ok (complete s sr_error)
  | tp_tool_execution, ti_tools_done =>
      Ok (mkTurn tp_continue (ts_turnIndex s + 1) (ts_modelCalls s) (ts_stopReason s))
  | tp_tool_execution, ti_abort => Ok (complete s sr_interrupted)
  | tp_tool_execution, ti_error _ => Ok (complete s sr_error)
  | tp_continue, ti_start => Ok (to_model s)
  | tp_continue, ti_max_turns => Ok (complete s sr_max_turns)
  | tp_continue, ti_abort => Ok (complete s sr_interrupted)
  | tp_complete, ti_stop_blocked => Ok (mkTurn tp_continue (ts_turnIndex s + 1) (ts_modelCalls s) None)
  | p, _ => Err (invalidTransition p input)
  end.

(** ** doom-loop.ts *)

Definition DEFAULT_DOOM_LOOP_THRESHOLD : Z := 3.
Definition DEFAULT_MAX_DOOM_LOOP_INTERVENTIONS : Z := 2.

Record Partition : Type := mkPartition { pt_repeatedKeys : list string; pt_hasRepeated : bool; pt_allRepeated : bool }.

Definition partitionDoomLoopKeys (streaks : list (string * Z)) (currentKeys : list string) (threshold : Z) : Partition :=
  if (threshold <? 2) || bool_decide (currentKeys = []) then mkPartition [] false false
  else
    let repeated :=
      foldl (fun acc key =>
        match m_get key streaks with
        | Some count => if threshold <=? count then s_add key acc else acc
        | None => acc
        end) [] currentKeys in
    mkPartition repeated (bool_decide (repeated ≠ [])) (bool_decide (length repeated = length currentKeys)).

Definition updateStreaks (streaks : list (string * Z)) (currentKeys : list string) : list (string * Z) :=
  foldl (fun next key => m_set key (default 0 (m_get key streaks) + 1) next) [] currentKeys.

(** The separator between tool name and arguments. *)
Definition NUL : string := String Ascii.zero EmptyString.

Fixpoint before_nul (s : string) : string :=
  match s with
  | EmptyString => EmptyString
  | String c s => if decide (c = Ascii.zero) then EmptyString else String c (before_nul s)
  end.

Fixpoint after_nul (s : string) : string :=
  match s with
  | EmptyString => EmptyString
  | String c s => if decide (c = Ascii.zero) then s else after_nul s
  end.

(** Tool name and canonical arguments. *)
Definition parseDoomLoopKey (key : string) : string * string := (before_nul key, after_nul key).
