(* ===== verification/TurnRunner.v ===== *)
(** * The turn runner

    [lib/query-engine/src/turn-runner.ts]: the generator that drives a run of the
    agent: ask the model, check and execute the tool calls of its answer, ask
    again with the results.  A run is a computation over the variables of the
    generator and a log of what it does to the outside - requests, tool calls,
    stop-gate questions and the events it yields.  [r_time] counts the points at
    which it is suspended (awaits and yields); all that the outside answers - the
    stream, tools, the gate, the signal, the clock - depends on that time. *)

From Stdlib Require Import QArith.
From S2P Require Import Prelude JsMap Text Canonical SessionRepair ToolArgs ConsumeStream TurnMachine.

Local Open Scope string_scope.
Local Open Scope list_scope.
Local Open Scope Z_scope.

(** ** Types *)

Record ToolDescriptor : Type := mkDescriptor { td_name : string; td_inputSchema : JsonObject }.

Record ToolRequest : Type := mkToolRequest {
  tq_toolId : string; tq_input : JsonObject; tq_callId : ToolCallId
}.

(** What an await of the outside throws; the flag says that it is an
    [AbortError] or has the code [ABORT_ERR]. *)
Record Exn : Type := mkExn { ex_message : string; ex_abort : bool }.

Inductive StopGateResult : Type := sg_continue | sg_block (reason : string).

Record TurnRunnerConfig : Type := mkRunConfig {
  rc_messages : list InboundMessage;
  rc_maxTurns : option Z;
  rc_maxStopRetries : option Z;
  rc_doomLoopThreshold : option Z;
  rc_maxDoomLoopInterventions : option Z
}.

Definition DEFAULT_MAX_STOP_RETRIES : Z := 3.

(** The outside: [callHandlers], [stopGate], [signal], [Date.now] and
    [performance.now].  The stream handler may throw before there is a stream. *)
Record Env : Type := mkEnv {
  en_tools : nat -> list ToolDescriptor;
  en_modelStream : option (nat -> list InboundMessage -> list ToolDescriptor -> Result (list Pull) Exn);
  en_modelCall : nat -> list InboundMessage -> list ToolDescriptor -> Result ModelResponse string;
  en_toolCall : nat -> ToolRequest -> Result ToolOutput Exn;
  en_stopGate : option (nat -> Z -> Result StopGateResult Exn);
  en_aborted : option (nat -> bool);
  en_now : nat -> Z;
  en_durationMs : nat -> Z
}.

Inductive Obs : Type :=
  | ob_request (messages : list InboundMessage) (tools : list ToolDescriptor)
  | ob_tool (request : ToolRequest)
  | ob_gate (turnIndex : Z)
  | ob_event (event : EngineEvent).

(** The variables of one turn. *)
Record TurnVars : Type := mkVars {
  tv_advertised : list ToolDescriptor;
  tv_toolCalls : list AccumulatedToolCall;
  tv_text : list string;
  tv_sawTerminal : bool;
  tv_committed : bool;
  tv_in : Z;
  tv_out : Z;
  tv_truncated : bool
}.

Definition new_vars (advertised : list ToolDescriptor) : TurnVars := mkVars advertised [] [] false false 0 0 false.

Record Run : Type := mkRun {
  r_time : nat;
  r_log : list Obs;
  r_state : TurnState;
  r_transcript : list InboundMessage;
  r_in : Z;
  r_out : Z;
  r_lastText : list string;
  r_errorMeta : option Metadata;
  r_stopRetries : Z;
  r_streaks : list (string * Z);
  r_interventions : list (string * Z);
  r_blocked : list AccumulatedToolCall;
  r_toolRecovery : bool;
  r_truncRecovery : bool;
  r_schemaPending : bool;
  r_turn : TurnVars
}.

Definition initial_run (messages : list InboundMessage) : Run :=
  mkRun 0 [] (createTurnState 0) messages 0 0 [] None 0 [] [] [] false false false (new_vars []).

(** ** Assignments *)

Definition tick (r : Run) : Run :=
  mkRun (S (r_time r)) (r_log r) (r_state r) (r_transcript r) (r_in r) (r_out r) (r_lastText r) (r_errorMeta r)
    (r_stopRetries r) (r_streaks r) (r_interventions r) (r_blocked r) (r_toolRecovery r) (r_truncRecovery r)
    (r_schemaPending r) (r_turn r).
Definition log (o : Obs) (r : Run) : Run :=
  mkRun (r_time r) (r_log r ++ [o]) (r_state r) (r_transcript r) (r_in r) (r_out r) (r_lastText r) (r_errorMeta r)
    (r_stopRetries r) (r_streaks r) (r_interventions r) (r_blocked r) (r_toolRecovery r) (r_truncRecovery r)
    (r_schemaPending r) (r_turn r).
Definition set_state (s : TurnState) (r : Run) : Run :=
  mkRun (r_time r) (r_log r) s (r_transcript r) (r_in r) (r_out r) (r_lastText r) (r_errorMeta r)
    (r_stopRetries r) (r_streaks r) (r_interventions r) (r_blocked r) (r_toolRecovery r) (r_truncRecovery r)
    (r_schemaPending r) (r_turn r).
Definition push (ms : list InboundMessage) (r : Run) : Run :=
  mkRun (r_time r) (r_log r) (r_state r) (r_transcript r ++ ms) (r_in r) (r_out r) (r_lastText r) (r_errorMeta r)
    (r_stopRetries r) (r_streaks r) (r_interventions r) (r_blocked r) (r_toolRecovery r) (r_truncRecovery r)
    (r_schemaPending r) (r_turn r).
Definition add_usage (i o : Z) (r : Run) : Run :=
  mkRun (r_time r) (r_log r) (r_state r) (r_transcript r) (r_in r + i) (r_out r + o) (r_lastText r) (r_errorMeta r)
    (r_stopRetries r) (r_streaks r) (r_interventions r) (r_blocked r) (r_toolRecovery r) (r_truncRecovery r)
    (r_schemaPending r) (r_turn r).
Definition set_lastText (t : list string) (r : Run) : Run :=
  mkRun (r_time r) (r_log r) (r_state r) (r_transcript r) (r_in r) (r_out r) t (r_errorMeta r)
    (r_stopRetries r) (r_streaks r) (r_interventions r) (r_blocked r) (r_toolRecovery r) (r_truncRecovery r)
    (r_schemaPending r) (r_turn r).
Definition set_error (m : option Metadata) (r : Run) : Run :=
  mkRun (r_time r) (r_log r) (r_state r) (r_transcript r) (r_in r) (r_out r) (r_lastText r) m
    (r_stopRetries r) (r_streaks r) (r_interventions r) (r_blocked r) (r_toolRecovery r) (r_truncRecovery r)
    (r_schemaPending r) (r_turn r).
Definition add_stopRetry (r : Run) : Run :=
  mkRun (r_time r) (r_log r) (r_state r) (r_transcript r) (r_in r) (r_out r) (r_lastText r) (r_errorMeta r)
    (r_stopRetries r + 1) (r_streaks r) (r_interventions r) (r_blocked r) (r_toolRecovery r) (r_truncRecovery r)
    (r_schemaPending r) (r_turn r).
Definition set_doom (streaks interventions : list (string * Z)) (r : Run) : Run :=
  mkRun (r_time r) (r_log r) (r_state r) (r_transcript r) (r_in r) (r_out r) (r_lastText r) (r_errorMeta r)
    (r_stopRetries r) streaks interventions (r_blocked r) (r_toolRecovery r) (r_truncRecovery r)
    (r_schemaPending r) (r_turn r).
Definition set_blocked (calls : list AccumulatedToolCall) (r : Run) : Run :=
  mkRun (r_time r) (r_log r) (r_state r) (r_transcript r) (r_in r) (r_out r) (r_lastText r) (r_errorMeta r)
    (r_stopRetries r) (r_streaks r) (r_interventions r) calls (r_toolRecovery r) (r_truncRecovery r)
    (r_schemaPending r) (r_turn r).
Definition set_flags (tool trunc schema : bool) (r : Run) : Run :=
  mkRun (r_time r) (r_log r) (r_state r) (r_transcript r) (r_in r) (r_out r) (r_lastText r) (r_errorMeta r)
    (r_stopRetries r) (r_streaks r) (r_interventions r) (r_blocked r) tool trunc schema (r_turn r).
Definition set_turn (v : TurnVars) (r : Run) : Run :=
  mkRun (r_time r) (r_log r) (r_state r) (r_transcript r) (r_in r) (r_out r) (r_lastText r) (r_errorMeta r)
    (r_stopRetries r) (r_streaks r) (r_interventions r) (r_blocked r) (r_toolRecovery r) (r_truncRecovery r)
    (r_schemaPending r) v.

(** ** Computations *)

Definition M (A : Type) : Type := Run -> (A + Exn) * Run.

Definition ret {A} (x : A) : M A := fun r => (inl x, r).
Definition bind {A B} (m : M A) (k : A -> M B) : M B :=
  fun r => match m r with (inl x, r') => k x r' | (inr e, r') => (inr e, r') end.
Definition throw {A} (e : Exn) : M A := fun r => (inr e, r).
Definition catch {A} (m : M A) (handler : Exn -> M A) : M A :=
  fun r => match m r with (inl x, r') => (inl x, r') | (inr e, r') => handler e r' end.
Definition get {A} (f : Run -> A) : M A := fun r => (inl (f r), r).
Definition modify (f : Run -> Run) : M unit := fun r => (inl tt, f r).

Declare Scope turn_scope.
Delimit Scope turn_scope with turn.
Notation "'let!' x ':=' m 'in' k" := (bind m (fun x => k))
  (at level 10, x binder, m at level 100, k at level 200) : turn_scope.
Notation "m ;;! k" := (bind m (fun _ => k)) (at level 100, right associativity) : turn_scope.
Local Open Scope turn_scope.

Definition suspend : M unit := modify tick.
Definition emit (event : EngineEvent) : M unit := modify (fun r => tick (log (ob_event event) r)).

(** An exception of [transitionTurn] is a plain [Error]. *)
Definition fsm (input : TurnInput) : M unit := fun r =>
  match transitionTurn (r_state r) input with
  | Ok s => (inl tt, set_state s r)
  | Err message => (inr (mkExn message false), r)
  end.

Definition turn_end (offset : Z) : M unit :=
  let! i := get (fun r => ts_turnIndex (r_state r)) in emit (ee_turn_end (i + offset)).

(** ** Messages *)

Definition text_of (s : string) : list ContentBlock := [B_text s].

Definition call_meta (tc : AccumulatedToolCall) : jsval :=
  JObj [("id", JStr (tc_callId tc)); ("type", JStr "function");
        ("function", JObj [("name", JStr (tc_toolName tc)); ("arguments", JStr (tc_rawArgs tc))])].

(** The messages [appendAssistantTurn] pushes: one, or none. *)
Definition assistant_messages (now : Z) (textParts : list string) (toolCalls : list AccumulatedToolCall)
    : list InboundMessage :=
  let text := concat_text textParts in
  match toolCalls with
  | [] => if decide (text = EmptyString) then [] else [mkMessage (text_of text) "assistant" None now None None]
  | _ => [mkMessage (text_of text) "assistant" None now (Some [("toolCalls", JArr (call_meta <$> toolCalls))]) None]
  end.

Definition json_string (v : jsval) : string := String.string_of_list_ascii (stringify v).

(** [safeStringify({ callId, output })]: the fallback is about the wrapper
    object, whose [String] is [[object Object]]. *)
Definition result_text (callId : ToolCallId) (output : ToolOutput) : string :=
  match output with
  | out_value v => json_string (JObj [("callId", JStr callId); ("output", v)])
  | out_unserializable message =>
      json_string (JObj [("__serialization_error", JBool true); ("type", JStr "object"); ("message", JStr message);
                         ("preview", JStr "[object Object]")])
  end.

Definition tool_message (now : Z) (callId : ToolCallId) (toolName : string) (output : ToolOutput) : InboundMessage :=
  mkMessage (text_of (result_text callId output)) "tool" None now
    (Some [("callId", JStr callId); ("toolName", JStr toolName)]) None.

Definition system_message (now : Z) (senderId text : string) : InboundMessage :=
  mkMessage (text_of text) senderId None now None None.

Definition transcriptHasToolResult (transcript : list InboundMessage) (callId : ToolCallId) : bool :=
  existsb (fun msg => bool_decide (im_senderId msg = "tool") &&
    match meta_get (im_metadata msg) "callId" with Some (JStr c) => bool_decide (c = callId) | _ => false end) transcript.

(** ** Keys of tool calls *)

Definition json_key_le (a b : string * json) : Prop := String.leb a.1 b.1 = true.

#[export] Instance json_key_le_dec a b : Decision (json_key_le a b).
Proof. unfold json_key_le. apply _. Defined.

Fixpoint sortDeep (v : json) : json :=
  match v with
  | J_arr l => J_arr (List.map sortDeep l)
  | J_obj fs => J_obj (merge_sort json_key_le (List.map (fun f => (f.1, sortDeep f.2)) fs))
  | _ => v
  end.

Section Runner.
Variable JSON_parse : string -> Result json string.
Variable Number : string -> option Q.
Variable num_text : Q -> string.
Variable env : Env.
Variable config : TurnRunnerConfig.

Fixpoint json_text (v : json) : text :=
  match v with
  | J_null => str "null"
  | J_bool b => str (if b then "true" else "false")
  | J_num q => str (num_text q)
  | J_str s => quote (str s)
  | J_arr l => "["%char :: commas (List.map json_text l) ++ ["]"%char]
  | J_obj fs => "{"%char :: commas (List.map (fun f => quote (str f.1) ++ ":"%char :: json_text f.2) fs) ++ ["}"%char]
  end.

Definition stableStringify (v : json) : string := String.string_of_list_ascii (json_text (sortDeep v)).

(** Coerced arguments by call id: the position of the call they were made for,
    the arguments, and whether they are a new object. *)
Abbreviation CoercedMap := (list (ToolCallId * (nat * (JsonObject * bool)))) (only parsing).

Definition effective_args (coerced : CoercedMap) (tc : AccumulatedToolCall) : option JsonObject :=
  match m_get (tc_callId tc) coerced with Some (_, (args, _)) => Some args | None => tc_parsedArgs tc end.

Definition toolCallKey (coerced : CoercedMap) (tc : AccumulatedToolCall) : string :=
  tc_toolName tc +:+ NUL +:+
  match effective_args coerced tc with Some args => stableStringify (J_obj args) | None => tc_rawArgs tc end.

(** ** Small steps *)

Definition isAborted : M bool :=
  get (fun r => match en_aborted env with Some aborted => aborted (r_time r) | None => false end).

Definition doomLoopThreshold : Z := default DEFAULT_DOOM_LOOP_THRESHOLD (rc_doomLoopThreshold config).
Definition maxDoomLoopInterventions : Z :=
  default DEFAULT_MAX_DOOM_LOOP_INTERVENTIONS (rc_maxDoomLoopInterventions config).
Definition maxStopRetries : Z := default DEFAULT_MAX_STOP_RETRIES (rc_maxStopRetries config).

Definition push_at (messages : Z -> list InboundMessage) : M unit :=
  modify (fun r => push (messages (en_now env (r_time r))) r).

Definition appendAssistantTurn (textParts : list string) (toolCalls : list AccumulatedToolCall) : M unit :=
  push_at (fun now => assistant_messages now textParts toolCalls).

Definition appendToolResult (tc : AccumulatedToolCall) (output : ToolOutput) : M unit :=
  push_at (fun now => [tool_message now (tc_callId tc) (tc_toolName tc) output]).

(** [for (const x of xs) …] *)
Fixpoint for_each {A} (xs : list A) (f : A -> M unit) : M unit :=
  match xs with
  | [] => ret tt
  | x :: xs => f x ;;! for_each xs f
  end.

Definition get_turn {A} (f : TurnVars -> A) : M A := get (fun r => f (r_turn r)).
Definition set_vars (f : TurnVars -> TurnVars) : M unit := modify (fun r => set_turn (f (r_turn r)) r).

(** ** The model stream *)

Definition synthesizeStream (time : nat) (messages : list InboundMessage) (tools : list ToolDescriptor) : list Pull :=
  match en_modelCall env time messages tools with
  | Err message => [pull_error message]
  | Ok response =>
      (if decide (mr_content response = EmptyString) then [] else [pull_chunk (mc_text_delta (mr_content response))]) ++
      [pull_chunk (mc_done response)]
  end.

(** [buildModelRequest] and the call of the handler. *)
Definition request_stream : M (list EngineEvent) :=
  let! transcript := get r_transcript in
  let! tools := get_turn tv_advertised in
  let! time := get r_time in
  modify (log (ob_request transcript tools)) ;;!
  match en_modelStream env with
  | Some modelStream =>
      match modelStream time transcript tools with
      | Ok pulls => ret (consumeModelStream JSON_parse pulls)
      | Err e => throw e
      end
  | None => ret (consumeModelStream JSON_parse (synthesizeStream time transcript tools))
  end.

Definition is_truncation (output : EngineOutput) : bool :=
  match eo_metadata output with
  | Some meta => match m_get "truncatedToolCallError" meta with Some JUndefined | None => false | Some _ => true end
  | None => false
  end.

Definition stop_str (r : EngineStopReason) : string :=
  match r with sr_completed => "completed" | sr_max_turns => "max_turns" | sr_interrupted => "interrupted" | sr_error => "error" end.

Definition on_done (output : EngineOutput) : M unit :=
  set_vars (fun v => mkVars (tv_advertised v) (tv_toolCalls v) (tv_text v) true true (tv_in v) (tv_out v) (tv_truncated v)) ;;!
  modify (add_usage (me_inputTokens (eo_metrics output)) (me_outputTokens (eo_metrics output))) ;;!
  if decide (eo_stopReason output = sr_completed) then ret tt
  else
    let! recovered := get r_truncRecovery in
    if is_truncation output && negb recovered then
      set_vars (fun v => mkVars (tv_advertised v) (tv_toolCalls v) (tv_text v) (tv_sawTerminal v) (tv_committed v)
                           (tv_in v) (tv_out v) true)
    else
      modify (set_error (Some (("source", JStr "model_stream") ::
        ("originalStopReason", JStr (stop_str (eo_stopReason output))) ::
        match eo_metadata output with Some meta => [("providerDetail", JObj meta)] | None => [] end))) ;;!
      fsm (ti_error ("model stream ended with stopReason: " +:+ stop_str (eo_stopReason output))).

(** The [for await] loop; leaving it by [break] awaits the cleanup of the
    consumer. *)
Fixpoint stream_loop (events : list EngineEvent) : M unit :=
  suspend ;;!
  match events with
  | [] => ret tt
  | event :: events =>
      let! aborted := isAborted in
      if aborted : bool then fsm ti_abort ;;! turn_end 0 ;;! suspend
      else
        match event with
        | ee_done output => on_done output ;;! suspend
        | ee_usage u =>
            set_vars (fun v => mkVars (tv_advertised v) (tv_toolCalls v) (tv_text v) (tv_sawTerminal v) (tv_committed v)
                                 (tv_in v + us_inputTokens u) (tv_out v + us_outputTokens u) (tv_truncated v)) ;;!
            stream_loop events
        | _ =>
            match event with
            | ee_text_delta delta =>
                set_vars (fun v => mkVars (tv_advertised v) (tv_toolCalls v) (tv_text v ++ [delta]) (tv_sawTerminal v)
                                     (tv_committed v) (tv_in v) (tv_out v) (tv_truncated v))
            | ee_tool_call_end _ accumulated =>
                set_vars (fun v => mkVars (tv_advertised v) (tv_toolCalls v ++ [accumulated]) (tv_text v) (tv_sawTerminal v)
                                     (tv_committed v) (tv_in v) (tv_out v) (tv_truncated v))
            | _ => ret tt
            end ;;!
            emit event ;;! stream_loop events
        end
  end.

Definition stream_failed (e : Exn) : M unit :=
  let! v := get r_turn in
  modify (set_lastText (tv_text v)) ;;!
  modify (add_usage (tv_in v) (tv_out v)) ;;!
  modify (set_error (Some [("source", JStr "stream_exception"); ("message", JStr (ex_message e))])) ;;!
  fsm (ti_error (ex_message e)) ;;!
  turn_end 0.

(** ** How an iteration of the loop ends *)

Inductive Ctl : Type := Next | Break.

(** [errorMetadata = …; state = transitionTurn(state, error); yield turn_end; break] *)
Definition fail_turn (meta : Metadata) (message : string) : M Ctl :=
  modify (set_error (Some meta)) ;;! fsm (ti_error message) ;;! turn_end 0 ;;! ret Break.

(** [model_done] without tool calls, then back to [continue]; the turn that
    ends is the one before. *)
Definition reprompt : M Ctl :=
  fsm (ti_model_done false) ;;!
  let! reason := get (fun r => ts_stopReason (r_state r)) in
  (if decide (reason = Some sr_completed) then fsm ti_stop_blocked else ret tt) ;;!
  turn_end (-1) ;;! ret Next.

Definition truncation_text : string :=
  "[Truncation detected]: Your previous response was cut short at the token limit. Tool calls were not executed because the response may be incomplete. Please retry with fewer tool calls or shorter arguments.".

Definition truncation_recovery : M Ctl :=
  modify (fun r => set_flags (r_toolRecovery r) true (r_schemaPending r) r) ;;!
  let! text := get_turn tv_text in
  (if decide (text = []) then ret tt else appendAssistantTurn text []) ;;!
  push_at (fun now => [system_message now "system:truncation" truncation_text]) ;;!
  let! i := get (fun r => ts_turnIndex (r_state r)) in
  emit (ee_custom "truncation_recovery" [("turnIndex", JNum i)]) ;;!
  fsm (ti_model_done false) ;;! fsm ti_stop_blocked ;;!
  turn_end (-1) ;;! ret Next.

(** ** Checks of the tool calls *)

Definition is_valid_call (tc : AccumulatedToolCall) : bool :=
  negb (bool_decide (tc_toolName tc = EmptyString)) && negb (bool_decide (tc_toolName tc = "unknown")) &&
  match tc_parsedArgs tc with Some _ => true | None => false end.

(** [new Map(advertisedTools.map((t) => [t.name, t]))] *)
Definition descriptorMap (tools : list ToolDescriptor) : list (string * ToolDescriptor) :=
  foldl (fun m t => m_set (td_name t) t m) [] tools.

(** The loop that fills [coercedArgsMap]. *)
Fixpoint coerce_calls (descriptors : list (string * ToolDescriptor)) (k : nat) (calls : list AccumulatedToolCall)
    (acc : CoercedMap) : CoercedMap :=
  match calls with
  | [] => acc
  | tc :: calls =>
      coerce_calls descriptors (S k) calls
        match m_get (tc_toolName tc) descriptors, tc_parsedArgs tc with
        | Some d, Some args => m_set (tc_callId tc) (k, coerceToolArgs Number args (td_inputSchema d)) acc
        | _, _ => acc
        end
  end.

(** The calls whose entry is not the object that was parsed for them. *)
Fixpoint coerced_entries (coerced : CoercedMap) (k : nat) (calls : list AccumulatedToolCall) : list AccumulatedToolCall :=
  match calls with
  | [] => []
  | tc :: calls =>
      match m_get (tc_callId tc) coerced with
      | Some (k', (_, changed)) =>
          if changed || negb (bool_decide (k' = k)) then tc :: coerced_entries coerced (S k) calls
          else coerced_entries coerced (S k) calls
      | None => coerced_entries coerced (S k) calls
      end
  end.

(** The errors of the calls, in order. *)
Definition schema_errors (descriptors : list (string * ToolDescriptor)) (coerced : CoercedMap)
    (calls : list AccumulatedToolCall) : list (AccumulatedToolCall * string) :=
  omap (fun tc =>
    match m_get (tc_toolName tc) descriptors with
    | Some d =>
        match validateToolArgs num_text (default [] (effective_args coerced tc)) (td_inputSchema d) with
        | Some error => Some (tc, tc_toolName tc +:+ ": " +:+ error)
        | None => None
        end
    | None => None
    end) calls.

Definition errors_by_id (errors : list (AccumulatedToolCall * string)) : list (ToolCallId * string) :=
  foldl (fun m e => m_set (tc_callId e.1) e.2 m) [] errors.

Definition schema_output (message : string) : ToolOutput :=
  out_value (JObj [("error", JStr ("Schema validation failed: " +:+ message)); ("code", JStr "SCHEMA_VALIDATION_ERROR")]).

Definition within_turns (turnIndex : Z) : bool :=
  match rc_maxTurns config with Some maxTurns => turnIndex + 1 <? maxTurns | None => true end.

Definition schema_failed (validToolCalls : list AccumulatedToolCall)
    (errors : list (AccumulatedToolCall * string)) : M Ctl :=
  let messages := errors.*2 in
  let meta := [("source", JStr "schema_validation"); ("errors", JArr (JStr <$> messages))] in
  modify (set_error (Some meta)) ;;!
  let! pending := get r_schemaPending in
  let! i := get (fun r => ts_turnIndex (r_state r)) in
  if pending || negb (within_turns i) then
    fsm (ti_error
      ((if pending then "tool argument validation failed again after recovery turn — "
        else "tool argument validation failed and no turn budget for recovery — ") +:+ join "; " messages)) ;;!
    turn_end 0 ;;! ret Break
  else
    modify (fun r => set_flags (r_toolRecovery r) (r_truncRecovery r) true r) ;;!
    let! text := get_turn tv_text in
    appendAssistantTurn text validToolCalls ;;!
    for_each validToolCalls (fun tc =>
      let output := schema_output (default "Co-occurring tool call skipped due to validation failure in this batch"
        (m_get (tc_callId tc) (errors_by_id errors))) in
      appendToolResult tc output ;;! emit (ee_tool_result (tc_callId tc) output)) ;;!
    reprompt.

(** Calls with a new key, and repetitions within the turn. *)
Fixpoint dedup (coerced : CoercedMap) (seen : list string) (calls : list AccumulatedToolCall)
    : list AccumulatedToolCall * list AccumulatedToolCall :=
  match calls with
  | [] => ([], [])
  | tc :: calls =>
      let key := toolCallKey coerced tc in
      if s_has key seen then
        let '(deduped, skipped) := dedup coerced seen calls in (deduped, tc :: skipped)
      else
        let '(deduped, skipped) := dedup coerced (s_add key seen) calls in (tc :: deduped, skipped)
  end.

Definition name_and_id (tc : AccumulatedToolCall) : jsval :=
  JObj [("toolName", JStr (tc_toolName tc)); ("callId", JStr (tc_callId tc))].

(** ** Doom loops *)

Definition bump (keys : list string) (interventions : list (string * Z)) : list (string * Z) :=
  foldl (fun m key => m_set key (default 0 (m_get key m) + 1) m) interventions keys.

(** What the detection finds: the new streaks, the pruned interventions, the
    repeated keys and those that may still be blocked. *)
Record Detection : Type := mkDetection {
  dt_streaks : list (string * Z);
  dt_interventions : list (string * Z);
  dt_partition : Partition;
  dt_blockable : list string
}.

Definition detect (streaks interventions : list (string * Z)) (currentKeys : list string) : Detection :=
  let streaks := updateStreaks streaks currentKeys in
  let interventions := filter (fun p => p.1 ∈ currentKeys) interventions in
  let partition := partitionDoomLoopKeys streaks currentKeys doomLoopThreshold in
  let blockable :=
    filter (fun key => default 0 (m_get key interventions) < maxDoomLoopInterventions) (pt_repeatedKeys partition) in
  mkDetection streaks interventions partition blockable.

Definition blocked_output (tc : AccumulatedToolCall) : ToolOutput :=
  out_value (JStr ("[Doom loop]: This call was blocked because " +:+ quoted (tc_toolName tc) +:+
    " was called with identical arguments " +:+ pretty doomLoopThreshold +:+ " turns in a row.")).

Definition repeated_output (tc : AccumulatedToolCall) : ToolOutput :=
  out_value (JStr ("[Doom loop]: Blocked — " +:+ quoted (tc_toolName tc) +:+ " called with identical arguments " +:+
    pretty doomLoopThreshold +:+ " turns in a row.")).

Definition doom_text (names : string) : string :=
  "[Doom loop detected]: You have called " +:+ names +:+ " with the same arguments " +:+ pretty doomLoopThreshold +:+
  " turns in a row. Stop repeating and try a different approach.".

(** All calls are repeated: answer them without executing any, and ask again. *)
Definition intervene (d : Detection) (validToolCalls : list AccumulatedToolCall) : M Ctl :=
  let repeated := pt_repeatedKeys (dt_partition d) in
  let names := s_addAll ((fun k => (parseDoomLoopKey k).1) <$> repeated) [] in
  let! i := get (fun r => ts_turnIndex (r_state r)) in
  emit (ee_custom "doom_loop_detected"
    [("toolNames", JArr (JStr <$> names)); ("consecutiveTurns", JNum doomLoopThreshold); ("turnIndex", JNum i)]) ;;!
  let! text := get_turn tv_text in
  appendAssistantTurn text validToolCalls ;;!
  for_each validToolCalls (fun tc => appendToolResult tc (repeated_output tc)) ;;!
  push_at (fun now => [system_message now "system:doom-loop" (doom_text (join ", " names))]) ;;!
  modify (fun r => set_doom (r_streaks r) (bump repeated (r_interventions r)) r) ;;!
  reprompt.

(** Some calls may be blocked: the others stay. *)
Definition filter_blocked (coerced : CoercedMap) (d : Detection) (deduped skipped : list AccumulatedToolCall)
    : M (list AccumulatedToolCall) :=
  let blockable := dt_blockable d in
  modify (fun r => set_doom (r_streaks r) (bump blockable (r_interventions r)) r) ;;!
  modify (set_blocked
    (filter (fun tc => toolCallKey coerced tc ∈ blockable) deduped ++
     filter (fun tc => toolCallKey coerced tc ∈ blockable) skipped)) ;;!
  let! i := get (fun r => ts_turnIndex (r_state r)) in
  emit (ee_custom "doom_loop_filtered"
    [("blockedTools", JArr ((fun k => JStr (parseDoomLoopKey k).1) <$> blockable)); ("turnIndex", JNum i)]) ;;!
  ret (filter (fun tc => toolCallKey coerced tc ∉ blockable) deduped).

Definition size_eq {A B} (l : list A) (k : list B) : bool := bool_decide (length l = length k).

(** The calls to execute; [None] when the model is asked again at once. *)
Definition doom_check (coerced : CoercedMap) (validToolCalls deduped skipped : list AccumulatedToolCall)
    : M (option (list AccumulatedToolCall)) :=
  if doomLoopThreshold <? 2 then ret (Some deduped)
  else
    match deduped with
    | [] => modify (set_doom [] []) ;;! ret (Some deduped)
    | _ =>
        let keys := toolCallKey coerced <$> deduped in
        let! r := get id in
        let d := detect (r_streaks r) (r_interventions r) keys in
        modify (set_doom (dt_streaks d) (dt_interventions d)) ;;!
        let p := dt_partition d in
        let some := negb (bool_decide (dt_blockable d = [])) in
        if pt_hasRepeated p && pt_allRepeated p && some && size_eq (dt_blockable d) (pt_repeatedKeys p) then
          intervene d validToolCalls ;;! ret None
        else if pt_hasRepeated p && some && bool_decide (length (dt_blockable d) < length keys)%nat then
          let! allowed := filter_blocked coerced d deduped skipped in ret (Some allowed)
        else ret (Some deduped)
    end.

(** ** Stop gate *)

Definition stop_gate (turnIndex : Z) : M (option string) :=
  match en_stopGate env with
  | None => ret None
  | Some gate =>
      modify (log (ob_gate turnIndex)) ;;!
      let! time := get r_time in
      suspend ;;!
      match gate time turnIndex with
      | Ok (sg_block reason) => ret (Some reason)
      | Ok sg_continue => ret None
      | Err e => throw e
      end
  end.

(** The reason the completion is blocked, if it is. *)
Definition gate_verdict : M (option string) :=
  let! s := get r_state in
  let! retries := get r_stopRetries in
  if bool_decide (ts_phase s = tp_complete) && bool_decide (ts_stopReason s = Some sr_completed) &&
     (retries <? maxStopRetries)
  then stop_gate (ts_turnIndex s) else ret None.

Definition completion_blocked (reason : string) : M Ctl :=
  let! text := get_turn tv_text in
  (if decide (text = []) then ret tt else appendAssistantTurn text []) ;;!
  push_at (fun now => [system_message now "system"
    ("[Completion blocked]: " +:+ reason +:+ ". Address this before completing.")]) ;;!
  modify add_stopRetry ;;!
  fsm ti_stop_blocked ;;!
  turn_end (-1) ;;! ret Next.

(** ** Tools *)

(** [skippedByKey], without the blocked keys: the duplicates that get the result
    of the call they repeat. *)
Definition skippedByKey (coerced : CoercedMap) (skipped blocked : list AccumulatedToolCall)
    : list (string * list AccumulatedToolCall) :=
  foldl (fun m tc => m_delete (toolCallKey coerced tc) m)
    (foldl (fun m tc =>
      let key := toolCallKey coerced tc in m_set key (default [] (m_get key m) ++ [tc]) m) [] skipped)
    blocked.

Definition give_result (tc : AccumulatedToolCall) (output : ToolOutput) : M unit :=
  appendToolResult tc output ;;! emit (ee_tool_result (tc_callId tc) output).

Definition call_tool (coerced : CoercedMap) (tc : AccumulatedToolCall) : M ToolOutput :=
  let request := mkToolRequest (tc_toolName tc) (default [] (effective_args coerced tc)) (tc_callId tc) in
  modify (log (ob_tool request)) ;;!
  let! time := get r_time in
  suspend ;;!
  match en_toolCall env time request with
  | Ok output => ret output
  | Err e => throw e
  end.

Fixpoint execute (coerced : CoercedMap) (duplicates : list (string * list AccumulatedToolCall))
    (calls : list AccumulatedToolCall) : M unit :=
  match calls with
  | [] => ret tt
  | tc :: calls =>
      let! before := isAborted in
      if before : bool then fsm ti_abort
      else
        let! output := call_tool coerced tc in
        give_result tc output ;;!
        for_each (default [] (m_get (toolCallKey coerced tc) duplicates)) (fun dup => give_result dup output) ;;!
        let! after := isAborted in
        if after : bool then fsm ti_abort else execute coerced duplicates calls
  end.

Definition execution_output (message : string) : ToolOutput :=
  out_value (JObj [("error", JStr ("Tool execution failed: " +:+ message)); ("code", JStr "TOOL_EXECUTION_ERROR")]).

(** The calls without a result yet. *)
Definition pending_calls (transcript : list InboundMessage) (deduped skipped : list AccumulatedToolCall)
    : list AccumulatedToolCall :=
  let resolved := filter (fun id => transcriptHasToolResult transcript id = true) (tc_callId <$> deduped) in
  filter (fun tc => tc_callId tc ∉ resolved) deduped ++
  filter (fun tc => tc_callId tc ∉ resolved /\ transcriptHasToolResult transcript (tc_callId tc) = false) skipped.

(** The [catch] of the execution: [Next] falls through to the end of the turn. *)
Definition execution_failed (deduped skipped : list AccumulatedToolCall) (e : Exn) : M Ctl :=
  let! s := get r_state in
  if decide (ts_phase s = tp_complete) then ret Next
  else
    let meta := [("source", JStr "tool_execution"); ("message", JStr (ex_message e))] in
    let! aborted := isAborted in
    if aborted || ex_abort e then
      modify (set_error (Some meta)) ;;! fsm ti_abort ;;! turn_end 0 ;;! ret Break
    else
      let! used := get r_toolRecovery in
      if used : bool then
        fail_turn meta ("Tool execution failed again after recovery turn: " +:+ ex_message e)
      else
        modify (fun r => set_flags true (r_truncRecovery r) (r_schemaPending r) r) ;;!
        modify (set_error (Some meta)) ;;!
        let! transcript := get r_transcript in
        for_each (pending_calls transcript deduped skipped)
          (fun tc => give_result tc (execution_output (ex_message e))) ;;!
        fsm ti_tools_done ;;! ret Next.

Definition has_source (source : string) (meta : option Metadata) : bool :=
  match meta with
  | Some m => match m_get "source" m with Some (JStr s) => bool_decide (s = source) | _ => false end
  | None => false
  end.

(** The error of a schema recovery is forgotten when a later turn gets through. *)
Definition clear_schema_recovery : M unit :=
  modify (fun r =>
    if r_schemaPending r then
      let r := set_flags (r_toolRecovery r) (r_truncRecovery r) false r in
      if has_source "schema_validation" (r_errorMeta r) then set_error None r else r
    else r).

Definition execute_turn (coerced : CoercedMap) (validToolCalls deduped skipped : list AccumulatedToolCall) : M Ctl :=
  clear_schema_recovery ;;!
  let! text := get_turn tv_text in
  appendAssistantTurn text validToolCalls ;;!
  let! blocked := get r_blocked in
  let duplicates := skippedByKey coerced skipped blocked in
  for_each blocked (fun tc => appendToolResult tc (blocked_output tc)) ;;!
  modify (set_blocked []) ;;!
  catch
    (execute coerced duplicates deduped ;;!
     let! s := get r_state in
     (if decide (ts_phase s = tp_tool_execution) then fsm ti_tools_done else ret tt) ;;! ret Next)
    (execution_failed deduped skipped).

(** The [turn_end] at the bottom of the loop. *)
Definition close_turn : M Ctl :=
  let! s := get r_state in
  turn_end (if decide (ts_phase s = tp_continue) then -1 else 0) ;;! ret Next.

(** From the transition on the model's answer to the end of the turn. *)
Definition finish_turn (coerced : CoercedMap) (validToolCalls deduped skipped : list AccumulatedToolCall) : M Ctl :=
  fsm (ti_model_done (match deduped with [] => false | _ => true end)) ;;!
  let! blocked := gate_verdict in
  match blocked with
  | Some reason => completion_blocked reason
  | None =>
      let! s := get r_state in
      if decide (ts_phase s = tp_tool_execution) then
        let! ctl := execute_turn coerced validToolCalls deduped skipped in
        match ctl with Break => ret Break | Next => close_turn end
      else
        let! text := get_turn tv_text in
        (if decide (text = []) then ret tt else appendAssistantTurn text []) ;;!
        close_turn
  end.

(** ** A turn *)

(** After the checks for malformed and undeclared calls. *)
Definition run_calls (advertised : list ToolDescriptor) (validToolCalls : list AccumulatedToolCall) : M Ctl :=
  let descriptors := descriptorMap advertised in
  let coerced := coerce_calls descriptors 0 validToolCalls [] in
  let changed := coerced_entries coerced 0 validToolCalls in
  (if decide (changed = []) then ret tt
   else emit (ee_custom "args_coerced" [("coerced", JArr (name_and_id <$> changed))])) ;;!
  let errors := schema_errors descriptors coerced validToolCalls in
  if decide (errors ≠ []) then schema_failed validToolCalls errors
  else
    let '(deduped, skipped) := dedup coerced [] validToolCalls in
    (if decide (skipped = []) then ret tt
     else emit (ee_custom "dedup_skipped" [("skipped", JArr (name_and_id <$> skipped))])) ;;!
    let! checked := doom_check coerced validToolCalls deduped skipped in
    match checked with
    | None => ret Next
    | Some calls => finish_turn coerced validToolCalls calls skipped
    end.

Definition check_calls : M Ctl :=
  let! toolCalls := get_turn tv_toolCalls in
  let! advertised := get_turn tv_advertised in
  let validToolCalls := filter (fun tc => is_valid_call tc = true) toolCalls in
  let invalidCount := Z.of_nat (length toolCalls - length validToolCalls) in
  if bool_decide (length validToolCalls < length toolCalls)%nat then
    fail_turn [("source", JStr "malformed_tool_call"); ("invalidCount", JNum invalidCount)]
      (pretty invalidCount +:+ " tool call(s) had malformed or missing arguments — failing closed")
  else
    let undeclared := filter (fun tc => tc_toolName tc ∉ (td_name <$> advertised)) validToolCalls in
    if decide (undeclared ≠ []) then
      let names := join ", " (tc_toolName <$> undeclared) in
      fail_turn [("source", JStr "undeclared_tool"); ("tools", JStr names)]
        ("tool call(s) for undeclared tool(s): " +:+ names +:+ " — failing closed")
    else run_calls advertised validToolCalls.

Definition after_stream : M Ctl :=
  let! v := get r_turn in
  modify (set_lastText (tv_text v)) ;;!
  if tv_truncated v then truncation_recovery
  else
    let! s := get r_state in
    if decide (ts_phase s = tp_complete) then
      (if tv_committed v then ret tt else modify (add_usage (tv_in v) (tv_out v))) ;;! ret Break
    else if negb (tv_sawTerminal v) then
      modify (add_usage (tv_in v) (tv_out v)) ;;!
      fail_turn [("source", JStr "truncated_stream")] "model stream ended without a terminal done/error chunk"
    else check_calls.

Definition begin_turn : M unit :=
  fsm ti_start ;;!
  let! i := get (fun r => ts_turnIndex (r_state r)) in
  emit (ee_turn_start i) ;;!
  modify (fun r => set_turn (new_vars (en_tools env (r_time r))) r).

(** The [try] around the stream; [true] when it was left by an exception. *)
Definition stream_turn : M bool :=
  catch (let! events := request_stream in stream_loop events ;;! ret false)
    (fun e => stream_failed e ;;! ret true).

Definition turn_body : M Ctl :=
  let! aborted := isAborted in
  if aborted : bool then fsm ti_abort ;;! ret Break
  else
    let! s := get r_state in
    if bool_decide (ts_phase s = tp_continue) &&
       match rc_maxTurns config with Some maxTurns => maxTurns <=? ts_turnIndex s | None => false end
    then fsm ti_max_turns ;;! ret Break
    else
      begin_turn ;;!
      let! failed := stream_turn in
      if failed : bool then ret Break else after_stream.

(** ** A run *)

Fixpoint while (fuel : nat) (r : Run) : option ((unit + Exn) * Run) :=
  if decide (ts_phase (r_state r) = tp_complete) then Some (inl tt, r)
  else
    match fuel with
    | O => None
    | S fuel =>
        match turn_body r with
        | (inl Next, r) => while fuel r
        | (inl Break, r) => Some (inl tt, r)
        | (inr e, r) => Some (inr e, r)
        end
    end.

Definition preflight (r : Run) : Run :=
  let aborted := match en_aborted env with Some aborted => aborted (r_time r) | None => false end in
  let r := if aborted : bool then set_state (complete (r_state r) sr_interrupted) r else r in
  if bool_decide (ts_phase (r_state r) ≠ tp_complete) &&
     match rc_maxTurns config with Some maxTurns => maxTurns <=? 0 | None => false end
  then set_state (complete (r_state r) sr_max_turns) r else r.

Definition final_meta (r : Run) : option Metadata :=
  let reason := ts_stopReason (r_state r) in
  if bool_decide (reason = Some sr_completed \/ reason = None) && has_source "schema_validation" (r_errorMeta r)
  then None else r_errorMeta r.

Definition final_output (r : Run) : EngineOutput :=
  let meta := final_meta r in
  let retries := r_stopRetries r in
  mkOutput (text_content (concat_text (r_lastText r))) (default sr_completed (ts_stopReason (r_state r)))
    (mkMetrics (r_in r + r_out r) (r_in r) (r_out r) (ts_modelCalls (r_state r)) (en_durationMs env (r_time r)))
    (if bool_decide (is_Some meta) || (0 <? retries) then
       Some (spread (default [] meta) (if 0 <? retries then [("stopRetryCount", JNum retries)] else []))
     else None).

(** [None]: the fuel was not enough.  An exception that no [try] catches ends
    the generator without a [done]. *)
Definition runTurn (fuel : nat) : option ((unit + Exn) * Run) :=
  match while fuel (preflight (initial_run (rc_messages config))) with
  | Some (inl _, r) =>
      let r := set_error (final_meta r) r in
      Some (emit (ee_done (final_output r)) r)
  | other => other
  end.
End Runner.
