(* ===== verification/TurnCalls.v ===== *)
(** * A batch of tool calls

    Facts about the lists the turn runner sorts a model's tool calls into:
    repetitions within the turn, blocked calls, calls that wait for a result, and
    the keys and arguments they are compared and checked by. *)

From Stdlib Require Import QArith.
From S2P Require Import Prelude JsMap Text SessionRepair ToolArgs ConsumeStream TurnMachine TurnRunner.

Local Open Scope string_scope.
Local Open Scope list_scope.
Local Open Scope nat_scope.

Section Calls.
Context (num_text : Q -> string).

Abbreviation CoercedMap := (list (ToolCallId * (nat * (JsonObject * bool)))) (only parsing).

Definition request (coerced : CoercedMap) (tc : AccumulatedToolCall) : ToolRequest :=
  mkToolRequest (tc_toolName tc) (default [] (effective_args coerced tc)) (tc_callId tc).

Definition duplicates_of (coerced : CoercedMap) (dups : list (string * list AccumulatedToolCall)) (tc : AccumulatedToolCall)
    : list AccumulatedToolCall := default [] (m_get (toolCallKey num_text coerced tc) dups).

(** The calls that get a result when some calls are executed: each with its duplicates. *)
Definition with_duplicates (coerced : CoercedMap) dups (calls : list AccumulatedToolCall) : list AccumulatedToolCall :=
  concat ((fun tc => tc :: duplicates_of coerced dups tc) <$> calls).

Abbreviation key := (toolCallKey num_text).
Abbreviation call := AccumulatedToolCall (only parsing).

(** ** Repetitions within a turn *)

Lemma dedup_spec coerced calls : forall seen,
  let '(deduped, skipped) := dedup num_text coerced seen calls in
  deduped ++ skipped ≡ₚ calls /\ NoDup (key coerced <$> deduped) /\
  (forall x, x ∈ deduped -> key coerced x ∉ seen) /\
  (forall x, x ∈ skipped -> key coerced x ∈ seen \/ key coerced x ∈ key coerced <$> deduped).
Proof.
  induction calls as [|tc calls IH]; intros seen; cbn [dedup].
  { split; [done|]. split; [apply NoDup_nil_2|]. split; by intros x ?%elem_of_nil. }
  destruct (s_has (key coerced tc) seen) eqn:Hs.
  - apply s_has_true in Hs. specialize (IH seen). destruct (dedup num_text coerced seen calls) as [d s].
    destruct IH as (Hp & Hn & Hd & Hk). split; [by rewrite <-Permutation_middle, Hp|]. split; [done|]. split; [done|].
    intros x [->|Hx]%elem_of_cons; [by left|by apply Hk].
  - apply s_has_false in Hs. specialize (IH (s_add (key coerced tc) seen)).
    destruct (dedup num_text coerced _ calls) as [d s]. destruct IH as (Hp & Hn & Hd & Hk).
    setoid_rewrite elem_of_s_add in Hd. setoid_rewrite elem_of_s_add in Hk. split; [simpl; by rewrite Hp|]. split; [|split].
    + rewrite fmap_cons. apply NoDup_cons. split; [|done].
      intros (x & Hx & Hin)%list_elem_of_fmap. apply (Hd x Hin). by left.
    + intros x [->|Hx]%elem_of_cons; [done|]. specialize (Hd x Hx). naive_solver.
    + intros x Hx. rewrite fmap_cons, elem_of_cons. destruct (Hk x Hx) as [[->|?]|?]; auto.
Qed.

Lemma skippedByKey_spec coerced skipped blocked k :
  default [] (m_get k (skippedByKey num_text coerced skipped blocked)) =
  if decide (k ∈ key coerced <$> blocked) then [] else filter (fun tc => key coerced tc = k) skipped.
Proof.
  unfold skippedByKey. set (m0 := foldl _ [] skipped).
  assert (Hm0 : default [] (m_get k m0) = filter (fun tc => key coerced tc = k) skipped).
  { subst m0. induction skipped as [|tc skipped IH] using rev_ind; [done|]. rewrite foldl_app. simpl.
    rewrite m_get_set, filter_app. case_decide as Hk; [subst k|].
    - rewrite filter_cons, decide_True by done. simpl. by rewrite <-IH.
    - rewrite filter_cons, decide_False by done. simpl. by rewrite app_nil_r. }
  clearbody m0. revert m0 Hm0. induction blocked as [|b blocked IH]; intros m0 Hm0; simpl; [done|].
  destruct (decide (key coerced b = k)) as [Hb|Hb].
  - rewrite decide_True by (rewrite Hb; left).
    clear IH. assert (H0 : m_get k (m_delete (key coerced b) m0) = None) by (by rewrite m_get_delete, decide_True).
    revert H0. generalize (m_delete (key coerced b) m0). induction blocked as [|b' blocked IH]; intros m Hm; simpl; [by rewrite Hm|].
    apply IH. rewrite m_get_delete. by case_decide.
  - rewrite IH by (by rewrite m_get_delete, decide_False). apply decide_ext. rewrite elem_of_cons. naive_solver.
Qed.

(** ** Who gets a result *)

Lemma partition_by_keys (f : call -> string) (ks : list string) : forall l,
  NoDup ks -> (forall x, x ∈ l -> f x ∈ ks) -> concat ((fun k => filter (fun x => f x = k) l) <$> ks) ≡ₚ l.
Proof.
  induction ks as [|k ks IH]; intros l Hn Hl; [|rewrite fmap_cons; cbn [concat]].
  - destruct l as [|x l]; [done|]. specialize (Hl x). rewrite elem_of_nil in Hl. destruct Hl. by left.
  - apply NoDup_cons in Hn as [Hk Hn].
    assert (Heq : (fun k' => filter (fun x => f x = k') l) <$> ks
      = (fun k' => filter (fun x => f x = k') (filter (fun x => f x ≠ k) l)) <$> ks).
    { apply list_fmap_ext. intros i k' Hk'. rewrite list_filter_filter. apply list_filter_iff. intros x.
      split; [|tauto]. intros Hx. split; [done|]. intros He. apply Hk. apply list_elem_of_lookup_2 in Hk'. congruence. }
    rewrite Heq, IH by (done || (intros x [Hx Hin]%list_elem_of_filter; specialize (Hl x Hin); apply elem_of_cons in Hl; tauto)).
    clear. induction l as [|x l IH]; [done|]. rewrite !filter_cons. destruct (decide (f x = k)) as [He|He].
    + rewrite decide_False by tauto. simpl. by rewrite IH.
    + rewrite decide_True by done. rewrite <-Permutation_middle. by rewrite IH.
Qed.

(** The keys that are blocked split the batch: blocked calls and their
    repetitions on one side, executed calls with theirs on the other. *)
Lemma results_cover coerced calls deduped skipped (B : list string) :
  dedup num_text coerced [] calls = (deduped, skipped) ->
  let allowed := filter (fun tc => key coerced tc ∉ B) deduped in
  let blocked := filter (fun tc => key coerced tc ∈ B) deduped ++ filter (fun tc => key coerced tc ∈ B) skipped in
  blocked ++ with_duplicates coerced (skippedByKey num_text coerced skipped blocked) allowed ≡ₚ calls.
Proof.
  intros Hd allowed blocked. pose proof (dedup_spec coerced calls []) as Hs. rewrite Hd in Hs.
  destruct Hs as (Hp & Hn & _ & Hk). rewrite <-Hp.
  assert (Hsplit : forall l : list call, filter (fun tc => key coerced tc ∈ B) l ++ filter (fun tc => key coerced tc ∉ B) l ≡ₚ l).
  { clear. induction l as [|x l IH]; [done|]. rewrite !filter_cons. destruct (decide (key coerced x ∈ B)).
    - rewrite decide_False by tauto. simpl. by rewrite IH.
    - rewrite decide_True by done. rewrite <-Permutation_middle. by rewrite IH. }
  set (rest := filter (fun tc => key coerced tc ∉ B) skipped).
  assert (Hdups : forall tc, tc ∈ allowed ->
    duplicates_of coerced (skippedByKey num_text coerced skipped blocked) tc = filter (fun x => key coerced x = key coerced tc) rest).
  { intros tc [Htc _]%list_elem_of_filter. unfold duplicates_of. rewrite skippedByKey_spec, decide_False.
    - subst rest. rewrite list_filter_filter. apply list_filter_iff. intros x. split; [|tauto]. intros He. split; [done|]. by rewrite He.
    - intros (x & Hx & Hin)%list_elem_of_fmap. apply Htc. rewrite Hx. unfold blocked in Hin.
      apply elem_of_app in Hin as [[? _]%list_elem_of_filter|[? _]%list_elem_of_filter]; done. }
  assert (Hwith : with_duplicates coerced (skippedByKey num_text coerced skipped blocked) allowed ≡ₚ allowed ++ rest).
  { trans (allowed ++ concat ((fun k => filter (fun x => key coerced x = k) rest) <$> (key coerced <$> allowed))).
    - clear -Hdups. unfold with_duplicates. set (dups := skippedByKey _ _ _ _) in *. clearbody dups. induction allowed as [|tc l IH]; [done|].
      rewrite !fmap_cons. cbn [concat]. rewrite (Hdups tc) by (by left). rewrite IH by (intros; apply Hdups; by right).
      simpl. constructor. rewrite !(assoc_L app). apply Permutation_app_tail. apply Permutation_app_comm.
    - apply Permutation_app_head. apply partition_by_keys.
      + eapply sublist_NoDup; [done|]. by apply fmap_sublist, sublist_filter.
      + intros x [Hx Hin]%list_elem_of_filter. destruct (Hk x Hin) as [?%elem_of_nil|He]; [done|].
        apply list_elem_of_fmap in He as (y & Hy & Hyd). rewrite Hy. apply list_elem_of_fmap. exists y. split; [done|].
        apply list_elem_of_filter. split; [congruence|done]. }
  rewrite Hwith. unfold blocked, allowed, rest.
  trans ((filter (fun tc => key coerced tc ∈ B) deduped ++ filter (fun tc => key coerced tc ∉ B) deduped) ++
         (filter (fun tc => key coerced tc ∈ B) skipped ++ filter (fun tc => key coerced tc ∉ B) skipped)).
  - rewrite <-!(assoc_L app). apply Permutation_app_head. rewrite !(assoc_L app). apply Permutation_app_tail, Permutation_app_comm.
  - by rewrite !Hsplit.
Qed.

Lemma with_duplicates_app coerced dups l k :
  with_duplicates coerced dups (l ++ k) = with_duplicates coerced dups l ++ with_duplicates coerced dups k.
Proof. unfold with_duplicates. by rewrite fmap_app, concat_app. Qed.

(** What is pending after a failure completes the results. *)
Lemma pending_completes coerced (blocked done_ rest skipped allowed calls : list call) dups :
  blocked ++ with_duplicates coerced dups allowed ≡ₚ calls -> allowed = done_ ++ rest ->
  (exists deduped, deduped ++ skipped ≡ₚ calls /\ (forall x, x ∈ deduped -> x ∈ allowed \/ x ∈ blocked) /\
     (forall x, x ∈ allowed -> x ∈ deduped) /\ NoDup deduped) ->
  NoDup (tc_callId <$> calls) ->
  forall answered : list ToolCallId, answered = tc_callId <$> (blocked ++ with_duplicates coerced dups done_) ->
  forall pending, (forall tc, tc ∈ pending <-> (tc ∈ allowed \/ tc ∈ skipped) /\ tc_callId tc ∉ answered) -> NoDup pending ->
  answered ++ (tc_callId <$> pending) ≡ₚ tc_callId <$> calls.
Proof.
  intros Hcov Hall (deduped & Hp & Hd & Had & Hnd) Hnodup answered Hans pending Hpend Hnp.
  assert (Hinj : forall x y, x ∈ calls -> y ∈ calls -> tc_callId x = tc_callId y -> x = y).
  { clear -Hnodup. induction calls as [|c l IH]; [by intros x y ?%elem_of_nil|]. rewrite fmap_cons, NoDup_cons in Hnodup.
    destruct Hnodup as [Hc Hl]. intros x y [->|Hx]%elem_of_cons [->|Hy]%elem_of_cons He; try done; [| |by apply IH].
    - destruct Hc. rewrite He. by apply list_elem_of_fmap_2.
    - destruct Hc. rewrite <-He. by apply list_elem_of_fmap_2. }
  assert (Hsub : forall x, x ∈ blocked ++ with_duplicates coerced dups done_ -> x ∈ calls).
  { intros x Hx. rewrite <-Hcov, Hall, with_duplicates_app. set_solver. }
  assert (Hperm : tc_callId <$> calls ≡ₚ tc_callId <$> (blocked ++ with_duplicates coerced dups allowed)) by (by rewrite Hcov).
  pose proof Hnodup as Hnd0. rewrite Hperm, Hall, with_duplicates_app, (assoc_L app), fmap_app, <-Hans in Hnodup.
  apply NoDup_app in Hnodup as (Hna & _ & _).
  apply NoDup_Permutation.
  - apply NoDup_app. split; [done|]. split.
    + intros id Hid (tc & -> & Htc)%list_elem_of_fmap. by apply Hpend in Htc as [_ ?].
    + assert (Hpc : forall x, x ∈ pending -> x ∈ calls).
      { intros x Hx. apply Hpend in Hx as [[Hx|Hx] _]; rewrite <-Hp, elem_of_app; auto. }
      clear -Hinj Hpc Hnp. induction pending as [|c l IH]; [apply NoDup_nil_2|]. apply NoDup_cons in Hnp as [Hc Hl].
      rewrite fmap_cons. apply NoDup_cons. split; [|apply IH; [done|intros; apply Hpc; by right]].
      intros (y & Hy & Hin)%list_elem_of_fmap. apply Hc. rewrite (Hinj c y); [done|apply Hpc; by left|apply Hpc; by right|done].
  - done.
  - intros id. rewrite elem_of_app. split.
    + intros [Hid|(tc & -> & Htc)%list_elem_of_fmap].
      * rewrite Hans in Hid. apply list_elem_of_fmap in Hid as (x & -> & Hx). by apply list_elem_of_fmap_2, Hsub.
      * apply Hpend in Htc as [[Hx|Hx] _]; apply list_elem_of_fmap_2; rewrite <-Hp, elem_of_app; auto.
    + intros (x & -> & Hx)%list_elem_of_fmap. destruct (decide (tc_callId x ∈ answered)) as [|Hna']; [by left|right].
      apply list_elem_of_fmap_2, Hpend. split; [|done]. rewrite <-Hp, elem_of_app in Hx. destruct Hx as [Hx|Hx]; [|by right].
      destruct (Hd x Hx) as [|Hb]; [by left|]. destruct Hna'. rewrite Hans. apply list_elem_of_fmap_2, elem_of_app. by left.
Qed.
End Calls.
