(* ===== verification/TurnInv.v ===== *)
(** * Reasoning about the turn runner

    Specifications of the runner's computations, up to one iteration of its
    loop: what it adds to the log and to the transcript, where it leaves the turn
    machine, and which tool calls it executes. *)

From Stdlib Require Import QArith.
From S2P Require Import Prelude JsMap Text SessionRepair ToolArgs ConsumeStream TurnMachine TurnRunner TurnCalls.

Local Open Scope string_scope.
Local Open Scope list_scope.
Local Open Scope Z_scope.
Local Open Scope turn_scope.

(** ** Specifications *)

Definition spec {A} (m : M A) (r : Run) (Q : A + Exn -> Run -> Prop) : Prop := Q (m r).1 (m r).2.

Lemma spec_mono {A} (m : M A) r (Q Q' : A + Exn -> Run -> Prop) :
  spec m r Q -> (forall o r', Q o r' -> Q' o r') -> spec m r Q'.
Proof. unfold spec. auto. Qed.

Lemma spec_ret {A} (x : A) r Q : Q (inl x) r -> spec (ret x) r Q.
Proof. done. Qed.

Lemma spec_bind {A B} (m : M A) (k : A -> M B) r Q :
  spec m r (fun o r' => match o with inl x => spec (k x) r' Q | inr e => Q (inr e) r' end) -> spec (bind m k) r Q.
Proof. unfold spec, bind. by destruct (m r) as [[x|e] r']. Qed.

Lemma spec_catch {A} (m : M A) h r Q :
  spec m r (fun o r' => match o with inl x => Q (inl x) r' | inr e => spec (h e) r' Q end) -> spec (catch m h) r Q.
Proof. unfold spec, catch. by destruct (m r) as [[x|e] r']. Qed.

Lemma spec_get {A} (f : Run -> A) r Q : Q (inl (f r)) r -> spec (get f) r Q.
Proof. done. Qed.

Lemma spec_modify f r Q : Q (inl tt) (f r) -> spec (modify f) r Q.
Proof. done. Qed.

Lemma spec_throw {A} e r (Q : A + Exn -> Run -> Prop) : Q (inr e) r -> spec (throw e) r Q.
Proof. done. Qed.

Lemma spec_fsm input s r Q :
  transitionTurn (r_state r) input = Ok s -> Q (inl tt) (set_state s r) -> spec (fsm input) r Q.
Proof. unfold spec, fsm. by intros ->. Qed.

Lemma spec_for_each {A} (I : list A -> Run -> Prop) (f : A -> M unit) xs : forall r Q,
  I [] r -> (forall done x r', I done r' -> spec (f x) r' (fun o r'' => o = inl tt /\ I (done ++ [x]) r'')) ->
  (forall r', I xs r' -> Q (inl tt) r') -> spec (for_each xs f) r Q.
Proof.
  intros r Q H0 Hstep HQ. cut (forall done r', I done r' -> (forall r'', I (done ++ xs) r'' -> Q (inl tt) r'') ->
    spec (for_each xs f) r' Q).
  { intros H. by apply (H [] r). }
  clear H0 HQ. induction xs as [|x xs IH]; intros done r' Hi HQ; simpl.
  - apply HQ. by rewrite app_nil_r.
  - apply spec_bind. eapply spec_mono; [by apply Hstep|]. intros o r'' [-> Hi']. apply (IH (done ++ [x])); [done|].
    rewrite <-(assoc_L app). apply HQ.
Qed.

(** Runs a computation up to the next loop or transition. *)
Ltac turn_step :=
  match goal with
  | |- spec (bind _ _) _ _ => apply spec_bind
  | |- spec (ret _) _ _ => apply spec_ret
  | |- spec (get _) _ _ => apply spec_get
  | |- spec (get_turn _) _ _ => apply spec_get
  | |- spec (modify _) _ _ => apply spec_modify
  | |- spec (set_vars _) _ _ => apply spec_modify
  | |- spec suspend _ _ => apply spec_modify
  | |- spec (emit _) _ _ => apply spec_modify
  | |- spec (push_at _ _) _ _ => apply spec_modify
  | |- spec (turn_end _) _ _ => unfold turn_end
  | |- spec (isAborted _) _ _ => apply spec_get
  | |- spec (throw _) _ _ => apply spec_throw
  | |- spec (appendAssistantTurn _ _ _) _ _ => unfold appendAssistantTurn
  | |- spec (appendToolResult _ _ _) _ _ => unfold appendToolResult
  end; cbv beta iota zeta.
Ltac turn_steps := repeat turn_step.

(** ** What a piece of a turn does *)

(** Entries that may appear inside a turn, between its first and last event. *)
Definition inner (o : Obs) : Prop :=
  match o with
  | ob_request _ _ | ob_event (ee_turn_start _) | ob_event (ee_turn_end _) | ob_event (ee_done _) => False
  | _ => True
  end.

Definition grew (r r' : Run) (l : list Obs) (ms : list InboundMessage) : Prop :=
  r_log r' = r_log r ++ l /\ r_transcript r' = r_transcript r ++ ms.

Lemma grew_refl r : grew r r [] [].
Proof. split; by rewrite app_nil_r. Qed.

Lemma grew_trans r1 r2 r3 l1 l2 ms1 ms2 : grew r1 r2 l1 ms1 -> grew r2 r3 l2 ms2 -> grew r1 r3 (l1 ++ l2) (ms1 ++ ms2).
Proof. intros [H1 H2] [H3 H4]. split; [rewrite H3, H1|rewrite H4, H2]; by rewrite (assoc_L app). Qed.

(** The tool calls that end in a log. *)
Definition ended_calls (l : list Obs) : list AccumulatedToolCall :=
  omap (fun o => match o with ob_event (ee_tool_call_end _ call) => Some call | _ => None end) l.

Definition tool_requests (l : list Obs) : list ToolRequest :=
  omap (fun o => match o with ob_tool q => Some q | _ => None end) l.

Lemma ended_app l k : ended_calls (l ++ k) = ended_calls l ++ ended_calls k.
Proof. apply omap_app. Qed.
Lemma tool_requests_app l k : tool_requests (l ++ k) = tool_requests l ++ tool_requests k.
Proof. apply omap_app. Qed.

(** Events the consumer of the model stream yields. *)
Definition stream_event (ev : EngineEvent) : Prop :=
  match ev with
  | ee_tool_result _ _ | ee_turn_start _ | ee_turn_end _ | ee_custom _ _ => False
  | _ => True
  end.

Lemma consume_stream_events JSON_parse pulls : Forall stream_event (consumeModelStream JSON_parse pulls).
Proof.
  unfold consumeModelStream. generalize new_consumer. induction pulls as [|p pulls IH]; intros s; simpl; [by constructor|].
  destruct p as [chunk| | |]; try by constructor.
  destruct (on_chunk JSON_parse chunk s) as [events next] eqn:He. apply Forall_app. split.
  - destruct chunk; simplify_eq/=; by repeat constructor.
  - by destruct next; [apply IH|constructor].
Qed.

Section Inv.
Context (JSON_parse : string -> Result json string) (Number : string -> option Q) (num_text : Q -> string).
Context (env : Env) (config : TurnRunnerConfig).

(** ** The stream *)

Definition turn_index (r : Run) : Z := ts_turnIndex (r_state r).
Definition phase_of (r : Run) : TurnPhase := ts_phase (r_state r).
Definition tools_seen (r : Run) : list AccumulatedToolCall := tv_toolCalls (r_turn r).

(** The outcomes of the stream: still in the model phase; aborted, with the end
    of the turn yielded; failed, without. *)
Definition streamed (r r' : Run) : Prop :=
  tv_advertised (r_turn r') = tv_advertised (r_turn r) /\ r_blocked r' = r_blocked r /\
  exists l, Forall inner l /\ tool_requests l = [] /\
  ((r_state r' = r_state r /\ grew r r' l [] /\
    exists calls, tools_seen r' = tools_seen r ++ calls /\ ended_calls l = calls) \/
   (r_state r' = complete (r_state r) sr_interrupted /\ tv_truncated (r_turn r') = tv_truncated (r_turn r) /\
      grew r r' (l ++ [ob_event (ee_turn_end (turn_index r))]) []) \/
   (r_state r' = complete (r_state r) sr_error /\ tv_truncated (r_turn r') = tv_truncated (r_turn r) /\ grew r r' l [])).

Lemma streamed_cons r r1 r' l1 calls :
  tv_advertised (r_turn r1) = tv_advertised (r_turn r) -> tv_truncated (r_turn r1) = tv_truncated (r_turn r) ->
  r_blocked r1 = r_blocked r -> r_state r1 = r_state r -> grew r r1 l1 [] -> Forall inner l1 -> tool_requests l1 = [] ->
  tools_seen r1 = tools_seen r ++ calls -> ended_calls l1 = calls ->
  streamed r1 r' -> streamed r r'.
Proof.
  intros Ha Htr Hb Hs Hg Hi Ht Hc He (Ha' & Hb' & l & Hi' & Ht' & Hcase). split; [congruence|]. split; [congruence|].
  exists (l1 ++ l). split; [by apply Forall_app|]. split; [by rewrite tool_requests_app, Ht|]. unfold turn_index in *. rewrite Hs in Hcase.
  destruct Hcase as [(H1 & H2 & calls' & H3 & H4)|[(H1 & H0 & H2)|(H1 & H0 & H2)]].
  - left. split; [congruence|]. split; [by apply (grew_trans _ _ _ _ _ _ _ Hg H2)|]. exists (calls ++ calls').
    rewrite H3, Hc, (assoc_L app). split; [done|]. by rewrite ended_app, He, H4.
  - right. left. split; [done|]. split; [congruence|]. rewrite <-(assoc_L app). by apply (grew_trans _ _ _ _ _ _ _ Hg H2).
  - right. right. split; [done|]. split; [congruence|]. by apply (grew_trans _ _ _ _ _ _ _ Hg H2).
Qed.

Lemma on_done_spec output r : phase_of r = tp_model ->
  spec (on_done output) r (fun o r' => o = inl tt /\ streamed r r').
Proof.
  intros Hp. unfold on_done. turn_steps. unfold set_vars. case_decide as Hr; turn_steps.
  { split; [done|]. split; [done|]. split; [done|]. exists []. split; [done|]. split; [done|]. left. split; [done|].
    split; [by split; rewrite app_nil_r|]. exists []. by rewrite app_nil_r. }
  destruct (is_truncation output && _); turn_steps.
  { split; [done|]. split; [done|]. split; [done|]. exists []. split; [done|]. split; [done|]. left. split; [done|].
    split; [by split; rewrite app_nil_r|]. exists []. by rewrite app_nil_r. }
  eapply spec_fsm; [unfold transitionTurn; simpl; unfold phase_of in Hp; by rewrite Hp|]. turn_steps.
  split; [done|]. split; [done|]. split; [done|]. exists []. split; [done|]. split; [done|]. right. right. split; [done|].
  split; [done|]. by split; rewrite app_nil_r.
Qed.

Lemma stream_loop_spec events : forall r, Forall stream_event events -> phase_of r = tp_model ->
  spec (stream_loop env events) r (fun o r' => o = inl tt /\ streamed r r').
Proof.
  induction events as [|ev events IH]; intros r Hev Hp; cbn [stream_loop].
  { turn_steps. split; [done|]. split; [done|]. split; [done|]. exists []. split; [done|]. split; [done|].
    left. split; [done|]. split; [by split; rewrite app_nil_r|]. exists []. by rewrite app_nil_r. }
  apply Forall_cons in Hev as [He Hev]. turn_steps.
  destruct (match en_aborted env with Some _ => _ | None => _ end).
  { turn_steps. eapply spec_fsm; [unfold transitionTurn; simpl; unfold phase_of in Hp; by rewrite Hp|]. turn_steps.
    split; [done|]. split; [done|]. split; [done|]. exists []. split; [done|]. split; [done|]. right. left. split; [done|].
    split; [done|]. split; simpl; [by rewrite Z.add_0_r|by rewrite app_nil_r]. }
  assert (Hgo : forall r1 l1 calls, grew r r1 l1 [] -> r_state r1 = r_state r -> r_blocked r1 = r_blocked r ->
    tv_advertised (r_turn r1) = tv_advertised (r_turn r) -> tv_truncated (r_turn r1) = tv_truncated (r_turn r) -> tools_seen r1 = tools_seen r ++ calls ->
    Forall inner l1 -> tool_requests l1 = [] -> ended_calls l1 = calls ->
    spec (stream_loop env events) r1 (fun o r' => o = inl tt /\ streamed r r')).
  { intros r1 l1 calls Hg Hs Hb Ha Htc Hc Hin Htr Hen. eapply spec_mono.
    - apply IH; [done|]. unfold phase_of in *. by rewrite Hs.
    - intros o r' [-> Hst]. split; [done|]. by eapply (streamed_cons _ r1 _ l1 calls). }
  assert (Hplain : forall e r1, r1 = tick (log (ob_event e) (tick r)) -> inner (ob_event e) -> ended_calls [ob_event e] = [] ->
    spec (stream_loop env events) r1 (fun o r' => o = inl tt /\ streamed r r')).
  { intros e r1 -> Hi Hen. eapply (Hgo _ [ob_event e] []); try done; [by split; rewrite ?app_nil_r|by rewrite app_nil_r|by constructor]. }
  destruct ev as [d|d|n c|c d|id c|id o|i|i|u|t d|o]; try done; turn_steps;
    try (by eapply Hplain).
  - eapply (Hgo _ [ob_event (ee_text_delta d)] []); try done; [by split; rewrite ?app_nil_r|by rewrite app_nil_r|by constructor].
  - eapply (Hgo _ [ob_event (ee_tool_call_end id c)] [c]); try done; [by split; rewrite ?app_nil_r|by constructor].
  - eapply (Hgo _ [] []); try done; [by split; rewrite ?app_nil_r|by rewrite app_nil_r].
  - eapply spec_mono; [by apply on_done_spec|]. intros o' r' [-> Hst]. turn_steps. by split; [|exact Hst].
Qed.

(** How the stream phase leaves the turn that started in [r]. *)
Definition ends_turn (i : Z) : Obs := ob_event (ee_turn_end i).
Definition request_of (r : Run) : Obs := ob_request (r_transcript r) (tv_advertised (r_turn r)).

Inductive stream_outcome (r r' : Run) : bool -> Prop :=
  | so_exception :
      r_state r' = complete (r_state r) sr_error ->
      grew r r' [request_of r; ends_turn (turn_index r)] [] -> stream_outcome r r' true
  | so_answered l calls :
      r_state r' = r_state r -> Forall inner l -> tool_requests l = [] -> grew r r' (request_of r :: l) [] ->
      tools_seen r' = tools_seen r ++ calls -> ended_calls l = calls -> stream_outcome r r' false
  | so_aborted l :
      r_state r' = complete (r_state r) sr_interrupted -> tv_truncated (r_turn r') = tv_truncated (r_turn r) -> Forall inner l -> tool_requests l = [] ->
      grew r r' (request_of r :: l ++ [ends_turn (turn_index r)]) [] -> stream_outcome r r' false
  | so_failed l :
      r_state r' = complete (r_state r) sr_error -> tv_truncated (r_turn r') = tv_truncated (r_turn r) -> Forall inner l -> tool_requests l = [] ->
      grew r r' (request_of r :: l) [] -> stream_outcome r r' false.

Lemma stream_turn_spec r : phase_of r = tp_model ->
  spec (stream_turn JSON_parse env) r (fun o r' => exists failed, o = inl failed /\
    tv_advertised (r_turn r') = tv_advertised (r_turn r) /\ r_blocked r' = r_blocked r /\ stream_outcome r r' failed).
Proof.
  intros Hp. unfold stream_turn. apply spec_catch, spec_bind. unfold request_stream. turn_steps.
  set (r1 := log _ r).
  assert (Hloop : forall pulls, spec (stream_loop env (consumeModelStream JSON_parse pulls)) r1
    (fun o r' => o = inl tt /\ tv_advertised (r_turn r') = tv_advertised (r_turn r) /\
       r_blocked r' = r_blocked r /\ stream_outcome r r' false)).
  { intros pulls. eapply spec_mono; [by apply stream_loop_spec; [apply consume_stream_events|]|].
    intros o r' [-> (Ha & Hb & l & Hi & Ht & Hcase)]. split; [done|]. split; [done|]. split; [done|].
    destruct Hcase as [(Hs & [Hl Hm] & calls & Hc & He)|[(Hs & Htr & [Hl Hm])|(Hs & Htr & [Hl Hm])]].
    - apply (so_answered _ _ l calls); try done. split; [|done]. rewrite Hl. simpl. by rewrite <-(assoc_L app).
    - apply (so_aborted _ _ l); try done. split; [|done]. rewrite Hl. simpl. by rewrite <-(assoc_L app).
    - apply (so_failed _ _ l); try done. split; [|done]. rewrite Hl. simpl. by rewrite <-(assoc_L app). }
  destruct (en_modelStream env) as [f|]; [destruct (f _ _ _) as [pulls|e]|]; turn_steps;
    try (eapply spec_mono; [apply Hloop|]; intros o r' (-> & Ha & Hb & Hs); turn_steps; by exists false).
  unfold stream_failed. turn_steps. eapply spec_fsm; [unfold transitionTurn; simpl; unfold phase_of in Hp; by rewrite Hp|].
  turn_steps. exists true. split; [done|]. split; [done|]. split; [done|]. apply so_exception; [done|].
  split; simpl; [|by rewrite app_nil_r]. rewrite Z.add_0_r, <-(assoc_L app). done.
Qed.

(** ** Messages that settle their calls *)

Definition result_id (m : InboundMessage) : option ToolCallId :=
  if decide (im_senderId m = "tool") then readStringMeta (im_metadata m) "callId" else None.

Definition tool_results (ids : list ToolCallId) (ms : list InboundMessage) : Prop :=
  Forall2 (fun id m => result_id m = Some id) ids ms.

(** Every announced call is followed by exactly one result, before anything else. *)
Inductive settled : list InboundMessage -> Prop :=
  | settled_nil : settled []
  | settled_plain m ms : result_id m = None -> call_ids m = [] -> settled ms -> settled (m :: ms)
  | settled_calls m ids results ms : im_senderId m = "assistant" -> result_id m = None ->
      tool_results ids results -> ids ≡ₚ call_ids m -> settled ms -> settled (m :: results ++ ms).

Lemma settled_concat ms1 ms2 : settled ms1 -> settled ms2 -> settled (ms1 ++ ms2).
Proof.
  intros H1 H2. induction H1 as [|m ms Hr Hc _ IH|m ids results ms Hs Hr Ht Hp _ IH]; [done|by apply settled_plain|].
  simpl. rewrite <-(assoc_L app). by eapply settled_calls.
Qed.

Lemma settled_system now sender text : sender ≠ "tool" -> settled [system_message now sender text].
Proof. intros. apply settled_plain; [unfold result_id; by rewrite decide_False|done|constructor]. Qed.

Lemma settled_text now text : settled (assistant_messages now text []).
Proof. unfold assistant_messages. case_decide; [constructor|]. by apply settled_plain; [| |constructor]. Qed.

Lemma call_meta_ids (calls : list AccumulatedToolCall) : omap toolCall_id (call_meta <$> calls) = tc_callId <$> calls.
Proof.
  induction calls as [|tc calls IH]; [done|]. rewrite !fmap_cons.
  change (tc_callId tc :: omap toolCall_id (call_meta <$> calls) = tc_callId tc :: (tc_callId <$> calls)). by rewrite IH.
Qed.

Lemma settled_batch now text calls ids results :
  tool_results ids results -> ids ≡ₚ tc_callId <$> calls -> settled (assistant_messages now text calls ++ results).
Proof.
  intros Hr Hp. destruct calls as [|tc calls].
  - simpl in Hp. apply Permutation_nil_r in Hp. subst ids. apply Forall2_nil_inv_l in Hr as ->. rewrite app_nil_r.
    apply settled_text.
  - simpl. rewrite <-(app_nil_r results). eapply settled_calls; [done|done|done| |constructor].
    change (ids ≡ₚ omap toolCall_id (call_meta <$> tc :: calls)). by rewrite call_meta_ids.
Qed.

Lemma tool_results_app ids1 ids2 ms1 ms2 : tool_results ids1 ms1 -> tool_results ids2 ms2 -> tool_results (ids1 ++ ids2) (ms1 ++ ms2).
Proof. apply Forall2_app. Qed.

Lemma tool_results_one now tc output : tool_results [tc_callId tc] [tool_message now (tc_callId tc) (tc_toolName tc) output].
Proof. by repeat constructor. Qed.

Lemma has_result_app t ms id : transcriptHasToolResult (t ++ ms) id = transcriptHasToolResult t id || transcriptHasToolResult ms id.
Proof. unfold transcriptHasToolResult. apply existsb_app. Qed.

Lemma has_result_results ids ms id : tool_results ids ms -> transcriptHasToolResult ms id = bool_decide (id ∈ ids).
Proof.
  induction 1 as [|i m ids ms Hm _ IH]; [by rewrite bool_decide_eq_false_2 by (apply not_elem_of_nil)|]. simpl. rewrite IH.
  unfold result_id, readStringMeta in Hm. case_decide as Hs; [|done]. rewrite (bool_decide_eq_true_2 _ Hs). simpl.
  destruct (meta_get (im_metadata m) "callId") as [[]|]; try done. injection Hm as ->.
  destruct (decide (id = i)) as [->|Hne].
  - rewrite bool_decide_eq_true_2, (bool_decide_eq_true_2 (i ∈ i :: ids)) by (done || by left). done.
  - rewrite bool_decide_eq_false_2 by congruence. simpl. apply bool_decide_ext. rewrite elem_of_cons. naive_solver.
Qed.

Lemma has_result_assistant now text calls id : transcriptHasToolResult (assistant_messages now text calls) id = false.
Proof. unfold assistant_messages. destruct calls; [case_decide|]; done. Qed.

(** ** Loops over calls *)

(** A stretch of the turn that leaves the machine alone. *)
Definition stretch (r r' : Run) (l : list Obs) (ms : list InboundMessage) : Prop :=
  grew r r' l ms /\ r_state r' = r_state r /\ r_turn r' = r_turn r /\ r_blocked r' = r_blocked r /\
  Forall inner l /\ ended_calls l = [].

Lemma stretch_refl r : stretch r r [] [].
Proof. split; [apply grew_refl|by split_and!]. Qed.

Lemma stretch_trans r1 r2 r3 l1 l2 ms1 ms2 : stretch r1 r2 l1 ms1 -> stretch r2 r3 l2 ms2 -> stretch r1 r3 (l1 ++ l2) (ms1 ++ ms2).
Proof.
  intros (Hg & Hs & Ht & Hb & Hi & He) (Hg' & Hs' & Ht' & Hb' & Hi' & He').
  split; [by eapply grew_trans|]. split_and!; try congruence; [by apply Forall_app|]. by rewrite ended_app, He, He'.
Qed.

Lemma give_result_spec tc output r :
  spec (give_result env tc output) r (fun o r' => o = inl tt /\ exists l ms, stretch r r' l ms /\ tool_requests l = [] /\
    tool_results [tc_callId tc] ms).
Proof.
  unfold give_result. turn_steps. split; [done|]. exists [ob_event (ee_tool_result (tc_callId tc) output)]. eexists.
  split; [split; [by split|split_and!; try done; by repeat constructor]|]. split; [done|]. apply tool_results_one.
Qed.

Lemma append_results_spec (f : AccumulatedToolCall -> ToolOutput) calls r :
  spec (for_each calls (fun tc => appendToolResult env tc (f tc))) r (fun o r' => o = inl tt /\ exists ms,
    stretch r r' [] ms /\ tool_results (tc_callId <$> calls) ms).
Proof.
  apply (spec_for_each (fun done r' => exists ms, stretch r r' [] ms /\ tool_results (tc_callId <$> done) ms)).
  - exists []. split; [apply stretch_refl|constructor].
  - intros done x r' (ms & Hs & Ht). turn_steps. split; [done|]. eexists. split.
    + eapply (stretch_trans _ _ _ [] []); [done|]. split; [split; [by rewrite app_nil_r|done]|by split_and!].
    + rewrite fmap_app. apply tool_results_app; [done|apply tool_results_one].
  - eauto.
Qed.

Lemma give_results_spec (f : AccumulatedToolCall -> ToolOutput) calls r :
  spec (for_each calls (fun tc => give_result env tc (f tc))) r (fun o r' => o = inl tt /\ exists l ms,
    stretch r r' l ms /\ tool_requests l = [] /\ tool_results (tc_callId <$> calls) ms).
Proof.
  apply (spec_for_each (fun done r' => exists l ms, stretch r r' l ms /\ tool_requests l = [] /\ tool_results (tc_callId <$> done) ms)).
  - exists [], []. split; [apply stretch_refl|split; [done|constructor]].
  - intros done x r' (l & ms & Hs & Hq & Ht). eapply spec_mono; [apply give_result_spec|].
    intros o r'' (-> & l' & ms' & Hs' & Hq' & Ht'). split; [done|]. exists (l ++ l'), (ms ++ ms').
    split; [by eapply stretch_trans|]. split; [by rewrite tool_requests_app, Hq, Hq'|].
    rewrite fmap_app. by apply tool_results_app.
  - eauto 10.
Qed.

(** ** Execution *)

Abbreviation CoercedMap := (list (ToolCallId * (nat * (JsonObject * bool)))) (only parsing).

(** How the execution of [calls] ends after the calls in [done]. *)
Inductive executed (coerced : CoercedMap) (dups : list (string * list AccumulatedToolCall))
    (calls : list AccumulatedToolCall) (r r' : Run) : unit + Exn -> Prop :=
  | ex_all l ms : stretch r r' l ms -> tool_requests l = request coerced <$> calls ->
      tool_results (tc_callId <$> with_duplicates num_text coerced dups calls) ms -> executed coerced dups calls r r' (inl tt)
  | ex_aborted r1 l ms done rest : calls = done ++ rest -> stretch r r1 l ms ->
      tool_requests l = request coerced <$> done -> r' = set_state (complete (r_state r) sr_interrupted) r1 ->
      executed coerced dups calls r r' (inl tt)
  | ex_thrown e l ms done tc rest : calls = done ++ tc :: rest -> stretch r r' l ms ->
      tool_requests l = request coerced <$> (done ++ [tc]) ->
      tool_results (tc_callId <$> with_duplicates num_text coerced dups done) ms -> executed coerced dups calls r r' (inr e).

Lemma executed_cons coerced dups tc calls r r1 r' o l ms :
  stretch r r1 l ms -> tool_requests l = [request coerced tc] ->
  tool_results (tc_callId <$> tc :: duplicates_of num_text coerced dups tc) ms ->
  executed coerced dups calls r1 r' o -> executed coerced dups (tc :: calls) r r' o.
Proof.
  intros Hs Hq Ht Hx. inversion Hx as [l' ms' Hs' Hq' Ht'|r2 l' ms' done rest Hc Hs' Hq' Hr|e l' ms' done x rest Hc Hs' Hq' Ht']; subst.
  - apply (ex_all _ _ _ _ _ (l ++ l') (ms ++ ms')); [by eapply stretch_trans|by rewrite tool_requests_app, Hq, Hq'|].
    unfold with_duplicates in *. rewrite fmap_cons. cbn [concat]. rewrite fmap_app. by apply tool_results_app.
  - destruct Hs as (Hg & Hst & Hrest). rewrite Hst.
    apply (ex_aborted _ _ _ _ _ r2 (l ++ l') (ms ++ ms') (tc :: done) rest); [done| | |done].
    + by eapply stretch_trans; [split|].
    + by rewrite tool_requests_app, Hq, Hq'.
  - apply (ex_thrown _ _ _ _ _ e (l ++ l') (ms ++ ms') (tc :: done) x rest); [done|by eapply stretch_trans|by rewrite tool_requests_app, Hq, Hq'|].
    unfold with_duplicates in *. rewrite fmap_cons. cbn [concat]. rewrite fmap_app. by apply tool_results_app.
Qed.

Lemma execute_spec coerced dups calls : forall r, phase_of r = tp_tool_execution ->
  spec (execute num_text env coerced dups calls) r (fun o r' => executed coerced dups calls r r' o).
Proof.
  assert (Habort : forall r r1 l ms done rest, phase_of r = tp_tool_execution -> stretch r r1 l ms ->
    tool_requests l = request coerced <$> done ->
    spec (fsm ti_abort) r1 (fun o r' => executed coerced dups (done ++ rest) r r' o)).
  { intros r r1 l ms dn rest Hp Hs Hq. unfold phase_of in Hp.
    eapply spec_fsm; [unfold transitionTurn; by rewrite (proj1 (proj2 Hs)), Hp|].
    by eapply ex_aborted. }
  induction calls as [|tc calls IH]; intros r Hp; cbn [execute].
  { turn_steps. apply (ex_all _ _ _ _ _ [] []); [apply stretch_refl|done|constructor]. }
  turn_steps. destruct (match en_aborted env with Some _ => _ | None => _ end).
  { apply (Habort r r [] [] [] (tc :: calls)); [done|apply stretch_refl|done]. }
  unfold call_tool. turn_steps. set (req := mkToolRequest _ _ _).
  assert (Hlog : stretch r (tick (log (ob_tool req) r)) [ob_tool req] []).
  { split; [by split; rewrite ?app_nil_r|]. split_and!; try done. by repeat constructor. }
  destruct (en_toolCall env _ req) as [output|e]; turn_steps.
  2:{ apply (ex_thrown _ _ _ _ _ e [ob_tool req] [] [] tc calls); [done|done|done|constructor]. }
  eapply spec_mono; [apply give_result_spec|]. intros o r1 (-> & l1 & ms1 & Hs1 & Hq1 & Ht1).
  apply spec_bind. eapply spec_mono; [apply (give_results_spec (fun _ => output))|].
  intros o r2 (-> & l2 & ms2 & Hs2 & Hq2 & Ht2). turn_steps.
  pose proof (stretch_trans _ _ _ _ _ _ _ (stretch_trans _ _ _ _ _ _ _ Hlog Hs1) Hs2) as Hs.
  assert (Hq : tool_requests (([ob_tool req] ++ l1) ++ l2) = [request coerced tc]) by (by rewrite !tool_requests_app, Hq1, Hq2).
  assert (Ht : tool_results (tc_callId <$> tc :: duplicates_of num_text coerced dups tc) (([] ++ ms1) ++ ms2)).
  { rewrite fmap_cons. change (tool_results ([tc_callId tc] ++ (tc_callId <$> duplicates_of num_text coerced dups tc)) (ms1 ++ ms2)).
    by apply tool_results_app. }
  destruct (match en_aborted env with Some _ => _ | None => _ end).
  - by eapply (Habort r r2 _ _ [tc] calls).
  - eapply spec_mono; [apply IH|].
    + unfold phase_of in *. by rewrite (proj1 (proj2 Hs)).
    + intros o r' Hx. by eapply executed_cons.
Qed.

(** ** How a turn ends *)

(** A call the model made in this turn, for an advertised tool, with arguments
    its schema accepts. *)
Definition permitted (advertised : list ToolDescriptor) (calls : list AccumulatedToolCall) (q : ToolRequest) : Prop :=
  exists tc d, tc ∈ calls /\ tq_toolId q = tc_toolName tc /\ tq_callId q = tc_callId tc /\
    d ∈ advertised /\ td_name d = tq_toolId q /\ validateToolArgs num_text (tq_input q) (td_inputSchema d) = None.

(** What makes two requests the same call. *)
Definition request_key (q : ToolRequest) : string :=
  tq_toolId q +:+ NUL +:+ stableStringify num_text (J_obj (tq_input q)).

Definition requests_ok (advertised : list ToolDescriptor) (calls : list AccumulatedToolCall) (l : list Obs) : Prop :=
  Forall (permitted advertised calls) (tool_requests l) /\ NoDup (request_key <$> tool_requests l).

(** The model has not used these identifiers before. *)
Definition fresh (r : Run) (calls : list AccumulatedToolCall) : Prop :=
  NoDup (tc_callId <$> calls) /\
  forall id, id ∈ tc_callId <$> calls -> transcriptHasToolResult (r_transcript r) id = false.

Definition closes (calls : list AccumulatedToolCall) (ms : list InboundMessage) : Prop :=
  settled ms /\ forall id, transcriptHasToolResult ms id = true -> id ∈ tc_callId <$> calls.

(** The turn of [r], which is in the model phase. *)
Definition in_model (r : Run) : Prop := ts_phase (r_state r) = tp_model /\ ts_stopReason (r_state r) = None.

Definition next_state (s : TurnState) : TurnState := mkTurn tp_continue (ts_turnIndex s + 1) (ts_modelCalls s) None.

Inductive turn_ended (advertised : list ToolDescriptor) (calls : list AccumulatedToolCall) (r r' : Run) : Ctl + Exn -> Prop :=
  | te_continues l ms : r_state r' = next_state (r_state r) -> r_blocked r' = [] -> Forall inner l -> ended_calls l = [] ->
      grew r r' (l ++ [ends_turn (turn_index r)]) ms -> requests_ok advertised calls l ->
      (fresh r calls -> closes calls ms) -> turn_ended advertised calls r r' (inl Next)
  | te_completes ctl reason l ms : r_state r' = complete (r_state r) reason -> Forall inner l -> ended_calls l = [] ->
      grew r r' (l ++ [ends_turn (turn_index r)]) ms -> requests_ok advertised calls l ->
      turn_ended advertised calls r r' (inl ctl)
  | te_threw e l ms gate : Forall inner l -> ended_calls l = [] -> grew r r' l ms -> requests_ok advertised calls l ->
      en_stopGate env = Some gate -> turn_ended advertised calls r r' (inr e).

Lemma requests_ok_nil advertised calls l : tool_requests l = [] -> requests_ok advertised calls l.
Proof. unfold requests_ok. intros ->. split; [constructor|apply NoDup_nil_2]. Qed.

(** A quiet stretch before the end changes nothing. *)
Lemma turn_ended_after advertised calls r r1 r' o l ms :
  stretch r r1 l ms -> tool_requests l = [] -> ms = [] ->
  turn_ended advertised calls r1 r' o -> turn_ended advertised calls r r' o.
Proof.
  intros (Hg & Hs & Ht & Hb & Hi & He) Hq -> Hx.
  assert (Hfresh : fresh r calls -> fresh r1 calls).
  { destruct Hg as [_ Hm]. rewrite app_nil_r in Hm. unfold fresh. by rewrite Hm. }
  assert (Hreq : forall l', requests_ok advertised calls l' -> requests_ok advertised calls (l ++ l')).
  { unfold requests_ok. intros l'. by rewrite tool_requests_app, Hq. }
  unfold turn_index in *. inversion Hx as [l' ms' H1 H2 H3 H4 H5 H6 H7|ctl reason l' ms' H1 H3 H4 H5 H6|e l' ms' gate H3 H4 H5 H6 H7]; subst;
    try rewrite Hs in *.
  - apply (te_continues _ _ _ _ (l ++ l') ms'); try done; [by apply Forall_app|by rewrite ended_app, He| |by apply Hreq|auto].
    rewrite <-(assoc_L app). apply (grew_trans _ _ _ _ _ _ _ Hg). unfold turn_index in H5. by rewrite Hs in H5.
  - apply (te_completes _ _ _ _ ctl reason (l ++ l') ms'); try done; [by apply Forall_app|by rewrite ended_app, He| |by apply Hreq].
    rewrite <-(assoc_L app). apply (grew_trans _ _ _ _ _ _ _ Hg). unfold turn_index in H5. by rewrite Hs in H5.
  - apply (te_threw _ _ _ _ e (l ++ l') ms' gate); try done; [by apply Forall_app|by rewrite ended_app, He| |by apply Hreq].
    by apply (grew_trans _ _ _ _ _ _ _ Hg).
Qed.

Lemma fail_turn_spec advertised calls meta message r : in_model r ->
  spec (fail_turn meta message) r (fun o r' => turn_ended advertised calls r r' o).
Proof.
  intros [Hp _]. unfold fail_turn. turn_steps. eapply spec_fsm; [unfold transitionTurn; simpl; by rewrite Hp|]. turn_steps.
  apply (te_completes _ _ _ _ Break sr_error [] []); try done; [|by apply requests_ok_nil].
  split; simpl; [by rewrite Z.add_0_r|by rewrite app_nil_r].
Qed.

Lemma reprompt_spec r : in_model r ->
  spec reprompt r (fun o r' => o = inl Next /\ r_state r' = next_state (r_state r) /\ r_blocked r' = r_blocked r /\
    grew r r' [ends_turn (turn_index r)] []).
Proof.
  intros [Hp Hs]. unfold reprompt. turn_steps. eapply spec_fsm; [unfold transitionTurn; by rewrite Hp|]. turn_steps.
  rewrite decide_True by done. eapply spec_fsm; [done|]. turn_steps. split; [done|]. split; [done|]. split; [done|].
  split; simpl; [|by rewrite app_nil_r]. unfold turn_index, ends_turn. repeat f_equal. lia.
Qed.

Lemma truncation_recovery_spec advertised calls r : in_model r -> r_blocked r = [] ->
  spec (truncation_recovery env) r (fun o r' => turn_ended advertised calls r r' o).
Proof.
  intros [Hp Hs] Hb. unfold truncation_recovery. turn_steps.
  assert (Hrest : forall r1 ms, settled ms -> (forall id, transcriptHasToolResult ms id = false) -> r_state r1 = r_state r ->
    r_blocked r1 = [] -> grew r r1 [] ms ->
    spec (push_at env (fun now => [system_message now "system:truncation" truncation_text]) ;;!
      let! i := get (fun r => ts_turnIndex (r_state r)) in
      emit (ee_custom "truncation_recovery" [("turnIndex", JNum i)]) ;;!
      fsm (ti_model_done false) ;;! fsm ti_stop_blocked ;;! turn_end (-1) ;;! ret Next) r1
      (fun o r' => turn_ended advertised calls r r' o)).
  { intros r1 ms Hset Hno Hst Hbl [Hl Hm]. turn_steps. eapply spec_fsm; [unfold transitionTurn; simpl; by rewrite Hst, Hp|].
    turn_steps. eapply spec_fsm; [done|]. turn_steps.
    apply (te_continues _ _ _ _ [ob_event (ee_custom "truncation_recovery" [("turnIndex", JNum (turn_index r))])]
      (ms ++ [system_message (en_now env (r_time r1)) "system:truncation" truncation_text])).
    - done.
    - done.
    - by repeat constructor.
    - done.
    - split; simpl; [|rewrite Hm; by rewrite <-(assoc_L app)]. rewrite Hl, app_nil_r, <-(assoc_L app). simpl.
      unfold turn_index, ends_turn. rewrite Hst. repeat f_equal; lia.
    - by apply requests_ok_nil.
    - intros _. split; [apply settled_concat; [done|by apply settled_system]|].
      intros id. rewrite has_result_app, Hno. done. }
  case_decide as Ht.
  - apply spec_ret, (Hrest _ []); try done; [constructor|]. by split; rewrite app_nil_r.
  - apply spec_modify. eapply (Hrest _ (assistant_messages _ _ [])); [apply settled_text|intros; apply has_result_assistant|done|done|].
    by split; [rewrite app_nil_r|].
Qed.

Lemma closes_batch now text calls ids results extra :
  tool_results ids results -> ids ≡ₚ tc_callId <$> calls -> settled extra ->
  (forall id, transcriptHasToolResult extra id = false) -> closes calls (assistant_messages now text calls ++ results ++ extra).
Proof.
  intros Hr Hp He Hno. split.
  - rewrite (assoc_L app). apply settled_concat; [|done]. by eapply settled_batch.
  - intros id. rewrite !has_result_app, has_result_assistant, (has_result_results _ _ _ Hr), Hno, orb_false_r. simpl.
    intros Hid%bool_decide_eq_true. by rewrite <-Hp.
Qed.

(** A quiet stretch, then the model is asked again. *)
Lemma then_reprompt advertised calls r r1 l ms :
  in_model r -> r_blocked r = [] -> stretch r r1 l ms -> tool_requests l = [] -> (fresh r calls -> closes calls ms) ->
  spec reprompt r1 (fun o r' => o = inl Next /\ turn_ended advertised calls r r' o).
Proof.
  intros [Hp Hs] Hb (Hg & Hst & Ht & Hbl & Hi & He) Hq Hc.
  eapply spec_mono; [apply reprompt_spec; unfold in_model; by rewrite Hst|].
  intros o r' (-> & Hst' & Hbl' & Hg'). split; [done|]. rewrite Hst in Hst'. unfold turn_index in Hg'. rewrite Hst in Hg'.
  apply (te_continues _ _ _ _ l ms); try done; [by rewrite Hbl', Hbl| |by apply requests_ok_nil].
  rewrite <-(app_nil_r ms). by apply (grew_trans _ _ _ _ _ _ _ Hg).
Qed.

Lemma schema_failed_spec advertised calls errors r : in_model r -> r_blocked r = [] ->
  spec (schema_failed env config calls errors) r (fun o r' => turn_ended advertised calls r r' o).
Proof.
  intros [Hp Hs] Hb. unfold schema_failed. turn_steps. destruct (_ || _).
  - turn_steps. eapply spec_fsm; [unfold transitionTurn; simpl; by rewrite Hp|]. turn_steps.
    apply (te_completes _ _ _ _ Break sr_error [] []); try done; [|by apply requests_ok_nil].
    split; simpl; [by rewrite Z.add_0_r|by rewrite app_nil_r].
  - turn_steps. eapply spec_mono; [apply (give_results_spec (fun tc => schema_output _))|].
    intros o r1 (-> & l & ms & Hst & Hq & Ht).
    eapply spec_mono; [eapply (then_reprompt advertised calls r); [done|done| |done|]|by intros o r' [_ H]].
    + eapply (stretch_trans _ _ _ []); [|exact Hst]. split; [by split; [rewrite app_nil_r|]|by split_and!].
    + intros _. rewrite <-(app_nil_r ms). by eapply closes_batch; [| |constructor|].
Qed.

Lemma intervene_spec advertised d calls r : in_model r -> r_blocked r = [] ->
  spec (intervene env config d calls) r (fun o r' => o = inl Next /\ turn_ended advertised calls r r' o).
Proof.
  intros [Hp Hs] Hb. unfold intervene. turn_steps. eapply spec_mono; [apply append_results_spec|].
  intros o r1 (-> & ms & Hst & Ht). turn_steps. eapply then_reprompt; [done|done| | |].
  - eapply (stretch_trans _ _ _ [_]); [|eapply (stretch_trans _ _ _ []); [exact Hst|]].
    + split; [by split|split_and!; try done]. by repeat constructor.
    + split; [by split; [rewrite app_nil_r|]|by split_and!].
  - done.
  - intros _. by eapply closes_batch; [| |apply settled_system|].
Qed.

(** ** A checked batch of calls *)

Abbreviation key := (toolCallKey num_text).

(** The calls passed all checks, and are split into first calls and repetitions. *)
Record batch (advertised : list ToolDescriptor) (coerced : CoercedMap)
    (calls deduped skipped : list AccumulatedToolCall) : Prop := mkBatch {
  ba_dedup : dedup num_text coerced [] calls = (deduped, skipped);
  ba_args : forall tc, tc ∈ calls -> is_Some (effective_args coerced tc);
  ba_valid : forall tc, tc ∈ calls -> exists d, d ∈ advertised /\ td_name d = tc_toolName tc /\
    validateToolArgs num_text (default [] (effective_args coerced tc)) (td_inputSchema d) = None
}.

Definition allowed_calls (coerced : CoercedMap) (B : list string) (deduped : list AccumulatedToolCall) :=
  filter (fun tc => key coerced tc ∉ B) deduped.
Definition blocked_calls (coerced : CoercedMap) (B : list string) (deduped skipped : list AccumulatedToolCall) :=
  filter (fun tc => key coerced tc ∈ B) deduped ++ filter (fun tc => key coerced tc ∈ B) skipped.

Lemma batch_requests advertised coerced calls deduped skipped B done rest l :
  batch advertised coerced calls deduped skipped -> allowed_calls coerced B deduped = done ++ rest ->
  tool_requests l = request coerced <$> done -> requests_ok advertised calls l.
Proof.
  intros [Hd Ha Hv] Hsplit Hl. pose proof (dedup_spec num_text coerced calls []) as Hs. rewrite Hd in Hs.
  destruct Hs as (Hp & Hn & _).
  assert (Hsub : done `sublist_of` deduped).
  { trans (allowed_calls coerced B deduped); [|apply sublist_filter]. rewrite Hsplit. by apply sublist_inserts_r. }
  assert (Hin : forall tc, tc ∈ done -> tc ∈ calls).
  { intros tc Htc. rewrite <-Hp, elem_of_app. left. by eapply elem_of_sublist. }
  unfold requests_ok. rewrite Hl. split.
  - apply Forall_forall. intros q (tc & -> & Htc)%list_elem_of_fmap. destruct (Hv tc) as (d & ? & ? & ?); [auto|].
    exists tc, d. split_and!; auto.
  - assert (Hk : request_key <$> (request coerced <$> done) = key coerced <$> done).
    { rewrite <-list_fmap_compose. apply list_fmap_ext. intros i tc Htc%list_elem_of_lookup_2.
      destruct (Ha tc) as [args Hargs]; [auto|]. simpl. unfold request_key, toolCallKey. simpl. by rewrite Hargs. }
    rewrite Hk. eapply sublist_NoDup; [exact Hn|]. by apply fmap_sublist.
Qed.

Lemma batch_empty advertised coerced calls skipped : batch advertised coerced calls [] skipped -> calls = [].
Proof.
  intros [Hd _ _]. pose proof (dedup_spec num_text coerced calls []) as Hs. rewrite Hd in Hs. destruct Hs as (Hp & _ & _ & Hk).
  destruct skipped as [|x skipped]; [by apply Permutation_nil_l in Hp|].
  destruct (Hk x) as [H|H]; [by left|by apply elem_of_nil in H..].
Qed.

(** ** Doom loops *)

Inductive doom_outcome (advertised : list ToolDescriptor) (coerced : CoercedMap)
    (calls deduped skipped : list AccumulatedToolCall) (r r' : Run) : option (list AccumulatedToolCall) + Exn -> Prop :=
  | do_asked : turn_ended advertised calls r r' (inl Next) -> doom_outcome advertised coerced calls deduped skipped r r' (inl None)
  | do_run B l : grew r r' l [] -> r_state r' = r_state r -> r_turn r' = r_turn r -> Forall inner l -> ended_calls l = [] ->
      tool_requests l = [] -> r_blocked r' = blocked_calls coerced B deduped skipped ->
      (allowed_calls coerced B deduped = [] -> deduped = []) ->
      doom_outcome advertised coerced calls deduped skipped r r' (inl (Some (allowed_calls coerced B deduped))).

Lemma none_blocked coerced deduped skipped :
  allowed_calls coerced [] deduped = deduped /\ blocked_calls coerced [] deduped skipped = [].
Proof.
  assert (Hn : forall l : list AccumulatedToolCall, filter (fun tc => key coerced tc ∈ []) l = []).
  { induction l as [|x l IH]; [done|]. rewrite filter_cons, decide_False by apply not_elem_of_nil. done. }
  split; [|unfold blocked_calls; by rewrite !Hn]. unfold allowed_calls.
  induction deduped as [|x l IH]; [done|]. rewrite filter_cons, decide_True by apply not_elem_of_nil. by rewrite IH.
Qed.

(** Fewer blocked keys than calls leave a call to execute. *)
Lemma some_allowed coerced B deduped : NoDup (key coerced <$> deduped) ->
  (length B < length (key coerced <$> deduped))%nat -> allowed_calls coerced B deduped ≠ [].
Proof.
  intros Hn Hlt Hnil. apply (Nat.lt_irrefl (length B)). eapply Nat.lt_le_trans; [exact Hlt|].
  apply NoDup_incl_length; [by apply NoDup_ListNoDup|]. intros k Hk%list_elem_of_In. apply list_elem_of_In.
  apply list_elem_of_fmap in Hk as (tc & -> & Htc). destruct (decide (key coerced tc ∈ B)) as [|Hnb]; [done|].
  assert (H : tc ∈ allowed_calls coerced B deduped) by (by apply list_elem_of_filter). rewrite Hnil in H. by apply elem_of_nil in H.
Qed.

Lemma doom_check_spec advertised coerced calls deduped skipped r : in_model r -> r_blocked r = [] ->
  batch advertised coerced calls deduped skipped ->
  spec (doom_check num_text env config coerced calls deduped skipped) r
    (fun o r' => doom_outcome advertised coerced calls deduped skipped r r' o).
Proof.
  intros Hm Hb Hba. destruct (none_blocked coerced deduped skipped) as [Hall Hnone].
  assert (Hsame : forall r', grew r r' [] [] -> r_state r' = r_state r -> r_turn r' = r_turn r -> r_blocked r' = [] ->
    doom_outcome advertised coerced calls deduped skipped r r' (inl (Some deduped))).
  { intros r' Hg Hs Ht Hbl. rewrite <-Hall at 2. apply (do_run _ _ _ _ _ _ _ [] []); try done; [by rewrite Hnone|by rewrite Hall]. }
  unfold doom_check. destruct (_ <? 2); turn_steps; [apply Hsame; [apply grew_refl|done..]|].
  destruct deduped as [|tc0 tl] eqn:Hd; turn_steps; [by apply Hsame; [split; rewrite app_nil_r|..]|].
  rewrite <-Hd in *. clear Hd.
  set (d := detect _ _ _ _). set (r0 := set_doom _ _ r).
  destruct (_ && _ && _ && _); [|destruct (_ && _ && bool_decide (_ < _)%nat) eqn:Hlt]; turn_steps.
  - eapply spec_mono; [apply (intervene_spec advertised); [exact Hm|done]|].
    intros o r' [-> Hx]. turn_steps. apply do_asked. eapply (turn_ended_after _ _ _ r0 _ _ [] []); try done.
    split; [by split; rewrite app_nil_r|by split_and!].
  - unfold filter_blocked. turn_steps. fold (allowed_calls coerced (dt_blockable d) deduped).
    eapply do_run; [by split; [|by rewrite app_nil_r]|done|done|by repeat constructor|done..|].
    intros Hnil. destruct (some_allowed coerced (dt_blockable d) deduped); [| |done].
    + pose proof (dedup_spec num_text coerced calls []) as Hs. rewrite (ba_dedup _ _ _ _ _ Hba) in Hs. apply Hs.
    + apply andb_true_iff in Hlt as [_ Hlt]. by apply bool_decide_eq_true in Hlt.
  - apply Hsame; [by split; rewrite app_nil_r|done..].
Qed.

(** ** Executing a batch *)

Section Batch.
Context (advertised : list ToolDescriptor) (coerced : CoercedMap) (calls deduped skipped : list AccumulatedToolCall).
Context (Hba : batch advertised coerced calls deduped skipped) (B : list string).
Abbreviation allowed := (allowed_calls coerced B deduped).
Abbreviation blocked := (blocked_calls coerced B deduped skipped).
Abbreviation dups := (skippedByKey num_text coerced skipped blocked).

Lemma batch_cover : blocked ++ with_duplicates num_text coerced dups allowed ≡ₚ calls.
Proof. exact (results_cover num_text coerced calls deduped skipped B (ba_dedup _ _ _ _ _ Hba)). Qed.

Lemma pending_answers dn rest transcript answered : allowed = dn ++ rest -> NoDup (tc_callId <$> calls) ->
  answered = tc_callId <$> (blocked ++ with_duplicates num_text coerced dups dn) ->
  (forall id, id ∈ tc_callId <$> calls -> transcriptHasToolResult transcript id = bool_decide (id ∈ answered)) ->
  answered ++ (tc_callId <$> pending_calls transcript allowed skipped) ≡ₚ tc_callId <$> calls.
Proof.
  intros Hall Hn Hans Hres. pose proof (dedup_spec num_text coerced calls []) as Hd. rewrite (ba_dedup _ _ _ _ _ Hba) in Hd.
  destruct Hd as (Hp & _).
  assert (Hnd : NoDup (deduped ++ skipped)) by (rewrite Hp; by apply NoDup_fmap_1 in Hn).
  pose proof Hnd as (Hnd1 & Hdisj & Hnd2)%NoDup_app.
  assert (Hin : forall tc, tc ∈ allowed \/ tc ∈ skipped -> tc ∈ deduped ++ skipped).
  { intros tc [[_ ?]%list_elem_of_filter|?]; rewrite elem_of_app; auto. }
  assert (Hids : forall tc, tc ∈ allowed \/ tc ∈ skipped ->
    transcriptHasToolResult transcript (tc_callId tc) = bool_decide (tc_callId tc ∈ answered)).
  { intros tc Htc. apply Hres, list_elem_of_fmap_2. rewrite <-Hp. by apply Hin. }
  assert (Hresolved : forall id, id ∈ filter (fun id => transcriptHasToolResult transcript id = true) (tc_callId <$> allowed) <->
    id ∈ answered /\ id ∈ tc_callId <$> allowed).
  { intros id. rewrite list_elem_of_filter. split.
    - intros [Ht Hid]. split; [|done]. apply list_elem_of_fmap in Hid as (tc & -> & Htc). rewrite Hids in Ht by auto.
      by apply bool_decide_eq_true in Ht.
    - intros [Ha Hid]. split; [|done]. apply list_elem_of_fmap in Hid as (tc & -> & Htc). rewrite Hids by auto.
      by apply bool_decide_eq_true. }
  eapply (pending_completes num_text coerced blocked dn rest skipped allowed calls dups);
    [apply batch_cover|done| |done|done| |].
  - exists deduped. split; [done|]. split; [|split; [|done]].
    + intros x Hx. destruct (decide (key coerced x ∈ B)) as [Hb|Hb]; [right|left].
      * unfold blocked_calls. apply elem_of_app. left. by apply list_elem_of_filter.
      * by apply list_elem_of_filter.
    + by intros x [_ ?]%list_elem_of_filter.
  - intros tc. unfold pending_calls. set (resolved := filter _ (tc_callId <$> _)) in *. clearbody resolved.
    rewrite elem_of_app, !list_elem_of_filter, Hresolved. split.
    + intros [[H Htc]|[[H H'] Htc]]; (split; [auto|]); intros Ha.
      * apply H. split; [done|]. by apply list_elem_of_fmap_2.
      * rewrite Hids in H' by auto. by apply bool_decide_eq_false in H'.
    + intros [[Htc|Htc] Ha]; [left|right]; (split; [|done]); [by intros [? _]|]. split; [by intros [? _]|].
      rewrite Hids by auto. by apply bool_decide_eq_false.
  - unfold pending_calls. apply NoDup_app. split; [by apply NoDup_filter, NoDup_filter|]. split; [|by apply NoDup_filter].
    intros x [_ Hx]%list_elem_of_filter [_ Hx']%list_elem_of_filter. apply list_elem_of_filter in Hx as [_ Hx]. by apply (Hdisj x).
Qed.

Inductive executed_turn (r r' : Run) : Ctl + Exn -> Prop :=
  | xt_done l ms : r_state r' = next_state (r_state r) -> r_blocked r' = [] -> Forall inner l -> ended_calls l = [] ->
      grew r r' l ms -> requests_ok advertised calls l -> (fresh r calls -> closes calls ms) -> executed_turn r r' (inl Next)
  | xt_stopped reason l ms : r_state r' = complete (r_state r) reason -> Forall inner l -> ended_calls l = [] ->
      grew r r' l ms -> requests_ok advertised calls l -> executed_turn r r' (inl Next)
  | xt_broken : turn_ended advertised calls r r' (inl Break) -> executed_turn r r' (inl Break).

(** In [r1] the calls [dn] of the turn that started in [r] have their results,
    the call after them threw. *)
Lemma execution_failed_spec e r r1 l now text results dn rest :
  ts_phase (r_state r) = tp_tool_execution -> ts_stopReason (r_state r) = None ->
  grew r r1 l (assistant_messages now text calls ++ results) -> r_state r1 = r_state r -> r_blocked r1 = [] ->
  Forall inner l -> ended_calls l = [] -> requests_ok advertised calls l -> allowed = dn ++ rest ->
  tool_results (tc_callId <$> blocked ++ with_duplicates num_text coerced dups dn) results ->
  spec (execution_failed env allowed skipped e) r1 (fun o r' => executed_turn r r' o).
Proof.
  intros Hp Hsr Hg Hs Hb Hi He Hq Hall Hres. pose proof Hg as [Hlog Hts]. unfold execution_failed. turn_steps.
  rewrite decide_False by (by rewrite Hs, Hp). turn_steps. destruct (_ || _).
  { turn_steps. eapply spec_fsm; [unfold transitionTurn; simpl; by rewrite Hs, Hp|]. turn_steps.
    eapply xt_broken, te_completes; [done|exact Hi|done| |done]. split; simpl; [|exact Hts].
    rewrite Hlog, <-(assoc_L app). unfold turn_index, ends_turn. rewrite Z.add_0_r. done. }
  turn_steps. destruct (r_toolRecovery r1).
  { unfold fail_turn. turn_steps. eapply spec_fsm; [unfold transitionTurn; simpl; by rewrite Hs, Hp|]. turn_steps.
    eapply xt_broken, te_completes; [done|exact Hi|done| |done]. split; simpl; [|exact Hts].
    rewrite Hlog, <-(assoc_L app). unfold turn_index, ends_turn. rewrite Z.add_0_r. done. }
  turn_steps. eapply spec_mono; [apply (give_results_spec (fun _ => execution_output _))|].
  intros o r2 (-> & l2 & ms2 & (Hg2 & Hs2 & _ & Hb2 & Hi2 & He2) & Hq2 & Ht2). turn_steps.
  eapply spec_fsm; [unfold transitionTurn; rewrite Hs2; simpl; by rewrite Hs, Hp|]. turn_steps.
  assert (Hgg : grew r r2 (l ++ l2) ((assistant_messages now text calls ++ results) ++ ms2)) by (by eapply (grew_trans _ _ _ _ _ _ _ Hg)).
  eapply xt_done; [simpl; by rewrite Hsr|simpl; by rewrite Hb2| | |exact Hgg| |].
  - by apply Forall_app.
  - by rewrite ended_app, He, He2.
  - unfold requests_ok in *. by rewrite tool_requests_app, Hq2, app_nil_r.
  - intros [Hn Hf]. rewrite <-(assoc_L app), <-(app_nil_r (results ++ ms2)). eapply closes_batch; [| |constructor|done].
    + eapply tool_results_app; [exact Hres|exact Ht2].
    + eapply pending_answers; [done|done|done|]. intros id Hid. simpl.
      rewrite Hts, !has_result_app, has_result_assistant, (has_result_results _ _ _ Hres), (Hf id Hid). done.
Qed.

Lemma clear_schema_spec r : spec clear_schema_recovery r (fun o r' => o = inl tt /\ stretch r r' [] []).
Proof.
  unfold clear_schema_recovery. turn_steps. split; [done|]. destruct (r_schemaPending r); [|apply stretch_refl].
  destruct (has_source _ _); (split; [by split; rewrite app_nil_r|by split_and!]).
Qed.

Lemma execute_turn_spec r : ts_phase (r_state r) = tp_tool_execution -> ts_stopReason (r_state r) = None ->
  r_blocked r = blocked ->
  spec (execute_turn num_text env config coerced calls allowed skipped) r (fun o r' => executed_turn r r' o).
Proof.
  intros Hp Hsr Hb. unfold execute_turn. apply spec_bind. eapply spec_mono; [apply clear_schema_spec|].
  intros o r1 (-> & Hst1). turn_steps.
  assert (Hb1 : forall A, r_blocked (push A r1) = blocked) by (intros; simpl; by rewrite (proj1 (proj2 (proj2 (proj2 Hst1))))).
  rewrite Hb1.
  eapply spec_mono; [apply append_results_spec|]. intros o r2 (-> & ms & Hst2 & Ht). turn_steps.
  set (A := assistant_messages _ _ _) in *. set (r3 := set_blocked [] r2).
  assert (Hpush : stretch r1 (push A r1) [] A) by (split; [by split; [rewrite app_nil_r|]|by split_and!]).
  pose proof (stretch_trans _ _ _ _ _ _ _ (stretch_trans _ _ _ _ _ _ _ Hst1 Hpush) Hst2) as (Hg & Hs & _ & _ & _).
  assert (Hg3 : grew r r3 [] (A ++ ms)) by exact Hg. assert (Hs3 : r_state r3 = r_state r) by exact Hs. clear Hst1 Hst2 Hpush Hg Hs.
  apply spec_catch, spec_bind. eapply spec_mono; [apply execute_spec; unfold phase_of; by rewrite Hs3|].
  intros o r4 Hx. inversion Hx as [l ms' Hst Hq Hr|r5 l ms' dn rest Hsplit Hst Hq Hr4|e l ms' dn tc rest Hsplit Hst Hq Hr]; subst o.
  - destruct Hst as (Hg & Hs & _ & Hbl & Hi & He). rewrite Hs3 in Hs. turn_steps. rewrite decide_True by (by rewrite Hs).
    eapply spec_fsm; [unfold transitionTurn; by rewrite Hs, Hp|]. turn_steps.
    eapply xt_done; [simpl; by rewrite Hsr|exact Hbl|exact Hi|done|exact (grew_trans _ _ _ _ _ _ _ Hg3 Hg)| |].
    + eapply batch_requests; [done| |exact Hq]. symmetry. apply app_nil_r.
    + intros [Hn Hf]. rewrite <-(assoc_L app), <-(app_nil_r (ms ++ ms')). eapply closes_batch; [| |constructor|done].
      * eapply tool_results_app; [exact Ht|exact Hr].
      * by rewrite <-fmap_app, batch_cover.
  - subst r4. destruct Hst as (Hg & Hs & _ & Hbl & Hi & He). turn_steps. rewrite decide_False by done. turn_steps.
    eapply xt_stopped; [by rewrite <-Hs3|exact Hi|done|exact (grew_trans _ _ _ _ _ _ _ Hg3 Hg)|].
    by eapply batch_requests.
  - destruct Hst as (Hg & Hs & _ & Hbl & Hi & He). rewrite Hs3 in Hs. cbv beta iota.
    eapply (execution_failed_spec e r r4 l _ _ (ms ++ ms') dn (tc :: rest)); try done.
    + pose proof (grew_trans _ _ _ _ _ _ _ Hg3 Hg) as Hgg. by rewrite <-(assoc_L app) in Hgg.
    + eapply batch_requests; [done| |exact Hq]. rewrite <-(assoc_L app). exact Hsplit.
    + rewrite fmap_app. by apply tool_results_app.
Qed.
End Batch.

Lemma turn_ended_set_state advertised calls s r r' o :
  ts_turnIndex s = ts_turnIndex (r_state r) -> ts_modelCalls s = ts_modelCalls (r_state r) ->
  turn_ended advertised calls (set_state s r) r' o -> turn_ended advertised calls r r' o.
Proof.
  intros Hi Hc Hx. assert (Hix : turn_index (set_state s r) = turn_index r) by exact Hi.
  inversion Hx as [l ms H1 H2 H3 H4 H5 H6 H7|ctl reason l ms H1 H3 H4 H5 H6|e l ms gate H3 H4 H5 H6 H7]; subst; try rewrite Hix in *.
  - apply (te_continues _ _ _ _ l ms); try done. rewrite H1. unfold next_state. simpl. by rewrite Hi, Hc.
  - apply (te_completes _ _ _ _ ctl reason l ms); try done. rewrite H1. unfold complete. simpl. by rewrite Hi, Hc.
  - by apply (te_threw _ _ _ _ e l ms gate).
Qed.

(** ** The stop gate *)

Lemma gate_verdict_spec r :
  spec (gate_verdict env config) r (fun o r' => exists l, stretch r r' l [] /\ tool_requests l = [] /\
    match o with
    | inl None => True
    | inl (Some _) => ts_phase (r_state r) = tp_complete /\ ts_stopReason (r_state r) = Some sr_completed
    | inr _ => is_Some (en_stopGate env)
    end).
Proof.
  unfold gate_verdict. turn_steps. destruct (_ && _ && _) eqn:Hc; turn_steps;
    [|by exists []; split; [apply stretch_refl|]].
  apply andb_true_iff in Hc as [[H1%bool_decide_eq_true H2%bool_decide_eq_true]%andb_true_iff _].
  unfold stop_gate. destruct (en_stopGate env) as [gate|] eqn:Hgate; turn_steps; [|by exists []; split; [apply stretch_refl|]].
  set (i := ts_turnIndex (r_state r)).
  assert (Hst : stretch r (tick (log (ob_gate i) r)) [ob_gate i] []).
  { split; [by split; rewrite ?app_nil_r|]. split_and!; try done. by repeat constructor. }
  destruct (gate _ _) as [[|reason]|e]; turn_steps; exists [ob_gate i]; (split; [done|]); by rewrite ?Hgate.
Qed.

Lemma completion_blocked_spec advertised calls reason s r : ts_phase s = tp_complete ->
  r_state r = s -> r_blocked r = [] ->
  spec (completion_blocked env reason) r (fun o r' => turn_ended advertised calls r r' o).
Proof.
  intros Hp Hs Hb. unfold completion_blocked. turn_steps.
  assert (Hrest : forall r1 ms, settled ms -> (forall id, transcriptHasToolResult ms id = false) -> r_state r1 = s ->
    r_blocked r1 = [] -> grew r r1 [] ms ->
    spec (push_at env (fun now => [system_message now "system"
        ("[Completion blocked]: " +:+ reason +:+ ". Address this before completing.")]) ;;!
      modify add_stopRetry ;;! fsm ti_stop_blocked ;;! turn_end (-1) ;;! ret Next) r1
      (fun o r' => turn_ended advertised calls r r' o)).
  { intros r1 ms Hset Hno Hst Hbl [Hl Hm]. turn_steps. eapply spec_fsm; [unfold transitionTurn; simpl; by rewrite Hst, Hp|].
    turn_steps. eapply (te_continues _ _ _ _ [] (ms ++ [_])).
    - simpl. by rewrite Hs.
    - done.
    - done.
    - done.
    - split; simpl; [|rewrite Hm; by rewrite <-(assoc_L app)]. rewrite Hl, app_nil_r. simpl.
      unfold turn_index, ends_turn. rewrite Hs. repeat f_equal; lia.
    - by apply requests_ok_nil.
    - intros _. split; [apply settled_concat; [done|by apply settled_system]|].
      intros id. rewrite has_result_app, Hno. done. }
  case_decide as Ht.
  - apply spec_ret, (Hrest _ []); try done; [constructor|apply grew_refl].
  - apply spec_modify. eapply (Hrest _ (assistant_messages _ _ [])); [apply settled_text|intros; apply has_result_assistant|done|done|].
    by split; [rewrite app_nil_r|].
Qed.

(** ** From the model's answer to the end of the turn *)

Lemma close_turn_spec advertised calls r r1 ctl : ts_phase (r_state r) ≠ tp_continue ->
  executed_turn advertised calls r r1 (inl ctl) ->
  spec (match ctl with Break => ret Break | Next => close_turn end) r1 (fun o r' => turn_ended advertised calls r r' o).
Proof.
  intros Hp Hx. inversion Hx as [l ms H1 H2 H3 H4 [Hl Hm] H6 H7|reason l ms H1 H3 H4 [Hl Hm] H6|H]; subst; [..|by turn_steps];
    unfold close_turn; turn_steps.
  - apply (te_continues _ _ _ _ l ms); try done. split; simpl; [|done]. rewrite Hl, H1, <-(assoc_L app). simpl.
    unfold turn_index, ends_turn. repeat f_equal; lia.
  - apply (te_completes _ _ _ _ Next reason l ms); try done. split; simpl; [|done]. rewrite Hl, H1, <-(assoc_L app). simpl.
    unfold turn_index, ends_turn. rewrite Z.add_0_r. done.
Qed.

Lemma finish_turn_spec advertised coerced calls deduped skipped B r :
  batch advertised coerced calls deduped skipped -> in_model r -> r_blocked r = blocked_calls coerced B deduped skipped ->
  (allowed_calls coerced B deduped = [] -> deduped = []) ->
  spec (finish_turn num_text env config coerced calls (allowed_calls coerced B deduped) skipped) r
    (fun o r' => turn_ended advertised calls r r' o).
Proof.
  intros Hba [Hp Hsr] Hb Hall. unfold finish_turn. apply spec_bind. set (has := match allowed_calls _ _ _ with [] => _ | _ => _ end).
  set (s := if has then mkTurn tp_tool_execution (turn_index r) (ts_modelCalls (r_state r)) None else complete (r_state r) sr_completed).
  eapply (spec_fsm _ s); [unfold transitionTurn, s; rewrite Hp, Hsr; by destruct has|].
  eapply (spec_mono _ _ (fun o r' => turn_ended advertised calls (set_state s r) r' o));
    [|intros o r'; apply turn_ended_set_state; unfold s; by destruct has].
  set (r0 := set_state s r). apply spec_bind. eapply spec_mono; [apply gate_verdict_spec|].
  intros o r1 (l & Hst & Hq & Ho). destruct o as [[reason|]|e].
  - destruct Ho as [Hph _]. assert (Hhas : has = false) by (subst r0; unfold s in Hph; simpl in Hph; by destruct has).
    assert (Hnil : allowed_calls coerced B deduped = []) by (by destruct (allowed_calls coerced B deduped)).
    assert (Hd : deduped = []) by auto. subst deduped. pose proof (batch_empty _ _ _ _ Hba) as ->.
    assert (Hsk : skipped = []).
    { pose proof (dedup_spec num_text coerced [] []) as Hs. rewrite (ba_dedup _ _ _ _ _ Hba) in Hs. destruct Hs as (Hpm & _).
      by apply Permutation_nil_r in Hpm. }
    subst skipped. eapply spec_mono.
    + eapply completion_blocked_spec; [exact Hph|apply Hst|]. by rewrite (proj1 (proj2 (proj2 (proj2 Hst)))).
    + intros o r'. by apply (turn_ended_after _ _ _ _ _ _ l []).
  - turn_steps. rewrite (proj1 (proj2 Hst)). case_decide as Hph.
    + eapply spec_mono; [apply spec_bind; eapply spec_mono; [eapply (execute_turn_spec advertised)|]|].
      * exact Hba.
      * by rewrite (proj1 (proj2 Hst)).
      * rewrite (proj1 (proj2 Hst)). subst r0. unfold s in *. by destruct has.
      * rewrite (proj1 (proj2 (proj2 (proj2 Hst)))). exact Hb.
      * intros o r2 Hx. destruct o as [ctl|e]; [|by inversion Hx].
        eapply close_turn_spec; [|exact Hx]. by rewrite (proj1 (proj2 Hst)), Hph.
      * intros o r'. by apply (turn_ended_after _ _ _ _ _ _ l []).
    + assert (Hs0 : s = complete (r_state r) sr_completed) by (subst r0; unfold s in *; simpl in Hph; by destruct has).
      subst r0. clearbody s. subst s. set (r0 := set_state _ r) in *.
      assert (Hrest : forall r2 ms, r_state r2 = r_state r1 -> grew r1 r2 [] ms ->
        spec close_turn r2 (fun o r' => turn_ended advertised calls r0 r' o)).
      { intros r2 ms Hs2 Hg2. destruct Hst as (Hg & Hs & _ & _ & Hi & He). unfold close_turn. turn_steps. rewrite Hs2, Hs. subst r0.
        simpl. destruct (grew_trans _ _ _ _ _ _ _ Hg Hg2) as [Hl Hm].
        eapply (te_completes _ _ _ _ Next sr_completed l ms); try done.
        - simpl. by rewrite Hs2, Hs.
        - split; simpl; [|exact Hm]. rewrite Hl, app_nil_r. simpl. unfold turn_index, ends_turn. rewrite Z.add_0_r, <-(assoc_L app).
          done.
        - by apply requests_ok_nil. }
      turn_steps. case_decide.
      * apply spec_ret, (Hrest _ []); [done|apply grew_refl].
      * apply spec_modify. eapply Hrest; [done|]. by split; [rewrite app_nil_r|].
  - destruct Ho as [gate Hg]. destruct Hst as (Hgr & _ & _ & _ & Hi & He).
    eapply te_threw; [exact Hi|done|exact Hgr|by apply requests_ok_nil|done].
Qed.

(** ** The checks *)

Lemma in_model_after r r1 l ms : in_model r -> stretch r r1 l ms -> in_model r1.
Proof. intros Hm (_ & Hs & _). unfold in_model. by rewrite Hs. Qed.

(** An event that is yielded only when there is something to tell. *)
Lemma optional_event_spec {A} (l : list A) type d r :
  spec (if decide (l = []) then ret tt else emit (ee_custom type d)) r
    (fun o r' => o = inl tt /\ exists l, stretch r r' l [] /\ tool_requests l = []).
Proof.
  case_decide; turn_steps; (split; [done|]).
  - exists []. split; [apply stretch_refl|done].
  - exists [ob_event (ee_custom type d)]. split; [|done]. split; [by split; rewrite ?app_nil_r|]. split_and!; try done. by repeat constructor.
Qed.

Lemma descriptorMap_spec tools n :
  match m_get n (descriptorMap tools) with
  | Some d => d ∈ tools /\ td_name d = n
  | None => n ∉ td_name <$> tools
  end.
Proof.
  unfold descriptorMap. induction tools as [|d tools IH] using rev_ind; [by apply not_elem_of_nil|].
  rewrite foldl_app. simpl. rewrite m_get_set. case_decide as Hn.
  - subst n. split; [|done]. apply elem_of_app. right. by apply list_elem_of_singleton.
  - destruct (m_get n _) as [d'|].
    + destruct IH as [? ?]. split; [|done]. apply elem_of_app. by left.
    + rewrite fmap_app. intros [?|H%list_elem_of_singleton]%elem_of_app; [done|]. by apply Hn.
Qed.

Lemma omap_nil_inv {A C} (f : A -> option C) l x : omap f l = [] -> x ∈ l -> f x = None.
Proof.
  intros Hn Hx. destruct (f x) as [y|] eqn:Hf; [|done]. assert (H : y ∈ omap f l) by (apply list_elem_of_omap; eauto).
  rewrite Hn in H. by apply elem_of_nil in H.
Qed.

Lemma run_calls_spec advertised calls r : in_model r -> r_blocked r = [] ->
  Forall (fun tc => is_Some (tc_parsedArgs tc) /\ tc_toolName tc ∈ td_name <$> advertised) calls ->
  spec (run_calls Number num_text env config advertised calls) r (fun o r' => turn_ended advertised calls r r' o).
Proof.
  intros Hm Hb Hcalls. unfold run_calls. set (coerced := coerce_calls _ _ _ _ _). apply spec_bind.
  eapply spec_mono; [apply optional_event_spec|]. intros o r1 (-> & l1 & Hst1 & Hq1).
  eapply (spec_mono _ _ (fun o r' => turn_ended advertised calls r1 r' o)); [|intros o r'; by apply (turn_ended_after _ _ _ _ _ _ l1 [])].
  assert (Hm1 : in_model r1) by (by eapply in_model_after).
  assert (Hb1 : r_blocked r1 = []) by (by rewrite (proj1 (proj2 (proj2 (proj2 Hst1))))). case_decide as Herr; [by apply schema_failed_spec|].
  assert (Hnil : schema_errors num_text (descriptorMap advertised) coerced calls = []).
  { destruct (schema_errors _ _ _ _); [done|]. by destruct Herr. }
  destruct (dedup num_text coerced [] calls) as [deduped skipped] eqn:Hd.
  assert (Hba : batch advertised coerced calls deduped skipped).
  { rewrite Forall_forall in Hcalls. split; [done| |].
    - intros tc Htc. unfold effective_args. destruct (m_get _ _) as [[k [a c]]|]; [done|]. by apply Hcalls.
    - intros tc Htc. pose proof (omap_nil_inv _ _ tc Hnil Htc) as Hv. simpl in Hv. pose proof (descriptorMap_spec advertised (tc_toolName tc)) as Hdm.
      destruct (m_get (tc_toolName tc) _) as [d|]; [|by destruct (Hcalls tc Htc)].
      exists d. destruct Hdm. split; [done|]. split; [done|]. by destruct (validateToolArgs _ _ _). }
  apply spec_bind. eapply spec_mono; [apply optional_event_spec|]. intros o r2 (-> & l2 & Hst2 & Hq2).
  eapply (spec_mono _ _ (fun o r' => turn_ended advertised calls r2 r' o)); [|intros o r'; by apply (turn_ended_after _ _ _ _ _ _ l2 [])].
  assert (Hm2 : in_model r2) by (by eapply in_model_after).
  assert (Hb2 : r_blocked r2 = []) by (by rewrite (proj1 (proj2 (proj2 (proj2 Hst2))))).
  apply spec_bind. eapply spec_mono; [by eapply (doom_check_spec advertised)|].
  intros o r3 Hx. destruct Hx as [Hx|B l Hg Hs Ht Hi He Hq Hbl Hnone]; [by turn_steps|].
  eapply spec_mono; [eapply (finish_turn_spec advertised); [done| |done|done]; unfold in_model; by rewrite Hs|].
  intros o r'. clear -Hg Hs Ht Hi He Hq. intros Hx.
  destruct Hg as [Hl Hm]. rewrite app_nil_r in Hm.
  apply (turn_ended_after _ _ _ (set_blocked (r_blocked r2) r3) _ _ l []); try done.
  - split; [split; simpl; [done|by rewrite app_nil_r]|by split_and!].
  - inversion Hx; subst; by econstructor.
Qed.

Lemma all_filtered {A} (P : A -> Prop) `{!forall x, Decision (P x)} (l : list A) :
  (length l <= length (filter P l))%nat -> filter P l = l.
Proof.
  induction l as [|x l IH]; [done|]. rewrite filter_cons. case_decide; simpl; intros Hle.
  - rewrite IH; [done|lia].
  - pose proof (length_filter P l). lia.
Qed.

Lemma check_calls_spec r : in_model r -> r_blocked r = [] ->
  spec (check_calls Number num_text env config) r
    (fun o r' => turn_ended (tv_advertised (r_turn r)) (tools_seen r) r r' o).
Proof.
  intros Hm Hb. unfold check_calls. turn_steps. unfold tools_seen. set (calls := tv_toolCalls _). set (adv := tv_advertised _).
  case_bool_decide as Hlen; [by apply fail_turn_spec|]. apply Nat.nlt_ge in Hlen.
  rewrite (all_filtered _ _ Hlen). case_decide as Hund; [by apply fail_turn_spec|]. apply run_calls_spec; [done|done|].
  apply Forall_forall. intros tc Htc. split.
  - rewrite <-(all_filtered _ _ Hlen) in Htc. apply list_elem_of_filter in Htc as [Hv _]. unfold is_valid_call in Hv.
    apply andb_true_iff in Hv as [_ Hv]. by destruct (tc_parsedArgs tc).
  - destruct (decide (tc_toolName tc ∈ td_name <$> adv)) as [|Hn]; [done|]. exfalso.
    assert (H : tc ∈ filter (fun tc => tc_toolName tc ∉ td_name <$> adv) calls) by (by apply list_elem_of_filter).
    rewrite Hund in H. by apply elem_of_nil in H.
Qed.

(** ** A turn *)

(** The entries of a turn that starts with transcript [T]. *)
Definition turn_entries (i : Z) (T : list InboundMessage) (advertised : list ToolDescriptor) (l : list Obs)
    (closed : bool) : list Obs :=
  ob_event (ee_turn_start i) :: ob_request T advertised :: l ++ (if closed then [ends_turn i] else []).

(** One pass of the loop that gets to the model. *)
Inductive turn_ran (advertised : list ToolDescriptor) (r r' : Run) : Ctl + Exn -> Prop :=
  | tn_next l ms : r_state r' = next_state (to_model (r_state r)) -> r_blocked r' = [] -> Forall inner l ->
      grew r r' (turn_entries (turn_index r) (r_transcript r) advertised l true) ms ->
      requests_ok advertised (ended_calls l) l ->
      (fresh r (ended_calls l) -> closes (ended_calls l) ms) -> turn_ran advertised r r' (inl Next)
  | tn_done ctl closed reason l ms : r_state r' = complete (to_model (r_state r)) reason -> Forall inner l ->
      grew r r' (turn_entries (turn_index r) (r_transcript r) advertised l closed) ms ->
      requests_ok advertised (ended_calls l) l -> (closed = false -> reason = sr_error) ->
      turn_ran advertised r r' (inl ctl)
  | tn_threw e l ms : Forall inner l ->
      grew r r' (turn_entries (turn_index r) (r_transcript r) advertised l false) ms ->
      requests_ok advertised (ended_calls l) l -> is_Some (en_stopGate env) -> turn_ran advertised r r' (inr e).

(** [r1] is where the model is asked, [r2] where its stream has ended. *)
Lemma turn_ended_ran advertised r r1 r2 r' o l0 :
  r_state r1 = to_model (r_state r) -> grew r r1 [ob_event (ee_turn_start (turn_index r))] [] ->
  tv_advertised (r_turn r1) = advertised -> tools_seen r1 = [] ->
  r_state r2 = r_state r1 -> Forall inner l0 -> tool_requests l0 = [] ->
  grew r1 r2 (request_of r1 :: l0) [] -> tools_seen r2 = ended_calls l0 ->
  turn_ended advertised (tools_seen r2) r2 r' o -> turn_ran advertised r r' o.
Proof.
  intros Hs1 Hg1 Ha Ht1 Hs2 Hi0 Hq0 Hg2 Ht2 Hx. rewrite Ht2 in Hx.
  pose proof (grew_trans _ _ _ _ _ _ _ Hg1 Hg2) as Hg. destruct Hg1 as [_ Hm1]. rewrite app_nil_r in Hm1.
  assert (Hreq : request_of r1 = ob_request (r_transcript r) advertised) by (unfold request_of; by rewrite Hm1, Ha).
  rewrite Hreq in Hg. assert (Hmr2 : r_transcript r2 = r_transcript r) by (destruct Hg as [_ Hm]; by rewrite app_nil_r in Hm).
  assert (Hidx : turn_index r2 = turn_index r) by (unfold turn_index; by rewrite Hs2, Hs1).
  rewrite <-Hs2 in Hs1.
  assert (Hentries : forall r' l ms closed, grew r2 r' (l ++ (if closed : bool then [ends_turn (turn_index r)] else [])) ms ->
    grew r r' (turn_entries (turn_index r) (r_transcript r) advertised (l0 ++ l) closed) ms).
  { intros r3 l ms closed H. pose proof (grew_trans _ _ _ _ _ _ _ Hg H) as H'. unfold turn_entries. simpl in H'.
    by rewrite (assoc_L app) in H'. }
  assert (Hok : forall l, requests_ok advertised (ended_calls l0) l -> ended_calls l = [] ->
    requests_ok advertised (ended_calls (l0 ++ l)) (l0 ++ l)).
  { intros l H He. unfold requests_ok in *. by rewrite ended_app, He, app_nil_r, tool_requests_app, Hq0. }
  inversion Hx as [l ms H1 H2 H3 H4 H5 H6 H7|ctl reason l ms H1 H3 H4 H5 H6|e l ms gate H3 H4 H5 H6 H7]; subst o; try rewrite Hidx in *.
  - apply (tn_next _ _ _ (l0 ++ l) ms); try done; [by rewrite H1, Hs1|by apply Forall_app|by apply Hentries|by apply Hok|].
    rewrite ended_app, H4, app_nil_r. intros [Hn Hf]. apply H7. split; [done|]. by rewrite Hmr2.
  - apply (tn_done _ _ _ _ true reason (l0 ++ l) ms); try done; [by rewrite H1, Hs1|by apply Forall_app|by apply Hentries|by apply Hok].
  - apply (tn_threw _ _ _ e (l0 ++ l) ms); [by apply Forall_app| |by apply Hok|by rewrite H7].
    apply Hentries. by rewrite app_nil_r.
Qed.

Lemma stream_failed_ran advertised r r1 r2 r' reason closed l :
  r_state r1 = to_model (r_state r) -> grew r r1 [ob_event (ee_turn_start (turn_index r))] [] ->
  tv_advertised (r_turn r1) = advertised -> Forall inner l -> tool_requests l = [] ->
  r_state r2 = complete (r_state r1) reason ->
  grew r1 r2 (request_of r1 :: l ++ (if closed : bool then [ends_turn (turn_index r)] else [])) [] ->
  (closed = false -> reason = sr_error) -> r_state r' = r_state r2 -> r_log r' = r_log r2 -> r_transcript r' = r_transcript r2 ->
  turn_ran advertised r r' (inl Break).
Proof.
  intros Hs1 Hg1 Ha Hi Hq Hs2 Hg2 Hc Hs' Hl' Hm'. pose proof (grew_trans _ _ _ _ _ _ _ Hg1 Hg2) as [Hl Hm]. destruct Hg1 as [_ Hm1].
  rewrite app_nil_r in Hm1. apply (tn_done _ _ _ _ closed reason l []); [by rewrite Hs', Hs2, Hs1|done| |by apply requests_ok_nil|done].
  split; [|by rewrite Hm', Hm]. rewrite Hl', Hl. unfold turn_entries, request_of. by rewrite Hm1, Ha.
Qed.

Definition aborted_at (time : nat) : bool := match en_aborted env with Some aborted => aborted time | None => false end.

(** A run at the head of the loop. *)
Record ready (r : Run) : Prop := mkReady {
  rd_phase : phase_of r = tp_continue \/ (phase_of r = tp_idle /\ aborted_at (r_time r) = false);
  rd_reason : ts_stopReason (r_state r) = None;
  rd_blocked : r_blocked r = []
}.

Definition has_budget (r : Run) : Prop := forall n, rc_maxTurns config = Some n -> phase_of r = tp_continue -> turn_index r < n.

Inductive passed (r r' : Run) : Ctl + Exn -> Prop :=
  | pa_stopped reason : phase_of r = tp_continue -> r_state r' = complete (r_state r) reason -> grew r r' [] [] ->
      passed r r' (inl Break)
  | pa_ran advertised o : has_budget r -> turn_ran advertised r r' o -> passed r r' o.

Lemma begin_turn_spec r : ready r ->
  spec (begin_turn env) r (fun o r1 => o = inl tt /\ r_state r1 = to_model (r_state r) /\ r_blocked r1 = [] /\
    grew r r1 [ob_event (ee_turn_start (turn_index r))] [] /\ exists advertised, r_turn r1 = new_vars advertised).
Proof.
  intros [Hp Hr Hb]. unfold begin_turn. turn_steps. eapply spec_fsm.
  { unfold phase_of in Hp. unfold transitionTurn. by destruct Hp as [->|[-> _]]. }
  turn_steps. split; [done|]. split; [done|]. split; [exact Hb|]. split; [by split; simpl; rewrite ?app_nil_r|by eexists].
Qed.

Lemma turn_body_spec r : ready r ->
  spec (turn_body JSON_parse Number num_text env config) r (fun o r' => passed r r' o).
Proof.
  intros Hrd. pose proof Hrd as [Hp Hr Hb]. unfold phase_of in Hp. unfold turn_body. turn_steps. fold (aborted_at (r_time r)).
  destruct (aborted_at (r_time r)) eqn:Hab.
  { destruct Hp as [Hp|[_ ?]]; [|done]. turn_steps. eapply spec_fsm; [unfold transitionTurn; by rewrite Hp|]. turn_steps.
    eapply pa_stopped; [done|done|split; by rewrite app_nil_r]. }
  turn_steps. destruct (_ && _) eqn:Hmax.
  { apply andb_true_iff in Hmax as [Hc%bool_decide_eq_true _]. turn_steps.
    eapply spec_fsm; [unfold transitionTurn; by rewrite Hc|]. turn_steps.
    eapply pa_stopped; [done|done|split; by rewrite app_nil_r]. }
  assert (Hbud : has_budget r).
  { intros n Hn Hc. unfold phase_of in Hc. rewrite Hc, Hn in Hmax. simpl in Hmax. apply Z.leb_gt in Hmax. done. }
  apply spec_bind. eapply spec_mono; [by apply begin_turn_spec|].
  intros o r1 (-> & Hs1 & Hb1 & Hg1 & adv & Hv). apply spec_bind.
  assert (Hph : phase_of r1 = tp_model) by (unfold phase_of; by rewrite Hs1).
  eapply spec_mono; [by apply stream_turn_spec|]. intros o r2 (failed & -> & Ha2 & Hb2 & Hout). rewrite Hv in Ha2.
  assert (Ha1 : tv_advertised (r_turn r1) = adv) by (by rewrite Hv).
  assert (Hi1 : turn_index r1 = turn_index r) by (unfold turn_index; by rewrite Hs1).
  destruct Hout as [Hs2 Hg2|l calls Hs2 Hi Hq Hg2 Ht He|l Hs2 Htr Hi Hq Hg2|l Hs2 Htr Hi Hq Hg2]; try rewrite Hi1 in *.
  - turn_steps. eapply pa_ran; [done|]. by apply (stream_failed_ran adv r r1 r2 r2 sr_error true []).
  - set (r3 := set_lastText (tv_text (r_turn r2)) r2).
    assert (Hran : forall o r', turn_ended adv (tools_seen r3) r3 r' o -> passed r r' o).
    { intros o r' Hx. eapply pa_ran; [done|]. eapply (turn_ended_ran adv r r1 r3); try done.
      - unfold tools_seen. by rewrite Hv.
      - unfold tools_seen, r3 in *. simpl. rewrite Ht, Hv. simpl. by rewrite He. }
    assert (Hm3 : in_model r3) by (split; simpl; rewrite Hs2, Hs1; [done|exact Hr]).
    assert (Hb3 : r_blocked r3 = []) by (simpl; by rewrite Hb2).
    unfold after_stream. turn_steps. fold r3.
    destruct (tv_truncated (r_turn r2)).
    { eapply spec_mono; [by apply truncation_recovery_spec|exact Hran]. }
    turn_steps. rewrite decide_False by (by rewrite (proj1 Hm3)). destruct (negb _).
    + turn_steps. set (r4 := add_usage _ _ r3). eapply spec_mono; [by apply (fail_turn_spec adv (tools_seen r3))|].
      intros o r' Hx. apply Hran. eapply (turn_ended_after _ _ _ r4 _ _ [] []); try done.
      split; [by split; rewrite app_nil_r|by split_and!].
    + eapply spec_mono; [by apply check_calls_spec|]. intros o r' Hx. apply Hran. simpl in Hx. by rewrite Ha2 in Hx.
  - unfold after_stream. turn_steps. rewrite Htr, Hv. simpl. turn_steps. rewrite decide_True by (simpl; by rewrite Hs2).
    destruct (tv_committed _); turn_steps; (eapply pa_ran; [done|]);
      by eapply (stream_failed_ran adv r r1 r2 _ sr_interrupted true l).
  - unfold after_stream. turn_steps. rewrite Htr, Hv. simpl. turn_steps. rewrite decide_True by (simpl; by rewrite Hs2).
    destruct (tv_committed _); turn_steps; (eapply pa_ran; [done|]);
      eapply (stream_failed_ran adv r r1 r2 _ sr_error false l); try done; by rewrite app_nil_r.
Qed.
End Inv.
