(* ===== verification/TurnSpec.v ===== *)
(** * What a run of the turn runner guarantees

    Theorems about whole runs of [runTurn]: a run with a turn limit ends, its
    events are bracketed into numbered turns and report as many turns as the model
    was asked, only tool calls that were offered, checked and not repeated are
    executed, and every transcript sent to the model has all its tool calls
    answered. *)

From Stdlib Require Import QArith.
From S2P Require Import Prelude JsMap Text SessionRepair ToolArgs ConsumeStream TurnMachine TurnRunner TurnCalls TurnInv.

Local Open Scope string_scope.
Local Open Scope list_scope.
Local Open Scope Z_scope.

(** ** Logs *)

(** The protocol of the event stream. *)
Inductive Monitor : Type :=
  | mo_between (next : Z)
  | mo_started (i : Z)
  | mo_asked (i : Z)
  | mo_finished
  | mo_bad.

Definition watch (m : Monitor) (o : Obs) : Monitor :=
  match m, o with
  | mo_between i, ob_event (ee_turn_start j) => if decide (i = j) then mo_started i else mo_bad
  | mo_started i, ob_request _ _ => mo_asked i
  | mo_asked i, ob_event (ee_turn_end j) => if decide (i = j) then mo_between (i + 1) else mo_bad
  | (mo_between _ | mo_asked _), ob_event (ee_done _) => mo_finished
  | mo_asked _, (ob_request _ _ | ob_event (ee_turn_start _)) => mo_bad
  | mo_asked i, _ => mo_asked i
  | _, _ => mo_bad
  end.

Definition monitor (log : list Obs) : Monitor := foldl watch (mo_between 0) log.

(** A request to the model with what follows in its turn. *)
Record Segment : Type := mkSegment {
  sg_messages : list InboundMessage; sg_tools : list ToolDescriptor; sg_entries : list Obs
}.

Definition stops (o : Obs) : bool :=
  match o with ob_request _ _ | ob_event (ee_turn_start _) | ob_event (ee_done _) => true | _ => false end.

Fixpoint until_next (l : list Obs) : list Obs :=
  match l with
  | [] => []
  | o :: l => if stops o then [] else o :: until_next l
  end.

Fixpoint segments (l : list Obs) : list Segment :=
  match l with
  | [] => []
  | ob_request messages tools :: l => mkSegment messages tools (until_next l) :: segments l
  | _ :: l => segments l
  end.

Definition stopped_by (l : list Obs) : Prop := match l with [] => True | o :: _ => stops o = true end.

Lemma until_next_app l k : stopped_by k -> until_next (l ++ k) = until_next l.
Proof.
  intros Hk. induction l as [|o l IH]; simpl.
  - destruct k as [|o k]; [done|]. simpl in *. by rewrite Hk.
  - by destruct (stops o); rewrite ?IH.
Qed.

Lemma segments_app l k : stopped_by k -> segments (l ++ k) = segments l ++ segments k.
Proof.
  intros Hk. induction l as [|o l IH]; [done|]. simpl.
  destruct o; rewrite ?IH; try done. by rewrite until_next_app.
Qed.

Lemma inner_not_stop o : inner o -> stops o = false.
Proof. by destruct o as [| | |[]]. Qed.

Lemma segments_turn i T adv l closed : Forall inner l ->
  segments (turn_entries i T adv l closed) = [mkSegment T adv (l ++ (if closed then [ends_turn i] else []))].
Proof.
  intros Hi. unfold turn_entries. cbn [segments].
  assert (Hu : until_next (l ++ (if closed then [ends_turn i] else [])) = l ++ (if closed then [ends_turn i] else []) /\
    segments (l ++ (if closed then [ends_turn i] else [])) = []).
  { induction Hi as [|o l Ho _ [IH1 IH2]]; [by destruct closed|]. simpl. rewrite (inner_not_stop _ Ho), IH1. split; [done|].
    by destruct o as [| | |[]]. }
  destruct Hu as [-> ->]. done.
Qed.

Lemma monitor_app l k : monitor (l ++ k) = foldl watch (monitor l) k.
Proof. apply foldl_app. Qed.

Lemma watch_inner i l : Forall inner l -> foldl watch (mo_asked i) l = mo_asked i.
Proof. induction 1 as [|o l Ho _ IH]; [done|]. simpl. by destruct o as [| | |[]]. Qed.

Lemma watch_turn i T adv l closed : Forall inner l ->
  foldl watch (mo_between i) (turn_entries i T adv l closed) = if closed then mo_between (i + 1) else mo_asked i.
Proof.
  intros Hi. unfold turn_entries. simpl. rewrite decide_True by done. simpl. rewrite foldl_app, watch_inner by done.
  destruct closed; [|done]. simpl. by rewrite decide_True.
Qed.

Section Spec.
Context (JSON_parse : string -> Result json string) (Number : string -> option Q) (num_text : Q -> string).
Context (env : Env) (config : TurnRunnerConfig).
Abbreviation runTurn' := (runTurn JSON_parse Number num_text env config).
Abbreviation while' := (while JSON_parse Number num_text env config).

(** ** The turns of a run *)

Definition fresh_in (T : list InboundMessage) (calls : list AccumulatedToolCall) : Prop :=
  NoDup (tc_callId <$> calls) /\ forall id, id ∈ tc_callId <$> calls -> transcriptHasToolResult T id = false.

Definition within (i : Z) : Prop := forall n, rc_maxTurns config = Some n -> i < n.

Inductive turns_done : Z -> list Obs -> list InboundMessage -> Prop :=
  | td_none : turns_done 0 [] (rc_messages config)
  | td_turn i L T advertised l ms : turns_done i L T -> within i -> Forall inner l ->
      requests_ok num_text advertised (ended_calls l) l ->
      (fresh_in T (ended_calls l) -> closes (ended_calls l) ms) ->
      turns_done (i + 1) (L ++ turn_entries i T advertised l true) (T ++ ms).

(** A run that made [n] turns, before its [done]. *)
Inductive run_trace : Z -> list Obs -> Monitor -> Prop :=
  | rt_all n L T : turns_done n L T -> run_trace n L (mo_between n)
  | rt_last n L T advertised l closed : turns_done n L T -> within n -> Forall inner l ->
      requests_ok num_text advertised (ended_calls l) l ->
      run_trace (n + 1) (L ++ turn_entries n T advertised l closed) (if closed then mo_between (n + 1) else mo_asked n).

Record loop_inv (r : Run) : Prop := mkLoopInv {
  li_ready : ready env r;
  li_turns : turns_done (turn_index r) (r_log r) (r_transcript r);
  li_calls : ts_modelCalls (r_state r) = turn_index r;
  li_idle : phase_of r = tp_idle -> within (turn_index r)
}.

(** A pass of the loop that goes on, and one that ends the run. *)
Lemma pass_inv r o r' : loop_inv r -> passed num_text env config r r' o ->
  match o with
  | inl Next => loop_inv r' /\ turn_index r' = turn_index r + 1 \/ 
      ts_phase (r_state r') = tp_complete /\ is_Some (ts_stopReason (r_state r')) /\
      exists m, run_trace (ts_modelCalls (r_state r')) (r_log r') m
  | inl Break => ts_phase (r_state r') = tp_complete /\ is_Some (ts_stopReason (r_state r')) /\
      exists m, run_trace (ts_modelCalls (r_state r')) (r_log r') m
  | inr _ => is_Some (en_stopGate env) /\ exists n i, run_trace n (r_log r') (mo_asked i)
  end.
Proof.
  intros [Hrd Ht Hc Hidle] Hx. inversion Hx as [reason Hp Hs Hg|adv o' Hbud Hran]; subst.
  { rewrite Hs. destruct Hg as [Hl _]. rewrite app_nil_r in Hl. rewrite Hl. simpl. rewrite Hc. eauto 10 using rt_all. }
  assert (Hw : within (turn_index r)).
  { destruct (rd_phase _ _ Hrd) as [Hp|[Hp _]]; [|by apply Hidle]. intros n Hn. by apply Hbud. }
  inversion Hran as [l ms Hs Hb Hi [Hl Hm] Hq Hf|ctl closed reason l ms Hs Hi [Hl Hm] Hq _|e l ms Hi [Hl Hm] Hq Hgate]; subst.
  - left. split; [|unfold turn_index; by rewrite Hs]. split.
    + split; [left; unfold phase_of; by rewrite Hs|by rewrite Hs|done].
    + unfold turn_index at 1. rewrite Hs, Hl, Hm. by apply td_turn.
    + unfold turn_index in *. rewrite Hs. simpl. by rewrite Hc.
    + unfold phase_of. by rewrite Hs.
  - assert (Hend : ts_phase (r_state r') = tp_complete /\ is_Some (ts_stopReason (r_state r')) /\
      exists m, run_trace (ts_modelCalls (r_state r')) (r_log r') m).
    { rewrite Hs. split; [done|]. split; [by eexists|]. simpl. rewrite Hc, Hl. eexists. by apply rt_last. }
    destruct ctl; [by right|done].
  - split; [done|]. rewrite Hl. eexists _, _. by apply (rt_last _ _ _ _ _ false).
Qed.

Lemma pass_of r : loop_inv r -> passed num_text env config r (turn_body JSON_parse Number num_text env config r).2
  (turn_body JSON_parse Number num_text env config r).1.
Proof. intros H. apply (turn_body_spec JSON_parse Number num_text env config r), H. Qed.

Lemma not_complete r : loop_inv r -> ts_phase (r_state r) ≠ tp_complete.
Proof. intros [[[Hp|[Hp _]] _ _] _ _ _]; unfold phase_of in Hp; by rewrite Hp. Qed.

Lemma while_trace fuel : forall r o r', loop_inv r -> while' fuel r = Some (o, r') ->
  match o with
  | inl _ => ts_phase (r_state r') = tp_complete /\ is_Some (ts_stopReason (r_state r')) /\
      exists m, run_trace (ts_modelCalls (r_state r')) (r_log r') m
  | inr _ => is_Some (en_stopGate env) /\ exists n i, run_trace n (r_log r') (mo_asked i)
  end.
Proof.
  induction fuel as [|fuel IH]; intros r o r' Hinv; cbn [while]; rewrite decide_False by (by apply not_complete); [done|].
  pose proof (pass_inv _ _ _ Hinv (pass_of r Hinv)) as Hp.
  destruct (turn_body _ _ _ _ _ r) as [[[]|e] r1]; simpl in Hp; intros Hw; simplify_eq; [|done|done].
  destruct Hp as [[Hinv1 _]|Hend]; [by apply (IH r1)|].
  destruct fuel; cbn [while] in Hw; rewrite decide_True in Hw by apply Hend; by simplify_eq.
Qed.

Lemma while_ends n fuel : rc_maxTurns config = Some n -> forall r, loop_inv r ->
  (Z.to_nat (n - turn_index r) < fuel)%nat -> is_Some (while' fuel r).
Proof.
  intros Hn. induction fuel as [|fuel IH]; intros r Hinv Hlt; [lia|]. cbn [while]. rewrite decide_False by (by apply not_complete).
  pose proof (pass_of r Hinv) as Hpass. pose proof (pass_inv _ _ _ Hinv Hpass) as Hp.
  destruct (turn_body _ _ _ _ _ r) as [[[]|e] r1]; simpl in *; [|by eexists..].
  destruct Hp as [[Hinv1 Hi]|Hend].
  - apply IH; [done|]. assert (turn_index r < n); [|lia].
    inversion Hpass as [|adv o Hbud Hran]; subst. destruct (rd_phase _ _ (li_ready _ Hinv)) as [Hph|[Hph _]].
    + by apply Hbud.
    + by apply (li_idle _ Hinv).
  - destruct fuel; cbn [while]; rewrite decide_True by apply Hend; by eexists.
Qed.

(** ** Whole runs *)

Lemma preflight_ready :
  let r := preflight env config (initial_run (rc_messages config)) in
  loop_inv r \/ (ts_phase (r_state r) = tp_complete /\ is_Some (ts_stopReason (r_state r)) /\
    run_trace (ts_modelCalls (r_state r)) (r_log r) (mo_between 0)).
Proof.
  cbv zeta. unfold preflight. cbn [r_time initial_run]. fold (aborted_at env 0). destruct (aborted_at env 0) eqn:Hab.
  { right. simpl. split; [done|]. split; [by eexists|]. eapply rt_all, td_none. }
  simpl. destruct (match rc_maxTurns config with Some _ => _ | None => _ end) eqn:Hmax.
  { right. simpl. split; [done|]. split; [by eexists|]. eapply rt_all, td_none. }
  left. split; [|apply td_none|done|].
  - split; [by right|done|done].
  - intros _ n Hn. rewrite Hn in Hmax. by apply Z.leb_gt in Hmax.
Qed.

Lemma runTurn_trace fuel o r : runTurn' fuel = Some (o, r) ->
  match o with
  | inl _ => exists L out m, run_trace (me_turns (eo_metrics out)) L m /\ r_log r = L ++ [ob_event (ee_done out)]
  | inr _ => is_Some (en_stopGate env) /\ exists n i, run_trace n (r_log r) (mo_asked i)
  end.
Proof.
  unfold runTurn. destruct (while _ _ _ _ _ fuel _) as [[o' r']|] eqn:Hw; [|done].
  assert (H : match o' with
    | inl _ => ts_phase (r_state r') = tp_complete /\ is_Some (ts_stopReason (r_state r')) /\
        exists m, run_trace (ts_modelCalls (r_state r')) (r_log r') m
    | inr _ => is_Some (en_stopGate env) /\ exists n i, run_trace n (r_log r') (mo_asked i)
    end).
  { destruct preflight_ready as [Hinv|Hdone]; [by eapply while_trace|].
    destruct fuel; cbn [while] in Hw; rewrite decide_True in Hw by apply Hdone; simplify_eq/=;
      (split; [apply Hdone|]; split; [apply Hdone|]; eexists; apply Hdone). }
  destruct o' as [[]|e]; intros [=<- <-]; [|done]. destruct H as (_ & _ & m & Hm).
  eexists _, _, m. split; [|done]. exact Hm.
Qed.

Lemma turns_done_facts n L T : turns_done n L T ->
  monitor L = mo_between n /\ Z.of_nat (length (segments L)) = n /\
  Forall (fun sg => requests_ok num_text (sg_tools sg) (ended_calls (sg_entries sg)) (sg_entries sg)) (segments L) /\
  (forall m, rc_maxTurns config = Some m -> n <= Z.max 0 m).
Proof.
  induction 1 as [|i L T adv l ms _ (IHm & IHl & IHf & IHb) Hw Hi Hq _]; [by split_and!; try lia|].
  rewrite monitor_app, IHm, watch_turn, segments_app, segments_turn, length_app by done. split; [done|]. split; [simpl; lia|]. split.
  - apply Forall_app. split; [done|]. constructor; [|constructor]. simpl. unfold requests_ok in *.
    by rewrite ended_app, tool_requests_app, !app_nil_r.
  - intros m Hm. specialize (Hw m Hm). lia.
Qed.

Lemma run_trace_facts n L m : run_trace n L m ->
  monitor L = m /\ Z.of_nat (length (segments L)) = n /\
  Forall (fun sg => requests_ok num_text (sg_tools sg) (ended_calls (sg_entries sg)) (sg_entries sg)) (segments L) /\
  (forall k, rc_maxTurns config = Some k -> n <= Z.max 0 k).
Proof.
  destruct 1 as [n L T Hd|n L T adv l closed Hd Hw Hi Hq]; [by eapply turns_done_facts|].
  destruct (turns_done_facts _ _ _ Hd) as (Hm & Hl & Hf & Hb).
  rewrite monitor_app, Hm, watch_turn, segments_app, segments_turn, length_app by done. split; [done|]. split; [simpl; lia|]. split.
  - apply Forall_app. split; [done|]. constructor; [|constructor]. simpl. unfold requests_ok in *.
    by rewrite ended_app, tool_requests_app; destruct closed; rewrite !app_nil_r.
  - intros k Hk. specialize (Hw k Hk). lia.
Qed.

Lemma segments_done L out : segments (L ++ [ob_event (ee_done out)]) = segments L.
Proof. rewrite segments_app by done. apply app_nil_r. Qed.

(** The segments of a run are those of its trace. *)
Lemma run_segments fuel o r : runTurn' fuel = Some (o, r) ->
  exists n L m, run_trace n L m /\ segments (r_log r) = segments L /\ ended_calls (r_log r) = ended_calls L.
Proof.
  intros Hr. pose proof (runTurn_trace _ _ _ Hr) as H. destruct o as [[]|e].
  - destruct H as (L & out & m & Hm & ->). eexists _, L, m. split; [done|]. rewrite segments_done, ended_app. split; [done|]. apply app_nil_r.
  - destruct H as (_ & n & i & Hm). by eexists n, _, _.
Qed.

(** ** Transcripts *)

Definition answered_from (T : list InboundMessage) (calls : list AccumulatedToolCall) : Prop :=
  exists ms, T = rc_messages config ++ ms /\ settled ms /\
    forall id, transcriptHasToolResult ms id = true -> id ∈ tc_callId <$> calls.

Lemma turns_answered n L T : turns_done n L T -> NoDup (tc_callId <$> ended_calls L) ->
  (forall id, id ∈ tc_callId <$> ended_calls L -> transcriptHasToolResult (rc_messages config) id = false) ->
  answered_from T (ended_calls L) /\
  Forall (fun sg => exists calls, answered_from (sg_messages sg) calls) (segments L).
Proof.
  induction 1 as [|i L T adv l ms Hd IH Hw Hi Hq Hf]; intros Hn Hfresh.
  { split; [|constructor]. exists []. rewrite app_nil_r. split; [done|]. by split; [constructor|]. }
  assert (He : ended_calls (L ++ turn_entries i T adv l true) = ended_calls L ++ ended_calls l).
  { rewrite ended_app. f_equal. unfold turn_entries. simpl. rewrite ended_app. apply app_nil_r. }
  rewrite He. rewrite He, fmap_app in Hn. rewrite He, fmap_app in Hfresh. apply NoDup_app in Hn as (Hn1 & Hdisj & Hn2).
  destruct IH as [(ms0 & HT & Hs0 & Hr0) Hsegs]; [done|intros id Hid; apply Hfresh; set_solver|].
  assert (Hfr : fresh_in T (ended_calls l)).
  { split; [done|]. intros id Hid. rewrite HT, has_result_app, Hfresh by set_solver. simpl.
    destruct (transcriptHasToolResult ms0 id) eqn:Hres; [|done]. by destruct (Hdisj id (Hr0 _ Hres)). }
  destruct (Hf Hfr) as [Hs Hr]. split.
  - exists (ms0 ++ ms). rewrite HT, (assoc_L app). split; [done|]. split; [by apply settled_concat|].
    intros id. rewrite has_result_app, fmap_app. intros [H%Hr0|H%Hr]%orb_true_iff; set_solver.
  - rewrite segments_app, segments_turn by done. apply Forall_app. split; [done|]. constructor; [|constructor].
    exists (ended_calls L). by exists ms0.
Qed.

Lemma trace_answered n L m : run_trace n L m -> NoDup (tc_callId <$> ended_calls L) ->
  (forall id, id ∈ tc_callId <$> ended_calls L -> transcriptHasToolResult (rc_messages config) id = false) ->
  Forall (fun sg => exists calls, answered_from (sg_messages sg) calls) (segments L).
Proof.
  destruct 1 as [n L T Hd|n L T adv l closed Hd Hw Hi Hq]; intros Hn Hf; [by eapply turns_answered|].
  rewrite segments_app, segments_turn by done. rewrite ended_app, fmap_app in Hn, Hf. apply NoDup_app in Hn as (Hn & _ & _).
  destruct (turns_answered _ _ _ Hd Hn) as [HT Hsegs]; [intros id Hid; apply Hf; set_solver|].
  apply Forall_app. split; [done|]. constructor; [|constructor]. by exists (ended_calls L).
Qed.
End Spec.

(** ** Theorems *)

(** C28: a run with a turn limit ends, whatever the model, the tools, the gate and
    the signal do: [maxTurns + 1] passes of the loop are enough, the model is asked
    at most [maxTurns] times, and only the stop gate can make it throw - the turn
    machine never sees an invalid transition. *)
Theorem turn_limited_run_ends JSON_parse Number num_text env config n fuel :
  rc_maxTurns config = Some n -> (Z.to_nat n < fuel)%nat ->
  exists o r, runTurn JSON_parse Number num_text env config fuel = Some (o, r) /\
    Z.of_nat (length (segments (r_log r))) <= Z.max 0 n /\
    forall e, o = inr e -> is_Some (en_stopGate env).
Proof.
  intros Hn Hfuel. assert (Hends : is_Some (runTurn JSON_parse Number num_text env config fuel)).
  { pose proof (preflight_ready num_text env config) as Hpre. cbv zeta in Hpre. unfold runTurn. set (r0 := preflight _ _ _) in *.
    destruct Hpre as [Hinv|[Hc _]].
    - destruct (while_ends JSON_parse Number num_text env config n fuel Hn r0 Hinv) as [[[[]|e] r] ->]; [|by eexists..].
      assert (Hi : turn_index r0 = 0) by (unfold r0, preflight; repeat case_match; done). rewrite Hi. lia.
    - destruct fuel; [lia|]. cbn [while]. rewrite decide_True by done. by eexists. }
  destruct Hends as [[o r] Hr]. exists o, r. split; [done|]. split.
  - destruct (run_segments JSON_parse Number num_text env config fuel o r Hr) as (k & L & m & Hm & -> & _).
    destruct (run_trace_facts _ _ _ _ _ Hm) as (_ & Hl & _ & Hb). rewrite Hl. by apply Hb.
  - intros e ->. by destruct (runTurn_trace JSON_parse Number num_text env config fuel _ r Hr).
Qed.

(** C29: the events of a run follow the protocol: turns are numbered from 0, each is
    opened, asks the model exactly once and is closed before the next one opens;
    [done] comes last, once, and reports as many turns as the model was asked.  A
    run that throws stops inside a turn. *)
Theorem run_is_bracketed JSON_parse Number num_text env config fuel o r :
  runTurn JSON_parse Number num_text env config fuel = Some (o, r) ->
  match o with
  | inl _ => monitor (r_log r) = mo_finished /\
      exists L out, r_log r = L ++ [ob_event (ee_done out)] /\ me_turns (eo_metrics out) = Z.of_nat (length (segments L))
  | inr _ => exists i, monitor (r_log r) = mo_asked i
  end.
Proof.
  intros Hr. pose proof (runTurn_trace JSON_parse Number num_text env config fuel o r Hr) as H. destruct o as [[]|e].
  - destruct H as (L & out & m & Hm & Hl). destruct (run_trace_facts _ _ _ _ _ Hm) as (Hmon & Hlen & _).
    split; [|by exists L, out]. rewrite Hl, monitor_app, Hmon. simpl. by inversion Hm as [|? ? ? ? ? []].
  - destruct H as (_ & n & i & Hm). exists i. by destruct (run_trace_facts _ _ _ _ _ Hm) as (Hmon & _).
Qed.

(** C30: every tool request of a run is a call the model made in the answer just
    received, for a tool that was offered to it with that request, with arguments
    its schema accepts; and no two requests of a turn have the same tool and the
    same canonical arguments. *)
Theorem run_executes_permitted JSON_parse Number num_text env config fuel o r :
  runTurn JSON_parse Number num_text env config fuel = Some (o, r) ->
  Forall (fun sg =>
    Forall (permitted num_text (sg_tools sg) (ended_calls (sg_entries sg))) (tool_requests (sg_entries sg)) /\
    NoDup (request_key num_text <$> tool_requests (sg_entries sg))) (segments (r_log r)).
Proof.
  intros Hr. destruct (run_segments JSON_parse Number num_text env config fuel o r Hr) as (k & L & m & Hm & -> & _).
  by destruct (run_trace_facts _ _ _ _ _ Hm) as (_ & _ & Hf & _).
Qed.

(** C31: if the model never uses a call id twice, every transcript it is sent is the
    initial one followed by messages in which each announced call has exactly one
    result, right after the announcement - executed, repeated, blocked, rejected by
    its schema or failed alike. *)
Theorem run_answers_calls JSON_parse Number num_text env config fuel o r :
  runTurn JSON_parse Number num_text env config fuel = Some (o, r) ->
  NoDup (tc_callId <$> ended_calls (r_log r)) ->
  (forall id, id ∈ tc_callId <$> ended_calls (r_log r) -> transcriptHasToolResult (rc_messages config) id = false) ->
  Forall (fun sg => exists ms, sg_messages sg = rc_messages config ++ ms /\ settled ms) (segments (r_log r)).
Proof.
  intros Hr Hn Hf. destruct (run_segments JSON_parse Number num_text env config fuel o r Hr) as (k & L & m & Hm & Hs & He).
  rewrite Hs. rewrite He in Hn, Hf. eapply Forall_impl; [by eapply trace_answered|].
  intros sg (calls & ms & H1 & H2 & _). by exists ms.
Qed.

(** ** Sample runs *)

Section Sample.

Definition sample_parse (s : string) : Result json string :=
  if decide (s = "{}") then Ok (J_obj []) else if decide (s = "{x}") then Ok (J_obj [("x", J_null)]) else Err "bad".

Definition sample_call (id args : string) : list Pull :=
  pull_chunk <$> [mc_tool_call_start "read" id; mc_tool_call_delta id args; mc_tool_call_end id].

Definition sample_answers (answers : list (list Pull)) (messages : list InboundMessage) : list Pull :=
  nth (length (filter (fun m => im_senderId m = "assistant") messages)) answers
    [pull_chunk (mc_text_delta "ok"); pull_chunk (mc_done (mkResponse "ok" None None (Some ms_stop)))].

Definition tool_use : list Pull := [pull_chunk (mc_done (mkResponse "" None None (Some ms_tool_use)))].

(** A tool that fails unless it gets no arguments. *)
Definition sample_env (answers : list (list Pull)) : Env :=
  mkEnv (fun _ => [mkDescriptor "read" []]) (Some (fun _ messages _ => Ok (sample_answers answers messages)))
    (fun _ _ _ => Err "unused")
    (fun _ q => match tq_input q with [] => Ok (out_value (JStr "text")) | _ => Err (mkExn "no such file" false) end)
    None None (fun _ => 0) (fun _ => 0).

Definition sample_config : TurnRunnerConfig := mkRunConfig [] (Some 3) None None None.

Definition sample_result (answers : list (list Pull)) : option ((unit + Exn) * Run) :=
  runTurn sample_parse (fun _ => None) (fun _ => "0") (sample_env answers) sample_config 4.

Definition sample_run (answers : list (list Pull)) : Run :=
  match sample_result answers with Some (_, r) => r | None => initial_run [] end.

(** Two equal calls, then one that fails. *)
Definition two_turns : list (list Pull) :=
  [sample_call "c1" "{}" ++ sample_call "c2" "{}" ++ tool_use; sample_call "c3" "{x}" ++ tool_use].

Lemma two_turns_result :
  runTurn sample_parse (fun _ => None) (fun _ => "0") (sample_env two_turns) sample_config 4 = Some (inl tt, sample_run two_turns).
Proof. vm_compute. reflexivity. Qed.

Lemma two_turns_requests :
  tool_requests (r_log (sample_run two_turns)) = [mkToolRequest "read" [] "c1"; mkToolRequest "read" [("x", J_null)] "c3"].
Proof. vm_compute. reflexivity. Qed.

Lemma turn_limited_run_ends_witness :
  exists o r, sample_result two_turns = Some (o, r) /\ Z.of_nat (length (segments (r_log r))) <= 3 /\
    forall e, o = inr e -> is_Some (en_stopGate (sample_env two_turns)).
Proof.
  exact (turn_limited_run_ends sample_parse (fun _ => None) (fun _ => "0") (sample_env two_turns) sample_config 3 4
    eq_refl (le_n 4)).
Defined.

Lemma run_is_bracketed_witness :
  monitor (r_log (sample_run two_turns)) = mo_finished /\
  exists L out, r_log (sample_run two_turns) = L ++ [ob_event (ee_done out)] /\
    me_turns (eo_metrics out) = Z.of_nat (length (segments L)).
Proof.
  exact (run_is_bracketed sample_parse (fun _ => None) (fun _ => "0") (sample_env two_turns) sample_config 4 (inl tt)
    (sample_run two_turns) two_turns_result).
Defined.

Lemma run_executes_permitted_witness :
  Forall (fun sg =>
    Forall (permitted (fun _ => "0") (sg_tools sg) (ended_calls (sg_entries sg))) (tool_requests (sg_entries sg)) /\
    NoDup (request_key (fun _ => "0") <$> tool_requests (sg_entries sg))) (segments (r_log (sample_run two_turns))).
Proof.
  exact (run_executes_permitted sample_parse (fun _ => None) (fun _ => "0") (sample_env two_turns) sample_config 4 (inl tt)
    (sample_run two_turns) two_turns_result).
Defined.

Lemma two_turns_ids : tc_callId <$> ended_calls (r_log (sample_run two_turns)) = ["c1"; "c2"; "c3"].
Proof. vm_compute. reflexivity. Qed.

Lemma two_turns_distinct : NoDup (tc_callId <$> ended_calls (r_log (sample_run two_turns))).
Proof. rewrite two_turns_ids. apply NoDup_ListNoDup. repeat constructor; simpl; intuition discriminate. Qed.

Lemma run_answers_calls_witness :
  Forall (fun sg => exists ms, sg_messages sg = rc_messages sample_config ++ ms /\ settled ms)
    (segments (r_log (sample_run two_turns))).
Proof.
  exact (run_answers_calls sample_parse (fun _ => None) (fun _ => "0") (sample_env two_turns) sample_config 4 (inl tt)
    (sample_run two_turns) two_turns_result two_turns_distinct (fun _ _ => eq_refl)).
Defined.

(** The same run with one call id used in both turns: the failed call of the
    second turn is taken for answered, and the last request announces a call
    without a result. *)
Definition reused_id : list (list Pull) := [sample_call "c1" "{}" ++ tool_use; sample_call "c1" "{x}" ++ tool_use].

Lemma reused_call_id_unanswered :
  (fun sg => (fun m => (im_senderId m, call_ids m)) <$> last (sg_messages sg)) <$> segments (r_log (sample_run reused_id)) =
  [None; Some ("tool", ["c1"]); Some ("assistant", ["c1"])].
Proof. vm_compute. reflexivity. Qed.
End Sample.
