(* ===== verification/EditDistance.v ===== *)
(** * Edit distance

    [lib/edit-match/src/levenshtein.ts], [computeLevenshtein]: the distance of two
    strings by dynamic programming over a single row, with a bound beyond which
    the exact value does not matter.  It is compared with the number of edits. *)

From Stdlib Require Import Ascii.
From S2P Require Import Prelude Text.

Local Open Scope list_scope.
Local Open Scope Z_scope.

(** ** The code *)

(** The inner loop: [cells] are the entries of the row still to be updated,
    [prev] the old and [left] the new value of the entry before them. *)
Fixpoint fill (c : ascii) (short : text) (cells : list Z) (prev left rowMin : Z) : list Z * Z :=
  match short, cells with
  | x :: short, up :: cells =>
      let cost := if decide (x = c) then 0 else 1 in
      let current := Z.min (Z.min (up + 1) (left + 1)) (prev + cost) in
      let '(row, rowMin) := fill c short cells up current (if current <? rowMin then current else rowMin) in
      (current :: row, rowMin)
  | _, _ => ([], rowMin)
  end.

(** The outer loop, from column [j]. *)
Fixpoint columns (short : text) (maxDistance j : Z) (long : text) (row : list Z) : Z :=
  match long with
  | [] => default 0 (row !! length short)
  | c :: long =>
      let '(cells, rowMin) := fill c short (tail row) (default 0 (head row)) j j in
      if maxDistance <? rowMin then maxDistance + 1 else columns short maxDistance (j + 1) long (j :: cells)
  end.

Definition computeLevenshtein (a b : text) (maxDistance : Z) : Z :=
  let m := Z.of_nat (length a) in
  let n := Z.of_nat (length b) in
  if maxDistance <? Z.abs (m - n) then maxDistance + 1
  else
    let '(short, long) := if m <=? n then (a, b) else (b, a) in
    columns short maxDistance 1 long (seqZ 0 (Z.of_nat (length short) + 1)).

(** ** Edits *)

(** One character inserted, deleted or replaced. *)
Inductive edit : text -> text -> Prop :=
  | ed_insert l k x : edit (l ++ k) (l ++ x :: k)
  | ed_delete l k x : edit (l ++ x :: k) (l ++ k)
  | ed_replace l k x y : edit (l ++ x :: k) (l ++ y :: k).

Definition edit_distance (a b : text) (n : nat) : Prop :=
  nsteps edit n a b /\ forall m, nsteps edit m a b -> (n <= m)%nat.

(** Alignments: edits made in order from left to right, with their number. *)
Definition cost (x y : ascii) : nat := if decide (x = y) then 0 else 1.

Inductive align : text -> text -> nat -> Prop :=
  | al_nil : align [] [] 0
  | al_delete a b n x : align a b n -> align (a ++ [x]) b (S n)
  | al_insert a b n y : align a b n -> align a (b ++ [y]) (S n)
  | al_match a b n x y : align a b n -> align (a ++ [x]) (b ++ [y]) (n + cost x y).

Lemma align_nil_inv b n : align [] b n -> (length b <= n)%nat.
Proof.
  remember [] as a eqn:Ha. intros H. revert Ha. induction H as [|a b n x _ _|a b n y _ IH|a b n x y _ _]; intros Ha; [done| | |].
  - by apply app_nil in Ha as [_ ?].
  - rewrite length_app. specialize (IH Ha). simpl. lia.
  - by apply app_nil in Ha as [_ ?].
Qed.

Lemma align_snoc_inv a x b n : align (a ++ [x]) b n ->
  (exists m, n = S m /\ align a b m) \/
  (exists b' y, b = b' ++ [y] /\
    ((exists m, n = S m /\ align (a ++ [x]) b' m) \/ (exists m, n = (m + cost x y)%nat /\ align a b' m))).
Proof.
  intros H. inversion H as [Ha|a' b' m x' Hal Ha|a' b' m y Hal Ha|a' b' m x' y Hal Ha]; subst.
  - by destruct a.
  - apply app_inj_tail in Ha as [-> ->]. left. eauto.
  - right. eauto 10.
  - apply app_inj_tail in Ha as [-> ->]. right. eauto 10.
Qed.

Lemma align_sym a b n : align a b n -> align b a n.
Proof.
  induction 1 as [| | |a b n x y _ IH]; [by constructor..|].
  replace (cost x y) with (cost y x); [by constructor|]. unfold cost. by repeat case_decide.
Qed.

Lemma align_delete_all a : align a [] (length a).
Proof.
  induction a as [|x a IH] using rev_ind; [constructor|]. rewrite length_app. simpl. rewrite Nat.add_1_r. by constructor.
Qed.

Lemma align_refl a : align a a 0.
Proof.
  induction a as [|x a IH] using rev_ind; [constructor|]. assert (H := al_match _ _ _ x x IH). unfold cost in H.
  by rewrite decide_True in H.
Qed.

Lemma align_length a b n : align a b n -> (length a <= length b + n /\ length b <= length a + n)%nat.
Proof. induction 1; rewrite ?length_app; simpl; lia. Qed.

(** ** Alignments and edits *)

Lemma edit_app a b k : edit a b -> edit (a ++ k) (b ++ k).
Proof.
  intros []; rewrite <-!(assoc_L app); [apply (ed_insert l (k0 ++ k))|apply (ed_delete l (k0 ++ k))|apply (ed_replace l (k0 ++ k))].
Qed.

Lemma align_edits a b n : align a b n -> exists m, (m <= n)%nat /\ nsteps edit m a b.
Proof.
  induction 1 as [|a b n x _ (m & Hm & IH)|a b n y _ (m & Hm & IH)|a b n x y _ (m & Hm & IH)].
  - exists 0%nat. split; [done|constructor].
  - exists (S m). split; [lia|]. apply (nsteps_l _ _ _ a); [|done]. rewrite <-(app_nil_r a) at 2. apply ed_delete.
  - exists (S m). split; [lia|]. eapply nsteps_r; [done|]. rewrite <-(app_nil_r b) at 1. apply ed_insert.
  - assert (Hk : nsteps edit m (a ++ [y]) (b ++ [y])).
    { clear -IH. induction IH as [|m a c b Hs _ IH]; [constructor|]. apply (nsteps_l _ _ _ (c ++ [y])); [by apply edit_app|done]. }
    unfold cost. case_decide as Hxy.
    + subst y. exists m. split; [lia|done].
    + exists (S m). split; [lia|]. by apply (nsteps_l _ _ _ (a ++ [y])); [apply ed_replace|].
Qed.

(** An edit changes the alignments by at most one. *)
Definition near (a a' : text) : Prop := forall b n, align a' b n -> exists m, (m <= S n)%nat /\ align a b m.

Lemma near_insert a x : near a (a ++ [x]).
Proof.
  intros b. induction b as [|y b IH] using rev_ind; intros n [(m & -> & H)|(b' & y' & Hb & [(m & -> & H)|(m & -> & H)])]%align_snoc_inv.
  - exists m. split; [lia|done].
  - by destruct b'.
  - by destruct b'.
  - exists m. split; [lia|done].
  - apply app_inj_tail in Hb as [<- <-]. destruct (IH _ H) as (k & Hk & Hal). exists (S k). split; [lia|by constructor].
  - apply app_inj_tail in Hb as [<- <-]. exists (S m). split; [lia|by constructor].
Qed.

Lemma near_delete a x : near (a ++ [x]) a.
Proof. intros b n H. exists (S n). split; [done|by constructor]. Qed.

Lemma near_replace a x y : near (a ++ [x]) (a ++ [y]).
Proof.
  intros b. induction b as [|z b IH] using rev_ind; intros n [(m & -> & H)|(b' & z' & Hb & [(m & -> & H)|(m & -> & H)])]%align_snoc_inv.
  - exists (S m). split; [lia|by constructor].
  - by destruct b'.
  - by destruct b'.
  - exists (S m). split; [lia|by constructor].
  - apply app_inj_tail in Hb as [<- <-]. destruct (IH _ H) as (k & Hk & Hal). exists (S k). split; [lia|by constructor].
  - apply app_inj_tail in Hb as [<- <-]. exists (m + cost x z)%nat. split; [unfold cost; repeat case_decide; lia|by constructor].
Qed.

Lemma near_snoc a a' x : near a a' -> near (a ++ [x]) (a' ++ [x]).
Proof.
  intros Hn b. induction b as [|z b IH] using rev_ind; intros n [(m & -> & H)|(b' & z' & Hb & [(m & -> & H)|(m & -> & H)])]%align_snoc_inv.
  - destruct (Hn _ _ H) as (k & Hk & Hal). exists (S k). split; [lia|by constructor].
  - by destruct b'.
  - by destruct b'.
  - destruct (Hn _ _ H) as (k & Hk & Hal). exists (S k). split; [lia|by constructor].
  - apply app_inj_tail in Hb as [<- <-]. destruct (IH _ H) as (k & Hk & Hal). exists (S k). split; [lia|by constructor].
  - apply app_inj_tail in Hb as [<- <-]. destruct (Hn _ _ H) as (k & Hk & Hal). exists (k + cost x z)%nat. split; [lia|by constructor].
Qed.

Lemma near_app a a' k : near a a' -> near (a ++ k) (a' ++ k).
Proof.
  intros Hn. induction k as [|x k IH] using rev_ind; [by rewrite !app_nil_r|]. rewrite !(assoc_L app). by apply near_snoc.
Qed.

Lemma edit_near a a' : edit a a' -> near a a'.
Proof.
  assert (Hsplit : forall l x (k : text), l ++ x :: k = (l ++ [x]) ++ k) by (intros; by rewrite <-(assoc_L app)).
  intros [l k x|l k x|l k x y].
  - rewrite (Hsplit l x k). apply near_app, near_insert.
  - rewrite (Hsplit l x k). apply near_app, near_delete.
  - rewrite (Hsplit l x k), (Hsplit l y k). apply near_app, near_replace.
Qed.

Lemma edits_align a b n : nsteps edit n a b -> exists m, (m <= n)%nat /\ align a b m.
Proof.
  induction 1 as [a|n a c b Hs _ (m & Hm & IH)]; [exists 0%nat; split; [done|apply align_refl]|].
  destruct (edit_near _ _ Hs _ _ IH) as (k & Hk & Hal). exists k. split; [lia|done].
Qed.

(** ** The least alignment *)

Definition best (a b : text) (n : nat) : Prop := align a b n /\ forall m, align a b m -> (n <= m)%nat.

Lemma best_edits a b n : best a b n -> edit_distance a b n.
Proof.
  intros [Hal Hmin]. destruct (align_edits _ _ _ Hal) as (m & Hm & Hs). destruct (edits_align _ _ _ Hs) as (k & Hk & Hal').
  assert (m = n) as -> by (specialize (Hmin _ Hal'); lia). split; [done|]. intros j Hj.
  destruct (edits_align _ _ _ Hj) as (i & Hi & Hali). specialize (Hmin _ Hali). lia.
Qed.

Lemma best_sym a b n : best a b n -> best b a n.
Proof. intros [Ha Hm]. split; [by apply align_sym|]. intros m H. by apply Hm, align_sym. Qed.

Lemma best_nil_r a : best a [] (length a).
Proof. split; [apply align_delete_all|]. intros m H%align_length. simpl in H. lia. Qed.

Lemma best_nil_l b : best [] b (length b).
Proof. apply best_sym, best_nil_r. Qed.

Lemma best_step a b x y diag up left : best a b diag -> best (a ++ [x]) b up -> best a (b ++ [y]) left ->
  best (a ++ [x]) (b ++ [y]) (Nat.min (Nat.min (S up) (S left)) (diag + cost x y)).
Proof.
  intros [Hd Hdm] [Hu Hum] [Hl Hlm]. split.
  - destruct (Nat.min_spec (Nat.min (S up) (S left)) (diag + cost x y)) as [[_ ->]|[_ ->]]; [|by constructor].
    destruct (Nat.min_spec (S up) (S left)) as [[_ ->]|[_ ->]]; by constructor.
  - intros m [(k & -> & H)|(b' & y' & Hb & [(k & -> & H)|(k & -> & H)])]%align_snoc_inv.
    + specialize (Hlm _ H). lia.
    + apply app_inj_tail in Hb as [<- <-]. specialize (Hum _ H). lia.
    + apply app_inj_tail in Hb as [<- <-]. specialize (Hdm _ H). lia.
Qed.

(** ** Rows *)

(** [cells] are the distances of [q] to the prefixes of the short string that
    are longer than [p], [short] being the rest of it. *)
Inductive row_from (q : text) : text -> text -> list Z -> Prop :=
  | rf_nil p : row_from q p [] []
  | rf_cons p x short n cells : best (p ++ [x]) q n -> row_from q (p ++ [x]) short cells ->
      row_from q p (x :: short) (Z.of_nat n :: cells).

Lemma fill_spec q c short : forall p cells diag left rowMin,
  best p q diag -> best p (q ++ [c]) left -> row_from q p short cells ->
  let '(row, m) := fill c short cells (Z.of_nat diag) (Z.of_nat left) rowMin in
  row_from (q ++ [c]) p short row /\ m <= rowMin /\ Forall (fun v => m <= v) row.
Proof.
  induction short as [|x short IH]; intros p cells diag left rowMin Hd Hl Hr; cbn [fill].
  { split; [constructor|]. split; [done|constructor]. }
  inversion Hr as [|p' x' short' up cells' Hu Hr']; subst.
  pose proof (best_step _ _ x c _ _ _ Hd Hu Hl) as Hb.
  set (current := Z.min _ _).
  assert (Hc : current = Z.of_nat (Nat.min (Nat.min (S up) (S left)) (diag + cost x c))).
  { unfold current, cost. case_decide; lia. }
  rewrite Hc. set (m1 := if _ <? _ then _ else _).
  specialize (IH (p ++ [x]) cells' up _ m1 Hu Hb Hr'). destruct (fill _ _ _ _ _ m1) as [row m]. destruct IH as (Hrow & Hm & Hall).
  assert (Hle : m1 <= rowMin /\ m1 <= Z.of_nat (Nat.min (Nat.min (S up) (S left)) (diag + cost x c))).
  { unfold m1. destruct (Z.ltb_spec (Z.of_nat (Nat.min (Nat.min (S up) (S left)) (diag + cost x c))) rowMin); lia. }
  split; [by constructor|]. split; [lia|]. constructor; [lia|done].
Qed.

Lemma row_last q short : forall p cells d, row_from q p short cells -> best p q d ->
  exists n, (Z.of_nat d :: cells) !! length short = Some (Z.of_nat n) /\ best (p ++ short) q n.
Proof.
  induction short as [|x short IH]; intros p cells d Hr Hd; inversion Hr as [|p' x' short' n cells' Hn Hr']; subst.
  - exists d. by rewrite app_nil_r.
  - destruct (IH _ _ n Hr' Hn) as (k & Hk & Hb). exists k. simpl. split; [exact Hk|]. by rewrite <-(assoc_L app) in Hb.
Qed.

Lemma seqZ_row short : forall p, row_from [] p short (seqZ (Z.of_nat (length p) + 1) (Z.of_nat (length short))).
Proof.
  induction short as [|x short IH]; intros p; [constructor|].
  rewrite seqZ_cons by (simpl; lia). replace (Z.of_nat (length p) + 1) with (Z.of_nat (length (p ++ [x]))) by (rewrite length_app; simpl; lia).
  constructor; [apply best_nil_r|]. specialize (IH (p ++ [x])).
  replace (Z.pred (Z.of_nat (length (x :: short)))) with (Z.of_nat (length short)) by (simpl; lia). by rewrite Z.add_1_r in IH.
Qed.

(** Every alignment passes through each column. *)
Lemma align_column a b y n : align a (b ++ [y]) n -> exists p k m, a = p ++ k /\ (m <= n)%nat /\ align p b m.
Proof.
  remember (b ++ [y]) as b' eqn:Hb. intros H. revert Hb. induction H as [|a b' n x _ IH|a b' n z H _|a b' n x z H _]; intros Hb.
  - by destruct b.
  - destruct (IH Hb) as (p & k & m & -> & Hm & Hal). exists p, (k ++ [x]), m. rewrite (assoc_L app). split; [done|]. split; [lia|done].
  - apply app_inj_tail in Hb as [-> _]. exists a, [], n. rewrite app_nil_r. split; [done|]. split; [lia|done].
  - apply app_inj_tail in Hb as [-> _]. exists a, [x], n. split; [done|]. split; [lia|done].
Qed.

Lemma align_through a q r n : align a (q ++ r) n -> exists p k m, a = p ++ k /\ (m <= n)%nat /\ align p q m.
Proof.
  revert a n. induction r as [|y r IH] using rev_ind; intros a n H.
  - rewrite app_nil_r in H. exists a, [], n. by rewrite app_nil_r.
  - rewrite (assoc_L app) in H. destruct (align_column _ _ _ _ H) as (p & k & m & -> & Hm & Hal).
    destruct (IH _ _ Hal) as (p' & k' & m' & -> & Hm' & Hal'). exists p', (k' ++ k), m'. rewrite (assoc_L app).
    split; [done|]. split; [lia|done].
Qed.

(** The prefixes of a row are bounded below by its minimum. *)
Lemma row_bound q short : forall p cells (m : Z), row_from q p short cells -> Forall (fun v => m <= v) cells ->
  (forall j, align p q j -> m <= Z.of_nat j) ->
  forall k s n, short = k ++ s -> align (p ++ k) q n -> m <= Z.of_nat n.
Proof.
  induction short as [|x short IH]; intros p cells m Hr Hall Hp k s n Hk Hal; inversion Hr as [|p' x' short' d cells' Hd Hr']; subst.
  - destruct k; [|done]. rewrite app_nil_r in Hal. auto.
  - inversion Hall as [|v cs Hv Hall']; subst. destruct k as [|y k]; [rewrite app_nil_r in Hal; auto|]. injection Hk as <- ->.
    apply (IH (p ++ [x]) cells' m Hr' Hall') with (k := k) (s := s); [|done|by rewrite <-(assoc_L app)].
    intros j Hj. apply (proj2 Hd) in Hj. lia.
Qed.

Lemma columns_spec short maxDistance long : forall q cells,
  row_from q [] short cells ->
  exists n, best short (q ++ long) n /\
    let d := columns short maxDistance (Z.of_nat (length q) + 1) long (Z.of_nat (length q) :: cells) in
    d = Z.of_nat n \/ (d = maxDistance + 1 /\ maxDistance < Z.of_nat n).
Proof.
  induction long as [|c long IH]; intros q cells Hr; cbn [columns].
  - destruct (row_last q short [] cells _ Hr (best_nil_l q)) as (n & -> & Hb). exists n. rewrite app_nil_r. by split; [|left].
  - cbn [tail head]. cbn [default].
    assert (Hl : Z.of_nat (length q) + 1 = Z.of_nat (length (q ++ [c]))) by (rewrite length_app; simpl; lia).
    rewrite Hl.
    pose proof (fill_spec q c short [] cells _ _ (Z.of_nat (length (q ++ [c]))) (best_nil_l q) (best_nil_l (q ++ [c])) Hr) as Hf.
    change (default 0 (Some (Z.of_nat (length q)))) with (Z.of_nat (length q)).
    destruct (fill _ _ _ _ _ _) as [row m]. destruct Hf as (Hrow & Hm & Hall).
    destruct (IH (q ++ [c]) row Hrow) as (n & Hb & Hd). rewrite <-(assoc_L app) in Hb. exists n. split; [done|].
    destruct (Z.ltb_spec maxDistance m) as [Hlt|_]; [|done]. right. split; [done|].
    destruct Hb as [Hal _]. assert (Hq : q ++ [c] ++ long = (q ++ [c]) ++ long) by apply (assoc_L app).
    rewrite Hq in Hal. destruct (align_through _ _ _ _ Hal) as (p & k & j & -> & Hj & Hal').
    pose proof (row_bound _ _ [] _ m Hrow Hall) as Hbound.
    specialize (Hbound (fun i Hi => ltac:(apply align_nil_inv in Hi; lia)) p k j eq_refl Hal'). lia.
Qed.

Lemma columns_best short long maxDistance :
  exists n, best short long n /\
    let d := columns short maxDistance 1 long (seqZ 0 (Z.of_nat (length short) + 1)) in
    d = Z.of_nat n \/ (d = maxDistance + 1 /\ maxDistance < Z.of_nat n).
Proof.
  pose proof (columns_spec short maxDistance long [] _ (seqZ_row short [])) as H. simpl in H.
  rewrite seqZ_cons by lia. by replace (Z.pred (Z.of_nat (length short) + 1)) with (Z.of_nat (length short)) by lia.
Qed.

Lemma levenshtein_cases a b maxDistance :
  exists n, edit_distance a b n /\
    (computeLevenshtein a b maxDistance = Z.of_nat n \/
     computeLevenshtein a b maxDistance = maxDistance + 1 /\ maxDistance < Z.of_nat n).
Proof.
  unfold computeLevenshtein. destruct (Z.leb_spec (Z.of_nat (length a)) (Z.of_nat (length b))).
  - destruct (columns_best a b maxDistance) as (n & Hb & Hd). exists n. split; [by apply best_edits|].
    destruct (Z.ltb_spec maxDistance (Z.abs (Z.of_nat (length a) - Z.of_nat (length b)))); [|exact Hd].
    right. destruct Hb as [Hal%align_length _]. split; [done|lia].
  - destruct (columns_best b a maxDistance) as (n & Hb & Hd). exists n. split; [by apply best_edits, best_sym|].
    destruct (Z.ltb_spec maxDistance (Z.abs (Z.of_nat (length a) - Z.of_nat (length b)))); [|exact Hd].
    right. destruct Hb as [Hal%align_length _]. split; [done|lia].
Qed.

(** C34: for every two strings there is a least number of single-character
    insertions, deletions and replacements that turns one into the other, and
    [computeLevenshtein] returns it when it is within the bound; otherwise it
    returns a number above the bound and not above the distance. *)
Theorem levenshtein_exact a b maxDistance :
  exists n, edit_distance a b n /\
    (Z.of_nat n <= maxDistance -> computeLevenshtein a b maxDistance = Z.of_nat n) /\
    (maxDistance < Z.of_nat n -> maxDistance < computeLevenshtein a b maxDistance <= Z.of_nat n).
Proof.
  destruct (levenshtein_cases a b maxDistance) as (n & Hn & Hd). exists n. split; [done|]. lia.
Qed.
