(* ===== verification/EditMatch.v ===== *)
(** * Finding the place of an edit

    [lib/edit-match/src]: [normalize.ts], the four strategies of
    [strategies.ts], the sliding window of [levenshtein.ts] and [cascade.ts].
    An edit gives a block of text to search for and its replacement; the
    strategies go from the exact text to a fuzzy match of whole lines.
    Similarities are rationals. *)

From Stdlib Require Import Ascii QArith Qround Lqa.
From S2P Require Import Prelude Text EditDistance.

Local Open Scope list_scope.
Local Open Scope nat_scope.

(** ** normalize.ts *)

Definition nl : ascii := "010"%char.

(** [\s], among the characters up to 255. *)
Definition is_space (c : ascii) : bool :=
  let n := nat_of_ascii c in ((9 <=? n) && (n <=? 13)) || (n =? 32) || (n =? 160).

Fixpoint trimStart (s : text) : text :=
  match s with
  | c :: s' => if is_space c then trimStart s' else s
  | [] => []
  end.

Definition trim (s : text) : text := rev (trimStart (rev (trimStart s))).

(** [replace(/\s+/g, " ")]; the flag says that the character before was a space. *)
Fixpoint collapse (after_space : bool) (s : text) : text :=
  match s with
  | [] => []
  | c :: s =>
      if is_space c then (if after_space then collapse true s else " "%char :: collapse true s)
      else c :: collapse false s
  end.

Definition normalizeWhitespace (s : text) : text := trim (collapse false s).

(** The length of the leading white space. *)
Fixpoint indent (s : text) : nat :=
  match s with
  | c :: s => if is_space c then S (indent s) else 0
  | [] => 0
  end.

Definition not_blank (line : text) : Prop := trim line ≠ [].

Definition min_of (l : list nat) : nat := match l with [] => 0 | x :: l => foldr Nat.min x l end.

Definition normalizeIndentation (s : text) : text :=
  let lines := split nl s in
  let nonEmptyLines := filter not_blank lines in
  match nonEmptyLines with
  | [] => s
  | _ =>
      let minIndent := min_of (indent <$> nonEmptyLines) in
      if decide (minIndent = 0) then s
      else join nl ((fun line => if decide (not_blank line) then drop minIndent line else line) <$> lines)
  end.

(** ** strategies.ts *)

Inductive MatchStrategy : Type := ms_exact | ms_whitespace | ms_indentation | ms_fuzzy.

Record MatchResult : Type := mkMatch {
  mr_startIndex : nat; mr_endIndex : nat; mr_strategy : MatchStrategy; mr_confidence : Q
}.

Fixpoint find (p s : text) : option nat :=
  if starts_with p s then Some 0 else match s with [] => None | _ :: s => S <$> find p s end.

(** [source.indexOf(search, from)] *)
Definition indexOfFrom (source search : text) (from : nat) : option nat :=
  let from := Nat.min from (length source) in Nat.add from <$> find search (drop from source).

Definition matchExact (source search : text) : option MatchResult :=
  match indexOfFrom source search 0 with
  | None => None
  | Some idx =>
      match indexOfFrom source search (idx + 1) with
      | Some _ => None
      | None => Some (mkMatch idx (idx + length search) ms_exact 1)
      end
  end.

Definition lineAt (lines : list text) (i : nat) : text := default [] (lines !! i).

(** The first loop, at line [i]. *)
Fixpoint ws_find (searchLines lines : list text) (i matchCount bestStart : nat) : option (nat * nat) :=
  match lines with
  | [] => None
  | line :: lines =>
      let normalizedSource := normalizeWhitespace line in
      let starts := decide (normalizedSource = normalizeWhitespace (lineAt searchLines 0)) in
      let test matchCount bestStart :=
        if decide (matchCount = length searchLines) then Some (bestStart, i)
        else ws_find searchLines lines (S i) matchCount bestStart in
      if decide (matchCount = 0) then if starts then test 1 i else test 0 bestStart
      else if decide (normalizedSource = []) then ws_find searchLines lines (S i) matchCount bestStart
      else if decide (normalizedSource = normalizeWhitespace (lineAt searchLines matchCount)) then
        test (S matchCount) bestStart
      else if starts then test 1 i else test 0 bestStart
  end.

(** The second loop: is there another match after the first? *)
Fixpoint ws_again (searchLines lines : list text) (count : nat) : bool :=
  match lines with
  | [] => false
  | line :: lines =>
      let normalizedSource := normalizeWhitespace line in
      if decide (normalizedSource = []) then ws_again searchLines lines count
      else if decide (normalizedSource = normalizeWhitespace (lineAt searchLines count)) then
        if decide (S count = length searchLines) then true else ws_again searchLines lines (S count)
      else if decide (normalizedSource = normalizeWhitespace (lineAt searchLines 0)) then ws_again searchLines lines 1
      else ws_again searchLines lines 0
  end.

(** [startIdx] and the text of the lines [first], …, [first + n - 1]. *)
Definition start_of (lines : list text) (first : nat) : nat :=
  length (join nl (take first lines)) + (if decide (first = 0) then 0 else 1).
Definition block (lines : list text) (first n : nat) : text := join nl (take n (drop first lines)).

Definition block_match (lines : list text) (first n : nat) (strategy : MatchStrategy) (confidence : Q) : MatchResult :=
  mkMatch (start_of lines first) (start_of lines first + length (block lines first n)) strategy confidence.

Definition matchWhitespaceNormalized (source search : text) : option MatchResult :=
  if decide (normalizeWhitespace search = []) then None
  else
    let sourceLines := split nl source in
    let searchLines := filter not_blank (split nl search) in
    if decide (length searchLines = 0) then None
    else
      match ws_find searchLines sourceLines 0 0 0 with
      | None => None
      | Some (bestStart, bestEnd) =>
          if ws_again searchLines (drop (bestEnd + 1) sourceLines) 0 then None
          else Some (block_match sourceLines bestStart (bestEnd + 1 - bestStart) ms_whitespace (95 # 100))
      end.

(** The loop over windows of [n] lines; [Some None] is an ambiguous match. *)
Fixpoint indent_find (normalizedSearch : text) (n : nat) (lines : list text) (i : nat) (best : option nat)
    : option (option nat) :=
  if n <=? length lines then
    let found := decide (trim (normalizeIndentation (join nl (take n lines))) = normalizedSearch) in
    match lines with
    | [] => Some best
    | _ :: lines =>
        if found then
          match best with Some _ => None | None => indent_find normalizedSearch n lines (S i) (Some i) end
        else indent_find normalizedSearch n lines (S i) best
    end
  else Some best.

Definition matchIndentationFlexible (source search : text) : option MatchResult :=
  let normalizedSearch := trim (normalizeIndentation search) in
  if decide (normalizedSearch = []) then None
  else
    let sourceLines := split nl source in
    let searchLineCount := length (filter not_blank (split nl search)) in
    if decide (searchLineCount = 0) then None
    else
      match indent_find normalizedSearch searchLineCount sourceLines 0 None with
      | Some (Some first) => Some (block_match sourceLines first searchLineCount ms_indentation (9 # 10))
      | _ => None
      end.

(** ** The sliding window of levenshtein.ts *)

Definition FUZZY_THRESHOLD : Q := 8 # 10.

Fixpoint computeLineStartOffsets (lines : list text) (offset : nat) : list nat :=
  match lines with
  | [] => []
  | [_] => [offset]
  | line :: lines => offset :: computeLineStartOffsets lines (offset + length line + 1)
  end.

Definition computeLineEndOffset (lines : list text) (offsets : list nat) (endLineExclusive : nat) : nat :=
  match endLineExclusive with
  | O => default 0 (offsets !! 0)
  | S last => default 0 (offsets !! last) + length (lineAt lines last)
  end.

Record SlidingWindowResult : Type := mkSliding { sw_startIndex : nat; sw_endIndex : nat; sw_similarity : Q }.

Definition slice (s : text) (start stop : nat) : text := take (stop - start) (drop start s).

Definition maxDist (search : text) (threshold : Q) : Z :=
  Qceiling (inject_Z (Z.of_nat (length search)) * (1 - threshold)).

(** One window; the state is the best match so far and its similarity. *)
Definition try_window (source search : text) (threshold : Q) (lines : list text) (offsets : list nat)
    (best : option SlidingWindowResult * Q) (windowSize i : nat) : option SlidingWindowResult * Q :=
  let startIndex := default 0 (offsets !! i) in
  let endIndex := computeLineEndOffset lines offsets (i + windowSize) in
  let windowText := slice source startIndex endIndex in
  let dist := computeLevenshtein windowText search (maxDist search threshold) in
  let maxLen := Nat.max (length windowText) (length search) in
  if decide (maxLen = 0) then best
  else
    let similarity := (1 - inject_Z dist / inject_Z (Z.of_nat maxLen))%Q in
    if negb (Qle_bool similarity best.2) then (Some (mkSliding startIndex endIndex similarity), similarity) else best.

(** [a], …, [b]; nothing when [a] is larger. *)
Definition range (a b : nat) : list nat := seq a (S b - a).

Definition computeSlidingWindowMatch (source search : text) (threshold : Q) : option SlidingWindowResult :=
  let sourceLines := split nl source in
  let searchLineCount := length (split nl search) in
  let offsets := computeLineStartOffsets sourceLines 0 in
  if decide (searchLineCount = 0 \/ length sourceLines = 0) then None
  else
    let minWindowSize := Nat.max 1 (searchLineCount - 1) in
    let maxWindowSize := Nat.min (length sourceLines) (searchLineCount + 1) in
    (foldl (fun best windowSize =>
       foldl (fun best i => try_window source search threshold sourceLines offsets best windowSize i) best
         (range 0 (length sourceLines - windowSize)))
       (None, threshold) (range minWindowSize maxWindowSize)).1.

Definition matchFuzzy (source search : text) (threshold : Q) : option MatchResult :=
  if decide (length search = 0) then None
  else
    (fun r => mkMatch (sw_startIndex r) (sw_endIndex r) ms_fuzzy (sw_similarity r)) <$>
      computeSlidingWindowMatch source search threshold.

(** ** cascade.ts *)

Definition orElse {A} (x y : option A) : option A := match x with Some _ => x | None => y end.

Definition findMatch (source search : text) : option MatchResult :=
  if decide (length search = 0) then None
  else
    orElse (matchExact source search) (orElse (matchWhitespaceNormalized source search)
      (orElse (matchIndentationFlexible source search) (matchFuzzy source search FUZZY_THRESHOLD))).

Definition applyEdit (source search replacement : text) : option (text * MatchResult) :=
  (fun m => (take (mr_startIndex m) source ++ replacement ++ drop (mr_endIndex m) source, m)) <$> findMatch source search.

(** ** Blocks of lines *)

Definition prefix_text (pre : list text) : text := match pre with [] => [] | _ => join nl pre ++ [nl] end.
Definition suffix_text (post : list text) : text := match post with [] => [] | _ => nl :: join nl post end.

(** [middle] is a block of whole lines of the source. *)
Definition whole_lines (source before : text) (ls : list text) (after : text) : Prop :=
  exists pre post, split nl source = pre ++ ls ++ post /\ ls ≠ [] /\ before = prefix_text pre /\ after = suffix_text post.

Lemma join_prefix pre ls : ls ≠ [] -> join nl (pre ++ ls) = prefix_text pre ++ join nl ls.
Proof.
  intros Hls. induction pre as [|l pre IH]; [done|]. change ((l :: pre) ++ ls) with (l :: (pre ++ ls)). rewrite join_cons, IH.
  - destruct pre as [|l' pre]; [by simpl; rewrite <-(assoc_L app)|]. unfold prefix_text. rewrite (join_cons nl l (l' :: pre)) by done.
    by rewrite <-!(assoc_L app).
  - by destruct pre.
Qed.

Lemma join_suffix ls post : ls ≠ [] -> join nl (ls ++ post) = join nl ls ++ suffix_text post.
Proof.
  intros Hls. destruct post as [|p post]; [by rewrite !app_nil_r|]. rewrite join_prefix by done. unfold prefix_text.
  destruct ls as [|l ls]; [done|]. by rewrite <-(assoc_L app).
Qed.

Lemma whole_lines_text source before ls after : whole_lines source before ls after -> source = before ++ join nl ls ++ after.
Proof.
  intros (pre & post & Hs & Hls & -> & ->). rewrite <-(join_split nl source), Hs, join_prefix by (by destruct ls).
  by rewrite join_suffix.
Qed.

Lemma start_of_prefix lines first : first <= length lines -> start_of lines first = length (prefix_text (take first lines)).
Proof.
  unfold start_of. destruct lines as [|l lines].
  { simpl. intros Hle. replace first with 0 by lia. done. }
  case_decide as Hf; [by subst first|]. intros _. destruct first as [|k]; [done|]. simpl take. unfold prefix_text.
  rewrite length_app. simpl. lia.
Qed.

(** What the block matches of two strategies cut out. *)
Lemma block_lines source first n strategy confidence : 0 < n -> first + n <= length (split nl source) ->
  let m := block_match (split nl source) first n strategy confidence in
  let ls := take n (drop first (split nl source)) in
  let before := prefix_text (take first (split nl source)) in
  exists after, whole_lines source before ls after /\ source = before ++ join nl ls ++ after /\
    length before = mr_startIndex m /\ mr_endIndex m = mr_startIndex m + length (join nl ls).
Proof.
  intros Hn Hle m ls before. set (lines := split nl source) in *.
  exists (suffix_text (drop n (drop first lines))).
  assert (Hw : whole_lines source (prefix_text (take first lines)) ls (suffix_text (drop n (drop first lines)))).
  { exists (take first lines), (drop n (drop first lines)). split; [unfold ls; by rewrite !take_drop|]. split; [|done].
    intros Hnil. apply (f_equal length) in Hnil. unfold ls in Hnil. rewrite length_take, length_drop in Hnil. simpl in Hnil. lia. }
  split; [done|]. split; [by apply whole_lines_text|]. split; [|done]. symmetry. apply start_of_prefix. lia.
Qed.

(** ** Exact matches *)

Lemma find_Some p s n : find p s = Some n ->
  n <= length s /\ starts_with p (drop n s) = true /\ forall k, k < n -> starts_with p (drop k s) = false.
Proof.
  revert n. induction s as [|x s IH]; intros n; cbn [find]; destruct (starts_with p _) eqn:Hp.
  - intros [= <-]. split; [done|]. split; [done|]. lia.
  - done.
  - intros [= <-]. split; [simpl; lia|]. split; [done|]. lia.
  - destruct (find p s) as [m|]; [|done]. intros [= <-]. destruct (IH m eq_refl) as (H1 & H2 & H3).
    split; [simpl; lia|]. split; [done|]. intros [|k] Hk; [done|]. apply H3. lia.
Qed.

Lemma find_None p s : find p s = None -> forall k, starts_with p (drop k s) = true -> length s < k.
Proof.
  induction s as [|x s IH]; cbn [find]; destruct (starts_with p _) eqn:Hp; try done.
  - intros _ k. destruct k; simpl; [congruence|lia].
  - intros Hn [|k] Hk; [simpl in Hk; congruence|]. destruct (find p s); [done|]. specialize (IH eq_refl k Hk). simpl. lia.
Qed.

Lemma exact_spec source search m : matchExact source search = Some m ->
  exists before after, source = before ++ search ++ after /\ mr_startIndex m = length before /\
    mr_endIndex m = mr_startIndex m + length search /\ mr_strategy m = ms_exact /\
    forall b a, source = b ++ search ++ a -> b = before.
Proof.
  unfold matchExact, indexOfFrom. rewrite drop_0. destruct (find search source) as [n|] eqn:Hf; [|done].
  rewrite Nat.min_l by lia. simpl fmap. cbn [option_fmap option_map]. destruct (find_Some _ _ _ Hf) as (Hn & Hat & Hbefore).
  change (0 + n) with n.
  destruct (find search (drop (Nat.min (n + 1) (length source)) source)) as [k|] eqn:Hg; [done|]. simpl. intros [= <-]. simpl.
  apply starts_with_spec in Hat as [after Ha]. exists (take n source), after.
  split; [by rewrite <-Ha, take_drop|]. split; [rewrite length_take; lia|]. split; [done|]. split; [done|].
  intros b a Hs. assert (Hb : starts_with search (drop (length b) source) = true).
  { rewrite Hs, drop_app_length. apply starts_with_spec. eauto. }
  assert (Hle : length b <= length source) by (rewrite Hs, length_app; lia).
  destruct (lt_eq_lt_dec (length b) n) as [[Hlt|Heq]|Hgt].
  - by rewrite Hbefore in Hb.
  - rewrite <-Heq, Hs. by rewrite take_app_length.
  - rewrite Nat.min_l in Hg by lia.
    pose proof (find_None _ _ Hg (length b - (n + 1))) as H. rewrite drop_drop in H.
    replace (n + 1 + (length b - (n + 1))) with (length b) in H by lia. specialize (H Hb). rewrite length_drop in H. lia.
Qed.

(** ** Offsets of lines *)

Lemma prefix_cons l pre : prefix_text (l :: pre) = l ++ nl :: prefix_text pre.
Proof.
  destruct pre as [|p pre]; [done|]. unfold prefix_text. rewrite join_cons by done. by rewrite <-(assoc_L app).
Qed.

Lemma offsets_spec lines : forall offset i, i < length lines ->
  computeLineStartOffsets lines offset !! i = Some (offset + length (prefix_text (take i lines))).
Proof.
  induction lines as [|l lines IH]; intros offset i Hi; [simpl in Hi; lia|]. destruct lines as [|l' lines].
  - simpl in Hi. replace i with 0 by lia. simpl. by rewrite Nat.add_0_r.
  - destruct i as [|i]; [simpl; by rewrite Nat.add_0_r|].
    change (computeLineStartOffsets (l' :: lines) (offset + length l + 1) !! i =
      Some (offset + length (prefix_text (l :: take i (l' :: lines))))).
    rewrite IH by (simpl in *; lia). rewrite prefix_cons, length_app. simpl. f_equal. lia.
Qed.

Lemma end_offset_spec lines first n : 0 < n -> first + n <= length lines ->
  computeLineEndOffset lines (computeLineStartOffsets lines 0) (first + n) =
  length (prefix_text (take first lines)) + length (join nl (take n (drop first lines))).
Proof.
  intros Hn Hle. destruct (first + n) as [|last] eqn:He; [lia|]. unfold computeLineEndOffset. rewrite offsets_spec by lia. simpl.
  destruct (lookup_lt_is_Some_2 lines last) as [l Hl]; [lia|]. unfold lineAt. rewrite Hl. simpl. rewrite <-!length_app. f_equal.
  rewrite <-(join_prefix (take first lines)).
  - rewrite take_take_drop, He, (take_S_r _ _ _ Hl), join_prefix by done. done.
  - intros Hnil. apply (f_equal length) in Hnil. rewrite length_take, length_drop in Hnil. simpl in Hnil. lia.
Qed.

(** ** Fuzzy matches *)

Definition similarity_of (middle search : text) (threshold : Q) : Q :=
  (1 - inject_Z (computeLevenshtein middle search (maxDist search threshold)) /
       inject_Z (Z.of_nat (Nat.max (length middle) (length search))))%Q.

Definition good_window (source search : text) (threshold : Q) (r : SlidingWindowResult) : Prop :=
  exists before ls after, whole_lines source before ls after /\ sw_startIndex r = length before /\
    sw_endIndex r = sw_startIndex r + length (join nl ls) /\
    sw_similarity r = similarity_of (join nl ls) search threshold /\ (threshold < sw_similarity r)%Q /\
    0 < Nat.max (length (join nl ls)) (length search).

Definition window_inv (source search : text) (threshold : Q) (best : option SlidingWindowResult * Q) : Prop :=
  (threshold <= best.2)%Q /\ forall r, best.1 = Some r -> good_window source search threshold r.

Lemma try_window_inv source search threshold best n first : 0 < n -> first + n <= length (split nl source) ->
  window_inv source search threshold best ->
  window_inv source search threshold
    (try_window source search threshold (split nl source) (computeLineStartOffsets (split nl source) 0) best n first).
Proof.
  intros Hn Hle [Hb Hr]. destruct (block_lines source first n ms_fuzzy 0 Hn Hle) as (after & Hw & Hsrc & Hst & Hend).
  unfold try_window. set (lines := split nl source) in *.
  rewrite end_offset_spec by done. rewrite offsets_spec by lia. change (default 0 (Some ?x)) with x. cbn [Nat.add].
  set (ls := take n (drop first lines)) in *.
  set (before := prefix_text (take first lines)) in *.
  assert (Hslice : slice source (length before) (length before + length (join nl ls)) = join nl ls).
  { unfold slice. rewrite Hsrc, drop_app_length. rewrite Nat.add_sub_swap, Nat.sub_diag by lia. apply take_app_length. }
  rewrite Hslice. case_decide as Hmax; [done|]. fold (similarity_of (join nl ls) search threshold).
  destruct (Qle_bool _ _) eqn:Hcmp; [done|]. simpl. assert (Hlt : (best.2 < similarity_of (join nl ls) search threshold)%Q).
  { apply Qnot_le_lt. intros Hq. apply Qle_bool_iff in Hq. congruence. }
  split; simpl; [by apply Qlt_le_weak, (Qle_lt_trans _ best.2)|]. intros r [= <-].
  exists before, ls, after. simpl. split; [done|]. split; [done|]. split; [done|]. split; [done|].
  split; [by apply (Qle_lt_trans _ best.2)|lia].
Qed.

Lemma foldl_keeps {A S} (P : S -> Prop) (f : S -> A -> S) l s :
  P s -> (forall s x, x ∈ l -> P s -> P (f s x)) -> P (foldl f s l).
Proof.
  revert s. induction l as [|x l IH]; intros s Hs Hf; [done|]. simpl. apply IH; [apply Hf; [left|done]|].
  intros s' y Hy. apply Hf. by right.
Qed.

Lemma elem_of_range a b i : i ∈ range a b <-> a <= i <= b.
Proof. unfold range. rewrite elem_of_seq. lia. Qed.

Lemma sliding_spec source search threshold r :
  computeSlidingWindowMatch source search threshold = Some r -> good_window source search threshold r.
Proof.
  unfold computeSlidingWindowMatch. case_decide as Hz; [done|]. intros Hr.
  match type of Hr with ?x.1 = _ => cut (window_inv source search threshold x); [intros H; by apply H|] end.
  apply foldl_keeps; [split; [apply Qle_refl|done]|]. intros best n Hn%elem_of_range Hb.
  apply foldl_keeps; [done|]. intros best' i Hi%elem_of_range Hb'. apply try_window_inv; [lia|lia|done].
Qed.

(** ** Matches up to white space *)

Lemma trimStart_nil s : trimStart s = [] <-> Forall (fun c => is_space c = true) s.
Proof.
  induction s as [|c s IH]; simpl; [by split|]. rewrite Forall_cons. destruct (is_space c); [|by split; [|intros [? _]]].
  rewrite IH. tauto.
Qed.

Lemma rev_nil_iff {A} (l : list A) : rev l = [] <-> l = [].
Proof. split; [|by intros ->]. intros H. apply (f_equal length) in H. rewrite length_rev in H. by apply length_zero_iff_nil. Qed.

Lemma Forall_rev_iff {A} (P : A -> Prop) l : Forall P (rev l) <-> Forall P l.
Proof. split; [intros H; rewrite <-(rev_involutive l)|intros H]; by apply List.Forall_rev. Qed.

Lemma trimStart_space s : Forall (fun c => is_space c = true) (trimStart s) <-> Forall (fun c => is_space c = true) s.
Proof.
  induction s as [|c s IH]; simpl; [done|]. destruct (is_space c) eqn:Hc; [|done]. rewrite Forall_cons, IH. tauto.
Qed.

Lemma trim_nil s : trim s = [] <-> Forall (fun c => is_space c = true) s.
Proof. unfold trim. by rewrite rev_nil_iff, trimStart_nil, Forall_rev_iff, trimStart_space. Qed.

Lemma collapse_space b s : Forall (fun c => is_space c = true) (collapse b s) <-> Forall (fun c => is_space c = true) s.
Proof.
  revert b. induction s as [|c s IH]; intros b; simpl; [done|]. destruct (is_space c) eqn:Hc.
  - destruct b; rewrite !Forall_cons, IH; [tauto|]. by split; intros [? ?].
  - rewrite !Forall_cons, IH. done.
Qed.

Lemma normalizeWhitespace_nil s : normalizeWhitespace s = [] <-> trim s = [].
Proof. unfold normalizeWhitespace. by rewrite !trim_nil, collapse_space. Qed.

(** The lines of a block that count, normalised. *)
Definition codes (ls : list text) : list text := filter (fun t => t ≠ []) (normalizeWhitespace <$> ls).

Lemma codes_snoc ls line :
  codes (ls ++ [line]) = codes ls ++ (if decide (normalizeWhitespace line = []) then [] else [normalizeWhitespace line]).
Proof.
  unfold codes. rewrite fmap_app, filter_app. f_equal. simpl. rewrite filter_cons. simpl.
  destruct (decide (normalizeWhitespace line = [])) as [H|H]; [by rewrite decide_False by tauto|by rewrite decide_True].
Qed.

Lemma codes_not_blank ls : codes (filter not_blank ls) = normalizeWhitespace <$> filter not_blank ls.
Proof.
  unfold codes. induction ls as [|l ls IH]; [done|]. rewrite filter_cons. case_decide as Hb; [|done].
  rewrite fmap_cons, filter_cons, decide_True; [by rewrite IH|]. by rewrite normalizeWhitespace_nil.
Qed.

Lemma codes_filter ls : codes (filter not_blank ls) = codes ls.
Proof.
  unfold codes. induction ls as [|l ls IH]; [done|]. rewrite filter_cons. case_decide as Hb.
  - by rewrite !fmap_cons, !filter_cons, IH.
  - rewrite fmap_cons, (filter_cons _ (normalizeWhitespace l)), decide_False; [done|]. rewrite normalizeWhitespace_nil. tauto.
Qed.

Section Whitespace.
Context (searchLines : list text) (Hne : searchLines ≠ []) (Hnb : forall l, l ∈ searchLines -> normalizeWhitespace l ≠ []).

Abbreviation wanted := (normalizeWhitespace <$> searchLines).

Definition ws_state (seen : list text) (count start : nat) : Prop :=
  count = 0 \/ (start < length seen /\ count <= length searchLines /\ codes (drop start seen) = take count wanted).

Lemma take_wanted k : k < length searchLines ->
  take (S k) wanted = take k wanted ++ [normalizeWhitespace (lineAt searchLines k)] /\
  normalizeWhitespace (lineAt searchLines k) ≠ [].
Proof.
  intros Hk. destruct (lookup_lt_is_Some_2 searchLines k Hk) as [l Hl]. unfold lineAt. rewrite Hl. simpl. split.
  - apply take_S_r. by rewrite list_lookup_fmap, Hl.
  - by apply Hnb, (list_elem_of_lookup_2 _ k).
Qed.

Lemma ws_start seen line : normalizeWhitespace line = normalizeWhitespace (lineAt searchLines 0) ->
  ws_state (seen ++ [line]) 1 (length seen).
Proof.
  intros Hl. right. rewrite length_app. simpl. assert (Hpos : 0 < length searchLines) by (destruct searchLines; [done|simpl; lia]).
  split; [lia|]. split; [lia|]. rewrite drop_app_length. destruct (take_wanted 0 Hpos) as [-> Hn].
  rewrite <-Hl in *. change [line] with ([] ++ [line]). by rewrite codes_snoc, decide_False.
Qed.

Lemma ws_find_spec lines : forall seen count start all s e, all = seen ++ lines ->
  ws_state seen count start -> count < length searchLines -> ws_find searchLines lines (length seen) count start = Some (s, e) ->
  s <= e < length all /\ codes (take (e + 1 - s) (drop s all)) = wanted.
Proof.
  induction lines as [|line lines IH]; intros seen count start all s e Hall Hst Hlt; cbn [ws_find]; [done|].
  assert (Htest : forall count' start', ws_state (seen ++ [line]) count' start' ->
    (if decide (count' = length searchLines) then Some (start', length seen)
     else ws_find searchLines lines (S (length seen)) count' start') = Some (s, e) -> count' <= length searchLines ->
    s <= e < length all /\ codes (take (e + 1 - s) (drop s all)) = wanted).
  { intros count' start' Hst' Hres Hle. case_decide as Hc.
    - injection Hres as <- <-. destruct Hst' as [->|(Hs & _ & Hcodes)]; [by destruct searchLines|].
      rewrite length_app in Hs. simpl in Hs. rewrite Hall. rewrite length_app. simpl. split; [lia|].
      change (line :: lines) with ([line] ++ lines). rewrite (assoc_L app), drop_app_le by (rewrite length_app; simpl; lia).
      rewrite take_app_length'; [|rewrite length_drop, length_app; simpl; lia].
      rewrite Hcodes, Hc. by rewrite <-(length_fmap normalizeWhitespace searchLines), firstn_all.
    - apply (IH (seen ++ [line]) count' start'); [by rewrite <-(assoc_L app)|done|lia|].
      by rewrite length_app, Nat.add_1_r. }
  assert (Hpos : 0 < length searchLines) by (destruct searchLines; [done|simpl; lia]).
  assert (Hfirst : forall d : Decision (normalizeWhitespace line = normalizeWhitespace (lineAt searchLines 0)),
    (if d then if decide (1 = length searchLines) then Some (length seen, length seen)
       else ws_find searchLines lines (S (length seen)) 1 (length seen)
     else if decide (0 = length searchLines) then Some (start, length seen)
       else ws_find searchLines lines (S (length seen)) 0 start) = Some (s, e) ->
    s <= e < length all /\ codes (take (e + 1 - s) (drop s all)) = wanted).
  { intros [Hs|Hs] Hres.
    - by eapply (Htest 1); [apply ws_start|exact Hres|lia].
    - by eapply (Htest 0); [left|exact Hres|lia]. }
  destruct (decide (count = 0)) as [Hz|Hz]; [apply Hfirst|]. destruct Hst as [|(Hs & Hc & Hcodes)]; [done|].
  assert (Hdrop : drop start (seen ++ [line]) = drop start seen ++ [line]) by (apply drop_app_le; lia).
  destruct (decide (normalizeWhitespace line = [])) as [Hblank|Hblank].
  - intros Hres. apply (IH (seen ++ [line]) count start); [by rewrite <-(assoc_L app)| |done|by rewrite length_app, Nat.add_1_r].
    right. rewrite length_app, Hdrop, codes_snoc, decide_True, app_nil_r by done. simpl. split; [lia|done].
  - destruct (decide (normalizeWhitespace line = normalizeWhitespace (lineAt searchLines count))) as [Heq|Heq]; [|apply Hfirst]. intros Hres. eapply (Htest (S count)); [|exact Hres|lia].
    right. destruct (take_wanted count Hlt) as [-> Hn]. rewrite length_app, Hdrop, codes_snoc, decide_False, Hcodes, Heq by done.
    simpl. split; [lia|]. split; [lia|done].
Qed.
End Whitespace.

Lemma whitespace_spec source search m : matchWhitespaceNormalized source search = Some m ->
  mr_strategy m = ms_whitespace /\ exists before ls after,
    whole_lines source before ls after /\ mr_startIndex m = length before /\ mr_endIndex m = mr_startIndex m + length (join nl ls) /\
    codes ls = codes (split nl search).
Proof.
  unfold matchWhitespaceNormalized. case_decide; [done|]. case_decide as Hlen; [done|].
  set (searchLines := filter not_blank _) in *. destruct (ws_find _ _ _ _ _) as [[s e]|] eqn:Hf; [|done].
  destruct (ws_again _ _ _); [done|]. intros [= <-].
  assert (Hne : searchLines ≠ []) by (by destruct searchLines).
  assert (Hnb : forall l, l ∈ searchLines -> normalizeWhitespace l ≠ []).
  { intros l [Hl _]%list_elem_of_filter. by rewrite normalizeWhitespace_nil. }
  destruct (ws_find_spec searchLines Hne Hnb (split nl source) [] 0 0 (split nl source) s e eq_refl) as [Hse Hcodes];
    [by left|lia|exact Hf|].
  destruct (block_lines source s (e + 1 - s) ms_whitespace (95 # 100)) as (after & Hw & _ & Hst & Hend); [lia|lia|].
  split; [done|]. eexists _, (take (e + 1 - s) (drop s (split nl source))), after.
  split; [done|]. split; [done|]. split; [exact Hend|]. rewrite Hcodes. unfold searchLines. by rewrite <-codes_not_blank, codes_filter.
Qed.

(** ** Matches up to indentation *)

Definition same_code (search : text) (ls : list text) : Prop :=
  trim (normalizeIndentation (join nl ls)) = trim (normalizeIndentation search).

Lemma indent_find_spec search n lines : 0 < n -> forall i best r,
  indent_find (trim (normalizeIndentation search)) n lines i best = Some (Some r) ->
  (best = Some r /\ forall k, k + n <= length lines -> ~ same_code search (take n (drop k lines))) \/
  (best = None /\ exists k, r = i + k /\ k + n <= length lines /\ same_code search (take n (drop k lines)) /\
     forall j, j + n <= length lines -> same_code search (take n (drop j lines)) -> j = k).
Proof.
  intros Hn. induction lines as [|line lines IH]; intros i best r; cbn [indent_find]; destruct (Nat.leb_spec n (length (line :: lines))) as [Hle|Hgt] || destruct (Nat.leb_spec n (length (@nil text))) as [Hle|Hgt].
  - simpl in Hle. lia.
  - intros [= ->]. left. split; [done|]. intros k. simpl. lia.
  - case_decide as Hf.
    + destruct best; [done|]. intros [[[= <-] Hno]|[? _]]%IH; [|done]. right. split; [done|]. exists 0.
      split; [lia|]. split; [done|]. split; [done|]. intros [|j] Hj Hs; [done|]. destruct (Hno j); [simpl in Hj; lia|exact Hs].
    + intros [[-> Hno]|[-> (k & -> & Hk & Hs & Hu)]]%IH.
      * left. split; [done|]. intros [|k] Hk; [done|]. apply Hno. simpl in Hk. lia.
      * right. split; [done|]. exists (S k). split; [lia|]. split; [simpl; lia|]. split; [exact Hs|].
        intros [|j] Hj Hs'; [done|]. f_equal. apply Hu; [simpl in Hj; lia|exact Hs'].
  - intros [= ->]. left. split; [done|]. intros k Hk. lia.
Qed.

Lemma indentation_spec source search m : matchIndentationFlexible source search = Some m ->
  mr_strategy m = ms_indentation /\ exists before ls after,
    whole_lines source before ls after /\ mr_startIndex m = length before /\ mr_endIndex m = mr_startIndex m + length (join nl ls) /\
    same_code search ls /\
    forall b ls' a, whole_lines source b ls' a -> length ls' = length ls -> same_code search ls' -> b = before.
Proof.
  unfold matchIndentationFlexible. case_decide; [done|]. set (n := length _). case_decide as Hn; [done|].
  destruct (indent_find _ _ _ _ _) as [[k|]|] eqn:Hf; [|done..]. intros [= <-].
  apply indent_find_spec in Hf as [[? _]|[_ (j & -> & Hle & Hs & Hu)]]; [done| |lia]. change (0 + j) with j in *.
  destruct (block_lines source j n ms_indentation (9 # 10)) as (after & Hw & _ & Hst & Hend); [lia|lia|].
  split; [done|]. eexists _, (take n (drop j (split nl source))), after.
  split; [done|]. split; [done|]. split; [exact Hend|]. split; [done|].
  intros b ls' a (pre & post & Hsp & _ & -> & _) Hlen Hs'. rewrite length_take, length_drop in Hlen.
  assert (Hn' : length ls' = n) by lia.
  assert (Hj : length pre = j).
  { apply Hu; [rewrite Hsp, !length_app; lia|]. rewrite Hsp, drop_app_length, <-Hn', take_app_length. exact Hs'. }
  f_equal. by rewrite Hsp, <-Hj, take_app_length.
Qed.

(** ** Edits *)

(** How a strategy answers for the text it cuts out. *)
Definition match_means (source search before middle after : text) (m : MatchResult) : Prop :=
  match mr_strategy m with
  | ms_exact => middle = search /\ forall b a, source = b ++ search ++ a -> b = before
  | ms_whitespace => exists ls, whole_lines source before ls after /\ middle = join nl ls /\
      codes ls = codes (split nl search)
  | ms_indentation => exists ls, whole_lines source before ls after /\ middle = join nl ls /\ same_code search ls /\
      forall b ls' a, whole_lines source b ls' a -> length ls' = length ls -> same_code search ls' -> b = before
  | ms_fuzzy => exists ls n, whole_lines source before ls after /\ middle = join nl ls /\ edit_distance middle search n /\
      let maxLen := Z.of_nat (Nat.max (length middle) (length search)) in
      let bound := maxDist search FUZZY_THRESHOLD in
      (5 * Z.min (Z.of_nat n) (bound + 1) < maxLen)%Z /\
      ((Z.of_nat n <= bound)%Z -> mr_confidence m = (1 - inject_Z (Z.of_nat n) / inject_Z maxLen)%Q)
  end.

Lemma fifth d l : (0 < l)%Z -> (FUZZY_THRESHOLD < 1 - inject_Z d / inject_Z l)%Q -> (5 * d < l)%Z.
Proof.
  intros Hl H. assert (Hq : (0 < inject_Z l)%Q) by (unfold Qlt; simpl; lia).
  assert (H1 : (inject_Z d / inject_Z l < 2 # 10)%Q) by (unfold FUZZY_THRESHOLD in H; lra).
  apply (Qmult_lt_r _ _ (inject_Z l)) in H1; [|done]. unfold Qdiv in H1.
  rewrite <-Qmult_assoc, (Qmult_comm (/ inject_Z l)), Qmult_inv_r, Qmult_1_r in H1 by lra.
  unfold Qlt in H1. simpl in H1. lia.
Qed.

Lemma fuzzy_spec source search m : matchFuzzy source search FUZZY_THRESHOLD = Some m ->
  mr_strategy m = ms_fuzzy /\ exists before ls after, whole_lines source before ls after /\
    mr_startIndex m = length before /\ mr_endIndex m = mr_startIndex m + length (join nl ls) /\
    match_means source search before (join nl ls) after m.
Proof.
  unfold matchFuzzy. case_decide; [done|]. destruct (computeSlidingWindowMatch _ _ _) as [r|] eqn:Hr; [|done].
  intros [= <-]. apply sliding_spec in Hr as (before & ls & after & Hw & Hst & Hend & Hsim & Hlt & Hpos).
  split; [done|]. exists before, ls, after. split; [done|]. split; [done|]. split; [done|].
  destruct (levenshtein_cases (join nl ls) search (maxDist search FUZZY_THRESHOLD)) as (n & Hn & Hd).
  exists ls, n. split; [done|]. split; [done|]. split; [done|]. cbv zeta.
  rewrite Hsim in Hlt. apply fifth in Hlt; [|lia]. split.
  - destruct (Z.le_gt_cases (Z.of_nat n) (maxDist search FUZZY_THRESHOLD)) as [Hle|Hgt].
    + destruct Hd as [Hd|[_ Hd]]; lia.
    + lia.
  - intros Hle. simpl. rewrite Hsim. unfold similarity_of. by destruct Hd as [->|[_ Hd]]; [|lia].
Qed.

Lemma findMatch_spec source search m : findMatch source search = Some m ->
  exists before middle after, source = before ++ middle ++ after /\ mr_startIndex m = length before /\
    mr_endIndex m = mr_startIndex m + length middle /\ match_means source search before middle after m.
Proof.
  unfold findMatch. case_decide; [done|]. unfold orElse.
  destruct (matchExact source search) as [x|] eqn:H1; [intros [= <-]|destruct (matchWhitespaceNormalized source search) as [x|] eqn:H2;
    [intros [= <-]|destruct (matchIndentationFlexible source search) as [x|] eqn:H3; [intros [= <-]|intros H4]]].
  - apply exact_spec in H1 as (before & after & Hs & Hst & Hend & Hms & Hu). exists before, search, after.
    split; [done|]. split; [done|]. split; [done|]. unfold match_means. by rewrite Hms.
  - apply whitespace_spec in H2 as (Hms & before & ls & after & Hw & Hst & Hend & Hc). exists before, (join nl ls), after.
    split; [by apply whole_lines_text|]. split; [done|]. split; [done|]. unfold match_means. rewrite Hms. by exists ls.
  - apply indentation_spec in H3 as (Hms & before & ls & after & Hw & Hst & Hend & Hs & Hu). exists before, (join nl ls), after.
    split; [by apply whole_lines_text|]. split; [done|]. split; [done|]. unfold match_means. rewrite Hms. by exists ls.
  - apply fuzzy_spec in H4 as (Hms & before & ls & after & Hw & Hst & Hend & Hm). exists before, (join nl ls), after.
    split; [by apply whole_lines_text|]. by split_and!.
Qed.


Definition sample_source : text := str "if (x) {" ++ [nl] ++ str "    run( y )" ++ [nl] ++ str "}".
Definition sample_edit : option (text * MatchResult) := applyEdit sample_source (str "run( y )" ++ [nl] ++ [nl] ++ str "  }") (str "stop()").

Lemma sample_edit_result :
  sample_edit = Some (str "if (x) {" ++ [nl] ++ str "stop()", mkMatch 9 23 ms_whitespace (95 # 100)).
Proof. vm_compute. reflexivity. Qed.


(** The bound is no bound for long lines: a rejected window counts with the
    distance [maxDist + 1] however far away it is, which is less than a fifth of a
    long line, so a line that shares nothing with the searched text is replaced. *)
Lemma unrelated_line_is_replaced :
  fst <$> applyEdit (str "const total = 1;") (str "ab") (str "x") = Some (str "x").
Proof. vm_compute. reflexivity. Qed.

(** The search for equal code does not back up: a block whose first line repeats
    is missed behind another copy of that line. *)
Lemma repeated_line_hides_match :
  let a := str " a" in let source := join nl [a; a; a; str " b"] in let search := join nl [str "a"; str "a"; str "b"] in
  matchWhitespaceNormalized source search = None /\
  codes (drop 1 (split nl source)) = codes (split nl search).
Proof. vm_compute. done. Qed.
