(* ===== verification/CircuitBreaker.v ===== *)
(** * Circuit breaker

    [lib/errors/src/circuit-breaker.ts]: a breaker per provider that stops
    traffic after too many recent failures, and lets one probe through after a
    cooldown.  The times of failures are kept in a ring buffer of fixed size; the
    specification keeps them all. *)

From S2P Require Import Prelude.

Local Open Scope list_scope.
Local Open Scope Z_scope.

(** ** The code *)

Inductive CircuitState : Type := CLOSED | OPEN | HALF_OPEN.

#[export] Instance CircuitState_eq_dec : EqDecision CircuitState.
Proof. solve_decision. Defined.

Record CircuitBreakerConfig : Type := mkBreakerConfig {
  cc_failureThreshold : nat;
  cc_cooldownMs : Z;
  cc_failureWindowMs : Z;
  cc_failureStatusCodes : list Z
}.

Definition DEFAULT_CIRCUIT_BREAKER_CONFIG : CircuitBreakerConfig := mkBreakerConfig 5 60000 60000 [429; 500; 502; 503; 504].

Record CircuitBreakerSnapshot : Type := mkBreakerSnapshot {
  bs_state : CircuitState; bs_failureCount : nat; bs_lastFailureAt : option Z; bs_lastTransitionAt : Z
}.

Record Breaker : Type := mkBreaker {
  cb_state : CircuitState;
  cb_lastTransitionAt : Z;
  cb_probeInFlight : bool;
  cb_ringBuffer : list Z;
  cb_ringIndex : nat;
  cb_ringCount : nat
}.

Section Breaker.
Variable config : CircuitBreakerConfig.
Abbreviation size := (cc_failureThreshold config).

Definition createCircuitBreaker (now : Z) : Breaker := mkBreaker CLOSED now false (repeat 0 size) 0 0.

Definition scanRingBuffer (b : Breaker) (now : Z) : nat * option Z :=
  foldl (fun acc ts =>
    if now - ts <=? cc_failureWindowMs config then
      (S acc.1, match acc.2 with Some last => if last <? ts then Some ts else Some last | None => Some ts end)
    else acc) (0%nat, None) (take (Nat.min (cb_ringCount b) size) (cb_ringBuffer b)).

Definition snapshot (b : Breaker) (now : Z) : CircuitBreakerSnapshot :=
  let '(failureCount, lastFailureAt) := scanRingBuffer b now in
  mkBreakerSnapshot (cb_state b) failureCount lastFailureAt (cb_lastTransitionAt b).

(** [later] is the second reading of the clock. *)
Definition transitionTo (s : CircuitState) (later : Z) (b : Breaker) : Breaker :=
  mkBreaker s later (cb_probeInFlight b) (cb_ringBuffer b) (cb_ringIndex b) (cb_ringCount b).
Definition set_probe (p : bool) (b : Breaker) : Breaker :=
  mkBreaker (cb_state b) (cb_lastTransitionAt b) p (cb_ringBuffer b) (cb_ringIndex b) (cb_ringCount b).
Definition resetRingBuffer (b : Breaker) : Breaker :=
  mkBreaker (cb_state b) (cb_lastTransitionAt b) (cb_probeInFlight b) ((fun _ => 0) <$> cb_ringBuffer b) 0 0.
Definition push_failure (now : Z) (b : Breaker) : Breaker :=
  mkBreaker (cb_state b) (cb_lastTransitionAt b) (cb_probeInFlight b)
    (<[(cb_ringIndex b mod size)%nat := now]> (cb_ringBuffer b)) (S (cb_ringIndex b)) (S (cb_ringCount b)).

Definition isAllowed (now later : Z) (b : Breaker) : bool * Breaker :=
  match cb_state b with
  | CLOSED => (true, b)
  | OPEN =>
      if cc_cooldownMs config <=? now - cb_lastTransitionAt b then (true, set_probe true (transitionTo HALF_OPEN later b))
      else (false, b)
  | HALF_OPEN => if cb_probeInFlight b then (false, b) else (true, set_probe true b)
  end.

Definition recordSuccess (later : Z) (b : Breaker) : Breaker :=
  match cb_state b with
  | HALF_OPEN => resetRingBuffer (transitionTo CLOSED later (set_probe false b))
  | CLOSED | OPEN => b
  end.

Definition recordFailure (statusCode : option Z) (now later : Z) (b : Breaker) : Breaker :=
  if match statusCode with Some c => bool_decide (c ∉ cc_failureStatusCodes config) | None => false end then b
  else
    match cb_state b with
    | CLOSED =>
        let b := push_failure now b in
        if (size <=? (scanRingBuffer b now).1)%nat then transitionTo OPEN later b else b
    | HALF_OPEN => transitionTo OPEN later (set_probe false b)
    | OPEN => push_failure now b
    end.

Definition releaseProbe (b : Breaker) : Breaker :=
  if bool_decide (cb_state b = HALF_OPEN) && cb_probeInFlight b then set_probe false b else b.

Definition reset (later : Z) (b : Breaker) : Breaker := resetRingBuffer (transitionTo CLOSED later (set_probe false b)).

(** ** Runs *)

Inductive Op : Type :=
  | op_isAllowed
  | op_recordSuccess
  | op_recordFailure (statusCode : option Z)
  | op_releaseProbe
  | op_getSnapshot
  | op_reset.

(** What the caller gets back. *)
Inductive Answer : Type :=
  | answer_allowed (allowed : bool)
  | answer_snapshot (s : CircuitBreakerSnapshot)
  | answer_none.

(** An operation, with the readings of the clock it may make: on entry, at a
    transition, and for the snapshot it returns. *)
Record Event : Type := mkEvent { ev_op : Op; ev_now : Z; ev_later : Z; ev_last : Z }.

Definition exec (e : Event) (b : Breaker) : Answer * Breaker :=
  match ev_op e with
  | op_isAllowed => let '(answer, b) := isAllowed (ev_now e) (ev_later e) b in (answer_allowed answer, b)
  | op_recordSuccess => let b := recordSuccess (ev_later e) b in (answer_snapshot (snapshot b (ev_last e)), b)
  | op_recordFailure code =>
      let b' := recordFailure code (ev_now e) (ev_later e) b in
      (answer_snapshot (snapshot b' (ev_now e)), b')
  | op_releaseProbe => let b := releaseProbe b in (answer_snapshot (snapshot b (ev_now e)), b)
  | op_getSnapshot => (answer_snapshot (snapshot b (ev_now e)), b)
  | op_reset => (answer_none, reset (ev_later e) b)
  end.

Fixpoint run (events : list Event) (b : Breaker) : list Answer * Breaker :=
  match events with
  | [] => ([], b)
  | e :: events =>
      let '(answer, b) := exec e b in let '(answers, b) := run events b in (answer :: answers, b)
  end.

(** ** What it promises *)

(** The state of the promise: all failures counted since the last reset. *)
Record Spec : Type := mkSpec { sp_state : CircuitState; sp_since : Z; sp_probe : bool; sp_failures : list Z }.

(** Failures within the window that ends now. *)
Definition recent (now : Z) (failures : list Z) : nat :=
  length (filter (fun ts => now - ts <= cc_failureWindowMs config) failures).

Definition counts (statusCode : option Z) : Prop :=
  match statusCode with Some c => c ∈ cc_failureStatusCodes config | None => True end.

#[global] Instance counts_dec statusCode : Decision (counts statusCode).
Proof. destruct statusCode; apply _. Defined.

(** The number of recent failures, up to the threshold, and the last failure
    if it is recent. *)
Definition spec_snapshot (s : Spec) (now : Z) : CircuitBreakerSnapshot :=
  mkBreakerSnapshot (sp_state s) (Nat.min size (recent now (sp_failures s)))
    (last (filter (fun ts => now - ts <= cc_failureWindowMs config) (sp_failures s))) (sp_since s).

Definition spec_allowed (e : Event) (s : Spec) : bool * Spec :=
  match sp_state s with
  | CLOSED => (true, s)
  | OPEN =>
      if decide (cc_cooldownMs config <= ev_now e - sp_since s)
      then (true, mkSpec HALF_OPEN (ev_later e) true (sp_failures s)) else (false, s)
  | HALF_OPEN => (negb (sp_probe s), mkSpec HALF_OPEN (sp_since s) true (sp_failures s))
  end.

Definition spec_failure (e : Event) (s : Spec) : Spec :=
  let failures := sp_failures s ++ [ev_now e] in
  match sp_state s with
  | CLOSED =>
      if decide (size <= recent (ev_now e) failures)%nat then mkSpec OPEN (ev_later e) (sp_probe s) failures
      else mkSpec CLOSED (sp_since s) (sp_probe s) failures
  | OPEN => mkSpec OPEN (sp_since s) (sp_probe s) failures
  | HALF_OPEN => mkSpec OPEN (ev_later e) false (sp_failures s)
  end.

Definition spec_exec (e : Event) (s : Spec) : Answer * Spec :=
  let reply now s := (answer_snapshot (spec_snapshot s now), s) in
  match ev_op e with
  | op_isAllowed => let '(answer, s) := spec_allowed e s in (answer_allowed answer, s)
  | op_recordSuccess => reply (ev_last e) (if decide (sp_state s = HALF_OPEN) then mkSpec CLOSED (ev_later e) false [] else s)
  | op_recordFailure code => reply (ev_now e) (if decide (counts code) then spec_failure e s else s)
  | op_releaseProbe =>
      reply (ev_now e) (if decide (sp_state s = HALF_OPEN) then mkSpec HALF_OPEN (sp_since s) false (sp_failures s) else s)
  | op_getSnapshot => reply (ev_now e) s
  | op_reset => (answer_none, mkSpec CLOSED (ev_later e) false [])
  end.

Fixpoint spec_run (events : list Event) (s : Spec) : list Answer * Spec :=
  match events with
  | [] => ([], s)
  | e :: events =>
      let '(answer, s) := spec_exec e s in let '(answers, s) := spec_run events s in (answer :: answers, s)
  end.

(** ** The ring holds the last failures *)

(** The entries before the index are the newest, the others the oldest. *)
Definition ring_holds (ring : list Z) (index : nat) (failures : list Z) : Prop :=
  index = length failures /\ length ring = size /\ exists A B, ring = A ++ B /\ length A = (length failures mod size)%nat /\
    ((length failures < size /\ A = failures)%nat \/
     (size <= length failures /\ B ++ A = drop (length failures - size) failures)%nat).

Lemma mod_succ (n L : nat) : (0 < n)%nat ->
  ((S (L mod n) < n /\ S L mod n = S (L mod n)) \/ (S (L mod n) = n /\ S L mod n = 0))%nat.
Proof.
  intros Hn. pose proof (Nat.mod_upper_bound L n ltac:(lia)) as Hb. pose proof (Nat.div_mod_eq L n) as Hd.
  destruct (decide (S (L mod n) = n)) as [He|He]; [right|left]; (split; [lia|]).
  - symmetry. apply (Nat.mod_unique _ _ (S (L / n))); lia.
  - symmetry. apply (Nat.mod_unique _ _ (L / n)); lia.
Qed.

Lemma drop_succ (l : list Z) d x r : drop d l = x :: r -> drop (S d) l = r.
Proof.
  revert l. induction d as [|d IH]; intros [|y l] H; simpl in *; try discriminate; [by injection H as -> ->|by apply IH].
Qed.

Lemma ring_push ring index failures now : (0 < size)%nat -> ring_holds ring index failures ->
  ring_holds (<[(index mod size)%nat := now]> ring) (S index) (failures ++ [now]).
Proof.
  intros Hn (-> & Hlen & A & B & -> & HA & Hcase). rewrite <-HA.
  pose proof (Nat.mod_upper_bound (length failures) size ltac:(lia)) as Hlt.
  destruct B as [|o B]; [rewrite length_app in Hlen; simpl in Hlen; lia|].
  assert (Hins : <[length A := now]> (A ++ o :: B) = A ++ now :: B).
  { replace (length A) with (length A + 0)%nat by lia. by rewrite insert_app_r. }
  rewrite Hins. split; [rewrite length_app; simpl; lia|]. split; [rewrite length_app in *; simpl in *; lia|].
  rewrite length_app in *. simpl in *. rewrite Nat.add_1_r.
  destruct (mod_succ size (length failures) Hn) as [[H1 ->]|[H1 ->]].
  - exists (A ++ [now]), B. rewrite <-(assoc_L app), length_app. split; [done|]. split; [simpl; lia|].
    destruct Hcase as [[Hs ->]|[Hs Hd]].
    + rewrite Nat.mod_small in H1 by done. left. split; [lia|done].
    + right. split; [lia|]. rewrite (assoc_L app). replace (S (length failures) - size)%nat with (S (length failures - size)) by lia.
      rewrite drop_app_le by lia. f_equal. symmetry. by apply (drop_succ _ _ o).
  - assert (HB : B = []) by (destruct B; [done|simpl in Hlen; lia]). subst B. exists [], (A ++ [now]). split; [done|]. split; [done|].
    right. split.
    + destruct Hcase as [[Hs _]|[Hs _]]; [rewrite Nat.mod_small in H1 by done|]; lia.
    + rewrite app_nil_r. destruct Hcase as [[Hs ->]|[Hs Hd]].
      * rewrite Nat.mod_small in H1 by done. replace (S (length failures) - size)%nat with 0%nat by lia. done.
      * replace (S (length failures) - size)%nat with (S (length failures - size)) by lia.
        rewrite drop_app_le by lia. f_equal. symmetry. by apply (drop_succ _ _ o).
Qed.

Lemma ring_empty ring : length ring = size -> (0 < size)%nat -> ring_holds ring 0 [].
Proof.
  intros Hl Hn. split; [done|]. split; [done|]. exists [], ring. simpl. split; [done|]. split; [by rewrite Nat.Div0.mod_0_l|].
  left. by split.
Qed.

Lemma ring_contents ring index failures : (0 < size)%nat -> ring_holds ring index failures ->
  take (Nat.min index size) ring ≡ₚ drop (length failures - size) failures.
Proof.
  intros Hn (-> & Hlen & A & B & -> & HA & [[Hs ->]|[Hs Hd]]).
  - rewrite Nat.min_l by lia. rewrite take_app_length. replace (length failures - size)%nat with 0%nat by lia. done.
  - rewrite Nat.min_r by lia. rewrite <-Hd, <-Hlen, firstn_all. apply Permutation_app_comm.
Qed.

(** ** Counting recent failures *)

Lemma scan_count b now :
  (scanRingBuffer b now).1 = recent now (take (Nat.min (cb_ringCount b) size) (cb_ringBuffer b)).
Proof.
  unfold scanRingBuffer, recent. apply (foldl_ind (fun seen acc =>
    acc.1 = length (filter (fun ts => now - ts <= cc_failureWindowMs config) seen))); [done|].
  intros seen ts rest [k o] _ H. rewrite filter_app, length_app, filter_cons, filter_nil. simpl in *.
  destruct (Z.leb_spec (now - ts) (cc_failureWindowMs config)); [rewrite decide_True by done|rewrite decide_False by lia]; simpl; lia.
Qed.

(** Among failures in order the recent ones come last. *)
Lemma recent_drop now failures d : StronglySorted Z.le failures ->
  recent now (drop d failures) = Nat.min (length failures - d) (recent now failures).
Proof.
  unfold recent. intros Hs. revert d. induction Hs as [|x l Hs IH Hx]; intros d; [by rewrite drop_nil|].
  pose proof (length_filter (fun ts => now - ts <= cc_failureWindowMs config) l) as Hle.
  destruct d as [|d].
  - rewrite drop_0, filter_cons. case_decide; cbn [length]; lia.
  - simpl. rewrite IH, filter_cons. case_decide as Hr; [|done].
    assert (Hall : filter (fun ts => now - ts <= cc_failureWindowMs config) l = l).
    { apply filter_all. intros ts Hts. rewrite Forall_forall in Hx. specialize (Hx ts Hts). lia. }
    rewrite Hall. cbn [length]. lia.
Qed.

Lemma scan_recent b failures now : (0 < size)%nat -> ring_holds (cb_ringBuffer b) (cb_ringCount b) failures ->
  StronglySorted Z.le failures -> (scanRingBuffer b now).1 = Nat.min size (recent now failures).
Proof.
  intros Hn Hr Hs. rewrite scan_count. pose proof (ring_contents _ _ _ Hn Hr) as Hp.
  unfold recent at 1. rewrite Hp. fold (recent now (drop (length failures - size) failures)). rewrite recent_drop by done.
  pose proof (length_filter (fun ts => now - ts <= cc_failureWindowMs config) failures). unfold recent. lia.
Qed.

(** ** The newest recent failure *)

Definition newest (o : option Z) (l : list Z) : Prop :=
  match o with None => l = [] | Some m => m ∈ l /\ forall ts, ts ∈ l -> ts <= m end.

Lemma newest_unique o o' l l' : newest o l -> newest o' l' -> (forall ts, ts ∈ l <-> ts ∈ l') -> o = o'.
Proof.
  destruct o as [m|], o' as [m'|]; simpl; [| | |done].
  - intros [H1 H2] [H1' H2'] Hiff. f_equal. pose proof (H2 m' (proj2 (Hiff m') H1')). pose proof (H2' m (proj1 (Hiff m) H1)). lia.
  - intros [H1 _] -> Hiff. apply Hiff in H1. by apply not_elem_of_nil in H1.
  - intros -> [H1 _] Hiff. apply Hiff in H1. by apply not_elem_of_nil in H1.
Qed.

Lemma newest_last l : StronglySorted Z.le l -> newest (last l) l.
Proof.
  induction l as [|x l' _] using rev_ind; intros Hs; [done|]. rewrite last_snoc. simpl.
  split; [apply elem_of_app; right; by apply list_elem_of_singleton|]. intros ts [H| ->%list_elem_of_singleton]%elem_of_app; [|lia].
  eapply StronglySorted_app_1_elem_of; [done|done|by apply list_elem_of_singleton].
Qed.

Lemma newest_snoc o l ts : newest o l ->
  newest match o with Some m => if m <? ts then Some ts else Some m | None => Some ts end (l ++ [ts]).
Proof.
  destruct o as [m|]; simpl.
  - intros [Hm Hall]. destruct (Z.ltb_spec m ts); simpl; (split; [rewrite elem_of_app, list_elem_of_singleton; by auto|]).
    all: intros x [Hx| ->%list_elem_of_singleton]%elem_of_app; [specialize (Hall x Hx)|]; lia.
  - intros ->. simpl. split; [by left|]. intros x ->%list_elem_of_singleton. lia.
Qed.

Lemma scan_newest b now :
  newest (scanRingBuffer b now).2
    (filter (fun ts => now - ts <= cc_failureWindowMs config) (take (Nat.min (cb_ringCount b) size) (cb_ringBuffer b))).
Proof.
  unfold scanRingBuffer. apply (foldl_ind (fun done acc =>
    newest acc.2 (filter (fun ts => now - ts <= cc_failureWindowMs config) done))); [done|].
  intros seen ts rest [k o] _ H. rewrite filter_app, filter_cons, filter_nil. simpl in *.
  destruct (Z.leb_spec (now - ts) (cc_failureWindowMs config)) as [Hle|Hgt];
    [rewrite decide_True by done|rewrite decide_False by lia; by rewrite app_nil_r].
  by apply newest_snoc.
Qed.

Lemma scan_last b failures now : (0 < size)%nat -> ring_holds (cb_ringBuffer b) (cb_ringCount b) failures ->
  StronglySorted Z.le failures ->
  (scanRingBuffer b now).2 = last (filter (fun ts => now - ts <= cc_failureWindowMs config) failures).
Proof.
  intros Hn Hr Hs. pose proof (ring_contents _ _ _ Hn Hr) as Hp.
  assert (Hlast : newest (last (filter (fun ts => now - ts <= cc_failureWindowMs config) failures))
    (filter (fun ts => now - ts <= cc_failureWindowMs config) failures)) by (by apply newest_last, StronglySorted_filter).
  pose proof (scan_newest b now) as Hscan. remember (length failures - size)%nat as d eqn:Hd.
  assert (Hold : forall x y, x ∈ take d failures -> y ∈ drop d failures -> x <= y).
  { intros x y Hx Hy. eapply StronglySorted_app_1_elem_of; [|done|done]. by rewrite take_drop. }
  assert (Hmem : forall ts, ts ∈ failures <-> ts ∈ take d failures \/ ts ∈ drop d failures).
  { intros ts. rewrite <-elem_of_app. by rewrite take_drop. }
  eapply newest_unique; [|exact Hlast|done]. destruct (scanRingBuffer b now).2 as [m|]; simpl in *.
  - destruct Hscan as [Hm Hall]. apply list_elem_of_filter in Hm as [Hw Hm]. rewrite Hp in Hm.
    split; [apply list_elem_of_filter; split; [done|]; apply Hmem; by right|]. intros ts [Hts Hin]%list_elem_of_filter.
    apply Hmem in Hin as [Hin|Hin]; [by apply Hold|]. apply Hall, list_elem_of_filter. by rewrite Hp.
  - destruct (drop d failures) as [|x r] eqn:Hdrop.
    { apply (f_equal length) in Hdrop. rewrite length_drop in Hdrop. simpl in Hdrop. destruct failures; [done|simpl in *; lia]. }
    assert (Hx : ~ now - x <= cc_failureWindowMs config).
    { intros Hx. apply (not_elem_of_nil x). rewrite <-Hscan. apply list_elem_of_filter. split; [done|]. rewrite Hp. by left. }
    apply elem_of_nil_inv. intros ts [Hts Hin]%list_elem_of_filter. apply Hmem in Hin as [Hin|Hin].
    + pose proof (Hold ts x Hin ltac:(by left)). lia.
    + apply (not_elem_of_nil ts). rewrite <-Hscan. apply list_elem_of_filter. by rewrite Hp.
Qed.

(** ** Refinement *)

Record rep (t : Z) (b : Breaker) (s : Spec) : Prop := mkRep {
  rp_state : cb_state b = sp_state s;
  rp_since : cb_lastTransitionAt b = sp_since s;
  rp_probe : cb_probeInFlight b = sp_probe s;
  rp_index : cb_ringIndex b = cb_ringCount b;
  rp_ring : ring_holds (cb_ringBuffer b) (cb_ringCount b) (sp_failures s);
  rp_sorted : StronglySorted Z.le (sp_failures s);
  rp_past : Forall (fun f => f <= t) (sp_failures s)
}.

Lemma rep_later t t' b s : t <= t' -> rep t b s -> rep t' b s.
Proof. intros Ht []. constructor; try done. eapply Forall_impl; [done|]. simpl. lia. Qed.

Lemma rep_push t b s now st probe since : (0 < size)%nat -> rep t b s -> t <= now ->
  rep now (mkBreaker st since probe (<[(cb_ringIndex b mod size)%nat := now]> (cb_ringBuffer b)) (S (cb_ringIndex b)) (S (cb_ringCount b)))
    (mkSpec st since probe (sp_failures s ++ [now])).
Proof.
  intros Hn [H1 H2 H3 H4 H5 H6 H7] Ht. constructor; simpl; try done; [congruence| | |].
  - rewrite H4. by apply ring_push.
  - apply StronglySorted_snoc; [done|]. intros f Hf. rewrite Forall_forall in H7. specialize (H7 f Hf). lia.
  - apply Forall_app. split; [|by constructor]. eapply Forall_impl; [exact H7|]. simpl. lia.
Qed.

Lemma snapshot_refines t b s now : (0 < size)%nat -> rep t b s -> snapshot b now = spec_snapshot s now.
Proof.
  intros Hn [H1 H2 H3 H4 H5 H6 H7]. unfold snapshot. destruct (scanRingBuffer b now) as [count newest_at] eqn:Hscan.
  pose proof (scan_recent b _ now Hn H5 H6) as Hc. pose proof (scan_last b _ now Hn H5 H6) as Hl. rewrite Hscan in Hc, Hl.
  simpl in Hc, Hl. unfold spec_snapshot. by rewrite H1, H2, Hc, Hl.
Qed.

Lemma rep_clear t later b s : (0 < size)%nat -> rep t b s ->
  rep later (resetRingBuffer (transitionTo CLOSED later (set_probe false b))) (mkSpec CLOSED later false []).
Proof.
  intros Hn [H1 H2 H3 H4 H5 H6 H7]. constructor; simpl; try done; try (by constructor).
  apply ring_empty; [|done]. rewrite length_fmap. apply H5.
Qed.

Lemma allowed_refines t e b s : rep t b s -> t <= ev_later e ->
  (isAllowed (ev_now e) (ev_later e) b).1 = (spec_allowed e s).1 /\
  rep (ev_later e) (isAllowed (ev_now e) (ev_later e) b).2 (spec_allowed e s).2.
Proof.
  intros Hrep Ht. apply (rep_later _ (ev_later e)) in Hrep; [|done]. pose proof Hrep as [H1 H2 H3 H4 H5 H6 H7].
  unfold isAllowed, spec_allowed. rewrite H1. destruct (sp_state s); [done| |].
  - rewrite H2. destruct (Z.leb_spec (cc_cooldownMs config) (ev_now e - sp_since s)) as [Hc|Hc].
    + rewrite decide_True by done. split; [done|]. by constructor.
    + by rewrite decide_False by lia.
  - rewrite H3. destruct (sp_probe s) eqn:Hp; (split; [done|]); constructor; simpl; congruence.
Qed.

Lemma failure_refines t e b s code : (0 < size)%nat -> rep t b s -> t <= ev_now e <= ev_later e ->
  rep (ev_later e) (recordFailure code (ev_now e) (ev_later e) b) (if decide (counts code) then spec_failure e s else s).
Proof.
  intros Hn Hrep Ht. pose proof Hrep as [H1 H2 H3 H4 H5 H6 H7].
  unfold recordFailure. rewrite H1. replace (match code with Some c => _ | None => false end) with (bool_decide (~ counts code))
    by (destruct code; [done|by apply bool_decide_eq_false_2; intros H; apply H]).
  case_bool_decide as Hc; [rewrite (decide_False (P := counts code)) by done; eapply rep_later; [|done]; lia|].
  rewrite (decide_True (P := counts code)) by done. unfold spec_failure.
  destruct (sp_state s) eqn:Hst.
  - pose proof (rep_push t b s (ev_now e) CLOSED (sp_probe s) (sp_since s) Hn Hrep ltac:(lia)) as Hpush.
    assert (Hb : push_failure (ev_now e) b = mkBreaker CLOSED (sp_since s) (sp_probe s)
      (<[(cb_ringIndex b mod size)%nat := ev_now e]> (cb_ringBuffer b)) (S (cb_ringIndex b)) (S (cb_ringCount b))).
    { unfold push_failure. by rewrite H1, H2, H3. }
    rewrite <-Hb in Hpush.
    rewrite (scan_recent _ (sp_failures s ++ [ev_now e]) (ev_now e) Hn (rp_ring _ _ _ Hpush) (rp_sorted _ _ _ Hpush)).
    apply (rep_later _ (ev_later e)) in Hpush; [|lia].
    destruct (Nat.leb_spec size (Nat.min size (recent (ev_now e) (sp_failures s ++ [ev_now e])))) as [Hle|Hgt].
    + rewrite decide_True by lia. destruct Hpush. by constructor.
    + by rewrite decide_False by lia.
  - apply (rep_later (ev_now e)); [lia|]. unfold push_failure. rewrite H1, H2, H3. apply (rep_push t b s); [done|done|lia].
  - apply (rep_later _ (ev_later e)) in Hrep; [|lia]. destruct Hrep. by constructor.
Qed.

(** The clock never runs backwards. *)
Fixpoint in_order (t : Z) (events : list Event) : Prop :=
  match events with
  | [] => True
  | e :: events => t <= ev_now e /\ ev_now e <= ev_later e /\ ev_later e <= ev_last e /\ in_order (ev_last e) events
  end.

Lemma exec_refines t e b s : (0 < size)%nat -> rep t b s -> t <= ev_now e /\ ev_now e <= ev_later e /\ ev_later e <= ev_last e ->
  (exec e b).1 = (spec_exec e s).1 /\ rep (ev_last e) (exec e b).2 (spec_exec e s).2.
Proof.
  intros Hn Hrep Ht. unfold exec, spec_exec. destruct (ev_op e) as [| |code| | |].
  - destruct (allowed_refines t e b s Hrep ltac:(lia)) as [Ha Hb].
    destruct (isAllowed (ev_now e) (ev_later e) b), (spec_allowed e s). simpl in *. split; [congruence|].
    eapply rep_later; [|done]. lia.
  - assert (Hb : rep (ev_last e) (recordSuccess (ev_later e) b)
      (if decide (sp_state s = HALF_OPEN) then mkSpec CLOSED (ev_later e) false [] else s)).
    { unfold recordSuccess. rewrite (rp_state _ _ _ Hrep). destruct (sp_state s) eqn:Hs; simpl.
      1, 2: eapply rep_later; [|done]; lia.
      eapply rep_later; [|by eapply rep_clear]. lia. }
    split; [|done]. simpl. f_equal. by eapply snapshot_refines.
  - pose proof (failure_refines t e b s code Hn Hrep ltac:(lia)) as Hb. simpl.
    split; [f_equal; by eapply snapshot_refines|]. eapply rep_later; [|done]. lia.
  - assert (Hb : rep (ev_last e) (releaseProbe b)
      (if decide (sp_state s = HALF_OPEN) then mkSpec HALF_OPEN (sp_since s) false (sp_failures s) else s)).
    { apply (rep_later _ (ev_last e)) in Hrep; [|lia]. pose proof Hrep as [H1 H2 H3 H4 H5 H6 H7]. unfold releaseProbe.
      rewrite H1. destruct (sp_state s) eqn:Hs; try done. simpl. destruct (cb_probeInFlight b) eqn:Hp; by constructor. }
    split; [|done]. simpl. f_equal. by eapply snapshot_refines.
  - simpl. split; [f_equal; by eapply snapshot_refines|]. eapply rep_later; [|done]. lia.
  - simpl. split; [done|]. eapply rep_later; [|by eapply rep_clear]. lia.
Qed.

Lemma run_refines t events b s : (0 < size)%nat -> rep t b s -> in_order t events ->
  (run events b).1 = (spec_run events s).1.
Proof.
  intros Hn. revert t b s. induction events as [|e events IH]; intros t b s Hrep Ht; [done|]. simpl in *.
  destruct Ht as (Ht1 & Ht2 & Ht3 & Ht). destruct (exec_refines t e b s Hn Hrep (conj Ht1 (conj Ht2 Ht3))) as [Ha Hb].
  destruct (exec e b) as [answer b'], (spec_exec e s) as [answer' s']. simpl in *. pose proof (IH _ _ _ Hb Ht) as Hrun.
  destruct (run events b'), (spec_run events s'). simpl in *. congruence.
Qed.

(** C36: a breaker with a ring of [failureThreshold] slots gives, for every
    sequence of calls, the answers of one that remembers every failure since it
    last closed: the same permissions and the same snapshots, as long as the
    clock does not run backwards. *)
Theorem breaker_refines now events : (0 < size)%nat -> in_order now events ->
  (run events (createCircuitBreaker now)).1 = (spec_run events (mkSpec CLOSED now false [])).1.
Proof.
  intros Hn Ht. eapply run_refines; [done| |exact Ht]. constructor; simpl; try done; try (by constructor).
  apply ring_empty; [|done]. apply length_replicate || apply repeat_length.
Qed.

End Breaker.

(** Two failures open a breaker of threshold two, the probe's success closes it. *)
Definition small_config : CircuitBreakerConfig := mkBreakerConfig 2 10 100 [500].

Definition small_events : list Event :=
  [mkEvent (op_recordFailure (Some 500)) 1 1 1; mkEvent (op_recordFailure None) 2 3 3; mkEvent (op_recordFailure None) 4 4 4;
   mkEvent op_isAllowed 5 5 5; mkEvent op_isAllowed 13 14 14; mkEvent op_isAllowed 15 15 15;
   mkEvent op_recordSuccess 16 17 18; mkEvent op_isAllowed 19 19 19].

Lemma breaker_refines_witness :
  (run small_config small_events (createCircuitBreaker small_config 0)).1 =
    (spec_run small_config small_events (mkSpec CLOSED 0 false [])).1 /\
  (run small_config small_events (createCircuitBreaker small_config 0)).1 !! 3%nat = Some (answer_allowed false) /\
  (run small_config small_events (createCircuitBreaker small_config 0)).1 !! 4%nat = Some (answer_allowed true) /\
  (run small_config small_events (createCircuitBreaker small_config 0)).1 !! 2%nat =
    Some (answer_snapshot (mkBreakerSnapshot OPEN 2 (Some 4) 3)).
Proof.
  split; [|done]. apply (breaker_refines small_config 0 small_events); [simpl; lia|]. simpl. lia.
Defined.
