(* ===== verification/SequenceTracker.v ===== *)
(** * Ordering the frames of a connection

    [net/gateway/src/sequence-tracker.ts]: the gateway gives every connection a
    tracker that puts the client's frames in the order of their sequence
    numbers and drops repeats.  A frame ahead of its turn waits in a buffer of
    at most a window of frames; the ids of recent frames are remembered. *)

From S2P Require Import Prelude JsMap.
From stdpp Require Import sorting.

Local Open Scope list_scope.
Local Open Scope Z_scope.

Section SequenceTracker.
Context {Payload : Type}.

(** ** The code *)

Inductive GatewayFrameKind : Type := gk_request | gk_response | gk_event | gk_ack | gk_error.

(** Sequence numbers are integers: the parser of frames rejects others. *)
Record GatewayFrame : Type := mkFrame {
  gf_kind : GatewayFrameKind;
  gf_id : string;
  gf_seq : Z;
  gf_ref : option string;
  gf_payload : Payload;
  gf_timestamp : Z
}.

Inductive AcceptResult : Type := accepted | duplicate | out_of_window | buffered.

#[export] Instance AcceptResult_eq_dec : EqDecision AcceptResult.
Proof. solve_decision. Defined.

Record SequenceTracker : Type := mkTracker {
  st_nextExpected : Z;
  st_buffer : list (Z * GatewayFrame);
  st_seenIds : list (string * Z)
}.

Definition empty_tracker : SequenceTracker := mkTracker 0 [] [].

Definition reset (startSeq : Z) (t : SequenceTracker) : SequenceTracker := mkTracker startSeq [] [].

Variable windowSize : Z.

Definition pruneSeenIds (t : SequenceTracker) : SequenceTracker :=
  let cutoff := st_nextExpected t - windowSize in
  if cutoff <=? 0 then t
  else mkTracker (st_nextExpected t) (st_buffer t) (filter (fun e => ~ e.2 < cutoff) (st_seenIds t)).

(** Each turn of the loop takes a frame out of the buffer. *)
Fixpoint flush_loop (fuel : nat) (next : Z) (buffer : list (Z * GatewayFrame)) : list GatewayFrame * Z * list (Z * GatewayFrame) :=
  match m_get next buffer, fuel with
  | Some frame, S fuel =>
      let '(ready, next', buffer') := flush_loop fuel (next + 1) (m_delete next buffer) in (frame :: ready, next', buffer')
  | _, _ => ([], next, buffer)
  end.

Definition flushReady (t : SequenceTracker) : list GatewayFrame * SequenceTracker :=
  let '(ready, next, buffer) := flush_loop (m_size (st_buffer t)) (st_nextExpected t) (st_buffer t) in
  (ready, pruneSeenIds (mkTracker next buffer (st_seenIds t))).

Definition accept (frame : GatewayFrame) (t : SequenceTracker) : (AcceptResult * list GatewayFrame) * SequenceTracker :=
  let seq := gf_seq frame in
  let id := gf_id frame in
  if seq <? st_nextExpected t then ((duplicate, []), t)
  else if st_nextExpected t + windowSize <=? seq then ((out_of_window, []), t)
  else if m_has id (st_seenIds t) then ((duplicate, []), t)
  else if m_has seq (st_buffer t) then ((duplicate, []), t)
  else
    let seenIds := m_set id seq (st_seenIds t) in
    if seq =? st_nextExpected t then
      let '(flushed, t) := flushReady (mkTracker (st_nextExpected t + 1) (st_buffer t) seenIds) in
      ((accepted, frame :: flushed), t)
    else ((buffered, []), mkTracker (st_nextExpected t) (m_set seq frame (st_buffer t)) seenIds).

Definition expectedSeq (t : SequenceTracker) : Z := st_nextExpected t.
Definition bufferedCount (t : SequenceTracker) : nat := m_size (st_buffer t).

Definition by_seq : relation GatewayFrame := fun a b => gf_seq a <= gf_seq b.

#[export] Instance by_seq_dec : RelDecision by_seq.
Proof. intros a b. apply Z_le_dec. Defined.

#[export] Instance by_seq_total : Total by_seq.
Proof. intros a b. unfold by_seq. lia. Qed.

#[export] Instance by_seq_trans : Transitive by_seq.
Proof. intros a b c. unfold by_seq. lia. Qed.

Definition bufferedFrames (t : SequenceTracker) : list GatewayFrame := merge_sort by_seq (m_values (st_buffer t)).

(** ** What a connection does with it *)

Fixpoint receive (frames : list GatewayFrame) (t : SequenceTracker) : list (AcceptResult * list GatewayFrame) * SequenceTracker :=
  match frames with
  | [] => ([], t)
  | frame :: frames =>
      let '(answer, t) := accept frame t in let '(answers, t) := receive frames t in (answer :: answers, t)
  end.

(** What is dispatched, and which frames were let in. *)
Definition dispatched (answers : list (AcceptResult * list GatewayFrame)) : list GatewayFrame := concat answers.*2.

Definition let_in (answer : AcceptResult) : Prop := answer = accepted \/ answer = buffered.

#[global] Instance let_in_dec answer : Decision (let_in answer).
Proof. unfold let_in. apply _. Defined.

Definition admitted (frames : list GatewayFrame) (answers : list (AcceptResult * list GatewayFrame)) : list GatewayFrame :=
  (filter (fun p => let_in p.2.1) (zip frames answers)).*1.

(** ** Invariant *)

(** What the ids of the frames let in say about repeats. *)
Record remembers (next : Z) (seen : list GatewayFrame) (ids : list (string * Z)) : Prop := mkRemembers {
  rm_ids : NoDup (m_keys ids);
  rm_seqs : forall f, f ∈ seen -> 0 <= gf_seq f;
  rm_known : forall id s, (id, s) ∈ ids -> next - windowSize <= s /\ exists f, f ∈ seen /\ gf_id f = id /\ gf_seq f = s;
  rm_recent : forall f, f ∈ seen -> next - windowSize <= gf_seq f -> (gf_id f, gf_seq f) ∈ ids;
  rm_apart : forall f g, f ∈ seen -> g ∈ seen -> gf_id f = gf_id g -> gf_seq f <= gf_seq g ->
    gf_seq f = gf_seq g \/ gf_seq f + windowSize < gf_seq g
}.

(** [seen] are the frames let in so far, [out] those dispatched, from [start] on. *)
Record ordered (start : Z) (seen out : list GatewayFrame) (t : SequenceTracker) : Prop := mkOrdered {
  od_start : 0 <= start <= st_nextExpected t;
  od_out : gf_seq <$> out = seqZ start (st_nextExpected t - start);
  od_keys : NoDup (m_keys (st_buffer t));
  od_buffer : forall k f, (k, f) ∈ st_buffer t -> k = gf_seq f /\ st_nextExpected t < k < st_nextExpected t + windowSize;
  od_seen : seen ≡ₚ out ++ m_values (st_buffer t);
  od_ids : remembers (st_nextExpected t) seen (st_seenIds t)
}.

Lemma ordered_start start t : 0 <= start -> ordered start [] [] (reset start t).
Proof.
  intros Hs. constructor; simpl; try (by constructor); try set_solver; try lia.
  - by rewrite Z.sub_diag.
  - constructor; try (by constructor); set_solver.
Qed.

Lemma remembers_admit next next' seen ids ids' f : remembers next seen ids -> m_get (gf_id f) ids = None ->
  0 <= gf_seq f -> next <= gf_seq f -> next <= next' -> NoDup (m_keys ids') ->
  (forall e, e ∈ ids' <-> e ∈ m_set (gf_id f) (gf_seq f) ids /\ next' - windowSize <= e.2) ->
  remembers next' (seen ++ [f]) ids'.
Proof.
  intros [H1 H2 H3 H4 H5] Hnew H0 Hle Hn Hnd Hiff. rewrite (m_set_absent _ _ _ Hnew) in Hiff.
  assert (Hother : forall g, g ∈ seen -> gf_id g = gf_id f -> gf_seq g + windowSize < gf_seq f).
  { intros g Hg Hid. destruct (decide (next - windowSize <= gf_seq g)) as [Hr|Hr]; [|lia].
    apply H4 in Hr; [|done]. rewrite Hid in Hr. rewrite (elem_m_get _ _ _ H1 Hr) in Hnew. done. }
  constructor; [done| | | |].
  - intros g [Hg| ->%list_elem_of_singleton]%elem_of_app; auto.
  - intros id s [Hin Hs]%Hiff. split; [done|]. apply elem_of_app in Hin as [Hin|Hin%list_elem_of_singleton].
    + apply H3 in Hin as [_ (g & Hg & Heq)]. exists g. rewrite elem_of_app. auto.
    + simplify_eq. exists f. rewrite elem_of_app, list_elem_of_singleton. auto.
  - intros g Hg Hs. apply Hiff. split; [|done]. apply elem_of_app in Hg as [Hg| ->%list_elem_of_singleton]; apply elem_of_app.
    + left. apply H4; [done|lia].
    + right. by apply list_elem_of_singleton.
  - intros g h [Hg| ->%list_elem_of_singleton]%elem_of_app [Hh| ->%list_elem_of_singleton]%elem_of_app Hid Hseq; auto.
    specialize (Hother h Hh (eq_sym Hid)). lia.
Qed.

Lemma m_values_delete (m : list (Z * GatewayFrame)) k f :
  m_get k m = Some f -> NoDup (m_keys m) -> m_values m ≡ₚ f :: m_values (m_delete k m).
Proof.
  unfold m_values, m_keys. induction m as [|[k' f'] m IH]; intros Hg Hnd; [done|]. simpl in *. apply NoDup_cons in Hnd as [Hk Hnd].
  unfold m_delete. rewrite filter_cons. destruct (decide (k = k')) as [->|Hne].
  - simplify_eq. rewrite decide_False by (simpl; by intros H). f_equiv. fold (m_delete k' m).
    rewrite m_delete_absent; [done|]. by apply not_elem_of_m_keys.
  - rewrite decide_True by (simpl; congruence). simpl. rewrite IH by done. apply Permutation_swap.
Qed.

Lemma flush_spec fuel : forall next buffer ready next' buffer', NoDup (m_keys buffer) -> (m_size buffer <= fuel)%nat ->
  (forall k f, (k, f) ∈ buffer -> k = gf_seq f /\ next <= k) ->
  flush_loop fuel next buffer = (ready, next', buffer') ->
  next <= next' /\ gf_seq <$> ready = seqZ next (next' - next) /\ m_values buffer ≡ₚ ready ++ m_values buffer' /\
  NoDup (m_keys buffer') /\ (forall p, p ∈ buffer' -> p ∈ buffer) /\ (forall k f, (k, f) ∈ buffer' -> next' < k).
Proof.
  induction fuel as [|fuel IH]; intros next buffer ready next' buffer' Hnd Hsz Hlow Hrun; simpl in Hrun.
  - destruct buffer; [|simpl in Hsz; lia]. simpl in Hrun. simplify_eq. rewrite Z.sub_diag. split_and!; set_solver by lia.
  - destruct (m_get next buffer) as [f|] eqn:Hget.
    + destruct (flush_loop fuel (next + 1) (m_delete next buffer)) as [[ready1 next1] buffer1] eqn:Hrec. simplify_eq.
      pose proof (m_values_delete _ _ _ Hget Hnd) as Hp.
      apply IH in Hrec as (H1 & H2 & H3 & H4 & H5 & H6).
      * pose proof (proj1 (Hlow _ _ (m_get_elem _ _ _ Hget))) as ->. split; [lia|]. split.
        { rewrite fmap_cons, H2, (seqZ_cons (gf_seq f)) by lia. f_equal. f_equal; lia. }
        split; [by rewrite Hp, H3|]. split; [done|]. split; [|done]. intros p Hin%H5. by apply elem_of_m_delete in Hin as [_ Hin].
      * by apply NoDup_m_delete.
      * apply Permutation_length in Hp. unfold m_size, m_values in *. simpl in Hp. rewrite !length_fmap in Hp. lia.
      * intros k g [Hk Hin]%elem_of_m_delete. simpl in Hk. pose proof (Hlow k g Hin). split; [tauto|lia].
    + simplify_eq. rewrite Z.sub_diag. split; [lia|]. split; [done|]. split; [done|]. split; [done|]. split; [done|].
      intros k g Hin. pose proof (Hlow k g Hin) as [_ Hle]. apply not_elem_of_m_keys in Hget.
      assert (k ≠ next'); [|lia]. intros ->. apply Hget. apply list_elem_of_fmap. by exists (next', g).
Qed.

Lemma prune_spec next buffer ids : (forall e, e ∈ ids -> 0 <= e.2) -> NoDup (m_keys ids) ->
  exists ids', pruneSeenIds (mkTracker next buffer ids) = mkTracker next buffer ids' /\
    NoDup (m_keys ids') /\ forall e, e ∈ ids' <-> e ∈ ids /\ next - windowSize <= e.2.
Proof.
  intros Hpos Hnd. unfold pruneSeenIds. simpl. destruct (Z.leb_spec (next - windowSize) 0) as [Hc|Hc].
  - exists ids. split; [done|]. split; [done|]. intros e. split; [|tauto]. intros He. specialize (Hpos e He). split; [done|lia].
  - eexists. split; [reflexivity|]. split.
    + unfold m_keys. eapply sublist_NoDup; [exact Hnd|]. apply fmap_sublist, sublist_filter.
    + intros e. rewrite list_elem_of_filter. split; [intros [? ?]|intros [? ?]]; split; try done; lia.
Qed.

Lemma accept_ordered start seen out t f : ordered start seen out t ->
  ordered start (seen ++ if decide (let_in (accept f t).1.1) then [f] else []) (out ++ (accept f t).1.2) (accept f t).2.
Proof.
  intros Hord. pose proof Hord as [Hst Hout Hkeys Hbuf Hseen Hids].
  assert (Hsame : ordered start (seen ++ []) (out ++ []) t) by (by rewrite !app_nil_r).
  unfold accept. destruct (Z.ltb_spec (gf_seq f) (st_nextExpected t)) as [|Hlow]; [done|].
  destruct (Z.leb_spec (st_nextExpected t + windowSize) (gf_seq f)) as [|Hhigh]; [done|].
  destruct (m_has (gf_id f) (st_seenIds t)) eqn:Hid; [done|]. apply m_has_false in Hid.
  destruct (m_has (gf_seq f) (st_buffer t)) eqn:Hheld; [done|]. apply m_has_false in Hheld.
  assert (Hnd : NoDup (m_keys (m_set (gf_id f) (gf_seq f) (st_seenIds t)))) by (apply NoDup_m_set, Hids).
  assert (Hpos : forall e, e ∈ m_set (gf_id f) (gf_seq f) (st_seenIds t) -> 0 <= e.2).
  { rewrite m_set_absent by done. intros [id s] [Hin|Hin%list_elem_of_singleton]%elem_of_app; [|simplify_eq; simpl; lia].
    apply (rm_known _ _ _ Hids) in Hin as [_ (g & Hg & _ & <-)]. by eapply rm_seqs. }
  destruct (Z.eqb_spec (gf_seq f) (st_nextExpected t)) as [Heq|Hne].
  - unfold flushReady. simpl.
    destruct (flush_loop (m_size (st_buffer t)) (st_nextExpected t + 1) (st_buffer t)) as [[ready next] buffer] eqn:Hfl.
    apply flush_spec in Hfl as (F1 & F2 & F3 & F4 & F5 & F6);
      [|done|done|intros k g Hin; apply Hbuf in Hin as [-> Hin]; split; [done|lia]].
    destruct (prune_spec next buffer _ Hpos Hnd) as (ids' & -> & Hnd' & Hiff). simpl.
    constructor; simpl; [lia| |done| | |].
    + rewrite fmap_app, fmap_cons, Hout, F2, Heq.
      replace (next - start) with ((st_nextExpected t - start) + (1 + (next - (st_nextExpected t + 1)))) by lia.
      rewrite seqZ_app by lia. f_equal. replace (start + (st_nextExpected t - start)) with (st_nextExpected t) by lia.
      rewrite (seqZ_cons (st_nextExpected t)) by lia. f_equal. f_equal; lia.
    + intros k g Hin. pose proof (F6 _ _ Hin). apply F5, Hbuf in Hin as [-> Hin]. split; [done|lia].
    + rewrite Hseen, F3, <-!(assoc_L app). f_equiv. rewrite (assoc_L app), <-Permutation_cons_append. done.
    + eapply remembers_admit; eauto; lia.
  - simpl. rewrite app_nil_r. constructor; simpl; [done|done|by apply NoDup_m_set| | |].
    + intros k g Hin. apply elem_of_m_set in Hin as [Hin|Hin]; [|auto]. simplify_eq. split; [done|lia].
    + rewrite m_set_absent by done. unfold m_values. rewrite fmap_app. simpl. by rewrite Hseen, (assoc_L app).
    + eapply remembers_admit; eauto; [lia|lia|]. intros [id s]. simpl. split; [|tauto]. intros Hin. split; [done|].
      rewrite m_set_absent in Hin by done. apply elem_of_app in Hin as [Hin|Hin%list_elem_of_singleton]; [|simplify_eq].
      * by apply (rm_known _ _ _ Hids) in Hin as [Hin _].
      * lia.
Qed.

Lemma admitted_cons f frames a answers :
  admitted (f :: frames) (a :: answers) = (if decide (let_in a.1) then [f] else []) ++ admitted frames answers.
Proof. unfold admitted. simpl. rewrite filter_cons. simpl. by destruct (decide (let_in a.1)). Qed.

Lemma receive_ordered start frames : forall seen out t, ordered start seen out t ->
  ordered start (seen ++ admitted frames (receive frames t).1) (out ++ dispatched (receive frames t).1) (receive frames t).2.
Proof.
  induction frames as [|f frames IH]; intros seen out t Hord; [by simpl; rewrite !app_nil_r|].
  simpl. pose proof (accept_ordered start seen out t f Hord) as Hacc. destruct (accept f t) as [a t1]. simpl in Hacc.
  specialize (IH _ _ _ Hacc). destruct (receive frames t1) as [answers t2]. simpl in IH |- *.
  rewrite admitted_cons. unfold dispatched in *. simpl. by rewrite !(assoc_L app).
Qed.

Lemma range_length (l : list Z) a n : NoDup l -> (forall x, x ∈ l -> a <= x < a + n) -> Z.of_nat (length l) <= Z.max 0 n.
Proof.
  intros Hnd Hr. assert (Hs : l ⊆+ seqZ a n).
  { apply NoDup_submseteq; [done|]. intros x Hx. apply elem_of_seqZ. auto. }
  apply submseteq_length in Hs. rewrite length_seqZ in Hs. lia.
Qed.

Lemma seen_injective start seen out t : ordered start seen out t -> NoDup (gf_seq <$> seen).
Proof.
  intros [Hst Hout Hkeys Hbuf Hseen Hids]. rewrite Hseen, fmap_app, Hout.
  assert (Hk : gf_seq <$> m_values (st_buffer t) = m_keys (st_buffer t)).
  { unfold m_values, m_keys. rewrite <-list_fmap_compose. apply list_fmap_ext. intros i [k f] Hi. simpl.
    apply list_elem_of_lookup_2, Hbuf in Hi as [-> _]. done. }
  rewrite Hk. apply NoDup_app. split; [apply NoDup_seqZ|]. split; [|done]. intros k Hin%elem_of_seqZ Hk'.
  apply list_elem_of_fmap in Hk' as ([k' f] & -> & Hin'). apply Hbuf in Hin' as [_ Hin']. simpl in *. lia.
Qed.

Lemma buffer_bound start seen out t : ordered start seen out t -> Z.of_nat (bufferedCount t) <= Z.max 0 (windowSize - 1).
Proof.
  intros [Hst Hout Hkeys Hbuf Hseen Hids]. unfold bufferedCount, m_size. rewrite <-(length_fmap fst).
  apply (range_length _ (st_nextExpected t + 1)); [done|]. intros k Hk.
  apply list_elem_of_fmap in Hk as ([k' f] & -> & Hin). apply Hbuf in Hin as [_ Hin]. simpl. lia.
Qed.

Lemma seen_bound start seen out t : ordered start seen out t -> Z.of_nat (m_size (st_seenIds t)) <= Z.max 0 (2 * windowSize).
Proof.
  intros Hord. pose proof (seen_injective _ _ _ _ Hord) as Hinj. destruct Hord as [Hst Hout Hkeys Hbuf Hseen Hids].
  unfold m_size. rewrite <-(length_fmap snd). apply (range_length _ (st_nextExpected t - windowSize)).
  - apply NoDup_fmap_2_strong; [|by eapply NoDup_fmap_1, Hids]. intros [i a] [j b] Hi Hj Heq. simpl in Heq. subst b.
    apply (rm_known _ _ _ Hids) in Hi as [_ (f & Hf & <- & Hfa)]. apply (rm_known _ _ _ Hids) in Hj as [_ (g & Hg & <- & Hga)].
    assert (f = g) as ->; [|done]. apply list_elem_of_lookup in Hf as [m Hm], Hg as [n Hn].
    assert (m = n) as ->; [|congruence]. eapply (NoDup_lookup (gf_seq <$> seen) m n a); [done| |]; rewrite list_lookup_fmap;
      [rewrite Hm|rewrite Hn]; simpl; congruence.
  - intros s Hs. apply list_elem_of_fmap in Hs as ([id s'] & -> & Hin). simpl.
    apply (rm_known _ _ _ Hids) in Hin as [Hlow (f & Hf & _ & <-)]. split; [done|].
    rewrite Hseen in Hf. apply elem_of_app in Hf as [Hf|Hf].
    + assert (Hq : gf_seq f ∈ gf_seq <$> out) by (by apply list_elem_of_fmap_2). rewrite Hout in Hq. apply elem_of_seqZ in Hq.
      destruct (decide (windowSize <= 0)); lia.
    + apply list_elem_of_fmap in Hf as ([k g] & -> & Hg). apply Hbuf in Hg as [Hk Hg]. simpl in *. lia.
Qed.

(** C38: a tracker dispatches the frames it lets in in the order of their
    numbers, without gap and each once, and holds the rest back in a buffer of
    less than a window; two frames with the same id are let in only if more than
    a window apart, and at most two windows of ids are remembered. *)
Theorem tracker_orders start frames t : 0 <= start ->
  let '(answers, t') := receive frames (reset start t) in
  gf_seq <$> dispatched answers = seqZ start (expectedSeq t' - start) /\
  admitted frames answers ≡ₚ dispatched answers ++ bufferedFrames t' /\
  StronglySorted by_seq (bufferedFrames t') /\ Forall (fun f => expectedSeq t' < gf_seq f) (bufferedFrames t') /\
  Z.of_nat (bufferedCount t') <= Z.max 0 (windowSize - 1) /\ Z.of_nat (m_size (st_seenIds t')) <= Z.max 0 (2 * windowSize) /\
  forall f g, f ∈ admitted frames answers -> g ∈ admitted frames answers -> gf_id f = gf_id g -> gf_seq f <= gf_seq g ->
    gf_seq f = gf_seq g \/ gf_seq f + windowSize < gf_seq g.
Proof.
  intros Hs. pose proof (receive_ordered start frames [] [] _ (ordered_start start t Hs)) as Hord.
  destruct (receive frames (reset start t)) as [answers t']. cbn [fst snd app] in Hord |- *.
  pose proof (buffer_bound _ _ _ _ Hord) as Hb. pose proof (seen_bound _ _ _ _ Hord) as Hi.
  destruct Hord as [Hst Hout Hkeys Hbuf Hseen Hids].
  assert (Hp : bufferedFrames t' ≡ₚ m_values (st_buffer t')) by apply merge_sort_Permutation.
  split; [done|]. split; [by rewrite Hseen, Hp|]. split; [by apply StronglySorted_merge_sort; apply _|].
  split; [|split; [done|split; [done|exact (rm_apart _ _ _ Hids)]]].
  rewrite Hp. apply Forall_forall. intros f Hf. apply list_elem_of_fmap in Hf as ([k g] & -> & Hg).
  apply Hbuf in Hg as [-> Hg]. unfold expectedSeq. simpl. lia.
Qed.

(** ** Nothing is lost *)

(** A client that numbers its frames from [start] on, gives each an id of its
    own, and never sends one before all those a window behind it. *)
Record well_behaved (start : Z) (frames : list GatewayFrame) : Prop := mkWellBehaved {
  wb_ids : NoDup (gf_id <$> frames);
  wb_seqs : gf_seq <$> frames ≡ₚ seqZ start (Z.of_nat (length frames));
  wb_window : forall i j f g, frames !! i = Some f -> frames !! j = Some g -> gf_seq g + windowSize <= gf_seq f -> (j < i)%nat
}.

Lemma lookup_map {B} (h : GatewayFrame -> B) (l : list GatewayFrame) i f : l !! i = Some f -> (h <$> l) !! i = Some (h f).
Proof. intros H. by rewrite list_lookup_fmap, H. Qed.

Lemma accept_next start before f after out t : 0 < windowSize ->
  well_behaved start (before ++ f :: after) -> ordered start before out t -> let_in (accept f t).1.1.
Proof.
  intros Hw [Hwi Hws Hww] Hord. pose proof (seen_injective _ _ _ _ Hord) as Hinj. destruct Hord as [Hst Hout Hkeys Hbuf Hseen Hids].
  set (frames := before ++ f :: after) in *. assert (Hf : frames !! length before = Some f) by apply list_lookup_middle, eq_refl.
  assert (Hnd : NoDup (gf_seq <$> frames)) by (rewrite Hws; apply NoDup_seqZ).
  assert (Hother : forall g, g ∈ before -> gf_seq g ≠ gf_seq f /\ gf_id g ≠ gf_id f).
  { intros g [i Hi]%list_elem_of_lookup. pose proof (lookup_lt_Some _ _ _ Hi) as Hlt.
    assert (Hg : frames !! i = Some g) by (by apply lookup_app_l_Some).
    split; intros Heq; assert (i = length before); [|lia| |lia].
    - eapply (NoDup_lookup _ _ _ _ Hnd); [by apply lookup_map|rewrite Heq; by apply lookup_map].
    - eapply (NoDup_lookup _ _ _ _ Hwi); [by apply lookup_map|rewrite Heq; by apply lookup_map]. }
  assert (Hr : start <= gf_seq f < start + Z.of_nat (length frames)).
  { apply elem_of_seqZ. rewrite <-Hws. apply list_elem_of_fmap_2. by apply list_elem_of_lookup_2 in Hf. }
  assert (Hin : forall g, g ∈ before <-> g ∈ out \/ g ∈ m_values (st_buffer t)) by (intros g; by rewrite Hseen, elem_of_app).
  unfold accept. destruct (Z.ltb_spec (gf_seq f) (st_nextExpected t)) as [Hlow|Hlow].
  { assert (Hq : gf_seq f ∈ gf_seq <$> out) by (rewrite Hout; apply elem_of_seqZ; lia).
    apply list_elem_of_fmap in Hq as (g & Heq & Hg). destruct (Hother g); [apply Hin; by left|congruence]. }
  destruct (Z.leb_spec (st_nextExpected t + windowSize) (gf_seq f)) as [Hhigh|Hhigh].
  { assert (Hq : st_nextExpected t ∈ gf_seq <$> frames) by (rewrite Hws; apply elem_of_seqZ; lia).
    apply list_elem_of_fmap in Hq as (g & Heq & Hg). apply list_elem_of_lookup in Hg as [j Hj].
    assert (Hlt : (j < length before)%nat) by (eapply Hww; [exact Hf|exact Hj|lia]).
    unfold frames in Hj. rewrite lookup_app_l in Hj by done. apply list_elem_of_lookup_2, Hin in Hj as [Hj|Hj].
    - assert (Hq : gf_seq g ∈ gf_seq <$> out) by (by apply list_elem_of_fmap_2). rewrite Hout in Hq. apply elem_of_seqZ in Hq. lia.
    - apply list_elem_of_fmap in Hj as ([k h] & -> & Hh). apply Hbuf in Hh as [-> Hh]. simpl in *. lia. }
  destruct (m_has (gf_id f) (st_seenIds t)) eqn:Hid.
  { apply m_has_spec in Hid as [s Hs]. apply m_get_elem, (rm_known _ _ _ Hids) in Hs as [_ (g & Hg & Heq & _)].
    by destruct (Hother g Hg). }
  destruct (m_has (gf_seq f) (st_buffer t)) eqn:Hheld.
  { apply m_has_spec in Hheld as [g Hg]. apply m_get_elem in Hg. pose proof (Hbuf _ _ Hg) as [Heq _].
    destruct (Hother g); [apply Hin; right; by apply list_elem_of_fmap; exists (gf_seq f, g)|congruence]. }
  destruct (Z.eqb_spec (gf_seq f) (st_nextExpected t)); [|by right].
  destruct (flushReady _). by left.
Qed.

Lemma receive_all start after : forall before out t, 0 < windowSize ->
  well_behaved start (before ++ after) -> ordered start before out t ->
  admitted after (receive after t).1 = after.
Proof.
  induction after as [|f after IH]; intros before out t Hw Hwb Hord; [done|].
  pose proof (accept_next _ _ _ _ _ _ Hw Hwb Hord) as Hlet. pose proof (accept_ordered _ _ _ _ f Hord) as Hacc. simpl.
  destruct (accept f t) as [a t1]. simpl in *. rewrite decide_True in Hacc by done.
  assert (Hrest : admitted after (receive after t1).1 = after).
  { eapply (IH (before ++ [f])); [done|by rewrite <-(assoc_L app)|exact Hacc]. }
  destruct (receive after t1). simpl in *. rewrite admitted_cons, decide_True by done. simpl. by rewrite Hrest.
Qed.

(** C39: every frame of a well-behaved client is dispatched: however the
    network reorders them within a window, the frames come out as the client
    numbered them, and nothing stays behind. *)
Theorem tracker_loses_nothing start frames t : 0 < windowSize -> 0 <= start -> well_behaved start frames ->
  let '(answers, t') := receive frames (reset start t) in
  dispatched answers ≡ₚ frames /\ gf_seq <$> dispatched answers = seqZ start (Z.of_nat (length frames)) /\
  bufferedCount t' = 0%nat.
Proof.
  intros Hw Hs Hwb. pose proof (ordered_start start t Hs) as H0.
  pose proof (receive_ordered start frames [] [] _ H0) as Hord.
  pose proof (receive_all start frames [] [] _ Hw Hwb H0) as Hall.
  destruct (receive frames (reset start t)) as [answers t']. cbn [fst snd app] in *. rewrite Hall in Hord.
  destruct Hwb as [_ Hws _]. destruct Hord as [Hst Hout Hkeys Hbuf Hseen Hids].
  assert (Hempty : st_buffer t' = []).
  { destruct (st_buffer t') as [|[k f] rest] eqn:Hb; [done|exfalso].
    destruct (Hbuf k f) as [-> Hk]; [by left|].
    assert (Hq : gf_seq f ∈ gf_seq <$> frames) by (rewrite Hseen, fmap_app; apply elem_of_app; right; by left).
    rewrite Hws in Hq. apply elem_of_seqZ in Hq.
    assert (Hn : st_nextExpected t' ∈ gf_seq <$> frames) by (rewrite Hws; apply elem_of_seqZ; lia).
    rewrite Hseen, fmap_app, Hout in Hn. apply elem_of_app in Hn as [Hn%elem_of_seqZ|Hn]; [lia|].
    apply list_elem_of_fmap in Hn as (g & Hg & Hin). apply list_elem_of_fmap in Hin as ([k' g'] & -> & Hin). simpl in Hg.
    apply Hbuf in Hin as [-> Hin]. lia. }
  unfold bufferedCount. rewrite Hempty in *. simpl in Hseen. rewrite app_nil_r in Hseen. split; [done|]. split; [|done].
  rewrite Hout. f_equal. apply (f_equal length) in Hout. rewrite length_fmap, length_seqZ in Hout.
  apply Permutation_length in Hseen. lia.
Qed.

End SequenceTracker.

(** Three frames arriving as 1, 0, 2, and a repeat of the first. *)
Definition sample_frame (id : string) (seq : Z) : GatewayFrame := mkFrame gk_event id seq None tt 0.
Definition sample_frames : list (GatewayFrame (Payload := unit)) := [sample_frame "b" 1; sample_frame "a" 0; sample_frame "c" 2].

Lemma tracker_orders_witness :
  (0 <= 0) /\ fst <$> (receive 2 (sample_frames ++ [sample_frame "a" 3; sample_frame "d" 9]) (reset 0 empty_tracker)).1 =
    [buffered; accepted; accepted; accepted; out_of_window] /\
  gf_seq <$> dispatched (receive 2 sample_frames (reset 0 empty_tracker)).1 = seqZ 0 (expectedSeq (receive 2 sample_frames (reset 0 empty_tracker)).2).
Proof.
  split; [lia|]. split; [by vm_compute|]. pose proof (tracker_orders 2 0 sample_frames empty_tracker ltac:(lia)) as H.
  destruct (receive 2 sample_frames (reset 0 empty_tracker)). destruct H as [H _]. simpl. by rewrite H, Z.sub_0_r.
Defined.

Lemma tracker_loses_nothing_witness :
  well_behaved 2 0 sample_frames /\ gf_id <$> dispatched (receive 2 sample_frames (reset 0 empty_tracker)).1 = ["a"; "b"; "c"]%string /\
  bufferedCount (receive 2 sample_frames (reset 0 empty_tracker)).2 = 0%nat.
Proof.
  assert (Hwb : well_behaved 2 0 sample_frames).
  { constructor; [by apply (bool_decide_unpack _); vm_compute|apply Permutation_swap|].
    intros [|[|[|i]]] [|[|[|j]]] f g Hf Hg Hle; simpl in *; simplify_eq; simpl in *; lia. }
  split; [done|]. split; [by vm_compute|].
  pose proof (tracker_loses_nothing 2 0 sample_frames empty_tracker ltac:(lia) ltac:(lia) Hwb) as H.
  destruct (receive 2 sample_frames (reset 0 empty_tracker)). apply H.
Defined.
