(* ===== verification/Retry.v ===== *)
(** * Retrying a call

    [lib/errors/src/retry.ts] and the conversion of thrown values in
    [lib/errors/src/error-utils.ts].  The call is a function of how often it was
    called before; the random numbers are given in the order they are drawn;
    delays are rationals, and the sleeps are returned in order. *)

From Stdlib Require Import QArith Qround Qpower Lqa.
From S2P Require Import Prelude.

Local Open Scope nat_scope.
Local Open Scope list_scope.

(** A thrown value: an error object of the program, or anything else, of which
    only the message extracted from it matters. *)
Inductive Thrown : Type :=
  | thrown_koi (e : KoiError)
  | thrown_other (message : string).

(** Without [cause]. *)
Definition toKoiError (error : Thrown) : KoiError :=
  match error with
  | thrown_koi e => e
  | thrown_other message => koiError EXTERNAL message false
  end.

Inductive JitterStrategy : Type := js_full | js_decorrelated.

Record RetryConfig : Type := mkRetryConfig {
  rc_maxRetries : nat;
  rc_backoffMultiplier : Q;
  rc_initialDelayMs : Z;
  rc_maxBackoffMs : Z;
  rc_jitter : bool;
  rc_jitterStrategy : option JitterStrategy
}.

Definition DEFAULT_RETRY_CONFIG : RetryConfig := mkRetryConfig 3 2 1000 30000 true None.
Definition DEFAULT_RECONNECT_CONFIG : RetryConfig := mkRetryConfig 10 2 1000 30000 true (Some js_decorrelated).

Definition RETRYABLE_CODES : list KoiErrorCode := [CONFLICT; RATE_LIMIT; TIMEOUT; EXTERNAL].
Definition NON_RETRYABLE_CODES : list KoiErrorCode := [VALIDATION; NOT_FOUND; PERMISSION; INTERNAL].

(** The type of errors has [retryable] always there: the default by code, for
    values that lack it, is not reached. *)
Definition isRetryable (error : KoiError) : bool :=
  if decide (err_code error ∈ NON_RETRYABLE_CODES) then false else err_retryable error.

Definition qmin (a b : Q) : Q := if Qle_bool a b then a else b.
Definition qmax (a b : Q) : Q := if Qle_bool a b then b else a.
Definition floor (q : Q) : Q := inject_Z (Qfloor q).

Definition computeBackoff (attempt : nat) (config : RetryConfig) (retryAfterMs : option Z) (random : Q) (prevDelayMs : option Q) : Q :=
  let initial := inject_Z (rc_initialDelayMs config) in
  let cap := inject_Z (rc_maxBackoffMs config) in
  let computed :=
    if rc_jitter config && (match rc_jitterStrategy config with Some js_decorrelated => true | _ => false end) then
      let prev := default 0%Q prevDelayMs in
      let upper := qmin cap (qmax initial (prev * 3)) in
      floor (initial + random * (upper - initial))
    else
      let clampedDelay := qmin (initial * Qpower (rc_backoffMultiplier config) (Z.of_nat attempt)) cap in
      if rc_jitter config then floor (random * clampedDelay) else clampedDelay in
  match retryAfterMs with
  | Some ms => if decide (0 < ms)%Z then inject_Z (Z.min ms (rc_maxBackoffMs config)) else computed
  | None => computed
  end.

Section Retry.
Context {T : Type}.
Variable fn : nat -> T + Thrown.
Variable random : nat -> Q.
Variable config : RetryConfig.

(** [passes]: passes of the loop that remain after this one.  The result, the
    number of calls and the delays slept. *)
Fixpoint retry_loop (passes attempt : nat) : Result T KoiError * nat * list Q :=
  match fn attempt with
  | inl value => (Ok value, 1, [])
  | inr error =>
      let koiError := toKoiError error in
      if bool_decide (rc_maxRetries config <= attempt) || negb (isRetryable koiError) then (Err koiError, 1, [])
      else
        let delay := computeBackoff attempt config (err_retryAfterMs koiError) (random attempt) None in
        match passes with
        | O => (Err koiError, 1, [delay])
        | S passes => let '(result, calls, delays) := retry_loop passes (S attempt) in (result, S calls, delay :: delays)
        end
  end.

Definition withRetry : Result T KoiError * nat * list Q := retry_loop (rc_maxRetries config) 0.

(** A failure after which the loop goes on. *)
Definition transient (attempt : nat) (e : Thrown) : Prop := fn attempt = inr e /\ isRetryable (toKoiError e) = true.

Lemma retry_loop_spec passes : forall attempt, attempt + passes = rc_maxRetries config ->
  let '(result, calls, delays) := retry_loop passes attempt in
  exists n, n <= passes /\ calls = S n /\ length delays = n /\
    (forall i, i < n -> exists e, transient (attempt + i) e /\
       delays !! i = Some (computeBackoff (attempt + i) config (err_retryAfterMs (toKoiError e)) (random (attempt + i)) None)) /\
    match fn (attempt + n) with
    | inl value => result = Ok value
    | inr e => result = Err (toKoiError e) /\ (n = passes \/ isRetryable (toKoiError e) = false)
    end.
Proof.
  induction passes as [|passes IH]; intros attempt Hsum; simpl; destruct (fn attempt) as [value|e] eqn:Hfn.
  1, 3: exists 0; rewrite Nat.add_0_r, Hfn; split_and!; try done; lia.
  - rewrite bool_decide_true by lia. simpl. exists 0. rewrite Nat.add_0_r, Hfn. split_and!; try done; [lia|by left].
  - rewrite bool_decide_false by lia. simpl. destruct (isRetryable (toKoiError e)) eqn:Hr; simpl.
    + specialize (IH (S attempt) ltac:(lia)). destruct (retry_loop passes (S attempt)) as [[result calls] delays].
      destruct IH as (n & Hn & -> & Hlen & Hall & Hend). exists (S n). split; [lia|]. split; [done|]. split; [simpl; lia|]. split.
      * intros [|i] Hi; [exists e; rewrite Nat.add_0_r; by split|]. replace (attempt + S i) with (S attempt + i) by lia.
        simpl. apply Hall. lia.
      * replace (attempt + S n) with (S attempt + n) by lia. destruct (fn (S attempt + n)); [done|].
        destruct Hend as [-> [->|Hend]]; auto.
    + exists 0. rewrite Nat.add_0_r, Hfn. split_and!; try done; try lia. by right.
Qed.

End Retry.

(** ** Bounds of the delay *)

Lemma qmin_spec a b : (qmin a b <= a /\ qmin a b <= b)%Q.
Proof.
  unfold qmin. destruct (Qle_bool a b) eqn:H; [apply Qle_bool_iff in H; lra|].
  assert (~ (a <= b)%Q) by (intros Hle; apply Qle_bool_iff in Hle; congruence). lra.
Qed.

Lemma qmin_glb a b c : (c <= a -> c <= b -> c <= qmin a b)%Q.
Proof. unfold qmin. destruct (Qle_bool a b); lra. Qed.

Lemma floor_spec q (m n : Z) : (inject_Z m <= q -> q <= inject_Z n -> inject_Z m <= floor q /\ floor q <= inject_Z n)%Q.
Proof.
  intros Hm Hn. unfold floor. split; [|pose proof (Qfloor_le q); lra].
  rewrite <-Zle_Qle. rewrite <-(Qfloor_Z m). by apply Qfloor_resp_le.
Qed.

(** The delay stays within the cap, provided the first delay does. *)
Lemma retry_delay_bounds attempt config retryAfterMs random prevDelayMs :
  (0 <= rc_initialDelayMs config <= rc_maxBackoffMs config)%Z -> (0 <= rc_backoffMultiplier config)%Q ->
  (0 <= random < 1)%Q ->
  (0 <= computeBackoff attempt config retryAfterMs random prevDelayMs <= inject_Z (rc_maxBackoffMs config))%Q.
Proof.
  intros Hi Hm Hr. unfold computeBackoff.
  assert (Hi0 : (0 <= inject_Z (rc_initialDelayMs config))%Q) by (change 0%Q with (inject_Z 0); rewrite <-Zle_Qle; lia).
  assert (Hic : (inject_Z (rc_initialDelayMs config) <= inject_Z (rc_maxBackoffMs config))%Q) by (rewrite <-Zle_Qle; lia).
  set (initial := inject_Z (rc_initialDelayMs config)) in *. set (cap := inject_Z (rc_maxBackoffMs config)) in *.
  set (computed := if _ && _ then _ else _).
  assert (Hc : (0 <= computed <= cap)%Q).
  { unfold computed. clear computed. destruct (rc_jitter config && _).
    - set (upper := qmin cap (qmax initial (default 0%Q prevDelayMs * 3))). pose proof (qmin_spec cap (qmax initial (default 0%Q prevDelayMs * 3))) as [Hu _].
      assert (Hlow : (initial <= upper)%Q).
      { apply qmin_glb; [done|]. unfold qmax. destruct (Qle_bool _ _) eqn:H; [by apply Qle_bool_iff|lra]. }
      fold upper in Hu. apply (floor_spec _ 0 (rc_maxBackoffMs config)); fold cap; [change (inject_Z 0) with 0%Q|]; nra.
    - set (delay := qmin _ cap). assert (Hd : (0 <= delay <= cap)%Q).
      { split; [|apply qmin_spec]. apply qmin_glb; [|lra]. apply Qmult_le_0_compat; [done|]. by apply Qpower_pos. }
      destruct (rc_jitter config); [|done]. apply (floor_spec _ 0 (rc_maxBackoffMs config)); fold cap; [change (inject_Z 0) with 0%Q|]; nra. }
  destruct retryAfterMs as [ms|]; [|done]. destruct (decide (0 < ms)%Z); [|done].
  change 0%Q with (inject_Z 0). unfold cap. rewrite <-!Zle_Qle. lia.
Qed.

(** The reconnect preset never draws a delay other than the first: the loop
    does not hand on the previous one. *)
Lemma reconnect_delay_is_constant attempt random :
  (computeBackoff attempt DEFAULT_RECONNECT_CONFIG None random None == 1000)%Q.
Proof.
  unfold computeBackoff. simpl. unfold qmax, qmin. simpl. unfold floor.
  assert (H : (1000 + random * (1000 - 1000) == 1000)%Q) by ring. rewrite H. done.
Qed.

(** A first delay above the cap is slept in full. *)
Lemma decorrelated_ignores_cap :
  computeBackoff 0 (mkRetryConfig 3 2 5000 1000 true (Some js_decorrelated)) None 0 None = 5000%Q.
Proof. done. Qed.
