(* ===== verification/Fallback.v ===== *)
(** * Choosing a provider

    [lib/model-router/src/fallback.ts] and [target-ordering.ts]: a request is
    tried against the targets in an order, past those whose circuit breaker is
    open.  Several requests share the breakers: what others do to them while a
    call is awaited is a parameter. *)

From Stdlib Require Import QArith Lqa.
From S2P Require Import Prelude JsMap CircuitBreaker Retry.
From stdpp Require Import sorting.

Local Open Scope nat_scope.
Local Open Scope list_scope.

Record FallbackTarget : Type := mkFallbackTarget { ft_id : string; ft_enabled : bool }.

Record FallbackAttempt : Type := mkFallbackAttempt {
  fa_targetId : string; fa_success : bool; fa_error : option KoiError; fa_durationMs : Z
}.

Record FallbackResult (T : Type) : Type := mkFallbackResult {
  fr_value : T; fr_targetIndex : nat; fr_attempts : list FallbackAttempt
}.
Arguments mkFallbackResult {T}.
Arguments fr_value {T}.
Arguments fr_targetIndex {T}.
Arguments fr_attempts {T}.

Abbreviation Breakers := (list (string * Breaker)).

(** The breakers, the readings of the clock so far, and the calls so far. *)
Record World : Type := mkWorld { wo_breakers : Breakers; wo_reads : nat; wo_called : list string }.

Section Fallback.
Context {T : Type}.
Variable config : CircuitBreakerConfig.
Variable clock : nat -> Z.
(** The answer to a call for a target, given how many calls were made before. *)
Variable fn : FallbackTarget -> nat -> T + Thrown.
(** What other requests do to the breakers during a call. *)
Variable others : nat -> Breakers -> Breakers.

Definition read (w : World) : Z * World :=
  (clock (wo_reads w), mkWorld (wo_breakers w) (S (wo_reads w)) (wo_called w)).

(** An operation on the breaker of a target; two readings of the clock are set
    aside for it, whether it uses them or not. *)
Definition on_breaker {A} (id : string) (missing : A) (op : Z -> Z -> Breaker -> A * Breaker) (w : World) : A * World :=
  match m_get id (wo_breakers w) with
  | None => (missing, w)
  | Some b =>
      let '(a, b) := op (clock (wo_reads w)) (clock (S (wo_reads w))) b in
      (a, mkWorld (m_set id b (wo_breakers w)) (S (S (wo_reads w))) (wo_called w))
  end.

Definition is_allowed (t : FallbackTarget) (w : World) : bool * World :=
  on_breaker (ft_id t) true (fun now later b => isAllowed config now later b) w.
Definition record_success (t : FallbackTarget) (w : World) : World :=
  (on_breaker (ft_id t) tt (fun _ later b => (tt, recordSuccess later b)) w).2.
Definition record_failure (t : FallbackTarget) (w : World) : World :=
  (on_breaker (ft_id t) tt (fun now later b => (tt, recordFailure config None now later b)) w).2.

(** The filter asks every breaker. *)
Fixpoint allowed_targets (targets : list FallbackTarget) (w : World) : list FallbackTarget * World :=
  match targets with
  | [] => ([], w)
  | t :: targets =>
      let '(ok, w) := is_allowed t w in
      let '(rest, w) := allowed_targets targets w in (if ok then t :: rest else rest, w)
  end.

(** [await fn(target)]. *)
Definition call (t : FallbackTarget) (w : World) : (T + Thrown) * World :=
  let n := length (wo_called w) in
  (fn t n, mkWorld (others n (wo_breakers w)) (wo_reads w) (wo_called w ++ [ft_id t])).

Fixpoint try_targets (i : nat) (candidates : list FallbackTarget) (attempts : list FallbackAttempt) (w : World)
  : option (FallbackResult T) * list FallbackAttempt * World :=
  match candidates with
  | [] => (None, attempts, w)
  | target :: candidates =>
      let '(startMs, w) := read w in
      let '(outcome, w) := call target w in
      let '(endMs, w) := read w in
      match outcome with
      | inl value =>
          let w := record_success target w in
          let attempts := attempts ++ [mkFallbackAttempt (ft_id target) true None (endMs - startMs)%Z] in
          (Some (mkFallbackResult value i attempts), attempts, w)
      | inr error =>
          let w := record_failure target w in
          try_targets (S i) candidates
            (attempts ++ [mkFallbackAttempt (ft_id target) false (Some (toKoiError error)) (endMs - startMs)%Z]) w
      end
  end.

Definition attempt_context (a : FallbackAttempt) : jsval :=
  JObj [("targetId", JStr (fa_targetId a)); ("error", match fa_error a with Some e => JStr (err_message e) | None => JUndefined end);
        ("durationMs", JNum (fa_durationMs a))]%string.

Definition failure_of (attempts : list FallbackAttempt) : KoiError :=
  mkKoiError EXTERNAL
    ("All " +:+ pretty (length attempts) +:+ " targets failed: " +:+
     String.concat "; " ((fun a => fa_targetId a +:+ ": " +:+ default "unknown" (err_message <$> fa_error a)) <$> attempts))%string
    false (Some [("attempts"%string, JArr (attempt_context <$> attempts))]) None.

Definition withFallback (targets : list FallbackTarget) (w : World) : Result (FallbackResult T) KoiError * World :=
  let enabledTargets := filter (fun t => ft_enabled t = true) targets in
  match enabledTargets with
  | [] => (Err (koiError VALIDATION "No enabled targets in fallback chain" false), w)
  | _ =>
      let '(candidateTargets, w) := allowed_targets enabledTargets w in
      let candidateTargets := match candidateTargets with [] => enabledTargets | _ => candidateTargets end in
      let '(result, attempts, w) := try_targets 0 candidateTargets [] w in
      match result with
      | Some r => (Ok r, w)
      | None => (Err (failure_of attempts), w)
      end
  end.

(** ** Order of the targets *)

Inductive Strategy : Type := fallback | round_robin | weighted.

Definition weight_of (weights : list (string * Q)) (t : FallbackTarget) : Q := default 1%Q (m_get (ft_id t) weights).

Definition qlt (a b : Q) : bool := negb (Qle_bool b a).

(** The first index at which the running sum exceeds the roll. *)
Fixpoint pick (roll cumulative : Q) (weights : list Q) (i last : nat) : nat :=
  match weights with
  | [] => last
  | w :: weights => let cumulative := (cumulative + w)%Q in if qlt roll cumulative then i else pick roll cumulative weights (S i) last
  end.

Definition heavier (weights : list (string * Q)) : relation FallbackTarget :=
  fun a b => (weight_of weights b <= weight_of weights a)%Q.

#[export] Instance heavier_dec weights : RelDecision (heavier weights).
Proof. intros a b. unfold heavier. destruct (Qlt_le_dec (weight_of weights a) (weight_of weights b)); [right; lra|by left]. Defined.

Definition weighted_order (weights : list (string * Q)) (random : Q) (targets : list FallbackTarget) : list FallbackTarget :=
  if decide (length targets <= 1) then targets
  else
    let effectiveWeights := weight_of weights <$> targets in
    let totalWeight := foldl Qplus 0%Q effectiveWeights in
    if Qeq_bool totalWeight 0 then targets
    else
      let primaryIndex := pick (random * totalWeight) 0 effectiveWeights 0 (length targets - 1) in
      let remaining := merge_sort (heavier weights) (take primaryIndex targets ++ drop (S primaryIndex) targets) in
      match targets !! primaryIndex with
      | None => targets
      | Some primary => primary :: remaining
      end.

(** The counter of round-robin is threaded through. *)
Definition orderTargets (strategy : Strategy) (weights : list (string * Q)) (random : Q) (targets : list FallbackTarget) (counter : nat)
  : list FallbackTarget * nat :=
  match strategy with
  | fallback => (targets, counter)
  | round_robin =>
      if decide (length targets <= 1) then (targets, counter)
      else
        let index := counter mod length targets in
        (drop index targets ++ take index targets, (counter + 1) mod length targets)
  | weighted => (weighted_order weights random targets, counter)
  end.

(** Every order keeps all the targets. *)
Lemma order_permutes strategy weights random targets counter :
  (orderTargets strategy weights random targets counter).1 ≡ₚ targets.
Proof.
  destruct strategy; simpl; [done| |].
  - destruct (decide (length targets <= 1)); [done|]. simpl. rewrite (comm app). by rewrite take_drop.
  - unfold weighted_order. destruct (decide (length targets <= 1)); [done|]. destruct (Qeq_bool _ _); [done|].
    destruct (targets !! _) as [primary|] eqn:Hp; [|done]. rewrite merge_sort_Permutation.
    etrans; [apply Permutation_middle|]. by rewrite take_drop_middle.
Qed.

(** ** What a request does *)

Definition admits (b : Breaker) (now : Z) : Prop :=
  match cb_state b with
  | CLOSED => True
  | OPEN => (cc_cooldownMs config <= now - cb_lastTransitionAt b)%Z
  | HALF_OPEN => cb_probeInFlight b = false
  end.

(** At some reading of the clock the breaker of a target lets it pass, or stops it. *)
Definition passes (w : World) (t : FallbackTarget) : Prop :=
  m_get (ft_id t) (wo_breakers w) = None \/
  exists b n, m_get (ft_id t) (wo_breakers w) = Some b /\ wo_reads w <= n /\ admits b (clock n).
Definition stops (w : World) (t : FallbackTarget) : Prop :=
  exists b n, m_get (ft_id t) (wo_breakers w) = Some b /\ wo_reads w <= n /\ ~ admits b (clock n).

Lemma isAllowed_admits now later b : (isAllowed config now later b).1 = true <-> admits b now.
Proof.
  unfold isAllowed, admits. destruct (cb_state b); simpl; [done| |].
  - destruct (Z.leb_spec (cc_cooldownMs config) (now - cb_lastTransitionAt b)); simpl; split; try done; lia.
  - by destruct (cb_probeInFlight b).
Qed.

Lemma is_allowed_spec t w : let '(ok, w') := is_allowed t w in
  wo_called w' = wo_called w /\ wo_reads w <= wo_reads w' /\
  (forall id, id ≠ ft_id t -> m_get id (wo_breakers w') = m_get id (wo_breakers w)) /\
  if ok then passes w t else stops w t.
Proof.
  unfold is_allowed, on_breaker. destruct (m_get (ft_id t) (wo_breakers w)) as [b|] eqn:Hg; [|split; [done|]; split; [lia|]; split; [done|by left]].
  pose proof (isAllowed_admits (clock (wo_reads w)) (clock (S (wo_reads w))) b) as Hadm.
  destruct (isAllowed config _ _ b) as [ok b']. simpl in *. split_and!; [done|lia|intros id Hid; by apply m_get_set_ne|].
  destruct ok; [right|]; exists b, (wo_reads w); (split; [done|]; split; [lia|]); [by apply Hadm|]. intros H%Hadm. done.
Qed.

Lemma passes_frame w w' t : wo_reads w <= wo_reads w' -> m_get (ft_id t) (wo_breakers w') = m_get (ft_id t) (wo_breakers w) ->
  (passes w' t -> passes w t) /\ (stops w' t -> stops w t).
Proof.
  intros Hr Hg. unfold passes, stops. rewrite Hg. split.
  - intros [H|(b & n & H & Hn & Ha)]; [by left|right]. exists b, n. split_and!; [done|lia|done].
  - intros (b & n & H & Hn & Ha). exists b, n. split_and!; [done|lia|done].
Qed.

Lemma allowed_targets_spec targets : forall w, let '(allowed, w') := allowed_targets targets w in
  sublist allowed targets /\ wo_called w' = wo_called w /\
  (NoDup (ft_id <$> targets) -> forall t, t ∈ targets -> if decide (ft_id t ∈ ft_id <$> allowed) then passes w t else stops w t).
Proof.
  induction targets as [|t targets IH]; intros w; simpl; [by split_and!; [| |intros _ t Ht; apply elem_of_nil in Ht]|].
  pose proof (is_allowed_spec t w) as Hone. destruct (is_allowed t w) as [ok w1]. destruct Hone as (Hc & Hr & Hg & Hok).
  specialize (IH w1). destruct (allowed_targets targets w1) as [rest w2]. destruct IH as (Hs & Hc2 & Hall).
  split; [destruct ok; by constructor|]. split; [congruence|]. intros [Ht Hnd]%NoDup_cons u Hu.
  assert (Hrest : ft_id t ∉ ft_id <$> rest) by (intros Hin; apply Ht; by eapply elem_of_sublist, fmap_sublist).
  apply elem_of_cons in Hu as [->|Hu].
  - destruct ok; [rewrite decide_True by (rewrite fmap_cons; by left)|rewrite decide_False by done]; done.
  - assert (Hne : ft_id u ≠ ft_id t) by (intros Heq; apply Ht; rewrite <-Heq; by apply list_elem_of_fmap_2).
    specialize (Hall Hnd u Hu). destruct (passes_frame w w1 u Hr (Hg _ Hne)) as [Hp1 Hp2].
    assert (Hiff : ft_id u ∈ ft_id <$> (if ok then t :: rest else rest) <-> ft_id u ∈ ft_id <$> rest).
    { destruct ok; [|done]. rewrite fmap_cons, elem_of_cons. naive_solver. }
    destruct (decide (ft_id u ∈ ft_id <$> rest)) as [Hin|Hin]; [rewrite decide_True by tauto|rewrite decide_False by tauto]; auto.
Qed.

(** The targets are called in turn from call [n] on, and all fail. *)
Definition all_fail (n : nat) (ts : list FallbackTarget) : Prop :=
  forall i t, ts !! i = Some t -> exists e, fn t (n + i) = inr e.

Lemma all_fail_cons n t ts e : fn t n = inr e -> all_fail (S n) ts -> all_fail n (t :: ts).
Proof.
  intros He Hall [|i] u Hu; simpl in Hu; [simplify_eq; exists e; by rewrite Nat.add_0_r|].
  destruct (Hall i u Hu) as [e' He']. exists e'. by rewrite Nat.add_succ_r.
Qed.

Lemma on_breaker_called {A} id (missing : A) op w : wo_called (on_breaker id missing op w).2 = wo_called w.
Proof. unfold on_breaker. destruct (m_get _ _) as [b|]; [|done]. by destruct (op _ _ b). Qed.

Lemma try_targets_spec candidates : forall i attempts w, let '(result, attempts', w') := try_targets i candidates attempts w in
  exists tried rest, candidates = tried ++ rest /\ wo_called w' = wo_called w ++ (ft_id <$> tried) /\
    fa_targetId <$> attempts' = (fa_targetId <$> attempts) ++ (ft_id <$> tried) /\
    match result with
    | Some r => exists failed t, tried = failed ++ [t] /\ all_fail (length (wo_called w)) failed /\
        fn t (length (wo_called w) + length failed) = inl (fr_value r) /\ fr_targetIndex r = i + length failed /\ fr_attempts r = attempts'
    | None => rest = [] /\ all_fail (length (wo_called w)) tried
    end.
Proof.
  induction candidates as [|t candidates IH]; intros i attempts w.
  { simpl. exists [], []. simpl. by rewrite !app_nil_r. }
  cbn [try_targets read call wo_called wo_breakers wo_reads]. destruct (fn t (length (wo_called w))) as [value|e] eqn:Hfn.
  - cbv beta iota zeta. exists [t], candidates. unfold record_success. rewrite on_breaker_called. simpl. rewrite fmap_app. split_and!; try done.
    exists [], t. simpl. rewrite !Nat.add_0_r. by split_and!.
  - match goal with |- let '(_, _) := try_targets _ _ ?a ?w' in _ => specialize (IH (S i) a w'); remember w' as w1 eqn:Hw1 end.
    assert (Hc : wo_called w1 = wo_called w ++ [ft_id t]) by (rewrite Hw1; unfold record_failure; by rewrite on_breaker_called).
    destruct (try_targets (S i) candidates _ w1) as [[result attempts'] w2]. destruct IH as (tried & rest & -> & Hcall & Hids & Hres).
    rewrite Hc in *. rewrite length_app, Nat.add_1_r in Hres. exists (t :: tried), rest. split; [done|].
    split; [rewrite Hcall, <-(assoc_L app); done|]. split; [rewrite Hids, fmap_app, <-(assoc_L app); done|].
    destruct result as [r|].
    + destruct Hres as (failed & u & -> & Hall & Hu & Hidx & Hatt). exists (t :: failed), u. simpl.
      split_and!; [done|by eapply all_fail_cons|by rewrite Nat.add_succ_r|lia|done].
    + destruct Hres as [-> Hall]. split; [done|by eapply all_fail_cons].
Qed.

(** C37: a request is tried, in order, at the enabled targets whose breaker
    lets them pass, or at all enabled ones when every breaker stops its target;
    it returns the answer of the first call that succeeds, and fails only when
    all of them failed. *)
Theorem fallback_serves targets w : let '(result, w') := withFallback targets w in
  let enabled := filter (fun t => ft_enabled t = true) targets in
  if decide (enabled = []) then result = Err (koiError VALIDATION "No enabled targets in fallback chain" false) /\ w' = w
  else exists candidates tried rest,
    candidates ≠ [] /\ sublist candidates enabled /\ candidates = tried ++ rest /\
    (NoDup (ft_id <$> enabled) ->
      (candidates = enabled /\ forall t, t ∈ enabled -> stops w t) \/
      forall t, t ∈ enabled -> if decide (ft_id t ∈ ft_id <$> candidates) then passes w t else stops w t) /\
    wo_called w' = wo_called w ++ (ft_id <$> tried) /\
    match result with
    | Ok r => exists failed t, tried = failed ++ [t] /\ all_fail (length (wo_called w)) failed /\
        fn t (length (wo_called w) + length failed) = inl (fr_value r) /\ fr_targetIndex r = length failed /\
        fa_targetId <$> fr_attempts r = ft_id <$> tried
    | Err e => rest = [] /\ all_fail (length (wo_called w)) tried /\ err_code e = EXTERNAL /\ err_retryable e = false
    end.
Proof.
  unfold withFallback. destruct (filter _ targets) as [|t0 ts0] eqn:Hen; [done|]. set (enabled := t0 :: ts0) in *.
  pose proof (allowed_targets_spec enabled w) as Hal. destruct (allowed_targets enabled w) as [allowed w1].
  destruct Hal as (Hsub & Hcalled & Hall). set (candidates := match allowed with [] => enabled | _ => allowed end).
  pose proof (try_targets_spec candidates 0 [] w1) as Htry. destruct (try_targets 0 candidates [] w1) as [[result attempts] w2].
  destruct Htry as (tried & rest & Heq & Hc2 & Hids & Hres). rewrite Hcalled in *.
  assert (Hcand : candidates ≠ [] /\ sublist candidates enabled) by (unfold candidates; by destruct allowed).
  assert (Hmeans : NoDup (ft_id <$> enabled) -> (candidates = enabled /\ forall t, t ∈ enabled -> stops w t) \/
      forall t, t ∈ enabled -> if decide (ft_id t ∈ ft_id <$> candidates) then passes w t else stops w t).
  { intros Hnd. specialize (Hall Hnd). unfold candidates. destruct allowed as [|a allowed]; [|by right].
    left. split; [done|]. intros t Ht. specialize (Hall t Ht). by rewrite decide_False in Hall by apply not_elem_of_nil. }
  destruct Hcand as [Hne Hsubl].
  destruct result as [r|]; (rewrite decide_False by done); exists candidates, tried, rest;
    (split; [done|split; [done|split; [done|split; [exact Hmeans|split; [done|]]]]]).
  - destruct Hres as (failed & t & -> & Hf & Ht & Hi & Ha). exists failed, t. rewrite Ha, Hids. by split_and!.
  - destruct Hres as [-> Hf]. by split_and!.
Qed.

End Fallback.

(** Two providers; a closed breaker for one, an open one that has cooled down
    for the other.  The first provider answers once and then fails, the second
    always answers. *)
Definition two_config : CircuitBreakerConfig := mkBreakerConfig 3 10 100 [].
Definition two_targets : list FallbackTarget := [mkFallbackTarget "a" true; mkFallbackTarget "b" true].
Definition two_breakers : Breakers := [("a"%string, mkBreaker CLOSED 0 false [0; 0; 0]%Z 0 0); ("b"%string, mkBreaker OPEN 0 false [1; 2; 3]%Z 3 3)].
Definition two_world : World := mkWorld two_breakers 0 [].
Definition two_clock (n : nat) : Z := 1000 + Z.of_nat n.
Definition two_answers (t : FallbackTarget) (n : nat) : string + Thrown :=
  if decide (ft_id t = "b"%string) then inl "from b"%string
  else if decide (n = 0) then inl "from a"%string else inr (thrown_other "down").
Definition two_requests : list (Result (FallbackResult string) KoiError) * World :=
  let '(first, w) := withFallback two_config two_clock two_answers (fun _ bs => bs) two_targets two_world in
  let '(second, w) := withFallback two_config two_clock two_answers (fun _ bs => bs) two_targets w in ([first; second], w).

Lemma fallback_serves_witness :
  NoDup (ft_id <$> two_targets) /\ stops two_config two_clock (mkWorld [("b"%string, mkBreaker HALF_OPEN 5 true [] 0 0)] 0 []) (mkFallbackTarget "b" true) /\
  exists r tried, (withFallback two_config two_clock two_answers (fun _ bs => bs) two_targets two_world).1 = Ok r /\
    fr_value r = "from a"%string /\ fa_targetId <$> fr_attempts r = ft_id <$> tried.
Proof.
  split; [by apply (bool_decide_unpack _); vm_compute|]. split; [by eexists _, 0|].
  pose proof (fallback_serves two_config two_clock two_answers (fun _ bs => bs) two_targets two_world) as H.
  destruct (withFallback _ _ _ _ two_targets two_world) as [res w'] eqn:Hrun.
  change (filter _ two_targets) with two_targets in H. rewrite decide_False in H by done.
  destruct H as (candidates & tried & rest & _ & _ & _ & _ & _ & H). exists (mkFallbackResult "from a"%string 0 [mkFallbackAttempt "a" true None 1]), tried.
  vm_compute in Hrun. injection Hrun as <- <-. destruct H as (failed & t & -> & _ & _ & _ & Hids). by rewrite <-Hids.
Defined.

(** The filter takes the probe of the second breaker, the first provider
    answers, and nobody gives the probe back: when the first provider fails
    next, the request fails although the second would have answered, and the
    target stays out until every other breaker is open too. *)
Lemma unused_probe_strands_target :
  is_ok <$> two_requests.1 = [true; false] /\ wo_called two_requests.2 = ["a"; "a"]%string /\
  (fun b => (cb_state b, cb_probeInFlight b)) <$> m_get "b"%string (wo_breakers two_requests.2) = Some (HALF_OPEN, true).
Proof. by vm_compute. Qed.

(** A report of health does not close an open breaker. *)
Lemma open_breaker_ignores_success b later : cb_state b = OPEN -> recordSuccess later b = b.
Proof. unfold recordSuccess. by intros ->. Qed.
