(* ===== verification/BreakerMiddleware.v ===== *)
(** * Circuit breakers around model calls

    [lib/middleware-circuit-breaker/src/circuit-breaker-middleware.ts]: one
    breaker per key, shared by calls that are in flight at the same time and kept
    in a map of bounded size.  A call holds on to its breaker even when the map
    has dropped it, so breakers live in a store and the map holds references. *)

From Stdlib Require Import Ascii.
From S2P Require Import Prelude JsMap Text CircuitBreaker.

Local Open Scope nat_scope.
Local Open Scope list_scope.

(** ** Classification of errors *)

(** What the classifiers read of a thrown object; a field of another type than
    the one they test for is [None].  Statuses are integers. *)
Record Cause : Type := mkCause { ca_status : option Z; ca_statusCode : option Z; ca_code : option string }.
Record ErrorObject : Type := mkErrorObject {
  eo_status : option Z;
  eo_statusCode : option Z;
  eo_cause : option Cause;
  eo_name : option string;
  eo_message : option string;
  eo_code : option string;
  eo_retryable : option bool
}.

(** [None]: a thrown value that is not an object. *)
Abbreviation ThrownValue := (option ErrorObject).

Definition statusFromCode (code : option string) : option Z :=
  if decide (code = Some "RATE_LIMIT"%string) then Some 429%Z
  else if decide (code = Some "TIMEOUT"%string) then Some 503%Z
  else if decide (code = Some "EXTERNAL"%string) then Some 502%Z
  else None.

Definition first_some {A} (x y : option A) : option A := match x with Some _ => x | None => y end.

Definition extractStatusCode (error : ThrownValue) : option Z :=
  match error with
  | None => None
  | Some e =>
      first_some (eo_status e) (first_some (eo_statusCode e)
        match eo_cause e with
        | Some c => first_some (ca_status c) (first_some (ca_statusCode c) (statusFromCode (ca_code c)))
        | None => None
        end)
  end.

Definition isLocalAbortError (error : ThrownValue) : bool :=
  match error with
  | None => false
  | Some e =>
      bool_decide (eo_name e = Some "AbortError"%string) ||
      bool_decide (eo_code e = Some "ABORT_ERR"%string \/ eo_code e = Some "ERR_ABORTED"%string)
  end.

Definition isLocalKoiError (error : ThrownValue) : bool :=
  match error with
  | None => false
  | Some e => bool_decide (is_Some (eo_code e)) && bool_decide (is_Some (eo_retryable e)) && bool_decide (is_Some (eo_message e))
  end.

Definition TRANSPORT_ERROR_CODES : list string :=
  ["ECONNRESET"; "ECONNREFUSED"; "ETIMEDOUT"; "ENOTFOUND"; "EAI_AGAIN"; "EPIPE"; "EHOSTUNREACH"; "ENETUNREACH"; "EPROTO";
   "UND_ERR_SOCKET"; "UND_ERR_CONNECT_TIMEOUT"; "UND_ERR_HEADERS_TIMEOUT"; "UND_ERR_BODY_TIMEOUT"]%string.

(** Only letters of the alphabet matter to the test below. *)
Definition toLower (c : ascii) : ascii :=
  let n := nat_of_ascii c in if (65 <=? n) && (n <=? 90) then ascii_of_nat (n + 32) else c.

Definition isUpstreamTransportError (error : ThrownValue) : bool :=
  match error with
  | None => false
  | Some e =>
      let name := default ""%string (eo_name e) in
      let message := default ""%string (eo_message e) in
      if bool_decide (name = "TypeError"%string) && includes (str "fetch") (toLower <$> str message) then true
      else if bool_decide (name ∈ ["FetchError"; "RequestError"; "NetworkError"; "TimeoutError"]%string) then true
      else match eo_cause e with Some c => match ca_code c with Some code => bool_decide (code ∈ TRANSPORT_ERROR_CODES) | None => false end | None => false end
  end.

(** ** Keys *)

Definition providerPrefix (model : option string) : string :=
  match model with
  | None => "default"
  | Some m =>
      if decide (m = ""%string) then "default"
      else match indexOf "/"%char (str m) with Some (S n) => String.string_of_list_ascii (take (S n) (str m)) | _ => m end
  end.

Definition defaultExtractKey (model : option string) (sessionId : string) : string := (providerPrefix model +:+ "|" +:+ sessionId)%string.

Definition createCircuitOpenError (key : string) : KoiError :=
  mkKoiError RATE_LIMIT ("Circuit breaker open for " +:+ quoted key +:+ " — too many recent failures")%string true
    (Some [("key"%string, JStr key)]) None.

Definition createCapacityExhaustedError (key : string) (maxKeys : nat) : KoiError :=
  mkKoiError RATE_LIMIT
    ("Circuit breaker capacity exhausted (" +:+ pretty maxKeys +:+ " keys, all active) — refusing new key " +:+ quoted key +:+
     " to preserve fail-fast under high-cardinality outage")%string
    true (Some [("key"%string, JStr key); ("maxKeys"%string, JNum (Z.of_nat maxKeys))]) None.

(** ** State *)

Abbreviation Ref := nat.

(** Calls and streams that are under way, by the order in which they began.  A
    tracked stream has [started] once its consumer got a chunk: one that is
    closed before runs none of the generator's code. *)
Inductive Flight : Type :=
  | fl_call (r : Ref)
  | fl_stream (key : string) (r : Ref)
  | fl_source (r : Ref) (tookProbe started : bool)
  | fl_over.

Record CbState : Type := mkCb {
  cs_heap : list Breaker;
  cs_breakers : list (string * Ref);
  cs_warned : bool;
  cs_keysBySession : list (string * list string);
  cs_keyOwners : list (string * list string);
  cs_sharedKeys : list string;
  cs_flights : list Flight;
  cs_reads : nat
}.

Definition initial : CbState := mkCb [] [] false [] [] [] [] 0.

Definition set_heap (h : list Breaker) (s : CbState) : CbState :=
  mkCb h (cs_breakers s) (cs_warned s) (cs_keysBySession s) (cs_keyOwners s) (cs_sharedKeys s) (cs_flights s) (cs_reads s).
Definition set_warned (s : CbState) : CbState :=
  mkCb (cs_heap s) (cs_breakers s) true (cs_keysBySession s) (cs_keyOwners s) (cs_sharedKeys s) (cs_flights s) (cs_reads s).
Definition set_flights (fs : list Flight) (s : CbState) : CbState :=
  mkCb (cs_heap s) (cs_breakers s) (cs_warned s) (cs_keysBySession s) (cs_keyOwners s) (cs_sharedKeys s) fs (cs_reads s).
Definition ticks (n : nat) (s : CbState) : CbState :=
  mkCb (cs_heap s) (cs_breakers s) (cs_warned s) (cs_keysBySession s) (cs_keyOwners s) (cs_sharedKeys s) (cs_flights s) (cs_reads s + n).
Definition set_maps (bs : list (string * Ref)) (ks os : list (string * list string)) (sh : list string) (s : CbState) : CbState :=
  mkCb (cs_heap s) bs (cs_warned s) ks os sh (cs_flights s) (cs_reads s).

Section Middleware.
Context {Ctx : Type}.
Variable config : CircuitBreakerConfig.
Variable maxKeys : nat.
Variable sessionId : Ctx -> string.
Variable extractKey : option string -> Ctx -> string.
Variable clock : nat -> Z.

Definition fresh_breaker (s : CbState) : Breaker := createCircuitBreaker config (clock (cs_reads s)).

(** The breaker at a reference; every reference that is handed out has one. *)
Definition at_ref (s : CbState) (r : Ref) : Breaker := default (fresh_breaker s) (cs_heap s !! r).

(** An operation on a breaker may read the clock twice. *)
Definition on_ref (r : Ref) (f : Z -> Z -> Breaker -> Breaker) (s : CbState) : CbState :=
  ticks 2 (set_heap (alter (f (clock (cs_reads s)) (clock (S (cs_reads s)))) r (cs_heap s)) s).

Definition trackSessionKey (sid key : string) (s : CbState) : CbState :=
  let keysBySession := m_set sid (s_add key (default [] (m_get sid (cs_keysBySession s)))) (cs_keysBySession s) in
  let '(keyOwners, sharedKeys) :=
    match m_get key (cs_keyOwners s) with
    | Some owners =>
        let owners := s_add sid owners in
        (m_set key owners (cs_keyOwners s), if 1 <? length owners then s_add key (cs_sharedKeys s) else cs_sharedKeys s)
    | None => (m_set key [sid] (cs_keyOwners s), cs_sharedKeys s)
    end in
  set_maps (cs_breakers s) keysBySession keyOwners sharedKeys s.

(** Unhealthy at the next reading of the clock: not closed, or with failures. *)
Definition unhealthy (b : Breaker) (now : Z) : bool :=
  let snap := snapshot config b now in
  negb (bool_decide (bs_state snap = CLOSED)) || (0 <? bs_failureCount snap).

(** One key of a session that ends. *)
Definition evict_key (sid : string) (s : CbState) (k : string) : CbState :=
  match m_get k (cs_keyOwners s) with
  | None => s
  | Some owners =>
      let owners := s_delete sid owners in
      if decide (owners ≠ []) then
        set_maps (cs_breakers s) (cs_keysBySession s) (m_set k owners (cs_keyOwners s)) (cs_sharedKeys s) s
      else
        let kept := s_has k (cs_sharedKeys s) &&
          match m_get k (cs_breakers s) with Some r => unhealthy (at_ref s r) (clock (cs_reads s)) | None => false end in
        ticks 1
          (if kept then set_maps (cs_breakers s) (cs_keysBySession s) (m_delete k (cs_keyOwners s)) (cs_sharedKeys s) s
           else set_maps (m_delete k (cs_breakers s)) (cs_keysBySession s) (m_delete k (cs_keyOwners s)) (s_delete k (cs_sharedKeys s)) s)
  end.

Definition evictSessionKeys (sid : string) (s : CbState) : CbState :=
  match m_get sid (cs_keysBySession s) with
  | None => s
  | Some keys =>
      foldl (evict_key sid) (set_maps (cs_breakers s) (m_delete sid (cs_keysBySession s)) (cs_keyOwners s) (cs_sharedKeys s) s) keys
  end.

Definition owned (s : CbState) (k : string) : bool :=
  match m_get k (cs_keyOwners s) with Some owners => 0 <? length owners | None => false end.

(** The loop that looks for a breaker without failures to evict; [best] has the
    victim so far, owned by someone.  One without an owner ends the loop. *)
Fixpoint find_idle (s : CbState) (entries : list (string * Ref)) (reading : nat) (best : option string) : option string :=
  match entries with
  | [] => best
  | (k, r) :: entries =>
      if unhealthy (at_ref s r) (clock reading) then find_idle s entries (S reading) best
      else if owned s k then find_idle s entries (S reading) (match best with Some _ => best | None => Some k end)
      else Some k
  end.

(** The last resort: the first breaker without an owner. *)
Fixpoint find_ownerless (s : CbState) (entries : list (string * Ref)) : option string :=
  match entries with
  | [] => None
  | (k, _) :: entries => if owned s k then find_ownerless s entries else Some k
  end.

(** Every owner of the victim forgets it. *)
Definition evict_victim (k : string) (s : CbState) : CbState :=
  let keysBySession :=
    match m_get k (cs_keyOwners s) with
    | Some owners =>
        foldl (fun ks sid => match m_get sid ks with Some keys => m_set sid (s_delete k keys) ks | None => ks end) (cs_keysBySession s) owners
    | None => cs_keysBySession s
    end in
  set_maps (m_delete k (cs_breakers s)) keysBySession (m_delete k (cs_keyOwners s)) (s_delete k (cs_sharedKeys s)) s.

Definition evict_ownerless (k : string) (s : CbState) : CbState :=
  set_maps (m_delete k (cs_breakers s)) (cs_keysBySession s) (m_delete k (cs_keyOwners s)) (s_delete k (cs_sharedKeys s)) s.

(** Room for another key, if there can be. *)
Definition make_room (s : CbState) : option CbState :=
  if maxKeys <=? m_size (cs_breakers s) then
    let s := set_warned s in
    let s' := ticks (m_size (cs_breakers s)) s in
    match find_idle s (cs_breakers s) (cs_reads s) None with
    | Some k => Some (evict_victim k s')
    | None => match find_ownerless s (cs_breakers s) with Some k => Some (evict_ownerless k s') | None => None end
    end
  else Some s.

Definition insert_fresh (key : string) (s : CbState) : Ref * CbState :=
  let r := length (cs_heap s) in
  (r, ticks 1 (set_maps (m_set key r (cs_breakers s)) (cs_keysBySession s) (cs_keyOwners s) (cs_sharedKeys s)
    (set_heap (cs_heap s ++ [fresh_breaker s]) s))).

Definition getOrCreateBreaker (key : string) (s : CbState) : option Ref * CbState :=
  match m_get key (cs_breakers s) with
  | Some r => (Some r, s)
  | None =>
      match make_room s with
      | Some s => let '(r, s) := insert_fresh key s in (Some r, s)
      | None => (None, ticks (m_size (cs_breakers s)) (set_warned s))
      end
  end.

(** [breaker.isAllowed()] *)
Definition allowed (r : Ref) (s : CbState) : bool * CbState :=
  ((isAllowed config (clock (cs_reads s)) (clock (S (cs_reads s))) (at_ref s r)).1,
   on_ref r (fun now later b => (isAllowed config now later b).2) s).

Definition record_success (r : Ref) (s : CbState) : CbState := on_ref r (fun _ later b => recordSuccess later b) s.
Definition record_failure (status : option Z) (r : Ref) (s : CbState) : CbState :=
  on_ref r (fun now later b => recordFailure config status now later b) s.
Definition release_probe (r : Ref) (s : CbState) : CbState := on_ref r (fun _ _ b => releaseProbe b) s.

(** Whether an error counts, and with what status: the same in every [catch]. *)
Definition verdict_on (error : ThrownValue) : option (option Z) :=
  match extractStatusCode error with
  | Some status => Some (Some status)
  | None =>
      if negb (isLocalAbortError error) && negb (isLocalKoiError error) && isUpstreamTransportError error then Some None else None
  end.

Definition record_error (error : ThrownValue) (r : Ref) (s : CbState) : CbState :=
  match verdict_on error with Some status => record_failure status r s | None => s end.

(** ** Calls and streams *)

Inductive ModelChunk : Type := ck_error (code : option string) | ck_done | ck_other.

Inductive Event : Type :=
  | ev_call (model : option string) (ctx : Ctx)
  | ev_call_ends (flight : nat) (error : option ThrownValue)
  | ev_stream (model : option string) (ctx : Ctx)
  | ev_iterate (flight : nat) (next_throws : option ThrownValue)
  | ev_chunk (flight : nat) (chunk : ModelChunk)
  | ev_exhausted (flight : nat)
  | ev_source_throws (flight : nat) (error : ThrownValue)
  | ev_cancel (flight : nat)
  | ev_session_end (session : string).

(** What the caller sees at once. *)
Inductive Outcome : Type :=
  | oc_passed
  | oc_refused (error : KoiError)
  | oc_none.

Definition push_flight (f : Flight) (s : CbState) : CbState := set_flights (cs_flights s ++ [f]) s.
Definition end_flight (i : nat) (s : CbState) : CbState := set_flights (<[i := fl_over]> (cs_flights s)) s.

(** [cbWrapModelCall] up to [await next(request)]. *)
Definition call_begins (model : option string) (ctx : Ctx) (s : CbState) : Outcome * CbState :=
  let key := extractKey model ctx in
  match getOrCreateBreaker key s with
  | (None, s) => (oc_refused (createCapacityExhaustedError key maxKeys), s)
  | (Some r, s) =>
      let s := trackSessionKey (sessionId ctx) key s in
      let '(ok, s) := allowed r s in
      if ok then (oc_passed, push_flight (fl_call r) s) else (oc_refused (createCircuitOpenError key), s)
  end.

(** [cbWrapModelStream]: the gate is deferred to the iteration. *)
Definition stream_begins (model : option string) (ctx : Ctx) (s : CbState) : Outcome * CbState :=
  let key := extractKey model ctx in
  match getOrCreateBreaker key s with
  | (None, s) => (oc_refused (createCapacityExhaustedError key maxKeys), s)
  | (Some r, s) => (oc_passed, push_flight (fl_stream key r) (trackSessionKey (sessionId ctx) key s))
  end.

(** [asyncIterator]; a stream may be iterated more than once. *)
Definition iteration_begins (key : string) (r : Ref) (next_throws : option ThrownValue) (s : CbState) : Outcome * CbState :=
  let stateBefore := cb_state (at_ref s r) in
  let '(ok, s) := allowed r s in
  if negb ok then (oc_refused (createCircuitOpenError key), s)
  else
    let tookProbe := bool_decide (cb_state (at_ref s r) = HALF_OPEN) && bool_decide (stateBefore = OPEN \/ stateBefore = HALF_OPEN) in
    match next_throws with
    | None => (oc_passed, push_flight (fl_source r tookProbe false) s)
    | Some error =>
        (oc_none,
         if tookProbe then match verdict_on error with Some status => record_failure status r s | None => release_probe r s end else s)
    end.

(** [trackedStream], one step of the source or of its consumer. *)
Definition on_chunk (i : nat) (r : Ref) (tookProbe : bool) (chunk : ModelChunk) (s : CbState) : CbState :=
  match chunk with
  | ck_error code =>
      end_flight i (match statusFromCode code with Some status => record_failure (Some status) r s | None => s end)
  | ck_done => end_flight i (record_success r s)
  | ck_other => set_flights (<[i := fl_source r tookProbe true]> (cs_flights s)) s
  end.

Definition step (e : Event) (s : CbState) : Outcome * CbState :=
  match e with
  | ev_call model ctx => call_begins model ctx s
  | ev_call_ends i error =>
      match cs_flights s !! i with
      | Some (fl_call r) =>
          (oc_none, end_flight i (match error with None => record_success r s | Some error => record_error error r s end))
      | _ => (oc_none, s)
      end
  | ev_stream model ctx => stream_begins model ctx s
  | ev_iterate i next_throws =>
      match cs_flights s !! i with Some (fl_stream key r) => iteration_begins key r next_throws s | _ => (oc_none, s) end
  | ev_chunk i chunk => match cs_flights s !! i with Some (fl_source r took _) => (oc_none, on_chunk i r took chunk s) | _ => (oc_none, s) end
  | ev_exhausted i => match cs_flights s !! i with Some (fl_source _ _ _) => (oc_none, end_flight i s) | _ => (oc_none, s) end
  | ev_source_throws i error =>
      match cs_flights s !! i with Some (fl_source r _ _) => (oc_none, end_flight i (record_error error r s)) | _ => (oc_none, s) end
  | ev_cancel i =>
      match cs_flights s !! i with
      | Some (fl_source r tookProbe started) =>
          (oc_none, end_flight i (if started && tookProbe then release_probe r s else s))
      | _ => (oc_none, s)
      end
  | ev_session_end sid => (oc_none, evictSessionKeys sid s)
  end.

Fixpoint run (events : list Event) (s : CbState) : list Outcome * CbState :=
  match events with
  | [] => ([], s)
  | e :: events => let '(o, s) := step e s in let '(os, s) := run events s in (o :: os, s)
  end.

(** [cbDescribe] *)
Definition cbDescribe (s : CbState) : string * string :=
  let open := (filter (fun e => cb_state (at_ref s e.2) = OPEN) (cs_breakers s)).*1 in
  ("circuit-breaker"%string,
   match open with
   | [] => "All circuits closed (healthy)."
   | _ => "Circuit open for: " +:+ String.concat ", " open +:+ "."
   end%string).

(** ** The indexes agree *)

Definition keys_of (sid : string) (s : CbState) : list string := default [] (m_get sid (cs_keysBySession s)).
Definition owners_of (k : string) (s : CbState) : list string := default [] (m_get k (cs_keyOwners s)).
Definition bound (k : string) (s : CbState) : Prop := is_Some (m_get k (cs_breakers s)).

(** [leaving]: a session whose keys [rest] are still to be dealt with. *)
Record indexed (leaving : option (string * list string)) (s : CbState) : Prop := mkIndexed {
  ix_breakers : NoDup (m_keys (cs_breakers s));
  ix_refs : forall k r, m_get k (cs_breakers s) = Some r -> r < length (cs_heap s);
  ix_agree : forall sid k, k ∈ keys_of sid s -> sid ∈ owners_of k s;
  ix_agree' : forall sid k, sid ∈ owners_of k s ->
    k ∈ keys_of sid s \/ exists rest, leaving = Some (sid, rest) /\ k ∈ rest;
  ix_gone : forall sid rest, leaving = Some (sid, rest) -> keys_of sid s = [];
  ix_owned : forall sid k, sid ∈ owners_of k s -> bound k s;
  ix_shared : forall k, k ∈ cs_sharedKeys s -> bound k s;
  ix_size : m_size (cs_breakers s) <= maxKeys
}.

Lemma indexed_initial : indexed None initial.
Proof. constructor; simpl; try (by constructor); try (intros; set_solver); try lia. Qed.

(** What only touches breakers, flights and readings keeps the indexes. *)
Lemma indexed_maps lv s s' : cs_breakers s' = cs_breakers s -> cs_keysBySession s' = cs_keysBySession s ->
  cs_keyOwners s' = cs_keyOwners s -> cs_sharedKeys s' = cs_sharedKeys s -> length (cs_heap s) <= length (cs_heap s') ->
  indexed lv s -> indexed lv s'.
Proof.
  intros E1 E2 E3 E4 Hle [H1 H2 H3 H4 H5 H6 H7 H8].
  assert (Ek : forall sid, keys_of sid s' = keys_of sid s) by (intros sid; unfold keys_of; by rewrite E2).
  assert (Eo : forall k, owners_of k s' = owners_of k s) by (intros k; unfold owners_of; by rewrite E3).
  assert (Eb : forall k, bound k s' <-> bound k s) by (intros k; unfold bound; by rewrite E1).
  constructor; rewrite ?E1, ?E4; try done.
  - intros k r Hr. specialize (H2 k r Hr). lia.
  - intros sid k. rewrite Ek, Eo. apply H3.
  - intros sid k. rewrite Ek, Eo. apply H4.
  - intros sid rest. rewrite Ek. apply H5.
  - intros sid k. rewrite Eo, Eb. apply H6.
  - intros k. rewrite Eb. apply H7.
Qed.

Lemma indexed_on_ref lv r f s : indexed lv s -> indexed lv (on_ref r f s).
Proof. apply indexed_maps; try done. simpl. by rewrite length_alter. Qed.

Lemma track_keys sid key s sid' :
  keys_of sid' (trackSessionKey sid key s) = if decide (sid' = sid) then s_add key (keys_of sid s) else keys_of sid' s.
Proof.
  unfold keys_of, trackSessionKey. destruct (match m_get key (cs_keyOwners s) with Some _ => _ | None => _ end) as [os sh]. simpl.
  rewrite m_get_set. destruct (decide (sid' = sid)) as [->|Hne]; [by rewrite decide_True|by rewrite decide_False].
Qed.

Lemma track_owners sid key s k :
  owners_of k (trackSessionKey sid key s) = if decide (k = key) then s_add sid (owners_of key s) else owners_of k s.
Proof.
  unfold owners_of, trackSessionKey. destruct (m_get key (cs_keyOwners s)) as [owners|]; simpl; rewrite m_get_set.
  - destruct (decide (k = key)) as [->|Hne]; [by rewrite decide_True|by rewrite decide_False].
  - destruct (decide (k = key)) as [->|Hne]; [by rewrite decide_True|by rewrite decide_False].
Qed.

Lemma track_rest sid key s :
  cs_breakers (trackSessionKey sid key s) = cs_breakers s /\ cs_heap (trackSessionKey sid key s) = cs_heap s /\
  cs_flights (trackSessionKey sid key s) = cs_flights s /\ cs_reads (trackSessionKey sid key s) = cs_reads s /\
  forall k, k ∈ cs_sharedKeys (trackSessionKey sid key s) -> k = key \/ k ∈ cs_sharedKeys s.
Proof.
  unfold trackSessionKey. destruct (m_get key (cs_keyOwners s)) as [owners|]; simpl; split_and!; try done; [|by right].
  intros k Hk. destruct (1 <? _); [by apply elem_of_s_add|by right].
Qed.

Lemma indexed_track sid key s : bound key s -> indexed None s -> indexed None (trackSessionKey sid key s).
Proof.
  intros Hb [H1 H2 H3 H4 H5 H6 H7 H8]. destruct (track_rest sid key s) as (E1 & E2 & _ & _ & E3).
  assert (Eb : forall k, bound k (trackSessionKey sid key s) <-> bound k s) by (intros k; unfold bound; by rewrite E1).
  constructor; rewrite ?E1, ?E2; try done.
  - intros sid' k. rewrite track_keys, track_owners. destruct (decide (sid' = sid)) as [->|Hs], (decide (k = key)) as [->|Hk];
      rewrite ?elem_of_s_add; naive_solver.
  - intros sid' k. rewrite track_keys, track_owners. intros Hin. left.
    destruct (decide (sid' = sid)) as [->|Hs], (decide (k = key)) as [->|Hk]; rewrite ?elem_of_s_add in *;
      [by left|right|destruct Hin as [Hin|Hin]; [done|]|]; by destruct (H4 _ _ Hin) as [?|(? & ? & _)].
  - intros sid' k. rewrite track_owners, Eb. destruct (decide (k = key)) as [->|Hk]; [done|apply H6].
  - intros k Hk. rewrite Eb. destruct (E3 _ Hk) as [->|Hin]; [done|by apply H7].
Qed.

(** One key loses owners, and is unbound when [drop]. *)
Lemma indexed_release lv lv' k drop s s' : indexed lv s ->
  cs_breakers s' = (if drop : bool then m_delete k (cs_breakers s) else cs_breakers s) ->
  cs_sharedKeys s' = (if drop then s_delete k (cs_sharedKeys s) else cs_sharedKeys s) -> cs_heap s' = cs_heap s ->
  (forall k', k' ≠ k -> owners_of k' s' = owners_of k' s) ->
  (forall sid, sid ∈ owners_of k s' -> sid ∈ owners_of k s /\ drop = false) ->
  (forall sid k', k' ∈ keys_of sid s' -> k' ∈ keys_of sid s /\ (k' = k -> sid ∈ owners_of k s')) ->
  (forall sid k', sid ∈ owners_of k' s' -> k' ∈ keys_of sid s' \/ exists rest, lv' = Some (sid, rest) /\ k' ∈ rest) ->
  (forall sid rest, lv' = Some (sid, rest) -> keys_of sid s' = []) ->
  indexed lv' s'.
Proof.
  intros [H1 H2 H3 H4 H5 H6 H7 H8] E1 E2 E3 Eo Ek Es Ha Hg.
  assert (Hget : forall k' r, m_get k' (cs_breakers s') = Some r -> m_get k' (cs_breakers s) = Some r).
  { intros k' r. rewrite E1. destruct drop; [|done]. rewrite m_get_delete. by destruct (decide (k = k')). }
  assert (Hb : forall k', (k' = k -> drop = false) -> bound k' s -> bound k' s').
  { intros k' Hd [r Hr]. exists r. rewrite E1. destruct drop; [|done]. rewrite m_get_delete.
    destruct (decide (k = k')) as [->|]; [by discriminate Hd|done]. }
  constructor; try done.
  - rewrite E1. destruct drop; [by apply NoDup_m_delete|done].
  - intros k' r Hr. rewrite E3. eauto.
  - intros sid k' Hk. destruct (Es _ _ Hk) as [Hin Hkk]. destruct (decide (k' = k)) as [->|Hne]; [by apply Hkk|].
    rewrite Eo by done. by apply H3.
  - intros sid k' Hk. destruct (decide (k' = k)) as [->|Hne].
    + destruct (Ek _ Hk) as [Hin Hd]. apply Hb; [done|by eapply H6].
    + rewrite Eo in Hk by done. apply Hb; [done|by eapply H6].
  - intros k' Hk. rewrite E2 in Hk. apply Hb; [|destruct drop; [apply elem_of_s_delete in Hk as [_ Hk]|]; by apply H7].
    destruct drop; [|done]. apply elem_of_s_delete in Hk as [Hk _]. done.
  - rewrite E1. destruct drop; [|done]. unfold m_size, m_delete in *. pose proof (length_filter (fun p => p.1 ≠ k) (cs_breakers s)). lia.
Qed.

Lemma indexed_evict_key sid k rest s : indexed (Some (sid, k :: rest)) s -> indexed (Some (sid, rest)) (evict_key sid s k).
Proof.
  intros Hix. pose proof Hix as [H1 H2 H3 H4 H5 H6 H7 H8]. unfold evict_key.
  assert (Hrest : forall s', (forall sid', keys_of sid' s' = keys_of sid' s) ->
    (forall k', owners_of k' s' = if decide (k' = k) then s_delete sid (owners_of k s) else owners_of k' s) ->
    forall sid' k', sid' ∈ owners_of k' s' -> k' ∈ keys_of sid' s' \/ exists rest', Some (sid, rest) = Some (sid', rest') /\ k' ∈ rest').
  { intros s' Ek Eo sid' k'. rewrite Eo, Ek. destruct (decide (k' = k)) as [->|Hne]; intros Hin.
    - apply elem_of_s_delete in Hin as [Hs Hin]. destruct (H4 _ _ Hin) as [?|(? & ? & _)]; [by left|congruence].
    - destruct (H4 _ _ Hin) as [?|(rest' & [= <- <-] & Hr)]; [by left|right]. exists rest. split; [done|]. set_solver. }
  assert (Hno : forall sid', k ∈ keys_of sid' s -> sid' ≠ sid).
  { intros sid' Hk ->. rewrite (H5 _ _ eq_refl) in Hk. by apply elem_of_nil in Hk. }
  assert (Hdel : forall sid', k ∈ keys_of sid' s -> sid' ∈ s_delete sid (owners_of k s)).
  { intros sid' Hk. apply elem_of_s_delete. split; [by apply Hno|by apply H3]. }
  assert (Hout : owners_of k s = default [] (m_get k (cs_keyOwners s))) by done.
  destruct (m_get k (cs_keyOwners s)) as [owners|] eqn:Ho; simpl in Hout.
  2: { apply (indexed_release _ _ k false s s Hix); try done; [naive_solver| |].
    - apply (Hrest s); [done|]. intros k'. destruct (decide (k' = k)) as [->|]; [by rewrite Hout|done].
    - intros ? ? [= <- <-]. by eapply H5. }
  rewrite <-Hout in *. destruct (decide (s_delete sid (owners_of k s) ≠ [])) as [Hne|Hempty].
  - set (s' := set_maps _ _ _ _ s). assert (Eo : forall k', owners_of k' s' = if decide (k' = k) then s_delete sid (owners_of k s) else owners_of k' s).
    { intros k'. unfold owners_of at 1. simpl. rewrite m_get_set. destruct (decide (k' = k)) as [->|]; [by rewrite decide_True|by rewrite decide_False]. }
    apply (indexed_release _ _ k false s s' Hix); try done.
    + intros k' Hk. by rewrite Eo, decide_False.
    + intros sid'. rewrite Eo, decide_True by done. intros [_ Hin]%elem_of_s_delete. done.
    + intros sid' k' Hk. split; [done|]. intros ->. rewrite Eo, decide_True by done. by apply Hdel.
    + by apply (Hrest s').
    + intros ? ? [= <- <-]. by eapply H5.
  - apply dec_stable in Hempty. cbv zeta.
    match goal with |- context [if ?c then set_maps _ _ _ _ _ else _] => generalize c; intros kept end.
    match goal with |- indexed _ (ticks 1 ?t) => set (s' := t) end.
    assert (Eo : forall k', owners_of k' s' = if decide (k' = k) then s_delete sid (owners_of k s) else owners_of k' s).
    { intros k'. rewrite Hempty. assert (E : cs_keyOwners s' = m_delete k (cs_keyOwners s)) by (unfold s'; by destruct kept).
      unfold owners_of at 1. rewrite E, m_get_delete. destruct (decide (k' = k)) as [->|]; [by rewrite decide_True|by rewrite decide_False]. }
    apply (indexed_maps _ s'); try done. apply (indexed_release _ _ k (negb kept) s s' Hix).
    1, 2, 3: unfold s'; by destruct kept.
    + intros k' Hk. by rewrite Eo, decide_False.
    + intros sid'. rewrite Eo, decide_True, Hempty by done. by intros Hin%elem_of_nil.
    + assert (Ek : forall sid', keys_of sid' s' = keys_of sid' s) by (intros; unfold s'; by destruct kept).
      intros sid' k'. rewrite Ek. intros Hk. split; [done|]. intros ->. rewrite Eo, decide_True by done. by apply Hdel.
    + apply (Hrest s'); [|done]. intros; unfold s'; by destruct kept.
    + intros ? ? [= <- <-]. assert (Ek : keys_of sid s' = keys_of sid s) by (unfold s'; by destruct kept). rewrite Ek. by eapply H5.
Qed.

Lemma indexed_evict_session sid s : indexed None s -> indexed None (evictSessionKeys sid s).
Proof.
  intros Hix. unfold evictSessionKeys. destruct (m_get sid (cs_keysBySession s)) as [keys|] eqn:Hk; [|done].
  set (s0 := set_maps _ _ _ _ s).
  assert (H0 : indexed (Some (sid, keys)) s0).
  { destruct Hix as [H1 H2 H3 H4 H5 H6 H7 H8].
    assert (Ek : forall sid', keys_of sid' s0 = if decide (sid' = sid) then [] else keys_of sid' s).
    { intros sid'. unfold keys_of at 1. simpl. rewrite m_get_delete. destruct (decide (sid' = sid)) as [->|]; [by rewrite decide_True|by rewrite decide_False]. }
    assert (Hks : keys_of sid s = keys) by (unfold keys_of; by rewrite Hk).
    constructor; try done.
    - intros sid' k. rewrite Ek. destruct (decide (sid' = sid)); [by intros Hin%elem_of_nil|apply H3].
    - intros sid' k Hin. rewrite Ek. destruct (H4 _ _ Hin) as [Hkk|(? & ? & _)]; [|done].
      destruct (decide (sid' = sid)) as [->|]; [right; exists keys; by rewrite <-Hks|by left].
    - intros sid' rest [= -> ->]. by rewrite Ek, decide_True. }
  clearbody s0. revert s0 H0. clear Hix Hk s. induction keys as [|k keys IH]; intros s Hix; simpl.
  - destruct Hix as [H1 H2 H3 H4 H5 H6 H7 H8]. constructor; try done.
    intros sid' k Hin. destruct (H4 _ _ Hin) as [?|(rest & [= <- <-] & Hr)]; [by left|by apply elem_of_nil in Hr].
  - by apply IH, indexed_evict_key.
Qed.

Lemma forget_key (k : string) (owners : list string) : forall (ks : list (string * list string)) (sid k' : string),
  k' ∈ default [] (m_get sid (foldl (fun ks sid => match m_get sid ks with Some keys => m_set sid (s_delete k keys) ks | None => ks end) ks owners))
  <-> k' ∈ default [] (m_get sid ks) /\ ~ (k' = k /\ sid ∈ owners).
Proof.
  induction owners as [|o owners IH]; intros ks sid k'; simpl; [split; [|tauto]; intros H; split; [done|]; intros [_ Hn%elem_of_nil]; done|].
  rewrite IH. assert (Hone : k' ∈ default [] (m_get sid match m_get o ks with Some keys => m_set o (s_delete k keys) ks | None => ks end)
    <-> k' ∈ default [] (m_get sid ks) /\ ~ (k' = k /\ sid = o)).
  { destruct (m_get o ks) as [keys|] eqn:Ho.
    - rewrite m_get_set. destruct (decide (o = sid)) as [->|Hne]; simpl; [rewrite Ho; simpl; rewrite elem_of_s_delete; tauto|].
      split; [|tauto]. intros H. split; [done|]. intros [_ ->]. done.
    - split; [|tauto]. intros H. split; [done|]. intros [_ ->]. rewrite Ho in H. by apply elem_of_nil in H. }
  rewrite Hone, elem_of_cons. tauto.
Qed.

Lemma indexed_victim k s : indexed None s -> indexed None (evict_victim k s).
Proof.
  intros Hix. pose proof Hix as [H1 H2 H3 H4 H5 H6 H7 H8].
  assert (Eo : forall k', owners_of k' (evict_victim k s) = if decide (k = k') then [] else owners_of k' s).
  { intros k'. unfold owners_of at 1. simpl. rewrite m_get_delete. by destruct (decide (k = k')). }
  assert (Ek : forall sid k', k' ∈ keys_of sid (evict_victim k s) <-> k' ∈ keys_of sid s /\ ~ (k' = k /\ sid ∈ owners_of k s)).
  { intros sid k'. unfold keys_of, owners_of. simpl. destruct (m_get k (cs_keyOwners s)) as [owners|]; simpl; [apply forget_key|].
    split; [|tauto]. intros H. split; [done|]. intros [_ Hn%elem_of_nil]. done. }
  apply (indexed_release None None k true s _ Hix); try done.
  - intros k' Hk. by rewrite Eo, decide_False.
  - intros sid. rewrite Eo, decide_True by done. by intros Hn%elem_of_nil.
  - intros sid k' [Hin Hno]%Ek. split; [done|]. intros ->. by destruct Hno; split; [|apply H3].
  - intros sid k'. rewrite Eo. destruct (decide (k = k')) as [->|Hne]; [by intros Hn%elem_of_nil|]. intros Hin. left. apply Ek.
    destruct (H4 _ _ Hin) as [Hk|(? & ? & _)]; [|done]. split; [done|]. intros [-> _]. done.
Qed.

Lemma owned_spec s k : owned s k = true <-> owners_of k s ≠ [].
Proof. unfold owned, owners_of. destruct (m_get k (cs_keyOwners s)) as [[|o os]|]; simpl; split; try done; intros H; by destruct H. Qed.

Lemma indexed_ownerless k s : owned s k = false -> indexed None s -> indexed None (evict_ownerless k s).
Proof.
  intros Hno Hix. pose proof Hix as [H1 H2 H3 H4 H5 H6 H7 H8].
  assert (Hnil : owners_of k s = []).
  { destruct (decide (owners_of k s = [])) as [|Hne]; [done|]. by apply owned_spec in Hne; rewrite Hne in Hno. }
  assert (Eo : forall k', owners_of k' (evict_ownerless k s) = owners_of k' s).
  { intros k'. unfold owners_of at 1. simpl. rewrite m_get_delete. destruct (decide (k = k')) as [<-|]; [by rewrite Hnil|done]. }
  apply (indexed_release None None k true s _ Hix); try done.
  - intros sid. rewrite Eo, Hnil. by intros Hn%elem_of_nil.
  - intros sid k' Hk. split; [done|]. intros ->. rewrite Eo. by apply H3.
  - intros sid k'. rewrite Eo. apply H4.
Qed.

(** ** Making room *)

(** The breaker is unhealthy whenever the clock is read from now on. *)
Definition sick (r : Ref) (s : CbState) : Prop := forall n, cs_reads s <= n -> unhealthy (at_ref s r) (clock n) = true.

Lemma find_idle_spec s entries : forall reading best k, cs_reads s <= reading -> find_idle s entries reading best = Some k ->
  best = Some k \/ exists r, (k, r) ∈ entries /\ ~ sick r s.
Proof.
  induction entries as [|[k' r] entries IH]; intros reading best k Hr; simpl; [by left|].
  destruct (unhealthy (at_ref s r) (clock reading)) eqn:Hu.
  - intros H. apply IH in H as [H|(r' & Hin & Hs)]; [by left| |lia]. right. exists r'. split; [by right|done].
  - assert (Hs : ~ sick r s) by (intros Hs; by rewrite Hs in Hu).
    destruct (owned s k').
    + intros H. apply IH in H as [H|(r' & Hin & Hs')]; [| |lia].
      * destruct best; [by left|]. simplify_eq. right. exists r. split; [by left|done].
      * right. exists r'. split; [by right|done].
    + intros [= ->]. right. exists r. split; [by left|done].
Qed.

Lemma find_ownerless_spec s entries k : find_ownerless s entries = Some k -> owned s k = false /\ k ∈ m_keys entries.
Proof.
  induction entries as [|[k' r] entries IH]; simpl; [done|]. destruct (owned s k') eqn:Ho.
  - intros [? ?]%IH. split; [done|]. by right.
  - intros [= ->]. split; [done|by left].
Qed.

Lemma m_size_delete (m : list (string * Ref)) k : k ∈ m_keys m -> m_size (m_delete k m) < m_size m.
Proof.
  unfold m_size, m_keys, m_delete. induction m as [|[k' r] m IH]; simpl; [by intros ?%elem_of_nil|].
  rewrite filter_cons. intros [->|Hin]%elem_of_cons.
  - rewrite decide_False by (simpl; tauto). pose proof (length_filter (fun p => p.1 ≠ k') m). lia.
  - destruct (decide _); simpl; [specialize (IH Hin)|pose proof (length_filter (fun p => p.1 ≠ k) m)]; lia.
Qed.

(** Keys whose owner still relies on them. *)
Definition relied_on (k : string) (r : Ref) (s : CbState) : Prop :=
  m_get k (cs_breakers s) = Some r /\ owners_of k s ≠ [] /\ sick r s.

Lemma make_room_spec s s' : indexed None s -> make_room s = Some s' ->
  indexed None s' /\ m_size (cs_breakers s') < maxKeys /\ cs_heap s' = cs_heap s /\ cs_flights s' = cs_flights s /\
  (forall k, m_get k (cs_breakers s) = None -> m_get k (cs_breakers s') = None) /\
  forall k r, relied_on k r s -> m_get k (cs_breakers s') = Some r.
Proof.
  intros Hix. unfold make_room. destruct (Nat.leb_spec maxKeys (m_size (cs_breakers s))) as [Hfull|Hroom].
  2: { intros [= <-]. split_and!; try done. by intros k r [? _]. }
  set (s0 := ticks (m_size (cs_breakers (set_warned s))) (set_warned s)).
  assert (H0 : indexed None s0) by (revert Hix; by apply indexed_maps).
  assert (Hgone : forall k0, k0 ∈ m_keys (cs_breakers s) -> m_size (m_delete k0 (cs_breakers s)) < maxKeys).
  { intros k0 Hin. pose proof (m_size_delete _ _ Hin). pose proof (ix_size _ _ Hix). lia. }
  assert (Hget : forall k0 k, m_get k (m_delete k0 (cs_breakers s)) = if decide (k0 = k) then None else m_get k (cs_breakers s)) by apply m_get_delete.
  destruct (find_idle _ _ _ _) as [k0|] eqn:Hf.
  - intros [= <-]. apply find_idle_spec in Hf as [?|(r0 & Hin & Hwell)]; [done| |simpl; lia]. simpl in Hin.
    assert (Hk0 : k0 ∈ m_keys (cs_breakers s)) by (apply list_elem_of_fmap; by exists (k0, r0)).
    split; [by apply indexed_victim|]. split; [by apply Hgone|]. split; [done|]. split; [done|]. split.
    + intros k Hk. simpl. rewrite Hget. by destruct (decide (k0 = k)).
    + intros k r (Hk & _ & Hs). simpl. rewrite Hget. destruct (decide (k0 = k)) as [->|]; [|done].
      apply elem_m_get in Hin; [|apply Hix]. rewrite Hk in Hin. injection Hin as ->. done.
  - destruct (find_ownerless _ _) as [k0|] eqn:Ho; [|done]. intros [= <-]. apply find_ownerless_spec in Ho as [Ho Hk0]. simpl in Hk0.
    split; [by apply indexed_ownerless|]. split; [by apply Hgone|]. split; [done|]. split; [done|]. split.
    + intros k Hk. simpl. rewrite Hget. by destruct (decide (k0 = k)).
    + intros k r (Hk & Hown & _). simpl. rewrite Hget. destruct (decide (k0 = k)) as [->|]; [|done].
      apply owned_spec in Hown. change (owned s k = false) in Ho. congruence.
Qed.

Lemma getOrCreate_spec key s : indexed None s -> let '(o, s') := getOrCreateBreaker key s in
  indexed None s' /\ cs_flights s' = cs_flights s /\ (forall r b, cs_heap s !! r = Some b -> cs_heap s' !! r = Some b) /\
  (forall k r, relied_on k r s -> m_get k (cs_breakers s') = Some r) /\
  match o with
  | Some r => m_get key (cs_breakers s') = Some r /\ (m_get key (cs_breakers s) = Some r \/ r = length (cs_heap s))
  | None => True
  end.
Proof.
  intros Hix. unfold getOrCreateBreaker. destruct (m_get key (cs_breakers s)) as [r|] eqn:Hg.
  { split_and!; try done; [by intros k r' [? _]|by left]. }
  destruct (make_room s) as [s1|] eqn:Hroom.
  2: { split; [revert Hix; by apply indexed_maps|]. split_and!; try done. by intros k r' [? _]. }
  destruct (make_room_spec _ _ Hix Hroom) as (H1 & Hsz & Hh & Hfl & Hnone & Hkeep). simpl.
  specialize (Hnone _ Hg). split; [|split; [done|split; [|split; [|split]]]].
  - destruct H1 as [I1 I2 I3 I4 I5 I6 I7 I8].
    assert (Hb : forall k (t : CbState), cs_breakers t = m_set key (length (cs_heap s1)) (cs_breakers s1) -> bound k s1 -> bound k t).
    { intros k t Et [r Hr]. unfold bound. rewrite Et, m_get_set. destruct (decide (key = k)); [done|by exists r]. }
    constructor; try done; simpl.
    + by apply NoDup_m_set.
    + intros k r. rewrite m_get_set, length_app. simpl. destruct (decide (key = k)); [intros [= <-]; lia|].
      intros Hr. specialize (I2 k r Hr). lia.
    + intros sid k Hin. by eapply Hb, I6.
    + intros k Hin. by eapply Hb, I7.
    + rewrite m_size_set_absent by done. lia.
  - intros r b Hr. simpl. rewrite Hh. by apply lookup_app_l_Some.
  - intros k r Hrel. rewrite m_get_set. destruct (decide (key = k)) as [->|]; [destruct Hrel; congruence|by apply Hkeep].
  - by rewrite m_get_set, decide_True.
  - right. by rewrite Hh.
Qed.

(** ** Steps *)

Lemma indexed_push f s : indexed None s -> indexed None (push_flight f s).
Proof. by apply indexed_maps. Qed.

Lemma indexed_end i s : indexed None s -> indexed None (end_flight i s).
Proof. by apply indexed_maps. Qed.

Lemma indexed_record_error error r s : indexed None s -> indexed None (record_error error r s).
Proof. unfold record_error. destruct (verdict_on error); [apply indexed_on_ref|done]. Qed.


Lemma iteration_indexed key r thrown s : indexed None s -> indexed None (iteration_begins key r thrown s).2.
Proof.
  intros Hix. unfold iteration_begins, allowed. destruct (negb _); [apply indexed_on_ref, Hix|].
  destruct thrown as [error|]; [|by apply indexed_push, indexed_on_ref]. cbv zeta. cbn [snd].
  destruct (_ && _); [|by apply indexed_on_ref].
  destruct (verdict_on error); unfold record_failure, release_probe; by repeat apply indexed_on_ref.
Qed.

Lemma step_indexed e s : indexed None s -> indexed None (step e s).2.
Proof.
  intros Hix. destruct e as [model ctx|i error|model ctx|i thrown|i chunk|i|i error|i|sid]; simpl.
  1, 3: unfold call_begins, stream_begins; pose proof (getOrCreate_spec (extractKey model ctx) s Hix) as Hg;
    destruct (getOrCreateBreaker _ s) as [[r|] s1]; destruct Hg as (H1 & _ & _ & _ & H5); [|done];
    assert (Ht : indexed None (trackSessionKey (sessionId ctx) (extractKey model ctx) s1))
      by (apply indexed_track; [eexists; apply H5|done]).
  - unfold allowed. destruct (isAllowed _ _ _ _).1; simpl; [apply indexed_push|]; by apply indexed_on_ref.
  - by apply indexed_push.
  - destruct (cs_flights s !! i) as [[]|]; simpl; try done. apply indexed_end. destruct error; [by apply indexed_record_error|by apply indexed_on_ref].
  - destruct (cs_flights s !! i) as [[]|]; simpl; try done. by apply iteration_indexed.
  - destruct (cs_flights s !! i) as [[]|]; simpl; try done. destruct chunk as [code| |]; simpl; [|by apply indexed_end, indexed_on_ref|by revert Hix; apply indexed_maps].
    apply indexed_end. destruct (statusFromCode code); [by apply indexed_on_ref|done].
  - destruct (cs_flights s !! i) as [[]|]; simpl; try done. by apply indexed_end.
  - destruct (cs_flights s !! i) as [[]|]; simpl; try done. by apply indexed_end, indexed_record_error.
  - destruct (cs_flights s !! i) as [[]|]; simpl; try done. apply indexed_end. destruct (_ && _); [by apply indexed_on_ref|done].
  - by apply indexed_evict_session.
Qed.

Lemma run_indexed events : forall s, indexed None s -> indexed None (run events s).2.
Proof.
  induction events as [|e events IH]; intros s Hix; [done|]. simpl. apply (step_indexed e) in Hix.
  destruct (step e s) as [o s1]. specialize (IH s1 Hix). by destruct (run events s1).
Qed.

(** Steps other than making room and ending a session leave the map alone. *)
Lemma iteration_map key r thrown s : cs_breakers (iteration_begins key r thrown s).2 = cs_breakers s.
Proof.
  unfold iteration_begins, allowed. destruct (negb _); [done|]. destruct thrown as [error|]; [|done]. cbv zeta. cbn [snd].
  destruct (_ && _); [|done]. by destruct (verdict_on error).
Qed.

Lemma record_error_map error r s : cs_breakers (record_error error r s) = cs_breakers s.
Proof. unfold record_error. by destruct (verdict_on error). Qed.

(** While the keys of a session are dealt with. *)
Record safe (sid k : string) (r : Ref) (s : CbState) : Prop := mkSafe {
  sf_bound : m_get k (cs_breakers s) = Some r;
  sf_there : is_Some (cs_heap s !! r);
  sf_sick : sick r s;
  sf_claim : (exists o, o ∈ owners_of k s /\ o ≠ sid) \/ k ∈ cs_sharedKeys s
}.

Lemma sick_later r s s' : is_Some (cs_heap s !! r) -> cs_heap s' = cs_heap s -> cs_reads s <= cs_reads s' -> sick r s -> sick r s'.
Proof.
  intros [b Hb] Hh Hr Hs n Hn. specialize (Hs n ltac:(lia)). unfold at_ref in *. rewrite Hh, Hb in *. done.
Qed.

Lemma safe_evict_key sid k r s k2 : safe sid k r s -> safe sid k r (evict_key sid s k2).
Proof.
  intros [Hb Hth Hs Hc]. unfold evict_key. destruct (m_get k2 (cs_keyOwners s)) as [owners|] eqn:Ho; [|done].
  assert (Hsick : forall t, cs_heap t = cs_heap s -> cs_reads s <= cs_reads t -> sick r t) by (intros t H1 H2; by eapply sick_later).
  destruct (decide (k2 = k)) as [->|Hne].
  - assert (Hk : owners_of k s = owners) by (unfold owners_of; by rewrite Ho).
    destruct (decide (s_delete sid owners ≠ [])) as [Hn|Hn].
    + constructor; try done. destruct Hc as [(o & Hin & Hos)|Hc]; [left|by right]. exists o. split; [|done].
      unfold owners_of. simpl. rewrite m_get_set_eq. simpl. apply elem_of_s_delete. by rewrite <-Hk.
    + apply dec_stable in Hn. destruct Hc as [(o & Hin & Hos)|Hc].
      { exfalso. apply (not_elem_of_nil o). rewrite <-Hn. apply elem_of_s_delete. by rewrite <-Hk. }
      rewrite Hb. cbv zeta. rewrite (proj2 (s_has_true _ _) Hc), (Hs (cs_reads s)) by lia. simpl.
      constructor; simpl; [done|done| |by right]. apply Hsick; simpl; [done|lia].
  - assert (Hget : m_get k (m_delete k2 (cs_breakers s)) = Some r) by (by rewrite m_get_delete, decide_False).
    assert (Hown : forall v, default [] (m_get k (m_set k2 v (cs_keyOwners s))) = owners_of k s) by (intros v; by rewrite m_get_set_ne).
    assert (Hown' : default [] (m_get k (m_delete k2 (cs_keyOwners s))) = owners_of k s) by (by rewrite m_get_delete_ne).
    destruct (decide (s_delete sid owners ≠ [])) as [Hn|Hn].
    + constructor; try done. unfold owners_of. simpl. by rewrite Hown.
    + cbv zeta. match goal with |- context [if ?c then set_maps _ _ _ _ _ else _] => destruct c end.
      * constructor; simpl; [done|done|apply Hsick; simpl; [done|lia]|]. unfold owners_of. simpl. by rewrite Hown'.
      * constructor; simpl; [done|done|apply Hsick; simpl; [done|lia]|]. unfold owners_of. simpl. rewrite Hown'.
        destruct Hc as [Hc|Hc]; [by left|right]. by apply elem_of_s_delete.
Qed.

Lemma safe_evict_session sid k r s : safe sid k r s -> m_get k (cs_breakers (evictSessionKeys sid s)) = Some r.
Proof.
  intros Hs. unfold evictSessionKeys. destruct (m_get sid (cs_keysBySession s)) as [keys|]; [|apply Hs].
  set (s0 := set_maps _ _ _ _ s). assert (H0 : safe sid k r s0) by (destruct Hs; by constructor). clearbody s0.
  revert s0 H0. induction keys as [|k2 keys IH]; intros s0 H0; simpl; [apply H0|]. by apply IH, safe_evict_key.
Qed.

(** C40: the map never holds more than [maxKeys] breakers, its indexes by
    session and by key agree and cover only keys that are bound; and a breaker
    that is unhealthy stays bound to a key that a session relies on, whatever
    happens next, except that the key's only session ends and none ever shared
    it. *)
Theorem circuits_kept events e : let s := (run events initial).2 in
  m_size (cs_breakers s) <= maxKeys /\
  (forall sid k, k ∈ keys_of sid s <-> sid ∈ owners_of k s) /\
  (forall sid k, sid ∈ owners_of k s -> bound k s) /\
  forall k r, relied_on k r s ->
    (forall sid, e = ev_session_end sid -> (exists o, o ∈ owners_of k s /\ o ≠ sid) \/ k ∈ cs_sharedKeys s) ->
    m_get k (cs_breakers (step e s).2) = Some r.
Proof.
  intros s. assert (Hix : indexed None s) by apply run_indexed, indexed_initial. clearbody s.
  pose proof Hix as [H1 H2 H3 H4 H5 H6 H7 H8]. split; [done|]. split.
  { intros sid k. split; [apply H3|]. intros Hin. by destruct (H4 _ _ Hin) as [?|(? & ? & _)]. }
  split; [done|]. intros k r Hrel Hend. pose proof Hrel as (Hb & Hown & Hsick).
  destruct e as [model ctx|i error|model ctx|i thrown|i chunk|i|i error|i|sid]; simpl.
  1, 3: unfold call_begins, stream_begins; pose proof (getOrCreate_spec (extractKey model ctx) s Hix) as Hg;
    destruct (getOrCreateBreaker _ s) as [[r1|] s1]; destruct Hg as (_ & _ & _ & Hk & _); [|by apply Hk];
    destruct (track_rest (sessionId ctx) (extractKey model ctx) s1) as (E1 & _).
  - unfold allowed. destruct (isAllowed _ _ _ _).1; simpl; rewrite E1; by apply Hk.
  - simpl. rewrite E1. by apply Hk.
  - destruct (cs_flights s !! i) as [[]|]; simpl; try done. destruct error; [by rewrite record_error_map|done].
  - destruct (cs_flights s !! i) as [[]|]; simpl; try done. by rewrite iteration_map.
  - destruct (cs_flights s !! i) as [[]|]; simpl; try done. destruct chunk as [code| |]; simpl; try done. by destruct (statusFromCode code).
  - by destruct (cs_flights s !! i) as [[]|].
  - destruct (cs_flights s !! i) as [[]|]; simpl; try done. by rewrite record_error_map.
  - destruct (cs_flights s !! i) as [[]|]; simpl; try done. by destruct (_ && _).
  - apply safe_evict_session. constructor; [done| |done|by apply Hend]. apply lookup_lt_is_Some. by eapply H2.
Qed.

(** ** A probe that nobody gives back *)

Definition holds (r : Ref) (f : Flight) : Prop :=
  match f with fl_call r' | fl_source r' _ _ => r' = r | fl_stream _ _ | fl_over => False end.

(** A breaker that waits for a probe while no call is under way that could
    end it. *)
Record stranded (r : Ref) (s : CbState) : Prop := mkStranded {
  sd_breaker : exists b, cs_heap s !! r = Some b /\ cb_state b = HALF_OPEN /\ cb_probeInFlight b = true;
  sd_flights : forall f, f ∈ cs_flights s -> ~ holds r f
}.

Lemma stranded_same r s s' : stranded r s -> (forall b, cs_heap s !! r = Some b -> cs_heap s' !! r = Some b) ->
  (forall f, f ∈ cs_flights s' -> f ∈ cs_flights s \/ ~ holds r f) -> stranded r s'.
Proof.
  intros [(b & Hb & H1 & H2) Hf] Hh Hfl. constructor; [exists b; auto|].
  intros f Hin. destruct (Hfl f Hin) as [Hin'|]; [by apply Hf|done].
Qed.

Lemma stranded_other r r' f s : r' ≠ r -> stranded r s -> stranded r (on_ref r' f s).
Proof.
  intros Hne Hs. eapply stranded_same; [done| |by left]. intros b Hb. simpl. by rewrite list_lookup_alter_ne.
Qed.

Lemma stranded_set r i f s : ~ holds r f -> stranded r s -> stranded r (set_flights (<[i := f]> (cs_flights s)) s).
Proof.
  intros Hf Hs. eapply stranded_same; [done|done|]. intros f' Hin. simpl in Hin. apply list_elem_of_lookup in Hin as [j Hj].
  destruct (decide (i = j)) as [->|Hne].
  - destruct (decide (j < length (cs_flights s))); [rewrite list_lookup_insert_eq in Hj by done; injection Hj as <-; by right|].
    rewrite list_insert_ge in Hj by lia. left. by eapply list_elem_of_lookup_2.
  - rewrite list_lookup_insert_ne in Hj by done. left. by eapply list_elem_of_lookup_2.
Qed.

Lemma stranded_end r i s : stranded r s -> stranded r (end_flight i s).
Proof. apply stranded_set. by intros []. Qed.

Lemma stranded_error r r' error s : r' ≠ r -> stranded r s -> stranded r (record_error error r' s).
Proof. intros Hne Hs. unfold record_error. destruct (verdict_on error); [by apply stranded_other|done]. Qed.

Lemma stranded_allowed r r' s : stranded r s ->
  stranded r (allowed r' s).2 /\ (r' = r -> (allowed r' s).1 = false).
Proof.
  intros Hs. destruct (decide (r' = r)) as [->|Hne]; [|split; [by apply stranded_other|done]].
  pose proof Hs as [(b & Hb & H1 & H2) Hf].
  assert (Href : forall now later, isAllowed config now later b = (false, b)) by (intros; unfold isAllowed; by rewrite H1, H2).
  unfold allowed. simpl. unfold at_ref. rewrite Hb. simpl. rewrite Href. split; [|done].
  eapply stranded_same; [done| |by left]. intros b' Hb'. rewrite Hb in Hb'. injection Hb' as <-. simpl.
  rewrite list_lookup_alter_eq, Hb. simpl. by rewrite Href.
Qed.

Lemma stranded_iteration r key r' thrown s : stranded r s -> stranded r (iteration_begins key r' thrown s).2.
Proof.
  intros Hs. unfold iteration_begins. destruct (stranded_allowed r r' s Hs) as [Hal Hno].
  destruct (allowed r' s) as [ok s1]. simpl in *. destruct ok; simpl; [|done].
  assert (Hne : r' ≠ r) by (intros ->; by specialize (Hno eq_refl)).
  destruct thrown as [error|]; simpl.
  - destruct (_ && _); [|done]. destruct (verdict_on error); by apply stranded_other.
  - eapply stranded_same; [done|done|]. intros f [Hin| ->%list_elem_of_singleton]%elem_of_app; [by left|by right].
Qed.

Lemma evict_keys_heap sid keys : forall s, let t := foldl (evict_key sid) s keys in cs_heap t = cs_heap s /\ cs_flights t = cs_flights s.
Proof.
  induction keys as [|k keys IH]; intros s; simpl; [done|]. destruct (IH (evict_key sid s k)) as [-> ->]. unfold evict_key.
  destruct (m_get k (cs_keyOwners s)) as [owners|]; [|done]. destruct (decide _); [done|]. cbv zeta.
  match goal with |- context [if ?c then set_maps _ _ _ _ _ else _] => by destruct c end.
Qed.

(** Nothing ever ends the wait, and the calls of its key are all refused. *)
Lemma stranded_step r e s : indexed None s -> stranded r s ->
  stranded r (step e s).2 /\
  forall model ctx, e = ev_call model ctx -> m_get (extractKey model ctx) (cs_breakers s) = Some r ->
    (step e s).1 = oc_refused (createCircuitOpenError (extractKey model ctx)).
Proof.
  intros Hix Hs. pose proof Hs as [(b & Hb & H1 & H2) Hf]. pose proof (lookup_lt_Some _ _ _ Hb) as Hlt.
  destruct e as [model ctx|i error|model ctx|i thrown|i chunk|i|i error|i|sid].
  1, 3: pose proof (getOrCreate_spec (extractKey model ctx) s Hix) as Hg; simpl; unfold call_begins, stream_begins, getOrCreateBreaker in *.
  - destruct (m_get (extractKey model ctx) (cs_breakers s)) as [r1|] eqn:Hk.
    + destruct (track_rest (sessionId ctx) (extractKey model ctx) s) as (_ & Eh & Ef & _).
      assert (Ht : stranded r (trackSessionKey (sessionId ctx) (extractKey model ctx) s)).
      { eapply stranded_same; [done|by rewrite Eh|rewrite Ef; by left]. }
      destruct (stranded_allowed r r1 _ Ht) as [Hal Hno]. destruct (allowed r1 _) as [ok s2]. simpl in *. destruct ok; simpl.
      * assert (Hne : r1 ≠ r) by (intros ->; by specialize (Hno eq_refl)). split; [|intros ? ? [= <- <-]; congruence].
        eapply stranded_same; [done|done|]. intros f [Hin| ->%list_elem_of_singleton]%elem_of_app; [by left|by right].
      * split; [done|]. by intros ? ? [= <- <-].
    + split; [|intros ? ? [= <- <-]; congruence]. destruct (make_room s) as [s1|].
      * destruct (insert_fresh _ s1) as [r1 s2] eqn:Hi. destruct Hg as (_ & Hfl & Hh & _ & _ & [?|Hr1]); [done|].
        destruct (track_rest (sessionId ctx) (extractKey model ctx) s2) as (_ & Eh & Ef & _).
        assert (Ht : stranded r (trackSessionKey (sessionId ctx) (extractKey model ctx) s2)).
        { eapply stranded_same; [exact Hs|intros b'; rewrite Eh; apply Hh|rewrite Ef, Hfl; by left]. }
        destruct (stranded_allowed r r1 _ Ht) as [Hal Hno]. destruct (allowed r1 _) as [ok s3]. simpl in *. destruct ok; simpl; [|done].
        eapply stranded_same; [done|done|]. intros f [Hin| ->%list_elem_of_singleton]%elem_of_app; [by left|right]. simpl. lia.
      * by eapply stranded_same; [done|done|left].
  - split; [|done]. destruct (m_get (extractKey model ctx) (cs_breakers s)) as [r1|] eqn:Hk; [|destruct (make_room s) as [s1|]].
    + destruct (track_rest (sessionId ctx) (extractKey model ctx) s) as (_ & Eh & Ef & _). simpl.
      eapply stranded_same; [done|simpl; by rewrite Eh|]. simpl. rewrite Ef. intros f [Hin| ->%list_elem_of_singleton]%elem_of_app; [by left|by right; intros []].
    + destruct (insert_fresh _ s1) as [r1 s2] eqn:Hi. destruct Hg as (_ & Hfl & Hh & _).
      destruct (track_rest (sessionId ctx) (extractKey model ctx) s2) as (_ & Eh & Ef & _). simpl.
      eapply stranded_same; [done|simpl; rewrite Eh; exact (Hh r)|]. simpl. rewrite Ef, Hfl.
      intros f [Hin| ->%list_elem_of_singleton]%elem_of_app; [by left|by right; intros []].
    + by eapply stranded_same; [done|done|left].
  - split; [|done]. simpl. destruct (cs_flights s !! i) as [[r1| | |]|] eqn:Hi; simpl; try done.
    assert (Hne : r1 ≠ r) by (apply list_elem_of_lookup_2 in Hi; exact (Hf _ Hi)).
    apply stranded_end. destruct error; [by apply stranded_error|by apply stranded_other].
  - split; [|done]. simpl. destruct (cs_flights s !! i) as [[]|]; simpl; try done. by apply stranded_iteration.
  - split; [|done]. simpl. destruct (cs_flights s !! i) as [[| |r1 took started|]|] eqn:Hi; simpl; try done.
    assert (Hne : r1 ≠ r) by (apply list_elem_of_lookup_2 in Hi; exact (Hf _ Hi)).
    destruct chunk as [code| |]; simpl; [|by apply stranded_end, stranded_other|by apply stranded_set].
    apply stranded_end. destruct (statusFromCode code); [by apply stranded_other|done].
  - split; [|done]. simpl. destruct (cs_flights s !! i) as [[]|]; simpl; try done. by apply stranded_end.
  - split; [|done]. simpl. destruct (cs_flights s !! i) as [[| |r1 took started|]|] eqn:Hi; simpl; try done.
    assert (Hne : r1 ≠ r) by (apply list_elem_of_lookup_2 in Hi; exact (Hf _ Hi)). by apply stranded_end, stranded_error.
  - split; [|done]. simpl. destruct (cs_flights s !! i) as [[| |r1 took started|]|] eqn:Hi; simpl; try done.
    assert (Hne : r1 ≠ r) by (apply list_elem_of_lookup_2 in Hi; exact (Hf _ Hi)).
    apply stranded_end. destruct (_ && _); [by apply stranded_other|done].
  - split; [|done]. simpl. unfold evictSessionKeys. destruct (m_get sid (cs_keysBySession s)) as [keys|]; [|done].
    pose proof (evict_keys_heap sid keys (set_maps (cs_breakers s) (m_delete sid (cs_keysBySession s)) (cs_keyOwners s) (cs_sharedKeys s) s)) as [E1 E2].
    eapply stranded_same; [done|by rewrite E1|rewrite E2; by left].
Qed.

Lemma stranded_forever r events : forall s, indexed None s -> stranded r s -> stranded r (run events s).2.
Proof.
  induction events as [|e events IH]; intros s Hix Hs; [done|]. simpl.
  pose proof (step_indexed e s Hix) as Hix'. destruct (stranded_step r e s Hix Hs) as [Hs' _].
  destruct (step e s) as [o s1]. specialize (IH s1 Hix' Hs'). by destruct (run events s1).
Qed.

End Middleware.

Lemma unhealthy_open config b now : cb_state b ≠ CLOSED -> unhealthy config b now = true.
Proof.
  intros Hb. unfold unhealthy, snapshot. destruct (scanRingBuffer config b now) as [count newest]. simpl.
  by rewrite bool_decide_eq_false_2 by done.
Qed.

(** ** A provider that fails once *)

Definition trip_config : CircuitBreakerConfig := mkBreakerConfig 1 10 1000 [500%Z].
Definition trip_clock (n : nat) : Z := 10 * Z.of_nat n.
Definition server_error : ThrownValue := Some (mkErrorObject (Some 500%Z) None None None None None None).
Definition abort_error : ThrownValue := Some (mkErrorObject None None None (Some "AbortError"%string) None None None).
Definition bad_request : ThrownValue := Some (mkErrorObject (Some 400%Z) None None None None None None).

Definition trip_run (maxKeys : nat) (events : list (Event (Ctx := string))) (s : CbState) : list Outcome * CbState :=
  run trip_config maxKeys id defaultExtractKey trip_clock events s.

Definition one_failure : list (Event (Ctx := string)) := [ev_call (Some "m/1"%string) "s"%string; ev_call_ends 0 (Some server_error)].

(** The only slot is taken by the open breaker, and another session gets none. *)
Lemma circuits_kept_witness :
  let s := (trip_run 1 one_failure initial).2 in
  relied_on trip_config trip_clock "m|s" 0 s /\
  m_get "m|s"%string (cs_breakers (step trip_config 1 id defaultExtractKey trip_clock (ev_call (Some "m/1"%string) "t"%string) s).2) = Some 0.
Proof.
  pose proof (circuits_kept trip_config 1 id defaultExtractKey trip_clock one_failure (ev_call (Some "m/1"%string) "t"%string)) as H.
  cbv zeta in *. destruct H as (_ & _ & _ & H).
  assert (Hr : relied_on trip_config trip_clock "m|s" 0 (trip_run 1 one_failure initial).2).
  { split; [by vm_compute|]. split; [by vm_compute|]. intros n _. apply unhealthy_open. by vm_compute. }
  split; [done|]. apply H; [done|]. intros sid Hsid. discriminate.
Defined.

(** The probe after the cooldown is aborted by its caller, or answered with a
    status that does not count: it is never given back, and every later call of
    the session is refused although the provider is well. *)
Lemma lost_probe_wedges error later : error = abort_error \/ error = bad_request ->
  let s := (trip_run 5 (one_failure ++ [ev_call (Some "m/1"%string) "s"%string; ev_call_ends 1 (Some error)]) initial).2 in
  let s' := (trip_run 5 later s).2 in
  m_get "m|s"%string (cs_breakers s') = Some 0 ->
  (step trip_config 5 id defaultExtractKey trip_clock (ev_call (Some "m/1"%string) "s"%string) s').1 =
    oc_refused (createCircuitOpenError "m|s").
Proof.
  intros Herr s s' Hbound.
  assert (Hix : indexed 5 None s) by apply run_indexed, indexed_initial.
  assert (Hs : stranded 0 s).
  { assert (Hfl : cs_flights s = [fl_over; fl_over]) by (unfold s; destruct Herr as [-> | ->]; by vm_compute).
    assert (Hheap : cs_heap s = [mkBreaker HALF_OPEN 60 true [30%Z] 1 1]) by (unfold s; destruct Herr as [-> | ->]; by vm_compute).
    constructor; [by rewrite Hheap; eexists|]. rewrite Hfl. intros f [->|[->|Hf%elem_of_nil]%elem_of_cons]%elem_of_cons; [by intros []..|done]. }
  assert (Hs' : stranded 0 s') by (by apply stranded_forever).
  assert (Hix' : indexed 5 None s') by (by apply run_indexed).
  exact (proj2 (stranded_step trip_config 5 id defaultExtractKey trip_clock 0 _ s' Hix' Hs') (Some "m/1"%string) "s"%string eq_refl Hbound).
Qed.

(** The cap is hard where no breaker is idle or without an owner. *)
Lemma full_map_refuses :
  (trip_run 1 (one_failure ++ [ev_call (Some "m/1"%string) "t"%string]) initial).1 !! 2 =
    Some (oc_refused (createCapacityExhaustedError "m|t" 1)).
Proof. by vm_compute. Qed.
